(* ===== verification/_CoqProject ===== *)
-Q . S2P
Prelude.v
BinarySearch.v
StoragePath.v
Capabilities.v
HttpError.v
Keys.v
Tenant.v
Quota.v
Database.v
Users.v
Signup.v
Authorization.v
GrantTokens.v
Grants.v
GrantProofs.v
GrantSessions.v
PopReplay.v
CookieAuth.v
CookieProofs.v
Authentication.v
Entries.v
EntryLocks.v
Events.v
EventStreams.v
StreamProofs.v
StreamAccess.v
StreamGuard.v
StreamRevocation.v
Finalization.v
Accounting.v
AppState.v
LockRoutes.v
Refinement.v
Uploads.v
StagedPublish.v
StagedProofs.v
GcsRepair.v
GcsRepairProofs.v
GcsRepairRuns.v
ClientAddress.v
RequestLimits.v
LimitProofs.v
BandwidthLimits.v
BandwidthProofs.v
ReadRoutes.v
Listing.v
Reading.v
StoredContent.v
Websites.v
SdkLocks.v
SdkResource.v
SdkEvents.v
EncryptionKeys.v
DeepLinks.v
SdkApproval.v
SdkRelay.v
SdkCredential.v
SdkSignin.v
SdkFlow.v
SdkPkdns.v
Republishers.v
SharedSession.v
BrowserStore.v
Reachability.v
AdminRoutes.v
UserPaging.v
