(* ===== verification/Prelude.v ===== *)
(** A verification of the pubky homeserver and of the core of its client:
    storage, authentication, events.

    * The program

    A pubky homeserver stores the files of its users, each named by a public
    key.  A request names an owner and a path (as [/storage/<key>/<path>], or
    in the legacy form with the owner in a header, query or host), carries a
    session, and reads, writes, locks or deletes one path.  A write streams its
    body through layers of storage operators: the write-path layer refuses
    paths the owner's quota does not allow; the finalization layer counts and
    hashes the body and, when it is complete, publishes the blob and records
    the entry, the event and the owner's used bytes in one database
    transaction that starts by locking the owner's row.  Events are numbered by
    the database; a poller broadcasts the committed ones to live readers.
    Administrators disable users and patch quotas, which an in-memory cache
    serves to requests.

    Accounts are created by a signup, against a code where the server asks for
    one.  A session comes from a grant (a token the user signed for a client
    key, exchanged with a proof of possession for a bearer) or, in the legacy
    form, from a signed auth token exchanged for a cookie.  Readers follow
    events as a page of a feed or as a stream that replays the stored events
    and then goes over to the broadcast ones.

    The client library is the other half.  An app shows a deep link; the user's
    signer reads it, signs a grant and sends it back, sealed, over a relay; the
    app opens it, exchanges the grant for a bearer, and refreshes the bearer as
    it expires - in a browser, for all tabs together.  With it the app
    addresses resources, lists directories and follows events.

    * The development

    - [Prelude]: results, strings, machine integers, lists, automation;
      [BinarySearch]: the standard library's search of sorted vectors.
    - [StoragePath] and [Capabilities]: [pubky-common/src/storage_path.rs] and
      [capabilities.rs], the canonical paths and what a session may do.
    - [HttpError], [Keys], [Tenant]: [shared/http_error.rs],
      [pubky-common/src/keys.rs] with [shared/webdav/], and
      [client_server/middleware/{request_tenant,pubky_host}.rs].
    - [Quota]: [shared/quota/].
    - [Database]: the tables, the clock and the statements' effect; [Users],
      [Entries], [EntryLocks] and [Events] are the repositories of
      [persistence/sql/entities/] with the services on top of them
      ([services/user_service/], [services/events_service/service.rs],
      [persistence/sql/pg_event_listener.rs]).
    - [Authorization]: [client_server/auth/{authorization,session}.rs] and
      [routes/tenants/authorize.rs].
    - [Signup]: [persistence/sql/entities/signup_code.rs] and
      [client_server/auth/signup_service.rs].
    - [GrantTokens] and [Grants]: the tokens ([pubky-common/src/auth/],
      [client_server/auth/grant/{crypto,bearer}]), and the tables, the service
      and the routes of [client_server/auth/grant/]; [GrantProofs] has the
      invariant of the tables and the steps, [GrantSessions] the exchange and
      revocation, [PopReplay] authenticity and replay.
    - [CookieAuth]: [client_server/auth/cookie/], [pubky-common/src/auth/auth_token.rs]
      and the authentication layers of [client_server/auth/middleware/], with
      [CookieProofs] (the replay guard) and [Authentication].
    - [EventStreams]: [services/events_service/{query,stream}.rs],
      [client_server/routes/events.rs]; [StreamProofs] and [StreamAccess].
      [StreamGuard] is [client_server/auth/{stream_auth.rs,revocation/}] and the
      route that opens a stream; [StreamRevocation] interleaves a connection
      with everything else.
    - [Finalization]: [persistence/files/write_finalization_layer/].
      [Accounting] states the storage invariant [storage_wf] and the abstract
      storage [Storage] with [spec_put] and [spec_delete]; [Refinement] proves
      that finalizing implements them.
    - [AppState], [LockRoutes], [Uploads]: the handlers of
      [client_server/routes/tenants/{lock,write}.rs] with the file service and
      the storage layers they go through.
    - [StagedPublish], [StagedProofs]: [persistence/files/staged_publish_layer.rs]
      over a store that may execute requests late; [StoredContent] puts it below
      the uploads ([BackendContract]).
    - [GcsRepair], [GcsRepairProofs], [GcsRepairRuns]:
      [persistence/files/opendal/gcs_name_repair.rs], its programs, their
      interleavings and its complete runs.
    - [ClientAddress], [RequestLimits], [LimitProofs], [BandwidthLimits],
      [BandwidthProofs]: [client_server/client_identity.rs], the rest of
      [shared/quota/] and [client_server/middleware/rate_limiter/].
    - [ReadRoutes], [Listing], [Reading]: [client_server/routes/tenants/read.rs]
      and [client_server/query_params.rs]; [Websites]:
      [client_server/routes/website.rs] and [client_server/cache_policy.rs].
    - [Reachability]: the storage of the server as a transition system.
    - [AdminRoutes]: [admin_server/], with [client_server/routes/account.rs] and
      [signup_tokens.rs]; [UserPaging]: the pages of [GET /users].
    - The client, [pubky-sdk/src/]: [SdkResource] and [SdkEvents]
      ([actors/storage/], [actors/event_stream.rs]), [DeepLinks]
      ([actors/auth/deep_links/]), [SdkApproval] ([actors/signer/auth.rs] and the
      approvals of [actors/auth/grant/]), [SdkRelay] ([actors/auth/relay/]),
      [SdkCredential] ([actors/auth/grant/{credential,pop_signer,grant_exchange}.rs]),
      [SdkFlow] ([actors/auth/grant/{builder,flow}.rs]), [SharedSession]
      ([actors/auth/grant/shared_session.rs]), [SdkPkdns] ([actors/pkdns.rs]),
      [SdkLocks] ([actors/storage/lock.rs]), [BrowserStore]
      ([bindings/js/src/actors/{session_store,browser_session}.rs]);
      [SdkSignin] and [SdkLocks] run the client against the server.
    - [EncryptionKeys]: [pubky-common/src/encryption_keys.rs]; [Republishers]:
      [republishers/user_keys_republisher.rs] and [republishers/pkarr_republisher/].

    Definitions keep the source's names, [Type::method] as [Type_method].
    Errors are values of [result]; handlers are state-passing functions: [DB]
    over the database, [FM] over database and store, [AM] over the whole
    application state.

    * What the theorems show

    - Paths and permissions: normalization accepts or returns a canonical path
      below the root, is the identity on canonical paths, and scopes cover by
      components; normalizing a capability list keeps exactly its permissions;
      capability lists and entry keys round-trip; a session may write exactly
      what its owner and capabilities allow.
    - Storage: [PUT], [DELETE] and the finalization steps refine the abstract
      storage for every body, every answer of the store and every schedule of
      database faults: the tables afterwards are those before, or those of
      exactly one put or delete.  In every reachable state the used bytes of a
      user are the bytes of that user's files, and no file is a folder of
      another unless an administrator, who may, wrote it.  Each guard of a write is proved to hold whenever it is
      published, and each refusal to have its cause.
    - Locks: mutual exclusion until the lifetime has passed, whatever others
      do; a write runs only on an unlocked path or with the live lock's token.
    - Quotas: text and column round trips, resolution against defaults, patch
      atomicity, the bounded cache.
    - Events: a page of a feed has no gap; the poller broadcasts every
      committed event once and in order; a forward stream sends what was asked
      for, in order and without gap, ends its replay, and shows nobody what they
      may not read.  One theorem exhibits the case in which a live stream does
      skip events: a database error during its replay.  A private stream of
      a revoked grant sends nothing more once the news has reached it, however
      it comes, and ends within a bounded number of turns.
    - Accounts: a signup is all or nothing and a code pays for one account.
    - Authentication: accepted tokens are signed by whom they name; an exchange
      yields one bearer that works as long as it should and no longer; a
      revocation is final; a cookie session resolves for its user until it is
      signed out; a request has an identity only by a live credential; an auth
      token signs in once, a proof of possession is good once.  The latter has
      one exception, which is a theorem too: a proof used in the first second of
      its window is accepted again later in the last one.
    - Reading: what [GET] and [HEAD] answer on every branch, conditional
      requests included; following the pages of a listing visits every file of
      a directory once and ends.  A file reads back as it was put, through
      staged publication, where no late request of the past replaces what is
      published.
    - Websites and caches: what a website request answers, and that nothing
      private is left to a shared cache.
    - Repair: it goes over every affected entry and leaves it readable under its
      own name, and no interleaving with clients, other repairs and late
      requests makes the content of an entry unavailable - unless a client
      writes the misnamed name itself at that moment, a race a theorem exhibits.
    - Limits: no key gets more requests through than its limit allows; throttled
      bodies arrive unchanged and at their rate.
    - Administration: only the password opens a route, and each route does what
      it says and nothing else.
    - The client: deep links are read back as printed; an accepted approval is
      one the user signed for this app and this request, opened with the key the
      request named; a pending flow, saved and restored or not, completes when
      the approval arrives within the failures its relay channel bears; a sign-in ends
      with a bearer the server accepts; exported credentials restore; the tabs
      of a browser use the current bearer, and none once a sign-out is recorded
      until the grant is revoked at the server, which then has none; keys of
      files agree however they are derived; a subscription delivers the events
      the server sent; publishing a home server keeps a user's other records; a
      lock that is granted works until it ends; the saved sessions of a browser
      change only under their locks, and no change is lost - unless one grant is
      saved at two home servers, which an example exhibits.
    - Republishing: a run ends, handles every account once, and publishes only
      the newest packets that name this home server.

    * Bounds, time and faults

    Machine integers are [Z] with the width's wrap-around, cast or saturation
    written where the code has it.  The theorems on accounting assume
    [headroom]: the used bytes and lengths involved fit in 63 bits, the width
    of the columns.  A statement consumes a [Tick], which says how much time
    passes and whether it fails, before or after taking effect; a schedule of
    ticks is an arbitrary stream, so theorems hold for every failure point and
    every delay.  Loops of the code recurse on the data they walk, on a count
    the code itself bounds (the poller's batches per wake-up), or on a fuel
    that is the length of the text they parse, which their lemmas show to be
    enough.  The fuel of [GcsRepair.repair_loop] is one more than the affected
    entries ([repair_covers_all]: that many batches end it), that of
    [UserPaging.walk_users] and of the walk over a listing one page more than
    there are accounts or files.  Polls of the relay recurse on the answers the
    relay gives; the steps of streams, repairs, republishers, tabs and requests are relations,
    without a bound.

    * What is assumed

    Third-party code is a class of operations with a class of its documented
    laws, each with an instance that satisfies them: [PkarrKeys] (z-base-32
    keys), [Governor] (token buckets), [JsonStrings] (JSON arrays of strings),
    [Backend] (the blob store, which promises nothing), [ContentTools]
    (hashing and MIME detection), [Base32], [Jws] (base64, JSON and JSON web
    tokens), [Sha256], [Calendar], [AuthTokenCodec] (postcard and ed25519),
    percent decoding; [ReadBackend], [ChunkedReads], [VersionedStore] and
    [ComposeBucket] (object stores), [HttpText] (dates and entity tags),
    [PgRegex] and [PgMatch] (PostgreSQL's regular expressions), [PercentEncoding],
    [UrlCodec], [QueryCodec], [RelayUrls] and [HostNames] (URLs), [IpNetworks],
    [GlobMatcher], [KeyedLimiters]; for the client [Base64Codec], [Base64Url],
    [Hkdf], [Signing], [Sealing], [ApprovalJson], [SignedTokens], [PopWriter],
    [ErrorTexts], [PkarrPackets].  Clocks and random values are arguments.
    PostgreSQL runs a statement
    on the tables as they are and a transaction as a whole or not at all; a
    request's transaction is not interleaved with another's, which the lock on
    the user's row gives for the rows it touches.  Between the statements of
    one handler the model lets time pass and statements fail; other requests
    are interleaved at the granularity of [Reachability.server_step] and, for
    locks, of single statements.

    * What is not modelled

    That a signed-out cookie silences its streams is modelled but not proved: it
    needs secrets that are never drawn twice.  The attributes of cookies and the
    rendering of server-sent events are left out, as are the bodies of a WebDAV
    answer of the admin server, which the [dav_server] crate makes.
    Input and output or wrappers of libraries are not modelled: the object
    store backends, connection pools and migrations, configuration and
    start-up, metrics and tracing, the packet of the server itself, recovery
    files (a password hash and a cipher), the HTTP transport of the client, the
    rest of its JavaScript bindings, the command line client, the testnet, tests and examples. *)

From Stdlib Require Export ZArith Lia.
From stdpp Require Export base option list strings sorting.
#[global] Open Scope Z_scope.

#[global] Arguments Z.eqb : simpl never.
#[global] Arguments Z.ltb : simpl never.
#[global] Arguments Z.leb : simpl never.
#[global] Arguments Z.max : simpl never.
#[global] Arguments Z.min : simpl never.

(** * Results *)

(** Rust's [Result<A, E>]. *)
Inductive result (E A : Type) : Type :=
| Ok (val : A)
| Err (err : E).
Arguments Ok {E A} _.
Arguments Err {E A} _.

#[export] Instance result_eq_dec {E A} `{EqDecision E, EqDecision A} :
  EqDecision (result E A).
Proof. solve_decision. Defined.

#[export] Instance result_ret {E} : MRet (result E) := @Ok E.
#[export] Instance result_bind {E} : MBind (result E) :=
  λ _ _ f r, match r with Ok a => f a | Err e => Err e end.
#[export] Instance result_fmap {E} : FMap (result E) :=
  λ _ _ f r, match r with Ok a => Ok (f a) | Err e => Err e end.

(** [Result::map_err]. *)
Definition map_err {E F A} (f : E → F) (r : result E A) : result F A :=
  match r with Ok a => Ok a | Err e => Err (f e) end.

(** [Option::ok_or]. *)
Definition ok_or {E A} (o : option A) (e : E) : result E A :=
  match o with Some a => Ok a | None => Err e end.

(** [Result::ok]. *)
Definition ok {E A} (r : result E A) : option A :=
  match r with Ok a => Some a | Err _ => None end.

Definition is_ok {E A} (r : result E A) : bool :=
  match r with Ok _ => true | Err _ => false end.

(** [Iterator::collect] into a [Result<Vec<_>, _>]: stops at the first error. *)
Fixpoint collect_results {E A} (l : list (result E A)) : result E (list A) :=
  match l with
  | [] => Ok []
  | r :: l => x ← r; xs ← collect_results l; Ok (x :: xs)
  end.

Lemma collect_results_map_ok {E A B} (f : A → result E B) (g : A → B) l :
  (∀ x, x ∈ l → f x = Ok (g x)) → collect_results (map f l) = Ok (map g l).
Proof.
  induction l as [|x l IH]; intros H; [done|]. cbn.
  rewrite (H x) by left. cbn. rewrite IH; [done|]. intros y Hy. apply H. by right.
Qed.

Lemma collect_results_elem {E A} (l : list (result E A)) xs x :
  collect_results l = Ok xs → x ∈ xs → Ok x ∈ l.
Proof.
  revert xs. induction l as [|[y|e] l IH]; intros xs; cbn; [by intros [= <-] ?%elem_of_nil| |done].
  destruct (collect_results l) as [ys|]; cbn; [|done].
  intros [= <-] [->|Hx]%elem_of_cons; [by left|right; by eapply IH].
Qed.

Lemma triple_eta {A B C} (x : A * B * C) : x = (x.1.1, x.1.2, x.2).
Proof. by destruct x as [[? ?] ?]. Qed.

(** * Strings *)

(** A Rust [str]/[String] is the list of its Unicode scalar values. *)
Abbreviation str := (list Z).

(** An ASCII literal. *)
Definition char_of (a : Ascii.ascii) : Z := Z.of_N (Ascii.N_of_ascii a).
Fixpoint lit (s : string) : str :=
  match s with
  | EmptyString => []
  | String a s => char_of a :: lit s
  end.

Definition SLASH : Z := 47.
Definition BACKSLASH : Z := 92.
Definition COLON : Z := 58.
Definition COMMA : Z := 44.

(** [char::len_utf8]. *)
Definition len_utf8 (c : Z) : Z :=
  if c <? 128 then 1 else if c <? 2048 then 2 else if c <? 65536 then 3 else 4.

(** [str::len]: the UTF-8 byte length. *)
Definition str_len (s : str) : Z := foldr (λ c n, len_utf8 c + n) 0 s.

(** [char::is_control]: general category Cc. *)
Definition is_control (c : Z) : bool :=
  ((0 <=? c) && (c <=? 31)) || ((127 <=? c) && (c <=? 159)).

(** [char::is_whitespace]: the Unicode White_Space property. *)
Definition is_whitespace (c : Z) : bool :=
  ((9 <=? c) && (c <=? 13)) || (c =? 32) || (c =? 133) || (c =? 160)
  || (c =? 5760) || ((8192 <=? c) && (c <=? 8202)) || (c =? 8232) || (c =? 8233)
  || (c =? 8239) || (c =? 8287) || (c =? 12288).

(** [char::is_ascii_digit]. *)
Definition is_ascii_digit (c : Z) : bool := (48 <=? c) && (c <=? 57).

(** [str::starts_with] for a string pattern. *)
Fixpoint starts_with (s p : str) {struct p} : bool :=
  match p, s with
  | [], _ => true
  | c :: p, d :: s => (c =? d) && starts_with s p
  | _ :: _, [] => false
  end.

(** [str::strip_prefix]. *)
Fixpoint strip_prefix (s p : str) {struct p} : option str :=
  match p, s with
  | [], _ => Some s
  | c :: p, d :: s => if c =? d then strip_prefix s p else None
  | _ :: _, [] => None
  end.

(** [str::starts_with], [str::ends_with], [str::contains] for a character. *)
Definition starts_with_char (s : str) (c : Z) : bool :=
  match s with d :: _ => c =? d | [] => false end.
Definition ends_with_char (s : str) (c : Z) : bool :=
  match last s with Some d => c =? d | None => false end.
Definition contains_char (s : str) (c : Z) : bool := existsb (Z.eqb c) s.

(** [str::strip_suffix] for a character. *)
Definition strip_suffix_char (s : str) (c : Z) : option str :=
  if ends_with_char s c then Some (removelast s) else None.

(** [str::split] on a character: always a non-empty list of pieces. *)
Fixpoint split (c : Z) (s : str) : list str :=
  match s with
  | [] => [[]]
  | d :: s =>
      if c =? d then [] :: split c s
      else match split c s with
           | p :: ps => (d :: p) :: ps
           | [] => [[d]]
           end
  end.

(** [str::split_once] on a character. *)
Fixpoint split_once (c : Z) (s : str) : option (str * str) :=
  match s with
  | [] => None
  | d :: s =>
      if c =? d then Some ([], s)
      else match split_once c s with
           | Some (a, b) => Some (d :: a, b)
           | None => None
           end
  end.

(** [str::rsplit_once] on a character. *)
Definition rsplit_once (c : Z) (s : str) : option (str * str) :=
  match split_once c (reverse s) with
  | Some (b, a) => Some (reverse a, reverse b)
  | None => None
  end.

(** [slice::join] for a one-character separator. *)
Fixpoint join (c : Z) (ps : list str) : str :=
  match ps with
  | [] => []
  | [p] => p
  | p :: ps => p ++ c :: join c ps
  end.

(** [str::trim]. *)
Fixpoint trim_start (s : str) : str :=
  match s with c :: s' => if is_whitespace c then trim_start s' else s | [] => [] end.
Definition trim (s : str) : str := reverse (trim_start (reverse (trim_start s))).

(** [char::to_ascii_lowercase] and [str::eq_ignore_ascii_case]. *)
Definition to_ascii_lowercase (c : Z) : Z := if (65 <=? c) && (c <=? 90) then c + 32 else c.
Definition eq_ignore_ascii_case (a b : str) : bool :=
  bool_decide (map to_ascii_lowercase a = map to_ascii_lowercase b).

(** [str::from_utf8]: the scalar values of well-formed UTF-8; overlong forms,
    surrogates and values past U+10FFFF are refused. *)
Definition utf8_cont (b : Z) : bool := (128 <=? b) && (b <=? 191).
Fixpoint from_utf8 (bs : list Z) : option str :=
  match bs with
  | [] => Some []
  | b :: bs =>
      if b <? 128 then (λ s, b :: s) <$> from_utf8 bs
      else match bs with
      | b1 :: bs1 =>
          if negb (utf8_cont b1) then None
          else if (194 <=? b) && (b <=? 223) then
            (λ s, (b - 192) * 64 + (b1 - 128) :: s) <$> from_utf8 bs1
          else match bs1 with
          | b2 :: bs2 =>
              if negb (utf8_cont b2) then None
              else if (224 <=? b) && (b <=? 239) then
                let c := (b - 224) * 4096 + (b1 - 128) * 64 + (b2 - 128) in
                if (c <? 2048) || ((55296 <=? c) && (c <=? 57343)) then None
                else (λ s, c :: s) <$> from_utf8 bs2
              else match bs2 with
              | b3 :: bs3 =>
                  let c := (b - 240) * 262144 + (b1 - 128) * 4096 + (b2 - 128) * 64 + (b3 - 128) in
                  if utf8_cont b3 && (240 <=? b) && (65536 <=? c) && (c <=? 1114111)
                  then (λ s, c :: s) <$> from_utf8 bs3 else None
              | [] => None
              end
          | [] => None
          end
      | [] => None
      end
  end.

(** Byte order of two strings ([str: Ord], SQL [COLLATE "C"]): UTF-8 keeps the
    order of the code points, so the lexicographic order of the code points. *)
Fixpoint str_ltb (a b : str) : bool :=
  match a, b with
  | _, [] => false
  | [], _ :: _ => true
  | x :: a, y :: b => (x <? y) || ((x =? y) && str_ltb a b)
  end.

(** * Decimal integers *)

Fixpoint show_fuel (k : nat) (n : Z) : str :=
  match k with
  | O => []
  | S k => if n <? 10 then [48 + n] else show_fuel k (n / 10) ++ [48 + n mod 10]
  end.

(** [Display] of a non-negative integer. *)
Definition show_uint (n : Z) : str := show_fuel (S (Z.to_nat (Z.log2 n))) n.

Definition digit_step (acc c : Z) : Z := acc * 10 + (c - 48).

Definition parse_digits (s : str) : option Z :=
  match s with
  | [] => None
  | _ => if forallb is_ascii_digit s then Some (foldl digit_step 0 s) else None
  end.

(** [str::parse] into an unsigned integer with largest value [max]: an
    optional leading [+], then at least one digit. *)
Definition parse_uint (max : Z) (s : str) : option Z :=
  let digits := match s with c :: s' => if c =? 43 then s' else s | [] => s end in
  n ← parse_digits digits;
  if n <=? max then Some n else None.

(** [str::parse] into a signed integer of range [min..max]. *)
Definition parse_int (min max : Z) (s : str) : option Z :=
  match s with
  | c :: s' =>
      if c =? 45
      then n ← parse_digits s'; if min <=? - n then Some (- n) else None
      else parse_uint max s
  | [] => None
  end.

(** * Machine integers *)

Definition U16_MAX : Z := 65535.
Definition U32_MAX : Z := 4294967295.
Definition U64_MAX : Z := 18446744073709551615.
Definition I32_MAX : Z := 2147483647.
Definition I64_MIN : Z := -9223372036854775808.
Definition I64_MAX : Z := 9223372036854775807.

Definition in_u16 (n : Z) : Prop := 0 ≤ n ≤ U16_MAX.
Definition in_u32 (n : Z) : Prop := 0 ≤ n ≤ U32_MAX.
Definition in_u64 (n : Z) : Prop := 0 ≤ n ≤ U64_MAX.
Definition in_i64 (n : Z) : Prop := I64_MIN ≤ n ≤ I64_MAX.

(** [as i64] on an integer and [as u64] on an [i64]: two's complement. *)
Definition as_i64 (n : Z) : Z := (n + 9223372036854775808) mod 18446744073709551616 - 9223372036854775808.
Definition as_u16 (n : Z) : Z := n mod 65536.
Definition as_u64 (n : Z) : Z := n mod 18446744073709551616.

Lemma as_i64_small n : 0 ≤ n ≤ I64_MAX → as_i64 n = n.
Proof. unfold as_i64, I64_MAX. intros ?. rewrite Z.mod_small by lia. lia. Qed.
Lemma as_u64_small n : 0 ≤ n ≤ I64_MAX → as_u64 n = n.
Proof. unfold as_u64, I64_MAX. intros ?. by rewrite Z.mod_small by lia. Qed.

(** A cast to [i64] that is not negative did not wrap. *)
Lemma as_i64_nonneg n : in_u64 n → 0 ≤ as_i64 n → n ≤ I64_MAX.
Proof.
  unfold in_u64, as_i64, U64_MAX, I64_MAX. intros Hn Hi.
  destruct (Z.le_gt_cases n 9223372036854775807); [done|].
  rewrite <-(Z.mod_unique_pos (n + 9223372036854775808) 18446744073709551616 1 (n - 9223372036854775808)) in Hi; lia.
Qed.

(** [u64::saturating_add_signed], [saturating_sub], [saturating_add], [saturating_mul]. *)
Definition u64_saturating_add_signed (a b : Z) : Z := Z.max 0 (Z.min U64_MAX (a + b)).
Definition u64_saturating_sub (a b : Z) : Z := Z.max 0 (a - b).
Definition u64_saturating_add (a b : Z) : Z := Z.min U64_MAX (a + b).
Definition u64_saturating_mul (a b : Z) : Z := Z.min U64_MAX (a * b).
Definition u32_saturating_mul (a b : Z) : Z := Z.min U32_MAX (a * b).

(** * Tactics *)

(** Case analysis on every [if]/[match] scrutinee of a result computation
    that is known to be [Ok]. *)
Ltac step_ok H :=
  repeat (cbn [mbind result_bind fmap result_fmap mret result_ret] in H;
          match type of H with
          | context [match ?x with _ => _ end] => destruct x eqn:?; try discriminate H
          end).

Ltac bool_to_prop :=
  repeat match goal with
  | H : (_ && _)%bool = true |- _ => apply andb_true_iff in H; destruct H
  | H : (_ || _)%bool = false |- _ => apply orb_false_iff in H; destruct H
  | H : (_ =? _)%Z = true |- _ => apply Z.eqb_eq in H
  | H : (_ =? _)%Z = false |- _ => apply Z.eqb_neq in H
  | H : (_ <? _)%Z = true |- _ => apply Z.ltb_lt in H
  | H : (_ <? _)%Z = false |- _ => apply Z.ltb_ge in H
  | H : (_ <=? _)%Z = true |- _ => apply Z.leb_le in H
  | H : (_ <=? _)%Z = false |- _ => apply Z.leb_gt in H
  | H : negb _ = true |- _ => apply negb_true_iff in H
  | H : negb _ = false |- _ => apply negb_false_iff in H
  end.

(** Membership in an explicit list. *)
Ltac in_list := apply list_elem_of_In; cbn; repeat (first [left; reflexivity|right]).

(** Decides the equality of literal keys. *)
Ltac pick_keys :=
  repeat match goal with
         | |- context [decide (lit ?a = lit ?a)] => rewrite (decide_True (P := lit a = lit a)) by reflexivity
         | |- context [decide (lit ?a = lit ?b)] =>
             rewrite (decide_False (P := lit a = lit b)) by (let E := fresh in intros E; vm_compute in E; discriminate)
         end.

(** * Lemmas on strings *)

Lemma starts_with_spec s p : starts_with s p = true ↔ p `prefix_of` s.
Proof.
  revert s; induction p as [|c p IH]; intros s; cbn.
  - split; [intros _; apply prefix_nil|done].
  - destruct s as [|d s].
    + split; [done|]. intros [k Hk]. done.
    + rewrite andb_true_iff, Z.eqb_eq, IH. split.
      * intros [-> H]. by apply prefix_cons.
      * intros H. split; [by apply prefix_cons_inv_1 in H|by apply prefix_cons_inv_2 in H].
Qed.

Lemma strip_prefix_spec s p t : strip_prefix s p = Some t ↔ s = p ++ t.
Proof.
  revert s; induction p as [|c p IH]; intros s; cbn.
  - split; congruence.
  - destruct s as [|d s]; [split; done|].
    destruct (Z.eqb_spec c d) as [->|]; [|split; congruence].
    rewrite IH. split; congruence.
Qed.

Lemma starts_with_refl s : starts_with s s = true.
Proof. apply starts_with_spec. reflexivity. Qed.

Lemma starts_with_trans s p q :
  starts_with s p = true → starts_with p q = true → starts_with s q = true.
Proof. rewrite !starts_with_spec. intros ? ?. by transitivity p. Qed.

Lemma contains_char_spec s c : contains_char s c = true ↔ c ∈ s.
Proof.
  unfold contains_char. rewrite existsb_exists. setoid_rewrite <-list_elem_of_In.
  split; [intros (x & ? & ->%Z.eqb_eq); done|].
  intros. exists c. by rewrite Z.eqb_refl.
Qed.

Lemma contains_char_false s c : contains_char s c = false ↔ c ∉ s.
Proof. rewrite <-not_true_iff_false, contains_char_spec. done. Qed.

Lemma ends_with_char_spec s c : ends_with_char s c = true ↔ ∃ t, s = t ++ [c].
Proof.
  unfold ends_with_char. split.
  - destruct (last s) eqn:E; [|done]. intros <-%Z.eqb_eq.
    apply last_Some in E. naive_solver.
  - intros [t ->]. rewrite last_snoc. apply Z.eqb_refl.
Qed.

(** ** Splitting and joining *)

Lemma split_nonempty c s : split c s ≠ [].
Proof. destruct s as [|d s]; cbn; [done|]. destruct (c =? d), (split c s); done. Qed.

Lemma join_cons c p ps : ps ≠ [] → join c (p :: ps) = p ++ c :: join c ps.
Proof. by destruct ps. Qed.

Lemma join_split c s : join c (split c s) = s.
Proof.
  induction s as [|d s IH]; [done|]. cbn.
  destruct (Z.eqb_spec c d) as [->|].
  - rewrite join_cons by apply split_nonempty. cbn. by rewrite IH.
  - destruct (split c s) as [|p ps] eqn:E; [by destruct (split_nonempty c s)|].
    destruct ps; cbn in *; congruence.
Qed.

Lemma split_no_sep c s p : p ∈ split c s → c ∉ p.
Proof.
  revert p; induction s as [|d s IH]; intros p; cbn.
  - intros ->%list_elem_of_singleton. apply not_elem_of_nil.
  - destruct (Z.eqb_spec c d) as [->|].
    + intros [->|?]%elem_of_cons; [apply not_elem_of_nil|auto].
    + destruct (split c s) as [|q qs]; intros [->|Hp]%elem_of_cons.
      * by intros ->%list_elem_of_singleton.
      * by apply elem_of_nil in Hp.
      * intros [?|?]%elem_of_cons; [done|]. apply (IH q); [by left|done].
      * apply IH. by right.
Qed.

Lemma split_app_sep c p s : c ∉ p → split c (p ++ c :: s) = p :: split c s.
Proof.
  induction p as [|d p IH]; intros Hp; cbn.
  - by rewrite Z.eqb_refl.
  - apply not_elem_of_cons in Hp as [? ?].
    rewrite IH by done. rewrite (proj2 (Z.eqb_neq c d)); done.
Qed.

Lemma split_no_sep_id c p : c ∉ p → split c p = [p].
Proof.
  induction p as [|d p IH]; [done|]. intros [? ?]%not_elem_of_cons. cbn.
  rewrite IH by done. rewrite (proj2 (Z.eqb_neq c d)); done.
Qed.

Lemma split_join c ps :
  ps ≠ [] → (∀ p, p ∈ ps → c ∉ p) → split c (join c ps) = ps.
Proof.
  induction ps as [|p ps IH]; intros Hne Hps; [done|].
  destruct ps as [|q ps].
  - apply split_no_sep_id, Hps. by left.
  - rewrite join_cons by done. rewrite split_app_sep by (apply Hps; by left).
    rewrite IH; [done|done|]. intros r Hr. apply Hps. by right.
Qed.

Lemma split_once_spec c s a b :
  split_once c s = Some (a, b) ↔ s = a ++ c :: b ∧ c ∉ a.
Proof.
  revert a b; induction s as [|d s IH]; intros a b; cbn.
  - split; [done|]. intros [H _]. by destruct a.
  - destruct (Z.eqb_spec c d) as [->|Hcd].
    + split.
      * intros [= <- <-]. split; [done|apply not_elem_of_nil].
      * intros [H Ha]. destruct a as [|e a]; cbn in H; [congruence|].
        injection H as -> ->. by apply not_elem_of_cons in Ha as [? _].
    + destruct (split_once c s) as [[a' b']|] eqn:E.
      * split.
        -- intros [= <- <-]. destruct (proj1 (IH a' b') eq_refl) as [-> ?].
           split; [done|]. by apply not_elem_of_cons.
        -- intros [H Ha]. destruct a as [|e a]; cbn in H; [congruence|].
           injection H as -> ->. apply not_elem_of_cons in Ha as [? ?].
           assert (Some (a', b') = Some (a, b)) as [= -> ->] by (by apply IH). done.
      * split; [done|]. intros [H Ha]. destruct a as [|e a]; cbn in H; [congruence|].
        injection H as -> ->. apply not_elem_of_cons in Ha as [? ?].
        assert (None = Some (a, b)) by (by apply IH). done.
Qed.

Lemma rsplit_once_spec c a b : c ∉ b → rsplit_once c (a ++ c :: b) = Some (a, b).
Proof.
  intros Hb. unfold rsplit_once.
  rewrite (proj2 (split_once_spec c _ (reverse b) (reverse a))).
  - by rewrite !reverse_involutive.
  - split; [|by rewrite elem_of_reverse].
    by rewrite reverse_app, reverse_cons, <-app_assoc.
Qed.

Lemma split_once_None c s : split_once c s = None ↔ c ∉ s.
Proof.
  induction s as [|d s IH]; cbn; [split; [intros _; apply not_elem_of_nil|done]|].
  rewrite not_elem_of_cons.
  destruct (Z.eqb_spec c d) as [->|]; [split; naive_solver|].
  destruct (split_once c s) as [[??]|]; naive_solver.
Qed.

Lemma str_len_app a b : str_len (a ++ b) = str_len a + str_len b.
Proof. unfold str_len. induction a as [|c a IH]; cbn; [done|]. rewrite IH. lia. Qed.

Lemma len_utf8_pos c : 1 ≤ len_utf8 c ≤ 4.
Proof. unfold len_utf8. repeat case_match; lia. Qed.

Lemma str_len_nonneg s : 0 ≤ str_len s.
Proof.
  unfold str_len. induction s as [|c s IH]; cbn; [done|]. pose proof (len_utf8_pos c). lia.
Qed.

(** ** Order *)

Lemma str_ltb_irrefl a : str_ltb a a = false.
Proof. induction a as [|x a IH]; cbn; [done|]. rewrite Z.ltb_irrefl, Z.eqb_refl, IH. done. Qed.

Lemma str_ltb_trans a b c : str_ltb a b = true → str_ltb b c = true → str_ltb a c = true.
Proof.
  revert b c; induction a as [|x a IH]; intros [|y b] [|z c]; cbn; try done.
  rewrite !orb_true_iff, !andb_true_iff, !Z.ltb_lt, !Z.eqb_eq.
  intros [?|[-> ?]] [?|[-> ?]]; [left; lia|by left|by left|right; split; [done|by eapply IH]].
Qed.

Lemma str_ltb_total a b : str_ltb a b = false → str_ltb b a = false → a = b.
Proof.
  revert b; induction a as [|x a IH]; intros [|y b]; cbn; try done.
  rewrite !orb_false_iff, !andb_false_iff, !Z.ltb_ge, !Z.eqb_neq.
  intros [? [?|?]] [? [?|?]]; try lia. f_equal; [lia|by apply IH].
Qed.

(** ** Decimal round trip *)

Lemma foldl_digit_snoc acc s d :
  foldl digit_step acc (s ++ [48 + d]) = foldl digit_step acc s * 10 + d.
Proof. rewrite foldl_app. cbn. unfold digit_step. lia. Qed.

Lemma is_ascii_digit_of d : 0 ≤ d < 10 → is_ascii_digit (48 + d) = true.
Proof. intros. unfold is_ascii_digit. apply andb_true_iff. split; apply Z.leb_le; lia. Qed.

Lemma show_fuel_spec k n :
  0 ≤ n < 2 ^ Z.of_nat k →
  (n = 0 → (0 < k)%nat) →
  show_fuel k n ≠ [] ∧ forallb is_ascii_digit (show_fuel k n) = true ∧
  foldl digit_step 0 (show_fuel k n) = n.
Proof.
  revert n; induction k as [|k IH]; intros n Hn H0.
  - cbn in Hn. assert (n = 0) as Hz by lia. specialize (H0 Hz). lia.
  - cbn [show_fuel]. destruct (Z.ltb_spec n 10) as [Hlt|Hge].
    + split; [done|]. split; [cbn; by rewrite is_ascii_digit_of by lia|].
      cbn. unfold digit_step. lia.
    + assert (0 < n / 10) by (apply Z.div_str_pos; lia).
      rewrite Nat2Z.inj_succ, Z.pow_succ_r in Hn by lia.
      assert (n / 10 < 2 ^ Z.of_nat k) by (apply Z.div_lt_upper_bound; lia).
      destruct (IH (n / 10)) as (? & Hd & Hv); [lia|lia|].
      pose proof (Z.mod_pos_bound n 10 ltac:(lia)).
      split; [by destruct (show_fuel k (n / 10))|]. split.
      * rewrite forallb_app, Hd. cbn. by rewrite is_ascii_digit_of by lia.
      * rewrite foldl_digit_snoc, Hv. pose proof (Z.div_mod n 10). lia.
Qed.

Lemma show_uint_spec n :
  0 ≤ n → show_uint n ≠ [] ∧ forallb is_ascii_digit (show_uint n) = true ∧
  foldl digit_step 0 (show_uint n) = n.
Proof.
  intros Hn. apply show_fuel_spec; [|lia]. split; [done|].
  rewrite Nat2Z.inj_succ, Z2Nat.id by apply Z.log2_nonneg.
  destruct (decide (n = 0)) as [->|]; [done|]. apply Z.log2_spec. lia.
Qed.

Lemma parse_digits_show n : 0 ≤ n → parse_digits (show_uint n) = Some n.
Proof.
  intros Hn. destruct (show_uint_spec n Hn) as (Hne & Hd & Hv).
  unfold parse_digits. destruct (show_uint n) as [|c s]; [done|]. by rewrite Hd, Hv.
Qed.

Lemma show_uint_inj a b : 0 ≤ a → 0 ≤ b → show_uint a = show_uint b → a = b.
Proof. intros Ha Hb E. pose proof (parse_digits_show a Ha) as H1. rewrite E, parse_digits_show in H1 by done. congruence. Qed.

Lemma show_uint_head n c s : 0 ≤ n → show_uint n = c :: s → is_ascii_digit c = true.
Proof.
  intros Hn E. destruct (show_uint_spec n Hn) as (_ & Hd & _).
  rewrite E in Hd. cbn in Hd. by apply andb_true_iff in Hd as [? _].
Qed.

Lemma parse_uint_show max n : 0 ≤ n ≤ max → parse_uint max (show_uint n) = Some n.
Proof.
  intros [Hn Hm]. unfold parse_uint.
  assert (match show_uint n with c :: s' => if c =? 43 then s' else show_uint n
          | [] => show_uint n end = show_uint n) as ->.
  { destruct (show_uint n) as [|c s] eqn:E; [done|].
    apply show_uint_head in E; [|done]. unfold is_ascii_digit in E.
    bool_to_prop. rewrite (proj2 (Z.eqb_neq c 43)) by lia. done. }
  rewrite parse_digits_show by done. cbn.
  by rewrite (proj2 (Z.leb_le n max)).
Qed.

Lemma parse_uint_range max s n : parse_uint max s = Some n → 0 ≤ n ≤ max.
Proof.
  unfold parse_uint. set (d := match s with [] => s | c :: s' => _ end).
  assert (∀ l acc, 0 ≤ acc → forallb is_ascii_digit l = true → 0 ≤ foldl digit_step acc l) as Hf.
  { clear. induction l as [|c l IH]; intros acc Ha Hl; cbn in *; [done|].
    apply andb_true_iff in Hl as [Hc Hl]. apply IH; [|done].
    unfold is_ascii_digit, digit_step in *. bool_to_prop. lia. }
  unfold parse_digits. destruct d as [|c l]; [done|].
  destruct (forallb is_ascii_digit (c :: l)) eqn:E; [|done].
  pose proof (Hf (c :: l) 0 ltac:(lia) E) as Hpos. generalize dependent (foldl digit_step 0 (c :: l)).
  intros m Hpos. cbn. destruct (Z.leb_spec m max); [|done]. intros [= <-]. lia.
Qed.

Lemma show_fuel_length k m n :
  0 ≤ n < 10 ^ Z.of_nat (S m) → (length (show_fuel k n) ≤ S m)%nat.
Proof.
  revert m n; induction k as [|k IH]; intros m n Hn; cbn [show_fuel]; [cbn; lia|].
  destruct (Z.ltb_spec n 10); [cbn; lia|].
  destruct m as [|m]; [cbn in Hn; lia|].
  rewrite length_app. cbn [length].
  specialize (IH m (n / 10)). rewrite Nat2Z.inj_succ, Z.pow_succ_r in Hn by lia.
  assert (0 ≤ n / 10) by (apply Z.div_pos; lia).
  assert (n / 10 < 10 ^ Z.of_nat (S m)) by (apply Z.div_lt_upper_bound; lia).
  specialize (IH ltac:(lia)). lia.
Qed.

Lemma str_len_digits s : forallb is_ascii_digit s = true → str_len s = Z.of_nat (length s).
Proof.
  unfold str_len. induction s as [|c s IH]; cbn; [done|]. intros [Hc Hs]%andb_true_iff.
  rewrite IH by done. unfold is_ascii_digit in Hc. unfold len_utf8. bool_to_prop.
  rewrite (proj2 (Z.ltb_lt c 128)) by lia. lia.
Qed.

(** ** Pairwise relations *)

Lemma StronglySorted_filter {A} (R : relation A) (P : A → Prop) `{∀ x, Decision (P x)} l :
  StronglySorted R l → StronglySorted R (filter P l).
Proof.
  induction 1 as [|x l Hl IH Hx]; [constructor|]. rewrite filter_cons.
  case_decide; [|done]. constructor; [done|]. apply Forall_forall.
  rewrite Forall_forall in Hx. intros y [_ Hy]%list_elem_of_filter. auto.
Qed.

Lemma NoDup_map_StronglySorted {A B} (f : A → B) l :
  NoDup (map f l) → StronglySorted (λ x y, f x ≠ f y) l.
Proof.
  induction l as [|x l IH]; cbn; intros Hl; [constructor|].
  apply NoDup_cons in Hl as [Hx Hl]. constructor; [auto|].
  apply Forall_forall. intros y Hy E. apply Hx. rewrite E.
  apply list_elem_of_fmap. eauto.
Qed.

Lemma filter_all {A} (P : A → Prop) `{∀ x, Decision (P x)} l : Forall P l → filter P l = l.
Proof.
  induction 1 as [|x l Hx _ IH]; [done|]. by rewrite filter_cons_True, IH by done.
Qed.

Lemma filter_none {A} (P : A → Prop) `{∀ x, Decision (P x)} l : Forall (λ x, ¬ P x) l → filter P l = [].
Proof.
  induction 1 as [|x l Hx _ IH]; [done|]. by rewrite filter_cons_False, IH by done.
Qed.

Lemma trim_plain s : Forall (λ c, is_whitespace c = false) s → trim s = s.
Proof.
  assert (∀ s, Forall (λ c, is_whitespace c = false) s → trim_start s = s) as Hstart.
  { destruct 1 as [|c s' Hc _]; cbn; [done|]. by rewrite Hc. }
  intros Hs. unfold trim. rewrite (Hstart s Hs), Hstart, reverse_involutive; [done|]. by apply Forall_reverse.
Qed.

Lemma NoDup_map_inj {A B} (f : A → B) l x y :
  NoDup (map f l) → x ∈ l → y ∈ l → f x = f y → x = y.
Proof.
  induction l as [|a l IH]; cbn; [by intros _ ?%elem_of_nil|].
  intros [Ha Hl]%NoDup_cons [->|Hx]%elem_of_cons [->|Hy]%elem_of_cons Hf; auto.
  - destruct Ha. apply list_elem_of_fmap. exists y. by rewrite Hf.
  - destruct Ha. apply list_elem_of_fmap. exists x. by rewrite Hf.
Qed.

(** * Bytes as letters *)

(** Two letters for a byte: a simple text encoding of bytes. *)
Definition letters_encode (bytes : list Z) : str := flat_map (λ b, [65 + b mod 256 / 16; 65 + b mod 16]) bytes.
Fixpoint letters_decode (s : str) : option (list Z) :=
  match s with
  | [] => Some []
  | a :: b :: s => bytes ← letters_decode s; Some (16 * (a - 65) + (b - 65) :: bytes)
  | _ => None
  end.

Lemma letters_roundtrip b : Forall (λ x, 0 ≤ x < 256) b → letters_decode (letters_encode b) = Some b.
Proof.
  induction 1 as [|x b Hx _ IH]; [done|]. unfold letters_encode in *. cbn in *. rewrite IH. cbn. do 2 f_equal.
  rewrite (Z.mod_small x 256) by lia. pose proof (Z.div_mod x 16 ltac:(lia)). lia.
Qed.

Lemma letters_range b c : c ∈ letters_encode b → 65 ≤ c ≤ 80.
Proof.
  intros Hc. induction b as [|x b IH]; [by apply elem_of_nil in Hc|]. unfold letters_encode in *. cbn in Hc.
  pose proof (Z.mod_pos_bound x 256 ltac:(lia)). pose proof (Z.mod_pos_bound x 16 ltac:(lia)).
  pose proof (Z.div_pos (x mod 256) 16 ltac:(lia) ltac:(lia)).
  pose proof (Z.div_lt_upper_bound (x mod 256) 16 16 ltac:(lia) ltac:(lia)).
  apply elem_of_cons in Hc as [->|[->|Hc]%elem_of_cons]; [lia|lia|by apply IH].
Qed.
