(* ===== verification/BinarySearch.v ===== *)
(** Binary search on a sorted vector, as [slice::binary_search] and
    [slice::partition_point] of the standard library do it, and lexicographic
    comparison of byte slices ([Ord] for [\[u8\]]). *)

From S2P Require Import Prelude.

(** * Comparing bytes *)

Fixpoint bytes_cmp (a b : list Z) : comparison :=
  match a, b with
  | [], [] => Eq
  | [], _ :: _ => Lt
  | _ :: _, [] => Gt
  | x :: a, y :: b => match x ?= y with Eq => bytes_cmp a b | c => c end
  end.

(** The laws of [Ord]. *)
Class Comparison {A} (cmp : A → A → comparison) : Prop := {
  cmp_eq a b : cmp a b = Eq ↔ a = b;
  cmp_opp a b : cmp b a = CompOpp (cmp a b);
  cmp_lt_trans a b c : cmp a b = Lt → cmp b c = Lt → cmp a c = Lt
}.

#[export] Instance Z_comparison : Comparison Z.compare.
Proof.
  split; [apply Z.compare_eq_iff|intros; apply Z.compare_antisym|].
  intros a b c. rewrite !Z.compare_lt_iff. lia.
Qed.

#[export] Instance bytes_comparison : Comparison bytes_cmp.
Proof.
  split.
  - induction a as [|x a IH]; intros [|y b]; cbn; [done..|].
    destruct (Z.compare_spec x y) as [->|?|?]; [rewrite IH|..]; split; try done; intros [= ?]; subst; (done || lia).
  - induction a as [|x a IH]; intros [|y b]; cbn; [done..|].
    rewrite (Z.compare_antisym x y). by destruct (x ?= y); cbn.
  - induction a as [|x a IH]; intros [|y b] [|z c]; cbn; try done.
    destruct (Z.compare_spec x y) as [->|?|?], (Z.compare_spec y z) as [->|?|?]; try done; intros Hab Hbc;
      (destruct (Z.compare_spec x z) || rewrite ?Z.compare_refl); subst; try done; try lia; eauto.
Qed.

(** [Ordering::then_with]. *)
Definition then_with (c d : comparison) : comparison := match c with Eq => d | _ => c end.

Lemma then_with_comparison {A B C} (f : A → B) (g : A → C) (cf : B → B → comparison) (cg : C → C → comparison)
    `{!Comparison cf, !Comparison cg} :
  (∀ a b, f a = f b → g a = g b → a = b) →
  Comparison (λ a b, then_with (cf (f a) (f b)) (cg (g a) (g b))).
Proof.
  intros Hinj. split.
  - intros a b. unfold then_with. destruct (cf (f a) (f b)) eqn:E; [|split; [done|]..].
    + rewrite cmp_eq. apply cmp_eq in E. split; [by apply Hinj|by intros ->].
    + intros ->. by rewrite (proj2 (cmp_eq _ _) eq_refl) in E.
    + intros ->. by rewrite (proj2 (cmp_eq _ _) eq_refl) in E.
  - intros a b. unfold then_with. rewrite (cmp_opp (f a)), (cmp_opp (g a)). by destruct (cf (f a) (f b)).
  - intros a b c. unfold then_with.
    destruct (cf (f a) (f b)) eqn:E1, (cf (f b) (f c)) eqn:E2; try done.
    + apply cmp_eq in E1, E2. rewrite E1, E2, (proj2 (cmp_eq _ _) eq_refl). apply cmp_lt_trans.
    + apply cmp_eq in E1. by rewrite E1, E2.
    + apply cmp_eq in E2. by rewrite <-E2, E1.
    + by rewrite (cmp_lt_trans _ _ _ E1 E2).
Qed.

(** * The search *)

(** Found at an index, or where it would go. *)
Inductive SearchResult := Found (i : nat) | InsertAt (i : nat).

Section BinarySearch.
Context {A : Type} (cmp : A → comparison) (l : list A).

Definition cmp_at (i : nat) : comparison := match l !! i with Some x => cmp x | None => Gt end.

(** The loop; [size] at least halves, so [size] rounds are enough. *)
Fixpoint search_loop (fuel base size : nat) : nat :=
  match fuel with
  | O => base
  | S fuel =>
      if Nat.leb size 1 then base
      else
        let half := Nat.div2 size in
        let mid := (base + half)%nat in
        let base := match cmp_at mid with Gt => base | _ => mid end in
        search_loop fuel base (size - half)
  end.

Definition binary_search_by : SearchResult :=
  match length l with
  | O => InsertAt 0
  | size =>
      let base := search_loop size 0 size in
      match cmp_at base with
      | Eq => Found base
      | Lt => InsertAt (base + 1)
      | Gt => InsertAt base
      end
  end.

(** The elements below the target come first, those above it last. *)
Definition ordered : Prop :=
  ∀ i j x y, (i < j)%nat → l !! i = Some x → l !! j = Some y →
    (cmp y = Lt → cmp x = Lt) ∧ (cmp x = Gt → cmp y = Gt).

Hypothesis Hord : ordered.

(** No element past the loop's window is below or equal to the target, and its
    start is not above it unless it is the start of the slice. *)
Definition window (base size : nat) : Prop :=
  (0 < size)%nat ∧ (base + size ≤ length l)%nat ∧
  (base = 0%nat ∨ cmp_at base ≠ Gt) ∧
  ∀ j x, (base + size ≤ j)%nat → l !! j = Some x → cmp x = Gt.

Lemma search_loop_window fuel base size :
  (size ≤ fuel)%nat → window base size → window (search_loop fuel base size) 1.
Proof.
  revert base size. induction fuel as [|fuel IH]; intros base size Hf Hw; [destruct Hw; lia|].
  cbn [search_loop]. destruct (Nat.leb_spec size 1) as [Hle|Hgt].
  { assert (size = 1%nat) as -> by (destruct Hw; lia). done. }
  destruct Hw as (Hs & Hlen & Hb & Hafter).
  assert (0 < Nat.div2 size < size ∧ 2 * Nat.div2 size ≤ size)%nat as Hhalf.
  { rewrite Nat.div2_div. split_and!; [apply Nat.div_str_pos; lia|apply Nat.div_lt; lia|].
    apply Nat.mul_div_le. lia. }
  apply IH; [lia|].
  destruct (l !! (base + Nat.div2 size)%nat) as [y|] eqn:Ey.
  2: { apply lookup_ge_None in Ey. lia. }
  assert (cmp_at (base + Nat.div2 size) = cmp y) as -> by (unfold cmp_at; by rewrite Ey).
  destruct (cmp y) eqn:Ec.
  - split_and!; [lia|lia|right; unfold cmp_at; by rewrite Ey, Ec|]. intros j x Hj. apply Hafter. lia.
  - split_and!; [lia|lia|right; unfold cmp_at; by rewrite Ey, Ec|]. intros j x Hj. apply Hafter. lia.
  - split_and!; [lia|lia|done|]. intros j x Hj Hx.
    destruct (decide (j = base + Nat.div2 size)%nat) as [->|Hne]; [congruence|].
    apply (Hord (base + Nat.div2 size)%nat j y x); [lia|done|done|done].
Qed.

Lemma binary_search_spec :
  match binary_search_by with
  | Found i => ∃ x, l !! i = Some x ∧ cmp x = Eq
  | InsertAt i =>
      (i ≤ length l)%nat ∧
      (∀ j x, (j < i)%nat → l !! j = Some x → cmp x = Lt) ∧
      (∀ j x, (i ≤ j)%nat → l !! j = Some x → cmp x = Gt)
  end.
Proof.
  unfold binary_search_by. destruct (length l) as [|n] eqn:El.
  { split_and!; [lia|intros; lia|]. intros j x _ Hx. apply lookup_lt_Some in Hx. lia. }
  rewrite <-El. destruct (search_loop_window (length l) 0 (length l)) as (_ & Hlen & Hb & Hafter); [lia|..].
  { split_and!; [lia|lia|by left|]. intros j x Hj Hx. apply lookup_lt_Some in Hx. lia. }
  set (base := search_loop _ _ _) in *. unfold cmp_at in *.
  destruct (l !! base) as [x|] eqn:Ex; [|apply lookup_ge_None in Ex; lia].
  destruct (cmp x) eqn:Ec; [by exists x|..].
  - split_and!; [lia| |].
    + intros j y Hj Hy. destruct (decide (j = base)) as [->|]; [congruence|].
      apply (Hord j base y x); [lia|done|done|done].
    + intros j y Hj. apply Hafter. lia.
  - destruct Hb as [Hb|?]; [|done]. split_and!; [lia|intros; lia|].
    intros j y _ Hy. destruct (decide (j = base)) as [->|]; [congruence|].
    apply (Hord base j x y); [lia|done|done|done].
Qed.

End BinarySearch.

(** [slice::partition_point]. *)
Definition partition_point {A} (pred : A → bool) (l : list A) : nat :=
  match binary_search_by (λ x, if pred x then Lt else Gt) l with Found i | InsertAt i => i end.

Lemma partition_point_drop {A} (pred : A → bool) (l : list A) :
  (∀ i j x y, (i < j)%nat → l !! i = Some x → l !! j = Some y → pred y = true → pred x = true) →
  drop (partition_point pred l) l = filter (λ x, pred x = false) l.
Proof.
  intros Hp. pose proof (binary_search_spec (λ x, if pred x then Lt else Gt) l) as Hs.
  unfold partition_point. destruct (binary_search_by _ l) as [i|i].
  { destruct Hs as (x & _ & Hx); [|by destruct (pred x)].
    intros i' j x y Hij Hx Hy. specialize (Hp i' j x y Hij Hx Hy). destruct (pred x), (pred y); naive_solver. }
  destruct Hs as (Hi & Hlo & Hhi).
  { intros i' j x y Hij Hx Hy. specialize (Hp i' j x y Hij Hx Hy). destruct (pred x), (pred y); naive_solver. }
  rewrite <-(take_drop i l) at 2. rewrite filter_app.
  assert (filter (λ x, pred x = false) (take i l) = []) as ->.
  { destruct (filter _ (take i l)) as [|x xs] eqn:E; [done|].
    assert (x ∈ filter (λ x, pred x = false) (take i l)) as [Hx Hin]%list_elem_of_filter by (rewrite E; left).
    apply elem_of_take in Hin as (j & Hj & Hlt). specialize (Hlo j x Hlt Hj). by rewrite Hx in Hlo. }
  symmetry. apply filter_all, Forall_forall. intros x Hin. apply list_elem_of_lookup in Hin as [j Hj]. rewrite lookup_drop in Hj.
  specialize (Hhi (i + j)%nat x ltac:(lia) Hj). by destruct (pred x).
Qed.
