(* ===== verification/StoragePath.v ===== *)
(** Canonical decoded storage paths ([pubky-common/src/storage_path.rs]):
    validation, normalization, scope coverage, and the proofs that
    normalization produces exactly the canonical paths and that coverage is
    the component-prefix order. *)

From S2P Require Import Prelude.

(** * Data *)

Definition MAX_STORAGE_PATH_SEGMENT_LENGTH : Z := 255.
Definition MAX_STORAGE_PATH_TOTAL_LENGTH : Z := 972.

Record StoragePath := mk_StoragePath { as_str : str }.

#[export] Instance StoragePath_eq_dec : EqDecision StoragePath.
Proof. solve_decision. Defined.

Inductive StoragePathError :=
| NotAbsolute
| EmptySegment
| CurrentDirectorySegment
| ParentDirectorySegment
| TraversalAboveRoot
| ControlCharacter
| Backslash
| TrailingWhitespace
| SegmentTooLong (actual maximum : Z)
| PathTooLong (actual maximum : Z).

#[export] Instance StoragePathError_eq_dec : EqDecision StoragePathError.
Proof. solve_decision. Defined.

Definition DOT : str := [46].
Definition DOTDOT : str := [46; 46].

(** * Validation *)

Definition validate_segment (segment : str) : result StoragePathError () :=
  if MAX_STORAGE_PATH_SEGMENT_LENGTH <? str_len segment then
    Err (SegmentTooLong (str_len segment) MAX_STORAGE_PATH_SEGMENT_LENGTH)
  else if existsb is_control segment then Err ControlCharacter
  else if contains_char segment BACKSLASH then Err Backslash
  else Ok ().

Definition validate_total_length (path : str) : result StoragePathError () :=
  if MAX_STORAGE_PATH_TOTAL_LENGTH <? str_len path then
    Err (PathTooLong (str_len path) MAX_STORAGE_PATH_TOTAL_LENGTH)
  else Ok ().

Definition validate_trailing_whitespace (path : str) : result StoragePathError () :=
  match last path with
  | Some c => if is_whitespace c then Err TrailingWhitespace else Ok ()
  | None => Ok ()
  end.

(** The [for (index, segment)] loop of [validate_canonical]; [index] counts up
    to [last_index]. *)
Fixpoint validate_segments (index last_index : nat) (segments : list str)
    : result StoragePathError () :=
  match segments with
  | [] => Ok ()
  | segment :: segments =>
      (if decide (segment = []) then
         if decide (index = last_index) then Ok () else Err EmptySegment
       else if decide (segment = DOT) then Err CurrentDirectorySegment
       else if decide (segment = DOTDOT) then Err ParentDirectorySegment
       else validate_segment segment) ;;
      validate_segments (S index) last_index segments
  end.

Definition validate_canonical (path : str) : result StoragePathError () :=
  if negb (starts_with_char path SLASH) then Err NotAbsolute
  else
    validate_total_length path ;;
    if decide (path = [SLASH]) then Ok ()
    else
      let without_root := tail path in
      let segments := split SLASH without_root in
      let last_index := (length segments - 1)%nat in
      validate_segments 0 last_index segments ;;
      validate_trailing_whitespace path ;;
      Ok ().

(** * Operations *)

Definition StoragePath_root : StoragePath := mk_StoragePath [SLASH].

Definition StoragePath_new (path : str) : result StoragePathError StoragePath :=
  validate_canonical path ;; Ok (mk_StoragePath path).

(** The [for segment in path.split('/').skip(1)] loop of [normalize];
    [segments] is the vector built so far. *)
Fixpoint normalize_loop (pieces segments : list str)
    : result StoragePathError (list str) :=
  match pieces with
  | [] => Ok segments
  | segment :: pieces =>
      if decide (segment = [] ∨ segment = DOT) then normalize_loop pieces segments
      else if decide (segment = DOTDOT) then
        match segments with
        | [] => Err TraversalAboveRoot
        | _ => normalize_loop pieces (removelast segments)
        end
      else
        validate_segment segment ;;
        normalize_loop pieces (segments ++ [segment])
  end.

Definition directory_shaped (path : str) : bool :=
  ends_with_char path SLASH
  || match last (split SLASH path) with
     | Some s => bool_decide (s = DOT ∨ s = DOTDOT)
     | None => false
     end.

Definition StoragePath_normalize (path : str) : result StoragePathError StoragePath :=
  if negb (starts_with_char path SLASH) then Err NotAbsolute
  else
    segments ← normalize_loop (tail (split SLASH path)) [];
    let canonical := SLASH :: join SLASH segments in
    let canonical :=
      if directory_shaped path && negb (bool_decide (canonical = [SLASH]))
      then canonical ++ [SLASH] else canonical in
    validate_total_length canonical ;;
    validate_trailing_whitespace canonical ;;
    Ok (mk_StoragePath canonical).

Definition StoragePath_is_root (p : StoragePath) : bool := bool_decide (as_str p = [SLASH]).
Definition StoragePath_is_directory (p : StoragePath) : bool := ends_with_char (as_str p) SLASH.
Definition StoragePath_is_file (p : StoragePath) : bool := negb (StoragePath_is_directory p).

Definition StoragePath_covers_path (self path : StoragePath) : bool :=
  bool_decide (self = path)
  || (StoragePath_is_directory self && starts_with (as_str path) (as_str self)).

(** The invariant of the newtype: a value was accepted by [new]. *)
Definition StoragePath_wf (p : StoragePath) : Prop := validate_canonical (as_str p) = Ok ().

(** * Component view *)

(** A canonical path as its components and whether it is directory-shaped;
    the root is the directory with no components. *)
Definition segment_ok (s : str) : Prop :=
  s ≠ [] ∧ s ≠ DOT ∧ s ≠ DOTDOT ∧ (SLASH ∉ s) ∧ validate_segment s = Ok ().

Definition render (segs : list str) (dir : bool) : str :=
  SLASH :: (join SLASH segs ++ (if dir && negb (bool_decide (segs = [])) then [SLASH] else [])).

(** [p] is the canonical rendering of [segs]/[dir]. *)
Definition is_path (p : StoragePath) (segs : list str) (dir : bool) : Prop :=
  as_str p = render segs dir ∧ Forall segment_ok segs ∧ (segs = [] → dir = true).

(** The pieces [split('/')] returns for a rendered path, after the leading
    empty one. *)
Definition pieces (segs : list str) (dir : bool) : list str :=
  match segs with
  | [] => [[]]
  | _ => segs ++ (if dir then [[]] else [])
  end.

Lemma join_app c (ps qs : list str) :
  ps ≠ [] → qs ≠ [] → join c (ps ++ qs) = join c ps ++ c :: join c qs.
Proof.
  intros Hps Hqs. induction ps as [|p ps IH]; [done|].
  destruct ps as [|p' ps]; cbn [app].
  - rewrite join_cons by done. done.
  - rewrite join_cons by done. rewrite (join_cons _ p) by done.
    cbn [app] in IH. rewrite IH by done. by rewrite <-app_assoc.
Qed.

Lemma pieces_ne segs dir : pieces segs dir ≠ [].
Proof. by destruct segs. Qed.

Lemma render_join segs dir : render segs dir = join SLASH ([] :: pieces segs dir).
Proof.
  rewrite join_cons by apply pieces_ne. unfold render. cbn [app]. f_equal.
  destruct segs as [|s segs]; [destruct dir; done|].
  rewrite bool_decide_eq_false_2 by done. unfold pieces.
  destruct dir; cbn [andb negb]; [|by rewrite !app_nil_r].
  rewrite join_app by done. done.
Qed.

Lemma pieces_no_slash segs dir p :
  Forall segment_ok segs → p ∈ pieces segs dir → SLASH ∉ p.
Proof.
  intros Hs. rewrite Forall_forall in Hs. destruct segs as [|s segs]; cbn.
  - intros ->%list_elem_of_singleton. apply not_elem_of_nil.
  - intros Hp. change (p ∈ (s :: segs) ++ (if dir then [[]] else [])) in Hp.
    apply elem_of_app in Hp as [Hp|Hp]; [by apply Hs in Hp as (_ & _ & _ & ? & _)|].
    destruct dir; [|by apply elem_of_nil in Hp].
    apply list_elem_of_singleton in Hp as ->. apply not_elem_of_nil.
Qed.

Lemma split_render segs dir :
  Forall segment_ok segs → split SLASH (render segs dir) = [] :: pieces segs dir.
Proof.
  intros Hs. rewrite render_join. apply split_join; [done|].
  intros p [->|Hp]%elem_of_cons; [apply not_elem_of_nil|by eapply pieces_no_slash].
Qed.

(** ** [validate_canonical] accepts exactly the renderings *)

Definition segment_valid (s : str) : Prop :=
  s ≠ [] ∧ s ≠ DOT ∧ s ≠ DOTDOT ∧ validate_segment s = Ok ().

Lemma validate_segments_snoc i init x :
  validate_segments i (i + length init)%nat (init ++ [x]) = Ok ()
  ↔ Forall segment_valid init ∧ (x = [] ∨ segment_valid x).
Proof.
  revert i; induction init as [|s init IH]; intros i; cbn [app length validate_segments].
  - rewrite Nat.add_0_r. unfold segment_valid.
    destruct (decide (x = [])) as [->|].
    { rewrite decide_True by done. cbn. split; [|done]. intros _. split; [constructor|by left]. }
    destruct (decide (x = DOT)); [cbn; split; [done|intuition congruence]|].
    destruct (decide (x = DOTDOT)); [cbn; split; [done|intuition congruence]|].
    destruct (validate_segment x) as [[]|]; cbn; [|split; [done|intuition congruence]].
    split; [|done]. intros _. split; [constructor|by right].
  - rewrite Forall_cons.
    assert (i ≠ i + S (length init))%nat by lia.
    replace (i + S (length init))%nat with (S i + length init)%nat in * by lia.
    unfold segment_valid at 1.
    destruct (decide (s = [])) as [->|].
    { rewrite decide_False by lia. cbn. split; [done|intuition congruence]. }
    destruct (decide (s = DOT)); [cbn; split; [done|intuition congruence]|].
    destruct (decide (s = DOTDOT)); [cbn; split; [done|intuition congruence]|].
    destruct (validate_segment s) as [[]|] eqn:E; cbn [mbind result_bind].
    + rewrite IH. intuition.
    + split; [done|intuition congruence].
Qed.

Lemma segment_valid_ok c s t :
  c = SLASH → s ∈ split c t → segment_valid s → segment_ok s.
Proof. intros -> Hs (? & ? & ? & ?). repeat split; try done. by eapply split_no_sep. Qed.

Lemma validate_total_length_Ok p :
  validate_total_length p = Ok () ↔ str_len p ≤ MAX_STORAGE_PATH_TOTAL_LENGTH.
Proof. unfold validate_total_length. destruct (Z.ltb_spec MAX_STORAGE_PATH_TOTAL_LENGTH (str_len p)); split; (done || lia). Qed.

Lemma starts_slash p : starts_with_char p SLASH = true ↔ ∃ t, p = SLASH :: t.
Proof.
  destruct p as [|d t]; cbn; [split; [done|by intros []]|].
  split; [intros <-%Z.eqb_eq; eauto|by intros (? & [= -> ->])].
Qed.

Lemma render_root dir : render [] dir = [SLASH].
Proof. by destruct dir. Qed.

(** What [validate_canonical] does with a path after its leading [/]. *)
Lemma validate_canonical_cons t :
  t ≠ [] →
  validate_canonical (SLASH :: t) = Ok () ↔
  str_len (SLASH :: t) ≤ MAX_STORAGE_PATH_TOTAL_LENGTH ∧
  validate_segments 0 (length (split SLASH t) - 1) (split SLASH t) = Ok () ∧
  validate_trailing_whitespace (SLASH :: t) = Ok ().
Proof.
  intros Ht. rewrite <-validate_total_length_Ok. unfold validate_canonical.
  change (starts_with_char (SLASH :: t) SLASH) with true. cbn [negb tail].
  destruct (validate_total_length _) as [[]|]; cbn [mbind result_bind]; [|naive_solver].
  rewrite decide_False by congruence.
  destruct (validate_segments _ _ _) as [[]|]; cbn [mbind result_bind]; [|naive_solver].
  destruct (validate_trailing_whitespace _) as [[]|]; cbn [mbind result_bind]; naive_solver.
Qed.

Lemma validate_segments_split t init x :
  split SLASH t = init ++ [x] →
  validate_segments 0 (length (split SLASH t) - 1) (split SLASH t) = Ok () ↔
  Forall segment_valid init ∧ (x = [] ∨ segment_valid x).
Proof.
  intros ->. rewrite <-(validate_segments_snoc 0 init x), length_app. cbn [length].
  by replace (length init + 1 - 1)%nat with (0 + length init)%nat by lia.
Qed.

Lemma canonical_render_inv t :
  t ≠ [] →
  validate_segments 0 (length (split SLASH t) - 1) (split SLASH t) = Ok () →
  ∃ segs dir, is_path (mk_StoragePath (SLASH :: t)) segs dir.
Proof.
  intros Ht Hv.
  destruct (exists_last (split_nonempty SLASH t)) as (init & x & E).
  destruct (proj1 (validate_segments_split _ _ _ E) Hv) as [Hinit Hx].
  assert (Forall segment_ok init) as Hok.
  { apply Forall_forall. intros s Hs. rewrite Forall_forall in Hinit.
    eapply segment_valid_ok; [done| |by apply Hinit]. rewrite E. apply elem_of_app. by left. }
  pose proof (join_split SLASH t) as Hj. rewrite E in Hj.
  destruct Hx as [->|Hx].
  - destruct init as [|s init]; [by cbn in Hj|].
    exists (s :: init), true. split; [|done]. cbn [as_str]. rewrite render_join.
    rewrite join_cons by done. cbn [app]. f_equal. by rewrite <-Hj at 1.
  - exists (init ++ [x]), false. split; [|split].
    + cbn [as_str]. rewrite render_join, join_cons by apply pieces_ne. cbn [app]. f_equal.
      unfold pieces. destruct (init ++ [x]) eqn:E'; [by destruct init|].
      by rewrite app_nil_r, <-Hj.
    + apply Forall_app. split; [done|]. constructor; [|constructor].
      eapply segment_valid_ok; [done| |done]. rewrite E. apply elem_of_app. right. by left.
    + by destruct init.
Qed.

Lemma segment_ok_valid s : segment_ok s → segment_valid s.
Proof. intros (? & ? & ? & ? & ?). done. Qed.

Lemma canonical_render segs dir :
  segs ≠ [] → Forall segment_ok segs →
  ∃ t, render segs dir = SLASH :: t ∧ t ≠ [] ∧
  validate_segments 0 (length (split SLASH t) - 1) (split SLASH t) = Ok ().
Proof.
  intros Hne Hs.
  exists (join SLASH (pieces segs dir)).
  assert (Forall segment_valid segs) as Hv.
  { eapply Forall_impl; [exact Hs|]. apply segment_ok_valid. }
  assert (split SLASH (join SLASH (pieces segs dir)) = pieces segs dir) as Hsp.
  { apply split_join; [apply pieces_ne|]. intros p Hp. by eapply pieces_no_slash. }
  split; [by rewrite render_join, join_cons by apply pieces_ne|]. split.
  { intros E. rewrite E in Hsp. destruct segs as [|s [|? ?]], dir; try done.
    inversion Hs as [|?? (? & _)]. destruct s; done. }
  destruct segs as [|s segs]; [done|]. unfold pieces in *. destruct dir.
  - apply (validate_segments_split _ (s :: segs) []); [done|]. split; [done|by left].
  - rewrite app_nil_r in *.
    destruct (exists_last (l := s :: segs)) as (init & x & E); [done|].
    apply (validate_segments_split _ init x); [by rewrite Hsp|].
    rewrite E in Hv. apply Forall_app in Hv as [? Hx]. split; [done|].
    right. by inversion Hx.
Qed.

(** A well-formed path is exactly a rendering of valid components within the
    length limit and with no trailing whitespace. *)
Lemma StoragePath_wf_iff p :
  StoragePath_wf p ↔
  (∃ segs dir, is_path p segs dir) ∧
  str_len (as_str p) ≤ MAX_STORAGE_PATH_TOTAL_LENGTH ∧
  validate_trailing_whitespace (as_str p) = Ok ().
Proof.
  unfold StoragePath_wf. destruct p as [p]; cbn [as_str]. split.
  - intros H. assert (starts_with_char p SLASH = true) as [t ->]%starts_slash.
    { unfold validate_canonical in H. by destruct (starts_with_char p SLASH). }
    destruct (decide (t = [])) as [->|Ht].
    + split; [|done]. exists [], true. split; [done|]. split; [constructor|done].
    + apply validate_canonical_cons in H as (? & ? & ?); [|done].
      split; [|done]. by apply canonical_render_inv.
  - intros ((segs & dir & Hr & Hs & Hd) & Hl & Hw). cbn [as_str] in Hr.
    destruct (decide (segs = [])) as [->|Hne].
    + rewrite render_root in Hr. by subst p.
    + destruct (canonical_render segs dir Hne Hs) as (t & Ht & ? & ?).
      rewrite Ht in Hr. subst p. by apply validate_canonical_cons.
Qed.

(** ** Normalization *)

Lemma normalize_loop_ok ps acc segs :
  (∀ p, p ∈ ps → SLASH ∉ p) → Forall segment_ok acc →
  normalize_loop ps acc = Ok segs → Forall segment_ok segs.
Proof.
  revert acc; induction ps as [|s ps IH]; intros acc Hps Hacc; cbn [normalize_loop].
  { by intros [= <-]. }
  assert (∀ p, p ∈ ps → SLASH ∉ p) by (intros; apply Hps; by right).
  destruct (decide (s = [] ∨ s = DOT)) as [|Hs]; [by apply IH|].
  destruct (decide (s = DOTDOT)).
  { destruct acc as [|a acc]; [done|]. apply IH; [done|].
    destruct (exists_last (l := a :: acc)) as (i & x & E); [done|].
    rewrite E in *. rewrite removelast_last. by apply Forall_app in Hacc as [? _]. }
  destruct (validate_segment s) as [[]|] eqn:Hv; [|done].
  apply IH; [done|]. apply Forall_app. split; [done|]. constructor; [|constructor].
  repeat split; [by intros ->; apply Hs; left|by intros ->; apply Hs; right|done| |done].
  apply Hps. by left.
Qed.

Lemma normalize_loop_id segs acc tl :
  Forall segment_ok segs →
  normalize_loop (segs ++ tl) acc = normalize_loop tl (acc ++ segs).
Proof.
  revert acc; induction segs as [|s segs IH]; intros acc Hs; cbn [app normalize_loop].
  { by rewrite app_nil_r. }
  inversion Hs as [|?? (? & ? & ? & ? & Hv) Hs']; subst.
  rewrite decide_False by naive_solver. rewrite decide_False by done.
  rewrite Hv. cbn [mbind result_bind]. rewrite IH by done. by rewrite <-app_assoc.
Qed.

Lemma join_nil_inv segs : Forall segment_ok segs → join SLASH segs = [] → segs = [].
Proof.
  intros Hs. destruct Hs as [|s segs [Hs _] _]; [done|].
  destruct segs; cbn; [congruence|]. destruct s; done.
Qed.

Lemma render_file_snoc i x : ∃ t, render (i ++ [x]) false = t ++ x.
Proof.
  unfold render. cbn [andb]. rewrite app_nil_r.
  destruct (decide (i = [])) as [->|Hi]; [by exists [SLASH]|].
  rewrite join_app by done. exists (SLASH :: join SLASH i ++ [SLASH]).
  cbn [join app]. by rewrite <-app_assoc.
Qed.

Lemma last_segment_no_slash segs :
  segs ≠ [] → Forall segment_ok segs → ends_with_char (render segs false) SLASH = false.
Proof.
  intros Hne Hs. apply not_true_iff_false. intros [t Ht]%ends_with_char_spec.
  destruct (exists_last Hne) as (i & x & ->). apply Forall_app in Hs as [_ Hx].
  inversion Hx as [|?? (Hx0 & _ & _ & Hx1 & _) _]; subst.
  destruct (exists_last Hx0) as (y & c & ->).
  destruct (render_file_snoc i (y ++ [c])) as [t' Ht'].
  rewrite Ht', app_assoc in Ht. apply app_inj_tail in Ht as [_ ->].
  apply Hx1, elem_of_app. right. by left.
Qed.

Lemma last_cons_ne {A} (x : A) l : l ≠ [] → last (x :: l) = last l.
Proof. by destruct l. Qed.

Lemma directory_shaped_render segs dir :
  Forall segment_ok segs → (segs = [] → dir = true) →
  directory_shaped (render segs dir) = dir.
Proof.
  intros Hs Hd. unfold directory_shaped.
  destruct (decide (segs = [])) as [->|Hne]; [by rewrite Hd|].
  rewrite split_render by done. destruct dir.
  - replace (ends_with_char _ _) with true; [done|]. symmetry.
    apply ends_with_char_spec. unfold render. rewrite bool_decide_eq_false_2 by done.
    exists (SLASH :: join SLASH segs). done.
  - rewrite last_segment_no_slash by done. cbn [orb].
    rewrite last_cons_ne by apply pieces_ne.
    destruct (exists_last Hne) as (i & x & ->). apply Forall_app in Hs as [_ Hx].
    inversion Hx as [|?? (_ & ? & ? & _) _]; subst.
    unfold pieces. destruct (i ++ [x]) eqn:E; [by destruct i|].
    rewrite app_nil_r, <-E, last_snoc. apply bool_decide_eq_false_2. naive_solver.
Qed.

Lemma canonical_eq_render segs dir :
  Forall segment_ok segs →
  (if dir && negb (bool_decide (SLASH :: join SLASH segs = [SLASH]))
   then (SLASH :: join SLASH segs) ++ [SLASH] else SLASH :: join SLASH segs)
  = render segs dir.
Proof.
  intros Hs. unfold render.
  replace (bool_decide (SLASH :: join SLASH segs = [SLASH])) with (bool_decide (segs = [])).
  { destruct dir, (bool_decide (segs = [])); cbn; by rewrite ?app_nil_r. }
  apply bool_decide_ext. split; [by intros ->|]. intros [= ?]. by apply join_nil_inv.
Qed.

(** [normalize] with its loop result known: the checks run on the rendering. *)
Lemma normalize_render path segs :
  starts_with_char path SLASH = true →
  normalize_loop (tail (split SLASH path)) [] = Ok segs →
  Forall segment_ok segs →
  StoragePath_normalize path =
    (validate_total_length (render segs (directory_shaped path)) ;;
     validate_trailing_whitespace (render segs (directory_shaped path)) ;;
     Ok (mk_StoragePath (render segs (directory_shaped path)))).
Proof.
  intros H1 H2 Hs. unfold StoragePath_normalize. rewrite H1, H2. cbn [negb mbind result_bind].
  by rewrite canonical_eq_render.
Qed.

Lemma normalize_wf path q : StoragePath_normalize path = Ok q → StoragePath_wf q.
Proof.
  intros H. assert (starts_with_char path SLASH = true) as Hst.
  { unfold StoragePath_normalize in H. by destruct (starts_with_char path SLASH). }
  assert (∃ segs, normalize_loop (tail (split SLASH path)) [] = Ok segs) as [segs Hl].
  { unfold StoragePath_normalize in H. rewrite Hst in H. cbn [negb] in H.
    destruct (normalize_loop _ _) eqn:E; [eauto|done]. }
  assert (Forall segment_ok segs) as Hs.
  { eapply normalize_loop_ok; [|constructor|exact Hl]. intros p Hp.
    apply (split_no_sep SLASH path).
    destruct (split SLASH path); [by apply elem_of_nil in Hp|]. by right. }
  rewrite (normalize_render _ _ Hst Hl Hs) in H.
  destruct (validate_total_length _) as [[]|] eqn:H1; [|done].
  destruct (validate_trailing_whitespace _) as [[]|] eqn:H2; [|done].
  cbn [mbind result_bind] in H. injection H as <-.
  apply StoragePath_wf_iff. cbn [as_str]. split; [|split; [by apply validate_total_length_Ok|done]].
    destruct (decide (segs = [])) as [->|Hne].
    - exists [], true. split; [|done]. cbn [as_str]. by rewrite render_root.
    - exists segs, (directory_shaped path). split; [done|]. split; [done|]. done.
Qed.

(** Whatever decoded text it is given, [StoragePath::normalize] either
    reports an error or returns a path that [StoragePath::new] accepts: every
    path the server derives from a request is canonical, free of [.] and [..]
    segments, and within the byte limits. *)
Theorem normalize_sound path q :
  StoragePath_normalize path = Ok q →
  StoragePath_wf q ∧ StoragePath_new (as_str q) = Ok q.
Proof.
  intros Hwf%normalize_wf. split; [done|]. unfold StoragePath_new. rewrite Hwf. by destruct q.
Qed.

(** Normalization is the identity on canonical paths, so it is
    idempotent: a path the server stored is found again under the same key. *)
Theorem normalize_canonical_id p :
  StoragePath_wf p → StoragePath_normalize (as_str p) = Ok p.
Proof.
  intros ((segs & dir & Hr & Hs & Hd) & Hl & Hw)%StoragePath_wf_iff.
  assert (normalize_loop (tail (split SLASH (as_str p))) [] = Ok segs) as Hn.
  { rewrite Hr, split_render by done. cbn [tail]. destruct segs as [|s segs]; [done|].
    unfold pieces. rewrite normalize_loop_id by done. by destruct dir. }
  rewrite (normalize_render (as_str p) segs); [|by rewrite Hr|done|done].
  rewrite Hr, directory_shaped_render in * by done.
  rewrite (proj2 (validate_total_length_Ok _) Hl), Hw. cbn. rewrite <-Hr. by destruct p.
Qed.

(** ** Coverage *)

Lemma render_inj segs dir segs' dir' :
  Forall segment_ok segs → Forall segment_ok segs' →
  (segs = [] → dir = true) → (segs' = [] → dir' = true) →
  render segs dir = render segs' dir' → segs = segs' ∧ dir = dir'.
Proof.
  intros Hs Hs' Hd Hd' H.
  assert (dir = dir') as <-.
  { by rewrite <-(directory_shaped_render segs dir), <-(directory_shaped_render segs' dir'), H. }
  split; [|done]. apply (f_equal (split SLASH)) in H. rewrite !split_render in H by done.
  injection H as H. unfold pieces in H.
  destruct Hs as [|s segs [Hs _] _], Hs' as [|s' segs' [Hs' _] _]; try done.
  - cbn [app] in H. congruence.
  - cbn [app] in H. congruence.
  - by apply app_inv_tail in H.
Qed.

Lemma prefix_nonempty_tail (sp sq rest : list str) (dq : bool) :
  Forall segment_ok sp → sq ≠ [] → rest ≠ [] →
  sq ++ (if dq then [[]] else []) = sp ++ rest →
  sp `prefix_of` sq ∧ (sp = sq → dq = true).
Proof.
  intros Hs Hq Hr H. destruct dq.
  - destruct (exists_last Hr) as (r & x & ->). rewrite app_assoc in H.
    apply app_inj_tail in H as [-> _]. split; [by apply prefix_app_r|done].
  - rewrite app_nil_r in H. split; [by exists rest|]. intros ->.
    destruct rest; [done|]. apply (f_equal length) in H. rewrite length_app in H. cbn in H. lia.
Qed.

Lemma starts_with_render sp sq dq :
  Forall segment_ok sp → Forall segment_ok sq → (sq = [] → dq = true) →
  starts_with (render sq dq) (render sp true) = true ↔
  sp `prefix_of` sq ∧ (sp = sq → dq = true).
Proof.
  intros Hp Hq Hd. rewrite starts_with_spec.
  destruct (decide (sp = [])) as [->|Hne].
  { split; [|intros _; by exists (tail (render sq dq))].
    intros _. split; [apply prefix_nil|]. intros <-. auto. }
  split.
  - intros [t Ht].
    assert (render sp true = SLASH :: join SLASH sp ++ [SLASH]) as E.
    { unfold render. by rewrite bool_decide_eq_false_2. }
    apply (f_equal (split SLASH)) in Ht. rewrite split_render in Ht by done.
    replace (render sp true ++ t) with (join SLASH ([] :: sp ++ split SLASH t)) in Ht.
    2: { rewrite E, join_cons by (by destruct sp). cbn [app]. f_equal.
         rewrite join_app by (done || apply split_nonempty).
         by rewrite join_split, <-app_assoc. }
    rewrite split_join in Ht; [|done|].
    2: { intros p [->|[Hx|Hx]%elem_of_app]%elem_of_cons; [apply not_elem_of_nil| |].
         - rewrite Forall_forall in Hp. by apply Hp in Hx as (_ & _ & _ & ? & _).
         - by eapply split_no_sep. }
    injection Ht as Ht. destruct (decide (sq = [])) as [->|Hqne].
    { unfold pieces in Ht. destruct Hp as [|? ? [? _] _]; [done|]. injection Ht as <- _. done. }
    unfold pieces in Ht. destruct sq; [done|].
    by apply (prefix_nonempty_tail _ _ (split SLASH t)); [done|done|apply split_nonempty|].
  - intros [[r ->] Hdq]. unfold render.
    rewrite !bool_decide_eq_false_2 by (by destruct sp). cbn [andb negb].
    destruct (decide (r = [])) as [->|Hr].
    + rewrite app_nil_r in *. by rewrite Hdq.
    + rewrite join_app by done. exists (join SLASH r ++ (if dq && true then [SLASH] else [])).
      cbn [app]. f_equal. by rewrite <-!app_assoc.
Qed.

(** Scope coverage is the component order, never string-prefix matching:
    a file scope covers itself only, and a directory scope covers exactly the
    paths whose components extend its own, itself included. [/pub/app/] covers
    [/pub/app/x] and neither [/pub/app] nor [/pub/app-evil/x]. *)
Theorem covers_path_components p q sp dp sq dq :
  is_path p sp dp → is_path q sq dq →
  StoragePath_covers_path p q = true ↔
  (sp = sq ∧ dp = dq) ∨ (dp = true ∧ sp `prefix_of` sq ∧ sp ≠ sq).
Proof.
  intros (Hp & Hps & Hpd) (Hq & Hqs & Hqd). unfold StoragePath_covers_path.
  assert (StoragePath_is_directory p = dp) as ->.
  { unfold StoragePath_is_directory. rewrite Hp. destruct dp.
    - apply ends_with_char_spec. unfold render. destruct sp as [|s sp]; [by exists []|].
      rewrite bool_decide_eq_false_2 by done. by exists (SLASH :: join SLASH (s :: sp)).
    - apply last_segment_no_slash; [|done]. intros ->. by discriminate Hpd. }
  rewrite orb_true_iff, bool_decide_eq_true, andb_true_iff.
  assert (p = q ↔ sp = sq ∧ dp = dq) as ->.
  { split; [|intros [-> ->]; destruct p, q; cbn in *; congruence].
    intros ->. apply render_inj; [done..|]. congruence. }
  rewrite Hp, Hq. destruct dp; [|naive_solver].
  rewrite starts_with_render by done. destruct (decide (sp = sq)) as [->|]; [|naive_solver].
  destruct dq; naive_solver.
Qed.

(** Coverage composes: a scope covers whatever a scope it covers covers. *)
Lemma covers_path_trans a b c :
  StoragePath_covers_path a b = true → StoragePath_covers_path b c = true →
  StoragePath_covers_path a c = true.
Proof.
  unfold StoragePath_covers_path. rewrite !orb_true_iff, !bool_decide_eq_true, !andb_true_iff.
  intros [->|[? ?]] [->|[? ?]]; try tauto. right. split; [done|]. by eapply starts_with_trans.
Qed.

Lemma covers_path_refl a : StoragePath_covers_path a a = true.
Proof. unfold StoragePath_covers_path. by rewrite bool_decide_eq_true_2. Qed.

Create HintDb storage_path.
#[export] Hint Resolve covers_path_refl covers_path_trans : storage_path.

(** * Witnesses *)

Definition sample_path : StoragePath := mk_StoragePath (lit "/pub/app/file.txt").

Ltac solve_segments :=
  repeat apply Forall_cons_2; [..|apply Forall_nil_2];
  split_and!; first [apply contains_char_false; vm_compute; reflexivity
                    |vm_compute; reflexivity|vm_compute; congruence].

Lemma normalize_sound_witness :
  StoragePath_normalize (lit "/pub//x/../app/./file.txt") = Ok sample_path ∧
  StoragePath_wf sample_path ∧ StoragePath_new (as_str sample_path) = Ok sample_path.
Proof.
  split; [vm_compute; reflexivity|].
  apply (normalize_sound (lit "/pub//x/../app/./file.txt")). vm_compute. reflexivity.
Defined.

Lemma normalize_canonical_id_witness :
  StoragePath_wf sample_path ∧ StoragePath_normalize (as_str sample_path) = Ok sample_path.
Proof.
  split; [vm_compute; reflexivity|].
  apply (normalize_canonical_id sample_path). vm_compute. reflexivity.
Defined.

Lemma covers_path_components_witness :
  (is_path (mk_StoragePath (lit "/pub/app/")) [lit "pub"; lit "app"] true ∧
   is_path sample_path [lit "pub"; lit "app"; lit "file.txt"] false) ∧
  StoragePath_covers_path (mk_StoragePath (lit "/pub/app/")) sample_path = true.
Proof.
  assert (is_path (mk_StoragePath (lit "/pub/app/")) [lit "pub"; lit "app"] true) as H1.
  { split; [vm_compute; reflexivity|]. split; [|done].
    solve_segments. }
  assert (is_path sample_path [lit "pub"; lit "app"; lit "file.txt"] false) as H2.
  { split; [vm_compute; reflexivity|]. split; [|done].
    solve_segments. }
  split; [done|].
  apply (covers_path_components _ _ _ _ _ _ H1 H2). right. split; [done|]. split; [|done].
  by exists [lit "file.txt"].
Defined.
