(* ===== verification/Capabilities.v ===== *)
(** Capabilities ([pubky-common/src/capabilities.rs]): actions, scoped
    capabilities, their wire format, and the normalization of capability
    lists.  The theorems show that the wire format round-trips and that
    normalization keeps exactly the permissions of the list it is given. *)

From S2P Require Import Prelude StoragePath.

(** * Actions *)

Inductive Action :=
| Read
| Write
| EncryptionKeys
| Unknown (character : Z).

#[export] Instance Action_eq_dec : EqDecision Action.
Proof. solve_decision. Defined.

(** The derived [Ord]: declaration order, then the character. *)
Definition Action_tag (a : Action) : Z :=
  match a with Read => 0 | Write => 1 | EncryptionKeys => 2 | Unknown _ => 3 end.

Definition Action_ltb (a b : Action) : bool :=
  match a, b with
  | Unknown c, Unknown d => c <? d
  | _, _ => Action_tag a <? Action_tag b
  end.

Definition Action_to_char (value : Action) : Z :=
  match value with
  | Read => 114
  | Write => 119
  | EncryptionKeys => 101
  | Unknown character => character
  end.

Inductive CapabilityParseError :=
| InvalidScope (source : StoragePathError)
| InvalidScopeDelimiter (delimiter : Z)
| InvalidFormat
| MissingActions
| InvalidAction (character : Z).

#[export] Instance CapabilityParseError_eq_dec : EqDecision CapabilityParseError.
Proof. solve_decision. Defined.

Definition Action_try_from (value : Z) : result CapabilityParseError Action :=
  if value =? 114 then Ok Read
  else if value =? 119 then Ok Write
  else if value =? 101 then Ok EncryptionKeys
  else Err (InvalidAction value).

(** [slice::binary_search] on a sorted vector: the position of the value, or
    the position that keeps the vector sorted. *)
Definition binary_search (v : list Action) (a : Action) : result nat nat :=
  match list_find (a =.) v with
  | Some (i, _) => Ok i
  | None => Err (length (filter (λ x, Action_ltb x a = true) v))
  end.

(** [Vec::insert]. *)
Definition vec_insert {A} (v : list A) (index : nat) (a : A) : list A :=
  take index v ++ a :: drop index v.

(** [BTreeSet::insert] and collecting an iterator into a [BTreeSet]; iterating
    the set yields its elements in order. *)
Fixpoint btree_insert (a : Action) (s : list Action) : list Action :=
  match s with
  | [] => [a]
  | b :: s' =>
      if decide (a = b) then s
      else if Action_ltb a b then a :: s else b :: btree_insert a s'
  end.
Definition btree_collect (l : list Action) : list Action :=
  foldl (λ s a, btree_insert a s) [] l.

(** * A single capability *)

Record Capability := mk_Capability { scope : StoragePath; actions : list Action }.

#[export] Instance Capability_eq_dec : EqDecision Capability.
Proof. solve_decision. Defined.

(** The [for delimiter in [':', ',']] loop, then [StoragePath::new]. *)
Definition parse_scope (s : str) : result CapabilityParseError StoragePath :=
  if contains_char s COLON then Err (InvalidScopeDelimiter COLON)
  else if contains_char s COMMA then Err (InvalidScopeDelimiter COMMA)
  else map_err InvalidScope (StoragePath_new s).

Definition Capability_root : Capability :=
  mk_Capability StoragePath_root [Read; Write].

Definition Capability_with_actions (s : str) (acts : list Action)
    : result CapabilityParseError Capability :=
  sc ← parse_scope s; Ok (mk_Capability sc acts).

Definition Capability_read (s : str) := Capability_with_actions s [Read].
Definition Capability_write (s : str) := Capability_with_actions s [Write].
Definition Capability_read_write (s : str) := Capability_with_actions s [Read; Write].
Definition Capability_encryption_keys (s : str) := Capability_with_actions s [EncryptionKeys].

Definition Capability_grants_encryption_keys (c : Capability) : bool :=
  bool_decide (EncryptionKeys ∈ actions c).

Definition Capability_is_root (c : Capability) : bool :=
  StoragePath_is_root (scope c)
  && bool_decide (Read ∈ actions c) && bool_decide (Write ∈ actions c).

Definition Capability_scope_covers_path (c : Capability) (path : StoragePath) : bool :=
  StoragePath_covers_path (scope c) path.

Definition Capability_covers (self other : Capability) : bool :=
  if negb (Capability_scope_covers_path self (scope other)) then false
  else forallb (λ a, bool_decide (a ∈ actions self)) (actions other).

Definition Capability_fmt (c : Capability) : str :=
  as_str (scope c) ++ [COLON] ++ map Action_to_char (actions c).

(** The [for character in actions_str.chars()] loop of [from_str]. *)
Fixpoint parse_actions (chars : str) (acts : list Action)
    : result CapabilityParseError (list Action) :=
  match chars with
  | [] => Ok acts
  | character :: chars =>
      action ← Action_try_from character;
      parse_actions chars
        (match binary_search acts action with
         | Err index => vec_insert acts index action
         | Ok _ => acts
         end)
  end.

Definition Capability_from_str (value : str) : result CapabilityParseError Capability :=
  '(sc, actions_str) ← ok_or (split_once COLON value) InvalidFormat;
  if contains_char actions_str COLON then Err InvalidFormat
  else if decide (actions_str = []) then Err MissingActions
  else
    acts ← parse_actions actions_str [];
    sc' ← parse_scope sc;
    Ok (mk_Capability sc' acts).

(** * Lists of capabilities *)

Record CapabilitiesParseError := mk_CapabilitiesParseError {
  cpe_position : nat;
  cpe_entry : str;
  cpe_source : CapabilityParseError
}.

(** The newtype [Capabilities(Vec<Capability>)]. *)
Abbreviation Capabilities := (list Capability).

(** The first loop of [normalize]: [merged.iter_mut().find(...)], merging the
    actions of an equal scope in place. *)
Fixpoint merge_into (cap : Capability) (merged : list Capability)
    : option (list Capability) :=
  match merged with
  | [] => None
  | existing :: rest =>
      if decide (scope existing = scope cap) then
        Some (mk_Capability (scope existing)
                (btree_collect (actions existing ++ actions cap)) :: rest)
      else rest' ← merge_into cap rest; Some (existing :: rest')
  end.

Definition merge_step (merged : list Capability) (cap : Capability) : list Capability :=
  match merge_into cap merged with
  | Some merged' => merged'
  | None => merged ++ [mk_Capability (scope cap) (btree_collect (actions cap))]
  end.

(** The second loop of [normalize]. *)
Definition sanitize_step (sanitized : list Capability) (cap : Capability) : list Capability :=
  if existsb (λ existing, Capability_covers existing cap) sanitized then sanitized
  else filter (λ existing, Capability_covers cap existing = false) sanitized ++ [cap].

Definition normalize (caps : list Capability) : list Capability :=
  let merged := foldl merge_step [] caps in
  foldl sanitize_step [] merged.

Definition Capabilities_normalize (self : Capabilities) : Capabilities := normalize self.

Definition Capabilities_contains (self : Capabilities) (c : Capability) : bool :=
  bool_decide (c ∈ self).

Definition Capabilities_permits (self : Capabilities) (path : StoragePath) (action : Action) : bool :=
  existsb (λ cap, Capability_scope_covers_path cap path && bool_decide (action ∈ actions cap)) self.

Definition Capabilities_fmt (self : Capabilities) : str :=
  join COMMA (map Capability_fmt self).

(** [value.split(',').enumerate().map(...).collect()]. *)
Definition parse_entry (index_entry : nat * str)
    : result CapabilitiesParseError Capability :=
  let '(index, e) := index_entry in
  map_err (λ s, mk_CapabilitiesParseError (index + 1) e s) (Capability_from_str e).

Definition enumerate {A} (l : list A) : list (nat * A) := zip (seq 0 (length l)) l.

Definition Capabilities_from_str (value : str) : result CapabilitiesParseError Capabilities :=
  if decide (value = []) then Ok []
  else collect_results (map parse_entry (enumerate (split COMMA value))).

(** [try_from_caps_url]; the decoded query pairs come from the [url] crate. *)
Definition Capabilities_try_from_caps_url (query_pairs : list (str * str))
    : result CapabilitiesParseError Capabilities :=
  let value :=
    match list_find (λ kv, kv.1 = lit "caps") query_pairs with
    | Some (_, kv) => kv.2
    | None => []
    end in
  Capabilities_from_str value.

(** * The builder *)

Record CapsBuilder := mk_CapsBuilder { builder_caps : list Capability }.
Definition CapsBuilder_new : CapsBuilder := mk_CapsBuilder [].
Definition CapsBuilder_cap (b : CapsBuilder) (c : Capability) : CapsBuilder :=
  mk_CapsBuilder (builder_caps b ++ [c]).
Definition CapsBuilder_read (b : CapsBuilder) (s : str) : result CapabilityParseError CapsBuilder :=
  c ← Capability_read s; Ok (CapsBuilder_cap b c).
Definition CapsBuilder_write (b : CapsBuilder) (s : str) : result CapabilityParseError CapsBuilder :=
  c ← Capability_write s; Ok (CapsBuilder_cap b c).
Definition CapsBuilder_read_write (b : CapsBuilder) (s : str) : result CapabilityParseError CapsBuilder :=
  c ← Capability_read_write s; Ok (CapsBuilder_cap b c).
Definition CapsBuilder_encryption_keys (b : CapsBuilder) (s : str) : result CapabilityParseError CapsBuilder :=
  c ← Capability_encryption_keys s; Ok (CapsBuilder_cap b c).
Definition CapsBuilder_extend (b : CapsBuilder) (l : list Capability) : CapsBuilder :=
  mk_CapsBuilder (builder_caps b ++ l).
Definition CapsBuilder_finish (b : CapsBuilder) : Capabilities := Capabilities_normalize (builder_caps b).

(** * Sorted action sets *)

Definition Action_lt (a b : Action) : Prop := Action_ltb a b = true.

#[export] Instance Action_lt_trans : Transitive Action_lt.
Proof.
  intros [] [] []; unfold Action_lt, Action_ltb; cbn; rewrite ?Z.ltb_lt; try done; lia.
Qed.

Lemma Action_ltb_irrefl a : Action_ltb a a = false.
Proof. destruct a; unfold Action_ltb; cbn; apply Z.ltb_irrefl. Qed.

Lemma Action_ltb_total a b : a ≠ b → Action_ltb a b = false → Action_ltb b a = true.
Proof.
  destruct a, b; unfold Action_ltb; cbn; rewrite ?Z.ltb_lt, ?Z.ltb_ge; try done.
  intros ??. assert (character ≠ character0) by congruence. lia.
Qed.

Lemma elem_of_btree_insert a b s : b ∈ btree_insert a s ↔ b = a ∨ b ∈ s.
Proof.
  induction s as [|c s IH]; cbn.
  - rewrite list_elem_of_singleton. split; [by left|]. by intros [?|?%elem_of_nil].
  - repeat case_decide; subst; [rewrite elem_of_cons; naive_solver|].
    case_match; rewrite !elem_of_cons, ?IH; naive_solver.
Qed.

Lemma btree_insert_sorted a s :
  StronglySorted Action_lt s → StronglySorted Action_lt (btree_insert a s).
Proof.
  induction 1 as [|b s Hs IH Hb]; cbn; [by repeat constructor|].
  case_decide; [by constructor|]. destruct (Action_ltb a b) eqn:E.
  - constructor; [by constructor|]. constructor; [done|].
    eapply Forall_impl; [exact Hb|]. intros x Hx. by transitivity b.
  - constructor; [done|]. apply Forall_forall. intros x [->|Hx]%elem_of_btree_insert.
    + by apply Action_ltb_total.
    + rewrite Forall_forall in Hb. by apply Hb.
Qed.

Lemma btree_foldl_spec l s :
  StronglySorted Action_lt s →
  StronglySorted Action_lt (foldl (λ s a, btree_insert a s) s l) ∧
  ∀ b, b ∈ foldl (λ s a, btree_insert a s) s l ↔ b ∈ s ∨ b ∈ l.
Proof.
  revert s; induction l as [|a l IH]; intros s Hs; cbn.
  - split; [done|]. intros b. rewrite elem_of_nil. tauto.
  - destruct (IH (btree_insert a s)) as [H1 H2]; [by apply btree_insert_sorted|].
    split; [done|]. intros b. rewrite H2, elem_of_btree_insert, elem_of_cons. tauto.
Qed.

Lemma btree_collect_sorted l : StronglySorted Action_lt (btree_collect l).
Proof. apply btree_foldl_spec. constructor. Qed.

Lemma elem_of_btree_collect l b : b ∈ btree_collect l ↔ b ∈ l.
Proof.
  unfold btree_collect. rewrite (proj2 (btree_foldl_spec l [] ltac:(constructor))).
  rewrite elem_of_nil. tauto.
Qed.

(** Two sorted sets with the same elements are the same vector. *)
Lemma sorted_ext s t :
  StronglySorted Action_lt s → StronglySorted Action_lt t →
  (∀ a, a ∈ s ↔ a ∈ t) → s = t.
Proof.
  intros Hs. revert t. induction Hs as [|a s Hs IH Ha]; intros t Ht H.
  { destruct t as [|b t]; [done|]. destruct (not_elem_of_nil b). apply H. left. }
  destruct Ht as [|b t Ht Hb]. { destruct (not_elem_of_nil a). apply H. left. }
  rewrite Forall_forall in Ha, Hb.
  assert (a = b) as <-.
  { assert (a ∈ b :: t) as [?|Hat]%elem_of_cons by (apply H; left); [done|].
    assert (b ∈ a :: s) as [?|Hbs]%elem_of_cons by (apply H; left); [done|].
    specialize (Ha _ Hbs). specialize (Hb _ Hat).
    pose proof (transitivity Ha Hb) as Hc. unfold Action_lt in Hc.
    by rewrite Action_ltb_irrefl in Hc. }
  f_equal. apply IH; [done|]. intros x. specialize (H x). rewrite !elem_of_cons in H.
  assert (a ∉ s). { intros Hx. specialize (Ha _ Hx). unfold Action_lt in Ha. by rewrite Action_ltb_irrefl in Ha. }
  assert (a ∉ t). { intros Hx. specialize (Hb _ Hx). unfold Action_lt in Hb. by rewrite Action_ltb_irrefl in Hb. }
  naive_solver.
Qed.

Lemma btree_collect_id s : StronglySorted Action_lt s → btree_collect s = s.
Proof.
  intros Hs. apply sorted_ext; [apply btree_collect_sorted|done|].
  intros a. apply elem_of_btree_collect.
Qed.

(** * Normalization keeps the permissions *)

Definition grants (c : Capability) (path : StoragePath) (a : Action) : bool :=
  Capability_scope_covers_path c path && bool_decide (a ∈ actions c).

Lemma permits_app l k path a :
  Capabilities_permits (l ++ k) path a
  = Capabilities_permits l path a || Capabilities_permits k path a.
Proof. apply existsb_app. Qed.

Lemma permits_single c path a : Capabilities_permits [c] path a = grants c path a.
Proof. unfold Capabilities_permits. cbn. by rewrite orb_false_r. Qed.

Lemma grants_collect sc acts path a :
  grants (mk_Capability sc (btree_collect acts)) path a = grants (mk_Capability sc acts) path a.
Proof.
  unfold grants. cbn. f_equal. apply bool_decide_ext. apply elem_of_btree_collect.
Qed.

Lemma merge_into_permits cap merged merged' path a :
  merge_into cap merged = Some merged' →
  Capabilities_permits merged' path a
  = Capabilities_permits merged path a || grants cap path a.
Proof.
  revert merged'. induction merged as [|e rest IH]; intros merged'; cbn [merge_into]; [done|].
  case_decide as Hsc.
  - intros [= <-]. change (?x :: rest) with ([x] ++ rest) at 1.
    rewrite (permits_app _ rest), permits_single, grants_collect.
    change (e :: rest) with ([e] ++ rest). rewrite (permits_app [e] rest), permits_single.
    unfold grants, Capability_scope_covers_path. cbn [scope actions]. rewrite <-Hsc.
    rewrite (bool_decide_ext _ _ (elem_of_app (actions e) (actions cap) a)).
    rewrite bool_decide_or.
    destruct (StoragePath_covers_path _ _), (bool_decide (a ∈ actions e)),
      (bool_decide (a ∈ actions cap)), (Capabilities_permits rest path a); done.
  - destruct (merge_into cap rest) as [rest'|]; [|done]. intros [= <-].
    change (e :: rest') with ([e] ++ rest'). change (e :: rest) with ([e] ++ rest).
    rewrite !permits_app, (IH rest') by done. by rewrite orb_assoc.
Qed.

Lemma merge_step_permits merged cap path a :
  Capabilities_permits (merge_step merged cap) path a
  = Capabilities_permits merged path a || grants cap path a.
Proof.
  unfold merge_step. destruct (merge_into cap merged) eqn:E.
  - by apply merge_into_permits.
  - rewrite permits_app, permits_single, grants_collect. by destruct cap.
Qed.

Lemma covers_grants e c path a :
  Capability_covers e c = true → grants c path a = true → grants e path a = true.
Proof.
  unfold Capability_covers, grants, Capability_scope_covers_path.
  destruct (StoragePath_covers_path (scope e) (scope c)) eqn:Hs; cbn [negb]; [|done].
  rewrite forallb_forall, !andb_true_iff, !bool_decide_eq_true.
  intros Hall [Hp Ha]. split; [by eapply covers_path_trans|].
  specialize (Hall a (proj1 (list_elem_of_In _ _) Ha)). by apply bool_decide_eq_true in Hall.
Qed.

Lemma permits_true l path a :
  Capabilities_permits l path a = true ↔ ∃ c, c ∈ l ∧ grants c path a = true.
Proof.
  unfold Capabilities_permits. rewrite existsb_exists.
  split; intros (c & H1 & H2); exists c; (split; [by apply list_elem_of_In|done]).
Qed.

Lemma existsb_covers l c :
  existsb (λ e, Capability_covers e c) l = true ↔ ∃ e, e ∈ l ∧ Capability_covers e c = true.
Proof.
  rewrite existsb_exists.
  split; intros (e & H1 & H2); exists e; (split; [by apply list_elem_of_In|done]).
Qed.

Lemma sanitize_step_permits l c path a :
  Capabilities_permits (sanitize_step l c) path a
  = Capabilities_permits l path a || grants c path a.
Proof.
  apply eq_true_iff_eq. rewrite orb_true_iff. unfold sanitize_step.
  destruct (existsb _ l) eqn:E.
  - apply existsb_covers in E as (e & He & Hc). rewrite permits_true.
    split; [by left|]. intros [?|Hg]; [done|]. exists e. split; [done|]. by eapply covers_grants.
  - rewrite permits_app, permits_single, orb_true_iff, !permits_true.
    split; (intros [(e & He & Hg)|?]; [|by right]).
    + apply list_elem_of_filter in He as [_ ?]. left. eauto.
    + destruct (Capability_covers c e) eqn:Hc.
      * right. by eapply covers_grants.
      * left. exists e. split; [|done]. by apply list_elem_of_filter.
Qed.

Lemma foldl_permits (step : list Capability → Capability → list Capability) l acc path a :
  (∀ acc c, Capabilities_permits (step acc c) path a
            = Capabilities_permits acc path a || grants c path a) →
  Capabilities_permits (foldl step acc l) path a
  = Capabilities_permits acc path a || Capabilities_permits l path a.
Proof.
  intros Hstep. revert acc; induction l as [|c l IH]; intros acc; cbn [foldl].
  { unfold Capabilities_permits at 3. cbn. by rewrite orb_false_r. }
  rewrite IH, Hstep. change (c :: l) with ([c] ++ l).
  by rewrite permits_app, permits_single, orb_assoc.
Qed.

(** (C20) Normalizing a capability list neither adds nor removes a permission:
    for every path and every action, the normalized list permits it exactly
    when the original list does. *)
Theorem normalize_preserves_permits l path a :
  Capabilities_permits (Capabilities_normalize l) path a = Capabilities_permits l path a.
Proof.
  unfold Capabilities_normalize, normalize.
  rewrite foldl_permits by (intros; apply sanitize_step_permits).
  rewrite foldl_permits by (intros; apply merge_step_permits). done.
Qed.

(** * Normal form *)

(** Pairwise: distinct scopes, and neither makes the other redundant. *)
Definition independent (c d : Capability) : Prop :=
  scope c ≠ scope d ∧ Capability_covers c d = false ∧ Capability_covers d c = false.

Definition normal_form (l : list Capability) : Prop :=
  StronglySorted independent l ∧ Forall (λ c, StronglySorted Action_lt (actions c)) l.

Lemma merge_into_scopes cap merged merged' :
  merge_into cap merged = Some merged' → map scope merged' = map scope merged.
Proof.
  revert merged'. induction merged as [|e rest IH]; intros merged'; cbn; [done|].
  case_decide; [by intros [= <-]|].
  destruct (merge_into cap rest); [|done]. intros [= <-]. cbn. f_equal. auto.
Qed.

Lemma merge_into_None cap merged :
  merge_into cap merged = None ↔ scope cap ∉ map scope merged.
Proof.
  induction merged as [|e rest IH]; cbn; [split; [intros _; apply not_elem_of_nil|done]|].
  rewrite not_elem_of_cons. case_decide as Hsc.
  - split; [done|]. intros [? _]. congruence.
  - destruct (merge_into cap rest); naive_solver.
Qed.

Lemma merge_into_sorted cap merged merged' :
  Forall (λ c, StronglySorted Action_lt (actions c)) merged →
  merge_into cap merged = Some merged' →
  Forall (λ c, StronglySorted Action_lt (actions c)) merged'.
Proof.
  intros Hm. revert merged'. induction Hm as [|e rest He Hr IH]; intros merged'; cbn; [done|].
  case_decide.
  - intros [= <-]. constructor; [|done]. apply btree_collect_sorted.
  - destruct (merge_into cap rest); [|done]. intros [= <-]. constructor; eauto.
Qed.

Lemma merge_fold_normal l acc :
  NoDup (map scope acc) → Forall (λ c, StronglySorted Action_lt (actions c)) acc →
  NoDup (map scope (foldl merge_step acc l)) ∧
  Forall (λ c, StronglySorted Action_lt (actions c)) (foldl merge_step acc l).
Proof.
  revert acc; induction l as [|c l IH]; intros acc Hn Hs; cbn [foldl]; [done|].
  unfold merge_step at 2 4. destruct (merge_into c acc) as [acc'|] eqn:E.
  - apply IH; [by rewrite (merge_into_scopes _ _ _ E)|by eapply merge_into_sorted].
  - apply merge_into_None in E. apply IH.
    + rewrite map_app. apply NoDup_app. split; [done|]. split; [|apply NoDup_singleton].
      intros x Hx ->%list_elem_of_singleton. done.
    + apply Forall_app. split; [done|]. constructor; [apply btree_collect_sorted|constructor].
Qed.

Lemma sanitize_step_normal acc c :
  normal_form acc → Forall (λ e, scope e ≠ scope c) acc →
  StronglySorted Action_lt (actions c) → normal_form (sanitize_step acc c).
Proof.
  intros [Hi Hs] Hne Hc. unfold sanitize_step, normal_form.
  destruct (existsb _ acc) eqn:E; [done|]. split.
  - apply StronglySorted_app_2; [|by apply StronglySorted_filter|by repeat constructor].
    intros e x [He1 He2]%list_elem_of_filter ->%list_elem_of_singleton.
    rewrite Forall_forall in Hne. split; [by apply Hne|]. split; [|done].
    apply not_true_iff_false. intros Hcov.
    assert (existsb (λ e, Capability_covers e c) acc = true) as E'
      by (apply existsb_covers; eauto). congruence.
  - apply Forall_app. split; [|by constructor]. apply Forall_forall.
    intros e [_ He]%list_elem_of_filter. rewrite Forall_forall in Hs. by apply Hs.
Qed.

Lemma sanitize_step_elem acc c e : e ∈ sanitize_step acc c → e ∈ acc ∨ e = c.
Proof.
  unfold sanitize_step. destruct (existsb _ acc); [by left|].
  intros [[_ ?]%list_elem_of_filter|?%list_elem_of_singleton]%elem_of_app; auto.
Qed.

Lemma sanitize_fold_normal l acc :
  normal_form acc → StronglySorted (λ x y, scope x ≠ scope y) l →
  Forall (λ e, Forall (λ c, scope e ≠ scope c) l) acc →
  Forall (λ c, StronglySorted Action_lt (actions c)) l →
  normal_form (foldl sanitize_step acc l).
Proof.
  revert acc; induction l as [|c l IH]; intros acc Ha Hl Hd Hs; cbn [foldl]; [done|].
  apply StronglySorted_cons in Hl as [Hc Hl]. apply Forall_cons in Hs as [Hcs Hs].
  apply IH; [|done| |done].
  - apply sanitize_step_normal; [done| |done]. eapply Forall_impl; [exact Hd|].
    intros e He. by apply Forall_cons in He as [? _].
  - apply Forall_forall. intros e [He| ->]%sanitize_step_elem; [|done].
    rewrite Forall_forall in Hd. by apply Hd, Forall_cons in He as [_ ?].
Qed.

Lemma normalize_normal l : normal_form (normalize l).
Proof.
  unfold normalize.
  destruct (merge_fold_normal l []) as [Hn Hs]; [constructor|constructor|].
  apply sanitize_fold_normal; [by repeat constructor| |constructor|done].
  by apply NoDup_map_StronglySorted.
Qed.

Lemma merge_fold_id l acc :
  StronglySorted independent (acc ++ l) →
  Forall (λ c, StronglySorted Action_lt (actions c)) l →
  foldl merge_step acc l = acc ++ l.
Proof.
  revert acc; induction l as [|c l IH]; intros acc Hi Hs; cbn [foldl]; [by rewrite app_nil_r|].
  apply Forall_cons in Hs as [Hc Hs]. unfold merge_step at 2.
  rewrite (proj2 (merge_into_None c acc)).
  - rewrite btree_collect_id by done. replace (mk_Capability _ _) with c by (by destruct c).
    rewrite IH; [by rewrite <-app_assoc|by rewrite <-app_assoc|done].
  - intros (e & He & Hin)%list_elem_of_fmap.
    apply StronglySorted_app in Hi as (Hx & _ & _).
    destruct (Hx e c Hin) as [? _]; [left|]. congruence.
Qed.

Lemma sanitize_fold_id l acc :
  StronglySorted independent (acc ++ l) → foldl sanitize_step acc l = acc ++ l.
Proof.
  revert acc; induction l as [|c l IH]; intros acc Hi; cbn [foldl]; [by rewrite app_nil_r|].
  assert (sanitize_step acc c = acc ++ [c]) as ->.
  { apply StronglySorted_app in Hi as (Hx & _ & _). unfold sanitize_step.
    destruct (existsb _ acc) eqn:E.
    - apply existsb_covers in E as (e & He & Hcov).
      destruct (Hx e c He) as (_ & ? & _); [left|]. congruence.
    - f_equal. apply filter_all, Forall_forall. intros e He. by destruct (Hx e c He ltac:(left)) as (_ & _ & ?). }
  rewrite IH; by rewrite <-app_assoc.
Qed.

(** Normalization reaches a normal form: no two capabilities share a
    scope, none is implied by another one of the list, the actions of each are
    sorted without duplicates; and normalizing again changes nothing. *)
Theorem normalize_normal_form l :
  normal_form (Capabilities_normalize l) ∧
  Capabilities_normalize (Capabilities_normalize l) = Capabilities_normalize l.
Proof.
  unfold Capabilities_normalize. pose proof (normalize_normal l) as [Hi Hs].
  split; [done|]. unfold normalize at 1. rewrite (merge_fold_id (normalize l) []) by done.
  by apply sanitize_fold_id.
Qed.

(** * Wire format *)

Definition known (a : Action) : Prop :=
  match a with Unknown _ => False | _ => True end.

(** The values the wire format can carry: a canonical scope without the
    format's delimiters and a non-empty sorted set of known actions. *)
Definition Capability_wf (c : Capability) : Prop :=
  StoragePath_wf (scope c) ∧ (COLON ∉ as_str (scope c)) ∧ (COMMA ∉ as_str (scope c)) ∧
  actions c ≠ [] ∧ StronglySorted Action_lt (actions c) ∧ Forall known (actions c).

Lemma vec_insert_cons {A} (b : A) s n a : vec_insert (b :: s) (S n) a = b :: vec_insert s n a.
Proof. done. Qed.

Lemma filter_lt_nil a b s :
  Action_ltb a b = true → Forall (Action_lt b) s →
  filter (λ x, Action_ltb x a = true) (b :: s) = [].
Proof.
  intros Hab Hs. assert (∀ x, Action_ltb a x = true → Action_ltb x a = true → False) as Hasym.
  { intros x H1 H2. pose proof (transitivity (R := Action_lt) (H1 : Action_lt a x) (H2 : Action_lt x a)) as H.
    unfold Action_lt in H. by rewrite Action_ltb_irrefl in H. }
  rewrite filter_cons_False by (intros ?; eauto).
  induction Hs as [|x s Hx Hs IH]; [done|]. rewrite filter_cons_False; [done|].
  intros ?. eapply Hasym; [|done]. by eapply (transitivity (R := Action_lt)).
Qed.

Lemma vec_insert_sorted a v :
  StronglySorted Action_lt v → a ∉ v →
  vec_insert v (length (filter (λ x, Action_ltb x a = true) v)) a = btree_insert a v.
Proof.
  induction 1 as [|b s Hs IH Hb]; [done|]. intros [Hne Ha]%not_elem_of_cons. cbn [btree_insert].
  rewrite decide_False by done. destruct (Action_ltb a b) eqn:E.
  - by rewrite filter_lt_nil.
  - rewrite filter_cons_True by (by apply Action_ltb_total). cbn [length].
    by rewrite vec_insert_cons, IH.
Qed.

(** [binary_search] followed by [insert] is insertion into a sorted set. *)
Lemma binary_search_insert v a :
  StronglySorted Action_lt v →
  match binary_search v a with Err index => vec_insert v index a | Ok _ => v end
  = btree_insert a v.
Proof.
  intros Hv. unfold binary_search. destruct (list_find (a =.) v) as [[i x]|] eqn:E.
  - apply list_find_Some in E as (Hi & <- & _).
    apply sorted_ext; [done|by apply btree_insert_sorted|]. intros b.
    rewrite elem_of_btree_insert. apply list_elem_of_lookup_2 in Hi. naive_solver.
  - apply list_find_None in E. apply vec_insert_sorted; [done|]. intros Ha.
    rewrite Forall_forall in E. by eapply E.
Qed.

Lemma parse_actions_fmt acts acc :
  Forall known acts → StronglySorted Action_lt acc →
  parse_actions (map Action_to_char acts) acc = Ok (foldl (λ s a, btree_insert a s) acc acts).
Proof.
  intros Hk. revert acc. induction Hk as [|a acts Ha Hk IH]; intros acc Hacc; [done|].
  cbn [map parse_actions foldl].
  assert (Action_try_from (Action_to_char a) = Ok a) as -> by (by destruct a).
  cbn [mbind result_bind]. rewrite binary_search_insert by done.
  apply IH. by apply btree_insert_sorted.
Qed.

Lemma parse_actions_wf chars acc acts :
  StronglySorted Action_lt acc → Forall known acc → parse_actions chars acc = Ok acts →
  StronglySorted Action_lt acts ∧ Forall known acts ∧ (acc ≠ [] ∨ chars ≠ [] → acts ≠ []).
Proof.
  revert acc; induction chars as [|ch chars IH]; intros acc Hs Hk; cbn [parse_actions].
  { intros [= <-]. naive_solver. }
  destruct (Action_try_from ch) as [a|] eqn:E; [|done]. cbn [mbind result_bind].
  rewrite binary_search_insert by done. intros H.
  apply IH in H as (? & ? & Hne); [|by apply btree_insert_sorted|].
  - split; [done|]. split; [done|]. intros _. apply Hne. left. intros Hn.
    apply (not_elem_of_nil a). rewrite <-Hn. apply elem_of_btree_insert. by left.
  - apply Forall_forall. rewrite Forall_forall in Hk.
    intros x [->|?]%elem_of_btree_insert; [|auto].
    unfold Action_try_from in E. repeat case_match; by simplify_eq.
Qed.

Lemma parse_scope_Ok s sc :
  parse_scope s = Ok sc ↔
  sc = mk_StoragePath s ∧ StoragePath_wf sc ∧ (COLON ∉ s) ∧ (COMMA ∉ s).
Proof.
  unfold parse_scope, StoragePath_new, StoragePath_wf.
  destruct (contains_char s COLON) eqn:E1.
  { apply contains_char_spec in E1. split; [done|naive_solver]. }
  destruct (contains_char s COMMA) eqn:E2.
  { apply contains_char_spec in E2. split; [done|naive_solver]. }
  apply contains_char_false in E1, E2. split.
  - destruct (validate_canonical s) as [[]|] eqn:E; [|done]. cbn. by intros [= <-].
  - intros (-> & H & _). cbn in H. by rewrite H.
Qed.

Lemma action_chars_plain acts c :
  Forall known acts → c = COLON ∨ c = COMMA → c ∉ map Action_to_char acts.
Proof.
  intros Hk Hc (a & -> & Ha)%list_elem_of_fmap. rewrite Forall_forall in Hk.
  apply Hk in Ha. destruct a; [..|done]; destruct Hc; done.
Qed.

Lemma Capability_parse_fmt c :
  Capability_wf c → Capability_from_str (Capability_fmt c) = Ok c.
Proof.
  intros (Hw & Hcol & Hcom & Hne & Hs & Hk). unfold Capability_from_str, Capability_fmt.
  assert (split_once COLON (as_str (scope c) ++ [COLON] ++ map Action_to_char (actions c))
          = Some (as_str (scope c), map Action_to_char (actions c))) as ->
    by (by apply split_once_spec).
  cbn [ok_or mbind result_bind].
  rewrite (proj2 (contains_char_false _ COLON)) by (apply action_chars_plain; auto).
  rewrite decide_False by (by destruct (actions c)).
  rewrite parse_actions_fmt by (done || constructor). cbn [mbind result_bind].
  change (foldl _ [] (actions c)) with (btree_collect (actions c)).
  rewrite btree_collect_id by done.
  rewrite (proj2 (parse_scope_Ok _ (scope c))) by (split_and!; [by destruct (scope c)|done..]).
  cbn. by destruct c.
Qed.

Lemma Capability_from_str_wf s c : Capability_from_str s = Ok c → Capability_wf c.
Proof.
  unfold Capability_from_str. destruct (split_once COLON s) as [[sc acts]|]; [|done].
  cbn [ok_or mbind result_bind]. destruct (contains_char acts COLON); [done|].
  case_decide as Hne; [done|]. destruct (parse_actions acts []) as [as'|] eqn:Ha; [|done].
  cbn [mbind result_bind]. destruct (parse_scope sc) as [sc'|] eqn:Hsc; [|done].
  cbn [mbind result_bind]. intros [= <-].
  apply parse_scope_Ok in Hsc as (-> & ? & ? & ?).
  apply parse_actions_wf in Ha as (? & ? & Hn); [|constructor..].
  split_and!; auto.
Qed.

Lemma Capability_fmt_no_comma c : Capability_wf c → COMMA ∉ Capability_fmt c.
Proof.
  intros (_ & _ & Hcom & _ & _ & Hk). unfold Capability_fmt.
  rewrite !not_elem_of_app. split; [done|]. split.
  - by intros ?%list_elem_of_singleton.
  - apply action_chars_plain; auto.
Qed.

Lemma enumerate_map_fmt (l : list Capability) :
  Forall Capability_wf l →
  collect_results (map parse_entry (enumerate (map Capability_fmt l))) = Ok l.
Proof.
  unfold enumerate. generalize 0%nat. intros n Hl. rewrite length_map.
  revert n. induction Hl as [|c l Hc Hl IH]; intros n; [done|].
  cbn [map length seq zip zip_with collect_results parse_entry].
  rewrite Capability_parse_fmt by done. cbn. by rewrite IH.
Qed.

Lemma Capabilities_fmt_ne c l : Capabilities_fmt (c :: l) ≠ [].
Proof.
  intros E. apply (not_elem_of_nil COLON). rewrite <-E.
  assert (COLON ∈ Capability_fmt c) by (apply elem_of_app; right; left).
  unfold Capabilities_fmt. cbn [map]. destruct (map Capability_fmt l); cbn; [done|].
  apply elem_of_app. by left.
Qed.

Lemma Capabilities_parse_fmt l :
  Forall Capability_wf l → Capabilities_from_str (Capabilities_fmt l) = Ok l.
Proof.
  intros Hl. unfold Capabilities_from_str. destruct l as [|c l]; [done|].
  rewrite decide_False by apply Capabilities_fmt_ne. unfold Capabilities_fmt.
  rewrite split_join; [by apply enumerate_map_fmt|done|].
  intros p (d & -> & Hd)%list_elem_of_fmap. rewrite Forall_forall in Hl.
  by apply Capability_fmt_no_comma, Hl.
Qed.

Lemma collect_parse_entry_wf ps n l :
  collect_results (map parse_entry (zip (seq n (length ps)) ps)) = Ok l →
  Forall Capability_wf l.
Proof.
  revert n l; induction ps as [|p ps IH]; intros n l; cbn; [by intros [= <-]|].
  destruct (Capability_from_str p) as [c|] eqn:E; [|done]. cbn.
  destruct (collect_results _) as [cs|] eqn:E'; [|done]. cbn. intros [= <-].
  constructor; [by eapply Capability_from_str_wf|by eapply IH].
Qed.

Lemma Capabilities_from_str_wf s l : Capabilities_from_str s = Ok l → Forall Capability_wf l.
Proof.
  unfold Capabilities_from_str. intros Hp. case_decide; [by simplify_eq|]. by eapply collect_parse_entry_wf.
Qed.

(** The wire format of capability lists round-trips: parsing what
    [Display] prints for a list of wire-representable capabilities returns that
    list; and whatever text is accepted, the parsed list is wire-representable,
    so a capability string cannot change its meaning when a session or grant is
    stored and read back. *)
Theorem capabilities_roundtrip :
  (∀ l, Forall Capability_wf l → Capabilities_from_str (Capabilities_fmt l) = Ok l) ∧
  (∀ s l, Capabilities_from_str s = Ok l →
     Forall Capability_wf l ∧ Capabilities_from_str (Capabilities_fmt l) = Ok l).
Proof.
  split; [apply Capabilities_parse_fmt|]. intros s l Hl%Capabilities_from_str_wf.
  split; [done|by apply Capabilities_parse_fmt].
Qed.

Lemma capabilities_roundtrip_witness :
  Capabilities_from_str (Capabilities_fmt [mk_Capability (mk_StoragePath (lit "/pub/")) [Read; Write]])
  = Ok [mk_Capability (mk_StoragePath (lit "/pub/")) [Read; Write]] ∧
  ∃ l, Capabilities_from_str (lit "/pub/app/:wr,/priv/:r") = Ok l ∧ Forall Capability_wf l.
Proof.
  split.
  - apply (proj2 capabilities_roundtrip (lit "/pub/:rw")). vm_compute. reflexivity.
  - eexists. split; [vm_compute; reflexivity|].
    apply (proj2 capabilities_roundtrip (lit "/pub/app/:wr,/priv/:r")). vm_compute. reflexivity.
Defined.

(** Sanity check on the module's own documentation example. *)
Example normalize_doc_example :
  Capabilities_fmt (Capabilities_normalize
    [mk_Capability (mk_StoragePath (lit "/pub/")) [Read];
     mk_Capability (mk_StoragePath (lit "/pub/")) [Write];
     mk_Capability (mk_StoragePath (lit "/pub/file.txt")) [Read]])
  = lit "/pub/:rw".
Proof. vm_compute. reflexivity. Qed.
