(* ===== verification/HttpError.v ===== *)
(** HTTP errors ([pubky-homeserver/src/shared/http_error.rs]): the error value
    every handler returns, with the constructors the modelled handlers use. *)

From S2P Require Import Prelude.

Record HttpError := mk_HttpError {
  status : Z;
  detail : option str;
  retry_after_secs : option Z
}.

#[export] Instance HttpError_eq_dec : EqDecision HttpError.
Proof. solve_decision. Defined.

Abbreviation HttpResult := (result HttpError).

Definition BACKEND_RATE_LIMIT_RETRY_AFTER_SECS : Z := 1.

Definition HttpError_new_with_message (status_code : Z) (message : str) : HttpError :=
  mk_HttpError status_code (Some message) None.

Definition HttpError_not_found : HttpError := HttpError_new_with_message 404 (lit "Not Found").
Definition HttpError_internal_server : HttpError :=
  HttpError_new_with_message 500 (lit "Internal server error").
Definition HttpError_bad_request (message : str) : HttpError :=
  HttpError_new_with_message 400 message.
Definition HttpError_insufficient_storage : HttpError :=
  HttpError_new_with_message 507 (lit "Disk space quota exceeded").
Definition HttpError_forbidden_with_message (message : str) : HttpError :=
  HttpError_new_with_message 403 message.
Definition HttpError_unauthorized : HttpError :=
  HttpError_new_with_message 401 (lit "Unauthorized").
Definition HttpError_unauthorized_with_message (message : str) : HttpError :=
  HttpError_new_with_message 401 message.
Definition HttpError_conflict (message : str) : HttpError :=
  HttpError_new_with_message 409 message.
Definition HttpError_locked : HttpError :=
  HttpError_new_with_message 423 (lit "Resource is locked").
Definition HttpError_lock_token_mismatch : HttpError :=
  HttpError_new_with_message 412 (lit "The If header does not name the live lock on this path").
Definition HttpError_too_many_requests (message : str) (secs : Z) : HttpError :=
  mk_HttpError 429 (Some message) (Some secs).
