(* ===== verification/Keys.v ===== *)
(** Public keys ([pubky-common/src/keys.rs]) and the paths built from them
    ([pubky-homeserver/src/shared/webdav/]).

    The key type itself belongs to the [pkarr] crate: [PkarrKeys] is the
    interface the code uses and [PkarrKeysLaws] what it relies on, the
    documented z-base-32 text form of an ed25519 key.  Every other component
    is written against this interface. *)

From S2P Require Import Prelude StoragePath.

(** * The key interface *)

Class PkarrKeys := {
  PublicKey : Type;
  PublicKeyError : Type;
  PublicKey_eq_dec :: EqDecision PublicKey;
  (** [pkarr::PublicKey: ToString]. *)
  pkarr_to_string : PublicKey → str;
  (** [pkarr::PublicKey::try_from(String)]. *)
  pkarr_try_from : str → result PublicKeyError PublicKey;
}.

(** A key prints as 52 lower case letters and digits, and parses back. *)
Class PkarrKeysLaws `{PkarrKeys} := {
  pkarr_roundtrip k : pkarr_try_from (pkarr_to_string k) = Ok k;
  pkarr_len k : str_len (pkarr_to_string k) = 52;
  pkarr_no_slash k : SLASH ∉ pkarr_to_string k;
  pkarr_ascii k c : c ∈ pkarr_to_string k → 48 ≤ c ≤ 57 ∨ 97 ≤ c ≤ 122;
}.

(** * [PublicKey] *)

Section Keys.
Context `{PkarrKeys}.

Definition PUBKY_PREFIX : str := lit "pubky".

Definition PublicKey_is_pubky_prefixed (value : str) : bool :=
  match strip_prefix value PUBKY_PREFIX with
  | Some stripped => str_len stripped =? 52
  | None => false
  end.

Definition parse_public_key (value : str) : result PublicKeyError PublicKey :=
  let raw :=
    if PublicKey_is_pubky_prefixed value
    then default value (strip_prefix value PUBKY_PREFIX)
    else value in
  pkarr_try_from raw.

Definition PublicKey_z32 (k : PublicKey) : str := pkarr_to_string k.
Definition PublicKey_try_from_z32 (value : str) : result PublicKeyError PublicKey :=
  pkarr_try_from value.
Definition PublicKey_fmt (k : PublicKey) : str := PUBKY_PREFIX ++ PublicKey_z32 k.
Definition PublicKey_from_str (s : str) : result PublicKeyError PublicKey := parse_public_key s.

(** * [EntryPath] *)

Inductive EntryPathError :=
| EntryPathError_Invalid (message : str)
| EntryPathError_InvalidStoragePath (e : StoragePathError)
| EntryPathError_InvalidPubkey (e : PublicKeyError).

Record EntryPath := mk_EntryPath {
  ep_pubkey : PublicKey;
  ep_path : StoragePath;
  ep_key : str
}.

Definition EntryPath_new (pubkey : PublicKey) (path : StoragePath) : EntryPath :=
  mk_EntryPath pubkey path (PublicKey_z32 pubkey ++ as_str path).

(** [find('/')] then [split_at_checked]: the slash stays with the path. *)
Definition EntryPath_from_str (s : str) : result EntryPathError EntryPath :=
  '(pubkey, path) ← ok_or (split_once SLASH s) (EntryPathError_Invalid (lit "Missing '/'"));
  let path := SLASH :: path in
  if PublicKey_is_pubky_prefixed pubkey then
    Err (EntryPathError_Invalid (lit "unexpected `pubky` prefix; expected raw z32"))
  else
    pubkey ← map_err EntryPathError_InvalidPubkey (PublicKey_try_from_z32 pubkey);
    storage_path ← map_err EntryPathError_InvalidStoragePath (StoragePath_new path);
    Ok (EntryPath_new pubkey storage_path).

Definition PUBLIC_ROOT : str := lit "/pub/".
Definition PRIVATE_ROOT : str := lit "/priv/".

(** [EntryPathPub::from_str]; [None] stands for the [anyhow] message. *)
Definition EntryPathPub_from_str (s : str) : option EntryPath :=
  inner ← ok (EntryPath_from_str s);
  if negb (starts_with (as_str (ep_path inner)) PUBLIC_ROOT) then None else Some inner.

(** * Paths captured by the router *)

Inductive WebDavPathError :=
| WebDavPathError_Storage (e : StoragePathError)
| TargetPathMustBeAFile.

Definition WebDavPathAxum_from_str (s : str) : result WebDavPathError StoragePath :=
  let with_slash := SLASH :: s in
  map_err WebDavPathError_Storage (StoragePath_normalize with_slash).

Definition WebDavFilePathAxum_try_from (path : StoragePath) : result WebDavPathError StoragePath :=
  if StoragePath_is_file path then Ok path else Err TargetPathMustBeAFile.

Definition WebDavFilePathAxum_from_str (s : str) : result WebDavPathError StoragePath :=
  path ← WebDavPathAxum_from_str s; WebDavFilePathAxum_try_from path.

(** [Z32Pubkey::deserialize]. *)
Inductive Z32Error := Z32Prefixed | Z32Invalid (e : PublicKeyError).
Definition Z32Pubkey_deserialize (s : str) : result Z32Error PublicKey :=
  if PublicKey_is_pubky_prefixed s then Err Z32Prefixed
  else map_err Z32Invalid (PublicKey_try_from_z32 s).

(** The invariant of an [EntryPath]: it was made by [new] from a canonical path. *)
Definition EntryPath_wf (e : EntryPath) : Prop :=
  StoragePath_wf (ep_path e) ∧ e = EntryPath_new (ep_pubkey e) (ep_path e).

#[export] Instance EntryPath_eq_dec : EqDecision EntryPath.
Proof. solve_decision. Defined.

(** * Lemmas *)

Context `{!PkarrKeysLaws}.

Lemma z32_not_prefixed k : PublicKey_is_pubky_prefixed (PublicKey_z32 k) = false.
Proof.
  unfold PublicKey_is_pubky_prefixed. destruct (strip_prefix _ _) as [t|] eqn:E; [|done].
  apply strip_prefix_spec in E. apply Z.eqb_neq. intros Ht.
  pose proof (pkarr_len k) as Hk. unfold PublicKey_z32 in E. rewrite E, str_len_app, Ht in Hk.
  discriminate Hk.
Qed.

Lemma wf_starts_slash p : StoragePath_wf p → ∃ t, as_str p = SLASH :: t.
Proof.
  unfold StoragePath_wf, validate_canonical. intros Hp.
  apply starts_slash. by destruct (starts_with_char (as_str p) SLASH).
Qed.

Lemma z32_inj k k' : PublicKey_z32 k = PublicKey_z32 k' → k = k'.
Proof.
  intros E. apply (f_equal pkarr_try_from) in E. unfold PublicKey_z32 in E.
  rewrite !pkarr_roundtrip in E. by injection E.
Qed.

Lemma entry_key_split k p :
  StoragePath_wf p →
  ∃ t, as_str p = SLASH :: t ∧ split_once SLASH (PublicKey_z32 k ++ as_str p)
       = Some (PublicKey_z32 k, t).
Proof.
  intros (t & Ht)%wf_starts_slash. exists t. split; [done|].
  apply split_once_spec. rewrite Ht. split; [done|apply pkarr_no_slash].
Qed.

Lemma EntryPath_key_inj k p k' p' :
  StoragePath_wf p → StoragePath_wf p' →
  ep_key (EntryPath_new k p) = ep_key (EntryPath_new k' p') → k = k' ∧ p = p'.
Proof.
  cbn. intros Hp Hp' E.
  destruct (entry_key_split k p Hp) as (t & Ht & Hs).
  destruct (entry_key_split k' p' Hp') as (t' & Ht' & Hs').
  rewrite E, Hs' in Hs. injection Hs as Hk ->. split; [by apply z32_inj|].
  destruct p, p'; cbn in *; congruence.
Qed.

Lemma EntryPath_parse_key k p :
  StoragePath_wf p → EntryPath_from_str (ep_key (EntryPath_new k p)) = Ok (EntryPath_new k p).
Proof.
  intros Hp. destruct (entry_key_split k p Hp) as (t & Ht & Hs).
  unfold EntryPath_from_str. cbn [ep_key EntryPath_new]. rewrite Hs.
  cbn [ok_or mbind result_bind]. rewrite z32_not_prefixed.
  unfold PublicKey_try_from_z32, PublicKey_z32. rewrite pkarr_roundtrip.
  cbn [map_err mbind result_bind]. rewrite <-Ht. unfold StoragePath_new. rewrite Hp.
  cbn. by destruct p.
Qed.

(** Storage keys identify their owner and path: the key string of an
    entry parses back to the same entry, two different owners or paths never
    share a key string, and a key always fits the 1024 bytes of a storage
    object name. *)
Theorem entry_key_faithful k p :
  StoragePath_wf p →
  EntryPath_from_str (ep_key (EntryPath_new k p)) = Ok (EntryPath_new k p) ∧
  str_len (ep_key (EntryPath_new k p)) ≤ 1024 ∧
  ∀ k' p', StoragePath_wf p' →
    ep_key (EntryPath_new k p) = ep_key (EntryPath_new k' p') → k = k' ∧ p = p'.
Proof.
  intros Hp. split_and!.
  - by apply EntryPath_parse_key.
  - cbn. rewrite str_len_app. unfold PublicKey_z32. rewrite pkarr_len.
    apply StoragePath_wf_iff in Hp as (_ & Hl & _).
    unfold MAX_STORAGE_PATH_TOTAL_LENGTH in Hl. lia.
  - intros k' p' Hp'. by apply EntryPath_key_inj.
Qed.

(** Both text forms of a key parse back to it. *)
Lemma PublicKey_parse_forms k :
  PublicKey_from_str (PublicKey_fmt k) = Ok k ∧ PublicKey_from_str (PublicKey_z32 k) = Ok k.
Proof.
  unfold PublicKey_from_str, parse_public_key, PublicKey_fmt. split.
  - unfold PublicKey_is_pubky_prefixed.
    rewrite (proj2 (strip_prefix_spec _ _ (PublicKey_z32 k))) by done. cbn [default].
    unfold PublicKey_z32. rewrite pkarr_len. apply pkarr_roundtrip.
  - rewrite z32_not_prefixed. apply pkarr_roundtrip.
Qed.

End Keys.

Arguments EntryPathError {_}.
Arguments EntryPath {_}.
Arguments Z32Error {_}.

(** * A concrete key space *)

(** Two keys, enough to evaluate the model on concrete inputs. *)
Definition demo_z32 (b : bool) : str := repeat (if b then 121 else 111) 52.

#[export] Instance demo_keys : PkarrKeys := {|
  PublicKey := bool;
  PublicKeyError := ();
  pkarr_to_string := demo_z32;
  pkarr_try_from s :=
    if decide (s = demo_z32 true) then Ok true
    else if decide (s = demo_z32 false) then Ok false else Err ();
|}.

#[export] Instance demo_keys_laws : PkarrKeysLaws.
Proof.
  split; intros []; try (vm_compute; reflexivity); try (apply contains_char_false; vm_compute; reflexivity).
  all: intros c Hc; apply list_elem_of_In, repeat_spec in Hc; lia.
Qed.

Lemma entry_key_faithful_witness :
  StoragePath_wf sample_path ∧
  EntryPath_from_str (ep_key (EntryPath_new (H := demo_keys) true sample_path))
  = Ok (EntryPath_new (H := demo_keys) true sample_path).
Proof.
  split; [vm_compute; reflexivity|].
  apply (entry_key_faithful (H := demo_keys) true sample_path). vm_compute. reflexivity.
Defined.
