(* ===== verification/Tenant.v ===== *)
(** Resolution of the tenant a request targets
    ([pubky-homeserver/src/client_server/middleware/request_tenant.rs] and
    [pubky_host.rs]).  Percent decoding belongs to the [percent_encoding]
    crate and is a parameter. *)

From S2P Require Import Prelude StoragePath Keys HttpError.

Section Tenant.
Context `{PkarrKeys}.

(** [percent_decode_str(..).decode_utf8()]: [None] when not valid UTF-8. *)
Variable percent_decode_utf8 : str → option str.

(** What the resolver reads of a request.  A header value is [None] when it is
    not visible ASCII ([to_str] fails). *)
Record Request := mk_Request {
  uri_path : str;
  uri_query : option str;
  headers : list (str * option str)
}.

(** [HeaderMap::get]: the first value of a header. *)
Definition headers_get (hs : list (str * option str)) (name : str) : option (option str) :=
  match list_find (λ kv, kv.1 = name) hs with
  | Some (_, kv) => Some kv.2
  | None => None
  end.

(** * The legacy resolver *)

(** One iteration of the header loop of [extract_legacy_pubky]. *)
Definition legacy_header_step (req : Request) (pubky : option PublicKey) (header : str)
    : option PublicKey :=
  match headers_get (headers req) header with
  | Some (Some s) =>
      if PublicKey_is_pubky_prefixed s then pubky
      else match PublicKey_try_from_z32 s with
           | Ok key => Some key
           | Err _ => pubky
           end
  | _ => pubky
  end.

(** The [find_map] closure over the [&]-separated pairs; [splitn(2, '=')]. *)
Definition legacy_query_pair (pair : str) : option PublicKey :=
  match split_once 61 pair with
  | Some (key, val) =>
      if decide (key = lit "pubky-host") then
        if PublicKey_is_pubky_prefixed val then None
        else ok (PublicKey_try_from_z32 val)
      else None
  | None => None
  end.

Fixpoint find_map {A B} (f : A → option B) (l : list A) : option B :=
  match l with
  | [] => None
  | x :: l => match f x with Some y => Some y | None => find_map f l end
  end.

Definition extract_legacy_pubky (req : Request) : option PublicKey :=
  let pubky := foldl (legacy_header_step req) None [lit "host"; lit "pubky-host"] in
  match pubky with
  | Some k => Some k
  | None => query ← uri_query req; find_map legacy_query_pair (split 38 query)
  end.

(** * [RequestTenant] *)

Record RequestTenant := mk_RequestTenant {
  rt_public_key : PublicKey;
  rt_storage_path : option StoragePath
}.

Inductive TenantError :=
| MissingStorageOwnerOrPath
| MissingStoragePath
| InvalidStorageOwner
| StoragePathNotUtf8
| InvalidStoragePath (e : StoragePathError).

Definition STORAGE_ROUTE_PREFIX : str := lit "/storage/".

Definition RequestTenant_legacy (public_key : PublicKey) : RequestTenant :=
  mk_RequestTenant public_key None.
Definition RequestTenant_mapped (public_key : PublicKey) (path : StoragePath) : RequestTenant :=
  mk_RequestTenant public_key (Some path).

Definition RequestTenant_from_storage_route (raw_path : str)
    : result TenantError (option RequestTenant) :=
  if decide (raw_path = lit "/storage" ∨ raw_path = lit "/storage/") then
    Err MissingStorageOwnerOrPath
  else match strip_prefix raw_path STORAGE_ROUTE_PREFIX with
  | None => Ok None
  | Some remainder =>
      '(raw_public_key, raw_storage_path) ←
        ok_or (split_once SLASH remainder) MissingStoragePath;
      if decide (raw_storage_path = []) then Err MissingStoragePath
      else
        public_key ← map_err (λ _, InvalidStorageOwner) (PublicKey_try_from_z32 raw_public_key);
        decoded_path ← ok_or (percent_decode_utf8 raw_storage_path) StoragePathNotUtf8;
        storage_path ← map_err InvalidStoragePath (StoragePath_normalize (SLASH :: decoded_path));
        Ok (Some (mk_RequestTenant public_key (Some storage_path)))
  end.

Definition RequestTenant_from_request (req : Request)
    : result TenantError (option RequestTenant) :=
  tenant ← RequestTenant_from_storage_route (uri_path req);
  match tenant with
  | Some t => Ok (Some t)
  | None => Ok (RequestTenant_legacy <$> extract_legacy_pubky req)
  end.

(** [resolve]: the tenant put into the request extensions before the next
    layer runs, or a 400 response. *)
Inductive Resolution :=
| RunNext (extension : option RequestTenant)
| RespondBadRequest (message : TenantError).

Definition RequestTenant_resolve (req : Request) : Resolution :=
  match RequestTenant_from_request req with
  | Ok (Some tenant) => RunNext (Some tenant)
  | Ok None => RunNext None
  | Err message => RespondBadRequest message
  end.

(** [RequestTenant::pubky_url]. *)
Definition RequestTenant_pubky_url (t : RequestTenant) (req : Request) : str :=
  let storage_path := match rt_storage_path t with
                      | Some p => as_str p
                      | None => uri_path req
                      end in
  let pubky_url := lit "pubky://" ++ PublicKey_z32 (rt_public_key t) ++ storage_path in
  match uri_query req with
  | Some query => pubky_url ++ [63] ++ query
  | None => pubky_url
  end.

(** The [EntryPath] extractor. *)
Definition EntryPath_from_request_parts (extension : option RequestTenant)
    : HttpResult EntryPath :=
  tenant ← ok_or extension (HttpError_bad_request (lit "Missing request tenant"));
  path ← ok_or (rt_storage_path tenant) (HttpError_bad_request (lit "Missing storage path"));
  Ok (EntryPath_new (rt_public_key tenant) path).

(** * Theorems *)

Lemma from_storage_route_Some raw t :
  RequestTenant_from_storage_route raw = Ok (Some t) →
  ∃ owner rest decoded path,
    raw = STORAGE_ROUTE_PREFIX ++ owner ++ SLASH :: rest ∧
    PublicKey_try_from_z32 owner = Ok (rt_public_key t) ∧
    percent_decode_utf8 rest = Some decoded ∧
    StoragePath_normalize (SLASH :: decoded) = Ok path ∧
    rt_storage_path t = Some path.
Proof.
  unfold RequestTenant_from_storage_route. case_decide; [done|].
  destruct (strip_prefix raw STORAGE_ROUTE_PREFIX) as [r|] eqn:E; [|done].
  apply strip_prefix_spec in E as ->.
  destruct (split_once SLASH r) as [[owner rest]|] eqn:E; [|done].
  apply split_once_spec in E as [-> _]. cbn [ok_or mbind result_bind].
  case_decide; [done|].
  destruct (PublicKey_try_from_z32 owner) as [k|] eqn:Ek; [|done].
  destruct (percent_decode_utf8 rest) as [d|] eqn:Ed; [|done].
  cbn [map_err ok_or mbind result_bind].
  destruct (StoragePath_normalize (SLASH :: d)) as [p|] eqn:Ep; [|done].
  cbn. intros [= <-]. cbn. eauto 10.
Qed.

(** A storage request is bound to the owner and path in its URL: when the
    path is under [/storage/], whatever the [Host] and [pubky-host] headers
    and the query say, the request is answered 400 or the tenant handed to
    authentication and storage is the key written in the URL together with
    the normalized, canonical form of the path written there. *)
Theorem storage_route_binds_tenant req t :
  starts_with (uri_path req) STORAGE_ROUTE_PREFIX = true →
  RequestTenant_resolve req = RunNext t →
  ∃ tenant owner rest decoded path,
    t = Some tenant ∧
    uri_path req = STORAGE_ROUTE_PREFIX ++ owner ++ SLASH :: rest ∧
    PublicKey_try_from_z32 owner = Ok (rt_public_key tenant) ∧
    percent_decode_utf8 rest = Some decoded ∧
    StoragePath_normalize (SLASH :: decoded) = Ok path ∧
    rt_storage_path tenant = Some path ∧ StoragePath_wf path.
Proof.
  intros Hst. unfold RequestTenant_resolve, RequestTenant_from_request.
  destruct (RequestTenant_from_storage_route (uri_path req)) as [[t'|]|] eqn:E; [| |done].
  - cbn. intros [= <-]. apply from_storage_route_Some in E as (o & r & d & p & ? & ? & ? & Hn & ?).
    exists t', o, r, d, p. split_and!; try done. by apply normalize_wf in Hn.
  - exfalso. apply starts_with_spec in Hst as [r Hr].
    unfold RequestTenant_from_storage_route in E. case_decide; [done|].
    rewrite (proj2 (strip_prefix_spec _ _ r) Hr) in E.
    destruct (split_once SLASH r) as [[? ?]|]; [|done]. cbn [ok_or mbind result_bind] in E.
    case_decide; [done|]. destruct (PublicKey_try_from_z32 _); [|done].
    destruct (percent_decode_utf8 _); [|done]. cbn [map_err ok_or mbind result_bind] in E.
    by destruct (StoragePath_normalize _).
Qed.

(** Every path an [EntryPath] extractor yields is canonical. *)
Lemma from_request_parts_wf req t e :
  RequestTenant_resolve req = RunNext t →
  EntryPath_from_request_parts t = Ok e → EntryPath_wf e.
Proof.
  unfold RequestTenant_resolve, RequestTenant_from_request.
  destruct (RequestTenant_from_storage_route (uri_path req)) as [[t'|]|] eqn:E; [| |done]; cbn.
  - intros [= <-]. apply from_storage_route_Some in E as (o & r & d & p & _ & _ & _ & Hn & Hp).
    unfold EntryPath_from_request_parts. cbn. rewrite Hp. cbn. intros [= <-].
    split; [by apply normalize_wf in Hn|done].
  - destruct (extract_legacy_pubky req); cbn; intros [= <-]; done.
Qed.

End Tenant.

(** A storage URL of the demonstration keys, with a [pubky-host] header that
    names the other key: the header is ignored. *)
Lemma storage_route_binds_tenant_witness :
  let req := mk_Request (lit "/storage/" ++ demo_z32 false ++ lit "/pub/a.txt") None
               [(lit "pubky-host", Some (demo_z32 true))] in
  ∃ tenant owner rest decoded path,
    Some (mk_RequestTenant false (Some (mk_StoragePath (lit "/pub/a.txt")))) = Some tenant ∧
    uri_path req = STORAGE_ROUTE_PREFIX ++ owner ++ SLASH :: rest ∧
    PublicKey_try_from_z32 owner = Ok (rt_public_key tenant) ∧
    Some rest = Some decoded ∧
    StoragePath_normalize (SLASH :: decoded) = Ok path ∧
    rt_storage_path tenant = Some path ∧ StoragePath_wf path.
Proof.
  intros req. apply (storage_route_binds_tenant Some req); vm_compute; reflexivity.
Defined.
