(* ===== verification/Quota.v ===== *)
(** Quotas ([pubky-homeserver/src/shared/quota/]): rates and their text form,
    per-user overrides, their validation, their resolution against the
    server's defaults, and their encoding in the columns of the [users] table.

    The [governor] crate (token buckets) and [serde_json] are interfaces:
    [Governor] is the part of [governor::Quota] the code calls and
    [GovernorLaws] its documented behaviour; [JsonStrings] is the text form of
    a JSON array of strings, with [JsonStringsLaws] its round trip. *)

From S2P Require Import Prelude StoragePath.

(** * Units ([rate_unit.rs], [time_unit.rs]) *)

Inductive SpeedRateUnit := Kilobyte | Megabyte | Gigabyte.
Inductive TimeUnit := Second | Minute | Hour | Day.

#[export] Instance SpeedRateUnit_eq_dec : EqDecision SpeedRateUnit.
Proof. solve_decision. Defined.
#[export] Instance TimeUnit_eq_dec : EqDecision TimeUnit.
Proof. solve_decision. Defined.

(** Kilobytes per unit. *)
Definition SpeedRateUnit_multiplier (u : SpeedRateUnit) : Z :=
  match u with Kilobyte => 1 | Megabyte => 1024 | Gigabyte => 1024 * 1024 end.

Definition SpeedRateUnit_fmt (u : SpeedRateUnit) : str :=
  match u with Kilobyte => lit "kb" | Megabyte => lit "mb" | Gigabyte => lit "gb" end.

(** [str::to_lowercase], as far as a comparison with an ASCII word can see it:
    the ASCII capitals, and U+212A KELVIN SIGN, the one other character whose
    lower case is a single ASCII letter. *)
Definition to_lowercase (s : str) : str :=
  map (λ c, if (65 <=? c) && (c <=? 90) then c + 32 else if c =? 8490 then 107 else c) s.

Definition SpeedRateUnit_from_str (s : str) : option SpeedRateUnit :=
  let s := to_lowercase s in
  if decide (s = lit "kb") then Some Kilobyte
  else if decide (s = lit "mb") then Some Megabyte
  else if decide (s = lit "gb") then Some Gigabyte
  else None.

Definition TimeUnit_fmt (u : TimeUnit) : str :=
  match u with Second => lit "s" | Minute => lit "m" | Hour => lit "h" | Day => lit "d" end.

Definition TimeUnit_from_str (s : str) : option TimeUnit :=
  if decide (s = lit "s") then Some Second
  else if decide (s = lit "m") then Some Minute
  else if decide (s = lit "h") then Some Hour
  else if decide (s = lit "d") then Some Day
  else None.

(** [Duration::from], in nanoseconds. *)
Definition Duration_from_TimeUnit (u : TimeUnit) : Z :=
  1000000000 * match u with Second => 1 | Minute => 60 | Hour => 3600 | Day => 86400 end.

(** * Rates *)

(** [str::parse::<NonZeroU32>]. *)
Definition parse_nonzero_u32 (s : str) : option Z :=
  n ← parse_uint U32_MAX s; if n =? 0 then None else Some n.

Inductive RateError :=
| InvalidRateFormat
| InvalidTimeUnit
| MissingRateValue
| InvalidRateValue
| InvalidRateUnit
| RateTooHigh.

Record BandwidthQuota := mk_BandwidthQuota {
  bq_rate : Z;
  bq_unit : SpeedRateUnit;
  bq_time_unit : TimeUnit
}.

#[export] Instance BandwidthQuota_eq_dec : EqDecision BandwidthQuota.
Proof. solve_decision. Defined.

Definition BandwidthQuota_fmt (q : BandwidthQuota) : str :=
  show_uint (bq_rate q) ++ SpeedRateUnit_fmt (bq_unit q) ++ [SLASH] ++ TimeUnit_fmt (bq_time_unit q).

(** [chars().position(|c| !c.is_ascii_digit())] and the two slices: the
    leading digits, and the rest. *)
Fixpoint span_digits (s : str) : str * str :=
  match s with
  | [] => ([], [])
  | c :: s' => if is_ascii_digit c then let '(a, b) := span_digits s' in (c :: a, b) else ([], s)
  end.

Definition BandwidthQuota_from_str (s : str) : result RateError BandwidthQuota :=
  match split SLASH s with
  | [rate_with_unit; time] =>
      time_unit ← ok_or (TimeUnit_from_str time) InvalidTimeUnit;
      let '(rate_str, unit_str) := span_digits rate_with_unit in
      if decide (rate_str = []) then Err MissingRateValue
      else
        rate ← ok_or (parse_nonzero_u32 rate_str) InvalidRateValue;
        unit ← ok_or (SpeedRateUnit_from_str unit_str) InvalidRateUnit;
        Ok (mk_BandwidthQuota rate unit time_unit)
  | _ => Err InvalidRateFormat
  end.

Record RequestCountQuota := mk_RequestCountQuota {
  rcq_rate : Z;
  rcq_time_unit : TimeUnit
}.

#[export] Instance RequestCountQuota_eq_dec : EqDecision RequestCountQuota.
Proof. solve_decision. Defined.

Definition RequestCountQuota_fmt (q : RequestCountQuota) : str :=
  show_uint (rcq_rate q) ++ [114; SLASH] ++ TimeUnit_fmt (rcq_time_unit q).

Definition RequestCountQuota_from_str (s : str) : result RateError RequestCountQuota :=
  '(rate_with_unit, time) ← ok_or (split_once SLASH s) InvalidRateFormat;
  rate_str ← ok_or (strip_suffix_char rate_with_unit 114) InvalidRateUnit;
  rate ← ok_or (parse_nonzero_u32 rate_str) InvalidRateValue;
  time_unit ← ok_or (TimeUnit_from_str time) InvalidTimeUnit;
  Ok (mk_RequestCountQuota rate time_unit).

(** ** Token buckets *)

Class Governor := {
  governor_Quota : Type;
  (** [Quota::with_period], the period in nanoseconds. *)
  with_period : Z → option governor_Quota;
  allow_burst : governor_Quota → Z → governor_Quota;
}.

(** [with_period] returns [None] exactly when the duration is zero. *)
Class GovernorLaws `{Governor} := {
  with_period_spec d : 0 ≤ d → is_Some (with_period d) ↔ d ≠ 0;
}.

Inductive Panic :=
| ArithmeticOverflow
| ExpectNonZeroRate
| ExpectNonZeroPeriod.

Section ToGovernor.
Context `{Governor}.
(** Whether the build traps integer overflow ([debug_assertions]). *)
Variable overflow_checks : bool.

(** [u32] multiplication: traps or wraps. *)
Definition u32_mul (a b : Z) : result Panic Z :=
  if overflow_checks && (U32_MAX <? a * b) then Err ArithmeticOverflow
  else Ok ((a * b) mod 4294967296).

Definition nonzero_u32_new (n : Z) : option Z := if n =? 0 then None else Some n.

(** [Duration / u32] rounds down to a nanosecond. *)
Definition BandwidthQuota_to_governor_quota (self : BandwidthQuota) (burst_override : option Z)
    : result Panic governor_Quota :=
  let rate_unit_mult := SpeedRateUnit_multiplier (bq_unit self) in
  product ← u32_mul (bq_rate self) rate_unit_mult;
  rate_cells ← ok_or (nonzero_u32_new product) ExpectNonZeroRate;
  let replenish_1_per := Duration_from_TimeUnit (bq_time_unit self) / rate_cells in
  base ← ok_or (with_period replenish_1_per) ExpectNonZeroPeriod;
  match burst_override with
  | Some b =>
      let burst_cells := default rate_cells (nonzero_u32_new (u32_saturating_mul b rate_unit_mult)) in
      Ok (allow_burst base burst_cells)
  | None => Ok (allow_burst base rate_cells)
  end.

Definition RequestCountQuota_try_into_governor (q : RequestCountQuota)
    : result RateError governor_Quota :=
  let replenish_1_per := Duration_from_TimeUnit (rcq_time_unit q) / rcq_rate q in
  quota ← ok_or (with_period replenish_1_per) RateTooHigh;
  Ok (allow_burst quota (rcq_rate q)).

(** [PathLimit] keeps a request-count quota with an optional burst. *)
Definition PathLimit_try_into_governor (quota : RequestCountQuota) (burst : option Z)
    : result RateError governor_Quota :=
  q ← RequestCountQuota_try_into_governor quota;
  Ok (match burst with Some b => allow_burst q b | None => q end).

End ToGovernor.

(** * Overrides *)

Inductive QuotaOverride (T : Type) :=
| QDefault
| QUnlimited
| QValue (v : T).
Arguments QDefault {T}.
Arguments QUnlimited {T}.
Arguments QValue {T} _.

#[export] Instance QuotaOverride_eq_dec {T} `{EqDecision T} : EqDecision (QuotaOverride T).
Proof. solve_decision. Defined.

Definition QuotaOverride_is_default {T} (q : QuotaOverride T) : bool :=
  match q with QDefault => true | _ => false end.

Definition DB_UNLIMITED_SENTINEL : Z := -1.
Definition MAX_RATE_COLUMN_LEN : Z := 32.

(** [i32::try_from(v).unwrap_or(i32::MAX)] on an unsigned integer. *)
Definition clamp_i32 (v : Z) : Z := if v <=? I32_MAX then v else I32_MAX.

Definition QuotaOverride_to_db_int (q : QuotaOverride Z) : option Z :=
  match q with
  | QDefault => None
  | QUnlimited => Some DB_UNLIMITED_SENTINEL
  | QValue v => Some (clamp_i32 v)
  end.

Definition QuotaOverride_from_db_int (val : option Z) : QuotaOverride Z :=
  match val with
  | None => QDefault
  | Some v => if v =? DB_UNLIMITED_SENTINEL then QUnlimited
              else if 0 <=? v then QValue v
              else QDefault
  end.

(** Both [resolve_with_default] methods. *)
Definition QuotaOverride_resolve_with_default {T} (q : QuotaOverride T) (system_default : option T)
    : option T :=
  match q with
  | QDefault => system_default
  | QUnlimited => None
  | QValue v => Some v
  end.

Definition QuotaOverride_to_db_varchar (q : QuotaOverride BandwidthQuota) : option str :=
  match q with
  | QDefault => None
  | QUnlimited => Some (lit "unlimited")
  | QValue v => Some (BandwidthQuota_fmt v)
  end.

Definition QuotaOverride_from_db_varchar (val : option str) : QuotaOverride BandwidthQuota :=
  match val with
  | None => QDefault
  | Some s =>
      if decide (s = lit "unlimited") then QUnlimited
      else match BandwidthQuota_from_str s with
           | Ok rate => QValue rate
           | Err _ => QDefault
           end
  end.

Definition burst_to_i32 (value : option Z) : option Z := clamp_i32 <$> value.

(** * Validation *)

Inductive QuotaError :=
| RateStringTooLong
| RateRoundtripFailed (e : RateError)
| BurstTooLarge
| BurstRequiresRate
| AllowedPathRoot (i : nat)
| AllowedPathDuplicate (i : nat).

Definition validate_rate_value (field : QuotaOverride BandwidthQuota) : result QuotaError () :=
  match field with
  | QValue b =>
      let s := BandwidthQuota_fmt b in
      if MAX_RATE_COLUMN_LEN <? str_len s then Err RateStringTooLong
      else _ ← map_err RateRoundtripFailed (BandwidthQuota_from_str s); Ok ()
  | _ => Ok ()
  end.

Definition validate_burst_value (burst : option Z) : result QuotaError () :=
  match burst with
  | Some b => if I32_MAX <? b then Err BurstTooLarge else Ok ()
  | None => Ok ()
  end.

Definition validate_burst (burst : option Z) (rate : QuotaOverride BandwidthQuota)
    : result QuotaError () :=
  match burst, rate with
  | Some _, (QDefault | QUnlimited) => Err BurstRequiresRate
  | _, _ => validate_burst_value burst
  end.

(** The loop of [validate_allowed_write_paths]; [seen] is the hash set. *)
Fixpoint validate_paths_loop (i : nat) (entries seen : list StoragePath) : result QuotaError () :=
  match entries with
  | [] => Ok ()
  | p :: entries =>
      if decide (as_str p = lit "/") then Err (AllowedPathRoot i)
      else if bool_decide (p ∈ seen) then Err (AllowedPathDuplicate i)
      else validate_paths_loop (S i) entries (p :: seen)
  end.

Definition validate_allowed_write_paths (paths : option (list StoragePath)) : result QuotaError () :=
  match paths with
  | Some entries => validate_paths_loop 0 entries []
  | None => Ok ()
  end.

(** * [UserQuota] *)

Record UserQuota := mk_UserQuota {
  storage_quota_mb : QuotaOverride Z;
  rate_read : QuotaOverride BandwidthQuota;
  rate_write : QuotaOverride BandwidthQuota;
  rate_read_burst : option Z;
  rate_write_burst : option Z;
  allowed_write_paths : option (list StoragePath)
}.

#[export] Instance UserQuota_eq_dec : EqDecision UserQuota.
Proof. solve_decision. Defined.

(** [Default::default]. *)
Definition UserQuota_default : UserQuota := mk_UserQuota QDefault QDefault QDefault None None None.

Definition UserQuota_validate (q : UserQuota) : result QuotaError () :=
  validate_rate_value (rate_read q) ;;
  validate_rate_value (rate_write q) ;;
  validate_burst (rate_read_burst q) (rate_read q) ;;
  validate_burst (rate_write_burst q) (rate_write q) ;;
  validate_allowed_write_paths (allowed_write_paths q).

Definition UserQuota_is_write_path_allowed (q : UserQuota) (path : str) : bool :=
  match allowed_write_paths q with
  | None => true
  | Some entries =>
      existsb (λ entry, if StoragePath_is_directory entry
                        then starts_with path (as_str entry)
                        else bool_decide (path = as_str entry)) entries
  end.

Record UserQuotaPatch := mk_UserQuotaPatch {
  patch_storage_quota_mb : option (QuotaOverride Z);
  patch_rate_read : option (QuotaOverride BandwidthQuota);
  patch_rate_write : option (QuotaOverride BandwidthQuota);
  patch_rate_read_burst : option (option Z);
  patch_rate_write_burst : option (option Z);
  patch_allowed_write_paths : option (option (list StoragePath))
}.

Definition UserQuota_merge (self : UserQuota) (patch : UserQuotaPatch) : UserQuota :=
  mk_UserQuota
    (default (storage_quota_mb self) (patch_storage_quota_mb patch))
    (default (rate_read self) (patch_rate_read patch))
    (default (rate_write self) (patch_rate_write patch))
    (default (rate_read_burst self) (patch_rate_read_burst patch))
    (default (rate_write_burst self) (patch_rate_write_burst patch))
    (default (allowed_write_paths self) (patch_allowed_write_paths patch)).

Definition UserQuotaPatch_validate (p : UserQuotaPatch) : result QuotaError () :=
  match patch_rate_read p with Some field => validate_rate_value field | None => Ok () end ;;
  match patch_rate_write p with Some field => validate_rate_value field | None => Ok () end ;;
  validate_burst_value (mjoin (patch_rate_read_burst p)) ;;
  validate_burst_value (mjoin (patch_rate_write_burst p)) ;;
  match patch_allowed_write_paths p with
  | Some inner => validate_allowed_write_paths inner
  | None => Ok ()
  end.

Record DefaultQuotasToml := mk_DefaultQuotasToml {
  dq_rate_read : option BandwidthQuota;
  dq_rate_write : option BandwidthQuota;
  dq_rate_read_burst : option Z;
  dq_rate_write_burst : option Z;
  dq_unauthenticated_ip_rate_read : option BandwidthQuota
}.

(** [resolve_u64] and [resolve_bw]. *)
Definition resolve_field {T} (field : QuotaOverride T) (dflt : option T) : QuotaOverride T :=
  match field with
  | QDefault => match dflt with Some v => QValue v | None => QUnlimited end
  | other => other
  end.

(** [Option::or]. *)
Definition option_or {A} (a b : option A) : option A :=
  match a with Some _ => a | None => b end.

Definition UserQuota_resolve_with_defaults (self : UserQuota) (default_storage_mb : option Z)
    (default_quotas : DefaultQuotasToml) : UserQuota :=
  mk_UserQuota
    (resolve_field (storage_quota_mb self) default_storage_mb)
    (resolve_field (rate_read self) (dq_rate_read default_quotas))
    (resolve_field (rate_write self) (dq_rate_write default_quotas))
    (option_or (rate_read_burst self)
       (if QuotaOverride_is_default (rate_read self) then dq_rate_read_burst default_quotas else None))
    (option_or (rate_write_burst self)
       (if QuotaOverride_is_default (rate_write self) then dq_rate_write_burst default_quotas else None))
    (allowed_write_paths self).

(** ** Columns *)

Class JsonStrings := {
  (** [serde_json::to_string] on a sequence of strings. *)
  json_strings_to_string : list str → str;
  (** [serde_json::from_str] into a sequence of strings. *)
  json_strings_from_str : str → option (list str);
}.

Class JsonStringsLaws `{JsonStrings} := {
  json_strings_roundtrip l : json_strings_from_str (json_strings_to_string l) = Some l;
}.

(** The nullable quota columns of a [users] row. *)
Record QuotaColumns := mk_QuotaColumns {
  col_quota_storage_mb : option Z;
  col_rate_read : option str;
  col_rate_write : option str;
  col_rate_read_burst : option Z;
  col_rate_write_burst : option Z;
  col_allowed_write_paths : option str
}.

#[export] Instance QuotaColumns_eq_dec : EqDecision QuotaColumns.
Proof. solve_decision. Defined.

Section Columns.
Context `{JsonStrings}.

(** Deserializing a [Vec<StoragePath>] validates every element with
    [StoragePath::new]. *)
Definition parse_allowed_paths (s : str) : option (list StoragePath) :=
  l ← json_strings_from_str s; ok (collect_results (map StoragePath_new l)).

(** [u32::try_from(v).ok()?.try_into().ok()] into a [NonZeroU32]. *)
Definition burst_from_i32 (v : Z) : option Z := if v <=? 0 then None else Some v.

Definition UserQuota_from_nullable_columns (c : QuotaColumns) : UserQuota :=
  mk_UserQuota
    (QuotaOverride_from_db_int (col_quota_storage_mb c))
    (QuotaOverride_from_db_varchar (col_rate_read c))
    (QuotaOverride_from_db_varchar (col_rate_write c))
    (col_rate_read_burst c ≫= burst_from_i32)
    (col_rate_write_burst c ≫= burst_from_i32)
    ((λ s, default [] (parse_allowed_paths s)) <$> col_allowed_write_paths c).

(** [storage_quota_mb_i32], [rate_read_str], .., [allowed_write_paths_db]. *)
Definition UserQuota_to_columns (q : UserQuota) : QuotaColumns :=
  mk_QuotaColumns
    (QuotaOverride_to_db_int (storage_quota_mb q))
    (QuotaOverride_to_db_varchar (rate_read q))
    (QuotaOverride_to_db_varchar (rate_write q))
    (burst_to_i32 (rate_read_burst q))
    (burst_to_i32 (rate_write_burst q))
    ((λ l, json_strings_to_string (map as_str l)) <$> allowed_write_paths q).

End Columns.

(** * Rates in text form *)

(** What [NonZeroU32] guarantees. *)
Definition BandwidthQuota_wf (q : BandwidthQuota) : Prop := 1 ≤ bq_rate q ≤ U32_MAX.
Definition RequestCountQuota_wf (q : RequestCountQuota) : Prop := 1 ≤ rcq_rate q ≤ U32_MAX.
Definition override_wf (q : QuotaOverride BandwidthQuota) : Prop :=
  match q with QValue b => BandwidthQuota_wf b | _ => True end.
Definition burst_wf (b : option Z) : Prop :=
  match b with Some v => 1 ≤ v ≤ U32_MAX | None => True end.

Lemma span_digits_app d u :
  forallb is_ascii_digit d = true →
  match u with c :: _ => is_ascii_digit c = false | [] => True end →
  span_digits (d ++ u) = (d, u).
Proof.
  intros Hd Hu. induction d as [|c d IH]; cbn in *.
  - destruct u as [|c u]; [done|]. cbn. by rewrite Hu.
  - apply andb_true_iff in Hd as [-> Hd]. by rewrite IH.
Qed.

Lemma digits_no_char s c : forallb is_ascii_digit s = true → is_ascii_digit c = false → c ∉ s.
Proof.
  intros Hs Hc Hin. rewrite forallb_forall in Hs. apply list_elem_of_In, Hs in Hin. congruence.
Qed.

Lemma parse_nonzero_show n : 1 ≤ n ≤ U32_MAX → parse_nonzero_u32 (show_uint n) = Some n.
Proof.
  intros Hn. unfold parse_nonzero_u32. rewrite parse_uint_show by lia. cbn.
  destruct (Z.eqb_spec n 0); [lia|done].
Qed.

Lemma parse_nonzero_wf s n : parse_nonzero_u32 s = Some n → 1 ≤ n ≤ U32_MAX.
Proof.
  unfold parse_nonzero_u32. destruct (parse_uint U32_MAX s) as [m|] eqn:E; [|done]. cbn.
  apply parse_uint_range in E. destruct (Z.eqb_spec m 0); [done|]. intros [= <-]. lia.
Qed.

Lemma TimeUnit_parse_fmt u : TimeUnit_from_str (TimeUnit_fmt u) = Some u.
Proof. by destruct u. Qed.

Lemma TimeUnit_fmt_no_slash u : SLASH ∉ TimeUnit_fmt u.
Proof. apply contains_char_false. by destruct u. Qed.

Lemma SpeedRateUnit_parse_fmt u : SpeedRateUnit_from_str (SpeedRateUnit_fmt u) = Some u.
Proof. by destruct u. Qed.

Lemma SpeedRateUnit_fmt_no_slash u : SLASH ∉ SpeedRateUnit_fmt u.
Proof. apply contains_char_false. by destruct u. Qed.

Lemma BandwidthQuota_parse_fmt q :
  BandwidthQuota_wf q → BandwidthQuota_from_str (BandwidthQuota_fmt q) = Ok q.
Proof.
  intros Hq. unfold BandwidthQuota_from_str, BandwidthQuota_fmt.
  destruct (show_uint_spec (bq_rate q)) as (Hne & Hd & _); [unfold BandwidthQuota_wf in Hq; lia|].
  cbn [app]. rewrite (app_assoc (show_uint _)), split_app_sep.
  2: { rewrite elem_of_app. intros [?|?].
       - by eapply (digits_no_char _ SLASH Hd).
       - by eapply SpeedRateUnit_fmt_no_slash. }
  rewrite split_no_sep_id by apply TimeUnit_fmt_no_slash.
  rewrite TimeUnit_parse_fmt. cbn [ok_or mbind result_bind].
  rewrite span_digits_app; [|done|by destruct (bq_unit q)].
  rewrite decide_False by done. rewrite parse_nonzero_show, SpeedRateUnit_parse_fmt by apply Hq.
  cbn. by destruct q.
Qed.

Lemma BandwidthQuota_from_str_wf s q : BandwidthQuota_from_str s = Ok q → BandwidthQuota_wf q.
Proof.
  unfold BandwidthQuota_from_str. destruct (split SLASH s) as [|r [|t [|? ?]]]; try done.
  destruct (TimeUnit_from_str t); [|done]. cbn [ok_or mbind result_bind].
  destruct (span_digits r) as [d u]. case_decide; [done|].
  destruct (parse_nonzero_u32 d) as [n|] eqn:E; [|done]. cbn [ok_or mbind result_bind].
  destruct (SpeedRateUnit_from_str u); [|done]. intros [= <-]. by eapply parse_nonzero_wf.
Qed.

Lemma BandwidthQuota_fmt_len q : BandwidthQuota_wf q → str_len (BandwidthQuota_fmt q) ≤ 14.
Proof.
  intros Hq. unfold BandwidthQuota_fmt. rewrite !str_len_app.
  destruct (show_uint_spec (bq_rate q)) as (_ & Hd & _); [unfold BandwidthQuota_wf in Hq; lia|].
  rewrite (str_len_digits _ Hd).
  assert (length (show_uint (bq_rate q)) ≤ 10)%nat as Hl.
  { apply show_fuel_length. unfold BandwidthQuota_wf, U32_MAX in Hq.
    change (10 ^ Z.of_nat 10) with 10000000000. lia. }
  assert (str_len (SpeedRateUnit_fmt (bq_unit q)) = 2) as -> by by destruct (bq_unit q).
  assert (str_len (TimeUnit_fmt (bq_time_unit q)) = 1) as -> by by destruct (bq_time_unit q).
  change (str_len [SLASH]) with 1. lia.
Qed.

Lemma validate_rate_ok field : override_wf field → validate_rate_value field = Ok ().
Proof.
  destruct field as [| |q]; [done..|]. intros Hq. unfold validate_rate_value.
  pose proof (BandwidthQuota_fmt_len q Hq). unfold MAX_RATE_COLUMN_LEN.
  destruct (Z.ltb_spec 32 (str_len (BandwidthQuota_fmt q))); [lia|].
  by rewrite BandwidthQuota_parse_fmt.
Qed.

Lemma RequestCountQuota_parse_fmt q :
  RequestCountQuota_wf q → RequestCountQuota_from_str (RequestCountQuota_fmt q) = Ok q.
Proof.
  intros Hq. unfold RequestCountQuota_from_str, RequestCountQuota_fmt.
  destruct (show_uint_spec (rcq_rate q)) as (Hne & Hd & _); [unfold RequestCountQuota_wf in Hq; lia|].
  rewrite (proj2 (split_once_spec SLASH _ (show_uint (rcq_rate q) ++ [114]) (TimeUnit_fmt (rcq_time_unit q)))).
  2: { split; [by rewrite <-app_assoc|]. rewrite elem_of_app. intros [?|?%list_elem_of_singleton]; [|done].
       by eapply (digits_no_char _ SLASH Hd). }
  cbn [ok_or mbind result_bind]. unfold strip_suffix_char.
  rewrite (proj2 (ends_with_char_spec _ _)) by eauto. rewrite removelast_last. cbn [ok_or mbind result_bind].
  rewrite parse_nonzero_show by apply Hq. cbn [ok_or mbind result_bind].
  rewrite TimeUnit_parse_fmt. cbn. by destruct q.
Qed.

Lemma RequestCountQuota_from_str_wf s q : RequestCountQuota_from_str s = Ok q → RequestCountQuota_wf q.
Proof.
  unfold RequestCountQuota_from_str. destruct (split_once SLASH s) as [[r t]|]; [|done].
  cbn [ok_or mbind result_bind]. destruct (strip_suffix_char r 114) as [d|]; [|done].
  cbn [ok_or mbind result_bind].
  destruct (parse_nonzero_u32 d) as [n|] eqn:E; [|done]. cbn [ok_or mbind result_bind].
  destruct (TimeUnit_from_str t); [|done]. intros [= <-]. by eapply parse_nonzero_wf.
Qed.

(** Rates survive their text form: what [Display] prints for a bandwidth
    rate or a request-count rate parses back to it, every accepted text yields
    a rate in [1..u32::MAX], and a printed bandwidth rate always fits the
    32-character database column, so [validate_rate_value] never rejects one. *)
Theorem rate_text_roundtrip :
  (∀ q, BandwidthQuota_wf q →
     BandwidthQuota_from_str (BandwidthQuota_fmt q) = Ok q ∧
     str_len (BandwidthQuota_fmt q) ≤ 14 ∧ validate_rate_value (QValue q) = Ok ()) ∧
  (∀ q, RequestCountQuota_wf q → RequestCountQuota_from_str (RequestCountQuota_fmt q) = Ok q) ∧
  (∀ s q, BandwidthQuota_from_str s = Ok q → BandwidthQuota_wf q) ∧
  (∀ s q, RequestCountQuota_from_str s = Ok q → RequestCountQuota_wf q).
Proof.
  split_and!; eauto using RequestCountQuota_parse_fmt, BandwidthQuota_from_str_wf,
    RequestCountQuota_from_str_wf.
  intros q Hq. split_and!; auto using BandwidthQuota_parse_fmt, BandwidthQuota_fmt_len,
    validate_rate_ok.
Qed.

Lemma rate_text_roundtrip_witness :
  BandwidthQuota_from_str (lit "10mb/s") = Ok (mk_BandwidthQuota 10 Megabyte Second) ∧
  BandwidthQuota_from_str (BandwidthQuota_fmt (mk_BandwidthQuota 10 Megabyte Second))
  = Ok (mk_BandwidthQuota 10 Megabyte Second).
Proof.
  split; [vm_compute; reflexivity|].
  apply (proj1 rate_text_roundtrip (mk_BandwidthQuota 10 Megabyte Second)).
  vm_compute. split; discriminate.
Defined.

(** * Token buckets *)

Section GovernorTheorems.
Context `{GovernorLaws}.

Lemma u32_mul_exact checks a b : 0 ≤ a * b ≤ U32_MAX → u32_mul checks a b = Ok (a * b).
Proof.
  unfold u32_mul, U32_MAX. intros Hab. destruct (Z.ltb_spec 4294967295 (a * b)); [lia|].
  rewrite andb_false_r, Z.mod_small by lia. done.
Qed.

Lemma nonzero_u32_new_pos n : 1 ≤ n → nonzero_u32_new n = Some n.
Proof. unfold nonzero_u32_new. destruct (Z.eqb_spec n 0); [lia|done]. Qed.

Lemma multiplier_pos u : 1 ≤ SpeedRateUnit_multiplier u ≤ 1048576.
Proof. destruct u; cbn; lia. Qed.

(** Which bandwidth rates become a token bucket.  For a rate whose size in
    kilobytes fits [u32], in a build with or without overflow checks:
    the conversion returns a bucket refilled once every [window / kilobytes]
    nanoseconds with the rate (or the override, in the rate's unit, saturated)
    as burst, if the rate is at most one kilobyte per nanosecond; otherwise the
    [expect] that the period is non-zero panics. *)
Theorem to_governor_quota_spec checks q burst :
  let cells := bq_rate q * SpeedRateUnit_multiplier (bq_unit q) in
  let window := Duration_from_TimeUnit (bq_time_unit q) in
  BandwidthQuota_wf q → burst_wf burst → cells ≤ U32_MAX →
  (cells ≤ window → ∃ base,
     with_period (window / cells) = Some base ∧
     BandwidthQuota_to_governor_quota checks q burst =
       Ok (allow_burst base
         (match burst with
          | Some b => Z.min U32_MAX (b * SpeedRateUnit_multiplier (bq_unit q))
          | None => cells
          end))) ∧
  (window < cells →
     BandwidthQuota_to_governor_quota checks q burst = Err ExpectNonZeroPeriod).
Proof.
  intros cells window Hq Hb Hc. unfold BandwidthQuota_wf in Hq.
  pose proof (multiplier_pos (bq_unit q)) as Hm.
  assert (1 ≤ cells) as Hpos by (unfold cells; nia).
  unfold BandwidthQuota_to_governor_quota. fold cells window.
  rewrite u32_mul_exact by lia. cbn [mbind result_bind].
  fold cells. rewrite (nonzero_u32_new_pos cells) by lia.
  cbn [ok_or mbind result_bind]. split.
  - intros Hw. destruct (with_period (window / cells)) as [base|] eqn:E.
    + exists base. split; [done|]. cbn [ok_or mbind result_bind]. destruct burst as [b|]; [|done].
      rewrite nonzero_u32_new_pos; [done|]. cbn in Hb. unfold u32_saturating_mul, U32_MAX in *. nia.
    + exfalso. assert (1 ≤ window / cells) by (apply Z.div_le_lower_bound; lia).
      destruct (proj2 (with_period_spec (window / cells) ltac:(lia)) ltac:(lia)). congruence.
  - intros Hw. assert (0 ≤ window) by (unfold window; destruct (bq_time_unit q); by vm_compute).
    rewrite Z.div_small by lia.
    destruct (with_period 0) eqn:E; [|done].
    exfalso. by apply (proj1 (with_period_spec 0 ltac:(lia))).
Qed.

(** The rate [1000gb/s] is accepted by the parser and by the validation of
    per-user quotas, and converting it panics. *)
Lemma accepted_rate_panics checks :
  BandwidthQuota_from_str (lit "1000gb/s") = Ok (mk_BandwidthQuota 1000 Gigabyte Second) ∧
  UserQuota_validate (mk_UserQuota QDefault (QValue (mk_BandwidthQuota 1000 Gigabyte Second))
                        QDefault None None None) = Ok () ∧
  BandwidthQuota_to_governor_quota checks (mk_BandwidthQuota 1000 Gigabyte Second) None
  = Err ExpectNonZeroPeriod.
Proof.
  split_and!; [vm_compute; reflexivity..|].
  unfold BandwidthQuota_to_governor_quota.
  rewrite u32_mul_exact by (vm_compute; split; discriminate).
  change (ok_or (with_period 0) ExpectNonZeroPeriod ≫=
    (λ base, Ok (allow_burst base (1000 * 1048576))) = Err ExpectNonZeroPeriod).
  destruct (with_period 0) eqn:E; [|done].
  exfalso. by apply (proj1 (with_period_spec 0 ltac:(lia))).
Qed.

End GovernorTheorems.

(** A bucket as its period and burst. *)
#[export] Instance demo_governor : Governor := {|
  governor_Quota := Z * Z;
  with_period d := if d =? 0 then None else Some (d, 1);
  allow_burst q b := (q.1, b);
|}.
#[export] Instance demo_governor_laws : GovernorLaws.
Proof.
  split. intros d Hd. cbn. destruct (Z.eqb_spec d 0) as [->|]; split; try done; by intros [? ?].
Qed.

Lemma to_governor_quota_spec_witness :
  BandwidthQuota_to_governor_quota true (mk_BandwidthQuota 10 Megabyte Second) (Some 50)
  = Ok (97656, 51200) ∧
  BandwidthQuota_to_governor_quota false (mk_BandwidthQuota 1000 Gigabyte Second) None
  = Err ExpectNonZeroPeriod.
Proof.
  split.
  - destruct (to_governor_quota_spec true (mk_BandwidthQuota 10 Megabyte Second) (Some 50)
      ltac:(vm_compute; split; discriminate) ltac:(vm_compute; split; discriminate)
      ltac:(vm_compute; discriminate)) as [H _].
    destruct (H ltac:(vm_compute; discriminate)) as (base & Hb & ->).
    vm_compute in Hb. injection Hb as <-. vm_compute. reflexivity.
  - apply (to_governor_quota_spec false (mk_BandwidthQuota 1000 Gigabyte Second) None
      ltac:(vm_compute; split; discriminate) I ltac:(vm_compute; discriminate)).
    vm_compute. reflexivity.
Defined.

(** * Validation *)

Lemma validate_paths_loop_spec i entries seen :
  validate_paths_loop i entries seen = Ok () ↔
  Forall (λ p, as_str p ≠ lit "/") entries ∧ NoDup entries ∧ Forall (.∉ seen) entries.
Proof.
  revert i seen; induction entries as [|p l IH]; intros i seen; cbn [validate_paths_loop].
  { split; [intros _|done]. split_and!; constructor. }
  rewrite NoDup_cons, !Forall_cons.
  case_decide as Hr; [split; [done|]; naive_solver|].
  destruct (bool_decide (p ∈ seen)) eqn:Hs; [apply bool_decide_eq_true in Hs; split; [done|]; naive_solver|].
  apply bool_decide_eq_false in Hs.
  rewrite IH. split.
  - intros (H1 & H2 & H3). split_and!; try done.
    + intros Hp. rewrite Forall_forall in H3. destruct (H3 p Hp). left.
    + eapply Forall_impl; [exact H3|]. intros x Hx ?. apply Hx. by right.
  - intros ((_ & H1) & (Hp & H2) & _ & H3). split_and!; try done.
    rewrite Forall_forall in *. intros x Hx [->|?]%elem_of_cons; [done|]. by apply (H3 x).
Qed.

(** A burst needs a rate value to be in the unit of, and must fit the column. *)
Definition burst_ok (burst : option Z) (rate : QuotaOverride BandwidthQuota) : Prop :=
  match burst with
  | Some b => b ≤ I32_MAX ∧ ∃ v, rate = QValue v
  | None => True
  end.

Lemma validate_burst_spec burst rate : validate_burst burst rate = Ok () ↔ burst_ok burst rate.
Proof.
  unfold validate_burst, validate_burst_value, burst_ok.
  destruct burst as [b|], rate; try done; try (split; [done|]; naive_solver).
  destruct (Z.ltb_spec I32_MAX b); split; try done; [lia|]. eauto.
Qed.

(** What the types of the fields guarantee. *)
Definition UserQuota_wf (q : UserQuota) : Prop :=
  match storage_quota_mb q with QValue v => in_u64 v | _ => True end ∧
  override_wf (rate_read q) ∧ override_wf (rate_write q) ∧
  burst_wf (rate_read_burst q) ∧ burst_wf (rate_write_burst q) ∧
  match allowed_write_paths q with Some l => Forall StoragePath_wf l | None => True end.

Lemma UserQuota_validate_iff q :
  UserQuota_wf q →
  UserQuota_validate q = Ok () ↔
  burst_ok (rate_read_burst q) (rate_read q) ∧ burst_ok (rate_write_burst q) (rate_write q) ∧
  match allowed_write_paths q with
  | Some l => Forall (λ p, as_str p ≠ lit "/") l ∧ NoDup l
  | None => True
  end.
Proof.
  intros (_ & Hr & Hw & _). unfold UserQuota_validate.
  rewrite !validate_rate_ok by done. cbn [mbind result_bind].
  rewrite <-!validate_burst_spec.
  destruct (validate_burst (rate_read_burst q) _) as [[]|]; [|naive_solver].
  destruct (validate_burst (rate_write_burst q) _) as [[]|]; [|naive_solver].
  cbn [mbind result_bind]. unfold validate_allowed_write_paths.
  destruct (allowed_write_paths q) as [l|]; [|naive_solver].
  rewrite validate_paths_loop_spec. split; [naive_solver|].
  intros (_ & _ & ? & ?). split_and!; try done. apply Forall_forall. intros x _. apply not_elem_of_nil.
Qed.

(** Write-path restrictions are capability scopes: a quota that passes
    validation lets a canonical path be written exactly when it has no
    restriction or one of its entries covers the path, in the same sense in
    which a capability scope does; with an empty list nothing can be written,
    and the restriction never opens the whole storage through the root. *)
Theorem write_path_restriction q p :
  UserQuota_wf q → UserQuota_validate q = Ok () → StoragePath_wf p →
  UserQuota_is_write_path_allowed q (as_str p) = true ↔
  match allowed_write_paths q with
  | None => True
  | Some l => ∃ e, e ∈ l ∧ StoragePath_is_root e = false ∧ StoragePath_covers_path e p = true
  end.
Proof.
  intros Hq (_ & _ & Hv)%UserQuota_validate_iff Hp; [|done].
  unfold UserQuota_is_write_path_allowed. destruct (allowed_write_paths q) as [l|]; [|done].
  destruct Hv as [Hroot _]. rewrite existsb_exists. setoid_rewrite <-list_elem_of_In.
  rewrite Forall_forall in Hroot. unfold StoragePath_covers_path. split.
  - intros (e & He & H). exists e. split; [done|]. split.
    { unfold StoragePath_is_root. apply bool_decide_eq_false_2. by apply Hroot. }
    destruct (StoragePath_is_directory e) eqn:Ed; [by rewrite H, orb_true_r|].
    apply bool_decide_eq_true in H. rewrite bool_decide_eq_true_2; [done|]. by destruct e, p; cbn in *; subst.
  - intros (e & He & _ & H). exists e. split; [done|].
    apply orb_true_iff in H as [->%bool_decide_eq_true|[-> H]%andb_true_iff]; [|done].
    destruct (StoragePath_is_directory p); [apply starts_with_refl|by apply bool_decide_eq_true_2].
Qed.

Lemma write_path_restriction_witness :
  let q := mk_UserQuota QDefault QDefault QDefault None None (Some [mk_StoragePath (lit "/pub/app/")]) in
  UserQuota_is_write_path_allowed q (as_str sample_path) = true.
Proof.
  intros q. apply (write_path_restriction q sample_path).
  - split_and!; try done. cbn. by apply Forall_singleton.
  - vm_compute. reflexivity.
  - vm_compute. reflexivity.
  - exists (mk_StoragePath (lit "/pub/app/")). split; [left|]. split; vm_compute; reflexivity.
Defined.

(** * Columns *)

Section ColumnTheorems.
Context `{JsonStringsLaws}.

Lemma override_varchar_roundtrip f :
  override_wf f → QuotaOverride_from_db_varchar (QuotaOverride_to_db_varchar f) = f.
Proof.
  destruct f as [| |q]; [done..|]. intros Hq. unfold QuotaOverride_from_db_varchar, QuotaOverride_to_db_varchar.
  rewrite decide_False; [by rewrite BandwidthQuota_parse_fmt|].
  intros E. apply BandwidthQuota_parse_fmt in Hq. by rewrite E in Hq.
Qed.

Lemma burst_roundtrip b r :
  burst_wf b → burst_ok b r → burst_to_i32 b ≫= burst_from_i32 = b.
Proof.
  destruct b as [b|]; [|done]. cbn. intros Hb [Hl _]. unfold clamp_i32, burst_from_i32.
  destruct (Z.leb_spec b I32_MAX); [|lia]. cbn. by destruct (Z.leb_spec b 0); [lia|].
Qed.

(** The storage limit a row can hold. *)
Definition storable_storage_mb (q : QuotaOverride Z) : QuotaOverride Z :=
  match q with QValue v => QValue (Z.min v I32_MAX) | other => other end.

(** Quotas survive the database: reading back the columns written for a
    quota that passes validation returns the same rates, bursts and write-path
    restrictions, and the same storage limit except that a limit above
    [i32::MAX] megabytes comes back as [i32::MAX]. *)
Theorem quota_columns_roundtrip q :
  UserQuota_wf q → UserQuota_validate q = Ok () →
  UserQuota_from_nullable_columns (UserQuota_to_columns q) =
  mk_UserQuota (storable_storage_mb (storage_quota_mb q)) (rate_read q) (rate_write q)
    (rate_read_burst q) (rate_write_burst q) (allowed_write_paths q).
Proof.
  intros Hq Hv. apply UserQuota_validate_iff in Hv as (Hbr & Hbw & _); [|done].
  destruct Hq as (Hs & Hr & Hw & Hrb & Hwb & Hp).
  unfold UserQuota_from_nullable_columns, UserQuota_to_columns. cbn. f_equal.
  - destruct (storage_quota_mb q) as [| |v]; [done..|]. cbn in *.
    unfold in_u64, clamp_i32, DB_UNLIMITED_SENTINEL, I32_MAX in *. cbn.
    destruct (Z.leb_spec v 2147483647); [|by rewrite Z.min_r by lia].
    rewrite Z.min_l by done. destruct (Z.eqb_spec v (-1)); [lia|].
    by destruct (Z.leb_spec 0 v); [|lia].
  - by apply override_varchar_roundtrip.
  - by apply override_varchar_roundtrip.
  - by eapply burst_roundtrip.
  - by eapply burst_roundtrip.
  - destruct (allowed_write_paths q) as [l|]; [|done]. cbn. f_equal.
    unfold parse_allowed_paths. rewrite json_strings_roundtrip. cbn.
    rewrite map_map, (collect_results_map_ok _ id); [by rewrite map_id|].
    intros p Hpl. rewrite Forall_forall in Hp. specialize (Hp p Hpl).
    unfold StoragePath_new. rewrite Hp. by destruct p.
Qed.

End ColumnTheorems.

(** Resolution against the server's defaults is complete and agrees with
    the per-field resolution used for enforcement: no field stays [Default],
    an explicit override always wins, and the default burst is used only
    together with the default rate. *)
Theorem resolve_with_defaults_effective q storage d :
  let r := UserQuota_resolve_with_defaults q storage d in
  (∀ s, QuotaOverride_resolve_with_default (storage_quota_mb r) s
        = QuotaOverride_resolve_with_default (storage_quota_mb q) storage) ∧
  (∀ s, QuotaOverride_resolve_with_default (rate_read r) s
        = QuotaOverride_resolve_with_default (rate_read q) (dq_rate_read d)) ∧
  (∀ s, QuotaOverride_resolve_with_default (rate_write r) s
        = QuotaOverride_resolve_with_default (rate_write q) (dq_rate_write d)) ∧
  (rate_read_burst r ≠ rate_read_burst q →
     rate_read_burst q = None ∧ rate_read q = QDefault ∧ rate_read_burst r = dq_rate_read_burst d) ∧
  (rate_write_burst r ≠ rate_write_burst q →
     rate_write_burst q = None ∧ rate_write q = QDefault ∧ rate_write_burst r = dq_rate_write_burst d) ∧
  UserQuota_resolve_with_defaults r storage d = r.
Proof.
  destruct q as [sq rr rw rb wb ap], d as [dr dw drb dwb du]; cbn. split_and!.
  - by destruct sq, storage.
  - by destruct rr, dr.
  - by destruct rw, dw.
  - by destruct rr, rb.
  - by destruct rw, wb.
  - unfold UserQuota_resolve_with_defaults. cbn. f_equal.
    + by destruct sq, storage.
    + by destruct rr, dr.
    + by destruct rw, dw.
    + by destruct rr, rb, dr, drb.
    + by destruct rw, wb, dw, dwb.
Qed.

Lemma resolve_with_defaults_effective_witness :
  let q := mk_UserQuota QDefault QDefault QUnlimited None None None in
  let d := mk_DefaultQuotasToml None None (Some 5) (Some 6) None in
  rate_read_burst q = None ∧ rate_read q = QDefault ∧
  rate_read_burst (UserQuota_resolve_with_defaults q None d) = dq_rate_read_burst d.
Proof.
  intros q d. destruct (resolve_with_defaults_effective q None d) as (_ & _ & _ & H & _).
  by apply H.
Defined.

(** A text form of string arrays, for evaluation: every element after its
    length. *)
Definition demo_json_encode (l : list str) : str :=
  foldr (λ s acc, Z.of_nat (length s) :: s ++ acc) [] l.
Fixpoint demo_json_decode (fuel : nat) (s : str) : option (list str) :=
  match fuel, s with
  | _, [] => Some []
  | O, _ => None
  | S fuel, n :: s =>
      rest ← demo_json_decode fuel (drop (Z.to_nat n) s); Some (take (Z.to_nat n) s :: rest)
  end.
#[export] Instance demo_json : JsonStrings := {|
  json_strings_to_string := demo_json_encode;
  json_strings_from_str s := demo_json_decode (length s) s;
|}.

Lemma demo_json_decode_encode l fuel :
  (length (demo_json_encode l) ≤ fuel)%nat → demo_json_decode fuel (demo_json_encode l) = Some l.
Proof.
  revert fuel; induction l as [|s l IH]; intros fuel Hf; [by destruct fuel|].
  change (demo_json_encode (s :: l)) with (Z.of_nat (length s) :: s ++ demo_json_encode l) in *.
  destruct fuel as [|fuel]; cbn [length demo_json_decode] in *; [lia|].
  rewrite Nat2Z.id, drop_app_length, take_app_length.
  rewrite length_app in Hf. by rewrite IH by lia.
Qed.

#[export] Instance demo_json_laws : JsonStringsLaws.
Proof. split. intros l. by apply demo_json_decode_encode. Qed.

Lemma quota_columns_roundtrip_witness :
  let q := mk_UserQuota (QValue 3000000000) (QValue (mk_BandwidthQuota 10 Megabyte Second)) QUnlimited
             (Some 50) None (Some [sample_path]) in
  storage_quota_mb (UserQuota_from_nullable_columns (UserQuota_to_columns q)) = QValue I32_MAX.
Proof.
  intros q. rewrite (quota_columns_roundtrip q); [vm_compute; reflexivity| |vm_compute; reflexivity].
  split_and!; try done. cbn. by apply Forall_singleton.
Defined.
