(* ===== verification/Database.v ===== *)
(** The PostgreSQL database behind the homeserver, and the statements the
    repositories issue on it.

    The tables the storage path uses are records of rows with the columns and
    constraints of the migrations ([persistence/sql/migrations/]).  A statement
    is a function of the tables, the sequences and the clocks; running one
    consumes a [Tick], which says how much time passes before it runs and
    whether it fails (a lost connection), possibly after it took effect.  The
    theorems quantify over every schedule of ticks.  Sequences are not rolled
    back, as in PostgreSQL; transactions run one after the other (the code
    serialises writers on the user row). *)

From S2P Require Import Prelude StoragePath Keys Quota.

(** * Tables *)

(** A BLAKE3 digest, 32 bytes. *)
Abbreviation Hash := (list Z).

Record UserRow := mk_UserRow {
  u_id : Z;
  u_public_key : str;
  u_created_at : Z;
  u_disabled : bool;
  u_used_bytes : Z;
  u_quota : QuotaColumns
}.

Record EntryRow := mk_EntryRow {
  e_id : Z;
  e_path : str;
  e_user : Z;
  e_content_hash : list Z;
  e_content_length : Z;
  e_content_type : str;
  e_modified_at : Z;
  e_created_at : Z
}.

Record EventRow := mk_EventRow {
  v_id : Z;
  v_type : str;
  v_user : Z;
  v_path : str;
  v_created_at : Z;
  v_content_hash : option (list Z)
}.

Record EntryLockEntity := mk_EntryLockEntity {
  l_path : str;
  l_token : str;
  l_expires_at : Z
}.

(** The tables behind authentication. *)

Record SignupCodeRow := mk_SignupCodeRow {
  c_id : str;
  c_created_at : Z;
  c_used_at : option Z;
  c_used_by : option str;
  c_quota : QuotaColumns
}.

Record SessionRow := mk_SessionRow {
  s_id : Z;
  s_secret : str;
  s_user : Z;
  s_capabilities : str;
  s_created_at : Z
}.

Record GrantRow := mk_GrantRow {
  g_id : str;
  g_user : Z;
  g_client_id : str;
  g_client_cnf_key : str;
  g_capabilities : str;
  g_issued_at : Z;
  g_expires_at : Z;
  g_revoked_at : option Z;
  g_created_at : Z
}.

Record GrantSessionRow := mk_GrantSessionRow {
  t_id : Z;
  t_token_hash : list Z;
  t_grant_id : str;
  t_expires_at : Z;
  t_created_at : Z
}.

(** [created_at] in microseconds. *)
Record PopNonceRow := mk_PopNonceRow {
  n_nonce : str;
  n_created_at : Z
}.

(** [AuthRevocation], the payload of the notifications on the revocation
    channel. *)
Inductive AuthRevocation :=
| RevokedCookieSession (id : Z)
| RevokedGrant (id : str).

(** The tables of authentication, and the notifications on the revocation
    channel in the order their transactions committed. *)
Record AuthTables := mk_AuthTables {
  signup_codes : list SignupCodeRow;
  sessions : list SessionRow;
  grants : list GrantRow;
  grant_sessions : list GrantSessionRow;
  pop_nonces : list PopNonceRow;
  notifications : list AuthRevocation
}.
Definition no_auth : AuthTables := mk_AuthTables [] [] [] [] [] [].

#[export] Instance UserRow_eq_dec : EqDecision UserRow.
Proof. solve_decision. Defined.
#[export] Instance EntryRow_eq_dec : EqDecision EntryRow.
Proof. solve_decision. Defined.
#[export] Instance EventRow_eq_dec : EqDecision EventRow.
Proof. solve_decision. Defined.
#[export] Instance EntryLockEntity_eq_dec : EqDecision EntryLockEntity.
Proof. solve_decision. Defined.

Record Tables := mk_Tables {
  users : list UserRow;
  entries : list EntryRow;
  events : list EventRow;
  entry_locks : list EntryLockEntity;
  auth : AuthTables
}.

Definition set_users (f : list UserRow → list UserRow) (t : Tables) : Tables :=
  mk_Tables (f (users t)) (entries t) (events t) (entry_locks t) (auth t).
Definition set_entries (f : list EntryRow → list EntryRow) (t : Tables) : Tables :=
  mk_Tables (users t) (f (entries t)) (events t) (entry_locks t) (auth t).
Definition set_events (f : list EventRow → list EventRow) (t : Tables) : Tables :=
  mk_Tables (users t) (entries t) (f (events t)) (entry_locks t) (auth t).
Definition set_entry_locks (f : list EntryLockEntity → list EntryLockEntity) (t : Tables) : Tables :=
  mk_Tables (users t) (entries t) (events t) (f (entry_locks t)) (auth t).
Definition set_auth (f : AuthTables → AuthTables) (t : Tables) : Tables :=
  mk_Tables (users t) (entries t) (events t) (entry_locks t) (f (auth t)).

Definition set_signup_codes (f : list SignupCodeRow → list SignupCodeRow) : Tables → Tables :=
  set_auth (λ a, mk_AuthTables (f (signup_codes a)) (sessions a) (grants a) (grant_sessions a) (pop_nonces a)
                 (notifications a)).
Definition set_sessions (f : list SessionRow → list SessionRow) : Tables → Tables :=
  set_auth (λ a, mk_AuthTables (signup_codes a) (f (sessions a)) (grants a) (grant_sessions a) (pop_nonces a)
                 (notifications a)).
Definition set_grants (f : list GrantRow → list GrantRow) : Tables → Tables :=
  set_auth (λ a, mk_AuthTables (signup_codes a) (sessions a) (f (grants a)) (grant_sessions a) (pop_nonces a)
                 (notifications a)).
Definition set_grant_sessions (f : list GrantSessionRow → list GrantSessionRow) : Tables → Tables :=
  set_auth (λ a, mk_AuthTables (signup_codes a) (sessions a) (grants a) (f (grant_sessions a)) (pop_nonces a)
                 (notifications a)).
Definition set_pop_nonces (f : list PopNonceRow → list PopNonceRow) : Tables → Tables :=
  set_auth (λ a, mk_AuthTables (signup_codes a) (sessions a) (grants a) (grant_sessions a) (f (pop_nonces a))
                 (notifications a)).
Definition set_notifications (f : list AuthRevocation → list AuthRevocation) : Tables → Tables :=
  set_auth (λ a, mk_AuthTables (signup_codes a) (sessions a) (grants a) (grant_sessions a) (pop_nonces a)
                 (f (notifications a))).

(** The next value of each [auto_increment] sequence. *)
Record Seqs := mk_Seqs {
  seq_users : Z;
  seq_entries : Z;
  seq_events : Z;
  seq_sessions : Z;
  seq_grant_sessions : Z
}.

(** * Running statements *)

(** The [sqlx::Error]s the code can meet; [SqlIo] is a lost connection or any
    other failure that is not caused by the statement itself. *)
Inductive SqlError :=
| RowNotFound
| Decode
| InvalidArgument
| UniqueViolation
| ForeignKeyViolation
| SqlIo.

#[export] Instance SqlError_eq_dec : EqDecision SqlError.
Proof. solve_decision. Defined.

Record Tick := mk_Tick {
  elapsed : N;
  fault : bool;
  (** A failed statement may have taken effect before the failure. *)
  lost_ack : bool
}.

Definition quiet_tick : Tick := mk_Tick 0 false false.

Record World := mk_World {
  tables : Tables;
  seqs : Seqs;
  (** Unix seconds on the database clock. *)
  clock : Z;
  (** Start of the open transaction, which [CURRENT_TIMESTAMP] returns. *)
  tx_time : option Z;
  ticks : list Tick
}.

Definition DB (E A : Type) : Type := World → result E A * World.

#[export] Instance db_ret {E} : MRet (DB E) := λ _ a w, (Ok a, w).
#[export] Instance db_bind {E} : MBind (DB E) :=
  λ _ _ k m w, match m w with (Ok a, w') => k a w' | (Err e, w') => (Err e, w') end.

Definition throw {E A} (e : E) : DB E A := λ w, (Err e, w).

(** [?] on a value. *)
Definition lift_result {E A} (r : result E A) : DB E A := λ w, (r, w).

(** [map_err]. *)
Definition db_map_err {E F A} (f : E → F) (m : DB E A) : DB F A :=
  λ w, let '(r, w') := m w in (map_err f r, w').

(** The result of a call, matched on by the caller. *)
Definition try_db {E F A} (m : DB E A) : DB F (result E A) :=
  λ w, let '(r, w') := m w in (Ok r, w').

(** A statement: its own timestamp, the transaction's, and the tables. *)
Definition Stmt (A : Type) : Type :=
  Z → Z → Tables → Seqs → result SqlError A * Tables * Seqs.

Definition next_tick (w : World) : Tick * list Tick :=
  match ticks w with t :: ts => (t, ts) | [] => (quiet_tick, []) end.

Definition exec {A} (f : Stmt A) : DB SqlError A := λ w,
  let '(t, ts) := next_tick w in
  let now := clock w + Z.of_N (elapsed t) in
  let '(r, tb, sq) := f now (default now (tx_time w)) (tables w) (seqs w) in
  if fault t then
    (Err SqlIo, if lost_ack t then mk_World tb sq now (tx_time w) ts
                else mk_World (tables w) (seqs w) now (tx_time w) ts)
  else (r, mk_World tb sq now (tx_time w) ts).

(** A [SELECT]. *)
Definition select {A} (f : Z → Tables → result SqlError A) : DB SqlError A :=
  exec (λ now _ tb sq, (f now tb, tb, sq)).

(** ** Transactions *)

(** What [ROLLBACK] restores. *)
Record Snapshot := mk_Snapshot { snap_tables : Tables; snap_tx_time : option Z }.

Definition open_tx : DB SqlError Snapshot := λ w,
  (Ok (mk_Snapshot (tables w) (tx_time w)),
   mk_World (tables w) (seqs w) (clock w) (Some (default (clock w) (tx_time w))) (ticks w)).

Definition begin : DB SqlError Snapshot := select (λ _ _, Ok ()) ;; open_tx.

Definition end_tx (tb : Tables) (s : Snapshot) (w : World) : World :=
  mk_World tb (seqs w) (clock w) (snap_tx_time s) (ticks w).

(** A failed [COMMIT] may have committed. *)
Definition commit (s : Snapshot) : DB SqlError () := λ w,
  let '(t, ts) := next_tick w in
  let w' := mk_World (tables w) (seqs w) (clock w + Z.of_N (elapsed t)) (tx_time w) ts in
  if fault t then
    (Err SqlIo, end_tx (if lost_ack t then tables w else snap_tables s) s w')
  else (Ok (), end_tx (tables w) s w').

Definition rollback (s : Snapshot) : DB SqlError () := λ w,
  let '(t, ts) := next_tick w in
  let w' := mk_World (tables w) (seqs w) (clock w + Z.of_N (elapsed t)) (tx_time w) ts in
  (if fault t then Err SqlIo else Ok (), end_tx (snap_tables s) s w').

(** A transaction dropped without commit. *)
Definition drop_tx {E} (s : Snapshot) : DB E () := λ w, (Ok (), end_tx (snap_tables s) s w).

(** [let mut tx = begin().await?; ..; tx.commit().await?], where an early
    return drops the transaction. *)
Definition in_transaction {E A} (of_sql : SqlError → E) (body : DB E A) : DB E A :=
  s ← db_map_err of_sql begin;
  r ← try_db body;
  match r with
  | Ok a => db_map_err of_sql (commit s) ;; mret a
  | Err e => drop_tx s ;; throw e
  end.

(** ** Fetching rows *)

(** [fetch_one], [fetch_optional] and [fetch_all] through [FromRow]. *)
Definition fetch_one {R A} (decode : R → result SqlError A) (rows : list R) : result SqlError A :=
  match rows with r :: _ => decode r | [] => Err RowNotFound end.
Definition fetch_all {R A} (decode : R → result SqlError A) (rows : list R)
    : result SqlError (list A) := collect_results (map decode rows).

(** [ORDER BY]: a stable insertion sort. *)
Fixpoint sort_insert {A} (leb : A → A → bool) (a : A) (l : list A) : list A :=
  match l with
  | [] => [a]
  | b :: l' => if leb a b then a :: l else b :: sort_insert leb a l'
  end.
Definition order_by {A} (leb : A → A → bool) (l : list A) : list A :=
  foldr (sort_insert leb) [] l.

(** * [LIKE] ([persistence/sql/like_pattern.rs]) *)

Definition PERCENT : Z := 37.
Definition UNDERSCORE : Z := 95.

(** [str::replace] of a character by a string. *)
Definition replace_char (c : Z) (by_ : str) (s : str) : str :=
  foldr (λ d acc, (if c =? d then by_ else [d]) ++ acc) [] s.

(** [like_pattern::starts_with]: the pattern, used with [ESCAPE '\']. *)
Definition like_starts_with (prefix : str) : str :=
  let escaped := replace_char PERCENT [BACKSLASH; PERCENT]
    (replace_char UNDERSCORE [BACKSLASH; UNDERSCORE]
      (replace_char BACKSLASH [BACKSLASH; BACKSLASH] prefix)) in
  escaped ++ [PERCENT].

(** SQL [string LIKE pattern ESCAPE '\']. *)
Fixpoint sql_like (pattern : str) (s : str) {struct pattern} : bool :=
  match pattern with
  | [] => bool_decide (s = [])
  | c :: pattern' =>
      if c =? BACKSLASH then
        match pattern', s with
        | d :: pattern'', x :: s' => (d =? x) && sql_like pattern'' s'
        | _, _ => false
        end
      else if c =? PERCENT then
        (fix any (s : str) : bool :=
           sql_like pattern' s || match s with [] => false | _ :: s' => any s' end) s
      else match s with
           | x :: s' => ((c =? UNDERSCORE) || (c =? x)) && sql_like pattern' s'
           | [] => false
           end
  end.

(** * Paging ([shared/utils.rs], [constants.rs]) *)

Definition DEFAULT_LIST_LIMIT : Z := 100.
Definition DEFAULT_MAX_LIST_LIMIT : Z := 1000.

Definition effective_list_limit (limit : option Z) : Z :=
  Z.min (default DEFAULT_LIST_LIMIT limit) DEFAULT_MAX_LIST_LIMIT.

Definition split_list_page {T C} (rows : list T) (limit : Z) (cursor : T → C)
    : list T * option C :=
  if limit <? Z.of_nat (length rows) then
    let rows := take (Z.to_nat limit) rows in (rows, cursor <$> last rows)
  else (rows, None).

(** * Lemmas *)

(** ** The monad *)

Lemma db_bind_Ok {E A B} (m : DB E A) (k : A → DB E B) w b w' :
  (m ≫= k) w = (Ok b, w') → ∃ a w1, m w = (Ok a, w1) ∧ k a w1 = (Ok b, w').
Proof. cbv [mbind db_bind]. destruct (m w) as [[a|e] w1]; [eauto|done]. Qed.

Lemma db_map_err_Ok {E F A} (f : E → F) (m : DB E A) w a w' :
  db_map_err f m w = (Ok a, w') → m w = (Ok a, w').
Proof. unfold db_map_err. destruct (m w) as [[] ?]; cbn; intros [=]; by subst. Qed.

Lemma try_db_inv {E F A} (m : DB E A) w (r : result F (result E A)) w' :
  try_db m w = (r, w') → ∃ r', r = Ok r' ∧ m w = (r', w').
Proof. unfold try_db. destruct (m w) as [? ?]. intros [= <- <-]. eauto. Qed.

(** A query leaves everything but the clock and the schedule alone. *)
Definition same_data (w w' : World) : Prop :=
  tables w' = tables w ∧ seqs w' = seqs w ∧ tx_time w' = tx_time w ∧ clock w ≤ clock w'.

#[export] Instance same_data_preorder : PreOrder same_data.
Proof.
  split; [by intros w; repeat split; lia|].
  intros a b c (?&?&?&?) (?&?&?&?). repeat split; [congruence..|lia].
Qed.

Lemma select_inv {A} (f : Z → Tables → result SqlError A) w r w' :
  select f w = (r, w') →
  same_data w w' ∧ (r = Err SqlIo ∨ r = f (clock w') (tables w)).
Proof.
  unfold select, exec. destruct (next_tick w) as [t ts].
  destruct (fault t); [destruct (lost_ack t)|]; intros [= <- <-]; (split; [by repeat split; cbn; lia|auto]).
Qed.

(** With no fault scheduled, a query answers. *)
Lemma select_answers {A} (f : Z → Tables → result SqlError A) w :
  ticks w = [] →
  ∃ w', select f w = (f (clock w) (tables w), w') ∧ tables w' = tables w ∧ ticks w' = [].
Proof.
  intros Hw. unfold select, exec, next_tick. rewrite Hw. cbn. rewrite Z.add_0_r. by eexists.
Qed.

(** A statement either did not run, or ran at the new clock; it succeeds only
    if it ran. *)
Lemma exec_inv {A} (f : Stmt A) w r w' :
  exec f w = (r, w') →
  clock w ≤ clock w' ∧ tx_time w' = tx_time w ∧
  ((r = Err SqlIo ∧ tables w' = tables w ∧ seqs w' = seqs w) ∨
   ∃ r0, f (clock w') (default (clock w') (tx_time w)) (tables w) (seqs w)
           = (r0, tables w', seqs w') ∧ (r = r0 ∨ r = Err SqlIo)).
Proof.
  unfold exec. destruct (next_tick w) as [t ts].
  destruct (f _ _ (tables w) (seqs w)) as [[r0 tb] sq] eqn:E.
  destruct (fault t); [destruct (lost_ack t)|]; intros [= <- <-];
    (split; [cbn; lia|split; [done|]]); [right|left|right]; eauto.
Qed.

(** ** Patterns *)

Lemma replace_char_app c b s t :
  replace_char c b (s ++ t) = replace_char c b s ++ replace_char c b t.
Proof. unfold replace_char. induction s as [|d s IH]; [done|]. cbn. by rewrite IH, app_assoc. Qed.

(** The escape sequence of one character. *)
Definition like_escape_char (c : Z) : str :=
  if (c =? BACKSLASH) || (c =? UNDERSCORE) || (c =? PERCENT) then [BACKSLASH; c] else [c].

Lemma like_starts_with_escape prefix :
  like_starts_with prefix = concat (map like_escape_char prefix) ++ [PERCENT].
Proof.
  unfold like_starts_with. f_equal. induction prefix as [|c s IH]; [done|].
  cbn [map concat]. rewrite <-IH. clear IH.
  change (c :: s) with ([c] ++ s). rewrite !replace_char_app. f_equal.
  unfold like_escape_char, replace_char, BACKSLASH, UNDERSCORE, PERCENT. cbn.
  destruct (Z.eqb_spec 92 c) as [<-|]; [done|].
  destruct (Z.eqb_spec c 92); [lia|]. cbn.
  destruct (Z.eqb_spec 95 c) as [<-|]; [done|].
  destruct (Z.eqb_spec c 95); [lia|]. cbn.
  destruct (Z.eqb_spec 37 c) as [<-|]; [done|].
  by destruct (Z.eqb_spec c 37); [lia|].
Qed.

Lemma sql_like_starts_with prefix s :
  sql_like (like_starts_with prefix) s = starts_with s prefix.
Proof.
  rewrite like_starts_with_escape. revert s. induction prefix as [|c p IH]; intros s; cbn [map concat app starts_with].
  - change (sql_like [PERCENT] s) with
      ((fix any (s : str) : bool :=
          sql_like [] s || match s with [] => false | _ :: s' => any s' end) s).
    induction s as [|x s IH]; [done|]. rewrite IH. apply orb_true_r.
  - rewrite <-app_assoc. unfold like_escape_char.
    destruct ((c =? BACKSLASH) || (c =? UNDERSCORE) || (c =? PERCENT)) eqn:E; cbn [app sql_like].
    + rewrite Z.eqb_refl. destruct s; [done|]. by rewrite IH.
    + apply orb_false_iff in E as [[-> E]%orb_false_iff ->]. destruct s; [done|].
      rewrite E, IH. done.
Qed.

(** ** Sorting *)

Lemma elem_of_sort_insert {A} (leb : A → A → bool) a b l :
  b ∈ sort_insert leb a l ↔ b = a ∨ b ∈ l.
Proof.
  induction l as [|c l IH]; cbn.
  - rewrite list_elem_of_singleton, elem_of_nil. tauto.
  - case_match; rewrite !elem_of_cons, ?IH; tauto.
Qed.

Lemma elem_of_order_by {A} (leb : A → A → bool) b l : b ∈ order_by leb l ↔ b ∈ l.
Proof.
  unfold order_by. induction l as [|a l IH]; cbn; [done|]. rewrite elem_of_sort_insert, elem_of_cons, IH. done.
Qed.

Lemma order_by_perm {A} (leb : A → A → bool) l : order_by leb l ≡ₚ l.
Proof.
  unfold order_by. induction l as [|a l IH]; cbn; [done|].
  transitivity (a :: foldr (sort_insert leb) [] l); [|by rewrite IH].
  generalize (foldr (sort_insert leb) [] l) as k. induction k as [|b k IHk]; cbn; [done|].
  destruct (leb a b); [done|]. rewrite IHk. apply perm_swap.
Qed.

Lemma order_by_sorted {A} (leb : A → A → bool) l :
  (∀ a b, leb a b = false → leb b a = true) →
  (∀ a b c, leb a b = true → leb b c = true → leb a c = true) →
  StronglySorted (λ a b, leb a b = true) (order_by leb l).
Proof.
  intros Htot Htr. unfold order_by. induction l as [|a l IH]; cbn; [constructor|].
  generalize dependent (foldr (sort_insert leb) [] l). intros k Hk.
  induction Hk as [|b k Hk IHk Hb]; cbn; [by repeat constructor|].
  destruct (leb a b) eqn:E.
  - constructor; [by constructor|]. constructor; [done|].
    eapply Forall_impl; [exact Hb|]. cbn. eauto.
  - constructor; [done|]. apply Forall_forall. intros x [->|Hx]%elem_of_sort_insert; [auto|].
    rewrite Forall_forall in Hb. auto.
Qed.

(** ** Transactions *)

(** Sorting a selection is selecting from the sorted. *)
Lemma order_by_filter {A} (leb : A → A → bool) (P : A → Prop) `{∀ x, Decision (P x)} l :
  (∀ a b, leb a b = false → leb b a = true) →
  (∀ a b c, leb a b = true → leb b c = true → leb a c = true) →
  (∀ a b, leb a b = true → leb b a = true → a = b) →
  order_by leb (filter P l) = filter P (order_by leb l).
Proof.
  intros Htot Htr Hanti.
  assert (AntiSymm (=) (λ a b, leb a b = true)) by (intros a b; apply Hanti).
  apply (StronglySorted_unique (λ a b, leb a b = true)).
  - by apply order_by_sorted.
  - by apply StronglySorted_filter, order_by_sorted.
  - by rewrite !order_by_perm.
Qed.

Lemma begin_inv w r w' :
  begin w = (r, w') →
  tables w' = tables w ∧ seqs w' = seqs w ∧ clock w ≤ clock w' ∧
  ((r = Err SqlIo ∧ tx_time w' = tx_time w) ∨
   (r = Ok (mk_Snapshot (tables w) (tx_time w)) ∧ is_Some (tx_time w'))).
Proof.
  unfold begin. intros Hb. cbv [mbind db_bind] in Hb.
  destruct (select _ w) as [r1 w1] eqn:E. apply select_inv in E as [(Ht & Hs & Hx & Hc) Hr].
  destruct r1 as [[]|e].
  - injection Hb as <- <-. cbn. rewrite Ht, Hs, Hx. split_and!; try done. right. eauto.
  - injection Hb as <- <-. destruct Hr as [[= ->]|[=]]. eauto 10.
Qed.

Lemma commit_inv s w r w' :
  commit s w = (r, w') →
  seqs w' = seqs w ∧ clock w ≤ clock w' ∧ tx_time w' = snap_tx_time s ∧
  ((r = Ok () ∧ tables w' = tables w) ∨
   (r = Err SqlIo ∧ (tables w' = tables w ∨ tables w' = snap_tables s))).
Proof.
  unfold commit. destruct (next_tick w) as [t ts].
  destruct (fault t); [destruct (lost_ack t)|]; intros [= <- <-]; cbn; split_and!; auto; lia.
Qed.

Lemma rollback_inv s w r w' :
  rollback s w = (r, w') →
  seqs w' = seqs w ∧ clock w ≤ clock w' ∧ tx_time w' = snap_tx_time s ∧
  tables w' = snap_tables s ∧ (r = Ok () ∨ r = Err SqlIo).
Proof.
  unfold rollback. destruct (next_tick w) as [t ts].
  destruct (fault t); intros [= <- <-]; cbn; split_and!; auto; lia.
Qed.

(** All or nothing: the effect of the body, on success and possibly on a
    failed commit; no effect otherwise. *)
Lemma in_transaction_inv {E A} (of_sql : SqlError → E) (body : DB E A) w r w' :
  in_transaction of_sql body w = (r, w') →
  (r = Err (of_sql SqlIo) ∧ tables w' = tables w) ∨
  ∃ w0 w1 r1,
    tables w0 = tables w ∧ seqs w0 = seqs w ∧ clock w ≤ clock w0 ∧ body w0 = (r1, w1) ∧
    match r1 with
    | Ok a => (r = Ok a ∧ tables w' = tables w1) ∨
              (r = Err (of_sql SqlIo) ∧ (tables w' = tables w1 ∨ tables w' = tables w))
    | Err e => r = Err e ∧ tables w' = tables w
    end.
Proof.
  unfold in_transaction, db_map_err, try_db. cbv [mbind db_bind]. intros Hr.
  destruct (begin w) as [rb w0] eqn:Ebg. apply begin_inv in Ebg as (Ht & Hs & Hc & Hb).
  destruct Hb as [[-> _]|[-> _]]; cbn in Hr; [left; by injection Hr as <- <-|right].
  destruct (body w0) as [r1 w1] eqn:Eb. exists w0, w1, r1. split_and!; try done.
  destruct r1 as [a|e].
  - destruct (commit _ w1) as [rc w2] eqn:Ec. apply commit_inv in Ec as (_ & _ & _ & Hcase).
    destruct Hcase as [[-> Htb]|[-> Htb]]; cbn in Hr; injection Hr as <- <-; cbn in *; eauto.
  - cbn in Hr. by injection Hr as <- <-.
Qed.

(** ** Pages *)

Lemma sorted_le_lt (K : list Z) : StronglySorted Z.le K → NoDup K → StronglySorted Z.lt K.
Proof.
  induction 1 as [|x K HK IH Hx]; intros HN; [constructor|]. apply NoDup_cons in HN as [Hn HN].
  constructor; [auto|]. rewrite Forall_forall in *. intros y Hy. specialize (Hx y Hy).
  assert (x ≠ y) by (intros ->; done). lia.
Qed.

Lemma last_take_sorted (K : list Z) n m i :
  StronglySorted Z.lt K → last (take n K) = Some m → i ∈ K → i ≤ m → i ∈ take n K.
Proof.
  intros HK Hm Hi Hle. rewrite <-(take_drop n K) in HK, Hi.
  apply elem_of_app in Hi as [?|Hi]; [done|]. exfalso.
  assert (m < i); [|lia]. eapply StronglySorted_app_1_elem_of; [exact HK| |exact Hi].
  apply last_Some in Hm as [l ->]. apply elem_of_app. right. by apply list_elem_of_singleton.
Qed.

(** A page of rows ordered by a unique integer key: sorted, drawn from the
    rows, and without gaps up to its last key; a short page is everything. *)
Lemma page_spec {A} (key : A → Z) (rows : list A) n :
  NoDup (map key rows) →
  let T := take n (order_by (λ a b, key a <=? key b) rows) in
  StronglySorted Z.lt (map key T) ∧
  (∀ x, x ∈ T → x ∈ rows) ∧
  (∀ m i, last (map key T) = Some m → i ∈ map key rows → i ≤ m → i ∈ map key T) ∧
  ((length T < n)%nat → ∀ i, i ∈ map key rows → i ∈ map key T).
Proof.
  intros HN T. set (S := order_by (λ a b, key a <=? key b) rows) in *.
  assert (S ≡ₚ rows) as Hp by apply order_by_perm.
  assert (map key T = take n (map key S)) as HT by apply fmap_take.
  assert (StronglySorted Z.lt (map key S)) as HS.
  { apply sorted_le_lt; [|by rewrite Hp]. apply (StronglySorted_fmap key (λ a b, (key a <=? key b) = true)).
    - intros a b ?%Z.leb_le. done.
    - apply order_by_sorted.
      + intros a b ?%Z.leb_gt. apply Z.leb_le. lia.
      + intros a b c ?%Z.leb_le ?%Z.leb_le. apply Z.leb_le. lia. }
  assert (∀ i, i ∈ map key rows ↔ i ∈ map key S) as Hin by (intros i; by rewrite Hp).
  rewrite HT. split_and!.
  - rewrite <-(take_drop n (map key S)) in HS. by apply StronglySorted_app_1_l in HS.
  - intros x Hx. rewrite <-Hp. by apply elem_of_take in Hx as (i & ? & _); eapply list_elem_of_lookup_2.
  - intros m i Hm Hi Hle. apply Hin in Hi. by eapply last_take_sorted.
  - intros Hlen i Hi. apply Hin in Hi. rewrite take_ge; [done|].
    unfold T in Hlen. rewrite length_take in Hlen. rewrite length_map. lia.
Qed.

Lemma fetch_all_ok {R A} (decode : R → result SqlError A) (P : R → A → Prop) rows :
  (∀ x, x ∈ rows → ∃ y, decode x = Ok y ∧ P x y) →
  ∃ ys, fetch_all decode rows = Ok ys ∧ Forall2 P rows ys.
Proof.
  unfold fetch_all. induction rows as [|x rows IH]; intros Hok; cbn; [eauto|].
  destruct (Hok x) as (y & -> & Hy); [left|].
  destruct IH as (ys & -> & Hys); [intros; apply Hok; by right|]. cbn. eauto.
Qed.

Lemma map_filter_fst {A B} (P : A → bool) (l : list (A * B)) :
  map fst (filter (λ x, P x.1 = true) l) = filter (λ a, P a = true) (map fst l).
Proof.
  induction l as [|x l IH]; [done|]. cbn [map]. rewrite !filter_cons.
  destruct (decide (P x.1 = true)); cbn [map]; by rewrite IH.
Qed.

Lemma sublist_map_filter_NoDup {A B} (f : A → B) (P : A → Prop) `{∀ x, Decision (P x)} l :
  NoDup (map f l) → NoDup (map f (filter P l)).
Proof. intros Hl. eapply sublist_NoDup; [exact Hl|]. apply fmap_sublist, sublist_filter. Qed.

(** ** Preservation

    [keeps R m]: however [m] ends, and whatever fails, the tables it leaves are
    related by [R] to those it found. *)

Definition keeps {E A} (R : relation Tables) (m : DB E A) : Prop :=
  ∀ w, R (tables w) (tables (m w).2).

Create HintDb keeps discriminated.

Section Keeps.
Context {R : relation Tables} `{!PreOrder R}.

Lemma keeps_ret {E A} (a : A) : keeps (E:=E) R (mret a).
Proof. by intros w. Qed.
Lemma keeps_throw {E A} (e : E) : keeps (A:=A) R (throw e).
Proof. by intros w. Qed.
Lemma keeps_lift {E A} (r : result E A) : keeps R (lift_result r).
Proof. by intros w. Qed.

Lemma keeps_bind {E A B} (m : DB E A) (k : A → DB E B) :
  keeps R m → (∀ a, keeps R (k a)) → keeps R (m ≫= k).
Proof.
  intros Hm Hk w. cbv [mbind db_bind]. specialize (Hm w). destruct (m w) as [[a|e] w1]; cbn in *; [|done].
  transitivity (tables w1); [done|apply Hk].
Qed.

Lemma keeps_map_err {E F A} (f : E → F) (m : DB E A) : keeps R m → keeps R (db_map_err f m).
Proof. intros Hm w. unfold db_map_err. specialize (Hm w). by destruct (m w). Qed.
Lemma keeps_try {E F A} (m : DB E A) : keeps R m → keeps (E:=F) R (try_db m).
Proof. intros Hm w. unfold try_db. specialize (Hm w). by destruct (m w). Qed.

Lemma keeps_select {A} (f : Z → Tables → result SqlError A) : keeps R (select f).
Proof.
  intros w. destruct (select f w) as [r w'] eqn:E. apply select_inv in E as [(Ht & _) _]. cbn. by rewrite Ht.
Qed.

Lemma keeps_exec {A} (f : Stmt A) :
  (∀ now tx_now tb sq, R tb (f now tx_now tb sq).1.2) → keeps R (exec f).
Proof.
  intros Hf w. destruct (exec f w) as [r w'] eqn:Hrun. apply exec_inv in Hrun as (_ & _ & [(_ & Ht & _)|(r0 & E & _)]).
  - cbn. by rewrite Ht.
  - specialize (Hf (clock w') (default (clock w') (tx_time w)) (tables w) (seqs w)). by rewrite E in Hf.
Qed.

Lemma keeps_transaction {E A} (of_sql : SqlError → E) (body : DB E A) :
  keeps R body → keeps R (in_transaction of_sql body).
Proof.
  intros Hb w. destruct (in_transaction of_sql body w) as [r w'] eqn:Hrun. cbn.
  apply in_transaction_inv in Hrun as [[_ Ht]|(w0 & w1 & r1 & Ht0 & _ & _ & Hbody & Hc)]; [by rewrite Ht|].
  specialize (Hb w0). rewrite Hbody, Ht0 in Hb. cbn in Hb.
  destruct r1; [destruct Hc as [[_ ->]|[_ [->| ->]]]|destruct Hc as [_ ->]]; done.
Qed.

End Keeps.

(** A transaction keeps what its body keeps when it succeeds. *)
Lemma keeps_transaction_ok {E A} (R : relation Tables) `{!PreOrder R} (of_sql : SqlError → E) (body : DB E A) :
  (∀ w a w', body w = (Ok a, w') → R (tables w) (tables w')) → keeps R (in_transaction of_sql body).
Proof.
  intros Hb w. destruct (in_transaction of_sql body w) as [r w'] eqn:Hrun. cbn.
  apply in_transaction_inv in Hrun as [[_ Ht]|(w0 & w1 & r1 & Ht0 & _ & _ & Hbody & Hc)]; [by rewrite Ht|].
  destruct r1 as [a|e]; [|destruct Hc as [_ ->]; done].
  apply Hb in Hbody. rewrite Ht0 in Hbody. by destruct Hc as [[_ ->]|[_ [->| ->]]].
Qed.

#[export] Hint Resolve keeps_ret keeps_throw keeps_lift keeps_bind keeps_map_err keeps_try keeps_select
  keeps_transaction : keeps.
