(* ===== verification/Users.v ===== *)
(** Users: the [users] table ([persistence/sql/entities/user.rs]), the user
    service ([services/user_service/service.rs]) and its quota cache
    ([services/user_service/quota_cache.rs]). *)

From S2P Require Import Prelude StoragePath HttpError Keys Quota Database.

(** [impl From<sqlx::Error> for HttpError]. *)
Definition HttpError_from_sqlx (error : SqlError) : HttpError := HttpError_internal_server.

Section Users.
Context `{PkarrKeys, JsonStrings}.

(** * The entity *)

Record UserEntity := mk_UserEntity {
  ue_id : Z;
  ue_public_key : PublicKey;
  ue_created_at : Z;
  ue_disabled : bool;
  ue_used_bytes : Z;
  ue_columns : QuotaColumns
}.

Definition UserEntity_from_row (row : UserRow) : result SqlError UserEntity :=
  public_key ← map_err (λ _, Decode) (PublicKey_try_from_z32 (u_public_key row));
  Ok (mk_UserEntity (u_id row) public_key (u_created_at row) (u_disabled row)
        (as_u64 (u_used_bytes row)) (u_quota row)).

Definition UserEntity_quota (user : UserEntity) : UserQuota :=
  UserQuota_from_nullable_columns (ue_columns user).

(** * The repository *)

Definition null_quota_columns : QuotaColumns := mk_QuotaColumns None None None None None None.

(** [INSERT .. RETURNING *]; [public_key] is unique. *)
Definition UserRepository_create (public_key : PublicKey) : DB SqlError UserEntity :=
  exec (λ _ tx_now tb sq,
    let id := seq_users sq in
    let sq := mk_Seqs (id + 1) (seq_entries sq) (seq_events sq) (seq_sessions sq) (seq_grant_sessions sq) in
    if existsb (λ u, bool_decide (u_public_key u = PublicKey_z32 public_key)) (users tb) then
      (Err UniqueViolation, tb, sq)
    else
      let row := mk_UserRow id (PublicKey_z32 public_key) tx_now false 0 null_quota_columns in
      (UserEntity_from_row row, set_users (λ l, l ++ [row]) tb, sq)).

Definition users_by_key (public_key : PublicKey) (tb : Tables) : list UserRow :=
  filter (λ u, u_public_key u = PublicKey_z32 public_key) (users tb).

Definition UserRepository_get (public_key : PublicKey) : DB SqlError UserEntity :=
  select (λ _ tb, fetch_one UserEntity_from_row (users_by_key public_key tb)).

(** The same query with a row lock. *)
Definition UserRepository_get_for_update (public_key : PublicKey) : DB SqlError UserEntity :=
  select (λ _ tb, fetch_one UserEntity_from_row (users_by_key public_key tb)).
Definition UserRepository_get_for_no_key_update (public_key : PublicKey) : DB SqlError UserEntity :=
  select (λ _ tb, fetch_one UserEntity_from_row (users_by_key public_key tb)).

Definition UserRepository_get_id (public_key : PublicKey) : DB SqlError Z :=
  select (λ _ tb, fetch_one (λ u, Ok (u_id u)) (users_by_key public_key tb)).

Definition UserRepository_get_all : DB SqlError (list UserEntity) :=
  select (λ _ tb, fetch_all UserEntity_from_row (users tb)).

(** [UPDATE .. WHERE id = $1 RETURNING *]. *)
Definition update_user_row (id : Z) (f : UserRow → UserRow) : DB SqlError UserEntity :=
  exec (λ _ _ tb sq,
    let updated := map (λ u, if u_id u =? id then f u else u) (users tb) in
    (fetch_one UserEntity_from_row (filter (λ u, u_id u = id) updated),
     set_users (λ _, updated) tb, sq)).

Definition UserRepository_update (user : UserEntity) : DB SqlError UserEntity :=
  update_user_row (ue_id user) (λ u,
    mk_UserRow (u_id u) (u_public_key u) (u_created_at u) (ue_disabled user)
      (as_i64 (ue_used_bytes user)) (u_quota u)).

Definition UserRepository_set_quota (user_id : Z) (config : UserQuota) : DB SqlError UserEntity :=
  lift_result (map_err (λ _, InvalidArgument) (UserQuota_validate config)) ;;
  update_user_row user_id (λ u,
    mk_UserRow (u_id u) (u_public_key u) (u_created_at u) (u_disabled u) (u_used_bytes u)
      (UserQuota_to_columns config)).

(** ** Listing *)

Inductive UserListState := ListAll | ListEnabled | ListDisabled.
Definition UserListState_disabled (s : UserListState) : option bool :=
  match s with ListAll => None | ListEnabled => Some false | ListDisabled => Some true end.

Inductive UserListSortBy := SortCreatedAt | SortUsedBytes.
Definition UserListSortBy_column (s : UserListSortBy) (u : UserRow) : Z :=
  match s with SortCreatedAt => u_created_at u | SortUsedBytes => u_used_bytes u end.
Definition UserListSortBy_value (s : UserListSortBy) (u : UserEntity) : Z :=
  match s with SortCreatedAt => ue_created_at u | SortUsedBytes => as_i64 (ue_used_bytes u) end.

Record UserListQuery := mk_UserListQuery {
  list_state : UserListState;
  list_sort_by : UserListSortBy;
  list_reverse : bool;
  list_limit : option Z;
  list_cursor : option PublicKey
}.

(** Row comparison [(a, b) < (c, d)]. *)
Definition pair_ltb (x y : Z * Z) : bool :=
  (x.1 <? y.1) || ((x.1 =? y.1) && (x.2 <? y.2)).

Definition user_position (s : UserListSortBy) (u : UserRow) : Z * Z :=
  (UserListSortBy_column s u, u_id u).

(** [ORDER BY column, id] in either direction. *)
Definition user_leb (q : UserListQuery) (a b : UserRow) : bool :=
  let pa := user_position (list_sort_by q) a in
  let pb := user_position (list_sort_by q) b in
  negb (if list_reverse q then pair_ltb pa pb else pair_ltb pb pa).

(** The [WHERE] clause: the state filter, and strictly after the cursor. *)
Definition list_matches (q : UserListQuery) (position : option (Z * Z)) (u : UserRow) : bool :=
  match UserListState_disabled (list_state q) with
  | Some disabled => eqb (u_disabled u) disabled
  | None => true
  end &&
  match position with
  | Some p =>
      let row := user_position (list_sort_by q) u in
      if list_reverse q then pair_ltb row p else pair_ltb p row
  | None => true
  end.

Definition list_rows (q : UserListQuery) (position : option (Z * Z)) (tb : Tables) : list UserRow :=
  order_by (user_leb q) (filter (λ u, list_matches q position u = true) (users tb)).

Definition UserRepository_list (q : UserListQuery)
    : DB SqlError (list UserEntity * option PublicKey) :=
  position ← match list_cursor q with
             | Some cursor =>
                 cursor_user ← UserRepository_get cursor;
                 mret (Some (UserListSortBy_value (list_sort_by q) cursor_user, ue_id cursor_user))
             | None => mret None
             end;
  let limit := effective_list_limit (list_limit q) in
  us ← select (λ _ tb,
         fetch_all UserEntity_from_row (take (Z.to_nat (limit + 1)) (list_rows q position tb)));
  mret (split_list_page us limit ue_public_key).

(** * The service *)

Definition get_or_http_error (pubkey : PublicKey) (err_if_disabled : bool) : DB HttpError UserEntity :=
  r ← try_db (UserRepository_get pubkey);
  user ← match r with
         | Ok user => mret user
         | Err RowNotFound => throw HttpError_not_found
         | Err e => throw (HttpError_from_sqlx e)
         end;
  if err_if_disabled && ue_disabled user
  then throw (HttpError_forbidden_with_message (lit "User is disabled"))
  else mret user.

Fixpoint get_ids (pubkeys : list PublicKey) : DB SqlError (list Z) :=
  match pubkeys with
  | [] => mret []
  | k :: pubkeys => id ← UserRepository_get_id k; ids ← get_ids pubkeys; mret (id :: ids)
  end.

(** The lookup both admin operations start with. *)
Definition get_for_update_or_404 (pubkey : PublicKey) : DB HttpError UserEntity :=
  r ← try_db (UserRepository_get_for_update pubkey);
  match r with
  | Ok user => mret user
  | Err RowNotFound => throw HttpError_not_found
  | Err e => throw (HttpError_from_sqlx e)
  end.

Definition with_disabled (user : UserEntity) (disabled : bool) : UserEntity :=
  mk_UserEntity (ue_id user) (ue_public_key user) (ue_created_at user) disabled
    (ue_used_bytes user) (ue_columns user).

Definition set_disabled (pubkey : PublicKey) (disabled : bool) : DB HttpError () :=
  in_transaction HttpError_from_sqlx (
    user ← get_for_update_or_404 pubkey;
    db_map_err HttpError_from_sqlx (UserRepository_update (with_disabled user disabled)) ;;
    mret ()).

Definition admin_disable (pubkey : PublicKey) : DB HttpError () := set_disabled pubkey true.
Definition admin_enable (pubkey : PublicKey) : DB HttpError () := set_disabled pubkey false.

(** ** The quota cache *)

(** Nanoseconds on the monotonic clock. *)
Definition CACHE_TTL : Z := 120 * 1000000000.
Definition NEGATIVE_CACHE_TTL : Z := 30 * 1000000000.
Definition MAX_ENTRIES : Z := 100000.

Record CachedEntry := mk_CachedEntry {
  ce_config : option UserQuota;
  ce_cached_at : Z;
  ce_ttl : Z
}.

Definition CachedEntry_found (now : Z) (config : UserQuota) : CachedEntry :=
  mk_CachedEntry (Some config) now CACHE_TTL.
Definition CachedEntry_not_found (now : Z) : CachedEntry :=
  mk_CachedEntry None now NEGATIVE_CACHE_TTL.
Definition CachedEntry_is_expired (now : Z) (e : CachedEntry) : bool :=
  ce_ttl e <? now - ce_cached_at e.

(** The hash map, in its iteration order. *)
Abbreviation QuotaCache := (list (PublicKey * CachedEntry)).

Definition QuotaCache_get (now : Z) (c : QuotaCache) (pubkey : PublicKey) : option (option UserQuota) :=
  match list_find (λ kv, kv.1 = pubkey) c with
  | Some (_, kv) => if CachedEntry_is_expired now kv.2 then None else Some (ce_config kv.2)
  | None => None
  end.

Definition QuotaCache_remove (c : QuotaCache) (pubkey : PublicKey) : QuotaCache :=
  filter (λ kv, kv.1 ≠ pubkey) c.

Definition QuotaCache_insert (c : QuotaCache) (pubkey : PublicKey) (e : CachedEntry) : QuotaCache :=
  (pubkey, e) :: QuotaCache_remove c pubkey.

(** The periodic cleanup, and the first step of [make_room]. *)
Definition QuotaCache_retain_fresh (now : Z) (c : QuotaCache) : QuotaCache :=
  filter (λ kv, CachedEntry_is_expired now kv.2 = false) c.

Definition QuotaCache_make_room (now : Z) (c : QuotaCache) : QuotaCache :=
  if Z.of_nat (length c) <? MAX_ENTRIES then c
  else
    let c := QuotaCache_retain_fresh now c in
    if MAX_ENTRIES <=? Z.of_nat (length c) then
      let to_evict := MAX_ENTRIES / 10 in
      let keys := map fst (take (Z.to_nat (Z.max to_evict 1)) c) in
      foldl QuotaCache_remove c keys
    else c.

(** The cache is not part of the database: it is threaded beside the world. *)
Definition resolve_quota (now : Z) (pubkey : PublicKey) (c : QuotaCache) (w : World)
    : result SqlError (option UserQuota) * QuotaCache * World :=
  match QuotaCache_get now c pubkey with
  | Some cached => (Ok cached, c, w)
  | None =>
      let c := QuotaCache_remove c pubkey in
      let c := QuotaCache_make_room now c in
      let '(r, w) := UserRepository_get pubkey w in
      match r with
      | Ok user =>
          let resolved := UserEntity_quota user in
          (Ok (Some resolved), QuotaCache_insert c pubkey (CachedEntry_found now resolved), w)
      | Err RowNotFound =>
          (Ok None, QuotaCache_insert c pubkey (CachedEntry_not_found now), w)
      | Err e => (Err e, c, w)
      end
  end.

Definition cache_user_quota (now : Z) (user : UserEntity) (c : QuotaCache) : QuotaCache :=
  QuotaCache_insert c (ue_public_key user) (CachedEntry_found now (UserEntity_quota user)).

(** ** Changing a quota *)

Definition UNPROCESSABLE_ENTITY : Z := 422.

(** The wording of a rejected quota is not modelled: its [detail] is [None]. *)
Definition patch_quota_body (pubkey : PublicKey) (patch : UserQuotaPatch) : DB HttpError UserEntity :=
  user ← get_for_update_or_404 pubkey;
  let config := UserQuota_merge (UserEntity_quota user) patch in
  lift_result (map_err (λ _, mk_HttpError UNPROCESSABLE_ENTITY None None)
                 (UserQuota_validate config)) ;;
  db_map_err HttpError_from_sqlx (UserRepository_set_quota (ue_id user) config).

Definition patch_quota_tx (pubkey : PublicKey) (patch : UserQuotaPatch) : DB HttpError UserEntity :=
  in_transaction HttpError_from_sqlx (patch_quota_body pubkey patch).

Definition patch_quota (pubkey : PublicKey) (patch : UserQuotaPatch) (c : QuotaCache) (w : World)
    : result HttpError UserEntity * QuotaCache * World :=
  match patch_quota_tx pubkey patch w with
  | (Ok updated, w) => (Ok updated, QuotaCache_remove c pubkey, w)
  | (Err e, w) => (Err e, c, w)
  end.

End Users.

(** * Theorems *)

Section UserTheorems.
Context `{PkarrKeysLaws, JsonStrings}.

(** The invariant of the [users] table: identifiers and keys are unique, every
    key is the text of a public key, and [used_bytes] fits its column. *)
Definition users_wf (tb : Tables) : Prop :=
  NoDup (map u_id (users tb)) ∧ NoDup (map u_public_key (users tb)) ∧
  Forall (λ u, (∃ k, u_public_key u = PublicKey_z32 k) ∧ in_i64 (u_used_bytes u)) (users tb).

Definition entity_of (k : PublicKey) (u : UserRow) : UserEntity :=
  mk_UserEntity (u_id u) k (u_created_at u) (u_disabled u) (as_u64 (u_used_bytes u)) (u_quota u).

Lemma UserEntity_from_row_key k u :
  u_public_key u = PublicKey_z32 k → UserEntity_from_row u = Ok (entity_of k u).
Proof.
  intros Hk. unfold UserEntity_from_row, PublicKey_try_from_z32, PublicKey_z32 in *.
  rewrite Hk, pkarr_roundtrip. done.
Qed.

Lemma fetch_user_by_key k tb :
  fetch_one UserEntity_from_row (users_by_key k tb) =
  match list_find (λ u, u_public_key u = PublicKey_z32 k) (users tb) with
  | Some (_, u) => Ok (entity_of k u)
  | None => Err RowNotFound
  end.
Proof.
  unfold users_by_key. induction (users tb) as [|u l IH]; [done|].
  rewrite filter_cons. cbn [list_find].
  destruct (decide (u_public_key u = PublicKey_z32 k)) as [Hk|Hk].
  - by apply UserEntity_from_row_key.
  - rewrite IH. by destruct (list_find _ l) as [[? ?]|].
Qed.

(** The row of a key. *)
Definition user_row (k : PublicKey) (tb : Tables) : option UserRow :=
  snd <$> list_find (λ u, u_public_key u = PublicKey_z32 k) (users tb).

Lemma user_row_Some k tb u :
  user_row k tb = Some u → u ∈ users tb ∧ u_public_key u = PublicKey_z32 k.
Proof.
  unfold user_row. destruct (list_find _ _) as [[i u']|] eqn:E; [|done].
  cbn. intros [= <-]. apply list_find_Some in E as (Hi & Hk & _). split; [|done].
  by eapply list_elem_of_lookup_2.
Qed.

Lemma user_row_None k tb u :
  user_row k tb = None → u ∈ users tb → u_public_key u ≠ PublicKey_z32 k.
Proof.
  unfold user_row. destruct (list_find _ _) as [[? ?]|] eqn:E; [done|]. intros _ Hu Hk.
  apply list_find_None in E. rewrite Forall_forall in E. by apply (E u).
Qed.

Lemma find_user_by_id tb uid :
  uid ∈ map u_id (users tb) →
  ∃ i u, list_find (λ u, u_id u = uid) (users tb) = Some (i, u) ∧ u ∈ users tb ∧ u_id u = uid.
Proof.
  intros (u & -> & Hu)%list_elem_of_fmap.
  destruct (list_find_elem_of (λ v, u_id v = u_id u) _ u Hu eq_refl) as [[i v] Hf].
  exists i, v. split; [done|]. apply list_find_Some in Hf as (Hi & ? & _).
  split; [by eapply list_elem_of_lookup_2|done].
Qed.

Lemma get_user_inv k w r w' :
  UserRepository_get k w = (r, w') →
  same_data w w' ∧
  (r = Err SqlIo ∨ r = match user_row k (tables w) with
                       | Some u => Ok (entity_of k u)
                       | None => Err RowNotFound
                       end).
Proof.
  intros [Hs Hr]%select_inv. split; [done|]. destruct Hr as [->| ->]; [by left|right].
  rewrite fetch_user_by_key. unfold user_row. by destruct (list_find _ _) as [[? ?]|].
Qed.

Lemma QuotaCache_get_removed now (c : list (PublicKey * CachedEntry)) k : QuotaCache_get now (QuotaCache_remove c k) k = None.
Proof.
  unfold QuotaCache_get. destruct (list_find _ _) as [[i kv]|] eqn:E; [|done].
  apply list_find_Some in E as (Hi & Hk & _). apply list_elem_of_lookup_2 in Hi.
  apply list_elem_of_filter in Hi as [? _]. done.
Qed.

(** Updating one row by id is updating the row of its key. *)
Lemma update_user_row_inv k u f w r w' :
  users_wf (tables w) → user_row k (tables w) = Some u →
  (∀ v, u_id (f v) = u_id v ∧ u_public_key (f v) = u_public_key v) →
  update_user_row (u_id u) f w = (r, w') →
  (r = Err SqlIo ∧ tables w' = tables w) ∨
  ((r = Err SqlIo ∨ r = Ok (entity_of k (f u))) ∧
   tables w' = set_users (map (λ v, if decide (u_public_key v = PublicKey_z32 k) then f v else v))
                 (tables w)).
Proof.
  intros (Hid & Hpk & _) (Hu & Hk)%user_row_Some Hf He.
  apply exec_inv in He as (_ & _ & [(-> & -> & _)|(r0 & He & Hr)]); [by left|right].
  injection He as <- <- _.
  assert (∀ v, v ∈ users (tables w) → u_id v = u_id u → v = u) as Huniq.
  { intros v Hv Hvu. exact (NoDup_map_inj u_id _ v u Hid Hv Hu Hvu). }
  assert (map (λ v, if u_id v =? u_id u then f v else v) (users (tables w))
          = map (λ v, if decide (u_public_key v = PublicKey_z32 k) then f v else v) (users (tables w)))
    as Hmap.
  { apply map_ext_in. intros v Hv%list_elem_of_In. destruct (Z.eqb_spec (u_id v) (u_id u)) as [E|E].
    - rewrite decide_True; [done|]. by rewrite (Huniq v).
    - rewrite decide_False; [done|]. intros Hvk. apply E. f_equal.
      apply (NoDup_map_inj u_public_key _ v u Hpk Hv Hu). congruence. }
  split.
  - destruct Hr as [->| ->]; [right|by left]. rewrite Hmap. clear Hmap.
    revert Huniq Hu. clear Hid Hpk. induction (users (tables w)) as [|v l IH]; intros Huniq Hu.
    { by apply not_elem_of_nil in Hu. }
    cbn [map]. rewrite filter_cons.
    destruct (decide (u_public_key v = PublicKey_z32 k)) as [Hv|Hv].
    + destruct (decide (u_id (f v) = u_id u)) as [Hi|Hi].
      * assert (v = u) as -> by (apply Huniq; [left|by rewrite <-(proj1 (Hf v))]).
        apply UserEntity_from_row_key. by rewrite (proj2 (Hf u)).
      * apply IH; [intros; apply Huniq; [by right|done]|].
        apply elem_of_cons in Hu as [->|Hu]; [|done]. by rewrite (proj1 (Hf v)) in Hi.
    + assert (u ≠ v) as Hne by (intros ->; done).
      rewrite decide_False by (intros Hi; apply Hne; symmetry; apply Huniq; [left|done]).
      apply IH; [intros; apply Huniq; [by right|done]|]. by apply elem_of_cons in Hu as [?|?].
  - unfold set_users. by rewrite Hmap.
Qed.

Lemma get_for_update_or_404_inv k w r w' :
  get_for_update_or_404 k w = (r, w') →
  same_data w w' ∧
  (r = Err HttpError_internal_server ∨
   r = match user_row k (tables w) with
       | Some u => Ok (entity_of k u)
       | None => Err HttpError_not_found
       end).
Proof.
  unfold get_for_update_or_404, try_db. cbv [mbind db_bind]. intros Hr.
  destruct (UserRepository_get_for_update k w) as [r1 w1] eqn:E.
  apply get_user_inv in E as [Hs [->| ->]].
  - injection Hr as <- <-. split; [done|by left].
  - destruct (user_row k (tables w)); injection Hr as <- <-; (split; [done|by right]).
Qed.

(** The row with new quota columns. *)
Definition with_columns (c : QuotaColumns) (u : UserRow) : UserRow :=
  mk_UserRow (u_id u) (u_public_key u) (u_created_at u) (u_disabled u) (u_used_bytes u) c.

(** The tables in which one user's quota is replaced. *)
Definition with_quota (k : PublicKey) (config : UserQuota) (tb : Tables) : Tables :=
  set_users (map (λ v, if decide (u_public_key v = PublicKey_z32 k)
                       then with_columns (UserQuota_to_columns config) v else v)) tb.

Definition patched (k : PublicKey) (patch : UserQuotaPatch) (u : UserRow) : UserQuota :=
  UserQuota_merge (UserQuota_from_nullable_columns (u_quota u)) patch.

Lemma patch_quota_body_inv k patch w r w' :
  users_wf (tables w) → patch_quota_body k patch w = (r, w') →
  match r with
  | Ok updated =>
      ∃ u, user_row k (tables w) = Some u ∧ UserQuota_validate (patched k patch u) = Ok () ∧
        tables w' = with_quota k (patched k patch u) (tables w) ∧
        UserEntity_quota updated
        = UserQuota_from_nullable_columns (UserQuota_to_columns (patched k patch u))
  | Err e =>
      e = HttpError_internal_server ∨
      (e = HttpError_not_found ∧ user_row k (tables w) = None) ∨
      (status e = UNPROCESSABLE_ENTITY ∧
       ∃ u, user_row k (tables w) = Some u ∧ UserQuota_validate (patched k patch u) ≠ Ok ())
  end.
Proof.
  intros Hwf Hr. unfold patch_quota_body in Hr. cbv [mbind db_bind] in Hr.
  destruct (get_for_update_or_404 k w) as [r1 w1] eqn:E.
  apply get_for_update_or_404_inv in E as [(Ht & _) Hr1].
  destruct Hr1 as [->| ->]; [injection Hr as <- <-; by left|].
  destruct (user_row k (tables w)) as [u|] eqn:Eu; [|injection Hr as <- <-; by right; left].
  unfold lift_result in Hr. change (UserQuota_merge (UserEntity_quota (entity_of k u)) patch)
    with (patched k patch u) in Hr.
  destruct (UserQuota_validate (patched k patch u)) as [[]|e] eqn:Ev; cbn [map_err] in Hr.
  2: { injection Hr as <- <-. right; right. split; [done|]. exists u. split; [done|]. congruence. }
  unfold UserRepository_set_quota, db_map_err, lift_result in Hr. cbv [mbind db_bind] in Hr.
  rewrite Ev in Hr. cbn [map_err ue_id entity_of] in Hr.
  destruct (update_user_row _ _ w1) as [r2 w2] eqn:E. rewrite <-Ht in Hwf, Eu.
  apply (update_user_row_inv k u) in E as [[-> _]|[[->| ->] Htb]]; [..|done|done|done];
    injection Hr as <- <-; [by left|by left|].
  exists u. rewrite Ht in Htb. split_and!; try done.
Qed.

(** A quota patch is all or nothing and takes effect at once.  If the
    request succeeds, the user exists, the patched quota is valid, exactly that
    user's quota columns now hold it and nothing else in the database changed,
    and the cached quota is gone, so the next request resolves the new one.
    404 means there is no such user and 422 that the patched quota is invalid;
    after any error the database is as before, except that a commit whose
    acknowledgement was lost (answered 500) may have stored the valid patch. *)
Theorem patch_quota_atomic k patch c w r c' w' :
  users_wf (tables w) → patch_quota k patch c w = (r, c', w') →
  match r with
  | Ok updated =>
      ∃ u, user_row k (tables w) = Some u ∧ UserQuota_validate (patched k patch u) = Ok () ∧
        tables w' = with_quota k (patched k patch u) (tables w) ∧
        UserEntity_quota updated
        = UserQuota_from_nullable_columns (UserQuota_to_columns (patched k patch u)) ∧
        ∀ now, QuotaCache_get now c' k = None
  | Err e =>
      c' = c ∧
      (e = HttpError_not_found → user_row k (tables w) = None) ∧
      (status e = UNPROCESSABLE_ENTITY →
         ∃ u, user_row k (tables w) = Some u ∧ UserQuota_validate (patched k patch u) ≠ Ok ()) ∧
      (tables w' = tables w ∨
       e = HttpError_internal_server ∧
       ∃ u, user_row k (tables w) = Some u ∧ UserQuota_validate (patched k patch u) = Ok () ∧
            tables w' = with_quota k (patched k patch u) (tables w))
  end.
Proof.
  intros Hwf Hr. unfold patch_quota in Hr.
  destruct (patch_quota_tx k patch w) as [r1 w1] eqn:E.
  apply in_transaction_inv in E as [[-> Ht]|(w0 & w2 & r2 & Ht & _ & _ & Hb & Hcase)].
  { injection Hr as <- <- <-. split_and!; [done..|]. by left. }
  rewrite <-Ht in Hwf. apply patch_quota_body_inv in Hb; [|done]. rewrite Ht in Hb.
  destruct r2 as [updated|e].
  - destruct Hb as (u & Hu & Hv & Htb & Hq).
    destruct Hcase as [[-> Ht']|[-> Ht']]; injection Hr as <- <- <-.
    + exists u. split_and!; [congruence..|]. intros now. apply QuotaCache_get_removed.
    + split_and!; [done..|]. destruct Ht' as [Ht'|Ht']; [right|by left].
      split; [done|]. exists u. split_and!; congruence.
  - destruct Hcase as [-> Ht']. injection Hr as <- <- <-.
    destruct Hb as [->|[[-> Hu]|[Hs Hu]]]; split_and!; try done; try (by left).
    by intros ->.
Qed.

(** ** The cache *)

Abbreviation Cache := (list (PublicKey * CachedEntry)).

Lemma foldl_remove (c : Cache) keys :
  foldl QuotaCache_remove c keys = filter (λ kv, kv.1 ∉ keys) c.
Proof.
  revert c. induction keys as [|k keys IH]; intros c; cbn.
  { symmetry. apply filter_all, Forall_forall. intros ? _. apply not_elem_of_nil. }
  rewrite IH. unfold QuotaCache_remove. rewrite list_filter_filter.
  apply list_filter_iff. intros kv. rewrite not_elem_of_cons. tauto.
Qed.

Lemma foldl_remove_length (c : Cache) n :
  (length (foldl QuotaCache_remove c (map fst (take n c))) ≤ length c - n)%nat.
Proof.
  rewrite foldl_remove. rewrite <-length_drop, <-(take_drop n c) at 1.
  set (P := λ kv : PublicKey * CachedEntry, kv.1 ∉ map fst (take n c)).
  change (length (filter P (take n c ++ drop n c)) ≤ length (drop n c))%nat.
  rewrite filter_app. assert (filter P (take n c) = []) as ->.
  { unfold P. assert (∀ kv, kv ∈ take n c → kv.1 ∈ map fst (take n c)) as Hin.
    { intros kv Hkv. apply list_elem_of_fmap. eauto. }
    revert Hin. generalize (map fst (take n c)) as ks. induction (take n c) as [|kv l IH]; [done|].
    intros ks Hin. rewrite filter_cons, decide_False.
    - apply IH. intros ? ?. apply Hin. by right.
    - intros Hn. apply Hn, Hin. left. }
  apply length_filter.
Qed.

Lemma make_room_length now (c : Cache) :
  Z.of_nat (length c) ≤ MAX_ENTRIES → Z.of_nat (length (QuotaCache_make_room now c)) < MAX_ENTRIES.
Proof.
  intros Hc. unfold QuotaCache_make_room.
  destruct (Z.ltb_spec (Z.of_nat (length c)) MAX_ENTRIES); [done|].
  pose proof (length_filter (λ kv : PublicKey * CachedEntry, CachedEntry_is_expired now kv.2 = false) c) as Hf.
  fold (QuotaCache_retain_fresh now c) in Hf.
  destruct (Z.leb_spec MAX_ENTRIES (Z.of_nat (length (QuotaCache_retain_fresh now c)))); [|lia].
  pose proof (foldl_remove_length (QuotaCache_retain_fresh now c) (Z.to_nat (Z.max (MAX_ENTRIES / 10) 1))) as Hr.
  change (Z.to_nat (Z.max (MAX_ENTRIES / 10) 1)) with (Z.to_nat 10000) in *.
  unfold MAX_ENTRIES in *. lia.
Qed.

(** The quota cache is bounded and never serves an answer past its
    lifetime: resolving a quota keeps the cache within [MAX_ENTRIES]; the
    answer is either a cached one no older than its time to live, or the quota
    the database holds now, which is then cached; [Ok(None)] is an unknown
    user; and the database is not changed. *)
Theorem resolve_quota_cached now k (c : Cache) w r c' w' :
  Z.of_nat (length c) ≤ MAX_ENTRIES → resolve_quota now k c w = (r, c', w') →
  Z.of_nat (length c') ≤ MAX_ENTRIES ∧ same_data w w' ∧
  (∀ q, r = Ok q →
     (∃ e, (k, e) ∈ c ∧ ce_config e = q ∧ now - ce_cached_at e ≤ ce_ttl e ∧ c' = c ∧ w' = w) ∨
     (q = (λ u, UserQuota_from_nullable_columns (u_quota u)) <$> user_row k (tables w) ∧
      QuotaCache_get now c' k = Some q)).
Proof.
  intros Hc Hr. unfold resolve_quota in Hr.
  destruct (QuotaCache_get now c k) as [cached|] eqn:E.
  - injection Hr as <- <- <-. split_and!; [done..|]. intros q [= ->]. left.
    unfold QuotaCache_get in E. destruct (list_find _ c) as [[i [k' e]]|] eqn:El; [|done].
    apply list_find_Some in El as (Hi & Hk & _). cbn in *. subst k'.
    destruct (CachedEntry_is_expired now e) eqn:Ex; [done|]. injection E as <-.
    exists e. split_and!; try done; [by eapply list_elem_of_lookup_2|].
    unfold CachedEntry_is_expired in Ex. bool_to_prop. lia.
  - set (c1 := QuotaCache_make_room now (QuotaCache_remove c k)) in *.
    assert (Z.of_nat (length c1) < MAX_ENTRIES) as Hc1.
    { apply make_room_length. pose proof (length_filter (λ kv : PublicKey * CachedEntry, kv.1 ≠ k) c) as Hl.
      fold (QuotaCache_remove c k) in Hl. lia. }
    assert (∀ e, Z.of_nat (length (QuotaCache_insert c1 k e)) ≤ MAX_ENTRIES) as Hins.
    { intros e. pose proof (length_filter (λ kv : PublicKey * CachedEntry, kv.1 ≠ k) c1) as Hl.
      fold (QuotaCache_remove c1 k) in Hl. unfold QuotaCache_insert. cbn [length]. lia. }
    destruct (UserRepository_get k w) as [r1 w1] eqn:Eg. apply get_user_inv in Eg as [Hs Hr1].
    destruct Hr1 as [->| ->]; [injection Hr as <- <- <-; split_and!; [lia|done|done]|].
    destruct (user_row k (tables w)) as [u|]; injection Hr as <- <- <-;
      (split_and!; [apply Hins|done|]); intros q [= <-]; right; (split; [done|]);
      unfold QuotaCache_get, QuotaCache_insert, CachedEntry_is_expired; cbn;
      rewrite decide_True by done; cbn;
      rewrite (proj2 (Z.ltb_ge _ _)) by (unfold CACHE_TTL, NEGATIVE_CACHE_TTL; lia); done.
Qed.

End UserTheorems.

(** * A concrete world *)

(** Two users of the demonstration keys; the first one has 300 bytes stored. *)
Definition demo_user_row : UserRow :=
  mk_UserRow 1 (demo_z32 true) 1000 false 300 (mk_QuotaColumns (Some 1) None None None None None).
Definition demo_users : list UserRow :=
  [demo_user_row; mk_UserRow 2 (demo_z32 false) 1001 false 0 null_quota_columns].
Definition demo_world (ts : list Tick) : World :=
  mk_World (mk_Tables demo_users [] [] [] no_auth) (mk_Seqs 3 1 1 1 1) 2000 None ts.

Lemma demo_users_wf tb : users tb = demo_users → users_wf tb.
Proof.
  unfold users_wf. intros ->. split_and!.
  - apply (bool_decide_unpack _). vm_compute. exact I.
  - apply (bool_decide_unpack _). vm_compute. exact I.
  - repeat apply Forall_cons_2; [split; [by exists true|]|split; [by exists false|]|apply Forall_nil_2];
      vm_compute; split; discriminate.
Qed.

Definition demo_patch : UserQuotaPatch :=
  mk_UserQuotaPatch (Some (QValue 7)) None None None None None.

Lemma patch_quota_atomic_witness :
  ∃ updated w', patch_quota true demo_patch [] (demo_world []) = (Ok updated, [], w') ∧
  ∃ u, user_row true (tables (demo_world [])) = Some u ∧
    tables w' = with_quota true (patched true demo_patch u) (tables (demo_world [])).
Proof.
  eexists _, _. split; [vm_compute; reflexivity|].
  destruct (patch_quota_atomic (H := demo_keys) (H1 := demo_json) true demo_patch [] (demo_world []) _ _ _
    ltac:(by apply demo_users_wf) ltac:(vm_compute; reflexivity)) as (u & Hu & _ & Ht & _).
  exists u. split; [exact Hu|exact Ht].
Defined.

Lemma resolve_quota_cached_witness :
  ∃ r c' w', resolve_quota 5 true [] (demo_world []) = (r, c', w') ∧ Z.of_nat (length c') ≤ MAX_ENTRIES.
Proof.
  eexists _, _, _. split; [vm_compute; reflexivity|].
  apply (resolve_quota_cached (H := demo_keys) (H1 := demo_json) 5 true [] (demo_world []) _ _ _
    ltac:(vm_compute; discriminate) ltac:(vm_compute; reflexivity)).
Defined.
