(* ===== verification/Signup.v ===== *)
(** Signup: signup codes ([persistence/sql/entities/signup_code.rs]) and the
    creation of accounts ([client_server/auth/signup_service.rs],
    [client_server/auth/user_error_mapping.rs], [shared/signup_mode.rs]).

    Decoding base32 belongs to the [base32] crate and is a parameter; a fresh
    random code is an argument. *)

From S2P Require Import Prelude HttpError Keys Quota Database Users.

(** [base32::decode] with the Crockford alphabet. *)
Class Base32 := { base32_decode : str → option (list Z) }.

Inductive SignupMode := Open | TokenRequired.

Inductive SignupServiceError :=
| UserAlreadyExists
| SignupTokenRequired
| InvalidSignupToken
| SignupTokenAlreadyUsed
| SignupInternal (e : SqlError).

Definition HttpError_from_signup (error : SignupServiceError) : HttpError :=
  match error with
  | UserAlreadyExists => HttpError_new_with_message 409 (lit "User already exists")
  | SignupTokenRequired => HttpError_bad_request (lit "Token required")
  | InvalidSignupToken => HttpError_unauthorized_with_message (lit "Invalid token")
  | SignupTokenAlreadyUsed => HttpError_unauthorized_with_message (lit "Token already used")
  | SignupInternal _ => HttpError_internal_server
  end.

Section Signup.
Context `{PkarrKeys, JsonStrings, Base32}.

(** * Codes *)

(** The newtype [SignupCode(String)]; [len] counts bytes. *)
Definition SignupCode_is_valid (value : str) : bool :=
  if negb (str_len value =? 14) then false
  else
    let without_hyphens := filter (λ c, c ≠ 45) value in
    match base32_decode without_hyphens with Some _ => true | None => false end.

Definition SignupCode_new (id : str) : option str := if SignupCode_is_valid id then Some id else None.

Record SignupCodeEntity := mk_SignupCodeEntity {
  ce_id : str;
  ce_created_at : Z;
  ce_used_at : option Z;
  ce_used_by : option PublicKey;
  ce_columns : QuotaColumns
}.

Definition SignupCodeEntity_quota (code : SignupCodeEntity) : UserQuota :=
  UserQuota_from_nullable_columns (ce_columns code).

Definition SignupCodeEntity_from_row (row : SignupCodeRow) : result SqlError SignupCodeEntity :=
  id ← ok_or (SignupCode_new (c_id row)) Decode;
  used_by ← match c_used_by row with
            | None => Ok None
            | Some s => k ← map_err (λ _, Decode) (PublicKey_try_from_z32 s); Ok (Some k)
            end;
  Ok (mk_SignupCodeEntity id (c_created_at row) (c_used_at row) used_by (c_quota row)).

(** [INSERT .. RETURNING *]; the id is the primary key. *)
Definition SignupCodeRepository_create (id : str) (limits : UserQuota) : DB SqlError SignupCodeEntity :=
  lift_result (map_err (λ _, InvalidArgument) (UserQuota_validate limits)) ;;
  exec (λ _ tx_now tb sq,
    if existsb (λ c, bool_decide (c_id c = id)) (signup_codes (auth tb)) then (Err UniqueViolation, tb, sq)
    else
      let row := mk_SignupCodeRow id tx_now None None (UserQuota_to_columns limits) in
      (SignupCodeEntity_from_row row, set_signup_codes (λ l, l ++ [row]) tb, sq)).

Definition SignupCodeRepository_get (id : str) : DB SqlError SignupCodeEntity :=
  select (λ _ tb, fetch_one SignupCodeEntity_from_row (filter (λ c, c_id c = id) (signup_codes (auth tb)))).

Inductive SignupCodeListState := CodesAll | CodesUsed | CodesUnused.

Record SignupCodeListQuery := mk_SignupCodeListQuery {
  cl_state : SignupCodeListState;
  cl_limit : option Z;
  cl_cursor : option str
}.

(** The [WHERE] clause; ids are compared in byte order. *)
Definition code_listed (q : SignupCodeListQuery) (c : SignupCodeRow) : bool :=
  match cl_state q with
  | CodesAll => true
  | CodesUsed => bool_decide (c_used_by c ≠ None)
  | CodesUnused => bool_decide (c_used_by c = None)
  end &&
  match cl_cursor q with Some cursor => str_ltb cursor (c_id c) | None => true end.

Definition SignupCodeRepository_list (q : SignupCodeListQuery)
    : DB SqlError (list SignupCodeEntity * option str) :=
  let limit := effective_list_limit (cl_limit q) in
  codes ← select (λ _ tb,
    fetch_all SignupCodeEntity_from_row
      (take (Z.to_nat (limit + 1))
         (order_by (λ a b, negb (str_ltb (c_id b) (c_id a)))
            (filter (λ c, code_listed q c = true) (signup_codes (auth tb))))));
  mret (split_list_page codes limit ce_id).

(** The two counts of the overview. *)
Definition SignupCodeRepository_get_overview : DB SqlError (Z * Z) :=
  total ← select (λ _ tb, Ok (Z.of_nat (length (signup_codes (auth tb)))));
  unused ← select (λ _ tb, Ok (Z.of_nat (length (filter (λ c, c_used_by c = None) (signup_codes (auth tb))))));
  mret (total, unused).

Definition use_code (used_by : PublicKey) (tx_now : Z) (c : SignupCodeRow) : SignupCodeRow :=
  mk_SignupCodeRow (c_id c) (c_created_at c) (Some tx_now) (Some (PublicKey_z32 used_by)) (c_quota c).

(** [UPDATE .. WHERE id = $1 AND used_by IS NULL RETURNING *]. *)
Definition SignupCodeRepository_mark_as_used (id : str) (used_by : PublicKey) : DB SqlError SignupCodeEntity :=
  exec (λ _ tx_now tb sq,
    let hit c := bool_decide (c_id c = id ∧ c_used_by c = None) in
    (fetch_one SignupCodeEntity_from_row
       (map (use_code used_by tx_now) (filter (λ c, hit c = true) (signup_codes (auth tb)))),
     set_signup_codes (map (λ c, if hit c then use_code used_by tx_now c else c)) tb, sq)).

(** * The service *)

Definition ensure_user_not_exists (public_key : PublicKey) : DB SignupServiceError () :=
  r ← try_db (UserRepository_get public_key);
  match r with
  | Ok _ => throw UserAlreadyExists
  | Err RowNotFound => mret ()
  | Err e => throw (SignupInternal e)
  end.

Definition validate_and_consume_signup_token (signup_token : option str) (public_key : PublicKey)
    : DB SignupServiceError UserQuota :=
  code_id ← lift_result (ok_or signup_token SignupTokenRequired);
  r ← try_db (SignupCodeRepository_get code_id);
  code ← match r with
         | Ok code => mret code
         | Err RowNotFound => throw InvalidSignupToken
         | Err e => throw (SignupInternal e)
         end;
  if bool_decide (ce_used_by code ≠ None) then throw SignupTokenAlreadyUsed
  else
    let quota := SignupCodeEntity_quota code in
    db_map_err SignupInternal (SignupCodeRepository_mark_as_used code_id public_key) ;;
    mret quota.

Definition create_user_in_tx (mode : SignupMode) (public_key : PublicKey) (signup_token : option str)
    : DB SignupServiceError UserEntity :=
  ensure_user_not_exists public_key ;;
  quota ← match mode with
          | TokenRequired => validate_and_consume_signup_token signup_token public_key
          | Open => mret UserQuota_default
          end;
  user ← db_map_err SignupInternal (UserRepository_create public_key);
  db_map_err SignupInternal (UserRepository_set_quota (ue_id user) quota).

Definition create_new_user (mode : SignupMode) (now : Z) (public_key : PublicKey) (signup_token : option str)
    (c : list (PublicKey * CachedEntry)) (w : World)
    : result SignupServiceError UserEntity * list (PublicKey * CachedEntry) * World :=
  match in_transaction SignupInternal (create_user_in_tx mode public_key signup_token) w with
  | (Ok user, w) => (Ok user, cache_user_quota now user c, w)
  | (Err e, w) => (Err e, c, w)
  end.

End Signup.

(** * Theorems *)

Section SignupTheorems.
Context `{PkarrKeysLaws, JsonStrings, Base32}.

(** The state a signup starts from: user rows are well-formed, the next id is
    fresh, and codes have one row each. *)
Definition signup_ready (w : World) : Prop :=
  users_wf (tables w) ∧ seq_users (seqs w) ∉ map u_id (users (tables w)) ∧
  NoDup (map c_id (signup_codes (auth (tables w)))).

(** What a signup with quota [q] leaves. *)
Definition new_user (id tx_now : Z) (k : PublicKey) (q : UserQuota) : UserRow :=
  mk_UserRow id (PublicKey_z32 k) tx_now false 0 (UserQuota_to_columns q).

(** The quota a signup is entitled to, and the codes afterwards. *)
Definition entitled (mode : SignupMode) (token : option str) (k : PublicKey)
    (codes codes' : list SignupCodeRow) (q : UserQuota) : Prop :=
  match mode with
  | Open => q = UserQuota_default ∧ codes' = codes
  | TokenRequired =>
      ∃ c used_at, token = Some (c_id c) ∧ c ∈ codes ∧ c_used_by c = None ∧
           q = UserQuota_from_nullable_columns (c_quota c) ∧
           codes' = map (λ d, if decide (c_id d = c_id c) then use_code k used_at d else d) codes
  end.

(** Why a signup is refused. *)
Definition refusal_reason (mode : SignupMode) (token : option str) (k : PublicKey) (tb : Tables)
    (e : SignupServiceError) : Prop :=
  match e with
  | UserAlreadyExists => user_row k tb ≠ None
  | SignupTokenRequired => mode = TokenRequired ∧ token = None
  | InvalidSignupToken => mode = TokenRequired ∧ ∃ id, token = Some id ∧ id ∉ map c_id (signup_codes (auth tb))
  | SignupTokenAlreadyUsed =>
      mode = TokenRequired ∧ ∃ c, token = Some (c_id c) ∧ c ∈ signup_codes (auth tb) ∧ c_used_by c ≠ None
  | SignupInternal _ => True
  end.

Lemma ensure_user_not_exists_inv k w r w' :
  ensure_user_not_exists k w = (r, w') →
  same_data w w' ∧
  match r with
  | Ok _ => user_row k (tables w) = None
  | Err e => refusal_reason TokenRequired None k (tables w) e ∧ (e = UserAlreadyExists ∨ ∃ s, e = SignupInternal s)
  end.
Proof.
  unfold ensure_user_not_exists. cbv [mbind db_bind try_db]. intros Hr.
  destruct (UserRepository_get k w) as [r1 w1] eqn:E. apply get_user_inv in E as [Hs Hr1].
  destruct Hr1 as [->| ->]; [injection Hr as <- <-; cbn; eauto|].
  destruct (user_row k (tables w)) as [u|] eqn:Eu; injection Hr as <- <-; cbn; [|done].
  split; [done|]. rewrite Eu. auto.
Qed.

Lemma code_decodes c e : SignupCodeEntity_from_row c = Ok e →
  ce_columns e = c_quota c ∧ (ce_used_by e = None ↔ c_used_by c = None).
Proof.
  unfold SignupCodeEntity_from_row. destruct (SignupCode_new _); cbn; [|done].
  destruct (c_used_by c) as [s|]; cbn; [|by intros [= <-]].
  destruct (PublicKey_try_from_z32 s); cbn; [|done]. by intros [= <-].
Qed.

Lemma filter_id_head (id : str) (codes : list SignupCodeRow) :
  match filter (λ c, c_id c = id) codes with
  | c :: _ => c ∈ codes ∧ c_id c = id
  | [] => id ∉ map c_id codes
  end.
Proof.
  destruct (filter _ _) as [|c l] eqn:E.
  - intros (c & -> & Hc)%list_elem_of_fmap. apply (elem_of_nil c). rewrite <-E. by apply list_elem_of_filter.
  - assert (c ∈ filter (λ c, c_id c = id) codes) as [? ?]%list_elem_of_filter by (rewrite E; left). done.
Qed.

Lemma consume_token_ok token k w q w' :
  NoDup (map c_id (signup_codes (auth (tables w)))) →
  validate_and_consume_signup_token token k w = (Ok q, w') →
  seqs w' = seqs w ∧ tx_time w' = tx_time w ∧
  ∃ codes', tables w' = set_signup_codes (λ _, codes') (tables w) ∧
    entitled TokenRequired token k (signup_codes (auth (tables w))) codes' q.
Proof.
  intros HN Hr. unfold validate_and_consume_signup_token in Hr.
  apply db_bind_Ok in Hr as (id & w1 & Hid & Hr). injection Hid as Hid <-.
  destruct token as [id'|]; [|done]. injection Hid as ->.
  apply db_bind_Ok in Hr as (r1 & w1 & Hg & Hr). apply try_db_inv in Hg as (? & [= <-] & Hg).
  apply select_inv in Hg as [(Ht & Hs & Hx & _) Hg].
  apply db_bind_Ok in Hr as (code & w1' & Hc & Hr).
  destruct r1 as [code'|[]]; try done. injection Hc as -> <-. destruct Hg as [?|Hg]; [done|].
  pose proof (filter_id_head id (signup_codes (auth (tables w)))) as Hh.
  destruct (filter _ _) as [|c cs] eqn:Ef; [done|]. destruct Hh as [Hin Hcid]. cbn in Hg. symmetry in Hg.
  apply code_decodes in Hg as [Hq Hu]. case_bool_decide as Hused; [done|]. cbn in Hr.
  apply Hu in Hused.
  apply db_bind_Ok in Hr as (e2 & w2 & Hm & Hr). injection Hr as <- <-.
  apply db_map_err_Ok, exec_inv in Hm as (_ & Hx2 & [(? & _)|(r0 & Hm & _)]); [done|].
  injection Hm as _ Hm Hsq. split_and!; [congruence|congruence|]. rewrite Ht in Hm.
  eexists. split; [symmetry; exact Hm|]. exists c. eexists. split_and!; [by rewrite Hcid|done|done| |].
  - unfold SignupCodeEntity_quota. by rewrite Hq.
  - cbn. apply map_ext_in. intros d Hd%list_elem_of_In.
    destruct (decide (c_id d = c_id c)) as [E|E].
    + rewrite (NoDup_map_inj c_id _ d c HN Hd Hin E). by rewrite bool_decide_eq_true_2.
    + rewrite bool_decide_eq_false_2; [done|]. intros [? _]. congruence.
Qed.

Lemma consume_token_err token k w e w' :
  validate_and_consume_signup_token token k w = (Err e, w') →
  refusal_reason TokenRequired token k (tables w) e ∧ e ≠ UserAlreadyExists.
Proof.
  unfold validate_and_consume_signup_token. cbv [mbind db_bind try_db lift_result]. intros Hr.
  destruct token as [id|]; cbn in Hr; [|by injection Hr as <- <-].
  destruct (SignupCodeRepository_get id w) as [r1 w1] eqn:Eg. apply select_inv in Eg as [_ Hg].
  pose proof (filter_id_head id (signup_codes (auth (tables w)))) as Hh.
  destruct r1 as [code|er]; cbn in Hr.
  - destruct Hg as [?|Hg]; [done|]. destruct (filter _ _) as [|c cs]; [done|]. destruct Hh as [Hin <-].
    symmetry in Hg. apply code_decodes in Hg as [_ Hu]. case_bool_decide as Hused.
    + injection Hr as <- _. split; [|done]. split; [done|]. exists c. naive_solver.
    + unfold db_map_err in Hr. destruct (SignupCodeRepository_mark_as_used _ _ w1) as [[]]; cbn in Hr; [done|].
      by injection Hr as <- _.
  - destruct er; injection Hr as <- _; try done. split; [|done]. split; [done|]. exists id. split; [done|].
    destruct Hg as [?|Hg]; [done|]. destruct (filter _ _) as [|c cs]; [done|]. cbn in Hg.
    unfold SignupCodeEntity_from_row in Hg. destruct (SignupCode_new _); cbn in Hg; [|done].
    destruct (c_used_by c) as [z|]; cbn in Hg; [|done]. by destruct (PublicKey_try_from_z32 z).
Qed.

Lemma create_user_inv k w u w' :
  UserRepository_create k w = (Ok u, w') →
  tables w' = set_users (λ l, l ++ [mk_UserRow (seq_users (seqs w)) (PublicKey_z32 k)
                                      (default (clock w') (tx_time w)) false 0 null_quota_columns]) (tables w) ∧
  ue_id u = seq_users (seqs w).
Proof.
  intros (_ & _ & [(? & _)|(r0 & Hx & Hr)])%exec_inv; [done|].
  destruct (existsb _ _); injection Hx as <- Ht _; [by destruct Hr|].
  split; [done|]. destruct Hr as [Hr|?]; [|done].
  rewrite (UserEntity_from_row_key k) in Hr by done. by injection Hr as ->.
Qed.

Lemma set_quota_new k id tx_now q us w u w' :
  users (tables w) = us ++ [mk_UserRow id (PublicKey_z32 k) tx_now false 0 null_quota_columns] →
  id ∉ map u_id us →
  UserRepository_set_quota id q w = (Ok u, w') →
  tables w' = set_users (λ _, us ++ [new_user id tx_now k q]) (tables w) ∧ u = entity_of k (new_user id tx_now k q).
Proof.
  intros Hus Hid Hr. unfold UserRepository_set_quota in Hr.
  apply db_bind_Ok in Hr as (? & w1 & Hv & Hr). injection Hv as _ <-.
  apply exec_inv in Hr as (_ & _ & [(? & _)|(r0 & Hx & Hr)]); [done|]. rewrite Hus in Hx.
  set (f := λ u : UserRow, if u_id u =? id then _ else u) in Hx.
  assert (map f us = us) as Hmap.
  { rewrite <-(map_id us) at 2. apply map_ext_in. intros v Hv%list_elem_of_In. unfold f.
    rewrite (proj2 (Z.eqb_neq _ _)); [done|]. intros E. apply Hid. rewrite <-E. by apply list_elem_of_fmap_2. }
  rewrite map_app, Hmap in Hx. cbn [map] in Hx. unfold f in Hx at 1 2. cbn [u_id] in Hx.
  rewrite Z.eqb_refl in Hx. injection Hx as <- Ht _. split; [done|].
  destruct Hr as [Hr|?]; [|done]. rewrite filter_app in Hr.
  assert (filter (λ u, u_id u = id) us = []) as Hnone.
  { destruct (filter _ us) as [|v vs] eqn:E; [done|].
    assert (v ∈ filter (λ u, u_id u = id) us) as [<- Hv]%list_elem_of_filter by (rewrite E; left).
    exfalso. by apply Hid, list_elem_of_fmap_2. }
  rewrite Hnone in Hr.
  cbn [app] in Hr. rewrite filter_cons, decide_True in Hr by done. cbn [fetch_one] in Hr.
  rewrite (UserEntity_from_row_key k) in Hr by done. by injection Hr as ->.
Qed.

Lemma create_user_in_tx_ok mode k token w u w' :
  signup_ready w → create_user_in_tx mode k token w = (Ok u, w') →
  user_row k (tables w) = None ∧
  ∃ id tx_now q codes', id ∉ map u_id (users (tables w)) ∧
    entitled mode token k (signup_codes (auth (tables w))) codes' q ∧
    tables w' = set_users (λ us, us ++ [new_user id tx_now k q])
                  (set_signup_codes (λ _, codes') (tables w)) ∧
    u = entity_of k (new_user id tx_now k q).
Proof.
  intros (Hu & Hfresh & HN) Hr. unfold create_user_in_tx in Hr.
  apply db_bind_Ok in Hr as ([] & w1 & He & Hr).
  apply ensure_user_not_exists_inv in He as [(Ht1 & Hs1 & _) Hnone]. split; [done|].
  apply db_bind_Ok in Hr as (q & w2 & Hq & Hr).
  assert (seqs w2 = seqs w1 ∧ ∃ codes', tables w2 = set_signup_codes (λ _, codes') (tables w1) ∧
    entitled mode token k (signup_codes (auth (tables w1))) codes' q) as (Hs2 & codes' & Ht2 & Hent).
  { destruct mode.
    - injection Hq as <- <-. split; [done|]. exists (signup_codes (auth (tables w1))).
      split; [|done]. by destruct (tables w1) as [? ? ? ? []].
    - rewrite <-Ht1 in HN. apply consume_token_ok in Hq as (? & _ & Hc); [|done]. done. }
  apply db_bind_Ok in Hr as (u1 & w3 & Hc & Hr). apply db_map_err_Ok, create_user_inv in Hc as [Ht3 Hid].
  apply db_map_err_Ok in Hr. rewrite Hid, Hs2, Hs1 in *. rewrite Ht2 in Ht3. cbn in Ht3.
  destruct (set_quota_new k _ _ q (users (tables w1)) _ _ _ (f_equal users Ht3) ltac:(by rewrite Ht1) Hr)
    as [Ht ->].
  eexists (seq_users (seqs w)), _, q, codes'. split_and!; [done|by rewrite <-Ht1| |done].
  rewrite Ht, Ht3, <-Ht1. done.
Qed.

Lemma create_user_in_tx_err mode k token w e w' :
  create_user_in_tx mode k token w = (Err e, w') → refusal_reason mode token k (tables w) e.
Proof.
  unfold create_user_in_tx. cbv [mbind db_bind]. intros Hr.
  destruct (ensure_user_not_exists k w) as [r1 w1] eqn:E1.
  apply ensure_user_not_exists_inv in E1 as [(Ht1 & _) Hex].
  destruct r1 as [[]|e1]; [|injection Hr as <- _; by destruct Hex as [? [->|[s ->]]]].
  match type of Hr with context [let (_, _) := ?m in _] => destruct m as [[q|e2] w2] eqn:E2 end.
  - unfold db_map_err in Hr. destruct (UserRepository_create k w2) as [[u|?] w3]; cbn in Hr.
    + destruct (UserRepository_set_quota _ _ _) as [[]]; [done|]. by injection Hr as <- _.
    + by injection Hr as <- _.
  - injection Hr as <- _. destruct mode; [done|]. rewrite <-Ht1. by eapply consume_token_err.
Qed.

(** (C19) Signing up is all or nothing, and a code pays for one account: the
    tables are as before, or they have exactly one more user, enabled and with
    no bytes used, whose key had no account; when codes are required, the code
    presented was unused, the new user has that code's quota, and the code is
    marked as used by the new user, nothing else having changed.  A success
    always means the latter, each refusal has the cause it names, and the
    answer of a success is cached. *)
Theorem signup_atomic mode now k token c w r c' w' :
  signup_ready w → create_new_user mode now k token c w = (r, c', w') →
  (tables w' = tables w ∧ c' = c ∧ ∃ e, r = Err e ∧ refusal_reason mode token k (tables w) e) ∨
  (user_row k (tables w) = None ∧
   ∃ id tx_now q codes', id ∉ map u_id (users (tables w)) ∧
     entitled mode token k (signup_codes (auth (tables w))) codes' q ∧
     tables w' = set_users (λ us, us ++ [new_user id tx_now k q])
                   (set_signup_codes (λ _, codes') (tables w)) ∧
     (r = Ok (entity_of k (new_user id tx_now k q)) ∧
        c' = cache_user_quota now (entity_of k (new_user id tx_now k q)) c ∨
      r = Err (SignupInternal SqlIo) ∧ c' = c)).
Proof.
  intros (Hu & Hf & HN) Hr. unfold create_new_user in Hr.
  destruct (in_transaction _ _ w) as [r1 w1] eqn:E.
  assert (∀ e, r1 = Err e → r = Err e ∧ c' = c ∧ w' = w1) as Herr.
  { intros e ->. by injection Hr as <- <- <-. }
  apply in_transaction_inv in E as [[-> Ht]|(w0 & w2 & r2 & Ht0 & Hs0 & _ & Hb & Hcase)].
  { destruct (Herr _ eq_refl) as (-> & -> & ->). left. split_and!; [done..|]. by eexists. }
  destruct r2 as [u|e].
  - apply create_user_in_tx_ok in Hb as (Hnone & id & tx_now & q & codes' & Hid & Hent & Ht2 & ->).
    2: { unfold signup_ready. by rewrite Ht0, Hs0. }
    rewrite Ht0 in *. destruct Hcase as [[-> Ht]|[-> [Ht|Ht]]].
    + injection Hr as <- <- <-. right. split; [done|]. exists id, tx_now, q, codes'.
      split_and!; [done..|congruence|by left].
    + destruct (Herr _ eq_refl) as (-> & -> & ->). right. split; [done|]. exists id, tx_now, q, codes'.
      split_and!; [done..|congruence|by right].
    + destruct (Herr _ eq_refl) as (-> & -> & ->). left. split_and!; [done..|]. by eexists.
  - destruct Hcase as [-> Ht]. destruct (Herr _ eq_refl) as (-> & -> & ->). left. split_and!; [done..|].
    exists e. split; [done|]. rewrite <-Ht0. by eapply create_user_in_tx_err.
Qed.

End SignupTheorems.

(** * Witnesses *)

(** Every string without other characters decodes. *)
#[export] Instance demo_base32 : Base32 := {| base32_decode s := Some s |}.

Definition demo_code : SignupCodeRow :=
  mk_SignupCodeRow (lit "JZY0-D6MY-ZFNG") 5 None None null_quota_columns.
Definition demo_signup (ts : list Tick) : World :=
  mk_World (mk_Tables [demo_user_row] [] [] [] (mk_AuthTables [demo_code] [] [] [] [] [])) (mk_Seqs 2 1 1 1 1) 2000
    None ts.

Lemma demo_signup_ready : signup_ready (demo_signup []).
Proof.
  split_and!; [split_and!|..]; try (apply (bool_decide_unpack _); vm_compute; exact I).
Qed.

Definition demo_signed_up :=
  create_new_user (H := demo_keys) TokenRequired 7 false (Some (lit "JZY0-D6MY-ZFNG")) [] (demo_signup []).

Lemma signup_atomic_witness :
  is_ok demo_signed_up.1.1 = true ∧
  ∃ q, entitled (H := demo_keys) TokenRequired (Some (lit "JZY0-D6MY-ZFNG")) false [demo_code]
         (signup_codes (auth (tables demo_signed_up.2))) q.
Proof.
  split; [vm_compute; reflexivity|].
  destruct (signup_atomic (H := demo_keys) TokenRequired 7 false (Some (lit "JZY0-D6MY-ZFNG")) [] (demo_signup [])
    demo_signed_up.1.1 demo_signed_up.1.2 demo_signed_up.2 demo_signup_ready (triple_eta demo_signed_up))
    as [(_ & _ & e & He & _)|(_ & id & t & q & codes' & _ & Hent & Ht & _)].
  - vm_compute in He. discriminate He.
  - exists q. rewrite Ht. exact Hent.
Defined.
