(* ===== verification/Authorization.v ===== *)
(** Authorization of storage requests ([client_server/auth/session.rs],
    [client_server/auth/authorization.rs] and
    [client_server/routes/tenants/authorize.rs]). *)

From S2P Require Import Prelude StoragePath Capabilities HttpError Keys Quota Database Users.

Section Authorization.
Context `{PkarrKeys, JsonStrings}.

(** * Sessions *)

Record SessionEntity := mk_SessionEntity {
  se_id : Z;
  se_secret : str;
  se_user_id : Z;
  se_user_pubkey : PublicKey;
  se_capabilities : Capabilities;
  se_created_at : Z
}.

Record GrantSession := mk_GrantSession {
  gs_user_key : PublicKey;
  gs_capabilities : Capabilities;
  gs_grant_id : str;
  gs_token_expires_at : Z;
  gs_token_hash : list Z
}.

Inductive AuthSession :=
| CookieSession (session : SessionEntity)
| BearerSession (session : GrantSession).

Definition AuthSession_capabilities (s : AuthSession) : Capabilities :=
  match s with CookieSession c => se_capabilities c | BearerSession b => gs_capabilities b end.

Definition AuthSession_user_key (s : AuthSession) : PublicKey :=
  match s with CookieSession c => se_user_pubkey c | BearerSession b => gs_user_key b end.

(** * Permissions *)

Definition STORAGE_ROOTS : list str := [PUBLIC_ROOT; PRIVATE_ROOT].

Definition action_description (action : Action) : str :=
  match action with
  | Read => lit "read access"
  | Write => lit "write access"
  | EncryptionKeys => lit "encryption key access"
  | Unknown _ => lit "access"
  end.

Definition session_has_action (session : AuthSession) (pubkey : PublicKey) (path : StoragePath)
    (action : Action) : HttpResult () :=
  if negb (bool_decide (AuthSession_user_key session = pubkey)) then
    Err (HttpError_forbidden_with_message (lit "Session user does not match target tenant"))
  else if Capabilities_permits (AuthSession_capabilities session) path action then Ok ()
  else Err (HttpError_forbidden_with_message
              (lit "Session does not have " ++ action_description action ++ lit " to path")).

Definition has_write_permission (session : AuthSession) (pubkey : PublicKey) (path : StoragePath)
    : HttpResult () :=
  let path_str := as_str path in
  if negb (existsb (λ root, starts_with path_str root) STORAGE_ROOTS) then
    Err (HttpError_forbidden_with_message
           (lit "Writing to directories other than '/pub/' and '/priv/' is forbidden"))
  else session_has_action session pubkey path Write.

Definition has_read_permission (session : option AuthSession) (pubkey : option PublicKey)
    (path : StoragePath) : HttpResult () :=
  let path_str := as_str path in
  if starts_with path_str PUBLIC_ROOT then Ok ()
  else if negb (starts_with path_str PRIVATE_ROOT) then
    Err (HttpError_forbidden_with_message
           (lit "Reading from directories other than '/pub/' and '/priv/' is forbidden"))
  else
    session ← ok_or session (HttpError_unauthorized_with_message
                               (lit "Authentication required to read private storage"));
    pubkey ← ok_or pubkey (HttpError_forbidden_with_message
                             (lit "A private read must be scoped to exactly one user"));
    session_has_action session pubkey path Read.

(** What [PUT], [DELETE], [LOCK] and [UNLOCK] demand. *)
Definition authorize_write (session : AuthSession) (entry_path : EntryPath) (must_be_enabled : bool)
    : DB HttpError UserEntity :=
  if negb (StoragePath_is_file (ep_path entry_path)) then
    throw (HttpError_bad_request (lit "Target path must be a file"))
  else
    lift_result (has_write_permission session (ep_pubkey entry_path) (ep_path entry_path)) ;;
    get_or_http_error (ep_pubkey entry_path) must_be_enabled.

(** * Theorems *)

(** A session may do [action] on [path] of [pubkey]: it is the owner's, and one
    of its capabilities grants the action on a scope that covers the path. *)
Definition session_grants (session : AuthSession) (pubkey : PublicKey) (path : StoragePath)
    (action : Action) : Prop :=
  AuthSession_user_key session = pubkey ∧
  ∃ cap, cap ∈ AuthSession_capabilities session ∧
    StoragePath_covers_path (scope cap) path = true ∧ action ∈ actions cap.

Lemma permits_iff caps path action :
  Capabilities_permits caps path action = true ↔
  ∃ cap, cap ∈ caps ∧ StoragePath_covers_path (scope cap) path = true ∧ action ∈ actions cap.
Proof.
  unfold Capabilities_permits. rewrite existsb_exists. setoid_rewrite <-list_elem_of_In.
  setoid_rewrite andb_true_iff. setoid_rewrite bool_decide_eq_true. done.
Qed.

Lemma session_has_action_spec session pubkey path action :
  (session_has_action session pubkey path action = Ok () ↔ session_grants session pubkey path action) ∧
  (∀ e, session_has_action session pubkey path action = Err e → status e = 403).
Proof.
  unfold session_has_action, session_grants. rewrite <-permits_iff.
  case_bool_decide as Hk; cbn [negb]; [|split; [split; [done|by intros [? _]]|by intros e [= <-]]].
  destruct (Capabilities_permits _ _ _); (split; [|by intros e [= <-]]); split; try done.
  by intros [_ ?].
Qed.

Definition under_root (path : StoragePath) (root : str) : Prop := starts_with (as_str path) root = true.

Lemma has_write_permission_spec session pubkey path :
  (has_write_permission session pubkey path = Ok () ↔
     (under_root path PUBLIC_ROOT ∨ under_root path PRIVATE_ROOT) ∧
     session_grants session pubkey path Write) ∧
  (∀ e, has_write_permission session pubkey path = Err e → status e = 403).
Proof.
  unfold has_write_permission, under_root. cbn [existsb STORAGE_ROOTS].
  destruct (session_has_action_spec session pubkey path Write) as [Hw Hwe].
  rewrite orb_false_r. split.
  - destruct (starts_with _ PUBLIC_ROOT), (starts_with _ PRIVATE_ROOT); cbn; rewrite ?Hw; try tauto.
    split; [done|]. by intros [[?|?] _].
  - destruct (starts_with _ PUBLIC_ROOT), (starts_with _ PRIVATE_ROOT); cbn; try exact Hwe.
    by intros e [= <-].
Qed.

Lemma has_read_permission_ok osession opubkey path :
  has_read_permission osession opubkey path = Ok () ↔
  under_root path PUBLIC_ROOT ∨
  under_root path PRIVATE_ROOT ∧
  ∃ s k, osession = Some s ∧ opubkey = Some k ∧ session_grants s k path Read.
Proof.
  unfold has_read_permission, under_root.
  destruct (starts_with _ PUBLIC_ROOT); [split; [by left|done]|].
  destruct (starts_with _ PRIVATE_ROOT); cbn [negb].
  2: { split; [done|]. by intros [?|[? _]]. }
  destruct osession as [s|], opubkey as [k|]; cbn;
    try (split; [done|]; by intros [?|(_ & ? & ? & ? & ? & _)]).
  rewrite (proj1 (session_has_action_spec s k path Read)). split; [intros ?; right; eauto 10|].
  intros [?|(_ & s' & k' & [= <-] & [= <-] & ?)]; done.
Qed.

(** (C14) Who may read and write what.  A write is authorized exactly when the
    path is under [/pub/] or [/priv/] and the session is the path owner's and
    holds a write capability covering the path; any refusal is a 403.  A read
    of [/pub/] is always authorized, whoever asks; a read of [/priv/] exactly
    when the request names one owner, the session is the owner's and it holds a
    read capability covering the path; without a session the refusal is a 401
    and otherwise a 403; nothing outside the two roots can be read. *)
Theorem permission_spec session osession pubkey opubkey path :
  (has_write_permission session pubkey path = Ok () ↔
     (under_root path PUBLIC_ROOT ∨ under_root path PRIVATE_ROOT) ∧
     session_grants session pubkey path Write) ∧
  (∀ e, has_write_permission session pubkey path = Err e → status e = 403) ∧
  (has_read_permission osession opubkey path = Ok () ↔
     under_root path PUBLIC_ROOT ∨
     under_root path PRIVATE_ROOT ∧
     ∃ s k, osession = Some s ∧ opubkey = Some k ∧ session_grants s k path Read) ∧
  (∀ e, has_read_permission osession opubkey path = Err e →
     status e = match osession with
                | None => if starts_with (as_str path) PRIVATE_ROOT then 401 else 403
                | Some _ => 403
                end).
Proof.
  destruct (has_write_permission_spec session pubkey path) as [Hw Hwe].
  split_and!; [done..|apply has_read_permission_ok|]. unfold has_read_permission.
  destruct (starts_with _ PUBLIC_ROOT); [done|]. destruct (starts_with _ PRIVATE_ROOT) eqn:E; cbn [negb].
  - destruct osession as [s|]; cbn; [|by intros e [= <-]].
    destruct opubkey as [k|]; cbn; [|by intros e [= <-]].
    apply session_has_action_spec.
  - intros e [= <-]. by destruct osession.
Qed.

End Authorization.

Section AuthorizeWrite.
Context `{PkarrKeysLaws, JsonStrings}.

Lemma get_or_http_error_inv k b w r w' :
  get_or_http_error k b w = (r, w') →
  same_data w w' ∧
  (r = Err HttpError_internal_server ∨
   match user_row k (tables w) with
   | Some u => if b && u_disabled u then ∃ e, r = Err e ∧ status e = 403 else r = Ok (entity_of k u)
   | None => r = Err HttpError_not_found
   end).
Proof.
  unfold get_or_http_error, try_db. cbv [mbind db_bind]. intros Hr.
  destruct (UserRepository_get k w) as [r1 w1] eqn:E. apply get_user_inv in E as [Hs Hr1].
  destruct Hr1 as [->| ->]; [injection Hr as <- <-; split; [done|by left]|].
  destruct (user_row k (tables w)) as [u|].
  - cbn [mret db_ret ue_disabled entity_of] in Hr. destruct (b && u_disabled u);
      cbv [throw mret db_ret] in Hr; injection Hr as <- <-; eauto.
  - injection Hr as <- <-. eauto.
Qed.

Lemma authorize_write_inv session e must_be_enabled w r w' :
  authorize_write session e must_be_enabled w = (r, w') →
  same_data w w' ∧
  match r with
  | Ok user =>
      StoragePath_is_file (ep_path e) = true ∧
      has_write_permission session (ep_pubkey e) (ep_path e) = Ok () ∧
      ∃ u, user_row (ep_pubkey e) (tables w) = Some u ∧ user = entity_of (ep_pubkey e) u ∧
           (must_be_enabled = true → u_disabled u = false)
  | Err err =>
      status err = 400 ∧ StoragePath_is_file (ep_path e) = false ∨ status err = 403 ∨
      status err = 404 ∧ user_row (ep_pubkey e) (tables w) = None ∨ status err = 500
  end.
Proof.
  unfold authorize_write. intros Hr.
  destruct (StoragePath_is_file (ep_path e)) eqn:Ef; cbn [negb] in Hr.
  2: { injection Hr as <- <-. split; [reflexivity|by left]. }
  destruct (has_write_permission_spec session (ep_pubkey e) (ep_path e)) as [_ Herr].
  cbv [mbind db_bind lift_result] in Hr.
  destruct (has_write_permission session (ep_pubkey e) (ep_path e)) as [[]|err] eqn:Ep.
  2: { injection Hr as <- <-. split; [reflexivity|]. auto. }
  apply get_or_http_error_inv in Hr as [Hs Hr]. split; [done|].
  destruct Hr as [->|Hr]; [by auto|].
  destruct (user_row (ep_pubkey e) (tables w)) as [u|].
  - destruct (must_be_enabled && u_disabled u) eqn:Eb.
    + destruct Hr as (err & -> & Hst). auto.
    + subst r. split_and!; try done. exists u. split_and!; try done. by intros ->.
  - subst r. auto.
Qed.

(** The gate of every changing request: if [authorize_write] returns, the
    path is a file under a storage root, the session is the path owner's and
    holds a write capability covering the path, and the user it returns is the
    owner's row in the database, enabled whenever the request demands it.  The
    database is never changed, and each refusal has its status. *)
Theorem authorize_write_gate session e must_be_enabled w r w' :
  authorize_write session e must_be_enabled w = (r, w') →
  same_data w w' ∧
  match r with
  | Ok user =>
      StoragePath_is_file (ep_path e) = true ∧
      (under_root (ep_path e) PUBLIC_ROOT ∨ under_root (ep_path e) PRIVATE_ROOT) ∧
      session_grants session (ep_pubkey e) (ep_path e) Write ∧
      ∃ u, user_row (ep_pubkey e) (tables w) = Some u ∧ user = entity_of (ep_pubkey e) u ∧
           (must_be_enabled = true → u_disabled u = false)
  | Err err =>
      status err ∈ [400; 403; 404; 500] ∧
      (status err = 400 → StoragePath_is_file (ep_path e) = false) ∧
      (status err = 404 → user_row (ep_pubkey e) (tables w) = None)
  end.
Proof.
  intros [Hs Hr]%authorize_write_inv. split; [done|]. destruct r as [user|err].
  - destruct Hr as (Hf & Hp & Hu). apply has_write_permission_spec in Hp as [? ?]. done.
  - destruct Hr as [[-> ?]|[->|[[-> ?]| ->]]]; split_and!; done || in_list.
Qed.

End AuthorizeWrite.

(** A cookie session of the first demonstration user for [/pub/app/]. *)
Definition demo_session : AuthSession :=
  CookieSession (H := demo_keys) (mk_SessionEntity 1 [] 1 true
    [mk_Capability (mk_StoragePath (lit "/pub/app/")) [Read; Write]] 0).

Definition demo_entry_path : EntryPath := EntryPath_new (H := demo_keys) true sample_path.

Lemma permission_spec_witness :
  has_write_permission demo_session true sample_path = Ok () ∧
  has_read_permission (H := demo_keys) None (Some true) (mk_StoragePath (lit "/priv/x"))
  = Err (HttpError_unauthorized_with_message (lit "Authentication required to read private storage")) ∧
  session_grants demo_session true sample_path Write.
Proof.
  split_and!; [vm_compute; reflexivity..|].
  apply (permission_spec (H := demo_keys) demo_session None true None sample_path).
  vm_compute. reflexivity.
Defined.

Lemma authorize_write_gate_witness :
  ∃ user w', authorize_write demo_session demo_entry_path true (demo_world []) = (Ok user, w') ∧
  ue_id user = 1.
Proof.
  eexists _, _. split; [vm_compute; reflexivity|].
  destruct (authorize_write_gate (H := demo_keys) demo_session demo_entry_path true
    (demo_world []) _ _ ltac:(vm_compute; reflexivity)) as (_ & _ & _ & _ & u & Hu & -> & _).
  vm_compute in Hu. injection Hu as <-. vm_compute. reflexivity.
Defined.
