(* ===== verification/GrantTokens.v ===== *)
(** Tokens of grant authentication: identifiers, claims and the payload decoder
    of [pubky-common/src/auth/{jws,grant,pop}.rs], and the verifiers of
    [client_server/auth/grant/crypto/] and [client_server/auth/grant/bearer.rs].

    Base64, JSON, JSON web tokens, SHA-256 and calendar dates belong to crates:
    they are the operations of the classes [Jws], [Sha256] and [Calendar]. *)

From S2P Require Import Prelude StoragePath Capabilities Keys.

(** * Identifiers *)

(** The message of [Error::InvalidFormat] is kept; that of a JSON error is not. *)
Inductive JwsError :=
| JwsInvalidFormat (message : str)
| JwsJsonParse.

Definition RANDOM_ID_MAX_LENGTH : Z := 22.
Definition CLIENT_ID_MAX_LENGTH : Z := 253.

Definition is_base64url (byte : Z) : bool :=
  is_ascii_digit byte || ((65 <=? byte) && (byte <=? 90)) || ((97 <=? byte) && (byte <=? 122))
  || (byte =? 45) || (byte =? 95).

(** The newtype [RandomId(String)], also [GrantId] and [PopNonce]. *)
Definition RandomId_parse (s : str) : result JwsError str :=
  if decide (s = []) then Err (JwsInvalidFormat (lit "RandomId must not be empty"))
  else if RANDOM_ID_MAX_LENGTH <? str_len s then
    Err (JwsInvalidFormat (lit "RandomId must be at most 22 characters"))
  else if negb (forallb is_base64url s) then
    Err (JwsInvalidFormat (lit "RandomId must contain only base64url characters"))
  else Ok s.

(** The newtype [ClientId(String)]. *)
Definition ClientId_new (s : str) : result JwsError str :=
  if decide (s = []) then Err (JwsInvalidFormat (lit "ClientId must not be empty"))
  else if CLIENT_ID_MAX_LENGTH <? str_len s then
    Err (JwsInvalidFormat (lit "ClientId must be at most 253 characters"))
  else Ok s.

(** * Claims *)

(** [str::splitn]. *)
Fixpoint splitn (n : nat) (c : Z) (s : str) : list str :=
  match n with
  | O => []
  | S O => [s]
  | S n => match split_once c s with Some (a, b) => a :: splitn n c b | None => [s] end
  end.

Definition DOT : Z := 46.

(** The JSON objects as [serde_json] hands their fields to the field types. *)
Record GrantJson := mk_GrantJson {
  j_iss : str;
  j_client_id : str;
  j_caps : list str;
  j_cnf : str;
  j_jti : str;
  j_iat : Z;
  j_exp : Z
}.

Record PopJson := mk_PopJson {
  j_aud : str;
  j_gid : str;
  j_nonce : str;
  j_pop_iat : Z
}.

Section Claims.
Context `{PkarrKeys}.

Record GrantClaims := mk_GrantClaims {
  iss : PublicKey;
  client_id : str;
  caps : list Capability;
  cnf : PublicKey;
  jti : str;
  iat : Z;
  exp : Z
}.

Record PopProofClaims := mk_PopProofClaims {
  aud : PublicKey;
  gid : str;
  nonce : str;
  pop_iat : Z
}.

Definition U64_in_range (n : Z) : bool := (0 <=? n) && (n <=? U64_MAX).

(** The derived [Deserialize]: each field through its own type. *)
Definition GrantClaims_deserialize (j : GrantJson) : option GrantClaims :=
  iss ← ok (PublicKey_try_from_z32 (j_iss j));
  client_id ← ok (ClientId_new (j_client_id j));
  caps ← ok (collect_results (map Capability_from_str (j_caps j)));
  cnf ← ok (PublicKey_try_from_z32 (j_cnf j));
  jti ← ok (RandomId_parse (j_jti j));
  if U64_in_range (j_iat j) && U64_in_range (j_exp j)
  then Some (mk_GrantClaims iss client_id caps cnf jti (j_iat j) (j_exp j)) else None.

Definition PopProofClaims_deserialize (j : PopJson) : option PopProofClaims :=
  aud ← ok (PublicKey_try_from_z32 (j_aud j));
  gid ← ok (RandomId_parse (j_gid j));
  nonce ← ok (RandomId_parse (j_nonce j));
  if U64_in_range (j_pop_iat j) then Some (mk_PopProofClaims aud gid nonce (j_pop_iat j)) else None.

End Claims.

(** * The crates *)

(** [base64], [serde_json] and [jsonwebtoken]. *)
Class Jws `{PkarrKeys} := {
  (** [URL_SAFE_NO_PAD.decode]. *)
  base64url_decode : str → option (list Z);
  (** [serde_json::from_slice], up to the field types. *)
  json_grant : list Z → option GrantJson;
  json_pop : list Z → option PopJson;
  (** The payload of a token [jsonwebtoken::decode] accepts under a key with
      [eddsa_validation]. *)
  jwt_decode : str → PublicKey → option (list Z);
  (** [jsonwebtoken::decode_header], its [typ]. *)
  jwt_typ : str → option (option str)
}.

(** [sha2::Sha256]. *)
Class Sha256 := { sha256 : str → list Z }.

(** A digest has 32 bytes. *)
Class Sha256Laws `{Sha256} := { sha256_len s : length (sha256 s) = 32%nat }.

(** [chrono::DateTime::from_timestamp] is defined on part of the integers. *)
Class Calendar := { from_timestamp : Z → bool }.

Section Tokens.
Context `{Jws, Sha256, Calendar}.

Definition decode_jws_payload {T} (from_slice : list Z → option T) (compact : str) : result JwsError T :=
  match splitn 3 DOT compact with
  | [_; payload; _] =>
      payload_bytes ← ok_or (base64url_decode payload)
                        (JwsInvalidFormat (lit "invalid base64url in JWS payload"));
      ok_or (from_slice payload_bytes) JwsJsonParse
  | _ => Err (JwsInvalidFormat (lit "JWS compact must have 3 dot-separated parts"))
  end.

(** [Deserialize] of the claims from bytes. *)
Definition grant_from_slice (bytes : list Z) : option GrantClaims := json_grant bytes ≫= GrantClaims_deserialize.
Definition pop_from_slice (bytes : list Z) : option PopProofClaims := json_pop bytes ≫= PopProofClaims_deserialize.

Definition GrantClaims_decode (compact : str) : result JwsError GrantClaims :=
  decode_jws_payload grant_from_slice compact.

(** [JwsCompact(String)]; [None] is [JwsCompactError]. *)
Definition JwsCompact_parse (s : str) : option str :=
  if bool_decide (length (splitn 4 DOT s) = 3%nat) then Some s else None.

(** * Grants *)

Inductive GrantVerifierError :=
| GrantInvalidFormat
| GrantInvalidHeaderType
| GrantInvalidSignature
| GrantTokenExpired.

Definition GRANT_JWS_TYP : str := lit "pubky-grant".
Definition POP_JWS_TYP : str := lit "pubky-pop".

Definition extract_issuer_key (compact : str) : result GrantVerifierError PublicKey :=
  raw ← map_err (λ _, GrantInvalidFormat) (GrantClaims_decode compact);
  Ok (iss raw).

Definition grant_verify_signature (compact : str) (issuer_key : PublicKey)
    : result GrantVerifierError GrantClaims :=
  ok_or (jwt_decode compact issuer_key ≫= grant_from_slice) GrantInvalidSignature.

Definition grant_check_header_type (compact : str) : result GrantVerifierError () :=
  typ ← ok_or (jwt_typ compact) GrantInvalidFormat;
  if bool_decide (typ = Some GRANT_JWS_TYP) then Ok () else Err GrantInvalidHeaderType.

(** [now] is [Utc::now().timestamp()]. *)
Definition check_expiry (now : Z) (raw : GrantClaims) : result GrantVerifierError () :=
  if exp raw <=? as_u64 now then Err GrantTokenExpired else Ok ().

Definition verify_grant_for_revocation (compact : str) : result GrantVerifierError GrantClaims :=
  issuer_key ← extract_issuer_key compact;
  claims ← grant_verify_signature compact issuer_key;
  _ ← grant_check_header_type compact;
  Ok claims.

Definition verify_grant (now : Z) (compact : str) : result GrantVerifierError GrantClaims :=
  claims ← verify_grant_for_revocation compact;
  _ ← check_expiry now claims;
  Ok claims.

(** * Proofs of possession *)

Definition POP_MAX_AGE_SECS : Z := 180.
Definition POP_NONCE_GC_THRESHOLD_SECS : Z := 2 * POP_MAX_AGE_SECS.

Inductive PopVerifierError :=
| PopInvalidFormat
| PopInvalidHeaderType
| PopInvalidSignature
| AudienceMismatch
| GrantIdMismatch
| TimestampOutOfRange
| InvalidTimestamp.

Record PopProof := mk_PopProof {
  pp_grant_id : str;
  pp_nonce : str;
  pp_issued_at : Z
}.

Record PopVerificationContext := mk_PopVerificationContext {
  cnf_key : PublicKey;
  expected_audience : str;
  expected_grant_id : str
}.

Definition pop_verify_signature (compact : str) (key : PublicKey) : result PopVerifierError PopProofClaims :=
  ok_or (jwt_decode compact key ≫= pop_from_slice) PopInvalidSignature.

Definition pop_check_header_type (compact : str) : result PopVerifierError () :=
  typ ← ok_or (jwt_typ compact) PopInvalidFormat;
  if bool_decide (typ = Some POP_JWS_TYP) then Ok () else Err PopInvalidHeaderType.

Definition check_audience (raw : PopProofClaims) (expected : str) : result PopVerifierError () :=
  if bool_decide (PublicKey_z32 (aud raw) = expected) then Ok () else Err AudienceMismatch.

Definition check_grant_binding (raw : PopProofClaims) (expected : str) : result PopVerifierError () :=
  if bool_decide (gid raw = expected) then Ok () else Err GrantIdMismatch.

Definition check_timestamp (now : Z) (raw : PopProofClaims) : result PopVerifierError () :=
  if POP_MAX_AGE_SECS <? Z.abs (as_u64 now - pop_iat raw) then Err TimestampOutOfRange else Ok ().

Definition parse_verified_pop (raw : PopProofClaims) : result PopVerifierError PopProof :=
  if from_timestamp (as_i64 (pop_iat raw)) then Ok (mk_PopProof (gid raw) (nonce raw) (as_i64 (pop_iat raw)))
  else Err InvalidTimestamp.

Definition PopProof_verify (now : Z) (compact : str) (context : PopVerificationContext)
    : result PopVerifierError PopProof :=
  raw ← pop_verify_signature compact (cnf_key context);
  _ ← pop_check_header_type compact;
  _ ← check_audience raw (expected_audience context);
  _ ← check_grant_binding raw (expected_grant_id context);
  _ ← check_timestamp now raw;
  parse_verified_pop raw.

(** * Bearers *)

Definition BEARER_WIRE_LEN : Z := 43.

(** The newtype [SessionBearer(String)]; the only error is the length. *)
Definition SessionBearer_parse (raw : str) : option str :=
  if bool_decide (str_len raw = BEARER_WIRE_LEN) then Some raw else None.

(** The newtype [SessionTokenHash([u8; 32])]. *)
Definition SessionBearer_hash (bearer : str) : list Z := sha256 bearer.

Definition SessionTokenHash_try_from (bytes : list Z) : option (list Z) :=
  if bool_decide (length bytes = 32%nat) then Some bytes else None.

Inductive BearerTokenExtraction :=
| BearerPresent (bearer : str)
| InvalidBearer
| NonBearer
| BearerMissing.

Definition has_bearer_scheme (e : BearerTokenExtraction) : bool :=
  match e with BearerPresent _ | InvalidBearer => true | _ => false end.

(** The argument is the bytes of the [Authorization] header. *)
Definition extract_bearer_token (authorization : option (list Z)) : BearerTokenExtraction :=
  match authorization with
  | None => BearerMissing
  | Some value =>
      match strip_prefix value (lit "Bearer ") with
      | None => NonBearer
      | Some raw_token =>
          match from_utf8 raw_token with
          | None => InvalidBearer
          | Some raw_token =>
              match SessionBearer_parse raw_token with
              | Some bearer => BearerPresent bearer
              | None => InvalidBearer
              end
          end
      end
  end.

End Tokens.

(** [jsonwebtoken::decode] returns the payload of the token it is given, the
    one an unverified read of the token sees. *)
Class JwsLaws `{Jws} := {
  jwt_decode_payload compact key payload :
    JwsCompact_parse compact = Some compact → jwt_decode compact key = Some payload →
    decode_jws_payload Some compact = Ok payload
}.

Lemma decode_jws_payload_map `{Jws} {T} (f : list Z → option T) compact payload :
  decode_jws_payload Some compact = Ok payload →
  decode_jws_payload f compact = ok_or (f payload) JwsJsonParse.
Proof.
  unfold decode_jws_payload. destruct (splitn 3 DOT compact) as [|a [|b [|c []]]]; try done.
  destruct (base64url_decode b); cbn; [|done]. by intros [= <-].
Qed.

(** * A small instance *)

Definition demo_grant_json (cap : str) (expires : Z) : GrantJson :=
  mk_GrantJson (demo_z32 true) (lit "app.example") [cap] (demo_z32 false) (lit "grant-1") 900 expires.
Definition demo_pop_json (nonce : str) : PopJson :=
  mk_PopJson (demo_z32 false) (lit "grant-1") nonce 1000.

Definition demo_signature (k : bool) : str := if k then lit "u" else lit "c".

(** A token is [header.payload.signature] in clear, signed by [u]ser or [c]lient. *)
#[export] Instance demo_jws : @Jws demo_keys := {|
  base64url_decode s := Some s;
  json_grant p := if bool_decide (p = lit "grant") then Some (demo_grant_json (lit "/pub/:rw") 9000)
                  else if bool_decide (p = lit "root") then Some (demo_grant_json (lit "/:rw") 9000)
                  else None;
  json_pop p := Some (demo_pop_json p);
  jwt_decode c k :=
    match splitn 3 DOT c with
    | [_; p; s] => if bool_decide (s = demo_signature k) then Some p else None
    | _ => None
    end;
  jwt_typ c := Some (Some (if starts_with c (lit "g") then GRANT_JWS_TYP else POP_JWS_TYP))
|}.
#[export] Instance demo_jws_laws : JwsLaws.
Proof.
  split. intros c k p _. unfold decode_jws_payload. cbn [jwt_decode base64url_decode demo_jws].
  destruct (splitn 3 DOT c) as [|a [|b [|d []]]]; try done. case_bool_decide; [|done]. by intros [= <-].
Qed.

#[export] Instance demo_sha256 : Sha256 := {| sha256 s := take 32 (s ++ repeat 0 32) |}.
#[export] Instance demo_sha256_laws : Sha256Laws.
Proof. split. intros s. cbn [sha256 demo_sha256]. rewrite length_take, length_app, repeat_length. lia. Qed.
#[export] Instance demo_calendar : Calendar := {| from_timestamp _ := true |}.
