(* ===== verification/Grants.v ===== *)
(** Grant authentication: the tables of grants, their bearers and proof nonces
    ([client_server/auth/grant/persistence/]), the service over them
    ([client_server/auth/grant/service.rs]), its errors and the grant routes
    ([client_server/auth/grant/{service_error,error_mapping,routes}.rs]).

    Every [Utc::now()] of the server is an argument, in seconds except for the
    nonces, whose instants are in microseconds; [random_bearer] is the bearer
    [SessionBearer::generate] returns. *)

From S2P Require Import Prelude StoragePath Capabilities HttpError Keys Quota Database Users Signup.
From S2P Require Import Authorization GrantTokens.

(** * Errors *)

Inductive GrantStatus := GrantStatusRevoked | GrantStatusExpired.

Inductive SessionIssueError :=
| IssueRevoked
| IssueExpired
| IssueDatabase (e : SqlError).

Inductive PopNonceError :=
| NonceAlreadyUsed
| NonceInternal (e : SqlError).

Inductive AuthServiceError :=
| InvalidGrant (e : GrantVerifierError)
| InvalidPopProof (e : PopVerifierError)
| UserNotFound
| AuthUserAlreadyExists
| GrantNotFound
| AuthSignupTokenRequired
| AuthInvalidSignupToken
| AuthSignupTokenAlreadyUsed
| NonceReplay
| GrantRevoked
| GrantExpired
| InvalidSignupGrant (message : str)
| SessionNotFound
| SessionExpired
| GrantOwnershipMismatch
| GrantClaimsMismatch
| RootCapabilityRequired
| AuthInternal (e : SqlError).

Definition AuthServiceError_from_status (status : GrantStatus) : AuthServiceError :=
  match status with GrantStatusRevoked => GrantRevoked | GrantStatusExpired => GrantExpired end.

Definition AuthServiceError_from_signup (error : SignupServiceError) : AuthServiceError :=
  match error with
  | UserAlreadyExists => AuthUserAlreadyExists
  | SignupTokenRequired => AuthSignupTokenRequired
  | InvalidSignupToken => AuthInvalidSignupToken
  | SignupTokenAlreadyUsed => AuthSignupTokenAlreadyUsed
  | SignupInternal e => AuthInternal e
  end.

Definition AuthServiceError_from_issue (error : SessionIssueError) : AuthServiceError :=
  match error with
  | IssueRevoked => GrantRevoked
  | IssueExpired => GrantExpired
  | IssueDatabase e => AuthInternal e
  end.

(** [Display] of the two verifier errors. *)
Definition GrantVerifierError_fmt (e : GrantVerifierError) : str :=
  match e with
  | GrantInvalidFormat => lit "invalid grant format"
  | GrantInvalidHeaderType => lit "invalid grant header type, expected pubky-grant"
  | GrantInvalidSignature => lit "invalid grant signature"
  | GrantTokenExpired => lit "grant has expired"
  end.

Definition PopVerifierError_fmt (e : PopVerifierError) : str :=
  match e with
  | PopInvalidFormat => lit "invalid PoP format"
  | PopInvalidHeaderType => lit "invalid PoP header type, expected pubky-pop"
  | PopInvalidSignature => lit "invalid PoP signature"
  | AudienceMismatch => lit "PoP audience mismatch"
  | GrantIdMismatch => lit "PoP grant ID mismatch"
  | TimestampOutOfRange => lit "PoP timestamp out of range"
  | InvalidTimestamp => lit "invalid timestamp in PoP proof"
  end.

Definition HttpError_from_auth (error : AuthServiceError) : HttpError :=
  match error with
  | InvalidGrant inner =>
      let message := lit "Invalid grant: " ++ GrantVerifierError_fmt inner in
      match inner with
      | GrantInvalidSignature | GrantTokenExpired => HttpError_unauthorized_with_message message
      | _ => HttpError_bad_request message
      end
  | InvalidPopProof inner =>
      HttpError_unauthorized_with_message (lit "Invalid PoP proof: " ++ PopVerifierError_fmt inner)
  | UserNotFound | GrantNotFound => HttpError_not_found
  | AuthUserAlreadyExists => HttpError_new_with_message 409 (lit "User already exists")
  | AuthSignupTokenRequired => HttpError_bad_request (lit "Token required")
  | AuthInvalidSignupToken => HttpError_unauthorized_with_message (lit "Invalid token")
  | AuthSignupTokenAlreadyUsed => HttpError_unauthorized_with_message (lit "Token already used")
  | NonceReplay => HttpError_unauthorized_with_message (lit "PoP nonce already used")
  | GrantRevoked => HttpError_unauthorized_with_message (lit "Grant has been revoked")
  | GrantExpired => HttpError_unauthorized_with_message (lit "Grant has expired")
  | InvalidSignupGrant message => HttpError_bad_request message
  | SessionNotFound => HttpError_unauthorized_with_message (lit "Session not found")
  | SessionExpired => HttpError_unauthorized_with_message (lit "Session has expired")
  | GrantOwnershipMismatch =>
      HttpError_forbidden_with_message (lit "Grant does not belong to authenticated user")
  | GrantClaimsMismatch =>
      HttpError_forbidden_with_message
        (lit "Grant ID is already stored for another user or with different claims")
  | RootCapabilityRequired => HttpError_forbidden_with_message (lit "Root capability required")
  | AuthInternal _ => HttpError_internal_server
  end.

Section Grants.
Context `{PkarrKeys, JsonStrings, Base32, !Jws, Sha256, Calendar}.

(** * The [grants] table *)

Record NewGrant := mk_NewGrant {
  ng_id : str;
  ng_user_id : Z;
  ng_client_id : str;
  ng_client_cnf_key : str;
  ng_capabilities : Capabilities;
  ng_issued_at : Z;
  ng_expires_at : Z
}.

Record GrantEntity := mk_GrantEntity {
  ge_id : str;
  ge_user_id : Z;
  ge_user_pubkey : PublicKey;
  ge_client_id : str;
  ge_client_cnf_key : str;
  ge_capabilities : Capabilities;
  ge_issued_at : Z;
  ge_expires_at : Z;
  ge_revoked_at : option Z;
  ge_created_at : Z
}.

Definition require_active (now_unix : Z) (self : GrantEntity) : result GrantStatus () :=
  if bool_decide (ge_revoked_at self ≠ None) then Err GrantStatusRevoked
  else if ge_expires_at self <=? now_unix then Err GrantStatusExpired
  else Ok ().

(** A row of the [LEFT JOIN] with [users]: the key is [NULL] without a user. *)
Definition grant_join (tb : Tables) (g : GrantRow) : GrantRow * option str :=
  (g, u_public_key ∘ snd <$> list_find (λ u, u_id u = g_user g) (users tb)).

(** [parse_identity_fields]. *)
Definition parse_identity_fields (row : GrantRow * option str)
    : result SqlError (str * Z * PublicKey * str * str) :=
  id ← map_err (λ _, Decode) (RandomId_parse (g_id row.1));
  user_pubkey ← ok_or row.2 Decode;
  user_pubkey ← map_err (λ _, Decode) (PublicKey_try_from_z32 user_pubkey);
  client_id ← map_err (λ _, Decode) (ClientId_new (g_client_id row.1));
  Ok (id, g_user row.1, user_pubkey, client_id, g_client_cnf_key row.1).

(** [parse_grant_metadata]. *)
Definition parse_grant_metadata (row : GrantRow)
    : result SqlError (Capabilities * Z * Z * option Z * Z) :=
  capabilities ← map_err (λ _, Decode) (Capabilities_from_str (g_capabilities row));
  Ok (capabilities, g_issued_at row, g_expires_at row, g_revoked_at row, g_created_at row).

Definition GrantEntity_from_row (row : GrantRow * option str) : result SqlError GrantEntity :=
  '(id, user_id, user_pubkey, client_id, client_cnf_key) ← parse_identity_fields row;
  '(capabilities, issued_at, expires_at, revoked_at, created_at) ← parse_grant_metadata row.1;
  Ok (mk_GrantEntity id user_id user_pubkey client_id client_cnf_key capabilities issued_at
        expires_at revoked_at created_at).

Definition has_grant (id : str) (tb : Tables) : bool :=
  existsb (λ g, bool_decide (g_id g = id)) (grants (auth tb)).

(** [INSERT .. ON CONFLICT (id) DO NOTHING], under the foreign key to [users]. *)
Definition GrantRepository_create (grant : NewGrant) : DB SqlError () :=
  exec (λ _ tx_now tb sq,
    if has_grant (ng_id grant) tb then (Ok (), tb, sq)
    else if negb (existsb (λ u, u_id u =? ng_user_id grant) (users tb)) then
      (Err ForeignKeyViolation, tb, sq)
    else
      (Ok (), set_grants (λ l, l ++ [mk_GrantRow (ng_id grant) (ng_user_id grant) (ng_client_id grant)
                 (ng_client_cnf_key grant) (Capabilities_fmt (ng_capabilities grant))
                 (as_i64 (ng_issued_at grant)) (as_i64 (ng_expires_at grant)) None tx_now]) tb, sq)).

Definition GrantRepository_get_by_id (grant_id : str) : DB SqlError GrantEntity :=
  select (λ _ tb, fetch_one GrantEntity_from_row
    (map (grant_join tb) (filter (λ g, g_id g = grant_id) (grants (auth tb))))).

Definition revoke_row (now : Z) (g : GrantRow) : GrantRow :=
  mk_GrantRow (g_id g) (g_user g) (g_client_id g) (g_client_cnf_key g) (g_capabilities g)
    (g_issued_at g) (g_expires_at g) (Some now) (g_created_at g).

(** [UPDATE .. SET revoked_at = $now WHERE id = $id], on one row. *)
Definition revoke_where (now : Z) (grant_id : str) (g : GrantRow) : GrantRow :=
  if decide (g_id g = grant_id) then revoke_row now g else g.

Definition GrantRepository_revoke (now : Z) (grant_id : str) : DB SqlError () :=
  exec (λ _ _ tb sq,
    (Ok (), set_grants (map (revoke_where now grant_id)) tb, sq)).

Definition GrantRepository_is_revoked (grant_id : str) : DB SqlError bool :=
  select (λ _ tb, fetch_one (λ g, Ok (bool_decide (g_revoked_at g ≠ None)))
    (filter (λ g, g_id g = grant_id) (grants (auth tb)))).

Definition GrantRepository_list_active_for_user (now user_id : Z) : DB SqlError (list GrantEntity) :=
  select (λ _ tb, fetch_all GrantEntity_from_row
    (map (grant_join tb)
       (filter (λ g, g_user g = user_id ∧ g_revoked_at g = None ∧ now < g_expires_at g)
          (grants (auth tb))))).

(** * The [grant_sessions] table *)

Record NewGrantSession := mk_NewGrantSession {
  ns_token_hash : list Z;
  ns_grant_id : str;
  ns_expires_at : Z
}.

Record GrantSessionEntity := mk_GrantSessionEntity {
  st_id : Z;
  st_token_hash : list Z;
  st_grant_id : str;
  st_expires_at : Z;
  st_created_at : Z
}.

Definition GrantSessionEntity_from_row (row : GrantSessionRow) : result SqlError GrantSessionEntity :=
  token_hash ← ok_or (SessionTokenHash_try_from (t_token_hash row)) Decode;
  grant_id ← map_err (λ _, Decode) (RandomId_parse (t_grant_id row));
  Ok (mk_GrantSessionEntity (t_id row) token_hash grant_id (t_expires_at row) (t_created_at row)).

(** [INSERT], under the unique key on the hash and the foreign key to [grants]. *)
Definition insert_grant_session (session : NewGrantSession) : DB SqlError () :=
  exec (λ _ tx_now tb sq,
    let sq' := mk_Seqs (seq_users sq) (seq_entries sq) (seq_events sq) (seq_sessions sq)
                 (seq_grant_sessions sq + 1) in
    if existsb (λ t, bool_decide (t_token_hash t = ns_token_hash session)) (grant_sessions (auth tb))
    then (Err UniqueViolation, tb, sq')
    else if negb (has_grant (ns_grant_id session) tb) then (Err ForeignKeyViolation, tb, sq')
    else (Ok (), set_grant_sessions (λ l, l ++ [mk_GrantSessionRow (seq_grant_sessions sq)
                   (ns_token_hash session) (ns_grant_id session) (as_i64 (ns_expires_at session)) tx_now]) tb,
          sq')).

Definition GrantSessionRepository_delete_all_for_grant (grant_id : str) : DB SqlError () :=
  exec (λ _ _ tb sq, (Ok (), set_grant_sessions (filter (λ t, t_grant_id t ≠ grant_id)) tb, sq)).

(** The transaction of [replace_for_grant]; [now] is read inside it. *)
Definition replace_for_grant_in_tx (now : Z) (session : NewGrantSession) : DB SessionIssueError () :=
  '(revoked_at, expires_at) ← db_map_err IssueDatabase (select (λ _ tb,
     fetch_one (λ g, Ok (g_revoked_at g, g_expires_at g))
       (filter (λ g, g_id g = ns_grant_id session) (grants (auth tb)))));
  if bool_decide (revoked_at ≠ None) then throw IssueRevoked
  else if expires_at <=? now then throw IssueExpired
  else
    db_map_err IssueDatabase (GrantSessionRepository_delete_all_for_grant (ns_grant_id session)) ;;
    db_map_err IssueDatabase (insert_grant_session session).

Definition GrantSessionRepository_replace_for_grant (now : Z) (session : NewGrantSession)
    : DB SessionIssueError () :=
  in_transaction IssueDatabase (replace_for_grant_in_tx now session).

Definition GrantSessionRepository_get_by_token_hash (token_hash : list Z) : DB SqlError GrantSessionEntity :=
  select (λ _ tb, fetch_one GrantSessionEntity_from_row
    (filter (λ t, t_token_hash t = token_hash) (grant_sessions (auth tb)))).

(** * The [pop_nonces] table *)

(** [INSERT .. ON CONFLICT (nonce) DO NOTHING]; [track] is the database's
    [CURRENT_TIMESTAMP] in microseconds. *)
Definition PopNonceRepository_check_and_track (track : Z) (nonce : str) : DB PopNonceError () :=
  rows_affected ← db_map_err NonceInternal (exec (λ _ _ tb sq,
    if existsb (λ n, bool_decide (n_nonce n = nonce)) (pop_nonces (auth tb)) then (Ok 0, tb, sq)
    else (Ok 1, set_pop_nonces (λ l, l ++ [mk_PopNonceRow nonce track]) tb, sq)));
  if rows_affected =? 0 then throw NonceAlreadyUsed else mret ().

(** [now] in microseconds. *)
Definition PopNonceRepository_garbage_collect (now max_age_secs : Z) : DB SqlError Z :=
  let cutoff := now - max_age_secs * 1000000 in
  exec (λ _ _ tb sq,
    (Ok (Z.of_nat (length (filter (λ n, n_created_at n < cutoff) (pop_nonces (auth tb))))),
     set_pop_nonces (filter (λ n, ¬ n_created_at n < cutoff)) tb, sq)).

(** * The service *)

Definition DEFAULT_SESSION_TOKEN_LIFETIME_SECS : Z := 3600.
Definition SIGNUP_CLIENT_ID : str := lit "pubky.signup".
Definition MAX_SIGNUP_GRANT_LIFETIME_SECS : Z := 5 * 60.

Record GrantSessionInfo := mk_GrantSessionInfo {
  gi_homeserver : PublicKey;
  gi_pubky : PublicKey;
  gi_client_id : str;
  gi_capabilities : Capabilities;
  gi_grant_id : str;
  gi_token_expires_at : Z;
  gi_grant_expires_at : Z;
  gi_created_at : Z
}.

Record GrantSessionResponse := mk_GrantSessionResponse {
  gr_token : str;
  gr_session : GrantSessionInfo
}.

(** The instants a request reads its clocks at. *)
Record Instants := mk_Instants {
  at_expiry : Z;
  at_signup : Z;
  at_pop : Z;
  at_gc : Z;
  at_track : Z;
  at_mint : Z;
  at_issue : Z;
  at_revoke : Z
}.

Definition map_not_found {A} (not_found_err : AuthServiceError) (m : DB SqlError A) : DB AuthServiceError A :=
  db_map_err (λ e, match e with RowNotFound => not_found_err | other => AuthInternal other end) m.

Definition get_grant (grant_id : str) : DB AuthServiceError GrantEntity :=
  map_not_found GrantNotFound (GrantRepository_get_by_id grant_id).

Definition find_user (grant : GrantClaims) : DB AuthServiceError UserEntity :=
  map_not_found UserNotFound (UserRepository_get (iss grant)).

Definition verify_pop_proof (homeserver : PublicKey) (now : Z) (compact : str) (grant : GrantClaims)
    : result AuthServiceError PopProof :=
  map_err InvalidPopProof
    (PopProof_verify now compact
       (mk_PopVerificationContext (cnf grant) (PublicKey_z32 homeserver) (jti grant))).

(** A failed collection is logged. *)
Definition check_nonce_replay (at_ : Instants) (nonce : str) : DB AuthServiceError () :=
  _ ← try_db (PopNonceRepository_garbage_collect (at_gc at_) POP_NONCE_GC_THRESHOLD_SECS);
  db_map_err (λ e, match e with NonceAlreadyUsed => NonceReplay | NonceInternal e => AuthInternal e end)
    (PopNonceRepository_check_and_track (at_track at_) nonce).

Definition check_grant_not_revoked (grant : GrantClaims) : DB AuthServiceError () :=
  r ← try_db (GrantRepository_is_revoked (jti grant));
  is_revoked ← match r with
               | Ok b => mret b
               | Err RowNotFound => mret false
               | Err other => throw (AuthInternal other)
               end;
  if (is_revoked : bool) then throw GrantRevoked else mret ().

Definition require_signup_client_id (grant : GrantClaims) : result AuthServiceError () :=
  if bool_decide (client_id grant = SIGNUP_CLIENT_ID) then Ok ()
  else Err (InvalidSignupGrant (lit "signup grants must use client_id pubky.signup")).

Definition require_root_capability_claim (grant : GrantClaims) : result AuthServiceError () :=
  if existsb Capability_is_root (caps grant) then Ok () else Err RootCapabilityRequired.

Definition require_short_signup_lifetime (now : Z) (grant : GrantClaims) : result AuthServiceError () :=
  if as_u64 (as_u64 now + POP_MAX_AGE_SECS) <? iat grant then
    Err (InvalidSignupGrant (lit "signup grant iat is too far in the future"))
  else if MAX_SIGNUP_GRANT_LIFETIME_SECS <? Z.max 0 (exp grant - iat grant) then
    Err (InvalidSignupGrant (lit "signup grant lifetime exceeds 5 minutes"))
  else Ok ().

Definition verify_grant_and_pop (homeserver : PublicKey) (at_ : Instants) (grant_jws pop_jws : str)
    : DB AuthServiceError GrantClaims :=
  grant ← lift_result (map_err InvalidGrant (verify_grant (at_expiry at_) grant_jws));
  check_grant_not_revoked grant ;;
  pop ← lift_result (verify_pop_proof homeserver (at_pop at_) pop_jws grant);
  check_nonce_replay at_ (pp_nonce pop) ;;
  mret grant.

Definition verify_signup_grant_and_pop (homeserver : PublicKey) (at_ : Instants) (grant_jws pop_jws : str)
    : DB AuthServiceError GrantClaims :=
  grant ← lift_result (map_err InvalidGrant (verify_grant (at_expiry at_) grant_jws));
  lift_result (require_signup_client_id grant) ;;
  lift_result (require_root_capability_claim grant) ;;
  lift_result (require_short_signup_lifetime (at_signup at_) grant) ;;
  pop ← lift_result (verify_pop_proof homeserver (at_pop at_) pop_jws grant);
  check_nonce_replay at_ (pp_nonce pop) ;;
  mret grant.

Definition new_grant (grant : GrantClaims) (user : UserEntity) : NewGrant :=
  mk_NewGrant (jti grant) (ue_id user) (client_id grant) (PublicKey_z32 (cnf grant)) (caps grant)
    (iat grant) (exp grant).

Definition store_grant (grant : GrantClaims) (user : UserEntity) : DB AuthServiceError () :=
  db_map_err AuthInternal (GrantRepository_create (new_grant grant user)).

Definition stored_grant_matches (grant : GrantClaims) (stored : GrantEntity) : bool :=
  bool_decide (ge_user_pubkey stored = iss grant)
  && bool_decide (ge_client_id stored = client_id grant)
  && bool_decide (ge_client_cnf_key stored = PublicKey_z32 (cnf grant))
  && bool_decide (ge_capabilities stored = caps grant)
  && (ge_issued_at stored =? as_i64 (iat grant))
  && (ge_expires_at stored =? as_i64 (exp grant)).

Definition require_stored_grant_matches (grant : GrantClaims) : DB AuthServiceError () :=
  stored ← get_grant (jti grant);
  if negb (stored_grant_matches grant stored) then throw GrantClaimsMismatch else mret ().

Definition mint_session (homeserver : PublicKey) (at_ : Instants) (random_bearer : str) (grant : GrantClaims)
    : DB AuthServiceError GrantSessionResponse :=
  let now := as_u64 (at_mint at_) in
  let expires_at := Z.min (as_u64 (now + DEFAULT_SESSION_TOKEN_LIFETIME_SECS)) (exp grant) in
  let token_hash := SessionBearer_hash random_bearer in
  db_map_err AuthServiceError_from_issue
    (GrantSessionRepository_replace_for_grant (at_issue at_)
       (mk_NewGrantSession token_hash (jti grant) expires_at)) ;;
  mret (mk_GrantSessionResponse random_bearer
          (mk_GrantSessionInfo homeserver (iss grant) (client_id grant) (caps grant) (jti grant)
             expires_at (exp grant) now)).

Definition create_grant_session (homeserver : PublicKey) (at_ : Instants) (random_bearer : str)
    (grant_jws pop_jws : str) : DB AuthServiceError GrantSessionResponse :=
  grant ← verify_grant_and_pop homeserver at_ grant_jws pop_jws;
  user ← find_user grant;
  store_grant grant user ;;
  require_stored_grant_matches grant ;;
  mint_session homeserver at_ random_bearer grant.

(** The quota cache is threaded beside the database; [cached_at] is the
    monotonic clock of the cache. *)
Definition signup_grant_account (homeserver : PublicKey) (at_ : Instants) (cached_at : Z) (mode : SignupMode)
    (grant_jws pop_jws : str) (signup_token : option str) (c : list (PublicKey * CachedEntry)) (w : World)
    : result AuthServiceError () * list (PublicKey * CachedEntry) * World :=
  let body :=
    grant ← verify_signup_grant_and_pop homeserver at_ grant_jws pop_jws;
    in_transaction AuthInternal
      (db_map_err AuthServiceError_from_signup (create_user_in_tx mode (iss grant) signup_token)) in
  match body w with
  | (Ok user, w) => (Ok (), cache_user_quota cached_at user c, w)
  | (Err e, w) => (Err e, c, w)
  end.

(** [pg_notify]: the notification commits with the transaction. *)
Definition notify_in_transaction (self : AuthRevocation) : DB SqlError () :=
  exec (λ _ _ tb sq, (Ok (), set_notifications (λ l, l ++ [self]) tb, sq)).

Definition service_revoke_grant (now : Z) (grant_id : str) : DB AuthServiceError () :=
  in_transaction AuthInternal (
    db_map_err AuthInternal (GrantRepository_revoke now grant_id) ;;
    db_map_err AuthInternal (GrantSessionRepository_delete_all_for_grant grant_id) ;;
    db_map_err AuthInternal (notify_in_transaction (RevokedGrant grant_id))).

Definition signout_with_proof (homeserver : PublicKey) (at_ : Instants) (grant_jws pop_jws : str)
    : DB AuthServiceError () :=
  grant ← lift_result (map_err InvalidGrant (verify_grant_for_revocation grant_jws));
  pop ← lift_result (verify_pop_proof homeserver (at_pop at_) pop_jws grant);
  check_nonce_replay at_ (pp_nonce pop) ;;
  stored ← get_grant (jti grant);
  if negb (bool_decide (ge_user_pubkey stored = iss grant))
     || negb (bool_decide (ge_client_cnf_key stored = PublicKey_z32 (cnf grant)))
  then throw GrantOwnershipMismatch
  else service_revoke_grant (at_revoke at_) (jti grant).

Definition resolve_user_id (auth : AuthSession) : DB AuthServiceError Z :=
  match auth with
  | BearerSession b => grant ← get_grant (gs_grant_id b); mret (ge_user_id grant)
  | CookieSession c => mret (se_user_id c)
  end.

Definition revoke_user_grant (now : Z) (grant_id : str) (auth : AuthSession) : DB AuthServiceError () :=
  user_id ← resolve_user_id auth;
  grant ← get_grant grant_id;
  if negb (ge_user_id grant =? user_id) then throw GrantOwnershipMismatch
  else service_revoke_grant now grant_id.

Definition list_active_grants (now user_id : Z) : DB AuthServiceError (list GrantEntity) :=
  db_map_err AuthInternal (GrantRepository_list_active_for_user now user_id).

Definition get_grant_session_info (homeserver : PublicKey) (session : GrantSession)
    : DB AuthServiceError GrantSessionInfo :=
  grant ← get_grant (gs_grant_id session);
  mret (mk_GrantSessionInfo homeserver (gs_user_key session) (ge_client_id grant)
          (gs_capabilities session) (gs_grant_id session) (gs_token_expires_at session)
          (as_u64 (ge_expires_at grant)) (as_u64 (ge_created_at grant))).

Definition signout_grant_session (now : Z) (session : GrantSession) : DB AuthServiceError () :=
  service_revoke_grant now (gs_grant_id session).

Definition validate_active_grant_session_entity (now : Z) (session : GrantSessionEntity)
    : DB AuthServiceError GrantEntity :=
  if st_expires_at session <=? now then throw SessionExpired
  else
    grant ← get_grant (st_grant_id session);
    lift_result (map_err AuthServiceError_from_status (require_active now grant)) ;;
    mret grant.

Definition resolve_grant_session_by_bearer (now : Z) (bearer : str) : DB AuthServiceError GrantSession :=
  let hash := SessionBearer_hash bearer in
  session ← map_not_found SessionNotFound (GrantSessionRepository_get_by_token_hash hash);
  grant ← validate_active_grant_session_entity now session;
  mret (mk_GrantSession (ge_user_pubkey grant) (ge_capabilities grant) (st_grant_id session)
          (as_u64 (st_expires_at session)) (st_token_hash session)).

Definition validate_active_grant_session (now : Z) (session : GrantSession) : DB AuthServiceError GrantEntity :=
  persisted ← map_not_found SessionNotFound
                (GrantSessionRepository_get_by_token_hash (gs_token_hash session));
  if negb (bool_decide (st_grant_id persisted = gs_grant_id session)) then throw SessionNotFound
  else validate_active_grant_session_entity now persisted.

Definition require_root_capability (auth : AuthSession) : result AuthServiceError () :=
  if existsb Capability_is_root (AuthSession_capabilities auth) then Ok ()
  else Err RootCapabilityRequired.

(** * The routes *)

Record GrantInfo := mk_GrantInfo {
  gf_grant_id : str;
  gf_client_id : str;
  gf_capabilities : str;
  gf_issued_at : Z;
  gf_expires_at : Z
}.

Definition grant_info_from_entity (g : GrantEntity) : GrantInfo :=
  mk_GrantInfo (ge_id g) (ge_client_id g) (Capabilities_fmt (ge_capabilities g))
    (as_u64 (ge_issued_at g)) (as_u64 (ge_expires_at g)).

(** [parse_signup_token] of both signup routes; the wording of the [anyhow]
    error is not modelled. *)
Definition parse_signup_token (token : option str) : HttpResult (option str) :=
  match token with
  | None => Ok None
  | Some token =>
      match SignupCode_new token with
      | Some code => Ok (Some code)
      | None => Err (mk_HttpError 400 None None)
      end
  end.

Definition create_grant_session_route (homeserver : PublicKey) (at_ : Instants) (random_bearer : str)
    (grant_jws pop_jws : str) : DB HttpError GrantSessionResponse :=
  db_map_err HttpError_from_auth (create_grant_session homeserver at_ random_bearer grant_jws pop_jws).

Definition grant_signup_route (homeserver : PublicKey) (at_ : Instants) (cached_at : Z) (mode : SignupMode)
    (signup_token : option str) (grant_jws pop_jws : str) (c : list (PublicKey * CachedEntry)) (w : World)
    : result HttpError () * list (PublicKey * CachedEntry) * World :=
  match parse_signup_token signup_token with
  | Err e => (Err e, c, w)
  | Ok token =>
      let '(r, c, w) := signup_grant_account homeserver at_ cached_at mode grant_jws pop_jws token c w in
      (map_err HttpError_from_auth r, c, w)
  end.

Definition get_grant_session_route (homeserver : PublicKey) (auth : AuthSession)
    : DB HttpError GrantSessionInfo :=
  match auth with
  | BearerSession session => db_map_err HttpError_from_auth (get_grant_session_info homeserver session)
  | CookieSession _ => throw HttpError_unauthorized
  end.

Definition grant_signout_route (homeserver : PublicKey) (at_ : Instants) (auth : option AuthSession)
    (proof : option (str * str)) : DB HttpError () :=
  match proof, auth with
  | Some (grant_jws, pop_jws), _ =>
      db_map_err HttpError_from_auth (signout_with_proof homeserver at_ grant_jws pop_jws)
  | None, Some (BearerSession session) =>
      db_map_err HttpError_from_auth (signout_grant_session (at_revoke at_) session)
  | None, _ => mret ()
  end.

Definition list_grants_route (now : Z) (auth : AuthSession) : DB HttpError (list GrantInfo) :=
  db_map_err HttpError_from_auth (
    lift_result (require_root_capability auth) ;;
    user_id ← resolve_user_id auth;
    grants ← list_active_grants now user_id;
    mret (map grant_info_from_entity grants)).

Definition revoke_grant_route (now : Z) (auth : AuthSession) (grant_id : str) : DB HttpError () :=
  db_map_err HttpError_from_auth (lift_result (require_root_capability auth)) ;;
  grant_id ← lift_result (map_err (λ _, HttpError_new_with_message 400 (lit "Invalid grant ID format"))
                            (RandomId_parse grant_id));
  db_map_err HttpError_from_auth (revoke_user_grant now grant_id auth).

End Grants.
