(* ===== verification/GrantProofs.v ===== *)
(** Grant authentication: the invariant of its tables and revocation. *)

From stdpp Require Import relations.
From S2P Require Import Prelude StoragePath Capabilities HttpError Keys Quota Database Users Signup.
From S2P Require Import Authorization GrantTokens Grants.

(** Breaks a program into its statements. *)
Ltac keeps_steps :=
  repeat first
    [ solve [eauto 2 with keeps] | apply keeps_ret | apply keeps_throw | apply keeps_lift
    | apply keeps_select | apply keeps_map_err | apply keeps_try
    | apply keeps_transaction | apply keeps_bind; [|intros ?] | case_match ].

Section GrantInvariant.
Context `{PkarrKeysLaws, JsonStrings, Base32, !Jws, Sha256, Calendar}.

(** The invariant of the tables: a grant has one row and at most one bearer,
    bearers have distinct hashes, and a bearer's grant is stored and not
    revoked. *)
Definition grants_inv (tb : Tables) : Prop :=
  NoDup (map g_id (grants (auth tb))) ∧
  NoDup (map t_token_hash (grant_sessions (auth tb))) ∧
  NoDup (map t_grant_id (grant_sessions (auth tb))) ∧
  ∀ t, t ∈ grant_sessions (auth tb) →
    ∃ g, g ∈ grants (auth tb) ∧ g_id g = t_grant_id t ∧ g_revoked_at g = None.

Definition is_revoked (id : str) (tb : Tables) : Prop :=
  ∃ g, g ∈ grants (auth tb) ∧ g_id g = id ∧ g_revoked_at g ≠ None.

(** What time may do: the invariant stays, and so does every revocation; a new
    revocation is announced. *)
Definition grants_later (tb tb' : Tables) : Prop :=
  (grants_inv tb → grants_inv tb') ∧ (∀ id, is_revoked id tb → is_revoked id tb') ∧
  ∃ new, notifications (auth tb') = notifications (auth tb) ++ new ∧
    ∀ id, is_revoked id tb' → is_revoked id tb ∨ RevokedGrant id ∈ new.

#[export] Instance grants_later_preorder : PreOrder grants_later.
Proof.
  split.
  - intros tb. split_and!; [done..|]. exists []. rewrite app_nil_r. split; [done|]. auto.
  - intros a b c (? & ? & n & En & Hn) (? & ? & m & Em & Hm). split_and!; [auto..|].
    exists (n ++ m). split; [by rewrite Em, En, app_assoc|]. intros id Hr. rewrite elem_of_app.
    destruct (Hm id Hr) as [[|]%Hn|]; auto.
Qed.

(** Other activity: both tables are left alone; notifications of other
    revocations may be added. *)
Definition same_grants (tb tb' : Tables) : Prop :=
  grants (auth tb') = grants (auth tb) ∧ grant_sessions (auth tb') = grant_sessions (auth tb) ∧
  ∃ new, notifications (auth tb') = notifications (auth tb) ++ new.

Lemma same_grants_later tb tb' : same_grants tb tb' → grants_later tb tb'.
Proof.
  unfold grants_later, grants_inv, is_revoked. intros (-> & -> & new & ->). split_and!; [done..|].
  exists new. auto.
Qed.

Lemma same_grants_quiet tb tb' :
  grants (auth tb') = grants (auth tb) → grant_sessions (auth tb') = grant_sessions (auth tb) →
  notifications (auth tb') = notifications (auth tb) → same_grants tb tb'.
Proof. intros ? ? ?. split_and!; [done..|]. exists []. by rewrite app_nil_r. Qed.

(** Statements on other tables. *)
Lemma keeps_elsewhere {A} (f : Stmt A) :
  (∀ now tx_now tb sq, same_grants tb (f now tx_now tb sq).1.2) → keeps grants_later (exec f).
Proof. intros Hf. apply keeps_exec. intros. apply same_grants_later, Hf. Qed.

Lemma has_grant_spec id tb : has_grant id tb = true ↔ id ∈ map g_id (grants (auth tb)).
Proof.
  unfold has_grant. rewrite existsb_exists. setoid_rewrite bool_decide_eq_true.
  setoid_rewrite <-list_elem_of_In. rewrite list_elem_of_fmap. naive_solver.
Qed.

Lemma keeps_create_grant ng : keeps grants_later (GrantRepository_create ng).
Proof.
  apply keeps_exec. intros now tx_now tb sq.
  destruct (has_grant _ tb) eqn:Hg; [done|]. case_match; [done|]. cbn. split_and!.
  - intros (HN & Hh & Hi & Hs). split_and!; cbn; [|done..|].
    + rewrite map_app. apply NoDup_app. split_and!; [done| |apply NoDup_singleton].
      intros x Hx ->%list_elem_of_singleton. cbn in Hx. apply has_grant_spec in Hx. congruence.
    + intros t Ht. destruct (Hs t Ht) as (g & ? & ?). exists g. split; [|done]. apply elem_of_app. by left.
  - intros id (g & ? & ?). exists g. split; [|done]. apply elem_of_app. by left.
  - exists []. split; [by rewrite app_nil_r|]. cbn.
    intros id (g & [Hin|Hg0%list_elem_of_singleton]%elem_of_app & Hid & Hrev); [left; by exists g|].
    by subst.
Qed.

(** Revoking, deleting the bearers and announcing it, as one change. *)
Definition revoked_tables (now : Z) (id : str) (tb : Tables) : Tables :=
  set_notifications (λ l, l ++ [RevokedGrant id])
    (set_grant_sessions (filter (λ t, t_grant_id t ≠ id))
       (set_grants (map (revoke_where now id)) tb)).

Lemma revoked_tables_later now id tb : grants_later tb (revoked_tables now id tb).
Proof.
  split_and!.
  - intros (HN & Hh & Hi & Hs). split_and!; cbn.
    + rewrite map_map. rewrite (map_ext _ g_id); [done|]. intros g. unfold revoke_where. by case_decide.
    + by apply sublist_map_filter_NoDup.
    + by apply sublist_map_filter_NoDup.
    + intros t [Ht Hin]%list_elem_of_filter. destruct (Hs t Hin) as (g & Hg & Hgt & Hr).
      exists g. split; [|done]. apply list_elem_of_fmap. exists g. split; [|done].
      unfold revoke_where. by rewrite decide_False by congruence.
  - intros id' (g & Hg & <- & Hr). cbn.
    exists (revoke_where now id g). split_and!; [by apply list_elem_of_fmap_2| |];
      unfold revoke_where; by case_decide.
  - exists [RevokedGrant id]. split; [done|]. cbn. intros id' (g & Hg & <- & Hr).
    apply list_elem_of_fmap in Hg as (g0 & -> & Hg0). unfold revoke_where in *. case_decide as E.
    + right. apply list_elem_of_singleton. by rewrite <-E.
    + left. by exists g0.
Qed.

Lemma revoked_tables_revoked now id tb :
  has_grant id tb = true → is_revoked id (revoked_tables now id tb).
Proof.
  intros (g & -> & Hg)%has_grant_spec%list_elem_of_fmap. exists (revoke_row now g). cbn.
  split_and!; [|done..]. apply list_elem_of_fmap. exists g. split; [|done].
  unfold revoke_where. by rewrite decide_True.
Qed.

Lemma exec_Ok {A} (f : Stmt A) w a w' :
  exec f w = (Ok a, w') →
  f (clock w') (default (clock w') (tx_time w)) (tables w) (seqs w) = (Ok a, tables w', seqs w').
Proof. intros (_ & _ & [(? & _)|(r0 & E & [<-|?])])%exec_inv; [done|done|done]. Qed.

Lemma revoke_body_ok now id w w' :
  (db_map_err AuthInternal (GrantRepository_revoke now id) ;;
   db_map_err AuthInternal (GrantSessionRepository_delete_all_for_grant id) ;;
   db_map_err AuthInternal (notify_in_transaction (RevokedGrant id))) w = (Ok (), w') →
  tables w' = revoked_tables now id (tables w).
Proof.
  intros Hr. apply db_bind_Ok in Hr as ([] & w1 & Ha & Hr). apply db_bind_Ok in Hr as ([] & w2 & Hb & Hr).
  apply db_map_err_Ok, exec_Ok in Ha, Hb, Hr.
  injection Ha as Ha _. injection Hb as Hb _. injection Hr as Hr _. by rewrite <-Hr, <-Hb, <-Ha.
Qed.

Lemma keeps_revoke now id : keeps grants_later (service_revoke_grant now id).
Proof.
  apply keeps_transaction_ok; [apply _|]. intros w [] w' ->%revoke_body_ok. apply revoked_tables_later.
Qed.

(** Replacing the bearer of an active grant. *)
Definition reissued_tables (row : GrantSessionRow) (tb : Tables) : Tables :=
  set_grant_sessions (λ l, filter (λ t, t_grant_id t ≠ t_grant_id row) l ++ [row]) tb.

Lemma replace_body_ok now ns w w' :
  replace_for_grant_in_tx now ns w = (Ok (), w') →
  ∃ g cs row, filter (λ g, g_id g = ns_grant_id ns) (grants (auth (tables w))) = g :: cs ∧
    g_revoked_at g = None ∧ now < g_expires_at g ∧
    t_token_hash row = ns_token_hash ns ∧ t_grant_id row = ns_grant_id ns ∧
    t_expires_at row = as_i64 (ns_expires_at ns) ∧
    ns_token_hash ns
      ∉ map t_token_hash (filter (λ t, t_grant_id t ≠ ns_grant_id ns) (grant_sessions (auth (tables w)))) ∧
    tables w' = reissued_tables row (tables w).
Proof.
  intros Hr. apply db_bind_Ok in Hr as ([rev ex] & w1 & Hg & Hr).
  apply db_map_err_Ok, select_inv in Hg as [(Ht & _) [?|Hg]]; [done|].
  destruct (filter (λ g, g_id g = _) _) as [|g cs] eqn:Ef; [done|]. injection Hg as -> ->.
  case_bool_decide as Hrev; [done|].
  destruct (Z.leb_spec (g_expires_at g) now); [done|].
  apply db_bind_Ok in Hr as ([] & w2 & Hd & Hr). apply db_map_err_Ok, exec_Ok in Hd, Hr.
  injection Hd as Hd Hs. rewrite Ht in Hd.
  destruct (existsb _ _) eqn:Eh in Hr; [done|]. destruct (negb _) in Hr; [done|]. injection Hr as Hr _.
  match type of Hr with set_grant_sessions (λ l, l ++ [?row]) _ = _ => exists g, cs, row end.
  split_and!; [done..| |by rewrite <-Hr, <-Hd].
  intros (t & Hh & Hin)%list_elem_of_fmap. apply not_true_iff_false in Eh. apply Eh, existsb_exists.
  exists t. rewrite <-list_elem_of_In, <-Hd. cbn. split; [done|]. by apply bool_decide_eq_true.
Qed.

Lemma filter_head {A} (P : A → Prop) `{∀ x, Decision (P x)} l x xs :
  filter P l = x :: xs → x ∈ l ∧ P x.
Proof.
  intros E. assert (x ∈ filter P l) as [? ?]%list_elem_of_filter by (rewrite E; left). done.
Qed.

Lemma keeps_replace now ns : keeps grants_later (GrantSessionRepository_replace_for_grant now ns).
Proof.
  apply keeps_transaction_ok; [apply _|].
  intros w [] w' (g & cs & row & [Hg Hid]%filter_head & Hrev & _ & Hh & Hgid & _ & Hfresh & ->)%replace_body_ok.
  split_and!; [|done|exists []; rewrite app_nil_r; auto]. intros (HN & Hhs & Hgs & Hs).
  unfold reissued_tables. rewrite Hgid.
  split_and!; [done| | |].
  - cbn. rewrite map_app. apply NoDup_app. split_and!; [by apply sublist_map_filter_NoDup| |apply NoDup_singleton].
    intros x Hx ->%list_elem_of_singleton. by rewrite Hh in Hx.
  - cbn. rewrite map_app. apply NoDup_app. split_and!; [by apply sublist_map_filter_NoDup| |apply NoDup_singleton].
    intros x (t & -> & [Ht _]%list_elem_of_filter)%list_elem_of_fmap E%list_elem_of_singleton.
    congruence.
  - cbn. intros t [[_ Ht]%list_elem_of_filter|Ht%list_elem_of_singleton]%elem_of_app; [auto|].
    exists g. split_and!; congruence.
Qed.

Lemma keeps_nonce at_ n : keeps grants_later (check_nonce_replay at_ n).
Proof.
  unfold check_nonce_replay, PopNonceRepository_garbage_collect, PopNonceRepository_check_and_track.
  keeps_steps; apply keeps_elsewhere; intros; apply same_grants_quiet; cbn; by repeat case_match.
Qed.

Lemma keeps_create_user mode k token : keeps grants_later (create_user_in_tx mode k token).
Proof.
  unfold create_user_in_tx, ensure_user_not_exists, validate_and_consume_signup_token, UserRepository_set_quota.
  keeps_steps; apply keeps_elsewhere; intros; apply same_grants_quiet; cbn; by repeat case_match.
Qed.

#[local] Hint Resolve keeps_create_grant keeps_revoke keeps_replace keeps_nonce keeps_create_user : keeps.

(** * Steps *)

(** Everything the server does to grants: the routes that may change them, and
    any other activity, which leaves both tables alone. *)
Inductive grant_step (w w' : World) : Prop :=
| step_create_session hs at_ bearer grant_jws pop_jws r :
    create_grant_session_route hs at_ bearer grant_jws pop_jws w = (r, w') → grant_step w w'
| step_signup hs at_ cached_at mode token grant_jws pop_jws c r c' :
    grant_signup_route hs at_ cached_at mode token grant_jws pop_jws c w = (r, c', w') → grant_step w w'
| step_signout hs at_ session proof r :
    grant_signout_route hs at_ session proof w = (r, w') → grant_step w w'
| step_revoke now session id r :
    revoke_grant_route now session id w = (r, w') → grant_step w w'
| step_elsewhere :
    same_grants (tables w) (tables w') → grant_step w w'.

Lemma keeps_run {E A} (R : relation Tables) (m : DB E A) w r w' :
  keeps R m → m w = (r, w') → R (tables w) (tables w').
Proof. intros Hm E'. specialize (Hm w). by rewrite E' in Hm. Qed.

Lemma keeps_create_session hs at_ b gj pj : keeps grants_later (create_grant_session hs at_ b gj pj).
Proof.
  unfold create_grant_session, verify_grant_and_pop, check_grant_not_revoked, find_user, map_not_found,
    store_grant, require_stored_grant_matches, get_grant, mint_session. keeps_steps.
Qed.

Lemma keeps_signup_grant hs at_ mode gj pj token :
  keeps grants_later
    (grant ← verify_signup_grant_and_pop hs at_ gj pj;
     in_transaction AuthInternal
       (db_map_err AuthServiceError_from_signup (create_user_in_tx mode (iss grant) token))).
Proof. unfold verify_signup_grant_and_pop. keeps_steps. Qed.

Lemma keeps_signout hs at_ session proof : keeps grants_later (grant_signout_route hs at_ session proof).
Proof.
  unfold grant_signout_route, signout_with_proof, signout_grant_session, get_grant, map_not_found. keeps_steps.
Qed.

Lemma keeps_revoke_route now session id : keeps grants_later (revoke_grant_route now session id).
Proof.
  unfold revoke_grant_route, revoke_user_grant, resolve_user_id, get_grant, map_not_found. keeps_steps.
Qed.

Lemma grant_step_later w w' : grant_step w w' → grants_later (tables w) (tables w').
Proof.
  intros [hs at_ b gj pj r Hr|hs at_ ca mode token gj pj c r c' Hr|hs at_ session proof r Hr|now session id r Hr|Hs].
  - eapply keeps_run, Hr. apply keeps_map_err, keeps_create_session.
  - unfold grant_signup_route in Hr. destruct (parse_signup_token token) as [tok|]; [|by injection Hr as <- <- <-].
    unfold signup_grant_account in Hr.
    match type of Hr with context [match ?m w with _ => _ end] => destruct (m w) as [r1 w1] eqn:E end.
    apply (keeps_run grants_later) in E; [|apply keeps_signup_grant]. by destruct r1; injection Hr as <- <- <-.
  - eapply keeps_run, Hr. apply keeps_signout.
  - eapply keeps_run, Hr. apply keeps_revoke_route.
  - by apply same_grants_later.
Qed.

Lemma grant_steps_later w w' : rtc grant_step w w' → grants_later (tables w) (tables w').
Proof. induction 1; [done|]. etransitivity; [by apply grant_step_later|done]. Qed.

(** * Resolving a bearer *)

Lemma map_not_found_inv {A} e (m : DB SqlError A) w r w' :
  map_not_found e m w = (r, w') →
  ∃ r0, m w = (r0, w') ∧
    r = match r0 with Ok a => Ok a | Err RowNotFound => Err e | Err other => Err (AuthInternal other) end.
Proof.
  unfold map_not_found, db_map_err. destruct (m w) as [r0 w1]. intros [= <- <-]. exists r0. split; [done|].
  by destruct r0 as [|[]].
Qed.

(** What a decoded grant says of the tables. *)
Definition grant_of (tb : Tables) (g : GrantRow) (ge : GrantEntity) : Prop :=
  g ∈ grants (auth tb) ∧ g_id g = ge_id ge ∧ g_user g = ge_user_id ge ∧
  (∃ u, u ∈ users tb ∧ u_id u = g_user g ∧ PublicKey_try_from_z32 (u_public_key u) = Ok (ge_user_pubkey ge)) ∧
  g_client_id g = ge_client_id ge ∧ g_client_cnf_key g = ge_client_cnf_key ge ∧
  Capabilities_from_str (g_capabilities g) = Ok (ge_capabilities ge) ∧
  g_issued_at g = ge_issued_at ge ∧ g_expires_at g = ge_expires_at ge ∧ g_revoked_at g = ge_revoked_at ge.

Lemma RandomId_parse_id s id : RandomId_parse s = Ok id → id = s.
Proof. unfold RandomId_parse. repeat case_match; by intros [= <-]. Qed.
Lemma ClientId_new_id s id : ClientId_new s = Ok id → id = s.
Proof. unfold ClientId_new. repeat case_match; by intros [= <-]. Qed.

Lemma map_err_Ok {E F A} (f : E → F) (r : result E A) a : map_err f r = Ok a → r = Ok a.
Proof. destruct r; cbn; [by intros [= <-]|done]. Qed.

Lemma GrantEntity_from_row_inv tb g ge :
  g ∈ grants (auth tb) → GrantEntity_from_row (grant_join tb g) = Ok ge → grant_of tb g ge.
Proof.
  intros Hg. unfold GrantEntity_from_row, parse_identity_fields, parse_grant_metadata, grant_join. cbn [fst snd].
  destruct (RandomId_parse (g_id g)) as [id|] eqn:Eid; [|done]. apply RandomId_parse_id in Eid as ->.
  destruct (list_find _ (users tb)) as [[i u]|] eqn:Eu; [|done].
  apply list_find_Some in Eu as (Hu & Hui & _). apply list_elem_of_lookup_2 in Hu. cbn.
  destruct (PublicKey_try_from_z32 _) as [k|] eqn:Ek; [|done]. cbn.
  destruct (ClientId_new _) as [cid|] eqn:Ec; [|done]. apply ClientId_new_id in Ec as ->. cbn.
  destruct (Capabilities_from_str _) as [cs|] eqn:Ecs; [|done]. intros [= <-].
  split_and!; try done. exists u. by rewrite Ek.
Qed.

Lemma get_grant_inv id w r w' :
  get_grant id w = (r, w') →
  tables w' = tables w ∧
  match r with
  | Ok ge => ge_id ge = id ∧ ∃ g, grant_of (tables w) g ge
  | Err e => e = GrantNotFound ∨ ∃ x, e = AuthInternal x
  end.
Proof.
  intros (r0 & [(Ht & _) Hr0]%select_inv & ->)%map_not_found_inv. split; [done|].
  destruct Hr0 as [->| ->]; [by eauto|].
  destruct (filter _ _) as [|g gs] eqn:Ef; [by left|]. cbn [map fetch_one].
  apply filter_head in Ef as [Hg Hid].
  destruct (GrantEntity_from_row _) as [ge|[]] eqn:E; [|by eauto..].
  apply GrantEntity_from_row_inv in E; [|done]. split; [|by exists g]. destruct E as (_ & <- & _). done.
Qed.

(** A bearer that is good at [now], and the session it stands for. *)
Definition live_bearer (tb : Tables) (now : Z) (bearer : str) (s : GrantSession) : Prop :=
  ∃ t g ge, t ∈ grant_sessions (auth tb) ∧ t_token_hash t = sha256 bearer ∧ t_grant_id t = g_id g ∧
    grant_of tb g ge ∧ g_revoked_at g = None ∧ now < t_expires_at t ∧ now < g_expires_at g ∧
    s = mk_GrantSession (ge_user_pubkey ge) (ge_capabilities ge) (g_id g) (as_u64 (t_expires_at t)) (sha256 bearer).

Lemma validate_entity_inv now st w r w' :
  validate_active_grant_session_entity now st w = (r, w') →
  tables w' = tables w ∧
  match r with
  | Ok ge => now < st_expires_at st ∧ ge_id ge = st_grant_id st ∧
             ∃ g, grant_of (tables w) g ge ∧ g_revoked_at g = None ∧ now < g_expires_at g
  | Err SessionNotFound => False
  | Err SessionExpired => st_expires_at st ≤ now
  | Err GrantRevoked => is_revoked (st_grant_id st) (tables w)
  | Err GrantExpired => ∃ g, g ∈ grants (auth (tables w)) ∧ g_id g = st_grant_id st ∧ g_expires_at g ≤ now
  | Err _ => True
  end.
Proof.
  unfold validate_active_grant_session_entity. destruct (Z.leb_spec (st_expires_at st) now) as [Hx|Hx].
  { by intros [= <- <-]. }
  cbv [mbind db_bind lift_result]. intros Hr. destruct (get_grant _ w) as [r1 w1] eqn:E.
  apply get_grant_inv in E as [Ht E]. destruct r1 as [ge|e].
  2: { injection Hr as <- <-. split; [done|]. by destruct E as [->|[x ->]]. }
  destruct E as (Hid & g & Hg). pose proof Hg as (Hin & Hgid & _ & _ & _ & _ & _ & _ & Hexp & Hrev).
  unfold require_active in Hr. case_bool_decide as Hn.
  { injection Hr as <- <-. split; [done|]. exists g. split_and!; [done|congruence|congruence]. }
  destruct (Z.leb_spec (ge_expires_at ge) now).
  { injection Hr as <- <-. split; [done|]. exists g. split_and!; [done|congruence|congruence]. }
  injection Hr as <- <-. split_and!; try done. exists g. split_and!; [done|by rewrite Hrev|by rewrite Hexp].
Qed.

Lemma session_row_inv hash w r w' :
  map_not_found SessionNotFound (GrantSessionRepository_get_by_token_hash hash) w = (r, w') →
  tables w' = tables w ∧
  match r with
  | Ok st => ∃ t, t ∈ grant_sessions (auth (tables w)) ∧ t_token_hash t = hash ∧
               st_token_hash st = hash ∧ st_grant_id st = t_grant_id t ∧ st_expires_at st = t_expires_at t
  | Err SessionNotFound => hash ∉ map t_token_hash (grant_sessions (auth (tables w)))
  | Err e => e = AuthInternal SqlIo ∨ e = AuthInternal Decode
  end.
Proof.
  intros (r0 & [(Ht & _) Hr0]%select_inv & ->)%map_not_found_inv. split; [done|].
  destruct Hr0 as [->| ->]; [by left|].
  destruct (filter _ _) as [|t ts] eqn:Ef; cbn [fetch_one].
  { intros (t & -> & Hin)%list_elem_of_fmap. apply (elem_of_nil t). rewrite <-Ef. by apply list_elem_of_filter. }
  apply filter_head in Ef as [Hin Hh].
  unfold GrantSessionEntity_from_row, SessionTokenHash_try_from.
  case_bool_decide; cbn; [|by right]. destruct (RandomId_parse _) eqn:Eid; cbn; [|by right].
  apply RandomId_parse_id in Eid as ->. by exists t.
Qed.

Lemma resolve_inv now bearer w r w' :
  resolve_grant_session_by_bearer now bearer w = (r, w') →
  tables w' = tables w ∧
  match r with
  | Ok s => live_bearer (tables w) now bearer s
  | Err SessionNotFound => sha256 bearer ∉ map t_token_hash (grant_sessions (auth (tables w)))
  | Err SessionExpired =>
      ∃ t, t ∈ grant_sessions (auth (tables w)) ∧ t_token_hash t = sha256 bearer ∧ t_expires_at t ≤ now
  | Err GrantRevoked =>
      ∃ t, t ∈ grant_sessions (auth (tables w)) ∧ is_revoked (t_grant_id t) (tables w)
  | Err GrantExpired =>
      ∃ t g, t ∈ grant_sessions (auth (tables w)) ∧ t_token_hash t = sha256 bearer ∧
        g ∈ grants (auth (tables w)) ∧ g_id g = t_grant_id t ∧ g_expires_at g ≤ now
  | Err _ => True
  end.
Proof.
  unfold resolve_grant_session_by_bearer, SessionBearer_hash. cbv [mbind db_bind]. intros Hr.
  destruct (map_not_found _ _ w) as [r1 w1] eqn:E1. apply session_row_inv in E1 as [Ht1 E1].
  destruct r1 as [st|e]; [|injection Hr as <- <-; split; [done|]; destruct e; naive_solver].
  destruct E1 as (t & Hin & Hh & Hsh & Hsg & Hse).
  destruct (validate_active_grant_session_entity now st w1) as [r2 w2] eqn:E2.
  apply validate_entity_inv in E2 as [Ht2 E2]. rewrite Ht1 in *. rewrite Hse, Hsg in E2.
  destruct r2 as [ge|e]; injection Hr as <- <-; (split; [done|]).
  - destruct E2 as (Hx & Hid & g & Hg & Hrev & Hgx). pose proof Hg as (_ & Hgid & _).
    exists t, g, ge. split_and!; try done; [congruence|]. rewrite Hsh, Hse, Hsg. by rewrite Hgid, Hid.
  - destruct e; try done; [by exists t| |by exists t]. destruct E2 as (g & ? & ? & ?). by exists t, g.
Qed.

Lemma grant_row_unique tb g g' : grants_inv tb →
  g ∈ grants (auth tb) → g' ∈ grants (auth tb) → g_id g = g_id g' → g = g'.
Proof. intros (HN & _) ? ? ?. by eapply NoDup_map_inj. Qed.

Lemma revoked_not_live tb now bearer s :
  grants_inv tb → is_revoked (gs_grant_id s) tb → live_bearer tb now bearer s → False.
Proof.
  intros HI (g' & Hg' & Hid & Hrev) (t & g & ge & _ & _ & _ & (Hg & _) & Hr & _ & _ & ->). cbn in Hid.
  by rewrite (grant_row_unique tb g' g HI Hg' Hg Hid) in Hrev.
Qed.

End GrantInvariant.

#[export] Hint Resolve keeps_create_grant keeps_revoke keeps_replace keeps_nonce keeps_create_user : keeps.
