(* ===== verification/GrantSessions.v ===== *)
(** Grant authentication: what a session exchange achieves, revocation is
    final, and what a verified token proves. *)

From stdpp Require Import relations.
From S2P Require Import Prelude StoragePath Capabilities HttpError Keys Quota Database Users Signup.
From S2P Require Import Authorization GrantTokens Grants GrantProofs.

Section GrantSessions.
Context `{PkarrKeysLaws, JsonStrings, Base32, !Jws, Sha256Laws, Calendar}.

(** * The exchange *)

(** What the steps before the bearer is stored leave alone. *)
Definition same_bearers (tb tb' : Tables) : Prop :=
  grant_sessions (auth tb') = grant_sessions (auth tb) ∧ users tb' = users tb.

#[local] Instance same_bearers_preorder : PreOrder same_bearers.
Proof. split; [done|]. intros a b c [? ?] [? ?]. split; congruence. Qed.

(** The row [GrantRepository_get_by_id] decodes. *)
Definition lookup_grant (id : str) (tb : Tables) : result SqlError GrantEntity :=
  fetch_one GrantEntity_from_row (map (grant_join tb) (filter (λ g, g_id g = id) (grants (auth tb)))).

Lemma lookup_grant_same id tb tb' :
  grants (auth tb') = grants (auth tb) → users tb' = users tb → lookup_grant id tb' = lookup_grant id tb.
Proof. unfold lookup_grant, grant_join. by intros -> ->. Qed.

Lemma lookup_grant_Ok id tb ge :
  lookup_grant id tb = Ok ge →
  ∃ g, grant_of tb g ge ∧ g_id g = id ∧ RandomId_parse id = Ok id.
Proof.
  unfold lookup_grant. destruct (filter _ _) as [|g gs] eqn:Ef; [done|]. cbn [map fetch_one]. intros E.
  apply filter_head in Ef as [Hg <-]. exists g. split; [by apply GrantEntity_from_row_inv|]. split; [done|].
  unfold GrantEntity_from_row, parse_identity_fields, grant_join in E. cbn [fst] in E.
  destruct (RandomId_parse (g_id g)) as [i|] eqn:Ei; [|done]. by rewrite (RandomId_parse_id _ _ Ei) in Ei |- *.
Qed.

Lemma get_grant_run id w r w' :
  get_grant id w = (r, w') →
  tables w' = tables w ∧
  (r = Err (AuthInternal SqlIo) ∨ ∀ ge, lookup_grant id (tables w) = Ok ge → r = Ok ge) ∧
  (∀ ge, r = Ok ge → lookup_grant id (tables w) = Ok ge).
Proof.
  intros (r0 & [(Ht & _) Hr0]%select_inv & ->)%map_not_found_inv. split; [done|].
  unfold lookup_grant. destruct Hr0 as [->| ->]; [by split; [left|]|].
  destruct (fetch_one _ _) as [ge|[]]; (split; [right|]); by intros ? [= <-].
Qed.

Lemma same_bearers_nonce at_ n : keeps same_bearers (check_nonce_replay at_ n).
Proof.
  unfold check_nonce_replay, PopNonceRepository_garbage_collect, PopNonceRepository_check_and_track.
  keeps_steps; apply keeps_exec; intros; cbn; by repeat case_match.
Qed.

Lemma verify_both_ok hs at_ gj pj w claims w' :
  verify_grant_and_pop hs at_ gj pj w = (Ok claims, w') →
  verify_grant (at_expiry at_) gj = Ok claims ∧
  (∃ pop, verify_pop_proof hs (at_pop at_) pj claims = Ok pop) ∧
  same_bearers (tables w) (tables w') ∧ grants_later (tables w) (tables w').
Proof.
  intros Hr. assert (grants_later (tables w) (tables w')) as Hl.
  { eapply keeps_run, Hr. unfold verify_grant_and_pop, check_grant_not_revoked. keeps_steps. }
  unfold verify_grant_and_pop in Hr.
  apply db_bind_Ok in Hr as (g & w1 & Hg & Hr). injection Hg as Hg <-. apply map_err_Ok in Hg.
  apply db_bind_Ok in Hr as ([] & w2 & Hc & Hr).
  apply db_bind_Ok in Hr as (pop & w3 & Hp & Hr). injection Hp as Hp <-.
  apply db_bind_Ok in Hr as ([] & w4 & Hn & Hr). injection Hr as -> <-.
  split_and!; [done|by exists pop| |done]. transitivity (tables w2).
  - eapply keeps_run, Hc. unfold check_grant_not_revoked. keeps_steps.
  - eapply keeps_run, Hn. apply same_bearers_nonce.
Qed.

Lemma store_grant_ok claims user w w' :
  store_grant claims user w = (Ok (), w') →
  same_bearers (tables w) (tables w') ∧ grants_later (tables w) (tables w').
Proof.
  intros Hr. split; (eapply keeps_run, Hr; apply keeps_map_err); [|apply keeps_create_grant].
  apply keeps_exec. intros. cbn. by repeat case_match.
Qed.

Lemma mint_session_ok hs at_ b claims w resp w' :
  mint_session hs at_ b claims w = (Ok resp, w') →
  let expires := Z.min (as_u64 (as_u64 (at_mint at_) + DEFAULT_SESSION_TOKEN_LIFETIME_SECS)) (exp claims) in
  resp = mk_GrantSessionResponse b (mk_GrantSessionInfo hs (iss claims) (client_id claims) (caps claims)
           (jti claims) expires (exp claims) (as_u64 (at_mint at_))) ∧
  ∃ g cs row, filter (λ g, g_id g = jti claims) (grants (auth (tables w))) = g :: cs ∧
    g_revoked_at g = None ∧ at_issue at_ < g_expires_at g ∧
    t_token_hash row = sha256 b ∧ t_grant_id row = jti claims ∧ t_expires_at row = as_i64 expires ∧
    sha256 b ∉ map t_token_hash (filter (λ t, t_grant_id t ≠ jti claims) (grant_sessions (auth (tables w)))) ∧
    tables w' = reissued_tables row (tables w).
Proof.
  intros Hr expires. apply db_bind_Ok in Hr as ([] & w1 & Hi & Hr). injection Hr as <- <-. split; [done|].
  apply db_map_err_Ok, in_transaction_inv in Hi as [[? _]|(w0 & w2 & r & Ht & _ & _ & Hb & Hc)]; [done|].
  destruct r as [[]|]; [|by destruct Hc]. destruct Hc as [[_ Htw]|[? _]]; [|done].
  apply replace_body_ok in Hb as (g & cs & row & Hf & ? & ? & ? & ? & ? & Hfr & Ht2).
  rewrite Ht in Hf, Hfr, Ht2. rewrite Htw, Ht2. by exists g, cs, row.
Qed.

Lemma create_session_ok hs at_ b gj pj w resp w' :
  create_grant_session hs at_ b gj pj w = (Ok resp, w') →
  let expires claims :=
    Z.min (as_u64 (as_u64 (at_mint at_) + DEFAULT_SESSION_TOKEN_LIFETIME_SECS)) (exp claims) in
  ∃ claims ge row,
    verify_grant (at_expiry at_) gj = Ok claims ∧ (∃ pop, verify_pop_proof hs (at_pop at_) pj claims = Ok pop) ∧
    resp = mk_GrantSessionResponse b (mk_GrantSessionInfo hs (iss claims) (client_id claims) (caps claims)
             (jti claims) (expires claims) (exp claims) (as_u64 (at_mint at_))) ∧
    lookup_grant (jti claims) (tables w') = Ok ge ∧ stored_grant_matches claims ge = true ∧
    ge_revoked_at ge = None ∧ at_issue at_ < ge_expires_at ge ∧
    t_token_hash row = sha256 b ∧ t_grant_id row = jti claims ∧ t_expires_at row = as_i64 (expires claims) ∧
    sha256 b ∉ map t_token_hash (filter (λ t, t_grant_id t ≠ jti claims) (grant_sessions (auth (tables w)))) ∧
    grant_sessions (auth (tables w'))
    = filter (λ t, t_grant_id t ≠ jti claims) (grant_sessions (auth (tables w))) ++ [row].
Proof.
  intros Hr expires. apply db_bind_Ok in Hr as (claims & w1 & Hv & Hr).
  apply verify_both_ok in Hv as (Hg & Hp & [Hs1 Hu1] & _).
  apply db_bind_Ok in Hr as (user & w2 & Hu & Hr). apply db_map_err_Ok, select_inv in Hu as [(Ht2 & _) _].
  apply db_bind_Ok in Hr as ([] & w3 & Hst & Hr). apply store_grant_ok in Hst as [[Hs3 _] _].
  apply db_bind_Ok in Hr as ([] & w4 & Hm & Hr).
  apply db_bind_Ok in Hm as (ge & w5 & Hget & Hm). apply get_grant_run in Hget as (Ht5 & _ & Hl).
  specialize (Hl _ eq_refl). destruct (stored_grant_matches claims ge) eqn:Hmt; [|done]. injection Hm as <-.
  apply mint_session_ok in Hr as (-> & g & cs & row & Hf & Hrev & Hx & Hh & Hid & He & Hfr & Ht').
  rewrite Ht5 in Hf, Hfr, Ht'. rewrite Hs3, Ht2, Hs1 in Hfr.
  assert (ge_revoked_at ge = g_revoked_at g ∧ ge_expires_at ge = g_expires_at g) as [Hr' Hx'].
  { unfold lookup_grant in Hl. rewrite Hf in Hl. cbn [map fetch_one] in Hl.
    apply GrantEntity_from_row_inv in Hl as (_ & _ & _ & _ & _ & _ & _ & _ & ? & ?); [done|].
    by apply filter_head in Hf as [? _]. }
  exists claims, ge, row. split_and!; try done; [|by rewrite Hr'|by rewrite Hx'|].
  - rewrite Ht'. by rewrite (lookup_grant_same _ (tables w3)).
  - rewrite Ht'. cbn. by rewrite Hid, Hs3, Ht2, Hs1.
Qed.

Lemma resolve_complete b row rs ge now w r w' :
  filter (λ t, t_token_hash t = sha256 b) (grant_sessions (auth (tables w))) = row :: rs →
  lookup_grant (t_grant_id row) (tables w) = Ok ge → ge_revoked_at ge = None →
  t_expires_at row ≤ ge_expires_at ge →
  resolve_grant_session_by_bearer now b w = (r, w') →
  r = Err (AuthInternal SqlIo) ∨
  r = if t_expires_at row <=? now then Err SessionExpired
      else Ok (mk_GrantSession (ge_user_pubkey ge) (ge_capabilities ge) (t_grant_id row)
                 (as_u64 (t_expires_at row)) (sha256 b)).
Proof.
  intros Hf Hl Hrev Hx Hr. pose proof (lookup_grant_Ok _ _ _ Hl) as (g & _ & _ & Hid).
  pose proof Hf as [_ Hh]%filter_head.
  unfold resolve_grant_session_by_bearer, SessionBearer_hash in Hr. cbv [mbind db_bind] in Hr.
  destruct (map_not_found _ _ w) as [r1 w1] eqn:E1.
  apply map_not_found_inv in E1 as (r0 & [(Ht & _) Hr0]%select_inv & ->).
  destruct Hr0 as [->| ->]; [left; by injection Hr as <- _|].
  rewrite Hf in Hr. cbn [fetch_one] in Hr.
  unfold GrantSessionEntity_from_row, SessionTokenHash_try_from in Hr.
  rewrite Hh, bool_decide_eq_true_2 in Hr by apply sha256_len. cbn in Hr. rewrite Hid in Hr. cbn in Hr.
  unfold validate_active_grant_session_entity in Hr. cbn in Hr.
  destruct (Z.leb_spec (t_expires_at row) now); [right; by injection Hr as <- _|].
  cbv [mbind db_bind lift_result] in Hr. destruct (get_grant _ w1) as [r2 w2] eqn:E2.
  apply get_grant_run in E2 as (_ & [->|Hg] & _); [left; by injection Hr as <- _|].
  rewrite (Hg ge) in Hr by (by rewrite Ht). unfold require_active in Hr. rewrite bool_decide_eq_false_2 in Hr by auto.
  destruct (Z.leb_spec (ge_expires_at ge) now); [lia|]. right. by injection Hr as <- _.
Qed.

(** The timestamps of verified claims fit their type. *)
Lemma claims_in_range bytes claims :
  grant_from_slice bytes = Some claims → in_u64 (iat claims) ∧ in_u64 (exp claims).
Proof.
  unfold grant_from_slice. destruct (json_grant bytes) as [j|]; cbn; [|done]. unfold GrantClaims_deserialize.
  destruct (ok (PublicKey_try_from_z32 (j_iss j))), (ok (ClientId_new (j_client_id j))),
    (ok (collect_results (map Capability_from_str (j_caps j)))), (ok (PublicKey_try_from_z32 (j_cnf j))),
    (ok (RandomId_parse (j_jti j))); cbn; try done.
  unfold U64_in_range. destruct (_ && _) eqn:E; [|done]. intros [= <-]. cbn. unfold in_u64. lia.
Qed.

(** What a verified grant consists of. *)
Lemma verify_grant_ok now gj claims :
  verify_grant now gj = Ok claims →
  (∃ key raw payload, GrantClaims_decode gj = Ok raw ∧ key = iss raw ∧
     jwt_decode gj key = Some payload ∧ grant_from_slice payload = Some claims) ∧
  jwt_typ gj = Some (Some GRANT_JWS_TYP) ∧ as_u64 now < exp claims.
Proof.
  unfold verify_grant, verify_grant_for_revocation, extract_issuer_key, grant_verify_signature,
    grant_check_header_type, check_expiry. intros Hr.
  destruct (GrantClaims_decode gj) as [raw|]; cbn in Hr; [|done].
  destruct (jwt_decode gj (iss raw)) as [payload|] eqn:Ed; cbn in Hr; [|done].
  destruct (grant_from_slice payload) as [cl|] eqn:Ef; cbn in Hr; [|done].
  destruct (jwt_typ gj) as [typ|]; cbn in Hr; [|done]. case_bool_decide as Ht; cbn in Hr; [|done]. rewrite Ht.
  destruct (Z.leb_spec (exp cl) (as_u64 now)); [done|]. injection Hr as <-. split_and!; [|done|lia].
  by exists (iss raw), raw, payload.
Qed.

Lemma stored_grant_matches_spec claims ge :
  stored_grant_matches claims ge = true ↔
  ge_user_pubkey ge = iss claims ∧ ge_client_id ge = client_id claims ∧
  ge_client_cnf_key ge = PublicKey_z32 (cnf claims) ∧ ge_capabilities ge = caps claims ∧
  ge_issued_at ge = as_i64 (iat claims) ∧ ge_expires_at ge = as_i64 (exp claims).
Proof.
  unfold stored_grant_matches. rewrite !andb_true_iff, !bool_decide_eq_true, !Z.eqb_eq. tauto.
Qed.

(** What an exchange stores and answers, and what its bearer resolves to. *)
Lemma exchange_mints hs at_ b gj pj w resp w' :
  0 ≤ at_mint at_ ≤ I64_MAX - DEFAULT_SESSION_TOKEN_LIFETIME_SECS → 0 ≤ at_issue at_ →
  create_grant_session hs at_ b gj pj w = (Ok resp, w') →
  ∃ claims row, let expires := Z.min (at_mint at_ + DEFAULT_SESSION_TOKEN_LIFETIME_SECS) (exp claims) in
    verify_grant (at_expiry at_) gj = Ok claims ∧ (∃ pop, verify_pop_proof hs (at_pop at_) pj claims = Ok pop) ∧
    resp = mk_GrantSessionResponse b (mk_GrantSessionInfo hs (iss claims) (client_id claims) (caps claims)
             (jti claims) expires (exp claims) (at_mint at_)) ∧
    t_token_hash row = sha256 b ∧ t_grant_id row = jti claims ∧
    grant_sessions (auth (tables w'))
    = filter (λ t, t_grant_id t ≠ jti claims) (grant_sessions (auth (tables w))) ++ [row] ∧
    ∀ now w2 r w3, tables w2 = tables w' → resolve_grant_session_by_bearer now b w2 = (r, w3) →
      r = Err (AuthInternal SqlIo) ∨
      r = if expires <=? now then Err SessionExpired
          else Ok (mk_GrantSession (iss claims) (caps claims) (jti claims) expires (sha256 b)).
Proof.
  intros Hm Hi (claims & ge & row & Hg & Hp & -> & Hl & Hmt & Hrev & Hx & Hh & Hid & He & Hfr & Hs)%create_session_ok.
  exists claims, row. intros expires.
  apply stored_grant_matches_spec in Hmt as (Hk & _ & _ & Hc & _ & Hge).
  assert (in_u64 (exp claims)) as Hr.
  { apply verify_grant_ok in Hg as ((? & ? & ? & _ & _ & _ & ?%claims_in_range) & _). tauto. }
  assert (exp claims ≤ I64_MAX) as Hmax.
  { apply as_i64_nonneg; [done|]. rewrite <-Hge. lia. }
  unfold DEFAULT_SESSION_TOKEN_LIFETIME_SECS, in_u64 in *.
  rewrite (as_u64_small (at_mint at_)), as_u64_small in He |- * by lia.
  assert (t_expires_at row = expires) as Hex by (rewrite He; apply as_i64_small; lia).
  split_and!; try done. intros now w2 r w3 Ht Hres.
  eapply (resolve_complete b row []) in Hres; [| |by rewrite Ht, Hid|exact Hrev|].
  - rewrite Hex, Hk, Hc, Hid in Hres. by rewrite as_u64_small in Hres by lia.
  - rewrite Ht, Hs, filter_app, filter_cons, decide_True by done. rewrite filter_nil.
    destruct (filter _ (filter _ _)) as [|t ts] eqn:Ef; [done|]. apply filter_head in Ef as [Hin Ht'].
    exfalso. apply Hfr. rewrite <-Ht'. by apply list_elem_of_fmap_2.
  - rewrite Hex, Hge, as_i64_small by lia. lia.
Qed.

(** (C9) A successful exchange of a grant for a session yields a working bearer,
    and only one.  The grant and the proof were verified; the answer repeats the
    grant's user, client and capabilities; the bearer lives for an hour or until
    the grant ends, whichever is sooner; it replaces the grant's previous
    bearer, and no other bearer is touched.  Until it ends, presenting it
    resolves to exactly the session of the grant's user with the capabilities
    the user signed, and from then on it is refused as expired (a lost database
    connection aside). *)
Theorem exchange_mints_bearer hs at_ b gj pj w resp w' :
  0 ≤ at_mint at_ ≤ I64_MAX - DEFAULT_SESSION_TOKEN_LIFETIME_SECS → 0 ≤ at_issue at_ →
  create_grant_session hs at_ b gj pj w = (Ok resp, w') →
  ∃ claims row, let expires := Z.min (at_mint at_ + DEFAULT_SESSION_TOKEN_LIFETIME_SECS) (exp claims) in
    verify_grant (at_expiry at_) gj = Ok claims ∧ (∃ pop, verify_pop_proof hs (at_pop at_) pj claims = Ok pop) ∧
    resp = mk_GrantSessionResponse b (mk_GrantSessionInfo hs (iss claims) (client_id claims) (caps claims)
             (jti claims) expires (exp claims) (at_mint at_)) ∧
    t_token_hash row = sha256 b ∧ t_grant_id row = jti claims ∧
    grant_sessions (auth (tables w'))
    = filter (λ t, t_grant_id t ≠ jti claims) (grant_sessions (auth (tables w))) ++ [row] ∧
    ∀ now w2 r w3, tables w2 = tables w' → resolve_grant_session_by_bearer now b w2 = (r, w3) →
      r = Err (AuthInternal SqlIo) ∨
      r = if expires <=? now then Err SessionExpired
          else Ok (mk_GrantSession (iss claims) (caps claims) (jti claims) expires (sha256 b)).
Proof. apply exchange_mints. Qed.

(** * Revocation *)

Lemma revoke_ok now id w w' :
  service_revoke_grant now id w = (Ok (), w') → tables w' = revoked_tables now id (tables w).
Proof.
  intros [[? _]|(w0 & w1 & r & Ht & _ & _ & Hb & Hc)]%in_transaction_inv; [done|].
  destruct r as [[]|]; [|by destruct Hc]. destruct Hc as [[_ ->]|[? _]]; [|done].
  apply revoke_body_ok in Hb. by rewrite Hb, Ht.
Qed.

Lemma revoked_no_exchange id hs at_ b gj pj w resp w' :
  grants_inv (tables w) → is_revoked id (tables w) →
  create_grant_session hs at_ b gj pj w = (Ok resp, w') → gi_grant_id (gr_session resp) ≠ id.
Proof.
  intros HI HR Hr. pose proof (keeps_run grants_later _ _ _ _ (keeps_create_session hs at_ b gj pj) Hr) as (HI' & HR' & _).
  apply create_session_ok in Hr as (claims & ge & row & _ & _ & -> & Hl & _ & Hrev & _). cbn. intros <-.
  apply lookup_grant_Ok in Hl as (g & Hg & Hid & _). destruct (HR' _ HR) as (g' & Hg' & Hid' & Hrev').
  destruct Hg as (Hin & _ & _ & _ & _ & _ & _ & _ & _ & Hr').
  rewrite (grant_row_unique (tables w') g' g) in Hrev'; [congruence|auto|done|done|congruence].
Qed.

Lemma revoked_no_bearers id tb t :
  grants_inv tb → is_revoked id tb → t ∈ grant_sessions (auth tb) → t_grant_id t ≠ id.
Proof.
  intros HI (g' & Hg' & Hid' & Hrev') Ht <-. pose proof HI as (_ & _ & _ & Hs).
  destruct (Hs t Ht) as (g & Hg & Hgt & Hrev). by rewrite (grant_row_unique tb g' g) in Hrev' by congruence.
Qed.

Lemma revoked_not_revalidated now s w ge w' :
  grants_inv (tables w) → is_revoked (gs_grant_id s) (tables w) →
  validate_active_grant_session now s w ≠ (Ok ge, w').
Proof.
  intros HI HR Hv. unfold validate_active_grant_session in Hv.
  apply db_bind_Ok in Hv as (st & w4 & Hs & Hv). apply session_row_inv in Hs as [_ (t & Ht & _ & _ & Hg & _)].
  case_bool_decide as E; [|done]. eapply revoked_no_bearers in Ht; [|done..]. congruence.
Qed.

(** (C4) Revocation is final.  Once the revocation of a stored grant has been
    acknowledged, no sequence of requests, whatever fails in between, brings it
    back: its bearers are gone, no bearer resolves to a session of it, no open
    session of it can be revalidated for a private stream, and it cannot be
    exchanged for a new session. *)
Theorem revocation_is_final id now w w1 w2 :
  grants_inv (tables w) → has_grant id (tables w) = true →
  service_revoke_grant now id w = (Ok (), w1) → rtc grant_step w1 w2 →
  grants_inv (tables w2) ∧
  id ∉ map t_grant_id (grant_sessions (auth (tables w2))) ∧
  (∀ now' bearer s w3, resolve_grant_session_by_bearer now' bearer w2 = (Ok s, w3) → gs_grant_id s ≠ id) ∧
  (∀ now' s ge w3, validate_active_grant_session now' s w2 = (Ok ge, w3) → gs_grant_id s ≠ id) ∧
  (∀ hs at_ b gj pj resp w3, create_grant_session hs at_ b gj pj w2 = (Ok resp, w3) →
     gi_grant_id (gr_session resp) ≠ id).
Proof.
  intros HI Hid Hr%revoke_ok Hsteps%grant_steps_later. destruct Hsteps as (HI2 & HR2 & _).
  rewrite Hr in HI2, HR2. specialize (HI2 (proj1 (revoked_tables_later now id _) HI)).
  specialize (HR2 id (revoked_tables_revoked now id _ Hid)).
  pose proof (λ t, revoked_no_bearers id _ t HI2 HR2) as Hnone.
  split_and!; [done| | | |].
  - intros (t & Heq & Ht)%list_elem_of_fmap. by apply (Hnone t).
  - intros now' bearer s w3 [_ (t & g & ge & Ht & _ & Htg & _ & _ & _ & _ & ->)]%resolve_inv. cbn.
    rewrite <-Htg. by apply Hnone.
  - intros now' s ge w3 Hv <-. by eapply revoked_not_revalidated in Hv.
  - intros *. by eapply revoked_no_exchange.
Qed.

End GrantSessions.
