(* ===== verification/PopReplay.v ===== *)
(** Grant authentication: what verified tokens prove, and how often a proof of
    possession is accepted. *)

From stdpp Require Import relations.
From S2P Require Import Prelude StoragePath Capabilities HttpError Keys Quota Database Users Signup.
From S2P Require Import Authorization GrantTokens Grants GrantProofs GrantSessions.

Section PopReplay.
Context `{PkarrKeysLaws, JsonStrings, Base32, !Jws, !JwsLaws, Sha256Laws, Calendar}.

(** * Verified tokens *)

Lemma verify_pop_ok hs now pj claims pop :
  verify_pop_proof hs now pj claims = Ok pop →
  ∃ payload raw, jwt_decode pj (cnf claims) = Some payload ∧ pop_from_slice payload = Some raw ∧
    jwt_typ pj = Some (Some POP_JWS_TYP) ∧ aud raw = hs ∧ gid raw = jti claims ∧
    Z.abs (as_u64 now - pop_iat raw) ≤ POP_MAX_AGE_SECS ∧ pp_nonce pop = nonce raw.
Proof.
  intros Hr%map_err_Ok. unfold PopProof_verify, pop_verify_signature, pop_check_header_type, check_audience,
    check_grant_binding, check_timestamp, parse_verified_pop in Hr.
  cbn [cnf_key expected_audience expected_grant_id] in Hr.
  destruct (jwt_decode pj (cnf claims)) as [payload|]; cbn in Hr; [|done].
  destruct (pop_from_slice payload) as [raw|] eqn:Ef; cbn in Hr; [|done].
  destruct (jwt_typ pj) as [typ|]; cbn in Hr; [|done].
  destruct (bool_decide (typ = _)) eqn:Ht in Hr; cbn in Hr; [|done]. apply bool_decide_eq_true in Ht as ->.
  destruct (bool_decide (PublicKey_z32 _ = _)) eqn:Ha in Hr; cbn in Hr; [|done].
  apply bool_decide_eq_true, z32_inj in Ha.
  destruct (bool_decide (gid raw = _)) eqn:Hg in Hr; cbn in Hr; [|done]. apply bool_decide_eq_true in Hg.
  destruct (Z.ltb_spec POP_MAX_AGE_SECS (Z.abs (as_u64 now - pop_iat raw))); cbn in Hr; [done|].
  destruct (from_timestamp _); [|done]. injection Hr as <-. by exists payload, raw.
Qed.

(** (C17) What the two tokens of a request prove.  The grant carries a valid
    signature of the very user it names, and has not ended; the proof carries a
    valid signature of the client key the user put into the grant, is addressed
    to this server, names this grant, and was made at most three minutes from
    now.  Neither can be used as the other. *)
Theorem tokens_authentic hs now now' gj pj claims pop :
  JwsCompact_parse gj = Some gj →
  verify_grant now gj = Ok claims → verify_pop_proof hs now' pj claims = Ok pop →
  (∃ payload, jwt_decode gj (iss claims) = Some payload ∧ grant_from_slice payload = Some claims) ∧
  as_u64 now < exp claims ∧
  (∃ payload raw, jwt_decode pj (cnf claims) = Some payload ∧ pop_from_slice payload = Some raw ∧
     aud raw = hs ∧ gid raw = jti claims ∧ Z.abs (as_u64 now' - pop_iat raw) ≤ POP_MAX_AGE_SECS ∧
     nonce raw = pp_nonce pop) ∧
  gj ≠ pj.
Proof.
  intros Hgj ((key & raw & payload & Hraw & -> & Hd & Hs) & Htyp & Hexp)%verify_grant_ok
    (ppayload & praw & Hpd & Hps & Hptyp & Ha & Hg & Ht & Hn)%verify_pop_ok.
  pose proof (jwt_decode_payload _ _ _ Hgj Hd) as Hp. unfold GrantClaims_decode in Hraw.
  rewrite (decode_jws_payload_map _ _ _ Hp), Hs in Hraw. injection Hraw as ->.
  split_and!; [by exists payload|done|by exists ppayload, praw|]. intros ->. by rewrite Htyp in Hptyp.
Qed.

(** * Nonces *)

Definition tracked (n : str) (since : Z) (tb : Tables) : Prop :=
  ∃ row, row ∈ pop_nonces (auth tb) ∧ n_nonce row = n ∧ since ≤ n_created_at row.

(** What the server does to the nonces: presented proofs, in any of the three
    operations that take one, and activity elsewhere.  Collections run no later
    than [horizon]. *)
Inductive nonce_step (horizon : Z) (w w' : World) : Prop :=
| step_proof at_ n r :
    at_gc at_ ≤ horizon → check_nonce_replay at_ n w = (r, w') → nonce_step horizon w w'
| step_no_proof : pop_nonces (auth (tables w')) = pop_nonces (auth (tables w)) → nonce_step horizon w w'.

(** The microseconds a nonce is kept. *)
Definition NONCE_LIFE : Z := POP_NONCE_GC_THRESHOLD_SECS * 1000000.

(** A nonce recorded since [horizon - NONCE_LIFE] outlives every collection. *)
Definition nonce_kept (n : str) (since : Z) (tb tb' : Tables) : Prop :=
  tracked n since tb → tracked n since tb'.

#[local] Instance nonce_kept_preorder n since : PreOrder (nonce_kept n since).
Proof. split; unfold nonce_kept; [by intros ?|]. intros ? ? ?; auto. Qed.

Lemma keeps_gc n since now :
  now - NONCE_LIFE ≤ since →
  keeps (nonce_kept n since) (PopNonceRepository_garbage_collect now POP_NONCE_GC_THRESHOLD_SECS).
Proof.
  intros Hs. apply keeps_exec. intros now' tx_now tb sq. cbn. intros (row & Hin & Hn & Hc). exists row.
  split_and!; try done. cbn. apply list_elem_of_filter. split; [|done]. unfold NONCE_LIFE in Hs. lia.
Qed.

Lemma keeps_track n since track m : keeps (nonce_kept n since) (PopNonceRepository_check_and_track track m).
Proof.
  unfold PopNonceRepository_check_and_track. keeps_steps. apply keeps_exec. intros now' tx_now tb sq.
  case_match; [done|]. cbn. intros (row & Hin & Hn & Hc). exists row. split_and!; try done. cbn. apply elem_of_app. by left.
Qed.

Lemma keeps_check_nonce n since at_ m :
  at_gc at_ - NONCE_LIFE ≤ since → keeps (nonce_kept n since) (check_nonce_replay at_ m).
Proof.
  intros Hs. unfold check_nonce_replay. apply keeps_bind; [by apply keeps_try, keeps_gc|intros _].
  apply keeps_map_err, keeps_track.
Qed.

Lemma nonce_steps_keep n since horizon w w' :
  horizon - NONCE_LIFE ≤ since → rtc (nonce_step horizon) w w' →
  tracked n since (tables w) → tracked n since (tables w').
Proof.
  intros Hs. induction 1 as [|w1 w2 w3 Hstep _ IH]; [done|]. intros Ht. apply IH. clear IH.
  destruct Hstep as [at_ m r Hgc Hr|Heq].
  - eapply (keeps_run (nonce_kept n since)); [|exact Hr|done]. apply keeps_check_nonce. lia.
  - unfold tracked in *. by rewrite Heq.
Qed.

Lemma track_Ok track n w w' :
  PopNonceRepository_check_and_track track n w = (Ok (), w') →
  (∀ row, row ∈ pop_nonces (auth (tables w)) → n_nonce row ≠ n) ∧ tracked n track (tables w').
Proof.
  intros Hr. apply db_bind_Ok in Hr as (rows & w1 & Hx & Hr). apply db_map_err_Ok, exec_Ok in Hx.
  destruct (existsb _ _) eqn:E; injection Hx as <- Ht Hs; [done|]. injection Hr as ->. split.
  - intros row Hin Hn. apply not_true_iff_false in E. apply E, existsb_exists. exists row.
    rewrite <-list_elem_of_In. split; [done|]. by apply bool_decide_eq_true.
  - exists (mk_PopNonceRow n track). rewrite <-Ht. split_and!; [|done|cbn; lia]. cbn. apply elem_of_app. right.
    by apply list_elem_of_singleton.
Qed.

Lemma check_nonce_Ok at_ n w w' :
  check_nonce_replay at_ n w = (Ok (), w') →
  ¬ tracked n (at_gc at_ - NONCE_LIFE) (tables w) ∧ tracked n (at_track at_) (tables w').
Proof.
  intros Hr. apply db_bind_Ok in Hr as (rg & w1 & Hg & Hr). apply try_db_inv in Hg as (? & _ & Hg).
  apply db_map_err_Ok, track_Ok in Hr as [Hno Ht]. split; [|done]. intros Hb.
  destruct (keeps_run (nonce_kept n (at_gc at_ - NONCE_LIFE)) _ _ _ _ (keeps_gc n _ (at_gc at_) (Z.le_refl _)) Hg Hb)
    as (row & Hin & Hn & _). by apply (Hno row).
Qed.

(** (C18) A proof of possession is good once.  If the same proof is accepted a
    second time, no nonce collection having run more than [delay] microseconds
    after the second in which its age was checked, then it was first used in
    the very first second (or [delay]) of the six minutes in which it can be
    used at all, three minutes before the time it bears.  The database's clock
    is not behind the server's, and both count from 1970. *)
Theorem pop_single_use hs a1 a2 pj claims1 claims2 pop1 pop2 horizon delay w w1 w2 w3 payload raw :
  JwsCompact_parse pj = Some pj → 0 ≤ at_pop a1 ≤ I64_MAX → 0 ≤ at_pop a2 ≤ I64_MAX →
  verify_pop_proof hs (at_pop a1) pj claims1 = Ok pop1 → check_nonce_replay a1 (pp_nonce pop1) w = (Ok (), w1) →
  rtc (nonce_step horizon) w1 w2 →
  verify_pop_proof hs (at_pop a2) pj claims2 = Ok pop2 → check_nonce_replay a2 (pp_nonce pop2) w2 = (Ok (), w3) →
  jwt_decode pj (cnf claims1) = Some payload → pop_from_slice payload = Some raw →
  at_pop a1 * 1000000 ≤ at_track a1 →
  at_gc a2 ≤ horizon → horizon < (at_pop a2 + 1) * 1000000 + delay →
  (pop_iat raw - POP_MAX_AGE_SECS) * 1000000 ≤ at_track a1
  < (pop_iat raw - POP_MAX_AGE_SECS + 1) * 1000000 + delay.
Proof.
  intros Hpj Hp1 Hp2 Hv1 [_ Ht1]%check_nonce_Ok Hsteps Hv2 [Hno _]%check_nonce_Ok Hd Hs Htr Hgc Hh.
  apply verify_pop_ok in Hv1 as (p1 & r1 & Hd1 & Hs1 & _ & _ & _ & Hage1 & Hn1).
  apply verify_pop_ok in Hv2 as (p2 & r2 & Hd2 & Hs2 & _ & _ & _ & Hage2 & Hn2).
  assert (p1 = payload) as -> by congruence. assert (r1 = raw) as -> by congruence.
  apply (jwt_decode_payload _ _ _ Hpj) in Hd1, Hd2. assert (p2 = payload) as -> by congruence.
  assert (r2 = raw) as -> by congruence. rewrite as_u64_small in Hage1, Hage2 by done.
  unfold POP_MAX_AGE_SECS in *. split; [lia|].
  destruct (Z.lt_ge_cases (at_track a1) ((pop_iat raw - 180 + 1) * 1000000 + delay)) as [|Hge]; [done|].
  exfalso. apply Hno. rewrite Hn2, <-Hn1.
  assert (horizon - NONCE_LIFE ≤ at_track a1) as Hlife.
  { unfold NONCE_LIFE, POP_NONCE_GC_THRESHOLD_SECS, POP_MAX_AGE_SECS. lia. }
  destruct (nonce_steps_keep _ _ _ _ _ Hlife Hsteps Ht1) as (row & Hin & Hn & Hc).
  exists row. split_and!; [done|done|lia].
Qed.

(** * The last second *)

(** All that is recorded of a nonce is from the instant [t]. *)
Definition tracked_only_at (n : str) (t : Z) (tb : Tables) : Prop :=
  ∀ row, row ∈ pop_nonces (auth tb) → n_nonce row = n → n_created_at row = t.

(** Other proofs are presented, and other things happen. *)
Inductive other_proof (n : str) (w w' : World) : Prop :=
| other_presented at_ m r : m ≠ n → check_nonce_replay at_ m w = (r, w') → other_proof n w w'
| other_activity : pop_nonces (auth (tables w')) = pop_nonces (auth (tables w)) → other_proof n w w'.

Definition tracked_still_at (n : str) (t : Z) (tb tb' : Tables) : Prop :=
  tracked_only_at n t tb → tracked_only_at n t tb'.

#[local] Instance tracked_still_at_preorder n t : PreOrder (tracked_still_at n t).
Proof. split; unfold tracked_still_at; [by intros ?|]. intros ? ? ?; auto. Qed.

Lemma keeps_gc_at n t now secs : keeps (tracked_still_at n t) (PopNonceRepository_garbage_collect now secs).
Proof.
  apply keeps_exec. intros now' tx_now tb sq. cbn. intros Hat row [_ Hin]%list_elem_of_filter. by apply Hat.
Qed.

Lemma keeps_other_at n t at_ m : m ≠ n → keeps (tracked_still_at n t) (check_nonce_replay at_ m).
Proof.
  intros Hm. apply keeps_bind; [apply keeps_try, keeps_gc_at|intros _]. apply keeps_map_err.
  unfold PopNonceRepository_check_and_track. keeps_steps. apply keeps_exec. intros now' tx_now tb sq.
  case_match; [done|]. cbn. intros Hat row [Hin| ->%list_elem_of_singleton]%elem_of_app; [by apply Hat|done].
Qed.

Lemma other_proofs_at n t w w' :
  rtc (other_proof n) w w' → tracked_only_at n t (tables w) → tracked_only_at n t (tables w').
Proof.
  induction 1 as [|w1 w2 w3 Hstep _ IH]; [done|]. intros Hat. apply IH. destruct Hstep as [at_ m r Hm Hr|Heq].
  - exact (keeps_run _ _ _ _ _ (keeps_other_at n t at_ m Hm) Hr Hat).
  - intros row. rewrite Heq. apply Hat.
Qed.

Lemma check_nonce_at at_ n w w' :
  check_nonce_replay at_ n w = (Ok (), w') → tracked_only_at n (at_track at_) (tables w').
Proof.
  intros Hr. apply db_bind_Ok in Hr as (rg & w1 & _ & Hr). apply db_map_err_Ok in Hr.
  pose proof Hr as [Hno _]%track_Ok.
  apply db_bind_Ok in Hr as (rows & w2 & Hx & Hr). apply db_map_err_Ok, exec_Ok in Hx.
  destruct (existsb _ _); injection Hx as <- Ht Hs; [done|]. injection Hr as ->. rewrite <-Ht.
  intros row [Hin| ->%list_elem_of_singleton]%elem_of_app Hn; [|done]. by destruct (Hno _ Hin).
Qed.

(** Once the collection can remove all that is recorded, the nonce is new. *)
Lemma check_nonce_forgotten at_ n t w :
  ticks w = [] → tracked_only_at n t (tables w) → t + NONCE_LIFE < at_gc at_ →
  ∃ w', check_nonce_replay at_ n w = (Ok (), w').
Proof.
  intros Hts Hat Hlt. unfold check_nonce_replay, PopNonceRepository_garbage_collect,
    PopNonceRepository_check_and_track, db_map_err, try_db, exec, next_tick. cbv [mbind db_bind].
  rewrite Hts. cbn. destruct (existsb _ _) eqn:E; cbn; [|eauto]. exfalso.
  apply existsb_exists in E as (row & Hin & Hn%bool_decide_eq_true).
  apply list_elem_of_In, list_elem_of_filter in Hin as [Hc Hin]. specialize (Hat _ Hin Hn).
  unfold NONCE_LIFE in Hlt. lia.
Qed.

(** The outcome of a verification depends on the time only through the age. *)
Lemma verify_pop_later hs now now' pj claims pop payload raw :
  verify_pop_proof hs now pj claims = Ok pop →
  jwt_decode pj (cnf claims) = Some payload → pop_from_slice payload = Some raw →
  Z.abs (as_u64 now' - pop_iat raw) ≤ POP_MAX_AGE_SECS → verify_pop_proof hs now' pj claims = Ok pop.
Proof.
  intros Hv Hd Hs Hage. pose proof Hv as (p & r & Hd' & Hs' & _ & _ & _ & Hage1 & _)%verify_pop_ok.
  assert (p = payload) as -> by congruence. assert (r = raw) as -> by congruence.
  rewrite <-Hv. unfold verify_pop_proof, PopProof_verify, pop_verify_signature, check_timestamp. cbn. rewrite Hd.
  cbn. rewrite Hs. cbn. by rewrite !(proj2 (Z.ltb_ge _ _)).
Qed.

Lemma not_revoked_run claims w :
  ticks w = [] → (check_grant_not_revoked claims w).1 = Ok () →
  ∃ w', check_grant_not_revoked claims w = (Ok (), w') ∧ tables w' = tables w ∧ ticks w' = [].
Proof.
  intros Hts. unfold check_grant_not_revoked, GrantRepository_is_revoked, try_db. cbv [mbind db_bind].
  match goal with |- context [select ?f w] => destruct (select_answers f w Hts) as (w' & -> & Ht & Hts') end.
  intros Hr. exists w'. split; [|done]. cbn in *. destruct (fetch_one _ _) as [[]|[]]; by cbn in *.
Qed.

(** (C40) The nonces are collected one second too early: a proof of possession
    can be used twice.  Ages are checked on whole seconds, so a proof can be
    used for 361 seconds, while its nonce is kept for 360.  Whatever the proof,
    if it is first used [x] microseconds after it became valid, then [y > x]
    microseconds into its last second it passes all the checks of an exchange
    again, as the collection that precedes them has removed its nonce.  In
    between there may have been any activity that does not involve this proof,
    and the grant is still good. *)
Theorem pop_replay_in_last_second hs a1 a2 gj pj claims w w1 w2 payload raw x y :
  verify_grant_and_pop hs a1 gj pj w = (Ok claims, w1) →
  jwt_decode pj (cnf claims) = Some payload → pop_from_slice payload = Some raw →
  at_track a1 = (pop_iat raw - POP_MAX_AGE_SECS) * 1000000 + x →
  rtc (other_proof (nonce raw)) w1 w2 → ticks w2 = [] →
  verify_grant (at_expiry a2) gj = Ok claims → (check_grant_not_revoked claims w2).1 = Ok () →
  at_pop a2 = pop_iat raw + POP_MAX_AGE_SECS → 0 ≤ at_pop a2 ≤ I64_MAX →
  at_gc a2 = at_pop a2 * 1000000 + y → x < y →
  ∃ w3, verify_grant_and_pop hs a2 gj pj w2 = (Ok claims, w3).
Proof.
  intros Hv Hd Hs Htr Hother Hts Hg Hrev Hpop Hrange Hgc Hxy.
  apply db_bind_Ok in Hv as (c & w4 & Hc & Hv).
  injection Hc as Hc ->. apply db_bind_Ok in Hv as ([] & w5 & _ & Hv). apply db_bind_Ok in Hv as (pop & w6 & Hp & Hv).
  injection Hp as Hp ->. apply db_bind_Ok in Hv as ([] & w7 & Hn & Hv). injection Hv as -> ->.
  pose proof Hp as (p & r & Hd' & Hs' & _ & _ & _ & _ & Hnonce)%verify_pop_ok.
  assert (p = payload) as -> by congruence. assert (r = raw) as -> by congruence. rewrite Hnonce in Hn.
  apply check_nonce_at in Hn. apply (other_proofs_at _ _ _ _ Hother) in Hn.
  destruct (not_revoked_run _ _ Hts Hrev) as (w8 & Hr & Ht & Hts8). rewrite <-Ht in Hn.
  destruct (check_nonce_forgotten a2 (nonce raw) (at_track a1) w8) as [w3 Hw3]; [done|done|
    unfold NONCE_LIFE, POP_NONCE_GC_THRESHOLD_SECS, POP_MAX_AGE_SECS in *; lia|].
  exists w3. unfold verify_grant_and_pop. rewrite Hg. cbv [mbind db_bind]. cbn. rewrite Hr.
  rewrite (verify_pop_later _ _ (at_pop a2) _ _ _ _ _ Hp Hd Hs); [|rewrite as_u64_small by done; unfold POP_MAX_AGE_SECS in *; lia].
  cbn. by rewrite Hnonce, Hw3.
Qed.

End PopReplay.

(** * Examples *)

Definition demo_granted (ts : list Tick) : World :=
  mk_World (mk_Tables [demo_user_row] [] [] [] no_auth) (mk_Seqs 2 1 1 1 1) 1100 None ts.

(** A request in second [t]; its nonce is recorded 300 ms into it and a
    collection runs 900 ms into it. *)
Definition demo_instants (t : Z) : Instants :=
  mk_Instants t t t (t * 1000000 + 900000) (t * 1000000 + 300000) t t t.

Definition demo_grant_jws : str := lit "g.grant.u".
Definition demo_pop_jws (nonce : str) : str := lit "p." ++ nonce ++ lit ".c".
Definition demo_bearer : str := lit "bearer".

Definition demo_exchange : result AuthServiceError GrantSessionResponse * World :=
  create_grant_session (H := demo_keys) false (demo_instants 1100) demo_bearer demo_grant_jws
    (demo_pop_jws (lit "n1")) (demo_granted []).

Definition demo_claims : @GrantClaims demo_keys :=
  mk_GrantClaims (H := demo_keys) true (lit "app.example") [mk_Capability (mk_StoragePath (lit "/pub/")) [Read; Write]]
    false (lit "grant-1") 900 9000.
Definition demo_pop (nonce : str) : PopProof := mk_PopProof (lit "grant-1") nonce 1000.

Definition demo_response : @GrantSessionResponse demo_keys :=
  mk_GrantSessionResponse demo_bearer
    (mk_GrantSessionInfo (H := demo_keys) false true (lit "app.example")
       [mk_Capability (mk_StoragePath (lit "/pub/")) [Read; Write]] (lit "grant-1") 4700 9000 1100).

Lemma demo_exchange_ok :
  create_grant_session (H := demo_keys) false (demo_instants 1100) demo_bearer demo_grant_jws
    (demo_pop_jws (lit "n1")) (demo_granted []) = (Ok demo_response, demo_exchange.2).
Proof. vm_compute. reflexivity. Qed.

Lemma demo_mint_time :
  0 ≤ at_mint (demo_instants 1100) ≤ I64_MAX - DEFAULT_SESSION_TOKEN_LIFETIME_SECS ∧ 0 ≤ at_issue (demo_instants 1100).
Proof. cbn. unfold I64_MAX, DEFAULT_SESSION_TOKEN_LIFETIME_SECS. lia. Qed.

Lemma exchange_mints_bearer_witness :
  is_ok demo_exchange.1 = true ∧
  ∃ claims row, verify_grant (H := demo_keys) (at_expiry (demo_instants 1100)) demo_grant_jws = Ok claims ∧
    t_grant_id row = jti claims ∧ row ∈ grant_sessions (auth (tables demo_exchange.2)).
Proof.
  split; [vm_compute; reflexivity|].
  destruct (exchange_mints_bearer (H := demo_keys) false (demo_instants 1100) demo_bearer demo_grant_jws
    (demo_pop_jws (lit "n1")) (demo_granted []) demo_response demo_exchange.2
    (proj1 demo_mint_time) (proj2 demo_mint_time) demo_exchange_ok)
    as (claims & row & Hv & _ & _ & _ & Hid & Hs & _).
  exists claims, row. split; [exact Hv|]. split; [exact Hid|].
  rewrite Hs. apply elem_of_app. right. apply list_elem_of_singleton. reflexivity.
Defined.

(** The grant is revoked, and the client tries the exchange again. *)
Definition demo_revoked : World := (service_revoke_grant 1200 (lit "grant-1") demo_exchange.2).2.
Definition demo_retry : result HttpError GrantSessionResponse * World :=
  create_grant_session_route (H := demo_keys) false (demo_instants 1300) demo_bearer demo_grant_jws
    (demo_pop_jws (lit "n2")) demo_revoked.

Lemma demo_grants_inv : grants_inv (tables demo_exchange.2).
Proof.
  split_and!; [apply (bool_decide_unpack _); vm_compute; exact I..|].
  intros t Ht. set (l := grant_sessions _) in Ht. vm_compute in l. subst l.
  apply list_elem_of_singleton in Ht as ->. eexists. split; [|split].
  - set (l := grants _). vm_compute in l. subst l. left.
  - reflexivity.
  - reflexivity.
Qed.

Lemma demo_has_grant : has_grant (lit "grant-1") (tables demo_exchange.2) = true.
Proof. vm_compute. reflexivity. Qed.
Lemma demo_revoke_ok : service_revoke_grant 1200 (lit "grant-1") demo_exchange.2 = (Ok (), demo_revoked).
Proof. vm_compute. reflexivity. Qed.
Lemma demo_retry_eq :
  create_grant_session_route (H := demo_keys) false (demo_instants 1300) demo_bearer demo_grant_jws
    (demo_pop_jws (lit "n2")) demo_revoked = (demo_retry.1, demo_retry.2).
Proof. vm_compute. reflexivity. Qed.
Lemma demo_retry_step : rtc (grant_step (H := demo_keys)) demo_revoked demo_retry.2.
Proof.
  exact (rtc_once _ _ (step_create_session demo_revoked demo_retry.2 false (demo_instants 1300) demo_bearer
    demo_grant_jws (demo_pop_jws (lit "n2")) demo_retry.1 demo_retry_eq)).
Qed.

Lemma revocation_is_final_witness :
  is_ok demo_retry.1 = false ∧
  lit "grant-1" ∉ map t_grant_id (grant_sessions (auth (tables demo_retry.2))).
Proof.
  split; [vm_compute; reflexivity|].
  exact (proj1 (proj2 (revocation_is_final (H := demo_keys) (lit "grant-1") 1200 demo_exchange.2 demo_revoked demo_retry.2
    demo_grants_inv demo_has_grant demo_revoke_ok demo_retry_step))).
Defined.

Lemma tokens_authentic_witness :
  ∃ payload, jwt_decode (Jws := demo_jws) demo_grant_jws (true : @PublicKey demo_keys) = Some payload ∧
    grant_from_slice (H := demo_keys) payload = Some demo_claims.
Proof.
  exact (proj1 (tokens_authentic (H := demo_keys) false 1100 1100 demo_grant_jws (demo_pop_jws (lit "n1"))
    demo_claims (demo_pop (lit "n1")) ltac:(vm_compute; reflexivity) ltac:(vm_compute; reflexivity)
    ltac:(vm_compute; reflexivity))).
Defined.

(** The proof bears the time 1000; it is used 300 ms after it becomes valid and
    again in its last second. *)
Definition demo_first : World := (check_nonce_replay (demo_instants 820) (lit "n1") (demo_granted [])).2.
Definition demo_second : World := (check_nonce_replay (demo_instants 1180) (lit "n1") demo_first).2.

Lemma pop_single_use_witness :
  is_ok (check_nonce_replay (demo_instants 1180) (lit "n1") demo_first).1 = true ∧
  at_track (demo_instants 820) < (1000 - POP_MAX_AGE_SECS + 1) * 1000000.
Proof.
  split; [vm_compute; reflexivity|]. rewrite <-(Z.add_0_r (_ * _)).
  refine (proj2 (pop_single_use (H := demo_keys) false (demo_instants 820) (demo_instants 1180) (demo_pop_jws (lit "n1"))
    demo_claims demo_claims (demo_pop (lit "n1")) (demo_pop (lit "n1")) 1180900000 0
    (demo_granted []) demo_first demo_first demo_second (lit "n1")
    (mk_PopProofClaims (H := demo_keys) false (lit "grant-1") (lit "n1") 1000) _ _ _ _ _ (rtc_refl _ _) _ _ _ _ _ _ _));
    (vm_compute; reflexivity) || (cbn; unfold I64_MAX; lia).
Defined.

(** The same proof is used once more, with 900 ms of the last second gone. *)
Definition demo_checked : World :=
  (verify_grant_and_pop (H := demo_keys) false (demo_instants 820) demo_grant_jws (demo_pop_jws (lit "n1"))
     (demo_granted [])).2.

Lemma pop_replay_in_last_second_witness :
  ∃ w3, verify_grant_and_pop (H := demo_keys) false (demo_instants 1180) demo_grant_jws (demo_pop_jws (lit "n1"))
    demo_checked = (Ok demo_claims, w3).
Proof.
  refine (pop_replay_in_last_second (H := demo_keys) false (demo_instants 820) (demo_instants 1180) demo_grant_jws
    (demo_pop_jws (lit "n1")) demo_claims (demo_granted []) demo_checked demo_checked (lit "n1")
    (mk_PopProofClaims (H := demo_keys) false (lit "grant-1") (lit "n1") 1000) 300000 900000
    _ _ _ _ (rtc_refl _ _) _ _ _ _ _ _ _);
    (vm_compute; reflexivity) || (cbn; unfold I64_MAX; lia).
Defined.
