(* ===== verification/CookieAuth.v ===== *)
(** Cookie authentication: auth tokens ([pubky-common/src/auth/auth_token.rs]),
    their replay guard ([client_server/auth/cookie/verifier.rs]), the
    [sessions] table ([client_server/auth/cookie/persistence.rs]) and the service
    ([client_server/auth/cookie/service.rs]).

    Decoding a token with [postcard] and checking its signature belong to
    crates, as does the random secret of a session, which is an argument.
    Token times are in microseconds. *)

From S2P Require Import Prelude BinarySearch StoragePath Capabilities HttpError Keys Quota Database Users Signup.
From S2P Require Import Authorization GrantTokens Grants.

(** * Auth tokens *)

Inductive AuthTokenError :=
| UnknownVersion
| TooFarInTheFuture
| TokenExpired
| TokenInvalidSignature
| TokenParsing
| TokenAlreadyUsed
(** [unreachable!()]. *)
| TokenPanic.

(** The [postcard] message of a parsing error is not modelled. *)
Definition HttpError_from_auth_token (e : AuthTokenError) : HttpError :=
  match e with
  | UnknownVersion => HttpError_bad_request (lit "Unknown version")
  | TooFarInTheFuture =>
      HttpError_bad_request (lit "AuthToken has a timestamp that is more than 3 minutes in the future")
  | TokenExpired =>
      HttpError_bad_request (lit "AuthToken has a timestamp that is more than 3 minutes in the past")
  | TokenInvalidSignature => HttpError_bad_request (lit "Invalid Signature")
  | TokenParsing => mk_HttpError 400 None None
  | TokenAlreadyUsed => HttpError_bad_request (lit "AuthToken already used")
  | TokenPanic => HttpError_internal_server
  end.

Definition CURRENT_VERSION : Z := 0.
Definition TIMESTAMP_WINDOW : Z := 180 * 1000000.

Section CookieTypes.
Context `{PkarrKeys}.

Record AuthToken := mk_AuthToken {
  tok_signature : list Z;
  tok_namespace : list Z;
  tok_version : Z;
  tok_timestamp : Z;
  tok_public_key : PublicKey;
  tok_capabilities : Capabilities
}.

Record TokenId := mk_TokenId {
  ti_timestamp : Z;
  ti_public_key : PublicKey
}.

#[export] Instance TokenId_eq_dec : EqDecision TokenId.
Proof. solve_decision. Defined.

End CookieTypes.

(** [postcard::from_bytes], [PublicKey::verify] and [PublicKey::as_bytes]. *)
Class AuthTokenCodec `{PkarrKeys} := {
  postcard_token : list Z → option AuthToken;
  key_verifies : PublicKey → list Z → list Z → bool;
  key_bytes : PublicKey → list Z
}.

(** The layout: 64 bytes of signature and 10 of namespace precede the version;
    timestamps are 64 bits wide, and capabilities are decoded by their parser.
    Keys are their bytes. *)
Class AuthTokenCodecLaws `{AuthTokenCodec} := {
  postcard_version bytes token : postcard_token bytes = Some token → bytes !! 74%nat = Some (tok_version token);
  postcard_timestamp bytes token : postcard_token bytes = Some token → in_u64 (tok_timestamp token);
  postcard_capabilities bytes token :
    postcard_token bytes = Some token → ∃ s, Capabilities_from_str s = Ok (tok_capabilities token);
  key_bytes_inj k k' : key_bytes k = key_bytes k' → k = k'
}.

Section CookieAuth.
Context `{PkarrKeys, JsonStrings, Base32, !Jws, Sha256, Calendar, !AuthTokenCodec}.

Definition AuthToken_signable (version : Z) (bytes : list Z) : list Z := drop 65 bytes.

Definition AuthToken_verify (now : Z) (bytes : list Z) : result AuthTokenError AuthToken :=
  version ← ok_or (bytes !! 74%nat) TokenParsing;
  if CURRENT_VERSION <? version then Err UnknownVersion
  else
    token ← ok_or (postcard_token bytes) TokenParsing;
    if tok_version token =? 0 then
      let diff := as_i64 (as_i64 (tok_timestamp token) - as_i64 now) in
      if TIMESTAMP_WINDOW <? diff then Err TooFarInTheFuture
      else if diff <? - TIMESTAMP_WINDOW then Err TokenExpired
      else if key_verifies (tok_public_key token) (AuthToken_signable (tok_version token) bytes)
                (tok_signature token)
      then Ok token else Err TokenInvalidSignature
    else Err TokenPanic.

(** * The replay guard *)

Definition TokenId_cmp (a b : TokenId) : comparison :=
  then_with (ti_timestamp a ?= ti_timestamp b)
    (bytes_cmp (key_bytes (ti_public_key a)) (key_bytes (ti_public_key b))).

(** [ReplayGuard { seen }]; [binary_search] compares the element to the target. *)
Definition ReplayGuard_check_and_track (id : TokenId) (seen : list TokenId)
    : result AuthTokenError () * list TokenId :=
  match binary_search_by (λ x, TokenId_cmp x id) seen with
  | Found _ => (Err TokenAlreadyUsed, seen)
  | InsertAt index => (Ok (), take index seen ++ id :: drop index seen)
  end.

Definition ReplayGuard_gc (now : Z) (seen : list TokenId) : list TokenId :=
  let cutoff := now - 2 * TIMESTAMP_WINDOW in
  let expired_count := partition_point (λ id, ti_timestamp id <? cutoff) seen in
  drop expired_count seen.

(** [now] when the token is checked, [now_gc] under the guard's lock. *)
Definition CookieAuthVerifier_verify (now now_gc : Z) (bytes : list Z) (seen : list TokenId)
    : result AuthTokenError AuthToken * list TokenId :=
  match AuthToken_verify now bytes with
  | Err e => (Err e, seen)
  | Ok token =>
      let id := mk_TokenId (tok_timestamp token) (tok_public_key token) in
      let seen := ReplayGuard_gc now_gc seen in
      let '(r, seen) := ReplayGuard_check_and_track id seen in
      (match r with Ok _ => Ok token | Err e => Err e end, seen)
  end.

(** * The [sessions] table *)

(** The newtype [SessionSecret(String)]; [None] stands for the [anyhow] error. *)
Definition SessionSecret_new (secret : str) : option str :=
  if bool_decide (str_len secret = 26) then Some secret else None.

Definition session_join (tb : Tables) (s : SessionRow) : SessionRow * option str :=
  (s, u_public_key ∘ snd <$> list_find (λ u, u_id u = s_user s) (users tb)).

Definition SessionEntity_from_row (row : SessionRow * option str) : result SqlError SessionEntity :=
  secret ← ok_or (SessionSecret_new (s_secret row.1)) Decode;
  user_public_key ← ok_or row.2 Decode;
  user_public_key ← map_err (λ _, Decode) (PublicKey_from_str user_public_key);
  capabilities ← map_err (λ _, Decode) (Capabilities_from_str (s_capabilities row.1));
  Ok (mk_SessionEntity (s_id row.1) secret (s_user row.1) user_public_key capabilities (s_created_at row.1)).

(** [INSERT .. RETURNING secret], under the unique key on the secret and the
    foreign key to [users]. *)
Definition SessionRepository_create (random_secret : str) (user_id : Z) (capabilities : Capabilities)
    : DB SqlError str :=
  secret ← exec (λ _ tx_now tb sq,
    let sq' := mk_Seqs (seq_users sq) (seq_entries sq) (seq_events sq) (seq_sessions sq + 1)
                 (seq_grant_sessions sq) in
    if existsb (λ s, bool_decide (s_secret s = random_secret)) (sessions (auth tb)) then
      (Err UniqueViolation, tb, sq')
    else if negb (existsb (λ u, u_id u =? user_id) (users tb)) then (Err ForeignKeyViolation, tb, sq')
    else (Ok random_secret,
          set_sessions (λ l, l ++ [mk_SessionRow (seq_sessions sq) random_secret user_id
                                     (Capabilities_fmt capabilities) tx_now]) tb, sq'));
  lift_result (ok_or (SessionSecret_new secret) Decode).

Definition SessionRepository_get_by_secret (secret : str) : DB SqlError SessionEntity :=
  select (λ _ tb, fetch_one SessionEntity_from_row
    (map (session_join tb) (filter (λ s, s_secret s = secret) (sessions (auth tb))))).

Definition SessionRepository_delete (secret : str) : DB SqlError () :=
  exec (λ _ _ tb sq, (Ok (), set_sessions (filter (λ s, s_secret s ≠ secret)) tb, sq)).

(** * The service *)

Record CookieSessionCreation := mk_CookieSessionCreation {
  cs_public_key : PublicKey;
  cs_session_secret : str;
  cs_capabilities : Capabilities
}.

Definition create_session (random_secret : str) (user_id : Z) (capabilities : Capabilities) : DB SqlError str :=
  SessionRepository_create random_secret user_id capabilities.

(** The clocks of a request: the token's check, the guard's, the cache's. *)
Record TokenInstants := mk_TokenInstants {
  tk_verify : Z;
  tk_gc : Z;
  tk_cache : Z
}.

Definition cookie_signin (tk : TokenInstants) (random_secret : str) (body : list Z)
    (seen : list TokenId) (w : World)
    : result HttpError CookieSessionCreation * list TokenId * World :=
  match CookieAuthVerifier_verify (tk_verify tk) (tk_gc tk) body seen with
  | (Err e, seen) => (Err (HttpError_from_auth_token e), seen, w)
  | (Ok token, seen) =>
      let '(r, w) :=
        (user ← db_map_err (λ e, match e with RowNotFound => HttpError_not_found | e => HttpError_from_sqlx e end)
                  (UserRepository_get (tok_public_key token));
         session_secret ← db_map_err HttpError_from_sqlx
                            (create_session random_secret (ue_id user) (tok_capabilities token));
         mret (mk_CookieSessionCreation (ue_public_key user) session_secret (tok_capabilities token))) w in
      (r, seen, w)
  end.

Definition cookie_signup (tk : TokenInstants) (mode : SignupMode) (random_secret : str) (body : list Z)
    (signup_token : option str) (seen : list TokenId) (c : list (PublicKey * CachedEntry)) (w : World)
    : result HttpError CookieSessionCreation * list TokenId * list (PublicKey * CachedEntry) * World :=
  match CookieAuthVerifier_verify (tk_verify tk) (tk_gc tk) body seen with
  | (Err e, seen) => (Err (HttpError_from_auth_token e), seen, c, w)
  | (Ok token, seen) =>
      match create_new_user mode (tk_cache tk) (tok_public_key token) signup_token c w with
      | (Err e, c, w) => (Err (HttpError_from_signup e), seen, c, w)
      | (Ok user, c, w) =>
          let '(r, w) :=
            (session_secret ← db_map_err HttpError_from_sqlx
                                (create_session random_secret (ue_id user) (tok_capabilities token));
             mret (mk_CookieSessionCreation (ue_public_key user) session_secret (tok_capabilities token))) w in
          (r, seen, c, w)
      end
  end.

Definition resolve_active_session_for_user (secret : str) (public_key : PublicKey)
    : DB SqlError (option SessionEntity) :=
  session ← SessionRepository_get_by_secret secret;
  mret (if bool_decide (se_user_pubkey session = public_key) then Some session else None).

Definition resolve_session_from_cookie (cookie_value : option str) (public_key : PublicKey) (w : World)
    : option AuthSession * World :=
  match cookie_value ≫= SessionSecret_new with
  | None => (None, w)
  | Some session_secret =>
      let '(r, w) := resolve_active_session_for_user session_secret public_key w in
      (CookieSession <$> (ok r ≫= id), w)
  end.

Definition cookie_signout (auth : option AuthSession) : DB HttpError () :=
  match auth with
  | Some (CookieSession cookie_session) =>
      in_transaction HttpError_from_sqlx (
        db_map_err HttpError_from_sqlx (SessionRepository_delete (se_secret cookie_session)) ;;
        db_map_err HttpError_from_sqlx (notify_in_transaction (RevokedCookieSession (se_id cookie_session))))
  | _ => mret ()
  end.

Definition validate_active_session (session : SessionEntity) : DB HttpError () :=
  r ← try_db (resolve_active_session_for_user (se_secret session) (se_user_pubkey session));
  match r with
  | Ok (Some _) => mret ()
  | Ok None => throw HttpError_unauthorized
  | Err RowNotFound => throw HttpError_unauthorized
  | Err error => throw (HttpError_from_sqlx error)
  end.

(** * Authenticating a request ([client_server/auth/middleware/], the two
    [middleware.rs], [client_server/auth/state.rs]) *)

(** The grant layer; it never rejects.  [tracing] aside, every error leaves the
    request without an identity. *)
Definition GrantAuthentication_call (now : Z) (authorization : option (list Z)) (w : World)
    : option AuthSession * World :=
  match extract_bearer_token authorization with
  | BearerPresent bearer =>
      let '(r, w) := resolve_grant_session_by_bearer now bearer w in
      (BearerSession <$> ok r, w)
  | BearerMissing | InvalidBearer | NonBearer => (None, w)
  end.

(** The cookie layer; [cookies] is the request's jar, if any. *)
Definition CookieAuthentication_call (extension : option AuthSession) (cookies : option (str → option str))
    (tenant : option PublicKey) (w : World) : option AuthSession * World :=
  match extension, cookies, tenant with
  | Some session, _, _ => (Some session, w)
  | None, Some jar, Some public_key =>
      resolve_session_from_cookie (jar (PublicKey_z32 public_key)) public_key w
  | None, _, _ => (None, w)
  end.

(** [AuthenticationLayer]: grants first, then cookies. *)
Definition authenticate (now : Z) (authorization : option (list Z)) (cookies : option (str → option str))
    (tenant : option PublicKey) (w : World) : option AuthSession * World :=
  let '(session, w) := GrantAuthentication_call now authorization w in
  CookieAuthentication_call session cookies tenant w.

(** The strict extractor. *)
Definition AuthSession_from_request_parts (extension : option AuthSession) : HttpResult AuthSession :=
  ok_or extension (HttpError_unauthorized_with_message (lit "No authenticated session found")).

Definition validate_private_stream_session (now : Z) (session : AuthSession) : DB HttpError () :=
  match session with
  | CookieSession cookie => validate_active_session cookie
  | BearerSession grant =>
      db_map_err HttpError_from_auth (validate_active_grant_session now grant) ;; mret ()
  end.

(** * Records sent to clients ([pubky-common/src/session.rs]) *)

Record CookieSessionRecord := mk_CookieSessionRecord {
  cr_version : Z;
  cr_public_key : PublicKey;
  cr_created_at : Z;
  cr_name : str;
  cr_user_agent : str;
  cr_capabilities : Capabilities
}.

Definition CookieSessionRecord_new (now : Z) (public_key : PublicKey) (capabilities : Capabilities)
    (user_agent : option str) : CookieSessionRecord :=
  mk_CookieSessionRecord 0 public_key now (default [] user_agent) (default [] user_agent) capabilities.

Definition SessionEntity_to_legacy (now : Z) (self : SessionEntity) : CookieSessionRecord :=
  let record := CookieSessionRecord_new now (se_user_pubkey self) (se_capabilities self) None in
  mk_CookieSessionRecord (cr_version record) (cr_public_key record) (as_u64 (se_created_at self))
    (cr_name record) (cr_user_agent record) (cr_capabilities record).

Definition cookie_get_session (now : Z) (auth : AuthSession) : HttpResult CookieSessionRecord :=
  match auth with
  | CookieSession cookie_session => Ok (SessionEntity_to_legacy now cookie_session)
  | BearerSession _ => Err HttpError_unauthorized
  end.

End CookieAuth.

(** * A small instance *)

(** A token of the user, which only the bytes 74 (version) and 75 (time)
    determine; every signature is valid. *)
Definition demo_token_of (v t : Z) : @AuthToken demo_keys :=
  mk_AuthToken (H := demo_keys) [] [] v (1000000000 + t mod 256) true
    [mk_Capability (mk_StoragePath (lit "/pub/")) [Read; Write]].

#[export] Instance demo_codec : @AuthTokenCodec demo_keys := {|
  postcard_token bytes := v ← bytes !! 74%nat; t ← bytes !! 75%nat; Some (demo_token_of v t);
  key_verifies _ _ _ := true;
  key_bytes k := demo_z32 k
|}.

#[export] Instance demo_codec_laws : AuthTokenCodecLaws.
Proof.
  split; cbn [postcard_token demo_codec].
  - intros bytes token. destruct (bytes !! 74%nat) as [v|]; [|done]. cbn [mbind option_bind].
    destruct (bytes !! 75%nat); [|done]. by intros [= <-].
  - intros bytes token. destruct (bytes !! 74%nat) as [v|]; [|done]. cbn [mbind option_bind].
    destruct (bytes !! 75%nat) as [t|]; [|done]. intros [= <-]. cbn. unfold in_u64, U64_MAX.
    pose proof (Z.mod_pos_bound t 256). lia.
  - intros bytes token. destruct (bytes !! 74%nat) as [v|]; [|done]. cbn [mbind option_bind].
    destruct (bytes !! 75%nat) as [t|]; [|done]. intros [= <-]. exists (lit "/pub/:rw"). vm_compute. reflexivity.
  - intros [] []; (done || (intros E; vm_compute in E; discriminate E)).
Qed.

Definition demo_token_bytes (t : Z) : list Z := repeat 0 75 ++ [t].
