(* ===== verification/CookieProofs.v ===== *)
(** Cookie authentication: the replay guard, sessions, and the authentication
    of requests. *)

From stdpp Require Import relations.
From S2P Require Import Prelude BinarySearch StoragePath Capabilities HttpError Keys Quota Database Users Signup.
From S2P Require Import Authorization GrantTokens Grants GrantProofs CookieAuth.

Section CookieProofs.
Context `{PkarrKeysLaws, JsonStrings, Base32, !Jws, Sha256, Calendar, !AuthTokenCodec, !AuthTokenCodecLaws}.

(** * The replay guard *)

#[local] Instance TokenId_comparison : Comparison TokenId_cmp.
Proof.
  apply (then_with_comparison ti_timestamp (λ a, key_bytes (ti_public_key a)) Z.compare bytes_cmp).
  intros [t k] [t' k']. cbn. intros -> ->%key_bytes_inj. done.
Qed.

(** The guard's vector is strictly increasing. *)
Definition guard_sorted (seen : list TokenId) : Prop :=
  StronglySorted (λ a b, TokenId_cmp a b = Lt) seen.

Lemma sorted_lookup {A} (R : A → A → Prop) l i j x y :
  StronglySorted R l → (i < j)%nat → l !! i = Some x → l !! j = Some y → R x y.
Proof.
  intros Hl. revert i j. induction Hl as [|a l Hl IH Ha]; intros i j Hij Hx Hy; [done|].
  destruct j as [|j]; [lia|]. destruct i as [|i].
  - injection Hx as <-. rewrite Forall_forall in Ha. apply Ha. by eapply list_elem_of_lookup_2.
  - eapply IH; [|exact Hx|exact Hy]. lia.
Qed.

Lemma guard_ordered id seen : guard_sorted seen → ordered (λ x, TokenId_cmp x id) seen.
Proof.
  intros Hs i j x y Hij Hx Hy. pose proof (sorted_lookup _ _ _ _ _ _ Hs Hij Hx Hy) as Hlt. cbn in Hlt. split.
  - intros Hy'. by eapply cmp_lt_trans.
  - intros Hgt. rewrite cmp_opp in Hgt |- *. destruct (TokenId_cmp id x) eqn:E; try done.
    by rewrite (cmp_lt_trans _ _ _ E Hlt).
Qed.

Lemma check_and_track_spec id seen r seen' :
  guard_sorted seen → ReplayGuard_check_and_track id seen = (r, seen') →
  (id ∈ seen → r = Err TokenAlreadyUsed ∧ seen' = seen) ∧
  (id ∉ seen → r = Ok () ∧ guard_sorted seen' ∧ seen' ≡ₚ id :: seen).
Proof.
  intros Hs. pose proof (binary_search_spec _ _ (guard_ordered id seen Hs)) as Hb.
  unfold ReplayGuard_check_and_track. destruct (binary_search_by _ seen) as [i|i]; intros [= <- <-].
  { destruct Hb as (x & Hx & ->%cmp_eq). apply list_elem_of_lookup_2 in Hx. done. }
  destruct Hb as (Hi & Hlo & Hhi).
  assert (∀ x, x ∈ take i seen → TokenId_cmp x id = Lt) as Hlo'.
  { intros x (j & Hx & Hj)%elem_of_take. eauto. }
  assert (∀ x, x ∈ drop i seen → TokenId_cmp id x = Lt) as Hhi'.
  { intros x [j Hx]%list_elem_of_lookup. rewrite lookup_drop in Hx. rewrite cmp_opp.
    by rewrite (Hhi (i + j)%nat x ltac:(lia) Hx). }
  split.
  - intros Hin. exfalso. rewrite <-(take_drop i seen) in Hin.
    assert (TokenId_cmp id id = Eq) as Hid by by apply cmp_eq.
    apply elem_of_app in Hin as [Hin%Hlo'|Hin%Hhi']; congruence.
  - intros _. split_and!; [done| |].
    + unfold guard_sorted in *. rewrite <-(take_drop i seen) in Hs. apply StronglySorted_app; split_and!.
      * intros x y Hx [->|Hy]%elem_of_cons; [by apply Hlo'|]. eapply cmp_lt_trans; [by apply Hlo'|by apply Hhi'].
      * by apply StronglySorted_app_1_l in Hs.
      * constructor; [by apply StronglySorted_app_1_r in Hs|]. apply Forall_forall, Hhi'.
    + rewrite <-(take_drop i seen) at 3. by rewrite Permutation_middle.
Qed.

Lemma gc_spec now seen :
  guard_sorted seen →
  ReplayGuard_gc now seen = filter (λ id, (ti_timestamp id <? now - 2 * TIMESTAMP_WINDOW) = false) seen.
Proof.
  intros Hs. unfold ReplayGuard_gc. apply (partition_point_drop (λ id, ti_timestamp id <? now - 2 * TIMESTAMP_WINDOW)).
  intros i j x y Hij Hx Hy ?%Z.ltb_lt. apply Z.ltb_lt. pose proof (sorted_lookup _ _ _ _ _ _ Hs Hij Hx Hy) as Hlt.
  unfold TokenId_cmp in Hlt. destruct (Z.compare_spec (ti_timestamp x) (ti_timestamp y)); [lia|lia|done].
Qed.

Lemma gc_sorted now seen : guard_sorted seen → guard_sorted (ReplayGuard_gc now seen).
Proof.
  intros Hs. unfold ReplayGuard_gc, guard_sorted in *. 
  generalize (partition_point (λ id, ti_timestamp id <? now - 2 * TIMESTAMP_WINDOW) seen). intros n. rewrite <-(take_drop n seen) in Hs. by apply StronglySorted_app_1_r in Hs.
Qed.

(** The replay guard is a set of tokens.  Kept as a vector in increasing
    order and searched by bisection, it behaves as the set of its elements:
    collection removes exactly the tokens older than twice the window, a token
    is refused exactly if it is in the set, otherwise it is added to it, and
    the vector stays in increasing order, without duplicates. *)
Theorem replay_guard_is_a_set now id seen r seen' :
  guard_sorted seen → ReplayGuard_check_and_track id (ReplayGuard_gc now seen) = (r, seen') →
  (∀ x, x ∈ ReplayGuard_gc now seen ↔ x ∈ seen ∧ now - 2 * TIMESTAMP_WINDOW ≤ ti_timestamp x) ∧
  (r = Err TokenAlreadyUsed ↔ id ∈ ReplayGuard_gc now seen) ∧
  (r = Ok () ↔ id ∉ ReplayGuard_gc now seen) ∧
  (∀ x, x ∈ seen' ↔ x = id ∨ x ∈ ReplayGuard_gc now seen) ∧
  guard_sorted seen' ∧ NoDup seen'.
Proof.
  intros Hs Hr. pose proof (gc_sorted now seen Hs) as Hg.
  destruct (check_and_track_spec _ _ _ _ Hg Hr) as [Hin Hout].
  assert (guard_sorted seen' ∧ ∀ x, x ∈ seen' ↔ x = id ∨ x ∈ ReplayGuard_gc now seen) as [Hs' Hmem].
  { destruct (decide (id ∈ ReplayGuard_gc now seen)) as [Hi|Hi].
    - destruct (Hin Hi) as [_ ->]. split; [done|]. intros x. split; [by right|]. by intros [->|?].
    - destruct (Hout Hi) as (_ & ? & Hp). split; [done|]. intros x. by rewrite Hp, elem_of_cons. }
  split_and!; [| | |done|done|].
  - intros x. rewrite gc_spec, list_elem_of_filter, Z.ltb_ge by done. tauto.
  - destruct (decide (id ∈ ReplayGuard_gc now seen)); naive_solver.
  - destruct (decide (id ∈ ReplayGuard_gc now seen)); naive_solver.
  - clear Hmem Hin Hout Hr. induction Hs' as [|x l _ IH Hx]; constructor; [|done]. intros Hin.
    rewrite Forall_forall in Hx. specialize (Hx x Hin). by rewrite (proj2 (cmp_eq x x) eq_refl) in Hx.
Qed.

(** * Tokens are good once *)

Definition token_id (token : AuthToken) : TokenId := mk_TokenId (tok_timestamp token) (tok_public_key token).

(** An accepted token bears a time in the window; a clock between six minutes
    after the epoch and the middle of the range of [i64] does not overflow. *)
Lemma AuthToken_verify_window now bytes token :
  2 * TIMESTAMP_WINDOW ≤ now ≤ I64_MAX - 2 * TIMESTAMP_WINDOW → AuthToken_verify now bytes = Ok token →
  now - TIMESTAMP_WINDOW ≤ tok_timestamp token ≤ now + TIMESTAMP_WINDOW ∧
  key_verifies (tok_public_key token) (drop 65 bytes) (tok_signature token) = true ∧ tok_version token = 0.
Proof.
  unfold AuthToken_verify. intros Hnow Hr.
  destruct (bytes !! 74%nat) as [v|]; cbn in Hr; [|done].
  destruct (CURRENT_VERSION <? v); [done|].
  destruct (postcard_token bytes) as [tk|] eqn:Ep; cbn in Hr; [|done].
  destruct (Z.eqb_spec (tok_version tk) 0); [|done].
  set (d := as_i64 (as_i64 (tok_timestamp tk) - as_i64 now)) in Hr.
  destruct (Z.ltb_spec TIMESTAMP_WINDOW d); [done|]. destruct (Z.ltb_spec d (- TIMESTAMP_WINDOW)); [done|].
  unfold AuthToken_signable in Hr. destruct (key_verifies _ _ _) eqn:Ek in Hr; [|done]. injection Hr as <-.
  split_and!; [..|done|done]; apply postcard_timestamp in Ep; unfold in_u64, U64_MAX, I64_MAX, TIMESTAMP_WINDOW in *.
  all: unfold d, as_i64 in *; rewrite (Z.mod_small (now + _)) in * by lia.
  all: pose proof (Z.mod_bound_pos (tok_timestamp tk + 9223372036854775808) 18446744073709551616).
  all: Z.div_mod_to_equations; lia.
Qed.

(** Verifications by one server process; the guard lives in its memory. *)
Inductive verify_step (horizon : Z) (seen seen' : list TokenId) : Prop :=
| step_verify now now_gc bytes r :
    now_gc ≤ horizon → CookieAuthVerifier_verify now now_gc bytes seen = (r, seen') →
    verify_step horizon seen seen'.

Lemma verify_run now now_gc bytes seen r seen' :
  guard_sorted seen → CookieAuthVerifier_verify now now_gc bytes seen = (r, seen') →
  guard_sorted seen' ∧
  (∀ x, x ∈ seen → now_gc - 2 * TIMESTAMP_WINDOW ≤ ti_timestamp x → x ∈ seen') ∧
  match AuthToken_verify now bytes with
  | Err e => r = Err e
  | Ok token =>
      token_id token ∈ seen' ∧
      (token_id token ∈ ReplayGuard_gc now_gc seen → r = Err TokenAlreadyUsed) ∧
      (token_id token ∉ ReplayGuard_gc now_gc seen → r = Ok token)
  end.
Proof.
  unfold CookieAuthVerifier_verify. intros Hs Hr. pose proof (gc_sorted now_gc seen Hs) as Hg.
  assert (∀ x, x ∈ seen → now_gc - 2 * TIMESTAMP_WINDOW ≤ ti_timestamp x → x ∈ ReplayGuard_gc now_gc seen) as Hkeep.
  { intros x Hx Ht. rewrite gc_spec by done. apply list_elem_of_filter. by rewrite Z.ltb_ge. }
  destruct (AuthToken_verify now bytes) as [token|e]; [|by injection Hr as <- <-].
  fold (token_id token) in Hr.
  destruct (ReplayGuard_check_and_track _ _) as [r1 s1] eqn:E.
  apply check_and_track_spec in E as [Hin Hout]; [|done]. injection Hr as Hr <-.
  destruct (decide (token_id token ∈ ReplayGuard_gc now_gc seen)) as [Hi|Hi].
  - destruct (Hin Hi) as [-> ->]. split_and!; try done; by subst.
  - destruct (Hout Hi) as (-> & Hs1 & Hp). split_and!; [done| |rewrite Hp; left|done|by subst].
    intros x Hx Ht. rewrite Hp. right. auto.
Qed.

Lemma verify_steps_keep horizon seen seen' x :
  guard_sorted seen → rtc (verify_step horizon) seen seen' → x ∈ seen →
  horizon - 2 * TIMESTAMP_WINDOW ≤ ti_timestamp x → guard_sorted seen' ∧ x ∈ seen'.
Proof.
  intros Hs Hsteps. revert Hs. induction Hsteps as [|s1 s2 s3 [now now_gc bytes r Hgc Hr] _ IH]; [done|].
  intros Hs Hx Ht. apply verify_run in Hr as (Hs2 & Hkeep & _); [|done]. apply IH; [done| |done].
  apply Hkeep; [done|lia].
Qed.

(** An auth token signs in once.  After a token was accepted, no token
    with the same time and key, whatever else it carries, is accepted by this
    process again, however many verifications come in between: it is either no
    longer valid or refused as already used.  The only condition is that no
    collection ran more than three minutes after the clock was read for the
    last check, and that the clock is not at the ends of its range. *)
Theorem auth_token_single_use n1 g1 bytes1 token1 seen s1 horizon s2 n2 g2 bytes2 token2 r s3 :
  guard_sorted seen →
  2 * TIMESTAMP_WINDOW ≤ n1 ≤ I64_MAX - 2 * TIMESTAMP_WINDOW →
  2 * TIMESTAMP_WINDOW ≤ n2 ≤ I64_MAX - 2 * TIMESTAMP_WINDOW →
  CookieAuthVerifier_verify n1 g1 bytes1 seen = (Ok token1, s1) →
  rtc (verify_step horizon) s1 s2 → g2 ≤ horizon → horizon ≤ n2 + TIMESTAMP_WINDOW →
  AuthToken_verify n2 bytes2 = Ok token2 →
  tok_timestamp token2 = tok_timestamp token1 → tok_public_key token2 = tok_public_key token1 →
  CookieAuthVerifier_verify n2 g2 bytes2 s2 = (r, s3) →
  r = Err TokenAlreadyUsed ∧ guard_sorted s3.
Proof.
  intros Hs Hn1 Hn2 Hr1 Hsteps Hg2 Hh Hv Ht Hk Hr2.
  apply verify_run in Hr1 as (Hs1 & _ & Hr1); [|done].
  assert (token_id token2 = token_id token1) as Hid by (unfold token_id; congruence).
  destruct (AuthToken_verify n1 bytes1) as [t1|] eqn:E1; [|done].
  assert (token_id token1 ∈ s1) as Hin.
  { destruct Hr1 as (Hin & Hused & Hnew).
    destruct (decide (token_id t1 ∈ ReplayGuard_gc g1 seen)) as [Hi|Hi]; [by specialize (Hused Hi)|].
    specialize (Hnew Hi). by injection Hnew as ->. }
  apply AuthToken_verify_window in Hv as Hw; [|done]. destruct Hw as [Hw _].
  assert (horizon - 2 * TIMESTAMP_WINDOW ≤ ti_timestamp (token_id token1)) as Hold.
  { rewrite <-Hid. cbn. lia. }
  destruct (verify_steps_keep _ _ _ _ Hs1 Hsteps Hin Hold) as [Hs2 Hin2].
  apply verify_run in Hr2 as (Hs3 & _ & Hr2); [|done]. rewrite Hv in Hr2. split; [|done].
  apply Hr2. rewrite Hid, gc_spec, list_elem_of_filter, Z.ltb_ge by done. split; [lia|done].
Qed.

End CookieProofs.
