(* ===== verification/Authentication.v ===== *)
(** Authenticating requests: which session a request is given, and the life of
    a cookie session. *)

From S2P Require Import Prelude BinarySearch StoragePath Capabilities HttpError Keys Quota Database Users Signup.
From S2P Require Import Authorization GrantTokens Grants GrantProofs GrantSessions PopReplay CookieAuth CookieProofs.

Section Authentication.
Context `{PkarrKeysLaws, JsonStrings, Base32, !Jws, Sha256, Calendar, !AuthTokenCodec, !AuthTokenCodecLaws}.

(** A session row of a user, and the session it stands for. *)
Definition live_cookie (tb : Tables) (secret : str) (s : SessionEntity) : Prop :=
  ∃ row u, row ∈ sessions (auth tb) ∧ s_secret row = secret ∧ u ∈ users tb ∧ u_id u = s_user row ∧
    PublicKey_from_str (u_public_key u) = Ok (se_user_pubkey s) ∧
    Capabilities_from_str (s_capabilities row) = Ok (se_capabilities s) ∧
    se_secret s = secret ∧ se_id s = s_id row ∧ se_user_id s = u_id u.

Lemma SessionSecret_new_id s secret : SessionSecret_new s = Some secret → secret = s ∧ str_len s = 26.
Proof. unfold SessionSecret_new. case_bool_decide; [by intros [= <-]|done]. Qed.

Lemma SessionEntity_from_row_inv tb row s :
  row ∈ sessions (auth tb) → SessionEntity_from_row (session_join tb row) = Ok s → live_cookie tb (s_secret row) s.
Proof.
  intros Hrow. unfold SessionEntity_from_row, session_join. cbn [fst snd].
  destruct (SessionSecret_new (s_secret row)) as [secret|] eqn:Es; cbn; [|done].
  apply SessionSecret_new_id in Es as [-> _].
  destruct (list_find _ (users tb)) as [[i u]|] eqn:Eu; cbn; [|done].
  apply list_find_Some in Eu as (Hu & Hui & _). apply list_elem_of_lookup_2 in Hu.
  destruct (PublicKey_from_str _) as [k|] eqn:Ek; cbn; [|done].
  destruct (Capabilities_from_str _) as [cs|] eqn:Ec; cbn; [|done]. intros [= <-].
  exists row, u. by split_and!.
Qed.

Lemma resolve_cookie_inv secret k w r w' :
  resolve_session_from_cookie (Some secret) k w = (r, w') →
  tables w' = tables w ∧
  match r with
  | Some (CookieSession s) => live_cookie (tables w) secret s ∧ se_user_pubkey s = k
  | Some (BearerSession _) => False
  | None => True
  end.
Proof.
  unfold resolve_session_from_cookie. cbn. destruct (SessionSecret_new secret) as [sec|] eqn:Es.
  2: { by intros [= <- <-]. }
  apply SessionSecret_new_id in Es as [-> _]. unfold resolve_active_session_for_user. cbv [mbind db_bind].
  destruct (SessionRepository_get_by_secret secret w) as [r1 w1] eqn:E. apply select_inv in E as [(Ht & _) Hr1].
  destruct r1 as [s|e]; [|by intros [= <- <-]]. cbn. intros [= <- <-]. split; [done|].
  destruct Hr1 as [?|Hr1]; [done|]. case_bool_decide as Hk; cbn; [|done]. split; [|done].
  destruct (filter _ _) as [|row rows] eqn:Ef; [done|]. apply filter_head in Ef as [Hin <-].
  cbn [map fetch_one] in Hr1. by apply SessionEntity_from_row_inv.
Qed.

(** (C15) Only a live credential gives an identity.  A request authenticated by a
    bearer presented one in its [Authorization] header that is stored, not
    expired, and of a grant that is neither revoked nor expired, and the
    session is that of the grant's user and capabilities.  A request
    authenticated by a cookie did not present such a bearer; its cookie jar has
    under the tenant's key the secret of a stored session of the tenant.
    Authentication changes nothing, and a request without an [Authorization]
    header, cookies or tenant stays anonymous. *)
Theorem authentication_sound now authorization cookies tenant w r w' :
  authenticate now authorization cookies tenant w = (r, w') →
  tables w' = tables w ∧
  match r with
  | Some (BearerSession s) =>
      ∃ bearer, extract_bearer_token authorization = BearerPresent bearer ∧ str_len bearer = BEARER_WIRE_LEN ∧
        live_bearer (tables w) now bearer s
  | Some (CookieSession s) =>
      ∃ jar k secret, cookies = Some jar ∧ tenant = Some k ∧ jar (PublicKey_z32 k) = Some secret ∧
        live_cookie (tables w) secret s ∧ se_user_pubkey s = k ∧
        (GrantAuthentication_call now authorization w).1 = None
  | None => True
  end.
Proof.
  unfold authenticate. destruct (GrantAuthentication_call now authorization w) as [g w1] eqn:Eg.
  unfold GrantAuthentication_call in Eg. intros Hc.
  assert (tables w1 = tables w ∧ ∀ x, g = Some x → ∃ bearer s, x = BearerSession s ∧
    extract_bearer_token authorization = BearerPresent bearer ∧ str_len bearer = BEARER_WIRE_LEN ∧
    live_bearer (tables w) now bearer s) as [Ht1 Hg].
  { destruct (extract_bearer_token authorization) as [bearer| | |] eqn:Ex; [|by injection Eg as <- <-..].
    destruct (resolve_grant_session_by_bearer now bearer w) as [rr w2] eqn:Er. injection Eg as <- <-.
    apply resolve_inv in Er as [Ht Hr]. split; [done|]. intros x Hx. destruct rr as [s|]; [|done].
    injection Hx as <-. exists bearer, s. split_and!; try done.
    unfold extract_bearer_token in Ex. destruct authorization as [v|]; [|done].
    destruct (strip_prefix v _); [|done]. destruct (from_utf8 _) as [raw|]; [|done].
    unfold SessionBearer_parse in Ex. case_bool_decide; [|done]. by injection Ex as ->. }
  unfold CookieAuthentication_call in Hc. destruct g as [session|].
  - injection Hc as <- <-. split; [done|]. destruct (Hg _ eq_refl) as (b & s & -> & ? & ? & ?). by exists b.
  - destruct cookies as [jar|]; [|by injection Hc as <- <-]. destruct tenant as [k|]; [|by injection Hc as <- <-].
    destruct (jar (PublicKey_z32 k)) as [secret|] eqn:Ej; [|by injection Hc as <- <-].
    apply resolve_cookie_inv in Hc as [Ht Hc]. rewrite Ht1 in *. split; [done|].
    destruct r as [[s|s]|]; [|done|done]. destruct Hc as [Hl Hk]. by exists jar, k, secret.
Qed.

(** * The life of a cookie session *)

Lemma select_quiet {A} (f : Z → Tables → result SqlError A) w :
  ticks w = [] → (select f w).1 = f (clock w) (tables w).
Proof. intros Hw. unfold select, exec, next_tick. rewrite Hw. cbn. by rewrite Z.add_0_r. Qed.

(** The row a sign-in adds. *)
Definition session_row (id : Z) (secret : str) (user_id tx_now : Z) (cs : Capabilities) : SessionRow :=
  mk_SessionRow id secret user_id (Capabilities_fmt cs) tx_now.

Lemma create_session_inv secret user_id cs w out w' :
  create_session secret user_id cs w = (Ok out, w') →
  out = secret ∧ str_len secret = 26 ∧ secret ∉ map s_secret (sessions (auth (tables w))) ∧
  ∃ id tx_now, tables w' = set_sessions (λ l, l ++ [session_row id secret user_id tx_now cs]) (tables w).
Proof.
  intros Hr. apply db_bind_Ok in Hr as (sec & w1 & He & Hr). apply exec_Ok in He.
  destruct (existsb (λ s, _) (sessions _)) eqn:Ex in He; [done|]. destruct (negb _) in He; [done|].
  injection He as <- Ht _. unfold lift_result in Hr. destruct (SessionSecret_new secret) as [sec|] eqn:Es; [|done].
  injection Hr as <- <-. apply SessionSecret_new_id in Es as [-> Hlen]. split_and!; [done|done| |by eexists _, _].
  intros (s & Hs & Hin)%list_elem_of_fmap. apply not_true_iff_false in Ex. apply Ex, existsb_exists.
  exists s. rewrite <-list_elem_of_In. split; [done|]. by apply bool_decide_eq_true.
Qed.

Lemma get_quiet secret row k u w :
  ticks w = [] → str_len secret = 26 →
  filter (λ s, s_secret s = secret) (sessions (auth (tables w))) = [row] → s_secret row = secret →
  list_find (λ v, u_id v = s_user row) (users (tables w)) = Some u → u_public_key u.2 = PublicKey_z32 k →
  ∀ cs, Capabilities_from_str (s_capabilities row) = Ok cs →
  (SessionRepository_get_by_secret secret w).1
  = Ok (mk_SessionEntity (s_id row) secret (s_user row) k cs (s_created_at row)).
Proof.
  intros Hq Hlen Hf Hs Hu Hk cs Hcs. unfold SessionRepository_get_by_secret. rewrite select_quiet, Hf by done.
  cbn [map fetch_one]. unfold SessionEntity_from_row, session_join. cbn [fst snd]. rewrite Hs.
  unfold SessionSecret_new. rewrite bool_decide_eq_true_2 by done. cbn. rewrite Hu. cbn. rewrite Hk.
  rewrite (proj2 (PublicKey_parse_forms k)). cbn. by rewrite Hcs.
Qed.

Lemma session_user_found tb u :
  users_wf tb → u ∈ users tb → ∃ i, list_find (λ v, u_id v = u_id u) (users tb) = Some (i, u).
Proof.
  intros (Hid & _) Hu. destruct (find_user_by_id tb (u_id u)) as (i & v & Hf & Hv & Hvu).
  { by apply list_elem_of_fmap_2. }
  exists i. by rewrite Hf, (NoDup_map_inj u_id _ v u Hid Hv Hu Hvu).
Qed.

Lemma signin_inv tk secret body seen w c seen' w' :
  cookie_signin tk secret body seen w = (Ok c, seen', w') →
  ∃ token u id tx_now, AuthToken_verify (tk_verify tk) body = Ok token ∧
    user_row (tok_public_key token) (tables w) = Some u ∧
    c = mk_CookieSessionCreation (tok_public_key token) secret (tok_capabilities token) ∧
    str_len secret = 26 ∧ secret ∉ map s_secret (sessions (auth (tables w))) ∧
    tables w' = set_sessions (λ l, l ++ [session_row id secret (u_id u) tx_now (tok_capabilities token)]) (tables w).
Proof.
  unfold cookie_signin, CookieAuthVerifier_verify. intros Hr.
  destruct (AuthToken_verify (tk_verify tk) body) as [token|]; [|done].
  destruct (ReplayGuard_check_and_track _ _) as [[[]|] s1]; [|done].
  match type of Hr with context [let '(_, _) := ?m w in _] => destruct (m w) as [r1 w1] eqn:E end.
  injection Hr as -> _ <-. apply db_bind_Ok in E as (ue & w2 & Hg & E).
  apply db_map_err_Ok, get_user_inv in Hg as [(Ht & _) Hg]. destruct Hg as [?|Hg]; [done|].
  destruct (user_row _ _) as [u|] eqn:Eu; [|done]. injection Hg as ->. cbn in E.
  apply db_bind_Ok in E as (out & w3 & Hc & E). injection E as <- <-.
  apply db_map_err_Ok, create_session_inv in Hc as (-> & Hlen & Hfresh & id & tx_now & Htb).
  rewrite Ht in Htb, Hfresh. by exists token, u, id, tx_now.
Qed.

Lemma filter_new_secret secret rows row :
  secret ∉ map s_secret rows → s_secret row = secret →
  filter (λ s, s_secret s = secret) (rows ++ [row]) = [row].
Proof.
  intros Hfresh Hs. rewrite filter_app, (filter_cons_True _ row []), filter_nil by done.
  destruct (filter _ rows) as [|x xs] eqn:Ef; [done|]. apply filter_head in Ef as [Hin Hx].
  exfalso. apply Hfresh. rewrite <-Hx. by apply list_elem_of_fmap_2.
Qed.

Lemma signed_capabilities now body token :
  AuthToken_verify now body = Ok token →
  Capabilities_from_str (Capabilities_fmt (tok_capabilities token)) = Ok (tok_capabilities token).
Proof.
  unfold AuthToken_verify. intros Hv. destruct (body !! 74%nat); cbn in Hv; [|done]. destruct (_ <? _); [done|].
  destruct (postcard_token body) as [tk'|] eqn:Ep; cbn in Hv; [|done].
  assert (tk' = token) as -> by (repeat case_match; congruence).
  apply postcard_capabilities in Ep as [? ?%Capabilities_from_str_wf]. by apply Capabilities_parse_fmt.
Qed.

Lemma signout_ok session w w' :
  cookie_signout (Some (CookieSession session)) w = (Ok (), w') →
  sessions (auth (tables w')) = filter (λ s, s_secret s ≠ se_secret session) (sessions (auth (tables w))).
Proof.
  intros [[? _]|(w0 & w1 & r & Ht0 & _ & _ & Hb & Hc)]%in_transaction_inv; [done|].
  destruct r as [[]|]; [|by destruct Hc]. destruct Hc as [[_ Ht3]|[? _]]; [|done].
  apply db_bind_Ok in Hb as ([] & w5 & Hd & Hn). apply db_map_err_Ok, exec_Ok in Hd, Hn.
  injection Hd as Hd _. injection Hn as Hn _. by rewrite Ht3, <-Hn, <-Hd, Ht0.
Qed.

(** The life of a cookie session.  A successful sign-in proves the user's
    signature and stores one new session with the capabilities the user signed.
    While it is stored, its secret resolves, for its own user and no other, to
    that session, with those capabilities; once a sign-out of it has been
    acknowledged, it resolves for no one. *)
Theorem cookie_session_life tk secret body seen w c seen' w' :
  users_wf (tables w) → cookie_signin tk secret body seen w = (Ok c, seen', w') →
  (∃ token, AuthToken_verify (tk_verify tk) body = Ok token ∧
     c = mk_CookieSessionCreation (tok_public_key token) secret (tok_capabilities token)) ∧
  ∃ session, se_user_pubkey session = cs_public_key c ∧ se_capabilities session = cs_capabilities c ∧
    (∀ w2 k, tables w2 = tables w' → ticks w2 = [] →
       (resolve_session_from_cookie (Some secret) k w2).1
       = if decide (k = cs_public_key c) then Some (CookieSession session) else None) ∧
    (∀ w2 w3 w4 k, tables w2 = tables w' → cookie_signout (Some (CookieSession session)) w2 = (Ok (), w3) →
       tables w4 = tables w3 → (resolve_session_from_cookie (Some secret) k w4).1 = None).
Proof.
  intros Hwf (token & u & id & tx_now & Hv & [Hu Hk]%user_row_Some & -> & Hlen & Hfresh & Ht)%signin_inv.
  split; [by exists token|]. set (row := session_row _ _ _ _ _) in Ht.
  apply signed_capabilities in Hv as Hcs.
  exists (mk_SessionEntity id secret (u_id u) (tok_public_key token) (tok_capabilities token) tx_now).
  split_and!; [done|done| |].
  - intros w2 k Ht2 Hq. unfold resolve_session_from_cookie, resolve_active_session_for_user. cbn.
    unfold SessionSecret_new. rewrite bool_decide_eq_true_2 by done. cbv [mbind db_bind].
    destruct (session_user_found _ _ Hwf Hu) as [i Hfind].
    pose proof (get_quiet secret row (tok_public_key token) (i, u) w2 Hq Hlen) as Hget. rewrite Ht2, Ht in Hget.
    specialize (Hget (filter_new_secret secret _ row Hfresh eq_refl) eq_refl Hfind Hk _ Hcs).
    destruct (SessionRepository_get_by_secret secret w2) as [r1 w3]. cbn in Hget. subst r1. cbn.
    destruct (decide (k = tok_public_key token)) as [->|Hne].
    + by rewrite bool_decide_eq_true_2.
    + by rewrite bool_decide_eq_false_2 by congruence.
  - intros w2 w3 w4 k Ht2 Hout%signout_ok Ht4.
    destruct (resolve_session_from_cookie (Some secret) k w4) as [r w6] eqn:Er.
    apply resolve_cookie_inv in Er as [_ Er]. cbn. destruct r as [[s|s]|]; [|done|done].
    destruct Er as [(row' & _ & Hin & Hs & _) _]. exfalso.
    rewrite Ht4, Hout in Hin. by apply list_elem_of_filter in Hin as [? _].
Qed.

End Authentication.

(** * Examples *)

(** A token bearing the second 1000 is used in that second, and again. *)
Definition demo_verify (now : Z) (seen : list (@TokenId demo_keys)) :=
  CookieAuthVerifier_verify (H := demo_keys) now now (demo_token_bytes 7) seen.
Definition demo_seen : list (@TokenId demo_keys) := (demo_verify 1000000000 []).2.

Lemma demo_sorted_nil : guard_sorted (H := demo_keys) [].
Proof. constructor. Qed.

Lemma demo_seen_sorted : guard_sorted (H := demo_keys) demo_seen.
Proof. vm_compute. repeat constructor. Qed.

Lemma replay_guard_is_a_set_witness :
  ReplayGuard_gc (H := demo_keys) 1000000000 demo_seen = demo_seen ∧
  NoDup (ReplayGuard_check_and_track (H := demo_keys) (mk_TokenId (H := demo_keys) 999999999 true)
           (ReplayGuard_gc (H := demo_keys) 1000000000 demo_seen)).2.
Proof.
  split; [vm_compute; reflexivity|].
  exact (proj2 (proj2 (proj2 (proj2 (proj2 (replay_guard_is_a_set (H := demo_keys) 1000000000
    (mk_TokenId (H := demo_keys) 999999999 true) demo_seen _ _ demo_seen_sorted (surjective_pairing _))))))).
Defined.

Lemma demo_window : 2 * TIMESTAMP_WINDOW ≤ 1000000000 ≤ I64_MAX - 2 * TIMESTAMP_WINDOW.
Proof. unfold TIMESTAMP_WINDOW, I64_MAX. lia. Qed.

Lemma demo_verify_ok : demo_verify 1000000000 [] = (Ok (demo_token_of 0 7), demo_seen).
Proof. vm_compute. reflexivity. Qed.

Lemma demo_token_verified :
  AuthToken_verify (H := demo_keys) 1000000000 (demo_token_bytes 7) = Ok (demo_token_of 0 7).
Proof. vm_compute. reflexivity. Qed.

Lemma auth_token_single_use_witness :
  (demo_verify 1000000000 []).1 = Ok (demo_token_of 0 7) ∧
  (demo_verify 1000000000 demo_seen).1 = Err TokenAlreadyUsed.
Proof.
  split; [vm_compute; reflexivity|].
  exact (proj1 (auth_token_single_use (H := demo_keys) 1000000000 1000000000 (demo_token_bytes 7) (demo_token_of 0 7) []
    demo_seen 1000000000 demo_seen 1000000000 1000000000 (demo_token_bytes 7) (demo_token_of 0 7)
    (demo_verify 1000000000 demo_seen).1 (demo_verify 1000000000 demo_seen).2
    demo_sorted_nil demo_window demo_window demo_verify_ok (relations.rtc_refl _ _)
    ltac:(reflexivity) ltac:(unfold TIMESTAMP_WINDOW; lia) demo_token_verified eq_refl eq_refl
    (surjective_pairing (demo_verify 1000000000 demo_seen)))).
Defined.

(** The user signs in, and the browser sends the cookie. *)
Definition demo_secret : str := lit "ABCDEFGHIJKLMNOPQRSTUVWXYZ".
Definition demo_signin :=
  cookie_signin (H := demo_keys) (mk_TokenInstants 1000000000 1000000000 0) demo_secret (demo_token_bytes 7) []
    (demo_granted []).
Definition demo_creation : @CookieSessionCreation demo_keys :=
  mk_CookieSessionCreation (H := demo_keys) true demo_secret
    [mk_Capability (mk_StoragePath (lit "/pub/")) [Read; Write]].

Lemma demo_users_ok : users_wf (H := demo_keys) (tables (demo_granted [])).
Proof.
  split_and!; [apply (bool_decide_unpack _); vm_compute; exact I..|].
  repeat constructor; [by exists true|..]; cbn; unfold I64_MIN, I64_MAX; lia.
Qed.
Lemma demo_signin_ok :
  cookie_signin (H := demo_keys) (mk_TokenInstants 1000000000 1000000000 0) demo_secret (demo_token_bytes 7) []
    (demo_granted []) = (Ok demo_creation, demo_signin.1.2, demo_signin.2).
Proof. vm_compute. reflexivity. Qed.

Lemma cookie_session_life_witness :
  ∃ session, se_user_pubkey session = (true : @PublicKey demo_keys) ∧
    ∀ w2 w3 w4 k, tables w2 = tables demo_signin.2 →
      cookie_signout (H := demo_keys) (Some (CookieSession session)) w2 = (Ok (), w3) →
      tables w4 = tables w3 → (resolve_session_from_cookie (H := demo_keys) (Some demo_secret) k w4).1 = None.
Proof.
  destruct (cookie_session_life (H := demo_keys) _ _ _ _ _ _ _ _ demo_users_ok demo_signin_ok)
    as [_ (session & Hk & _ & _ & Hout)].
  exists session. split; [exact Hk|exact Hout].
Defined.

Definition demo_jar (name : str) : option str :=
  if bool_decide (name = demo_z32 true) then Some demo_secret else None.
Definition demo_request : option AuthSession * World :=
  authenticate (H := demo_keys) 1200 None (Some demo_jar) (Some (true : @PublicKey demo_keys)) demo_signin.2.

Lemma authentication_sound_witness :
  is_ok (AuthSession_from_request_parts demo_request.1) = true ∧ tables demo_request.2 = tables demo_signin.2.
Proof.
  split; [vm_compute; reflexivity|].
  exact (proj1 (authentication_sound (H := demo_keys) 1200 None (Some demo_jar) (Some (true : @PublicKey demo_keys))
    demo_signin.2 demo_request.1 demo_request.2 (surjective_pairing demo_request))).
Defined.
