(* ===== verification/Entries.v ===== *)
(** Entries: the [entries] table
    ([persistence/sql/entities/entry/{entity,repository}.rs]).  The shallow
    listing, which goes through PostgreSQL's regular expressions, is in
    [ReadRoutes]. *)

From S2P Require Import Prelude StoragePath HttpError Keys Quota Database Users.

Section Entries.
Context `{PkarrKeys}.

(** * The entity *)

Record EntryEntity := mk_EntryEntity {
  ee_id : Z;
  ee_user_id : Z;
  ee_path : EntryPath;
  ee_content_hash : Hash;
  ee_content_length : Z;
  ee_content_type : str;
  ee_modified_at : Z;
  ee_created_at : Z
}.

(** A row of [entries] joined with its user. *)
Definition EntryEntity_from_row (row : EntryRow * UserRow) : result SqlError EntryEntity :=
  let '(e, u) := row in
  user_pubkey ← map_err (λ _, Decode) (PublicKey_from_str (u_public_key u));
  storage_path ← map_err (λ _, Decode) (StoragePath_new (e_path e));
  content_hash ← (if (length (e_content_hash e) =? 32)%nat then Ok (e_content_hash e) else Err Decode);
  Ok (mk_EntryEntity (e_id e) (e_user e) (EntryPath_new user_pubkey storage_path) content_hash
        (as_u64 (e_content_length e)) (e_content_type e) (e_modified_at e) (e_created_at e)).

(** * The repository *)

(** [entries LEFT JOIN users ON entries.user = users.id WHERE users.public_key = $1]. *)
Definition entries_of_key (pubkey : PublicKey) (tb : Tables) : list (EntryRow * UserRow) :=
  filter (λ eu, u_public_key eu.2 = PublicKey_z32 pubkey)
    (omap (λ e, u ← list_find (λ u, u_id u = e_user e) (users tb); Some (e, u.2)) (entries tb)).

(** [INSERT .. RETURNING id]; unique on (user, path), the user must exist.  The
    query builder binds the length, a [u64], to the signed column: what it does
    from 2^63 on is its own affair, and lengths stay below (see [Accounting]). *)
Definition EntryRepository_create (user_id : Z) (path : StoragePath) (content_hash : Hash)
    (content_length : Z) (content_type : str) : DB SqlError Z :=
  exec (λ _ tx_now tb sq,
    let id := seq_entries sq in
    let sq := mk_Seqs (seq_users sq) (id + 1) (seq_events sq) (seq_sessions sq) (seq_grant_sessions sq) in
    if existsb (λ e, (e_user e =? user_id) && bool_decide (e_path e = as_str path)) (entries tb) then
      (Err UniqueViolation, tb, sq)
    else if negb (existsb (λ u, u_id u =? user_id) (users tb)) then
      (Err ForeignKeyViolation, tb, sq)
    else
      let row := mk_EntryRow id (as_str path) user_id content_hash content_length content_type
                   tx_now tx_now in
      (Ok id, set_entries (λ l, l ++ [row]) tb, sq)).

Definition EntryRepository_get_by_path (path : EntryPath) : DB SqlError EntryEntity :=
  select (λ _ tb,
    fetch_one EntryEntity_from_row
      (filter (λ eu, e_path eu.1 = as_str (ep_path path)) (entries_of_key (ep_pubkey path) tb))).

Definition EntryRepository_update (entry : EntryEntity) : DB SqlError () :=
  exec (λ _ tx_now tb sq,
    (Ok (),
     set_entries (map (λ e,
       if e_id e =? ee_id entry
       then mk_EntryRow (e_id e) (e_path e) (e_user e) (ee_content_hash entry)
              (ee_content_length entry) (ee_content_type entry) tx_now (e_created_at e)
       else e)) tb, sq)).

Definition EntryRepository_delete (id : Z) : DB SqlError () :=
  exec (λ _ _ tb sq, (Ok (), set_entries (filter (λ e, e_id e ≠ id)) tb, sq)).

(** A path as a folder: with a trailing slash. *)
Definition folder_path (path : str) : str :=
  if ends_with_char path SLASH then path else path ++ [SLASH].

Definition EntryRepository_contains_directory (path : EntryPath) : DB SqlError bool :=
  let full_path := folder_path (as_str (ep_path path)) in
  select (λ _ tb,
    let count := length (filter (λ eu, sql_like (like_starts_with full_path) (e_path eu.1) = true)
                           (entries_of_key (ep_pubkey path) tb)) in
    Ok (0 <? Z.of_nat count)).

Definition descendant_path_bounds (path : str) : str * str :=
  let folder := default path (strip_suffix_char path SLASH) in
  (folder ++ [SLASH], folder ++ [48]).

(** [str::trim_end_matches] for a character. *)
Fixpoint drop_while_eq (c : Z) (s : str) : str :=
  match s with [] => [] | d :: s' => if c =? d then drop_while_eq c s' else s end.
Definition trim_end_matches (c : Z) (s : str) : str := reverse (drop_while_eq c (reverse s)).

(** The [while let] loop: every parent is shorter than its child, so the
    length of the path is fuel enough. *)
Fixpoint ancestor_loop (fuel : nat) (path : str) : list str :=
  match fuel with
  | O => []
  | S fuel =>
      match rsplit_once SLASH path with
      | Some (parent, _) =>
          if decide (parent = []) then [] else parent :: ancestor_loop fuel parent
      | None => []
      end
  end.

Definition ancestor_file_paths (path : str) : list str :=
  let path := trim_end_matches SLASH path in
  if decide (path = []) then [] else ancestor_loop (length path) path.

Definition EntryRepository_has_file_folder_collision (path : EntryPath) : DB SqlError bool :=
  let path_str := as_str (ep_path path) in
  let '(descendants_after, descendants_before) := descendant_path_bounds path_str in
  let ancestor_paths :=
    ancestor_file_paths path_str ++
    match strip_suffix_char path_str SLASH with
    | Some without_trailing_slash =>
        if decide (without_trailing_slash = []) then [] else [without_trailing_slash]
    | None => []
    end in
  select (λ _ tb,
    (** [entries."user" = (SELECT id FROM users WHERE public_key = $1)]. *)
    match users_by_key (ep_pubkey path) tb with
    | u :: _ =>
        let mine := filter (λ e, e_user e = u_id u) (entries tb) in
        Ok (existsb (λ e, str_ltb descendants_after (e_path e) && str_ltb (e_path e) descendants_before) mine
            || existsb (λ e, bool_decide (e_path e ∈ ancestor_paths)) mine)
    | [] => Ok false
    end).

(** [ORDER BY path COLLATE "C"]. *)
Definition path_leb (reverse : bool) (a b : str) : bool :=
  negb (if reverse then str_ltb a b else str_ltb b a).

Definition EntryRepository_list_deep (path : EntryPath) (limit : option Z) (cursor : option EntryPath)
    (reverse : bool) : DB SqlError (list EntryPath) :=
  let full_path := folder_path (as_str (ep_path path)) in
  select (λ _ tb,
    let paths := map (λ eu, e_path eu.1) (entries_of_key (ep_pubkey path) tb) in
    let matching := filter (λ p, sql_like (like_starts_with full_path) p = true) paths in
    let after_cursor :=
      filter (λ p, match cursor with
                   | Some c => if reverse then str_ltb p (as_str (ep_path c))
                               else str_ltb (as_str (ep_path c)) p
                   | None => true
                   end = true) matching in
    let rows := take (Z.to_nat (effective_list_limit limit)) (order_by (path_leb reverse) after_cursor) in
    fetch_all (λ p, storage_path ← map_err (λ _, Decode) (StoragePath_new p);
                    Ok (EntryPath_new (ep_pubkey path) storage_path)) rows).

End Entries.

(** * The collision check *)

(** ** Byte ranges *)

(** In byte order, the strings strictly between [f/] and [f0] are those below
    the folder [f]. *)
Lemma between_folder_bounds f s :
  str_ltb (f ++ [SLASH]) s = true ∧ str_ltb s (f ++ [48]) = true ↔
  ∃ t, t ≠ [] ∧ s = f ++ SLASH :: t.
Proof.
  revert s; induction f as [|c f IH]; intros s; cbn [app].
  - unfold SLASH. destruct s as [|x s]; cbn.
    + split; [by intros [? _]|]. by intros (t & _ & ?).
    + rewrite !orb_true_iff, !andb_true_iff, !Z.ltb_lt, !Z.eqb_eq.
      destruct s as [|y s]; cbn; split.
      * intros [[?|[_ ?]] [?|[_ ?]]]; try done; lia.
      * intros (t & Ht & [= -> <-]). done.
      * intros [[?|[? _]] [?|[_ ?]]]; try done; try lia. exists (y :: s). split; [done|]. by f_equal.
      * intros (t & _ & [= -> <-]). split; [by right|left; lia].
  - destruct s as [|x s]; cbn.
    + split; [by intros [? _]|]. by intros (t & _ & ?).
    + rewrite !orb_true_iff, !andb_true_iff, !Z.ltb_lt, !Z.eqb_eq. split.
      * intros [[?|[<- ?]] [?|[? ?]]]; try lia.
        destruct (proj1 (IH s)) as (t & Ht & ->); [done|]. eauto.
      * intros (t & Ht & [= -> ->]). destruct (proj2 (IH (f ++ SLASH :: t))) as [? ?]; [eauto|].
        split; by right.
Qed.

(** ** Ancestors *)

(** The file-shaped text of a list of components. *)
Lemma render_file segs : render segs false = SLASH :: join SLASH segs.
Proof. unfold render. cbn. by rewrite app_nil_r. Qed.

Lemma render_snoc segs x :
  segs ≠ [] → render (segs ++ [x]) false = render segs false ++ SLASH :: x.
Proof. intros Hs. rewrite !render_file, join_app by done. done. Qed.

Lemma segment_no_slash x : segment_ok x → SLASH ∉ x.
Proof. by intros (_ & _ & _ & ? & _). Qed.

Lemma length_render_file segs : Forall segment_ok segs → (length segs < length (render segs false))%nat.
Proof.
  intros Hs. rewrite render_file. cbn. induction Hs as [|x segs Hx Hs IH]; [cbn; lia|].
  destruct Hx as [Hne _]. destruct x as [|c x]; [done|].
  destruct segs as [|y segs]; [cbn; lia|]. rewrite join_cons by done.
  rewrite length_app. cbn [length] in *. lia.
Qed.

Lemma ancestor_loop_spec fuel segs s :
  Forall segment_ok segs → segs ≠ [] → (length segs ≤ fuel)%nat →
  s ∈ ancestor_loop fuel (render segs false) ↔
  ∃ pre, pre ≠ [] ∧ pre `prefix_of` segs ∧ pre ≠ segs ∧ s = render pre false.
Proof.
  revert segs. induction fuel as [|fuel IH]; intros segs Hs Hne Hf.
  { destruct segs; [done|cbn in Hf; lia]. }
  destruct (exists_last Hne) as (init & x & ->).
  apply Forall_app in Hs as [Hinit [Hx _]%Forall_cons]. apply segment_no_slash in Hx.
  cbn [ancestor_loop]. destruct (decide (init = [])) as [->|Hi].
  - rewrite render_file. change (SLASH :: join SLASH ([] ++ [x])) with ([] ++ SLASH :: x).
    rewrite rsplit_once_spec by done. rewrite decide_True by done.
    split; [by intros ?%elem_of_nil|]. intros (pre & Hpre & [t Ht] & Hneq & _). exfalso.
    destruct pre as [|y pre]; [done|]. injection Ht as <- Ht. symmetry in Ht.
    apply app_eq_nil in Ht as [-> ->]. done.
  - rewrite render_snoc, rsplit_once_spec by done.
    rewrite decide_False by (by rewrite render_file).
    rewrite length_app in Hf. cbn in Hf.
    rewrite elem_of_cons, IH by (done || lia). split.
    + intros [->|(pre & ? & Hpre & Hneq & ->)].
      * exists init. split_and!; [done|by apply prefix_app_r| |done].
        intros E. apply (f_equal length) in E. rewrite length_app in E. cbn in E. lia.
      * exists pre. split_and!; [done|by apply prefix_app_r| |done].
        intros ->. apply prefix_length in Hpre. rewrite length_app in Hpre. cbn in Hpre. lia.
    + intros (pre & Hpre & [t Ht] & Hneq & ->).
      destruct (decide (t = [])) as [->|Htne]; [by rewrite app_nil_r in Ht|].
      destruct (exists_last Htne) as (t' & y & ->). rewrite app_assoc in Ht.
      apply app_inj_tail in Ht as [-> ->].
      destruct (decide (t' = [])) as [->|]; [left; by rewrite app_nil_r|right].
      exists pre. split_and!; [done|by eexists| |done].
      intros E. apply (f_equal length) in E. rewrite length_app in E. destruct t'; [done|cbn in E; lia].
Qed.

(** ** Trailing slashes *)

Lemma trim_end_matches_snoc c s : trim_end_matches c (s ++ [c]) = trim_end_matches c s.
Proof. unfold trim_end_matches. rewrite reverse_snoc. cbn. by rewrite Z.eqb_refl. Qed.

Lemma trim_end_matches_id c s : ends_with_char s c = false → trim_end_matches c s = s.
Proof.
  unfold ends_with_char, trim_end_matches. destruct s as [|x s] using rev_ind; [done|].
  rewrite last_snoc, reverse_snoc. cbn [drop_while_eq]. intros ->. rewrite reverse_cons. by rewrite reverse_involutive.
Qed.

Lemma strip_suffix_snoc c s : strip_suffix_char (s ++ [c]) c = Some s.
Proof.
  unfold strip_suffix_char. rewrite (proj2 (ends_with_char_spec _ _)) by eauto. by rewrite removelast_last.
Qed.

(** The folder of a canonical path: its text without the trailing slash. *)
Definition folder_of (segs : list str) : str :=
  if decide (segs = []) then [] else render segs false.

Lemma render_dir segs : render segs true = folder_of segs ++ [SLASH].
Proof.
  unfold folder_of, render. destruct (decide (segs = [])) as [->|]; [done|].
  rewrite bool_decide_eq_false_2 by done. cbn. by rewrite app_nil_r.
Qed.

Section Trailing.
Context (segs : list str) (dir : bool).
Context (Hs : Forall segment_ok segs) (Hd : segs = [] → dir = true).

Lemma strip_suffix_render :
  strip_suffix_char (render segs dir) SLASH = if dir then Some (folder_of segs) else None.
Proof.
  destruct dir; [by rewrite render_dir, strip_suffix_snoc|]. unfold strip_suffix_char.
  rewrite last_segment_no_slash; [done| |done]. intros ->. by discriminate Hd.
Qed.

Lemma default_folder : default (render segs dir) (strip_suffix_char (render segs dir) SLASH) = folder_of segs.
Proof.
  rewrite strip_suffix_render. destruct dir; [done|]. cbn. unfold folder_of.
  by rewrite decide_False by (intros ->; by discriminate Hd).
Qed.

Lemma trim_render : trim_end_matches SLASH (render segs dir) = folder_of segs.
Proof.
  assert (trim_end_matches SLASH (folder_of segs) = folder_of segs) as E.
  { unfold folder_of. destruct (decide (segs = [])); [done|].
    by apply trim_end_matches_id, last_segment_no_slash. }
  destruct dir.
  - by rewrite render_dir, trim_end_matches_snoc.
  - unfold folder_of in *. by rewrite decide_False in * by (intros ->; by discriminate Hd).
Qed.

Lemma ancestor_file_paths_spec s :
  s ∈ ancestor_file_paths (render segs dir) ↔
  ∃ pre, pre ≠ [] ∧ pre `prefix_of` segs ∧ pre ≠ segs ∧ s = render pre false.
Proof.
  unfold ancestor_file_paths. rewrite trim_render. unfold folder_of.
  destruct (decide (segs = [])) as [E|E].
  - rewrite decide_True by done. split; [by intros ?%elem_of_nil|].
    intros (pre & Hp & Hpre & _). rewrite E in Hpre. by apply prefix_nil_inv in Hpre.
  - rewrite decide_False by (by rewrite render_file).
    apply ancestor_loop_spec; [done..|]. pose proof (length_render_file segs Hs). lia.
Qed.

End Trailing.

(** ** What the check decides *)

(** One path would have to be a file and a folder at once: [q] is below [p], or
    [q] is the file at a proper ancestor of [p], or at the folder [p] itself. *)
Definition components_collide (sp : list str) (dp : bool) (sq : list str) (dq : bool) : Prop :=
  (sp `prefix_of` sq ∧ sp ≠ sq) ∨
  (dq = false ∧ (sq `prefix_of` sp ∧ sq ≠ sp ∨ dp = true ∧ sq = sp)).

Definition collides (p q : StoragePath) : Prop :=
  ∃ sp dp sq dq, is_path p sp dp ∧ is_path q sq dq ∧ components_collide sp dp sq dq.

Lemma below_folder sp dp sq dq :
  Forall segment_ok sp → Forall segment_ok sq → (sp = [] → dp = true) → (sq = [] → dq = true) →
  (∃ t, t ≠ [] ∧ render sq dq = folder_of sp ++ SLASH :: t) ↔ sp `prefix_of` sq ∧ sp ≠ sq.
Proof.
  intros Hp Hq Hdp Hdq. split.
  - intros (t & Ht & E).
    assert (starts_with (render sq dq) (render sp true) = true) as Hst.
    { apply starts_with_spec. rewrite E, render_dir. exists t. by rewrite <-app_assoc. }
    apply starts_with_render in Hst as [Hpre Hd]; [|done..]. split; [done|]. intros ->.
    rewrite Hd, render_dir in E by done. by apply app_inv_head in E as [= <-].
  - intros [Hpre Hne].
    assert (starts_with (render sq dq) (render sp true) = true) as Hst.
    { apply starts_with_render; [done..|]. split; [done|]. by intros ->. }
    apply starts_with_spec in Hst as [t Ht]. exists t. rewrite render_dir, <-app_assoc in Ht.
    split; [|done]. intros ->. rewrite <-render_dir in Ht.
    apply render_inj in Ht as [-> _]; done.
Qed.

Lemma collision_conditions p q sp dp sq dq :
  is_path p sp dp → is_path q sq dq →
  let bounds := descendant_path_bounds (as_str p) in
  let ancestors := ancestor_file_paths (as_str p) ++
    match strip_suffix_char (as_str p) SLASH with
    | Some f => if decide (f = []) then [] else [f]
    | None => []
    end in
  (str_ltb bounds.1 (as_str q) && str_ltb (as_str q) bounds.2) || bool_decide (as_str q ∈ ancestors) = true
  ↔ components_collide sp dp sq dq.
Proof.
  intros (Ep & Hp & Hdp) (Eq & Hq & Hdq). cbv zeta. unfold descendant_path_bounds.
  rewrite Ep, Eq, default_folder by done. cbn [fst snd].
  rewrite orb_true_iff, andb_true_iff, between_folder_bounds, below_folder, bool_decide_eq_true by done.
  rewrite elem_of_app, ancestor_file_paths_spec, strip_suffix_render by done.
  unfold components_collide. apply or_iff_compat_l. split.
  - intros [(pre & Hpre & Hpq & Hne & E)|Hin].
    + apply render_inj in E as [-> ->]; try done; [split; [done|by left]|].
      destruct Hpq as [t ->]. by apply Forall_app in Hp as [? _].
    + destruct dp; [|by apply elem_of_nil in Hin].
      unfold folder_of in Hin. destruct (decide (sp = [])) as [->|]; [by apply elem_of_nil in Hin|].
      rewrite decide_False in Hin by (by rewrite render_file).
      apply list_elem_of_singleton in Hin. apply render_inj in Hin as [-> ->]; try done.
      split; [done|by right].
  - intros [-> [[Hpre Hne]|[-> ->]]].
    + left. exists sq. split_and!; try done. intros ->. by discriminate Hdq.
    + right. assert (sp ≠ []) by (intros ->; by discriminate Hdq).
      unfold folder_of. rewrite (decide_False (P := sp = [])) by done.
      rewrite decide_False by (by rewrite render_file). by apply list_elem_of_singleton.
Qed.

(** ** The statement on the database *)

Section CollisionTheorem.
Context `{PkarrKeysLaws}.

(** Every stored path is canonical. *)
Definition entry_paths_wf (tb : Tables) : Prop :=
  Forall (λ e, StoragePath_wf (mk_StoragePath (e_path e))) (entries tb).

(** The user has an entry that collides with [p]. *)
Definition user_collision (tb : Tables) (k : PublicKey) (p : StoragePath) : Prop :=
  ∃ u e, user_row k tb = Some u ∧ e ∈ entries tb ∧ e_user e = u_id u ∧
         collides p (mk_StoragePath (e_path e)).

Lemma users_by_key_head k tb : head (users_by_key k tb) = user_row k tb.
Proof.
  unfold users_by_key, user_row. induction (users tb) as [|u l IH]; [done|].
  rewrite filter_cons. cbn [list_find]. destruct (decide (u_public_key u = PublicKey_z32 k)); [done|].
  rewrite IH. by destruct (list_find _ l) as [[? ?]|].
Qed.

Lemma wf_components p : StoragePath_wf p → ∃ sp dp, is_path p sp dp.
Proof. rewrite StoragePath_wf_iff. by intros [? _]. Qed.

Lemma collides_iff p q sp dp sq dq :
  is_path p sp dp → is_path q sq dq → collides p q ↔ components_collide sp dp sq dq.
Proof.
  intros Hp Hq. split; [|by exists sp, dp, sq, dq].
  intros (sp' & dp' & sq' & dq' & Hp' & Hq' & Hc).
  destruct Hp as (Ep & ? & ?), Hp' as (Ep' & ? & ?), Hq as (Eq & ? & ?), Hq' as (Eq' & ? & ?).
  rewrite Ep in Ep'. rewrite Eq in Eq'.
  apply render_inj in Ep' as [-> ->]; [|done..]. by apply render_inj in Eq' as [-> ->].
Qed.

Lemma collision_inv path w r w' :
  StoragePath_wf (ep_path path) → entry_paths_wf (tables w) →
  EntryRepository_has_file_folder_collision path w = (r, w') →
  same_data w w' ∧
  (r = Err SqlIo ∨
   ∃ b, r = Ok b ∧ (b = true ↔ user_collision (tables w) (ep_pubkey path) (ep_path path))).
Proof.
  intros Hp He Hr. unfold EntryRepository_has_file_folder_collision in Hr.
  destruct (descendant_path_bounds (as_str (ep_path path))) as [lo hi] eqn:Eb.
  apply select_inv in Hr as [Hs Hr]. split; [done|].
  destruct Hr as [->| ->]; [by left|right]. unfold user_collision.
  rewrite <-users_by_key_head. destruct (users_by_key _ _) as [|u us]; cbn [head].
  { exists false. split; [done|]. split; [done|]. by intros (? & ? & ? & _). }
  eexists. split; [done|]. rewrite orb_true_iff, !existsb_exists. setoid_rewrite <-list_elem_of_In.
  setoid_rewrite list_elem_of_filter.
  assert (∀ e, e ∈ entries (tables w) →
    (str_ltb lo (e_path e) && str_ltb (e_path e) hi = true ∨
     bool_decide (e_path e ∈ ancestor_file_paths (as_str (ep_path path)) ++
       match strip_suffix_char (as_str (ep_path path)) SLASH with
       | Some f => if decide (f = []) then [] else [f]
       | None => []
       end) = true) ↔ collides (ep_path path) (mk_StoragePath (e_path e))) as Hcol.
  { intros e Hin. unfold entry_paths_wf in He. rewrite Forall_forall in He. specialize (He e Hin).
    destruct (wf_components _ Hp) as (sp & dp & Hsp), (wf_components _ He) as (sq & dq & Hsq).
    rewrite (collides_iff _ _ _ _ _ _ Hsp Hsq), <-orb_true_iff.
    pose proof (collision_conditions _ _ _ _ _ _ Hsp Hsq) as Hc. cbv zeta in Hc.
    rewrite Eb in Hc. exact Hc. }
  split.
  - intros [(e & [Hu Hin] & Hb)|(e & [Hu Hin] & Hb)]; exists u, e; split_and!; try done;
      apply Hcol; auto.
  - intros (u' & e & [= <-] & Hin & Hu & Hc). apply (Hcol e Hin) in Hc as [Hc|Hc]; [left|right]; eauto.
Qed.

(** The file/folder check is exact: on canonical paths the byte-range and
    ancestor lookups answer true exactly when the owner already has an entry
    below the path, a file at one of its proper ancestors, or (for a
    directory-shaped path) a file of that name; other users' entries and
    siblings such as [/pub/a-b] or [/pub/a0] for [/pub/a] never count. *)
Theorem collision_check_exact path w r w' :
  StoragePath_wf (ep_path path) → entry_paths_wf (tables w) →
  EntryRepository_has_file_folder_collision path w = (r, w') →
  same_data w w' ∧
  (r = Err SqlIo ∨
   ∃ b, r = Ok b ∧
     (b = true ↔
      ∃ u e sp dp sq dq,
        user_row (ep_pubkey path) (tables w) = Some u ∧ e ∈ entries (tables w) ∧ e_user e = u_id u ∧
        is_path (ep_path path) sp dp ∧ is_path (mk_StoragePath (e_path e)) sq dq ∧
        (sp `prefix_of` sq ∧ sp ≠ sq ∨
         dq = false ∧ (sq `prefix_of` sp ∧ sq ≠ sp ∨ dp = true ∧ sq = sp)))).
Proof.
  intros Hp He Hr. apply collision_inv in Hr as [Hs Hr]; [|done..]. split; [done|].
  destruct Hr as [->|(b & -> & Hb)]; [by left|right]. exists b. split; [done|]. rewrite Hb.
  unfold user_collision, collides, components_collide. split.
  - intros (u & e & ? & ? & ? & sp & dp & sq & dq & ? & ? & ?). exists u, e, sp, dp, sq, dq. done.
  - intros (u & e & sp & dp & sq & dq & ? & ? & ? & ? & ? & ?). exists u, e. split_and!; try done.
    exists sp, dp, sq, dq. done.
Qed.

End CollisionTheorem.

(** One stored file, [/pub/app/file.txt] of the first demonstration user. *)
Definition demo_hash : Hash := repeat 7 32.
Definition demo_entry : EntryRow :=
  mk_EntryRow 1 (lit "/pub/app/file.txt") 1 demo_hash 44 (lit "text/plain") 1500 1500.
Definition demo_storage (ts : list Tick) : World :=
  mk_World (mk_Tables demo_users [demo_entry] [] [] no_auth) (mk_Seqs 3 2 1 1 1) 2000 None ts.

Lemma demo_entry_paths_wf ts : entry_paths_wf (tables (demo_storage ts)).
Proof. apply Forall_singleton. vm_compute. reflexivity. Qed.

Lemma collision_check_exact_witness :
  let path := EntryPath_new (H := demo_keys) true (mk_StoragePath (lit "/pub/app")) in
  ∃ w', EntryRepository_has_file_folder_collision path (demo_storage []) = (Ok true, w') ∧
    same_data (demo_storage []) w'.
Proof.
  intros path. eexists. split; [vm_compute; reflexivity|].
  apply (collision_check_exact (H := demo_keys) path (demo_storage []) (Ok true)).
  - vm_compute. reflexivity.
  - apply demo_entry_paths_wf.
  - vm_compute. reflexivity.
Defined.
