(* ===== verification/EntryLocks.v ===== *)
(** Exclusive write locks on storage paths: the [entry_locks] table
    ([persistence/sql/entities/entry_lock.rs]).  Lifetimes are measured on the
    database clock, inside the statement that sets or checks them. *)

From stdpp Require Import relations.
From S2P Require Import Prelude StoragePath Keys Quota Database Users.

Section EntryLocks.
Context `{PkarrKeys}.

(** * The repository *)

(** [INSERT .. ON CONFLICT (path) DO UPDATE .. WHERE expires_at <= now
    RETURNING *]. *)
Definition EntryLockRepository_acquire (path : EntryPath) (token : str) (lifetime_secs : Z)
    : DB SqlError (option EntryLockEntity) :=
  exec (λ now _ tb sq,
    let lock := mk_EntryLockEntity (ep_key path) token (now + lifetime_secs) in
    match list_find (λ l, l_path l = ep_key path) (entry_locks tb) with
    | None => (Ok (Some lock), set_entry_locks (λ ls, ls ++ [lock]) tb, sq)
    | Some (_, l) =>
        if l_expires_at l <=? now then
          (Ok (Some lock),
           set_entry_locks (map (λ l, if decide (l_path l = ep_key path) then lock else l)) tb, sq)
        else (Ok None, tb, sq)
    end).

Definition lock_live (now : Z) (l : EntryLockEntity) : bool := now <? l_expires_at l.

(** [fetch_optional]. *)
Definition fetch_optional {R} (rows : list R) : result SqlError (option R) := Ok (head rows).

Definition EntryLockRepository_get_active (path : EntryPath) : DB SqlError (option EntryLockEntity) :=
  select (λ now tb,
    fetch_optional (filter (λ l, l_path l = ep_key path ∧ lock_live now l = true) (entry_locks tb))).

(** [SELECT .. FOR UPDATE]: whether a row was found. *)
Definition EntryLockRepository_hold (path : EntryPath) (token : str) : DB SqlError bool :=
  select (λ now tb,
    Ok (bool_decide (filter (λ l, l_path l = ep_key path ∧ l_token l = token ∧ lock_live now l = true)
                       (entry_locks tb) ≠ []))).

(** The [WHERE] clause of the update. *)
Definition held_with (path : EntryPath) (tokens : list str) (l : EntryLockEntity) : Prop :=
  l_path l = ep_key path ∧ l_token l ∈ tokens.

#[export] Instance held_with_dec path tokens l : Decision (held_with path tokens l).
Proof. unfold held_with. apply _. Defined.

(** [expires_at] is the expression assigned, of the clock and the old value. *)
Definition set_expiry_of_live_lock (path : EntryPath) (tokens : list str) (expires_at : Z → Z → Z)
    : DB SqlError (option EntryLockEntity) :=
  in_transaction id (
    select (λ _ tb, Ok (filter (held_with path tokens) (entry_locks tb))) ;;
    exec (λ now _ tb sq,
      let renew l := mk_EntryLockEntity (l_path l) (l_token l) (expires_at now (l_expires_at l)) in
      let hit l := bool_decide (held_with path tokens l) && lock_live now l in
      (fetch_optional (map renew (filter (λ l, hit l = true) (entry_locks tb))),
       set_entry_locks (map (λ l, if hit l then renew l else l)) tb, sq))).

Definition EntryLockRepository_refresh (path : EntryPath) (tokens : list str) (lifetime_secs : Z)
    : DB SqlError (option EntryLockEntity) :=
  set_expiry_of_live_lock path tokens (λ now _, now + lifetime_secs).

(** [GREATEST(expires_at, now + horizon)]. *)
Definition EntryLockRepository_keep_alive (path : EntryPath) (tokens : list str) (horizon_secs : Z)
    : DB SqlError (option EntryLockEntity) :=
  set_expiry_of_live_lock path tokens (λ now old, Z.max old (now + horizon_secs)).

Definition EntryLockRepository_release (path : EntryPath) (token : str) : DB SqlError bool :=
  exec (λ _ _ tb sq,
    let gone l := bool_decide (l_path l = ep_key path ∧ l_token l = token) in
    (Ok (existsb gone (entry_locks tb)),
     set_entry_locks (filter (λ l, gone l = false)) tb, sq)).

Definition EntryLockRepository_delete_expired : DB SqlError Z :=
  exec (λ now _ tb sq,
    (Ok (Z.of_nat (length (filter (λ l, lock_live now l = false) (entry_locks tb)))),
     set_entry_locks (filter (λ l, lock_live now l = true)) tb, sq)).

(** * The lock table as a transition system *)

(** Everything any client can do to the table. *)
Inductive LockOp :=
| OpAcquire (path : EntryPath) (token : str) (lifetime : Z)
| OpGetActive (path : EntryPath)
| OpHold (path : EntryPath) (token : str)
| OpRefresh (path : EntryPath) (tokens : list str) (lifetime : Z)
| OpKeepAlive (path : EntryPath) (tokens : list str) (horizon : Z)
| OpRelease (path : EntryPath) (token : str)
| OpDeleteExpired.

Definition run_op (op : LockOp) (w : World) : World :=
  match op with
  | OpAcquire path token lifetime => (EntryLockRepository_acquire path token lifetime w).2
  | OpGetActive path => (EntryLockRepository_get_active path w).2
  | OpHold path token => (EntryLockRepository_hold path token w).2
  | OpRefresh path tokens lifetime => (EntryLockRepository_refresh path tokens lifetime w).2
  | OpKeepAlive path tokens horizon => (EntryLockRepository_keep_alive path tokens horizon w).2
  | OpRelease path token => (EntryLockRepository_release path token w).2
  | OpDeleteExpired => (EntryLockRepository_delete_expired w).2
  end.

(** One step of the table: an operation by somebody, whatever the schedule
    lets happen to it. *)
Inductive lock_step : World → World → Prop :=
| lock_step_op op w ts :
    lock_step w (run_op op (mk_World (tables w) (seqs w) (clock w) (tx_time w) ts)).

Definition lock_reachable : World → World → Prop := rtc lock_step.

(** The operation presents [token]. *)
Definition op_uses (token : str) (op : LockOp) : Prop :=
  match op with
  | OpRefresh _ tokens _ | OpKeepAlive _ tokens _ => token ∈ tokens
  | OpRelease _ t => t = token
  | _ => False
  end.

Inductive foreign_step (token : str) : World → World → Prop :=
| foreign_step_op op w ts :
    ¬ op_uses token op →
    foreign_step token w (run_op op (mk_World (tables w) (seqs w) (clock w) (tx_time w) ts)).

(** The invariant: the path is the primary key. *)
Definition locks_wf (tb : Tables) : Prop := NoDup (map l_path (entry_locks tb)).

Lemma locks_unique tb l l' :
  locks_wf tb → l ∈ entry_locks tb → l' ∈ entry_locks tb → l_path l = l_path l' → l = l'.
Proof. intros Hwf. by apply (NoDup_map_inj l_path). Qed.

Lemma map_l_path_keep (f : EntryLockEntity → EntryLockEntity) ls :
  (∀ l, l_path (f l) = l_path l) → map l_path (map f ls) = map l_path ls.
Proof. intros Hf. rewrite map_map. apply map_ext. done. Qed.

(** ** What each operation does to the table *)

(** The table after an operation, in one relation: unchanged, or its effect at
    the new clock. *)
Definition lock_effect (op : LockOp) (now : Z) (ls : list EntryLockEntity) : list EntryLockEntity :=
  match op with
  | OpAcquire path token lifetime =>
      let lock := mk_EntryLockEntity (ep_key path) token (now + lifetime) in
      match list_find (λ l, l_path l = ep_key path) ls with
      | None => ls ++ [lock]
      | Some (_, l) =>
          if l_expires_at l <=? now
          then map (λ l, if decide (l_path l = ep_key path) then lock else l) ls else ls
      end
  | OpGetActive _ | OpHold _ _ => ls
  | OpRefresh path tokens lifetime =>
      map (λ l, if bool_decide (held_with path tokens l) && lock_live now l
                then mk_EntryLockEntity (l_path l) (l_token l) (now + lifetime) else l) ls
  | OpKeepAlive path tokens horizon =>
      map (λ l, if bool_decide (held_with path tokens l) && lock_live now l
                then mk_EntryLockEntity (l_path l) (l_token l) (Z.max (l_expires_at l) (now + horizon))
                else l) ls
  | OpRelease path token =>
      filter (λ l, bool_decide (l_path l = ep_key path ∧ l_token l = token) = false) ls
  | OpDeleteExpired => filter (λ l, lock_live now l = true) ls
  end.

Definition op_ran (op : LockOp) (w w' : World) : Prop :=
  clock w ≤ clock w' ∧
  ∃ now, clock w ≤ now ≤ clock w' ∧
    (entry_locks (tables w') = entry_locks (tables w) ∨
     entry_locks (tables w') = lock_effect op now (entry_locks (tables w))).

Lemma set_expiry_inv path tokens f w r w' :
  set_expiry_of_live_lock path tokens f w = (r, w') →
  clock w ≤ clock w' ∧
  ∃ now, clock w ≤ now ≤ clock w' ∧
    (entry_locks (tables w') = entry_locks (tables w) ∨
     entry_locks (tables w') =
       map (λ l, if bool_decide (held_with path tokens l) && lock_live now l
                 then mk_EntryLockEntity (l_path l) (l_token l) (f now (l_expires_at l)) else l)
         (entry_locks (tables w))).
Proof.
  unfold set_expiry_of_live_lock, in_transaction, db_map_err, try_db. cbv [mbind db_bind]. intros Hr.
  destruct (begin w) as [rb w0] eqn:Eb. apply begin_inv in Eb as (Ht0 & _ & Hc0 & Hb).
  destruct Hb as [[-> _]|[-> _]]; cbn [map_err] in Hr.
  { injection Hr as <- <-. split; [done|]. exists (clock w0). rewrite Ht0. split; [lia|by left]. }
  destruct (select _ w0) as [r1 w1] eqn:Es. apply select_inv in Es as [(Ht1 & _ & _ & Hc1) _].
  assert (∀ w2, clock w1 ≤ clock w2 → drop_tx (E := SqlError) (mk_Snapshot (tables w) (tx_time w)) w2
    = (Ok (), end_tx (tables w) (mk_Snapshot (tables w) (tx_time w)) w2)) as Hdrop by done.
  destruct r1 as [rows|e].
  2: { cbn in Hr. injection Hr as <- <-. cbn. split; [lia|]. exists (clock w1). split; [lia|by left]. }
  destruct (exec _ w1) as [r2 w2] eqn:Ee. apply exec_inv in Ee as (Hc2 & _ & Hcase).
  destruct r2 as [lock|e].
  2: { cbn in Hr. injection Hr as <- <-. cbn. split; [lia|]. exists (clock w2). split; [lia|by left]. }
  destruct (commit _ w2) as [rc w3] eqn:Ec. apply commit_inv in Ec as (_ & Hc3 & _ & Hcm).
  assert (w' = w3) as -> by (destruct rc as [[]|]; cbn in Hr; by injection Hr).
  split; [lia|]. exists (clock w2). split; [lia|].
  destruct Hcase as [(? & _)|(r0 & He & _)]; [done|]. injection He as _ He _.
  rewrite Ht1, Ht0 in He.
  destruct Hcm as [[_ ->]|[_ [->| ->]]]; [right|right|by left]; by rewrite <-He.
Qed.

(** Only the lock table changed. *)
Definition only_locks (w w' : World) : Prop :=
  users (tables w') = users (tables w) ∧ entries (tables w') = entries (tables w) ∧
  events (tables w') = events (tables w) ∧ seqs w' = seqs w.

#[export] Instance only_locks_preorder : PreOrder only_locks.
Proof. split; [done|]. intros a b c (?&?&?&?) (?&?&?&?). split_and!; congruence. Qed.

Lemma same_data_only_locks w w' : same_data w w' → only_locks w w'.
Proof. intros (Ht & Hs & _). unfold only_locks. by rewrite Ht. Qed.

(** What an extension answers: the renewed lock, when one of the tokens named
    the path's live lock; nothing, when none did. *)
Lemma set_expiry_result path tokens f w r w' :
  set_expiry_of_live_lock path tokens f w = (r, w') →
  only_locks w w' ∧
  match r with
  | Ok o => ∃ now, clock w ≤ now ≤ clock w' ∧
      match o with
      | Some l' =>
          ∃ l, l ∈ entry_locks (tables w) ∧ held_with path tokens l ∧ now < l_expires_at l ∧
            l' = mk_EntryLockEntity (l_path l) (l_token l) (f now (l_expires_at l)) ∧
            l' ∈ entry_locks (tables w')
      | None => ∀ l, l ∈ entry_locks (tables w) → held_with path tokens l → l_expires_at l ≤ now
      end
  | Err e => e = SqlIo
  end.
Proof.
  unfold set_expiry_of_live_lock, in_transaction, db_map_err, try_db. cbv [mbind db_bind]. intros Hr.
  destruct (begin w) as [rb w0] eqn:Eb. apply begin_inv in Eb as (Ht0 & Hq0 & Hc0 & Hb).
  destruct Hb as [[-> _]|[-> _]]; cbn [map_err] in Hr.
  { injection Hr as <- <-. unfold only_locks. by rewrite Ht0, Hq0. }
  destruct (select _ w0) as [r1 w1] eqn:Es. apply select_inv in Es as [(Ht1 & Hq1 & _ & Hc1) Hs]. rewrite Hq0 in Hq1.
  destruct r1 as [rows|e].
  2: { cbn in Hr. injection Hr as <- <-. split; [by split_and!|]. by destruct Hs as [[= ->]|]. }
  destruct (exec _ w1) as [r2 w2] eqn:Ee. apply exec_inv in Ee as (Hc2 & _ & Hcase).
  assert (seqs w2 = seqs w) as Hq2.
  { destruct Hcase as [(_ & _ & ?)|(r0 & He & _)]; [congruence|]. injection He as _ _ He. congruence. }
  destruct r2 as [o|e].
  2: { cbn in Hr. injection Hr as <- <-. split; [by split_and!|].
       destruct Hcase as [([= ->] & _)|(r0 & He & [<-|[= ->]])]; [done| |done]. discriminate He. }
  destruct Hcase as [(? & _)|(r0 & He & [<-|?])]; [done| |done]. injection He as Ho He _.
  rewrite Ht1, Ht0 in He, Ho. clear Hs.
  destruct (commit _ w2) as [rc w3] eqn:Ec. apply commit_inv in Ec as (Hq3 & Hc3 & _ & Hcm).
  destruct Hcm as [[-> Ht3]|[-> Ht3]]; cbn [map_err] in Hr; injection Hr as <- <-.
  2: { split; [|done]. unfold only_locks. rewrite Hq3, Hq2. destruct Ht3 as [->| ->]; [by rewrite <-He|done]. }
  unfold only_locks. rewrite Ht3, <-He, Hq3, Hq2. split; [done|].
  exists (clock w2). split; [lia|]. cbn [entry_locks set_entry_locks]. destruct o as [l'|].
  - destruct (filter _ _) as [|l ls] eqn:Ef; [done|]. injection Ho as <-.
    assert (l ∈ l :: ls) as Hl by left. rewrite <-Ef in Hl.
    apply list_elem_of_filter in Hl as [Hhit Hl]. pose proof Hhit as Hb.
    apply andb_true_iff in Hb as [Hh%bool_decide_eq_true Hlv%Z.ltb_lt].
    exists l. split_and!; try done. apply list_elem_of_fmap. exists l. split; [|done]. by rewrite Hhit.
  - destruct (filter _ _) as [|l ls] eqn:Ef; [|done]. intros l Hl Hh. apply Z.nlt_ge. intros Hlt.
    assert (l ∈ filter (λ l, bool_decide (held_with path tokens l) && lock_live (clock w2) l = true)
              (entry_locks (tables w))) as Hin.
    { apply list_elem_of_filter. split; [|done]. apply andb_true_iff. split; [by apply bool_decide_eq_true|].
      by apply Z.ltb_lt. }
    rewrite Ef in Hin. by apply elem_of_nil in Hin.
Qed.

(** What [get_active] answers. *)
Lemma get_active_inv path w r w' :
  EntryLockRepository_get_active path w = (r, w') →
  same_data w w' ∧
  match r with
  | Ok (Some l) => l ∈ entry_locks (tables w) ∧ l_path l = ep_key path ∧ clock w' < l_expires_at l
  | Ok None => ∀ l, l ∈ entry_locks (tables w) → l_path l = ep_key path → l_expires_at l ≤ clock w'
  | Err e => e = SqlIo
  end.
Proof.
  intros [Hs [->| ->]]%select_inv; (split; [done|]); [done|]. unfold lock_live, fetch_optional.
  destruct (filter _ _) as [|l ls] eqn:Ef; cbn [head].
  - intros l Hl Hp. apply Z.nlt_ge. intros Hlt.
    assert (l ∈ filter (λ l, l_path l = ep_key path ∧ (clock w' <? l_expires_at l) = true)
              (entry_locks (tables w))) as Hin.
    { apply list_elem_of_filter. split; [|done]. split; [done|]. by apply Z.ltb_lt. }
    rewrite Ef in Hin. by apply elem_of_nil in Hin.
  - assert (l ∈ l :: ls) as Hl by left. rewrite <-Ef in Hl.
    apply list_elem_of_filter in Hl as ((? & ?%Z.ltb_lt) & ?). done.
Qed.

Lemma run_op_ran op w : op_ran op w (run_op op w).
Proof.
  destruct op; cbn [run_op].
  - destruct (EntryLockRepository_acquire path token lifetime w) as [r w'] eqn:E. cbn.
    apply exec_inv in E as (Hc & _ & [(_ & Ht & _)|(r0 & Hf & _)]); (split; [done|]);
      exists (clock w'); (split; [lia|]); [left; by rewrite Ht|right].
    cbn. destruct (list_find _ _) as [[? l]|]; [destruct (l_expires_at l <=? clock w')|];
      injection Hf as _ <- _; done.
  - destruct (EntryLockRepository_get_active path w) as [r w'] eqn:E. cbn.
    apply select_inv in E as [(Ht & _ & _ & Hc) _]. split; [done|]. exists (clock w').
    rewrite Ht. split; [lia|by left].
  - destruct (EntryLockRepository_hold path token w) as [r w'] eqn:E. cbn.
    apply select_inv in E as [(Ht & _ & _ & Hc) _]. split; [done|]. exists (clock w').
    rewrite Ht. split; [lia|by left].
  - destruct (EntryLockRepository_refresh path tokens lifetime w) as [r w'] eqn:E.
    by apply set_expiry_inv in E.
  - destruct (EntryLockRepository_keep_alive path tokens horizon w) as [r w'] eqn:E.
    by apply set_expiry_inv in E.
  - destruct (EntryLockRepository_release path token w) as [r w'] eqn:E. cbn.
    apply exec_inv in E as (Hc & _ & [(_ & Ht & _)|(r0 & Hf & _)]); (split; [done|]);
      exists (clock w'); (split; [lia|]); [left; by rewrite Ht|right].
    by injection Hf as _ <- _.
  - destruct (EntryLockRepository_delete_expired w) as [r w'] eqn:E. cbn.
    apply exec_inv in E as (Hc & _ & [(_ & Ht & _)|(r0 & Hf & _)]); (split; [done|]);
      exists (clock w'); (split; [lia|]); [left; by rewrite Ht|right].
    by injection Hf as _ <- _.
Qed.

(** ** Invariants *)

Lemma lock_effect_wf op now ls :
  NoDup (map l_path ls) → NoDup (map l_path (lock_effect op now ls)).
Proof.
  intros Hwf. destruct op; cbn [lock_effect].
  - destruct (list_find _ ls) as [[i l]|] eqn:E.
    + destruct (l_expires_at l <=? now); [|done].
      rewrite map_l_path_keep; [done|]. intros l'. by case_decide.
    + rewrite map_app. apply NoDup_app. split_and!; [done| |apply NoDup_singleton].
      intros p (l & -> & Hl)%list_elem_of_fmap ?%list_elem_of_singleton.
      apply list_find_None in E. rewrite Forall_forall in E. by apply (E l).
  - done.
  - done.
  - rewrite map_l_path_keep; [done|]. intros l. by destruct (_ && _).
  - rewrite map_l_path_keep; [done|]. intros l. by destruct (_ && _).
  - eapply sublist_NoDup; [exact Hwf|]. apply fmap_sublist, sublist_filter.
  - eapply sublist_NoDup; [exact Hwf|]. apply fmap_sublist, sublist_filter.
Qed.

(** A live lock survives every operation that does not present its token. *)
Lemma lock_effect_keeps op now ls l :
  NoDup (map l_path ls) → l ∈ ls → now < l_expires_at l → ¬ op_uses (l_token l) op →
  l ∈ lock_effect op now ls.
Proof.
  intros Hwf Hl Hlive Hop. destruct op; cbn [lock_effect op_uses] in *.
  - destruct (list_find _ ls) as [[i l']|] eqn:E; [|apply elem_of_app; by left].
    destruct (Z.leb_spec (l_expires_at l') now) as [Hexp|]; [|done].
    apply list_find_Some in E as (Hi & Hp & _). apply list_elem_of_lookup_2 in Hi.
    apply list_elem_of_fmap. exists l. split; [|done]. rewrite decide_False; [done|].
    intros Hlp. assert (l = l') as -> by (apply (NoDup_map_inj l_path ls); congruence). lia.
  - done.
  - done.
  - apply list_elem_of_fmap. exists l. split; [|done].
    rewrite bool_decide_eq_false_2; [done|]. by intros [_ ?].
  - apply list_elem_of_fmap. exists l. split; [|done].
    rewrite bool_decide_eq_false_2; [done|]. by intros [_ ?].
  - apply list_elem_of_filter. split; [|done]. apply bool_decide_eq_false_2. by intros [_ <-].
  - apply list_elem_of_filter. split; [|done]. unfold lock_live. by apply Z.ltb_lt.
Qed.

Lemma op_ran_wf op w w' : op_ran op w w' → locks_wf (tables w) → locks_wf (tables w').
Proof.
  intros (_ & now & _ & [E|E]) Hwf; unfold locks_wf in *; rewrite E; [done|]. by apply lock_effect_wf.
Qed.

Lemma lock_step_wf w w' : lock_step w w' → locks_wf (tables w) → locks_wf (tables w').
Proof.
  intros [op w0 ts] Hwf.
  apply (op_ran_wf op (mk_World (tables w0) (seqs w0) (clock w0) (tx_time w0) ts)); [apply run_op_ran|done].
Qed.

Lemma foreign_step_keeps token w w' l :
  foreign_step token w w' → locks_wf (tables w) → l ∈ entry_locks (tables w) → l_token l = token →
  clock w' < l_expires_at l → l ∈ entry_locks (tables w').
Proof.
  intros [op w0 ts Hop] Hwf Hl <- Hlive.
  destruct (run_op_ran op (mk_World (tables w0) (seqs w0) (clock w0) (tx_time w0) ts))
    as (_ & now & Hnow & [E|E]); rewrite E; [done|].
  apply lock_effect_keeps; try done. lia.
Qed.

Lemma foreign_step_mono token w w' :
  foreign_step token w w' → clock w ≤ clock w' ∧ (locks_wf (tables w) → locks_wf (tables w')).
Proof.
  intros [op w0 ts Hop].
  pose proof (run_op_ran op (mk_World (tables w0) (seqs w0) (clock w0) (tx_time w0) ts)) as Hr.
  split; [apply Hr|]. intros Hwf. by apply (op_ran_wf _ _ _ Hr).
Qed.

Lemma foreign_steps_keep token w w' l :
  rtc (foreign_step token) w w' → locks_wf (tables w) → l ∈ entry_locks (tables w) →
  l_token l = token → clock w' < l_expires_at l →
  clock w ≤ clock w' ∧ locks_wf (tables w') ∧ l ∈ entry_locks (tables w').
Proof.
  induction 1 as [w|w w1 w2 Hstep Hrest IH]; intros Hwf Hl Ht Hlive; [done|].
  assert (clock w1 ≤ clock w2) as Hmono.
  { clear -Hrest. induction Hrest as [|? ? ? Hs _ IH]; [lia|]. apply foreign_step_mono in Hs as [? _]. lia. }
  destruct (foreign_step_mono _ _ _ Hstep) as [Hc Hwf1].
  destruct IH as (? & ? & ?); [by apply Hwf1| |done..|split_and!; [lia|done|done]].
  eapply foreign_step_keeps; [done..|]. lia.
Qed.

(** What a granted lock is. *)
Lemma acquire_granted path token lifetime w lock w' :
  EntryLockRepository_acquire path token lifetime w = (Ok (Some lock), w') →
  clock w ≤ clock w' ∧
  lock = mk_EntryLockEntity (ep_key path) token (clock w' + lifetime) ∧
  lock ∈ entry_locks (tables w') ∧
  (∀ l, l ∈ entry_locks (tables w) → locks_wf (tables w) → l_path l = ep_key path →
        l_expires_at l ≤ clock w').
Proof.
  intros E. apply exec_inv in E as (Hc & _ & [(? & _)|(r0 & Hf & Hr)]); [done|].
  destruct Hr as [<-|]; [|done]. split; [done|].
  destruct (list_find _ _) as [[i l]|] eqn:El.
  - destruct (Z.leb_spec (l_expires_at l) (clock w')); [|done]. injection Hf as <- <- _.
    apply list_find_Some in El as (Hi & Hp & _). apply list_elem_of_lookup_2 in Hi.
    split_and!; [done| |].
    + apply list_elem_of_fmap. exists l. by rewrite decide_True.
    + intros l' Hl' Hwf Hp'. by rewrite (locks_unique (tables w) l' l) by congruence.
  - injection Hf as <- <- _. split_and!; [done| |].
    + apply elem_of_app. right. by apply list_elem_of_singleton.
    + intros l' Hl' _ Hp'. apply list_find_None in El. rewrite Forall_forall in El. by destruct (El l').
Qed.

(** (C5) Mutual exclusion of write locks.  Once [LOCK] grants [token] on a
    path, then whatever any clients do next without presenting that token (any
    number of acquisitions, refreshes, releases, sweeps, failed or delayed
    statements), until the granted lifetime has passed: the path's only lock
    row is the granted one, every further acquisition of the path is refused,
    and no other token is accepted as holding it. *)
Theorem lock_mutual_exclusion path token lifetime w lock w1 w2 :
  locks_wf (tables w) →
  EntryLockRepository_acquire path token lifetime w = (Ok (Some lock), w1) →
  rtc (foreign_step token) w1 w2 →
  clock w2 < clock w1 + lifetime →
  (∀ l, l ∈ entry_locks (tables w2) → l_path l = ep_key path → l = lock) ∧
  lock ∈ entry_locks (tables w2) ∧
  (∀ token' lifetime' r w3, EntryLockRepository_acquire path token' lifetime' w2 = (r, w3) →
     clock w3 < clock w1 + lifetime → r = Ok None ∨ r = Err SqlIo) ∧
  (∀ token' r w3, EntryLockRepository_hold path token' w2 = (r, w3) →
     r = Ok true → token' = token).
Proof.
  intros Hwf Hacq Hsteps Hlive.
  assert (locks_wf (tables w1)) as Hwf1.
  { eapply (op_ran_wf (OpAcquire path token lifetime) w); [|done].
    pose proof (run_op_ran (OpAcquire path token lifetime) w) as Hr. cbn [run_op] in Hr.
    by rewrite Hacq in Hr. }
  apply acquire_granted in Hacq as (Hc & -> & Hin & _).
  destruct (foreign_steps_keep _ _ _ _ Hsteps Hwf1 Hin eq_refl Hlive) as (Hc2 & Hwf2 & Hin2).
  split_and!; [intros l Hl Hp; by apply (locks_unique (tables w2))|done| |].
  - intros token' lifetime' r w3 Hr Hlive3.
    destruct r as [[lock'|]|e]; [|by left|].
    + exfalso. apply acquire_granted in Hr as (Hc3 & _ & _ & Hexp).
      specialize (Hexp _ Hin2 Hwf2 eq_refl). cbn in Hexp. lia.
    + right. apply exec_inv in Hr as (_ & _ & [(-> & _)|(r0 & Hf & [<-|?])]); [done| |done].
      destruct (list_find _ _) as [[? l]|]; [destruct (l_expires_at l <=? clock w3)|]; discriminate Hf.
  - intros token' r w3 Hr ->. apply select_inv in Hr as [_ [|Hr]]; [done|].
    injection Hr as Hr. symmetry in Hr. apply bool_decide_eq_true in Hr.
    destruct (filter _ _) as [|l ls] eqn:Ef; [done|].
    assert (l ∈ l :: ls) as Hl by left. rewrite <-Ef in Hl.
    apply list_elem_of_filter in Hl as ((Hp & <- & _) & Hl).
    by rewrite (locks_unique (tables w2) l _ Hwf2 Hl Hin2 Hp).
Qed.

(** Reachable lock tables keep one row per path: the primary key is never
    violated, whatever sequence of operations, faults and delays happens, and
    [get_active] answers with a live lock on the path whenever there is one. *)
Theorem lock_table_invariant path w w' :
  locks_wf (tables w) → lock_reachable w w' →
  locks_wf (tables w') ∧
  ∀ r w'', EntryLockRepository_get_active path w' = (Ok r, w'') →
    match r with
    | Some l => l ∈ entry_locks (tables w') ∧ l_path l = ep_key path ∧ clock w'' < l_expires_at l
    | None => ∀ l, l ∈ entry_locks (tables w') → l_path l = ep_key path → l_expires_at l ≤ clock w''
    end.
Proof.
  intros Hwf Hr. split.
  { induction Hr as [|w w1 w2 Hs _ IH]; [done|]. apply IH. by eapply lock_step_wf. }
  intros r w'' Hg. apply get_active_inv in Hg as [_ Hg]. by destruct r.
Qed.

End EntryLocks.

(** * Witnesses *)

Definition demo_lock_path : EntryPath := EntryPath_new (H := demo_keys) true sample_path.

(** The world after the first client took the lock for 30 seconds, and after a
    second client tried to, ten seconds later. *)
Definition demo_locked : World :=
  (EntryLockRepository_acquire demo_lock_path (lit "t1") 30 (demo_world [])).2.
Definition demo_contended : World :=
  run_op (OpAcquire demo_lock_path (lit "t2") 30)
    (mk_World (tables demo_locked) (seqs demo_locked) (clock demo_locked) (tx_time demo_locked)
       [mk_Tick 10 false false]).

Lemma lock_mutual_exclusion_witness :
  mk_EntryLockEntity (ep_key demo_lock_path) (lit "t1") 2030 ∈ entry_locks (tables demo_contended).
Proof.
  apply (lock_mutual_exclusion demo_lock_path (lit "t1") 30 (demo_world []) _ demo_locked).
  - apply NoDup_nil_2.
  - vm_compute. reflexivity.
  - apply rtc_once. apply foreign_step_op. cbn. tauto.
  - vm_compute. reflexivity.
Defined.

Lemma lock_table_invariant_witness : locks_wf (tables demo_contended).
Proof.
  apply (lock_table_invariant demo_lock_path demo_locked).
  - apply (bool_decide_unpack _). vm_compute. exact I.
  - apply rtc_once. apply lock_step_op.
Defined.
