(* ===== verification/Events.v ===== *)
(** Events: event types and cursors ([pubky-common/src/events.rs]), the
    [events] table ([persistence/sql/entities/events/]), the event service's
    reads ([services/events_service/service.rs]) and the poller that broadcasts
    new events ([persistence/sql/pg_event_listener.rs]). *)

From S2P Require Import Prelude StoragePath HttpError Keys Quota Database Users Entries.

(** * Types *)

Inductive EventType :=
| EventPut (content_hash : Hash)
| EventDelete.

#[export] Instance EventType_eq_dec : EqDecision EventType.
Proof. solve_decision. Defined.

Definition EventType_as_str (t : EventType) : str :=
  match t with EventPut _ => lit "PUT" | EventDelete => lit "DEL" end.

Definition EventType_content_hash (t : EventType) : option Hash :=
  match t with EventPut content_hash => Some content_hash | EventDelete => None end.

(** [EventCursor(u64)]: [Display] and [FromStr]. *)
Abbreviation EventCursor := Z.
Definition EventCursor_fmt (c : EventCursor) : str := show_uint c.
Definition EventCursor_from_str (s : str) : option EventCursor := parse_uint U64_MAX s.

(** * Path filters *)

(** The newtype [PathFilter(StoragePath)]. *)
Record PathFilter := mk_PathFilter { filter_path : StoragePath }.

Definition PathFilter_matches (self : PathFilter) (path : str) : bool :=
  let prefix := as_str (filter_path self) in
  if StoragePath_is_directory (filter_path self) then starts_with path prefix
  else bool_decide (path = prefix).

(** The SQL predicate, on the [path] column of a row. *)
Definition PathFilter_to_condition (self : PathFilter) (row_path : str) : bool :=
  let path := as_str (filter_path self) in
  if StoragePath_is_directory (filter_path self) then sql_like (like_starts_with path) row_path
  else bool_decide (row_path = path).

Lemma PathFilter_condition_matches f path :
  PathFilter_to_condition f path = PathFilter_matches f path.
Proof.
  unfold PathFilter_to_condition, PathFilter_matches.
  by destruct (StoragePath_is_directory _); rewrite ?sql_like_starts_with.
Qed.

Section Events.
Context `{PkarrKeys}.

(** * The entity *)

Record EventEntity := mk_EventEntity {
  ve_id : Z;
  ve_user_id : Z;
  ve_user_pubkey : PublicKey;
  ve_event_type : EventType;
  ve_path : EntryPath;
  ve_created_at : Z
}.

Definition EventEntity_cursor (e : EventEntity) : EventCursor := ve_id e.

Definition EventEntity_pubky_uri (e : EventEntity) : str :=
  lit "pubky://" ++ PublicKey_z32 (ve_user_pubkey e) ++ as_str (ep_path (ve_path e)).

(** A row of [events] joined with its user. *)
Definition EventEntity_from_row (row : EventRow * UserRow) : result SqlError EventEntity :=
  let '(v, u) := row in
  user_pubkey ← map_err (λ _, Decode) (PublicKey_try_from_z32 (u_public_key u));
  path ← map_err (λ _, Decode) (StoragePath_new (v_path v));
  let content_hash :=
    bytes ← v_content_hash v; if (length bytes =? 32)%nat then Some bytes else None in
  event_type ←
    (if decide (v_type v = lit "PUT") then Ok (EventPut (default (repeat 0 32) content_hash))
     else if decide (v_type v = lit "DEL") then Ok EventDelete
     else Err Decode);
  Ok (mk_EventEntity (as_u64 (v_id v)) (v_user v) user_pubkey event_type
        (EntryPath_new user_pubkey path) (v_created_at v)).

(** * The repository *)

(** [events LEFT JOIN users ON events.user = users.id]. *)
Definition events_with_users (tb : Tables) : list (EventRow * UserRow) :=
  omap (λ v, u ← list_find (λ u, u_id u = v_user v) (users tb); Some (v, u.2)) (events tb).

Definition EventRepository_get_max_id : DB SqlError Z :=
  select (λ _ tb,
    let max_id := foldr (λ v m, Z.max (v_id v) m) 0 (events tb) in
    Ok (if max_id <? 0 then 0 else max_id)).

(** The advisory lock that serialises inserts, then [INSERT .. RETURNING id];
    [now] is [Utc::now()] on the server. *)
Definition EventRepository_create (now : Z) (user_id : Z) (event_type : EventType) (path : EntryPath)
    : DB SqlError EventEntity :=
  select (λ _ _, Ok ()) ;;
  event_id ← exec (λ _ _ tb sq,
    let id := seq_events sq in
    let sq := mk_Seqs (seq_users sq) (seq_entries sq) (id + 1) (seq_sessions sq) (seq_grant_sessions sq) in
    if negb (existsb (λ u, u_id u =? user_id) (users tb)) then (Err ForeignKeyViolation, tb, sq)
    else
      let row := mk_EventRow id (EventType_as_str event_type) user_id (as_str (ep_path path)) now
                   (EventType_content_hash event_type) in
      (Ok id, set_events (λ l, l ++ [row]) tb, sq));
  mret (mk_EventEntity (as_u64 event_id) user_id (ep_pubkey path) event_type path now).

Inductive EventVisibility := VisPublic | VisAll.

Definition event_leb (reverse : bool) (a b : EventRow * UserRow) : bool :=
  if reverse then v_id b.1 <=? v_id a.1 else v_id a.1 <=? v_id b.1.

(** Strictly after the cursor, in the direction of the query. *)
Definition after_cursor (reverse : bool) (cursor : option EventCursor) (v : EventRow) : bool :=
  match cursor with
  | Some c => if reverse then v_id v <? c else c <? v_id v
  | None => true
  end.

Definition any_filter (filters : list PathFilter) (v : EventRow) : bool :=
  match filters with
  | [] => true
  | _ => existsb (λ f, PathFilter_to_condition f (v_path v)) filters
  end.

Definition fetch_events (limit : option Z) (reverse : bool) (rows : list (EventRow * UserRow))
    : result SqlError (list EventEntity) :=
  fetch_all EventEntity_from_row
    (take (Z.to_nat (effective_list_limit limit)) (order_by (event_leb reverse) rows)).

(** The [UNION ALL] over the users. *)
Definition EventRepository_get_by_user_cursors (user_cursors : list (Z * option EventCursor))
    (limit : option Z) (reverse : bool) (allowed_paths : list PathFilter)
    : DB SqlError (list EventEntity) :=
  if decide (user_cursors = []) then mret []
  else
    select (λ _ tb,
      fetch_events limit reverse
        (concat (map (λ uc,
           filter (λ vu, (v_user vu.1 =? uc.1) && any_filter allowed_paths vu.1
                         && after_cursor reverse uc.2 vu.1 = true)
             (events_with_users tb)) user_cursors))).

Definition visible (visibility : EventVisibility) (v : EventRow) : bool :=
  match visibility with
  | VisPublic => sql_like (like_starts_with PUBLIC_ROOT) (v_path v)
  | VisAll => true
  end.

Definition EventRepository_get_by_cursor (cursor : option EventCursor) (limit : option Z)
    (visibility : EventVisibility) : DB SqlError (list EventEntity) :=
  let cursor := default 0 cursor in
  select (λ _ tb,
    fetch_events limit false
      (filter (λ vu, (cursor <? v_id vu.1) && visible visibility vu.1 = true) (events_with_users tb))).

Definition EventRepository_get_all_filtered_by_cursor (cursor : option EventCursor) (limit : option Z)
    (reverse : bool) (path_filters : list PathFilter) (user_ids : option (list Z))
    : DB SqlError (list EventEntity) :=
  if decide (user_ids = Some []) then mret []
  else
    select (λ _ tb,
      fetch_events limit reverse
        (filter (λ vu, after_cursor reverse cursor vu.1 && any_filter path_filters vu.1
                       && match user_ids with Some ids => bool_decide (v_user vu.1 ∈ ids) | None => true end
                       = true)
           (events_with_users tb))).

(** * The service *)

Definition EventsService_create_event := EventRepository_create.

Definition EventsService_get_public_by_cursor (cursor : option EventCursor) (limit : option Z)
    : DB SqlError (list EventEntity) :=
  EventRepository_get_by_cursor cursor limit VisPublic.

Definition EventsService_get_all_events := EventRepository_get_all_filtered_by_cursor.
Definition EventsService_get_by_user_cursors := EventRepository_get_by_user_cursors.

(** * The poller *)

Definition MAX_BATCHES_PER_WAKE : nat := 10.
Definition BATCH_SIZE : Z := 100.

(** Its state: where it has got to, what it has sent to the broadcast channel,
    and whether it has woken itself. *)
Record Poller := mk_Poller {
  last_broadcast_id : Z;
  broadcast : list EventEntity;
  wake : bool
}.

(** The [for event in &events] loop. *)
Definition broadcast_batch (p : Poller) (evs : list EventEntity) : Poller :=
  foldl (λ p e, mk_Poller (ve_id e) (broadcast p ++ [e]) (wake p)) p evs.

(** The [for _ in 0..MAX_BATCHES_PER_WAKE] loop, then the self-wake. *)
Fixpoint broadcast_loop (batches : nat) (p : Poller) (w : World) : result SqlError () * Poller * World :=
  match batches with
  | O => (Ok (), mk_Poller (last_broadcast_id p) (broadcast p) true, w)
  | S batches =>
      match EventRepository_get_by_cursor (Some (last_broadcast_id p)) (Some BATCH_SIZE) VisAll w with
      | (Err e, w) => (Err e, p, w)
      | (Ok evs, w) =>
          if decide (evs = []) then (Ok (), p, w)
          else
            let is_full_batch := Z.of_nat (length evs) =? BATCH_SIZE in
            let p := broadcast_batch p evs in
            if negb is_full_batch then (Ok (), p, w) else broadcast_loop batches p w
      end
  end.

Definition broadcast_new_events (p : Poller) (w : World) : result SqlError () * Poller * World :=
  broadcast_loop MAX_BATCHES_PER_WAKE p w.

(** The start of the listener: three attempts to read the newest id. *)
Fixpoint initial_id (attempts : nat) : DB SqlError Z :=
  match attempts with
  | O => EventRepository_get_max_id
  | S attempts =>
      r ← try_db EventRepository_get_max_id;
      match r with Ok id => mret id | Err _ => initial_id attempts end
  end.
Definition listener_start : DB SqlError Z := initial_id 2.

End Events.

(** * Theorems *)

Section EventTheorems.
Context `{PkarrKeysLaws}.

(** The invariant of the [events] table: ids are unique and positive, the user
    exists, the path is canonical and the type is one of the two written. *)
Definition events_wf (tb : Tables) : Prop :=
  NoDup (map v_id (events tb)) ∧
  Forall (λ v, 1 ≤ v_id v ≤ I64_MAX ∧ v_user v ∈ map u_id (users tb) ∧
               StoragePath_wf (mk_StoragePath (v_path v)) ∧
               (v_type v = lit "PUT" ∨ v_type v = lit "DEL")) (events tb).

Lemma events_with_users_fst tb :
  events_wf tb → map fst (events_with_users tb) = events tb.
Proof.
  intros [_ Hwf]. unfold events_with_users. induction Hwf as [|v l (_ & Hu & _) Hl IH]; [done|].
  destruct (find_user_by_id tb _ Hu) as (i & u & Hf & _). cbn [omap list_omap]. rewrite Hf. cbn.
  by f_equal.
Qed.

Lemma EventEntity_decodes tb vu :
  users_wf tb → events_wf tb → vu ∈ events_with_users tb →
  ∃ e, EventEntity_from_row vu = Ok e ∧ ve_id e = v_id vu.1 ∧
       ve_user_id e = v_user vu.1 ∧ as_str (ep_path (ve_path e)) = v_path vu.1.
Proof.
  intros (_ & _ & Hus) [_ Hwf] Hin. unfold events_with_users in Hin.
  apply list_elem_of_omap in Hin as (v & Hv & Hf).
  rewrite Forall_forall in Hwf. destruct (Hwf v Hv) as (Hid & Hu & Hp & Hty).
  destruct (find_user_by_id tb _ Hu) as (i & u & Hfind & Huin & _). rewrite Hfind in Hf.
  injection Hf as <-. rewrite Forall_forall in Hus. destruct (Hus u Huin) as [[k Hk] _].
  unfold EventEntity_from_row, PublicKey_try_from_z32. rewrite Hk. unfold PublicKey_z32.
  rewrite pkarr_roundtrip. cbn [map_err mbind result_bind].
  unfold StoragePath_new. unfold StoragePath_wf in Hp. cbn [as_str] in Hp. rewrite Hp.
  cbn [map_err mbind result_bind].
  assert (as_u64 (v_id v) = v_id v) as Hcast.
  { unfold as_u64, I64_MAX in *. by rewrite Z.mod_small by lia. }
  destruct Hty as [->| ->]; cbn; eexists; (split; [done|]); cbn; auto.
Qed.

(** The rows a cursor query is about. *)
Definition feed (visibility : EventVisibility) (cursor : Z) (tb : Tables) : list EventRow :=
  filter (λ v, (cursor <? v_id v) && visible visibility v = true) (events tb).

(** A page of a feed, as the identifiers of its events. *)
Definition is_page (limit : Z) (all page : list Z) : Prop :=
  Z.of_nat (length page) ≤ limit ∧
  StronglySorted Z.lt page ∧ (∀ i, i ∈ page → i ∈ all) ∧
  (∀ m i, last page = Some m → i ∈ all → i ≤ m → i ∈ page) ∧
  (Z.of_nat (length page) < limit → ∀ i, i ∈ all → i ∈ page).

(** The rows may come in any order, as from a [UNION ALL]. *)
Lemma fetch_page tb (P : EventRow → bool) limit rows :
  users_wf tb → events_wf tb → 0 ≤ effective_list_limit limit →
  rows ≡ₚ filter (λ vu, P vu.1 = true) (events_with_users tb) →
  ∃ evs, fetch_events limit false rows = Ok evs ∧
    is_page (effective_list_limit limit) (map v_id (filter (λ v, P v = true) (events tb)))
      (map ve_id evs) ∧
    (∀ e, e ∈ evs → ∃ v, v ∈ events tb ∧ P v = true ∧ v_id v = ve_id e ∧
            ve_user_id e = v_user v ∧ as_str (ep_path (ve_path e)) = v_path v).
Proof.
  intros Hu Hv Hlim Hrows. unfold fetch_events.
  assert (map (λ vu : EventRow * UserRow, v_id vu.1) rows ≡ₚ map v_id (filter (λ v, P v = true) (events tb)))
    as Hkeys.
  { rewrite Hrows, <-(events_with_users_fst tb Hv), <-map_filter_fst, map_map. done. }
  set (T := take (Z.to_nat (effective_list_limit limit)) (order_by (event_leb false) rows)).
  assert (NoDup (map (λ vu : EventRow * UserRow, v_id vu.1) rows)) as HN.
  { rewrite Hkeys. apply sublist_map_filter_NoDup, Hv. }
  pose proof (page_spec _ rows (Z.to_nat (effective_list_limit limit)) HN) as Hpage. cbv beta zeta in Hpage.
  change (take (Z.to_nat (effective_list_limit limit))
            (order_by (λ a b : EventRow * UserRow, v_id a.1 <=? v_id b.1) rows)) with T in Hpage.
  destruct Hpage as (Hsort & Hsub & Hgap & Hall). setoid_rewrite Hkeys in Hgap. setoid_rewrite Hkeys in Hall.
  destruct (fetch_all_ok EventEntity_from_row
    (λ vu e, ve_id e = v_id vu.1 ∧ ve_user_id e = v_user vu.1 ∧ as_str (ep_path (ve_path e)) = v_path vu.1) T)
    as (evs & Hf & H2).
  { intros vu Hin. apply Hsub in Hin. rewrite Hrows in Hin. apply list_elem_of_filter in Hin as [_ Hin].
    by eapply EventEntity_decodes. }
  exists evs. split; [exact Hf|].
  assert (map ve_id evs = map (λ vu : EventRow * UserRow, v_id vu.1) T) as Hids.
  { clear -H2. induction H2 as [|vu e T evs (He & _) _ IH]; [done|]. cbn. by rewrite He, IH. }
  rewrite <-Hids in Hsort, Hgap, Hall. split.
  - assert (length evs = length T) as Hlen.
    { apply (f_equal length) in Hids. by rewrite 2!length_map in Hids. }
    split_and!; [|done| |done|]; rewrite ?length_map, ?Hlen.
    + unfold T. rewrite length_take. lia.
    + intros i Hi. rewrite Hids in Hi. apply list_elem_of_fmap in Hi as (vu & -> & Hin).
      rewrite <-Hkeys. apply (list_elem_of_fmap_2 (λ vu : EventRow * UserRow, v_id vu.1)). by apply Hsub.
    + intros Hshort. apply Hall. lia.
  - intros e He. apply list_elem_of_lookup in He as [i He].
    destruct (Forall2_lookup_r _ _ _ _ _ H2 He) as (vu & Hvu & H1e & H2e & H3e).
    apply list_elem_of_lookup_2, Hsub in Hvu. rewrite Hrows in Hvu.
    apply list_elem_of_filter in Hvu as [HP Hin].
    exists vu.1. split_and!; try done. rewrite <-(events_with_users_fst tb Hv).
    by apply list_elem_of_fmap_2.
Qed.

Lemma get_by_cursor_inv c limit vis w r w' :
  users_wf (tables w) → events_wf (tables w) → 0 ≤ effective_list_limit limit →
  EventRepository_get_by_cursor c limit vis w = (r, w') →
  same_data w w' ∧
  (r = Err SqlIo ∨
   ∃ evs, r = Ok evs ∧
     is_page (effective_list_limit limit) (map v_id (feed vis (default 0 c) (tables w))) (map ve_id evs) ∧
     (∀ e, e ∈ evs → ∃ v, v ∈ feed vis (default 0 c) (tables w) ∧ v_id v = ve_id e ∧
             ve_user_id e = v_user v ∧ as_str (ep_path (ve_path e)) = v_path v)).
Proof.
  intros Hu Hv Hl [Hs Hr]%select_inv. split; [done|]. destruct Hr as [->| ->]; [by left|right].
  destruct (fetch_page (tables w) (λ v, (default 0 c <? v_id v) && visible vis v) limit _ Hu Hv Hl (reflexivity _))
    as (evs & Hf & Hp & He).
  exists evs. split_and!; [exact Hf|exact Hp|]. intros e (v & Hin & HP & Hrest)%He.
  exists v. split; [|done]. by apply list_elem_of_filter.
Qed.

(** The public feed is complete, ordered and public: a page of
    [/events] contains only events below [/pub/] after the cursor, in strictly
    increasing id order, and skips none: every public event between the cursor
    and the page's last event is in the page, and a page shorter than its limit
    holds all that remain, so following the cursor visits every public event
    exactly once. *)
Theorem public_feed_pages cursor limit w evs w' :
  users_wf (tables w) → events_wf (tables w) → 0 ≤ effective_list_limit limit →
  EventsService_get_public_by_cursor cursor limit w = (Ok evs, w') →
  (∀ e, e ∈ evs → starts_with (as_str (ep_path (ve_path e))) PUBLIC_ROOT = true ∧
                  default 0 cursor < ve_id e) ∧
  StronglySorted Z.lt (map ve_id evs) ∧
  (∀ v, v ∈ events (tables w) → default 0 cursor < v_id v → starts_with (v_path v) PUBLIC_ROOT = true →
     (∃ m, last (map ve_id evs) = Some m ∧ v_id v ≤ m) ∨
     Z.of_nat (length evs) < effective_list_limit limit →
     v_id v ∈ map ve_id evs).
Proof.
  intros Hu Hv Hl Hr. apply get_by_cursor_inv in Hr as [_ [|(evs' & [= <-] & Hp & He)]]; [done| |done..].
  destruct Hp as (_ & Hsort & _ & Hgap & Hall). unfold feed, visible in *. split_and!; [|done|].
  - intros e (v & (Hc & Hvu)%list_elem_of_filter & Hid & _ & Hpath)%He.
    rewrite sql_like_starts_with in Hc. rewrite Hpath. bool_to_prop. split; [done|lia].
  - intros v Hin Hc Hpub Hcase.
    assert (v_id v ∈ map v_id (filter (λ v, (default 0 cursor <? v_id v) &&
      sql_like (like_starts_with PUBLIC_ROOT) (v_path v) = true) (events (tables w)))) as Hfeed.
    { apply list_elem_of_fmap_2, list_elem_of_filter. split; [|done].
      rewrite sql_like_starts_with, Hpub, (proj2 (Z.ltb_lt _ _)) by done. done. }
    destruct Hcase as [(m & Hm & Hle)|Hlen]; [by eapply Hgap|].
    apply Hall; [|done]. by rewrite length_map.
Qed.

(** ** The poller *)

Lemma broadcast_batch_spec p evs :
  broadcast_batch p evs =
  mk_Poller (default (last_broadcast_id p) (last (map ve_id evs))) (broadcast p ++ evs) (wake p).
Proof.
  revert p. induction evs as [|e evs IH]; intros p; unfold broadcast_batch in *; cbn [foldl map].
  - rewrite app_nil_r. by destruct p.
  - rewrite IH. cbn. rewrite <-app_assoc. rewrite last_cons. by destruct (last (map ve_id evs)).
Qed.

Lemma sorted_last_max (K : list Z) m i : StronglySorted Z.lt K → last K = Some m → i ∈ K → i ≤ m.
Proof.
  intros HK [l ->]%last_Some [Hi|Hi]%elem_of_app; [|by apply list_elem_of_singleton in Hi; lia].
  assert (i < m); [|lia]. eapply StronglySorted_app_1_elem_of; [exact HK|done|].
  by apply list_elem_of_singleton.
Qed.

(** What a run of the poller adds to the channel: exactly the events up to its
    new position, in order. *)
Definition poll_extends (tb : Tables) (p p' : Poller) : Prop :=
  last_broadcast_id p ≤ last_broadcast_id p' ∧
  ∃ new, broadcast p' = broadcast p ++ new ∧ StronglySorted Z.lt (map ve_id new) ∧
    ∀ i, i ∈ map ve_id new ↔
         i ∈ map v_id (events tb) ∧ last_broadcast_id p < i ≤ last_broadcast_id p'.

Lemma poll_extends_refl tb p : poll_extends tb p p.
Proof.
  split; [lia|]. exists []. rewrite app_nil_r. split_and!; [done|constructor|].
  intros i. rewrite elem_of_nil. split; [done|lia].
Qed.

Lemma poll_extends_trans tb p1 p2 p3 :
  poll_extends tb p1 p2 → poll_extends tb p2 p3 → poll_extends tb p1 p3.
Proof.
  intros (Hle & n1 & Hb1 & Hs1 & Hi1) (Hle' & n2 & Hb2 & Hs2 & Hi2). split; [lia|].
  exists (n1 ++ n2). split_and!.
  - by rewrite Hb2, Hb1, app_assoc.
  - rewrite map_app. apply StronglySorted_app. split_and!; [|done|done].
    intros x y Hx%Hi1 Hy%Hi2. lia.
  - intros i. rewrite map_app, elem_of_app, Hi1, Hi2.
    destruct (decide (i ≤ last_broadcast_id p2)); intuition lia.
Qed.

Lemma elem_of_feed_all c tb i :
  i ∈ map v_id (feed VisAll c tb) ↔ i ∈ map v_id (events tb) ∧ c < i.
Proof.
  unfold feed. split.
  - intros (v & -> & [Hc Hv]%list_elem_of_filter)%list_elem_of_fmap.
    split; [by apply list_elem_of_fmap_2|]. bool_to_prop. lia.
  - intros [(v & -> & Hv)%list_elem_of_fmap Hc]. apply list_elem_of_fmap_2, list_elem_of_filter.
    split; [|done]. rewrite (proj2 (Z.ltb_lt _ _)) by done. done.
Qed.

(** One batch, given the page it read. *)
Lemma batch_extends tb p evs :
  is_page BATCH_SIZE (map v_id (feed VisAll (last_broadcast_id p) tb)) (map ve_id evs) → evs ≠ [] →
  poll_extends tb p (broadcast_batch p evs).
Proof.
  intros (_ & Hsort & Hsub & Hgap & _) Hne. rewrite broadcast_batch_spec. unfold poll_extends. cbn.
  destruct (last (map ve_id evs)) as [m|] eqn:Em.
  2: { apply last_None in Em. by destruct evs. }
  assert (∀ i, i ∈ map ve_id evs → i ≤ m) as Hmax by (intros i; by apply sorted_last_max).
  assert (m ∈ map ve_id evs) as Hm.
  { apply last_Some in Em as [l ->]. apply elem_of_app. right. by apply list_elem_of_singleton. }
  cbn. split; [apply Hsub, elem_of_feed_all in Hm; lia|]. exists evs. split_and!; [done..|].
  intros i. split.
  - intros Hi. pose proof (Hmax i Hi). apply Hsub, elem_of_feed_all in Hi. intuition lia.
  - intros (Hi & Hlo & Hhi). eapply Hgap; [done| |done]. by apply elem_of_feed_all.
Qed.

Lemma broadcast_loop_spec n p w r p' w' :
  users_wf (tables w) → events_wf (tables w) → wake p = false →
  broadcast_loop n p w = (r, p', w') →
  same_data w w' ∧ poll_extends (tables w) p p' ∧
  (r = Ok () → wake p' = false → ∀ v, v ∈ events (tables w) → v_id v ≤ last_broadcast_id p').
Proof.
  revert p w. induction n as [|n IH]; intros p w Hu Hv Hwake Hr; cbn [broadcast_loop] in Hr.
  { injection Hr as <- <- <-. split_and!; [done| |done]. apply (poll_extends_refl (tables w) p). }
  destruct (EventRepository_get_by_cursor _ _ _ w) as [r1 w1] eqn:E.
  apply get_by_cursor_inv in E as [Hs Hr1]; [|done|done|by vm_compute].
  destruct Hr1 as [->|(evs & -> & Hp & _)].
  { injection Hr as <- <- <-. split_and!; [done|apply poll_extends_refl|done]. }
  change (effective_list_limit (Some BATCH_SIZE)) with BATCH_SIZE in Hp. cbn [default] in Hp.
  assert (Z.of_nat (length evs) < BATCH_SIZE →
    ∀ v, v ∈ events (tables w) → last_broadcast_id p < v_id v → v_id v ∈ map ve_id evs) as Hshort.
  { intros Hlen v Hin Hlt. destruct Hp as (_ & _ & _ & _ & Hall). rewrite length_map in Hall.
    apply Hall; [done|]. apply elem_of_feed_all. split; [by apply list_elem_of_fmap_2|done]. }
  destruct (decide (evs = [])) as [->|Hne].
  { injection Hr as <- <- <-. split_and!; [done|apply poll_extends_refl|]. intros _ _ v Hin.
    apply Z.nlt_ge. intros Hlt. apply Hshort in Hlt; [|by vm_compute|done]. by apply elem_of_nil in Hlt. }
  assert (poll_extends (tables w) p (broadcast_batch p evs)) as Hext by by apply batch_extends.
  destruct (Z.eqb_spec (Z.of_nat (length evs)) BATCH_SIZE) as [Hfull|Hfull]; cbn [negb] in Hr.
  - destruct Hs as (Ht & Hrest). rewrite <-Ht in Hu, Hv.
    apply IH in Hr as (Hs' & Hext' & Hdone); [|done..|by rewrite broadcast_batch_spec].
    rewrite Ht in *. split_and!; [by transitivity w1|by eapply poll_extends_trans|done].
  - injection Hr as <- <- <-. split_and!; [done..|]. intros _ _ v Hin.
    destruct Hp as (Hlen & _). rewrite length_map in Hlen.
    destruct (decide (last_broadcast_id p < v_id v)) as [Hlt|].
    + apply Hshort in Hlt; [|lia|done]. destruct Hext as (_ & new & Hb & _ & Hi).
      rewrite broadcast_batch_spec in Hb. cbn in Hb. apply app_inv_head in Hb as <-.
      apply Hi in Hlt. lia.
    + destruct Hext as [Hle _]. lia.
Qed.

(** (C21) No event is skipped, repeated or reordered on its way to live
    subscribers: one run of the poller sends exactly the events whose ids lie
    between its old and its new position, each once and in id order, also when
    a query fails half way (the next run then continues from there); and when
    it finishes without waking itself again, nothing is left to send. *)
Theorem poller_gap_free p w r p' w' :
  users_wf (tables w) → events_wf (tables w) → wake p = false →
  broadcast_new_events p w = (r, p', w') →
  same_data w w' ∧
  last_broadcast_id p ≤ last_broadcast_id p' ∧
  (∃ new, broadcast p' = broadcast p ++ new ∧ StronglySorted Z.lt (map ve_id new) ∧
     ∀ i, i ∈ map ve_id new ↔
          i ∈ map v_id (events (tables w)) ∧ last_broadcast_id p < i ≤ last_broadcast_id p') ∧
  (r = Ok () → wake p' = false → ∀ v, v ∈ events (tables w) → v_id v ≤ last_broadcast_id p').
Proof.
  intros Hu Hv Hw Hr. apply broadcast_loop_spec in Hr as (Hs & [Hle Hn] & Hd); [|done..]. done.
Qed.

End EventTheorems.

(** * Witnesses *)

(** Three events of the first demonstration user, one of them private. *)
Definition demo_events : list EventRow :=
  [mk_EventRow 1 (lit "PUT") 1 (lit "/pub/app/file.txt") 10 (Some demo_hash);
   mk_EventRow 2 (lit "PUT") 1 (lit "/priv/x") 11 (Some demo_hash);
   mk_EventRow 4 (lit "DEL") 1 (lit "/pub/app/file.txt") 12 None].
Definition demo_feed (ts : list Tick) : World :=
  mk_World (mk_Tables demo_users [] demo_events [] no_auth) (mk_Seqs 3 1 5 1 1) 2000 None ts.

Lemma demo_events_wf tb : users tb = demo_users → events tb = demo_events → events_wf tb.
Proof.
  unfold events_wf. intros -> ->. split.
  - apply (bool_decide_unpack _). vm_compute. exact I.
  - repeat apply Forall_cons_2; [..|apply Forall_nil_2]; (split; [vm_compute; split; discriminate|]);
      (split; [in_list|split; [vm_compute; reflexivity|vm_compute; auto]]).
Qed.

Lemma public_feed_pages_witness :
  ∃ evs w', EventsService_get_public_by_cursor (H := demo_keys) (Some 1) (Some 5) (demo_feed []) = (Ok evs, w') ∧
  map ve_id evs = [4] ∧ StronglySorted Z.lt (map ve_id evs).
Proof.
  eexists _, _. split; [vm_compute; reflexivity|]. split; [vm_compute; reflexivity|].
  apply (public_feed_pages (H := demo_keys) (Some 1) (Some 5) (demo_feed []) _
    (EventsService_get_public_by_cursor (H := demo_keys) (Some 1) (Some 5) (demo_feed [])).2).
  - by apply demo_users_wf.
  - by apply demo_events_wf.
  - vm_compute. discriminate.
  - vm_compute. reflexivity.
Defined.

Lemma poller_gap_free_witness :
  ∃ p' w', broadcast_new_events (H := demo_keys) (mk_Poller 1 [] false) (demo_feed []) = (Ok (), p', w') ∧
  last_broadcast_id p' = 4 ∧ ∀ v, v ∈ events (tables (demo_feed [])) → v_id v ≤ last_broadcast_id p'.
Proof.
  eexists _, _. split; [vm_compute; reflexivity|]. split; [vm_compute; reflexivity|].
  apply (poller_gap_free (H := demo_keys) (mk_Poller 1 [] false) (demo_feed []) (Ok ()) _
    (broadcast_new_events (H := demo_keys) (mk_Poller 1 [] false) (demo_feed [])).2).
  - by apply demo_users_wf.
  - by apply demo_events_wf.
  - reflexivity.
  - vm_compute. reflexivity.
  - reflexivity.
  - vm_compute. reflexivity.
Defined.
