(* ===== verification/EventStreams.v ===== *)
(** Event streams: the query of a stream request
    ([services/events_service/query.rs]), what of it a client may see
    ([client_server/routes/events.rs], [admin_server/routes/admin_events.rs]),
    and the stream itself ([services/events_service/{service,stream}.rs]),
    which replays history from the database and then follows the broadcast
    channel.

    The stream is a state machine with one transition per suspension point of
    the source.  Decoding a query string belongs to the [url] crate and is a
    parameter; the receiving end of the broadcast channel ([tokio]) is a queue
    that loses its oldest messages when it overflows and says so. *)

From S2P Require Import Prelude StoragePath Capabilities HttpError Keys Quota Database Users Authorization Entries.
From S2P Require Import Events.

(** * Requests *)

Inductive EventStreamError :=
| UserNotFound
| DatabaseError (error : SqlError)
| InvalidPublicKey (value : str)
| InvalidCursor (value : str)
| InvalidLimit (value : str)
| ZeroLimit
| LiveWithReverse
| TooManyUsers
| UserRequired
| InvalidPath (value : str).

Definition EventStreamError_from_sqlx (error : SqlError) : EventStreamError :=
  match error with RowNotFound => UserNotFound | error => DatabaseError error end.

Definition MAX_EVENT_STREAM_USERS : nat := 50.

(** [Display], of the variants that reach a client. *)
Definition EventStreamError_to_string (error : EventStreamError) : str :=
  match error with
  | UserNotFound => lit "User not found"
  | DatabaseError _ => lit "Database error"
  | InvalidPublicKey v => lit "Invalid public key: " ++ v
  | InvalidCursor v => lit "Invalid cursor: " ++ v
  | InvalidLimit v => lit "Invalid limit: " ++ v
  | ZeroLimit => lit "limit must be at least 1"
  | LiveWithReverse => lit "Cannot use live mode with reverse ordering"
  | TooManyUsers => lit "Too many users. Maximum allowed: " ++ show_uint (Z.of_nat MAX_EVENT_STREAM_USERS)
  | UserRequired => lit "user parameter is required"
  | InvalidPath v => lit "Invalid path: " ++ v
  end.

Definition HttpError_from_event_stream (error : EventStreamError) : HttpError :=
  match error with
  | UserNotFound => HttpError_not_found
  | DatabaseError e => HttpError_from_sqlx e
  | error => HttpError_bad_request (EventStreamError_to_string error)
  end.

Inductive Mode := Forward | ForwardLive | Reverse.
Definition Mode_reverse (m : Mode) : bool := match m with Reverse => true | _ => false end.
Definition Mode_live (m : Mode) : bool := match m with ForwardLive => true | _ => false end.

Definition is_true (value : str) : bool :=
  bool_decide (value = lit "true") || bool_decide (value = lit "1").

Definition parse_cursor (value : str) : result EventStreamError EventCursor :=
  ok_or (EventCursor_from_str value) (InvalidCursor value).

Definition parse_path (value : str) : result EventStreamError StoragePath :=
  let normalized := if starts_with value (lit "/") then value else lit "/" ++ value in
  map_err (λ _, InvalidPath normalized) (StoragePath_normalize normalized).

Definition check_user_count (count : nat) : result EventStreamError () :=
  if (MAX_EVENT_STREAM_USERS <? count)%nat then Err TooManyUsers else Ok ().

Record SharedParams := mk_SharedParams {
  sp_limit : option Z;
  sp_live : bool;
  sp_reverse : bool;
  sp_paths : list StoragePath
}.
Definition SharedParams_default : SharedParams := mk_SharedParams None false false [].

Definition SharedParams_parse (key value : str) (p : SharedParams) : result EventStreamError SharedParams :=
  if decide (key = lit "limit") then
    parsed ← ok_or (parse_uint U16_MAX value) (InvalidLimit value);
    if parsed =? 0 then Err ZeroLimit
    else Ok (mk_SharedParams (Some parsed) (sp_live p) (sp_reverse p) (sp_paths p))
  else if decide (key = lit "live") then
    Ok (mk_SharedParams (sp_limit p) (is_true value) (sp_reverse p) (sp_paths p))
  else if decide (key = lit "reverse") then
    Ok (mk_SharedParams (sp_limit p) (sp_live p) (is_true value) (sp_paths p))
  else if decide (key = lit "path" ∧ value ≠ []) then
    path ← parse_path value;
    Ok (mk_SharedParams (sp_limit p) (sp_live p) (sp_reverse p) (sp_paths p ++ [path]))
  else Ok p.

Definition SharedParams_mode (p : SharedParams) : result EventStreamError Mode :=
  match sp_live p, sp_reverse p with
  | false, false => Ok Forward
  | true, false => Ok ForwardLive
  | false, true => Ok Reverse
  | true, true => Err LiveWithReverse
  end.

Section Requests.
Context `{PkarrKeys}.
(** [form_urlencoded::parse]: the decoded pairs of a query string. *)
Context (form_parse : str → list (str * str)).

Definition stream_parse_public_key (value : str) : result EventStreamError PublicKey :=
  if PublicKey_is_pubky_prefixed value then Err (InvalidPublicKey value)
  else map_err (λ _, InvalidPublicKey value) (PublicKey_try_from_z32 value).

Abbreviation UserCursors := (list (PublicKey * option EventCursor)).

Record ClientStreamQuery := mk_ClientStreamQuery {
  cq_user_cursors : UserCursors;
  cq_limit : option Z;
  cq_mode : Mode;
  cq_paths : list StoragePath
}.

(** A repeated user resumes from the last cursor given for it. *)
Fixpoint set_user_cursor (pubkey : PublicKey) (cursor : option EventCursor) (ucs : UserCursors) : UserCursors :=
  match ucs with
  | [] => [(pubkey, cursor)]
  | (known, c) :: ucs =>
      if decide (known = pubkey) then (known, cursor) :: ucs
      else (known, c) :: set_user_cursor pubkey cursor ucs
  end.

Definition parse_user_cursor (value : str) : result EventStreamError (PublicKey * option EventCursor) :=
  let '(pubkey, cursor) :=
    match split_once 58 value with
    | Some (pubkey, cursor) => (pubkey, if decide (cursor = []) then None else Some cursor)
    | None => (value, None)
    end in
  pubkey ← stream_parse_public_key pubkey;
  cursor ← match cursor with None => Ok None | Some c => c ← parse_cursor c; Ok (Some c) end;
  Ok (pubkey, cursor).

Fixpoint client_query_loop (pairs : list (str * str)) (ucs : UserCursors) (shared : SharedParams)
    : result EventStreamError (UserCursors * SharedParams) :=
  match pairs with
  | [] => Ok (ucs, shared)
  | (key, value) :: pairs =>
      if decide (key = lit "user" ∧ value ≠ []) then
        uc ← parse_user_cursor value;
        client_query_loop pairs (set_user_cursor uc.1 uc.2 ucs) shared
      else
        shared ← SharedParams_parse key value shared;
        client_query_loop pairs ucs shared
  end.

Definition ClientStreamQuery_parse (query : str) : result EventStreamError ClientStreamQuery :=
  r ← client_query_loop (form_parse query) [] SharedParams_default;
  let '(user_cursors, shared) := r in
  mode ← SharedParams_mode shared;
  if decide (user_cursors = []) then Err UserRequired
  else
    check_user_count (length user_cursors) ;;
    Ok (mk_ClientStreamQuery user_cursors (sp_limit shared) mode (sp_paths shared)).

Record AdminStreamQuery := mk_AdminStreamQuery {
  aq_users : list PublicKey;
  aq_cursor : option EventCursor;
  aq_limit : option Z;
  aq_mode : Mode;
  aq_paths : list StoragePath
}.

Fixpoint admin_query_loop (pairs : list (str * str)) (us : list PublicKey) (cursor : option EventCursor)
    (shared : SharedParams) : result EventStreamError (list PublicKey * option EventCursor * SharedParams) :=
  match pairs with
  | [] => Ok (us, cursor, shared)
  | (key, value) :: pairs =>
      if decide (key = lit "user" ∧ value ≠ []) then
        pubkey ← stream_parse_public_key value;
        admin_query_loop pairs (if decide (pubkey ∈ us) then us else us ++ [pubkey]) cursor shared
      else if decide (key = lit "cursor" ∧ value ≠ []) then
        cursor ← parse_cursor value;
        admin_query_loop pairs us (Some cursor) shared
      else
        shared ← SharedParams_parse key value shared;
        admin_query_loop pairs us cursor shared
  end.

Definition AdminStreamQuery_parse (query : str) : result EventStreamError AdminStreamQuery :=
  r ← admin_query_loop (form_parse query) [] None SharedParams_default;
  let '(us, cursor, shared) := r in
  mode ← SharedParams_mode shared;
  check_user_count (length us) ;;
  Ok (mk_AdminStreamQuery us cursor (sp_limit shared) mode (sp_paths shared)).

End Requests.

(** * Authorization *)

Section Scope.
Context `{PkarrKeys}.

Inductive EventStreamTenantScope :=
| PublicOnly
| PrivateSingleTenant (tenant : PublicKey)
| PrivateUnsupported.

Definition EventStreamTenantScope_from_query (paths : list StoragePath)
    (user_cursors : list (PublicKey * option EventCursor)) : EventStreamTenantScope :=
  if negb (existsb (λ path, starts_with (as_str path) PRIVATE_ROOT) paths) then PublicOnly
  else match user_cursors with
       | [(tenant, _)] => PrivateSingleTenant tenant
       | _ => PrivateUnsupported
       end.

Definition EventStreamTenantScope_tenant (scope : EventStreamTenantScope) : option PublicKey :=
  match scope with PrivateSingleTenant tenant => Some tenant | _ => None end.

Fixpoint authorized_loop (paths : list StoragePath) (scope : EventStreamTenantScope)
    (session : option AuthSession) : HttpResult (list PathFilter) :=
  match paths with
  | [] => Ok []
  | path :: paths =>
      has_read_permission session (EventStreamTenantScope_tenant scope) path ;;
      allowed ← authorized_loop paths scope session;
      Ok (mk_PathFilter path :: allowed)
  end.

Definition authorized_paths (paths : list StoragePath) (scope : EventStreamTenantScope)
    (session : option AuthSession) : HttpResult (list PathFilter) :=
  if decide (paths = []) then Ok [mk_PathFilter (mk_StoragePath PUBLIC_ROOT)]
  else authorized_loop paths scope session.

Definition resolve_user_ids `{JsonStrings} (user_cursors : list (PublicKey * option EventCursor))
    : DB EventStreamError (list (Z * option EventCursor)) :=
  ids ← db_map_err EventStreamError_from_sqlx (get_ids (map fst user_cursors));
  mret (zip ids (map snd user_cursors)).

(** The plain-text feed of [GET /events/]. *)
Definition format_events_feed (evs : list EventEntity) : str :=
  let lines := map (λ e, EventType_as_str (ve_event_type e) ++ lit " " ++ EventEntity_pubky_uri e) evs in
  let lines := match last evs with
               | Some e => lines ++ [lit "cursor: " ++ show_uint (ve_id e)]
               | None => lines
               end in
  join 10 lines.

Definition feed_route (cursor : option str) (limit : option Z) : DB HttpError str :=
  let cursor := default (lit "0") cursor in
  cursor ← lift_result (ok_or (EventCursor_from_str cursor)
                          (HttpError_bad_request (lit "Invalid cursor: " ++ cursor)));
  evs ← db_map_err HttpError_from_sqlx (EventsService_get_public_by_cursor (Some cursor) limit);
  mret (format_events_feed evs).

End Scope.

(** * Streams *)

Section Streams.
Context `{PkarrKeys}.

(** [HashMap<i32, Option<EventCursor>>]: one entry per key. *)
Fixpoint cursors_insert (id : Z) (cursor : option EventCursor) (cs : list (Z * option EventCursor))
    : list (Z * option EventCursor) :=
  match cs with
  | [] => [(id, cursor)]
  | (k, c) :: cs => if k =? id then (k, cursor) :: cs else (k, c) :: cursors_insert id cursor cs
  end.

Fixpoint cursors_get (id : Z) (cs : list (Z * option EventCursor)) : option (option EventCursor) :=
  match cs with
  | [] => None
  | (k, c) :: cs => if k =? id then Some c else cursors_get id cs
  end.

Definition cursors_collect (cs : list (Z * option EventCursor)) : list (Z * option EventCursor) :=
  foldl (λ m c, cursors_insert c.1 c.2 m) [] cs.

Inductive StreamCursor :=
| PerUser (cursors : list (Z * option EventCursor))
| Global (last_sent : option EventCursor) (user_ids : option (list Z)).

Definition StreamCursor_fetch (self : StreamCursor) (limit : option Z) (reverse : bool)
    (paths : list PathFilter) : DB SqlError (list EventEntity) :=
  match self with
  | PerUser cursors => EventsService_get_by_user_cursors cursors limit reverse paths
  | Global last_sent user_ids => EventsService_get_all_events last_sent limit reverse paths user_ids
  end.

Definition StreamCursor_advance (self : StreamCursor) (event : EventEntity) : StreamCursor :=
  match self with
  | PerUser cursors => PerUser (cursors_insert (ve_user_id event) (Some (EventEntity_cursor event)) cursors)
  | Global _ user_ids => Global (Some (EventEntity_cursor event)) user_ids
  end.

Definition StreamCursor_accepts_live (self : StreamCursor) (event : EventEntity) (paths : list PathFilter)
    : bool :=
  let last_sent :=
    match self with
    | PerUser cursors => cursors_get (ve_user_id event) cursors
    | Global last_sent user_ids =>
        if match user_ids with Some ids => negb (bool_decide (ve_user_id event ∈ ids)) | None => false end
        then None else Some last_sent
    end in
  match last_sent with
  | None => false
  | Some last_sent =>
      if match last_sent with Some c => EventEntity_cursor event <=? c | None => false end then false
      else
        let path := as_str (ep_path (ve_path event)) in
        match paths with [] => true | _ => existsb (λ f, PathFilter_matches f path) paths end
  end.

Record StreamOptions := mk_StreamOptions {
  so_paths : list PathFilter;
  so_mode : Mode;
  so_limit : option Z
}.

(** ** The receiving end of the broadcast channel *)

Record Receiver := mk_Receiver {
  rx_buffer : list EventEntity;
  (** Messages were lost and the receiver has not been told yet. *)
  rx_lagged : bool;
  rx_closed : bool
}.

Inductive Received := RxEvent (event : EventEntity) | RxLagged | RxClosed | RxEmpty.

(** [try_recv]; [recv] waits where it answers [RxEmpty]. *)
Definition rx_recv (rx : Receiver) : Received * Receiver :=
  if rx_lagged rx then (RxLagged, mk_Receiver (rx_buffer rx) false (rx_closed rx))
  else match rx_buffer rx with
       | e :: rest => (RxEvent e, mk_Receiver rest false (rx_closed rx))
       | [] => (if rx_closed rx then RxClosed else RxEmpty, rx)
       end.

(** [while rx.try_recv().is_ok() {}]: stops at the first answer that is no
    event, which for a receiver that lagged is the first one. *)
Definition rx_drain (rx : Receiver) : Receiver :=
  if rx_lagged rx then mk_Receiver (rx_buffer rx) false (rx_closed rx)
  else mk_Receiver [] false (rx_closed rx).

(** A message arrives; the oldest [dropped] messages are lost to it. *)
Definition rx_push (dropped : nat) (e : EventEntity) (rx : Receiver) : Receiver :=
  mk_Receiver (drop dropped (rx_buffer rx ++ [e])) (rx_lagged rx || negb (dropped =? 0)%nat) (rx_closed rx).

(** ** The state machine of [stream_events] *)

Inductive StreamEnd := GuardFailed | LimitReached | CaughtUp | DbFailed | FellBehind | ChannelClosed.

Inductive StreamPhase :=
| Replaying
| Querying
| Sending (batch : list EventEntity) (caught_up : bool)
| Tailing
| Ended (why : StreamEnd).

Record EventStream := mk_EventStream {
  es_phase : StreamPhase;
  es_cursor : StreamCursor;
  es_rx : Receiver;
  es_total_sent : Z;
  (** The events yielded so far. *)
  es_out : list EventEntity;
  (** A database error ended the replay of a live stream early. *)
  es_cut_short : bool
}.

Definition with_phase (ph : StreamPhase) (st : EventStream) : EventStream :=
  mk_EventStream ph (es_cursor st) (es_rx st) (es_total_sent st) (es_out st) (es_cut_short st).
Definition with_rx (rx : Receiver) (st : EventStream) : EventStream :=
  mk_EventStream (es_phase st) (es_cursor st) rx (es_total_sent st) (es_out st) (es_cut_short st).

(** What the stream's guard says when it is asked: [is_valid], and whether a
    credential check ([next_check]) has fired and with which answer. *)
Record GuardSays := mk_GuardSays { gs_is_valid : bool; gs_next_check : option bool }.

(** [cursor.advance(&event); yield event; total_sent += 1;] and the limit. *)
Definition stream_send (opts : StreamOptions) (event : EventEntity) (next : StreamPhase) (st : EventStream)
    : EventStream :=
  let total_sent := es_total_sent st + 1 in
  let done := match so_limit opts with Some max => max <=? total_sent | None => false end in
  mk_EventStream (if done then Ended LimitReached else next) (StreamCursor_advance (es_cursor st) event)
    (es_rx st) total_sent (es_out st ++ [event]) (es_cut_short st).

(** One transition of the stream, up to its next suspension point. *)
Definition stream_step (opts : StreamOptions) (guard : GuardSays) (st : EventStream) (w : World)
    : EventStream * World :=
  match es_phase st with
  | Replaying =>
      if negb (gs_is_valid guard) then (with_phase (Ended GuardFailed) st, w)
      else (with_phase Querying (with_rx (rx_drain (es_rx st)) st), w)
  | Querying =>
      let batch_limit := option_map (λ max, as_u16 (max - as_u16 (es_total_sent st))) (so_limit opts) in
      match StreamCursor_fetch (es_cursor st) batch_limit (Mode_reverse (so_mode opts)) (so_paths opts) w with
      | (Ok evs, w) => (with_phase (Sending evs (bool_decide (evs = []))) st, w)
      | (Err _, w) =>
          (mk_EventStream (if Mode_live (so_mode opts) then Tailing else Ended DbFailed)
             (es_cursor st) (es_rx st) (es_total_sent st) (es_out st) true, w)
      end
  | Sending [] caught_up =>
      (with_phase (if caught_up then if Mode_live (so_mode opts) then Tailing else Ended CaughtUp
                   else Replaying) st, w)
  | Sending (event :: rest) caught_up =>
      if negb (gs_is_valid guard) then (with_phase (Ended GuardFailed) st, w)
      else (stream_send opts event (Sending rest caught_up) st, w)
  | Tailing =>
      match gs_next_check guard with
      | Some false => (with_phase (Ended GuardFailed) st, w)
      | Some true => (st, w)
      | None =>
          match rx_recv (es_rx st) with
          | (RxEvent event, rx) =>
              let st := with_rx rx st in
              if negb (StreamCursor_accepts_live (es_cursor st) event (so_paths opts)) then (st, w)
              else (stream_send opts event Tailing st, w)
          | (RxLagged, rx) => (with_phase (Ended FellBehind) (with_rx rx st), w)
          | (RxClosed, rx) => (with_phase (Ended ChannelClosed) (with_rx rx st), w)
          | (RxEmpty, _) => (st, w)
          end
      end
  | Ended _ => (st, w)
  end.

(** The stream as it is created: subscribed, nothing sent. *)
Definition stream_events (cursor : StreamCursor) : EventStream :=
  mk_EventStream Replaying cursor (mk_Receiver [] false false) 0 [] false.

Record AllEventsFilter := mk_AllEventsFilter {
  af_start_cursor : option EventCursor;
  af_user_ids : option (list Z);
  af_paths : list PathFilter;
  af_mode : Mode;
  af_limit : option Z
}.

Definition all_events_stream (f : AllEventsFilter) : StreamOptions * EventStream :=
  (mk_StreamOptions (af_paths f) (af_mode f) (af_limit f),
   stream_events (Global (af_start_cursor f) (af_user_ids f))).

Record UserEventsFilter := mk_UserEventsFilter {
  uf_user_cursors : list (Z * option EventCursor);
  uf_allowed_paths : list PathFilter;
  uf_mode : Mode;
  uf_limit : option Z
}.

Definition user_events_stream (f : UserEventsFilter) : StreamOptions * EventStream :=
  (mk_StreamOptions (uf_allowed_paths f) (uf_mode f) (uf_limit f),
   stream_events (PerUser (cursors_collect (uf_user_cursors f)))).

(** The admin route's [resolve_filter]. *)
Definition resolve_filter `{JsonStrings} (query : AdminStreamQuery) : DB EventStreamError AllEventsFilter :=
  user_ids ← (if decide (aq_users query = []) then mret None
              else ids ← db_map_err EventStreamError_from_sqlx (get_ids (aq_users query)); mret (Some ids));
  mret (mk_AllEventsFilter (aq_cursor query) user_ids (map mk_PathFilter (aq_paths query)) (aq_mode query)
          (aq_limit query)).

End Streams.
