(* ===== verification/StreamProofs.v ===== *)
(** What an event stream delivers: together with the database other requests
    write to and the poller that feeds the broadcast channel, a stream is a
    transition system; in every state it reaches, what it has sent are the
    events it was asked for, in order and without a gap, and left alone it
    catches up. *)

From stdpp Require Import relations.
From S2P Require Import Prelude StoragePath Capabilities HttpError Keys Quota Database Users Authorization Entries.
From S2P Require Import Events EventStreams.

Section Fetch.
Context `{PkarrKeysLaws}.

(** The events a stream at cursor [c] still has to send. *)
Definition wanted (c : StreamCursor) (paths : list PathFilter) (v : EventRow) : bool :=
  match c with
  | PerUser cs =>
      match cursors_get (v_user v) cs with Some cur => after_cursor false cur v | None => false end
  | Global last_sent ids =>
      after_cursor false last_sent v &&
      match ids with Some ids => bool_decide (v_user v ∈ ids) | None => true end
  end && any_filter paths v.

(** The row a streamed event was read from. *)
Definition event_of (v : EventRow) (e : EventEntity) : Prop :=
  v_id v = ve_id e ∧ ve_user_id e = v_user v ∧ as_str (ep_path (ve_path e)) = v_path v.

(** The keys of a [HashMap] are distinct. *)
Definition cursor_wf (c : StreamCursor) : Prop :=
  match c with PerUser cs => NoDup (map fst cs) | Global _ _ => True end.

Lemma any_filter_matches paths v :
  any_filter paths v =
  match paths with [] => true | _ => existsb (λ f, PathFilter_matches f (v_path v)) paths end.
Proof.
  unfold any_filter. destruct paths as [|f paths]; [done|].
  cbn. rewrite PathFilter_condition_matches. f_equal.
  induction paths as [|g paths IH]; [done|]. cbn. by rewrite PathFilter_condition_matches, IH.
Qed.

Lemma accepts_live_wanted c e paths v :
  event_of v e → StreamCursor_accepts_live c e paths = wanted c paths v.
Proof.
  intros (Hid & Hu & Hp). unfold StreamCursor_accepts_live, wanted, EventEntity_cursor.
  rewrite any_filter_matches, Hu, Hp, <-Hid.
  destruct c as [cs|l ids].
  - destruct (cursors_get _ cs) as [[c|]|]; cbn; [|done..].
    rewrite Z.leb_antisym. by destruct (c <? v_id v).
  - destruct ids as [ids|]; [destruct (bool_decide _)|]; destruct l as [c|]; cbn;
      rewrite ?Z.leb_antisym, ?andb_false_r; try destruct (c <? v_id v); done.
Qed.

Lemma filter_split_perm {A} (P Q R : A → bool) (l : list A) :
  (∀ x, R x = P x || Q x) → (∀ x, P x = true → Q x = false) →
  filter (λ x, R x = true) l ≡ₚ filter (λ x, P x = true) l ++ filter (λ x, Q x = true) l.
Proof.
  intros HR Hd. induction l as [|x l IH]; [done|]. rewrite !filter_cons, HR.
  destruct (P x) eqn:EP; [rewrite (Hd x EP)|destruct (Q x)]; cbn [orb];
    repeat case_decide; try done; cbn [app]; rewrite IH; [done|]. apply Permutation_middle.
Qed.

Lemma cursors_get_None id cs : id ∉ map fst cs → cursors_get id cs = None.
Proof.
  induction cs as [|[k c] cs IH]; [done|]. cbn. intros [Hk Hn]%not_elem_of_cons.
  destruct (Z.eqb_spec k id); [by subst|auto].
Qed.

Lemma union_all_perm cs paths (rows : list (EventRow * UserRow)) :
  NoDup (map fst cs) →
  concat (map (λ uc, filter (λ vu, (v_user vu.1 =? uc.1) && any_filter paths vu.1
                                    && after_cursor false uc.2 vu.1 = true) rows) cs)
  ≡ₚ filter (λ vu, wanted (PerUser cs) paths vu.1 = true) rows.
Proof.
  induction cs as [|[k c] cs IH]; intros HN.
  { cbn. induction rows as [|r rows IH]; [done|]. by rewrite filter_cons. }
  apply NoDup_cons in HN as [Hk HN]. cbn [map concat]. rewrite (IH HN). symmetry.
  apply (filter_split_perm (λ vu : EventRow * UserRow,
    (v_user vu.1 =? k) && any_filter paths vu.1 && after_cursor false c vu.1)
    (λ vu, wanted (PerUser cs) paths vu.1)).
  - intros [v u]. unfold wanted. cbn [fst cursors_get]. rewrite (Z.eqb_sym k).
    destruct (Z.eqb_spec (v_user v) k) as [E|]; [|done].
    rewrite E, (cursors_get_None k cs Hk). cbn. by rewrite orb_false_r, andb_comm.
  - intros [v u]. cbn. intros [[E%Z.eqb_eq _]%andb_prop _]%andb_prop. unfold wanted.
    by rewrite E, (cursors_get_None k cs Hk).
Qed.

(** The events of [tb] that [evs] may start a stream at [c] with. *)
Definition next_batch (tb : Tables) (c : StreamCursor) (paths : list PathFilter) (evs : list EventEntity) : Prop :=
  StronglySorted Z.lt (map ve_id evs) ∧
  (∀ e, e ∈ evs → ∃ v, v ∈ events tb ∧ wanted c paths v = true ∧ event_of v e) ∧
  (∀ v, v ∈ events tb → wanted c paths v = true → v_id v ∈ map ve_id evs ∨ ∀ i, i ∈ map ve_id evs → i < v_id v).

Lemma page_next_batch tb c paths n evs :
  is_page n (map v_id (filter (λ v, wanted c paths v = true) (events tb))) (map ve_id evs) →
  (∀ e, e ∈ evs → ∃ v, v ∈ events tb ∧ wanted c paths v = true ∧ event_of v e) →
  next_batch tb c paths evs.
Proof.
  intros (_ & Hs & _ & Hgap & _) He. split_and!; [done..|]. intros v Hv Hw.
  assert (v_id v ∈ map v_id (filter (λ v, wanted c paths v = true) (events tb))) as Hin.
  { by apply list_elem_of_fmap_2, list_elem_of_filter. }
  destruct (last (map ve_id evs)) as [m|] eqn:Em.
  - destruct (decide (v_id v ≤ m)); [left; by eapply Hgap|right]. intros i Hi.
    pose proof (sorted_last_max _ _ _ Hs Em Hi). lia.
  - right. apply last_None in Em. rewrite Em. by intros i ?%elem_of_nil.
Qed.

Lemma fetch_inv c limit paths w r w' :
  users_wf (tables w) → events_wf (tables w) → cursor_wf c → 1 ≤ effective_list_limit limit →
  StreamCursor_fetch c limit false paths w = (r, w') →
  same_data w w' ∧
  (r = Err SqlIo ∨
   ∃ evs, r = Ok evs ∧ next_batch (tables w) c paths evs ∧
     (evs = [] → ∀ v, v ∈ events (tables w) → wanted c paths v = false)).
Proof.
  intros Hu Hv Hc Hl Hr.
  assert (∀ rows : list (EventRow * UserRow),
    rows ≡ₚ filter (λ vu, wanted c paths vu.1 = true) (events_with_users (tables w)) →
    ∃ evs, fetch_events limit false rows = Ok evs ∧ next_batch (tables w) c paths evs ∧
      (evs = [] → ∀ v, v ∈ events (tables w) → wanted c paths v = false)) as Hpage.
  { intros rows Hrows.
    destruct (fetch_page (tables w) (wanted c paths) limit rows) as (evs & Hf & Hp & He); [done..|lia|done|].
    exists evs. split_and!; [exact Hf|by eapply page_next_batch|]. intros -> v Hin.
    apply not_true_is_false. intros Hw. destruct Hp as (_ & _ & _ & _ & Hall). cbn in Hall.
    apply (elem_of_nil (v_id v)), Hall; [lia|]. by apply list_elem_of_fmap_2, list_elem_of_filter. }
  assert ((∀ v, wanted c paths v = false) → (@Ok SqlError _ (@nil EventEntity), w) = (r, w') →
    same_data w w' ∧ (r = Err SqlIo ∨ ∃ evs, r = Ok evs ∧ next_batch (tables w) c paths evs ∧
      (evs = [] → ∀ v, v ∈ events (tables w) → wanted c paths v = false))) as Hnone.
  { intros Hno [= <- <-]. split; [done|]. right. exists []. split_and!; [done| |auto].
    split_and!; [constructor|by intros e ?%elem_of_nil|]. intros v _. by rewrite Hno. }
  destruct c as [cs|l ids]; cbn [StreamCursor_fetch] in Hr.
  - unfold EventsService_get_by_user_cursors, EventRepository_get_by_user_cursors in Hr.
    destruct (decide (cs = [])) as [->|]; [by apply Hnone|].
    apply select_inv in Hr as [Hs Hr]. split; [done|]. destruct Hr as [->| ->]; [by left|right].
    destruct (Hpage _ (union_all_perm cs paths (events_with_users (tables w)) Hc)) as (evs & Hf & Hrest). eauto.
  - unfold EventsService_get_all_events, EventRepository_get_all_filtered_by_cursor in Hr.
    destruct (decide (ids = Some [])) as [->|].
    { apply Hnone; [|done]. intros v. unfold wanted. by rewrite andb_false_r. }
    apply select_inv in Hr as [Hs Hr]. split; [done|]. destruct Hr as [->| ->]; [by left|right].
    match goal with |- context [fetch_events _ _ ?rows] =>
      destruct (Hpage rows) as (evs & Hf & Hrest) end; [|eauto].
    apply reflexive_eq, list_filter_iff. intros [v u]. unfold wanted. cbn [fst].
    by rewrite <-!andb_assoc, (andb_comm (any_filter paths v)).
Qed.

End Fetch.

(** * What has been delivered *)

Section Delivered.
Context `{PkarrKeysLaws}.
Context (paths : list PathFilter).

Lemma cursors_get_insert id c cs k :
  cursors_get k (cursors_insert id c cs) = if id =? k then Some c else cursors_get k cs.
Proof.
  induction cs as [|[j d] cs IH]; cbn; [done|].
  destruct (Z.eqb_spec j id) as [->|Hj]; cbn; [by destruct (id =? k)|]. rewrite IH.
  destruct (Z.eqb_spec j k), (Z.eqb_spec id k); try done. lia.
Qed.

Lemma cursors_insert_in id c cs k : k ∈ map fst (cursors_insert id c cs) → k = id ∨ k ∈ map fst cs.
Proof.
  induction cs as [|[j d] cs IH]; cbn; [rewrite list_elem_of_singleton; auto|].
  destruct (j =? id); cbn; rewrite !elem_of_cons; [tauto|]. intros [?|?%IH]; tauto.
Qed.

Lemma cursors_insert_keys id c cs : NoDup (map fst cs) → NoDup (map fst (cursors_insert id c cs)).
Proof.
  induction cs as [|[j d] cs IH]; cbn; intros HN; [apply NoDup_singleton|].
  apply NoDup_cons in HN as [Hj HN]. destruct (Z.eqb_spec j id) as [->|Hne]; cbn; [by constructor|].
  constructor; [|by apply IH]. by intros [?|?]%cursors_insert_in.
Qed.

Lemma cursor_wf_advance c e : cursor_wf c → cursor_wf (StreamCursor_advance c e).
Proof. destruct c; cbn; [apply cursors_insert_keys|done]. Qed.

(** Whether the two rows share a cursor. *)
Definition same_lane (c : StreamCursor) (u v : EventRow) : Prop :=
  match c with PerUser _ => v_user u = v_user v | Global _ _ => True end.

Lemma advance_wanted c e v u :
  event_of v e → wanted c paths v = true →
  wanted (StreamCursor_advance c e) paths u = true ↔
  wanted c paths u = true ∧ (same_lane c u v → v_id v < v_id u).
Proof.
  intros (Hid & Hu & _) Hw. unfold wanted in *. rewrite !andb_true_iff in *.
  destruct c as [cs|l ids]; cbn [StreamCursor_advance same_lane] in *.
  - rewrite cursors_get_insert, Hu. destruct (Z.eqb_spec (v_user v) (v_user u)) as [E|]; [|naive_solver].
    rewrite E in Hw. unfold EventEntity_cursor. rewrite <-Hid.
    destruct (cursors_get _ cs) as [[c|]|]; cbn in *; rewrite ?Z.ltb_lt in *; intuition (try done; lia).
  - unfold EventEntity_cursor. rewrite <-Hid. rewrite !andb_true_iff in *.
    destruct l as [c|]; cbn in *; rewrite ?Z.ltb_lt in *; intuition lia.
Qed.

Lemma advance_later c e v u :
  event_of v e → wanted c paths v = true → v_id v < v_id u →
  wanted (StreamCursor_advance c e) paths u = wanted c paths u.
Proof. intros He Hw Hlt. apply eq_true_iff_eq. rewrite advance_wanted by done. tauto. Qed.

Lemma advance_mono c e v u :
  event_of v e → wanted c paths v = true → wanted (StreamCursor_advance c e) paths u = true →
  wanted c paths u = true ∧ u ≠ v.
Proof.
  intros He Hw [Hu Hlane]%(advance_wanted c e v u He Hw). split; [done|]. intros ->.
  assert (same_lane c v v) as ?%Hlane by by destruct c. lia.
Qed.

(** ** Delivery *)

(** The id of the last event sent; ids are positive. *)
Definition last_out (out : list EventEntity) : Z := default 0 (last (map ve_id out)).

(** A stream that started at [c0] has sent [out] and is at [c]. *)
Record delivered (tb : Tables) (c0 c : StreamCursor) (out : list EventEntity) : Prop := {
  d_sorted : StronglySorted Z.lt (map ve_id out);
  d_gap : ∀ v, v ∈ events tb → wanted c0 paths v = true → v_id v ≤ last_out out → v_id v ∈ map ve_id out;
  d_after : ∀ v, last_out out < v_id v → wanted c paths v = wanted c0 paths v;
  d_done : ∀ v, v ∈ events tb → v_id v ≤ last_out out → wanted c paths v = false
}.

Lemma last_out_snoc out e : last_out (out ++ [e]) = ve_id e.
Proof. unfold last_out. rewrite map_app. cbn [map]. by rewrite last_snoc. Qed.

Lemma last_out_elem out : last_out out = 0 ∨ last_out out ∈ map ve_id out.
Proof.
  unfold last_out. destruct (last _) as [m|] eqn:E; [right|by left]. by apply last_Some_elem_of.
Qed.

Lemma events_id_inj tb u v : events_wf tb → u ∈ events tb → v ∈ events tb → v_id u = v_id v → u = v.
Proof. intros [HN _]. by apply NoDup_map_inj. Qed.

(** Sending the least event that is still wanted. *)
Lemma delivered_send tb c0 c out v e :
  events_wf tb → delivered tb c0 c out → v ∈ events tb → wanted c paths v = true → event_of v e →
  (∀ u, u ∈ events tb → wanted c paths u = true → v_id v ≤ v_id u) →
  delivered tb c0 (StreamCursor_advance c e) (out ++ [e]).
Proof.
  intros Hwf [Hs Hg Ha Hd] Hv Hw He Hmin. pose proof (proj1 He) as Hid.
  assert (last_out out < v_id v) as Hlt.
  { apply Z.nle_gt. intros Hle. by rewrite (Hd v Hv Hle) in Hw. }
  split; rewrite ?last_out_snoc, ?map_app.
  - apply StronglySorted_app. split_and!; [|done|by repeat constructor].
    intros x y Hx ->%list_elem_of_singleton. unfold last_out in Hlt.
    destruct (last (map ve_id out)) as [m|] eqn:Em.
    + pose proof (sorted_last_max _ _ _ Hs Em Hx). cbn in Hlt. lia.
    + apply last_None in Em. rewrite Em in Hx. by apply elem_of_nil in Hx.
  - intros u Hu Hwu Hle. apply elem_of_app. destruct (decide (v_id u ≤ last_out out)) as [|Hn]; [left; auto|].
    right. apply list_elem_of_singleton. rewrite <-(Ha u) in Hwu by lia. apply Hmin in Hwu; [lia|done].
  - intros u Hu. rewrite (advance_later _ _ v) by (done || lia). apply Ha. lia.
  - intros u Hu Hle. apply not_true_is_false. intros [Hwu Hne]%(advance_mono _ _ v); [|done..].
    apply Hne, (events_id_inj tb); [done..|]. pose proof (Hmin u Hu Hwu). lia.
Qed.

End Delivered.

(** * The system *)

Section System.
Context `{PkarrKeysLaws}.
Context (opts : StreamOptions).

Abbreviation paths := (so_paths opts).

(** A stream, the database it reads, the poller that broadcasts, and the
    events the poller has read and not sent yet. *)
Record StreamSystem := mk_StreamSystem {
  sy_world : World;
  sy_position : Z;
  sy_in_flight : list EventEntity;
  sy_stream : EventStream
}.

(** Other requests commit events.  Inserts are serialised by an advisory lock
    held until commit, so events become visible in the order of their ids. *)
Definition commits (tb tb' : Tables) : Prop :=
  users_wf tb' ∧ events_wf tb' ∧
  ∃ new, events tb' = events tb ++ new ∧
         ∀ u v, u ∈ events tb → v ∈ new → v_id u < v_id v.

Inductive system_step : StreamSystem → StreamSystem → Prop :=
| step_commit w w' pos q st :
    commits (tables w) (tables w') →
    system_step (mk_StreamSystem w pos q st) (mk_StreamSystem w' pos q st)
| step_poll w evs w' pos q st :
    (** one iteration of the poller's loop *)
    EventRepository_get_by_cursor (Some pos) (Some BATCH_SIZE) VisAll w = (Ok evs, w') →
    system_step (mk_StreamSystem w pos q st)
      (mk_StreamSystem w' (last_broadcast_id (broadcast_batch (mk_Poller pos [] false) evs)) (q ++ evs) st)
| step_broadcast w pos e q st dropped :
    system_step (mk_StreamSystem w pos (e :: q) st)
      (mk_StreamSystem w pos q (with_rx (rx_push dropped e (es_rx st)) st))
| step_stream w pos q st guard st' w' :
    stream_step opts guard st w = (st', w') →
    system_step (mk_StreamSystem w pos q st) (mk_StreamSystem w' pos q st').

(** ** The invariant *)

(** The messages on their way to the stream, and the poller's position. *)
Record channel_ok (tb : Tables) (pos : Z) (q : list EventEntity) : Prop := {
  ch_sorted : StronglySorted Z.lt (map ve_id q);
  ch_rows : ∀ e, e ∈ q → ∃ v, v ∈ events tb ∧ event_of v e;
  ch_sent : ∀ e, e ∈ q → ve_id e ≤ pos;
  ch_position : pos = 0 ∨ pos ∈ map v_id (events tb)
}.

(** Nothing the stream wants and the poller has passed is lost unnoticed. *)
Definition covered (tb : Tables) (c : StreamCursor) (pos : Z) (q : list EventEntity) (lagged : bool) : Prop :=
  lagged = false →
  ∀ v, v ∈ events tb → wanted c paths v = true → v_id v ≤ pos → v_id v ∈ map ve_id q.

Definition phase_ok (tb : Tables) (c : StreamCursor) (pos : Z) (q : list EventEntity) (lagged : bool)
    (ph : StreamPhase) : Prop :=
  match ph with
  | Sending batch caught_up =>
      next_batch tb c paths batch ∧ (caught_up = true → batch = [] ∧ covered tb c pos q lagged)
  | Tailing => covered tb c pos q lagged
  | _ => True
  end.

Definition limit_ok (ph : StreamPhase) (total_sent : Z) : Prop :=
  match so_limit opts with
  | Some max => 1 ≤ max ≤ U16_MAX ∧ total_sent ≤ max ∧ (ph = Ended LimitReached ↔ total_sent = max)
  | None => ph ≠ Ended LimitReached
  end.

(** The events sent are wanted ones, also when a database error cut the replay
    short. *)
Definition out_ok (tb : Tables) (c0 c : StreamCursor) (out : list EventEntity) : Prop :=
  (∀ e, e ∈ out → ∃ v, v ∈ events tb ∧ wanted c0 paths v = true ∧ event_of v e) ∧
  (∀ v, wanted c paths v = true → wanted c0 paths v = true).

Record stream_inv (c0 : StreamCursor) (s : StreamSystem) : Prop := {
  si_users : users_wf (tables (sy_world s));
  si_events : events_wf (tables (sy_world s));
  si_cursor : cursor_wf (es_cursor (sy_stream s));
  si_channel : channel_ok (tables (sy_world s)) (sy_position s)
                 (rx_buffer (es_rx (sy_stream s)) ++ sy_in_flight s);
  si_out : out_ok (tables (sy_world s)) c0 (es_cursor (sy_stream s)) (es_out (sy_stream s));
  si_count : es_total_sent (sy_stream s) = Z.of_nat (length (es_out (sy_stream s)));
  si_limit : limit_ok (es_phase (sy_stream s)) (es_total_sent (sy_stream s));
  si_cut : es_cut_short (sy_stream s) = true →
    es_phase (sy_stream s) = Tailing ∨ ∃ why, es_phase (sy_stream s) = Ended why;
  si_whole : es_cut_short (sy_stream s) = false →
    delivered paths (tables (sy_world s)) c0 (es_cursor (sy_stream s)) (es_out (sy_stream s)) ∧
    phase_ok (tables (sy_world s)) (es_cursor (sy_stream s)) (sy_position s)
      (rx_buffer (es_rx (sy_stream s)) ++ sy_in_flight s) (rx_lagged (es_rx (sy_stream s)))
      (es_phase (sy_stream s))
}.

(** ** Commits *)

Lemma commits_cases tb tb' v :
  commits tb tb' → v ∈ events tb' →
  v ∈ events tb ∨ ∀ i, i = 0 ∨ i ∈ map v_id (events tb) → i < v_id v.
Proof.
  intros (_ & [_ Hwf] & new & Hev & Hlt) Hv. rewrite Forall_forall in Hwf. pose proof (proj1 (Hwf v Hv)).
  rewrite Hev in Hv. apply elem_of_app in Hv as [?|?]; [by left|right].
  intros i [->|(u & -> & Hu)%list_elem_of_fmap]; [lia|auto].
Qed.

Lemma commits_incl tb tb' v : commits tb tb' → v ∈ events tb → v ∈ events tb'.
Proof. intros (_ & _ & new & -> & _) Hv. apply elem_of_app. by left. Qed.

Lemma out_ids tb c0 c out i : out_ok tb c0 c out → i ∈ map ve_id out → i ∈ map v_id (events tb).
Proof.
  intros [Ho _] (e & -> & (v & Hv & _ & <- & _)%Ho)%list_elem_of_fmap. by apply list_elem_of_fmap_2.
Qed.

Lemma last_out_known tb c0 c out :
  out_ok tb c0 c out → last_out out = 0 ∨ last_out out ∈ map v_id (events tb).
Proof. intros Ho. destruct (last_out_elem out) as [?|?%(out_ids _ _ _ _ _ Ho)]; auto. Qed.

Lemma delivered_commit tb tb' c0 c out :
  commits tb tb' → out_ok tb c0 c out → delivered paths tb c0 c out → delivered paths tb' c0 c out.
Proof.
  intros Hc Ho [Hs Hg Ha Hd]. pose proof (last_out_known _ _ _ _ Ho) as Hk. split; [done| |done|].
  - intros v Hv Hw Hle. destruct (commits_cases _ _ _ Hc Hv) as [|Hnew]; [auto|]. apply Hnew in Hk. lia.
  - intros v Hv Hle. destruct (commits_cases _ _ _ Hc Hv) as [|Hnew]; [auto|]. apply Hnew in Hk. lia.
Qed.

Lemma next_batch_commit tb tb' c batch :
  commits tb tb' → next_batch tb c paths batch → next_batch tb' c paths batch.
Proof.
  intros Hc (Hs & He & Hg). split_and!; [done|..].
  - intros e (v & Hv & Hrest)%He. exists v. split; [by eapply commits_incl|done].
  - intros v Hv Hw. destruct (commits_cases _ _ _ Hc Hv) as [|Hnew]; [auto|]. right.
    intros i (e & -> & (u & Hu & _ & <- & _)%He)%list_elem_of_fmap. apply Hnew. right.
    by apply list_elem_of_fmap_2.
Qed.

Lemma channel_commit tb tb' pos q : commits tb tb' → channel_ok tb pos q → channel_ok tb' pos q.
Proof.
  intros Hc [Hs Hr Hp Hk]. split; [done| |done|].
  - intros e (v & Hv & He)%Hr. exists v. split; [by eapply commits_incl|done].
  - destruct Hk as [?|(v & -> & Hv)%list_elem_of_fmap]; [by left|right].
    apply list_elem_of_fmap_2. by eapply commits_incl.
Qed.

Lemma covered_commit tb tb' c pos q lagged :
  commits tb tb' → channel_ok tb pos q → covered tb c pos q lagged → covered tb' c pos q lagged.
Proof.
  intros Hc [_ _ _ Hk] Hcov Hl v Hv Hw Hle.
  destruct (commits_cases _ _ _ Hc Hv) as [|Hnew]; [by apply Hcov|]. apply Hnew in Hk. lia.
Qed.

Lemma inv_commit c0 w w' pos q st :
  commits (tables w) (tables w') →
  stream_inv c0 (mk_StreamSystem w pos q st) → stream_inv c0 (mk_StreamSystem w' pos q st).
Proof.
  intros Hc [Hu Hv Hcw Hch [Ho Hm] Hn Hl Hcut Hwh]. cbn in *. split; cbn; try done.
  - apply Hc.
  - apply Hc.
  - by eapply channel_commit.
  - split; [|done]. intros e (v & Hin & Hrest)%Ho. exists v. split; [by eapply commits_incl|done].
  - intros [Hd Hp]%Hwh. split; [by eapply delivered_commit|].
    destruct (es_phase st) as [| |batch b| |why]; cbn in *; try done.
    + destruct Hp as [Hb Hcov]. split; [by eapply next_batch_commit|].
      intros [? ?]%Hcov. split; [done|by eapply covered_commit].
    + by eapply covered_commit.
Qed.

(** ** The poller *)

(** Growing or moving the messages on their way. *)
Lemma inv_channel c0 w w' pos pos' q q' st rx :
  tables w' = tables w → channel_ok (tables w) pos' (rx_buffer rx ++ q') →
  (∀ c, covered (tables w) c pos (rx_buffer (es_rx st) ++ q) (rx_lagged (es_rx st)) →
        covered (tables w) c pos' (rx_buffer rx ++ q') (rx_lagged rx)) →
  stream_inv c0 (mk_StreamSystem w pos q st) →
  stream_inv c0 (mk_StreamSystem w' pos' q' (with_rx rx st)).
Proof.
  intros Ht Hch' Hcov [Hu Hv Hcw Hch Ho Hn Hl Hcut Hwh]. cbn in *.
  split; cbn; rewrite ?Ht; try done. intros [Hd Hp]%Hwh. split; [done|].
  destruct (es_phase st) as [| |batch b| |why]; cbn in *; try done; [|by apply Hcov].
  destruct Hp as [Hb Hb']. split; [done|]. intros [? ?]%Hb'. auto.
Qed.

Lemma inv_poll c0 w evs w' pos q st :
  EventRepository_get_by_cursor (Some pos) (Some BATCH_SIZE) VisAll w = (Ok evs, w') →
  stream_inv c0 (mk_StreamSystem w pos q st) →
  stream_inv c0 (mk_StreamSystem w'
    (last_broadcast_id (broadcast_batch (mk_Poller pos [] false) evs)) (q ++ evs) st).
Proof.
  intros Hr Hi. pose proof (si_users _ _ Hi) as Hu. pose proof (si_events _ _ Hi) as Hv. cbn in Hu, Hv.
  apply get_by_cursor_inv in Hr as [Hs [?|(evs' & [= <-] & Hp & He)]]; [done| |done|done|by vm_compute].
  destruct (decide (evs = [])) as [->|Hne].
  { cbn. rewrite app_nil_r. eapply (inv_channel _ _ _ _ _ _ _ st (es_rx st)) in Hi; [|apply Hs|apply Hi|auto].
    by destruct st. }
  destruct (batch_extends (tables w) (mk_Poller pos [] false) evs) as (Hle & new & Hnew & Hsn & Hin); [done..|].
  rewrite broadcast_batch_spec in Hnew. cbn in Hnew. subst new. cbn in Hle, Hin.
  set (pos' := last_broadcast_id _) in *. destruct (si_channel _ _ Hi) as [Hcs Hcr Hcp Hck]. cbn in *.
  cut (stream_inv c0 (mk_StreamSystem w' pos' (q ++ evs) (with_rx (es_rx st) st))); [by destruct st|].
  refine (inv_channel _ _ _ _ _ _ _ _ _ (proj1 Hs) _ _ Hi).
  - rewrite app_assoc. split.
    + rewrite map_app. apply StronglySorted_app. split_and!; [|done|done].
      intros x y (e & -> & Hx%Hcp)%list_elem_of_fmap Hy%Hin. lia.
    + intros e [?|(v & Hvf & Hrest)%He]%elem_of_app; [auto|]. exists v. split; [|done].
      by apply list_elem_of_filter in Hvf as [_ ?].
    + intros e [?%Hcp|Hx]%elem_of_app; [lia|]. apply (list_elem_of_fmap_2 ve_id), Hin in Hx. lia.
    + right. assert (pos' ∈ map ve_id evs) as [? _]%Hin; [|done].
      unfold pos'. rewrite broadcast_batch_spec. cbn. destruct (last _) as [m|] eqn:Em.
      * by apply last_Some_elem_of in Em.
      * apply last_None in Em. by destruct evs.
  - intros c Hc Hl v Hvi Hw Hlev. rewrite app_assoc, map_app, elem_of_app.
    destruct (decide (v_id v ≤ pos)); [left; by apply Hc|right]. apply Hin.
    split; [by apply list_elem_of_fmap_2|lia].
Qed.

Lemma channel_suffix tb pos l q : channel_ok tb pos (l ++ q) → channel_ok tb pos q.
Proof.
  intros [Hs Hr Hp Hk]. split; [| | |done].
  - rewrite map_app in Hs. by apply StronglySorted_app_1_r in Hs.
  - intros e He. apply Hr, elem_of_app. by right.
  - intros e He. apply Hp, elem_of_app. by right.
Qed.

Lemma inv_broadcast c0 w pos e q st dropped :
  stream_inv c0 (mk_StreamSystem w pos (e :: q) st) →
  stream_inv c0 (mk_StreamSystem w pos q (with_rx (rx_push dropped e (es_rx st)) st)).
Proof.
  intros Hi. refine (inv_channel _ _ _ _ _ _ _ _ _ eq_refl _ _ Hi); cbn.
  - apply (channel_suffix _ _ (take dropped (rx_buffer (es_rx st) ++ [e]))).
    rewrite app_assoc, take_drop, <-app_assoc. apply Hi.
  - intros c Hc. destruct dropped as [|n].
    + rewrite drop_0, orb_false_r, <-app_assoc. exact Hc.
    + intros Hl. by rewrite orb_true_r in Hl.
Qed.

(** ** The stream *)

(** A change of phase and receiver. *)
Lemma inv_with c0 w w' pos q st ph rx :
  tables w' = tables w → stream_inv c0 (mk_StreamSystem w pos q st) →
  channel_ok (tables w) pos (rx_buffer rx ++ q) →
  limit_ok ph (es_total_sent st) →
  (es_cut_short st = true → ph = Tailing ∨ ∃ why, ph = Ended why) →
  (es_cut_short st = false →
     phase_ok (tables w) (es_cursor st) pos (rx_buffer rx ++ q) (rx_lagged rx) ph) →
  stream_inv c0 (mk_StreamSystem w' pos q (with_phase ph (with_rx rx st))).
Proof.
  intros Ht [Hu Hv Hcw Hch Ho Hn Hl Hcut Hwh] Hch' Hl' Hcut' Hp. cbn in *.
  split; cbn; rewrite ?Ht; try done. intros Hf. split; [by apply Hwh|auto].
Qed.

Lemma limit_running ph ph' n :
  ph ≠ Ended LimitReached → ph' ≠ Ended LimitReached → limit_ok ph n → limit_ok ph' n.
Proof. unfold limit_ok. destruct (so_limit opts); [|done]. intuition. Qed.

Lemma inv_end c0 w pos q st why :
  stream_inv c0 (mk_StreamSystem w pos q st) → es_phase st ≠ Ended LimitReached → why ≠ LimitReached →
  stream_inv c0 (mk_StreamSystem w pos q (with_phase (Ended why) st)).
Proof.
  intros Hi Hne Hwhy. apply (inv_with c0 w w pos q st (Ended why) (es_rx st)); [done..|apply Hi| | |done].
  - eapply limit_running; [exact Hne|congruence|apply Hi].
  - eauto.
Qed.

(** Sending an event: the least wanted one, unless the replay was cut short. *)
Lemma inv_send c0 w pos q st rx e v next :
  stream_inv c0 (mk_StreamSystem w pos q st) → es_phase st ≠ Ended LimitReached →
  channel_ok (tables w) pos (rx_buffer rx ++ q) →
  v ∈ events (tables w) → wanted (es_cursor st) paths v = true → event_of v e →
  (es_cut_short st = true → next = Tailing) → next ≠ Ended LimitReached →
  (es_cut_short st = false →
     (∀ u, u ∈ events (tables w) → wanted (es_cursor st) paths u = true → v_id v ≤ v_id u) ∧
     phase_ok (tables w) (StreamCursor_advance (es_cursor st) e) pos (rx_buffer rx ++ q) (rx_lagged rx) next) →
  stream_inv c0 (mk_StreamSystem w pos q (stream_send opts e next (with_rx rx st))).
Proof.
  intros [Hu Hv Hcw Hch [Ho Hm] Hn Hl Hcut Hwh] Hne Hch' Hin Hw He Hnext Hnl Hwhole. cbn in *.
  assert (es_total_sent st + 1 = Z.of_nat (length (es_out st ++ [e]))) as Hn'.
  { rewrite length_app. cbn. lia. }
  split; cbn; try done.
  - by apply cursor_wf_advance.
  - split.
    + intros e' [?| ->%list_elem_of_singleton]%elem_of_app; [auto|]. eauto 10.
    + intros u [Hwu _]%(advance_mono _ _ _ v); auto.
  - unfold limit_ok in *. destruct (so_limit opts) as [max|]; [|done].
    destruct Hl as (? & ? & Hlt). assert (es_total_sent st ≠ max) by (by intros ?%Hlt).
    split_and!; [lia..|]. destruct (Z.leb_spec max (es_total_sent st + 1)); [|naive_solver lia].
    split; [lia|done].
  - intros Hf. destruct (match so_limit opts with Some max => _ | None => _ end); [eauto|auto].
  - intros Hf. destruct (Hwhole Hf) as [Hmin Hp]. split.
    + by eapply delivered_send; [|apply Hwh|..].
    + by destruct (match so_limit opts with Some max => _ | None => _ end).
Qed.

Lemma covered_mono tb c c' pos q lagged :
  (∀ v, v ∈ events tb → wanted c' paths v = true → wanted c paths v = true) →
  covered tb c pos q lagged → covered tb c' pos q lagged.
Proof. intros Hw Hc Hl v Hv Hv' Hle. by apply Hc; [..|auto|]. Qed.

Context (Hforward : Mode_reverse (so_mode opts) = false).

(** The rest of a batch after its first event was sent. *)
Lemma next_batch_tail tb c e rest v :
  events_wf tb → next_batch tb c paths (e :: rest) → v ∈ events tb → wanted c paths v = true → event_of v e →
  (∀ u, u ∈ events tb → wanted c paths u = true → v_id v ≤ v_id u) ∧
  next_batch tb (StreamCursor_advance c e) paths rest.
Proof.
  intros Hwf (Hs & He & Hg) Hv Hw Hve. cbn [map] in Hs, Hg.
  apply StronglySorted_inv in Hs as [Hs Hall]. rewrite Forall_forall in Hall.
  pose proof (proj1 Hve) as Hid. split.
  - intros u Hu Hwu. destruct (Hg u Hu Hwu) as [Hin|Hlt].
    + apply elem_of_cons in Hin as [->|Hin]; [lia|]. apply Hall in Hin. lia.
    + pose proof (Hlt (ve_id e) ltac:(by left)). lia.
  - split_and!; [done|..].
    + intros e' He'. destruct (He e') as (u & Hu & Hwu & Hue); [by right|]. exists u. split_and!; [done| |done].
      rewrite (advance_later _ _ _ v); [done..|]. apply (list_elem_of_fmap_2 ve_id), Hall in He'.
      destruct Hue as [-> _]. lia.
    + intros u Hu [Hwu Hne]%(advance_mono _ _ _ v); [|done..]. destruct (Hg u Hu Hwu) as [Hin|Hlt].
      * apply elem_of_cons in Hin as [Hin|Hin]; [|by left]. exfalso. apply Hne, (events_id_inj tb); [done..|lia].
      * right. intros i Hi. apply Hlt. by right.
Qed.

Lemma batch_limit_pos st ph :
  limit_ok ph (es_total_sent st) → ph ≠ Ended LimitReached → 0 ≤ es_total_sent st →
  1 ≤ effective_list_limit
        (option_map (λ max, as_u16 (max - as_u16 (es_total_sent st))) (so_limit opts)).
Proof.
  unfold limit_ok. destruct (so_limit opts) as [max|]; [|by vm_compute].
  intros (Hm & Hle & Hlt) Hne Hpos. assert (es_total_sent st ≠ max) by (by intros ?%Hlt). unfold U16_MAX in Hm. unfold as_u16.
  cbn. rewrite (Z.mod_small (es_total_sent st)), Z.mod_small by lia.
  unfold effective_list_limit, DEFAULT_MAX_LIST_LIMIT. cbn. lia.
Qed.

Lemma inv_query c0 w w' pos q st r :
  stream_inv c0 (mk_StreamSystem w pos q st) → es_phase st = Querying →
  StreamCursor_fetch (es_cursor st)
    (option_map (λ max, as_u16 (max - as_u16 (es_total_sent st))) (so_limit opts)) false paths w = (r, w') →
  stream_inv c0 (mk_StreamSystem w' pos q
    match r with
    | Ok evs => with_phase (Sending evs (bool_decide (evs = []))) st
    | Err _ => mk_EventStream (if Mode_live (so_mode opts) then Tailing else Ended DbFailed)
                 (es_cursor st) (es_rx st) (es_total_sent st) (es_out st) true
    end).
Proof.
  intros Hi Hph Hf. pose proof Hi as [Hu Hv Hcw Hch Ho Hn Hl Hcut Hwh]. cbn in *. rewrite Hph in *.
  apply fetch_inv in Hf as [[Ht _] Hr]; [|done..|eapply batch_limit_pos; [exact Hl|done|lia]].
  destruct Hr as [->|(evs & -> & Hb & Hempty)].
  - split; cbn; rewrite ?Ht; try done.
    + eapply limit_running; [| |exact Hl]; [done|]. by destruct (Mode_live _).
    + intros _. destruct (Mode_live _); eauto.
  - apply (inv_with c0 w w' pos q st _ (es_rx st)); [done..| | |].
    + by eapply limit_running; [| |exact Hl].
    + intros [?|[? ?]]%Hcut; done.
    + intros _. split; [done|]. intros Hb'%bool_decide_eq_true. split; [done|].
      intros _ v Hin Hw. by rewrite (Hempty Hb' v Hin) in Hw.
Qed.

(** A received event. *)
Lemma inv_receive c0 w pos q st e rest :
  stream_inv c0 (mk_StreamSystem w pos q st) → es_phase st = Tailing →
  rx_buffer (es_rx st) = e :: rest → rx_lagged (es_rx st) = false →
  let rx := mk_Receiver rest false (rx_closed (es_rx st)) in
  stream_inv c0 (mk_StreamSystem w pos q
    (if negb (StreamCursor_accepts_live (es_cursor st) e paths) then with_rx rx st
     else stream_send opts e Tailing (with_rx rx st))).
Proof.
  intros Hi Hph Hb Hlag rx. pose proof Hi as [Hu Hv Hcw Hch Ho Hn Hl Hcut Hwh]. cbn in *.
  rewrite Hb, Hlag, Hph in *. cbn [app] in Hch, Hwh.
  destruct (ch_rows _ _ _ Hch e) as (v & Hin & He); [by left|].
  pose proof (channel_suffix _ _ [e] _ Hch) as Hch'. rewrite (accepts_live_wanted _ _ _ v He).
  assert (∀ c, (wanted c paths v = false) → covered (tables w) c pos (e :: rest ++ q) false →
    covered (tables w) c pos (rest ++ q) false) as Hrest.
  { intros c Hno Hc Hf u Hui Hwu Hle. pose proof (Hc Hf u Hui Hwu Hle) as [Heq|Hr]%elem_of_cons; [|done].
    rewrite (events_id_inj (tables w) u v) in Hwu; [by rewrite Hno in Hwu|done..|].
    destruct He as [-> _]. done. }
  destruct (wanted (es_cursor st) paths v) eqn:Hw; cbn [negb].
  - apply (inv_send c0 w pos q st rx e v); try done; [by rewrite Hph|]. intros [_ Hcov]%Hwh. split.
    + intros u Hui Hwu. destruct (decide (v_id u ≤ pos)) as [Hle|Hgt].
      * pose proof (Hcov eq_refl u Hui Hwu Hle) as [Heq|Hr]%elem_of_cons; [destruct He; lia|].
        pose proof (ch_sorted _ _ _ Hch) as [_ Hall]%StronglySorted_inv. rewrite Forall_forall in Hall.
        apply Hall in Hr. destruct He. lia.
      * pose proof (ch_sent _ _ _ Hch e ltac:(by left)). destruct He. lia.
    + apply Hrest.
      * apply not_true_is_false. by intros [_ ?]%(advance_mono _ _ _ v).
      * eapply covered_mono; [|exact Hcov]. intros u _ [? _]%(advance_mono _ _ _ v); done.
  - cut (stream_inv c0 (mk_StreamSystem w pos q (with_phase Tailing (with_rx rx st)))).
    { destruct st; cbn in *. by subst. }
    apply (inv_with c0 w w pos q st Tailing rx); [done|done|done|done|by left|].
    intros [_ Hcov]%Hwh. by apply Hrest.
Qed.

Lemma inv_stream c0 w pos q st guard st' w' :
  stream_step opts guard st w = (st', w') →
  stream_inv c0 (mk_StreamSystem w pos q st) → stream_inv c0 (mk_StreamSystem w' pos q st').
Proof.
  intros Hst Hi. pose proof Hi as [_ Hv _ Hch _ _ Hl Hcut Hwh]. cbn in *. unfold stream_step in Hst.
  assert (∀ why, es_phase st ≠ Ended LimitReached → why ≠ LimitReached → (with_phase (Ended why) st, w) = (st', w') →
    stream_inv c0 (mk_StreamSystem w' pos q st')) as Hend.
  { intros why Hne Hwhy [= <- <-]. by apply inv_end. }
  destruct (es_phase st) as [| |[|e rest] b| |why] eqn:Hph.
  - destruct (gs_is_valid guard); cbn [negb] in Hst; [|by eapply Hend; [| |exact Hst]].
    injection Hst as <- <-. apply (inv_with c0 w w pos q st Querying); [done..| | |by intros [?|[? ?]]%Hcut|done].
    + unfold rx_drain. destruct (rx_lagged _); [done|]. cbn. by apply channel_suffix in Hch.
    + by eapply limit_running; [| |exact Hl].
  - destruct (StreamCursor_fetch _ _ _ _ _) as [r w1] eqn:Hf. rewrite Hforward in Hf.
    pose proof (inv_query c0 w w1 pos q st r Hi Hph Hf) as Hq. destruct r; injection Hst as <- <-; done.
  - injection Hst as <- <-. apply (inv_with c0 w w pos q st _ (es_rx st)); try done.
    + eapply limit_running; [| |exact Hl]; [done|]. by destruct b; [destruct (Mode_live _)|].
    + by intros [?|[? ?]]%Hcut.
    + intros [_ [_ Hc]]%Hwh. destruct b; [|done]. destruct (Mode_live _); [by apply Hc|done].
  - destruct (gs_is_valid guard); cbn [negb] in Hst; [|by eapply Hend; [| |exact Hst]].
    injection Hst as <- <-. destruct (es_cut_short st) eqn:Hf; [by destruct Hcut as [?|[? ?]]|].
    destruct (Hwh eq_refl) as [_ [Hb Hc]]. pose proof Hb as (_ & He & _).
    destruct (He e) as (v & Hin & Hw & Hve); [by left|].
    apply (inv_send c0 w pos q st (es_rx st) e v); rewrite ?Hph, ?Hf; try done. intros _.
    destruct (next_batch_tail _ _ _ _ v Hv Hb Hin Hw Hve) as [Hmin Hb'].
    split; [done|]. split; [done|]. by intros [? _]%Hc.
  - destruct (gs_next_check guard) as [[|]|]; [by injection Hst as <- <-|by eapply Hend; [| |exact Hst]|].
    unfold rx_recv in Hst. destruct (rx_lagged (es_rx st)) eqn:Hlag.
    { injection Hst as <- <-. apply (inv_with c0 w w pos q st (Ended FellBehind)); try done.
      - by eapply limit_running; [| |exact Hl]. - eauto. }
    destruct (rx_buffer (es_rx st)) as [|e rest] eqn:Hb.
    + destruct (rx_closed _); injection Hst as <- <-; [|done].
      apply (inv_with c0 w w pos q st (Ended ChannelClosed)); try done; [by rewrite Hb| |eauto].
      by eapply limit_running; [| |exact Hl].
    + pose proof (inv_receive c0 w pos q st e rest Hi Hph Hb Hlag) as Hr. cbv zeta in Hr. cbn in Hst, Hr.
      destruct (StreamCursor_accepts_live _ _ _); injection Hst as <- <-; exact Hr.
  - by injection Hst as <- <-.
Qed.

Lemma inv_step c0 s s' : system_step s s' → stream_inv c0 s → stream_inv c0 s'.
Proof.
  destruct 1; [by apply inv_commit|by apply inv_poll|by apply inv_broadcast|by eapply inv_stream].
Qed.

(** A stream that has just been created. *)
Definition starts (c0 : StreamCursor) (s : StreamSystem) : Prop :=
  users_wf (tables (sy_world s)) ∧ events_wf (tables (sy_world s)) ∧
  channel_ok (tables (sy_world s)) (sy_position s) (sy_in_flight s) ∧
  cursor_wf c0 ∧ sy_stream s = stream_events c0 ∧
  match so_limit opts with Some max => 1 ≤ max ≤ U16_MAX | None => True end.

Lemma starts_inv c0 s : starts c0 s → stream_inv c0 s.
Proof.
  intros (Hu & Hv & Hch & Hc & Hst & Hl). destruct s as [w pos q st]. cbn in *. subst st.
  split; cbn; try done.
  - split; [by intros e ?%elem_of_nil|done].
  - unfold limit_ok. destruct (so_limit opts); [|done]. split_and!; [lia..|]. split; [done|lia].
  - intros _. split; [|done]. split; [constructor| |done|]; intros v Hin; unfold last_out; cbn.
    + intros _ Hle. destruct Hv as [_ Hf]. rewrite Forall_forall in Hf. specialize (Hf v Hin). lia.
    + intros Hle. destruct Hv as [_ Hf]. rewrite Forall_forall in Hf. specialize (Hf v Hin). lia.
Qed.

(** (C10) A forward event stream skips, repeats and reorders nothing, whatever
    events commit (in the order of their ids), and whatever broadcasts, losses
    of the channel, credential checks and database errors happen while it runs:
    everything it has sent was asked for (a selected user, after that user's
    cursor, under a requested path) and never more than the limit; unless a
    database error cut its replay short, what it has sent is in id order and
    leaves out no requested event older than the last one sent; and once it
    follows the channel, every requested event the poller has passed is sent or
    waiting in its queue, or the receiver knows that it lost messages.  Streams
    that read the events backwards are never live and not meant here. *)
Theorem stream_gap_free c0 s s' :
  starts c0 s → rtc system_step s s' →
  let st := sy_stream s' in
  let tb := tables (sy_world s') in
  (∀ e, e ∈ es_out st → ∃ v, v ∈ events tb ∧ wanted c0 paths v = true ∧ event_of v e) ∧
  (∀ max, so_limit opts = Some max → Z.of_nat (length (es_out st)) ≤ max) ∧
  (es_cut_short st = false →
     StronglySorted Z.lt (map ve_id (es_out st)) ∧
     (∀ v, v ∈ events tb → wanted c0 paths v = true → v_id v ≤ last_out (es_out st) →
           v_id v ∈ map ve_id (es_out st)) ∧
     (es_phase st = Tailing → rx_lagged (es_rx st) = false →
      ∀ v, v ∈ events tb → wanted c0 paths v = true → v_id v ≤ sy_position s' →
           v_id v ∈ map ve_id (es_out st) ∨
           v_id v ∈ map ve_id (rx_buffer (es_rx st) ++ sy_in_flight s'))).
Proof.
  intros Hs Hsteps. assert (stream_inv c0 s') as [_ _ _ _ [Ho _] Hn Hl _ Hw].
  { apply starts_inv in Hs. induction Hsteps; [done|]. eauto using inv_step. }
  cbv zeta. split_and!; [done| |].
  - intros max Hmax. unfold limit_ok in Hl. rewrite Hmax, Hn in Hl. lia.
  - intros [[Hsort Hg Ha _] Hp]%Hw. split_and!; [done..|]. intros Hph Hlag v Hin Hwv Hle.
    rewrite Hph in Hp. destruct (decide (v_id v ≤ last_out (es_out (sy_stream s')))); [left; auto|right].
    apply Hp; [done..| |done]. by rewrite Ha by lia.
Qed.

(** ** Progress *)

(** A stream left to itself, its credential valid. *)
Definition undisturbed : GuardSays := mk_GuardSays true None.
Fixpoint run_stream (n : nat) (st : EventStream) (w : World) : EventStream * World :=
  match n with
  | O => (st, w)
  | S n => let '(st, w) := stream_step opts undisturbed st w in run_stream n st w
  end.

Definition replaying (st : EventStream) : bool :=
  match es_phase st with Tailing | Ended _ => false | _ => true end.

Definition still_wanted (tb : Tables) (st : EventStream) : nat :=
  length (filter (λ v, wanted (es_cursor st) paths v = true) (events tb)).

Definition stream_rank (ph : StreamPhase) : nat :=
  match ph with
  | Sending [] false => 4
  | Replaying => 3
  | Querying => 2
  | Sending _ _ => 1
  | Tailing | Ended _ => 0
  end.
Definition stream_measure (tb : Tables) (st : EventStream) : nat :=
  5 * still_wanted tb st + stream_rank (es_phase st).

Lemma filter_length_lt {A} (P Q : A → bool) (l : list A) x :
  (∀ y, P y = true → Q y = true) → x ∈ l → Q x = true → P x = false →
  (length (filter (λ y, P y = true) l) < length (filter (λ y, Q y = true) l))%nat.
Proof.
  intros HPQ Hx HQ HP. assert (∀ k, length (filter (λ y, P y = true) k) ≤ length (filter (λ y, Q y = true) k))%nat
    as Hle.
  { induction k as [|y k IH]; [done|]. rewrite !filter_cons. specialize (HPQ y).
    destruct (P y), (Q y); repeat case_decide; cbn; try lia; naive_solver. }
  induction l as [|y l IH]; [by apply elem_of_nil in Hx|]. rewrite !filter_cons.
  apply elem_of_cons in Hx as [->|Hx].
  - rewrite HP, HQ. repeat case_decide; try done. cbn. specialize (Hle l). lia.
  - specialize (IH Hx). specialize (HPQ y). destruct (P y), (Q y); repeat case_decide; cbn; try lia; naive_solver.
Qed.

(** A replay that has ended has ended for a reason. *)
Definition settled (tb : Tables) (st : EventStream) : Prop :=
  es_cut_short st = false →
  match es_phase st with
  | Sending _ true => ∀ v, v ∈ events tb → wanted (es_cursor st) paths v = false
  | Tailing => Mode_live (so_mode opts) = true ∧ ∀ v, v ∈ events tb → wanted (es_cursor st) paths v = false
  | Ended CaughtUp =>
      Mode_live (so_mode opts) = false ∧ ∀ v, v ∈ events tb → wanted (es_cursor st) paths v = false
  | Ended why => why = LimitReached
  | _ => True
  end.

Lemma send_measure tb c0 c out e rest v ph st :
  events_wf tb → delivered paths tb c0 c out → next_batch tb c paths (e :: rest) →
  v ∈ events tb → wanted c paths v = true → event_of v e → es_cursor st = c →
  (stream_measure tb (stream_send opts e ph st) < 5 * still_wanted tb st + 1)%nat.
Proof.
  intros Hwf Hd Hb Hin Hw Hve <-. unfold stream_measure, still_wanted.
  assert (length (filter (λ v, wanted (es_cursor (stream_send opts e ph st)) paths v = true) (events tb)) <
          length (filter (λ v, wanted (es_cursor st) paths v = true) (events tb)))%nat.
  { apply (filter_length_lt _ _ _ v); try done.
    - intros u [? _]%(advance_mono _ _ _ v); done.
    - apply not_true_is_false. by intros [_ ?]%(advance_mono _ _ _ v). }
  assert (stream_rank (es_phase (stream_send opts e ph st)) ≤ 4)%nat; [|lia].
  destruct (es_phase _) as [| |[|? ?] []| |]; cbn; lia.
Qed.

Lemma stream_progress c0 w pos q st st' w' :
  stream_inv c0 (mk_StreamSystem w pos q st) → settled (tables w) st → replaying st = true →
  stream_step opts undisturbed st w = (st', w') →
  tables w' = tables w ∧ settled (tables w) st' ∧
  (stream_measure (tables w) st' < stream_measure (tables w) st)%nat.
Proof.
  intros Hi Hset Hrun Hst. pose proof Hi as [Hu Hv Hcw _ _ Hn Hl Hcut Hwh]. cbn in *.
  assert (es_cut_short st = false) as Hf.
  { apply not_true_is_false. unfold replaying in Hrun.
    intros [Hph|[why Hph]]%Hcut; by rewrite Hph in Hrun. }
  destruct (Hwh Hf) as [Hd Hp]. specialize (Hset Hf). unfold stream_step in Hst. unfold replaying in Hrun.
  unfold stream_measure in *. destruct (es_phase st) as [| |[|e rest] b| |why] eqn:Hph; try done.
  - injection Hst as <- <-. split_and!; [done..|]. unfold still_wanted. cbn. lia.
  - destruct (StreamCursor_fetch _ _ _ _ _) as [r w1] eqn:Hq. rewrite Hforward in Hq.
    apply fetch_inv in Hq as [[Ht _] Hr]; [|done..|eapply batch_limit_pos; [exact Hl|done|lia]].
    destruct Hr as [->|(evs & -> & Hb & Hempty)]; injection Hst as <- <-; (split; [done|]).
    + split; [done|]. unfold still_wanted. cbn. destruct (Mode_live _); cbn; lia.
    + split.
      * intros _. cbn. destruct (bool_decide_reflect (evs = [])); auto.
      * unfold still_wanted. cbn. destruct evs; cbn; lia.
  - injection Hst as <- <-. split_and!; [done| |].
    + intros _. cbn. destruct b; [|done]. by destruct (Mode_live _) eqn:?.
    + unfold still_wanted. cbn. destruct b; [destruct (Mode_live _)|]; cbn; lia.
  - injection Hst as <- <-. cbn [negb undisturbed gs_is_valid]. destruct Hp as [Hb Hc].
    assert (b = false) as ->. { destruct b; [|done]. by destruct (Hc eq_refl). }
    pose proof Hb as (_ & He & _). destruct (He e) as (v & Hin & Hw & Hve); [by left|].
    split_and!; [done| |].
    + intros _. cbn. by destruct (match so_limit opts with Some max => _ | None => _ end).
    + eapply Nat.lt_le_trans; [by eapply send_measure|]. unfold still_wanted. cbn. lia.
Qed.

Lemma run_settles c0 pos q n w st :
  (stream_measure (tables w) st ≤ n)%nat →
  stream_inv c0 (mk_StreamSystem w pos q st) → settled (tables w) st →
  ∃ m st' w', (m ≤ n)%nat ∧ run_stream m st w = (st', w') ∧ tables w' = tables w ∧
    replaying st' = false ∧ stream_inv c0 (mk_StreamSystem w' pos q st') ∧ settled (tables w) st'.
Proof.
  revert w st. induction n as [n IH] using lt_wf_ind. intros w st Hm Hi Hset.
  destruct (replaying st) eqn:Hrun.
  2: { exists 0%nat, st, w. split_and!; [lia|done..]. }
  destruct (stream_step opts undisturbed st w) as [st1 w1] eqn:Hst.
  pose proof (stream_progress _ _ _ _ _ _ _ Hi Hset Hrun Hst) as (Ht & Hset1 & Hlt).
  pose proof (inv_stream _ _ _ _ _ _ _ _ Hst Hi) as Hi1. rewrite <-Ht in Hset1, Hlt.
  destruct (IH (stream_measure (tables w1) st1) ltac:(rewrite Ht in *; lia) w1 st1)
    as (m & st2 & w2 & Hmn & Hr & Ht2 & Hrest); [lia|done..|].
  rewrite Ht in *. exists (S m), st2, w2. split_and!; [lia| |congruence|apply Hrest..].
  cbn. by rewrite Hst.
Qed.

(** A stream left to itself ends its replay: within five transitions
    per requested event (and three more) it has sent as many events as its
    limit allows, or exactly the requested events of the table, in order, and
    then closed (or gone live), or a query has failed.  So a batch request
    terminates and is complete. *)
Theorem replay_terminates c0 w :
  users_wf (tables w) → events_wf (tables w) → cursor_wf c0 →
  match so_limit opts with Some max => 1 ≤ max ≤ U16_MAX | None => True end →
  ∃ n st w',
    (n ≤ 5 * length (filter (λ v, wanted c0 paths v = true) (events (tables w))) + 3)%nat ∧
    run_stream n (stream_events c0) w = (st, w') ∧
    ((es_phase st = Ended LimitReached ∧ so_limit opts = Some (Z.of_nat (length (es_out st)))) ∨
     (es_phase st = (if Mode_live (so_mode opts) then Tailing else Ended CaughtUp) ∧
      StronglySorted Z.lt (map ve_id (es_out st)) ∧
      ∀ v, v ∈ events (tables w) → wanted c0 paths v = true ↔ v_id v ∈ map ve_id (es_out st)) ∨
     es_cut_short st = true).
Proof.
  intros Hu Hv Hc Hlim. set (s0 := mk_StreamSystem w 0 [] (stream_events c0)).
  assert (stream_inv c0 s0) as Hi.
  { apply starts_inv. split_and!; try done. split; [constructor|by intros ? ?%elem_of_nil..|by left]. }
  destruct (run_settles c0 0 [] (stream_measure (tables w) (stream_events c0)) w (stream_events c0))
    as (n & st & w' & Hn & Hr & Ht & Hend & [_ _ _ _ [Ho _] Hcnt Hl _ Hwh] & Hset); [done..|].
  cbn in *. rewrite Ht in *. exists n, st, w'. split_and!; [exact Hn|done|].
  destruct (es_cut_short st) eqn:Hcut; [auto|]. specialize (Hset Hcut). destruct (Hwh eq_refl) as [Hd _].
  assert ((∀ v, v ∈ events (tables w) → wanted (es_cursor st) paths v = false) →
    ∀ v, v ∈ events (tables w) → wanted c0 paths v = true ↔ v_id v ∈ map ve_id (es_out st)) as Hall.
  { intros Hno v Hin. split.
    - intros Hw. destruct (decide (v_id v ≤ last_out (es_out st))); [by eapply d_gap|].
      rewrite <-(d_after _ _ _ _ _ Hd) in Hw by lia. by rewrite Hno in Hw.
    - intros (e & Hid & (u & Hu' & Hw & He)%Ho)%list_elem_of_fmap.
      rewrite (events_id_inj (tables w) v u); [done..|]. by rewrite Hid, (proj1 He). }
  pose proof (d_sorted _ _ _ _ _ Hd) as Hs. unfold replaying in Hend.
  destruct (es_phase st) as [| |batch b| |why] eqn:Hph; try done.
  - destruct Hset as [-> Hno]. right; left. auto.
  - assert (why = CaughtUp ∨ why = LimitReached) as [->| ->] by (destruct why; auto; done).
    + destruct Hset as [-> Hno]. right; left. auto.
    + left. split; [done|]. unfold limit_ok in Hl. destruct (so_limit opts) as [max|]; [|done].
      destruct Hl as (_ & _ & Hl). f_equal. rewrite <-Hcnt. symmetry. by apply Hl.
Qed.

End System.
