(* ===== verification/StreamAccess.v ===== *)
(** Who sees what on an event stream: from a client's query over the
    authorization of its paths and the lookup of its users to the events that
    are sent, a stream reveals public events and, to the tenant's session,
    events its capabilities let it read, whatever the database, the channel
    and the session's guard do.  The last part runs concrete streams. *)

From stdpp Require Import relations.
From S2P Require Import Prelude StoragePath Capabilities HttpError Keys Quota Database Users Authorization Entries.
From S2P Require Import Events EventStreams StreamProofs.

Section Queries.
Context `{PkarrKeys}.
Context (form_parse : str → list (str * str)).

Definition params_wf (p : SharedParams) : Prop :=
  match sp_limit p with Some max => 1 ≤ max ≤ U16_MAX | None => True end ∧ Forall StoragePath_wf (sp_paths p).

Lemma params_parse_wf key value p p' :
  SharedParams_parse key value p = Ok p' → params_wf p → params_wf p'.
Proof.
  unfold SharedParams_parse, params_wf. repeat case_decide; try (by intros [= <-]).
  - destruct (parse_uint U16_MAX value) as [n|] eqn:E; cbn; [|done].
    destruct (Z.eqb_spec n 0); [done|]. intros [= <-] [_ ?]. cbn. apply parse_uint_range in E. split; [lia|done].
  - unfold parse_path. destruct (StoragePath_normalize _) as [path|] eqn:E; cbn; [|done].
    intros [= <-] [? ?]. apply normalize_wf in E. split; [done|]. apply Forall_app. auto.
Qed.

Lemma set_user_cursor_keys k c ucs j :
  j ∈ map fst (set_user_cursor k c ucs) → j = k ∨ j ∈ map fst ucs.
Proof.
  induction ucs as [|[i d] ucs IH]; cbn; [rewrite list_elem_of_singleton; auto|].
  case_decide; cbn; rewrite !elem_of_cons; [tauto|]. intros [?|?%IH]; tauto.
Qed.

Lemma set_user_cursor_NoDup k c ucs : NoDup (map fst ucs) → NoDup (map fst (set_user_cursor k c ucs)).
Proof.
  induction ucs as [|[i d] ucs IH]; cbn; intros HN; [apply NoDup_singleton|].
  apply NoDup_cons in HN as [Hi HN]. case_decide as Hk; cbn; [by constructor|].
  constructor; [|by apply IH]. by intros [?|?]%set_user_cursor_keys.
Qed.

Lemma client_loop_wf pairs ucs p r :
  client_query_loop pairs ucs p = Ok r → params_wf p → NoDup (map fst ucs) →
  params_wf r.2 ∧ NoDup (map fst r.1).
Proof.
  revert ucs p. induction pairs as [|[key value] pairs IH]; intros ucs p; cbn [client_query_loop].
  { by intros [= <-]. }
  case_decide.
  - destruct (parse_user_cursor value) as [[k c]|]; cbn; [|done]. intros Hr Hp HN.
    eapply IH; [exact Hr|done|by apply set_user_cursor_NoDup].
  - destruct (SharedParams_parse key value p) as [p'|] eqn:E; cbn; [|done].
    intros Hr Hp HN. eapply IH; [exact Hr|by eapply params_parse_wf|done].
Qed.

(** (C22) A client's stream query that is accepted names between one and fifty
    users, each once, a limit that fits its width and is not zero, canonical
    paths, and never asks for live events in reverse. *)
Theorem client_query_wf query q :
  ClientStreamQuery_parse form_parse query = Ok q →
  (1 ≤ length (cq_user_cursors q) ≤ MAX_EVENT_STREAM_USERS)%nat ∧
  NoDup (map fst (cq_user_cursors q)) ∧
  (∀ max, cq_limit q = Some max → 1 ≤ max ≤ U16_MAX) ∧
  Forall StoragePath_wf (cq_paths q) ∧
  Mode_live (cq_mode q) && Mode_reverse (cq_mode q) = false.
Proof.
  unfold ClientStreamQuery_parse. destruct (client_query_loop _ _ _) as [[ucs p]|] eqn:E; cbn; [|done].
  apply client_loop_wf in E as [[Hl Hp] HN]; [|by split|constructor]. cbn in *.
  destruct (SharedParams_mode p) as [m|]; cbn; [|done]. case_decide as Hne; [done|].
  unfold check_user_count. destruct (Nat.ltb_spec MAX_EVENT_STREAM_USERS (length ucs)); cbn; [done|].
  intros [= <-]. cbn. split_and!; try done; [destruct ucs; cbn; [done|lia]| |by destruct m].
  intros max Hm. by rewrite Hm in Hl.
Qed.

End Queries.

(** * Selection *)

Section Selection.
Context `{PkarrKeys}.
Context (paths : list PathFilter).

(** The users and paths of a stream, whatever its position. *)
Definition selected (c : StreamCursor) (uid : Z) (path : str) : Prop :=
  match c with
  | PerUser cs => uid ∈ map fst cs
  | Global _ ids => match ids with Some ids => uid ∈ ids | None => True end
  end ∧
  (paths = [] ∨ ∃ f, f ∈ paths ∧ PathFilter_matches f path = true).

Definition event_selected (c : StreamCursor) (e : EventEntity) : Prop :=
  selected c (ve_user_id e) (as_str (ep_path (ve_path e))).

Lemma any_filter_selected v :
  any_filter paths v = true ↔ paths = [] ∨ ∃ f, f ∈ paths ∧ PathFilter_matches f (v_path v) = true.
Proof.
  rewrite any_filter_matches. destruct paths as [|f fs]; [tauto|].
  rewrite existsb_exists. setoid_rewrite <-list_elem_of_In. split; [auto|by intros [?|?]].
Qed.

Lemma cursors_get_in id cs c : cursors_get id cs = Some c → id ∈ map fst cs.
Proof.
  induction cs as [|[k d] cs IH]; [done|]. cbn. destruct (Z.eqb_spec k id) as [->|]; [by left|right; auto].
Qed.

Lemma accepts_live_selected c e :
  StreamCursor_accepts_live c e paths = true → event_selected c e.
Proof.
  unfold StreamCursor_accepts_live, event_selected, selected. intros Ha.
  assert (∀ path, match paths with [] => true | _ => existsb (λ f, PathFilter_matches f path) paths end = true →
    paths = [] ∨ ∃ f, f ∈ paths ∧ PathFilter_matches f path = true) as Hp.
  { intros path. destruct paths as [|f fs]; [auto|]. rewrite existsb_exists.
    setoid_rewrite <-list_elem_of_In. auto. }
  destruct c as [cs|l ids].
  - destruct (cursors_get _ cs) as [l|] eqn:E; [|done]. apply cursors_get_in in E.
    split; [done|]. apply Hp. by destruct (match l with Some _ => _ | None => _ end).
  - destruct ids as [ids|].
    + case_bool_decide; cbn [negb] in Ha; [|done]. split; [done|]. apply Hp.
      by destruct (match l with Some _ => _ | None => _ end).
    + split; [done|]. apply Hp. by destruct (match l with Some _ => _ | None => _ end).
Qed.

Lemma advance_selected c e uid path :
  event_selected c e → selected (StreamCursor_advance c e) uid path ↔ selected c uid path.
Proof.
  unfold event_selected, selected. destruct c as [cs|l ids]; cbn [StreamCursor_advance]; [|done].
  intros [He _]. f_equiv. generalize (Some (EventEntity_cursor e)) as c. intros c.
  clear -He. induction cs as [|[k d] cs IH]; cbn in *; [by apply elem_of_nil in He|].
  destruct (Z.eqb_spec k (ve_user_id e)) as [->|Hne]; cbn; [done|].
  apply elem_of_cons in He as [?|He]; [done|]. by rewrite !elem_of_cons, IH.
Qed.

Lemma decoded_row vu e :
  EventEntity_from_row vu = Ok e → ve_user_id e = v_user vu.1 ∧ as_str (ep_path (ve_path e)) = v_path vu.1.
Proof.
  destruct vu as [v u]. unfold EventEntity_from_row.
  destruct (PublicKey_try_from_z32 _) as [k|]; cbn; [|done].
  unfold StoragePath_new. destruct (validate_canonical (v_path v)) as [[]|]; cbn; [|done].
  repeat case_decide; cbn; try done; by intros [= <-].
Qed.

Lemma fetched_rows limit reverse rows evs e :
  fetch_events limit reverse rows = Ok evs → e ∈ evs →
  ∃ vu, vu ∈ rows ∧ ve_user_id e = v_user vu.1 ∧ as_str (ep_path (ve_path e)) = v_path vu.1.
Proof.
  unfold fetch_events, fetch_all. intros Hf He.
  pose proof (collect_results_elem _ _ _ Hf He) as (vu & Hd & Hin)%list_elem_of_fmap.
  exists vu. split; [|by apply decoded_row].
  apply (elem_of_order_by (event_leb reverse)). by apply elem_of_take in Hin as (i & ? & _); eapply list_elem_of_lookup_2.
Qed.

Lemma fetch_selected c limit reverse w evs w' :
  StreamCursor_fetch c limit reverse paths w = (Ok evs, w') → Forall (event_selected c) evs.
Proof.
  intros Hf. apply Forall_forall. intros e He.
  destruct c as [cs|l ids]; cbn [StreamCursor_fetch] in Hf;
    unfold EventsService_get_by_user_cursors, EventRepository_get_by_user_cursors,
      EventsService_get_all_events, EventRepository_get_all_filtered_by_cursor in Hf;
    case_decide; try (injection Hf as <- _; by apply elem_of_nil in He);
    apply select_inv in Hf as [_ [?|Hf]]; try done; symmetry in Hf;
    destruct (fetched_rows _ _ _ _ _ Hf He) as (vu & Hin & Hu & Hp);
    unfold event_selected, selected; rewrite Hu, Hp, <-any_filter_selected.
  - apply list_elem_of_In, in_concat in Hin as (rows & (uc & <- & Huc)%in_map_iff & Hin).
    apply list_elem_of_In, list_elem_of_filter in Hin as [Hc _]. bool_to_prop.
    split; [|done]. apply list_elem_of_fmap. exists uc. split; [done|by apply list_elem_of_In].
  - apply list_elem_of_filter in Hin as [Hc _]. bool_to_prop.
    split; [|done]. destruct ids; [by eapply bool_decide_eq_true_1|done].
Qed.

(** A stream in an arbitrary environment: anything may happen to the database
    and to the channel. *)
Inductive wild_step (opts : StreamOptions) : EventStream * World → EventStream * World → Prop :=
| wild_stream guard st w st' w' :
    stream_step opts guard st w = (st', w') → wild_step opts (st, w) (st', w')
| wild_environment st w w' rx : wild_step opts (st, w) (with_rx rx st, w').

Definition sends_selected (c0 : StreamCursor) (st : EventStream) : Prop :=
  Forall (event_selected c0) (es_out st) ∧
  (∀ uid path, selected (es_cursor st) uid path ↔ selected c0 uid path) ∧
  match es_phase st with Sending batch _ => Forall (event_selected c0) batch | _ => True end.

Lemma send_selected opts c0 e next st :
  sends_selected c0 st → event_selected c0 e →
  match next with Sending batch _ => Forall (event_selected c0) batch | _ => True end →
  sends_selected c0 (stream_send opts e next st).
Proof.
  intros (Ho & Hc & _) He Hn. split_and!; cbn.
  - apply Forall_app. split; [done|by constructor].
  - intros uid path. rewrite advance_selected; [done|]. by apply Hc.
  - by destruct (match so_limit opts with Some max => _ | None => _ end).
Qed.

Lemma step_selected opts guard c0 st w st' w' :
  so_paths opts = paths → sends_selected c0 st → stream_step opts guard st w = (st', w') →
  sends_selected c0 st'.
Proof.
  intros Hpaths Hs Hst. pose proof Hs as (Ho & Hc & Hb). unfold stream_step in Hst. rewrite Hpaths in Hst.
  destruct (es_phase st) as [| |[|e rest] b| |why] eqn:Hph.
  - destruct (gs_is_valid guard); injection Hst as <- _; done.
  - destruct (StreamCursor_fetch _ _ _ _ _) as [[evs|err] w1] eqn:Hf; injection Hst as <- _.
    + split_and!; [done..|]. cbn. apply fetch_selected in Hf.
      eapply Forall_impl; [exact Hf|]. intros e He. by apply Hc.
    + split_and!; [done..|]. cbn. by destruct (Mode_live _).
  - injection Hst as <- _. split_and!; [done..|]. cbn. by destruct b; [destruct (Mode_live _)|].
  - inversion Hb; subst. destruct (gs_is_valid guard); injection Hst as <- _; [|done].
    by apply send_selected.
  - destruct (gs_next_check guard) as [[|]|]; [by injection Hst as <- _..|].
    destruct (rx_recv (es_rx st)) as [[e| | |] rx]; try (by injection Hst as <- _).
    cbn in Hst. destruct (StreamCursor_accepts_live _ _ _) eqn:Ha; injection Hst as <- _.
    + apply send_selected; [|by apply Hc, accepts_live_selected|done]. split_and!; [done..|]. cbn. by rewrite Hph.
    + split_and!; [done..|]. cbn. by rewrite Hph.
  - injection Hst as <- _. done.
Qed.

Lemma wild_selected opts c0 st w x :
  so_paths opts = paths → sends_selected c0 st → rtc (wild_step opts) (st, w) x → sends_selected c0 x.1.
Proof.
  intros Hp Hs Hr. remember (st, w) as y eqn:Hy. assert (sends_selected c0 y.1) as Hs' by by subst.
  clear Hs Hy st w. induction Hr as [|y y' z Hstep _ IH]; [done|]. apply IH.
  destruct Hstep; [by eapply step_selected|done].
Qed.

End Selection.

(** * Authorization *)

Section Access.
Context `{PkarrKeysLaws, JsonStrings}.

Lemma PathFilter_covers f path :
  PathFilter_matches f (as_str path) = true → StoragePath_covers_path (filter_path f) path = true.
Proof.
  unfold PathFilter_matches, StoragePath_covers_path. destruct (StoragePath_is_directory _).
  - intros ->. apply orb_true_r.
  - intros Heq%bool_decide_eq_true. rewrite bool_decide_eq_true_2; [done|].
    destruct path, (filter_path f). cbn in *. by subst.
Qed.

Lemma covers_under_root a b root :
  StoragePath_covers_path a b = true → under_root a root → under_root b root.
Proof.
  unfold StoragePath_covers_path, under_root. rewrite orb_true_iff, bool_decide_eq_true, andb_true_iff.
  intros [->|[_ Hs]] Ha; [done|]. by eapply starts_with_trans.
Qed.

Lemma session_grants_below s k a b act :
  StoragePath_covers_path a b = true → session_grants s k a act → session_grants s k b act.
Proof.
  intros Hab (Hk & cap & Hin & Hc & Ha). split; [done|]. exists cap. eauto with storage_path.
Qed.

(** What a request may see: public paths, and private ones of the tenant its
    session belongs to. *)
Definition may_see (session : option AuthSession) (tenants : list (PublicKey * option EventCursor))
    (path : StoragePath) : Prop :=
  under_root path PUBLIC_ROOT ∨
  under_root path PRIVATE_ROOT ∧
  ∃ s k c, session = Some s ∧ tenants = [(k, c)] ∧ session_grants s k path Read.

Lemma authorized_loop_inv qpaths scope session allowed f :
  authorized_loop qpaths scope session = Ok allowed → f ∈ allowed →
  has_read_permission session (EventStreamTenantScope_tenant scope) (filter_path f) = Ok ().
Proof.
  revert allowed. induction qpaths as [|p ps IH]; intros allowed; cbn; [by intros [= <-] ?%elem_of_nil|].
  destruct (has_read_permission _ _ p) as [[]|] eqn:E; cbn; [|done].
  destruct (authorized_loop ps scope session) as [l|]; cbn; [|done].
  intros [= <-] [->|Hf]%elem_of_cons; [done|by eapply IH].
Qed.

Lemma authorized_paths_sound qpaths ucs session allowed :
  authorized_paths qpaths (EventStreamTenantScope_from_query qpaths ucs) session = Ok allowed →
  allowed ≠ [] ∧
  ∀ f path, f ∈ allowed → PathFilter_matches f (as_str path) = true → may_see session ucs path.
Proof.
  unfold authorized_paths. case_decide as Hq.
  { intros [= <-]. split; [done|]. intros f path ->%list_elem_of_singleton Hm. left.
    eapply covers_under_root; [by apply PathFilter_covers|]. done. }
  intros Ha. split.
  { intros ->. destruct qpaths as [|p ps]; [done|]. cbn in Ha.
    destruct (has_read_permission _ _ _) as [[]|]; cbn in Ha; [|done].
    by destruct (authorized_loop ps _ _). }
  intros f path Hf Hm%PathFilter_covers. apply (authorized_loop_inv _ _ _ _ f) in Ha; [|done].
  apply has_read_permission_ok in Ha as [Hpub|(Hpriv & s & k & Hs & Hk & Hg)].
  - left. by eapply covers_under_root.
  - right. split; [by eapply covers_under_root|]. unfold EventStreamTenantScope_from_query in Hk.
    destruct (negb _); [done|]. destruct ucs as [|[k' c] [|]]; cbn in Hk; try done. injection Hk as <-.
    exists s, k', c. split_and!; [done..|]. by eapply session_grants_below.
Qed.

Lemma get_ids_rows ks w ids w' :
  get_ids ks w = (Ok ids, w') →
  ∀ i, i ∈ ids → ∃ k u, k ∈ ks ∧ u ∈ users (tables w) ∧ u_public_key u = PublicKey_z32 k ∧ u_id u = i.
Proof.
  revert w ids w'. induction ks as [|k ks IH]; intros w ids w' Hr i Hi; cbn [get_ids] in Hr.
  { injection Hr as <- _. by apply elem_of_nil in Hi. }
  apply db_bind_Ok in Hr as (id & w1 & Hid & Hr). apply db_bind_Ok in Hr as (ids' & w2 & Hids & Hr).
  injection Hr as <- _. apply select_inv in Hid as [Hs [?|Hid]]; [done|].
  apply elem_of_cons in Hi as [->|Hi].
  - destruct (users_by_key k (tables w)) as [|u us] eqn:E; [done|]. injection Hid as ->.
    assert (u ∈ users_by_key k (tables w)) as Hu by (rewrite E; left).
    apply list_elem_of_filter in Hu as [Hk Hu]. exists k, u. split_and!; [left|done..].
  - destruct (IH _ _ _ Hids i Hi) as (k' & u & Hk & Hu & Hrest). destruct Hs as [Ht _]. rewrite Ht in Hu.
    exists k', u. split; [by right|done].
Qed.

Lemma cursors_collect_keys cs m uid :
  uid ∈ map fst (foldl (λ m c, cursors_insert c.1 c.2 m) m cs) → uid ∈ map fst m ∨ uid ∈ map fst cs.
Proof.
  revert m. induction cs as [|[k c] cs IH]; intros m; cbn; [auto|].
  intros [[->|?]%cursors_insert_in|?]%IH; rewrite elem_of_cons; auto.
Qed.

(** (C16) Nobody sees on a stream what they may not read: whatever the
    database and the broadcast channel contain, whatever the guard says and in
    every mode, an event sent to a client belongs to one of the users it
    named, and lies below [/pub/], or below [/priv/] of the one user the
    request names with a session of that user whose capabilities cover the
    event's path for reading. *)
Theorem client_stream_authorized q session allowed ids w w1 st w2 :
  authorized_paths (cq_paths q) (EventStreamTenantScope_from_query (cq_paths q) (cq_user_cursors q)) session
    = Ok allowed →
  resolve_user_ids (cq_user_cursors q) w = (Ok ids, w1) →
  let '(opts, st0) := user_events_stream (mk_UserEventsFilter ids allowed (cq_mode q) (cq_limit q)) in
  rtc (wild_step opts) (st0, w1) (st, w2) →
  ∀ e, e ∈ es_out st →
    may_see session (cq_user_cursors q) (ep_path (ve_path e)) ∧
    ∃ k u, k ∈ map fst (cq_user_cursors q) ∧ u ∈ users (tables w) ∧
           u_public_key u = PublicKey_z32 k ∧ u_id u = ve_user_id e.
Proof.
  intros Ha Hr Hsteps e He. apply authorized_paths_sound in Ha as [Hne Ha].
  eapply (wild_selected allowed) in Hsteps as (Ho & _ & _); [|done|by split_and!; [constructor|..]].
  cbn in Ho. rewrite Forall_forall in Ho. destruct (Ho e He) as [Hu [?|(f & Hf & Hm)]]; [done|].
  split; [by eapply Ha|]. cbn in Hu. apply cursors_collect_keys in Hu as [?%elem_of_nil|Hu]; [done|].
  unfold resolve_user_ids in Hr. apply db_bind_Ok in Hr as (is' & w1' & Hids & Hr). injection Hr as <- _.
  apply db_map_err_Ok in Hids. eapply get_ids_rows in Hids; [exact Hids|].
  apply list_elem_of_fmap in Hu as ([i c] & -> & Hz). by apply elem_of_zip_l in Hz.
Qed.

End Access.

(** * Witnesses *)

(** A live stream over the first user's events, the poller past event 2. *)
Definition demo_stream_opts (m : Mode) (limit : option Z) : StreamOptions := mk_StreamOptions [] m limit.
Definition demo_cursor : StreamCursor := PerUser [(1, None)].
Definition demo_system (ts : list Tick) : StreamSystem :=
  mk_StreamSystem (demo_feed ts) 2 [] (stream_events demo_cursor).

Lemma demo_channel tb : users tb = demo_users → events tb = demo_events → channel_ok (H := demo_keys) tb 2 [].
Proof.
  intros _ He. split; [constructor|by intros ? ?%elem_of_nil..|right]. rewrite He. in_list.
Qed.

(** One transition of the demonstration stream. *)
Definition demo_next (opts : StreamOptions) (s : StreamSystem) : StreamSystem :=
  let '(st, w) := stream_step (H := demo_keys) opts undisturbed (sy_stream s) (sy_world s) in
  mk_StreamSystem w (sy_position s) (sy_in_flight s) st.

Lemma demo_next_step opts s : system_step (H := demo_keys) opts s (demo_next opts s).
Proof.
  destruct s as [w pos q st]. unfold demo_next. cbn.
  destruct (stream_step opts undisturbed st w) as [st' w'] eqn:E. by eapply step_stream.
Qed.

(** Four transitions: the first two events are out. *)
Lemma stream_gap_free_witness :
  let opts := demo_stream_opts ForwardLive None in
  let s' := demo_next opts (demo_next opts (demo_next opts (demo_next opts (demo_system [])))) in
  map ve_id (es_out (sy_stream s')) = [1; 2] ∧ StronglySorted Z.lt (map ve_id (es_out (sy_stream s'))).
Proof.
  intros opts s'. split; [vm_compute; reflexivity|].
  apply (stream_gap_free (H := demo_keys) opts eq_refl demo_cursor (demo_system []) s').
  - split_and!; [by apply demo_users_wf|by apply demo_events_wf|by apply demo_channel| |done|done].
    apply NoDup_singleton.
  - do 4 (eapply rtc_l; [apply demo_next_step|]). apply rtc_refl.
  - vm_compute. reflexivity.
Defined.

Lemma replay_terminates_witness :
  ∃ n st w', (n ≤ 18)%nat ∧
    run_stream (H := demo_keys) (demo_stream_opts Forward (Some 2)) n (stream_events demo_cursor) (demo_feed [])
      = (st, w').
Proof.
  destruct (replay_terminates (H := demo_keys) (demo_stream_opts Forward (Some 2)) eq_refl demo_cursor (demo_feed []))
    as (n & st & w' & Hn & Hr & _).
  - by apply demo_users_wf.
  - by apply demo_events_wf.
  - apply NoDup_singleton.
  - vm_compute. split; discriminate.
  - exists n, st, w'. split; [exact Hn|exact Hr].
Defined.

(** The user parameter, a limit and a path. *)
Definition demo_form (query : str) : list (str * str) :=
  [(lit "user", demo_z32 true ++ lit ":3"); (lit "path", lit "priv/app/"); (lit "limit", lit "10")].

Lemma client_query_wf_witness :
  ∃ q, ClientStreamQuery_parse (H := demo_keys) demo_form [] = Ok q ∧
    cq_user_cursors q = [(true, Some 3)] ∧ Forall StoragePath_wf (cq_paths q).
Proof.
  eexists. split; [vm_compute; reflexivity|]. split; [reflexivity|].
  apply (client_query_wf (H := demo_keys) demo_form [] _). vm_compute. reflexivity.
Defined.

(** A private request with a session that may read everything of the user. *)
Definition demo_private_query : ClientStreamQuery :=
  mk_ClientStreamQuery (H := demo_keys) [(true, None)] None Forward [mk_StoragePath (lit "/priv/")].
Definition demo_reader : AuthSession :=
  CookieSession (mk_SessionEntity (H := demo_keys) 1 [] 1 true [Capability_root] 0).
Definition demo_private_run (n : nat) : EventStream * World :=
  run_stream (H := demo_keys) (mk_StreamOptions [mk_PathFilter (mk_StoragePath (lit "/priv/"))] Forward None) n
    (stream_events (PerUser [(1, None)])) (demo_feed []).

Lemma wild_run `{PkarrKeys} opts n st w : rtc (wild_step opts) (st, w) (run_stream opts n st w).
Proof.
  revert st w. induction n as [|n IH]; intros st w; cbn [run_stream]; [apply rtc_refl|].
  destruct (stream_step opts undisturbed st w) as [st' w'] eqn:E.
  eapply rtc_l; [by eapply wild_stream|apply IH].
Qed.

Lemma client_stream_authorized_witness :
  map ve_id (es_out (demo_private_run 4).1) = [2] ∧
  ∀ e, e ∈ es_out (demo_private_run 4).1 → may_see (Some demo_reader) [(true, None)] (ep_path (ve_path e)).
Proof.
  split; [vm_compute; reflexivity|]. intros e He.
  apply (client_stream_authorized (H := demo_keys) demo_private_query (Some demo_reader)
    [mk_PathFilter (mk_StoragePath (lit "/priv/"))] [(1, None)] (demo_feed []) (demo_feed [])
    (demo_private_run 4).1 (demo_private_run 4).2).
  - vm_compute. reflexivity.
  - vm_compute. reflexivity.
  - pose proof (wild_run (H := demo_keys) (mk_StreamOptions [mk_PathFilter (mk_StoragePath (lit "/priv/"))] Forward None)
      4 (stream_events (PerUser [(1, None)])) (demo_feed [])) as Hr.
    rewrite (surjective_pairing (run_stream _ _ _ _)) in Hr. exact Hr.
  - exact He.
Defined.

(** A live stream whose replay fails loses events without a word: after
    a database error the stream does not close but follows the broadcast
    channel, so the history it had not replayed is skipped although later
    events are sent.  The run: the first query of a live stream fails, then
    the poller broadcasts event 4; events 1 and 2 were requested and are never
    sent. *)
Theorem live_stream_skips_after_db_error :
  ∃ opts c0 s s',
    starts (H := demo_keys) opts c0 s ∧ rtc (system_step opts) s s' ∧
    es_phase (sy_stream s') = Tailing ∧
    ∃ v, v ∈ events (tables (sy_world s')) ∧ wanted c0 (so_paths opts) v = true ∧
         v_id v < last_out (es_out (sy_stream s')) ∧ v_id v ∉ map ve_id (es_out (sy_stream s')).
Proof.
  set (opts := demo_stream_opts ForwardLive None). set (s0 := demo_system [mk_Tick 0 true false]).
  set (s2 := demo_next opts (demo_next opts s0)).
  set (p := EventRepository_get_by_cursor (H := demo_keys) (Some 2) (Some BATCH_SIZE) VisAll (sy_world s2)).
  set (evs := match p.1 with Ok evs => evs | Err _ => [] end).
  set (e := default (mk_EventEntity (H := demo_keys) 0 0 true EventDelete
                       (EntryPath_new (H := demo_keys) true sample_path) 0) (head evs)).
  set (s4 := mk_StreamSystem p.2 4 [] (with_rx (rx_push 0 e (es_rx (sy_stream s2))) (sy_stream s2))).
  exists opts, demo_cursor, s0, (demo_next opts s4). split_and!.
  - split_and!; [by apply demo_users_wf|by apply demo_events_wf|by apply demo_channel| |done|done].
    apply NoDup_singleton.
  - do 2 (eapply rtc_l; [apply demo_next_step|]).
    eapply rtc_l; [eapply (step_poll opts (sy_world s2) evs p.2 2 []); vm_compute; reflexivity|].
    eapply rtc_l; [apply (step_broadcast opts p.2 4 e [] _ 0)|].
    eapply rtc_l; [apply demo_next_step|]. apply rtc_refl.
  - vm_compute. reflexivity.
  - exists (mk_EventRow 1 (lit "PUT") 1 (lit "/pub/app/file.txt") 10 (Some demo_hash)).
    split_and!; [vm_compute; left|vm_compute; reflexivity|vm_compute; reflexivity|].
    vm_compute. intros [?|?%elem_of_nil]%elem_of_cons; done.
Qed.
