(* ===== verification/StreamGuard.v ===== *)
(** The guard of open event streams: revocations reach private streams
    ([client_server/auth/stream_auth.rs], [client_server/auth/revocation/]), and
    the route that opens a stream ([client_server/routes/events.rs]).

    The guard is modelled turn by turn, so that messages of the revocation
    channel and requests to the database may come between any two turns. *)

From stdpp Require Import relations.
From S2P Require Import Prelude StoragePath Capabilities HttpError Keys Quota Database Users Signup.
From S2P Require Import Authorization GrantTokens Grants GrantProofs GrantSessions CookieAuth Events EventStreams.

(** * The receiving end of the revocation channel *)

Record RevocationReceiver := mk_RevocationReceiver {
  rv_buffer : list AuthRevocation;
  rv_lagged : bool;
  rv_closed : bool
}.

Inductive RevocationReceived := RvMessage (r : AuthRevocation) | RvLagged | RvClosed | RvEmpty.

Definition rv_recv (rx : RevocationReceiver) : RevocationReceived * RevocationReceiver :=
  if rv_lagged rx then (RvLagged, mk_RevocationReceiver (rv_buffer rx) false (rv_closed rx))
  else match rv_buffer rx with
       | r :: rest => (RvMessage r, mk_RevocationReceiver rest false (rv_closed rx))
       | [] => (if rv_closed rx then RvClosed else RvEmpty, rx)
       end.

(** [subscribe] and [resubscribe]: from now on. *)
Definition rv_fresh : RevocationReceiver := mk_RevocationReceiver [] false false.
Definition rv_resubscribe (rx : RevocationReceiver) : RevocationReceiver :=
  mk_RevocationReceiver [] false (rv_closed rx).

(** What the listener does to a receiver: it delivers a notification, the
    oldest [dropped] ones being lost to it, or it ends. *)
Inductive RxInput := RxDeliver (dropped : nat) (r : AuthRevocation) | RxEnd.

Definition rv_input (rx : RevocationReceiver) (i : RxInput) : RevocationReceiver :=
  match i with
  | RxDeliver dropped r =>
      mk_RevocationReceiver (drop dropped (rv_buffer rx ++ [r])) (rv_lagged rx || negb (dropped =? 0)%nat)
        (rv_closed rx)
  | RxEnd => mk_RevocationReceiver (rv_buffer rx) (rv_lagged rx) true
  end.

(** ** Replacing the listener *)

Definition REPLACEMENT_COOLDOWN : Z := 1000000000.

(** [ReplacementCooldown { last_attempt }], in nanoseconds. *)
Definition ReplacementCooldown_try_start (now : Z) (last_attempt : option Z) : bool * option Z :=
  if match last_attempt with Some started => now - started <? REPLACEMENT_COOLDOWN | None => false end
  then (false, last_attempt) else (true, Some now).

(** [replace]: whether it succeeded, the cooldown, and the connection attempts;
    [spawn_ok] says whether connecting succeeds. *)
Definition Supervisor_replace (now : Z) (spawn_ok : bool) (cooldown : option Z) : bool * option Z * list Z :=
  let '(go, cooldown) := ReplacementCooldown_try_start now cooldown in
  if negb go then (false, cooldown, []) else (spawn_ok, cooldown, [now]).

(** What a turn of the loop of [subscribe] finds: whether the actor is alive,
    the clock, and whether connecting succeeds. *)
Record SubscribeTurn := mk_SubscribeTurn { st_alive : bool; st_now : Z; st_spawn_ok : bool }.

(** The loop, over as many turns as happen. *)
Fixpoint Supervisor_subscribe (turns : list SubscribeTurn) (cooldown : option Z)
    : option RevocationReceiver * option Z * list Z :=
  match turns with
  | [] => (None, cooldown, [])
  | t :: turns =>
      if st_alive t then (Some rv_fresh, cooldown, [])
      else
        let '(replaced, cooldown, attempts) := Supervisor_replace (st_now t) (st_spawn_ok t) cooldown in
        if negb replaced then (None, cooldown, attempts)
        else let '(rx, cooldown, more) := Supervisor_subscribe turns cooldown in (rx, cooldown, attempts ++ more)
  end.

(** At most one attempt per window, whoever asks. *)
Lemma attempts_spaced turns cooldown rx cooldown' attempts :
  Supervisor_subscribe turns cooldown = (rx, cooldown', attempts) →
  StronglySorted (λ a b, a + REPLACEMENT_COOLDOWN ≤ b) (option_list cooldown ++ attempts) ∧
  cooldown' = last (option_list cooldown ++ attempts).
Proof.
  revert cooldown rx cooldown' attempts. induction turns as [|t turns IH]; intros c rx c' attempts; cbn.
  { intros [= _ <- <-]. destruct c; cbn; split; repeat constructor. }
  destruct (st_alive t); [intros [= _ <- <-]; destruct c; cbn; split; repeat constructor|].
  unfold Supervisor_replace, ReplacementCooldown_try_start.
  destruct (match c with Some _ => _ | None => _ end) eqn:Ec; cbn.
  { intros [= _ <- <-]. destruct c; cbn; split; repeat constructor. }
  assert (∀ l, StronglySorted (λ a b, a + REPLACEMENT_COOLDOWN ≤ b) (st_now t :: l) →
            StronglySorted (λ a b, a + REPLACEMENT_COOLDOWN ≤ b) (option_list c ++ st_now t :: l)) as Hcons.
  { intros l Hl. destruct c as [started|]; cbn; [|done]. constructor; [done|].
    apply StronglySorted_inv in Hl as [_ Hl]. unfold REPLACEMENT_COOLDOWN in *.
    constructor; [lia|]. eapply Forall_impl; [exact Hl|]. cbn. lia. }
  assert (∀ l, last (option_list c ++ st_now t :: l) = last (st_now t :: l)) as Hlast by (by destruct c).
  destruct (st_spawn_ok t); cbn.
  - destruct (Supervisor_subscribe turns _) as [[rx1 c1] more] eqn:E. intros [= <- <- <-].
    apply IH in E as [Hs ->]. cbn [option_list app] in *. split; [by apply Hcons|by rewrite Hlast].
  - intros [= _ <- <-]. split; [apply Hcons; repeat constructor|by rewrite Hlast].
Qed.

(** ** The actor *)

(** A turn of [ListenerActor::run]: what it hears, and what that does to the
    receivers.  [payload] reads the JSON; a broadcast may overrun a slow
    receiver by [dropped] messages. *)
Inductive ListenerHears := LifetimeOver | HearsNotification (r : result SqlError (option str)).

Definition ListenerActor_turn (payload : str → option AuthRevocation) (dropped : nat) (heard : ListenerHears)
    : RxInput :=
  match heard with
  | LifetimeOver => RxEnd
  | HearsNotification (Ok (Some notification)) =>
      match payload notification with
      | Some revocation => RxDeliver dropped revocation
      | None => RxEnd
      end
  | HearsNotification (Ok None) | HearsNotification (Err _) => RxEnd
  end.

Section StreamGuard.
Context `{PkarrKeys, JsonStrings, Base32, !Jws, Sha256, Calendar, !AuthTokenCodec}.

Definition AuthRevocation_matches (self : AuthRevocation) (session : AuthSession) : bool :=
  match self, session with
  | RevokedCookieSession id, CookieSession cookie => id =? se_id cookie
  | RevokedGrant id, BearerSession grant => bool_decide (id = gs_grant_id grant)
  | _, _ => false
  end.

(** * The guard *)

Inductive StreamAuth :=
| StreamPublic
| StreamPrivate (session : AuthSession) (revocation_rx : RevocationReceiver).

Inductive RevocationSignal := SignalContinue | SignalClose | SignalRevalidate.

(** The loop over [try_recv] once nothing was lost: the signal and what is left
    in the buffer. *)
Fixpoint drain_revocations (session : AuthSession) (closed : bool) (buffer : list AuthRevocation)
    : RevocationSignal * list AuthRevocation :=
  match buffer with
  | [] => (if closed then SignalClose else SignalContinue, [])
  | revocation :: buffer =>
      if AuthRevocation_matches revocation session then (SignalClose, buffer)
      else drain_revocations session closed buffer
  end.

Definition pending_revocation (self : StreamAuth) : RevocationSignal * StreamAuth :=
  match self with
  | StreamPublic => (SignalContinue, self)
  | StreamPrivate session rx =>
      if rv_lagged rx then (SignalRevalidate, StreamPrivate session (rv_resubscribe rx))
      else let '(signal, rest) := drain_revocations session (rv_closed rx) (rv_buffer rx) in
           (signal, StreamPrivate session (mk_RevocationReceiver rest false (rv_closed rx)))
  end.

Definition StreamAuth_matches (self : StreamAuth) (revocation : AuthRevocation) : bool :=
  match self with
  | StreamPrivate session _ => AuthRevocation_matches revocation session
  | StreamPublic => false
  end.

Definition revalidate_session (now : Z) (self : StreamAuth) (w : World) : bool * World :=
  match self with
  | StreamPublic => (true, w)
  | StreamPrivate session _ =>
      let '(r, w) := validate_private_stream_session now session w in (is_ok r, w)
  end.

Definition auth_inputs (ins : list RxInput) (self : StreamAuth) : StreamAuth :=
  match self with
  | StreamPublic => StreamPublic
  | StreamPrivate session rx => StreamPrivate session (foldl rv_input rx ins)
  end.

(** A turn of the loop of [is_valid]; [None] goes on. *)
Definition is_valid_turn (now : Z) (self : StreamAuth) (w : World) : option bool * StreamAuth * World :=
  match pending_revocation self with
  | (SignalContinue, self) => (Some true, self, w)
  | (SignalClose, self) => (Some false, self, w)
  | (SignalRevalidate, self) =>
      let '(valid, w) := revalidate_session now self w in
      (if valid then None else Some false, self, w)
  end.

(** The whole loop, with what arrives during each revalidation. *)
Fixpoint StreamAuth_is_valid (now : Z) (arrivals : list (list RxInput)) (self : StreamAuth) (w : World)
    : bool * StreamAuth * World :=
  match is_valid_turn now self w, arrivals with
  | (Some valid, self, w), _ => (valid, self, w)
  | (None, self, w), ins :: arrivals => StreamAuth_is_valid now arrivals (auth_inputs ins self) w
  | (None, self, w), [] =>
      let '(r, self, w) := is_valid_turn now self w in (bool_decide (r = Some true), self, w)
  end.

(** [next_check]: [None] while it waits. *)
Definition StreamAuth_next_check (now : Z) (self : StreamAuth) (w : World) : option bool * StreamAuth * World :=
  match self with
  | StreamPublic => (None, self, w)
  | StreamPrivate session rx =>
      match rv_recv rx with
      | (RvMessage revocation, rx) =>
          (Some (negb (StreamAuth_matches self revocation)), StreamPrivate session rx, w)
      | (RvLagged, rx) =>
          let self := StreamPrivate session (rv_resubscribe rx) in
          let '(valid, w) := revalidate_session now self w in (Some valid, self, w)
      | (RvClosed, rx) => (Some false, StreamPrivate session rx, w)
      | (RvEmpty, _) => (None, self, w)
      end
  end.

(** The stream of [EventStreams] under this guard, a turn at a time: while the
    guard's loop goes on, the stream waits.  [select!] is biased to the guard. *)
Definition guarded_step (opts : StreamOptions) (now : Z) (self : StreamAuth) (st : EventStream) (w : World)
    : EventStream * StreamAuth * World :=
  match es_phase st with
  | Replaying | Sending (_ :: _) _ =>
      match is_valid_turn now self w with
      | (Some valid, self, w) =>
          let '(st, w) := stream_step opts (mk_GuardSays valid None) st w in (st, self, w)
      | (None, self, w) => (st, self, w)
      end
  | Tailing =>
      let '(check, self, w) := StreamAuth_next_check now self w in
      let '(st, w) := stream_step opts (mk_GuardSays true check) st w in (st, self, w)
  | Querying | Sending [] _ | Ended _ =>
      let '(st, w) := stream_step opts (mk_GuardSays true None) st w in (st, self, w)
  end.

(** * Opening a stream *)

Inductive PendingStreamAuth :=
| PendingPublic
| PendingPrivate (revocation_rx : RevocationReceiver).

(** [receiver] is the listener's answer; [None] is [RevocationUnavailable]. *)
Definition PendingStreamAuth_subscribe (is_private : bool) (receiver : option RevocationReceiver)
    : option PendingStreamAuth :=
  if is_private then PendingPrivate <$> receiver else Some PendingPublic.

(** The first half of [authorize]: the session is validated. *)
Definition authorize_session (now : Z) (self : PendingStreamAuth) (session : option AuthSession)
    : DB HttpError StreamAuth :=
  match self, session with
  | PendingPrivate revocation_rx, Some session =>
      validate_private_stream_session now session ;; mret (StreamPrivate session revocation_rx)
  | PendingPrivate _, None => throw HttpError_unauthorized
  | PendingPublic, _ => mret StreamPublic
  end.

(** The second half. *)
Definition confirm (now : Z) (arrivals : list (list RxInput)) (stream_auth : StreamAuth) : DB HttpError StreamAuth :=
  λ w, let '(valid, stream_auth, w) := StreamAuth_is_valid now arrivals stream_auth w in
       (if valid then Ok stream_auth else Err HttpError_unauthorized, w).

(** [during] arrives while the session is validated, [arrivals] later. *)
Definition PendingStreamAuth_authorize (now : Z) (during : list RxInput) (arrivals : list (list RxInput))
    (self : PendingStreamAuth) (session : option AuthSession) : DB HttpError StreamAuth :=
  stream_auth ← authorize_session now self session;
  confirm now arrivals (auth_inputs during stream_auth).

Definition resolve_tenant_cookie_session (cookies : str → option str) (scope : EventStreamTenantScope) (w : World)
    : option AuthSession * World :=
  match scope with
  | PrivateSingleTenant tenant => resolve_session_from_cookie (cookies (PublicKey_z32 tenant)) tenant w
  | _ => (None, w)
  end.

(** The session of the request, as the route chooses it. *)
Definition stream_session (session : option AuthSession) (authorization : option (list Z))
    (cookies : str → option str) (scope : EventStreamTenantScope) (w : World) : option AuthSession * World :=
  let has_bearer_auth := has_bearer_scheme (extract_bearer_token authorization) in
  match session with
  | Some (CookieSession c) => if has_bearer_auth then (None, w) else (Some (CookieSession c), w)
  | Some session => (Some session, w)
  | None => if has_bearer_auth then (None, w) else resolve_tenant_cookie_session cookies scope w
  end.

(** A computation that cannot fail, among those that can. *)
Definition infallible {E A} (m : World → A * World) : DB E A := λ w, let '(a, w) := m w in (Ok a, w).

Definition feed_stream (form_parse : str → list (str * str)) (now : Z) (session : option AuthSession)
    (authorization : option (list Z)) (cookies : str → option str) (raw_query : option str)
    (receiver : option RevocationReceiver) (during : list RxInput) (arrivals : list (list RxInput))
    : DB HttpError (StreamAuth * StreamOptions * EventStream) :=
  query ← lift_result (map_err HttpError_from_event_stream
                         (ClientStreamQuery_parse form_parse (default [] raw_query)));
  let scope := EventStreamTenantScope_from_query (cq_paths query) (cq_user_cursors query) in
  session ← infallible (stream_session session authorization cookies scope);
  allowed_paths ← lift_result (authorized_paths (cq_paths query) scope session);
  pending ← lift_result (ok_or (PendingStreamAuth_subscribe
                                  (match scope with PrivateSingleTenant _ => true | _ => false end) receiver)
              (HttpError_new_with_message 503 (lit "Private event streams are temporarily unavailable")));
  stream_auth ← PendingStreamAuth_authorize now during arrivals pending session;
  user_cursors ← db_map_err HttpError_from_event_stream (resolve_user_ids (cq_user_cursors query));
  let '(opts, st) := user_events_stream
                       (mk_UserEventsFilter user_cursors allowed_paths (cq_mode query) (cq_limit query)) in
  mret (stream_auth, opts, st).

End StreamGuard.
