(* ===== verification/StreamRevocation.v ===== *)
(** Open streams and revocation: a private stream of a grant falls silent, and
    ends, once its grant has been revoked and the news has reached it. *)

From stdpp Require Import relations.
From S2P Require Import Prelude StoragePath Capabilities HttpError Keys Quota Database Users Signup.
From S2P Require Import Authorization GrantTokens Grants GrantProofs GrantSessions CookieAuth Events EventStreams.
From S2P Require Import PopReplay StreamGuard.

(** * A connection and its surroundings *)

Section Connections.
Context `{PkarrKeysLaws, JsonStrings, Base32, !Jws, Sha256Laws, Calendar}.

(** How far a request for a stream has come. *)
Inductive Stage :=
| Authorizing (pending : PendingStreamAuth)
| Confirming (stream_auth : StreamAuth)
| Streaming (stream_auth : StreamAuth) (st : EventStream)
| Refused.

(** [cn_heard] counts the committed notifications the listener has passed on. *)
Record Connection := mk_Connection {
  cn_world : World;
  cn_heard : nat;
  cn_stage : Stage
}.

Definition stage_input (i : RxInput) (g : Stage) : Stage :=
  match g with
  | Authorizing (PendingPrivate rx) => Authorizing (PendingPrivate (rv_input rx i))
  | Authorizing PendingPublic | Refused => g
  | Confirming a => Confirming (auth_inputs [i] a)
  | Streaming a st => Streaming (auth_inputs [i] a) st
  end.

Definition stage_output (g : Stage) : list EventEntity :=
  match g with Streaming _ st => es_out st | _ => [] end.

(** What a connection sends once it is open, for whom, and from where. *)
Context (opts : StreamOptions) (session : option AuthSession) (st0 : EventStream).

(** The request's own steps, those of the listener, and everything else the
    server does, in any order. *)
Inductive conn_step : Connection → Connection → Prop :=
| conn_authorize now p w n r w' :
    authorize_session now p session w = (r, w') →
    conn_step (mk_Connection w n (Authorizing p))
      (mk_Connection w' n (match r with Ok a => Confirming a | Err _ => Refused end))
| conn_confirm now a w n r a' w' :
    is_valid_turn now a w = (r, a', w') →
    conn_step (mk_Connection w n (Confirming a))
      (mk_Connection w' n (match r with Some true => Streaming a' st0 | Some false => Refused
                                      | None => Confirming a' end))
| conn_stream now a st w n st' a' w' :
    guarded_step opts now a st w = (st', a', w') →
    conn_step (mk_Connection w n (Streaming a st)) (mk_Connection w' n (Streaming a' st'))
| conn_events a st w n rx :
    conn_step (mk_Connection w n (Streaming a st)) (mk_Connection w n (Streaming a (with_rx rx st)))
| conn_deliver w n g dropped r :
    notifications (auth (tables w)) !! n = Some r →
    conn_step (mk_Connection w n g) (mk_Connection w (S n) (stage_input (RxDeliver dropped r) g))
| conn_lost w n g : conn_step (mk_Connection w n g) (mk_Connection w n (stage_input RxEnd g))
| conn_activity w n g w' : grant_step w w' → conn_step (mk_Connection w n g) (mk_Connection w' n g).

Lemma conn_turn now a st w n (next := guarded_step opts now a st w) :
  conn_step (mk_Connection w n (Streaming a st)) (mk_Connection next.2 n (Streaming next.1.2 next.1.1)).
Proof. apply (conn_stream now). subst next. by destruct (guarded_step opts now a st w) as [[? ?] ?]. Qed.

End Connections.

(** * Revocation reaches the stream *)

Section Revocation.
Context `{PkarrKeysLaws, JsonStrings, Base32, !Jws, Sha256Laws, Calendar}.
Context (opts : StreamOptions) (b : GrantSession) (st0 : EventStream).

Local Abbreviation id := (gs_grant_id b).
Local Abbreviation mine := (StreamPrivate (BearerSession b)).
Local Abbreviation step := (conn_step opts (Some (BearerSession b)) st0).

(** The receiver cannot overlook the revocation. *)
Definition warned (rx : RevocationReceiver) : Prop :=
  rv_lagged rx = true ∨ RevokedGrant id ∈ rv_buffer rx ∨ rv_closed rx = true.

Lemma warned_input rx i : warned rx → warned (rv_input rx i).
Proof.
  destruct i as [[|dropped] r|]; unfold warned; cbn.
  - rewrite orb_false_r, drop_0, elem_of_app. tauto.
  - rewrite orb_true_r. auto.
  - auto.
Qed.

Lemma warned_delivery rx dropped : warned (rv_input rx (RxDeliver dropped (RevokedGrant id))).
Proof.
  destruct dropped as [|dropped]; unfold warned; cbn; [right; left|left; by rewrite orb_true_r].
  rewrite drop_0. apply elem_of_app. right. by apply list_elem_of_singleton.
Qed.

Lemma drain_warned closed buffer :
  RevokedGrant id ∈ buffer ∨ closed = true → (drain_revocations (BearerSession b) closed buffer).1 = SignalClose.
Proof.
  induction buffer as [|r buffer IH]; cbn [drain_revocations].
  - by intros [?%elem_of_nil| ->].
  - destruct (AuthRevocation_matches r _) eqn:E; [done|]. intros [[<-|?]%elem_of_cons|?]; [|auto..].
    cbn in E. by rewrite bool_decide_eq_true_2 in E.
Qed.

(** Revalidation only reads. *)
Lemma validate_reads now s w r w' :
  validate_private_stream_session now s w = (r, w') → tables w' = tables w.
Proof.
  intros Hr. eapply (keeps_run (λ tb tb', tb' = tb)), Hr.
  assert (PreOrder (λ tb tb' : Tables, tb' = tb)) by (split; [done|congruence]).
  destruct s; cbn; unfold validate_active_session, resolve_active_session_for_user, SessionRepository_get_by_secret,
    validate_active_grant_session, map_not_found, GrantSessionRepository_get_by_token_hash,
    validate_active_grant_session_entity, get_grant, map_not_found, GrantRepository_get_by_id; keeps_steps.
Qed.

Lemma revalidate_reads now a w r w' : revalidate_session now a w = (r, w') → tables w' = tables w.
Proof.
  destruct a as [|s rx]; cbn; [by intros [= _ <-]|].
  destruct (validate_private_stream_session now s w) as [r1 w1] eqn:E. intros [= _ <-].
  by apply validate_reads in E.
Qed.

Lemma revalidate_revoked now rx w r w' :
  grants_inv (tables w) → is_revoked id (tables w) → revalidate_session now (mine rx) w = (r, w') → r = false.
Proof.
  intros HI HR. unfold revalidate_session, validate_private_stream_session. cbv [mbind db_bind db_map_err].
  destruct (validate_active_grant_session now b w) as [[ge|e] w1] eqn:E; cbn; [|by intros [= <- _]].
  by apply revoked_not_revalidated in E.
Qed.

(** A turn of [is_valid], and a [next_check], of this stream. *)
Lemma turn_inv now rx w r a w' :
  is_valid_turn now (mine rx) w = (r, a, w') →
  tables w' = tables w ∧ (∃ rx', a = mine rx') ∧
  (grants_inv (tables w) → is_revoked id (tables w) → warned rx → r = Some false).
Proof.
  unfold is_valid_turn, pending_revocation, warned. destruct (rv_lagged rx).
  - destruct (revalidate_session _ _ _) as [valid w1] eqn:E. intros [= <- <- <-].
    split_and!; [by eapply revalidate_reads|by eexists|]. intros HI HR _.
    by rewrite (revalidate_revoked _ _ _ _ _ HI HR E).
  - destruct (drain_revocations _ _ _) as [signal rest] eqn:E. intros Hr.
    assert (tables w' = tables w ∧ ∃ rx', a = mine rx') as [Ht Ha].
    { destruct signal; [injection Hr as _ <- <-; (split; [done|by eexists])..|].
      destruct (revalidate_session _ _ _) as [valid w1] eqn:Ev. injection Hr as _ <- <-.
      split; [by eapply revalidate_reads|by eexists]. }
    split_and!; [done..|]. intros _ _ [?|Hw]; [done|].
    apply drain_warned in Hw. rewrite E in Hw. cbn in Hw. subst signal. by injection Hr.
Qed.

Lemma check_inv now rx w r a w' :
  StreamAuth_next_check now (mine rx) w = (r, a, w') →
  tables w' = tables w ∧ ∃ rx', a = mine rx' ∧
  (grants_inv (tables w) → is_revoked id (tables w) → warned rx →
   r = Some false ∨
   r = Some true ∧ warned rx' ∧ (length (rv_buffer rx') < length (rv_buffer rx))%nat).
Proof.
  unfold StreamAuth_next_check, rv_recv, warned. destruct (rv_lagged rx) eqn:El.
  - destruct (revalidate_session _ _ _) as [valid w1] eqn:E. intros [= <- <- <-].
    split; [by eapply revalidate_reads|]. eexists. split; [done|]. intros HI HR _. left.
    by rewrite (revalidate_revoked _ _ _ _ _ HI HR E).
  - destruct (rv_buffer rx) as [|m rest]; [destruct (rv_closed rx) eqn:Ec|]; intros [= <- <- <-].
    + split; [done|]. eexists. split; [done|]. by left.
    + split; [done|]. eexists. split; [done|]. by intros _ _ [?|[?%elem_of_nil|?]].
    + split; [done|]. eexists. split; [done|]. intros _ _ [?|Hw]; [done|]. cbn [StreamAuth_matches rv_lagged rv_buffer rv_closed].
      destruct (AuthRevocation_matches m _) eqn:Em; [by left|right]. split_and!; [done| |cbn; lia].
      destruct Hw as [[<-|Hin]%elem_of_cons|Hc]; [|auto..]. cbn in Em. by rewrite bool_decide_eq_true_2 in Em.
Qed.

Lemma fetch_reads c limit reverse paths w r w' :
  StreamCursor_fetch c limit reverse paths w = (r, w') → tables w' = tables w.
Proof.
  destruct c; cbn [StreamCursor_fetch];
    unfold EventsService_get_by_user_cursors, EventRepository_get_by_user_cursors,
      EventsService_get_all_events, EventRepository_get_all_filtered_by_cursor;
    case_decide; try (by intros [= _ <-]); by intros [(? & _) _]%select_inv.
Qed.

Lemma stream_step_reads guard st w st' w' : stream_step opts guard st w = (st', w') → tables w' = tables w.
Proof.
  unfold stream_step. destruct (es_phase st) as [| |[|e rest] cu| |why].
  - by case_match; intros [= _ <-].
  - destruct (StreamCursor_fetch _ _ _ _ w) as [[evs|e] w1] eqn:E; intros [= _ <-]; by apply fetch_reads in E.
  - by intros [= _ <-].
  - by case_match; intros [= _ <-].
  - repeat case_match; by intros [= _ <-].
  - by intros [= _ <-].
Qed.

Definition ended (st : EventStream) : Prop := ∃ why, es_phase st = Ended why.

(** How many turns a warned stream may still take. *)
Definition patience (rx : RevocationReceiver) (st : EventStream) : nat :=
  match es_phase st with
  | Ended _ => 0
  | Replaying | Sending (_ :: _) _ => 1
  | Tailing => length (rv_buffer rx) + 1
  | Sending [] _ => length (rv_buffer rx) + 2
  | Querying => length (rv_buffer rx) + 3
  end.

Lemma guarded_inv now rx st w st' a w' :
  guarded_step opts now (mine rx) st w = (st', a, w') → tables w' = tables w ∧ ∃ rx', a = mine rx'.
Proof.
  unfold guarded_step. intros Hr. destruct (es_phase st) as [| |[|e rest] cu| |why].
  all: repeat match type of Hr with
       | context [is_valid_turn ?n ?a ?w] =>
           destruct (is_valid_turn n a w) as [[[v|] a1] w1] eqn:E; apply turn_inv in E as (Ht & [rx1 ->] & _)
       | context [StreamAuth_next_check ?n ?a ?w] =>
           destruct (StreamAuth_next_check n a w) as [[c a1] w1] eqn:E; apply check_inv in E as (Ht & rx1 & -> & _)
       | context [stream_step ?o ?g ?s ?w] =>
           destruct (stream_step o g s w) as [st1 w2] eqn:E2; apply stream_step_reads in E2
       end; injection Hr as <- <- <-; (split; [congruence|by eexists]).
Qed.

Lemma guarded_warned now rx st w st' a w' :
  grants_inv (tables w) → is_revoked id (tables w) → warned rx ∨ ended st →
  guarded_step opts now (mine rx) st w = (st', a, w') →
  es_out st' = es_out st ∧
  ∃ rx', a = mine rx' ∧ (ended st' ∨ warned rx' ∧ (patience rx' st' < patience rx st)%nat).
Proof.
  intros HI HR Hw. unfold guarded_step, stream_step, patience, ended.
  destruct (es_phase st) as [| |[|e rest] cu| |why] eqn:Hp.
  all: try (destruct Hw as [Hw|[? ?]]; [|congruence]).
  all: try (destruct (is_valid_turn now (mine rx) w) as [[r a1] w1] eqn:E;
            apply turn_inv in E as (_ & [rx1 ->] & Hf); rewrite Hf by done; cbn; intros [= <- <- <-];
            split; [done|]; eexists; split; [done|]; left; by eexists).
  - destruct (StreamCursor_fetch _ _ _ _ w) as [[evs|e] w1]; intros [= <- <- <-];
      (split; [done|]); eexists; (split; [done|]); [right|]; cbn.
    + split; [done|]. case_match; lia.
    + destruct (Mode_live _); [right|left; by eexists]. split; [done|lia].
  - intros [= <- <- <-]. split; [done|]. eexists. split; [done|]. cbn.
    destruct cu; [destruct (Mode_live _)|]; [right|left; by eexists|right]; (split; [done|lia]).
  - destruct (StreamAuth_next_check now (mine rx) w) as [[r a1] w1] eqn:E.
    apply check_inv in E as (_ & rx1 & -> & Hc). destruct (Hc HI HR Hw) as [->|(-> & Hw1 & Hl)]; intros [= <- <- <-].
    + split; [done|]. eexists. split; [done|]. left. by eexists.
    + split; [done|]. eexists. split; [done|]. right. rewrite Hp. split; [done|lia].
  - intros [= <- <- <-]. split; [done|]. eexists. split; [done|]. left. by eexists.
Qed.

(** The connection is this session's, and cannot send anything once the grant
    is revoked. *)
Definition ours (g : Stage) : Prop :=
  match g with
  | Authorizing p => ∃ rx, p = PendingPrivate rx
  | Confirming a | Streaming a _ => ∃ rx, a = mine rx
  | Refused => True
  end.

Definition alert (g : Stage) : Prop :=
  match g with
  | Authorizing _ | Refused => True
  | Confirming (StreamPrivate _ rx) => warned rx
  | Streaming (StreamPrivate _ rx) st => warned rx ∨ ended st
  | _ => False
  end.

(** The news is on its way. *)
Definition notified (c : Connection) : Prop :=
  RevokedGrant id ∈ drop (cn_heard c) (notifications (auth (tables (cn_world c)))).

Local Abbreviation cn_tables c := (tables (cn_world c)).

Lemma authorize_inv now p w r w' :
  authorize_session now p (Some (BearerSession b)) w = (r, w') →
  tables w' = tables w ∧
  ∀ rx, p = PendingPrivate rx → match r with
                                | Ok a => a = mine rx ∧ (grants_inv (tables w) → ¬ is_revoked id (tables w))
                                | Err _ => True
                                end.
Proof.
  destruct p as [|rx]; cbn; [by intros [= <- <-]|]. cbv [mbind db_bind db_map_err].
  pose proof (validate_reads now (BearerSession b) w) as Hv. cbn in Hv. cbv [mbind db_bind db_map_err] in Hv.
  destruct (validate_active_grant_session now b w) as [[ge|e] w1] eqn:E; cbn; intros [= <- <-].
  - split; [by eapply Hv|]. intros ? [= <-]. split; [done|]. intros HI HR. by apply revoked_not_revalidated in E.
  - split; [by eapply Hv|done].
Qed.

(** Only other activity changes the tables. *)
Lemma step_tables c c' :
  ours (cn_stage c) → step c c' →
  cn_tables c' = cn_tables c ∨ grant_step (cn_world c) (cn_world c') ∧ cn_heard c' = cn_heard c.
Proof.
  intros Ho Hs. destruct Hs as [now p w n r w' Hr|now a w n r a' w' Hr|now a st w n st' a' w' Hr| | | |];
    cbn in *; [| | |by auto..].
  - left. by apply authorize_inv in Hr as [-> _].
  - left. destruct Ho as [rx ->]. by apply turn_inv in Hr as [-> _].
  - left. destruct Ho as [rx ->]. by apply guarded_inv in Hr as [-> _].
Qed.

Lemma step_later c c' : ours (cn_stage c) → step c c' → grants_later (cn_tables c) (cn_tables c').
Proof. intros Ho Hs. destruct (step_tables _ _ Ho Hs) as [->|[Hg _]]; [done|by apply grant_step_later]. Qed.

Lemma input_ours i g : ours g → ours (stage_input i g).
Proof. destruct g as [p|a|a st|]; cbn; [| | |done]; intros [rx ->]; by eexists. Qed.

Lemma step_ours c c' : ours (cn_stage c) → step c c' → ours (cn_stage c').
Proof.
  intros Ho Hs. destruct Hs as [now p w n r w' Hr|now a w n r a' w' Hr|now a st w n st' a' w' Hr| | | |];
    cbn [cn_stage] in *; [| | |done|by apply input_ours|by apply input_ours|done].
  - destruct Ho as [rx ->]. apply authorize_inv in Hr as [_ Hr]. specialize (Hr rx eq_refl).
    destruct r as [a|]; [|done]. destruct Hr as [-> _]. by exists rx.
  - destruct Ho as [rx ->]. apply turn_inv in Hr as (_ & Ha & _). by destruct r as [[]|].
  - destruct Ho as [rx ->]. by apply guarded_inv in Hr as [_ Ha].
Qed.

Lemma input_alert i g : ours g → alert g → alert (stage_input i g).
Proof.
  destruct g as [p|a|a st|]; cbn; [| | |done]; intros [rx ->]; cbn; [done|apply warned_input|].
  intros [?|?]; [left; by apply warned_input|by right].
Qed.

Lemma delivery_alert dropped g : ours g → alert (stage_input (RxDeliver dropped (RevokedGrant id)) g).
Proof.
  destruct g as [p|a|a st|]; cbn; [| | |done]; intros [rx ->]; cbn; [done|apply warned_delivery|].
  left. apply warned_delivery.
Qed.

Lemma input_output i g : stage_output (stage_input i g) = stage_output g.
Proof. by destruct g as [[]|a|a st|]. Qed.

Lemma step_alert c c' :
  ours (cn_stage c) → grants_inv (cn_tables c) → is_revoked id (cn_tables c) → alert (cn_stage c) → step c c' →
  alert (cn_stage c') ∧ stage_output (cn_stage c') = stage_output (cn_stage c).
Proof.
  intros Ho HI HR Ha Hs.
  destruct Hs as [now p w n r w' Hr|now a w n r a' w' Hr|now a st w n st' a' w' Hr|a st w n rx| | |];
    cbn [cn_stage cn_world] in *.
  - destruct Ho as [rx ->]. apply authorize_inv in Hr as [_ Hr]. specialize (Hr rx eq_refl).
    destruct r as [a|]; [|done]. by destruct Hr as [_ []].
  - destruct Ho as [rx ->]. apply turn_inv in Hr as (_ & _ & ->); done.
  - destruct Ho as [rx ->]. apply guarded_warned in Hr as (Hout & rx' & -> & [He|[Hw _]]); cbn; auto.
  - by destruct Ho as [rx' ->].
  - split; [by apply input_alert|apply input_output].
  - split; [by apply input_alert|apply input_output].
  - done.
Qed.

Lemma step_notified c c' :
  ours (cn_stage c) → notified c → step c c' → notified c' ∨ alert (cn_stage c').
Proof.
  intros Ho Hn Hs. pose proof (step_later _ _ Ho Hs) as (_ & _ & new & Hnew & _).
  assert (RevokedGrant id ∈ drop (cn_heard c) (notifications (auth (cn_tables c')))) as Hin.
  { rewrite Hnew, drop_app. apply elem_of_app. by left. }
  destruct Hs as [| | | |w n g dropped r Hr| |]; [by left..| |by left|by left].
  cbn [cn_heard cn_world cn_stage] in *. rewrite (drop_S _ _ _ Hr) in Hin.
  apply elem_of_cons in Hin as [<-|Hin]; [right; by apply delivery_alert|by left].
Qed.

(** The invariant of a connection: a revocation is never overlooked. *)
Definition stream_inv (c : Connection) : Prop :=
  ours (cn_stage c) ∧ grants_inv (cn_tables c) ∧ (cn_heard c ≤ length (notifications (auth (cn_tables c))))%nat ∧
  (is_revoked id (cn_tables c) → alert (cn_stage c) ∨ notified c).

Lemma step_heard c c' :
  ours (cn_stage c) → (cn_heard c ≤ length (notifications (auth (cn_tables c))))%nat → step c c' →
  (cn_heard c' ≤ length (notifications (auth (cn_tables c'))))%nat.
Proof.
  intros Ho Hh Hs. pose proof (step_later _ _ Ho Hs) as (_ & _ & new & Hnew & _).
  rewrite Hnew, length_app. destruct Hs as [| | | |w n g dropped r Hr| |]; cbn in *; try lia.
  apply lookup_lt_Some in Hr. lia.
Qed.

Lemma step_news c c' :
  ours (cn_stage c) → (cn_heard c ≤ length (notifications (auth (cn_tables c))))%nat → step c c' →
  is_revoked id (cn_tables c') → is_revoked id (cn_tables c) ∨ notified c'.
Proof.
  intros Ho Hh Hs HR. destruct (step_tables _ _ Ho Hs) as [<-|[Hg He]]; [by left|].
  apply grant_step_later in Hg as (_ & _ & new & Hnew & Hr). destruct (Hr _ HR) as [?|Hin]; [by left|right].
  unfold notified. rewrite Hnew, He, drop_app_le by done. apply elem_of_app. by right.
Qed.

Lemma step_inv c c' : stream_inv c → step c c' → stream_inv c'.
Proof.
  intros (Ho & HI & Hh & Ha) Hs. pose proof (step_later _ _ Ho Hs) as [HI' _].
  split_and!; [by eapply step_ours|auto|by eapply step_heard|]. intros HR.
  destruct (step_news _ _ Ho Hh Hs HR) as [HR0|?]; [|by right].
  destruct (Ha HR0) as [Hal|Hn]; [left; by eapply step_alert|].
  destruct (step_notified _ _ Ho Hn Hs); auto.
Qed.

(** Silence, from a state in which nothing can be overlooked. *)
Lemma silent c c' :
  rtc step c c' → ours (cn_stage c) → grants_inv (cn_tables c) → is_revoked id (cn_tables c) → alert (cn_stage c) →
  stage_output (cn_stage c') = stage_output (cn_stage c).
Proof.
  induction 1 as [|c c1 c' Hs _ IH]; intros Ho HI HR Ha; [done|].
  destruct (step_alert _ _ Ho HI HR Ha Hs) as [Ha1 <-]. pose proof (step_later _ _ Ho Hs) as (HI1 & HR1 & _).
  apply IH; auto. by eapply step_ours.
Qed.

Lemma steps_inv c c' : rtc step c c' → stream_inv c → stream_inv c'.
Proof. induction 1; eauto using step_inv. Qed.

(** A request that has subscribed to revocations and waits to be authorized. *)
Definition requested (c : Connection) : Prop :=
  (∃ rx, cn_stage c = Authorizing (PendingPrivate rx)) ∧ grants_inv (cn_tables c) ∧
  (cn_heard c ≤ length (notifications (auth (cn_tables c))))%nat.

Lemma requested_inv c : requested c → stream_inv c.
Proof. intros ((rx & Hg) & HI & Hh). unfold stream_inv. rewrite Hg. cbn. split_and!; eauto. Qed.

(** The turns of a stream at given times, nothing else happening to it. *)
Fixpoint guarded_run (nows : list Z) (self : StreamAuth) (st : EventStream) (w : World)
    : EventStream * StreamAuth * World :=
  match nows with
  | [] => (st, self, w)
  | now :: nows => let '(st, self, w) := guarded_step opts now self st w in guarded_run nows self st w
  end.

Lemma warned_ends nows rx st w :
  grants_inv (tables w) → is_revoked id (tables w) → warned rx ∨ ended st →
  (patience rx st ≤ length nows)%nat → ended (guarded_run nows (mine rx) st w).1.1.
Proof.
  revert rx st w. induction nows as [|now nows IH]; intros rx st w HI HR Hw Hp; cbn [guarded_run].
  - cbn in *. unfold patience in Hp. unfold ended. repeat case_match; eauto; cbn in Hp; lia.
  - destruct (guarded_step opts now (mine rx) st w) as [[st1 a1] w1] eqn:E.
    pose proof (guarded_inv _ _ _ _ _ _ _ E) as [Ht _].
    apply guarded_warned in E as (_ & rx1 & -> & Hd); [|done..]. apply IH; rewrite ?Ht; try done.
    + destruct Hd as [?|[? _]]; auto.
    + cbn in Hp. destruct Hd as [[why Hph]|[_ Hlt]]; [unfold patience; rewrite Hph|]; lia.
Qed.

(** (C11) No revocation is overlooked by an open stream.  A client asks for a
    private stream with a grant; the server subscribes to revocations and then
    validates the session, while requests, revocations, deliveries, overflows of
    the receiver's buffer and failures of the listener happen in any order.
    From the moment the grant is revoked and no notification of it is still on
    its way, nothing more is ever sent on that connection, whatever happens
    next. *)
Theorem revoked_stream_is_silent c0 c c' :
  requested c0 → rtc step c0 c →
  is_revoked (gs_grant_id b) (tables (cn_world c)) → ¬ notified c → rtc step c c' →
  stage_output (cn_stage c') = stage_output (cn_stage c).
Proof.
  intros Hq%requested_inv Hs HR Hn Hs'. destruct (steps_inv _ _ Hs Hq) as (Ho & HI & _ & Ha).
  destruct (Ha HR); [|done]. by eapply silent.
Qed.

(** And the stream ends.  Once the news has reached it, an open stream
    whose grant was revoked closes after at most three turns and one for every
    buffered notification, replaying or live, lagged or not, even when the
    database fails. *)
Theorem revoked_stream_ends c0 w n rx st nows :
  requested c0 → rtc step c0 (mk_Connection w n (Streaming (mine rx) st)) →
  is_revoked (gs_grant_id b) (tables w) → ¬ notified (mk_Connection w n (Streaming (mine rx) st)) →
  (length (rv_buffer rx) + 3 ≤ length nows)%nat →
  ∃ why, es_phase (guarded_run nows (mine rx) st w).1.1 = Ended why.
Proof.
  intros Hq%requested_inv Hs HR Hn Hl. destruct (steps_inv _ _ Hs Hq) as (_ & HI & _ & Ha).
  destruct (Ha HR) as [Hw|]; [|done]. apply warned_ends; [done..|].
  unfold patience. repeat case_match; lia.
Qed.

End Revocation.

(** * An example *)

(** The client of [PopReplay] opens a stream with its bearer. *)
Definition demo_bearer_session : @GrantSession demo_keys :=
  mk_GrantSession (H := demo_keys) true [mk_Capability (mk_StoragePath (lit "/pub/")) [Read; Write]] (lit "grant-1")
    4700 (sha256 demo_bearer).
Definition demo_opts : StreamOptions := mk_StreamOptions [] ForwardLive None.
Definition demo_st0 : EventStream := stream_events (PerUser [(1, None)]).

(** Its stages: validated, confirmed, one turn into the replay. *)
Definition demo_validated :=
  authorize_session (H := demo_keys) 1150 (PendingPrivate rv_fresh) (Some (BearerSession demo_bearer_session))
    demo_exchange.2.
Definition demo_mine (rx : RevocationReceiver) : StreamAuth := StreamPrivate (BearerSession demo_bearer_session) rx.
Definition demo_turn :=
  guarded_step (H := demo_keys) demo_opts 1160 (demo_mine rv_fresh) demo_st0 demo_exchange.2.
(** The user revokes the grant, and the stream hears of it. *)
Definition demo_owner : @AuthSession demo_keys :=
  CookieSession (mk_SessionEntity (H := demo_keys) 1 [] 1 true [Capability_root] 0).
Definition demo_revocation := revoke_grant_route (H := demo_keys) 1200 demo_owner (lit "grant-1") demo_turn.2.
Definition demo_heard : RevocationReceiver := mk_RevocationReceiver [RevokedGrant (lit "grant-1")] false false.

Definition demo_asked : @Connection demo_keys :=
  mk_Connection (H := demo_keys) demo_exchange.2 0 (Authorizing (PendingPrivate rv_fresh)).
Definition demo_warned : @Connection demo_keys :=
  mk_Connection (H := demo_keys) demo_revocation.2 1 (Streaming (demo_mine demo_heard) demo_turn.1.1).

Lemma demo_validated_eq :
  authorize_session (H := demo_keys) 1150 (PendingPrivate rv_fresh) (Some (BearerSession demo_bearer_session))
    demo_exchange.2 = (Ok (demo_mine rv_fresh), demo_exchange.2).
Proof. vm_compute. reflexivity. Qed.
Lemma demo_confirmed_eq :
  is_valid_turn (H := demo_keys) 1150 (demo_mine rv_fresh) demo_exchange.2
  = (Some true, demo_mine rv_fresh, demo_exchange.2).
Proof. vm_compute. reflexivity. Qed.
Lemma demo_turn_eq :
  guarded_step (H := demo_keys) demo_opts 1160 (demo_mine rv_fresh) demo_st0 demo_exchange.2
  = (demo_turn.1.1, demo_mine rv_fresh, demo_turn.2).
Proof. vm_compute. reflexivity. Qed.
Lemma demo_revocation_eq :
  revoke_grant_route (H := demo_keys) 1200 demo_owner (lit "grant-1") demo_turn.2 = (Ok (), demo_revocation.2).
Proof. vm_compute. reflexivity. Qed.
Lemma demo_announced : notifications (auth (tables demo_revocation.2)) = [RevokedGrant (lit "grant-1")].
Proof. vm_compute. reflexivity. Qed.

Lemma demo_requested : requested (H := demo_keys) demo_asked.
Proof. split_and!; [by eexists|exact demo_grants_inv|cbn; lia]. Qed.

Lemma demo_steps :
  rtc (conn_step (H := demo_keys) demo_opts (Some (BearerSession demo_bearer_session)) demo_st0) demo_asked demo_warned.
Proof.
  eapply rtc_l; [exact (conn_authorize _ _ _ _ _ _ _ _ _ demo_validated_eq)|].
  eapply rtc_l; [exact (conn_confirm _ _ _ _ _ _ _ _ _ _ demo_confirmed_eq)|].
  eapply rtc_l; [exact (conn_stream _ _ _ _ _ _ _ _ _ _ _ demo_turn_eq)|].
  eapply rtc_l; [exact (conn_activity _ _ _ _ _ _ _ (step_revoke _ _ _ _ _ _ demo_revocation_eq))|].
  apply rtc_once. apply (conn_deliver (H := demo_keys) _ _ _ demo_revocation.2 0
    (Streaming (demo_mine rv_fresh) demo_turn.1.1) 0 (RevokedGrant (lit "grant-1"))).
  by rewrite demo_announced.
Qed.

Lemma demo_is_revoked : is_revoked (lit "grant-1") (tables demo_revocation.2).
Proof.
  unfold is_revoked. set (l := grants _). vm_compute in l. subst l. eexists. split; [left|]. split; [done|].
  cbn. discriminate.
Qed.
Lemma demo_nothing_pending : ¬ notified (H := demo_keys) demo_bearer_session demo_warned.
Proof. unfold notified. cbn [cn_world cn_heard demo_warned]. rewrite demo_announced. by intros ?%elem_of_nil. Qed.

(** The stream's next turn. *)
Definition demo_next_turn :=
  guarded_step (H := demo_keys) demo_opts 1210 (demo_mine demo_heard) demo_turn.1.1 demo_revocation.2.
Definition demo_later : @Connection demo_keys :=
  mk_Connection (H := demo_keys) demo_next_turn.2 1 (Streaming demo_next_turn.1.2 demo_next_turn.1.1).
Lemma demo_later_step :
  rtc (conn_step (H := demo_keys) demo_opts (Some (BearerSession demo_bearer_session)) demo_st0) demo_warned demo_later.
Proof. exact (rtc_once _ _ (conn_turn (H := demo_keys) _ _ _ 1210 _ _ _ 1)). Qed.

Lemma revoked_stream_is_silent_witness :
  es_phase (demo_turn.1.1) = Querying ∧ stage_output (cn_stage demo_later) = stage_output (cn_stage demo_warned).
Proof.
  split; [vm_compute; reflexivity|].
  exact (revoked_stream_is_silent (H := demo_keys) demo_opts demo_bearer_session demo_st0 demo_asked demo_warned demo_later
    demo_requested demo_steps demo_is_revoked demo_nothing_pending demo_later_step).
Defined.

Lemma revoked_stream_ends_witness :
  ∃ why, es_phase (guarded_run (H := demo_keys) demo_opts [1210; 1220; 1230; 1240] (demo_mine demo_heard)
                     demo_turn.1.1 demo_revocation.2).1.1 = Ended why.
Proof.
  exact (revoked_stream_ends (H := demo_keys) demo_opts demo_bearer_session demo_st0 demo_asked demo_revocation.2 1
    demo_heard demo_turn.1.1 [1210; 1220; 1230; 1240]
    demo_requested demo_steps demo_is_revoked demo_nothing_pending (le_n 4)).
Defined.
