(* ===== verification/Finalization.v ===== *)
(** Write finalization: the layer that keeps entries, events and quota
    accounting in step with the blobs
    ([persistence/files/write_finalization_layer/]).  This file holds the
    definitions; [Accounting] proves what they guarantee.

    The blob store underneath (OpenDAL and its backends) is the interface
    [Backend]: an abstract state and the calls the layer makes on it. *)

From S2P Require Import Prelude StoragePath HttpError Keys Quota Database Users Entries EntryLocks Events.

(** * Errors ([layer_domain_error.rs], [file/file_io_error.rs]) *)

Inductive LayerDomainError :=
| WritePathForbidden
| DiskSpaceQuotaExceeded
| PathCollision
| LockLost
| PublishConflict.

(** [opendal::ErrorKind], the kinds the code names. *)
Inductive ErrorKind :=
| KUnexpected
| KNotFound
| KAlreadyExists
| KRateLimited
| KConditionNotMatch
| KPermissionDenied
| KUnsupported
| KOther.

Record OpendalError := mk_OpendalError {
  oe_kind : ErrorKind;
  oe_source : option LayerDomainError
}.

#[export] Instance LayerDomainError_eq_dec : EqDecision LayerDomainError.
Proof. solve_decision. Defined.
#[export] Instance ErrorKind_eq_dec : EqDecision ErrorKind.
Proof. solve_decision. Defined.
#[export] Instance OpendalError_eq_dec : EqDecision OpendalError.
Proof. solve_decision. Defined.

Definition LayerDomainError_of (e : OpendalError) : option LayerDomainError := oe_source e.

(** [unexpected(context, error)] and [already_closed]. *)
Definition unexpected : OpendalError := mk_OpendalError KUnexpected None.
Definition path_collision_error : OpendalError := mk_OpendalError KAlreadyExists (Some PathCollision).
Definition lock_lost_error : OpendalError := mk_OpendalError KConditionNotMatch (Some LockLost).
Definition quota_exceeded_error : OpendalError :=
  mk_OpendalError KRateLimited (Some DiskSpaceQuotaExceeded).

Inductive FileIoError :=
| FileIoNotFound
| FileIoSqlDb (e : SqlError)
| FileIoOpenDAL (e : OpendalError)
| FileIoBackendRateLimited (e : OpendalError)
| FileIoTempFile
| FileIoStreamBroken
| FileIoDiskSpaceQuotaExceeded
| FileIoWritePathForbidden
| FileIoPathCollision
| FileIoLockLost
| FileIoPublishConflict.

(** [impl From<opendal::Error> for FileIoError]. *)
Definition FileIoError_from_opendal (e : OpendalError) : FileIoError :=
  match LayerDomainError_of e with
  | Some WritePathForbidden => FileIoWritePathForbidden
  | Some DiskSpaceQuotaExceeded => FileIoDiskSpaceQuotaExceeded
  | Some PathCollision => FileIoPathCollision
  | Some LockLost => FileIoLockLost
  | Some PublishConflict => FileIoPublishConflict
  | None =>
      match oe_kind e with
      | KNotFound => FileIoNotFound
      | KRateLimited => FileIoBackendRateLimited e
      | _ => FileIoOpenDAL e
      end
  end.

(** [impl From<FileIoError> for HttpError] ([shared/http_error.rs]). *)
Definition HttpError_from_file_io (e : FileIoError) : HttpError :=
  match e with
  | FileIoNotFound => HttpError_not_found
  | FileIoDiskSpaceQuotaExceeded => HttpError_insufficient_storage
  | FileIoWritePathForbidden =>
      HttpError_forbidden_with_message (lit "Write to this path is not allowed")
  | FileIoPathCollision => HttpError_new_with_message 409 (lit "File/folder path collision")
  | FileIoStreamBroken => HttpError_bad_request (lit "Stream broken")
  | FileIoBackendRateLimited _ =>
      HttpError_too_many_requests (lit "Storage backend is rate limited, retry later")
        BACKEND_RATE_LIMIT_RETRY_AFTER_SECS
  | FileIoLockLost => HttpError_lock_token_mismatch
  | FileIoPublishConflict =>
      HttpError_new_with_message 409
        (lit "The file changed before the change was published; read it again and retry")
  | _ => HttpError_internal_server
  end.

(** * The blob store *)

(** [staged_publish_layer::ExpectedGeneration]. *)
Inductive ExpectedGeneration :=
| GenAbsent
| GenKnown (generation : Z).

#[export] Instance ExpectedGeneration_eq_dec : EqDecision ExpectedGeneration.
Proof. solve_decision. Defined.

(** The store below the layer.  A publish or delete is made under the
    generation the task runs under, if any. *)
Class Backend := {
  BackendState : Type;
  BlobWriter : Type;
  BlobMetadata : Type;
  (** [Service::write]: a writer for a key. *)
  open_writer : str → BackendState → result OpendalError BlobWriter * BackendState;
  (** [oio::Write::write]: stage bytes. *)
  writer_write : BlobWriter → list Z → BackendState → result OpendalError () * BackendState;
  (** [Operator::exists]. *)
  backend_exists : str → BackendState → result OpendalError bool * BackendState;
  (** [Operator::stat], reduced to the version it reports. *)
  backend_stat : str → BackendState → result OpendalError (option str) * BackendState;
  (** [oio::Write::close]: publish the staged bytes. *)
  writer_close : option ExpectedGeneration → BlobWriter → BackendState →
    result OpendalError BlobMetadata * BackendState;
  writer_abort : BlobWriter → BackendState → result OpendalError () * BackendState;
  (** [oio::Delete::delete] then [close]. *)
  backend_delete : option ExpectedGeneration → str → BackendState → result OpendalError () * BackendState;
}.

(** [FileMetadata]. *)
Record FileMetadata := mk_FileMetadata {
  fm_hash : Hash;
  fm_length : Z;
  fm_content_type : str
}.

Section Finalization.
Context `{PkarrKeys, JsonStrings, Backend}.

(** ** State: the database and the store *)

Definition FM (E A : Type) : Type :=
  World → BackendState → result E A * World * BackendState.

#[export] Instance fm_ret {E} : MRet (FM E) := λ _ a w b, (Ok a, w, b).
#[export] Instance fm_bind {E} : MBind (FM E) :=
  λ _ _ k m w b, match m w b with
                 | (Ok a, w', b') => k a w' b'
                 | (Err e, w', b') => (Err e, w', b')
                 end.

Definition db {E A} (m : DB E A) : FM E A := λ w b, let '(r, w') := m w in (r, w', b).
Definition blob {E A} (m : BackendState → result E A * BackendState) : FM E A :=
  λ w b, let '(r, b') := m b in (r, w, b').
Definition fm_map_err {E F A} (f : E → F) (m : FM E A) : FM F A :=
  λ w b, let '(r, w', b') := m w b in (map_err f r, w', b').
Definition fm_throw {E A} (e : E) : FM E A := λ w b, (Err e, w, b).
Definition fm_try {E F A} (m : FM E A) : FM F (result E A) :=
  λ w b, let '(r, w', b') := m w b in (Ok r, w', b').

(** * Quota ([quota.rs]) *)

Definition FILE_METADATA_SIZE : Z := 256.

Definition would_exceed_limit (current_bytes bytes_delta : Z) (max_bytes : option Z) : bool :=
  match max_bytes with
  | None => false
  | Some max => let new_total := current_bytes + bytes_delta in (0 <? new_total) && (max <? new_total)
  end.

Definition resolve_storage_max_bytes (user : UserEntity) (default_storage_mb : option Z) : option Z :=
  (λ mb, u64_saturating_mul mb (1024 * 1024)) <$>
    QuotaOverride_resolve_with_default (storage_quota_mb (UserEntity_quota user)) default_storage_mb.

(** * The finalizer ([layer.rs]) *)

Inductive CollisionPolicy := Enforce | AllowLegacyAdminRepair.

Definition CollisionPolicy_from_enforcement (enforce : bool) : CollisionPolicy :=
  if enforce then Enforce else AllowLegacyAdminRepair.
Definition enforces_collisions (p : CollisionPolicy) : bool :=
  match p with Enforce => true | AllowLegacyAdminRepair => false end.

(** The finalizer's configuration, and what a finalization task runs under: the
    lock token it carries ([LOCK_TOKEN]) and the server's clock. *)
Record Finalizer := mk_Finalizer {
  default_storage_mb : option Z;
  collision_policy : CollisionPolicy;
  current_token : option str;
  utc_now : Z
}.

Section WithFinalizer.
Variable fin : Finalizer.

(** [staged_publish_layer::live_generation] and [parse_generation]. *)
Definition parse_generation (version : str) : result OpendalError ExpectedGeneration :=
  match parse_uint U64_MAX version with
  | Some generation => Ok (GenKnown generation)
  | None => Err unexpected
  end.

Definition live_generation (path : str) : FM OpendalError (option ExpectedGeneration) := λ w b,
  match backend_stat path b with
  | (Ok None, b) => (Ok None, w, b)
  | (Ok (Some version), b) => (Some <$> parse_generation version, w, b)
  | (Err e, b) => if decide (oe_kind e = KNotFound) then (Ok (Some GenAbsent), w, b) else (Err e, w, b)
  end.

(** The read, then [SELECT 1] on the transaction's connection. *)
Definition generation_under_lock (entry_path : EntryPath)
    : FM OpendalError (option ExpectedGeneration) :=
  generation ← live_generation (ep_key entry_path);
  db (db_map_err (λ _, unexpected) (select (λ _ _, Ok ()))) ;;
  mret generation.

Definition check_no_path_collision (entry_path : EntryPath) : DB OpendalError () :=
  has_collision ← db_map_err (λ _, unexpected) (EntryRepository_has_file_folder_collision entry_path);
  if (has_collision : bool) then throw path_collision_error else mret ().

Definition collision_preflight (entry_path : EntryPath) : DB OpendalError () :=
  if negb (enforces_collisions (collision_policy fin)) then mret ()
  else check_no_path_collision entry_path.

(** [write_lock::hold]. *)
Definition write_lock_hold (entry_path : EntryPath) : DB OpendalError () :=
  match current_token fin with
  | None => mret ()
  | Some token =>
      held ← db_map_err (λ _, unexpected) (EntryLockRepository_hold entry_path token);
      if negb held then throw lock_lost_error else mret ()
  end.

(** * Writes ([write.rs]) *)

Record PreparedWrite := mk_PreparedWrite {
  pw_user : UserEntity;
  pw_existing_entry : option EntryEntity;
  pw_bytes_delta : Z
}.

(** [i64] arithmetic. *)
Definition PreparedWrite_new (user : UserEntity) (existing_entry : option EntryEntity)
    (file_metadata : FileMetadata) (default_mb : option Z) : result OpendalError PreparedWrite :=
  let existing_bytes := match existing_entry with Some e => ee_content_length e | None => 0 end in
  let metadata_bytes := match existing_entry with None => as_i64 FILE_METADATA_SIZE | Some _ => 0 end in
  let bytes_delta :=
    as_i64 (as_i64 (as_i64 (fm_length file_metadata) - as_i64 existing_bytes) + metadata_bytes) in
  let max_bytes := resolve_storage_max_bytes user default_mb in
  if would_exceed_limit (ue_used_bytes user) bytes_delta max_bytes then Err quota_exceeded_error
  else Ok (mk_PreparedWrite user existing_entry bytes_delta).

Definition prepare_write (entry_path : EntryPath) (file_metadata : FileMetadata)
    : DB OpendalError PreparedWrite :=
  user ← db_map_err (λ _, unexpected) (UserRepository_get_for_no_key_update (ep_pubkey entry_path));
  write_lock_hold entry_path ;;
  (if enforces_collisions (collision_policy fin) then check_no_path_collision entry_path else mret ()) ;;
  r ← try_db (EntryRepository_get_by_path entry_path);
  existing_entry ← match r with
                   | Ok entry => mret (Some entry)
                   | Err RowNotFound => mret None
                   | Err _ => throw unexpected
                   end;
  lift_result (PreparedWrite_new user existing_entry file_metadata (default_storage_mb fin)).

Definition with_used_bytes (user : UserEntity) (used_bytes : Z) : UserEntity :=
  mk_UserEntity (ue_id user) (ue_public_key user) (ue_created_at user) (ue_disabled user)
    used_bytes (ue_columns user).

(** The entry with the new content. *)
Definition with_content (entry : EntryEntity) (m : FileMetadata) : EntryEntity :=
  mk_EntryEntity (ee_id entry) (ee_user_id entry) (ee_path entry) (fm_hash m) (fm_length m)
    (fm_content_type m) (ee_modified_at entry) (ee_created_at entry).

Definition apply_write_effects (prepared : PreparedWrite) (entry_path : EntryPath)
    (file_metadata : FileMetadata) : DB OpendalError () :=
  let user := pw_user prepared in
  db_map_err (λ _, unexpected)
    (match pw_existing_entry prepared with
     | Some entry => EntryRepository_update (with_content entry file_metadata)
     | None =>
         EntryRepository_create (ue_id user) (ep_path entry_path) (fm_hash file_metadata)
           (fm_length file_metadata) (fm_content_type file_metadata) ;;
         mret ()
     end) ;;
  db_map_err (λ _, unexpected)
    (EventsService_create_event (utc_now fin) (ue_id user) (EventPut (fm_hash file_metadata)) entry_path) ;;
  let user := with_used_bytes user (u64_saturating_add_signed (ue_used_bytes user) (pw_bytes_delta prepared)) in
  db_map_err (λ _, unexpected) (UserRepository_update user) ;;
  mret ().

(** Which side of publication a finalization failed on. *)
Inductive WriteFailure :=
| BeforePublication (e : OpendalError)
| AfterPublication (e : OpendalError).

Definition write_in_transaction (writer : BlobWriter) (entry_path : EntryPath) (file_metadata : FileMetadata)
    : FM WriteFailure BlobMetadata :=
  prepared ← fm_map_err BeforePublication (db (prepare_write entry_path file_metadata));
  generation ← fm_map_err BeforePublication (generation_under_lock entry_path);
  backend_metadata ← fm_map_err AfterPublication (blob (writer_close generation writer));
  fm_map_err AfterPublication (db (apply_write_effects prepared entry_path file_metadata)) ;;
  mret backend_metadata.

(** [notify_event] is a wake-up hint sent from another task and is left out. *)
Definition finalize_write (writer : BlobWriter) (entry_path : EntryPath) (file_metadata : FileMetadata)
    : FM WriteFailure BlobMetadata :=
  tx ← fm_map_err (λ _, BeforePublication unexpected) (db begin);
  r ← fm_try (write_in_transaction writer entry_path file_metadata);
  match r with
  | Ok metadata =>
      fm_map_err (λ _, AfterPublication unexpected) (db (commit tx)) ;;
      mret metadata
  | Err failure =>
      _ ← fm_try (db (rollback tx)) : FM WriteFailure (result SqlError ());
      fm_throw failure
  end.

(** [WriteFinalizationWriter::close] on its finalization task. *)
Definition writer_finalize (writer : BlobWriter) (entry_path : EntryPath) (file_metadata : FileMetadata)
    : FM OpendalError BlobMetadata :=
  r ← fm_try (finalize_write writer entry_path file_metadata);
  match r with
  | Ok metadata => mret metadata
  | Err (BeforePublication e) =>
      _ ← fm_try (blob (writer_abort writer)) : FM OpendalError (result OpendalError ());
      fm_throw e
  | Err (AfterPublication e) => fm_throw e
  end.

(** * Deletes ([delete.rs]) *)

Inductive DeleteOutcome := Deleted | NotFound.

Record StagedDelete := mk_StagedDelete {
  sd_user : UserEntity;
  sd_deleted_entry : EntryEntity
}.

Definition stage_delete (entry_path : EntryPath) : DB OpendalError (option StagedDelete) :=
  r ← try_db (UserRepository_get_for_no_key_update (ep_pubkey entry_path));
  match r with
  | Err RowNotFound => mret None
  | Err _ => throw unexpected
  | Ok user =>
      write_lock_hold entry_path ;;
      r ← try_db (EntryRepository_get_by_path entry_path);
      match r with
      | Err RowNotFound => mret None
      | Err _ => throw unexpected
      | Ok deleted_entry =>
          db_map_err (λ _, unexpected) (EntryRepository_delete (ee_id deleted_entry)) ;;
          mret (Some (mk_StagedDelete user deleted_entry))
      end
  end.

Definition apply_delete_effects (staged : StagedDelete) (entry_path : EntryPath) : DB OpendalError () :=
  let user := sd_user staged in
  db_map_err (λ _, unexpected)
    (EventsService_create_event (utc_now fin) (ue_id user) EventDelete entry_path) ;;
  let bytes_delta := u64_saturating_add (ee_content_length (sd_deleted_entry staged)) FILE_METADATA_SIZE in
  let user := with_used_bytes user (u64_saturating_sub (ue_used_bytes user) bytes_delta) in
  db_map_err (λ _, unexpected) (UserRepository_update user) ;;
  mret ().

Definition delete_in_transaction (entry_path : EntryPath) : DB OpendalError DeleteOutcome :=
  staged ← stage_delete entry_path;
  match staged with
  | None => mret NotFound
  | Some staged => apply_delete_effects staged entry_path ;; mret Deleted
  end.

Definition finalize_delete (entry_path : EntryPath) : DB OpendalError DeleteOutcome :=
  tx ← db_map_err (λ _, unexpected) begin;
  r ← try_db (delete_in_transaction entry_path);
  match r with
  | Ok Deleted => db_map_err (λ _, unexpected) (commit tx) ;; mret Deleted
  | Ok NotFound => db_map_err (λ _, unexpected) (rollback tx) ;; mret NotFound
  | Err error =>
      _ ← try_db (rollback tx) : DB OpendalError (result SqlError ());
      throw error
  end.

(** A refusal on the generation is done with: the blob is left. *)
Definition remove_blob_under_its_generation (entry_path : EntryPath) : FM OpendalError () :=
  generation ← generation_under_lock entry_path;
  if decide (generation = Some GenAbsent) then mret ()
  else
    removed ← fm_try (blob (backend_delete generation (ep_key entry_path)));
    match removed with
    | Err e => if decide (LayerDomainError_of e = Some PublishConflict) then mret () else fm_throw e
    | Ok _ => mret ()
    end.

Definition remove_blob_in_transaction (entry_path : EntryPath) : FM OpendalError () :=
  r ← fm_try (db (UserRepository_get_for_no_key_update (ep_pubkey entry_path)));
  match r with
  | Ok _ | Err RowNotFound =>
      r ← fm_try (db (EntryRepository_get_by_path entry_path));
      match r with
      | Ok _ => mret ()
      | Err RowNotFound => remove_blob_under_its_generation entry_path
      | Err _ => fm_throw unexpected
      end
  | Err _ => fm_throw unexpected
  end.

Definition remove_blob_if_unreferenced (entry_path : EntryPath) : FM OpendalError () :=
  tx ← fm_map_err (λ _, unexpected) (db begin);
  r ← fm_try (remove_blob_in_transaction entry_path);
  _ ← fm_try (db (rollback tx)) : FM OpendalError (result SqlError ());
  match r with Ok _ => mret () | Err e => fm_throw e end.

Definition finalize_and_remove_blob (entry_path : EntryPath) : FM OpendalError DeleteOutcome :=
  outcome ← db (finalize_delete entry_path);
  remove_blob_if_unreferenced entry_path ;;
  mret outcome.

(** [process_delete_queue]: what failed stays queued, the first error is
    reported. *)
Record DeleteQueueOutcome := mk_DeleteQueueOutcome {
  should_notify : bool;
  first_error : option OpendalError
}.

Definition process_one (acc : DeleteQueueOutcome * list EntryPath) (pending : EntryPath)
    : FM OpendalError (DeleteQueueOutcome * list EntryPath) :=
  let '(outcome, failed) := acc in
  r ← fm_try (finalize_and_remove_blob pending);
  mret match r with
       | Ok Deleted => (mk_DeleteQueueOutcome true (first_error outcome), failed)
       | Ok NotFound => (outcome, failed)
       | Err e =>
           (mk_DeleteQueueOutcome (should_notify outcome)
              (match first_error outcome with Some e0 => Some e0 | None => Some e end),
            failed ++ [pending])
       end.

Fixpoint process_queue (acc : DeleteQueueOutcome * list EntryPath) (queue : list EntryPath)
    : FM OpendalError (DeleteQueueOutcome * list EntryPath) :=
  match queue with
  | [] => mret acc
  | pending :: queue => acc ← process_one acc pending; process_queue acc queue
  end.

(** [QueuedDeletes::close]: the error, and the queue that is left. *)
Definition queued_deletes_close (queue : list EntryPath)
    : FM OpendalError (option OpendalError * list EntryPath) :=
  '(outcome, failed) ← process_queue (mk_DeleteQueueOutcome false None, []) queue;
  mret (first_error outcome, failed).

End WithFinalizer.
End Finalization.

(** * A concrete store *)

(** A store that keeps the set of published keys. *)
Definition demo_backend : Backend := {|
  BackendState := list str;
  BlobWriter := str;
  BlobMetadata := ();
  open_writer := λ path st, (Ok path, st);
  writer_write := λ _ _ st, (Ok (), st);
  backend_exists := λ path st, (Ok (bool_decide (path ∈ st)), st);
  backend_stat := λ path st,
    (if bool_decide (path ∈ st) then Ok None else Err (mk_OpendalError KNotFound None), st);
  writer_close := λ _ path st, (Ok (), path :: st);
  writer_abort := λ _ st, (Ok (), st);
  backend_delete := λ _ path st, (Ok (), filter (λ p, p ≠ path) st)
|}.
