(* ===== verification/Accounting.v ===== *)
(** What write finalization guarantees: the storage invariant (unique entries,
    exact quota accounting, no file that is also a folder, an ordered event
    log), its preservation by every write and delete under every schedule of
    faults, the limits, and the locks. *)

From stdpp Require Import relations gmap.
From S2P Require Import Prelude StoragePath HttpError Keys Quota Database Users Entries EntryLocks Events.
From S2P Require Import Finalization.

(** * The storage invariant *)

(** The bytes charged to a user: content and metadata of every entry. *)
Definition charge (e : EntryRow) : Z := e_content_length e + FILE_METADATA_SIZE.
Definition usage (uid : Z) (es : list EntryRow) : Z :=
  foldr (λ e n, (if e_user e =? uid then charge e else 0) + n) 0 es.

Definition entry_key (e : EntryRow) : Z * str := (e_user e, e_path e).

(** The [entries] table: unique ids, one row per user and path, existing users,
    canonical paths, 32-byte hashes, lengths of an [i64]. *)
Definition entries_wf (tb : Tables) : Prop :=
  NoDup (map e_id (entries tb)) ∧ NoDup (map entry_key (entries tb)) ∧
  Forall (λ e, e_user e ∈ map u_id (users tb) ∧ StoragePath_wf (mk_StoragePath (e_path e)) ∧
               length (e_content_hash e) = 32%nat ∧ 0 ≤ e_content_length e ≤ I64_MAX) (entries tb).

(** Quota accounting is exact. *)
Definition accounted (tb : Tables) : Prop :=
  Forall (λ u, u_used_bytes u = usage (u_id u) (entries tb)) (users tb).

(** Identifiers in use lie below their sequence. *)
Definition seqs_wf (tb : Tables) (sq : Seqs) : Prop :=
  Forall (λ e, e_id e < seq_entries sq) (entries tb) ∧
  Forall (λ v, v_id v < seq_events sq) (events tb) ∧ 1 ≤ seq_events sq ∧
  Forall (λ i, i < seq_users sq) (map u_id (users tb)).

Definition seqs_le (s s' : Seqs) : Prop :=
  seq_users s ≤ seq_users s' ∧ seq_entries s ≤ seq_entries s' ∧ seq_events s ≤ seq_events s'.

#[export] Instance seqs_le_preorder : PreOrder seqs_le.
Proof. split; [intros s; repeat split; lia|]. intros a b c (?&?&?) (?&?&?). repeat split; lia. Qed.

Section Invariant.
Context `{PkarrKeysLaws}.

Definition storage_wf (tb : Tables) (sq : Seqs) : Prop :=
  users_wf tb ∧ entries_wf tb ∧ events_wf tb ∧ accounted tb ∧ seqs_wf tb sq.

Lemma storage_wf_mono tb sq sq' : storage_wf tb sq → seqs_le sq sq' → storage_wf tb sq'.
Proof.
  intros (?&?&?&?& He & Hv & Hs & Hus) (Hlu & Hle & Hlv). split_and!; try done. split_and!; [..|lia|].
  - eapply Forall_impl; [exact He|]. cbn. lia.
  - eapply Forall_impl; [exact Hv|]. cbn. lia.
  - eapply Forall_impl; [exact Hus|]. cbn. lia.
Qed.

End Invariant.

(** ** Sums *)

Lemma usage_app uid a b : usage uid (a ++ b) = usage uid a + usage uid b.
Proof. unfold usage. induction a as [|e a IH]; cbn; [done|]. rewrite IH. lia. Qed.

Lemma usage_nonneg uid es : Forall (λ e, 0 ≤ e_content_length e) es → 0 ≤ usage uid es.
Proof.
  unfold usage, charge, FILE_METADATA_SIZE. induction 1 as [|e es He _ IH]; cbn; [done|].
  destruct (e_user e =? uid); lia.
Qed.

Lemma usage_no_id uid es i f :
  i ∉ map e_id es → usage uid (map (λ x, if e_id x =? i then f x else x) es) = usage uid es.
Proof.
  unfold usage. induction es as [|x es IH]; cbn; [done|]. intros [Hx Hn]%not_elem_of_cons.
  destruct (Z.eqb_spec (e_id x) i); [congruence|]. by rewrite IH.
Qed.

(** Replacing one row changes the sum by the difference of the charges. *)
Lemma usage_update uid es e f :
  NoDup (map e_id es) → e ∈ es → (∀ x, e_user (f x) = e_user x) →
  usage uid (map (λ x, if e_id x =? e_id e then f x else x) es)
  = usage uid es + (if e_user e =? uid then charge (f e) - charge e else 0).
Proof.
  intros HN He Hf. induction es as [|x es IH]; [by apply elem_of_nil in He|].
  cbn [map] in HN. apply NoDup_cons in HN as [Hx HN]. apply elem_of_cons in He as [<-|He].
  - cbn [map]. rewrite Z.eqb_refl. unfold usage in *. cbn [foldr].
    pose proof (usage_no_id uid es (e_id e) f Hx) as Hu. unfold usage in Hu. rewrite Hu, Hf.
    destruct (e_user e =? uid); lia.
  - cbn [map]. destruct (Z.eqb_spec (e_id x) (e_id e)) as [E|E].
    { exfalso. apply Hx. rewrite E. by apply list_elem_of_fmap_2. }
    unfold usage in *. cbn [foldr]. rewrite IH by done. lia.
Qed.

Lemma usage_remove uid es e :
  NoDup (map e_id es) → e ∈ es →
  usage uid (filter (λ x, e_id x ≠ e_id e) es)
  = usage uid es - (if e_user e =? uid then charge e else 0).
Proof.
  intros HN He. induction es as [|x es IH]; [by apply elem_of_nil in He|].
  cbn [map] in HN. apply NoDup_cons in HN as [Hx HN]. rewrite filter_cons.
  apply elem_of_cons in He as [<-|He].
  - rewrite decide_False by (intros Hn; by apply Hn).
    assert (filter (λ x, e_id x ≠ e_id e) es = es) as ->.
    { apply filter_all, Forall_forall. intros y Hy E. apply Hx. rewrite <-E. by apply list_elem_of_fmap_2. }
    unfold usage. cbn [foldr]. destruct (e_user e =? uid); lia.
  - rewrite decide_True.
    2: { intros E. apply Hx. rewrite E. by apply list_elem_of_fmap_2. }
    unfold usage in *. cbn [foldr]. rewrite IH by done. lia.
Qed.

(** * Monotone sequences *)

(** Whatever happens to a computation, the sequences only grow. *)
Definition mono {E A} (m : DB E A) : Prop := ∀ w r w', m w = (r, w') → seqs_le (seqs w) (seqs w').

Create HintDb mono.

Lemma mono_ret {E A} (a : A) : mono (mret a : DB E A).
Proof. intros w r w' [= _ <-]. reflexivity. Qed.
Lemma mono_throw {E A} (e : E) : mono (throw e : DB E A).
Proof. intros w r w' [= _ <-]. reflexivity. Qed.
Lemma mono_lift {E A} (x : result E A) : mono (lift_result x).
Proof. intros w r w' [= _ <-]. reflexivity. Qed.
Lemma mono_bind {E A B} (m : DB E A) (k : A → DB E B) : mono m → (∀ a, mono (k a)) → mono (m ≫= k).
Proof.
  intros Hm Hk w r w'. cbv [mbind db_bind]. destruct (m w) as [[a|e] w1] eqn:Em.
  - intros Hr. etransitivity; [by eapply Hm|by eapply Hk].
  - intros [= _ <-]. by eapply Hm.
Qed.
Lemma mono_map_err {E F A} (f : E → F) (m : DB E A) : mono m → mono (db_map_err f m).
Proof. intros Hm w r w'. unfold db_map_err. destruct (m w) eqn:Em. intros [= _ <-]. by eapply Hm. Qed.
Lemma mono_try {E F A} (m : DB E A) : mono m → mono (try_db m : DB F (result E A)).
Proof. intros Hm w r w'. unfold try_db. destruct (m w) eqn:Em. intros [= _ <-]. by eapply Hm. Qed.
Lemma mono_select {A} (f : Z → Tables → result SqlError A) : mono (select f).
Proof. intros w r w' [(_ & -> & _) _]%select_inv. reflexivity. Qed.
Lemma mono_exec {A} (f : Stmt A) :
  (∀ n t tb sq r tb' sq', f n t tb sq = (r, tb', sq') → seqs_le sq sq') → mono (exec f).
Proof.
  intros Hf w r w' (_ & _ & [(_ & _ & ->)|(r0 & He & _)])%exec_inv; [reflexivity|]. by eapply Hf.
Qed.
Lemma mono_begin : mono begin.
Proof. intros w r w' (_ & -> & _)%begin_inv. reflexivity. Qed.
Lemma mono_commit s : mono (commit s).
Proof. intros w r w' (-> & _)%commit_inv. reflexivity. Qed.
Lemma mono_rollback s : mono (rollback s).
Proof. intros w r w' (-> & _)%rollback_inv. reflexivity. Qed.
Lemma mono_in_transaction {E A} (of_sql : SqlError → E) (body : DB E A) : mono body → mono (in_transaction of_sql body).
Proof.
  intros Hb. unfold in_transaction. apply mono_bind; [apply mono_map_err, mono_begin|]. intros s.
  apply mono_bind; [by apply mono_try|]. intros [a|e]; (apply mono_bind; [|intros; auto using mono_ret, mono_throw]).
  - apply mono_map_err, mono_commit.
  - intros w r w' [= _ <-]. reflexivity.
Qed.

#[export] Hint Resolve mono_ret mono_throw mono_lift mono_bind mono_map_err mono_try mono_select
  mono_begin mono_commit mono_rollback mono_in_transaction : mono.

Section Mono.
Context `{PkarrKeys, JsonStrings}.

Lemma mono_update_user id f : mono (update_user_row id f).
Proof. apply mono_exec. intros n t tb sq r tb' sq' E. injection E as _ _ <-. reflexivity. Qed.
Lemma mono_entry_create u p h l t : mono (EntryRepository_create u p h l t).
Proof.
  apply mono_exec. intros n tx tb sq r tb' sq' E.
  destruct (existsb _ (entries tb)); [|destruct (negb _)]; injection E as _ _ <-; repeat split; cbn; lia.
Qed.
Lemma mono_entry_update e : mono (EntryRepository_update e).
Proof. apply mono_exec. intros n t tb sq r tb' sq' E. injection E as _ _ <-. reflexivity. Qed.
Lemma mono_entry_delete i : mono (EntryRepository_delete i).
Proof. apply mono_exec. intros n t tb sq r tb' sq' E. injection E as _ _ <-. reflexivity. Qed.
Lemma mono_event_create n u t p : mono (EventsService_create_event n u t p).
Proof.
  unfold EventsService_create_event, EventRepository_create. apply mono_bind; [apply mono_select|]. intros _.
  apply mono_bind; [|intros; apply mono_ret]. apply mono_exec. intros n' tx tb sq r tb' sq' E.
  destruct (negb _); injection E as _ _ <-; repeat split; cbn; lia.
Qed.
End Mono.

#[export] Hint Resolve mono_update_user mono_entry_create mono_entry_update mono_entry_delete
  mono_event_create : mono.

(** * What the statements of a finalization see and do *)

Section Statements.
Context `{PkarrKeysLaws, JsonStrings}.

(** The entity decoded from a row of the user with key [k]. *)
Definition entry_entity (path : EntryPath) (e : EntryRow) : EntryEntity :=
  mk_EntryEntity (e_id e) (e_user e) path (e_content_hash e) (e_content_length e) (e_content_type e)
    (e_modified_at e) (e_created_at e).

(** The row of a user's path. *)
Definition entry_at (tb : Tables) (u : UserRow) (path : StoragePath) (e : EntryRow) : Prop :=
  e ∈ entries tb ∧ e_user e = u_id u ∧ e_path e = as_str path.

Lemma elem_of_entries_of_key k tb u e v :
  users_wf tb → user_row k tb = Some u →
  (e, v) ∈ entries_of_key k tb ↔ e ∈ entries tb ∧ e_user e = u_id u ∧ v = u.
Proof.
  intros (Hid & Hpk & _) (Hu & Hk)%user_row_Some. unfold entries_of_key.
  rewrite list_elem_of_filter, list_elem_of_omap. cbn. split.
  - intros (Hkey & e' & He' & Hf). destruct (list_find _ _) as [[i v']|] eqn:El; [|done].
    injection Hf as -> ->. apply list_find_Some in El as (Hi & Hv & _). apply list_elem_of_lookup_2 in Hi.
    assert (v = u) as -> by (apply (NoDup_map_inj u_public_key _ _ _ Hpk); congruence). done.
  - intros (He & Huser & ->). split; [done|]. exists e. split; [done|].
    destruct (list_find_elem_of (λ v, u_id v = e_user e) (users tb) u Hu ltac:(done)) as [[i v] Hf].
    rewrite Hf. cbn. apply list_find_Some in Hf as (Hi & Hv & _). apply list_elem_of_lookup_2 in Hi.
    by rewrite (NoDup_map_inj u_id _ v u Hid) by congruence.
Qed.

Lemma entries_of_key_unknown k tb : user_row k tb = None → entries_of_key k tb = [].
Proof.
  intros Hn. apply elem_of_nil_inv. intros [e v]. unfold entries_of_key.
  rewrite list_elem_of_filter, list_elem_of_omap. cbn. intros (Hk & e' & _ & Hf).
  destruct (list_find _ _) as [[i v']|] eqn:El; [|done]. injection Hf as _ ->.
  apply list_find_Some in El as (Hi & _). apply list_elem_of_lookup_2 in Hi.
  by apply (user_row_None k tb v).
Qed.

Lemma EntryEntity_decodes path tb u e :
  users_wf tb → entries_wf tb → EntryPath_wf path → user_row (ep_pubkey path) tb = Some u →
  entry_at tb u (ep_path path) e →
  EntryEntity_from_row (e, u) = Ok (entry_entity path e).
Proof.
  intros _ (_ & _ & Hwf) [Hp Hpath] (_ & Hk)%user_row_Some (He & _ & Hep).
  rewrite Forall_forall in Hwf. destruct (Hwf e He) as (_ & Hpw & Hh & Hl).
  unfold EntryEntity_from_row. rewrite Hk, (proj2 (PublicKey_parse_forms _)). cbn [map_err mbind result_bind].
  unfold StoragePath_wf in Hpw. cbn in Hpw. unfold StoragePath_new. rewrite Hpw. cbn [map_err mbind result_bind].
  rewrite Hh. cbn. unfold entry_entity. do 2 f_equal.
  - rewrite Hep. rewrite Hpath at 3. f_equal. by destruct (ep_path path).
  - unfold as_u64, I64_MAX in *. by rewrite Z.mod_small by lia.
Qed.

Lemma get_by_path_inv path w r w' :
  users_wf (tables w) → entries_wf (tables w) → EntryPath_wf path →
  EntryRepository_get_by_path path w = (r, w') →
  same_data w w' ∧
  (r = Err SqlIo ∨
   match user_row (ep_pubkey path) (tables w) with
   | Some u =>
       (∃ e, entry_at (tables w) u (ep_path path) e ∧ r = Ok (entry_entity path e)) ∨
       (r = Err RowNotFound ∧ ∀ e, ¬ entry_at (tables w) u (ep_path path) e)
   | None => r = Err RowNotFound
   end).
Proof.
  intros Hu He Hp [Hs Hr]%select_inv. split; [done|]. destruct Hr as [->| ->]; [by left|right].
  destruct (user_row (ep_pubkey path) (tables w)) as [u|] eqn:Eu.
  2: { rewrite entries_of_key_unknown by done. done. }
  destruct (filter _ (entries_of_key _ _)) as [|[e v] rest] eqn:Ef.
  - right. split; [done|]. intros e (Hin & Hus & Hep).
    assert ((e, u) ∈ filter (λ eu : EntryRow * UserRow, e_path eu.1 = as_str (ep_path path))
              (entries_of_key (ep_pubkey path) (tables w))) as Hfil.
    { apply list_elem_of_filter. split; [done|]. by apply (elem_of_entries_of_key _ _ u). }
    rewrite Ef in Hfil. by apply elem_of_nil in Hfil.
  - left. assert ((e, v) ∈ (e, v) :: rest) as Hin by left. rewrite <-Ef in Hin.
    apply list_elem_of_filter in Hin as [Hep Hin]. cbn in Hep.
    apply (elem_of_entries_of_key _ _ u) in Hin as (Hin & Hus & ->); [|done..].
    exists e. split; [done|]. cbn. by eapply EntryEntity_decodes.
Qed.

(** ** Locks *)

Lemma hold_inv path token w r w' :
  EntryLockRepository_hold path token w = (r, w') →
  same_data w w' ∧
  (r = Err SqlIo ∨
   ∃ b, r = Ok b ∧
     (b = true ↔ ∃ l, l ∈ entry_locks (tables w) ∧ l_path l = ep_key path ∧ l_token l = token ∧
                      clock w' < l_expires_at l)).
Proof.
  intros [Hs Hr]%select_inv. split; [done|]. destruct Hr as [->| ->]; [by left|right].
  eexists. split; [done|]. rewrite bool_decide_eq_true. unfold lock_live. split.
  - destruct (filter _ _) as [|l ls] eqn:Ef; [done|]. intros _.
    assert (l ∈ l :: ls) as Hl by left. rewrite <-Ef in Hl.
    apply list_elem_of_filter in Hl as ((? & ? & ?%Z.ltb_lt) & ?). eauto.
  - intros (l & Hl & Hp & Ht & Hlive) Hnil.
    assert (l ∈ filter (λ l, l_path l = ep_key path ∧ l_token l = token ∧ (clock w' <? l_expires_at l) = true)
              (entry_locks (tables w))) as Hin.
    { apply list_elem_of_filter. split; [|done]. split_and!; [done..|]. by apply Z.ltb_lt. }
    rewrite Hnil in Hin. by apply elem_of_nil in Hin.
Qed.

(** The finalization runs under no lock, or under one that is live now. *)
Definition lock_held (fin : Finalizer) (path : EntryPath) (w : World) : Prop :=
  match current_token fin with
  | None => True
  | Some token => ∃ l, l ∈ entry_locks (tables w) ∧ l_path l = ep_key path ∧ l_token l = token ∧
                       clock w < l_expires_at l
  end.

Lemma write_lock_hold_inv fin path w r w' :
  write_lock_hold fin path w = (r, w') →
  same_data w w' ∧
  match r with
  | Ok _ => lock_held fin path w'
  | Err e => e = unexpected ∨
             e = lock_lost_error ∧
             ∃ token, current_token fin = Some token ∧
               ∀ l, l ∈ entry_locks (tables w) → l_path l = ep_key path → l_token l = token →
                    l_expires_at l ≤ clock w'
  end.
Proof.
  unfold write_lock_hold, lock_held. destruct (current_token fin) as [token|].
  2: { intros [= <- <-]. split; [reflexivity|done]. }
  cbv [mbind db_bind db_map_err]. intros Hr.
  destruct (EntryLockRepository_hold path token w) as [r1 w1] eqn:E. apply hold_inv in E as [Hs Hr1].
  destruct Hr1 as [->|(b & -> & Hb)]; cbn [map_err] in Hr.
  { injection Hr as <- <-. split; [done|by left]. }
  destruct b; injection Hr as <- <-; (split; [done|]).
  - destruct Hs as (-> & _). by apply Hb.
  - right. split; [done|]. exists token. split; [done|]. intros l Hl Hp Ht. apply Z.nlt_ge. intros Hlt.
    assert (false = true) by (apply Hb; eauto). done.
Qed.

End Statements.

(** ** Preparing a write *)

Section Prepare.
Context `{PkarrKeysLaws, JsonStrings}.

Lemma entries_wf_paths tb : entries_wf tb → entry_paths_wf tb.
Proof.
  intros (_ & _ & Hwf). unfold entry_paths_wf. eapply Forall_impl; [exact Hwf|]. by intros e (_ & ? & _).
Qed.

Lemma check_no_path_collision_inv path w r w' :
  entries_wf (tables w) → EntryPath_wf path → check_no_path_collision path w = (r, w') →
  same_data w w' ∧
  match r with
  | Ok _ => ¬ user_collision (tables w) (ep_pubkey path) (ep_path path)
  | Err e => e = unexpected ∨
             e = path_collision_error ∧ user_collision (tables w) (ep_pubkey path) (ep_path path)
  end.
Proof.
  intros He [Hp _]. unfold check_no_path_collision. cbv [mbind db_bind db_map_err]. intros Hr.
  destruct (EntryRepository_has_file_folder_collision path w) as [r1 w1] eqn:E.
  apply collision_inv in E as [Hs Hr1]; [|done|by apply entries_wf_paths].
  destruct Hr1 as [->|(b & -> & Hb)]; cbn [map_err] in Hr.
  { injection Hr as <- <-. split; [done|by left]. }
  destruct b; injection Hr as <- <-; (split; [done|]).
  - right. split; [done|]. by apply Hb.
  - intros Hc%Hb. done.
Qed.

(** What the entry found says about the path. *)
Definition existing_matches (tb : Tables) (u : UserRow) (path : EntryPath) (o : option EntryEntity) : Prop :=
  match o with
  | Some ee => ∃ e, entry_at tb u (ep_path path) e ∧ ee = entry_entity path e
  | None => ∀ e, ¬ entry_at tb u (ep_path path) e
  end.

Definition prepare_post (fin : Finalizer) (path : EntryPath) (m : FileMetadata) (w : World)
    (r : result OpendalError PreparedWrite) : Prop :=
  match r with
  | Ok prepared =>
      ∃ u existing,
        user_row (ep_pubkey path) (tables w) = Some u ∧
        (∃ w1, same_data w w1 ∧ lock_held fin path w1) ∧
        (collision_policy fin = Enforce → ¬ user_collision (tables w) (ep_pubkey path) (ep_path path)) ∧
        existing_matches (tables w) u path existing ∧
        PreparedWrite_new (entity_of (ep_pubkey path) u) existing m (default_storage_mb fin) = Ok prepared
  | Err e =>
      e = unexpected ∨ e = lock_lost_error ∧ (∃ w1, same_data w w1 ∧ ¬ lock_held fin path w1) ∨
      e = path_collision_error ∧ collision_policy fin = Enforce ∧
        user_collision (tables w) (ep_pubkey path) (ep_path path) ∨
      e = quota_exceeded_error ∧
        ∃ u existing, user_row (ep_pubkey path) (tables w) = Some u ∧
          existing_matches (tables w) u path existing ∧
          PreparedWrite_new (entity_of (ep_pubkey path) u) existing m (default_storage_mb fin)
          = Err quota_exceeded_error
  end.

Lemma prepare_write_inv fin path m w r w' :
  users_wf (tables w) → entries_wf (tables w) → EntryPath_wf path →
  prepare_write fin path m w = (r, w') → same_data w w' ∧ prepare_post fin path m w r.
Proof.
  intros Hu He Hp Hr. unfold prepare_write in Hr. cbv [mbind db_bind] in Hr. unfold db_map_err at 1 in Hr.
  destruct (UserRepository_get_for_no_key_update (ep_pubkey path) w) as [r1 w1] eqn:E.
  apply get_user_inv in E as [Hs1 Hr1].
  destruct Hr1 as [->| ->]; [injection Hr as <- <-; split; [done|by left]|].
  destruct (user_row (ep_pubkey path) (tables w)) as [u|] eqn:Eu; cbn [map_err] in Hr;
    [|injection Hr as <- <-; split; [done|by left]].
  pose proof Hs1 as (Ht1 & _).
  destruct (write_lock_hold fin path w1) as [r2 w2] eqn:E. apply write_lock_hold_inv in E as [Hs2 Hr2].
  destruct r2 as [[]|e].
  2: { injection Hr as <- <-. assert (same_data w w2) as Hw2 by by transitivity w1.
       split; [done|]. unfold prepare_post. destruct Hr2 as [->|(-> & token & Htok & Hexp)]; [by left|]. right; left. split; [done|].
       exists w2. split; [done|]. unfold lock_held. rewrite Htok. intros (l & Hl & Hlp & Hlt & Hlx).
       destruct Hs2 as (Ht2 & _). rewrite Ht2 in Hl. specialize (Hexp l Hl Hlp Hlt). lia. }
  assert (same_data w w2) as Hw2 by by transitivity w1. pose proof Hw2 as (Ht2 & _).
  destruct ((if enforces_collisions (collision_policy fin) then check_no_path_collision path else mret ()) w2)
    as [r3 w3] eqn:E3.
  assert (same_data w2 w3 ∧
    match r3 with
    | Ok _ => collision_policy fin = Enforce → ¬ user_collision (tables w) (ep_pubkey path) (ep_path path)
    | Err e => e = unexpected ∨
               e = path_collision_error ∧ collision_policy fin = Enforce ∧
               user_collision (tables w) (ep_pubkey path) (ep_path path)
    end) as [Hs3 Hr3].
  { rewrite <-Ht2 in He. destruct (collision_policy fin) eqn:Ec; cbn [enforces_collisions] in E3.
    - apply check_no_path_collision_inv in E3 as [? Hc]; [|done..]. rewrite Ht2 in Hc.
      split; [done|]. destruct r3 as [|e]; [auto|]. destruct Hc as [->|[-> ?]]; auto.
    - injection E3 as <- <-. split; [reflexivity|done]. }
  assert (same_data w w3) as Hw3 by by transitivity w2. pose proof Hw3 as (Ht3 & _).
  destruct r3 as [[]|e].
  2: { injection Hr as <- <-. split; [done|]. unfold prepare_post. destruct Hr3 as [->|[-> ?]]; auto. }
  unfold try_db in Hr. destruct (EntryRepository_get_by_path path w3) as [r4 w4] eqn:E4.
  rewrite <-Ht3 in Hu, He. apply get_by_path_inv in E4 as [Hs4 Hr4]; [|done..]. rewrite Ht3, Eu in Hr4.
  assert (same_data w w4) as Hw4 by by transitivity w3.
  assert (∀ existing, existing_matches (tables w) u path existing →
    lift_result (PreparedWrite_new (entity_of (ep_pubkey path) u) existing m (default_storage_mb fin)) w4 = (r, w') →
    same_data w w' ∧ prepare_post fin path m w r) as Hfinish; cycle 1.
  { destruct Hr4 as [->|[(e & Hat & ->)|[-> Hno]]].
    - injection Hr as <- <-. split; [done|by left].
    - eapply (Hfinish (Some (entry_entity path e))); [by exists e|exact Hr].
    - eapply (Hfinish None); [exact Hno|exact Hr]. }
  intros existing Hex Hl. injection Hl as <- <-. split; [done|].
  destruct (PreparedWrite_new _ existing m _) as [prepared|e] eqn:Epw.
  - exists u, existing. split_and!; try done. by exists w2.
  - assert (e = quota_exceeded_error) as ->.
    { unfold PreparedWrite_new in Epw. destruct (would_exceed_limit _ _ _); [by injection Epw|done]. }
    right; right; right. split; [done|]. by exists u, existing.
Qed.

End Prepare.

(** * The abstract storage *)

(** What the storage promises its clients: a map from a user's paths to files,
    and a log of what happened to them. *)
Record Storage := mk_Storage {
  st_files : gmap (Z * str) FileMetadata;
  st_log : list (Z * str * EventType)
}.

Definition spec_put (uid : Z) (path : str) (m : FileMetadata) (s : Storage) : Storage :=
  mk_Storage (<[(uid, path) := m]> (st_files s)) (st_log s ++ [(uid, path, EventPut (fm_hash m))]).
Definition spec_delete (uid : Z) (path : str) (s : Storage) : Storage :=
  mk_Storage (delete (uid, path) (st_files s)) (st_log s ++ [(uid, path, EventDelete)]).

(** The storage the tables represent. *)
Definition file_of (e : EntryRow) : FileMetadata :=
  mk_FileMetadata (e_content_hash e) (e_content_length e) (e_content_type e).
Definition files_of (es : list EntryRow) : gmap (Z * str) FileMetadata :=
  list_to_map (map (λ e, (entry_key e, file_of e)) es).
Definition event_type_of (v : EventRow) : EventType :=
  match v_content_hash v with Some h => EventPut h | None => EventDelete end.
Definition log_entry (v : EventRow) : Z * str * EventType := (v_user v, v_path v, event_type_of v).
Definition storage_of (tb : Tables) : Storage :=
  mk_Storage (files_of (entries tb)) (map log_entry (events tb)).

Lemma files_of_lookup es k f :
  NoDup (map entry_key es) →
  files_of es !! k = Some f ↔ ∃ e, e ∈ es ∧ entry_key e = k ∧ file_of e = f.
Proof.
  intros HN. unfold files_of. rewrite <-elem_of_list_to_map.
  - rewrite list_elem_of_fmap. split.
    + intros (e & [= -> ->] & He). eauto.
    + intros (e & He & <- & <-). eauto.
  - by rewrite map_map.
Qed.

(** ** The tables after a write *)

Definition with_used (used : Z) (disabled : bool) (v : UserRow) : UserRow :=
  mk_UserRow (u_id v) (u_public_key v) (u_created_at v) disabled used (u_quota v).

Definition content_row (m : FileMetadata) (now : Z) (e : EntryRow) : EntryRow :=
  mk_EntryRow (e_id e) (e_path e) (e_user e) (fm_hash m) (fm_length m) (fm_content_type m) now
    (e_created_at e).

(** The row at a user's path, if there is one. *)
Definition row_at (es : list EntryRow) (uid : Z) (path : str) (o : option EntryRow) : Prop :=
  match o with
  | Some e => e ∈ es ∧ e_user e = uid ∧ e_path e = path
  | None => ∀ e, e ∈ es → e_user e = uid → e_path e ≠ path
  end.

(** That row with its new content, or a new row. *)
Definition put_row (uid : Z) (path : str) (m : FileMetadata) (existing : option EntryRow) (now id : Z)
    : EntryRow :=
  match existing with
  | Some e => content_row m now e
  | None => mk_EntryRow id path uid (fm_hash m) (fm_length m) (fm_content_type m) now now
  end.

Definition put_rows (uid : Z) (path : str) (m : FileMetadata) (existing : option EntryRow) (now id : Z)
    (es : list EntryRow) : list EntryRow :=
  match existing with
  | Some e => map (λ x, if e_id x =? e_id e then content_row m now x else x) es
  | None => es ++ [put_row uid path m None now id]
  end.

(** What the write adds to the bytes charged to the user. *)
Definition put_delta (m : FileMetadata) (existing : option EntryRow) : Z :=
  match existing with
  | Some e => fm_length m - e_content_length e
  | None => fm_length m + FILE_METADATA_SIZE
  end.

Section PutRows.
Context (es : list EntryRow) (uid : Z) (path : str) (m : FileMetadata) (existing : option EntryRow)
  (now id : Z).
Hypothesis Hids : NoDup (map e_id es).
Hypothesis Hkeys : NoDup (map entry_key es).
Hypothesis Hrow : row_at es uid path existing.

Lemma put_row_key : entry_key (put_row uid path m existing now id) = (uid, path).
Proof. destruct existing as [e|]; [|done]. destruct Hrow as (_ & <- & <-). done. Qed.

Lemma elem_of_put_rows x :
  x ∈ put_rows uid path m existing now id es ↔
  x = put_row uid path m existing now id ∨ x ∈ es ∧ entry_key x ≠ (uid, path).
Proof.
  destruct existing as [e|]; cbn.
  - destruct Hrow as (He & Hu & Hp). rewrite list_elem_of_fmap. split.
    + intros (y & -> & Hy). destruct (Z.eqb_spec (e_id y) (e_id e)) as [E|E].
      * left. f_equal. exact (NoDup_map_inj e_id _ _ _ Hids Hy He E).
      * right. split; [done|]. intros Hk. apply E. f_equal.
        apply (NoDup_map_inj entry_key _ _ _ Hkeys Hy He). rewrite Hk. unfold entry_key. congruence.
    + intros [->|[Hx Hne]].
      * exists e. by rewrite Z.eqb_refl.
      * exists x. destruct (Z.eqb_spec (e_id x) (e_id e)) as [E|E]; [|done]. exfalso. apply Hne.
        rewrite (NoDup_map_inj e_id _ _ _ Hids Hx He E). unfold entry_key. congruence.
  - rewrite elem_of_app, list_elem_of_singleton. split; [|tauto]. intros [Hx|Hx]; [|auto].
    right. split; [done|]. intros [= Hu Hp]. by apply (Hrow x Hx Hu).
Qed.

Lemma put_rows_ids : (∀ e, e ∈ es → e_id e < id) → NoDup (map e_id (put_rows uid path m existing now id es)).
Proof.
  intros Hlt. destruct existing as [e|]; cbn.
  - rewrite map_map. erewrite map_ext; [exact Hids|]. intros x. by destruct (e_id x =? e_id e).
  - rewrite map_app. apply NoDup_app. split_and!; [done| |apply NoDup_singleton].
    intros i (x & -> & Hx)%list_elem_of_fmap Hi%list_elem_of_singleton. cbn in Hi.
    specialize (Hlt x Hx). lia.
Qed.

Lemma put_rows_keys : NoDup (map entry_key (put_rows uid path m existing now id es)).
Proof.
  destruct existing as [e|]; cbn.
  - rewrite map_map. erewrite map_ext; [exact Hkeys|]. intros x. by destruct (e_id x =? e_id e).
  - rewrite map_app. apply NoDup_app. split_and!; [done| |apply NoDup_singleton].
    intros i (x & -> & Hx)%list_elem_of_fmap Hi%list_elem_of_singleton.
    unfold entry_key in Hi. cbn in Hi. injection Hi as Hu Hp. by apply (Hrow x Hx Hu).
Qed.

Lemma usage_put_rows v :
  usage v (put_rows uid path m existing now id es) = usage v es + (if uid =? v then put_delta m existing else 0).
Proof.
  destruct existing as [e|]; cbn [put_rows put_delta].
  - destruct Hrow as (He & <- & _). rewrite (usage_update v es e) by done.
    unfold charge. cbn [content_row e_content_length]. destruct (e_user e =? v); lia.
  - rewrite usage_app. unfold usage at 2, charge. cbn. destruct (uid =? v); lia.
Qed.

Lemma files_of_put_rows :
  files_of (put_rows uid path m existing now id es) = <[(uid, path) := m]> (files_of es).
Proof.
  apply map_eq. intros k. apply option_eq. intros f.
  rewrite files_of_lookup by apply put_rows_keys. rewrite lookup_insert_Some, files_of_lookup by done.
  assert (file_of (put_row uid path m existing now id) = m) as Hf by (by destruct existing, m).
  split.
  - intros (x & [->|[Hx Hne]]%elem_of_put_rows & <- & <-); [left|right].
    + by rewrite put_row_key.
    + split; [done|]. eauto.
  - intros [[<- <-]|[Hne (x & Hx & <- & <-)]].
    + exists (put_row uid path m existing now id). rewrite put_row_key, elem_of_put_rows. auto.
    + exists x. rewrite elem_of_put_rows. auto.
Qed.

End PutRows.

(** ** The tables after a delete *)

Section RemoveRow.
Context (es : list EntryRow) (uid : Z) (path : str) (e : EntryRow).
Hypothesis Hids : NoDup (map e_id es).
Hypothesis Hkeys : NoDup (map entry_key es).
Hypothesis He : e ∈ es.
Hypothesis Hkey : entry_key e = (uid, path).

Lemma files_of_remove : files_of (filter (λ x, e_id x ≠ e_id e) es) = delete (uid, path) (files_of es).
Proof.
  apply map_eq. intros k. apply option_eq. intros f.
  rewrite files_of_lookup by by apply sublist_map_filter_NoDup.
  rewrite lookup_delete_Some, files_of_lookup by done. split.
  - intros (x & [Hne Hx]%list_elem_of_filter & <- & <-). split; [|eauto]. intros Hk. apply Hne. f_equal.
    apply (NoDup_map_inj entry_key _ _ _ Hkeys Hx He). congruence.
  - intros (Hk & x & Hx & <- & <-). exists x. split; [|done]. apply list_elem_of_filter. split; [|done].
    intros E. apply Hk. by rewrite <-Hkey, (NoDup_map_inj e_id _ _ _ Hids Hx He E).
Qed.

End RemoveRow.

(** ** Users and events *)

Section UserUpdate.
Context `{PkarrKeysLaws}.

Definition set_used (k : PublicKey) (u : UserRow) (used : Z) (us : list UserRow) : list UserRow :=
  map (λ v, if decide (u_public_key v = PublicKey_z32 k) then with_used used (u_disabled u) v else v) us.

Lemma set_used_ids k u n us : map u_id (set_used k u n us) = map u_id us.
Proof. unfold set_used. rewrite map_map. apply map_ext. intros v. by case_decide. Qed.

Lemma set_used_keys k u n us : map u_public_key (set_used k u n us) = map u_public_key us.
Proof. unfold set_used. rewrite map_map. apply map_ext. intros v. by case_decide. Qed.

(** The next event. *)
Definition event_row (id : Z) (t : EventType) (uid : Z) (path : str) (now : Z) : EventRow :=
  mk_EventRow id (EventType_as_str t) uid path now (EventType_content_hash t).

Lemma log_entry_event_row id t uid path now : log_entry (event_row id t uid path now) = (uid, path, t).
Proof. by destruct t. Qed.

(** Replacing the entries of one user, charging that user the difference and
    logging one event keeps the storage well-formed. *)
Lemma storage_wf_update tb sq tb' sq' k u delta es t path now vid :
  storage_wf tb sq → user_row k tb = Some u →
  tb' = mk_Tables (set_used k u (u_used_bytes u + delta) (users tb)) es
          (events tb ++ [event_row vid t (u_id u) path now]) (entry_locks tb) (auth tb) →
  StoragePath_wf (mk_StoragePath path) →
  entries_wf (mk_Tables (users tb) es (events tb) (entry_locks tb) (auth tb)) →
  (∀ v, usage v es = usage v (entries tb) + (if u_id u =? v then delta else 0)) →
  u_used_bytes u + delta ≤ I64_MAX →
  vid ≤ I64_MAX → seq_events sq ≤ vid < seq_events sq' →
  Forall (λ e, e_id e < seq_entries sq') es → seq_users sq ≤ seq_users sq' →
  storage_wf tb' sq'.
Proof.
  intros (Hu & _ & Hv & Ha & Hq) Hrow -> Hpath He Hus Hmax Hvid Hseq Hids Hlu.
  apply user_row_Some in Hrow as [Hin Hk]. destruct Hu as (Hui & Huk & Huf), He as (Hei & Hek & Hef).
  assert (∀ v, v ∈ users tb → u_public_key v = PublicKey_z32 k → v = u) as Huniq.
  { intros v Hv' Hvk. apply (NoDup_map_inj u_public_key _ _ _ Huk); congruence. }
  assert (0 ≤ u_used_bytes u + delta) as Hpos.
  { unfold accounted in Ha. rewrite Forall_forall in Ha. rewrite (Ha u Hin).
    specialize (Hus (u_id u)). rewrite Z.eqb_refl in Hus. rewrite <-Hus. apply usage_nonneg.
    eapply Forall_impl; [exact Hef|]. cbn. tauto. }
  unfold storage_wf. split_and!.
  - unfold users_wf. cbn [users]. rewrite set_used_ids, set_used_keys. split_and!; [done..|].
    apply Forall_map. eapply Forall_impl; [exact Huf|]. cbn. intros v [Hvk Hvi].
    case_decide; [|done]. split; [done|]. unfold in_i64, I64_MIN. cbn. lia.
  - unfold entries_wf. cbn [users entries] in *. rewrite set_used_ids. done.
  - destruct Hv as [Hvi Hvf], Hq as (_ & Hql & H1 & _). unfold events_wf. cbn [users events].
    rewrite set_used_ids, map_app. split.
    + apply NoDup_app. split_and!; [done| |apply NoDup_singleton].
      intros i (x & -> & Hx)%list_elem_of_fmap Hi%list_elem_of_singleton. cbn in Hi.
      rewrite Forall_forall in Hql. specialize (Hql x Hx). lia.
    + apply Forall_app. split; [done|]. apply Forall_singleton. cbn. split_and!; [lia..| |done|].
      * by apply list_elem_of_fmap_2.
      * destruct t; auto.
  - unfold accounted in *. cbn [users entries]. apply Forall_map. rewrite Forall_forall in *.
    intros v Hv'. cbn. rewrite Hus. case_decide as Hvk.
    + rewrite (Huniq v Hv' Hvk). cbn. rewrite Z.eqb_refl, (Ha u Hin). done.
    + destruct (Z.eqb_spec (u_id u) (u_id v)) as [E|E]; [|by rewrite (Ha v Hv'), Z.add_0_r].
      destruct Hvk. by rewrite (NoDup_map_inj u_id _ _ _ Hui Hv' Hin (eq_sym E)).
  - destruct Hq as (_ & Hql & H1 & Hqu). unfold seqs_wf. cbn [entries events users]. split_and!; [done| |lia|].
    + apply Forall_app. split; [|by apply Forall_singleton; cbn; lia].
      eapply Forall_impl; [exact Hql|]. cbn. lia.
    + rewrite set_used_ids. eapply Forall_impl; [exact Hqu|]. cbn. lia.
Qed.

End UserUpdate.

(** ** The effects of a write *)

(** The computation fails only with [c]. *)
Definition fails_with {E A} (c : E) (m : DB E A) : Prop := ∀ w e w', m w = (Err e, w') → e = c.

Lemma fails_with_ret {E A} (c : E) (a : A) : fails_with c (mret a).
Proof. by intros w e w'. Qed.
Lemma fails_with_map_err {E F A} (c : F) (m : DB E A) : fails_with c (db_map_err (λ _, c) m).
Proof. intros w e w'. unfold db_map_err. destruct (m w) as [[] ?]; cbn; [done|by intros [= <- _]]. Qed.
Lemma fails_with_bind {E A B} (c : E) (m : DB E A) (k : A → DB E B) :
  fails_with c m → (∀ a, fails_with c (k a)) → fails_with c (m ≫= k).
Proof.
  intros Hm Hk w e w'. cbv [mbind db_bind]. destruct (m w) as [[a|e'] w1] eqn:Em; [apply Hk|].
  intros [= <- _]. by eapply Hm.
Qed.
#[export] Hint Resolve fails_with_ret fails_with_map_err fails_with_bind : mono.

Section Effects.
Context `{PkarrKeysLaws, JsonStrings}.

Lemma create_event_inv now uid t path w v w' :
  EventsService_create_event now uid t path w = (Ok v, w') →
  tables w' = set_events (λ l, l ++ [event_row (seq_events (seqs w)) t uid (as_str (ep_path path)) now])
                (tables w) ∧
  seq_events (seqs w) < seq_events (seqs w') ∧ seq_entries (seqs w') = seq_entries (seqs w) ∧
  tx_time w' = tx_time w.
Proof.
  unfold EventsService_create_event, EventRepository_create.
  intros ([] & w1 & [(Ht & Hs & Hx & _) _]%select_inv & Hr)%db_bind_Ok.
  apply db_bind_Ok in Hr as (i & w2 & Hr & Hm). injection Hm as <- <-.
  apply exec_inv in Hr as (_ & Hx2 & [(? & _)|(r0 & Hr & Hc)]); [done|].
  rewrite Ht, Hs in Hr. destruct (negb _); injection Hr as <- <- <-; [by destruct Hc|].
  split_and!; cbn; [done|lia|done|congruence].
Qed.

Lemma update_user_used_inv k u used w v w' :
  users_wf (tables w) → user_row k (tables w) = Some u → 0 ≤ used ≤ I64_MAX →
  UserRepository_update (with_used_bytes (entity_of k u) used) w = (Ok v, w') →
  tables w' = set_users (set_used k u used) (tables w) ∧ seqs_le (seqs w) (seqs w').
Proof.
  intros Hu Hrow Hn Hr. split; [|by eapply mono_update_user].
  apply (update_user_row_inv k u) in Hr; [|done..].
  destruct Hr as [[? _]|[_ ->]]; [done|]. unfold set_users, set_used, with_used. cbn. f_equal.
  apply map_ext. intros x. case_decide; [|done]. f_equal. unfold as_i64, I64_MAX in *.
  rewrite Z.mod_small by lia. lia.
Qed.

Lemma entry_create_inv uid path m w i w' :
  EntryRepository_create uid path (fm_hash m) (fm_length m) (fm_content_type m) w = (Ok i, w') →
  ∃ now, tables w' = set_entries (put_rows uid (as_str path) m None now (seq_entries (seqs w))) (tables w) ∧
    seq_entries (seqs w) < seq_entries (seqs w') ∧ seq_events (seqs w') = seq_events (seqs w).
Proof.
  intros (_ & _ & [(? & _)|(r0 & Hr & Hc)])%exec_inv; [done|]. exists (default (clock w') (tx_time w)).
  destruct (existsb _ (entries _)); [|destruct (negb _)]; injection Hr as <- <- <-;
    [by destruct Hc|by destruct Hc|]. split_and!; cbn; [done|lia|done].
Qed.

Lemma entry_update_inv path e m uid p w r w' :
  EntryRepository_update (with_content (entry_entity path e) m) w = (Ok r, w') →
  ∃ now, tables w' = set_entries (put_rows uid p m (Some e) now (seq_entries (seqs w))) (tables w) ∧
    seqs w' = seqs w.
Proof.
  intros (_ & _ & [(? & _)|(r0 & Hr & Hc)])%exec_inv; [done|]. exists (default (clock w') (tx_time w)).
  by injection Hr as <- <- <-.
Qed.

(** The tables after a write by [u]. *)
Definition put_tables (k : PublicKey) (u : UserRow) (path : str) (m : FileMetadata)
    (existing : option EntryRow) (now id event_now vid : Z) (tb : Tables) : Tables :=
  mk_Tables (set_used k u (u_used_bytes u + put_delta m existing) (users tb))
    (put_rows (u_id u) path m existing now id (entries tb))
    (events tb ++ [event_row vid (EventPut (fm_hash m)) (u_id u) path event_now])
    (entry_locks tb) (auth tb).

Lemma mono_apply_write_effects fin prepared path m : mono (apply_write_effects fin prepared path m).
Proof.
  unfold apply_write_effects. destruct (pw_existing_entry prepared);
    repeat first [apply mono_ret|apply mono_event_create|apply mono_entry_create|apply mono_entry_update
                 |apply mono_update_user|apply mono_map_err|apply mono_bind; [|intros ?]].
Qed.

Lemma fails_apply_write_effects fin prepared path m :
  fails_with unexpected (apply_write_effects fin prepared path m).
Proof. unfold apply_write_effects. auto 10 with mono. Qed.

Lemma apply_write_effects_inv fin path m k u existing w r w' :
  k = ep_pubkey path →
  users_wf (tables w) → user_row k (tables w) = Some u →
  0 ≤ u_used_bytes u ≤ I64_MAX → 0 ≤ u_used_bytes u + put_delta m existing ≤ I64_MAX →
  apply_write_effects fin
    (mk_PreparedWrite (entity_of k u) (entry_entity path <$> existing) (put_delta m existing)) path m w
  = (Ok r, w') →
  ∃ now, tables w' = put_tables k u (as_str (ep_path path)) m existing now (seq_entries (seqs w))
                       (utc_now fin) (seq_events (seqs w)) (tables w) ∧
    seq_events (seqs w) < seq_events (seqs w') ∧ seqs_le (seqs w) (seqs w') ∧
    (existing = None → seq_entries (seqs w) < seq_entries (seqs w')).
Proof.
  intros -> Hu Hrow Hused Hnew Hr. assert (seqs_le (seqs w) (seqs w')) as Hle.
  { by eapply mono_apply_write_effects. }
  unfold apply_write_effects in Hr. cbn [pw_user pw_existing_entry] in Hr.
  apply db_bind_Ok in Hr as ([] & w1 & Hr1%db_map_err_Ok & Hr).
  apply db_bind_Ok in Hr as (v & w2 & Hr2%db_map_err_Ok & Hr).
  apply db_bind_Ok in Hr as (x & w3 & Hr3%db_map_err_Ok & Hr). injection Hr as _ <-.
  assert (∃ now, tables w1 = set_entries (put_rows (u_id u) (as_str (ep_path path)) m existing now
                   (seq_entries (seqs w))) (tables w) ∧ seq_events (seqs w1) = seq_events (seqs w) ∧
                 (existing = None → seq_entries (seqs w) < seq_entries (seqs w1)))
    as (now & Ht1 & Hs1 & Hn1).
  { destruct existing as [e|]; cbn [fmap option_fmap option_map] in Hr1.
    - apply (entry_update_inv _ _ _ (u_id u) (as_str (ep_path path))) in Hr1 as (now & -> & ->).
      exists now. done.
    - apply db_bind_Ok in Hr1 as (i & w0 & Hr1 & Hm). injection Hm as <-.
      apply entry_create_inv in Hr1 as (now & -> & ? & ?). exists now. done. }
  apply create_event_inv in Hr2 as (Ht2 & Hv2 & He2 & _).
  assert (users (tables w2) = users (tables w)) as Hus by (by rewrite Ht2, Ht1).
  cbn [pw_bytes_delta ue_used_bytes entity_of] in Hr3.
  assert (u64_saturating_add_signed (as_u64 (u_used_bytes u)) (put_delta m existing)
          = u_used_bytes u + put_delta m existing) as Hsat.
  { unfold u64_saturating_add_signed, as_u64, U64_MAX, I64_MAX in *. rewrite Z.mod_small by lia. lia. }
  rewrite Hsat in Hr3. apply update_user_used_inv in Hr3 as [Ht3 Hs3]; [|unfold users_wf; by rewrite Hus
    |unfold user_row; by rewrite Hus|done].
  destruct Hs3 as (_ & ? & ?). exists now. split_and!; [|lia|done|].
  - rewrite Ht3, Ht2, Ht1. unfold put_tables. cbn. rewrite Hs1. done.
  - intros Hn. specialize (Hn1 Hn). lia.
Qed.

End Effects.

(** * Finalizing a write *)

Section FinalizeWrite.
Context `{PkarrKeysLaws, JsonStrings, Backend}.

(** A hash of 32 bytes and a length that PostgreSQL can hold. *)
Definition metadata_ok (m : FileMetadata) : Prop :=
  length (fm_hash m) = 32%nat ∧ 0 ≤ fm_length m ≤ I64_MAX.

(** Counters are not exhausted: 63 bits of event ids and of bytes. *)
Definition headroom (w : World) (path : EntryPath) (m : FileMetadata) : Prop :=
  seq_events (seqs w) ≤ I64_MAX ∧
  ∀ u, user_row (ep_pubkey path) (tables w) = Some u →
       u_used_bytes u + fm_length m + FILE_METADATA_SIZE ≤ I64_MAX.

(** The user's limit in bytes. *)
Definition storage_limit (fin : Finalizer) (k : PublicKey) (u : UserRow) : option Z :=
  resolve_storage_max_bytes (entity_of k u) (default_storage_mb fin).

Definition within (limit : option Z) (n : Z) : Prop :=
  match limit with Some max => n ≤ max | None => True end.

Lemma existing_row tb u path o :
  existing_matches tb u path o →
  ∃ existing, row_at (entries tb) (u_id u) (as_str (ep_path path)) existing ∧ o = entry_entity path <$> existing.
Proof.
  destruct o as [ee|].
  - intros (e & Hat & ->). by exists (Some e).
  - intros Hno. exists None. split; [|done]. intros e He Hu Hp. by apply (Hno e).
Qed.

Section Row.
Context (tb : Tables) (sq : Seqs) (u : UserRow).
Hypothesis Hwf : storage_wf tb sq.
Hypothesis Hu : u ∈ users tb.

Lemma used_bounds : 0 ≤ u_used_bytes u ≤ I64_MAX ∧ u_used_bytes u = usage (u_id u) (entries tb).
Proof.
  destruct Hwf as ((_ & _ & Huf) & (_ & _ & Hef) & _ & Ha & _). unfold accounted in Ha.
  rewrite Forall_forall in Ha, Huf. pose proof (Ha u Hu) as E. destruct (Huf u Hu) as [_ [_ ?]].
  split; [|done]. split; [|done]. rewrite E. apply usage_nonneg. eapply Forall_impl; [exact Hef|].
  cbn. tauto.
Qed.

Lemma row_length existing path e :
  row_at (entries tb) (u_id u) path existing → existing = Some e → 0 ≤ e_content_length e ≤ I64_MAX.
Proof.
  intros Hr ->. destruct Hr as (He & _). destruct Hwf as (_ & (_ & _ & Hef) & _).
  rewrite Forall_forall in Hef. by destruct (Hef e He) as (_ & _ & _ & ?).
Qed.

(** The bytes left after a write are what the entries then add up to. *)
Lemma put_used_bounds existing path m :
  row_at (entries tb) (u_id u) path existing → 0 ≤ fm_length m →
  u_used_bytes u + fm_length m + FILE_METADATA_SIZE ≤ I64_MAX →
  FILE_METADATA_SIZE ≤ u_used_bytes u + put_delta m existing ≤ I64_MAX.
Proof.
  intros Hr Hm Hmax. pose proof used_bounds as [Hb E].
  pose proof (row_length existing path) as Hl. unfold put_delta, FILE_METADATA_SIZE in *.
  destruct existing as [e|]; [|lia]. specialize (Hl e Hr eq_refl). split; [|lia].
  destruct Hwf as (_ & (Hids & _ & Hef) & _). destruct Hr as (He & Heu & _).
  rewrite E. pose proof (usage_remove (u_id u) (entries tb) e Hids He) as Hrm.
  rewrite Heu, Z.eqb_refl in Hrm. unfold charge, FILE_METADATA_SIZE in Hrm.
  assert (0 ≤ usage (u_id u) (filter (λ x, e_id x ≠ e_id e) (entries tb))); [|lia].
  apply usage_nonneg. rewrite Forall_forall in *. intros x [_ Hx]%list_elem_of_filter.
  apply Hef in Hx. tauto.
Qed.

(** The quota test is on exact numbers. *)
Lemma PreparedWrite_new_spec fin k existing path m :
  row_at (entries tb) (u_id u) (as_str (ep_path path)) existing → metadata_ok m →
  u_used_bytes u + fm_length m + FILE_METADATA_SIZE ≤ I64_MAX →
  PreparedWrite_new (entity_of k u) (entry_entity path <$> existing) m (default_storage_mb fin) =
  if would_exceed_limit (u_used_bytes u) (put_delta m existing) (storage_limit fin k u)
  then Err quota_exceeded_error
  else Ok (mk_PreparedWrite (entity_of k u) (entry_entity path <$> existing) (put_delta m existing)).
Proof.
  intros Hr [_ Hm] Hmax. pose proof used_bounds as [Hb _]. pose proof (row_length existing (as_str (ep_path path))) as Hl.
  assert (∀ n, I64_MIN ≤ n ≤ I64_MAX → as_i64 n = n) as Hi.
  { intros n Hn. unfold as_i64, I64_MIN, I64_MAX in *. rewrite Z.mod_small by lia. lia. }
  unfold PreparedWrite_new, storage_limit. cbn [ue_used_bytes entity_of].
  assert (as_u64 (u_used_bytes u) = u_used_bytes u) as ->.
  { unfold as_u64, I64_MAX in *. by rewrite Z.mod_small by lia. }
  assert (as_i64 (as_i64 (as_i64 (fm_length m) -
            as_i64 (match entry_entity path <$> existing with Some e => ee_content_length e | None => 0 end)) +
            match entry_entity path <$> existing with None => as_i64 FILE_METADATA_SIZE | Some _ => 0 end)
          = put_delta m existing) as ->; [|done].
  unfold put_delta, FILE_METADATA_SIZE in *. destruct existing as [e|]; cbn.
  - specialize (Hl e Hr eq_refl).
    rewrite (Hi (fm_length m)), (Hi (e_content_length e)), (Hi (_ - _)), Z.add_0_r, Hi;
      unfold I64_MIN, I64_MAX in *; lia.
  - rewrite (Hi (fm_length m)), (Hi 0), Z.sub_0_r, (Hi (fm_length m)), (Hi 256), Hi;
      unfold I64_MIN, I64_MAX in *; lia.
Qed.

End Row.

Lemma would_exceed_within used delta limit :
  0 < used + delta → would_exceed_limit used delta limit = false ↔ within limit (used + delta).
Proof.
  intros Hpos. unfold would_exceed_limit, within. destruct limit as [max|]; [|done].
  rewrite andb_false_iff, !Z.ltb_ge. lia.
Qed.

Lemma generation_under_lock_inv path w b r w' b' :
  generation_under_lock path w b = (r, w', b') →
  same_data w w' ∧ ∃ x, backend_stat (ep_key path) b = (x, b').
Proof.
  unfold generation_under_lock, live_generation. cbv [mbind fm_bind db mret fm_ret db_map_err].
  destruct (backend_stat (ep_key path) b) as [x b1] eqn:Es. intros Hr.
  assert (∀ (g : option ExpectedGeneration) (r : result OpendalError (option ExpectedGeneration)) w',
    (match (let '(r, w') := let '(r, w') := select (λ _ _, Ok ()) w in (map_err (λ _ : SqlError, unexpected) r, w')
            in (r, w', b1)) with
     | (Ok _, w', b') => (Ok g, w', b')
     | (Err e, w', b') => (Err e, w', b') end) = (r, w', b') → same_data w w' ∧ b' = b1) as Hsel.
  { intros g r0 w0 Hq. destruct (select _ w) as [rs ws] eqn:E. apply select_inv in E as [Hs _].
    destruct rs; injection Hq as <- <- <-; done. }
  destruct x as [[v|]|e].
  - unfold parse_generation in Hr. destruct (parse_uint U64_MAX v); cbn in Hr.
    + apply Hsel in Hr as [? ->]. eauto.
    + injection Hr as <- <- <-. split; [reflexivity|eauto].
  - apply Hsel in Hr as [? ->]. eauto.
  - destruct (decide _).
    + apply Hsel in Hr as [? ->]. eauto.
    + injection Hr as <- <- <-. split; [reflexivity|eauto].
Qed.

End FinalizeWrite.
