(* ===== verification/AppState.v ===== *)
(** The state a request handler runs in: the database, the blob store and the
    quota cache of [UserService], which every handler shares, and the small
    monad the handlers are written in. *)

From S2P Require Import Prelude Keys Quota Database Users Finalization.

Section AppState.
Context `{PkarrKeys, JsonStrings, Backend}.

Record App := mk_App {
  app_world : World;
  app_store : BackendState;
  app_cache : list (PublicKey * CachedEntry)
}.

Definition AM (E A : Type) : Type := App → result E A * App.

#[export] Instance am_ret {E} : MRet (AM E) := λ _ a s, (Ok a, s).
#[export] Instance am_bind {E} : MBind (AM E) :=
  λ _ _ k m s, match m s with (Ok a, s') => k a s' | (Err e, s') => (Err e, s') end.

Definition am_throw {E A} (e : E) : AM E A := λ s, (Err e, s).
Definition am_lift {E A} (r : result E A) : AM E A := λ s, (r, s).
Definition am_map_err {E F A} (f : E → F) (m : AM E A) : AM F A :=
  λ s, let '(r, s') := m s in (map_err f r, s').

(** A computation on the database alone, on the store alone, on both. *)
Definition am_db {E A} (m : DB E A) : AM E A :=
  λ s, let '(r, w) := m (app_world s) in (r, mk_App w (app_store s) (app_cache s)).
Definition am_blob {E A} (m : BackendState → result E A * BackendState) : AM E A :=
  λ s, let '(r, b) := m (app_store s) in (r, mk_App (app_world s) b (app_cache s)).
Definition am_fm {E A} (m : FM E A) : AM E A :=
  λ s, let '(r, w, b) := m (app_world s) (app_store s) in (r, mk_App w b (app_cache s)).

(** A computation on the database and the cache. *)
Definition am_cache {E A}
    (m : list (PublicKey * CachedEntry) → World → result E A * list (PublicKey * CachedEntry) * World)
    : AM E A :=
  λ s, let '(r, c, w) := m (app_cache s) (app_world s) in (r, mk_App w (app_store s) c).

End AppState.
