(* ===== verification/LockRoutes.v ===== *)
(** WebDAV locking: the [LOCK] and [UNLOCK] handlers and the check every write
    makes ([client_server/routes/tenants/lock.rs]).  The fresh UUID of a new
    lock is an argument. *)

From S2P Require Import Prelude StoragePath Capabilities HttpError Keys Tenant Quota Database Users.
From S2P Require Import Authorization EntryLocks Finalization AppState.

(** * Constants *)

Definition DEFAULT_LOCK_TIMEOUT_SECS : Z := 30.
Definition MAX_LOCK_TIMEOUT_SECS : Z := 60.
Definition WRITE_LOCK_HORIZON_SECS : Z := 30.
Definition KEEPALIVE_INTERVAL : Z := WRITE_LOCK_HORIZON_SECS / 3.
Definition MAX_LOCKINFO_BYTES : Z := 16 * 1024.
Definition LOCK_TOKEN_SCHEME : str := lit "opaquelocktoken:".
Definition ALLOWED_METHODS : str := lit "GET, HEAD, PUT, DELETE, LOCK, UNLOCK".

(** A header map: names in lower case, and [None] for a value that is not
    visible ASCII. *)
Abbreviation HeaderMap := (list (str * option str)).

(** [HeaderMap::get_all]. *)
Definition headers_get_all (hs : HeaderMap) (name : str) : list (option str) :=
  map snd (filter (λ kv, kv.1 = name) hs).

(** * Header parsing *)

(** Every round of the [while let] loop consumes two characters: the length is
    fuel enough. *)
Fixpoint coded_urls_loop (fuel : nat) (rest : str) : list str :=
  match fuel with
  | O => []
  | S fuel =>
      match split_once 60 rest with
      | None => []
      | Some (_, after) =>
          match split_once 62 after with
          | None => []
          | Some (url, rest) => trim url :: coded_urls_loop fuel rest
          end
      end
  end.

Definition coded_urls (value : str) : list str := coded_urls_loop (length value) value.

Definition if_header_tokens (headers : HeaderMap) : list str :=
  omap (λ url, strip_prefix url LOCK_TOKEN_SCHEME)
    (concat (map coded_urls (omap id (headers_get_all headers (lit "if"))))).

Definition lock_token_header (headers : HeaderMap) : option str :=
  v ← headers_get headers (lit "lock-token");
  value ← v;
  let url := default (trim value) (head (coded_urls value)) in
  strip_prefix url LOCK_TOKEN_SCHEME.

Definition timeout_part (part : str) : option Z :=
  if eq_ignore_ascii_case part (lit "infinite") then Some MAX_LOCK_TIMEOUT_SECS
  else s ← strip_prefix part (lit "Second-"); parse_int I64_MIN I64_MAX s.

(** [i64::clamp]. *)
Definition clamp (lo hi n : Z) : Z := Z.max lo (Z.min hi n).

Definition requested_timeout (headers : HeaderMap) : Z :=
  match headers_get headers (lit "timeout") with
  | Some (Some value) =>
      default DEFAULT_LOCK_TIMEOUT_SECS
        (clamp 1 MAX_LOCK_TIMEOUT_SECS <$> find_map timeout_part (map trim (split COMMA value)))
  | _ => DEFAULT_LOCK_TIMEOUT_SECS
  end.

(** * The request body *)

(** The tag's name: up to [/], [>] or whitespace. *)
Fixpoint tag_name (tag : str) : str :=
  match tag with
  | [] => []
  | c :: tag => if (c =? SLASH) || (c =? 62) || is_whitespace c then [] else c :: tag_name tag
  end.

Definition has_element (xml local_name : str) : bool :=
  existsb (λ tag, bool_decide (last (split COLON (tag_name tag)) = Some local_name))
    (drop 1 (split 60 xml)).

Definition is_exclusive_write_lockinfo (body : list Z) : bool :=
  match from_utf8 body with
  | None => false
  | Some xml => has_element xml (lit "exclusive") && has_element xml (lit "write")
                && negb (has_element xml (lit "shared"))
  end.

(** A body: its bytes, or [None] when the stream breaks. *)
Definition Body : Type := option (list Z).

Definition check_lockinfo (lockinfo : Body) : HttpResult () :=
  lockinfo ← match lockinfo with
             | Some bytes => if Z.of_nat (length bytes) <=? MAX_LOCKINFO_BYTES then Ok bytes
                             else Err (HttpError_new_with_message 413 (lit "lockinfo body too large"))
             | None => Err (HttpError_new_with_message 413 (lit "lockinfo body too large"))
             end;
  if negb (bool_decide (lockinfo = [])) && negb (is_exclusive_write_lockinfo lockinfo) then
    Err (HttpError_bad_request (lit "Only exclusive write locks are supported"))
  else Ok ().

(** * Responses *)

Record Response := mk_Response {
  resp_status : Z;
  resp_headers : list (str * str);
  resp_body : str
}.

(** [str::replace], one character after the other. *)
Definition xml_escape (text : str) : str :=
  replace_char 34 (lit "&quot;")
    (replace_char 62 (lit "&gt;")
      (replace_char 60 (lit "&lt;")
        (replace_char 38 (lit "&amp;") text))).

(** A literal with [`] standing for the double quote. *)
Definition quoted (s : string) : str := map (λ c, if c =? 96 then 34 else c) (lit s).

Definition lock_response (lock : EntryLockEntity) (lock_root : str) (remaining : Z) (created : bool)
    : Response :=
  let token_url := LOCK_TOKEN_SCHEME ++ l_token lock in
  let body :=
    quoted "<?xml version=`1.0` encoding=`utf-8`?>" ++
    quoted "<D:prop xmlns:D=`DAV:`><D:lockdiscovery><D:activelock>" ++
    lit "<D:locktype><D:write/></D:locktype>" ++
    lit "<D:lockscope><D:exclusive/></D:lockscope>" ++
    lit "<D:depth>0</D:depth>" ++
    lit "<D:timeout>Second-" ++ show_uint remaining ++ lit "</D:timeout>" ++
    lit "<D:locktoken><D:href>" ++ token_url ++ lit "</D:href></D:locktoken>" ++
    lit "<D:lockroot><D:href>" ++ xml_escape lock_root ++ lit "</D:href></D:lockroot>" ++
    lit "</D:activelock></D:lockdiscovery></D:prop>" in
  mk_Response 200
    ((lit "content-type", lit "application/xml; charset=utf-8") ::
     (lit "Timeout", lit "Second-" ++ show_uint remaining) ::
     (if created then [(lit "Lock-Token", lit "<" ++ token_url ++ lit ">")] else []))
    body.

(** * Handlers *)

Section LockRoutes.
Context `{PkarrKeys, JsonStrings}.

Definition sql {A} (m : DB SqlError A) : DB HttpError A := db_map_err HttpError_from_sqlx m.

Definition create_lock (token : str) (entry_path : EntryPath) (lifetime_secs : Z)
    : DB HttpError EntryLockEntity :=
  sql EntryLockRepository_delete_expired ;;
  lock ← sql (EntryLockRepository_acquire entry_path token lifetime_secs);
  lift_result (ok_or lock HttpError_locked).

Definition lock (token : str) (session : option AuthSession) (entry_path : EntryPath) (lock_root : str)
    (headers : HeaderMap) (body : Body) : DB HttpError Response :=
  session ← lift_result (ok_or session HttpError_unauthorized);
  authorize_write session entry_path true ;;
  let presented := if_header_tokens headers in
  let is_new := bool_decide (presented = []) in
  (if is_new then lift_result (check_lockinfo body) else mret ()) ;;
  let lifetime := requested_timeout headers in
  lock ← (if is_new then create_lock token entry_path lifetime
          else l ← sql (EntryLockRepository_refresh entry_path presented lifetime);
               lift_result (ok_or l HttpError_lock_token_mismatch));
  mret (lock_response lock lock_root lifetime is_new).

Definition unlock (session : option AuthSession) (entry_path : EntryPath) (headers : HeaderMap)
    : DB HttpError Response :=
  session ← lift_result (ok_or session HttpError_unauthorized);
  authorize_write session entry_path false ;;
  token ← lift_result (ok_or (lock_token_header headers)
                         (HttpError_bad_request (lit "Missing or malformed Lock-Token header")));
  released ← sql (EntryLockRepository_release entry_path token);
  if negb released then throw (HttpError_conflict (lit "No lock with this token on this path"))
  else mret (mk_Response 204 [] []).

Definition dispatch (token : str) (session : option AuthSession) (entry_path : EntryPath) (method : str)
    (uri_path : str) (headers : HeaderMap) (body : Body) : DB HttpError Response :=
  if decide (method = lit "LOCK") then lock token session entry_path uri_path headers body
  else if decide (method = lit "UNLOCK") then unlock session entry_path headers
  else mret (mk_Response 405 [(lit "allow", ALLOWED_METHODS)] []).

(** ** The check before a write *)

(** The token of the lock the write runs under; its keep-alive task is
    [keepalive_round]. *)
Definition check_lock (entry_path : EntryPath) (headers : HeaderMap) : DB HttpError (option str) :=
  let held := if_header_tokens headers in
  if decide (held = []) then
    active ← sql (EntryLockRepository_get_active entry_path);
    match active with
    | None => mret None
    | Some _ => throw HttpError_locked
    end
  else
    l ← sql (EntryLockRepository_keep_alive entry_path held WRITE_LOCK_HORIZON_SECS);
    live ← lift_result (ok_or l HttpError_lock_token_mismatch);
    mret (Some (l_token live)).

(** One round of the keep-alive task, after its sleep: whether it goes on. *)
Definition keepalive_round (entry_path : EntryPath) (token : str) : DB SqlError bool :=
  extended ← try_db (EntryLockRepository_keep_alive entry_path [token] WRITE_LOCK_HORIZON_SECS);
  mret match extended with
       | Ok (Some _) => true
       | Ok None => false
       | Err _ => true
       end.

End LockRoutes.

Section WithWriteLock.
Context `{PkarrKeys, JsonStrings, Backend}.

(** The write gets the token it runs under ([write_lock::run_under]). *)
Definition with_write_lock {T} (entry_path : EntryPath) (headers : HeaderMap)
    (write : option str → AM HttpError T) : AM HttpError T :=
  lock_token ← am_db (check_lock entry_path headers);
  write lock_token.

End WithWriteLock.

(** * Theorems *)

Lemma requested_timeout_range hs : 1 ≤ requested_timeout hs ≤ MAX_LOCK_TIMEOUT_SECS.
Proof.
  unfold requested_timeout, DEFAULT_LOCK_TIMEOUT_SECS, MAX_LOCK_TIMEOUT_SECS.
  destruct (headers_get hs _) as [[v|]|]; [|lia..].
  destruct (find_map _ _); cbn; unfold clamp; lia.
Qed.

(** ** Tokens *)

(** Characters a token is made of: neither angle bracket nor white space. *)
Definition token_char (c : Z) : Prop := c ≠ 60 ∧ c ≠ 62 ∧ is_whitespace c = false.

Lemma trim_id s : Forall token_char s → trim s = s.
Proof. intros Hs. apply trim_plain. eapply Forall_impl; [exact Hs|]. by intros c (_ & _ & ?). Qed.

Lemma strip_prefix_app p s : strip_prefix (p ++ s) p = Some s.
Proof. induction p as [|c p IH]; cbn; [by destruct s|]. by rewrite Z.eqb_refl. Qed.

Lemma token_char_notin s c : Forall token_char s → c = 60 ∨ c = 62 → c ∉ s.
Proof. intros Hs Hc Hin. rewrite Forall_forall in Hs. destruct (Hs c Hin) as (? & ? & _). by destruct Hc. Qed.

(** One bracketed URL after text without brackets. *)
Lemma coded_urls_one pre url post :
  60 ∉ pre → 60 ∉ post → Forall token_char url → coded_urls (pre ++ 60 :: url ++ 62 :: post) = [url].
Proof.
  intros Hpre Hpost Hurl. unfold coded_urls.
  assert (∃ n, length (pre ++ 60 :: url ++ 62 :: post) = S (S n)) as [n ->].
  { exists (length pre + length url + length post)%nat.
    rewrite !length_app. cbn [length]. rewrite length_app. cbn [length]. lia. }
  cbn [coded_urls_loop]. rewrite (proj2 (split_once_spec 60 _ pre (url ++ 62 :: post))) by done.
  rewrite (proj2 (split_once_spec 62 _ url post)) by (split; [done|]; apply token_char_notin; auto).
  rewrite trim_id by done. f_equal. destruct (split_once 60 post) as [[a b]|] eqn:E; [|done].
  apply split_once_spec in E as [-> _]. destruct Hpost. apply elem_of_app. right. left.
Qed.

Lemma token_url_chars token : Forall token_char token → Forall token_char (LOCK_TOKEN_SCHEME ++ token).
Proof.
  intros Ht. apply Forall_app. split; [|done]. apply (bool_decide_unpack _). vm_compute. exact I.
Qed.

Lemma lock_token_header_one v :
  lock_token_header [(lit "lock-token", Some v)]
  = strip_prefix (default (trim v) (head (coded_urls v))) LOCK_TOKEN_SCHEME.
Proof. reflexivity. Qed.

Lemma if_header_tokens_one v :
  if_header_tokens [(lit "if", Some v)]
  = omap (λ url, strip_prefix url LOCK_TOKEN_SCHEME) (coded_urls v ++ []).
Proof. reflexivity. Qed.

(** A client can use the lock it is given: the [Lock-Token] value of a
    [LOCK] response, sent back as it is, names the lock to [UNLOCK], and in an
    [If] list it is the one token a write presents; a response without it
    (a refresh) carries no [Lock-Token]. *)
Theorem lock_token_roundtrip l root remaining created value :
  Forall token_char (l_token l) →
  (lit "Lock-Token", value) ∈ resp_headers (lock_response l root remaining created) →
  created = true ∧
  lock_token_header [(lit "lock-token", Some value)] = Some (l_token l) ∧
  if_header_tokens [(lit "if", Some (lit "(" ++ value ++ lit ")"))] = [l_token l].
Proof.
  intros Ht Hin. pose proof (token_url_chars _ Ht) as Hurl.
  assert (created = true ∧ value = [] ++ 60 :: (LOCK_TOKEN_SCHEME ++ l_token l) ++ 62 :: []) as [-> ->].
  { unfold lock_response in Hin. cbn [resp_headers] in Hin.
    apply elem_of_cons in Hin as [[=]|Hin]. apply elem_of_cons in Hin as [[=]|Hin].
    destruct created; [|by apply elem_of_nil in Hin]. apply list_elem_of_singleton in Hin. by injection Hin as ->. }
  split_and!; [done|..].
  - rewrite lock_token_header_one, coded_urls_one by (done || apply not_elem_of_nil). apply strip_prefix_app.
  - rewrite if_header_tokens_one, app_nil_r.
    replace (lit "(" ++ ([] ++ 60 :: (LOCK_TOKEN_SCHEME ++ l_token l) ++ [62]) ++ lit ")")
      with ([40] ++ 60 :: (LOCK_TOKEN_SCHEME ++ l_token l) ++ 62 :: [41]).
    2: { change (lit "(") with [40]. change (lit ")") with [41]. cbn [app].
         by rewrite <-(app_assoc (LOCK_TOKEN_SCHEME ++ l_token l)). }
    rewrite coded_urls_one; [|by intros [=]%list_elem_of_singleton..|done].
    unfold omap, list_omap. by rewrite strip_prefix_app.
Qed.

(** ** The check before a write *)

Section CheckLock.
Context `{PkarrKeys, JsonStrings}.

(** A live lock on the path, as seen at [now]. *)
Definition live_lock (path : EntryPath) (now : Z) (tb : Tables) (l : EntryLockEntity) : Prop :=
  l ∈ entry_locks tb ∧ l_path l = ep_key path ∧ now < l_expires_at l.

Lemma check_lock_inv path hs w r w' :
  check_lock path hs w = (r, w') →
  only_locks w w' ∧ clock w ≤ clock w' ∧
  match r with
  | Ok None =>
      if_header_tokens hs = [] ∧ tables w' = tables w ∧ ∀ l, ¬ live_lock path (clock w') (tables w) l
  | Ok (Some token) =>
      token ∈ if_header_tokens hs ∧
      ∃ l now, clock w ≤ now ≤ clock w' ∧ live_lock path now (tables w) l ∧ l_token l = token ∧
        mk_EntryLockEntity (ep_key path) token (Z.max (l_expires_at l) (now + WRITE_LOCK_HORIZON_SECS))
        ∈ entry_locks (tables w')
  | Err e =>
      e = HttpError_internal_server ∨
      e = HttpError_locked ∧ if_header_tokens hs = [] ∧ (∃ l, live_lock path (clock w') (tables w) l) ∨
      e = HttpError_lock_token_mismatch ∧ if_header_tokens hs ≠ [] ∧
        ∃ now, clock w ≤ now ≤ clock w' ∧
          ∀ l, live_lock path now (tables w) l → l_token l ∉ if_header_tokens hs
  end.
Proof.
  unfold check_lock, sql, live_lock. cbv [mbind db_bind db_map_err]. intros Hr. case_decide as Ht.
  - destruct (EntryLockRepository_get_active path w) as [r1 w1] eqn:E.
    apply get_active_inv in E as [Hs Hr1].
    pose proof (same_data_only_locks _ _ Hs) as Ho. destruct Hs as (Htb & _ & _ & Hc).
    destruct r1 as [[l|]|e]; cbn [map_err] in Hr; injection Hr as <- <-; split_and!; try done.
    + right; left. split_and!; try done. by exists l.
    + intros l (Hl & Hp & Hlt). specialize (Hr1 l Hl Hp). lia.
    + left. by subst e.
  - destruct (EntryLockRepository_keep_alive path (if_header_tokens hs) WRITE_LOCK_HORIZON_SECS w) as [r1 w1] eqn:E.
    pose proof E as [Hc _]%set_expiry_inv. apply set_expiry_result in E as [Ho Hr1].
    destruct r1 as [[l'|]|e]; cbn in Hr; injection Hr as <- <-; (split; [done|]; split; [done|]).
    + destruct Hr1 as (now & Hnow & l & Hl & [Hp Htok] & Hlv & -> & Hl'). split; [done|].
      exists l, now. cbn [l_token]. split_and!; try done; [lia..|]. by rewrite <-Hp.
    + destruct Hr1 as (now & Hnow & Hno). right; right. split_and!; try done. exists now. split; [done|].
      intros l (Hl & Hp & Hlt) Hin. assert (l_expires_at l ≤ now) by (apply Hno; [done|by split]). lia.
    + left. by subst e.
Qed.

End CheckLock.

Section WriteGate.
Context `{PkarrKeys, JsonStrings, Backend}.

(** (C13) No write gets past somebody else's lock.  A write starts only if the
    request presents no token and the path has no live lock, or if it presents
    the token of the path's live lock, which is then extended to at least 30
    seconds from the check and handed to the write.  Otherwise nothing but the
    lock table is touched, the store sees nothing, and the client is told 423
    (the path is locked), 412 (it names no live lock on the path) or 500. *)
Theorem write_gate {T} path hs (write : option str → AM HttpError T) a r a' :
  with_write_lock path hs write a = (r, a') →
  let w := app_world a in
  (∃ token a1, write token a1 = (r, a') ∧ app_store a1 = app_store a ∧ app_cache a1 = app_cache a ∧
     only_locks w (app_world a1) ∧ clock w ≤ clock (app_world a1) ∧
     match token with
     | None => if_header_tokens hs = [] ∧ ∀ l, ¬ live_lock path (clock (app_world a1)) (tables w) l
     | Some t =>
         t ∈ if_header_tokens hs ∧
         (∃ l now, clock w ≤ now ≤ clock (app_world a1) ∧ live_lock path now (tables w) l ∧ l_token l = t) ∧
         (∃ l, l ∈ entry_locks (tables (app_world a1)) ∧ l_path l = ep_key path ∧ l_token l = t ∧
               clock w + WRITE_LOCK_HORIZON_SECS ≤ l_expires_at l)
     end) ∨
  (∃ e, r = Err e ∧ app_store a' = app_store a ∧ only_locks w (app_world a') ∧
     (status e = 500 ∨
      status e = 423 ∧ if_header_tokens hs = [] ∧ (∃ l, live_lock path (clock (app_world a')) (tables w) l) ∨
      status e = 412 ∧ if_header_tokens hs ≠ [] ∧
        ∃ now, clock w ≤ now ≤ clock (app_world a') ∧
          ∀ l, live_lock path now (tables w) l → l_token l ∉ if_header_tokens hs)).
Proof.
  unfold with_write_lock. cbv [mbind am_bind am_db]. intros Hr. cbn zeta.
  destruct (check_lock path hs (app_world a)) as [r1 w1] eqn:E. apply check_lock_inv in E as (Ho & Hc & Hr1).
  destruct r1 as [[token|]|e].
  - left. exists (Some token). eexists. split; [exact Hr|]. cbn [app_world app_store app_cache].
    destruct Hr1 as (Hin & l & now & Hnow & Hl & Htok & Hl').
    split_and!; try done; [eauto|]. eexists. split_and!; [exact Hl'|done..|]. cbn. lia.
  - left. exists None. eexists. split; [exact Hr|]. by destruct Hr1 as (? & _ & ?).
  - right. injection Hr as <- <-. exists e. cbn [app_world app_store]. split_and!; try done.
    destruct Hr1 as [->|[(-> & ? & ?)|(-> & ? & ?)]]; auto 10.
Qed.

End WriteGate.

(** ** [LOCK] and [UNLOCK] *)

Section Handlers.
Context `{PkarrKeysLaws, JsonStrings}.

(** A granted lock: from the sweep to the new row. *)
Lemma create_lock_inv token path lifetime w r w' :
  create_lock token path lifetime w = (r, w') →
  only_locks w w' ∧ clock w ≤ clock w' ∧
  match r with
  | Ok l =>
      l = mk_EntryLockEntity (ep_key path) token (clock w' + lifetime) ∧ l ∈ entry_locks (tables w') ∧
      (locks_wf (tables w) → ∀ l', ¬ live_lock path (clock w') (tables w) l')
  | Err e =>
      e = HttpError_internal_server ∨
      e = HttpError_locked ∧ ∃ l', live_lock path (clock w') (tables w) l'
  end.
Proof.
  unfold create_lock, sql. cbv [mbind db_bind db_map_err lift_result]. intros Hr.
  destruct (EntryLockRepository_delete_expired w) as [r1 w1] eqn:E1.
  assert (only_locks w w1 ∧ clock w ≤ clock w1 ∧
    (∀ l, l ∈ entry_locks (tables w1) → l ∈ entry_locks (tables w)) ∧
    (∀ l, l ∈ entry_locks (tables w) → l ∉ entry_locks (tables w1) → l_expires_at l ≤ clock w1) ∧
    (locks_wf (tables w) → locks_wf (tables w1)) ∧ (∀ e, r1 = Err e → e = SqlIo))
    as (Ho1 & Hc1 & Hsub & Hgone & Hwf1 & He1).
  { apply exec_inv in E1 as (Hc & _ & [(-> & Ht & Hq)|(r0 & Hf & Hr0)]).
    - unfold only_locks, locks_wf. rewrite Ht, Hq. split_and!; try done. by intros e [= <-].
    - injection Hf as <- Ht Hq. unfold only_locks, locks_wf. rewrite <-Ht, <-Hq. cbn [entry_locks set_entry_locks].
      split_and!; try done.
      + intros l [_ ?]%list_elem_of_filter. done.
      + intros l Hl Hn. apply Z.nlt_ge. intros Hlt. apply Hn, list_elem_of_filter. split; [|done].
        by apply Z.ltb_lt.
      + apply sublist_map_filter_NoDup.
      + by destruct Hr0 as [->| ->]; intros e [=]. }
  destruct r1 as [n|e]; cbn [map_err] in Hr.
  2: { injection Hr as <- <-. split_and!; try done. left. by rewrite (He1 e). }
  destruct (EntryLockRepository_acquire path token lifetime w1) as [r2 w2] eqn:E2.
  assert (only_locks w1 w2 ∧ clock w1 ≤ clock w2) as [Ho2 Hc2].
  { pose proof E2 as (Hc & _ & [(_ & Ht & Hq)|(r0 & Hf & _)])%exec_inv; unfold only_locks; [by rewrite Ht, Hq|].
    destruct (list_find _ _) as [[? l]|]; [destruct (l_expires_at l <=? clock w2)|];
      injection Hf as _ <- <-; done. }
  assert (only_locks w w2) as Ho by by transitivity w1.
  destruct r2 as [[l|]|e]; cbn in Hr; injection Hr as <- <-; (split; [done|]; split; [lia|]).
  - apply acquire_granted in E2 as (_ & -> & Hin & Hexp). split_and!; [done..|]. intros Hwf l' (Hl & Hp & Hlt).
    destruct (decide (l' ∈ entry_locks (tables w1))) as [Hl1|Hl1].
    + specialize (Hexp l' Hl1 (Hwf1 Hwf) Hp). lia.
    + specialize (Hgone l' Hl Hl1). lia.
  - right. split; [done|]. apply exec_inv in E2 as (_ & _ & [(? & _)|(r0 & Hf & [<-|?])]); [done| |done].
    destruct (list_find _ _) as [[i l]|] eqn:El; [|done].
    destruct (Z.leb_spec (l_expires_at l) (clock w2)); [done|].
    apply list_find_Some in El as (Hi & Hp & _). apply list_elem_of_lookup_2 in Hi.
    exists l. split_and!; [by apply Hsub|done|lia].
  - left. apply exec_inv in E2 as (_ & _ & [([= ->] & _)|(r0 & Hf & [<-|[= ->]])]); [done| |done].
    destruct (list_find _ _) as [[i l]|]; [destruct (l_expires_at l <=? clock w2)|]; discriminate Hf.
Qed.

(** What [LOCK] grants.  A 200 means: the session may write the file and
    its owner is enabled; the lifetime granted is the one requested, between 1
    and 60 seconds;
    and either the request named no token, no lock was live on the path, and
    the path now has the fresh token's lock for that lifetime, reported in
    [Lock-Token]; or it named the path's live lock, which now lasts that long
    from a moment of the request.  A refusal never touches anything but locks:
    423 means the path is locked, 412 that no presented token is live on it. *)
Theorem lock_grants token session path root hs body w r w' :
  locks_wf (tables w) →
  lock token session path root hs body w = (r, w') →
  only_locks w w' ∧
  match r with
  | Ok resp =>
      (∃ s, session = Some s ∧ StoragePath_is_file (ep_path path) = true ∧
            has_write_permission s (ep_pubkey path) (ep_path path) = Ok ()) ∧
      (∃ u, user_row (ep_pubkey path) (tables w) = Some u ∧ u_disabled u = false) ∧
      ∃ l lifetime,
        1 ≤ lifetime ≤ MAX_LOCK_TIMEOUT_SECS ∧ lifetime = requested_timeout hs ∧
        resp = lock_response l root lifetime (bool_decide (if_header_tokens hs = [])) ∧
        l ∈ entry_locks (tables w') ∧ l_path l = ep_key path ∧
        if decide (if_header_tokens hs = []) then
          l_token l = token ∧ l_expires_at l = clock w' + lifetime ∧
          (∀ l', ¬ live_lock path (clock w') (tables w) l')
        else
          l_token l ∈ if_header_tokens hs ∧
          ∃ now, clock w ≤ now ≤ clock w' ∧ l_expires_at l = now + lifetime ∧
            ∃ l0, live_lock path now (tables w) l0 ∧ l_token l0 = l_token l
  | Err e =>
      (status e = 401 → session = None) ∧
      (status e = 423 → ∃ l', live_lock path (clock w') (tables w) l') ∧
      (status e = 412 → ∃ now, clock w ≤ now ≤ clock w' ∧
         ∀ l', live_lock path now (tables w) l' → l_token l' ∉ if_header_tokens hs)
  end.
Proof.
  intros Hwf Hr. unfold lock in Hr. cbv [mbind db_bind lift_result] in Hr.
  destruct session as [s|]; cbn [ok_or] in Hr.
  2: { injection Hr as <- <-. split; [done|]. split_and!; done. }
  destruct (authorize_write s path true w) as [r1 w1] eqn:E1.
  apply authorize_write_inv in E1 as [Hs1 Hr1].
  pose proof (same_data_only_locks _ _ Hs1) as Ho1. destruct Hs1 as (Ht1 & _ & _ & Hc1).
  destruct r1 as [user|e].
  2: { injection Hr as <- <-. split; [done|].
       destruct Hr1 as [[-> _]|[->|[[-> _]| ->]]]; split_and!; done. }
  destruct Hr1 as (Hfile & Hperm & u & Hrow & _ & Hen).
  pose proof (requested_timeout_range hs) as Hlt. remember (requested_timeout hs) as lifetime eqn:Elt.
  destruct (decide (if_header_tokens hs = [])) as [Hnil|Hne].
  - rewrite bool_decide_eq_true_2 in Hr |- * by done.
    destruct (check_lockinfo body) as [[]|e] eqn:Eb.
    2: { injection Hr as <- <-. split; [done|]. unfold check_lockinfo in Eb. cbv [mbind result_bind] in Eb.
         assert (status e = 413 ∨ status e = 400) as [-> | ->]; [|split_and!; done..].
         destruct body as [bytes|]; [|injection Eb as <-; by left].
         destruct (_ <=? _); [|injection Eb as <-; by left].
         destruct (_ && _); [|done]. injection Eb as <-. by right. }
    destruct (create_lock token path lifetime w1) as [r2 w2] eqn:E2.
    apply create_lock_inv in E2 as (Ho2 & Hc2 & Hr2). rewrite Ht1 in Hr2.
    assert (only_locks w w2) as Ho by by transitivity w1.
    destruct r2 as [l|e]; injection Hr as <- <-; (split; [done|]).
    + destruct Hr2 as (-> & Hin & Hfree). split_and!; [by exists s|exists u; by auto|].
      eexists _, lifetime. split_and!; [lia|lia|done|done..|by auto].
    + destruct Hr2 as [->|[-> Hl]]; split_and!; done.
  - rewrite bool_decide_eq_false_2 in Hr |- * by done. unfold sql, db_map_err in Hr. cbv [mret db_ret] in Hr.
    destruct (EntryLockRepository_refresh path (if_header_tokens hs) lifetime w1) as [r2 w2] eqn:E2.
    pose proof E2 as [Hc2 _]%set_expiry_inv. apply set_expiry_result in E2 as [Ho2 Hr2]. rewrite Ht1 in Hr2.
    assert (only_locks w w2) as Ho by by transitivity w1.
    destruct r2 as [[l'|]|e]; cbn [map_err ok_or] in Hr; injection Hr as <- <-; (split; [done|]).
    + destruct Hr2 as (now & Hnow & l & Hl & [Hp Htok] & Hlv & -> & Hl').
      split_and!; [by exists s|exists u; by auto|].
      eexists _, lifetime. split_and!; [lia|lia|done|done..|].
      exists now. split_and!; [lia|lia|done|]. by exists l.
    + destruct Hr2 as (now & Hnow & Hno). split_and!; [done..|]. intros _. exists now. split; [lia|].
      intros l' (Hl & Hp & Hlv) Hin. assert (l_expires_at l' ≤ now) by (apply Hno; [done|by split]). lia.
    + subst e. split_and!; done.
Qed.

(** [UNLOCK] releases exactly the lock it names: 204 means the path had a
    lock with the presented token, and now has none with it; 409 means it had
    none; no other lock and nothing else in the database changes, whatever
    fails. *)
Theorem unlock_releases session path hs w r w' :
  unlock session path hs w = (r, w') →
  only_locks w w' ∧
  (∀ l, l ∈ entry_locks (tables w') → l ∈ entry_locks (tables w)) ∧
  (∀ l, l ∈ entry_locks (tables w) → l ∉ entry_locks (tables w') →
     l_path l = ep_key path ∧ lock_token_header hs = Some (l_token l)) ∧
  match r with
  | Ok resp =>
      resp_status resp = 204 ∧
      ∃ token, lock_token_header hs = Some token ∧
        (∃ l, l ∈ entry_locks (tables w) ∧ l_path l = ep_key path ∧ l_token l = token) ∧
        (∀ l, l ∈ entry_locks (tables w') → l_path l = ep_key path → l_token l ≠ token)
  | Err e =>
      (status e = 401 → session = None) ∧
      (status e = 409 → ∀ l, l ∈ entry_locks (tables w) → l_path l = ep_key path →
         lock_token_header hs ≠ Some (l_token l))
  end.
Proof.
  intros Hr. unfold unlock in Hr. cbv [mbind db_bind lift_result] in Hr.
  destruct session as [s|]; cbn [ok_or] in Hr.
  2: { injection Hr as <- <-. split_and!; done. }
  destruct (authorize_write s path false w) as [r1 w1] eqn:E1.
  apply authorize_write_inv in E1 as [Hs1 Hr1].
  pose proof (same_data_only_locks _ _ Hs1) as Ho1. destruct Hs1 as (Ht1 & Hq1 & _ & Hc1).
  destruct r1 as [user|e].
  2: { injection Hr as <- <-. rewrite Ht1. split_and!; try done;
       destruct Hr1 as [[-> _]|[->|[[-> _]| ->]]]; done. }
  destruct (lock_token_header hs) as [token|] eqn:Etok; cbn [ok_or] in Hr.
  2: { injection Hr as <- <-. rewrite Ht1. split_and!; done. }
  unfold sql, db_map_err in Hr. destruct (EntryLockRepository_release path token w1) as [r2 w2] eqn:E2.
  apply exec_inv in E2 as (_ & _ & [(-> & Ht2 & Hq2)|(r0 & Hf & Hr2)]).
  { injection Hr as <- <-. rewrite Ht2, Ht1. unfold only_locks. rewrite Ht2, Ht1, Hq2, Hq1. split_and!; done. }
  injection Hf as <- Ht2 Hq2. rewrite Ht1 in Ht2, Hr2. unfold only_locks.
  assert (∀ l, l ∈ entry_locks (tables w2) ↔
    l ∈ entry_locks (tables w) ∧ ¬ (l_path l = ep_key path ∧ l_token l = token)) as Hmem.
  { intros l. rewrite <-Ht2. cbn [entry_locks set_entry_locks]. rewrite list_elem_of_filter, bool_decide_eq_false. tauto. }
  assert (users (tables w2) = users (tables w) ∧ entries (tables w2) = entries (tables w) ∧
          events (tables w2) = events (tables w) ∧ seqs w2 = seqs w) as Ho by by rewrite <-Ht2, <-Hq2, Hq1.
  assert (∀ l, l ∈ entry_locks (tables w) → l ∉ entry_locks (tables w2) →
     l_path l = ep_key path ∧ Some token = Some (l_token l)) as Hgone.
  { intros l Hl Hn. rewrite Hmem in Hn.
    destruct (decide (l_path l = ep_key path ∧ l_token l = token)) as [[? ->]|Hd]; [done|]. destruct Hn. done. }
  assert (w' = w2) as -> by (destruct r2 as [[]|]; by injection Hr).
  split_and!; [apply Ho..|intros l Hl; by apply Hmem|exact Hgone|].
  destruct r2 as [released|e]; cbn [map_err] in Hr.
  - destruct Hr2 as [[= ->]|?]; [|done]. destruct (existsb _ _) eqn:Ex; cbn [negb] in Hr; injection Hr as <-.
    + split; [done|]. exists token. split; [done|]. split.
      * apply existsb_exists in Ex as (l & Hl%list_elem_of_In & [? ?]%bool_decide_eq_true). eauto.
      * intros l Hl Hp Ht. apply Hmem in Hl as [_ Hn]. by apply Hn.
    + split_and!; [done|]. intros _ l Hl Hp [= Ht]. apply not_true_iff_false in Ex. apply Ex, existsb_exists.
      exists l. split; [by apply list_elem_of_In|]. by apply bool_decide_eq_true.
  - injection Hr as <-. destruct Hr2 as [?|[= ->]]; done.
Qed.

End Handlers.

(** * Witnesses *)

Definition demo_token : str := lit "4b5c".
Definition demo_if : HeaderMap := [(lit "if", Some (lit "(<opaquelocktoken:4b5c>)"))].

Lemma lock_token_roundtrip_witness :
  lock_token_header [(lit "lock-token", Some (lit "<opaquelocktoken:4b5c>"))] = Some demo_token.
Proof.
  apply (lock_token_roundtrip (mk_EntryLockEntity [] demo_token 0) [] 30 true (lit "<opaquelocktoken:4b5c>")).
  - apply (bool_decide_unpack _). vm_compute. exact I.
  - right. right. left.
Defined.

(** A client takes the lock, and writes under it. *)
Lemma lock_grants_witness :
  ∃ resp w', lock demo_token (Some demo_session) demo_lock_path (lit "/storage/x") [] (Some []) (demo_world [])
             = (Ok resp, w') ∧
    only_locks (demo_world []) w'.
Proof.
  eexists _, _. split; [vm_compute; reflexivity|].
  refine (proj1 (lock_grants (H := demo_keys) demo_token (Some demo_session) demo_lock_path
    (lit "/storage/x") [] (Some []) (demo_world []) (Ok _) _ _ _)).
  - apply NoDup_nil_2.
  - vm_compute. reflexivity.
Defined.

Definition demo_app (w : World) : App :=
  mk_App (H := demo_keys) (H1 := demo_backend) w [] [].

Lemma write_gate_witness :
  with_write_lock demo_lock_path [] (λ t, mret t) (demo_app demo_locked)
  = (Err HttpError_locked, demo_app demo_locked) ∧
  ∃ l, live_lock demo_lock_path (clock demo_locked) (tables demo_locked) l.
Proof.
  split; [vm_compute; reflexivity|].
  destruct (write_gate demo_lock_path [] (λ t, mret t) (demo_app demo_locked)
    (Err HttpError_locked) (demo_app demo_locked) ltac:(vm_compute; reflexivity))
    as [(t & w1 & Hw & _)|(e & He & _ & _ & Hcase)]; [discriminate Hw|].
  injection He as <-. destruct Hcase as [Hc|[(_ & _ & Hl)|[Hc _]]]; [discriminate Hc|exact Hl|discriminate Hc].
Defined.

Lemma unlock_releases_witness :
  ∃ resp w', unlock (Some demo_session) demo_lock_path
               [(lit "lock-token", Some (lit "<opaquelocktoken:t1>"))] demo_locked = (Ok resp, w') ∧
    resp_status resp = 204.
Proof.
  eexists _, _. split; [vm_compute; reflexivity|].
  refine (proj1 (proj2 (proj2 (proj2 (unlock_releases (H := demo_keys) (Some demo_session)
    demo_lock_path [(lit "lock-token", Some (lit "<opaquelocktoken:t1>"))] demo_locked (Ok _) _ _))))).
  vm_compute. reflexivity.
Defined.
