(* ===== verification/Refinement.v ===== *)
(** Write finalization refines the abstract storage of [Accounting]: a
    finalized write is one [spec_put], a finalized delete one [spec_delete],
    anything else leaves the storage alone; quotas, locks and the separation of
    files and folders hold in every state a homeserver can reach. *)

From stdpp Require Import relations gmap.
From S2P Require Import Prelude StoragePath HttpError Keys Quota Database Users Entries EntryLocks Events.
From S2P Require Import Finalization Accounting.

(** * Writes *)

Section Writes.
Context `{PkarrKeysLaws, JsonStrings, Backend}.

(** What held when a write was let through to publication. *)
Definition write_admitted (fin : Finalizer) (path : EntryPath) (m : FileMetadata) (w : World)
    (u : UserRow) (existing : option EntryRow) : Prop :=
  user_row (ep_pubkey path) (tables w) = Some u ∧
  row_at (entries (tables w)) (u_id u) (as_str (ep_path path)) existing ∧
  (∃ w1, tables w1 = tables w ∧ clock w ≤ clock w1 ∧ lock_held fin path w1) ∧
  (collision_policy fin = Enforce → ¬ user_collision (tables w) (ep_pubkey path) (ep_path path)) ∧
  within (storage_limit fin (ep_pubkey path) u) (u_used_bytes u + put_delta m existing).

Lemma prepare_admits fin path m w prepared w' :
  storage_wf (tables w) (seqs w) → EntryPath_wf path → metadata_ok m → headroom w path m →
  prepare_write fin path m w = (Ok prepared, w') →
  same_data w w' ∧ ∃ u existing, write_admitted fin path m w u existing ∧
    prepared = mk_PreparedWrite (entity_of (ep_pubkey path) u) (entry_entity path <$> existing)
                 (put_delta m existing).
Proof.
  intros Hwf Hp Hm [_ Hroom] Hr. pose proof Hwf as (Hu & He & _).
  apply prepare_write_inv in Hr as [Hs Hpost]; [|done..]. split; [done|].
  destruct Hpost as (u & o & Hrow & (w1 & (? & _ & _ & ?) & Hl) & Hc & Ho & Hnew).
  apply existing_row in Ho as (existing & Hat & ->). specialize (Hroom u Hrow).
  pose proof Hrow as [Hin _]%user_row_Some.
  rewrite (PreparedWrite_new_spec (tables w) (seqs w)) in Hnew by done.
  destruct (would_exceed_limit _ _ _) eqn:Ex; [done|]. injection Hnew as <-.
  exists u, existing. split; [|done]. split_and!; try done; [by exists w1|].
  apply would_exceed_within; [|done]. destruct Hm as [_ Hm].
  pose proof (put_used_bounds (tables w) (seqs w) u Hwf Hin existing _ m Hat) as Hb.
  unfold FILE_METADATA_SIZE in *. lia.
Qed.

(** The write took effect. *)
Definition write_committed (fin : Finalizer) (path : EntryPath) (m : FileMetadata) (w w' : World)
    (u : UserRow) (existing : option EntryRow) : Prop :=
  ∃ now, tables w' = put_tables (ep_pubkey path) u (as_str (ep_path path)) m existing now
                       (seq_entries (seqs w)) (utc_now fin) (seq_events (seqs w)) (tables w) ∧
    seq_events (seqs w) < seq_events (seqs w') ∧
    (existing = None → seq_entries (seqs w) < seq_entries (seqs w')).

Lemma write_in_transaction_inv fin writer path m w b r w' b' :
  storage_wf (tables w) (seqs w) → EntryPath_wf path → metadata_ok m → headroom w path m →
  write_in_transaction fin writer path m w b = (r, w', b') →
  seqs_le (seqs w) (seqs w') ∧
  ((∃ e, r = Err (BeforePublication e) ∧ (b' = b ∨ ∃ x, backend_stat (ep_key path) b = (x, b'))) ∨
   ∃ u existing g b1 rc, write_admitted fin path m w u existing ∧ writer_close g writer b1 = (rc, b') ∧
     ((∃ md, r = Ok md ∧ rc = Ok md ∧ write_committed fin path m w w' u existing) ∨
      ∃ e, r = Err (AfterPublication e))).
Proof.
  intros Hwf Hp Hm Hroom Hr. unfold write_in_transaction in Hr.
  cbv [mbind fm_bind fm_map_err db blob mret fm_ret] in Hr.
  destruct (prepare_write fin path m w) as [r1 w1] eqn:E1. destruct r1 as [prepared|e].
  2: { injection Hr as <- <- <-. apply prepare_write_inv in E1 as [(_ & -> & _) _]; [|apply Hwf..|done].
       split; [reflexivity|left; eauto]. }
  apply prepare_admits in E1 as [Hs1 (u & existing & Had & ->)]; [|done..]. cbn [map_err] in Hr.
  destruct (generation_under_lock path w1 b) as [[r2 w2] b2] eqn:E2.
  apply generation_under_lock_inv in E2 as [Hs2 [x Hx]].
  assert (same_data w w2) as Hs by by transitivity w1. pose proof Hs as (Ht & Hq & _ & _).
  destruct r2 as [g|e]; cbn [map_err] in Hr.
  2: { injection Hr as <- <- <-. rewrite Hq. split; [reflexivity|]. left. eauto. }
  destruct (writer_close g writer b2) as [rc b3] eqn:E3.
  destruct rc as [md|e]; cbn [map_err] in Hr.
  2: { injection Hr as <- <- <-. rewrite Hq. split; [reflexivity|].
       right. exists u, existing, g, b2, (Err e). eauto 10. }
  destruct (apply_write_effects fin _ path m w2) as [r4 w4] eqn:E4. rewrite <-Hq.
  assert (seqs_le (seqs w2) (seqs w4)) as Hle by by eapply mono_apply_write_effects.
  destruct r4 as [[]|e]; injection Hr as <- <- <-.
  2: { split; [done|]. right. exists u, existing, g, b2, (Ok md). eauto 10. }
  split; [done|]. right. exists u, existing, g, b2, (Ok md). split_and!; [done..|]. left. exists md.
  split_and!; try done. destruct Had as (Hrow & Hat & _). destruct Hroom as [_ Hroom].
  specialize (Hroom u Hrow). pose proof Hrow as [Hin _]%user_row_Some. destruct Hm as [_ Hm].
  pose proof (put_used_bounds _ _ u Hwf Hin existing _ m Hat) as Hb.
  pose proof (used_bounds _ _ u Hwf Hin) as [Hb0 _].
  apply apply_write_effects_inv in E4 as (now & Htb & ? & _ & Hn); [|done|by rewrite Ht; apply Hwf|by rewrite Ht
    |done|unfold FILE_METADATA_SIZE in *; lia].
  rewrite Ht in Htb. exists now. rewrite <-Hq. done.
Qed.

(** Everything a finalization can do. *)
Lemma finalize_write_inv fin writer path m w b r w' b' :
  storage_wf (tables w) (seqs w) → EntryPath_wf path → metadata_ok m → headroom w path m →
  finalize_write fin writer path m w b = (r, w', b') →
  seqs_le (seqs w) (seqs w') ∧
  ((∃ e, r = Err (BeforePublication e) ∧ tables w' = tables w ∧
         (b' = b ∨ ∃ x, backend_stat (ep_key path) b = (x, b'))) ∨
   ∃ u existing g b1 rc, write_admitted fin path m w u existing ∧ writer_close g writer b1 = (rc, b') ∧
     ((∃ md, r = Ok md ∧ rc = Ok md ∧ write_committed fin path m w w' u existing) ∨
      ∃ e, r = Err (AfterPublication e) ∧
           (tables w' = tables w ∨ write_committed fin path m w w' u existing))).
Proof.
  intros Hwf Hp Hm Hroom Hr. unfold finalize_write in Hr.
  cbv [mbind fm_bind fm_map_err db fm_try fm_throw mret fm_ret] in Hr.
  destruct (begin w) as [rb w0] eqn:Eb. apply begin_inv in Eb as (Ht & Hq & Hc & Hb).
  destruct Hb as [[-> _]|[-> _]]; cbn [map_err] in Hr.
  { injection Hr as <- <- <-. rewrite Hq. split; [reflexivity|]. left. eauto. }
  destruct (write_in_transaction fin writer path m w0 b) as [[r1 w1] b1] eqn:E1.
  apply write_in_transaction_inv in E1 as [Hle Hcase]; [|by rewrite Ht, Hq|done..|by unfold headroom; rewrite Ht, Hq].
  rewrite Hq in Hle.
  assert (∀ u existing, write_admitted fin path m w0 u existing → write_admitted fin path m w u existing) as Had.
  { unfold write_admitted. rewrite Ht. intros u existing (? & ? & (w2 & ? & ? & ?) & ? & ?).
    split_and!; try done. exists w2. split_and!; try done. lia. }
  assert (∀ u existing w2, write_committed fin path m w0 w1 u existing → tables w2 = tables w1 →
    seqs w2 = seqs w1 → write_committed fin path m w w2 u existing) as Hcm.
  { unfold write_committed. rewrite Ht, Hq. intros u existing w2 (now & ? & ? & ?) -> ->. eauto. }
  destruct r1 as [md|failure].
  - destruct (commit _ w1) as [rc w2] eqn:E2. apply commit_inv in E2 as (Hq2 & _ & _ & Hc2).
    destruct Hcase as [(e & ? & _)|(u & existing & g & b2 & rcl & Ha & Hcl & Hd)]; [done|].
    destruct Hd as [(md' & [= <-] & -> & Hcom)|(e & ?)]; [|done].
    destruct Hc2 as [[-> Ht2]|[-> Ht2]]; cbn [map_err] in Hr; injection Hr as <- <- <-; rewrite Hq2;
      (split; [done|]); right; exists u, existing, g, b2, (Ok md); (split_and!; [by apply Had|done|]).
    + left. exists md. split_and!; try done. by apply Hcm.
    + right. exists unexpected. split; [done|]. destruct Ht2 as [Ht2|Ht2]; [right|left; done]. by apply Hcm.
  - destruct (rollback _ w1) as [rc w2] eqn:E2. apply rollback_inv in E2 as (Hq2 & _ & _ & Ht2 & _).
    cbn in Ht2. injection Hr as <- <- <-. rewrite Hq2. split; [done|].
    destruct Hcase as [(e & [= ->] & Hb)|(u & existing & g & b2 & rcl & Ha & Hcl & Hd)]; [left; eauto|].
    destruct Hd as [(? & ? & _)|(e & [= ->])]; [done|]. right. exists u, existing, g, b2, rcl. eauto 10.
Qed.

(** A committed write keeps the invariant and is one abstract [put]. *)
Lemma write_committed_spec fin path m w w' u existing :
  storage_wf (tables w) (seqs w) → EntryPath_wf path → metadata_ok m → headroom w path m →
  write_admitted fin path m w u existing → write_committed fin path m w w' u existing →
  seqs_le (seqs w) (seqs w') →
  storage_wf (tables w') (seqs w') ∧
  storage_of (tables w') = spec_put (u_id u) (as_str (ep_path path)) m (storage_of (tables w)).
Proof.
  intros Hwf [Hp _] [Hhash Hm] [Hseq Hroom] (Hrow & Hat & _) (now & Htb & Hv & Hn) (Hlu & Hle & _).
  specialize (Hroom u Hrow). pose proof Hrow as [Hin _]%user_row_Some.
  pose proof (put_used_bounds _ _ u Hwf Hin existing _ m Hat) as Hb.
  pose proof Hwf as (_ & (Hids & Hkeys & Hef) & _ & _ & (Hqe & _)).
  assert (∀ x, x ∈ entries (tables w) → e_id x < seq_entries (seqs w)) as Hlt by by rewrite <-Forall_forall.
  split.
  - eapply (storage_wf_update (tables w) (seqs w) _ _ (ep_pubkey path) u (put_delta m existing));
      [done..| exact Htb| | | | | | | |done].
    + by destruct (ep_path path).
    + split_and!; cbn [entries users].
      * by apply put_rows_ids.
      * by apply put_rows_keys.
      * apply Forall_forall. intros x [->|[Hx _]]%elem_of_put_rows; [|by rewrite Forall_forall in Hef; apply Hef|done..].
        pose proof (put_row_key (entries (tables w)) (u_id u) (as_str (ep_path path)) m existing now
          (seq_entries (seqs w)) Hat) as Hk. injection Hk as -> ->. split_and!.
        -- by apply list_elem_of_fmap_2.
        -- by destruct (ep_path path).
        -- by destruct existing.
        -- by destruct existing; cbn; lia.
        -- by destruct existing; cbn; lia.
    + intros v. by apply usage_put_rows.
    + unfold FILE_METADATA_SIZE in *. lia.
    + lia.
    + lia.
    + apply Forall_forall. intros x [->|[Hx _]]%elem_of_put_rows; [|by apply Hlt in Hx; lia|done..].
      destruct existing as [e|]; cbn; [|by apply Hn].
      destruct Hat as (He & _). apply Hlt in He. lia.
  - rewrite Htb. unfold storage_of, spec_put, put_tables. cbn [st_files st_log events entries]. f_equal.
    + by apply files_of_put_rows.
    + rewrite map_app. cbn [map]. by rewrite log_entry_event_row.
Qed.

(** Finalizing an upload refines the abstract storage, whatever the
    schedule of database faults and whatever the store answers.  If it
    succeeds, the store has published the staged bytes and the tables represent
    exactly one [spec_put] of the user's path: the file's new metadata, one
    [PUT] event at the end of the log, nothing else.  If it fails before
    publication, the tables are untouched and the writer was never closed.  If
    it fails after publication, the tables are untouched or represent exactly
    that put.  In every case the storage invariant, exact quota accounting
    included, still holds. *)
Theorem finalize_write_refines fin writer path m w b r w' b' :
  storage_wf (tables w) (seqs w) → EntryPath_wf path → metadata_ok m → headroom w path m →
  finalize_write fin writer path m w b = (r, w', b') →
  storage_wf (tables w') (seqs w') ∧
  let put_done :=
    ∃ u, user_row (ep_pubkey path) (tables w) = Some u ∧
         storage_of (tables w')
         = spec_put (u_id u) (as_str (ep_path path)) m (storage_of (tables w)) in
  match r with
  | Ok metadata => put_done ∧ ∃ generation b1, writer_close generation writer b1 = (Ok metadata, b')
  | Err (BeforePublication _) =>
      tables w' = tables w ∧ (b' = b ∨ ∃ x, backend_stat (ep_key path) b = (x, b'))
  | Err (AfterPublication _) => tables w' = tables w ∨ put_done
  end.
Proof.
  intros Hwf Hp Hm Hroom Hr. pose proof Hr as Hi. apply finalize_write_inv in Hi as [Hle Hi]; [|done..].
  assert (tables w' = tables w → storage_wf (tables w') (seqs w')) as Hsame.
  { intros ->. by eapply storage_wf_mono. }
  destruct Hi as [(e & -> & Ht & Hb)|(u & existing & g & b1 & rc & Had & Hcl & Hd)]; [by auto|].
  assert (write_committed fin path m w w' u existing → storage_wf (tables w') (seqs w') ∧
    ∃ u, user_row (ep_pubkey path) (tables w) = Some u ∧
         storage_of (tables w') = spec_put (u_id u) (as_str (ep_path path)) m (storage_of (tables w))) as Hcom.
  { intros Hc. destruct (write_committed_spec _ _ _ _ _ _ _ Hwf Hp Hm Hroom Had Hc Hle) as [? ?].
    split; [done|]. exists u. by destruct Had. }
  destruct Hd as [(md & -> & -> & Hc)|(e & -> & Hc)].
  - destruct (Hcom Hc). eauto 10.
  - destruct Hc as [Ht|Hc]; [by auto|]. destruct (Hcom Hc). auto.
Qed.

(** (C7) Nothing is published against the rules.  An upload that reaches the
    store (it succeeded, or failed after publication) was let through in a
    state of the tables as they were: the user exists; the user's total
    after the write, content and 256 bytes of metadata for every file, is
    within the limit; the lock the request was admitted under was live on
    the path; and, unless collisions are allowed for admin repair, no file of
    the user is a folder of the path or lies below it. *)
Theorem finalize_write_guards fin writer path m w b r w' b' :
  storage_wf (tables w) (seqs w) → EntryPath_wf path → metadata_ok m → headroom w path m →
  finalize_write fin writer path m w b = (r, w', b') →
  (∀ e, r ≠ Err (BeforePublication e)) →
  ∃ u existing, user_row (ep_pubkey path) (tables w) = Some u ∧
    row_at (entries (tables w)) (u_id u) (as_str (ep_path path)) existing ∧
    (∀ now id, within (storage_limit fin (ep_pubkey path) u)
       (usage (u_id u) (put_rows (u_id u) (as_str (ep_path path)) m existing now id (entries (tables w))))) ∧
    (∃ w1, tables w1 = tables w ∧ clock w ≤ clock w1 ∧ lock_held fin path w1) ∧
    (collision_policy fin = Enforce → ¬ user_collision (tables w) (ep_pubkey path) (ep_path path)).
Proof.
  intros Hwf Hp Hm Hroom Hr Hpub. apply finalize_write_inv in Hr as [_ Hi]; [|done..].
  destruct Hi as [(e & -> & _)|(u & existing & _ & _ & _ & (Hrow & Hat & Hl & Hc & Hw) & _)]; [by destruct (Hpub e)|].
  exists u, existing. split_and!; try done. intros now id. pose proof Hrow as [Hin _]%user_row_Some.
  pose proof Hwf as (_ & (? & ? & _) & _).
  rewrite usage_put_rows, Z.eqb_refl by done. by rewrite <-(proj2 (used_bounds _ _ u Hwf Hin)).
Qed.

(** Every refusal has its reason.  When preparation refuses an upload, the
    database is as before and the client is told why: 412 only if the lock the
    request ran under is gone, 409 only for a real file/folder collision, 507
    only if the new total would exceed the user's limit; otherwise 500. *)
Theorem write_refusal_reasons fin path m w e w' :
  storage_wf (tables w) (seqs w) → EntryPath_wf path → metadata_ok m → headroom w path m →
  prepare_write fin path m w = (Err e, w') →
  same_data w w' ∧
  let code := status (HttpError_from_file_io (FileIoError_from_opendal e)) in
  code = 500 ∨
  code = 412 ∧ (∃ w1, same_data w w1 ∧ ¬ lock_held fin path w1) ∨
  code = 409 ∧ collision_policy fin = Enforce ∧
    user_collision (tables w) (ep_pubkey path) (ep_path path) ∨
  code = 507 ∧ ∃ u existing, user_row (ep_pubkey path) (tables w) = Some u ∧
    row_at (entries (tables w)) (u_id u) (as_str (ep_path path)) existing ∧
    ∀ now id, ¬ within (storage_limit fin (ep_pubkey path) u)
      (usage (u_id u) (put_rows (u_id u) (as_str (ep_path path)) m existing now id (entries (tables w)))).
Proof.
  intros Hwf Hp Hm [_ Hroom] Hr. pose proof Hwf as (Hu & He & _).
  apply prepare_write_inv in Hr as [Hs Hpost]; [|done..]. split; [done|]. cbn zeta.
  destruct Hpost as [->|[(-> & Hl)|[(-> & Hc)|(-> & u & o & Hrow & Ho & Hnew)]]];
    [by left|by right; left|by right; right; left|right; right; right].
  split; [done|]. apply existing_row in Ho as (existing & Hat & ->). exists u, existing.
  split_and!; [done..|]. intros now id. specialize (Hroom u Hrow). pose proof Hrow as [Hin _]%user_row_Some.
  destruct He as (? & ? & _). rewrite usage_put_rows, Z.eqb_refl by done.
  rewrite <-(proj2 (used_bounds _ _ u Hwf Hin)).
  rewrite (PreparedWrite_new_spec (tables w) (seqs w)) in Hnew by done.
  pose proof (put_used_bounds _ _ u Hwf Hin existing _ m Hat) as Hb. destruct Hm as [_ Hm].
  destruct (would_exceed_limit _ _ _) eqn:Ex; [|done]. intros Hw.
  apply would_exceed_within in Hw; [congruence|]. unfold FILE_METADATA_SIZE in *. lia.
Qed.

End Writes.

(** * Deletes *)

Section Deletes.
Context `{PkarrKeysLaws, JsonStrings}.

(** What held when a delete was let through. *)
Definition delete_admitted (fin : Finalizer) (path : EntryPath) (w : World) (u : UserRow) (e : EntryRow) : Prop :=
  user_row (ep_pubkey path) (tables w) = Some u ∧
  row_at (entries (tables w)) (u_id u) (as_str (ep_path path)) (Some e) ∧
  ∃ w1, tables w1 = tables w ∧ clock w ≤ clock w1 ∧ lock_held fin path w1.

(** There is nothing to delete. *)
Definition no_file (path : EntryPath) (tb : Tables) : Prop :=
  ∀ u, user_row (ep_pubkey path) tb = Some u → row_at (entries tb) (u_id u) (as_str (ep_path path)) None.

Definition remove_row (e : EntryRow) (tb : Tables) : Tables := set_entries (filter (λ x, e_id x ≠ e_id e)) tb.

Lemma mono_write_lock_hold fin path : mono (write_lock_hold fin path).
Proof. intros w r w' [(_ & -> & _) _]%write_lock_hold_inv. reflexivity. Qed.

Lemma stage_delete_inv fin path w r w' :
  users_wf (tables w) → entries_wf (tables w) → EntryPath_wf path →
  stage_delete fin path w = (r, w') →
  seqs w' = seqs w ∧
  match r with
  | Ok None => no_file path (tables w)
  | Ok (Some staged) =>
      ∃ u e, delete_admitted fin path w u e ∧
        staged = mk_StagedDelete (entity_of (ep_pubkey path) u) (entry_entity path e) ∧
        tables w' = remove_row e (tables w)
  | Err e => e = unexpected ∨ e = lock_lost_error
  end.
Proof.
  intros Hu He Hp Hr. unfold stage_delete in Hr. cbv [mbind db_bind try_db] in Hr.
  destruct (UserRepository_get_for_no_key_update (ep_pubkey path) w) as [r1 w1] eqn:E1.
  apply get_user_inv in E1 as [Hs1 Hr1]. pose proof Hs1 as (Ht1 & Hq1 & _ & Hc1).
  destruct Hr1 as [->| ->]; [injection Hr as <- <-; auto|].
  destruct (user_row (ep_pubkey path) (tables w)) as [u|] eqn:Eu.
  2: { injection Hr as <- <-. split; [done|]. intros u Hu'. congruence. }
  destruct (write_lock_hold fin path w1) as [r2 w2] eqn:E2. apply write_lock_hold_inv in E2 as [Hs2 Hr2].
  pose proof Hs2 as (Ht2 & Hq2 & _ & Hc2).
  destruct r2 as [[]|e]; [|injection Hr as <- <-; split; [congruence|by destruct Hr2 as [->|[-> _]]; auto]].
  assert (tables w2 = tables w) as Ht by congruence.
  destruct (EntryRepository_get_by_path path w2) as [r3 w3] eqn:E3.
  apply get_by_path_inv in E3 as [Hs3 Hr3]; [|by rewrite Ht..|done]. pose proof Hs3 as (Ht3 & Hq3 & _ & _).
  rewrite Ht, Eu in Hr3.
  destruct Hr3 as [->|[(e & Hat & ->)|[-> Hno]]]; [injection Hr as <- <-; split; [congruence|by left]| |].
  2: { injection Hr as <- <-. split; [congruence|]. intros u' Hu'. rewrite Eu in Hu'. injection Hu' as <-.
       intros e Hin Heu Hep. by apply (Hno e). }
  unfold db_map_err in Hr. destruct (EntryRepository_delete _ w3) as [r4 w4] eqn:E4.
  apply exec_inv in E4 as (_ & _ & [(-> & _ & Hq4)|(r0 & Hd & Hr4)]).
  { injection Hr as <- <-. split; [congruence|by left]. }
  injection Hd as <- Ht4 Hq4.
  destruct Hr4 as [->| ->]; cbn [map_err] in Hr; injection Hr as <- <-; (split; [congruence|]); [|by left].
  exists u, e. split_and!; [|done|].
  - split_and!; [done..|]. exists w2. split_and!; [done|lia|done].
  - rewrite <-Ht4, Ht3, Ht. done.
Qed.

(** The tables after a delete. *)
Definition delete_tables (k : PublicKey) (u : UserRow) (path : str) (e : EntryRow) (event_now vid : Z)
    (tb : Tables) : Tables :=
  mk_Tables (set_used k u (u_used_bytes u - charge e) (users tb)) (filter (λ x, e_id x ≠ e_id e) (entries tb))
    (events tb ++ [event_row vid EventDelete (u_id u) path event_now]) (entry_locks tb) (auth tb).

Lemma apply_delete_effects_inv fin path u e w r w' :
  users_wf (tables w) → user_row (ep_pubkey path) (tables w) = Some u →
  0 ≤ u_used_bytes u ≤ I64_MAX → 0 ≤ e_content_length e ≤ I64_MAX → 0 ≤ u_used_bytes u - charge e →
  apply_delete_effects fin (mk_StagedDelete (entity_of (ep_pubkey path) u) (entry_entity path e)) path w
  = (Ok r, w') →
  tables w' = mk_Tables (set_used (ep_pubkey path) u (u_used_bytes u - charge e) (users (tables w)))
    (entries (tables w))
    (events (tables w) ++ [event_row (seq_events (seqs w)) EventDelete (u_id u) (as_str (ep_path path)) (utc_now fin)])
    (entry_locks (tables w)) (auth (tables w)) ∧
  seq_events (seqs w) < seq_events (seqs w') ∧ seq_entries (seqs w) ≤ seq_entries (seqs w').
Proof.
  intros Hu Hrow Hb Hl Hpos Hr. unfold apply_delete_effects in Hr. cbn [sd_user sd_deleted_entry] in Hr.
  apply db_bind_Ok in Hr as (v & w1 & Hr1%db_map_err_Ok & Hr).
  apply db_bind_Ok in Hr as (x & w2 & Hr2%db_map_err_Ok & Hr). injection Hr as _ <-.
  apply create_event_inv in Hr1 as (Ht1 & Hv & He & _).
  cbn [ue_used_bytes entity_of ee_content_length entry_entity] in Hr2.
  assert (u64_saturating_sub (as_u64 (u_used_bytes u)) (u64_saturating_add (e_content_length e) FILE_METADATA_SIZE)
          = u_used_bytes u - charge e) as Hsub.
  { unfold charge, u64_saturating_sub, u64_saturating_add, as_u64, U64_MAX, I64_MAX, FILE_METADATA_SIZE in *.
    rewrite Z.mod_small by lia. lia. }
  rewrite Hsub in Hr2.
  apply update_user_used_inv in Hr2 as [Ht2 (_ & ? & ?)].
  - split_and!; [|lia..]. by rewrite Ht2, Ht1.
  - by rewrite Ht1.
  - by rewrite Ht1.
  - unfold charge, FILE_METADATA_SIZE in *. lia.
Qed.

Lemma mono_apply_delete_effects fin staged path : mono (apply_delete_effects fin staged path).
Proof.
  unfold apply_delete_effects. repeat first
    [apply mono_ret|apply mono_event_create|apply mono_update_user|apply mono_map_err|apply mono_bind; [|intros ?]].
Qed.

(** Deleting gives back what the entry was charged. *)
Lemma remove_used tb sq u e path :
  storage_wf tb sq → u ∈ users tb → row_at (entries tb) (u_id u) path (Some e) →
  0 ≤ u_used_bytes u - charge e ∧ 0 ≤ e_content_length e ≤ I64_MAX ∧
  ∀ v, usage v (filter (λ x, e_id x ≠ e_id e) (entries tb))
       = usage v (entries tb) + (if u_id u =? v then - charge e else 0).
Proof.
  intros Hwf Hu Hat. pose proof (row_length tb sq u Hwf _ path e Hat eq_refl) as Hl.
  destruct (used_bounds tb sq u Hwf Hu) as [_ E]. destruct Hat as (He & Heu & _).
  destruct Hwf as (_ & (Hids & _ & Hef) & _).
  assert (∀ v, usage v (filter (λ x, e_id x ≠ e_id e) (entries tb))
       = usage v (entries tb) + (if u_id u =? v then - charge e else 0)) as Hrm.
  { intros v. rewrite usage_remove, Heu by done. destruct (u_id u =? v); lia. }
  split_and!; [|lia..|done]. specialize (Hrm (u_id u)). rewrite Z.eqb_refl in Hrm.
  assert (0 ≤ usage (u_id u) (filter (λ x, e_id x ≠ e_id e) (entries tb))); [|lia].
  apply usage_nonneg. rewrite Forall_forall in *. intros x [_ Hx]%list_elem_of_filter. apply Hef in Hx. tauto.
Qed.

Definition delete_committed (fin : Finalizer) (path : EntryPath) (w w' : World) (u : UserRow) (e : EntryRow) : Prop :=
  tables w' = delete_tables (ep_pubkey path) u (as_str (ep_path path)) e (utc_now fin) (seq_events (seqs w)) (tables w) ∧
  seq_events (seqs w) < seq_events (seqs w').

Lemma delete_in_transaction_inv fin path w r w' :
  storage_wf (tables w) (seqs w) → EntryPath_wf path →
  delete_in_transaction fin path w = (r, w') →
  seqs_le (seqs w) (seqs w') ∧
  match r with
  | Ok Deleted => ∃ u e, delete_admitted fin path w u e ∧ delete_committed fin path w w' u e
  | Ok NotFound => no_file path (tables w)
  | Err _ => True
  end.
Proof.
  intros Hwf Hp Hr. pose proof Hwf as (Hu & He & _). unfold delete_in_transaction in Hr.
  cbv [mbind db_bind] in Hr. destruct (stage_delete fin path w) as [r1 w1] eqn:E1.
  apply stage_delete_inv in E1 as [Hq1 Hr1]; [|done..]. rewrite <-Hq1.
  destruct r1 as [[staged|]|e]; [|injection Hr as <- <-; split; [reflexivity|done]..].
  destruct Hr1 as (u & e & Had & -> & Ht1).
  destruct (apply_delete_effects fin _ path w1) as [r2 w2] eqn:E2.
  assert (seqs_le (seqs w1) (seqs w2)) as Hle by by eapply mono_apply_delete_effects.
  destruct r2 as [[]|e2]; injection Hr as <- <-; (split; [done|]); [|done].
  exists u, e. split; [done|]. destruct Had as (Hrow & Hat & _). pose proof Hrow as [Hin _]%user_row_Some.
  destruct (remove_used _ _ _ _ _ Hwf Hin Hat) as (Hpos & Hl & _).
  destruct (used_bounds _ _ u Hwf Hin) as [Hb _].
  apply apply_delete_effects_inv in E2 as (Ht2 & Hv & _); [|by rewrite Ht1..|done|done|done].
  unfold delete_committed. rewrite <-Hq1. split; [|done]. by rewrite Ht2, Ht1.
Qed.

Lemma finalize_delete_inv fin path w r w' :
  storage_wf (tables w) (seqs w) → EntryPath_wf path →
  finalize_delete fin path w = (r, w') →
  seqs_le (seqs w) (seqs w') ∧
  match r with
  | Ok Deleted => ∃ u e, delete_admitted fin path w u e ∧ delete_committed fin path w w' u e
  | Ok NotFound => tables w' = tables w ∧ no_file path (tables w)
  | Err _ => tables w' = tables w ∨
             ∃ u e, delete_admitted fin path w u e ∧ delete_committed fin path w w' u e
  end.
Proof.
  intros Hwf Hp Hr. unfold finalize_delete in Hr. cbv [mbind db_bind db_map_err try_db] in Hr.
  destruct (begin w) as [rb w0] eqn:Eb. apply begin_inv in Eb as (Ht & Hq & Hc & Hb).
  destruct Hb as [[-> _]|[-> _]]; cbn [map_err] in Hr.
  { injection Hr as <- <-. rewrite Hq. split; [reflexivity|]. by left. }
  destruct (delete_in_transaction fin path w0) as [r1 w1] eqn:E1.
  apply delete_in_transaction_inv in E1 as [Hle Hr1]; [|by rewrite Ht, Hq|done]. rewrite Hq in Hle.
  destruct r1 as [[|]|e].
  - destruct Hr1 as (u & e & Had & Hcom).
    assert (delete_admitted fin path w u e) as Had'.
    { destruct Had as (? & ? & w2 & ? & ? & ?). unfold delete_admitted. rewrite <-Ht. split_and!; try done.
      exists w2. split_and!; try done. lia. }
    assert (∀ w2, tables w2 = tables w1 → seqs w2 = seqs w1 → delete_committed fin path w w2 u e) as Hcm.
    { destruct Hcom as [Htb Hv]. unfold delete_committed. intros w2 -> ->. rewrite <-Ht, <-Hq. done. }
    destruct (commit _ w1) as [rc w2] eqn:E2. apply commit_inv in E2 as (Hq2 & _ & _ & Hc2).
    destruct Hc2 as [[-> Ht2]|[-> Ht2]]; cbn [map_err] in Hr; injection Hr as <- <-; rewrite Hq2; (split; [done|]).
    + exists u, e. auto.
    + destruct Ht2 as [Ht2|Ht2]; [right|left; done]. exists u, e. auto.
  - destruct (rollback _ w1) as [rc w2] eqn:E2. apply rollback_inv in E2 as (Hq2 & _ & _ & Ht2 & Hrc).
    cbn in Ht2. rewrite Ht in Hr1.
    destruct Hrc as [->| ->]; cbn [map_err] in Hr; injection Hr as <- <-; rewrite Hq2; (split; [done|]); auto.
  - destruct (rollback _ w1) as [rc w2] eqn:E2. apply rollback_inv in E2 as (Hq2 & _ & _ & Ht2 & _).
    cbn in Ht2. injection Hr as <- <-. rewrite Hq2. split; [done|]. by left.
Qed.

Lemma delete_committed_spec fin path w w' u e :
  storage_wf (tables w) (seqs w) → EntryPath_wf path → seq_events (seqs w) ≤ I64_MAX →
  delete_admitted fin path w u e → delete_committed fin path w w' u e → seqs_le (seqs w) (seqs w') →
  storage_wf (tables w') (seqs w') ∧
  storage_of (tables w') = spec_delete (u_id u) (as_str (ep_path path)) (storage_of (tables w)).
Proof.
  intros Hwf [Hp _] Hseq (Hrow & Hat & _) [Htb Hv] (Hlu & Hle & _).
  pose proof Hrow as [Hin _]%user_row_Some. pose proof Hwf as (_ & (Hids & Hkeys & Hef) & _ & _ & (Hqe & _)).
  destruct (remove_used _ _ _ _ _ Hwf Hin Hat) as (Hpos & Hl & Hus).
  destruct (used_bounds _ _ u Hwf Hin) as [Hb _]. destruct Hat as (He & Heu & Hep). split.
  - eapply (storage_wf_update (tables w) (seqs w) _ _ (ep_pubkey path) u (- charge e));
      [done..| exact Htb| |  | exact Hus | | | | |done].
    + by destruct (ep_path path).
    + split_and!; cbn [entries users]; [by apply sublist_map_filter_NoDup..|].
      rewrite Forall_forall in *. intros x [_ Hx]%list_elem_of_filter. auto.
    + unfold charge, FILE_METADATA_SIZE in *. lia.
    + lia.
    + lia.
    + rewrite Forall_forall in *. intros x [_ Hx]%list_elem_of_filter. apply Hqe in Hx. lia.
  - rewrite Htb. unfold storage_of, spec_delete, delete_tables. cbn [st_files st_log events entries]. f_equal.
    + apply files_of_remove; try done. unfold entry_key. congruence.
    + rewrite map_app. cbn [map]. by rewrite log_entry_event_row.
Qed.

(** Finalizing a delete refines the abstract storage, whatever the
    schedule of database faults.  [Deleted] means the user had the file, the
    lock the request ran under was live, and the tables now represent exactly
    one [spec_delete]: the file is gone, its bytes and metadata are given back,
    one [DEL] event ends the log.  [NotFound] means there was no such file and
    nothing changed.  After an error nothing changed, or exactly that delete
    took effect (a commit whose acknowledgement was lost). *)
Theorem finalize_delete_refines fin path w r w' :
  storage_wf (tables w) (seqs w) → EntryPath_wf path → seq_events (seqs w) ≤ I64_MAX →
  finalize_delete fin path w = (r, w') →
  storage_wf (tables w') (seqs w') ∧
  let delete_done :=
    ∃ u e, delete_admitted fin path w u e ∧
      storage_of (tables w') = spec_delete (u_id u) (as_str (ep_path path)) (storage_of (tables w)) ∧
      usage (u_id u) (entries (tables w')) = usage (u_id u) (entries (tables w)) - charge e in
  match r with
  | Ok Deleted => delete_done
  | Ok NotFound => tables w' = tables w ∧ no_file path (tables w)
  | Err _ => tables w' = tables w ∨ delete_done
  end.
Proof.
  intros Hwf Hp Hseq Hr. apply finalize_delete_inv in Hr as [Hle Hr]; [|done..].
  assert (tables w' = tables w → storage_wf (tables w') (seqs w')) as Hsame.
  { intros ->. by eapply storage_wf_mono. }
  assert (∀ u e, delete_admitted fin path w u e → delete_committed fin path w w' u e →
    storage_wf (tables w') (seqs w') ∧
    ∃ u e, delete_admitted fin path w u e ∧
      storage_of (tables w') = spec_delete (u_id u) (as_str (ep_path path)) (storage_of (tables w)) ∧
      usage (u_id u) (entries (tables w')) = usage (u_id u) (entries (tables w)) - charge e) as Hcom.
  { intros u e Had Hc. destruct (delete_committed_spec _ _ _ _ _ _ Hwf Hp Hseq Had Hc Hle) as [? ?].
    split; [done|]. exists u, e. split_and!; [done..|]. destruct Had as (Hrow & Hat & _), Hc as [-> _].
    pose proof Hrow as [Hin _]%user_row_Some.
    destruct (remove_used _ _ _ _ _ Hwf Hin Hat) as (_ & _ & Hus). unfold delete_tables. cbn [entries]. rewrite Hus, Z.eqb_refl. lia. }
  destruct r as [[|]|e].
  - destruct Hr as (u & e & Had & Hc). exact (Hcom u e Had Hc).
  - destruct Hr as [Ht Hno]. auto.
  - destruct Hr as [Ht|(u & e' & Had & Hc)]; [by auto|]. destruct (Hcom u e' Had Hc). auto.
Qed.

End Deletes.

(** * Witnesses *)

Definition demo_fin : Finalizer := mk_Finalizer (Some 1) Enforce None 5000.
Definition demo_file : EntryPath :=
  EntryPath_new (H := demo_keys) true (mk_StoragePath (lit "/pub/app/file.txt")).
Definition demo_metadata : FileMetadata := mk_FileMetadata (repeat 9 32) 10 (lit "text/plain").
Definition demo_huge : FileMetadata := mk_FileMetadata (repeat 9 32) 2000000 (lit "text/plain").

Lemma demo_storage_wf ts : storage_wf (H := demo_keys) (tables (demo_storage ts)) (seqs (demo_storage ts)).
Proof.
  split_and!; [by apply demo_users_wf|split_and!|split|..].
  - apply NoDup_singleton.
  - apply NoDup_singleton.
  - apply Forall_singleton. split_and!; [left|by vm_compute|done|by vm_compute..].
  - apply NoDup_nil_2.
  - apply Forall_nil_2.
  - repeat apply Forall_cons_2; [by vm_compute..|apply Forall_nil_2].
  - split_and!; [by apply Forall_singleton|by apply Forall_nil_2|done|].
    repeat apply Forall_cons_2; [by vm_compute..|apply Forall_nil_2].
Qed.

Lemma demo_headroom ts m : fm_length m = 10 ∨ fm_length m = 2000000 → headroom (demo_storage ts) demo_file m.
Proof.
  intros Hm. split; [by vm_compute|]. intros u Hu. vm_compute in Hu. injection Hu as <-.
  destruct Hm as [-> | ->]; by vm_compute.
Qed.

Lemma finalize_write_refines_witness :
  ∃ w' b', finalize_write (H1 := demo_backend) demo_fin (ep_key demo_file) demo_file demo_metadata (demo_storage []) []
           = (Ok (), w', b') ∧
    storage_wf (H := demo_keys) (tables w') (seqs w').
Proof.
  eexists _, _. split; [vm_compute; reflexivity|].
  refine (proj1 (finalize_write_refines (H := demo_keys) (H1 := demo_json) (H2 := demo_backend) demo_fin (ep_key demo_file) demo_file
    demo_metadata (demo_storage []) [] (Ok ()) _ _ _ _ _ _ _)).
  - apply demo_storage_wf.
  - split; vm_compute; reflexivity.
  - split; [reflexivity|]. split; vm_compute; discriminate.
  - apply demo_headroom. by left.
  - vm_compute. reflexivity.
Defined.

Lemma finalize_write_guards_witness :
  ∃ w' b', finalize_write (H1 := demo_backend) demo_fin (ep_key demo_file) demo_file demo_metadata (demo_storage []) []
           = (Ok (), w', b') ∧
  ∃ u existing, user_row (ep_pubkey demo_file) (tables (demo_storage [])) = Some u ∧
    row_at (entries (tables (demo_storage []))) (u_id u) (as_str (ep_path demo_file)) existing.
Proof.
  eexists _, _. split; [vm_compute; reflexivity|].
  destruct (finalize_write_guards (H := demo_keys) (H1 := demo_json) (H2 := demo_backend) demo_fin (ep_key demo_file) demo_file
    demo_metadata (demo_storage []) [] (Ok ()) _ _ (demo_storage_wf [])
    ltac:(split; vm_compute; reflexivity) ltac:(split; [reflexivity|]; split; vm_compute; discriminate)
    ltac:(apply demo_headroom; by left) ltac:(vm_compute; reflexivity) ltac:(discriminate))
    as (u & existing & Hu & Hat & _).
  exists u, existing. split; [exact Hu|exact Hat].
Defined.

Lemma write_refusal_reasons_witness :
  ∃ e w', prepare_write demo_fin demo_file demo_huge (demo_storage []) = (Err e, w') ∧
    same_data (demo_storage []) w'.
Proof.
  eexists _, _. split; [vm_compute; reflexivity|].
  refine (proj1 (write_refusal_reasons (H := demo_keys) (H1 := demo_json) demo_fin demo_file demo_huge
    (demo_storage []) quota_exceeded_error _ (demo_storage_wf []) _ _ _ _)).
  - split; vm_compute; reflexivity.
  - split; [reflexivity|]. split; vm_compute; discriminate.
  - apply demo_headroom. by right.
  - vm_compute. reflexivity.
Defined.

Lemma finalize_delete_refines_witness :
  ∃ w', finalize_delete demo_fin demo_file (demo_storage []) = (Ok Deleted, w') ∧
    storage_wf (H := demo_keys) (tables w') (seqs w').
Proof.
  eexists. split; [vm_compute; reflexivity|].
  refine (proj1 (finalize_delete_refines (H := demo_keys) demo_fin demo_file
    (demo_storage []) (Ok Deleted) _ (demo_storage_wf []) _ _ _)).
  - split; vm_compute; reflexivity.
  - vm_compute. discriminate.
  - vm_compute. reflexivity.
Defined.
