(* ===== verification/Uploads.v ===== *)
(** Uploads and deletions end to end: file metadata
    ([persistence/files/file/file_metadata.rs]), the layers an upload goes
    through ([write_check.rs], [write_path_layer.rs], the writer and deleter of
    [write_finalization_layer/]), the file service
    ([file/file_service.rs], [opendal/opendal_service.rs]) and the [PUT] and
    [DELETE] handlers ([client_server/routes/tenants/write.rs]).

    Hashing, MIME detection and MIME guessing belong to the [blake3], [infer]
    and [mime_guess] crates and are the interface [ContentTools].  A request
    body is the list of its chunks, each possibly a stream error.  OpenDAL's
    operator passes each chunk to the layers as it is, and its [delete] queues
    the path on a deleter and closes it. *)

From stdpp Require Import relations gmap.
From S2P Require Import Prelude StoragePath Capabilities HttpError Keys Tenant Quota Database Users.
From S2P Require Import Authorization Entries EntryLocks Events Finalization Accounting AppState LockRoutes Refinement.

(** * File metadata *)

Class ContentTools := {
  Hasher : Type;
  hasher_default : Hasher;
  hasher_update : list Z → Hasher → Hasher;
  hasher_finalize : Hasher → Hash;
  (** [infer::get(..).mime_type()]. *)
  infer_get : list Z → option str;
  (** [mime_guess::from_path(..).first_or_octet_stream()]. *)
  mime_from_path : str → str;
}.

(** Incremental hashing: only the concatenation matters; a digest is 32 bytes. *)
Class ContentToolsLaws `{ContentTools} := {
  hasher_app a b h : hasher_update b (hasher_update a h) = hasher_update (a ++ b) h;
  hasher_nil h : hasher_update [] h = h;
  hasher_len h : length (hasher_finalize h) = 32%nat;
}.

Definition DEFAULT_CONTENT_TYPE : str := lit "application/octet-stream".

Section Metadata.
Context `{ContentTools}.

Record FileMetadataBuilder := mk_FileMetadataBuilder {
  fb_hasher : Hasher;
  fb_length : Z;
  fb_path_content_type : option str;
  fb_magic_bytes_content_type : option str
}.

Definition FileMetadataBuilder_default : FileMetadataBuilder :=
  mk_FileMetadataBuilder hasher_default 0 None None.

Definition FileMetadataBuilder_update (chunk : list Z) (b : FileMetadataBuilder) : FileMetadataBuilder :=
  let is_first_chunk := fb_length b =? 0 in
  let magic := if is_first_chunk
               then match infer_get chunk with
                    | Some ctype => Some ctype
                    | None => fb_magic_bytes_content_type b
                    end
               else fb_magic_bytes_content_type b in
  mk_FileMetadataBuilder (hasher_update chunk (fb_hasher b)) (fb_length b + Z.of_nat (length chunk))
    (fb_path_content_type b) magic.

Definition FileMetadataBuilder_guess_mime_type_from_path (path : str) (b : FileMetadataBuilder)
    : FileMetadataBuilder :=
  mk_FileMetadataBuilder (fb_hasher b) (fb_length b) (Some (mime_from_path path))
    (fb_magic_bytes_content_type b).

Definition derived_content_type (b : FileMetadataBuilder) : str :=
  match fb_magic_bytes_content_type b, fb_path_content_type b with
  | Some ct, _ => ct
  | None, Some ct => ct
  | None, None => DEFAULT_CONTENT_TYPE
  end.

Definition FileMetadataBuilder_finalize (b : FileMetadataBuilder) : FileMetadata :=
  mk_FileMetadata (hasher_finalize (fb_hasher b)) (fb_length b) (derived_content_type b).

End Metadata.

(** * Layers *)

Section Layers.
Context `{PkarrKeys, JsonStrings, Backend, ContentTools}.

(** [EntryPath::parse_opendal]. *)
Definition EntryPath_parse_opendal (path : str) : result OpendalError EntryPath :=
  map_err (λ _, unexpected) (EntryPath_from_str path).

Definition write_path_forbidden_error : OpendalError :=
  mk_OpendalError KPermissionDenied (Some WritePathForbidden).

(** [now] is the monotonic clock of the quota cache. *)
Definition check_write_path_allowed (now : Z) (path : str) : AM OpendalError () :=
  entry_path ← am_lift (EntryPath_parse_opendal path);
  quota ← am_map_err (λ _, unexpected) (am_cache (resolve_quota now (ep_pubkey entry_path)));
  match quota with
  | None => mret ()
  | Some quota =>
      if negb (UserQuota_is_write_path_allowed quota (as_str (ep_path entry_path)))
      then am_throw write_path_forbidden_error else mret ()
  end.

(** A call on a writer: it may fail, and changes the writer either way. *)
Definition WOp (W A : Type) : Type := W → App → result OpendalError A * W * App.

(** [CheckedWriter]: the check runs before the first byte or the close. *)
Record CheckedWriter (W : Type) := mk_CheckedWriter { cw_inner : W; cw_passed : bool }.
#[global] Arguments mk_CheckedWriter {_} _ _.
#[global] Arguments cw_inner {_} _.
#[global] Arguments cw_passed {_} _.

Definition CheckedWriter_new {W} (inner : W) : CheckedWriter W := mk_CheckedWriter inner false.

Definition on_inner {W A} (op : WOp W A) (passed : bool) : WOp (CheckedWriter W) A := λ cw s,
  let '(r, inner, s) := op (cw_inner cw) s in (r, mk_CheckedWriter inner passed, s).

(** [ensure_passed], then the call. *)
Definition checked {W A} (check : AM OpendalError ()) (op : WOp W A) : WOp (CheckedWriter W) A := λ cw s,
  if cw_passed cw then on_inner op true cw s
  else match check s with
       | (Ok _, s) => on_inner op true cw s
       | (Err e, s) => (Err e, cw, s)
       end.

(** [WriteFinalizationWriter]. *)
Record FinalizationWriter := mk_FinalizationWriter {
  fw_inner : option BlobWriter;
  fw_builder : FileMetadataBuilder
}.

Definition fw_write (bs : list Z) : WOp FinalizationWriter () := λ fw s,
  match fw_inner fw with
  | None => (Err unexpected, fw, s)
  | Some inner =>
      let fw := mk_FinalizationWriter (Some inner) (FileMetadataBuilder_update bs (fw_builder fw)) in
      let '(r, s) := am_blob (writer_write inner bs) s in (r, fw, s)
  end.

Definition fw_abort : WOp FinalizationWriter () := λ fw s,
  match fw_inner fw with
  | None => (Ok (), fw, s)
  | Some inner =>
      let '(r, s) := am_blob (writer_abort inner) s in (r, mk_FinalizationWriter None (fw_builder fw), s)
  end.

Definition fw_close (fin : Finalizer) (entry_path : EntryPath) : WOp FinalizationWriter BlobMetadata := λ fw s,
  match fw_inner fw with
  | None => (Err unexpected, fw, s)
  | Some inner =>
      let builder := FileMetadataBuilder_guess_mime_type_from_path (as_str (ep_path entry_path)) (fw_builder fw) in
      let file_metadata := FileMetadataBuilder_finalize builder in
      let '(r, s) := am_fm (writer_finalize fin inner entry_path file_metadata) s in
      (r, mk_FinalizationWriter None builder, s)
  end.

(** The writer the app-facing operator hands out: the write-path check around
    the collision check around the finalization. *)
Definition UploadWriter : Type := CheckedWriter (CheckedWriter FinalizationWriter).

Definition operator_writer (path : str) : AM OpendalError UploadWriter :=
  entry_path ← am_lift (EntryPath_parse_opendal path);
  inner ← am_blob (open_writer (ep_key entry_path));
  mret (CheckedWriter_new (CheckedWriter_new
          (mk_FinalizationWriter (Some inner) FileMetadataBuilder_default))).

Section WithRequest.
(** The cache's clock, the finalizer with the request's lock token, the path. *)
Context (now : Z) (fin : Finalizer) (entry_path : EntryPath).

Definition write_path_check : AM OpendalError () := check_write_path_allowed now (ep_key entry_path).
Definition collision_check : AM OpendalError () := am_db (collision_preflight fin entry_path).

Definition upload_write (bs : list Z) : WOp UploadWriter () :=
  checked write_path_check (checked collision_check (fw_write bs)).
Definition upload_close : WOp UploadWriter BlobMetadata :=
  checked write_path_check (checked collision_check (fw_close fin entry_path)).
Definition upload_abort : WOp UploadWriter () := λ cw s,
  on_inner (λ cw s, on_inner fw_abort (cw_passed cw) cw s) (cw_passed cw) cw s.

(** The [while let] loop over the stream. *)
Fixpoint write_chunks (chunks : list (result () (list Z))) (writer : UploadWriter) (s : App)
    : result FileIoError () * UploadWriter * App :=
  match chunks with
  | [] => (Ok (), writer, s)
  | Err _ :: _ => (Err FileIoStreamBroken, writer, s)
  | Ok bs :: chunks =>
      match upload_write bs writer s with
      | (Ok _, writer, s) => write_chunks chunks writer s
      | (Err e, writer, s) => (Err (FileIoError_from_opendal e), writer, s)
      end
  end.

(** The rest of [write_stream]: close the writer, or abort a broken upload. *)
Definition stream_into (chunks : list (result () (list Z))) (writer : UploadWriter) : AM FileIoError () := λ s,
  match write_chunks chunks writer s with
  | (Ok _, writer, s) =>
      match upload_close writer s with
      | (Ok _, _, s) => (Ok (), s)
      | (Err e, _, s) => (Err (FileIoError_from_opendal e), s)
      end
  | (Err stream_error, writer, s) =>
      let '(_, _, s) := upload_abort writer s in (Err stream_error, s)
  end.

Definition OpendalService_write_stream (chunks : list (result () (list Z))) : AM FileIoError () :=
  writer ← am_map_err FileIoError_from_opendal (operator_writer (ep_key entry_path));
  stream_into chunks writer.

(** * The file service *)

Definition FileService_get_info : AM FileIoError EntryEntity := λ s,
  match am_db (EntryRepository_get_by_path entry_path) s with
  | (Ok entry, s) => (Ok entry, s)
  | (Err RowNotFound, s) => (Err FileIoNotFound, s)
  | (Err e, s) => (Err (FileIoSqlDb e), s)
  end.

Definition FileService_write_stream (chunks : list (result () (list Z))) : AM FileIoError EntryEntity :=
  OpendalService_write_stream chunks ;;
  FileService_get_info.

(** [Operator::delete]: the write-path deleter around the queued deletes. *)
Definition OpendalService_delete : AM FileIoError () :=
  am_map_err FileIoError_from_opendal (
    check_write_path_allowed now (ep_key entry_path) ;;
    pending ← am_lift (EntryPath_parse_opendal (ep_key entry_path));
    '(error, _) ← am_fm (queued_deletes_close fin [pending]);
    match error with Some e => am_throw e | None => mret () end).

Definition FileService_delete : AM FileIoError () :=
  exists_ ← am_map_err FileIoError_from_opendal (am_blob (backend_exists (ep_key entry_path)));
  if negb exists_ then am_throw FileIoNotFound else OpendalService_delete.

End WithRequest.

(** * Handlers *)

Definition content_length_from_headers (headers : HeaderMap) : option Z :=
  v ← headers_get headers (lit "content-length");
  value ← v;
  parse_uint U64_MAX value.

(** [bytes_delta] is an [i64]: the casts and the addition wrap. *)
Definition size_hint_exceeds_quota (content_size_hint : Z) (user : UserEntity) (default_mb : option Z)
    (existing_entry : option EntryEntity) : bool :=
  let existing_entry_bytes := match existing_entry with Some e => ee_content_length e | None => 0 end in
  let bytes_delta := as_i64 (as_i64 content_size_hint - as_i64 existing_entry_bytes) in
  let bytes_delta := match existing_entry with
                     | None => as_i64 (bytes_delta + as_i64 FILE_METADATA_SIZE)
                     | Some _ => bytes_delta
                     end in
  would_exceed_limit (ue_used_bytes user) bytes_delta (resolve_storage_max_bytes user default_mb).

Definition fail_if_size_hint_exceeds_quota (content_size_hint : option Z) (user : UserEntity)
    (default_mb : option Z) (entry_path : EntryPath) : DB HttpError () :=
  match content_size_hint with
  | None => mret ()
  | Some size =>
      r ← try_db (EntryRepository_get_by_path entry_path);
      if size_hint_exceeds_quota size user default_mb (ok r)
      then throw HttpError_insufficient_storage else mret ()
  end.

(** What the handlers read of the application: the cache's clock, the default
    quota and the wall clock of event timestamps. *)
Record Context_ := mk_Context { cx_now : Z; cx_default_quota_mb : option Z; cx_utc_now : Z }.

(** The finalizer of the app-facing operator, run under a lock token. *)
Definition request_finalizer (cx : Context_) (token : option str) : Finalizer :=
  mk_Finalizer (cx_default_quota_mb cx) (CollisionPolicy_from_enforcement true) token (cx_utc_now cx).

Definition put (cx : Context_) (session : AuthSession) (entry_path : EntryPath) (headers : HeaderMap)
    (body : list (result () (list Z))) : AM HttpError Z :=
  user ← am_db (authorize_write session entry_path true);
  let content_length := content_length_from_headers headers in
  am_db (fail_if_size_hint_exceeds_quota content_length user (cx_default_quota_mb cx) entry_path) ;;
  with_write_lock entry_path headers (λ token,
    am_map_err HttpError_from_file_io
      (FileService_write_stream (cx_now cx) (request_finalizer cx token) entry_path body)) ;;
  mret 201.

Definition delete_route (cx : Context_) (session : AuthSession) (entry_path : EntryPath) (headers : HeaderMap)
    : AM HttpError Z :=
  am_db (authorize_write session entry_path false) ;;
  with_write_lock entry_path headers (λ token,
    am_map_err HttpError_from_file_io
      (FileService_delete (cx_now cx) (request_finalizer cx token) entry_path)) ;;
  mret 204.

(** The deprecated owner-relative routes. *)
Definition legacy_put (cx : Context_) (session : AuthSession) (tenant : RequestTenant) (path : StoragePath)
    (headers : HeaderMap) (body : list (result () (list Z))) : AM HttpError Z :=
  put cx session (EntryPath_new (rt_public_key tenant) path) headers body.
Definition legacy_delete (cx : Context_) (session : AuthSession) (tenant : RequestTenant) (path : StoragePath)
    (headers : HeaderMap) : AM HttpError Z :=
  delete_route cx session (EntryPath_new (rt_public_key tenant) path) headers.

End Layers.

(** * Theorems *)

(** ** Metadata *)

Section MetadataTheorems.
Context `{ContentToolsLaws}.

(** The builder after a sequence of chunks. *)
Definition build (cs : list (list Z)) (b : FileMetadataBuilder) : FileMetadataBuilder :=
  foldl (λ b c, FileMetadataBuilder_update c b) b cs.

Lemma build_spec cs b :
  fb_hasher (build cs b) = hasher_update (concat cs) (fb_hasher b) ∧
  fb_length (build cs b) = fb_length b + Z.of_nat (length (concat cs)).
Proof.
  revert b. induction cs as [|c cs IH]; intros b; cbn [concat build foldl].
  - rewrite hasher_nil. cbn. split; [done|lia].
  - destruct (IH (FileMetadataBuilder_update c b)) as [Hh Hl]. unfold build in Hh, Hl. rewrite Hh, Hl.
    cbn [FileMetadataBuilder_update fb_hasher fb_length]. rewrite hasher_app, length_app. split; [done|lia].
Qed.

(** The digest of a body. *)
Definition digest (bytes : list Z) : Hash := hasher_finalize (hasher_update bytes hasher_default).

Lemma upload_metadata cs path :
  let m := FileMetadataBuilder_finalize
             (FileMetadataBuilder_guess_mime_type_from_path path (build cs FileMetadataBuilder_default)) in
  fm_hash m = digest (concat cs) ∧ fm_length m = Z.of_nat (length (concat cs)) ∧
  length (fm_hash m) = 32%nat.
Proof.
  cbn. destruct (build_spec cs FileMetadataBuilder_default) as [Hh Hl]. cbn in Hh, Hl.
  rewrite Hl, hasher_len. split_and!; [|done..]. unfold digest. by rewrite <-Hh.
Qed.

End MetadataTheorems.

(** ** The write-path check *)

Section WritePathCheck.
Context `{PkarrKeysLaws, JsonStrings, Backend, ContentTools}.

(** The quota a request sees: the cached one while it is fresh, else the
    user's in the database. *)
Definition quota_seen (now : Z) (k : PublicKey) (c : list (PublicKey * CachedEntry)) (tb : Tables)
    : option UserQuota :=
  match QuotaCache_get now c k with
  | Some cached => cached
  | None => (λ u, UserQuota_from_nullable_columns (u_quota u)) <$> user_row k tb
  end.

Definition path_allowed (now : Z) (path : EntryPath) (c : list (PublicKey * CachedEntry)) (tb : Tables) : Prop :=
  match quota_seen now (ep_pubkey path) c tb with
  | Some q => UserQuota_is_write_path_allowed q (as_str (ep_path path)) = true
  | None => True
  end.

Lemma resolve_quota_inv now k c w r c' w' :
  resolve_quota now k c w = (r, c', w') →
  same_data w w' ∧ (r = Err SqlIo ∨ r = Ok (quota_seen now k c (tables w))).
Proof.
  unfold resolve_quota, quota_seen. destruct (QuotaCache_get now c k) as [cached|].
  { intros [= <- <- <-]. split; [reflexivity|by right]. }
  destruct (UserRepository_get k w) as [r1 w1] eqn:E. apply get_user_inv in E as [Hs [->| ->]].
  - intros [= <- <- <-]. auto.
  - destruct (user_row k (tables w)); intros [= <- <- <-]; auto.
Qed.

(** Only the cache and the clock moved. *)
Definition quiet (s s' : App) : Prop :=
  same_data (app_world s) (app_world s') ∧ app_store s' = app_store s.

#[local] Instance quiet_preorder : PreOrder quiet.
Proof. split; [intros s; by split|]. intros a b c [? ?] [? ?]. split; [by transitivity (app_world b)|congruence]. Qed.

Lemma parse_opendal_key path : EntryPath_wf path → EntryPath_parse_opendal (ep_key path) = Ok path.
Proof.
  intros [Hp E]. unfold EntryPath_parse_opendal. rewrite E. cbn [ep_key EntryPath_new].
  change (PublicKey_z32 (ep_pubkey path) ++ as_str (ep_path path))
    with (ep_key (EntryPath_new (ep_pubkey path) (ep_path path))).
  by rewrite EntryPath_parse_key.
Qed.

Lemma check_write_path_inv now path s r s' :
  EntryPath_wf path → check_write_path_allowed now (ep_key path) s = (r, s') →
  quiet s s' ∧
  match r with
  | Ok _ => path_allowed now path (app_cache s) (tables (app_world s))
  | Err e => e = unexpected ∨
             e = write_path_forbidden_error ∧ ¬ path_allowed now path (app_cache s) (tables (app_world s))
  end.
Proof.
  intros Hp Hr. unfold check_write_path_allowed in Hr. rewrite parse_opendal_key in Hr by done.
  cbv [mbind am_bind am_lift am_map_err am_cache] in Hr. unfold path_allowed.
  destruct (resolve_quota now (ep_pubkey path) (app_cache s) (app_world s)) as [[r1 c1] w1] eqn:E.
  apply resolve_quota_inv in E as [Hs Hq].
  assert (quiet s (mk_App w1 (app_store s) c1)) as Hqs by done.
  destruct Hq as [->| ->]; cbn [map_err] in Hr; [injection Hr as <- <-; auto|].
  destruct (quota_seen _ _ _ _) as [q|]; [|injection Hr as <- <-; done].
  destruct (UserQuota_is_write_path_allowed q _) eqn:Ea; cbn [negb] in Hr; injection Hr as <- <-; (split; [done|]).
  - done.
  - right. split; [done|]. done.
Qed.

(** Write-path restrictions are enforced below every handler.  The check
    that runs before the first byte of an upload, and before a delete, passes
    only if the quota the request sees allows the path, and answers 403 only
    if it does not; 500 otherwise.  It changes neither tables nor store. *)
Theorem write_path_check_exact now path s r s' :
  EntryPath_wf path → check_write_path_allowed now (ep_key path) s = (r, s') →
  quiet s s' ∧
  match r with
  | Ok _ => path_allowed now path (app_cache s) (tables (app_world s))
  | Err e =>
      let code := status (HttpError_from_file_io (FileIoError_from_opendal e)) in
      code = 500 ∨ code = 403 ∧ ¬ path_allowed now path (app_cache s) (tables (app_world s))
  end.
Proof.
  intros Hp [Hq Hr]%check_write_path_inv; [|done]. split; [done|]. destruct r as [|e]; [done|].
  destruct Hr as [->|[-> ?]]; [by left|by right].
Qed.

(** ** Streaming *)

Section Streaming.
Context (now : Z) (fin : Finalizer) (path : EntryPath) (s0 : App).
Hypothesis Hpath : EntryPath_wf path.

(** An upload in progress: the writer is open, has seen [cs], and the tables
    are as they were; once the outer check has passed, the path is allowed. *)
Definition uploading (inner : BlobWriter) (cs : list (list Z)) (uw : UploadWriter) (s : App) : Prop :=
  cw_inner (cw_inner uw) = mk_FinalizationWriter (Some inner) (build cs FileMetadataBuilder_default) ∧
  same_data (app_world s0) (app_world s) ∧
  if cw_passed uw then path_allowed now path (app_cache s0) (tables (app_world s0))
  else app_cache s = app_cache s0.

Lemma collision_check_inv s r s' :
  entries_wf (tables (app_world s)) → collision_check fin path s = (r, s') →
  same_data (app_world s) (app_world s').
Proof.
  intros He Hr. unfold collision_check, am_db in Hr.
  destruct (collision_preflight fin path (app_world s)) as [r1 w1] eqn:E. injection Hr as <- <-. cbn.
  unfold collision_preflight in E. destruct (negb _).
  - injection E as <- <-. reflexivity.
  - by apply check_no_path_collision_inv in E as [? _].
Qed.

(** One check in front of a call: it refuses, or the call runs. *)
Lemma checked_cases {W A} (check : AM OpendalError ()) (op : WOp W A) (cw : CheckedWriter W) s r cw' s' :
  checked check op cw s = (r, cw', s') →
  (∃ e, cw_passed cw = false ∧ check s = (Err e, s') ∧ r = Err e) ∨
  ∃ s1 inner, (cw_passed cw = true ∧ s1 = s ∨ cw_passed cw = false ∧ check s = (Ok (), s1)) ∧
    op (cw_inner cw) s1 = (r, inner, s') ∧ cw' = mk_CheckedWriter inner true.
Proof.
  unfold checked, on_inner. destruct (cw_passed cw).
  - destruct (op (cw_inner cw) s) as [[r1 inner] s1] eqn:E. intros [= <- <- <-]. right. eauto 10.
  - destruct (check s) as [[[]|e] s1] eqn:Ec.
    + destruct (op (cw_inner cw) s1) as [[r1 inner] s2] eqn:E. intros [= <- <- <-]. right. eauto 10.
    + intros [= <- <- <-]. left. eauto.
Qed.

(** Both checks in front of a call on the finalization writer. *)
Lemma layers_inv {A} (op : WOp FinalizationWriter A) inner cs uw s r uw' s' :
  entries_wf (tables (app_world s0)) → uploading inner cs uw s →
  checked (write_path_check now path) (checked (collision_check fin path) op) uw s = (r, uw', s') →
  (∃ e, r = Err e ∧ same_data (app_world s0) (app_world s')) ∨
  ∃ s1 fw, same_data (app_world s0) (app_world s1) ∧
    path_allowed now path (app_cache s0) (tables (app_world s0)) ∧
    op (mk_FinalizationWriter (Some inner) (build cs FileMetadataBuilder_default)) s1 = (r, fw, s') ∧
    cw_inner (cw_inner uw') = fw ∧ cw_passed uw' = true.
Proof.
  intros He (Hin & Hs & Hp) Hr. pose proof Hs as (Ht & _).
  apply checked_cases in Hr as [(e & Ef & Hc & ->)|(s1 & cw & Hc & Hr & ->)].
  { apply check_write_path_inv in Hc as [[Hq _] _]; [|done]. left. exists e. split; [done|].
    by transitivity (app_world s). }
  assert (same_data (app_world s0) (app_world s1) ∧
          path_allowed now path (app_cache s0) (tables (app_world s0))) as [Hs1 Hal].
  { destruct Hc as [[E ->]|[E Hc]]; rewrite E in Hp; [done|].
    apply check_write_path_inv in Hc as [[Hq _] Hc]; [|done]. rewrite Hp, Ht in Hc.
    split; [by transitivity (app_world s)|done]. }
  pose proof Hs1 as (Ht1 & _). rewrite <-Ht1 in He.
  apply checked_cases in Hr as [(e & Ef & Hc2 & ->)|(s2 & fw & Hc2 & Hr & ->)].
  { apply collision_check_inv in Hc2; [|done]. left. exists e. split; [done|]. by transitivity (app_world s1). }
  right. exists s2, fw. rewrite Hin in Hr. split_and!; try done.
  destruct Hc2 as [[_ ->]|[_ Hc2]]; [done|]. apply collision_check_inv in Hc2; [|done].
  by transitivity (app_world s1).
Qed.

Lemma write_chunks_inv inner chunks : ∀ cs uw s r uw' s',
  entries_wf (tables (app_world s0)) → uploading inner cs uw s →
  write_chunks now fin path chunks uw s = (r, uw', s') →
  same_data (app_world s0) (app_world s') ∧
  match r with
  | Ok _ => ∃ cs', chunks = map Ok cs' ∧ uploading inner (cs ++ cs') uw' s'
  | Err _ => True
  end.
Proof.
  induction chunks as [|[bs|e] chunks IH]; intros cs uw s r uw' s' He Hup Hr; cbn [write_chunks] in Hr.
  - injection Hr as <- <- <-. split; [by destruct Hup as (_ & ? & _)|]. exists []. by rewrite app_nil_r.
  - destruct (upload_write now fin path bs uw s) as [[r1 uw1] s1] eqn:E.
    apply (layers_inv _ inner cs) in E as [(e & -> & Hs1)|(s2 & fw & Hs2 & Hal & Hop & Hin & Hpass)]; [| |done..].
    { injection Hr as <- <- <-. done. }
    unfold fw_write, am_blob in Hop. cbn [fw_inner fw_builder] in Hop.
    destruct (writer_write inner bs (app_store s2)) as [rw b2]. injection Hop as <- Hfw <-.
    assert (uploading inner (cs ++ [bs]) uw1 (mk_App (app_world s2) b2 (app_cache s2))) as Hup1.
    { split_and!; [|done|by rewrite Hpass]. rewrite Hin, <-Hfw. unfold build. by rewrite foldl_app. }
    destruct rw as [[]|e]; [|injection Hr as <- <- <-; done].
    destruct (IH _ _ _ _ _ _ He Hup1 Hr) as [Hs' Hcase]. split; [done|]. destruct r as [[]|]; [|done].
    destruct Hcase as (cs' & -> & Hup'). exists (bs :: cs'). split; [done|]. by rewrite <-app_assoc in Hup'.
  - injection Hr as <- <- <-. split; [|done]. by destruct Hup as (_ & ? & _).
Qed.

Lemma upload_abort_world uw s r uw' s' :
  upload_abort uw s = (r, uw', s') → app_world s' = app_world s.
Proof.
  unfold upload_abort, on_inner, fw_abort, am_blob. destruct (fw_inner _).
  - destruct (writer_abort _ _). by intros [= _ _ <-].
  - by intros [= _ _ <-].
Qed.

End Streaming.

(** ** Closing an upload *)

Lemma writer_finalize_inv fin writer path m w b r w' b' :
  storage_wf (tables w) (seqs w) → EntryPath_wf path → metadata_ok m → headroom w path m →
  writer_finalize fin writer path m w b = (r, w', b') →
  seqs_le (seqs w) (seqs w') ∧
  ((tables w' = tables w ∧ ∃ e, r = Err e) ∨
   ∃ u existing, write_admitted fin path m w u existing ∧ write_committed fin path m w w' u existing).
Proof.
  intros Hwf Hp Hm Hroom Hr. unfold writer_finalize in Hr. cbv [mbind fm_bind fm_try blob fm_throw mret fm_ret] in Hr.
  destruct (finalize_write fin writer path m w b) as [[r1 w1] b1] eqn:E.
  apply finalize_write_inv in E as [Hle Hi]; [|done..].
  assert (w' = w1 ∧ (∀ e, r1 = Err e → ∃ e', r = Err e')) as [-> Herr].
  { destruct r1 as [md|[e|e]].
    - injection Hr as <- <- _. done.
    - destruct (writer_abort writer b1). injection Hr as <- <- _. split; [done|]. eauto.
    - injection Hr as <- <- _. split; [done|]. eauto. }
  split; [done|].
  destruct Hi as [(e & -> & Ht & _)|(u & existing & g & b2 & rc & Had & _ & Hd)]; [left; eauto|].
  destruct Hd as [(md & -> & _ & Hc)|(e & -> & [Ht|Hc])]; [right; eauto|left; eauto|right; eauto].
Qed.

End WritePathCheck.

Section Upload.
Context `{PkarrKeysLaws, JsonStrings, Backend, !ContentTools, !ContentToolsLaws}.

(** The bytes of a body, up to the first stream error. *)
Definition body_bytes (chunks : list (result () (list Z))) : list Z := concat (omap ok chunks).

Lemma body_bytes_ok cs : body_bytes (map Ok cs) = concat cs.
Proof. unfold body_bytes. f_equal. induction cs as [|c cs IH]; cbn; [done|]. by rewrite IH. Qed.

(** Counters are not exhausted by a body of [n] bytes. *)
Definition room_for (n : Z) (w : World) (path : EntryPath) : Prop :=
  seq_events (seqs w) ≤ I64_MAX ∧ n ≤ I64_MAX ∧
  ∀ u, user_row (ep_pubkey path) (tables w) = Some u → u_used_bytes u + n + FILE_METADATA_SIZE ≤ I64_MAX.

(** The upload of these chunks took effect between two worlds. *)
Definition uploaded (fin : Finalizer) (path : EntryPath) (chunks : list (result () (list Z))) (w w' : World)
    : Prop :=
  ∃ u existing m, Forall (λ c, is_ok c = true) chunks ∧
    fm_hash m = digest (body_bytes chunks) ∧ fm_length m = Z.of_nat (length (body_bytes chunks)) ∧
    metadata_ok m ∧ headroom w path m ∧
    write_admitted fin path m w u existing ∧ write_committed fin path m w w' u existing.

Lemma write_stream_inv now fin path chunks s r s' :
  storage_wf (tables (app_world s)) (seqs (app_world s)) → EntryPath_wf path →
  room_for (Z.of_nat (length (body_bytes chunks))) (app_world s) path →
  OpendalService_write_stream now fin path chunks s = (r, s') →
  seqs_le (seqs (app_world s)) (seqs (app_world s')) ∧
  ((tables (app_world s') = tables (app_world s) ∧ ∃ e, r = Err e) ∨
   path_allowed now path (app_cache s) (tables (app_world s)) ∧
   ∃ w1, same_data (app_world s) w1 ∧ uploaded fin path chunks w1 (app_world s')).
Proof.
  intros Hwf Hp (Hseq & Hlen & Hroom) Hr. pose proof Hwf as (_ & He & _).
  unfold OpendalService_write_stream, operator_writer in Hr. rewrite parse_opendal_key in Hr by done.
  cbv [mbind am_bind am_lift am_map_err am_blob mret am_ret] in Hr.
  destruct (open_writer (ep_key path) (app_store s)) as [[inner|e] b1]; cbn [map_err] in Hr.
  2: { injection Hr as <- <-. split; [reflexivity|]. left. eauto. }
  unfold stream_into in Hr. set (s1 := mk_App (app_world s) b1 (app_cache s)) in Hr.
  set (uw := CheckedWriter_new _) in Hr.
  assert (uploading now path s inner [] uw s1) as Hup by (split_and!; done).
  destruct (write_chunks now fin path chunks uw s1) as [[rc uw2] s2] eqn:Ec.
  apply (write_chunks_inv now fin path s Hp inner) with (cs := []) in Ec as [Hs2 Hc]; [|done..].
  destruct rc as [[]|e].
  2: { destruct (upload_abort uw2 s2) as [[ra ua] s3] eqn:Ea. apply upload_abort_world in Ea. injection Hr as <- <-.
       rewrite Ea. destruct Hs2 as (-> & -> & _). split; [reflexivity|]. left. eauto. }
  destruct Hc as (cs & -> & Hup2). rewrite body_bytes_ok in *. cbn [app] in Hup2.
  destruct (upload_close now fin path uw2 s2) as [[rl ul] s3] eqn:El.
  assert (s' = s3 ∧ ((∃ e, rl = Err e) → ∃ e, r = Err e)) as [-> Herr].
  { destruct rl as [md|e]; injection Hr as <- <-; (split; [done|]); [by intros [??]|eauto]. }
  apply (layers_inv now fin path s Hp _ inner cs) in El
    as [(e & -> & Hs3)|(s4 & fw & Hs4 & Hal & Hop & _)]; [| |done..].
  { destruct Hs3 as (-> & -> & _). split; [reflexivity|]. left. split; [done|]. eauto. }
  unfold fw_close, am_fm in Hop. cbn [fw_inner fw_builder] in Hop.
  destruct (upload_metadata cs (as_str (ep_path path))) as (Hmh & Hml & Hmn).
  set (m := FileMetadataBuilder_finalize _) in *.
  destruct (writer_finalize fin inner path m (app_world s4) (app_store s4)) as [[rf wf] bf] eqn:Ef.
  injection Hop as <- <- <-. cbn [app_world]. pose proof Hs4 as (Ht4 & Hq4 & _).
  assert (headroom (app_world s4) path m) as Hh.
  { split; [by rewrite Hq4|]. rewrite Ht4, Hml. exact Hroom. }
  assert (metadata_ok m) as Hmok by (split; [done|]; rewrite Hml; lia).
  apply writer_finalize_inv in Ef as [Hle Hd]; [|by rewrite Ht4, Hq4|done..]. rewrite <-Hq4. split; [done|].
  destruct Hd as [[Ht [e ->]]|(u & existing & Had & Hcom)].
  - left. rewrite Ht, Ht4. split; [done|]. eauto.
  - right. split; [done|]. exists (app_world s4). split; [done|]. exists u, existing, m.
    rewrite body_bytes_ok. split_and!; try done. apply Forall_map. by apply Forall_true.
Qed.

(** ** [PUT] *)

Lemma only_locks_storage w w' :
  only_locks w w' → storage_wf (tables w) (seqs w) →
  storage_wf (tables w') (seqs w') ∧ storage_of (tables w') = storage_of (tables w).
Proof.
  intros (Hu & He & Hv & ->) Hwf. split.
  - revert Hwf. unfold storage_wf, users_wf, entries_wf, events_wf, accounted, seqs_wf. by rewrite Hu, He, Hv.
  - unfold storage_of. by rewrite He, Hv.
Qed.

Lemma fail_if_size_hint_inv hint user mb path w r w' :
  users_wf (tables w) → entries_wf (tables w) → EntryPath_wf path →
  fail_if_size_hint_exceeds_quota hint user mb path w = (r, w') → same_data w w'.
Proof.
  intros Hu He Hp. unfold fail_if_size_hint_exceeds_quota. destruct hint as [size|]; [|by intros [= _ <-]].
  cbv [mbind db_bind try_db]. destruct (EntryRepository_get_by_path path w) as [r1 w1] eqn:E.
  apply get_by_path_inv in E as [Hs _]; [|done..]. destruct (size_hint_exceeds_quota _ _ _ _); by intros [= _ <-].
Qed.

Lemma get_info_inv path s r s' :
  FileService_get_info path s = (r, s') → same_data (app_world s) (app_world s').
Proof.
  unfold FileService_get_info, am_db. destruct (EntryRepository_get_by_path path (app_world s)) as [r1 w1] eqn:E.
  apply select_inv in E as [Hs _]. by destruct r1 as [|[]]; intros [= _ <-].
Qed.

(** What an effective upload leaves behind, and what let it through. *)
Definition put_effect (cx : Context_) (session : AuthSession) (path : EntryPath)
    (body : list (result () (list Z))) (a a' : App) : Prop :=
  ∃ u m, user_row (ep_pubkey path) (tables (app_world a)) = Some u ∧ u_disabled u = false ∧
    Forall (λ c, is_ok c = true) body ∧
    fm_hash m = digest (body_bytes body) ∧ fm_length m = Z.of_nat (length (body_bytes body)) ∧
    storage_of (tables (app_world a'))
    = spec_put (u_id u) (as_str (ep_path path)) m (storage_of (tables (app_world a))) ∧
    StoragePath_is_file (ep_path path) = true ∧
    has_write_permission session (ep_pubkey path) (ep_path path) = Ok () ∧
    path_allowed (cx_now cx) path (app_cache a) (tables (app_world a)).

Lemma file_write_inv cx token path body a r a' :
  storage_wf (tables (app_world a)) (seqs (app_world a)) → EntryPath_wf path →
  room_for (Z.of_nat (length (body_bytes body))) (app_world a) path →
  FileService_write_stream (cx_now cx) (request_finalizer cx token) path body a = (r, a') →
  storage_wf (tables (app_world a')) (seqs (app_world a')) ∧
  ((storage_of (tables (app_world a')) = storage_of (tables (app_world a)) ∧ ∃ e, r = Err e) ∨
   path_allowed (cx_now cx) path (app_cache a) (tables (app_world a)) ∧ Forall (λ c, is_ok c = true) body ∧
   ∃ u m, user_row (ep_pubkey path) (tables (app_world a)) = Some u ∧
     fm_hash m = digest (body_bytes body) ∧ fm_length m = Z.of_nat (length (body_bytes body)) ∧
     storage_of (tables (app_world a'))
     = spec_put (u_id u) (as_str (ep_path path)) m (storage_of (tables (app_world a)))).
Proof.
  intros Hwf Hp Hroom Hr. unfold FileService_write_stream in Hr. cbv [mbind am_bind] in Hr.
  destruct (OpendalService_write_stream _ _ path body a) as [r1 a1] eqn:E1.
  apply write_stream_inv in E1 as [Hle Hcase]; [|done..].
  assert (same_data (app_world a1) (app_world a') ∧ ((∃ e, r1 = Err e) → ∃ e, r = Err e)) as [(Ht & Hq & _) Herr].
  { destruct r1 as [[]|e]; [apply get_info_inv in Hr; split; [done|by intros [??]]|].
    injection Hr as <- <-. split; [reflexivity|eauto]. }
  rewrite Ht, Hq. destruct Hcase as [[Ht1 He]|(Hal & w1 & (Ht1 & Hq1 & _) & Hup)].
  - rewrite Ht1. split; [by eapply storage_wf_mono|]. left. auto.
  - destruct Hup as (u & existing & m & Hok & Hh & Hl & Hm & Hhead & Had & Hcom).
    rewrite <-Hq1 in Hle.
    destruct (write_committed_spec _ _ _ _ _ _ _ ltac:(by rewrite Ht1, Hq1) Hp Hm Hhead Had Hcom Hle) as [Hwf' Hst].
    split; [done|]. right. split_and!; [done..|]. exists u, m. destruct Had as (Hrow & _).
    rewrite Ht1 in Hst, Hrow. done.
Qed.

(** (C1) [PUT], end to end.  Whatever the body, the headers, the store and the
    database do, the storage invariant is kept, and the storage afterwards is
    the one before, or the one before with exactly one file put: under the
    request's path, with the BLAKE3 digest and the length of the whole body,
    and one event.  201 means the put; and a put happens only if the body
    arrived whole, the path is a file the session may write, its owner is
    enabled, and the owner's quota allows the path. *)
Theorem put_refines cx session path hs body a r a' :
  storage_wf (tables (app_world a)) (seqs (app_world a)) → EntryPath_wf path →
  room_for (Z.of_nat (length (body_bytes body))) (app_world a) path →
  put cx session path hs body a = (r, a') →
  storage_wf (tables (app_world a')) (seqs (app_world a')) ∧
  match r with
  | Ok code => code = 201 ∧ put_effect cx session path body a a'
  | Err _ => storage_of (tables (app_world a')) = storage_of (tables (app_world a)) ∨
             put_effect cx session path body a a'
  end.
Proof.
  intros Hwf Hp Hroom Hr. unfold put, with_write_lock in Hr. cbv [mbind am_bind am_db am_map_err mret am_ret] in Hr.
  destruct (authorize_write session path true (app_world a)) as [r1 w1] eqn:E1.
  apply authorize_write_inv in E1 as [Hs1 Hr1]. pose proof Hs1 as Ho1%same_data_only_locks.
  destruct (only_locks_storage _ _ Ho1 Hwf) as [Hwf1 Hst1].
  destruct r1 as [user|e]; [|injection Hr as <- <-; cbn; auto]. destruct Hr1 as (Hfile & Hperm & u & Hrow & _ & Hen).
  cbn [app_world] in Hr.
  destruct (fail_if_size_hint_exceeds_quota _ user _ path w1) as [r2 w2] eqn:E2.
  apply fail_if_size_hint_inv in E2 as Hs2%same_data_only_locks; [|apply Hwf1..|done].
  assert (only_locks (app_world a) w2) as Ho2 by by transitivity w1.
  destruct (only_locks_storage _ _ Ho2 Hwf) as [Hwf2 Hst2].
  destruct r2 as [[]|e]; [|injection Hr as <- <-; cbn; auto]. cbn [app_world] in Hr.
  destruct (check_lock path hs w2) as [r3 w3] eqn:E3. apply check_lock_inv in E3 as (Hs3 & _ & _).
  assert (only_locks (app_world a) w3) as Ho3 by by transitivity w2.
  destruct (only_locks_storage _ _ Ho3 Hwf) as [Hwf3 Hst3].
  destruct r3 as [token|e]; [|injection Hr as <- <-; cbn; auto]. cbn [app_world app_store app_cache] in Hr.
  set (a3 := mk_App w3 (app_store a) (app_cache a)) in *.
  destruct (FileService_write_stream _ _ path body a3) as [r4 a4] eqn:E4.
  destruct Ho3 as (Hu3 & _ & _ & Hq3).
  assert (∀ k, user_row k (tables w3) = user_row k (tables (app_world a))) as Hrows by (intros k; unfold user_row; by rewrite Hu3).
  apply file_write_inv in E4 as [Hwf4 Hcase]; [|done..|].
  2: { destruct Hroom as (? & ? & Hroom). split_and!; [by cbn; rewrite Hq3|done|]. cbn. by rewrite Hrows. }
  assert (a' = a4 ∧ (r = Ok 201 ∧ is_ok r4 = true ∨ (∃ e, r = Err e))) as [-> Hrr].
  { destruct r4 as [x|e]; cbn [map_err] in Hr; injection Hr as <- <-; eauto. }
  split; [done|]. cbn [app_world app_cache a3] in Hcase. rewrite Hst3 in Hcase.
  destruct Hcase as [[Hst [e ->]]|(Hal & Hok & u' & m & Hrow' & Hh & Hl & Hst)].
  - destruct Hrr as [[_ ?]|[e' ->]]; [done|by left].
  - rewrite Hrows, Hrow in Hrow'. injection Hrow' as <-.
    assert (put_effect cx session path body a a4) as Heff.
    { exists u, m. split_and!; try done; [by apply Hen|]. revert Hal. unfold path_allowed, quota_seen.
      by rewrite Hrows. }
    destruct Hrr as [[-> _]|[e ->]]; [done|by right].
Qed.

(** ** [DELETE] *)

Lemma remove_under_generation_inv path w b r w' b' :
  remove_blob_under_its_generation path w b = (r, w', b') → same_data w w'.
Proof.
  unfold remove_blob_under_its_generation. cbv [mbind fm_bind fm_try blob fm_throw mret fm_ret]. intros Hr.
  destruct (generation_under_lock path w b) as [[r1 w1] b1] eqn:E. apply generation_under_lock_inv in E as [Hs _].
  destruct r1 as [g|e]; [|by injection Hr as _ <- _].
  destruct (decide (g = Some GenAbsent)); [by injection Hr as _ <- _|].
  destruct (backend_delete g _ b1) as [r2 b2]. destruct r2 as [|e]; [by injection Hr as _ <- _|].
  destruct (decide _); by injection Hr as _ <- _.
Qed.

Lemma remove_blob_in_transaction_inv path w b r w' b' :
  remove_blob_in_transaction path w b = (r, w', b') → same_data w w'.
Proof.
  unfold remove_blob_in_transaction. cbv [mbind fm_bind fm_try db fm_throw mret fm_ret]. intros Hr.
  destruct (UserRepository_get_for_no_key_update _ w) as [r1 w1] eqn:E1. apply select_inv in E1 as [Hs1 _].
  destruct (EntryRepository_get_by_path path w1) as [r2 w2] eqn:E2. pose proof E2 as [Hs2 _]%select_inv.
  assert (same_data w w2) as Hs by by transitivity w1.
  assert (remove_blob_under_its_generation path w2 b = (r, w', b') → same_data w w') as Hrm.
  { intros Hq%remove_under_generation_inv. by transitivity w2. }
  destruct r1 as [|[]]; rewrite ?E2 in Hr; destruct r2 as [|[]];
    first [by injection Hr as _ <- _ | exact (Hrm Hr)].
Qed.

(** Removing the blob never touches the tables. *)
Lemma remove_blob_inv path w b r w' b' :
  remove_blob_if_unreferenced path w b = (r, w', b') → tables w' = tables w ∧ seqs w' = seqs w.
Proof.
  unfold remove_blob_if_unreferenced. cbv [mbind fm_bind fm_try fm_map_err db fm_throw mret fm_ret]. intros Hr.
  destruct (begin w) as [rb w0] eqn:Eb. apply begin_inv in Eb as (Ht & Hq & _ & Hb).
  destruct Hb as [[-> _]|[-> _]]; cbn [map_err] in Hr; [by injection Hr as _ <- _|].
  destruct (remove_blob_in_transaction path w0 b) as [[r1 w1] b1] eqn:E1.
  apply remove_blob_in_transaction_inv in E1 as (_ & Hq1 & _).
  destruct (rollback _ w1) as [rr w2] eqn:E2. apply rollback_inv in E2 as (Hq2 & _ & _ & Ht2 & _). cbn in Ht2.
  assert (w' = w2) as -> by (destruct r1; by injection Hr). split; [done|congruence].
Qed.

(** What an effective delete leaves behind. *)
Definition delete_effect (fin : Finalizer) (path : EntryPath) (w w' : World) : Prop :=
  ∃ u e, delete_admitted fin path w u e ∧
    storage_of (tables w') = spec_delete (u_id u) (as_str (ep_path path)) (storage_of (tables w)).

Lemma queued_delete_inv fin path w b r w' b' :
  storage_wf (tables w) (seqs w) → EntryPath_wf path → seq_events (seqs w) ≤ I64_MAX →
  queued_deletes_close fin [path] w b = (r, w', b') →
  storage_wf (tables w') (seqs w') ∧
  (tables w' = tables w ∨ delete_effect fin path w w') ∧
  (∀ queue, r = Ok (None, queue) → delete_effect fin path w w' ∨ tables w' = tables w ∧ no_file path (tables w)).
Proof.
  intros Hwf Hp Hseq Hr. unfold queued_deletes_close in Hr. cbn [process_queue] in Hr.
  unfold process_one, finalize_and_remove_blob in Hr. cbv [mbind fm_bind fm_try db mret fm_ret] in Hr.
  destruct (finalize_delete fin path w) as [r1 w1] eqn:E1.
  apply finalize_delete_inv in E1 as [Hle Hcase]; [|done..].
  assert (∀ u e, delete_admitted fin path w u e → delete_committed fin path w w1 u e →
    storage_wf (tables w1) (seqs w1) ∧ delete_effect fin path w w1) as Hcom.
  { intros u e Had Hc. destruct (delete_committed_spec _ _ _ _ _ _ Hwf Hp Hseq Had Hc Hle) as [? ?].
    split; [done|]. by exists u, e. }
  assert (tables w1 = tables w → storage_wf (tables w1) (seqs w1)) as Hsame.
  { intros ->. by eapply storage_wf_mono. }
  assert (storage_wf (tables w1) (seqs w1) ∧ (tables w1 = tables w ∨ delete_effect fin path w w1) ∧
    (is_ok r1 = true → delete_effect fin path w w1 ∨ tables w1 = tables w ∧ no_file path (tables w))) as (Hwf1 & Hany & Hok).
  { destruct r1 as [[|]|e].
    - destruct Hcase as (u & e & Had & Hc). destruct (Hcom u e Had Hc). auto.
    - destruct Hcase as [Ht Hno]. auto.
    - destruct Hcase as [Ht|(u & e' & Had & Hc)]; [split_and!; [auto|auto|done]|].
      destruct (Hcom u e' Had Hc). split_and!; [auto|auto|done]. }
  assert (∀ w2, tables w2 = tables w1 → seqs w2 = seqs w1 →
    storage_wf (tables w2) (seqs w2) ∧ (tables w2 = tables w ∨ delete_effect fin path w w2) ∧
    (is_ok r1 = true → delete_effect fin path w w2 ∨ tables w2 = tables w ∧ no_file path (tables w))) as Hto.
  { unfold delete_effect. intros w2 -> ->. done. }
  destruct r1 as [outcome|e].
  - destruct (remove_blob_if_unreferenced path w1 b) as [[r2 w2] b2] eqn:E2.
    apply remove_blob_inv in E2 as [Ht2 Hq2]. destruct (Hto w2 Ht2 Hq2) as (? & ? & Hok2). cbn [is_ok] in Hok2.
    assert (w' = w2) as -> by (destruct r2; [destruct outcome|]; by injection Hr). split_and!; [done..|]. auto.
  - destruct (Hto w1 eq_refl eq_refl) as (? & ? & _). injection Hr as <- <- _. split_and!; [done..|].
    by intros queue [=].
Qed.

(** The lock a delete went through under.  The request presented no token, and
    the path had no live lock when it was let in; or it presented the token of
    a lock that was live when the entry was removed. *)
Definition unlocked_or_held (path : EntryPath) (hs : HeaderMap) (w : World) : Prop :=
  (if_header_tokens hs = [] ∧ ∃ now, clock w ≤ now ∧ ∀ l, ¬ live_lock path now (tables w) l) ∨
  ∃ token w1 l, token ∈ if_header_tokens hs ∧ only_locks w w1 ∧ clock w ≤ clock w1 ∧
    live_lock path (clock w1) (tables w1) l ∧ l_token l = token.


End Upload.

(** ** The early size check *)

Section SizeHint.
Context `{PkarrKeys, JsonStrings}.

Lemma as_i64_idemp n : as_i64 (as_i64 n) = as_i64 n.
Proof. unfold as_i64. Z.div_mod_to_equations. lia. Qed.

(** The early size check agrees with the final one: for an upload whose
    [Content-Length] is its true length, the request is refused up front
    exactly when the finalization would refuse it on the same user and entry,
    so a refusal is never wrong and a large upload is not streamed in vain. *)
Theorem size_hint_agrees user existing m default_mb :
  size_hint_exceeds_quota (fm_length m) user default_mb existing = true ↔
  PreparedWrite_new user existing m default_mb = Err quota_exceeded_error.
Proof.
  unfold size_hint_exceeds_quota, PreparedWrite_new. destruct existing as [e|]; cbv zeta.
  - rewrite Z.add_0_r, as_i64_idemp. by destruct (would_exceed_limit _ _ _).
  - by destruct (would_exceed_limit _ _ _).
Qed.

(** The check trusts the header's [u64] as an [i64]: a claimed length of 2^63
    bytes or more is a negative change, which no limit refuses. *)
Lemma huge_content_length_passes user default_mb :
  0 ≤ ue_used_bytes user < 9223372036854775552 →
  size_hint_exceeds_quota 9223372036854775808 user default_mb None = false.
Proof.
  intros Hu. unfold size_hint_exceeds_quota, would_exceed_limit. cbv zeta.
  change (as_i64 (as_i64 (as_i64 9223372036854775808 - as_i64 0) + as_i64 FILE_METADATA_SIZE)) with (-9223372036854775552).
  destruct (resolve_storage_max_bytes user default_mb); [|done].
  destruct (Z.ltb_spec 0 (ue_used_bytes user + -9223372036854775552)); [lia|done].
Qed.

End SizeHint.

(** * Witnesses *)

(** A toy digest: the first 32 bytes, padded. *)
Definition demo_tools : ContentTools := {|
  Hasher := list Z;
  hasher_default := [];
  hasher_update := λ bs h, h ++ bs;
  hasher_finalize := λ h, take 32 (h ++ repeat 0 32);
  infer_get := λ _, None;
  mime_from_path := λ _, lit "text/plain"
|}.

#[local] Instance demo_tools_laws : @ContentToolsLaws demo_tools.
Proof.
  split; cbn.
  - intros a b h. by rewrite app_assoc.
  - apply app_nil_r.
  - intros h. rewrite length_take, length_app. cbn [length]. lia.
Qed.

Definition demo_cx : Context_ := mk_Context 0 (Some 1) 5000.
Definition demo_body : list (result () (list Z)) := [Ok (lit "hello"); Ok (lit " world")].

Lemma demo_room : room_for (H := demo_keys) (Z.of_nat (length (body_bytes demo_body))) (demo_storage []) demo_file.
Proof.
  split_and!; [by vm_compute..|]. intros u Hu. vm_compute in Hu. injection Hu as <-. by vm_compute.
Qed.

Lemma write_path_check_exact_witness :
  ∃ s', check_write_path_allowed 0 (ep_key demo_file) (demo_app (demo_storage [])) = (Ok (), s') ∧
    path_allowed (H := demo_keys) (H1 := demo_json) 0 demo_file [] (tables (demo_storage [])).
Proof.
  eexists. split; [vm_compute; reflexivity|].
  refine (proj2 (write_path_check_exact (H := demo_keys) (H1 := demo_json) (H2 := demo_backend) 0 demo_file
    (demo_app (demo_storage [])) (Ok ()) _ _ _)).
  - split; vm_compute; reflexivity.
  - vm_compute. reflexivity.
Defined.

Lemma put_refines_witness :
  ∃ a', put (H2 := demo_tools) demo_cx demo_session demo_file [] demo_body (demo_app (demo_storage []))
        = (Ok 201, a') ∧
    storage_wf (H := demo_keys) (tables (app_world a')) (seqs (app_world a')).
Proof.
  eexists. split; [vm_compute; reflexivity|].
  refine (proj1 (put_refines (H := demo_keys) (H1 := demo_json) (H2 := demo_backend) (H3 := demo_tools)
    demo_cx demo_session demo_file [] demo_body (demo_app (demo_storage [])) (Ok 201) _ _ _ _ _)).
  - apply demo_storage_wf.
  - split; vm_compute; reflexivity.
  - apply demo_room.
  - vm_compute. reflexivity.
Defined.

(** The store holds the file's blob. *)
Definition demo_stored_app : App :=
  mk_App (H := demo_keys) (H1 := demo_backend) (demo_storage []) [ep_key demo_file] [].

