(* ===== verification/StagedPublish.v ===== *)
(** Staged publication ([persistence/files/staged_publish_layer.rs]): uploads go
    to a staging object and are published by a copy under a generation
    condition; deletes carry the condition too.

    The object store underneath belongs to [opendal] and its service:
    [VersionedStore] is what one of its requests does to the objects when the
    store executes it, [VersionedStoreLaws] the documented behaviour of object
    generations and of version conditions.  A store executes a request
    whenever it gets to it: a request the server has given up on, or one that
    was answered, may be executed (again) at any later moment.  The layer as a
    whole is an instance of [Backend], the interface the write finalization is
    written against. *)

From S2P Require Import Prelude StoragePath HttpError Keys Quota Database Users Entries EntryLocks Events Finalization.

Definition STAGING_PREFIX : str := lit ".staging/".

(** * The object store *)

(** The requests the layer makes that change objects.  A condition is the
    version the target must have. *)
Inductive StoreRequest :=
| ReqUpload (name : str) (content : list Z)
| ReqCopy (source to : str) (condition : str)
| ReqDelete (path : str) (condition : option str).

Definition target (r : StoreRequest) : str :=
  match r with ReqUpload name _ => name | ReqCopy _ to _ => to | ReqDelete path _ => path end.
Definition condition_of (r : StoreRequest) : option str :=
  match r with ReqUpload _ _ => None | ReqCopy _ _ c => Some c | ReqDelete _ c => c end.

Class VersionedStore := {
  Objects : Type;
  (** The generation and the content of an object. *)
  object_at : str → Objects → option (Z * list Z);
  (** A generation no object has exceeded yet. *)
  latest_generation : Objects → Z;
  (** What executing a request answers and does. *)
  execute : StoreRequest → Objects → result OpendalError () * Objects;
  (** A fresh name ([Uuid::new_v4]), the [n]-th drawn. *)
  uuid : nat → str;
}.

(** The generation a condition is compared with: 0 when there is no object. *)
Definition generation_of `{VersionedStore} (path : str) (os : Objects) : Z :=
  match object_at path os with Some (g, _) => g | None => 0 end.

Class VersionedStoreLaws `{VersionedStore} := {
  (** A request changes its target at most, and nothing when it is refused. *)
  execute_frame r p os : p ≠ target r → object_at p (execute r os).2 = object_at p os;
  execute_refused r os e p : (execute r os).1 = Err e → object_at p (execute r os).2 = object_at p os;
  (** A request whose condition does not hold is refused. *)
  execute_condition r c os :
    condition_of r = Some c → c ≠ show_uint (generation_of (target r) os) →
    ∃ e, (execute r os).1 = Err e ∧ oe_kind e = KConditionNotMatch;
  execute_upload name c os :
    (execute (ReqUpload name c) os).1 = Ok () → ∃ g, object_at name (execute (ReqUpload name c) os).2 = Some (g, c);
  execute_copy from to cond os :
    (execute (ReqCopy from to cond) os).1 = Ok () →
    ∃ g g0 c, object_at from os = Some (g0, c) ∧ latest_generation os < g ∧
      object_at to (execute (ReqCopy from to cond) os).2 = Some (g, c);
  execute_delete p cond os :
    (execute (ReqDelete p cond) os).1 = Ok () → object_at p (execute (ReqDelete p cond) os).2 = None;
  (** Generations are positive numbers, and those of new versions are larger
      than all before. *)
  live_generation_bounds p os g c :
    object_at p os = Some (g, c) → 0 < g ≤ latest_generation os ∧ g ≤ U64_MAX;
  latest_nonneg os : 0 ≤ latest_generation os;
  latest_grows r os : latest_generation os ≤ latest_generation (execute r os).2;
  new_generation r p os g c :
    object_at p (execute r os).2 = Some (g, c) → object_at p os = Some (g, c) ∨ latest_generation os < g;
  uuid_inj m n : uuid m = uuid n → m = n;
}.

(** * The layer *)

Section Staged.
Context `{VersionedStore}.

(** What happens to a request on its way: requests sent earlier are executed
    first ([LateExec]), then it is executed and answered, or it gets no
    answer. *)
Inductive Fate := LateExec (i : nat) | Answered | NoAnswer.

(** Where a staged upload is. *)
Inductive Upload := UploadOpen | UploadStaged | UploadDone.

#[export] Instance Upload_eq_dec : EqDecision Upload.
Proof. solve_decision. Defined.

Record StagedState := mk_StagedState {
  ss_objects : Objects;
  (** Every request sent so far. *)
  ss_sent : list StoreRequest;
  ss_schedule : list Fate;
  (** The uploads by their staging name, with the bytes written. *)
  ss_uploads : list (str * (Upload * list Z));
  ss_names : nat
}.

Record StagedWriter := mk_StagedWriter { sw_staging : str; sw_path : str }.

Fixpoint upload_of (name : str) (l : list (str * (Upload * list Z))) : option (Upload * list Z) :=
  match l with
  | [] => None
  | (n, u) :: l' => if decide (n = name) then Some u else upload_of name l'
  end.

Definition set_upload (name : str) (u : Upload * list Z) (st : StagedState) : StagedState :=
  mk_StagedState (ss_objects st) (ss_sent st) (ss_schedule st) ((name, u) :: ss_uploads st) (ss_names st).

(** ** Requests *)

(** The next fate, with the late executions before it. *)
Fixpoint next_fate (schedule : list Fate) (sent : list StoreRequest) (os : Objects) : bool * list Fate * Objects :=
  match schedule with
  | [] => (true, [], os)
  | Answered :: rest => (true, rest, os)
  | NoAnswer :: rest => (false, rest, os)
  | LateExec i :: rest =>
      next_fate rest sent (match sent !! i with Some r => (execute r os).2 | None => os end)
  end.

Definition await_fate (st : StagedState) : bool * StagedState :=
  let '(answered, rest, os) := next_fate (ss_schedule st) (ss_sent st) (ss_objects st) in
  (answered, mk_StagedState os (ss_sent st) rest (ss_uploads st) (ss_names st)).

Definition send (r : StoreRequest) (st : StagedState) : result OpendalError () * StagedState :=
  let '(answered, st) := await_fate st in
  let sent := ss_sent st ++ [r] in
  if (answered : bool) then
    let '(x, os) := execute r (ss_objects st) in
    (x, mk_StagedState os sent (ss_schedule st) (ss_uploads st) (ss_names st))
  else
    (Err unexpected, mk_StagedState (ss_objects st) sent (ss_schedule st) (ss_uploads st) (ss_names st)).

(** [Operator::stat], reduced to the version it reports. *)
Definition staged_stat (path : str) (st : StagedState) : result OpendalError (option str) * StagedState :=
  let '(answered, st) := await_fate st in
  if (answered : bool) then
    (match object_at path (ss_objects st) with
     | Some (g, _) => Ok (Some (show_uint g))
     | None => Err (mk_OpendalError KNotFound None)
     end, st)
  else (Err unexpected, st).

(** [Operator::exists]. *)
Definition staged_exists (path : str) (st : StagedState) : result OpendalError bool * StagedState :=
  let '(r, st) := staged_stat path st in
  (match r with
   | Ok _ => Ok true
   | Err e => if decide (oe_kind e = KNotFound) then Ok false else Err e
   end, st).

(** ** Conditions *)

Definition NO_OBJECT_GENERATION : Z := 0.

Definition version_condition (e : ExpectedGeneration) : str :=
  show_uint (match e with GenAbsent => NO_OBJECT_GENERATION | GenKnown generation => generation end).

Definition publish_conflict : OpendalError := mk_OpendalError KConditionNotMatch (Some PublishConflict).
Definition no_generation : OpendalError := mk_OpendalError KUnsupported None.
Definition condition_of_its_own : OpendalError := mk_OpendalError KUnsupported None.

Definition refused_as_conflict {T} (r : result OpendalError T) : result OpendalError T :=
  match r with
  | Err e => if decide (oe_kind e = KConditionNotMatch) then Err publish_conflict else Err e
  | Ok x => Ok x
  end.

(** ** Writing *)

(** [StagedPublishService::write]. *)
Definition StagedPublish_write (path : str) (st : StagedState) : result OpendalError StagedWriter * StagedState :=
  let staging := STAGING_PREFIX ++ uuid (ss_names st) in
  let st := mk_StagedState (ss_objects st) (ss_sent st) (ss_schedule st) (ss_uploads st) (S (ss_names st)) in
  (Ok (mk_StagedWriter staging path), set_upload staging (UploadOpen, []) st).

(** [StagedWriter::write]: the bytes are handed to the backend's writer, which
    takes none once it is closed or aborted. *)
Definition StagedWriter_write (self : StagedWriter) (bs : list Z) (st : StagedState)
    : result OpendalError () * StagedState :=
  let '(answered, st) := await_fate st in
  match answered, upload_of (sw_staging self) (ss_uploads st) with
  | true, Some (UploadOpen, content) => (Ok (), set_upload (sw_staging self) (UploadOpen, content ++ bs) st)
  | _, _ => (Err unexpected, st)
  end.

(** [StagedWriter::remove_staging]. *)
Definition remove_staging (self : StagedWriter) (st : StagedState) : StagedState :=
  match upload_of (sw_staging self) (ss_uploads st) with
  | Some (UploadStaged, content) =>
      (send (ReqDelete (sw_staging self) None) (set_upload (sw_staging self) (UploadDone, content) st)).2
  | _ => st
  end.

(** [StagedWriter::close]. *)
Definition StagedWriter_close (expected : option ExpectedGeneration) (self : StagedWriter) (st : StagedState)
    : result OpendalError () * StagedState :=
  match upload_of (sw_staging self) (ss_uploads st) with
  | None => (Err unexpected, st)
  | Some (_, content) =>
      let '(closed, st) := send (ReqUpload (sw_staging self) content) st in
      match closed with
      | Err error => (Err error, set_upload (sw_staging self) (UploadDone, content) st)
      | Ok _ =>
          let st := set_upload (sw_staging self) (UploadStaged, content) st in
          let '(published, st) :=
            match expected with
            | Some e =>
                let '(r, st) := send (ReqCopy (sw_staging self) (sw_path self) (version_condition e)) st in
                (refused_as_conflict r, st)
            | None => (Err no_generation, st)
            end in
          (published, remove_staging self st)
      end
  end.

(** [StagedWriter::abort]. *)
Definition StagedWriter_abort (self : StagedWriter) (st : StagedState) : result OpendalError () * StagedState :=
  match upload_of (sw_staging self) (ss_uploads st) with
  | Some (UploadOpen, content) =>
      let '(answered, st) := await_fate (set_upload (sw_staging self) (UploadDone, content) st) in
      (if (answered : bool) then Ok () else Err unexpected, st)
  | Some (UploadStaged, _) => (Ok (), remove_staging self st)
  | Some (UploadDone, _) | None => (Ok (), st)
  end.

(** ** Deleting *)

(** The options of a delete that carry a condition. *)
Record OpDelete := mk_OpDelete {
  if_match : option str;
  if_none_match : option str;
  if_version_match : option str;
  if_version_not_match : option str
}.

Definition carries_condition (args : OpDelete) : bool :=
  bool_decide (is_Some (if_match args)) || bool_decide (is_Some (if_none_match args))
  || bool_decide (is_Some (if_version_match args)) || bool_decide (is_Some (if_version_not_match args)).

Definition ConditionalDeleter_delete (expected : option ExpectedGeneration) (path : str) (args : OpDelete)
    (st : StagedState) : result OpendalError () * StagedState :=
  if carries_condition args then (Err condition_of_its_own, st)
  else match expected with
       | None => (Err no_generation, st)
       | Some e =>
           let '(r, st) := send (ReqDelete path (Some (version_condition e))) st in (refused_as_conflict r, st)
       end.

(** ** The layer as a backend *)

#[export] Instance staged_backend : Backend := {|
  BackendState := StagedState;
  BlobWriter := StagedWriter;
  BlobMetadata := ();
  open_writer := StagedPublish_write;
  writer_write := StagedWriter_write;
  backend_exists := staged_exists;
  backend_stat := staged_stat;
  writer_close := StagedWriter_close;
  writer_abort := StagedWriter_abort;
  backend_delete := λ expected path st,
    ConditionalDeleter_delete expected path (mk_OpDelete None None None None) st;
|}.

End Staged.
