(* ===== verification/StagedProofs.v ===== *)
(** What staged publication guarantees: a published object holds the uploaded
    bytes, and no request made against an earlier state of its path, however
    late the store executes it, can replace or remove it. *)

From S2P Require Import Prelude StoragePath HttpError Keys Quota Database Users Entries EntryLocks Events Finalization StagedPublish.

Section StagedProofs.
Context `{VersionedStoreLaws}.

Definition staging_name (n : nat) : str := STAGING_PREFIX ++ uuid n.
#[local] Arguments staging_name : simpl never.

(** Not a staging object. *)
Definition user_object (p : str) : Prop := ∀ n, p ≠ staging_name n.

Lemma staging_name_inj m n : staging_name m = staging_name n → m = n.
Proof. unfold staging_name. intros E%app_inv_head. by apply uuid_inj. Qed.

(** * The invariant *)

(** A version condition on a generation seen at some time. *)
Definition seen_condition (os : Objects) (cond : str) : Prop :=
  ∃ g, cond = show_uint g ∧ 0 ≤ g ≤ latest_generation os.

(** What a request that was sent may be: uploads and removals of staging
    objects, and conditional changes of user objects. *)
Definition request_ok (st : StagedState) (r : StoreRequest) : Prop :=
  match r with
  | ReqUpload name c =>
      (∃ n, (n < ss_names st)%nat ∧ name = staging_name n) ∧
      ∃ u, u ≠ UploadOpen ∧ upload_of name (ss_uploads st) = Some (u, c)
  | ReqCopy _ to cond => user_object to ∧ seen_condition (ss_objects st) cond
  | ReqDelete p None =>
      (∃ n, (n < ss_names st)%nat ∧ p = staging_name n) ∧ ∃ c, upload_of p (ss_uploads st) = Some (UploadDone, c)
  | ReqDelete p (Some cond) => user_object p ∧ seen_condition (ss_objects st) cond
  end.

Definition staged_ok (st : StagedState) : Prop :=
  Forall (request_ok st) (ss_sent st) ∧
  (∀ n g c, object_at (staging_name n) (ss_objects st) = Some (g, c) → ReqUpload (staging_name n) c ∈ ss_sent st) ∧
  (∀ name u, upload_of name (ss_uploads st) = Some u → ∃ n, (n < ss_names st)%nat ∧ name = staging_name n).

Definition with_objects (os : Objects) (st : StagedState) : StagedState :=
  mk_StagedState os (ss_sent st) (ss_schedule st) (ss_uploads st) (ss_names st).

Lemma seen_condition_mono os os' c :
  latest_generation os ≤ latest_generation os' → seen_condition os c → seen_condition os' c.
Proof. intros Hle (g & -> & ?). exists g. split; [done|lia]. Qed.

Lemma request_ok_objects st os r :
  latest_generation (ss_objects st) ≤ latest_generation os → request_ok st r → request_ok (with_objects os st) r.
Proof.
  intros Hle. destruct r as [name c|from to cond|p [cond|]]; cbn; try done;
    (intros [? ?]; split; [done|by eapply seen_condition_mono]).
Qed.

(** Executing a request of the kind that is sent. *)
Lemma execute_staging st r n g c :
  request_ok st r → object_at (staging_name n) (execute r (ss_objects st)).2 = Some (g, c) →
  object_at (staging_name n) (ss_objects st) = Some (g, c) ∨ r = ReqUpload (staging_name n) c.
Proof.
  intros Hr Ho. destruct (decide (staging_name n = target r)) as [Ht|Hne].
  2:{ left. by rewrite execute_frame in Ho. }
  destruct ((execute r (ss_objects st)).1) as [[]|e] eqn:He; [|left; by erewrite <-execute_refused].
  destruct r as [name c'|from to cond|p cond]; cbn [target] in Ht; subst.
  - destruct (execute_upload _ _ _ He) as (g' & Hg'). rewrite Ho in Hg'. injection Hg' as _ <-. by right.
  - destruct Hr as [Hu _]. by destruct (Hu n).
  - rewrite (execute_delete _ _ _ He) in Ho. done.
Qed.

Lemma staged_ok_execute st r :
  staged_ok st → r ∈ ss_sent st → staged_ok (with_objects (execute r (ss_objects st)).2 st).
Proof.
  intros (Hs & Ho & Hu) Hr. split_and!; [|cbn [with_objects ss_objects ss_sent]|done].
  - eapply Forall_impl; [exact Hs|]. intros x. apply request_ok_objects, latest_grows.
  - intros n g c [Hold|He]%execute_staging; [by eapply Ho| |by eapply Forall_forall]. by rewrite <-He.
Qed.

(** ** Late executions *)

Inductive late (sent : list StoreRequest) : Objects → Objects → Prop :=
| late_refl os : late sent os os
| late_step r os os' : r ∈ sent → late sent (execute r os).2 os' → late sent os os'.

Lemma next_fate_late schedule sent os : late sent os (next_fate schedule sent os).2.
Proof.
  revert os. induction schedule as [|[i| |] schedule IH]; intros os; cbn; try constructor.
  destruct (sent !! i) as [r|] eqn:Hi; [|apply IH]. eapply late_step; [by eapply list_elem_of_lookup_2|apply IH].
Qed.

Lemma late_ok st os : staged_ok st → late (ss_sent st) (ss_objects st) os → staged_ok (with_objects os st).
Proof.
  intros Hok Hl. remember (ss_sent st) as sent eqn:Hsent. remember (ss_objects st) as o0 eqn:Ho0.
  revert st Hok Hsent Ho0. induction Hl as [o|r o o' Hr _ IH]; intros st Hok -> ->; [by destruct st|].
  apply (IH (with_objects (execute r (ss_objects st)).2 st)); [by apply staged_ok_execute|done..].
Qed.

Lemma late_latest sent os os' : late sent os os' → latest_generation os ≤ latest_generation os'.
Proof. induction 1 as [|r os os' _ _ IH]; [lia|]. pose proof (latest_grows r os). lia. Qed.

(** The requests that could hit the object of generation [g] at [p]. *)
Definition against (p : str) (g : Z) (r : StoreRequest) : Prop :=
  target r = p ∧ (condition_of r = None ∨ condition_of r = Some (show_uint g)).

Lemma execute_other r os p g c :
  object_at p os = Some (g, c) → ¬ against p g r → object_at p (execute r os).2 = Some (g, c).
Proof.
  intros Ho Hn. destruct (decide (p = target r)) as [->|Hne]; [|by rewrite execute_frame].
  destruct (condition_of r) as [cond|] eqn:Hc; [|by destruct Hn; split; [|left]].
  destruct (execute_condition r cond os Hc) as (e & He & _).
  - unfold generation_of. rewrite Ho. intros ->. destruct Hn. split; [done|]. by right.
  - by erewrite execute_refused.
Qed.

Lemma late_other sent os os' p g c :
  object_at p os = Some (g, c) → Forall (λ r, ¬ against p g r) sent → late sent os os' →
  object_at p os' = Some (g, c).
Proof.
  intros Ho Hn Hl. induction Hl as [|r os os' Hr _ IH]; [done|]. apply IH, execute_other; [done|].
  by eapply (proj1 (Forall_forall _ _)) in Hn.
Qed.

Lemma await_fate_spec st :
  ∃ os rest, (await_fate st).2 = mk_StagedState os (ss_sent st) rest (ss_uploads st) (ss_names st) ∧
    late (ss_sent st) (ss_objects st) os.
Proof.
  unfold await_fate. pose proof (next_fate_late (ss_schedule st) (ss_sent st) (ss_objects st)) as Hl.
  destruct (next_fate _ _ _) as [[a rest] os]. by exists os, rest.
Qed.

Lemma staged_ok_schedule st os rest :
  staged_ok (with_objects os st) → staged_ok (mk_StagedState os (ss_sent st) rest (ss_uploads st) (ss_names st)).
Proof. done. Qed.

Lemma await_fate_ok st : staged_ok st → staged_ok (await_fate st).2.
Proof. intros Hok. destruct (await_fate_spec st) as (os & rest & -> & Hl). by apply staged_ok_schedule, late_ok. Qed.

(** * The operations keep the invariant *)

(** Sending: late executions, then the request is executed and answered, or is
    on its way without an answer. *)
Lemma send_spec r st :
  ∃ os0 os, late (ss_sent st) (ss_objects st) os0 ∧
    (∃ rest, (send r st).2 = mk_StagedState os (ss_sent st ++ [r]) rest (ss_uploads st) (ss_names st)) ∧
    (os = (execute r os0).2 ∧ (send r st).1 = (execute r os0).1 ∨ os = os0 ∧ (send r st).1 = Err unexpected).
Proof.
  unfold send. destruct (await_fate_spec st) as (os0 & rest & Hst & Hl).
  destruct (await_fate st) as [[] st1]; cbn in Hst; subst; cbn.
  - exists os0, (execute r os0).2. split; [done|]. destruct (execute r os0) as [x os]. split; [by eexists|]. by left.
  - exists os0, os0. split; [done|]. split; [by eexists|]. by right.
Qed.

Lemma request_ok_fields st st' r :
  ss_uploads st' = ss_uploads st → ss_names st' = ss_names st →
  latest_generation (ss_objects st) ≤ latest_generation (ss_objects st') → request_ok st r → request_ok st' r.
Proof.
  intros Hu Hn Hl. destruct r as [name c|from to cond|p [cond|]]; cbn; rewrite ?Hu, ?Hn; try done;
    (intros [? ?]; split; [done|by eapply seen_condition_mono]).
Qed.

Lemma send_ok r st : staged_ok st → request_ok st r → staged_ok (send r st).2.
Proof.
  intros Hok Hr. destruct (send_spec r st) as (os0 & os & Hl & (rest & ->) & Hcase).
  pose proof (late_ok _ _ Hok Hl) as (Hs0 & Ho0 & Hu0). cbn [with_objects ss_objects ss_sent ss_uploads ss_names] in *.
  assert (latest_generation os0 ≤ latest_generation os) as Hle.
  { destruct Hcase as [[-> _]|[-> _]]; [apply latest_grows|lia]. }
  pose proof (late_latest _ _ _ Hl) as Hle0. split_and!; cbn [ss_objects ss_sent ss_uploads ss_names].
  - apply Forall_app. split; [eapply Forall_impl; [exact Hs0|]; intros x|apply Forall_singleton];
      eapply request_ok_fields; cbn; (done || lia || by etransitivity).
  - intros n g c Hn. apply elem_of_app. destruct Hcase as [[-> _]|[-> _]]; [|left; by eapply Ho0].
    apply (execute_staging (with_objects os0 st)) in Hn as [Hn| ->]; [left; by eapply Ho0|right; by left|].
    by apply request_ok_objects.
  - exact Hu0.
Qed.

(** How an upload may go on: its bytes are fixed once it is closed, and once it
    is done it stays so. *)
Definition upload_step (old : option (Upload * list Z)) (new : Upload * list Z) : Prop :=
  match old with
  | None | Some (UploadOpen, _) => True
  | Some (UploadStaged, c) => new.2 = c ∧ new.1 ≠ UploadOpen
  | Some (UploadDone, c) => new = (UploadDone, c)
  end.

Lemma set_upload_ok st n u :
  staged_ok st → (n < ss_names st)%nat → upload_step (upload_of (staging_name n) (ss_uploads st)) u →
  staged_ok (set_upload (staging_name n) u st).
Proof.
  intros (Hs & Ho & Hu) Hn Hstep. split_and!; [|exact Ho|].
  - eapply Forall_impl; [exact Hs|]. intros r. destruct r as [name c|from to cond|p [cond|]]; cbn; try done.
    + intros [Hname (u0 & Hu0 & Hup)]. split; [done|]. case_decide as Hd; [|by exists u0].
      rewrite Hd, Hup in Hstep. destruct u as [u c1], u0; cbn in Hstep; [done| |].
      * destruct Hstep as [-> ?]. by exists u.
      * injection Hstep as -> ->. by exists UploadDone.
    + intros [Hname (c & Hup)]. split; [done|]. case_decide as Hd; [|by exists c].
      rewrite Hd, Hup in Hstep. cbn in Hstep. subst. by exists c.
  - intros name v. cbn. case_decide as Hd; [intros _; by exists n|apply Hu].
Qed.

(** Sending does not look at the uploads. *)
Lemma send_set_upload r name u st :
  send r (set_upload name u st) = ((send r st).1, set_upload name u (send r st).2).
Proof.
  unfold send, await_fate, set_upload. cbn. destruct (next_fate _ _ _) as [[[] rest] os]; cbn; [|done].
  by destruct (execute r os).
Qed.

Lemma upload_of_set name u st : upload_of name (ss_uploads (set_upload name u st)) = Some u.
Proof. cbn. by rewrite decide_True. Qed.

Lemma send_uploads r st : ss_uploads (send r st).2 = ss_uploads st ∧ ss_names (send r st).2 = ss_names st ∧
  ss_sent (send r st).2 = ss_sent st ++ [r].
Proof. by destruct (send_spec r st) as (? & ? & _ & (? & ->) & _). Qed.

Lemma open_ok path st :
  staged_ok st → staged_ok (StagedPublish_write path st).2 ∧
  ∃ n, (StagedPublish_write path st).1 = Ok (mk_StagedWriter (staging_name n) path) ∧
       upload_of (staging_name n) (ss_uploads (StagedPublish_write path st).2) = Some (UploadOpen, []).
Proof.
  intros (Hs & Ho & Hu). unfold StagedPublish_write.
  set (st1 := mk_StagedState _ _ _ _ _). assert (staged_ok st1) as Hok1.
  { split_and!; [|exact Ho|].
    - eapply Forall_impl; [exact Hs|]. intros r. destruct r as [name c|from to cond|p [cond|]]; cbn; try done;
        intros [(n & ? & ?) ?]; (split; [exists n; split; [lia|done]|done]).
    - intros name u Hup. destruct (Hu name u Hup) as (n & ? & ->). exists n. cbn. split; [lia|done]. }
  fold (staging_name (ss_names st)). split; [apply set_upload_ok; [done|cbn; lia|]|].
  - destruct (upload_of _ _) as [u|] eqn:Hup; [|done]. destruct (Hu _ _ Hup) as (n & Hlt & Heq%staging_name_inj). lia.
  - exists (ss_names st). split; [done|apply upload_of_set].
Qed.

Lemma write_ok w bs st :
  staged_ok st → staged_ok (StagedWriter_write w bs st).2 ∧
  ∀ c, upload_of (sw_staging w) (ss_uploads st) = Some (UploadOpen, c) → (StagedWriter_write w bs st).1 = Ok () →
       upload_of (sw_staging w) (ss_uploads (StagedWriter_write w bs st).2) = Some (UploadOpen, c ++ bs).
Proof.
  intros Hok. unfold StagedWriter_write. pose proof (await_fate_ok st Hok) as Hok1.
  destruct (await_fate_spec st) as (os & rest & Hst & _). destruct (await_fate st) as [a st1]. cbn in Hst, Hok1.
  assert (ss_uploads st1 = ss_uploads st) as Hup by by subst. rewrite Hup.
  destruct a; [|done]. destruct (upload_of (sw_staging w) (ss_uploads st)) as [[[] c0]|] eqn:Hu; try done. split.
  - cbn. rewrite <-Hup in Hu. destruct Hok1 as (H1 & H2 & H3). destruct (H3 _ _ Hu) as (n & Hn & Hw). rewrite Hw in *.
    apply set_upload_ok; [done|done|by rewrite Hu].
  - intros c [= <-] _. apply upload_of_set.
Qed.

Lemma remove_staging_ok w st : staged_ok st → staged_ok (remove_staging w st).
Proof.
  intros Hok. unfold remove_staging. destruct (upload_of (sw_staging w) (ss_uploads st)) as [[[] c]|] eqn:Hu; try done.
  pose proof Hok as (_ & _ & H3). destruct (H3 _ _ Hu) as (n & Hn & Hw). rewrite Hw in *.
  apply send_ok; [apply set_upload_ok; [done|done|by rewrite Hu]|]. split; [by exists n|]. exists c. apply upload_of_set.
Qed.

Lemma abort_ok w st : staged_ok st → staged_ok (StagedWriter_abort w st).2.
Proof.
  intros Hok. unfold StagedWriter_abort. destruct (upload_of (sw_staging w) (ss_uploads st)) as [[[] c]|] eqn:Hu; try done.
  - pose proof Hok as (_ & _ & H3). destruct (H3 _ _ Hu) as (n & Hn & Hw). rewrite Hw in *.
    assert (staged_ok (set_upload (staging_name n) (UploadDone, c) st)) as Hok1
      by (apply set_upload_ok; [done|done|by rewrite Hu]).
    apply await_fate_ok in Hok1. by destruct (await_fate _).
  - by apply remove_staging_ok.
Qed.

(** An expectation read from the store at or before this moment. *)
Definition observed (e : option ExpectedGeneration) (st : StagedState) : Prop :=
  match e with Some (GenKnown g) => 0 ≤ g ≤ latest_generation (ss_objects st) | _ => True end.

Lemma observed_condition e st :
  observed (Some e) st → seen_condition (ss_objects st) (version_condition e).
Proof.
  pose proof (latest_nonneg (ss_objects st)).
  destruct e as [|g]; cbn; [exists 0|exists g]; (split; [done|unfold NO_OBJECT_GENERATION; lia]).
Qed.

Lemma delete_ok e p args st :
  staged_ok st → user_object p → observed e st →
  staged_ok (ConditionalDeleter_delete e p args st).2.
Proof.
  intros Hok Hp He. unfold ConditionalDeleter_delete. destruct (carries_condition args); [done|].
  destruct e as [e|]; [|done].
  pose proof (send_ok (ReqDelete p (Some (version_condition e))) st Hok) as Hs.
  destruct (send _ st) as [r st1]. cbn in *. apply Hs. split; [done|]. by apply observed_condition.
Qed.

(** * Publishing *)

(** A request is not made against a generation that is only given out later. *)
Lemma request_not_against st p g r :
  request_ok st r → user_object p → latest_generation (ss_objects st) < g → ¬ against p g r.
Proof.
  intros Hr Hp Hg [Ht Hc]. destruct r as [name c|from to cond|q [cond|]]; cbn in Ht, Hc, Hr; subst.
  - destruct Hr as [(n & _ & ->) _]. by apply (Hp n).
  - destruct Hr as [_ (g' & -> & Hg')], Hc as [?|[= Hc]]; [done|]. apply show_uint_inj in Hc; lia.
  - destruct Hr as [_ (g' & -> & Hg')], Hc as [?|[= Hc]]; [done|]. apply show_uint_inj in Hc; lia.
  - destruct Hr as [(n & _ & ->) _]. by apply (Hp n).
Qed.

(** The object of [p] holds [c] at generation [g], and nothing that was sent can
    touch it. *)
Definition settled (p : str) (g : Z) (c : list Z) (st : StagedState) : Prop :=
  object_at p (ss_objects st) = Some (g, c) ∧ Forall (λ r, ¬ against p g r) (ss_sent st).

Lemma settled_send p g c r st :
  settled p g c st → ¬ against p g r → settled p g c (send r st).2.
Proof.
  intros [Ho Hn] Hr. destruct (send_spec r st) as (os0 & os & Hl & (rest & ->) & Hcase).
  pose proof (late_other _ _ _ _ _ _ Ho Hn Hl) as Ho0. split; cbn.
  - destruct Hcase as [[-> _]|[-> _]]; [by apply execute_other|done].
  - apply Forall_app. split; [done|by apply Forall_singleton].
Qed.

Lemma settled_await p g c st : settled p g c st → settled p g c (await_fate st).2.
Proof.
  intros [Ho Hn]. destruct (await_fate_spec st) as (os & rest & -> & Hl). split; [|done].
  by eapply late_other.
Qed.

Lemma settled_remove p g c w st :
  settled p g c st → staged_ok st → user_object p → settled p g c (remove_staging w st).
Proof.
  intros Hs (_ & _ & Hu) Hp. unfold remove_staging.
  destruct (upload_of (sw_staging w) (ss_uploads st)) as [[[] b]|] eqn:E; try done.
  apply settled_send; [done|]. intros [Ht _]. cbn in Ht. destruct (Hu _ _ E) as (n & _ & Hw). by apply (Hp n); subst.
Qed.

(** The upload is on its staging object, closed: what the rest of [close] runs
    in. *)
Lemma upload_staged n path st c u :
  staged_ok st → upload_of (staging_name n) (ss_uploads st) = Some (UploadOpen, c) → u ≠ UploadOpen →
  let st' := set_upload (staging_name n) (u, c) (send (ReqUpload (staging_name n) c) st).2 in
  staged_ok st' ∧ upload_of (staging_name n) (ss_uploads st') = Some (u, c) ∧
  latest_generation (ss_objects st) ≤ latest_generation (ss_objects st') ∧
  ∀ g b, user_object path → settled path g b st → settled path g b st'.
Proof.
  intros Hok Hu Hne st'. pose proof Hok as (_ & _ & H3). destruct (H3 _ _ Hu) as (m & Hm & <-%staging_name_inj).
  assert (st' = (send (ReqUpload (staging_name n) c) (set_upload (staging_name n) (u, c) st)).2) as ->
    by by rewrite send_set_upload.
  split_and!.
  - apply send_ok; [apply set_upload_ok; [done|done|by rewrite Hu]|]. split; [by exists n|]. exists u. split; [done|].
    apply upload_of_set.
  - destruct (send_uploads (ReqUpload (staging_name n) c) (set_upload (staging_name n) (u, c) st)) as (-> & _ & _).
    apply upload_of_set.
  - destruct (send_spec (ReqUpload (staging_name n) c) (set_upload (staging_name n) (u, c) st))
      as (os0 & os & Hl & (rest & ->) & Hcase). apply late_latest in Hl. cbn in *.
    destruct Hcase as [[-> _]|[-> _]]; [|lia]. pose proof (latest_grows (ReqUpload (staging_name n) c) os0). lia.
  - intros g b Hp Hset. apply settled_send; [done|]. intros [Ht _]. cbn in Ht. by apply (Hp n).
Qed.

Lemma observed_mono e st st' :
  latest_generation (ss_objects st) ≤ latest_generation (ss_objects st') → observed e st → observed e st'.
Proof. destruct e as [[|g]|]; cbn; [done|lia|done]. Qed.

(** The conditional copy: when it succeeds, the path holds the staged bytes in
    a new version. *)
Lemma copy_ok n path e st c :
  staged_ok st → upload_of (staging_name n) (ss_uploads st) = Some (UploadStaged, c) → user_object path →
  observed (Some e) st →
  let '(r, st') := send (ReqCopy (staging_name n) path (version_condition e)) st in
  staged_ok st' ∧ (r = Ok () → ∃ g, settled path g c st' ∧ latest_generation (ss_objects st) < g).
Proof.
  intros Hok Hu Hp He. set (rq := ReqCopy _ _ _).
  assert (request_ok st rq) as Hrq by (split; [done|by apply observed_condition]).
  pose proof (send_ok rq st Hok Hrq) as Hok'.
  destruct (send_spec rq st) as (os0 & os & Hl & (rest & Hst) & Hcase).
  destruct (send rq st) as [r st']. cbn in Hok', Hst, Hcase. split; [done|]. intros ->.
  destruct Hcase as [[-> Hx]|[_ ?]]; [|done]. symmetry in Hx.
  destruct (execute_copy _ _ _ _ Hx) as (g & g0 & c1 & Hsrc & Hg & Hdst).
  pose proof (late_ok _ _ Hok Hl) as (Hs0 & Ho0 & _). pose proof (Ho0 _ _ _ Hsrc) as Hin.
  rewrite Forall_forall in Hs0. pose proof (Hs0 _ Hin) as [_ (u & _ & Hup)]. cbn in Hup. rewrite Hu in Hup.
  injection Hup as _ <-. apply late_latest in Hl as Hle. exists g. split; [|lia]. subst st'. split; [done|]. cbn.
  apply Forall_app. split; [apply Forall_forall; intros r Hr|apply Forall_singleton];
    (eapply (request_not_against (with_objects os0 st)); [|done|done]); [by apply Hs0|by apply request_ok_objects].
Qed.

(** Closing an open upload: when it succeeds, the path holds the bytes of the
    upload in a version of its own that no request on its way can touch. *)
Lemma close_ok n path e st c :
  staged_ok st → upload_of (staging_name n) (ss_uploads st) = Some (UploadOpen, c) → user_object path →
  observed e st →
  let '(r, st') := StagedWriter_close e (mk_StagedWriter (staging_name n) path) st in
  staged_ok st' ∧
  (r = Ok () → is_Some e ∧ ∃ g, settled path g c st' ∧ latest_generation (ss_objects st) < g).
Proof.
  intros Hok Hu Hp He. unfold StagedWriter_close. cbn [sw_staging sw_path]. rewrite Hu.
  pose proof (upload_staged n path st c UploadStaged Hok Hu) as Hst.
  pose proof (upload_staged n path st c UploadDone Hok Hu) as Hdn.
  destruct (send (ReqUpload (staging_name n) c) st) as [[[]|err] st1]; cbn [fst snd] in Hst, Hdn.
  2:{ split; [by apply Hdn|done]. }
  destruct Hst as (Hok2 & Hu2 & Hle2 & _); [done|]. set (st2 := set_upload _ (UploadStaged, _) st1) in *.
  destruct e as [e|]; [|split; [by apply remove_staging_ok|done]].
  pose proof (copy_ok n path e st2 c Hok2 Hu2 Hp (observed_mono _ _ _ Hle2 He)) as Hc.
  destruct (send _ st2) as [r st3]. destruct Hc as [Hok3 Hc]. split; [by apply remove_staging_ok|].
  intros Hr. split; [done|]. destruct Hc as (g & Hset & Hg).
  { destruct r as [[]|err]; [done|]. cbn in Hr. by case_decide. }
  exists g. split; [by apply settled_remove|lia].
Qed.

(** ** Other requests *)

Lemma condition_against g e st :
  0 < g → observed (Some e) st → e ≠ GenKnown g → version_condition e ≠ show_uint g.
Proof.
  intros Hg He Hne Hc. destruct e as [|g']; cbn in *; apply show_uint_inj in Hc; unfold NO_OBJECT_GENERATION in *; try lia.
  by subst.
Qed.

(** The calls on the layer, by anyone. *)
Inductive StagedOp :=
| OpOpen (path : str)
| OpWrite (w : StagedWriter) (bs : list Z)
| OpClose (e : option ExpectedGeneration) (w : StagedWriter)
| OpAbort (w : StagedWriter)
| OpRemove (e : option ExpectedGeneration) (path : str) (args : OpDelete)
| OpStat (path : str).

Definition staged_step (st : StagedState) (o : StagedOp) : StagedState :=
  match o with
  | OpOpen path => (StagedPublish_write path st).2
  | OpWrite w bs => (StagedWriter_write w bs st).2
  | OpClose e w => (StagedWriter_close e w st).2
  | OpAbort w => (StagedWriter_abort w st).2
  | OpRemove e path args => (ConditionalDeleter_delete e path args st).2
  | OpStat path => (staged_stat path st).2
  end.

(** How the layer is used: a writer is closed once, for a user's path, and
    expectations are generations the store has reported. *)
Definition op_ok (st : StagedState) (o : StagedOp) : Prop :=
  match o with
  | OpClose e w =>
      user_object (sw_path w) ∧ observed e st ∧ ∃ c, upload_of (sw_staging w) (ss_uploads st) = Some (UploadOpen, c)
  | OpRemove e path _ => user_object path ∧ observed e st
  | _ => True
  end.

Fixpoint ops_ok (st : StagedState) (ops : list StagedOp) : Prop :=
  match ops with
  | [] => True
  | o :: ops => op_ok st o ∧ ops_ok (staged_step st o) ops
  end.

(** A publish or delete made against generation [g] of [p]. *)
Definition made_against (p : str) (g : Z) (o : StagedOp) : Prop :=
  match o with
  | OpClose e w => sw_path w = p ∧ e = Some (GenKnown g)
  | OpRemove e path _ => path = p ∧ e = Some (GenKnown g)
  | _ => False
  end.

Lemma stat_spec path st : (staged_stat path st).2 = (await_fate st).2.
Proof. unfold staged_stat. by destruct (await_fate st) as [[] ?]. Qed.

Lemma staged_step_ok st o : staged_ok st → op_ok st o → staged_ok (staged_step st o).
Proof.
  intros Hok Ho. destruct o as [path|w bs|e w|w|e path args|path]; cbn [staged_step op_ok] in *.
  - exact (proj1 (open_ok path st Hok)).
  - exact (proj1 (write_ok w bs st Hok)).
  - destruct Ho as (Hp & He & c & Hu). destruct w as [staging path]. cbn in *. pose proof Hok as (_ & _ & H3).
    destruct (H3 _ _ Hu) as (n & _ & ->). pose proof (close_ok n path e st c Hok Hu Hp He) as Hc.
    by destruct (StagedWriter_close _ _ _), Hc.
  - by apply abort_ok.
  - destruct Ho. by apply delete_ok.
  - rewrite stat_spec. by apply await_fate_ok.
Qed.

Lemma settled_close p g c e w st :
  settled p g c st → staged_ok st → user_object p → 0 < g → op_ok st (OpClose e w) →
  ¬ made_against p g (OpClose e w) → settled p g c (StagedWriter_close e w st).2.
Proof.
  intros Hs Hok Hp Hg (Hpw & He & b & Hu) Hne. pose proof Hok as (_ & _ & H3). destruct (H3 _ _ Hu) as (n & _ & Hw).
  unfold StagedWriter_close. rewrite Hw in *. rewrite Hu.
  pose proof (upload_staged n p st b UploadStaged Hok Hu) as Hst.
  pose proof (upload_staged n p st b UploadDone Hok Hu) as Hdn.
  destruct (send (ReqUpload (staging_name n) b) st) as [[[]|err] st1]; cbn [fst snd] in Hst, Hdn.
  2:{ by apply Hdn. }
  destruct Hst as (Hok2 & Hu2 & Hle2 & Hs2); [done|]. specialize (Hs2 g c Hp Hs).
  set (st2 := set_upload _ (UploadStaged, _) st1) in *. destruct e as [e|]; [|by apply settled_remove].
  pose proof (observed_mono _ _ _ Hle2 He) as He2.
  pose proof (copy_ok n (sw_path w) e st2 b Hok2 Hu2 Hpw He2) as Hc.
  pose proof (settled_send p g c (ReqCopy (staging_name n) (sw_path w) (version_condition e)) st2 Hs2) as Hs3.
  destruct (send _ st2) as [r st3]. destruct Hc as [Hok3 _]. cbn [snd] in *. apply settled_remove; [|done..].
  apply Hs3. intros [Ht [Hc|Hc]]; cbn in Ht, Hc; [done|]. injection Hc as Hc.
  eapply condition_against; [exact Hg|exact He2| |exact Hc]. intros ->. by apply Hne.
Qed.

Lemma settled_step p g c st o :
  settled p g c st → staged_ok st → user_object p → 0 < g → op_ok st o → ¬ made_against p g o →
  settled p g c (staged_step st o).
Proof.
  intros Hs Hok Hp Hg Ho Hne. destruct o as [path|w bs|e w|w|e path args|path]; cbn [staged_step].
  - exact Hs.
  - unfold StagedWriter_write. apply settled_await in Hs. destruct (await_fate st) as [[] st1]; cbn in *; [|done].
    by destruct (upload_of _ _) as [[[] ?]|].
  - by apply settled_close.
  - unfold StagedWriter_abort. destruct (upload_of (sw_staging w) (ss_uploads st)) as [[[] b]|] eqn:Hu; try done.
    + assert (settled p g c (set_upload (sw_staging w) (UploadDone, b) st)) as Hs1 by exact Hs.
      apply settled_await in Hs1. by destruct (await_fate _).
    + by apply settled_remove.
  - unfold ConditionalDeleter_delete. destruct (carries_condition args); [done|]. destruct e as [e|]; [|done].
    destruct Ho as [_ He]. pose proof (settled_send p g c (ReqDelete path (Some (version_condition e))) st Hs) as Hs1.
    destruct (send _ st) as [r st1]. cbn in *. apply Hs1. intros [Ht [Hc|Hc]]; cbn in Ht, Hc; [done|]. injection Hc as Hc.
    eapply condition_against; [exact Hg|exact He| |exact Hc]. intros ->. by apply Hne.
  - rewrite stat_spec. by apply settled_await.
Qed.

Lemma settled_run p g c ops : ∀ st,
  settled p g c st → staged_ok st → user_object p → 0 < g → ops_ok st ops → Forall (λ o, ¬ made_against p g o) ops →
  settled p g c (foldl staged_step st ops).
Proof.
  induction ops as [|o ops IH]; intros st Hs Hok Hp Hg Ho Hne; [done|]. destruct Ho as [Ho Hops].
  apply Forall_cons in Hne as [Hn Hne]. cbn. apply IH; [by apply settled_step|by apply staged_step_ok|done..].
Qed.

(** (C6) A published file is safe from requests that are out of date.  When the
    close of an upload succeeds, the path holds exactly the bytes written to
    it, in a version of its own.  Whatever is done on the layer afterwards by
    anyone, and whenever the store executes (again) any of the requests sent
    before or since, answered or given up on, the object stays exactly that
    until a publish or delete is made against this very version. *)
Theorem published_stays n path e st c ops :
  staged_ok st → upload_of (staging_name n) (ss_uploads st) = Some (UploadOpen, c) → user_object path →
  observed e st →
  let '(r, st1) := StagedWriter_close e (mk_StagedWriter (staging_name n) path) st in
  r = Ok () →
  ∃ g, object_at path (ss_objects st1) = Some (g, c) ∧ latest_generation (ss_objects st) < g ∧
    (ops_ok st1 ops → Forall (λ o, ¬ made_against path g o) ops →
     object_at path (ss_objects (foldl staged_step st1 ops)) = Some (g, c)).
Proof.
  intros Hok Hu Hp He. pose proof (close_ok n path e st c Hok Hu Hp He) as Hc.
  destruct (StagedWriter_close _ _ st) as [r st1]. destruct Hc as [Hok1 Hc]. intros Hr.
  destruct (Hc Hr) as (_ & g & Hset & Hg). exists g. split; [by destruct Hset|]. split; [done|]. intros Hops Hne.
  pose proof (latest_nonneg (ss_objects st)).
  by destruct (settled_run path g c ops st1 Hset Hok1 Hp ltac:(lia) Hops Hne).
Qed.

End StagedProofs.

(** * A store that behaves *)

(** The log of changes, newest first: the generation of an object is the length
    of the log when it was written. *)
Definition ObjectLog : Type := list (str * option (list Z)).

Definition log_latest (log : ObjectLog) : Z := Z.of_nat (length log).

Fixpoint log_object (p : str) (log : ObjectLog) : option (Z * list Z) :=
  match log with
  | [] => None
  | (q, x) :: log' =>
      let g := log_latest log' + 1 in
      if bool_decide (q = p) && (g <=? U64_MAX) then (λ c, (g, c)) <$> x else log_object p log'
  end.

Definition log_execute (r : StoreRequest) (log : ObjectLog) : result OpendalError () * ObjectLog :=
  let generation := match log_object (target r) log with Some (g, _) => g | None => 0 end in
  if match condition_of r with Some c => negb (bool_decide (c = show_uint generation)) | None => false end
  then (Err (mk_OpendalError KConditionNotMatch None), log)
  else if U64_MAX <=? log_latest log then (Err unexpected, log)
  else match r with
       | ReqUpload name c => (Ok (), (name, Some c) :: log)
       | ReqCopy source to _ =>
           match log_object source log with
           | Some (_, c) => (Ok (), (to, Some c) :: log)
           | None => (Err (mk_OpendalError KNotFound None), log)
           end
       | ReqDelete p _ => (Ok (), (p, None) :: log)
       end.

#[export] Instance log_store : VersionedStore := {|
  Objects := ObjectLog;
  object_at := log_object;
  latest_generation := log_latest;
  execute := log_execute;
  uuid n := show_uint (Z.of_nat n);
|}.

(** A request is refused, or adds one entry for its target below the limit. *)
Lemma log_execute_cases r log :
  (∃ e, log_execute r log = (Err e, log)) ∨
  ∃ x, log_execute r log = (Ok (), (target r, x) :: log) ∧ log_latest log < U64_MAX ∧
    match r with
    | ReqUpload _ c => x = Some c
    | ReqCopy source _ _ => ∃ g c, log_object source log = Some (g, c) ∧ x = Some c
    | ReqDelete _ _ => x = None
    end.
Proof.
  unfold log_execute.
  match goal with |- context [if ?refused then _ else _] => destruct refused end; [left; by eexists|].
  destruct (Z.leb_spec U64_MAX (log_latest log)); [left; by eexists|].
  destruct r as [name c|source to cond|p cond]; cbn [target]; [right; by eauto| |right; by eauto].
  destruct (log_object source log) as [[g c]|] eqn:E; [right; exists (Some c); by eauto 10|left; by eexists].
Qed.

Lemma log_object_new p x log :
  log_latest log < U64_MAX → log_object p ((p, x) :: log) = (λ c, (log_latest log + 1, c)) <$> x.
Proof. intros Hl. cbn. rewrite bool_decide_true by done. cbn. rewrite (proj2 (Z.leb_le _ _)) by lia. done. Qed.

Lemma log_object_bounds p log g c : log_object p log = Some (g, c) → 0 < g ≤ log_latest log ∧ g ≤ U64_MAX.
Proof.
  unfold log_latest. induction log as [|[q x] log IH]; cbn; [done|]. unfold log_latest in *.
  destruct (_ && _) eqn:E.
  - destruct x; cbn; [|done]. intros [= <- <-]. apply andb_true_iff in E as [_ E%Z.leb_le]. lia.
  - intros Ho. specialize (IH Ho). lia.
Qed.

#[export] Instance log_store_laws : VersionedStoreLaws.
Proof.
  split; cbn [Objects object_at latest_generation execute uuid log_store].
  - intros r p log Hne. destruct (log_execute_cases r log) as [(e & ->)|(x & -> & _)]; [done|]. cbn.
    by rewrite bool_decide_false.
  - intros r log e p. destruct (log_execute_cases r log) as [(e' & ->)|(x & -> & _)]; done.
  - intros r c log Hc Hne. unfold log_execute. rewrite Hc. unfold generation_of in Hne. cbn in Hne.
    rewrite bool_decide_false by done. cbn. by eexists.
  - intros name c log. destruct (log_execute_cases (ReqUpload name c) log) as [(e & ->)|(x & -> & Hl & ->)]; [done|].
    intros _. exists (log_latest log + 1). by apply (log_object_new name (Some c)).
  - intros source to cond log.
    destruct (log_execute_cases (ReqCopy source to cond) log) as [(e & ->)|(x & -> & Hl & g & c & Hs & ->)]; [done|].
    intros _. exists (log_latest log + 1), g, c. split; [done|]. split; [lia|]. by apply (log_object_new to (Some c)).
  - intros p cond log. destruct (log_execute_cases (ReqDelete p cond) log) as [(e & ->)|(x & -> & Hl & ->)]; [done|].
    intros _. by apply (log_object_new p None).
  - apply log_object_bounds.
  - intros log. unfold log_latest. lia.
  - intros r log. destruct (log_execute_cases r log) as [(e & ->)|(x & -> & _)]; unfold log_latest; cbn; lia.
  - intros r p log g c. destruct (log_execute_cases r log) as [(e & ->)|(x & -> & Hl & _)]; [by left|].
    destruct (decide (target r = p)) as [<-|Hne].
    + cbn [snd]. rewrite log_object_new by done. destruct x; [|done]. intros [= <- <-]. right. lia.
    + cbn. rewrite bool_decide_false by done. by left.
  - intros m n E%show_uint_inj; lia.
Qed.

(** An upload of two bytes over an older version, with a publish and a delete
    of the version before still on their way, executed after it; the removal
    of the staging object gets no answer. *)
Definition toy_path : str := lit "owner/pub/a".
Definition toy_state : StagedState :=
  mk_StagedState [(toy_path, Some [1]); (toy_path, Some [0])]
    [ReqCopy (staging_name 0) toy_path (show_uint 1); ReqDelete toy_path (Some (show_uint 0))]
    [Answered; Answered; Answered; NoAnswer; LateExec 0; LateExec 1; LateExec 3] [] 1.

Lemma toy_path_user : user_object toy_path.
Proof. intros n. unfold toy_path, staging_name. cbn. discriminate. Qed.

Lemma toy_state_ok : staged_ok toy_state.
Proof.
  split_and!.
  - constructor; [|constructor; [|constructor]]; (split; [apply toy_path_user|]); [exists 1|exists 0];
      (split; [reflexivity|]); cbn; unfold log_latest; cbn; lia.
  - intros n g c. cbn. by rewrite !bool_decide_false by apply toy_path_user.
  - done.
Qed.

Definition toy_upload : StagedState :=
  (StagedWriter_write (mk_StagedWriter (staging_name 1) toy_path) [7; 8] (StagedPublish_write toy_path toy_state).2).2.

Lemma published_stays_witness :
  let '(r, st1) := StagedWriter_close (Some (GenKnown 2)) (mk_StagedWriter (staging_name 1) toy_path) toy_upload in
  r = Ok () ∧ ∃ g, object_at toy_path (ss_objects st1) = Some (g, [7; 8]) ∧
    object_at toy_path (ss_objects (foldl staged_step st1 [OpStat toy_path])) = Some (g, [7; 8]).
Proof.
  pose proof (published_stays 1 toy_path (Some (GenKnown 2)) toy_upload [7; 8] [OpStat toy_path]) as Hs.
  assert (staged_ok toy_upload) as Hok.
  { apply write_ok. apply open_ok, toy_state_ok. }
  specialize (Hs Hok ltac:(vm_compute; reflexivity) toy_path_user ltac:(vm_compute; split; discriminate)).
  destruct (StagedWriter_close _ _ toy_upload) as [r st1] eqn:E.
  assert (r = Ok ()) as -> by (apply (f_equal fst) in E; vm_compute in E; by rewrite <-E).
  split; [done|]. destruct (Hs eq_refl) as (g & Ho & _ & Hrun). exists g. split; [done|].
  apply Hrun; [by repeat split|]. apply Forall_singleton. intros [].
Defined.
