(* ===== verification/GcsRepair.v ===== *)
(** The repair of misnamed objects
    ([persistence/files/opendal/gcs_name_repair.rs]), with the query and the
    migrations table it uses.

    The repair runs beside the clients' writes and beside the repairs of other
    homeservers on the same bucket and database, so it is modelled as a program
    whose steps are single requests ([Prog]); a system ([system_step]) runs any
    number of such programs and interleaves their requests with those of the
    clients.  A request may fail, lose its answer, or be executed again later.

    The bucket belongs to Google Cloud Storage and [opendal]: [ComposeBucket] is
    what a compose and a delete do when they are executed.  Percent encoding
    belongs to [percent_encoding], the regular expression operator to
    PostgreSQL. *)

From stdpp Require Import relations.
From S2P Require Import Prelude StoragePath HttpError Keys Quota Database Users Entries EntryLocks Events Finalization.
From S2P Require Import Accounting AppState LockRoutes Uploads StagedPublish.

(** * What the repair is built on *)

(** [percent_encoding]: the escapes of the bytes of one character, and
    [utf8_percent_encode] with a set of ASCII characters to escape. *)
Class PercentEncoding := { percent_escape : Z → str }.

Definition utf8_percent_encode `{PercentEncoding} (ascii_set : Z → bool) (s : str) : str :=
  s ≫= λ c, if (c <? 128) && negb (ascii_set c) then [c] else percent_escape c.

(** An escape starts with a percent sign, is longer than one character, and no
    escape is the start of another. *)
Class PercentEncodingLaws `{PercentEncoding} := {
  escape_head c : ∃ d t, percent_escape c = PERCENT :: d :: t;
  escape_prefix_free c d s t : percent_escape c ++ s = percent_escape d ++ t → c = d ∧ s = t;
}.

(** PostgreSQL's [text ~ pattern]. *)
Class PgMatch := { regex_match : str → str → bool }.

Record StoredObject := mk_StoredObject {
  so_generation : Z;
  so_content : list Z;
  so_content_type : option str
}.

Class ComposeBucket := {
  Bucket : Type;
  bucket_at : str → Bucket → option StoredObject;
  bucket_latest : Bucket → Z;
  (** Compose the version of one source to a target whose version the condition
      names, with a content type. *)
  bucket_compose : str → str → str → str → option str → Bucket → result OpendalError () * Bucket;
  (** Delete an object of the version the condition names. *)
  bucket_delete : str → str → Bucket → result OpendalError () * Bucket;
}.

Definition bucket_generation `{ComposeBucket} (name : str) (b : Bucket) : Z :=
  match bucket_at name b with Some o => so_generation o | None => 0 end.

Definition answers_kind {A} (k : ErrorKind) (r : result OpendalError A) : Prop :=
  ∃ e, r = Err e ∧ oe_kind e = k.

Class ComposeBucketLaws `{ComposeBucket} := {
  (** What a request may change, and when. *)
  compose_frame src v to cond ct b n :
    n ≠ to → bucket_at n (bucket_compose src v to cond ct b).2 = bucket_at n b;
  compose_refused src v to cond ct b n e :
    (bucket_compose src v to cond ct b).1 = Err e →
    bucket_at n (bucket_compose src v to cond ct b).2 = bucket_at n b;
  compose_ok src v to cond ct b :
    (bucket_compose src v to cond ct b).1 = Ok () →
    ∃ o g, bucket_at src b = Some o ∧ v = show_uint (so_generation o) ∧
      cond = show_uint (bucket_generation to b) ∧ bucket_latest b < g ∧
      bucket_at to (bucket_compose src v to cond ct b).2 = Some (mk_StoredObject g (so_content o) ct);
  delete_frame name cond b n : n ≠ name → bucket_at n (bucket_delete name cond b).2 = bucket_at n b;
  delete_refused name cond b n e :
    (bucket_delete name cond b).1 = Err e → bucket_at n (bucket_delete name cond b).2 = bucket_at n b;
  delete_executed name cond b :
    (bucket_delete name cond b).1 = Ok () →
    cond = show_uint (bucket_generation name b) ∧ bucket_at name (bucket_delete name cond b).2 = None;
  (** What it answers. *)
  compose_accepts src to cond ct b o :
    bucket_at src b = Some o → bucket_at to b = None → cond = show_uint 0 → bucket_latest b < U64_MAX →
    (bucket_compose src (show_uint (so_generation o)) to cond ct b).1 = Ok ();
  delete_accepts name b o :
    bucket_at name b = Some o → (bucket_delete name (show_uint (so_generation o)) b).1 = Ok ();
  delete_condition name cond b :
    cond ≠ show_uint (bucket_generation name b) → answers_kind KConditionNotMatch (bucket_delete name cond b).1;
  (** Generations. *)
  bucket_generations n b o : bucket_at n b = Some o → 0 < so_generation o ≤ bucket_latest b;
  bucket_generation_u64 n b o : bucket_at n b = Some o → so_generation o ≤ U64_MAX;
  compose_latest src v to cond ct b : bucket_latest b ≤ bucket_latest (bucket_compose src v to cond ct b).2;
  delete_latest name cond b : bucket_latest b ≤ bucket_latest (bucket_delete name cond b).2;
}.

(** * Names *)

(** [MISNAMED_ENCODE_SET]: [NON_ALPHANUMERIC] without ten characters. *)
Definition MISNAMED_KEPT : str := lit "-_.*!'()~/".
Definition is_ascii_alphanumeric (c : Z) : bool :=
  is_ascii_digit c || ((65 <=? c) && (c <=? 90)) || ((97 <=? c) && (c <=? 122)).
Definition MISNAMED_ENCODE_SET (c : Z) : bool :=
  negb (is_ascii_alphanumeric c) && negb (contains_char MISNAMED_KEPT c).

Definition AFFECTED_PATH_PATTERN : str := lit "[^-A-Za-z0-9_.*!'()~/]".
Definition FINISHED_MARKER : str := lit "gcs_repair_object_names_2026_10".
Definition REPAIR_BATCH_SIZE : Z := 100.
Definition ATTEMPTS_PER_ENTRY : nat := 2.

(** What a negated bracket expression matches: a string with a character that
    is not listed, by itself or in a range. *)
Class PgMatchLaws `{PgMatch} := {
  affected_pattern_match s :
    regex_match AFFECTED_PATH_PATTERN s =
      existsb (λ c, negb ((c =? 45) || ((65 <=? c) && (c <=? 90)) || ((97 <=? c) && (c <=? 122))
                          || ((48 <=? c) && (c <=? 57)) || existsb (Z.eqb c) (lit "_.*!'()~/"))) s;
}.

Section Repair.
Context `{PkarrKeys, ContentTools, PercentEncoding, PgMatch, ComposeBucket}.

Definition misnamed_object_name (path : EntryPath) : str :=
  utf8_percent_encode MISNAMED_ENCODE_SET (ep_key path).

(** * Entries by pattern *)

(** [entries LEFT JOIN users]: a row without its user does not decode. *)
Definition decode_joined (tb : Tables) (e : EntryRow) : result SqlError EntryEntity :=
  match list_find (λ u, u_id u = e_user e) (users tb) with
  | Some (_, u) => EntryEntity_from_row (e, u)
  | None => Err Decode
  end.

Definition EntryRepository_list_by_path_pattern (pattern : str) (after_id limit : Z)
    : DB SqlError (list EntryEntity) :=
  select (λ _ tb,
    fetch_all (decode_joined tb)
      (take (Z.to_nat limit)
         (order_by (λ a b, e_id a <=? e_id b)
            (filter (λ e, regex_match pattern (e_path e) = true ∧ after_id < e_id e) (entries tb))))).

(** * Requests *)

Record Metadata := mk_Metadata {
  md_content_length : Z;
  md_version : option str;
  md_content_type : option str
}.

(** An [std::io::Error] a byte stream reports: is its kind [NotFound]. *)
Record IoError := mk_IoError { io_not_found : bool }.

Inductive Act :=
| AStat (name : str)
| ARead (name : str)
| ACompose (source version to condition : str) (content_type : option str)
| ADelete (name condition : str)
| AGetByPath (path : EntryPath)
| AListByPattern (pattern : str) (after_id limit : Z)
| AAppliedMigrations
| AMarkDone (name : str).

Definition answer (a : Act) : Type :=
  match a with
  | AStat _ => result OpendalError Metadata
  | ARead _ => result OpendalError (list (result IoError (list Z)))
  | ACompose _ _ _ _ _ | ADelete _ _ => result OpendalError ()
  | AGetByPath _ => result SqlError EntryEntity
  | AListByPattern _ _ _ => result SqlError (list EntryEntity)
  | AAppliedMigrations => result SqlError (list str)
  | AMarkDone _ => result SqlError ()
  end.

Inductive Prog (A : Type) : Type :=
| Ret (a : A)
| Perform (a : Act) (k : answer a → Prog A).
#[global] Arguments Ret {A} a.
#[global] Arguments Perform {A} a k.

Fixpoint prog_bind {A B} (p : Prog A) (k : A → Prog B) : Prog B :=
  match p with
  | Ret a => k a
  | Perform a k' => Perform a (λ x, prog_bind (k' x) k)
  end.

#[export] Instance prog_mbind : MBind Prog := λ A B k p, prog_bind p k.

Definition request (a : Act) : Prog (answer a) := Perform a Ret.

(** [anyhow::Error]. *)
Inductive AnyError :=
| AnyOpendal (e : OpendalError)
| AnyIo (e : IoError)
| AnySql (e : SqlError)
| AnyMessage (message : str).

(** [p.await?] in a function that returns [anyhow::Result]. *)
Definition question {E A B} (into : E → AnyError) (p : Prog (result E A)) (k : A → Prog (result AnyError B))
    : Prog (result AnyError B) :=
  r ← p; match r with Ok a => k a | Err e => Ret (Err (into e)) end.

Definition is_not_found (error : AnyError) : bool :=
  match error with
  | AnyOpendal e => bool_decide (oe_kind e = KNotFound)
  | AnyIo e => io_not_found e
  | AnySql _ | AnyMessage _ => false
  end.

(** * Outcomes *)

Inductive Outcome := InPlace | Moved | Copied | LeftoverRemoved | Missing | Mismatch | Conflict.
Inductive Attempt := Finished (o : Outcome) | Raced.

Record Summary := mk_Summary {
  in_place : Z; moved : Z; copied : Z; leftover_removed : Z;
  missing : Z; mismatch : Z; conflict : Z; failed : Z
}.

Definition Summary_default : Summary := mk_Summary 0 0 0 0 0 0 0 0.
Definition Summary_is_complete (self : Summary) : bool := failed self =? 0.

Definition Summary_count (o : Outcome) (s : Summary) : Summary :=
  let '(mk_Summary a b c d e f g h) := s in
  match o with
  | InPlace => mk_Summary (a + 1) b c d e f g h
  | Moved => mk_Summary a (b + 1) c d e f g h
  | Copied => mk_Summary a b (c + 1) d e f g h
  | LeftoverRemoved => mk_Summary a b c (d + 1) e f g h
  | Missing => mk_Summary a b c d (e + 1) f g h
  | Mismatch => mk_Summary a b c d e (f + 1) g h
  | Conflict => mk_Summary a b c d e f (g + 1) h
  end.

(** [summary.failed += 1]. *)
Definition Summary_fail (s : Summary) : Summary :=
  let '(mk_Summary a b c d e f g h) := s in mk_Summary a b c d e f g (h + 1).

Inductive RepairRun := AlreadyFinished | Ran (s : Summary).

Record MisnamedObject := mk_MisnamedObject {
  mo_name : str;
  mo_generation : Z;
  mo_content_type : option str
}.

Inductive MisnamedCopy := Found (o : MisnamedObject) | Absent | OtherContent | Vanished.

(** * The repair of one entry *)

Fixpoint hash_stream (hasher : Hasher) (stream : list (result IoError (list Z))) : result AnyError Hash :=
  match stream with
  | [] => Ok (hasher_finalize hasher)
  | Ok chunk :: rest => hash_stream (hasher_update chunk hasher) rest
  | Err e :: _ => Err (AnyIo e)
  end.

Definition content_hash (name : str) : Prog (result AnyError Hash) :=
  question AnyOpendal (request (ARead name)) (λ stream, Ret (hash_stream hasher_default stream)).

Definition holds_content (name : str) (length : Z) (entry : EntryEntity) : Prog (result AnyError bool) :=
  if length =? ee_content_length entry then
    question id (content_hash name) (λ h, Ret (Ok (bool_decide (h = ee_content_hash entry))))
  else Ret (Ok false).

Definition is_object_of_an_entry (name : str) : Prog (result SqlError bool) :=
  match EntryPath_from_str name with
  | Err _ => Ret (Ok false)
  | Ok path =>
      r ← request (AGetByPath path);
      Ret (match (r : result SqlError EntryEntity) with
           | Ok _ => Ok true
           | Err RowNotFound => Ok false
           | Err error => Err error
           end)
  end.

(** [Operator::exists]. *)
Definition operator_exists (name : str) : Prog (result OpendalError bool) :=
  r ← request (AStat name);
  Ret (match (r : result OpendalError Metadata) with
       | Ok _ => Ok true
       | Err e => if decide (oe_kind e = KNotFound) then Ok false else Err e
       end).

Definition find_misnamed_copy (entry : EntryEntity) : Prog (result AnyError MisnamedCopy) :=
  let name := misnamed_object_name (ee_path entry) in
  m ← request (AStat name);
  match (m : result OpendalError Metadata) with
  | Err error => Ret (if decide (oe_kind error = KNotFound) then Ok Absent else Err (AnyOpendal error))
  | Ok metadata =>
      c ← holds_content name (md_content_length metadata) entry;
      match c with
      | Err error => Ret (if is_not_found error then Ok Vanished else Err error)
      | Ok false =>
          question AnySql (is_object_of_an_entry name) (λ other,
            Ret (Ok (if (other : bool) then Absent else OtherContent)))
      | Ok true =>
          Ret (match v ← md_version metadata; parse_uint U64_MAX v with
               | Some generation => Ok (Found (mk_MisnamedObject name generation (md_content_type metadata)))
               | None => Err (AnyMessage (lit "GCS reported no generation for " ++ name))
               end)
      end
  end.

Definition copy_as_checked (misnamed : MisnamedObject) (to : str) : Prog (result OpendalError ()) :=
  request (ACompose (mo_name misnamed) (show_uint (mo_generation misnamed)) to (version_condition GenAbsent)
             (mo_content_type misnamed)).

Definition delete_unless_replaced (misnamed : MisnamedObject) : Prog (result OpendalError ()) :=
  deleted ← request (ADelete (mo_name misnamed) (version_condition (GenKnown (mo_generation misnamed))));
  match (deleted : result OpendalError ()) with
  | Err error =>
      if decide (oe_kind error = KConditionNotMatch) then
        x ← operator_exists (mo_name misnamed);
        Ret (match x with Ok true => Err error | Ok false => Ok () | Err e => Err e end)
      else Ret (Err error)
  | Ok _ => Ret (Ok ())
  end.

Definition delete_leftover (misnamed : MisnamedObject) : Prog (result AnyError Outcome) :=
  question AnySql (is_object_of_an_entry (mo_name misnamed)) (λ other : bool,
    if other then Ret (Ok InPlace)
    else question AnyOpendal (delete_unless_replaced misnamed) (λ _, Ret (Ok LeftoverRemoved))).

Definition remove_leftover (entry : EntryEntity) (in_place : Metadata) : Prog (result AnyError Outcome) :=
  question id (find_misnamed_copy entry) (λ copy,
    match copy with
    | Absent | Vanished => Ret (Ok InPlace)
    | OtherContent => Ret (Ok Mismatch)
    | Found misnamed =>
        question id (holds_content (ep_key (ee_path entry)) (md_content_length in_place) entry) (λ held : bool,
          if held then delete_leftover misnamed else Ret (Ok Conflict))
    end).

Definition move_misnamed (entry : EntryEntity) : Prog (result AnyError Attempt) :=
  question id (find_misnamed_copy entry) (λ copy,
    match copy with
    | Absent => Ret (Ok (Finished Missing))
    | OtherContent => Ret (Ok (Finished Mismatch))
    | Vanished => Ret (Ok Raced)
    | Found misnamed =>
        c ← copy_as_checked misnamed (ep_key (ee_path entry));
        match c with
        | Err error =>
            Ret (if decide (oe_kind error = KConditionNotMatch ∨ oe_kind error = KNotFound)
                 then Ok Raced else Err (AnyOpendal error))
        | Ok _ =>
            question AnySql (is_object_of_an_entry (mo_name misnamed)) (λ other : bool,
              if other then Ret (Ok (Finished Copied))
              else question AnyOpendal (delete_unless_replaced misnamed) (λ _, Ret (Ok (Finished Moved))))
        end
    end).

Definition attempt_repair (entry : EntryEntity) : Prog (result AnyError Attempt) :=
  m ← request (AStat (ep_key (ee_path entry)));
  match (m : result OpendalError Metadata) with
  | Ok in_place => question id (remove_leftover entry in_place) (λ o, Ret (Ok (Finished o)))
  | Err error =>
      if decide (oe_kind error = KNotFound) then move_misnamed entry else Ret (Err (AnyOpendal error))
  end.

Definition objects_changed : AnyError :=
  AnyMessage (lit "the objects changed on all 2 attempts: writes or another homeserver kept changing the entry's path or its misnamed name").

Fixpoint repair_attempts (n : nat) (entry : EntryEntity) : Prog (result AnyError Outcome) :=
  match n with
  | O => Ret (Err objects_changed)
  | S n =>
      question id (attempt_repair entry) (λ a,
        match a with Finished outcome => Ret (Ok outcome) | Raced => repair_attempts n entry end)
  end.

Definition repair (entry : EntryEntity) : Prog (result AnyError Outcome) :=
  repair_attempts ATTEMPTS_PER_ENTRY entry.

(** * All entries *)

Fixpoint repair_batch (batch : list EntryEntity) (summary : Summary) : Prog Summary :=
  match batch with
  | [] => Ret summary
  | entry :: rest =>
      r ← repair entry;
      repair_batch rest (match r with Ok o => Summary_count o summary | Err _ => Summary_fail summary end)
  end.

(** One turn of the loop per unit of fuel; each sees only larger ids. *)
Fixpoint repair_loop (fuel : nat) (after_id : Z) (summary : Summary) : Prog (result SqlError Summary) :=
  match fuel with
  | O => Ret (Err SqlIo)
  | S fuel =>
      b ← request (AListByPattern AFFECTED_PATH_PATTERN after_id REPAIR_BATCH_SIZE);
      match (b : result SqlError (list EntryEntity)) with
      | Err e => Ret (Err e)
      | Ok batch =>
          match last batch with
          | None => Ret (Ok summary)
          | Some l => summary ← repair_batch batch summary; repair_loop fuel (ee_id l) summary
          end
      end
  end.

Definition repair_all_affected_entries (fuel : nat) : Prog (result SqlError Summary) :=
  repair_loop fuel 0 Summary_default.

(** [Migrator::is_applied]. *)
Definition Migrator_is_applied (name : str) : Prog (result AnyError bool) :=
  question AnySql (request AAppliedMigrations) (λ applied, Ret (Ok (existsb (λ a, bool_decide (a = name)) applied))).

(** [begin], the [INSERT] and [commit] of the marker are one request; only the
    [INSERT] can violate the unique constraint. *)
Definition mark_finished : Prog (result AnyError ()) :=
  r ← request (AMarkDone FINISHED_MARKER);
  Ret (match (r : result SqlError ()) with
       | Err UniqueViolation => Ok ()
       | Err e => Err (AnySql e)
       | Ok _ => Ok ()
       end).

Definition run_once (fuel : nat) : Prog (result AnyError RepairRun) :=
  question id (Migrator_is_applied FINISHED_MARKER) (λ applied : bool,
    if applied then Ret (Ok AlreadyFinished)
    else question AnySql (repair_all_affected_entries fuel) (λ summary,
      if Summary_is_complete summary
      then question id mark_finished (λ _, Ret (Ok (Ran summary)))
      else Ret (Ok (Ran summary)))).

(** * Running requests *)

(** How a request goes: it is served, a read in the chunks given; or its answer
    is lost, with or without its effect; or a read breaks off. *)
Inductive Service := Served (cuts : list nat) | Lost (effect : bool) | Broken (cuts : list nat) (n : nat).

Record RepairState := mk_RepairState {
  rs_bucket : Bucket;
  rs_world : World;
  (** The names in the migrations table. *)
  rs_migrations : list str;
  (** The requests sent to the bucket that change objects. *)
  rs_sent : list Act
}.

Fixpoint cut (cuts : list nat) (content : list Z) : list (list Z) :=
  match cuts with
  | [] => [content]
  | n :: cuts => take n content :: cut cuts (drop n content)
  end.

Definition stat_object (o : StoredObject) : Metadata :=
  mk_Metadata (Z.of_nat (length (so_content o))) (Some (show_uint (so_generation o))) (so_content_type o).

Definition read_object (f : Service) (o : option StoredObject) : result OpendalError (list (result IoError (list Z))) :=
  match f, o with
  | Lost _, _ => Err unexpected
  | _, None => Ok [Err (mk_IoError true)]
  | Served cuts, Some o => Ok (map Ok (cut cuts (so_content o)))
  | Broken cuts n, Some o => Ok (map Ok (take n (cut cuts (so_content o))) ++ [Err (mk_IoError false)])
  end.

(** The effect of a request on the bucket. *)
Definition bucket_effect (a : Act) (b : Bucket) : result OpendalError () * Bucket :=
  match a with
  | ACompose source version to condition content_type => bucket_compose source version to condition content_type b
  | ADelete name condition => bucket_delete name condition b
  | _ => (Ok (), b)
  end.

Definition send_act (f : Service) (a : Act) (s : RepairState) : result OpendalError () * RepairState :=
  let '(r, b) := bucket_effect a (rs_bucket s) in
  let after b := mk_RepairState b (rs_world s) (rs_migrations s) (rs_sent s ++ [a]) in
  match f with
  | Lost false => (Err unexpected, after (rs_bucket s))
  | Lost true => (Err unexpected, after b)
  | Served _ | Broken _ _ => (r, after b)
  end.

Definition on_world {A} (m : DB SqlError A) (s : RepairState) : result SqlError A * RepairState :=
  let '(r, w) := m (rs_world s) in (r, mk_RepairState (rs_bucket s) w (rs_migrations s) (rs_sent s)).

Definition mark_done (f : Service) (name : str) (s : RepairState) : result SqlError () * RepairState :=
  let present := existsb (λ m, bool_decide (m = name)) (rs_migrations s) in
  let marked := mk_RepairState (rs_bucket s) (rs_world s) (rs_migrations s ++ [name]) (rs_sent s) in
  match f with
  | Lost effect => (Err SqlIo, if effect && negb present then marked else s)
  | Served _ | Broken _ _ => if present then (Err UniqueViolation, s) else (Ok (), marked)
  end.

Definition perform (f : Service) (a : Act) (s : RepairState) : answer a * RepairState :=
  match a with
  | AStat name =>
      (match f, bucket_at name (rs_bucket s) with
       | Lost _, _ => Err unexpected
       | _, Some o => Ok (stat_object o)
       | _, None => Err (mk_OpendalError KNotFound None)
       end, s)
  | ARead name => (read_object f (bucket_at name (rs_bucket s)), s)
  | ACompose source version to condition content_type =>
      send_act f (ACompose source version to condition content_type) s
  | ADelete name condition => send_act f (ADelete name condition) s
  | AGetByPath path => on_world (EntryRepository_get_by_path path) s
  | AListByPattern pattern after_id limit => on_world (EntryRepository_list_by_path_pattern pattern after_id limit) s
  | AAppliedMigrations => (match f with Lost _ => Err SqlIo | _ => Ok (rs_migrations s) end, s)
  | AMarkDone name => mark_done f name s
  end.

(** A request that was sent is executed once more. *)
Definition late_effect (i : nat) (s : RepairState) : RepairState :=
  match rs_sent s !! i with
  | Some a => mk_RepairState (bucket_effect a (rs_bucket s)).2 (rs_world s) (rs_migrations s) (rs_sent s)
  | None => s
  end.

(** A program alone, its requests served as given (in one piece when the list
    is used up). *)
Fixpoint run_prog {A} (services : list Service) (p : Prog A) (s : RepairState) : A * RepairState :=
  match p with
  | Ret a => (a, s)
  | Perform a k =>
      let '(r, s) := perform (default (Served []) (head services)) a s in run_prog (tail services) (k r) s
  end.

(** Any number of repairs, and [Client] steps of everything else. *)
Inductive system_step {A} (Client : relation RepairState) : relation (RepairState * list (Prog A)) :=
| step_repair s ps i a k f :
    ps !! i = Some (Perform a k) →
    system_step Client (s, ps) ((perform f a s).2, <[i := k (perform f a s).1]> ps)
| step_late s ps i : system_step Client (s, ps) (late_effect i s, ps)
| step_client s s' ps : Client s s' → system_step Client (s, ps) (s', ps).

End Repair.
