(* ===== verification/GcsRepairProofs.v ===== *)
(** What the repair of misnamed objects guarantees: which entries it looks at,
    what it does with each, and that no interleaving of repairs, clients, lost
    answers and late executions makes the content of an entry unavailable.

    The interleavings are handled by a small rely-guarantee logic ([safe]): a
    program is safe when each of its requests, made from any state that its
    knowledge allows, is a step the others may rely on. *)

From stdpp Require Import relations.
From S2P Require Import Prelude StoragePath HttpError Keys Quota Database Users Entries EntryLocks Events Finalization.
From S2P Require Import Accounting AppState LockRoutes Uploads StagedPublish GcsRepair.

(** * Rely and guarantee *)

Section Logic.
Context `{PkarrKeys, ContentTools, PercentEncoding, PgMatch, ComposeBucket}.
Variable Inv : RepairState → Prop.
Variable Rely : relation RepairState.

(** Knowledge that the steps of others keep. *)
Definition stable (P : RepairState → Prop) : Prop := ∀ s s', Inv s → Rely s s' → P s → P s'.

Definition allowed (s s' : RepairState) : Prop := Rely s s' ∧ Inv s'.

Fixpoint safe {A} (p : Prog A) (P : RepairState → Prop) (Q : A → RepairState → Prop) : Prop :=
  match p with
  | Ret a => ∀ s, Inv s → P s → Q a s
  | Perform a k =>
      ∀ f s, Inv s → P s →
        allowed s (perform f a s).2 ∧
        ∃ P', stable P' ∧ P' (perform f a s).2 ∧ safe (k (perform f a s).1) P' Q
  end.

Lemma safe_pre {A} (p : Prog A) P Q :
  (∀ s, Inv s → P s → ∃ P', P' s ∧ safe p P' Q) → safe p P Q.
Proof.
  destruct p as [a|a k]; cbn; intros Hp.
  - intros s Hi HP. destruct (Hp s Hi HP) as (P' & HP' & Hs). by apply Hs.
  - intros f s Hi HP. destruct (Hp s Hi HP) as (P' & HP' & Hs). by apply Hs.
Qed.

Lemma safe_mono {A} (p : Prog A) (P P' : RepairState → Prop) Q :
  (∀ s, P s → P' s) → safe p P' Q → safe p P Q.
Proof. intros HP Hs. apply safe_pre. intros s _ HPs. exists P'. auto. Qed.

Lemma safe_bind {A B} (p : Prog A) (k : A → Prog B) P Q :
  safe p P (λ a s, ∃ P', P' s ∧ safe (k a) P' Q) → safe (p ≫= k) P Q.
Proof.
  revert P. induction p as [a|a k' IH]; cbn; intros P Hp.
  - by apply safe_pre.
  - intros f s Hi HP. destruct (Hp f s Hi HP) as (Ha & P' & Hst & HP' & Hs).
    split; [done|]. exists P'. split_and!; [done..|]. by apply IH.
Qed.

(** A request, with what is known after it. *)
Lemma safe_request {A} (a : Act) (k : answer a → Prog A) P Q (P' : answer a → RepairState → Prop) :
  (∀ f s, Inv s → P s → allowed s (perform f a s).2 ∧ P' (perform f a s).1 (perform f a s).2) →
  (∀ x, stable (P' x)) →
  (∀ x, safe (k x) (P' x) Q) →
  safe (request a ≫= k) P Q.
Proof.
  intros Ha Hst Hk f s Hi HP. destruct (Ha f s Hi HP) as [Hal HP'].
  split; [done|]. exists (P' (perform f a s).1). split_and!; [apply Hst|done|apply Hk].
Qed.

Lemma safe_question {E A B} (into : E → AnyError) (p : Prog (result E A)) (k : A → Prog (result AnyError B)) P Q :
  safe p P (λ r s, match r with Ok a => ∃ P', P' s ∧ safe (k a) P' Q | Err e => Q (Err (into e)) s end) →
  safe (question into p k) P Q.
Proof.
  intros Hp. apply safe_bind. revert P Hp. induction p as [r|a k' IH]; cbn; intros P Hp.
  - intros s Hi HP. specialize (Hp s Hi HP). destruct r as [a|e]; [done|].
    exists (λ s, Q (Err (into e)) s). split; [done|]. by intros s'.
  - intros f s Hi HP. destruct (Hp f s Hi HP) as (Ha & P' & Hst & HP' & Hs).
    split; [done|]. exists P'. split_and!; [done..|]. by apply IH.
Qed.

Lemma safe_post {A} (p : Prog A) P (Q Q' : A → RepairState → Prop) :
  (∀ a s, Inv s → Q a s → Q' a s) → safe p P Q → safe p P Q'.
Proof.
  intros HQ. revert P. induction p as [a|a k IH]; cbn; intros P Hp.
  - intros s Hi HP. auto.
  - intros f s Hi HP. destruct (Hp f s Hi HP) as (Ha & P' & Hst & HP' & Hs).
    split; [done|]. exists P'. split_and!; [done..|]. by apply IH.
Qed.

(** ** Systems *)

Definition thread_safe {A} (s : RepairState) (p : Prog A) : Prop :=
  ∃ P, stable P ∧ P s ∧ safe p P (λ _ _, True).

Definition system_ok {A} (y : RepairState * list (Prog A)) : Prop :=
  Inv y.1 ∧ Forall (thread_safe y.1) y.2.

Lemma thread_safe_rely {A} s s' (p : Prog A) : Inv s → Rely s s' → thread_safe s p → thread_safe s' p.
Proof. intros Hi Hr (P & Hst & HP & Hs). exists P. split_and!; [done| |done]. by apply (Hst s). Qed.

(** A system of safe programs only takes steps the others may rely on. *)
Lemma system_step_ok {A} Client (y y' : RepairState * list (Prog A)) :
  (∀ s s', Inv s → Client s s' → allowed s s') →
  (∀ s i, Inv s → allowed s (late_effect i s)) →
  system_step Client y y' → system_ok y → allowed y.1 y'.1 ∧ system_ok y'.
Proof.
  intros Hc Hl Hstep [Hi Hps]. destruct Hstep as [s ps i a k f Hp|s ps i|s s' ps Hcl]; cbn in *.
  - destruct (Forall_lookup_1 _ _ _ _ Hps Hp) as (P & Hst & HP & Hs).
    destruct (Hs f s Hi HP) as ([Hr Hi'] & P' & Hst' & HP' & Hs'). split; [done|]. split; [done|].
    apply Forall_insert; [|by exists P'].
    eapply Forall_impl; [exact Hps|]. intros p Hq. by apply (thread_safe_rely s).
  - destruct (Hl s i Hi) as [Hr Hi']. split; [done|]. split; [done|].
    eapply Forall_impl; [exact Hps|]. intros p Hq. by apply (thread_safe_rely s).
  - destruct (Hc s s' Hi Hcl) as [Hr Hi']. split; [done|]. split; [done|].
    eapply Forall_impl; [exact Hps|]. intros p Hq. by apply (thread_safe_rely s).
Qed.

Lemma system_run_ok {A} Client (y y' : RepairState * list (Prog A)) :
  PreOrder Rely →
  (∀ s s', Inv s → Client s s' → allowed s s') →
  (∀ s i, Inv s → allowed s (late_effect i s)) →
  rtc (system_step Client) y y' → system_ok y → Rely y.1 y'.1 ∧ system_ok y'.
Proof.
  intros Hpo Hc Hl Hrun. induction Hrun as [y|y y1 y' Hstep _ IH]; intros Hok; [done|].
  destruct (system_step_ok _ _ _ Hc Hl Hstep Hok) as [[Hr _] Hok1].
  destruct (IH Hok1) as [Hr' Hok']. split; [|done]. by etransitivity.
Qed.

End Logic.

(** * Names *)

Section Names.
Context `{PkarrKeysLaws, ContentTools, PercentEncodingLaws, PgMatchLaws}.

Lemma percent_encoded : MISNAMED_ENCODE_SET PERCENT = true.
Proof. done. Qed.

Lemma utf8_percent_encode_inj set s t :
  set PERCENT = true → utf8_percent_encode set s = utf8_percent_encode set t → s = t.
Proof.
  intros Hp. unfold utf8_percent_encode. revert t.
  assert (∀ c d s t, ((c <? 128) && negb (set c)) = true → ((d <? 128) && negb (set d)) = false →
            [c] ++ s = percent_escape d ++ t → False) as Hne.
  { intros c d u v Hc _ E. destruct (escape_head d) as (x & y & Hd). rewrite Hd in E. injection E as -> _.
    by rewrite Hp, andb_false_r in Hc. }
  induction s as [|c s IH]; intros [|d t]; cbn; [done| | |].
  - destruct (escape_head d) as (x & y & Hd). rewrite Hd. by destruct (_ && _).
  - destruct (escape_head c) as (x & y & Hc). rewrite Hc. by destruct (_ && _).
  - destruct ((c <? 128) && _) eqn:Ec, ((d <? 128) && _) eqn:Ed; intros E.
    + injection E as -> E. by rewrite (IH t).
    + by destruct (Hne _ _ _ _ Ec Ed E).
    + by destruct (Hne _ _ _ _ Ed Ec (eq_sym E)).
    + apply escape_prefix_free in E as [-> E]. by rewrite (IH t).
Qed.

Lemma percent_encode_length set s : (length s ≤ length (utf8_percent_encode set s))%nat.
Proof.
  unfold utf8_percent_encode. induction s as [|c s IH]; cbn; [lia|].
  rewrite length_app. destruct (escape_head c) as (x & y & Hc). rewrite Hc.
  destruct (_ && _); cbn; lia.
Qed.

(** A name stays as it is exactly when none of its characters is escaped. *)
Lemma percent_encode_fixed set s :
  utf8_percent_encode set s = s ↔ forallb (λ c, (c <? 128) && negb (set c)) s = true.
Proof.
  induction s as [|c s IH]; [done|]. cbn. unfold utf8_percent_encode in *. cbn.
  destruct ((c <? 128) && negb (set c)); cbn.
  - rewrite <-IH. split; [by intros [= E]|by intros ->].
  - split; [|done]. intros E. apply (f_equal length) in E. rewrite length_app in E.
    destruct (escape_head c) as (x & y & Hc). rewrite Hc in E. cbn in E.
    pose proof (percent_encode_length set s) as Hl. unfold utf8_percent_encode in Hl. lia.
Qed.

Lemma misnamed_inj p q : misnamed_object_name p = misnamed_object_name q → ep_key p = ep_key q.
Proof. apply utf8_percent_encode_inj. done. Qed.

Lemma kept_spec c :
  ((c <? 128) && negb (MISNAMED_ENCODE_SET c)) =
  ((c =? 45) || ((65 <=? c) && (c <=? 90)) || ((97 <=? c) && (c <=? 122))
   || ((48 <=? c) && (c <=? 57)) || existsb (Z.eqb c) (lit "_.*!'()~/")).
Proof.
  unfold MISNAMED_ENCODE_SET, is_ascii_alphanumeric, contains_char, MISNAMED_KEPT, is_ascii_digit.
  remember (lit "-_.*!'()~/") as kept eqn:Ek. vm_compute in Ek. subst kept.
  remember (lit "_.*!'()~/") as kept eqn:Ek. vm_compute in Ek. subst kept. cbn [existsb]. lia.
Qed.

(** The pattern selects exactly the entries that were misnamed. *)
Lemma affected_iff_misnamed k p :
  regex_match AFFECTED_PATH_PATTERN (as_str p) = true ↔
  misnamed_object_name (EntryPath_new k p) ≠ ep_key (EntryPath_new k p).
Proof.
  rewrite affected_pattern_match. unfold misnamed_object_name. rewrite percent_encode_fixed.
  cbn [EntryPath_new ep_key]. rewrite forallb_app.
  assert (forallb (λ c, (c <? 128) && negb (MISNAMED_ENCODE_SET c)) (PublicKey_z32 k) = true) as ->.
  { apply forallb_forall. intros c Hc%list_elem_of_In%pkarr_ascii. rewrite kept_spec. lia. }
  cbn [andb]. induction (as_str p) as [|c s IH]; cbn [existsb forallb]; [done|].
  rewrite kept_spec. set (kept := _ || existsb (Z.eqb c) _). destruct kept; cbn [negb orb andb]; [apply IH|].
  by split.
Qed.

End Names.

(** * Content stays available *)

Section Content.
Context `{PkarrKeysLaws, ContentToolsLaws, PercentEncodingLaws, PgMatch, ComposeBucketLaws}.

Definition digest (content : list Z) : Hash := hasher_finalize (hasher_update content hasher_default).

(** The object holds the content of the entry. *)
Definition has_content (entry : EntryEntity) (o : StoredObject) : Prop :=
  Z.of_nat (length (so_content o)) = ee_content_length entry ∧ digest (so_content o) = ee_content_hash entry.

Definition held (entry : EntryEntity) (name : str) (b : Bucket) : Prop :=
  ∃ o, bucket_at name b = Some o ∧ has_content entry o.

(** Where the content of an entry can be. *)
Definition available (entry : EntryEntity) (b : Bucket) : Prop :=
  held entry (ep_key (ee_path entry)) b ∨ held entry (misnamed_object_name (ee_path entry)) b.

(** New versions get larger generations. *)
Definition grows (b b' : Bucket) : Prop :=
  bucket_latest b ≤ bucket_latest b' ∧
  ∀ n o, bucket_at n b' = Some o → bucket_at n b = Some o ∨ bucket_latest b < so_generation o.

#[export] Instance grows_preorder : PreOrder grows.
Proof.
  split; [split; [lia|by left]|]. intros a b c [Hl Hab] [Hl' Hbc]. split; [lia|].
  intros n o [Hb|Hb]%Hbc; [|right; lia]. destruct (Hab n o Hb); auto.
Qed.

(** The row of the entry. *)
Definition entry_row_kept (entry : EntryEntity) (tb : Tables) : Prop :=
  users_wf tb ∧ entries_wf tb ∧
  ∃ u row, user_row (ep_pubkey (ee_path entry)) tb = Some u ∧
    entry_at tb u (ep_path (ee_path entry)) row ∧ entry = entry_entity (ee_path entry) row.

(** Every row decodes, to an entity that names its user's key. *)
Lemma row_decodes tb row :
  users_wf tb → entries_wf tb → row ∈ entries tb →
  ∃ k u, let p := EntryPath_new k (mk_StoragePath (e_path row)) in
    decode_joined tb row = Ok (entry_entity p row) ∧ user_row k tb = Some u ∧
    e_user row = u_id u ∧ EntryPath_wf p.
Proof.
  intros Hu He Hrow. pose proof He as (_ & _ & Hwf). rewrite Forall_forall in Hwf.
  destruct (Hwf row Hrow) as (Huser & Hp & _).
  destruct (find_user_by_id tb _ Huser) as (i & u & Hf & Hin & Hid).
  pose proof Hu as (Hids & Hkeys & Hall). rewrite Forall_forall in Hall. destruct (Hall u Hin) as [[k Hk] _].
  assert (user_row k tb = Some u) as Hur.
  { destruct (user_row k tb) as [v|] eqn:Ev; [|by destruct (user_row_None k tb u Ev Hin)].
    apply user_row_Some in Ev as [Hv Hvk]. f_equal. apply (NoDup_map_inj u_public_key (users tb)); [done..|congruence]. }
  exists k, u. cbn zeta. split_and!; [|done|congruence|by split].
  unfold decode_joined. rewrite Hf. apply (EntryEntity_decodes _ tb); [done..|by split|done|by split_and!].
Qed.

Lemma listed_unique entry tb row other :
  EntryPath_wf (ee_path entry) → entry_row_kept entry tb → row ∈ entries tb → decode_joined tb row = Ok other →
  ep_key (ee_path other) = ep_key (ee_path entry) → other = entry.
Proof.
  intros [Hw Hp] (Hu & He & v & row0 & Hv & (Hin0 & Huser0 & Hpath0) & ->) Hin Hd Hk. cbn [ee_path entry_entity] in *.
  destruct (row_decodes tb row Hu He Hin) as (k & u & Hd' & Hur & Huser & [Hw' _]). rewrite Hd in Hd'.
  injection Hd' as ->. cbn [ee_path entry_entity] in *. rewrite Hp in Hk.
  apply EntryPath_key_inj in Hk as [-> Hsp]; [|done..]. rewrite Hv in Hur. injection Hur as ->.
  assert (row = row0) as ->.
  { destruct He as (_ & Hkeys & _). apply (NoDup_map_inj entry_key (entries tb)); [done..|].
    unfold entry_key. rewrite <-Hsp in Hpath0. cbn in Hpath0. congruence. }
  rewrite Hp at 2. by rewrite Hsp.
Qed.

Section Entry.
Variable entry : EntryEntity.
Abbreviation path := (ee_path entry).
Abbreviation key := (ep_key (ee_path entry)).
Abbreviation misnamed := (misnamed_object_name (ee_path entry)).
Hypothesis Hpath : EntryPath_wf (ee_path entry).

(** A request that was sent does no harm, whenever it is executed. *)
Definition harmless (b : Bucket) (a : Act) : Prop :=
  match a with
  | ACompose _ _ _ condition _ => condition = version_condition GenAbsent
  | ADelete name _ => name ≠ key ∧ (name = misnamed → held entry key b)
  | _ => True
  end.

Definition repair_inv (s : RepairState) : Prop :=
  entry_row_kept entry (tables (rs_world s)) ∧ Forall (harmless (rs_bucket s)) (rs_sent s).

(** What the others may rely on: the object at the path stays, and the content
    stays available. *)
Definition content_kept (b b' : Bucket) : Prop :=
  grows b b' ∧ (∀ o, bucket_at key b = Some o → bucket_at key b' = Some o) ∧
  (available entry b → available entry b').

Definition repair_rely (s s' : RepairState) : Prop := content_kept (rs_bucket s) (rs_bucket s').

#[export] Instance content_kept_preorder : PreOrder content_kept.
Proof.
  split; [intros b; split_and!; [reflexivity|done..]|]. intros a b c (?&?&?) (?&?&?).
  split_and!; [by transitivity b|auto..].
Qed.

Lemma content_kept_held b b' : content_kept b b' → held entry key b → held entry key b'.
Proof. intros (_ & Hk & _) (o & Ho & Hc). exists o. auto. Qed.

Lemma harmless_kept b b' a : content_kept b b' → harmless b a → harmless b' a.
Proof.
  intros Hk. destruct a; cbn; try done. intros [Hn Hm]. split; [done|]. intros E.
  by eapply content_kept_held, Hm.
Qed.

Lemma same_objects_kept b b' :
  (∀ n, bucket_at n b' = bucket_at n b) → bucket_latest b ≤ bucket_latest b' → content_kept b b'.
Proof.
  intros Ho Hl. split_and!.
  - split; [done|]. intros n o. rewrite Ho. by left.
  - intros o. by rewrite Ho.
  - unfold available, held. by rewrite !Ho.
Qed.

(** A copy to a name without an object. *)
Definition compose_absent (src v to : str) (ct : option str) (b : Bucket) : result OpendalError () * Bucket :=
  bucket_compose src v to (version_condition GenAbsent) ct b.

Lemma compose_absent_ok src v to ct b :
  (compose_absent src v to ct b).1 = Ok () →
  bucket_at to b = None ∧
  ∃ o g, bucket_at src b = Some o ∧ v = show_uint (so_generation o) ∧ bucket_latest b < g ∧
    bucket_at to (compose_absent src v to ct b).2 = Some (mk_StoredObject g (so_content o) ct).
Proof.
  intros (o & g & Hs & Hv & Hc & Hg & Ht)%compose_ok. split; [|by exists o, g].
  destruct (bucket_at to b) as [o'|] eqn:Eo; [|done]. exfalso. unfold bucket_generation in Hc. rewrite Eo in Hc.
  pose proof (bucket_generations _ _ _ Eo). apply (show_uint_inj 0) in Hc; lia.
Qed.

Lemma compose_kept src v to ct b : content_kept b (compose_absent src v to ct b).2.
Proof.
  pose proof (compose_latest src v to (version_condition GenAbsent) ct b : bucket_latest b ≤ bucket_latest (compose_absent src v to ct b).2) as Hl.
  destruct (compose_absent src v to ct b).1 as [[]|e] eqn:E.
  2: { apply same_objects_kept; [|done]. intros n. by eapply compose_refused. }
  destruct (compose_absent_ok src v to ct b E) as (Hto & o & g & Hs & _ & Hg & Ht).
  assert (∀ n, n ≠ to → bucket_at n (compose_absent src v to ct b).2 = bucket_at n b) as Hf by (intros; by apply compose_frame).
  assert (∀ n o, bucket_at n b = Some o → bucket_at n (compose_absent src v to ct b).2 = Some o) as Hkeep.
  { intros n o' Hn. rewrite Hf; [done|]. intros ->. congruence. }
  split_and!; [split; [done|]|apply Hkeep|].
  - intros n o' Hn. destruct (decide (n = to)) as [->|Hne]; [|rewrite Hf in Hn by done; by left].
    rewrite Ht in Hn. injection Hn as <-. right. cbn. lia.
  - intros [(o' & Ho & Hh)|(o' & Ho & Hh)]; [left|right]; exists o'; auto.
Qed.

Lemma delete_kept name cond b :
  name ≠ key → (name = misnamed → held entry key b) → content_kept b (bucket_delete name cond b).2.
Proof.
  intros Hnk Hm. pose proof (delete_latest name cond b) as Hl.
  destruct (bucket_delete name cond b).1 as [[]|e] eqn:E.
  2: { apply same_objects_kept; [|done]. intros n. by eapply delete_refused. }
  destruct (delete_executed name cond b E) as [_ Hd].
  assert (∀ n, n ≠ name → bucket_at n (bucket_delete name cond b).2 = bucket_at n b) as Hf by (intros; by apply delete_frame).
  split_and!; [split; [done|]|intros o; by rewrite Hf|].
  - intros n o' Hn. destruct (decide (n = name)) as [->|Hne]; [congruence|]. rewrite Hf in Hn by done. by left.
  - intros [(o' & Ho & Hh)|(o' & Ho & Hh)].
    + left. exists o'. by rewrite Hf.
    + destruct (decide (misnamed = name)) as [<-|Hne]; [|right; exists o'; by rewrite Hf].
      left. destruct (Hm eq_refl) as (o2 & Ho2 & Hh2). exists o2. by rewrite Hf.
Qed.

Lemma harmless_effect b a : harmless b a → content_kept b (bucket_effect a b).2.
Proof.
  destruct a as [| |src v to cond ct|name cond| | | |]; cbn [harmless bucket_effect snd]; try (intros; reflexivity).
  - intros ->. apply compose_kept.
  - intros [Hnk Hm]. by apply delete_kept.
Qed.

(** ** Requests *)

Abbreviation safely := (safe repair_inv repair_rely).
Abbreviation stably := (stable repair_inv repair_rely).
Abbreviation permitted := (allowed repair_inv repair_rely).

Lemma permitted_same s w m :
  entry_row_kept entry (tables w) → repair_inv s →
  permitted s (mk_RepairState (rs_bucket s) w m (rs_sent s)).
Proof. intros Hr [_ Hs]. split; [|done]. unfold repair_rely. cbn. reflexivity. Qed.

Lemma permitted_refl s : repair_inv s → permitted s s.
Proof. intros Hi. split; [unfold repair_rely; reflexivity|done]. Qed.

Lemma permitted_send f a s : repair_inv s → harmless (rs_bucket s) a → permitted s (send_act f a s).2.
Proof.
  intros [Hr Hs] Ha. pose proof (harmless_effect _ _ Ha) as Hk. unfold send_act.
  destruct (bucket_effect a (rs_bucket s)) as [r b]. cbn in Hk.
  assert (∀ b', content_kept (rs_bucket s) b' →
            permitted s (mk_RepairState b' (rs_world s) (rs_migrations s) (rs_sent s ++ [a]))) as Hp.
  { intros b' Hb. split; [done|]. split; [done|]. cbn. apply Forall_app. split.
    - eapply Forall_impl; [exact Hs|]. intros a' Ha'. by eapply harmless_kept.
    - apply Forall_singleton. by eapply harmless_kept. }
  destruct f as [?|[]|? ?]; apply Hp; (done || reflexivity).
Qed.

Lemma permitted_late s i : repair_inv s → permitted s (late_effect i s).
Proof.
  intros [Hr Hs]. unfold late_effect. destruct (rs_sent s !! i) as [a|] eqn:E; [|by apply permitted_refl].
  pose proof (harmless_effect _ _ (Forall_lookup_1 _ _ _ _ Hs E)) as Hk.
  split; [done|]. split; [done|]. cbn. eapply Forall_impl; [exact Hs|]. intros a' Ha'. by eapply harmless_kept.
Qed.

Lemma permitted_world {A} (f : Z → Tables → result SqlError A) s :
  repair_inv s → permitted s (on_world (select f) s).2.
Proof.
  intros Hi. unfold on_world. destruct (select f (rs_world s)) as [r w] eqn:E.
  apply select_inv in E as [Hw _]. apply permitted_same; [|done].
  destruct Hi as [Hr _]. destruct Hw as (Ht & _). by rewrite Ht.
Qed.
(** ** Knowledge *)

Lemma stable_pure (φ : Prop) : stably (λ _, φ).
Proof. by intros s s'. Qed.

Lemma stable_and P R : stably P → stably R → stably (λ s, P s ∧ R s).
Proof. intros HP HR s s' Hi Hr [? ?]. split; [by apply (HP s)|by apply (HR s)]. Qed.

Lemma stable_impl (φ : Prop) R : stably R → stably (λ s, φ → R s).
Proof. intros HR s s' Hi Hr Hs Hφ. apply (HR s); auto. Qed.

(** The object at the path. *)
Lemma stable_at_key (Φ : StoredObject → Prop) :
  stably (λ s, ∃ o, bucket_at key (rs_bucket s) = Some o ∧ Φ o).
Proof. intros s s' _ (_ & Hk & _) (o & Ho & HΦ). exists o. auto. Qed.

Lemma stable_held : stably (λ s, held entry key (rs_bucket s)).
Proof. apply stable_at_key. Qed.

(** A version that was seen, with what is known of it should it still be there. *)
Definition seen (name : str) (g : Z) (Φ : StoredObject → Prop) (s : RepairState) : Prop :=
  0 ≤ g ≤ bucket_latest (rs_bucket s) ∧
  ∀ o, bucket_at name (rs_bucket s) = Some o → so_generation o = g → Φ o.

Lemma stable_seen name g Φ : stably (seen name g Φ).
Proof.
  intros s s' _ ((Hl & Hg) & _) [Hs HΦ]. split; [lia|]. intros o Ho Hgo.
  destruct (Hg _ _ Ho) as [Ho'|Hlt]; [auto|lia].
Qed.

(** ** Reading *)

Lemma cut_concat cuts c : concat (cut cuts c) = c.
Proof.
  revert c. induction cuts as [|n cuts IH]; intros c; cbn; [apply app_nil_r|].
  by rewrite IH, take_drop.
Qed.

Lemma hash_stream_chunks h chunks rest :
  hash_stream h (map Ok chunks ++ rest) = hash_stream (hasher_update (concat chunks) h) rest.
Proof.
  revert h. induction chunks as [|c chunks IH]; intros h; cbn; [by rewrite hasher_nil|].
  by rewrite IH, hasher_app.
Qed.

Lemma hash_served cuts c : hash_stream hasher_default (map Ok (cut cuts c)) = Ok (digest c).
Proof. rewrite <-(app_nil_r (map Ok _)), hash_stream_chunks, cut_concat. done. Qed.

Lemma read_hash f o h :
  match read_object f o with Ok stream => hash_stream hasher_default stream | Err e => Err (AnyOpendal e) end = Ok h →
  ∃ ob, o = Some ob ∧ h = digest (so_content ob).
Proof.
  destruct f as [cuts|e|cuts n], o as [ob|]; cbn [read_object]; try done.
  - rewrite hash_served. intros [= <-]. eauto.
  - by rewrite hash_stream_chunks.
Qed.

(** A positive comparison was made with the object there at the time. *)
Lemma safe_holds_content name len other P R :
  stably P → stably R →
  (∀ s o, repair_inv s → P s → bucket_at name (rs_bucket s) = Some o → len = ee_content_length other →
     digest (so_content o) = ee_content_hash other → R s) →
  safely (holds_content name len other) P (λ r s, P s ∧ (r = Ok true → R s)).
Proof.
  intros HP HR HRs. unfold holds_content. destruct (Z.eqb_spec len (ee_content_length other)) as [Hlen|]; [|by intros s].
  intros f s Hi HPs. split; [by apply permitted_refl|]. cbn [perform snd fst].
  exists (λ s', P s' ∧ (∀ h, match read_object f (bucket_at name (rs_bucket s)) with
                         | Ok stream => hash_stream hasher_default stream | Err e => Err (AnyOpendal e) end = Ok h →
                       h = ee_content_hash other → R s')).
  split_and!.
  - apply stable_and; [done|]. intros s1 s2 Hi1 Hr HR1 h Hh He. apply (HR s1); eauto.
  - done.
  - intros h Hh He. apply read_hash in Hh as (o & Ho & ->). by eapply HRs.
  - destruct (read_object _ _) as [stream|e]; cbn; [|by intros s1 _ [? _]].
    destruct (hash_stream _ stream) as [h|e]; cbn; [|by intros s1 _ [? _]].
    intros s1 _ [HP1 HR1]. split; [done|]. intros [= Hh%bool_decide_eq_true]. eauto.
Qed.

Lemma parse_key : EntryPath_from_str key = Ok path.
Proof. destruct Hpath as [Hw Hp]. rewrite Hp at 1. rewrite EntryPath_parse_key by done. by rewrite <-Hp. Qed.

(** The entry's own object is recognised. *)
Lemma safe_is_object name P :
  stably P → safely (is_object_of_an_entry name) P (λ r s, P s ∧ (r = Ok false → name ≠ key)).
Proof.
  intros HP. unfold is_object_of_an_entry. destruct (EntryPath_from_str name) as [q|] eqn:Eq.
  2: { intros s Hi HPs. split; [done|]. intros _ ->. by rewrite parse_key in Eq. }
  intros f s Hi HPs. cbn [perform].
  assert (permitted s (on_world (EntryRepository_get_by_path q) s).2) as Hpm by by apply permitted_world.
  split; [done|].
  exists (λ s', P s' ∧ ((on_world (EntryRepository_get_by_path q) s).1 = Err RowNotFound → name ≠ key)).
  split_and!; [by apply stable_and; [|apply stable_pure]|by apply (HP s); [|apply Hpm|]| |].
  - intros Hr ->. rewrite parse_key in Eq. injection Eq as <-.
    destruct Hi as [(Hu & He & u & row & Hur & Hrow & _) _]. unfold on_world in Hr.
    destruct (EntryRepository_get_by_path _ (rs_world s)) as [r w'] eqn:Eg. cbn in Hr. subst r.
    apply get_by_path_inv in Eg as [_ [?|Hx]]; [done| |done..].
    rewrite Hur in Hx. destruct Hx as [(? & _ & ?)|[_ Hx]]; [done|]. by apply (Hx row).
  - cbn. intros s1 _ [? Hn]. split; [done|]. destruct (on_world _ s).1 as [x|[]]; try done. intros _. exact (Hn eq_refl).
Qed.

(** ** The repair of one entry *)

Section Other.
(** The entry under repair: when it has the path of [entry], it is [entry]. *)
Variable other : EntryEntity.
Hypothesis Hother : ep_key (ee_path other) = key → other = entry.

Abbreviation other_key := (ep_key (ee_path other)).
Abbreviation other_misnamed := (misnamed_object_name (ee_path other)).

Lemma safe_find P :
  stably P →
  safely (find_misnamed_copy other) P (λ r s, P s ∧
    ∀ m, r = Ok (Found m) → mo_name m = other_misnamed ∧ seen (mo_name m) (mo_generation m) (has_content other) s).
Proof.
  intros HP. unfold find_misnamed_copy. set (name := other_misnamed).
  eapply safe_request with (P' := λ m s, P s ∧ match m with
    | Ok md => ∃ g, md_version md = Some (show_uint g) ∧ 0 ≤ g ≤ U64_MAX ∧
                seen name g (λ o, Z.of_nat (length (so_content o)) = md_content_length md) s
    | Err _ => True end).
  - intros f s Hi HPs. cbn [perform fst snd]. split; [by apply permitted_refl|]. split; [done|].
    destruct (bucket_at name (rs_bucket s)) as [o|] eqn:Eo; [|by destruct f].
    pose proof (bucket_generations _ _ _ Eo). pose proof (bucket_generation_u64 _ _ _ Eo).
    destruct f as [?|?|? ?]; try done; exists (so_generation o); (split_and!; [done|lia..|]);
      (split; [cbn; lia|]); intros o' Ho' _; by simplify_eq.
  - intros [md|e]; (apply stable_and; [done|]); [|apply stable_pure].
    intros s s' Hi Hr (g & Hv & Hg & Hs). exists g. split_and!; [done|lia..|]. by eapply stable_seen.
  - intros [md|e].
    2: { intros s _ [HPs _]. split; [done|]. intros m. by destruct (decide _). }
    apply safe_pre. intros s0 _ (HPs & g & Hv & Hg & Hseen).
    exists (λ s, P s ∧ seen name g (λ o, Z.of_nat (length (so_content o)) = md_content_length md) s). split; [done|].
    apply safe_bind.
    eapply safe_post; [|apply safe_holds_content with (R := seen name g (has_content other))].
    + intros [[]|e] s Hi [[HP1 Hs1] Hs2]; cbn beta iota.
      * exists (λ s, P s ∧ seen name g (has_content other) s). split; [auto|]. rewrite Hv. cbn [mbind option_bind].
        rewrite parse_uint_show by done. intros s1 _ [? ?]. split; [done|]. by intros m [= <-].
      * exists P. split; [done|]. apply safe_question. eapply safe_post; [|by apply safe_is_object].
        intros [b|e] s1 _ [HPs1 _]; [|by split]. exists P. split; [done|]. intros s2 _ HPs2. split; [done|]. by destruct b.
      * exists P. split; [done|]. intros s1 _ HPs1. split; [done|]. intros m. by destruct (is_not_found e).
    + apply stable_and; [done|apply stable_seen].
    + apply stable_seen.
    + intros s o Hi [_ [Hl Hs]] Ho Hlen Hd. split; [done|]. intros o' Ho' Hg'.
      rewrite Ho in Ho'. injection Ho' as <-. split; [|done]. by rewrite (Hs o Ho Hg').
Qed.

Lemma safe_delete m P Q :
  stably P →
  (∀ s, P s → harmless (rs_bucket s) (ADelete (mo_name m) (version_condition (GenKnown (mo_generation m))))) →
  (∀ r s, P s → Q r s) →
  safely (delete_unless_replaced m) P Q.
Proof.
  intros HP Hh HQ. unfold delete_unless_replaced.
  eapply safe_request with (P' := λ _, P); [|done|].
  - intros f s Hi HPs. pose proof (permitted_send f _ s Hi (Hh s HPs)) as Hp. split; [done|].
    eapply HP; [done|apply Hp|done].
  - intros [u|e]; [intros s _ HPs; by apply HQ|]. destruct (decide _); [|intros s _ HPs; by apply HQ].
    apply safe_bind. eapply safe_request with (P' := λ _, P); [|done|].
    + intros f s Hi HPs. split; [by apply permitted_refl|done].
    + intros x s Hi HPs. exists P. split; [done|]. intros s1 _ HP1. by apply HQ.
Qed.

(** A misnamed object is deleted once its name was found to be no entry's path,
    and the content was seen in place. *)
Lemma safe_delete_checked {B} m P (k : () → Prog (result AnyError B)) :
  stably P → mo_name m = other_misnamed → (∀ s, P s → other_key = key → held entry key (rs_bucket s)) →
  (∀ u, safely (k u) P (λ _ _, True)) → mo_name m ≠ key →
  safely (question AnyOpendal (delete_unless_replaced m) k) P (λ _ _, True).
Proof.
  intros HP Hname Hheld Hk Hne. apply safe_question. apply safe_delete; [done| |].
  - intros s HPs. split; [done|]. intros E. rewrite Hname in E. apply misnamed_inj in E. auto.
  - intros [u|e] s HPs; [|done]. exists P. auto.
Qed.

Lemma safe_remove_leftover md P :
  stably P →
  (∀ s, P s → other_key = key → ∃ o, bucket_at key (rs_bucket s) = Some o ∧ Z.of_nat (length (so_content o)) = md_content_length md) →
  safely (remove_leftover other md) P (λ _ _, True).
Proof.
  intros HP Hmd. unfold remove_leftover. apply safe_question.
  eapply safe_post; [|by apply safe_find]. intros [copy|e] s _ [HPs Hf]; [|done].
  exists P. split; [done|]. destruct copy as [m| | |]; try done.
  destruct (Hf m eq_refl) as [Hname _]. apply safe_question.
  eapply safe_post; [|apply safe_holds_content with (R := λ s, other_key = key → held entry key (rs_bucket s))].
  - intros [[]|e] s1 _ [HP1 HR]; try done; [|exists P; by split].
    pose (K := λ s, P s ∧ (other_key = key → held entry key (rs_bucket s))).
    assert (stably K) as Hst by (apply stable_and, stable_impl, stable_held; done).
    exists K. split; [by split; [|apply HR]|].
    unfold delete_leftover. apply safe_question. eapply safe_post; [|by apply safe_is_object].
    intros [[]|e] s2 _ [HP2 Hn]; try done; exists K; (split; [done|]); [done|].
    apply safe_delete_checked; try done; [by intros s3 [_ ?]|by apply Hn].
  - done.
  - apply stable_impl, stable_held.
  - intros s1 o Hi HP1 Ho Hlen Hd Hk. destruct (Hmd s1 HP1 Hk) as (o' & Ho' & Hl').
    rewrite Hk in Ho. simplify_eq. exists o. split; [done|]. rewrite <-(Hother Hk). split; congruence.
Qed.

(** The copy puts checked content at the path. *)
Lemma perform_copy m f s :
  repair_inv s → mo_name m = other_misnamed → seen (mo_name m) (mo_generation m) (has_content other) s →
  let a := ACompose (mo_name m) (show_uint (mo_generation m)) other_key (version_condition GenAbsent) (mo_content_type m) in
  permitted s (perform f a s).2 ∧
  (∀ u, (perform f a s).1 = Ok u → other_key = key → held entry key (rs_bucket (perform f a s).2)).
Proof.
  intros Hi Hname [Hg Hseen] a. split; [exact (permitted_send f a s Hi eq_refl)|].
  unfold a. cbn [perform]. unfold send_act. cbn [bucket_effect].
  pose proof (compose_absent_ok (mo_name m) (show_uint (mo_generation m)) other_key (mo_content_type m) (rs_bucket s)) as Hok.
  unfold compose_absent in Hok. destruct (bucket_compose _ _ _ _ _ _) as [r b]. cbn in Hok.
  assert (∀ u, r = Ok u → other_key = key → held entry key b) as Hr.
  { intros [] -> Hk. destruct (Hok eq_refl) as (_ & o & g & Ho & Hv & _ & Ht). rewrite Hk in Ht.
    eexists. split; [exact Ht|]. pose proof (bucket_generations _ _ _ Ho). apply show_uint_inj in Hv; [|lia..].
    rewrite <-(Hother Hk). exact (Hseen o Ho (eq_sym Hv)). }
  destruct f as [?|[]|? ?]; cbn; intros u; (done || apply Hr).
Qed.

Lemma safe_move_misnamed P : stably P → safely (move_misnamed other) P (λ _ _, True).
Proof.
  intros HP. unfold move_misnamed. apply safe_question.
  eapply safe_post; [|by apply safe_find]. intros [copy|e] s _ [HPs Hf]; [|done].
  destruct copy as [m| | |]; try (by exists P; split).
  destruct (Hf m eq_refl) as [Hname Hseen].
  exists (λ s, P s ∧ seen (mo_name m) (mo_generation m) (has_content other) s). split; [done|].
  pose (K := λ (r : result OpendalError ()) s, P s ∧ (∀ u, r = Ok u → other_key = key → held entry key (rs_bucket s))).
  assert (∀ r, stably (K r)) as Hst.
  { intros r. apply stable_and; [done|]. intros s1 s2 Hi Hr Hh u Hu Hk. apply (stable_held s1); eauto. }
  unfold copy_as_checked. apply safe_request with (P' := K); [|done|].
  - intros f s1 Hi [HP1 Hs1]. destruct (perform_copy m f s1 Hi Hname Hs1) as [Hp Hh].
    split; [done|]. split; [|done]. by apply (HP s1); [|apply Hp|].
  - intros [u|e]; [|done]. apply safe_question. eapply safe_post; [|by apply safe_is_object].
    intros [[]|e] s2 _ [HP2 Hn]; try done; exists (K (Ok u)); (split; [done|]); [done|].
    apply safe_delete_checked; try done; [by intros s3 [_ Hh]; apply (Hh u)|by apply Hn].
Qed.

Lemma safe_attempt P : stably P → safely (attempt_repair other) P (λ _ _, True).
Proof.
  intros HP. unfold attempt_repair.
  apply safe_request with (P' := λ (m : answer (AStat other_key)) s, P s ∧ (∀ md, m = Ok md → other_key = key →
    ∃ o, bucket_at key (rs_bucket s) = Some o ∧ Z.of_nat (length (so_content o)) = md_content_length md)).
  - intros f s Hi HPs. split; [by apply permitted_refl|]. split; [done|]. intros md Hmd Hk. rewrite <-Hk.
    cbn [perform fst snd] in Hmd |- *. destruct (bucket_at other_key (rs_bucket s)) as [o|]; [|by destruct f].
    exists o. split; [done|]. destruct f as [?|?|? ?]; by simplify_eq.
  - intros m. apply stable_and; [done|]. intros s s' Hi Hr Hs md Hmd Hk. apply (stable_at_key _ s); auto.
  - intros [md|e].
    + apply safe_question. eapply safe_post; [|eapply safe_remove_leftover].
      * intros [o|e] s _ _; [|done]. exists (λ _, True). by split.
      * apply stable_and; [done|]. intros s s' Hi Hr Hs md' Hmd Hk. apply (stable_at_key _ s); auto.
      * intros s [_ Hs]. by apply Hs.
    + destruct (decide _); [|done]. apply safe_mono with P; [by intros s [? _]|]. by apply safe_move_misnamed.
Qed.

Lemma safe_repair P : stably P → safely (repair other) P (λ _ _, True).
Proof.
  intros HP. unfold repair. generalize ATTEMPTS_PER_ENTRY as n. intros n.
  apply safe_mono with (λ _, True); [done|]. clear P HP. induction n as [|n IH]; [by intros s|].
  apply safe_question. eapply safe_post; [|apply safe_attempt, stable_pure].
  intros [[o|]|e] s _ _; try done; exists (λ _, True); by split.
Qed.
End Other.

(** ** All entries *)

Lemma safe_batch batch summary :
  (∀ other, other ∈ batch → ep_key (ee_path other) = key → other = entry) →
  safely (repair_batch batch summary) (λ _, True) (λ _ _, True).
Proof.
  revert summary. induction batch as [|other batch IH]; intros summary Hall; [by intros s|].
  cbn [repair_batch]. apply safe_bind. eapply safe_post; [|apply safe_repair; [apply Hall; by left|apply stable_pure]].
  intros r s _ _. exists (λ _, True). split; [done|]. apply IH. intros o Ho. apply Hall. by right.
Qed.

Lemma safe_loop fuel after_id summary :
  safely (repair_loop fuel after_id summary) (λ _, True) (λ _ _, True).
Proof.
  revert after_id summary. induction fuel as [|fuel IH]; intros after_id summary; [by intros s|].
  apply safe_request with (P' := λ (b : result SqlError (list EntryEntity)) _, ∀ batch, b = Ok batch →
    ∀ other, other ∈ batch → ep_key (ee_path other) = key → other = entry).
  - intros f s Hi _. split; [by apply permitted_world|]. cbn. intros batch Hb other Hin.
    unfold on_world in Hb. destruct (EntryRepository_list_by_path_pattern _ _ _ _) as [r w] eqn:E.
    cbn in Hb. subst r. apply select_inv in E as [_ [?|E]]; [done|].
    symmetry in E. unfold fetch_all in E. apply (collect_results_elem _ _ other) in E; [|done].
    apply list_elem_of_fmap in E as (row & Hd & Hrow).
    apply elem_of_take in Hrow as (? & Hrow%list_elem_of_lookup_2 & _).
    apply elem_of_order_by, list_elem_of_filter in Hrow as [_ Hrow]. by apply (listed_unique entry (tables (rs_world s)) row); [|apply Hi| | ].
  - intros b. apply stable_pure.
  - intros [batch|e]; [|by intros s]. destruct (last batch) as [l|]; [|by intros s].
    apply safe_pre. intros s _ Hall. exists (λ _, True). split; [done|].
    apply safe_bind. eapply safe_post; [|apply safe_batch; by apply Hall].
    intros r s' _ _. exists (λ _, True). split; [done|]. apply IH.
Qed.

Lemma safe_run_once fuel : safely (run_once fuel) (λ _, True) (λ _ _, True).
Proof.
  unfold run_once. apply safe_question. unfold Migrator_is_applied. apply safe_question.
  intros f s Hi _. split; [by apply permitted_refl|]. exists (λ _, True). split_and!; [apply stable_pure|done|].
  intros s1 _ _. destruct (perform f AAppliedMigrations s).1 as [l|e]; [|done].
  exists (λ _, True). split; [done|]. intros s2 _ _. destruct (existsb _ l); exists (λ _, True); (split; [done|]); [done|].
  apply safe_question. eapply safe_post; [|apply safe_loop].
  intros [summary|e] s3 _ _; [|done]. exists (λ _, True). split; [done|].
  destruct (Summary_is_complete summary); [|done]. apply safe_question. unfold mark_finished.
  apply safe_request with (P' := λ _ _, True); [|intros; apply stable_pure|].
  - intros f' s4 Hi4 _. split; [|done]. cbn [perform]. unfold mark_done.
    destruct f' as [?|e|? ?]; [destruct (existsb _ _)|destruct (e && _)|destruct (existsb _ _)]; cbn [snd];
      first [by apply permitted_refl | apply permitted_same; [apply Hi4|done]].
  - intros x s4 _ _. destruct x as [|[]]; try done; exists (λ _, True); by split.
Qed.

(** ** Systems *)

(** What everything but the repairs does: any write anywhere but at the two
    names of the entry, and any change of the database that keeps its row. *)
Definition clients_spare (s s' : RepairState) : Prop :=
  grows (rs_bucket s) (rs_bucket s') ∧
  (∀ n, n = key ∨ n = misnamed → bucket_at n (rs_bucket s') = bucket_at n (rs_bucket s)) ∧
  entry_row_kept entry (tables (rs_world s')) ∧ rs_sent s' = rs_sent s.

Lemma clients_permitted s s' : repair_inv s → clients_spare s s' → permitted s s'.
Proof.
  intros [_ Hs] (Hg & Ho & Hr & Hsent).
  assert (content_kept (rs_bucket s) (rs_bucket s')) as Hk.
  { split_and!; [done| |]; [intros o; by rewrite Ho by auto|]. unfold available, held. by rewrite !Ho by auto. }
  split; [done|]. split; [done|]. rewrite Hsent. eapply Forall_impl; [exact Hs|]. intros a. by apply harmless_kept.
Qed.

End Entry.
(** (C8) The repair never loses content.  Any number of homeservers run the
    repair at the same time, on the same bucket and database, beside clients
    that write anything anywhere but at the two names of the entry; requests
    fail, lose their answers, and are executed again later.  Whatever the
    interleaving, content of the entry that is somewhere stays somewhere, and
    an object at the entry's own path stays as it is. *)
Theorem repair_keeps_content entry fuels s s' ps' :
  EntryPath_wf (ee_path entry) → entry_row_kept entry (tables (rs_world s)) → rs_sent s = [] →
  rtc (system_step (clients_spare entry)) (s, map run_once fuels) (s', ps') →
  (available entry (rs_bucket s) → available entry (rs_bucket s')) ∧
  (∀ o, bucket_at (ep_key (ee_path entry)) (rs_bucket s) = Some o →
        bucket_at (ep_key (ee_path entry)) (rs_bucket s') = Some o).
Proof.
  intros Hp Hr Hs Hrun.
  eapply (system_run_ok (repair_inv entry) (repair_rely entry)) in Hrun as [(_ & Hk & Ha) _]; [done|..].
  - split; [intros x; unfold repair_rely; reflexivity|]. intros x y z ? ?. unfold repair_rely in *. by etransitivity.
  - apply clients_permitted.
  - intros x i. by apply permitted_late.
  - split; [split; [done|cbn; by rewrite Hs]|]. apply Forall_fmap, Forall_true. intros fuel.
    exists (λ _, True). split_and!; [apply stable_pure|done|by apply safe_run_once].
Qed.

End Content.
