(* ===== verification/GcsRepairRuns.v ===== *)
(** Runs of the repair of misnamed objects: what it does with each entry when
    nothing else happens, that it goes over every affected entry whatever
    happens to its requests, a bucket that behaves, and a race with a client. *)

From stdpp Require Import relations.
From S2P Require Import Prelude StoragePath HttpError Keys Quota Database Users Entries EntryLocks Events Finalization.
From S2P Require Import Accounting AppState LockRoutes Uploads StagedPublish GcsRepair GcsRepairProofs.

(** * Runs of a program alone *)

Section Runs.
Context `{PkarrKeysLaws, ContentToolsLaws, PercentEncodingLaws, PgMatch, ComposeBucketLaws}.

(** However the requests go within [ok], the program ends with [Φ]. *)
Fixpoint wp {A} (ok : Service → Prop) (p : Prog A) (s : RepairState) (Φ : A → RepairState → Prop) : Prop :=
  match p with
  | Ret a => Φ a s
  | Perform a k => ∀ f, ok f → wp ok (k (perform f a s).1) (perform f a s).2 Φ
  end.

Lemma wp_mono {A} ok (p : Prog A) s (Φ Ψ : A → RepairState → Prop) :
  (∀ a s', Φ a s' → Ψ a s') → wp ok p s Φ → wp ok p s Ψ.
Proof. intros HΦ. revert s. induction p as [a|a k IH]; cbn; intros s; auto. Qed.

Lemma wp_bind {A B} ok (p : Prog A) (k : A → Prog B) s Φ :
  wp ok p s (λ a s', wp ok (k a) s' Φ) → wp ok (p ≫= k) s Φ.
Proof. revert s. induction p as [a|a k' IH]; cbn; intros s Hp; [done|]. intros f Hf. apply IH, Hp, Hf. Qed.

Lemma wp_question {E A B} ok (into : E → AnyError) (p : Prog (result E A)) (k : A → Prog (result AnyError B)) s Φ :
  wp ok p s (λ r s', match r with Ok a => wp ok (k a) s' Φ | Err e => Φ (Err (into e)) s' end) →
  wp ok (question into p k) s Φ.
Proof. intros Hp. apply wp_bind. eapply wp_mono; [|exact Hp]. by intros [a|e] s'. Qed.

Lemma wp_run {A} ok (p : Prog A) s Φ services :
  ok (Served []) → Forall ok services → wp ok p s Φ →
  Φ (run_prog services p s).1 (run_prog services p s).2.
Proof.
  intros Hnil. revert s services. induction p as [a|a k IH]; cbn; intros s services Hs Hp; [done|].
  assert (ok (default (Served []) (head services))) as Hf by (destruct services; [done|by inversion Hs]).
  specialize (Hp _ Hf). destruct (perform _ a s) as [r s1]. cbn in Hp.
  apply IH; [|done]. destruct Hs; [constructor|done].
Qed.

(** Requests that are answered, reads in any pieces. *)
Definition is_served (f : Service) : Prop := match f with Served _ => True | _ => False end.
Definition any_service (f : Service) : Prop := True.

(** No fault is scheduled for the database, and its tables are in order. *)
Definition quiet (s : RepairState) : Prop :=
  ticks (rs_world s) = [] ∧ users_wf (tables (rs_world s)) ∧ entries_wf (tables (rs_world s)).

Lemma select_unticked {A} (f : Z → Tables → result SqlError A) w :
  ticks w = [] → select f w = (f (clock w) (tables w), w).
Proof.
  intros Hw. unfold select, exec, next_tick. rewrite Hw. cbn. rewrite Z.add_0_r. by destruct w; cbn in *; subst.
Qed.

Lemma on_world_quiet {A} (f : Z → Tables → result SqlError A) s :
  quiet s → on_world (select f) s = (f (clock (rs_world s)) (tables (rs_world s)), s).
Proof. intros (Ht & _). unfold on_world. rewrite select_unticked by done. by destruct s. Qed.

Lemma perform_world f a s : quiet s → rs_world (perform f a s).2 = rs_world s.
Proof.
  intros Hq. destruct a; cbn [perform snd]; try done.
  - unfold send_act. destruct (bucket_effect _ _). by destruct f as [?|[]|? ?].
  - unfold send_act. destruct (bucket_effect _ _). by destruct f as [?|[]|? ?].
  - unfold EntryRepository_get_by_path. by rewrite on_world_quiet.
  - unfold EntryRepository_list_by_path_pattern. by rewrite on_world_quiet.
  - unfold mark_done. destruct f as [?|e|? ?]; [destruct (existsb _ _)|destruct (e && _)|destruct (existsb _ _)]; done.
Qed.

Lemma wp_world {A} (p : Prog A) s : quiet s → wp any_service p s (λ _ s', rs_world s' = rs_world s).
Proof.
  assert (∀ s', quiet s' → wp any_service p s' (λ _ s'', rs_world s'' = rs_world s')) as Hp; [|by apply Hp].
  induction p as [a|a k IH]; intros s' Hq; cbn; [done|]. intros f _.
  pose proof (perform_world f a s' Hq) as Hw. eapply wp_mono; [|apply IH].
  - intros x s'' E. by rewrite E.
  - unfold quiet. by rewrite Hw.
Qed.

(** * Every affected entry *)

Definition affected (after_id : Z) (tb : Tables) : list EntryRow :=
  filter (λ e, regex_match AFFECTED_PATH_PATTERN (e_path e) = true ∧ after_id < e_id e) (entries tb).

Definition affected_page (after_id : Z) (tb : Tables) : list EntryRow :=
  take (Z.to_nat REPAIR_BATCH_SIZE) (order_by (λ a b, e_id a <=? e_id b) (affected after_id tb)).

Definition Summary_total (s : Summary) : Z :=
  in_place s + moved s + copied s + leftover_removed s + missing s + mismatch s + conflict s + failed s.

Lemma Summary_total_count o s : Summary_total (Summary_count o s) = Summary_total s + 1.
Proof. unfold Summary_total. destruct s, o; cbn; lia. Qed.

Lemma Summary_total_fail s : Summary_total (Summary_fail s) = Summary_total s + 1.
Proof. unfold Summary_total. destruct s; cbn; lia. Qed.

Lemma affected_ids after_id tb : entries_wf tb → NoDup (map e_id (affected after_id tb)).
Proof.
  intros (Hids & _). unfold affected. induction (entries tb) as [|e l IH]; [constructor|].
  cbn [map] in Hids. apply NoDup_cons in Hids as [Hn Hids]. rewrite filter_cons. destruct (decide _); [|auto].
  cbn [map]. apply NoDup_cons. split; [|auto]. intros (x & Hx & [_ Hin]%list_elem_of_filter)%list_elem_of_fmap.
  apply Hn. rewrite Hx. by apply list_elem_of_fmap_2.
Qed.

Lemma sorted_lt_NoDup (K : list Z) : StronglySorted Z.lt K → NoDup K.
Proof.
  induction 1 as [|x K HK IH Hx]; constructor; [|done]. rewrite Forall_forall in Hx.
  intros Hin. specialize (Hx x Hin). lia.
Qed.

(** The next page starts where this one ends. *)
Lemma affected_after_page after_id tb l :
  entries_wf tb → last (map e_id (affected_page after_id tb)) = Some l →
  affected after_id tb ≡ₚ affected_page after_id tb ++ affected l tb.
Proof.
  intros Hwf Hl. pose proof (affected_ids after_id tb Hwf) as HN.
  destruct (page_spec e_id (affected after_id tb) (Z.to_nat REPAIR_BATCH_SIZE) HN) as (Hsort & Hsub & Hgap & _).
  fold (affected_page after_id tb) in Hsort, Hsub, Hgap.
  assert (∀ x, x ∈ affected_page after_id tb → e_id x ≤ l) as Hmax.
  { intros x Hx. apply (sorted_last_max _ l _ Hsort Hl). by apply list_elem_of_fmap_2. }
  assert (after_id < l) as Hal.
  { apply last_Some in Hl as [pre Hl]. assert (l ∈ map e_id (affected_page after_id tb)) as (x & -> & Hx)%list_elem_of_fmap
      by (rewrite Hl; set_solver). apply Hsub, list_elem_of_filter in Hx. tauto. }
  apply NoDup_Permutation.
  - by eapply NoDup_fmap_1.
  - apply NoDup_app. split_and!.
    + apply (NoDup_fmap_1 e_id). by apply sorted_lt_NoDup.
    + intros x Hx [[_ ?] _]%list_elem_of_filter. specialize (Hmax x Hx). lia.
    + eapply (NoDup_fmap_1 e_id). by apply affected_ids.
  - intros x. rewrite elem_of_app. split.
    + intros Hx. destruct (Z.le_gt_cases (e_id x) l) as [Hle|Hgt].
      * left. assert (e_id x ∈ map e_id (affected_page after_id tb)) as (y & Hy & Hin)%list_elem_of_fmap
          by (by apply (Hgap l); [| apply list_elem_of_fmap_2|]).
        by rewrite (NoDup_map_inj e_id _ x y HN) by auto.
      * right. apply list_elem_of_filter in Hx as [[? ?] ?]. apply list_elem_of_filter. split_and!; [done|lia|done].
    + intros [Hx|[[? ?] ?]%list_elem_of_filter]; [auto|]. apply list_elem_of_filter. split_and!; [done|lia|done].
Qed.

Lemma wp_batch batch summary s :
  quiet s →
  wp any_service (repair_batch batch summary) s (λ r s', rs_world s' = rs_world s ∧
    Summary_total r = Summary_total summary + Z.of_nat (length batch)).
Proof.
  revert summary s. induction batch as [|e batch IH]; intros summary s Hq; cbn [repair_batch]; [cbn; split; [done|lia]|].
  apply wp_bind. eapply wp_mono; [|by apply wp_world]. intros r s1 Hw1. cbn beta.
  eapply wp_mono; [|apply IH; unfold quiet; by rewrite Hw1]. cbn beta. intros r' s2 [Hw2 Ht]. split; [congruence|].
  rewrite Ht. cbn [length]. destruct r as [o|x]; rewrite ?Summary_total_count, ?Summary_total_fail; lia.
Qed.

Lemma list_affected after_id s f :
  quiet s →
  ∃ batch, perform f (AListByPattern AFFECTED_PATH_PATTERN after_id REPAIR_BATCH_SIZE) s = (Ok batch, s) ∧
    map ee_id batch = map e_id (affected_page after_id (tables (rs_world s))).
Proof.
  intros Hq. cbn [perform]. unfold EntryRepository_list_by_path_pattern. rewrite on_world_quiet by done.
  fold (affected after_id (tables (rs_world s))) (affected_page after_id (tables (rs_world s))).
  destruct (fetch_all_ok (decode_joined (tables (rs_world s))) (λ row e, ee_id e = e_id row)
              (affected_page after_id (tables (rs_world s)))) as (batch & -> & HF).
  - intros row Hrow. apply elem_of_take in Hrow as (i & Hrow%list_elem_of_lookup_2 & _).
    apply elem_of_order_by, list_elem_of_filter in Hrow as [_ Hrow]. destruct Hq as (_ & Hu & He).
    destruct (row_decodes _ row Hu He Hrow) as (k & u & Hd & _). eauto.
  - exists batch. split; [done|]. clear -HF. induction HF; cbn; congruence.
Qed.

Lemma wp_loop fuel after_id summary s :
  quiet s → (length (affected after_id (tables (rs_world s))) < fuel)%nat →
  wp any_service (repair_loop fuel after_id summary) s (λ r s', ∃ t, r = Ok t ∧ rs_world s' = rs_world s ∧
    Summary_total t = Summary_total summary + Z.of_nat (length (affected after_id (tables (rs_world s))))).
Proof.
  revert after_id summary s. induction fuel as [|fuel IH]; intros after_id summary s Hq Hf; [lia|].
  intros f _. destruct (list_affected after_id s f Hq) as (batch & Hb & Hids).
  cbn [repair_loop request mbind prog_mbind prog_bind]. rewrite Hb. cbn [fst snd].
  pose proof Hq as (_ & _ & Hwf). destruct (last batch) as [l|] eqn:El.
  - assert (last (map e_id (affected_page after_id (tables (rs_world s)))) = Some (ee_id l)) as Hl
      by (by rewrite <-Hids, fmap_last, El).
    pose proof (affected_after_page _ _ _ Hwf Hl) as Hp%Permutation_length. rewrite length_app in Hp.
    apply (f_equal length) in Hids as Hlen. rewrite !length_map in Hlen.
    assert (0 < length batch)%nat by (destruct batch; [done|cbn; lia]).
    apply wp_bind. eapply wp_mono; [|by apply wp_batch]. cbn beta. intros t s1 [Hw Ht].
    eapply wp_mono; [|apply IH; [unfold quiet; by rewrite Hw|rewrite Hw; lia]]. cbn beta.
    intros r s2 (t' & -> & Hw' & Ht'). exists t'. rewrite Hw in *. split_and!; [done..|]. lia.
  - cbn. exists summary. split_and!; [done..|]. apply last_None in El as ->. cbn in Hids.
    symmetry in Hids. apply fmap_nil_inv in Hids. unfold affected_page in Hids.
    destruct (affected after_id (tables (rs_world s))) as [|x l] eqn:Ea; [cbn; lia|]. exfalso.
    pose proof (order_by_perm (λ a b, e_id a <=? e_id b) (x :: l)) as Hp%Permutation_length.
    apply (f_equal length) in Hids. rewrite length_take, Hp in Hids. cbn in Hids. unfold REPAIR_BATCH_SIZE in Hids. lia.
Qed.

(** The repair goes over every affected entry: with one unit of fuel per
    affected entry and one more, its loop ends, whatever happens to its
    requests to the bucket, and the summary counts each affected entry once, in
    its outcome or as failed. *)
Theorem repair_covers_all fuel services s :
  quiet s → (length (affected 0 (tables (rs_world s))) < fuel)%nat →
  ∃ summary s', run_prog services (repair_all_affected_entries fuel) s = (Ok summary, s') ∧
    Summary_total summary = Z.of_nat (length (affected 0 (tables (rs_world s)))).
Proof.
  intros Hq Hf. pose proof (wp_loop fuel 0 Summary_default s Hq Hf) as Hwp.
  apply (wp_run any_service _ _ _ services) in Hwp; [|done|by apply Forall_true].
  destruct Hwp as (t & Ht & _ & Hsum). exists t, (run_prog services (repair_all_affected_entries fuel) s).2.
  split; [|done]. rewrite <-Ht. by destruct (run_prog _ _ _).
Qed.

(** * One entry, undisturbed *)

#[export] Instance has_content_dec entry o : Decision (has_content entry o).
Proof. unfold has_content. apply _. Defined.

(** The name is the path of an entry. *)
Definition names_entry (name : str) (w : World) : bool :=
  match EntryPath_from_str name with
  | Ok path => match (EntryRepository_get_by_path path w).1 with Ok _ => true | Err _ => false end
  | Err _ => false
  end.

(** What the documentation of [Outcome] says, from the two objects of the entry
    and whether the misnamed name is another entry's path. *)
Definition expected_outcome (entry : EntryEntity) (s : RepairState) : Outcome :=
  let misnamed := misnamed_object_name (ee_path entry) in
  let other := names_entry misnamed (rs_world s) in
  match bucket_at (ep_key (ee_path entry)) (rs_bucket s), bucket_at misnamed (rs_bucket s) with
  | None, None => Missing
  | Some _, None => InPlace
  | None, Some m =>
      if decide (has_content entry m) then if other then Copied else Moved
      else if other then Missing else Mismatch
  | Some o, Some m =>
      if decide (has_content entry m) then
        if decide (has_content entry o) then if other then InPlace else LeftoverRemoved else Conflict
      else if other then InPlace else Mismatch
  end.

(** The objects after the repair: only the two names of the entry change, as
    the outcome says; a copy keeps the content and its type. *)
Definition repaired (entry : EntryEntity) (outcome : Outcome) (b b' : Bucket) : Prop :=
  let key := ep_key (ee_path entry) in
  let misnamed := misnamed_object_name (ee_path entry) in
  (∀ n, n ≠ key → n ≠ misnamed → bucket_at n b' = bucket_at n b) ∧
  match outcome with
  | Moved | Copied =>
      (∃ g m, bucket_at misnamed b = Some m ∧
        bucket_at key b' = Some (mk_StoredObject g (so_content m) (so_content_type m))) ∧
      bucket_at misnamed b' = match outcome with Moved => None | _ => bucket_at misnamed b end
  | LeftoverRemoved => bucket_at key b' = bucket_at key b ∧ bucket_at misnamed b' = None
  | InPlace | Missing | Mismatch | Conflict => ∀ n, bucket_at n b' = bucket_at n b
  end.

Abbreviation wps := (wp is_served).

Lemma wp_served {A} a (k : answer a → Prog A) s Φ x s1 :
  (∀ cuts, perform (Served cuts) a s = (x, s1)) → wps (k x) s1 Φ → wps (request a ≫= k) s Φ.
Proof. intros Hp Hk [cuts|?|? ?] Hf; try done. rewrite Hp. done. Qed.

Lemma wp_stat {B} name (k : result OpendalError Metadata → Prog B) s Φ :
  wps (k (match bucket_at name (rs_bucket s) with
          | Some o => Ok (stat_object o) | None => Err (mk_OpendalError KNotFound None) end)) s Φ →
  wps (request (AStat name) ≫= k) s Φ.
Proof. apply wp_served. intros cuts. cbn. by destruct (bucket_at _ _). Qed.

Lemma wp_holds_content name o entry s Φ :
  bucket_at name (rs_bucket s) = Some o → Φ (Ok (bool_decide (has_content entry o))) s →
  wps (holds_content name (md_content_length (stat_object o)) entry) s Φ.
Proof.
  intros Ho HΦ. unfold holds_content. cbn [stat_object md_content_length].
  destruct (Z.eqb_spec (Z.of_nat (length (so_content o))) (ee_content_length entry)) as [Hl|Hl].
  - intros [cuts|?|? ?] Hf; try done. cbn -[hash_stream cut]. rewrite Ho. cbn -[hash_stream cut]. rewrite hash_served. cbn. erewrite bool_decide_ext; [exact HΦ|]. unfold has_content. tauto.
  - cbn. rewrite bool_decide_false in HΦ; [done|]. by intros [? _].
Qed.

Lemma EntryPath_from_str_wf name q : EntryPath_from_str name = Ok q → EntryPath_wf q.
Proof.
  unfold EntryPath_from_str. destruct (split_once SLASH name) as [[a b]|]; cbn [ok_or mbind result_bind]; [|done].
  destruct (PublicKey_is_pubky_prefixed a); [done|]. destruct (PublicKey_try_from_z32 a) as [k|]; [|done].
  cbn [map_err mbind result_bind]. unfold StoragePath_new.
  destruct (validate_canonical (SLASH :: b)) as [[]|] eqn:Ev; [|done]. cbn. intros [= <-]. by split.
Qed.

Lemma from_row_error row e : EntryEntity_from_row row = Err e → e = Decode.
Proof.
  destruct row as [er u]. unfold EntryEntity_from_row. destruct (PublicKey_from_str _); cbn; [|congruence].
  destruct (StoragePath_new _); cbn; [|congruence]. destruct (_ =? 32)%nat; cbn; congruence.
Qed.

Lemma wp_is_object name s Φ :
  quiet s → Φ (Ok (names_entry name (rs_world s))) s → wps (is_object_of_an_entry name) s Φ.
Proof.
  intros Hq HΦ. unfold is_object_of_an_entry, names_entry in *.
  destruct (EntryPath_from_str name) as [q|e] eqn:Eq; [|done].
  destruct Hq as (Ht & Hu & He).
  assert (EntryPath_wf q) as Hw by by eapply EntryPath_from_str_wf.
  destruct (EntryRepository_get_by_path q (rs_world s)) as [r w'] eqn:Eg. cbn in HΦ.
  pose proof Eg as Eg'. unfold EntryRepository_get_by_path in Eg. rewrite select_unticked in Eg by done. injection Eg as Hr <-.
  intros f _. cbn [perform]. unfold on_world. rewrite Eg'. cbn [fst snd]. replace (mk_RepairState _ _ _ _) with s by by destruct s.
  apply get_by_path_inv in Eg' as [_ Hcase]; [|done..]. cbn.
  destruct r as [x|e]; [done|]. assert (e = RowNotFound) as ->; [|done].
  destruct Hcase as [[= ->]|Hcase].
  - unfold fetch_one in Hr. destruct (filter _ _) as [|row rows]; [by injection Hr|]. by apply from_row_error in Hr.
  - destruct (user_row _ _); [destruct Hcase as [(? & _ & ?)|[? _]]|]; congruence.
Qed.

(** What the look at the misnamed name finds. *)
Definition misnamed_copy (entry : EntryEntity) (s : RepairState) : MisnamedCopy :=
  let name := misnamed_object_name (ee_path entry) in
  match bucket_at name (rs_bucket s) with
  | None => Absent
  | Some m =>
      if decide (has_content entry m) then Found (mk_MisnamedObject name (so_generation m) (so_content_type m))
      else if names_entry name (rs_world s) then Absent else OtherContent
  end.

Lemma wp_find entry s Φ :
  quiet s → Φ (Ok (misnamed_copy entry s)) s → wps (find_misnamed_copy entry) s Φ.
Proof.
  intros Hq HΦ. unfold find_misnamed_copy, misnamed_copy in *. apply wp_stat.
  destruct (bucket_at _ _) as [m|] eqn:Em; [|done]. apply wp_bind. apply wp_holds_content; [done|].
  case_bool_decide as Hc; rewrite ?decide_True, ?decide_False in HΦ by done.
  - cbn [md_version stat_object mbind option_bind md_content_type].
    pose proof (bucket_generations _ _ _ Em). pose proof (bucket_generation_u64 _ _ _ Em).
    by rewrite parse_uint_show by lia.
  - apply wp_question. apply wp_is_object; [done|]. by destruct (names_entry _ _).
Qed.

Lemma wp_delete {B} m o s (k : () → Prog (result AnyError B)) Φ :
  bucket_at (mo_name m) (rs_bucket s) = Some o → so_generation o = mo_generation m →
  (∀ s', rs_world s' = rs_world s → bucket_at (mo_name m) (rs_bucket s') = None →
     (∀ n, n ≠ mo_name m → bucket_at n (rs_bucket s') = bucket_at n (rs_bucket s)) → wps (k ()) s' Φ) →
  wps (question AnyOpendal (delete_unless_replaced m) k) s Φ.
Proof.
  intros Ho Hg Hk. apply wp_question. unfold delete_unless_replaced.
  intros [cuts|?|? ?] Hf; try done. cbn [perform]. unfold send_act. cbn [bucket_effect version_condition].
  rewrite <-Hg. pose proof (delete_accepts _ _ _ Ho) as Hok. pose proof (delete_executed _ _ _ Hok) as [_ Hd].
  pose proof (λ n Hn, delete_frame (mo_name m) (show_uint (so_generation o)) (rs_bucket s) n Hn) as Hfr.
  destruct (bucket_delete _ _ _) as [r b]. cbn in Hok, Hd, Hfr. subst r. cbn. by apply Hk.
Qed.

(** Copies and deletes of an undisturbed repair. *)
Lemma wp_remove_leftover entry o s :
  quiet s → misnamed_object_name (ee_path entry) ≠ ep_key (ee_path entry) →
  bucket_at (ep_key (ee_path entry)) (rs_bucket s) = Some o →
  wps (remove_leftover entry (stat_object o)) s (λ r s',
    r = Ok (expected_outcome entry s) ∧ repaired entry (expected_outcome entry s) (rs_bucket s) (rs_bucket s')).
Proof.
  intros Hq Hne Ho. unfold remove_leftover. apply wp_question, wp_find; [done|].
  unfold misnamed_copy, expected_outcome. cbn zeta. rewrite Ho.
  destruct (bucket_at (misnamed_object_name _) _) as [m|] eqn:Em; [|done].
  destruct (decide (has_content entry m)) as [Hm|Hm]; [|by destruct (names_entry _ _)].
  apply wp_question, wp_holds_content; [done|]. case_bool_decide as Hc;
    [rewrite decide_True by done|by rewrite decide_False].
  unfold delete_leftover. apply wp_question, wp_is_object; [done|]. cbn [mo_name].
  destruct (names_entry _ _) eqn:En; [done|]. eapply wp_delete; [exact Em|done|]. cbn [mo_name].
  intros s' _ Hn Hf. split; [done|]. split; [intros n _ ?; by apply Hf|]. split; [|done]. by apply Hf.
Qed.

Lemma wp_copy {B} m o to s (k : result OpendalError () → Prog B) Φ :
  bucket_at (mo_name m) (rs_bucket s) = Some o → so_generation o = mo_generation m →
  bucket_at to (rs_bucket s) = None → bucket_latest (rs_bucket s) < U64_MAX →
  (∀ s' g, rs_world s' = rs_world s →
     bucket_at to (rs_bucket s') = Some (mk_StoredObject g (so_content o) (mo_content_type m)) →
     (∀ n, n ≠ to → bucket_at n (rs_bucket s') = bucket_at n (rs_bucket s)) → wps (k (Ok ())) s' Φ) →
  wps (copy_as_checked m to ≫= k) s Φ.
Proof.
  intros Ho Hg Hto Hl Hk. unfold copy_as_checked. intros [cuts|?|? ?] Hf; try done.
  cbn [perform]. unfold send_act. cbn [bucket_effect]. rewrite <-Hg.
  pose proof (compose_accepts (mo_name m) to (version_condition GenAbsent) (mo_content_type m) (rs_bucket s) o Ho Hto eq_refl Hl) as Hok.
  destruct (compose_ok _ _ _ _ _ _ Hok) as (o' & g & Ho' & _ & _ & _ & Ht).
  pose proof (λ n Hn, compose_frame (mo_name m) (show_uint (so_generation o)) to (version_condition GenAbsent)
    (mo_content_type m) (rs_bucket s) n Hn) as Hfr.
  destruct (bucket_compose _ _ _ _ _ _) as [r b]. cbn in Hok, Ht, Hfr. subst r. cbn.
  rewrite Ho in Ho'. injection Ho' as <-. by eapply Hk.
Qed.

Lemma wp_move_misnamed entry s :
  quiet s → misnamed_object_name (ee_path entry) ≠ ep_key (ee_path entry) →
  bucket_at (ep_key (ee_path entry)) (rs_bucket s) = None → bucket_latest (rs_bucket s) < U64_MAX →
  wps (move_misnamed entry) s (λ r s',
    r = Ok (Finished (expected_outcome entry s)) ∧
    repaired entry (expected_outcome entry s) (rs_bucket s) (rs_bucket s')).
Proof.
  intros Hq Hne Ho Hl. unfold move_misnamed. apply wp_question, wp_find; [done|].
  unfold misnamed_copy, expected_outcome. cbn zeta. rewrite Ho.
  destruct (bucket_at (misnamed_object_name _) _) as [m|] eqn:Em; [|done].
  destruct (decide (has_content entry m)) as [Hm|Hm]; [|by destruct (names_entry _ _)].
  eapply wp_copy; [exact Em|done..|]. cbn [mo_name mo_content_type]. intros s1 g Hw Hk Hf.
  apply wp_question, wp_is_object; [unfold quiet; by rewrite Hw|]. rewrite Hw.
  destruct (names_entry _ _).
  - split; [done|]. split; [intros n ? _; by apply Hf|]. split; [by exists g, m|]. by rewrite Hf.
  - eapply wp_delete; cbn [mo_name mo_generation]; [by rewrite Hf|done|]. intros s2 _ Hn Hf2. split; [done|].
    split; [intros n ? ?; rewrite Hf2, Hf by done; done|]. split; [|done]. exists g, m. split; [done|].
    by rewrite Hf2 by done.
Qed.

(** What the repair does with an entry when nothing disturbs it: it ends
    with the outcome its documentation gives for the two objects of the entry,
    on the first attempt.  A misnamed object that holds the content is copied to
    the path with its content and its content type; it is removed only when the
    path holds the content and the name is not another entry's; nothing else in
    the bucket changes. *)
Theorem repair_outcome entry services s :
  quiet s → misnamed_object_name (ee_path entry) ≠ ep_key (ee_path entry) →
  bucket_latest (rs_bucket s) < U64_MAX → Forall is_served services →
  let '(r, s') := run_prog services (repair entry) s in
  r = Ok (expected_outcome entry s) ∧
  repaired entry (expected_outcome entry s) (rs_bucket s) (rs_bucket s').
Proof.
  intros Hq Hne Hl Hs.
  assert (wps (repair entry) s (λ r s', r = Ok (expected_outcome entry s) ∧
            repaired entry (expected_outcome entry s) (rs_bucket s) (rs_bucket s'))) as Hwp.
  { apply wp_question. unfold attempt_repair. apply wp_stat.
    destruct (bucket_at (ep_key (ee_path entry)) (rs_bucket s)) as [o|] eqn:Ho.
    - apply wp_question. eapply wp_mono; [|by apply wp_remove_leftover]. by intros r s' [-> ?].
    - rewrite decide_True by done. eapply wp_mono; [|by apply wp_move_misnamed]. by intros r s' [-> ?]. }
  apply (wp_run is_served _ _ _ services) in Hwp; [|done..]. by destruct (run_prog _ _ _).
Qed.

End Runs.

(** * A bucket that behaves *)

(** Uploads and deletes, newest first: the generation of an object is the number
    of uploads up to its own. *)
Definition UploadLog : Type := list (str * option (list Z * option str)).

Fixpoint uploads (log : UploadLog) : Z :=
  match log with
  | [] => 0
  | (_, Some _) :: log => uploads log + 1
  | (_, None) :: log => uploads log
  end.

Fixpoint uploaded_at (name : str) (log : UploadLog) : option StoredObject :=
  match log with
  | [] => None
  | (n, x) :: log' =>
      if bool_decide (n = name) && (uploads log' <? U64_MAX)
      then (λ c, mk_StoredObject (uploads log' + 1) c.1 c.2) <$> x
      else if bool_decide (n = name ∧ x = None) then None
      else uploaded_at name log'
  end.

Definition condition_failed : OpendalError := mk_OpendalError KConditionNotMatch None.

Definition log_generation (name : str) (log : UploadLog) : Z :=
  match uploaded_at name log with Some o => so_generation o | None => 0 end.

Definition log_compose (src v to cond : str) (ct : option str) (log : UploadLog) : result OpendalError () * UploadLog :=
  match uploaded_at src log with
  | Some o =>
      if negb (bool_decide (v = show_uint (so_generation o))) then (Err (mk_OpendalError KNotFound None), log)
      else if negb (bool_decide (cond = show_uint (log_generation to log))) then (Err condition_failed, log)
      else if uploads log <? U64_MAX then (Ok (), (to, Some (so_content o, ct)) :: log) else (Err unexpected, log)
  | None => (Err (mk_OpendalError KNotFound None), log)
  end.

Definition log_delete (name cond : str) (log : UploadLog) : result OpendalError () * UploadLog :=
  if bool_decide (cond = show_uint (log_generation name log)) then (Ok (), (name, None) :: log)
  else (Err condition_failed, log).

#[export] Instance log_bucket : ComposeBucket := {|
  Bucket := UploadLog;
  bucket_at := uploaded_at;
  bucket_latest := uploads;
  bucket_compose := log_compose;
  bucket_delete := log_delete;
|}.

Lemma uploads_nonneg log : 0 ≤ uploads log.
Proof. induction log as [|[n [x|]] log IH]; cbn; lia. Qed.

Lemma uploaded_bounds n log o : uploaded_at n log = Some o → 0 < so_generation o ≤ uploads log ∧ so_generation o ≤ U64_MAX.
Proof.
  induction log as [|[m x] log IH]; cbn; [done|]. pose proof (uploads_nonneg log).
  destruct (bool_decide (m = n) && _) eqn:E.
  - destruct x as [c|]; cbn; [|done]. intros [= <-]. cbn. apply andb_true_iff in E as [_ E%Z.ltb_lt]. lia.
  - clear E. case_bool_decide; [done|]. intros Ho. specialize (IH Ho). destruct x; lia.
Qed.

Lemma log_compose_inv src v to cond ct log :
  (∃ e, log_compose src v to cond ct log = (Err e, log)) ∨
  ∃ o, log_compose src v to cond ct log = (Ok (), (to, Some (so_content o, ct)) :: log) ∧
    uploaded_at src log = Some o ∧ v = show_uint (so_generation o) ∧
    cond = show_uint (log_generation to log) ∧ uploads log < U64_MAX.
Proof.
  unfold log_compose. destruct (uploaded_at src log) as [o|]; [|left; by eexists].
  case_bool_decide; [|left; by eexists]. case_bool_decide; [|left; by eexists]. cbn.
  destruct (Z.ltb_spec (uploads log) U64_MAX); [|left; by eexists]. right. by exists o.
Qed.

Lemma log_delete_inv name cond log :
  log_delete name cond log = (Err condition_failed, log) ∨
  log_delete name cond log = (Ok (), (name, None) :: log) ∧ cond = show_uint (log_generation name log).
Proof. unfold log_delete. case_bool_decide; auto. Qed.

Lemma uploaded_other n m x log : n ≠ m → uploaded_at n ((m, x) :: log) = uploaded_at n log.
Proof. intros Hne. cbn. rewrite (bool_decide_false (m = n)) by done. cbn. by rewrite bool_decide_false by (by intros [-> _]). Qed.

Lemma deleted_at n log : uploaded_at n ((n, None) :: log) = None.
Proof. cbn. destruct (_ && _); [done|]. by rewrite bool_decide_true. Qed.

#[export] Instance log_bucket_laws : ComposeBucketLaws.
Proof.
  split; cbn [Bucket bucket_at bucket_latest bucket_compose bucket_delete log_bucket].
  - intros src v to cond ct log n Hn. destruct (log_compose_inv src v to cond ct log) as [[e ->]|(o & -> & _)]; [done|].
    by apply uploaded_other.
  - intros src v to cond ct log n e. by destruct (log_compose_inv src v to cond ct log) as [[e' ->]|(o & -> & _)].
  - intros src v to cond ct log.
    destruct (log_compose_inv src v to cond ct log) as [[e ->]|(o & -> & Ho & Hv & Hc & Hl)]; [done|]. intros _.
    exists o, (uploads log + 1). split_and!; [done..|lia|]. cbn.
    rewrite bool_decide_true by done. cbn. by rewrite (proj2 (Z.ltb_lt _ _)).
  - intros name cond log n Hn. destruct (log_delete_inv name cond log) as [->|[-> _]]; [done|]. by apply uploaded_other.
  - intros name cond log n e. by destruct (log_delete_inv name cond log) as [->|[-> _]].
  - intros name cond log. destruct (log_delete_inv name cond log) as [->|[-> Hc]]; [done|]. intros _.
    split; [done|apply deleted_at].
  - intros src to cond ct log o Ho Hto -> Hl. unfold log_compose, log_generation. rewrite Ho, Hto.
    rewrite !bool_decide_true by done. cbn. by rewrite (proj2 (Z.ltb_lt _ _)).
  - intros name log o Ho. unfold log_delete, log_generation. rewrite Ho. by rewrite bool_decide_true.
  - intros name cond log Hne. destruct (log_delete_inv name cond log) as [->|[_ Hc]]; [by eexists|].
    by destruct Hne.
  - intros n log o Ho. by apply uploaded_bounds in Ho as [? _].
  - intros n log o Ho. by apply uploaded_bounds in Ho as [_ ?].
  - intros src v to cond ct log. destruct (log_compose_inv src v to cond ct log) as [[e ->]|(o & -> & _)]; cbn; lia.
  - intros name cond log. destruct (log_delete_inv name cond log) as [->|[-> _]]; cbn; lia.
Qed.

(** One byte as two hexadecimal digits. *)
Definition hex_digit (n : Z) : Z := if n <? 10 then 48 + n else 55 + n.

#[export] Instance hex_escapes : PercentEncoding := {|
  percent_escape c := [PERCENT; hex_digit (c / 16); hex_digit (c mod 16)]
|}.

#[export] Instance hex_escapes_laws : PercentEncodingLaws.
Proof.
  assert (∀ a b, hex_digit a = hex_digit b → a = b) as Hd.
  { intros a b. unfold hex_digit. destruct (Z.ltb_spec a 10), (Z.ltb_spec b 10); lia. }
  split; cbn; [by eauto|]. intros c d s t [= Hq%Hd Hr%Hd ->]. split; [|done].
  rewrite (Z.div_mod c 16), (Z.div_mod d 16) by lia. congruence.
Qed.

#[export] Instance bracket_match : PgMatch := {|
  regex_match _ s :=
    existsb (λ c, negb ((c =? 45) || ((65 <=? c) && (c <=? 90)) || ((97 <=? c) && (c <=? 122))
                        || ((48 <=? c) && (c <=? 57)) || existsb (Z.eqb c) (lit "_.*!'()~/"))) s
|}.

#[export] Instance bracket_match_laws : PgMatchLaws.
Proof. by split. Qed.

(** * Concrete runs *)

Section Events.
Context `{PkarrKeys, ContentTools, PercentEncoding, PgMatch, ComposeBucket}.

(** A schedule of a system: the next request of a repair, a request executed
    again, or a step of the clients. *)
Inductive SystemEvent :=
| EvRepair (i : nat) (f : Service)
| EvLate (i : nat)
| EvClient (step : RepairState → RepairState).

Fixpoint run_events {A} (evs : list SystemEvent) (y : RepairState * list (Prog A)) : RepairState * list (Prog A) :=
  match evs with
  | [] => y
  | EvRepair i f :: evs =>
      run_events evs
        match y.2 !! i with
        | Some (Perform a k) => let '(r, s) := perform f a y.1 in (s, <[i := k r]> y.2)
        | _ => y
        end
  | EvLate i :: evs => run_events evs (late_effect i y.1, y.2)
  | EvClient step :: evs => run_events evs (step y.1, y.2)
  end.

Lemma run_events_steps {A} Client evs (y : RepairState * list (Prog A)) :
  Forall (λ ev, match ev with EvClient step => ∀ s, Client s (step s) | _ => True end) evs →
  rtc (system_step Client) y (run_events evs y).
Proof.
  revert y. induction evs as [|ev evs IH]; intros [s ps] Hev; [done|]. inversion Hev as [|? ? Hc Hevs]; subst.
  destruct ev as [i f|i|step]; cbn [run_events fst snd].
  - destruct (ps !! i) as [[a|a k]|] eqn:Ep; [by apply IH| |by apply IH].
    destruct (perform f a s) as [r s1] eqn:Ef. eapply rtc_l; [|by apply IH].
    pose proof (step_repair Client s ps i a k f Ep) as Hs. by rewrite Ef in Hs.
  - eapply rtc_l; [apply step_late|by apply IH].
  - eapply rtc_l; [by apply step_client|by apply IH].
Qed.
End Events.

(** A user's [/pub/c d], three bytes, stored under the wrong name. *)
Definition repair_content : list Z := [1; 2; 3].
Definition repair_hash : Hash := take 32 (repair_content ++ repeat 0 32).
Definition repair_row (id : Z) (path : str) : EntryRow :=
  mk_EntryRow id path 1 repair_hash 3 (lit "text/plain") 1500 1500.
Definition repair_path : EntryPath := EntryPath_new (H := demo_keys) true (mk_StoragePath (lit "/pub/c d")).
Definition other_path : EntryPath := EntryPath_new (H := demo_keys) true (mk_StoragePath (lit "/pub/c%20d")).
Definition repair_entry : EntryEntity := entry_entity (H := demo_keys) repair_path (repair_row 1 (lit "/pub/c d")).
Definition repair_world : World :=
  mk_World (mk_Tables demo_users [repair_row 1 (lit "/pub/c d")] [] [] no_auth) (mk_Seqs 3 2 1 1 1) 2000 None [].

Definition misnamed_state : RepairState :=
  mk_RepairState [(ep_key other_path, Some (repair_content, Some (lit "text/plain")))] repair_world [] [].

Lemma repair_row_kept : entry_row_kept (H := demo_keys) repair_entry (tables repair_world).
Proof.
  split_and!; [by apply demo_users_wf|..].
  - split_and!; [repeat constructor; set_solver..|]. apply Forall_singleton.
    split_and!; [by left|by vm_compute|done|by vm_compute..].
  - exists demo_user_row, (repair_row 1 (lit "/pub/c d")).
    split_and!; [vm_compute; reflexivity| |done..]. split_and!; [by left|done..].
Qed.

(** Two homeservers repair the entry at the same time; both look, one copies and
    removes the misnamed object without hearing of it, the copy is executed
    again, and the other looks a second time. *)
Definition two_repairs : RepairState * list (Prog (H := demo_keys) (result AnyError RepairRun)) :=
  run_events
    ([EvRepair 0 (Served []); EvRepair 1 (Served []); EvRepair 0 (Served []); EvRepair 1 (Served [])] ++
     repeat (EvRepair 0 (Served [1%nat])) 3 ++ repeat (EvRepair 1 (Served [])) 3 ++
     [EvRepair 0 (Served []); EvRepair 1 (Served []); EvRepair 0 (Served []); EvRepair 0 (Lost true); EvLate 0] ++
     repeat (EvRepair 1 (Served [])) 12)
    (misnamed_state, map (run_once (H0 := demo_tools)) [3%nat; 3%nat]).

Lemma repair_keeps_content_witness :
  available (H1 := demo_tools) repair_entry (rs_bucket misnamed_state) ∧
  available (H1 := demo_tools) repair_entry (rs_bucket two_repairs.1).
Proof.
  assert (available (H1 := demo_tools) repair_entry (rs_bucket misnamed_state)) as Ha.
  { right. eexists. split; [vm_compute; reflexivity|]. split; vm_compute; reflexivity. }
  split; [done|].
  refine (proj1 (repair_keeps_content (H := demo_keys) (H1 := demo_tools) (H2 := demo_tools_laws) repair_entry
    [3%nat; 3%nat] misnamed_state two_repairs.1 two_repairs.2 _ _ _ _) Ha).
  - split; vm_compute; reflexivity.
  - apply repair_row_kept.
  - reflexivity.
  - rewrite <-surjective_pairing. apply run_events_steps. apply Forall_forall. intros [] Hev; [done..|].
    cbn in Hev. repeat (apply elem_of_cons in Hev as [?|Hev]; [done|]). by apply elem_of_nil in Hev.
Defined.

Lemma misnamed_quiet : quiet (H := demo_keys) misnamed_state.
Proof. split_and!; [done|apply repair_row_kept..]. Qed.

Lemma repair_outcome_witness :
  let '(r, s') := run_prog [Served []; Served [2%nat]] (repair (H0 := demo_tools) repair_entry) misnamed_state in
  r = Ok (expected_outcome (H := demo_keys) (H1 := demo_tools) repair_entry misnamed_state) ∧ r = Ok Moved ∧
  repaired (H := demo_keys) repair_entry Moved (rs_bucket misnamed_state) (rs_bucket s').
Proof.
  assert (expected_outcome (H := demo_keys) (H1 := demo_tools) repair_entry misnamed_state = Moved) as E by (vm_compute; reflexivity).
  assert (misnamed_object_name (ee_path repair_entry) ≠ ep_key (ee_path repair_entry)) as Hne by (vm_compute; discriminate).
  pose proof (repair_outcome (H := demo_keys) (H1 := demo_tools) (H2 := demo_tools_laws) repair_entry
    [Served []; Served [2%nat]] misnamed_state misnamed_quiet Hne eq_refl ltac:(by repeat constructor)) as Hx.
  destruct (run_prog _ _ _) as [r s']. rewrite E in Hx |- *. destruct Hx as [-> Hx]. by split_and!.
Defined.

Lemma repair_covers_all_witness :
  ∃ summary s', run_prog [Lost false; Broken [] 0] (repair_all_affected_entries (H0 := demo_tools) 2) misnamed_state = (Ok summary, s') ∧
    Summary_total summary = 1.
Proof.
  refine (repair_covers_all (H := demo_keys) (H1 := demo_tools) (H2 := demo_tools_laws) 2 [Lost false; Broken [] 0] misnamed_state _ _).
  - apply misnamed_quiet.
  - vm_compute. constructor.
Defined.

(** * A race with a client *)

(** A client uploads [/pub/c%20d] with the same bytes: a write publishes its
    object ([PreparedWrite]) before the transaction that creates its row
    commits. *)
Inductive other_upload : relation RepairState :=
| upload_publishes s :
    other_upload s (mk_RepairState ((ep_key other_path, Some (repair_content, Some (lit "text/plain"))) :: rs_bucket s)
                      (rs_world s) (rs_migrations s) (rs_sent s))
| upload_commits s id w :
    bucket_at (ep_key other_path) (rs_bucket s) ≠ None →
    EntryRepository_create 1 (ep_path other_path) repair_hash (Z.of_nat (length repair_content)) (lit "text/plain")
      (rs_world s) = (Ok id, w) →
    other_upload s (mk_RepairState (rs_bucket s) w (rs_migrations s) (rs_sent s)).

(** [/pub/c d] is in place. *)
Definition in_place_state : RepairState :=
  mk_RepairState [(ep_key repair_path, Some (repair_content, Some (lit "text/plain")))] repair_world [] [].

Definition published : RepairState :=
  mk_RepairState ((ep_key other_path, Some (repair_content, Some (lit "text/plain"))) :: rs_bucket in_place_state)
    repair_world [] [].
Definition committed : RepairState :=
  mk_RepairState (rs_bucket published)
    (EntryRepository_create 1 (ep_path other_path) repair_hash (Z.of_nat (length repair_content)) (lit "text/plain")
       repair_world).2 [] [].

Definition System : Type := RepairState * list (Prog (H := demo_keys) (result AnyError RepairRun)).

(** The repair makes its next [n] requests. *)
Definition repair_continues (n : nat) (y : System) : System := run_events (replicate n (EvRepair 0 (Served []))) y.

Lemma repair_continues_steps n y : rtc (system_step other_upload) y (repair_continues n y).
Proof. apply run_events_steps. by apply Forall_replicate. Qed.

(** It looks at the path; the object is published; it looks at the misnamed
    name, reads both objects and asks for an entry; the row is committed; it
    deletes. *)
Definition looked_at_path : System := repair_continues 3 (in_place_state, [run_once (H0 := demo_tools) 2]).
Definition looked_at_both : System := repair_continues 4 (published, looked_at_path.2).
Definition deleted_other : System := repair_continues 1 (committed, looked_at_both.2).

Lemma looked_at_path_state : looked_at_path.1 = in_place_state.
Proof. vm_cast_no_check (eq_refl in_place_state). Qed.
Lemma looked_at_both_state : looked_at_both.1 = published.
Proof. vm_cast_no_check (eq_refl published). Qed.

(** (C39) The check that a misnamed name is no entry's path does not see an
    upload that has published its object and not yet committed its row: a
    repair that looks in between deletes the object of the other entry, when it
    has the same content, and the entry is left without one.  The version
    condition of the delete does not help, since the object was written before
    the repair looked. *)
Theorem repair_race :
  ∃ y', rtc (system_step other_upload) (in_place_state, [run_once (H0 := demo_tools) 2]) y' ∧
    names_entry (H := demo_keys) (ep_key other_path) (rs_world y'.1) = true ∧
    bucket_at (ep_key other_path) (rs_bucket y'.1) = None.
Proof.
  exists deleted_other. split; [|split; vm_compute; reflexivity].
  etransitivity; [exact (repair_continues_steps 3 _)|]. fold looked_at_path.
  rewrite (surjective_pairing looked_at_path), looked_at_path_state.
  eapply rtc_l; [exact (step_client _ _ _ _ (upload_publishes _))|].
  etransitivity; [exact (repair_continues_steps 4 (published, looked_at_path.2))|]. fold looked_at_both.
  rewrite (surjective_pairing looked_at_both), looked_at_both_state.
  eapply rtc_l; [apply step_client, (upload_commits published 2 (rs_world committed)); [vm_compute; discriminate|reflexivity]|].
  exact (repair_continues_steps 1 (committed, looked_at_both.2)).
Qed.
