(* ===== verification/ClientAddress.v ===== *)
(** Client addresses: the standard library's [IpAddr] as the server uses it
    (parsing and the canonical form), the peer policy of the listener and the
    trusted client header ([pubky-homeserver/src/client_server/client_identity.rs]),
    and where the rate limiters take a request's address from
    ([client_server/middleware/rate_limiter/extract_ip.rs]). *)

From S2P Require Import Prelude.

(** * Addresses *)

(** An IPv4 address is four octets, an IPv6 address eight 16-bit groups. *)
Inductive IpAddr :=
| V4 (a b c d : Z)
| V6 (a b c d e f g h : Z).

#[export] Instance IpAddr_eq_dec : EqDecision IpAddr.
Proof. solve_decision. Defined.

(** [IpAddr::to_canonical]: an IPv4-mapped IPv6 address is the IPv4 address. *)
Definition to_canonical (ip : IpAddr) : IpAddr :=
  match ip with
  | V4 _ _ _ _ => ip
  | V6 a b c d e f g h =>
      if bool_decide ([a; b; c; d; e] = [0; 0; 0; 0; 0] ∧ f = 65535)
      then V4 (g / 256) (g mod 256) (h / 256) (h mod 256)
      else ip
  end.

(** ** Parsing *)

(** The standard library parses addresses with a recursive-descent parser: a
    parser returns what it read and the rest of the text. *)
Definition Parser (A : Type) : Type := str → option (A * str).

Definition read_given_char (c : Z) : Parser () := λ s,
  match s with x :: s' => if x =? c then Some ((), s') else None | [] => None end.

(** [char::to_digit]. *)
Definition to_digit (radix c : Z) : option Z :=
  let d := if is_ascii_digit c then Some (c - 48)
           else if (97 <=? c) && (c <=? 122) then Some (c - 87)
           else if (65 <=? c) && (c <=? 90) then Some (c - 55) else None in
  d ← d; if d <? radix then Some d else None.

(** The digits at the start of a text, and the rest. *)
Fixpoint span_radix (radix : Z) (s : str) : list Z * str :=
  match s with
  | [] => ([], [])
  | c :: s' =>
      match to_digit radix c with
      | Some d => let '(ds, rest) := span_radix radix s' in (d :: ds, rest)
      | None => ([], s)
      end
  end.

(** [read_number]: all digits that follow, at most [max_digits] of them, a
    value of at most [max], and no leading zero unless allowed. *)
Definition read_number (radix : Z) (max_digits : nat) (max : Z) (allow_zero_prefix : bool) : Parser Z := λ s,
  let '(ds, rest) := span_radix radix s in
  let value := foldl (λ n d, n * radix + d) 0 ds in
  if bool_decide (length ds = 0)%nat || bool_decide (max_digits < length ds)%nat || (max <? value) then None
  else if negb allow_zero_prefix && bool_decide (head ds = Some 0) && bool_decide (1 < length ds)%nat then None
  else Some (value, rest).

(** [read_separator]: the separator comes before every item but the first. *)
Definition read_separator {A} (sep : Z) (index : nat) (inner : Parser A) : Parser A := λ s,
  match index with
  | O => inner s
  | S _ => '(_, s) ← read_given_char sep s; inner s
  end.

Definition read_ipv4_addr : Parser (Z * Z * Z * Z) := λ s,
  let octet i := read_separator 46 i (read_number 10 3 255 false) in
  '(a, s) ← octet 0%nat s;
  '(b, s) ← octet 1%nat s;
  '(c, s) ← octet 2%nat s;
  '(d, s) ← octet 3%nat s;
  Some (a, b, c, d, s).

(** [read_groups]: up to [limit] groups of an IPv6 address from position [i],
    and whether they ended in an embedded IPv4 address. *)
Fixpoint read_groups (slots : nat) (i limit : nat) (s : str) : list Z * bool * str :=
  match slots with
  | O => ([], false, s)
  | S slots' =>
      let ipv4 := if (i <? limit - 1)%nat then read_separator COLON i read_ipv4_addr s else None in
      match ipv4 with
      | Some (a, b, c, d, s') => ([a * 256 + b; c * 256 + d], true, s')
      | None =>
          match read_separator COLON i (read_number 16 4 U16_MAX true) s with
          | Some (g, s') =>
              let '(gs, four, rest) := read_groups slots' (S i) limit s' in (g :: gs, four, rest)
          | None => ([], false, s)
          end
      end
  end.

Definition ipv6_of (gs : list Z) : option IpAddr :=
  match gs with
  | [a; b; c; d; e; f; g; h] => Some (V6 a b c d e f g h)
  | _ => None
  end.

Definition read_ipv6_addr : Parser IpAddr := λ s,
  let '(front, head_ipv4, s) := read_groups 8 0 8 s in
  let head_size := length front in
  if bool_decide (head_size = 8%nat) then ip ← ipv6_of front; Some (ip, s)
  else if head_ipv4 then None
  else
    '(_, s) ← read_given_char COLON s;
    '(_, s) ← read_given_char COLON s;
    let limit := (8 - (head_size + 1))%nat in
    let '(tail, _, s) := read_groups limit 0 limit s in
    ip ← ipv6_of (front ++ replicate (8 - head_size - length tail) 0 ++ tail);
    Some (ip, s).

(** [IpAddr::from_str]: the whole text is one address. *)
Definition IpAddr_from_str (s : str) : option IpAddr :=
  let v4 := match read_ipv4_addr s with Some (a, b, c, d, rest) => Some (V4 a b c d, rest) | None => None end in
  match (match v4 with Some r => Some r | None => read_ipv6_addr s end) with
  | Some (ip, []) => Some ip
  | _ => None
  end.

Example parse_v4 : IpAddr_from_str (lit "127.0.0.1") = Some (V4 127 0 0 1).
Proof. reflexivity. Qed.
Example parse_v4_leading_zero : IpAddr_from_str (lit "127.0.0.01") = None.
Proof. reflexivity. Qed.
Example parse_v6_short : IpAddr_from_str (lit "2001:db8::1") = Some (V6 8193 3512 0 0 0 0 0 1).
Proof. reflexivity. Qed.
Example parse_v6_mapped :
  to_canonical <$> IpAddr_from_str (lit "::ffff:10.0.0.7") = Some (V4 10 0 0 7).
Proof. reflexivity. Qed.
Example parse_v6_loopback : IpAddr_from_str (lit "::1") = Some (V6 0 0 0 0 0 0 0 1).
Proof. reflexivity. Qed.

(** * The listener's peer policy and the trusted header *)

(** [ipnet::IpNet::contains]. *)
Class IpNetworks := {
  IpNet : Type;
  IpNet_contains : IpNet → IpAddr → bool;
}.

Section Identity.
Context `{IpNetworks}.

(** The part of [ClientIdentityToml] the acceptor and the router read. *)
Inductive ClientIdentity :=
| Direct
| ProxyProtocol
| HttpHeader (header : str) (trusted_proxies : list IpNet).

Definition trusted_header_proxies (config : ClientIdentity) : option (list IpNet) :=
  match config with
  | HttpHeader _ trusted_proxies => Some trusted_proxies
  | Direct | ProxyProtocol => None
  end.

Definition trusts_peer (self : ClientIdentity) (peer : IpAddr) : bool :=
  match trusted_header_proxies self with
  | None => true
  | Some networks =>
      let canonical_peer := to_canonical peer in
      existsb (λ network, IpNet_contains network peer || IpNet_contains network canonical_peer) networks
  end.

(** [resolve_http_header]: the values of the configured header ([None] when
    not visible ASCII); the error is the status of the response. *)
Definition resolve_http_header (values : list (option str)) : result Z IpAddr :=
  match values with
  | [] => Err 400
  | [value] =>
      text ← ok_or value 400;
      ip ← ok_or (IpAddr_from_str text) 400;
      Ok (to_canonical ip)
  | _ => Err 400
  end.

(** The addresses the extensions of a request carry: [HeaderClientIp], set
    from the header, and [ClientAddr], set by the acceptor. *)
Record RequestAddress := mk_RequestAddress {
  header_client_ip : option IpAddr;
  client_addr : option IpAddr
}.

(** A connection from [peer], identified by the acceptor as [addr] (the
    [tcp_client_addr] crate; [None] when it refuses the connection), then the
    request's header: what the rest of the server sees, or the refusal. *)
Inductive IdentityRefusal := UntrustedProxy | NotIdentified | BadHeader (status_code : Z).

Definition identify (config : ClientIdentity) (peer : IpAddr) (addr : option IpAddr)
    (headers : str → list (option str)) : result IdentityRefusal RequestAddress :=
  if negb (trusts_peer config peer) then Err UntrustedProxy
  else
    addr ← ok_or addr NotIdentified;
    match config with
    | HttpHeader header _ =>
        ip ← map_err BadHeader (resolve_http_header (headers header));
        Ok (mk_RequestAddress (Some ip) (Some addr))
    | Direct | ProxyProtocol => Ok (mk_RequestAddress None (Some addr))
    end.

End Identity.

Inductive MissingClientAddress := missing_client_address.

Definition extract_ip (req : RequestAddress) : result MissingClientAddress IpAddr :=
  match header_client_ip req with
  | Some ip => Ok ip
  | None => ok_or (client_addr req) missing_client_address
  end.

(** * What an identified request carries *)

Lemma to_canonical_idem ip : to_canonical (to_canonical ip) = to_canonical ip.
Proof. destruct ip; cbn; [done|]. case_bool_decide as E; cbn; [done|]. by rewrite bool_decide_false. Qed.

(** A request that gets past the identification always has an address.  Behind
    a header proxy it is the canonical form of the one value of the header,
    and the connection comes from a trusted network; otherwise it is the
    address the acceptor established, whatever headers the request has. *)
Lemma identify_spec `{IpNetworks} config peer addr hs r :
  identify config peer addr hs = Ok r →
  ∃ ip, extract_ip r = Ok ip ∧
    match config with
    | HttpHeader header networks =>
        (∃ network, network ∈ networks ∧
           (IpNet_contains network peer = true ∨ IpNet_contains network (to_canonical peer) = true)) ∧
        ∃ text parsed, hs header = [Some text] ∧ IpAddr_from_str text = Some parsed ∧
          ip = to_canonical parsed ∧ to_canonical ip = ip
    | Direct | ProxyProtocol => addr = Some ip
    end.
Proof.
  unfold identify. destruct (trusts_peer config peer) eqn:Ht; [cbn|done].
  destruct addr as [addr|]; [cbn|done]. destruct config as [| |header networks].
  - intros [= <-]. by exists addr.
  - intros [= <-]. by exists addr.
  - destruct (hs header) as [|[text|] [|]] eqn:Hh; cbn; try done.
    destruct (IpAddr_from_str text) as [parsed|] eqn:Hp; cbn; [|done]. intros [= <-].
    exists (to_canonical parsed). split; [done|]. split; [|exists text, parsed; by rewrite to_canonical_idem].
    unfold trusts_peer in Ht. cbn in Ht. apply existsb_exists in Ht as (n & Hn & Hc).
    exists n. split; [by apply list_elem_of_In|]. by apply orb_true_iff.
Qed.
