(* ===== verification/RequestLimits.v ===== *)
(** The request-count limiter: limit keys and path limits
    ([pubky-homeserver/src/shared/quota/limit_key.rs], [glob_pattern.rs],
    [path_limit.rs]), the limits with their limiters
    ([client_server/middleware/rate_limiter/limiter_pool.rs]) and the layer
    that checks a request against them ([request_rate_limit.rs]).

    The token buckets belong to the [governor] crate and glob matching to
    [fast_glob]: [KeyedLimiters] and [GlobMatcher] are what the code uses of
    them, and [KeyedLimitersLaws] what it relies on. *)

From S2P Require Import Prelude StoragePath Keys HttpError Tenant Quota Database Users Authorization ClientAddress.

(** * Keys and path limits *)

Section Keys.
Context `{PkarrKeys}.

Inductive LimitKeyType := KeyUser | KeyIp.

#[export] Instance LimitKeyType_eq_dec : EqDecision LimitKeyType.
Proof. solve_decision. Defined.

Inductive LimitKey :=
| LimitUser (user_pubkey : PublicKey)
| LimitIp (ip_addr : IpAddr).

#[export] Instance LimitKey_eq_dec : EqDecision LimitKey.
Proof. solve_decision. Defined.

Definition LimitKey_get_type (self : LimitKey) : LimitKeyType :=
  match self with LimitUser _ => KeyUser | LimitIp _ => KeyIp end.

(** The text is a public key, or else an address. *)
Definition LimitKey_from_str (s : str) : option LimitKey :=
  match PublicKey_from_str s with
  | Ok user_pubkey => Some (LimitUser user_pubkey)
  | Err _ => LimitIp <$> IpAddr_from_str s
  end.

Definition LimitKeyType_fmt (self : LimitKeyType) : str :=
  match self with KeyUser => lit "user" | KeyIp => lit "ip" end.

Definition LimitKeyType_from_str (s : str) : option LimitKeyType :=
  if decide (s = lit "user") then Some KeyUser
  else if decide (s = lit "ip") then Some KeyIp else None.

Record PathLimit := mk_PathLimit {
  pl_path : str;
  pl_method : str;
  pl_quota : RequestCountQuota;
  pl_key : LimitKeyType;
  pl_burst : option Z;
  pl_whitelist : list LimitKey
}.

Definition PathLimit_is_whitelisted (self : PathLimit) (key : LimitKey) : bool :=
  bool_decide (key ∈ pl_whitelist self).

(** The first whitelist entry of the wrong kind is reported. *)
Definition PathLimit_validate (self : PathLimit) : result LimitKey () :=
  match list_find (λ k, LimitKey_get_type k ≠ pl_key self) (pl_whitelist self) with
  | Some (_, k) => Err k
  | None => Ok ()
  end.

End Keys.

(** * Limiters *)

(** [fast_glob::glob_match]. *)
Class GlobMatcher := { glob_match : str → str → bool }.

(** A keyed limiter of the [governor] crate: its buckets, a check of one cell
    for a key (the error is the earliest instant, in nanoseconds, at which a
    cell would conform), the removal of the keys whose bucket is full again,
    and whether no key is left. *)
Class KeyedLimiters `{PkarrKeys} `{Governor} := {
  KeyedRateLimiter : Type;
  RateLimiter_keyed : governor_Quota → KeyedRateLimiter;
  check_key : LimitKey → Z → KeyedRateLimiter → result Z () * KeyedRateLimiter;
  retain_recent : Z → KeyedRateLimiter → KeyedRateLimiter;
  limiter_is_empty : KeyedRateLimiter → bool;
  (** How many cells of one key conform to a quota within so many nanoseconds. *)
  conforming_cells : governor_Quota → Z → Z;
}.

Section Runs.
Context `{KeyedLimiters}.

(** What happens to one limiter: checks and cleanups, with their instants. *)
Inductive LimiterOp := CheckKey (key : LimitKey) (now : Z) | RetainRecent (now : Z).

Definition op_time (o : LimiterOp) : Z := match o with CheckKey _ t | RetainRecent t => t end.

Definition limiter_step (l : KeyedRateLimiter) (o : LimiterOp) : KeyedRateLimiter :=
  match o with
  | CheckKey k t => (check_key k t l).2
  | RetainRecent t => retain_recent t l
  end.

Definition limiter_run (l : KeyedRateLimiter) (os : list LimiterOp) : KeyedRateLimiter := foldl limiter_step l os.

(** The checks of [k] between [t] and [t + d] that were let through. *)
Definition conforms (l : KeyedRateLimiter) (k : LimitKey) (t d : Z) (o : LimiterOp) : bool :=
  match o with
  | CheckKey k' t' => bool_decide (k' = k) && (t <=? t') && (t' <=? t + d) && is_ok (check_key k' t' l).1
  | RetainRecent _ => false
  end.

Fixpoint conformed (l : KeyedRateLimiter) (k : LimitKey) (t d : Z) (os : list LimiterOp) : nat :=
  match os with
  | [] => 0
  | o :: os' => (if conforms l k t d o then 1 else 0) + conformed (limiter_step l o) k t d os'
  end.

End Runs.

(** What a limiter promises: whatever is checked for whatever keys on a clock
    that does not run backwards, the cells of one key let through within any
    window keep to the quota; a refused check takes nothing. *)
Class KeyedLimitersLaws `{KeyedLimiters} := {
  keyed_conforms q os k t d :
    StronglySorted Z.le (map op_time os) → 0 ≤ d →
    Z.of_nat (conformed (RateLimiter_keyed q) k t d os) ≤ conforming_cells q d;
  check_key_refused l k t e : (check_key k t l).1 = Err e → (check_key k t l).2 = l;
}.

(** * The layer *)

Section Layer.
Context `{KeyedLimiters} `{GlobMatcher}.

(** What the limiters read of a request and its extensions. *)
Record LimitedRequest := mk_LimitedRequest {
  lr_method : str;
  lr_uri_path : str;
  lr_tenant : option RequestTenant;
  lr_address : RequestAddress;
  lr_session : option AuthSession
}.

Record LimitTuple := mk_LimitTuple {
  lt_limit : PathLimit;
  lt_limiter : KeyedRateLimiter
}.

Inductive LimitConfigError :=
| WhitelistKeyTypeMismatch (k : LimitKey)
| QuotaRejected (e : RateError).

Definition LimitTuple_new (path_limit : PathLimit) : result LimitConfigError LimitTuple :=
  map_err WhitelistKeyTypeMismatch (PathLimit_validate path_limit) ;;
  quota ← map_err QuotaRejected (PathLimit_try_into_governor (pl_quota path_limit) (pl_burst path_limit));
  Ok (mk_LimitTuple path_limit (RateLimiter_keyed quota)).

Inductive LimitKeyExtractionError := KeyMissingClientAddress | KeyMissingRequestTenant.

Definition LimitTuple_extract_key (limit : PathLimit) (req : LimitedRequest)
    : result LimitKeyExtractionError LimitKey :=
  match pl_key limit with
  | KeyIp => LimitIp <$> map_err (λ _, KeyMissingClientAddress) (extract_ip (lr_address req))
  | KeyUser => ok_or ((λ pk, LimitUser (rt_public_key pk)) <$> lr_tenant req) KeyMissingRequestTenant
  end.

Definition LimitTuple_is_match (limit : PathLimit) (req : LimitedRequest) : bool :=
  let path := match lr_tenant req ≫= rt_storage_path with
              | Some path => as_str path
              | None => lr_uri_path req
              end in
  let glob_match := glob_match (pl_path limit) path in
  let method_match := bool_decide (pl_method limit = lr_method req) in
  glob_match && method_match.

(** [sort_by_key] is stable; so is [order_by]. *)
Definition window_leb (a b : PathLimit) : bool :=
  Duration_from_TimeUnit (rcq_time_unit (pl_quota a)) <=? Duration_from_TimeUnit (rcq_time_unit (pl_quota b)).

Definition RequestRateLimitLayer_from_path_limits (limits : list PathLimit)
    : result LimitConfigError (list LimitTuple) :=
  let limits := order_by window_leb limits in
  collect_results (map LimitTuple_new limits).

(** The loop over the limits, from position [i]; [clock i] are the instants at
    which the check of the [i]-th limit and the wait after its refusal read
    the clock. *)
Fixpoint check_limits_from (i : nat) (clock : nat → Z * Z) (limits : list LimitTuple) (req : LimitedRequest)
    : result HttpError () * list LimitTuple :=
  match limits with
  | [] => (Ok (), [])
  | limit :: rest =>
      let continue limit :=
        let '(r, rest') := check_limits_from (S i) clock rest req in (r, limit :: rest') in
      if negb (LimitTuple_is_match (lt_limit limit) req) then continue limit
      else
        match LimitTuple_extract_key (lt_limit limit) req with
        | Err KeyMissingClientAddress =>
            (Err (HttpError_new_with_message 500 (lit "Missing client address for rate limiting")), limits)
        | Err KeyMissingRequestTenant =>
            (Err (HttpError_new_with_message 400 (lit "Failed to extract user for rate limiting")), limits)
        | Ok key =>
            if PathLimit_is_whitelisted (lt_limit limit) key then continue limit
            else
              let '(r, limiter) := check_key key (clock i).1 (lt_limiter limit) in
              let limit := mk_LimitTuple (lt_limit limit) limiter in
              match r with
              | Err earliest =>
                  let retry_after := Z.max 0 (earliest - (clock i).2) in
                  let retry_after_secs := Z.max (retry_after / 1000000000) 1 in
                  (Err (HttpError_too_many_requests (lit "Rate limit exceeded") retry_after_secs), limit :: rest)
              | Ok _ => continue limit
              end
        end
  end.

Definition check_request_count_limits := check_limits_from 0.

(** [RequestRateLimitMiddleware::call] up to the call of the inner service. *)
Definition RequestRateLimit_call (clock : nat → Z * Z) (limits : list LimitTuple) (req : LimitedRequest)
    : result HttpError () * list LimitTuple :=
  if negb (existsb (λ l, LimitTuple_is_match (lt_limit l) req) limits) then (Ok (), limits)
  else check_request_count_limits clock limits req.

(** The cleanup task of the [i]-th limit. *)
Definition LimitTuple_cleanup (now : Z) (l : LimitTuple) : LimitTuple :=
  mk_LimitTuple (lt_limit l) (retain_recent now (lt_limiter l)).

Inductive LayerOp :=
| Incoming (req : LimitedRequest) (clock : nat → Z * Z)
| Cleanup (i : nat) (now : Z).

Definition layer_step (limits : list LimitTuple) (o : LayerOp) : list LimitTuple :=
  match o with
  | Incoming req clock => (RequestRateLimit_call clock limits req).2
  | Cleanup i now => alter (LimitTuple_cleanup now) i limits
  end.

(** ** One request *)

(** The key a limit charges a request to, if it charges it at all. *)
Definition charged_key (limit : PathLimit) (req : LimitedRequest) : option LimitKey :=
  if LimitTuple_is_match limit req then
    match LimitTuple_extract_key limit req with
    | Ok key => if PathLimit_is_whitelisted limit key then None else Some key
    | Err _ => None
    end
  else None.

(** The limit lets the request through: it does not concern it, or the request
    has a key that is whitelisted or for which the limiter gave a cell. *)
Definition lets_through (now : Z) (req : LimitedRequest) (l l' : LimitTuple) : Prop :=
  if LimitTuple_is_match (lt_limit l) req then
    ∃ key, LimitTuple_extract_key (lt_limit l) req = Ok key ∧
      if PathLimit_is_whitelisted (lt_limit l) key then l' = l
      else check_key key now (lt_limiter l) = (Ok (), lt_limiter l') ∧ lt_limit l' = lt_limit l
  else l' = l.

(** Why a limit refuses a request. *)
Definition refuses (now now' : Z) (req : LimitedRequest) (l : LimitTuple) (e : HttpError) : Prop :=
  LimitTuple_is_match (lt_limit l) req = true ∧
  (status e = 500 ∧ pl_key (lt_limit l) = KeyIp ∧ extract_ip (lr_address req) = Err missing_client_address ∨
   status e = 400 ∧ pl_key (lt_limit l) = KeyUser ∧ lr_tenant req = None ∨
   ∃ key earliest secs, status e = 429 ∧ retry_after_secs e = Some secs ∧
     charged_key (lt_limit l) req = Some key ∧ (check_key key now (lt_limiter l)).1 = Err earliest ∧
     1 ≤ secs ∧ earliest < now' + (secs + 1) * 1000000000).

Lemma extract_key_missing limit req e :
  LimitTuple_extract_key limit req = Err e →
  (e = KeyMissingClientAddress ∧ pl_key limit = KeyIp ∧ extract_ip (lr_address req) = Err missing_client_address) ∨
  (e = KeyMissingRequestTenant ∧ pl_key limit = KeyUser ∧ lr_tenant req = None).
Proof.
  unfold LimitTuple_extract_key. destruct (pl_key limit).
  - destruct (lr_tenant req); cbn; [done|]. intros [= <-]. naive_solver.
  - destruct (extract_ip (lr_address req)) as [|[]] eqn:E; cbn; [done|]. intros [= <-]. naive_solver.
Qed.

Lemma retry_bound earliest now' secs :
  secs = Z.max (Z.max 0 (earliest - now') / 1000000000) 1 → 1 ≤ secs ∧ earliest < now' + (secs + 1) * 1000000000.
Proof. intros ->. Z.to_euclidean_division_equations. lia. Qed.

(** The limits from position [i] on all let the request through. *)
Inductive all_let_through (clock : nat → Z * Z) (req : LimitedRequest)
    : nat → list LimitTuple → list LimitTuple → Prop :=
| all_let_nil i : all_let_through clock req i [] []
| all_let_cons i l l' ls ls' :
    lets_through (clock i).1 req l l' → all_let_through clock req (S i) ls ls' →
    all_let_through clock req i (l :: ls) (l' :: ls').

(** The outcome of the loop: all limits let the request through, or one
    refuses it after the ones before it let it through, and the ones after it
    are not asked. *)
Definition limits_outcome (clock : nat → Z * Z) (req : LimitedRequest) (i : nat) (limits : list LimitTuple)
    (r : result HttpError ()) (limits' : list LimitTuple) : Prop :=
  match r with
  | Ok _ => all_let_through clock req i limits limits'
  | Err e =>
      ∃ passed passed' l rest, limits = passed ++ l :: rest ∧ limits' = passed' ++ l :: rest ∧
        all_let_through clock req i passed passed' ∧
        refuses (clock (i + length passed)%nat).1 (clock (i + length passed)%nat).2 req l e
  end.

Lemma limits_outcome_cons clock req i l l' ls r ls' :
  lets_through (clock i).1 req l l' → limits_outcome clock req (S i) ls r ls' →
  limits_outcome clock req i (l :: ls) r (l' :: ls').
Proof.
  intros Hl. destruct r as [|e]; cbn [limits_outcome]; [by constructor|].
  intros (passed & passed' & l1 & rest & -> & -> & Hp & Hf).
  exists (l :: passed), (l' :: passed'), l1, rest. split; [done|]. split; [done|]. split; [by constructor|].
  cbn [length]. by rewrite <-plus_n_Sm.
Qed.

Lemma limits_outcome_refused clock req i l rest e :
  refuses (clock i).1 (clock i).2 req l e → limits_outcome clock req i (l :: rest) (Err e) (l :: rest).
Proof.
  intros Hr. exists [], [], l, rest. split; [done|]. split; [done|]. split; [constructor|]. cbn [length]. by rewrite <-plus_n_O.
Qed.

Section OneRequest.
Context `{!KeyedLimitersLaws}.

Lemma check_limits_from_spec clock limits req i r limits' :
  check_limits_from i clock limits req = (r, limits') → limits_outcome clock req i limits r limits'.
Proof.
  revert i r limits'. induction limits as [|l limits IH]; intros i r limits'; cbn [check_limits_from].
  { intros [= <- <-]. constructor. }
  destruct (check_limits_from (S i) clock limits req) as [r0 rest0] eqn:Hrest. apply IH in Hrest.
  destruct (LimitTuple_is_match (lt_limit l) req) eqn:Hm; cbn [negb].
  2:{ intros [= <- <-]. apply limits_outcome_cons; [|done]. unfold lets_through. by rewrite Hm. }
  destruct (LimitTuple_extract_key (lt_limit l) req) as [key|e] eqn:Hk; [|].
  2:{ intros He. apply extract_key_missing in Hk as [(-> & ? & ?)|(-> & ? & ?)];
      injection He as <- <-; apply limits_outcome_refused; (split; [done|]); naive_solver. }
  destruct (PathLimit_is_whitelisted (lt_limit l) key) eqn:Hw.
  { intros [= <- <-]. apply limits_outcome_cons; [|done]. unfold lets_through. rewrite Hm. exists key. by rewrite Hw. }
  destruct (check_key key (clock i).1 (lt_limiter l)) as [[[]|e] limiter] eqn:Hc; intros [= <- <-].
  2:{ assert (limiter = lt_limiter l) as ->.
    { change limiter with (Err (A:=()) e, limiter).2. rewrite <-Hc. apply (check_key_refused _ _ _ e). by rewrite Hc. }
    replace (mk_LimitTuple (lt_limit l) (lt_limiter l)) with l by by destruct l.
    apply limits_outcome_refused. split; [done|]. right; right. eexists key, e, _.
    split_and!; [done|done| |by rewrite Hc| |]; [|eapply retry_bound; reflexivity..].
    unfold charged_key. by rewrite Hm, Hk, Hw. }
  apply limits_outcome_cons; [|done]. unfold lets_through. rewrite Hm. exists key. by rewrite Hw.
Qed.

(** A request no limit matches is let through without asking any limiter. *)
Lemma no_match_let_through clock req i limits :
  existsb (λ l, LimitTuple_is_match (lt_limit l) req) limits = false → all_let_through clock req i limits limits.
Proof.
  revert i. induction limits as [|l limits IH]; intros i; cbn; [constructor|].
  intros [Hl Hr]%orb_false_iff. constructor; [|by apply IH]. unfold lets_through. by rewrite Hl.
Qed.

Lemma RequestRateLimit_call_spec clock limits req r limits' :
  RequestRateLimit_call clock limits req = (r, limits') → limits_outcome clock req 0 limits r limits'.
Proof.
  unfold RequestRateLimit_call. destruct (existsb _ _) eqn:E; cbn [negb].
  - apply check_limits_from_spec.
  - intros [= <- <-]. by apply no_match_let_through.
Qed.

End OneRequest.

(** ** The configured limits *)

Lemma from_path_limits_spec cfg limits :
  RequestRateLimitLayer_from_path_limits cfg = Ok limits →
  map lt_limit limits = order_by window_leb cfg ∧
  Forall (λ l, PathLimit_validate (lt_limit l) = Ok () ∧
    ∃ q, PathLimit_try_into_governor (pl_quota (lt_limit l)) (pl_burst (lt_limit l)) = Ok q ∧
         lt_limiter l = RateLimiter_keyed q) limits.
Proof.
  unfold RequestRateLimitLayer_from_path_limits. generalize (order_by window_leb cfg). intros c.
  revert limits. induction c as [|p c IH]; intros limits; cbn; [by intros [= <-]|].
  destruct (LimitTuple_new p) as [l|] eqn:Hl; cbn; [|done]. revert Hl. unfold LimitTuple_new.
  destruct (PathLimit_validate p) as [[]|] eqn:Hv; cbn; [|done].
  destruct (PathLimit_try_into_governor _ _) as [q|] eqn:Hq; cbn; [|done]. intros [= <-].
  destruct (collect_results _) as [ls|] eqn:Hc; cbn; [|done]. intros [= <-].
  destruct (IH ls eq_refl) as [<- Hf]. split; [done|]. constructor; [|done]. cbn. split; [done|]. by exists q.
Qed.

Definition window (l : LimitTuple) : Z := Duration_from_TimeUnit (rcq_time_unit (pl_quota (lt_limit l))).

(** Whatever the order of the configuration, shorter windows come first. *)
Lemma windows_sorted cfg limits :
  map lt_limit limits = order_by window_leb cfg → StronglySorted (λ a b, window a ≤ window b) limits.
Proof.
  intros Hm. assert (StronglySorted (λ a b, window_leb a b = true) (map lt_limit limits)) as Hs.
  { rewrite Hm. apply order_by_sorted.
    - intros a b. unfold window_leb. rewrite Z.leb_gt, Z.leb_le. lia.
    - intros a b c. unfold window_leb. rewrite !Z.leb_le. lia. }
  clear Hm. induction limits as [|l limits IH]; cbn in Hs; [constructor|].
  apply StronglySorted_inv in Hs as [Hs Hf]. constructor; [by apply IH|].
  rewrite Forall_map in Hf. eapply Forall_impl; [exact Hf|]. intros b. unfold window_leb, window. cbn.
  by rewrite Z.leb_le.
Qed.

End Layer.
