(* ===== verification/LimitProofs.v ===== *)
(** Correctness of the request-count limiter, and a token bucket limiter in
    the manner of the [governor] crate that satisfies the assumed laws. *)

From S2P Require Import Prelude StoragePath Keys HttpError Tenant Quota Database Users Authorization ClientAddress RequestLimits.

Section LimitProofs.
Context `{KeyedLimiters} `{GlobMatcher} `{!KeyedLimitersLaws}.

Lemma all_let_through_lookup clock req i ls ls' :
  all_let_through clock req i ls ls' →
  ∀ j l, ls !! j = Some l → ∃ l', ls' !! j = Some l' ∧ lets_through (clock (i + j)%nat).1 req l l'.
Proof.
  induction 1 as [|i l l' ls ls' Hl _ IH]; intros j l0; [done|]. destruct j as [|j]; cbn.
  - intros [= <-]. exists l'. by rewrite <-plus_n_O.
  - intros Hj. destruct (IH j l0 Hj) as (l1 & ? & ?). exists l1. by rewrite <-plus_n_Sm.
Qed.

Lemma lets_through_limit now req l l' : lets_through now req l l' → lt_limit l' = lt_limit l.
Proof.
  unfold lets_through. destruct (LimitTuple_is_match _ _); [|by intros ->].
  intros (key & _ & Hw). destruct (PathLimit_is_whitelisted _ _); [by subst|by destruct Hw].
Qed.

Lemma all_let_through_limits clock req i ls ls' :
  all_let_through clock req i ls ls' → map lt_limit ls' = map lt_limit ls.
Proof.
  induction 1 as [|i l l' ls ls' Hl _ IH]; [done|]. cbn. by rewrite IH, (lets_through_limit _ _ _ _ Hl).
Qed.

Lemma all_let_through_length clock req i ls ls' :
  all_let_through clock req i ls ls' → length ls' = length ls.
Proof. induction 1; cbn; lia. Qed.

Lemma outcome_limits clock req i ls r ls' :
  limits_outcome clock req i ls r ls' → map lt_limit ls' = map lt_limit ls.
Proof.
  destruct r; cbn; [apply all_let_through_limits|].
  intros (passed & passed' & l & rest & -> & -> & Hp & _). rewrite !map_app. f_equal.
  by eapply all_let_through_limits.
Qed.

(** What the request limiter does with a request, for every
    configuration it accepts and in every state of its limiters.  A request is
    let through exactly when every limit lets it through: a limit whose path
    pattern or method does not match is not asked, a whitelisted key is not
    charged, and any other request takes one cell of its key.  A refused
    request is refused by one limit: with 500 only if the limit goes by
    address and the request has none, with 400 only if it goes by user and
    there is no tenant, and with 429 only if the limiter refused its key, with
    a Retry-After of at least a second that is not too early by a second or
    more.  The limits after the refusing one are not asked, the refusing one
    is not charged, and whichever limit was charged for the refused request
    has a window no longer than the refusing one, whatever the order of the
    configuration. *)
Theorem request_limit_outcome cfg limits0 limits clock req r limits' :
  RequestRateLimitLayer_from_path_limits cfg = Ok limits0 → map lt_limit limits = map lt_limit limits0 →
  RequestRateLimit_call clock limits req = (r, limits') →
  map lt_limit limits' = map lt_limit limits ∧
  match r with
  | Ok _ => ∀ i l, limits !! i = Some l → ∃ l', limits' !! i = Some l' ∧ lets_through (clock i).1 req l l'
  | Err e =>
      ∃ i l, limits !! i = Some l ∧ refuses (clock i).1 (clock i).2 req l e ∧
        (∀ j lj, (j < i)%nat → limits !! j = Some lj →
           ∃ lj', limits' !! j = Some lj' ∧ lets_through (clock j).1 req lj lj') ∧
        (∀ j, (i ≤ j)%nat → limits' !! j = limits !! j) ∧
        (∀ j lj, limits !! j = Some lj → limits' !! j ≠ Some lj → window lj ≤ window l)
  end.
Proof.
  intros Hcfg Hl Hc. apply RequestRateLimit_call_spec in Hc. split; [by eapply outcome_limits|].
  apply from_path_limits_spec in Hcfg as [Hm _]. rewrite Hm in Hl. apply windows_sorted in Hl. clear Hm.
  destruct r as [|e]; [exact (all_let_through_lookup _ _ _ _ _ Hc)|].
  destruct Hc as (passed & passed' & l & rest & -> & -> & Hp & Hr). cbn in Hr.
  assert (length passed' = length passed) as Hlen by by eapply all_let_through_length.
  exists (length passed), l. split; [by rewrite lookup_app_r, Nat.sub_diag by lia|]. split; [done|]. split_and!.
  - intros j lj Hj. rewrite !lookup_app_l by lia. by apply (all_let_through_lookup _ _ 0 _ _ Hp).
  - intros j Hj. by rewrite !lookup_app_r, Hlen by lia.
  - intros j lj Hj Hne. destruct (decide (j < length passed)%nat) as [Hlt|].
    + rewrite lookup_app_l in Hj by done. apply list_elem_of_lookup_2 in Hj.
      apply StronglySorted_app in Hl as (Hcross & _). apply Hcross; [done|]. by left.
    + destruct Hne. rewrite <-Hj, !lookup_app_r by lia. by rewrite Hlen.
Qed.

(** ** The rate over time *)

(** The instants at which something happens to the [i]-th limiter. *)
Definition layer_times (i : nat) (ops : list (LayerOp)) : list Z :=
  omap (λ o, match o with
             | Incoming _ clock => Some (clock i).1
             | Cleanup j now => if decide (j = i) then Some now else None
             end) ops.

(** The requests of a run that were let through, were charged to [k] by the
    [i]-th limit [limit], and came between [t] and [t + d]. *)
Fixpoint served (limits : list LimitTuple) (i : nat) (limit : PathLimit) (k : LimitKey) (t d : Z)
    (ops : list LayerOp) : nat :=
  match ops with
  | [] => 0
  | o :: ops' =>
      (match o with
       | Incoming req clock =>
           if is_ok (RequestRateLimit_call clock limits req).1 && bool_decide (charged_key limit req = Some k)
              && (t <=? (clock i).1) && ((clock i).1 <=? t + d)
           then 1 else 0
       | Cleanup _ _ => 0
       end) + served (layer_step limits o) i limit k t d ops'
  end.

Lemma conformed_app l k t d os1 os2 :
  conformed l k t d (os1 ++ os2) = (conformed l k t d os1 + conformed (limiter_run l os1) k t d os2)%nat.
Proof.
  revert l. induction os1 as [|o os1 IH]; intros l; [done|]. cbn [app conformed]. rewrite IH, Nat.add_assoc. done.
Qed.

(** A limit that lets a request through asked its limiter at most once, and
    did so if it charges the request. *)
Lemma lets_through_ops now req l l' :
  lets_through now req l l' →
  ∃ os, (os = [] ∨ ∃ k, os = [CheckKey k now]) ∧
    l' = mk_LimitTuple (lt_limit l) (limiter_run (lt_limiter l) os) ∧
    ∀ k, charged_key (lt_limit l) req = Some k → os = [CheckKey k now] ∧ (check_key k now (lt_limiter l)).1 = Ok ().
Proof.
  destruct l as [limit limiter], l' as [limit' limiter']. unfold lets_through, charged_key. cbn [lt_limit lt_limiter].
  destruct (LimitTuple_is_match limit req); [|intros [= -> ->]; exists []; naive_solver].
  intros (key & -> & Hw). destruct (PathLimit_is_whitelisted limit key).
  - injection Hw as -> ->. exists []. naive_solver.
  - destruct Hw as [Hc ->]. exists [CheckKey key now]. split; [by eauto|]. cbn. rewrite Hc. split; [done|].
    intros k [= <-]. by rewrite Hc.
Qed.

(** What a step of the layer does to the [i]-th limiter, and that a request
    that is served and charged there took a cell. *)
Lemma layer_step_at limits i l o k t d :
  limits !! i = Some l →
  ∃ os, sublist (map op_time os) (layer_times i [o]) ∧
    layer_step limits o !! i = Some (mk_LimitTuple (lt_limit l) (limiter_run (lt_limiter l) os)) ∧
    (served limits i (lt_limit l) k t d [o] ≤ conformed (lt_limiter l) k t d os)%nat.
Proof.
  intros Hi. destruct o as [req clock|j now]; cbn [layer_step layer_times served omap list_omap].
  - destruct (RequestRateLimit_call clock limits req) as [r limits'] eqn:Hc. cbn [fst snd].
    apply RequestRateLimit_call_spec in Hc. rewrite Nat.add_0_r. destruct r as [|e]; cbn [is_ok andb].
    + destruct (all_let_through_lookup _ _ _ _ _ Hc _ _ Hi) as (l' & Hl' & (os & Hos & -> & Hk)%lets_through_ops).
      exists os. split_and!; [|done|].
      * destruct Hos as [->|[? ->]]; cbn; [apply sublist_nil_l|done].
      * case_bool_decide as Hch; [|cbn; lia]. destruct (Hk k Hch) as [-> Hok]. cbn in Hok |- *.
        rewrite bool_decide_true, Hok by done. cbn. rewrite andb_true_r. lia.
    + destruct Hc as (passed & passed' & lr & rest & -> & -> & Hp & _).
      assert (length passed' = length passed) as Hlen by by eapply all_let_through_length.
      destruct (decide (i < length passed)%nat).
      * rewrite lookup_app_l in Hi |- * by lia.
        destruct (all_let_through_lookup _ _ _ _ _ Hp _ _ Hi) as (l' & Hl' & (os & Hos & -> & _)%lets_through_ops).
        exists os. split_and!; [|done|lia]. destruct Hos as [->|[? ->]]; cbn; [apply sublist_nil_l|done].
      * exists []. split_and!; [apply sublist_nil_l| |lia].
        rewrite lookup_app_r in Hi |- * by lia. rewrite Hlen, Hi. by destruct l.
  - destruct (decide (j = i)) as [->|Hne].
    + exists [RetainRecent now]. rewrite list_lookup_alter_eq, Hi. split_and!; [done..|lia].
    + exists []. rewrite list_lookup_alter_ne, Hi by done. split_and!; [apply sublist_nil_l|by destruct l|lia].
Qed.

Lemma layer_run_at limits i l ops k t d :
  limits !! i = Some l →
  ∃ os, sublist (map op_time os) (layer_times i ops) ∧
    (served limits i (lt_limit l) k t d ops ≤ conformed (lt_limiter l) k t d os)%nat.
Proof.
  revert limits l. induction ops as [|o ops IH]; intros limits l Hi.
  { exists []. split; [done|cbn; lia]. }
  destruct (layer_step_at limits i l o k t d Hi) as (os & Hs & Hi' & Hn).
  destruct (IH _ _ Hi') as (os' & Hs' & Hn'). exists (os ++ os'). split.
  - rewrite map_app. unfold layer_times. change (o :: ops) with ([o] ++ ops). rewrite omap_app. by apply sublist_app.
  - rewrite conformed_app. cbn [lt_limit lt_limiter] in Hn'. cbn [served] in Hn |- *. lia.
Qed.

Lemma StronglySorted_sublist (l l' : list Z) : sublist l' l → StronglySorted Z.le l → StronglySorted Z.le l'.
Proof.
  induction 1 as [|x l1 l2 Hs IH|x l1 l2 Hs IH]; intros Hl; [done| |];
    apply StronglySorted_inv in Hl as [Hl Hf]; [|by apply IH].
  constructor; [by apply IH|]. apply Forall_forall. intros y Hy. rewrite Forall_forall in Hf. apply Hf.
  by eapply elem_of_sublist.
Qed.

(** (C38) A configured limit is enforced: in every run of the layer from its
    start, with any requests, any other limits, whitelists and cleanups in
    between and on a clock that does not run backwards, the requests let
    through that a limit charges to one key within any window are no more
    than the cells its quota allows in such a window.  The quota is the one
    the limit's rate and burst were converted to when the server started. *)
Theorem rate_limit_enforced cfg limits i l ops k t d :
  RequestRateLimitLayer_from_path_limits cfg = Ok limits → limits !! i = Some l →
  StronglySorted Z.le (layer_times i ops) → 0 ≤ d →
  ∃ q, PathLimit_try_into_governor (pl_quota (lt_limit l)) (pl_burst (lt_limit l)) = Ok q ∧
    Z.of_nat (served limits i (lt_limit l) k t d ops) ≤ conforming_cells q d.
Proof.
  intros Hcfg Hi Hs Hd. apply from_path_limits_spec in Hcfg as [_ Hf].
  rewrite Forall_lookup in Hf. destruct (Hf i l Hi) as (_ & q & Hq & Hl). exists q. split; [done|].
  destruct (layer_run_at limits i l ops k t d Hi) as (os & Hsub & Hn). rewrite Hl in Hn.
  pose proof (keyed_conforms q os k t d (StronglySorted_sublist _ _ Hsub Hs) Hd). lia.
Qed.

End LimitProofs.

(** * A limiter that keeps the promise *)

(** The generic cell rate algorithm over [demo_governor]'s quotas: a limiter
    keeps for every key the instant at which its bucket is full again. *)
Section Gcra.
Context `{PkarrKeys}.

Record Gcra := mk_Gcra { g_quota : Z * Z; g_tats : list (LimitKey * Z) }.

Fixpoint tat_of (k : LimitKey) (l : list (LimitKey * Z)) : option Z :=
  match l with
  | [] => None
  | (k', t) :: l' => if decide (k' = k) then Some t else tat_of k l'
  end.

Definition gcra_valid (q : Z * Z) : bool := (0 <? q.1) && (0 <=? q.2).

Definition gcra_check (k : LimitKey) (now : Z) (g : Gcra) : result Z () * Gcra :=
  let '(period, burst) := g_quota g in
  let tat := default now (tat_of k (g_tats g)) in
  let earliest := tat - period * burst in
  if negb (gcra_valid (g_quota g)) || (now <? earliest) then (Err earliest, g)
  else (Ok (), mk_Gcra (g_quota g) ((k, Z.max tat now + period) :: g_tats g)).

Definition gcra_retain (now : Z) (g : Gcra) : Gcra :=
  mk_Gcra (g_quota g) (if forallb (λ kt, kt.2 <=? now) (g_tats g) then [] else g_tats g).

#[export] Instance gcra_limiters : KeyedLimiters (H0 := demo_governor) := {|
  KeyedRateLimiter := Gcra;
  RateLimiter_keyed q := mk_Gcra q [];
  check_key := gcra_check;
  retain_recent := gcra_retain;
  limiter_is_empty g := bool_decide (g_tats g = []);
  conforming_cells q d := if gcra_valid q then 1 + q.2 + d / q.1 else 0;
|}.

(** The bucket of [k], measured against a lower bound of what is to come. *)
Definition tat_from (k : LimitKey) (lo : Z) (g : Gcra) : Z := Z.max lo (default lo (tat_of k (g_tats g))).

Lemma tat_of_retained k now l t : forallb (λ kt, kt.2 <=? now) l = true → tat_of k l = Some t → t ≤ now.
Proof.
  induction l as [|[k' t'] l IH]; cbn; [done|]. intros [Hh Hl]%andb_true_iff. apply Z.leb_le in Hh.
  case_decide; [by intros [= <-]|by apply IH].
Qed.

(** Every step keeps the quota and never empties a bucket's debt in the view
    of later steps; a conforming check adds a period to it. *)
Lemma gcra_step g k t d o lo period burst :
  g_quota g = (period, burst) → 0 < period → 0 ≤ burst → 0 ≤ d → lo ≤ op_time o →
  let g' := limiter_step g o in
  g_quota g' = (period, burst) ∧
  tat_from k (Z.max t lo) g ≤ tat_from k (Z.max t (op_time o)) g' ∧
  (conforms g k t d o = true →
     tat_from k (Z.max t lo) g ≤ t + d + period * burst ∧
     tat_from k (Z.max t lo) g + period ≤ tat_from k (Z.max t (op_time o)) g').
Proof.
  intros Hq Hp Hb Hd Hlo. destruct o as [k' now|now]; cbn [op_time limiter_step] in *.
  - cbn [check_key gcra_limiters conforms]. unfold gcra_check, gcra_valid. rewrite Hq. cbn [fst snd].
    replace (0 <? period) with true by (symmetry; by apply Z.ltb_lt).
    replace (0 <=? burst) with true by (symmetry; by apply Z.leb_le). cbn [andb negb orb].
    destruct (Z.ltb_spec now (default now (tat_of k' (g_tats g)) - period * burst)) as [Hr|Ha]; cbn [fst snd is_ok].
    + split; [done|]. split; [|by rewrite andb_false_r].
      unfold tat_from. destruct (tat_of k (g_tats g)); cbn; lia.
    + split; [done|]. unfold tat_from. cbn [g_tats tat_of]. destruct (decide (k' = k)) as [->|Hne]; cbn [default].
      * split; [destruct (tat_of k (g_tats g)); cbn; lia|].
        rewrite !andb_true_iff, !Z.leb_le. intros (((_ & ?) & ?) & _).
        assert (0 ≤ period * burst) by nia.
        destruct (tat_of k (g_tats g)); cbn in *; lia.
      * rewrite bool_decide_false by done. split; [destruct (tat_of k (g_tats g)); cbn; lia|done].
  - cbn [retain_recent gcra_limiters conforms]. unfold gcra_retain. split; [done|]. split; [|done].
    unfold tat_from. cbn [g_tats]. destruct (forallb _ _) eqn:Hf; cbn [tat_of default].
    + destruct (tat_of k (g_tats g)) eqn:Ht; cbn; [|lia]. apply (tat_of_retained _ _ _ _ Hf) in Ht. lia.
    + destruct (tat_of k (g_tats g)); cbn; lia.
Qed.

Lemma gcra_conformed g k t d os lo period burst :
  g_quota g = (period, burst) → 0 < period → 0 ≤ burst → 0 ≤ d →
  StronglySorted Z.le (lo :: map op_time os) →
  period * Z.of_nat (conformed g k t d os)
  ≤ Z.max 0 (t + d + period * burst + period - tat_from k (Z.max t lo) g).
Proof.
  revert g lo. induction os as [|o os IH]; intros g lo Hq Hp Hb Hd Hs; [cbn; lia|].
  apply StronglySorted_inv in Hs as [Hs Hf]. cbn in Hf. apply Forall_cons in Hf as [Hlo _].
  destruct (gcra_step g k t d o lo period burst Hq Hp Hb Hd Hlo) as (Hq' & Hmono & Hconf).
  specialize (IH _ _ Hq' Hp Hb Hd Hs). cbn [conformed].
  destruct (conforms _ k t d o); [destruct (Hconf eq_refl)|]; lia.
Qed.

Lemma gcra_invalid g k t d os : gcra_valid (g_quota g) = false → conformed g k t d os = 0%nat.
Proof.
  revert g. induction os as [|[k' now|now] os IH]; intros g Hv; cbn; [done| |].
  - unfold gcra_check. rewrite Hv. destruct (g_quota g) eqn:Hg. cbn. rewrite andb_false_r. apply IH. by rewrite Hg.
  - apply IH. by destruct g.
Qed.

#[export] Instance gcra_laws : KeyedLimitersLaws.
Proof.
  split.
  - intros [period burst] os k t d Hs Hd. cbn [conforming_cells RateLimiter_keyed gcra_limiters].
    destruct (gcra_valid (period, burst)) eqn:Hv; [|rewrite gcra_invalid; [done|done]].
    apply andb_true_iff in Hv as [Hp%Z.ltb_lt Hb%Z.leb_le]. cbn in Hp, Hb. cbn [fst snd].
    destruct os as [|o os]; [cbn; pose proof (Z.div_pos d period Hd Hp); lia|].
    set (lo := Z.min t (op_time o)).
    assert (StronglySorted Z.le (lo :: map op_time (o :: os))) as Hs'.
    { constructor; [done|]. cbn in Hs |- *. apply StronglySorted_inv in Hs as [_ Hf].
      constructor; [lia|]. eapply Forall_impl; [exact Hf|]. cbn. lia. }
    pose proof (gcra_conformed (mk_Gcra (period, burst) []) k t d (o :: os) lo period burst eq_refl Hp Hb Hd Hs') as Hc.
    unfold tat_from in Hc. cbn [g_tats tat_of default] in Hc. replace (Z.max t lo) with t in Hc by lia.
    revert Hc. generalize (conformed (mk_Gcra (period, burst) []) k t d (o :: os)). intros n Hc.
    Z.to_euclidean_division_equations. nia.
  - intros l k t e. cbn. unfold gcra_check. destruct (g_quota l). by destruct (_ || _).
Qed.

End Gcra.

(** * Witnesses *)

(** Only the pattern [**] and literal paths. *)
#[local] Instance demo_glob : GlobMatcher :=
  {| glob_match pattern path := bool_decide (pattern = lit "**") || bool_decide (pattern = path) |}.

#[local] Existing Instance demo_keys.
#[local] Existing Instance demo_governor.

Definition demo_cfg : list PathLimit :=
  [mk_PathLimit (lit "**") (lit "PUT") (mk_RequestCountQuota 100 Hour) KeyUser None [];
   mk_PathLimit (lit "/session") (lit "POST") (mk_RequestCountQuota 1 Minute) KeyIp None [LimitIp (V4 127 0 0 1)];
   mk_PathLimit (lit "**") (lit "PUT") (mk_RequestCountQuota 1 Second) KeyUser None []].

Definition demo_limits : list LimitTuple := default [] (ok (RequestRateLimitLayer_from_path_limits demo_cfg)).

Definition demo_put : LimitedRequest :=
  mk_LimitedRequest (lit "PUT") (lit "/pub/a") (Some (mk_RequestTenant true None))
    (mk_RequestAddress None (Some (V4 10 0 0 1))) None.

Definition at_time (t : Z) (_ : nat) : Z * Z := (t, t).

(** The third request of one instant is refused by the limit of one request a
    second, which was configured last and is asked first; no limit is charged
    for it. *)
Lemma request_limit_outcome_witness :
  let run := foldl layer_step demo_limits [Incoming demo_put (at_time 0); Incoming demo_put (at_time 0)] in
  let c := RequestRateLimit_call (at_time 0) run demo_put in
  c.1 = Err (HttpError_too_many_requests (lit "Rate limit exceeded") 1) ∧
  map (λ l, map snd (g_tats (lt_limiter l))) c.2 = [[2000000000; 1000000000]; []; [72000000000; 36000000000]] ∧
  map lt_limit c.2 = map lt_limit run.
Proof.
  intros run c. split; [vm_compute; reflexivity|]. split; [vm_compute; reflexivity|].
  refine (proj1 (request_limit_outcome demo_cfg demo_limits run (at_time 0) demo_put c.1 c.2 _ _ _)).
  - reflexivity.
  - vm_compute. reflexivity.
  - apply surjective_pairing.
Defined.

Lemma rate_limit_enforced_witness :
  let ops := map (λ n, Incoming demo_put (at_time (1000 * Z.of_nat n))) (seq 0 6) in
  let limit := mk_PathLimit (lit "**") (lit "PUT") (mk_RequestCountQuota 1 Second) KeyUser None [] in
  served demo_limits 0 limit (LimitUser true) 0 5000 ops = 2%nat ∧
  ∃ q, PathLimit_try_into_governor (mk_RequestCountQuota 1 Second) None = Ok q ∧
    Z.of_nat (served demo_limits 0 limit (LimitUser true) 0 5000 ops) ≤ conforming_cells q 5000.
Proof.
  intros ops limit. split; [vm_compute; reflexivity|].
  refine (rate_limit_enforced demo_cfg demo_limits 0 (mk_LimitTuple limit (mk_Gcra (1000000000, 1) [])) _ _ _ _ _ _ _ _).
  - reflexivity.
  - reflexivity.
  - cbn. repeat constructor; lia.
  - lia.
Defined.
