(* ===== verification/BandwidthLimits.v ===== *)
(** The bandwidth limiter: the pools of limiters per rate
    ([pubky-homeserver/src/client_server/middleware/rate_limiter/limiter_pool.rs]),
    the choice of a limiter for a request ([bandwidth_rate_limit.rs],
    [request_info.rs]) and the throttled body stream ([throttle.rs]).

    A limiter is shared by the pool and by every body stream it throttles
    ([Arc]): limiters live in a store and are named by their position in it. *)

From S2P Require Import Prelude StoragePath Keys HttpError Tenant Quota Database Users Authorization ClientAddress RequestLimits.

Section Bandwidth.
Context `{KeyedLimiters} `{JsonStrings}.
(** Whether the build traps integer overflow ([debug_assertions]). *)
Variable overflow_checks : bool.

Local Abbreviation QuotaCache := (list (PublicKey * CachedEntry)).

(** * The pools *)

Definition SpeedLimitKey : Type := BandwidthQuota * option Z.

Definition LimiterPool : Type := list (SpeedLimitKey * nat).

Fixpoint pool_entry (key : SpeedLimitKey) (pool : LimiterPool) : option nat :=
  match pool with
  | [] => None
  | (k, a) :: pool' => if decide (k = key) then Some a else pool_entry key pool'
  end.

(** [LimiterPool::get_or_create]; the conversion of the rate may panic. *)
Definition LimiterPool_get_or_create (rate : BandwidthQuota) (burst : option Z) (pool : LimiterPool)
    (store : list KeyedRateLimiter) : result Panic (nat * LimiterPool * list KeyedRateLimiter) :=
  match pool_entry (rate, burst) pool with
  | Some a => Ok (a, pool, store)
  | None =>
      quota ← BandwidthQuota_to_governor_quota overflow_checks rate burst;
      Ok (length store, ((rate, burst), length store) :: pool, store ++ [RateLimiter_keyed quota])
  end.

(** One round of the cleanup task of [LimiterPool::new]: limiters forget the
    keys whose bucket is full, and a limiter without keys leaves the pool. *)
Definition cleanup_entry (now : Z) (entry : SpeedLimitKey * nat) (s : LimiterPool * list KeyedRateLimiter)
    : LimiterPool * list KeyedRateLimiter :=
  let '(pool, store) := s in
  let store := alter (retain_recent now) (entry.2) store in
  match store !! entry.2 with
  | Some limiter => (if limiter_is_empty limiter then pool else entry :: pool, store)
  | None => (pool, store)
  end.

Definition LimiterPool_cleanup (now : Z) (pool : LimiterPool) (store : list KeyedRateLimiter)
    : LimiterPool * list KeyedRateLimiter :=
  foldr (cleanup_entry now) ([], store) pool.

(** * The state of the layer *)

Record BandwidthState := mk_BandwidthState {
  bs_defaults : DefaultQuotasToml;
  bs_store : list KeyedRateLimiter;
  bs_user_read_limiters : LimiterPool;
  bs_user_write_limiters : LimiterPool;
  bs_unauthenticated_read_limiter : option nat
}.

Definition BandwidthState_new (defaults : DefaultQuotasToml) : result Panic BandwidthState :=
  match dq_unauthenticated_ip_rate_read defaults with
  | Some rate =>
      quota ← BandwidthQuota_to_governor_quota overflow_checks rate None;
      Ok (mk_BandwidthState defaults [RateLimiter_keyed quota] [] [] (Some 0%nat))
  | None => Ok (mk_BandwidthState defaults [] [] [] None)
  end.

Definition should_limit (self : BandwidthState) (req : LimitedRequest) : bool :=
  let has_user := bool_decide (is_Some (lr_tenant req)) in
  let has_bandwidth := bool_decide (is_Some (bs_unauthenticated_read_limiter self)) in
  has_user || has_bandwidth.

(** ** Request metadata *)

Record RequestInfo := mk_RequestInfo {
  ri_method : str;
  ri_user_pubkey : option PublicKey;
  ri_client_ip : result MissingClientAddress IpAddr
}.

Definition authenticated_pubkey (req : LimitedRequest) : option PublicKey := AuthSession_user_key <$> lr_session req.

Definition RequestInfo_from_request (req : LimitedRequest) : RequestInfo :=
  mk_RequestInfo (lr_method req) (authenticated_pubkey req) (extract_ip (lr_address req)).

Definition is_write_method (method : str) : bool :=
  bool_decide (method ∈ [lit "PUT"; lit "POST"; lit "PATCH"; lit "DELETE"]).

(** ** Choosing a limiter *)

(** A throttler is a key and the limiter it is charged to. *)
Definition ip_throttler (self : BandwidthState) (client_ip : result MissingClientAddress IpAddr)
    : result HttpError (option (LimitKey * nat)) :=
  match bs_unauthenticated_read_limiter self with
  | None => Ok None
  | Some limiter =>
      ip ← map_err (λ _, HttpError_new_with_message 500 (lit "Missing client address for rate limiting")) client_ip;
      Ok (Some (LimitIp ip, limiter))
  end.

Definition set_pool (is_write : bool) (pool : LimiterPool) (store : list KeyedRateLimiter) (self : BandwidthState)
    : BandwidthState :=
  mk_BandwidthState (bs_defaults self) store
    (if is_write then bs_user_read_limiters self else pool)
    (if is_write then pool else bs_user_write_limiters self)
    (bs_unauthenticated_read_limiter self).

(** The outer result is a panic of the request's task. *)
Definition resolve_bandwidth_throttler (now : Z) (info : RequestInfo) (self : BandwidthState) (c : QuotaCache)
    (w : World) : result Panic (result HttpError (option (LimitKey * nat))) * BandwidthState * QuotaCache * World :=
  match ri_user_pubkey info with
  | None => (Ok (ip_throttler self (ri_client_ip info)), self, c, w)
  | Some pubkey =>
      let '(quota, c, w) := resolve_quota now pubkey c w in
      match quota with
      | Err _ =>
          (Ok (Err (HttpError_new_with_message 500 (lit "Failed to resolve user limits"))), self, c, w)
      | Ok None => (Ok (ip_throttler self (ri_client_ip info)), self, c, w)
      | Ok (Some quota) =>
          let is_write := is_write_method (ri_method info) in
          let '(rate_override, default_rate, user_burst, default_burst, pool) :=
            if is_write then
              (rate_write quota, dq_rate_write (bs_defaults self), rate_write_burst quota,
               dq_rate_write_burst (bs_defaults self), bs_user_write_limiters self)
            else
              (rate_read quota, dq_rate_read (bs_defaults self), rate_read_burst quota,
               dq_rate_read_burst (bs_defaults self), bs_user_read_limiters self) in
          match QuotaOverride_resolve_with_default rate_override default_rate with
          | None => (Ok (Ok None), self, c, w)
          | Some rate =>
              let burst := match user_burst with Some b => Some b | None => default_burst end in
              match LimiterPool_get_or_create rate burst pool (bs_store self) with
              | Ok (limiter, pool, store) =>
                  (Ok (Ok (Some (LimitUser pubkey, limiter))), set_pool is_write pool store self, c, w)
              | Err p => (Err p, self, c, w)
              end
          end
      end
  end.

(** [BandwidthQuotaLimitMiddleware::call] up to the call of the inner service:
    the throttler that wraps the request's and then the response's body. *)
Definition BandwidthQuotaLimit_call (now : Z) (req : LimitedRequest) (self : BandwidthState) (c : QuotaCache)
    (w : World) : result Panic (result HttpError (option (LimitKey * nat))) * BandwidthState * QuotaCache * World :=
  if negb (should_limit self req) then (Ok (Ok None), self, c, w)
  else resolve_bandwidth_throttler now (RequestInfo_from_request req) self c w.

(** The cleanup tasks of the two pools and of the address limiter. *)
Inductive LimiterTask := ReadPoolTask | WritePoolTask | AddressTask.

Definition bandwidth_cleanup (task : LimiterTask) (now : Z) (self : BandwidthState) : BandwidthState :=
  match task with
  | ReadPoolTask =>
      let '(pool, store) := LimiterPool_cleanup now (bs_user_read_limiters self) (bs_store self) in
      set_pool false pool store self
  | WritePoolTask =>
      let '(pool, store) := LimiterPool_cleanup now (bs_user_write_limiters self) (bs_store self) in
      set_pool true pool store self
  | AddressTask =>
      match bs_unauthenticated_read_limiter self with
      | Some a =>
          mk_BandwidthState (bs_defaults self) (alter (retain_recent now) a (bs_store self))
            (bs_user_read_limiters self) (bs_user_write_limiters self) (Some a)
      | None => self
      end
  end.

(** * The throttled body *)

(** A body stream: the chunks still to come from the inner body ([Err] is a
    failure of that body), and the chunk that waits for its cells with the
    number of cells it still needs. *)
Record BodyStream := mk_BodyStream {
  b_key : LimitKey;
  b_current : option (list Z * nat);
  b_rest : list (result () (list Z))
}.

Definition throttle_body (key : LimitKey) (body : list (result () (list Z))) : BodyStream :=
  mk_BodyStream key None body.

(** [bytes.len().div_ceil(1024)]. *)
Definition chunk_kilobytes (bytes : list Z) : nat := ((length bytes + 1023) / 1024)%nat.

(** One poll of the stream at an instant: it takes the next chunk, or asks for
    one cell (and waits when the limiter refuses), or hands the chunk on.  A
    limiter of the code always has room for one cell, so that the wait never
    fails for lack of capacity. *)
Definition poll_body (now : Z) (s : BodyStream) (limiter : KeyedRateLimiter)
    : option (result () (list Z)) * BodyStream * KeyedRateLimiter :=
  match b_current s with
  | None =>
      match b_rest s with
      | [] => (None, s, limiter)
      | Err e :: rest => (Some (Err e), mk_BodyStream (b_key s) None rest, limiter)
      | Ok bytes :: rest => (None, mk_BodyStream (b_key s) (Some (bytes, chunk_kilobytes bytes)) rest, limiter)
      end
  | Some (bytes, O) => (Some (Ok bytes), mk_BodyStream (b_key s) None (b_rest s), limiter)
  | Some (bytes, S n) =>
      let '(r, limiter) := check_key (b_key s) now limiter in
      (None, match r with Ok _ => mk_BodyStream (b_key s) (Some (bytes, n)) (b_rest s) | Err _ => s end, limiter)
  end.

End Bandwidth.
