(* ===== verification/BandwidthProofs.v ===== *)
(** Correctness of the bandwidth limiter: throttled bodies are passed on
    unchanged and within the rate, every request gets the limiter of its
    effective rate, and a run in which a cleanup lets a user exceed it. *)

From S2P Require Import Prelude StoragePath Keys HttpError Tenant Quota Database Users Authorization ClientAddress RequestLimits LimitProofs BandwidthLimits.

(** * Streams throttled by one limiter *)

Section Streams.
Context `{KeyedLimitersLaws}.

(** What happens around one limiter: a stream is opened on it, a stream is
    polled, or the limiter is asked or cleaned by someone else. *)
Inductive ThrottleOp :=
| OpenStream (key : LimitKey) (body : list (result () (list Z)))
| PollStream (i : nat) (now : Z)
| OtherOp (o : LimiterOp).

(** One step, and what it delivers: the stream, its key, and the chunk or
    failure. *)
Definition throttle_step (o : ThrottleOp) (streams : list BodyStream) (limiter : KeyedRateLimiter)
    : option (nat * LimitKey * result () (list Z)) * list BodyStream * KeyedRateLimiter :=
  match o with
  | OpenStream key body => (None, streams ++ [throttle_body key body], limiter)
  | PollStream i now =>
      match streams !! i with
      | Some s =>
          let '(out, s', limiter') := poll_body now s limiter in
          (((i, b_key s),.) <$> out, <[i := s']> streams, limiter')
      | None => (None, streams, limiter)
      end
  | OtherOp o => (None, streams, limiter_step limiter o)
  end.

Fixpoint throttle_run (ops : list ThrottleOp) (streams : list BodyStream) (limiter : KeyedRateLimiter)
    : list (nat * LimitKey * result () (list Z)) * list BodyStream * KeyedRateLimiter :=
  match ops with
  | [] => ([], streams, limiter)
  | o :: ops' =>
      let '(out, streams, limiter) := throttle_step o streams limiter in
      let '(outs, streams, limiter) := throttle_run ops' streams limiter in
      (option_list out ++ outs, streams, limiter)
  end.

Definition throttle_times (ops : list ThrottleOp) : list Z :=
  omap (λ o, match o with OpenStream _ _ => None | PollStream _ t => Some t | OtherOp o => Some (op_time o) end) ops.

(** ** The data *)

Definition delivered (i : nat) (outs : list (nat * LimitKey * result () (list Z))) : list (result () (list Z)) :=
  map snd (filter (λ x, x.1.1 = i) outs).

(** The chunks a stream has still to deliver. *)
Definition pending (s : BodyStream) : list (result () (list Z)) :=
  match b_current s with Some (bytes, _) => [Ok bytes] | None => [] end ++ b_rest s.

Lemma poll_body_pending now s l :
  pending s = option_list (poll_body now s l).1.1 ++ pending (poll_body now s l).1.2.
Proof.
  destruct s as [k [[bytes [|n]]|] rest]; cbn; [done| |].
  - destruct (check_key k now l) as [[|] ?]; done.
  - destruct rest as [|[bytes|e] rest]; done.
Qed.

Lemma delivered_app i o1 o2 : delivered i (o1 ++ o2) = delivered i o1 ++ delivered i o2.
Proof. unfold delivered. by rewrite filter_app, map_app. Qed.

Lemma delivered_out i j k (out : option (result () (list Z))) :
  delivered i (option_list (((j, k),.) <$> out)) = if decide (j = i) then option_list out else [].
Proof.
  unfold delivered. destruct out as [r|]; [|by case_decide].
  change (option_list (((j, k),.) <$> Some r)) with [(j, k, r)]. rewrite filter_cons. cbn. by case_decide.
Qed.

Lemma throttle_step_pending i o streams l s :
  streams !! i = Some s →
  let '(out, streams', _) := throttle_step o streams l in
  ∃ s', streams' !! i = Some s' ∧ pending s = delivered i (option_list out) ++ pending s'.
Proof.
  intros Hi. destruct o as [key body|j now|o]; cbn.
  - exists s. split; [|done]. by apply lookup_app_l_Some.
  - destruct (streams !! j) as [sj|] eqn:Hj; [|by exists s].
    pose proof (poll_body_pending now sj l) as Hp.
    destruct (poll_body now sj l) as [[out s'] l']. cbn in Hp. destruct (decide (j = i)) as [->|Hne].
    + assert (sj = s) as -> by congruence. exists s'. split; [apply list_lookup_insert_eq; by eapply lookup_lt_Some|].
      by rewrite delivered_out, decide_True.
    + exists s. split; [by rewrite list_lookup_insert_ne|]. by rewrite delivered_out, decide_False.
  - by exists s.
Qed.

Lemma throttle_run_pending i ops streams l s :
  streams !! i = Some s →
  let '(outs, streams', _) := throttle_run ops streams l in
  ∃ s', streams' !! i = Some s' ∧ pending s = delivered i outs ++ pending s'.
Proof.
  revert streams l s. induction ops as [|o ops IH]; intros streams l s Hi; cbn [throttle_run]; [by exists s|].
  pose proof (throttle_step_pending i o streams l s Hi) as Hs.
  destruct (throttle_step o streams l) as [[out streams1] l1]. destruct Hs as (s1 & Hi1 & Hp1).
  specialize (IH streams1 l1 s1 Hi1). destruct (throttle_run ops streams1 l1) as [[outs streams2] l2].
  destruct IH as (s2 & Hi2 & Hp2). exists s2. split; [done|]. by rewrite delivered_app, <-app_assoc, <-Hp2.
Qed.

(** ** The rate *)

(** What was delivered for a key, in bytes and in cells. *)
Definition bytes_for (k : LimitKey) (outs : list (nat * LimitKey * result () (list Z))) : nat :=
  sum_list_with (λ x, match x with
                      | (_, k', Ok bytes) => if decide (k' = k) then length bytes else 0%nat
                      | _ => 0%nat
                      end) outs.
Definition cells_for (k : LimitKey) (outs : list (nat * LimitKey * result () (list Z))) : nat :=
  sum_list_with (λ x, match x with
                      | (_, k', Ok bytes) => if decide (k' = k) then chunk_kilobytes bytes else 0%nat
                      | _ => 0%nat
                      end) outs.

Lemma chunk_kilobytes_cover bytes : (length bytes ≤ 1024 * chunk_kilobytes bytes)%nat.
Proof.
  unfold chunk_kilobytes. pose proof (Nat.div_mod_eq (length bytes + 1023) 1024).
  pose proof (Nat.mod_upper_bound (length bytes + 1023) 1024 ltac:(lia)). lia.
Qed.

Lemma bytes_within_cells k outs : (bytes_for k outs ≤ 1024 * cells_for k outs)%nat.
Proof.
  unfold bytes_for, cells_for. induction outs as [|[[i k'] [bytes|]] outs IH]; cbn [sum_list_with]; [lia| |lia].
  pose proof (chunk_kilobytes_cover bytes). case_decide; lia.
Qed.

(** The cells a stream has taken for the chunk it holds back. *)
Definition paid (s : BodyStream) : nat :=
  match b_current s with Some (bytes, n) => chunk_kilobytes bytes - n | None => 0 end.
Definition paid_for (k : LimitKey) (streams : list BodyStream) : nat :=
  sum_list_with (λ s, if decide (b_key s = k) then paid s else 0%nat) streams.
Definition stream_ok (s : BodyStream) : Prop :=
  match b_current s with Some (bytes, n) => (n ≤ chunk_kilobytes bytes)%nat | None => True end.

Lemma sum_list_with_insert {A} (f : A → nat) l i x y :
  l !! i = Some x → (sum_list_with f (<[i := y]> l) + f x = sum_list_with f l + f y)%nat.
Proof.
  revert i. induction l as [|z l IH]; intros i; [done|]. destruct i as [|i].
  - intros [= ->]. cbn. lia.
  - intros Hi. specialize (IH i Hi). change (<[S i:=y]> (z :: l)) with (z :: <[i:=y]> l). cbn [sum_list_with]. lia.
Qed.

Lemma cells_for_app k o1 o2 : cells_for k (o1 ++ o2) = (cells_for k o1 + cells_for k o2)%nat.
Proof. unfold cells_for. by rewrite sum_list_with_app. Qed.

(** A poll takes at most one cell, and what it delivers was paid for. *)
Lemma poll_body_paid i now s l k t d :
  stream_ok s → t ≤ now ≤ t + d →
  let '(out, s', l') := poll_body now s l in
  stream_ok s' ∧ b_key s' = b_key s ∧
  ∃ os, sublist (map op_time os) [now] ∧ l' = limiter_run l os ∧
    (cells_for k (option_list (((i, b_key s),.) <$> out)) + (if decide (b_key s = k) then paid s' else 0)
     ≤ (if decide (b_key s = k) then paid s else 0) + conformed l k t d os)%nat.
Proof.
  intros Hs Hnow. destruct s as [k' [[bytes [|n]]|] rest]; cbn [poll_body b_current b_key b_rest].
  - split; [done|]. split; [done|]. exists []. split; [apply sublist_nil_l|]. split; [done|].
    cbn. case_decide; unfold paid; cbn; lia.
  - destruct (check_key k' now l) as [r l'] eqn:Hc. unfold stream_ok in Hs |- *. cbn in Hs.
    split; [destruct r; cbn; lia|]. split; [by destruct r|]. exists [CheckKey k' now]. split; [done|].
    split; [cbn; by rewrite Hc|]. cbn. rewrite Hc. cbn.
    destruct r as [[]|]; cbn [is_ok]; [|rewrite andb_false_r; cbn; lia]. unfold paid. cbn. case_decide as Hk; [|lia].
    rewrite bool_decide_true by done. replace (t <=? now) with true by (symmetry; apply Z.leb_le; lia).
    replace (now <=? t + d) with true by (symmetry; apply Z.leb_le; lia). cbn. lia.
  - destruct rest as [|[bytes|e] rest]; (split; [unfold stream_ok; cbn; try done; lia|]); (split; [done|]);
      exists []; (split; [apply sublist_nil_l|]); (split; [done|]); unfold paid; cbn; case_decide; lia.
Qed.

Lemma throttle_step_paid o streams l k t d :
  Forall stream_ok streams → Forall (λ x, t ≤ x ≤ t + d) (throttle_times [o]) →
  let '(out, streams', l') := throttle_step o streams l in
  Forall stream_ok streams' ∧
  ∃ os, sublist (map op_time os) (throttle_times [o]) ∧ l' = limiter_run l os ∧
    (cells_for k (option_list out) + paid_for k streams' ≤ paid_for k streams + conformed l k t d os)%nat.
Proof.
  intros Hs Ht. destruct o as [key body|i now|o]; cbn [throttle_step throttle_times omap list_omap] in *.
  - split; [apply Forall_app; split; [done|by repeat constructor]|]. exists []. split; [done|]. split; [done|].
    unfold paid_for. rewrite sum_list_with_app. cbn. case_decide; cbn; lia.
  - apply Forall_cons in Ht as [Ht _]. destruct (streams !! i) as [s|] eqn:Hi.
    2:{ split; [done|]. exists []. split; [apply sublist_nil_l|]. split; [done|]. cbn. lia. }
    pose proof (poll_body_paid i now s l k t d ltac:(by eapply Forall_lookup_1) Ht) as Hp.
    destruct (poll_body now s l) as [[out s'] l']. destruct Hp as (Hok & Hk & os & Hsub & -> & Hle).
    split; [by apply Forall_insert|]. exists os. split; [done|]. split; [done|]. unfold paid_for.
    pose proof (sum_list_with_insert (λ s, if decide (b_key s = k) then paid s else 0%nat) streams i s s' Hi) as Hsum.
    cbn beta in Hsum. rewrite Hk in Hsum. lia.
  - split; [done|]. exists [o]. split; [done|]. split; [done|]. cbn. lia.
Qed.

Lemma throttle_run_paid ops streams l k t d :
  Forall stream_ok streams → Forall (λ x, t ≤ x ≤ t + d) (throttle_times ops) →
  let '(outs, streams', l') := throttle_run ops streams l in
  ∃ os, sublist (map op_time os) (throttle_times ops) ∧ l' = limiter_run l os ∧
    (cells_for k outs + paid_for k streams' ≤ paid_for k streams + conformed l k t d os)%nat.
Proof.
  revert streams l. induction ops as [|o ops IH]; intros streams l Hs Ht; cbn [throttle_run].
  { exists []. split; [done|]. split; [done|cbn; lia]. }
  unfold throttle_times in Ht |- *. change (o :: ops) with ([o] ++ ops) in Ht |- *.
  rewrite omap_app in Ht |- *. apply Forall_app in Ht as [Ho Hops].
  pose proof (throttle_step_paid o streams l k t d Hs Ho) as Hst.
  destruct (throttle_step o streams l) as [[out streams1] l1]. destruct Hst as (Hs1 & os1 & Hsub1 & -> & Hle1).
  specialize (IH streams1 (limiter_run l os1) Hs1 Hops).
  destruct (throttle_run ops streams1 (limiter_run l os1)) as [[outs streams2] l2].
  destruct IH as (os2 & Hsub2 & -> & Hle2). exists (os1 ++ os2). split; [rewrite map_app; by apply sublist_app|].
  split; [unfold limiter_run; by rewrite foldl_app|]. rewrite cells_for_app, conformed_app. lia.
Qed.

(** Throttling changes when a body arrives and nothing else: whatever
    streams share a limiter, in whatever order they are polled and whoever
    else uses or cleans the limiter, a stream delivers exactly the chunks of
    its body in order, each held back until it is paid for; and the bytes
    delivered for one key by the streams opened within a window are at most
    1024 times the cells the limiter's quota allows in that window. *)
Theorem throttled_bodies q history ops t d k i s streams :
  let l := limiter_run (RateLimiter_keyed q) history in
  let '(outs, streams', _) := throttle_run ops streams l in
  StronglySorted Z.le (map op_time history ++ throttle_times ops) → 0 ≤ d →
  Forall (λ x, t ≤ x ≤ t + d) (throttle_times ops) →
  streams !! i = Some s → Forall (λ s, b_current s = None) streams →
  (∃ s', streams' !! i = Some s' ∧ b_rest s = delivered i outs ++ pending s') ∧
  Z.of_nat (bytes_for k outs) ≤ 1024 * conforming_cells q d.
Proof.
  intros l. destruct (throttle_run ops streams l) as [[outs streams'] l'] eqn:Hr. intros Hsort Hd Ht Hi Hf. split.
  - pose proof (throttle_run_pending i ops streams l s Hi) as Hp. rewrite Hr in Hp.
    destruct Hp as (s' & Hi' & Hp). exists s'. split; [done|]. rewrite <-Hp. unfold pending.
    rewrite Forall_lookup in Hf. by rewrite (Hf i s Hi).
  - assert (Forall stream_ok streams) as Hok.
    { eapply Forall_impl; [exact Hf|]. intros x Hx. unfold stream_ok. by rewrite Hx. }
    pose proof (throttle_run_paid ops streams l k t d Hok Ht) as Hp. rewrite Hr in Hp.
    destruct Hp as (os & Hsub & _ & Hle).
    assert (paid_for k streams = 0%nat) as Hz.
    { clear -Hf. unfold paid_for. induction Hf as [|x streams Hx _ IH]; [done|]. cbn. unfold paid at 1. rewrite Hx.
      by case_decide. }
    pose proof (keyed_conforms q (history ++ os) k t d) as Hq. rewrite conformed_app, map_app in Hq.
    fold l in Hq. pose proof (bytes_within_cells k outs).
    assert (StronglySorted Z.le (map op_time history ++ map op_time os)) as Hs.
    { eapply StronglySorted_sublist; [|exact Hsort]. by apply sublist_app. }
    specialize (Hq Hs Hd). lia.
Qed.

End Streams.

(** * The limiter of a request *)

Section Choice.
Context `{KeyedLimiters} `{JsonStrings}.
Variable overflow_checks : bool.
Local Abbreviation QuotaCache := (list (PublicKey * CachedEntry)).
Local Abbreviation to_quota key := (BandwidthQuota_to_governor_quota overflow_checks key.1 key.2).

(** The limiter was made for this rate and burst, and only used since. *)
Definition limiter_of (key : SpeedLimitKey) (l : KeyedRateLimiter) : Prop :=
  ∃ q os, to_quota key = Ok q ∧ l = limiter_run (RateLimiter_keyed q) os.

Definition addresses (s : BandwidthState) : list nat :=
  option_list (bs_unauthenticated_read_limiter s) ++ map snd (bs_user_read_limiters s)
  ++ map snd (bs_user_write_limiters s).

(** Which limiters a state may charge, and for which rate. *)
Definition in_charge (s : BandwidthState) (key : SpeedLimitKey) (a : nat) : Prop :=
  (key, a) ∈ bs_user_read_limiters s ∨ (key, a) ∈ bs_user_write_limiters s ∨
  bs_unauthenticated_read_limiter s = Some a ∧ key.2 = None ∧
    dq_unauthenticated_ip_rate_read (bs_defaults s) = Some key.1.

(** No two entries share a limiter, not even across the pools; no pool has two
    entries for one rate; and every limiter has the quota of its entry. *)
Definition bandwidth_wf (s : BandwidthState) : Prop :=
  NoDup (addresses s) ∧ NoDup (map fst (bs_user_read_limiters s)) ∧ NoDup (map fst (bs_user_write_limiters s)) ∧
  (is_Some (bs_unauthenticated_read_limiter s) ↔ is_Some (dq_unauthenticated_ip_rate_read (bs_defaults s))) ∧
  ∀ key a, in_charge s key a → ∃ l, bs_store s !! a = Some l ∧ limiter_of key l.

Lemma limiter_of_step key l o : limiter_of key l → limiter_of key (limiter_step l o).
Proof.
  intros (q & os & Hq & ->). exists q, (os ++ [o]). split; [done|]. unfold limiter_run. by rewrite foldl_app.
Qed.

(** A use of any limiter of the store keeps the invariant. *)
Definition use_limiter (a : nat) (o : LimiterOp) (s : BandwidthState) : BandwidthState :=
  mk_BandwidthState (bs_defaults s) (alter (λ l, limiter_step l o) a (bs_store s))
    (bs_user_read_limiters s) (bs_user_write_limiters s) (bs_unauthenticated_read_limiter s).

Definition store_keeps (st st' : list KeyedRateLimiter) : Prop :=
  ∀ key a l, st !! a = Some l → limiter_of key l → ∃ l', st' !! a = Some l' ∧ limiter_of key l'.

Lemma store_keeps_use a o st : store_keeps st (alter (λ l, limiter_step l o) a st).
Proof.
  intros key b l Hb Hl. destruct (decide (a = b)) as [->|].
  - exists (limiter_step l o). split; [by rewrite list_lookup_alter_eq, Hb|by apply limiter_of_step].
  - exists l. by rewrite list_lookup_alter_ne.
Qed.

Lemma store_keeps_refl st : store_keeps st st.
Proof. intros key a l ? ?. by exists l. Qed.

Lemma store_keeps_trans st1 st2 st3 : store_keeps st1 st2 → store_keeps st2 st3 → store_keeps st1 st3.
Proof. intros H12 H23 key a l Ha Hl. destruct (H12 _ _ _ Ha Hl) as (l' & ? & ?). by eapply H23. Qed.

Lemma sublist_map {A B} (f : A → B) l k : sublist l k → sublist (map f l) (map f k).
Proof. by induction 1; constructor. Qed.

(** Dropping entries while the store keeps its limiters is harmless. *)
Lemma bandwidth_wf_sub s s' :
  bandwidth_wf s → bs_defaults s' = bs_defaults s →
  bs_unauthenticated_read_limiter s' = bs_unauthenticated_read_limiter s →
  sublist (bs_user_read_limiters s') (bs_user_read_limiters s) →
  sublist (bs_user_write_limiters s') (bs_user_write_limiters s) →
  store_keeps (bs_store s) (bs_store s') → bandwidth_wf s'.
Proof.
  intros (Ha & Hr & Hw & Hu & Hl) Hd Hun Hsr Hsw Hst. unfold bandwidth_wf, addresses in *. rewrite Hun, Hd. split_and!.
  - eapply sublist_NoDup; [exact Ha|]. by repeat first [apply sublist_app | apply sublist_map | done].
  - eapply sublist_NoDup; [exact Hr|]. by apply sublist_map.
  - eapply sublist_NoDup; [exact Hw|]. by apply sublist_map.
  - exact Hu.
  - intros key a Hin. destruct (Hl key a) as (l & Hla & Hlk); [|by eapply Hst].
    unfold in_charge in *. rewrite Hun, Hd in Hin.
    destruct Hin as [Hin|[Hin|Hin]]; [left|right; left|by right; right]; by eapply elem_of_sublist.
Qed.

Lemma cleanup_entry_spec now entry pool store :
  let '(pool', store') := cleanup_entry now entry (pool, store) in
  sublist pool' (entry :: pool) ∧ store_keeps store store'.
Proof.
  unfold cleanup_entry. pose proof (store_keeps_use entry.2 (RetainRecent now) store) as Hk.
  change (λ l, limiter_step l (RetainRecent now)) with (retain_recent now) in Hk.
  destruct (alter (retain_recent now) entry.2 store !! entry.2); [|by split; [constructor|]].
  split; [|done]. destruct (limiter_is_empty _); by constructor.
Qed.

Lemma LimiterPool_cleanup_spec now pool store :
  let '(pool', store') := LimiterPool_cleanup now pool store in sublist pool' pool ∧ store_keeps store store'.
Proof.
  unfold LimiterPool_cleanup. induction pool as [|entry pool IH]; cbn [foldr]; [split; [done|apply store_keeps_refl]|].
  destruct (foldr (cleanup_entry now) ([], store) pool) as [pool1 store1]. destruct IH as [Hp Hs].
  pose proof (cleanup_entry_spec now entry pool1 store1) as He.
  destruct (cleanup_entry now entry (pool1, store1)) as [pool2 store2]. destruct He as [Hp2 Hs2].
  split; [|by eapply store_keeps_trans]. etransitivity; [exact Hp2|by constructor].
Qed.

Lemma bandwidth_cleanup_wf task now s : bandwidth_wf s → bandwidth_wf (bandwidth_cleanup task now s).
Proof.
  intros Hwf. destruct task; cbn [bandwidth_cleanup].
  - pose proof (LimiterPool_cleanup_spec now (bs_user_read_limiters s) (bs_store s)) as Hc.
    destruct (LimiterPool_cleanup _ _ _) as [pool store]. destruct Hc. by eapply bandwidth_wf_sub.
  - pose proof (LimiterPool_cleanup_spec now (bs_user_write_limiters s) (bs_store s)) as Hc.
    destruct (LimiterPool_cleanup _ _ _) as [pool store]. destruct Hc. by eapply bandwidth_wf_sub.
  - destruct (bs_unauthenticated_read_limiter s) as [a|] eqn:Ha; [|done].
    eapply bandwidth_wf_sub; [exact Hwf|done..|]. apply (store_keeps_use a (RetainRecent now)).
Qed.

Lemma pool_entry_elem key pool a : pool_entry key pool = Some a → (key, a) ∈ pool.
Proof.
  induction pool as [|[k b] pool IH]; cbn; [done|]. case_decide as Hk; [intros [= ->]; subst; by left|right; by apply IH].
Qed.

Lemma pool_entry_none key pool : pool_entry key pool = None → key ∉ map fst pool.
Proof.
  induction pool as [|[k b] pool IH]; cbn; [by intros _ ?%elem_of_nil|]. case_decide as Hk; [done|].
  intros Hn [->|Hin]%elem_of_cons; [done|]. by apply IH.
Qed.

(** What the entry of a rate is after it was asked for. *)
Lemma get_or_create_spec rate burst pool store :
  match LimiterPool_get_or_create overflow_checks rate burst pool store with
  | Ok (a, pool', store') =>
      (pool' = pool ∧ store' = store ∧ ((rate, burst), a) ∈ pool) ∨
      (∃ q, to_quota (rate, burst) = Ok q ∧ (rate, burst) ∉ map fst pool ∧ a = length store ∧
         pool' = ((rate, burst), a) :: pool ∧ store' = store ++ [RateLimiter_keyed q])
  | Err p => to_quota (rate, burst) = Err p
  end.
Proof.
  unfold LimiterPool_get_or_create. destruct (pool_entry _ _) as [a|] eqn:He.
  - left. split_and!; [done..|]. by apply pool_entry_elem.
  - cbn [fst snd]. destruct (BandwidthQuota_to_governor_quota _ _ _) as [q|p]; cbn; [|done].
    right. exists q. split_and!; try done. by apply pool_entry_none.
Qed.

Lemma addresses_lt s a : bandwidth_wf s → a ∈ addresses s → (a < length (bs_store s))%nat.
Proof.
  intros (_ & _ & _ & Hu & Hl) Hin.
  assert (∃ key, in_charge s key a) as (key & (l & Hk & _)%Hl); [|by eapply lookup_lt_Some].
  unfold addresses in Hin. rewrite !elem_of_app in Hin. destruct Hin as [Hin|[Hin|Hin]].
  - destruct (bs_unauthenticated_read_limiter s) as [b|] eqn:Hb; [|by apply elem_of_nil in Hin].
    apply list_elem_of_singleton in Hin as ->. destruct (proj1 Hu ltac:(by eexists)) as [rate Hr].
    exists (rate, None). right; right. by rewrite Hb.
  - apply list_elem_of_fmap in Hin as ([key b] & -> & Hin). exists key. by left.
  - apply list_elem_of_fmap in Hin as ([key b] & -> & Hin). exists key. by right; left.
Qed.

(** The pool a request of this direction uses. *)
Definition pool_of (is_write : bool) (s : BandwidthState) : LimiterPool :=
  if is_write then bs_user_write_limiters s else bs_user_read_limiters s.

Lemma store_keeps_snoc st l : store_keeps st (st ++ [l]).
Proof. intros key a l' Ha Hl. exists l'. split; [by apply lookup_app_l_Some|done]. Qed.

(** A new entry with a fresh limiter keeps the invariant. *)
Lemma bandwidth_wf_add is_write key q s :
  bandwidth_wf s → to_quota key = Ok q → key ∉ map fst (pool_of is_write s) →
  bandwidth_wf (set_pool is_write ((key, length (bs_store s)) :: pool_of is_write s)
                  (bs_store s ++ [RateLimiter_keyed q]) s).
Proof.
  intros Hwf Hq Hk. pose proof (addresses_lt s) as Hlt. destruct (Hwf) as (Ha & Hr & Hw & Hu & Hl).
  assert (length (bs_store s) ∉ addresses s) as Hfresh by (intros Hin; specialize (Hlt _ Hwf Hin); lia).
  assert (NoDup (length (bs_store s) :: addresses s)) as Hnd by by constructor.
  split.
  { revert Hnd. apply NoDup_Permutation_proper. unfold addresses, set_pool. cbn. destruct is_write; cbn.
    - rewrite !app_assoc. by rewrite <-Permutation_middle.
    - by rewrite <-Permutation_middle. }
  split; [destruct is_write; cbn in *; [done|by constructor]|].
  split; [destruct is_write; cbn in *; [by constructor|done]|].
  split; [done|]. intros key' a Hin.
  assert (in_charge s key' a ∨ key' = key ∧ a = length (bs_store s)) as [Hold|[-> ->]].
  { unfold in_charge in *. destruct is_write; cbn in Hin; rewrite elem_of_cons in Hin; naive_solver. }
  - destruct (Hl _ _ Hold) as (l & ? & ?). by eapply store_keeps_snoc.
  - exists (RateLimiter_keyed q). split; [cbn; by rewrite list_lookup_middle|]. by exists q, [].
Qed.

(** ** The choice *)

Definition override_of (is_write : bool) (quota : UserQuota) : QuotaOverride BandwidthQuota :=
  if is_write then rate_write quota else rate_read quota.
Definition default_of (is_write : bool) (d : DefaultQuotasToml) : option BandwidthQuota :=
  if is_write then dq_rate_write d else dq_rate_read d.
Definition burst_of (is_write : bool) (quota : UserQuota) (d : DefaultQuotasToml) : option Z :=
  let own := if is_write then rate_write_burst quota else rate_read_burst quota in
  let dflt := if is_write then dq_rate_write_burst d else dq_rate_read_burst d in
  match own with Some b => Some b | None => dflt end.

Definition effective_rate (is_write : bool) (quota : UserQuota) (d : DefaultQuotasToml) : option BandwidthQuota :=
  QuotaOverride_resolve_with_default (override_of is_write quota) (default_of is_write d).

(** The request counts as anonymous: no session, or one of an unknown user. *)
Definition anonymous (now : Z) (req : LimitedRequest) (c : QuotaCache) (w : World) : Prop :=
  match authenticated_pubkey req with
  | None => True
  | Some pubkey => (resolve_quota now pubkey c w).1.1 = Ok None
  end.

(** What the layer answers for a request, by cause. *)
Definition throttler_answer (now : Z) (req : LimitedRequest) (s : BandwidthState) (c : QuotaCache) (w : World)
    (r : result Panic (result HttpError (option (LimitKey * nat)))) (s' : BandwidthState) : Prop :=
  let is_write := is_write_method (lr_method req) in
  let d := bs_defaults s in
  let user_quota pubkey quota :=
    authenticated_pubkey req = Some pubkey ∧ (resolve_quota now pubkey c w).1.1 = Ok (Some quota) in
  match r with
  | Ok (Ok (Some (LimitUser pubkey, a))) =>
      ∃ quota rate, user_quota pubkey quota ∧ effective_rate is_write quota d = Some rate ∧
        ((rate, burst_of is_write quota d), a) ∈ pool_of is_write s'
  | Ok (Ok (Some (LimitIp ip, a))) =>
      anonymous now req c w ∧ extract_ip (lr_address req) = Ok ip ∧ bs_unauthenticated_read_limiter s = Some a
  | Ok (Ok None) =>
      (bs_unauthenticated_read_limiter s = None ∧ (lr_tenant req = None ∨ anonymous now req c w)) ∨
      ∃ pubkey quota, user_quota pubkey quota ∧ effective_rate is_write quota d = None
  | Ok (Err e) =>
      status e = 500 ∧
      (anonymous now req c w ∧ is_Some (bs_unauthenticated_read_limiter s) ∧
         extract_ip (lr_address req) = Err missing_client_address ∨
       ∃ pubkey sql, authenticated_pubkey req = Some pubkey ∧ (resolve_quota now pubkey c w).1.1 = Err sql)
  | Err p =>
      ∃ pubkey quota rate, user_quota pubkey quota ∧ effective_rate is_write quota d = Some rate ∧
        to_quota (rate, burst_of is_write quota d) = Err p
  end.

Lemma ip_throttler_answer now req s c w :
  anonymous now req c w →
  throttler_answer now req s c w (Ok (ip_throttler s (ri_client_ip (RequestInfo_from_request req)))) s.
Proof.
  intros Ha. unfold throttler_answer, ip_throttler. cbn.
  destruct (bs_unauthenticated_read_limiter s) as [a|] eqn:Hu; [|by left; auto].
  destruct (extract_ip (lr_address req)) as [ip|[]] eqn:Hip; cbn; [done|]. split; [done|]. left. by eauto.
Qed.

Lemma BandwidthQuotaLimit_call_spec now req s c w r s' c' w' :
  bandwidth_wf s → BandwidthQuotaLimit_call overflow_checks now req s c w = (r, s', c', w') →
  bandwidth_wf s' ∧ bs_defaults s' = bs_defaults s ∧ throttler_answer now req s c w r s'.
Proof.
  intros Hwf. unfold BandwidthQuotaLimit_call. destruct (should_limit s req) eqn:Hsl; cbn [negb].
  2:{ intros [= <- <- <- <-]. split_and!; [done..|]. left. unfold should_limit in Hsl.
      apply orb_false_iff in Hsl as [Ht Hu]. apply bool_decide_eq_false in Ht, Hu.
      apply eq_None_not_Some in Ht. apply eq_None_not_Some in Hu. auto. }
  unfold resolve_bandwidth_throttler. cbn [RequestInfo_from_request ri_user_pubkey ri_method].
  destruct (authenticated_pubkey req) as [pubkey|] eqn:Hpk.
  2:{ intros [= <- <- <- <-]. split_and!; [done..|]. apply ip_throttler_answer. unfold anonymous. by rewrite Hpk. }
  destruct (resolve_quota now pubkey c w) as [[rq c1] w1] eqn:Hq.
  assert ((resolve_quota now pubkey c w).1.1 = rq) as Hrq by by rewrite Hq.
  destruct rq as [[quota|]|sql].
  3:{ intros [= <- <- <- <-]. split_and!; [done..|]. split; [done|]. right. by eauto. }
  2:{ intros [= <- <- <- <-]. split_and!; [done..|]. apply ip_throttler_answer. unfold anonymous. by rewrite Hpk. }
  set (is_write := is_write_method (lr_method req)).
  replace (if is_write then
      (rate_write quota, dq_rate_write (bs_defaults s), rate_write_burst quota, dq_rate_write_burst (bs_defaults s),
       bs_user_write_limiters s)
    else
      (rate_read quota, dq_rate_read (bs_defaults s), rate_read_burst quota, dq_rate_read_burst (bs_defaults s),
       bs_user_read_limiters s))
    with (override_of is_write quota, default_of is_write (bs_defaults s),
      if is_write then rate_write_burst quota else rate_read_burst quota,
      if is_write then dq_rate_write_burst (bs_defaults s) else dq_rate_read_burst (bs_defaults s),
      pool_of is_write s) by by destruct is_write.
  fold (effective_rate is_write quota (bs_defaults s)). fold (burst_of is_write quota (bs_defaults s)).
  destruct (effective_rate is_write quota (bs_defaults s)) as [rate|] eqn:He.
  2:{ intros [= <- <- <- <-]. split_and!; [done..|]. right. exists pubkey, quota. done. }
  pose proof (get_or_create_spec rate (burst_of is_write quota (bs_defaults s)) (pool_of is_write s) (bs_store s)) as Hg.
  destruct (LimiterPool_get_or_create _ _ _ _ _) as [[[a pool] store]|p].
  2:{ intros [= <- <- <- <-]. split_and!; [done..|]. exists pubkey, quota, rate. done. }
  intros [= <- <- <- <-]. split; [|split; [done|]].
  - destruct Hg as [(-> & -> & _)|(q & Hto & Hn & -> & -> & ->)]; [|by apply bandwidth_wf_add].
    by destruct s, is_write.
  - exists quota, rate. split; [done|]. split; [done|]. fold is_write.
    assert (pool_of is_write (set_pool is_write pool store s) = pool) as -> by by destruct is_write.
    destruct Hg as [(-> & -> & Hin)|(q & Hto & Hn & -> & -> & ->)]; [done|by left].
Qed.

(** ** Runs of the layer *)

Inductive BandwidthOp :=
| BandwidthRequest (req : LimitedRequest) (now : Z) (c : QuotaCache) (w : World)
| BandwidthTask (task : LimiterTask) (now : Z)
| StreamUse (a : nat) (o : LimiterOp).

(** Requests come with the cache and the database of their moment. *)
Definition bandwidth_step (s : BandwidthState) (o : BandwidthOp) : BandwidthState :=
  match o with
  | BandwidthRequest req now c w => (BandwidthQuotaLimit_call overflow_checks now req s c w).1.1.2
  | BandwidthTask task now => bandwidth_cleanup task now s
  | StreamUse a o => use_limiter a o s
  end.

Lemma bandwidth_new_wf defaults s : BandwidthState_new overflow_checks defaults = Ok s → bandwidth_wf s.
Proof.
  unfold BandwidthState_new. destruct (dq_unauthenticated_ip_rate_read defaults) as [rate|] eqn:Hr.
  - destruct (BandwidthQuota_to_governor_quota _ _ _) as [q|] eqn:Hq; cbn; [|done]. intros [= <-].
    split; [apply NoDup_singleton|]. split; [constructor|]. split; [constructor|]. split; [cbn; by rewrite Hr|].
    intros [k b] a [Hin|[Hin|(Ha & Hb & Hk)]]; [by apply elem_of_nil in Hin..|]. cbn in Ha, Hb, Hk.
    injection Ha as <-. subst. rewrite Hr in Hk. injection Hk as <-. eexists. split; [done|]. by exists q, [].
  - intros [= <-]. do 3 (split; [constructor|]). split; [cbn; by rewrite Hr|].
    intros key a [Hin|[Hin|(Ha & _)]]; [by apply elem_of_nil in Hin..|done].
Qed.

Lemma bandwidth_step_wf s o : bandwidth_wf s → bandwidth_wf (bandwidth_step s o).
Proof.
  intros Hwf. destruct o as [req now c w|task now|a o]; cbn.
  - destruct (BandwidthQuotaLimit_call overflow_checks now req s c w) as [[[r s'] c'] w'] eqn:Hc.
    by eapply BandwidthQuotaLimit_call_spec in Hc as [? _].
  - by apply bandwidth_cleanup_wf.
  - eapply bandwidth_wf_sub; [exact Hwf|done..|]. apply store_keeps_use.
Qed.

(** Which limiter a request is throttled by, in every state the layer
    can reach by requests, cleanups and the use of limiters by streams.  A
    request of a known user is charged to that user on the limiter of the
    pool of its direction for the user's effective rate and burst (own
    override, else the server's default), and is not throttled when there is
    none; anyone else is charged by address on the server's limiter for
    anonymous requests, when one is configured.  Status 500 means that the
    address is missing or the quota could not be read, and a panic that the
    rate cannot be converted to a quota.  The limiter is one of the rate it
    stands for, and no two rates, directions or kinds of request ever share
    one. *)
Theorem throttler_choice defaults s0 ops now req c w r s' c' w' :
  BandwidthState_new overflow_checks defaults = Ok s0 →
  let s := foldl bandwidth_step s0 ops in
  BandwidthQuotaLimit_call overflow_checks now req s c w = (r, s', c', w') →
  throttler_answer now req s c w r s' ∧ NoDup (addresses s') ∧
  (∀ key a, in_charge s' key a → ∃ l, bs_store s' !! a = Some l ∧ limiter_of key l).
Proof.
  intros Hnew s Hc. assert (bandwidth_wf s) as Hwf.
  { unfold s. apply bandwidth_new_wf in Hnew. revert Hnew. clear. generalize s0.
    induction ops as [|o ops IH]; intros s1 Hs1; [done|]. by apply IH, bandwidth_step_wf. }
  destruct (BandwidthQuotaLimit_call_spec _ _ _ _ _ _ _ _ _ Hwf Hc) as ((Ha & _ & _ & _ & Hl) & _ & Hr).
  split; [done|]. split; [done|]. exact Hl.
Qed.

End Choice.

(** * Witnesses and a run that exceeds the rate *)

#[local] Existing Instance demo_keys.
#[local] Existing Instance demo_governor.
#[local] Existing Instance demo_json.

Definition demo_defaults : DefaultQuotasToml :=
  mk_DefaultQuotasToml (Some (mk_BandwidthQuota 1 Kilobyte Second)) None None None
    (Some (mk_BandwidthQuota 2 Kilobyte Second)).

Definition demo_bandwidth : BandwidthState :=
  default (mk_BandwidthState demo_defaults [] [] [] None) (ok (BandwidthState_new true demo_defaults)).

Definition demo_get (user : option bool) : LimitedRequest :=
  mk_LimitedRequest (lit "GET") (lit "/pub/a") (Some (mk_RequestTenant true None))
    (mk_RequestAddress None (Some (V4 10 0 0 1)))
    (match user with Some k => Some (BearerSession (mk_GrantSession k [] [] 0 [])) | None => None end).

Definition demo_quotas : list (bool * CachedEntry) := [(true, CachedEntry_found 0 UserQuota_default)].

Definition idle_world : World :=
  mk_World (mk_Tables [] [] [] [] no_auth) (mk_Seqs 1 1 1 1 1) 2000 None [].

Definition SEC : Z := 1000000000.

Lemma throttler_choice_witness :
  let c := BandwidthQuotaLimit_call true 0 (demo_get (Some true)) demo_bandwidth demo_quotas idle_world in
  c.1.1.1 = Ok (Ok (Some (LimitUser true, 1%nat))) ∧ NoDup (addresses c.1.1.2).
Proof.
  intros c. split; [vm_compute; reflexivity|].
  refine (proj1 (proj2 (throttler_choice true demo_defaults demo_bandwidth [] 0 (demo_get (Some true)) demo_quotas
    idle_world c.1.1.1 c.1.1.2 c.1.2 c.2 _ _))).
  - reflexivity.
  - reflexivity.
Defined.

Lemma throttled_bodies_witness :
  let l := limiter_run (RateLimiter_keyed (SEC, 1)) [] in
  let streams := [throttle_body (LimitUser true) [Ok (repeat 7 1500); Ok [1; 2; 3]]] in
  let ops := map (λ n, PollStream 0 (Z.of_nat n * 500000000)) (seq 0 9) in
  let run := throttle_run ops streams l in
  bytes_for (LimitUser true) run.1.1 = 1503%nat ∧
  Z.of_nat (bytes_for (LimitUser true) run.1.1) ≤ 1024 * conforming_cells (SEC, 1) (4 * SEC).
Proof.
  intros l streams ops run. split; [vm_compute; reflexivity|].
  pose proof (throttled_bodies (SEC, 1) [] ops 0 (4 * SEC) (LimitUser true) 0
    (throttle_body (LimitUser true) [Ok (repeat 7 1500); Ok [1; 2; 3]]) streams) as Ht.
  cbn zeta in Ht. fold l in Ht. fold run in Ht. destruct run as [[outs streams'] l'] eqn:Hr.
  apply Ht; [|done| |done|by repeat constructor].
  - cbn. repeat constructor; lia.
  - cbn. unfold SEC. repeat constructor; lia.
Defined.

(** One user, one rate of a cell per second with a burst of one.  A download
    starts on the limiter of the rate, pauses, and goes on at second 62; a
    cleanup finds the limiter idle at second 60 and drops it from the pool, so
    that a second download at second 61 is given a new limiter. *)
Definition split_first := bandwidth_step true demo_bandwidth (BandwidthRequest (demo_get (Some true)) 0 demo_quotas idle_world).
Definition split_state : BandwidthState :=
  foldl (bandwidth_step true) split_first
    [StreamUse 1 (CheckKey (LimitUser true) 0);
     BandwidthTask ReadPoolTask (60 * SEC);
     BandwidthRequest (demo_get (Some true)) (61 * SEC) demo_quotas idle_world].

(** Two limiters for one user and one rate: in the state above the two
    requests were given different limiters although the user's rate is the
    same, and at one instant the user gets on both together twice the cells
    the quota allows. *)
Theorem cleanup_splits_limiter :
  (BandwidthQuotaLimit_call true 0 (demo_get (Some true)) demo_bandwidth demo_quotas idle_world).1.1.1
    = Ok (Ok (Some (LimitUser true, 1%nat))) ∧
  (BandwidthQuotaLimit_call true (62 * SEC) (demo_get (Some true)) split_state demo_quotas idle_world).1.1.1
    = Ok (Ok (Some (LimitUser true, 2%nat))) ∧
  let cells a := match bs_store split_state !! a with
                 | Some l => conformed l (LimitUser true) (62 * SEC) 0 (repeat (CheckKey (LimitUser true) (62 * SEC)) 5)
                 | None => 0%nat
                 end in
  ∃ q, BandwidthQuota_to_governor_quota true (mk_BandwidthQuota 1 Kilobyte Second) None = Ok q ∧
    Z.of_nat (cells 1%nat) + Z.of_nat (cells 2%nat) = 2 * conforming_cells q 0.
Proof.
  split; [vm_compute; reflexivity|]. split; [vm_compute; reflexivity|].
  exists (SEC, 1). split; vm_compute; reflexivity.
Qed.
