(* ===== verification/ReadRoutes.v ===== *)
(** Reading: the [GET] and [HEAD] handlers with the directory listing
    ([client_server/routes/tenants/read.rs], [client_server/query_params.rs],
    the reading half of the file service). *)

From stdpp Require Import relations.
From S2P Require Import Prelude StoragePath Capabilities HttpError Keys Tenant Quota Database Users Authorization.
From S2P Require Import Entries EntryLocks Finalization Accounting AppState LockRoutes Uploads.

(** * What the handlers use of other code *)

(** Reading from the store ([opendal]): a [stat] with the length and the ETag,
    and the byte stream of a reader, conditional on an ETag if one is given. *)
Class ReadBackend `{Backend} := {
  stat_length : str → BackendState → result OpendalError (Z * option str) * BackendState;
  read_range : str → option str → Z → BackendState →
    result OpendalError (list (result () (list Z))) * BackendState;
}.

(** HTTP dates in seconds ([httpdate]), standard base 64, and what
    [HeaderValue::try_from] accepts. *)
Class HttpText := {
  http_date_to_string : Z → str;
  http_date_from_str : str → option Z;
  base64_standard : list Z → str;
  is_header_value : str → bool;
}.

Class HttpTextLaws `{HttpText} := {
  http_date_roundtrip t : 0 ≤ t → http_date_from_str (http_date_to_string t) = Some t;
  base64_inj a b : length a = 32%nat → length b = 32%nat → base64_standard a = base64_standard b → a = b;
  (** Its alphabet. *)
  base64_plain a c : c ∈ base64_standard a → is_whitespace c = false ∧ c ≠ COMMA ∧ c ≠ 34;
}.

(** PostgreSQL's [regexp_replace(text, pattern, replacement)]. *)
Class PgRegex := { regexp_replace : str → str → str → str }.

(** * Query parameters *)

(** [Query<HashMap<String, String>>]: of a repeated key the last value stands. *)
Definition query_get (params : list (str * str)) (key : str) : option str :=
  snd <$> last (filter (λ kv, kv.1 = key) params).

Record ListQueryParams := mk_ListQueryParams {
  lq_limit : option Z;
  lq_cursor : option str;
  lq_shallow : bool;
  lq_reverse : bool
}.

Definition extract_cursor (params : list (str * str)) : option str :=
  value ← query_get params (lit "cursor");
  if bool_decide (value = []) then None
  else Some (default value (strip_prefix value (lit "pubky://"))).

(** The error is the response's status and body. *)
Definition parse_bool (value : str) : result (Z * str) bool :=
  if existsb (eq_ignore_ascii_case value) [lit "true"; lit "yes"; lit "1"; []] then Ok true
  else if existsb (eq_ignore_ascii_case value) [lit "false"; lit "no"; lit "0"] then Ok false
  else Err (400, lit "Invalid boolean parameter").

Definition ListQueryParams_from_request_parts (params : list (str * str)) : result (Z * str) ListQueryParams :=
  reverse ← match query_get params (lit "reverse") with Some r => parse_bool r | None => Ok false end;
  shallow ← match query_get params (lit "shallow") with Some s => parse_bool s | None => Ok false end;
  let limit := l ← query_get params (lit "limit");
               if bool_decide (l = []) then None else parse_uint U16_MAX l in
  Ok (mk_ListQueryParams limit (extract_cursor params) shallow reverse).

(** * Responses *)

(** A body is the chunks that are sent; an [Err] breaks the connection. *)
Record ReadResponse := mk_ReadResponse {
  rr_status : Z;
  rr_headers : list (str * str);
  rr_body : list (result () (list Z))
}.

Section ReadRoutes.
Context `{PkarrKeys, JsonStrings, !Backend, !ReadBackend, HttpText, PgRegex}.

(** An HTTP date drops the fraction of the second.  Instants of the database are
    counted in whole seconds here, so that nothing is left to drop. *)
Definition to_http_date (date : Z) : Z := date.

Definition entry_etag (self : EntryEntity) : str := [34] ++ base64_standard (ee_content_hash self) ++ [34].

Definition to_response_headers (self : EntryEntity) (content_length : Z) : list (str * str) :=
  [(lit "content-length", show_uint content_length);
   (lit "last-modified", http_date_to_string (to_http_date (ee_modified_at self)));
   (lit "content-type", if is_header_value (ee_content_type self) then ee_content_type self else []);
   (lit "etag", entry_etag self);
   (lit "cache-control", lit "private, must-revalidate")].

Definition is_not_modified (headers : HeaderMap) (entry : EntryEntity) : bool :=
  match headers_get headers (lit "if-none-match") with
  | Some (Some request_etag) =>
      existsb (λ tag, bool_decide (tag = entry_etag entry)) (map trim (split COMMA (trim request_etag)))
  | _ =>
      match headers_get headers (lit "if-modified-since") with
      | Some (Some s) =>
          match http_date_from_str s with
          | Some condition_http_date => to_http_date (ee_modified_at entry) <=? condition_http_date
          | None => false
          end
      | _ => false
      end
  end.

Definition not_modified_response (entry : EntryEntity) : ReadResponse :=
  mk_ReadResponse 304
    [(lit "etag", entry_etag entry);
     (lit "last-modified", http_date_to_string (to_http_date (ee_modified_at entry)));
     (lit "cache-control", lit "private, must-revalidate")] [].

(** * The file service *)

Definition OpendalService_blob_length (path : EntryPath) : AM FileIoError Z :=
  '(length, _) ← am_map_err FileIoError_from_opendal (am_blob (stat_length (ep_key path)));
  mret length.

Definition OpendalService_get_sized_stream (path : EntryPath) : AM FileIoError (Z * list (result () (list Z))) :=
  '(length, etag) ← am_map_err FileIoError_from_opendal (am_blob (stat_length (ep_key path)));
  stream ← am_map_err FileIoError_from_opendal (am_blob (read_range (ep_key path) etag length));
  mret (length, stream).

(** * Listing *)

(** The pattern of [list_shallow]: the folder, one segment, an optional slash
    and the rest. *)
Definition shallow_pattern (dir_path : str) : str := lit "^" ++ dir_path ++ lit "([^/]*)(\/?)(.*)?$".
Definition shallow_replacement (dir_path : str) : str := dir_path ++ lit "\1\2".

Definition EntryRepository_list_shallow (path : EntryPath) (limit : option Z) (cursor : option EntryPath)
    (reverse : bool) : DB SqlError (list EntryPath) :=
  let dir_path := folder_path (as_str (ep_path path)) in
  select (λ _ tb,
    let paths := map (λ eu, e_path eu.1) (entries_of_key (ep_pubkey path) tb) in
    let matching := filter (λ p, sql_like (like_starts_with dir_path) p = true) paths in
    let regpaths := remove_dups (map (λ p, regexp_replace p (shallow_pattern dir_path) (shallow_replacement dir_path))
                                   matching) in
    let after_cursor :=
      filter (λ p, match cursor with
                   | Some c => if reverse then str_ltb p (as_str (ep_path c))
                               else str_ltb (as_str (ep_path c)) p
                   | None => true
                   end = true) regpaths in
    let rows := take (Z.to_nat (effective_list_limit limit)) (order_by (path_leb reverse) after_cursor) in
    fetch_all (λ p, storage_path ← map_err (λ _, Decode) (StoragePath_new p);
                    Ok (EntryPath_new (ep_pubkey path) storage_path)) rows).

(** [str::trim_start_matches] with a non-empty pattern; every round takes at
    least a character. *)
Fixpoint trim_start_matches_loop (fuel : nat) (pattern s : str) : str :=
  match fuel with
  | O => s
  | S fuel => match strip_prefix s pattern with
              | Some rest => trim_start_matches_loop fuel pattern rest
              | None => s
              end
  end.
Definition trim_start_matches (pattern s : str) : str := trim_start_matches_loop (length s) pattern s.

Definition list_parse_cursor (cursor : option str) : result EntryPathError (option EntryPath) :=
  match cursor with
  | None => Ok None
  | Some cursor => Some <$> EntryPath_from_str (trim_start_matches (lit "pubky://") cursor)
  end.

Definition list_route (entry_path : EntryPath) (params : ListQueryParams) : DB HttpError ReadResponse :=
  contains_dir ← sql (EntryRepository_contains_directory entry_path);
  if negb contains_dir then throw (HttpError_new_with_message 404 (lit "Directory Not Found"))
  else
    parsed_cursor ← lift_result (map_err (λ _, HttpError_new_with_message 400 (lit "Invalid cursor"))
                                   (list_parse_cursor (lq_cursor params)));
    entries ← (if lq_shallow params
               then sql (EntryRepository_list_shallow entry_path (lq_limit params) parsed_cursor (lq_reverse params))
               else sql (EntryRepository_list_deep entry_path (lq_limit params) parsed_cursor (lq_reverse params)));
    mret (mk_ReadResponse 200 [(lit "content-type", lit "text/plain")]
            [Ok (join 10 (map (λ entry, lit "pubky://" ++ ep_key entry) entries))]).

(** * The handlers *)

Definition head (session : option AuthSession) (entry_path : EntryPath) : AM HttpError ReadResponse :=
  am_lift (has_read_permission session (Some (ep_pubkey entry_path)) (ep_path entry_path)) ;;
  am_db (get_or_http_error (ep_pubkey entry_path) false) ;;
  entry ← am_map_err HttpError_from_file_io (FileService_get_info entry_path);
  blob_length ← am_map_err HttpError_from_file_io (OpendalService_blob_length entry_path);
  mret (mk_ReadResponse 200 (to_response_headers entry blob_length) []).

Definition get (headers : HeaderMap) (session : option AuthSession) (entry_path : EntryPath)
    (params : ListQueryParams) : AM HttpError ReadResponse :=
  am_lift (has_read_permission session (Some (ep_pubkey entry_path)) (ep_path entry_path)) ;;
  if StoragePath_is_directory (ep_path entry_path) then am_db (list_route entry_path params)
  else
    entry ← am_map_err HttpError_from_file_io (FileService_get_info entry_path);
    if is_not_modified headers entry then mret (not_modified_response entry)
    else
      '(blob_length, stream) ← am_map_err HttpError_from_file_io (OpendalService_get_sized_stream entry_path);
      mret (mk_ReadResponse 200 (to_response_headers entry blob_length) stream).

(** The deprecated owner-relative routes say that the answer depends on the
    [pubky-host] header. *)
Definition vary_host (r : ReadResponse) : ReadResponse :=
  mk_ReadResponse (rr_status r) (rr_headers r ++ [(lit "vary", lit "pubky-host")]) (rr_body r).
Definition legacy_head (session : option AuthSession) (tenant : RequestTenant) (path : StoragePath)
    : AM HttpError ReadResponse :=
  r ← head session (EntryPath_new (rt_public_key tenant) path); mret (vary_host r).
Definition legacy_get (headers : HeaderMap) (session : option AuthSession) (tenant : RequestTenant)
    (path : StoragePath) (params : ListQueryParams) : AM HttpError ReadResponse :=
  r ← get headers session (EntryPath_new (rt_public_key tenant) path) params; mret (vary_host r).

End ReadRoutes.
