(* ===== verification/Listing.v ===== *)
(** The directory listing: what a page contains, and that following the pages
    visits every file of the directory once. *)

From stdpp Require Import relations.
From S2P Require Import Prelude StoragePath Capabilities HttpError Keys Tenant Quota Database Users Authorization.
From S2P Require Import Entries EntryLocks Finalization Accounting AppState LockRoutes Uploads ReadRoutes.

(** * Canonical paths as lines of text *)

Lemma elem_of_join c x ps : x ∈ join c ps → x = c ∨ ∃ p, p ∈ ps ∧ x ∈ p.
Proof.
  induction ps as [|p ps IH]; [by intros ?%elem_of_nil|]. destruct ps as [|q ps].
  - cbn. intros ?. right. exists p. split; [left|done].
  - rewrite join_cons by done. rewrite elem_of_app, elem_of_cons. intros [?|[?|Hx]].
    + right. exists p. split; [left|done].
    + by left.
    + destruct (IH Hx) as [?|(p' & ? & ?)]; [by left|right]. exists p'. split; [by right|done].
Qed.

Lemma wf_no_control p c : StoragePath_wf p → c ∈ as_str p → is_control c = false.
Proof.
  intros ((segs & dir & Hr & Hs & _) & _)%StoragePath_wf_iff. rewrite Hr. unfold render.
  rewrite elem_of_cons, elem_of_app. intros [->|[Hc|Hc]]; [done| |].
  - apply elem_of_join in Hc as [->|(s & Hs' & Hc)]; [done|].
    rewrite Forall_forall in Hs. destruct (Hs s Hs') as (_ & _ & _ & _ & Hv). unfold validate_segment in Hv.
    destruct (_ <? _); [done|]. destruct (existsb is_control s) eqn:E; [done|].
    apply not_true_iff_false. intros Hctl. apply not_true_iff_false in E. apply E, existsb_exists.
    exists c. split; [by apply list_elem_of_In|done].
  - destruct (dir && _); [apply list_elem_of_singleton in Hc as ->; done|by apply elem_of_nil in Hc].
Qed.

(** * Pages *)

(** The order of a listing. *)
Definition before (reverse : bool) (a b : str) : bool := if reverse then str_ltb b a else str_ltb a b.

Lemma path_leb_before reverse a b : path_leb reverse a b = negb (before reverse b a).
Proof. unfold path_leb, before. by destruct reverse. Qed.

Lemma before_irrefl reverse a : before reverse a a = false.
Proof. unfold before. destruct reverse; apply str_ltb_irrefl. Qed.
Lemma before_trans reverse a b c : before reverse a b = true → before reverse b c = true → before reverse a c = true.
Proof. unfold before. destruct reverse; eauto using str_ltb_trans. Qed.
Lemma before_total reverse a b : before reverse a b = false → before reverse b a = false → a = b.
Proof. unfold before. destruct reverse; intros; by apply str_ltb_total. Qed.

Lemma before_asym reverse a b : before reverse a b = true → before reverse b a = false.
Proof.
  intros Hab. apply not_true_iff_false. intros Hba. pose proof (before_trans _ _ _ _ Hab Hba) as Haa.
  by rewrite before_irrefl in Haa.
Qed.

Lemma path_leb_total reverse a b : path_leb reverse a b = false → path_leb reverse b a = true.
Proof. rewrite !path_leb_before. intros Hn%negb_false_iff. by rewrite before_asym. Qed.
Lemma path_leb_anti reverse a b : path_leb reverse a b = true → path_leb reverse b a = true → a = b.
Proof. rewrite !path_leb_before. intros ?%negb_true_iff ?%negb_true_iff. by eapply before_total. Qed.
Lemma path_leb_trans reverse a b c :
  path_leb reverse a b = true → path_leb reverse b c = true → path_leb reverse a c = true.
Proof.
  rewrite !path_leb_before. intros Hba%negb_true_iff Hcb%negb_true_iff. apply negb_true_iff.
  apply not_true_iff_false. intros Hca. destruct (before reverse a b) eqn:Hab.
  - by rewrite (before_trans _ _ _ _ Hca Hab) in Hcb.
  - by rewrite (before_total _ _ _ Hab Hba), Hcb in Hca.
Qed.

(** A listing in order, without repetitions. *)
Definition in_order (reverse : bool) : list str → Prop := StronglySorted (λ a b, before reverse a b = true).

Lemma order_in_order reverse l : NoDup l → in_order reverse (order_by (path_leb reverse) l).
Proof.
  intros HN. rewrite <-(order_by_perm (path_leb reverse) l) in HN.
  pose proof (order_by_sorted (path_leb reverse) l (path_leb_total _) (path_leb_trans _)) as HS.
  induction HS as [|a l' HS IH Ha]; [constructor|]. apply NoDup_cons in HN as [Hna HN].
  constructor; [by apply IH|]. apply Forall_forall. intros b Hb. rewrite Forall_forall in Ha.
  specialize (Ha b Hb). rewrite path_leb_before in Ha. apply negb_true_iff in Ha.
  destruct (before reverse a b) eqn:E; [done|]. by rewrite (before_total _ _ _ E Ha) in Hna.
Qed.

(** What lies after an element. *)
Lemma in_order_after reverse done_ c rest :
  in_order reverse (done_ ++ c :: rest) →
  filter (λ p, before reverse c p = true) (done_ ++ c :: rest) = rest.
Proof.
  intros Hs. rewrite filter_app, filter_cons, before_irrefl, decide_False by done.
  rewrite (filter_none _ done_), filter_all; [done| |].
  - by apply StronglySorted_app_1_r, StronglySorted_inv in Hs as [_ Hs].
  - apply Forall_forall. intros x Hin Hx.
    assert (before reverse x c = true) as Hxc.
    { eapply (StronglySorted_app_1_elem_of (λ a b, before reverse a b = true)); [exact Hs|done|left]. }
    by rewrite (before_asym _ _ _ Hxc) in Hx.
Qed.

Lemma StoragePath_new_wf p : StoragePath_wf (mk_StoragePath p) → StoragePath_new p = Ok (mk_StoragePath p).
Proof. unfold StoragePath_wf, StoragePath_new. cbn. by intros ->. Qed.

Section Listing.
Context `{PkarrKeysLaws, JsonStrings, PgRegex}.

(** The paths of the user's files below a directory. *)
Definition files_below (dir : EntryPath) (tb : Tables) : list str :=
  filter (λ p, starts_with p (folder_path (as_str (ep_path dir))) = true)
    (map (λ eu, e_path eu.1) (entries_of_key (ep_pubkey dir) tb)).

Definition listed (dir : EntryPath) (reverse : bool) (tb : Tables) : list str :=
  order_by (path_leb reverse) (files_below dir tb).

(** The tables a listing reads: unique users, and at most one canonical entry
    per user and path. *)
Lemma files_below_NoDup dir tb : users_wf tb → entries_wf tb → NoDup (files_below dir tb).
Proof.
  intros Hu (_ & HN & _). unfold files_below. apply NoDup_filter.
  destruct (user_row (ep_pubkey dir) tb) as [u|] eqn:Eu.
  2: { rewrite entries_of_key_unknown by done. constructor. }
  assert (sublist (map fst (entries_of_key (ep_pubkey dir) tb)) (entries tb)) as Hsub.
  { clear HN. unfold entries_of_key. induction (entries tb) as [|e es IH]; cbn; [done|].
    destruct (list_find _ _) as [[i v]|]; cbn; repeat case_decide; cbn;
      (apply sublist_skip, IH || apply sublist_cons, IH). }
  apply (fmap_sublist entry_key) in Hsub. eapply sublist_NoDup in HN; [|exact Hsub].
  apply (NoDup_fmap_1 (λ p, (u_id u, p))). rewrite <-!list_fmap_compose in *.
  rewrite (list_fmap_ext _ ((λ p, (u_id u, p)) ∘ (λ eu : EntryRow * UserRow, e_path eu.1))) in HN; [done|].
  intros j [e v] Hj%list_elem_of_lookup_2. apply (elem_of_entries_of_key _ _ u) in Hj as (_ & He & _); [|done..].
  cbn. unfold entry_key. by rewrite He.
Qed.

Lemma listed_in_order dir reverse tb : users_wf tb → entries_wf tb → in_order reverse (listed dir reverse tb).
Proof. intros. by apply order_in_order, files_below_NoDup. Qed.

(** What is left after a cursor. *)
Definition after (reverse : bool) (cursor : option EntryPath) (l : list str) : list str :=
  match cursor with
  | Some c => filter (λ p, before reverse (as_str (ep_path c)) p = true) l
  | None => l
  end.

Definition entry_of (dir : EntryPath) (p : str) : EntryPath := EntryPath_new (ep_pubkey dir) (mk_StoragePath p).

(** The rows of a page, as the query selects them. *)
Lemma deep_rows dir reverse cursor tb :
  order_by (path_leb reverse)
    (filter (λ p, match cursor with
                  | Some c => if reverse then str_ltb p (as_str (ep_path c)) else str_ltb (as_str (ep_path c)) p
                  | None => true
                  end = true)
       (filter (λ p, sql_like (like_starts_with (folder_path (as_str (ep_path dir)))) p = true)
          (map (λ eu, e_path eu.1) (entries_of_key (ep_pubkey dir) tb))))
  = after reverse cursor (listed dir reverse tb).
Proof.
  unfold listed, files_below, after.
  rewrite (list_filter_iff (λ p, sql_like _ p = true)
             (λ p, starts_with p (folder_path (as_str (ep_path dir))) = true))
    by (intros p; by rewrite sql_like_starts_with).
  destruct cursor as [c|].
  - rewrite <-order_by_filter by (apply path_leb_total || apply path_leb_trans || apply path_leb_anti).
    by destruct reverse.
  - by rewrite filter_all by (by apply Forall_forall).
Qed.

Lemma listed_wf dir reverse tb p :
  entries_wf tb → p ∈ listed dir reverse tb → StoragePath_wf (mk_StoragePath p).
Proof.
  intros (_ & _ & He). unfold listed. rewrite elem_of_order_by. unfold files_below.
  intros [_ ([e v] & -> & Hin)%list_elem_of_fmap]%list_elem_of_filter.
  apply list_elem_of_filter in Hin as [_ Hin]. apply list_elem_of_omap in Hin as (e' & Hin & Hf).
  destruct (list_find _ _) as [[i u]|]; [|done]. injection Hf as -> _.
  rewrite Forall_forall in He. by destruct (He _ Hin) as (_ & ? & _).
Qed.

(** A page: the next paths after the cursor. *)
Definition page (dir : EntryPath) (limit : option Z) (cursor : option EntryPath) (reverse : bool) (tb : Tables)
    : list str :=
  take (Z.to_nat (effective_list_limit limit)) (after reverse cursor (listed dir reverse tb)).

Lemma page_decodes dir limit cursor reverse tb :
  entries_wf tb →
  fetch_all (λ p, storage_path ← map_err (λ _, Decode) (StoragePath_new p);
                  Ok (EntryPath_new (ep_pubkey dir) storage_path)) (page dir limit cursor reverse tb)
  = Ok (map (entry_of dir) (page dir limit cursor reverse tb)).
Proof.
  intros He. unfold fetch_all.
  assert (∀ p, p ∈ page dir limit cursor reverse tb → StoragePath_wf (mk_StoragePath p)) as Hwf.
  { intros p Hp. unfold page in Hp. apply elem_of_take in Hp as (i & Hp%list_elem_of_lookup_2 & _).
    eapply (listed_wf dir reverse); [done|].
    destruct cursor; cbn in Hp; [by apply list_elem_of_filter in Hp as [_ ?]|done]. }
  induction (page _ _ _ _ _) as [|p l IH]; [done|]. cbn.
  rewrite (StoragePath_new_wf p) by apply Hwf, list_elem_of_here. cbn. rewrite IH; [done|]. intros q Hq. apply Hwf. by right.
Qed.

(** * The route *)

Definition page_response (dir : EntryPath) (paths : list str) : ReadResponse :=
  mk_ReadResponse 200 [(lit "content-type", lit "text/plain")]
    [Ok (join 10 (map (λ p, lit "pubky://" ++ ep_key (entry_of dir p)) paths))].

Lemma contains_directory_answer dir tb :
  (0 <? Z.of_nat (length (filter (λ eu : EntryRow * UserRow,
                                    sql_like (like_starts_with (folder_path (as_str (ep_path dir)))) (e_path eu.1) = true)
                            (entries_of_key (ep_pubkey dir) tb))))
  = negb (bool_decide (files_below dir tb = [])).
Proof.
  unfold files_below. induction (entries_of_key (ep_pubkey dir) tb) as [|eu l IH]; [done|].
  cbn [map]. rewrite !filter_cons, sql_like_starts_with. case_decide; [|done].
  rewrite bool_decide_eq_false_2 by done. apply Z.ltb_lt. cbn [length]. lia.
Qed.

Definition deep_params (limit : option Z) (cursor : option str) (reverse : bool) : ListQueryParams :=
  mk_ListQueryParams limit cursor false reverse.

Lemma list_route_run dir limit cursor c reverse w r w' :
  entries_wf (tables w) → files_below dir (tables w) ≠ [] → list_parse_cursor cursor = Ok c →
  list_route dir (deep_params limit cursor reverse) w = (r, w') →
  tables w' = tables w ∧
  (r = Err (HttpError_from_sqlx SqlIo) ∨ r = Ok (page_response dir (page dir limit c reverse (tables w)))).
Proof.
  intros He Hne Hc. unfold list_route, sql, db_map_err. cbv [mbind db_bind lift_result throw]. cbn [lq_cursor lq_shallow].
  destruct (EntryRepository_contains_directory dir w) as [r1 w1] eqn:E1.
  apply select_inv in E1 as [(Ht1 & _) [->| ->]]; [intros [= <- <-]; auto|]. cbv beta zeta.
  rewrite contains_directory_answer, bool_decide_eq_false_2 by done. cbn. rewrite Hc. cbn.
  destruct (EntryRepository_list_deep dir limit c reverse w1) as [r2 w2] eqn:E2.
  apply select_inv in E2 as [(Ht2 & _) [->| ->]]; [intros [= <- <-]; split; [congruence|auto]|].
  cbv beta zeta. rewrite deep_rows, Ht1. fold (page dir limit c reverse (tables w)). rewrite page_decodes by done. cbn.
  intros [= <- <-]. split; [congruence|]. right. unfold page_response. by rewrite map_map.
Qed.

Lemma list_route_answers dir limit cursor c reverse w :
  entries_wf (tables w) → files_below dir (tables w) ≠ [] → list_parse_cursor cursor = Ok c → ticks w = [] →
  ∃ w', list_route dir (deep_params limit cursor reverse) w
        = (Ok (page_response dir (page dir limit c reverse (tables w))), w') ∧
        tables w' = tables w ∧ ticks w' = [].
Proof.
  intros He Hne Hc Hw. unfold list_route, sql, db_map_err, EntryRepository_contains_directory, EntryRepository_list_deep.
  cbv [mbind db_bind lift_result throw]. cbn [lq_cursor lq_shallow lq_limit lq_reverse deep_params].
  match goal with |- context [select ?f w] => destruct (select_answers f w Hw) as (w1 & -> & Ht1 & Hw1) end.
  cbv beta zeta. rewrite contains_directory_answer, bool_decide_eq_false_2 by done. rewrite Hc. cbn [negb map_err]. cbv beta iota.
  match goal with |- context [select ?f w1] => destruct (select_answers f w1 Hw1) as (w2 & -> & Ht2 & Hw2) end.
  cbv beta zeta. rewrite deep_rows, Ht1. fold (page dir limit c reverse (tables w)). 
  pose proof (page_decodes dir limit c reverse (tables w) He) as Hd. cbv [mbind] in Hd. rewrite Hd. cbn [map_err].
  exists w2. split_and!; [|congruence|done]. unfold page_response. by rewrite map_map.
Qed.

(** * Following the pages *)

Definition entry_url (dir : EntryPath) (p : str) : str := lit "pubky://" ++ ep_key (entry_of dir p).

(** The lines a client reads in an answer. *)
Definition response_lines (r : ReadResponse) : list str :=
  filter (λ l, l ≠ []) (split 10 (concat (omap ok (rr_body r)))).

Lemma entry_url_line dir p : StoragePath_wf (mk_StoragePath p) → 10 ∉ entry_url dir p.
Proof.
  intros Hp [Hc|[Hc|Hc]%elem_of_app]%elem_of_app.
  - revert Hc. apply contains_char_false. vm_compute. reflexivity.
  - apply pkarr_ascii in Hc. lia.
  - apply (wf_no_control (mk_StoragePath p)) in Hc; done.
Qed.

Lemma response_lines_page dir ps :
  Forall (λ p, StoragePath_wf (mk_StoragePath p)) ps →
  response_lines (page_response dir ps) = map (entry_url dir) ps.
Proof.
  intros Hps. unfold response_lines, page_response. cbn. rewrite app_nil_r.
  change (map (λ p, _) ps) with (map (entry_url dir) ps). destruct ps as [|p ps]; [done|].
  rewrite split_join; [|done|].
  - apply filter_all, Forall_fmap, Forall_forall. by intros q _.
  - intros l (q & -> & Hq)%list_elem_of_fmap. rewrite Forall_forall in Hps. by apply entry_url_line, Hps.
Qed.

(** A line of an answer is a cursor that means its entry. *)
Lemma cursor_of_line dir p :
  StoragePath_wf (mk_StoragePath p) →
  list_parse_cursor (extract_cursor [(lit "cursor", entry_url dir p)]) = Ok (Some (entry_of dir p)).
Proof.
  intros Hp. unfold extract_cursor, query_get.
  change (filter _ [(lit "cursor", entry_url dir p)]) with [(lit "cursor", entry_url dir p)]. cbn [last fmap option_fmap option_map snd mbind option_bind].
  rewrite bool_decide_eq_false_2 by done. unfold entry_url at 1 2.
  rewrite (proj2 (strip_prefix_spec _ _ (ep_key (entry_of dir p))) eq_refl). cbn [default from_option id list_parse_cursor].
  assert (strip_prefix (ep_key (entry_of dir p)) (lit "pubky://") = None) as Hn.
  { destruct (strip_prefix _ _) as [rest|] eqn:E; [|done]. apply strip_prefix_spec in E. exfalso.
    destruct (entry_key_split (ep_pubkey dir) (mk_StoragePath p) Hp) as (t & _ & Hs).
    unfold entry_of in E.
    cbn [ep_key EntryPath_new] in Hs, E. rewrite E in Hs. injection Hs as Hz _.
    pose proof (pkarr_len (ep_pubkey dir)) as Hl. unfold PublicKey_z32 in Hz. by rewrite <-Hz in Hl. }
  unfold trim_start_matches. destruct (length _); cbn [trim_start_matches_loop]; rewrite ?Hn;
    unfold entry_of; rewrite EntryPath_parse_key by done; done.
Qed.

(** A client that asks for page after page, the last line being the next
    cursor, until a page is empty. *)
Fixpoint walk_listing (n : nat) (dir : EntryPath) (limit : option Z) (cursor : option str) (reverse : bool) (w : World)
    : result HttpError (list str) :=
  match n with
  | O => Ok []
  | S n =>
      match list_route dir (deep_params limit cursor reverse) w with
      | (Err e, _) => Err e
      | (Ok r, w) =>
          match last (response_lines r) with
          | None => Ok []
          | Some line =>
              more ← walk_listing n dir limit (extract_cursor [(lit "cursor", line)]) reverse w;
              Ok (response_lines r ++ more)
          end
      end
  end.

Lemma listed_member dir reverse tb p :
  users_wf tb →
  p ∈ listed dir reverse tb ↔
  ∃ u e, user_row (ep_pubkey dir) tb = Some u ∧ e ∈ entries tb ∧ e_user e = u_id u ∧ e_path e = p ∧
         starts_with p (folder_path (as_str (ep_path dir))) = true.
Proof.
  intros Hu. unfold listed. rewrite elem_of_order_by. unfold files_below.
  rewrite list_elem_of_filter, list_elem_of_fmap.
  destruct (user_row (ep_pubkey dir) tb) as [u|] eqn:Eu.
  - split.
    + intros (Hs & [e v] & -> & Hin). apply (elem_of_entries_of_key _ _ u) in Hin as (? & ? & _); [|done..].
      by exists u, e.
    + intros (u' & e & [= <-] & He & Heu & <- & Hs). split; [done|]. exists (e, u). split; [done|].
      by apply (elem_of_entries_of_key _ _ u).
  - rewrite entries_of_key_unknown by done. split; [intros (_ & ? & _ & ?%elem_of_nil); done|].
    by intros (? & ? & ? & _).
Qed.

(** A page, seen from what is left. *)
Lemma page_rest dir limit c reverse tb done_ rest :
  users_wf tb → entries_wf tb →
  match c with
  | None => rest = listed dir reverse tb
  | Some p => listed dir reverse tb = done_ ++ p :: rest
  end →
  page dir limit (entry_of dir <$> c) reverse tb = take (Z.to_nat (effective_list_limit limit)) rest.
Proof.
  intros Hu He Hc. unfold page. destruct c as [p|]; cbn; [|by rewrite Hc].
  rewrite Hc, in_order_after; [done|]. rewrite <-Hc. by apply listed_in_order.
Qed.

Lemma walk_rest n dir limit cursor c reverse w done_ rest :
  users_wf (tables w) → entries_wf (tables w) → files_below dir (tables w) ≠ [] → 1 ≤ effective_list_limit limit →
  list_parse_cursor cursor = Ok (entry_of dir <$> c) →
  match c with
  | None => rest = listed dir reverse (tables w)
  | Some p => listed dir reverse (tables w) = done_ ++ p :: rest
  end →
  (length rest < n)%nat →
  let r := walk_listing n dir limit cursor reverse w in
  (r = Ok (map (entry_url dir) rest) ∨ r = Err (HttpError_from_sqlx SqlIo)) ∧
  (ticks w = [] → r = Ok (map (entry_url dir) rest)).
Proof.
  revert cursor c w done_ rest. induction n as [|n IH]; intros cursor c w done_ rest Hu He Hne Hlim Hcur Hc Hn; [lia|].
  pose proof (page_rest dir limit c reverse _ done_ rest Hu He Hc) as Hpg. cbn [walk_listing].
  set (k := Z.to_nat (effective_list_limit limit)) in *.
  assert (rest ⊆ listed dir reverse (tables w)) as Hsub.
  { destruct c; rewrite Hc; [|done]. intros x Hx. apply elem_of_app. right. by right. }
  assert (Forall (λ p, StoragePath_wf (mk_StoragePath p)) (take k rest)) as Hwf.
  { apply Forall_forall. intros p Hp. eapply listed_wf; [done|]. apply Hsub.
    by apply elem_of_take in Hp as (i & ?%list_elem_of_lookup_2 & _). }
  destruct (list_route dir (deep_params limit cursor reverse) w) as [r1 w1] eqn:E.
  pose proof (list_route_run _ _ _ _ _ _ _ _ He Hne Hcur E) as [Ht Hr1]. rewrite Hpg in Hr1.
  assert (ticks w = [] → r1 = Ok (page_response dir (take k rest)) ∧ ticks w1 = []) as Hq.
  { intros Hw. destruct (list_route_answers dir limit cursor _ reverse w He Hne Hcur Hw) as (w2 & E2 & _ & Hw2).
    rewrite E in E2. injection E2 as -> ->. by rewrite Hpg. }
  destruct Hr1 as [->| ->]; [split; [by right|by intros [? _]%Hq]|].
  rewrite (response_lines_page _ _ Hwf). rewrite <-Ht in Hu, He, Hne.
  destruct (last (take k rest)) as [p|] eqn:Hl.
  - rewrite (fmap_last (entry_url dir)), Hl. cbn [fmap option_fmap option_map].
    apply last_Some in Hl as [init Hl].
    assert (listed dir reverse (tables w1)
            = (match c with None => init | Some c0 => done_ ++ c0 :: init end) ++ p :: drop k rest) as Hc'.
    { rewrite Ht. rewrite <-(take_drop k rest), Hl, <-app_assoc in Hc. destruct c; by rewrite ?Hc, <-?app_assoc. }
    assert (list_parse_cursor (extract_cursor [(lit "cursor", entry_url dir p)]) = Ok (entry_of dir <$> Some p)) as Hcur'.
    { apply cursor_of_line. rewrite Forall_forall in Hwf. apply Hwf. rewrite Hl. apply elem_of_app. right. left. }
    destruct (IH _ (Some p) w1 _ (drop k rest) Hu He Hne Hlim Hcur' Hc') as [Hor Hquiet].
    { rewrite length_drop. assert (take k rest ≠ []) by (rewrite Hl; by destruct init). destruct rest; [by destruct k|].
      cbn in *. lia. }
    assert (map (entry_url dir) rest = map (entry_url dir) (take k rest) ++ map (entry_url dir) (drop k rest)) as ->.
    { by rewrite <-map_app, take_drop. }
    split.
    + destruct Hor as [->| ->]; [by left|by right].
    + intros Hw. destruct (Hq Hw) as [_ Hw1]. by rewrite (Hquiet Hw1).
  - apply last_None in Hl. rewrite Hl. cbn.
    assert (rest = []) as ->; [|by split; [left|]]. destruct rest as [|x rest]; [done|].
    destruct k eqn:Ek; [lia|done].
Qed.

(** (C23) Following a listing visits the directory.  Asking for page after page,
    each time with the last line of the answer as the cursor, returns the files
    the user has below the directory, every one once and in order (backwards if
    asked), and stops: after as many requests as there are files and one more
    the walk has ended, with every file, unless the database failed in between;
    if it does not, the walk succeeds. *)
Theorem listing_walk dir limit reverse w :
  users_wf (tables w) → entries_wf (tables w) → 1 ≤ effective_list_limit limit →
  files_below dir (tables w) ≠ [] →
  let files := listed dir reverse (tables w) in
  (∀ p, p ∈ files ↔
     ∃ u e, user_row (ep_pubkey dir) (tables w) = Some u ∧ e ∈ entries (tables w) ∧ e_user e = u_id u ∧
            e_path e = p ∧ starts_with p (folder_path (as_str (ep_path dir))) = true) ∧
  in_order reverse files ∧
  ∀ n, (length files < n)%nat →
    let r := walk_listing n dir limit None reverse w in
    (r = Ok (map (entry_url dir) files) ∨ r = Err (HttpError_from_sqlx SqlIo)) ∧
    (ticks w = [] → r = Ok (map (entry_url dir) files)).
Proof.
  intros Hu He Hlim Hne files. split_and!; [intros; by apply listed_member|by apply listed_in_order|].
  intros n Hn. by apply (walk_rest n dir limit None None reverse w [] files).
Qed.

End Listing.
