(* ===== verification/Reading.v ===== *)
(** Reading files: who may, what is answered, and conditional requests. *)

From stdpp Require Import relations.
From S2P Require Import Prelude StoragePath Capabilities HttpError Keys Tenant Quota Database Users Authorization.
From S2P Require Import Entries EntryLocks Finalization Accounting AppState LockRoutes Refinement Uploads ReadRoutes Listing.

Section Reading.
Context `{PkarrKeysLaws, JsonStrings, !Backend, !ReadBackend, HttpTextLaws, PgRegex}.

(** ** Validators *)

Lemma etag_plain e c : c ∈ entry_etag e → is_whitespace c = false ∧ c ≠ COMMA.
Proof.
  unfold entry_etag. rewrite !elem_of_app, !list_elem_of_singleton.
  intros [->|[Hc| ->]]; [done| |done]. by destruct (base64_plain _ _ Hc) as (? & ? & _).
Qed.

Lemma etag_inj e e' :
  length (ee_content_hash e) = 32%nat → length (ee_content_hash e') = 32%nat →
  entry_etag e = entry_etag e' ↔ ee_content_hash e = ee_content_hash e'.
Proof.
  intros Hl Hl'. split; [|unfold entry_etag; by intros ->].
  intros [_ Ht]%app_inj_1; [|done]. apply app_inj_2 in Ht as [Hb _]; [|done]. by apply base64_inj.
Qed.

(** The entity tag of an answer, sent back. *)
Lemma if_none_match_own e e' hs :
  length (ee_content_hash e) = 32%nat → length (ee_content_hash e') = 32%nat →
  headers_get hs (lit "if-none-match") = Some (Some (entry_etag e)) →
  is_not_modified hs e' = true ↔ ee_content_hash e = ee_content_hash e'.
Proof.
  intros Hl Hl' Hh. unfold is_not_modified. rewrite Hh.
  assert (trim (entry_etag e) = entry_etag e) as Ht.
  { apply trim_plain, Forall_forall. intros c Hc. by apply etag_plain in Hc as [? _]. }
  rewrite Ht, split_no_sep_id by (intros Hc; by apply etag_plain in Hc as [_ ?]). cbn [map existsb]. rewrite Ht.
  rewrite orb_false_r, bool_decide_eq_true. by apply etag_inj.
Qed.
(** ** [GET] of a file *)

(** What the store answered to a read: a length, and the bytes of a read of
    that length, conditional on the version the length belongs to. *)
Definition store_answered (path : EntryPath) (b : BackendState) (n : Z) (chunks : list (result () (list Z))) : Prop :=
  ∃ etag b1 b2, stat_length (ep_key path) b = (Ok (n, etag), b1) ∧
                read_range (ep_key path) etag n b1 = (Ok chunks, b2).

Lemma sized_stream_ok path s n chunks s' :
  OpendalService_get_sized_stream path s = (Ok (n, chunks), s') →
  app_world s' = app_world s ∧ store_answered path (app_store s) n chunks.
Proof.
  unfold OpendalService_get_sized_stream, am_map_err, am_blob. cbv [mbind am_bind mret am_ret].
  destruct (stat_length _ _) as [[[n1 etag]|e] b1] eqn:E1; cbn; [|done].
  destruct (read_range _ _ _ _) as [[cs|e] b2] eqn:E2; cbn; [|done].
  intros [= <- <- <-]. split; [done|]. by exists etag, b1, b2.
Qed.

Lemma get_info_ok path s r s' :
  users_wf (tables (app_world s)) → entries_wf (tables (app_world s)) → EntryPath_wf path →
  FileService_get_info path s = (r, s') →
  tables (app_world s') = tables (app_world s) ∧ app_store s' = app_store s ∧
  ∀ entry, r = Ok entry →
    ∃ u e, user_row (ep_pubkey path) (tables (app_world s)) = Some u ∧
           entry_at (tables (app_world s)) u (ep_path path) e ∧ entry = entry_entity path e.
Proof.
  intros Hu He Hp. unfold FileService_get_info, am_db.
  destruct (EntryRepository_get_by_path path (app_world s)) as [r1 w1] eqn:E.
  apply get_by_path_inv in E as [(Ht & _) Hr]; [|done..].
  destruct r1 as [entry|[]]; intros [= <- <-]; (split_and!; [done..|]); try done.
  intros ? [= <-]. destruct Hr as [?|Hr]; [done|]. destruct (user_row _ _) as [u|]; [|done].
  destruct Hr as [(e & Hat & [= ->])|[? _]]; [|done]. by exists u, e.
Qed.

(** (C24) What a successful [GET] of a file answers.  The request may read the
    path, and nothing is changed.  The answer describes the entry stored for
    the path: either 304 without a body, or 200 with the length the store
    reports and the bytes of a read of that version.  A client that sends back
    the entity tag of an earlier answer gets 304 exactly when the content is
    still the same; one that sends back the date of an earlier answer gets 304
    exactly when the entry was not modified in a later second. *)
Theorem get_answers headers session path params a r a' :
  users_wf (tables (app_world a)) → entries_wf (tables (app_world a)) → EntryPath_wf path →
  StoragePath_is_directory (ep_path path) = false →
  get headers session path params a = (Ok r, a') →
  has_read_permission session (Some (ep_pubkey path)) (ep_path path) = Ok () ∧
  tables (app_world a') = tables (app_world a) ∧
  ∃ u e, let entry := entry_entity path e in
    user_row (ep_pubkey path) (tables (app_world a)) = Some u ∧
    entry_at (tables (app_world a)) u (ep_path path) e ∧
    ((rr_status r = 304 ∧ rr_body r = []) ∨
     (rr_status r = 200 ∧
      ∃ n, store_answered path (app_store a) n (rr_body r) ∧ rr_headers r = to_response_headers entry n)) ∧
    (∀ old, length (ee_content_hash old) = 32%nat →
       headers_get headers (lit "if-none-match") = Some (Some (entry_etag old)) →
       rr_status r = 304 ↔ ee_content_hash old = e_content_hash e) ∧
    (∀ old, 0 ≤ ee_modified_at old → headers_get headers (lit "if-none-match") = None →
       headers_get headers (lit "if-modified-since") = Some (Some (http_date_to_string (ee_modified_at old))) →
       rr_status r = 304 ↔ e_modified_at e ≤ ee_modified_at old).
Proof.
  intros Hu He Hp Hd. unfold get. cbv [mbind am_bind am_lift am_map_err mret am_ret].
  destruct (has_read_permission _ _ _) as [[]|]; [|done]. rewrite Hd.
  destruct (FileService_get_info path a) as [r1 a1] eqn:E1.
  apply get_info_ok in E1 as (Ht1 & Hb1 & Hi); [|done..]. destruct r1 as [entry|]; [|done]. cbn [map_err].
  destruct (Hi entry eq_refl) as (u & e & Hur & Hat & ->). intros Hr. split; [done|].
  assert (length (ee_content_hash (entry_entity path e)) = 32%nat) as Hl.
  { destruct Hat as (Hin & _ & _), He as (_ & _ & Hw). rewrite Forall_forall in Hw. by destruct (Hw e Hin) as (_ & _ & ? & _). }
  assert ((rr_status r = 304 ↔ is_not_modified headers (entry_entity path e) = true) ∧
          tables (app_world a') = tables (app_world a) ∧
          ((rr_status r = 304 ∧ rr_body r = []) ∨
           (rr_status r = 200 ∧
            ∃ n, store_answered path (app_store a) n (rr_body r) ∧ rr_headers r = to_response_headers (entry_entity path e) n)))
    as (Hiff & Ht & Hcase).
  { destruct (is_not_modified headers (entry_entity path e)).
    - injection Hr as <- <-. split_and!; [done|done|by left].
    - destruct (OpendalService_get_sized_stream path a1) as [[[n cs]|] a2] eqn:E2; [|done].
      apply sized_stream_ok in E2 as [Hw Hst]. injection Hr as <- <-. cbn. rewrite Hw, Hb1 in *.
      split_and!; [done|done|]. right. split; [done|]. by exists n. }
  split; [done|]. exists u, e. split_and!; [done..| |].
  - intros old Hlo Hh. rewrite Hiff. by apply if_none_match_own.
  - intros old Ho Hn Hm. rewrite Hiff. unfold is_not_modified. rewrite Hn, Hm, http_date_roundtrip by done.
    by rewrite Z.leb_le.
Qed.

End Reading.

(** * Examples *)

#[export] Instance demo_regex : PgRegex := {| regexp_replace text _ _ := text |}.

Definition demo_reads : @ReadBackend demo_backend := {|
  stat_length := λ path (st : @BackendState demo_backend),
    (if bool_decide (path ∈ (st : list str)) then Ok (11, None) else Err (mk_OpendalError KNotFound None), st);
  read_range := λ _ _ _ st, (Ok [Ok (lit "hello"); Ok (lit " world")], st)
|}.

(** A toy base 64: one large character per number. *)
Definition demo_digit (b : Z) : Z := 20000 + (if 0 <=? b then 2 * b else -2 * b - 1).

#[export] Instance demo_http_text : HttpText := {|
  http_date_to_string := show_uint;
  http_date_from_str := parse_digits;
  base64_standard := map demo_digit;
  is_header_value := forallb (λ c, ((32 <=? c) && negb (c =? 127)) || (c =? 9));
|}.

#[export] Instance demo_http_text_laws : HttpTextLaws.
Proof.
  split; cbn.
  - apply parse_digits_show.
  - intros a b _ _. revert b. induction a as [|x a IH]; intros [|y b]; cbn; [done..|].
    intros [= Hx Ha]. f_equal; [|by apply IH]. unfold demo_digit in Hx. destruct (Z.leb_spec 0 x), (Z.leb_spec 0 y); lia.
  - intros a c (b & -> & _)%list_elem_of_fmap. unfold demo_digit, is_whitespace, COMMA.
    assert (20000 ≤ 20000 + (if 0 <=? b then 2 * b else -2 * b - 1)) by (destruct (Z.leb_spec 0 b); lia).
    split_and!; [|lia..]. lia.
Qed.

Definition demo_dir : EntryPath := EntryPath_new (H := demo_keys) true (mk_StoragePath (lit "/pub/")).

Lemma listing_walk_witness :
  walk_listing (H := demo_keys) 2 demo_dir (Some 1) None false (demo_storage []) = Ok [entry_url demo_dir (lit "/pub/app/file.txt")].
Proof.
  refine (proj2 (proj2 (proj2 (listing_walk (H := demo_keys) demo_dir (Some 1) false (demo_storage []) _ _ _ _)) 2%nat _) _).
  - apply demo_storage_wf.
  - apply demo_storage_wf.
  - vm_compute. discriminate.
  - vm_compute. discriminate.
  - vm_compute. lia.
  - reflexivity.
Defined.

(** A client repeats a request with the tag it was given. *)
Definition demo_conditional : list (str * option str) :=
  [(lit "if-none-match", Some (entry_etag (entry_entity demo_file demo_entry)))].
Lemma get_answers_witness :
  ∃ r a', get (H := demo_keys) (H2 := demo_reads) demo_conditional None demo_file (deep_params None None false) demo_stored_app
          = (Ok r, a') ∧ tables (app_world a') = tables (app_world demo_stored_app) ∧ rr_status r = 304.
Proof.
  eexists _, _. split; [vm_compute; reflexivity|]. split; [|reflexivity].
  refine (proj1 (proj2 (get_answers (H := demo_keys) (H3 := demo_reads) demo_conditional None demo_file
    (deep_params None None false) demo_stored_app _ _ _ _ _ _ _))).
  - apply demo_storage_wf.
  - apply demo_storage_wf.
  - split; vm_compute; reflexivity.
  - vm_compute. reflexivity.
  - vm_compute. reflexivity.
Defined.
