(* ===== verification/StoredContent.v ===== *)
(** From the body of a request to the bytes in the object store and back: what
    a backend promises to the uploads ([BackendContract]), that staged
    publication keeps the promise, and that a file reads back as it was put. *)

From stdpp Require Import relations.
From S2P Require Import Prelude StoragePath Capabilities HttpError Keys Tenant Quota Database Users Authorization.
From S2P Require Import Entries EntryLocks Events Finalization Accounting AppState LockRoutes Uploads ReadRoutes Reading.
From S2P Require Import Refinement StagedPublish StagedProofs.

(** * The contract *)

(** What an upload may rely on: bytes written to a writer are kept, and a close
    that succeeds under a generation read before it stores them under the
    writer's key. *)
Class BackendContract `{Backend} := {
  store_ok : BackendState → Prop;
  key_ok : str → Prop;
  (** The writer is open for the key and has taken these bytes. *)
  uploading_to : str → BlobWriter → list Z → BackendState → Prop;
  (** The expectation was read from the store. *)
  expectation : option ExpectedGeneration → BackendState → Prop;
  stored : str → list Z → BackendState → Prop;
  open_contract key b w b' :
    store_ok b → key_ok key → open_writer key b = (Ok w, b') → store_ok b' ∧ uploading_to key w [] b';
  write_contract key w c bs b b' :
    store_ok b → uploading_to key w c b → writer_write w bs b = (Ok (), b') →
    store_ok b' ∧ uploading_to key w (c ++ bs) b';
  stat_contract key w c b r b' :
    store_ok b → uploading_to key w c b → backend_stat key b = (r, b') →
    store_ok b' ∧ uploading_to key w c b' ∧
    match r with
    | Ok None => expectation None b'
    | Ok (Some v) => ∀ e, parse_generation v = Ok e → expectation (Some e) b'
    | Err _ => expectation (Some GenAbsent) b'
    end;
  close_contract key w c e b md b' :
    store_ok b → uploading_to key w c b → expectation e b → writer_close e w b = (Ok md, b') →
    store_ok b' ∧ stored key c b';
}.

Section Contract.
Context `{PkarrKeysLaws, JsonStrings, BackendContract, !ContentTools}.

(** ** The calls an upload makes *)

Lemma write_path_check_store now key s : app_store (check_write_path_allowed now key s).2 = app_store s.
Proof.
  unfold check_write_path_allowed. cbv [mbind am_bind am_lift am_map_err am_cache am_throw mret am_ret].
  destruct (EntryPath_parse_opendal key); [|done]. cbn.
  destruct (resolve_quota _ _ _ _) as [[[[q|]|] c] w]; cbn; [|done..]. by destruct (negb _).
Qed.

Lemma collision_check_store fin path s : app_store (collision_check fin path s).2 = app_store s.
Proof. unfold collision_check, am_db. by destruct (collision_preflight _ _ _). Qed.

(** The checks in front of a call leave the store alone. *)
Lemma checked_store {W A} (check : AM OpendalError ()) (op : WOp W A) cw s x cw' s' :
  (∀ s, app_store (check s).2 = app_store s) → checked check op cw s = (Ok x, cw', s') →
  ∃ s1 inner, app_store s1 = app_store s ∧ op (cw_inner cw) s1 = (Ok x, inner, s') ∧ cw_inner cw' = inner.
Proof.
  intros Hs [(e & _ & _ & ?)|(s1 & inner & Hc & Hop & ->)]%checked_cases; [done|]. exists s1, inner. split; [|done].
  destruct Hc as [[_ ->]|[_ Hc]]; [done|]. specialize (Hs s). by rewrite Hc in Hs.
Qed.

Lemma layers_store {A} now fin path (op : WOp FinalizationWriter A) uw s x uw' s' :
  checked (write_path_check now path) (checked (collision_check fin path) op) uw s = (Ok x, uw', s') →
  ∃ s1, app_store s1 = app_store s ∧ op (cw_inner (cw_inner uw)) s1 = (Ok x, cw_inner (cw_inner uw'), s').
Proof.
  intros (s1 & cw & Hs1 & Hop & Hcw)%checked_store; [|intros; apply write_path_check_store].
  apply checked_store in Hop as (s2 & fw & Hs2 & Hop & Hfw); [|intros; apply collision_check_store].
  exists s2. rewrite Hs2, Hs1. split; [done|]. rewrite Hcw, Hfw. done.
Qed.

(** The writer inside the layers. *)
Definition blob_writer (uw : UploadWriter) : option BlobWriter := fw_inner (cw_inner (cw_inner uw)).

Lemma write_chunks_store now fin path inner chunks : ∀ c uw s uw' s',
  store_ok (app_store s) → blob_writer uw = Some inner → uploading_to (ep_key path) inner c (app_store s) →
  write_chunks now fin path chunks uw s = (Ok (), uw', s') →
  store_ok (app_store s') ∧ blob_writer uw' = Some inner ∧
  uploading_to (ep_key path) inner (c ++ body_bytes chunks) (app_store s').
Proof.
  induction chunks as [|[bs|e] chunks IH]; intros c uw s uw' s' Hok Hin Hup Hr; cbn [write_chunks] in Hr; [| |done].
  - injection Hr as <- <-. cbn. by rewrite app_nil_r.
  - destruct (upload_write now fin path bs uw s) as [[[[]|e] uw1] s1] eqn:E; [|done].
    apply layers_store in E as (s2 & Hs2 & Hop). unfold fw_write, am_blob in Hop. unfold blob_writer in Hin.
    rewrite Hin in Hop. cbn in Hop. destruct (writer_write inner bs (app_store s2)) as [rw b] eqn:Hw.
    injection Hop as -> Hfw <-. rewrite Hs2 in Hw. destruct (write_contract _ _ _ _ _ _ Hok Hup Hw) as [Hok1 Hup1].
    change (body_bytes (Ok bs :: chunks)) with (bs ++ body_bytes chunks). rewrite app_assoc.
    eapply IH; [| | |exact Hr]; [done| |done]. unfold blob_writer. by rewrite <-Hfw.
Qed.

Lemma fm_bind_ok {E A B} (m : FM E A) (k : A → FM E B) w b x w' b' :
  (m ≫= k) w b = (Ok x, w', b') → ∃ a w1 b1, m w b = (Ok a, w1, b1) ∧ k a w1 b1 = (Ok x, w', b').
Proof. cbv [mbind fm_bind]. destruct (m w b) as [[[a|] w1] b1]; [by exists a, w1, b1|done]. Qed.

Lemma fm_map_err_ok {E F A} (f : E → F) (m : FM E A) w b x w' b' :
  fm_map_err f m w b = (Ok x, w', b') → m w b = (Ok x, w', b').
Proof. unfold fm_map_err. destruct (m w b) as [[[a|] w1] b1]; [by intros [= <- <- <-]|done]. Qed.

Lemma db_ok {E A} (m : DB E A) w b x w' b' : db m w b = (Ok x, w', b') → b' = b.
Proof. unfold db. destruct (m w). by intros [= _ _ <-]. Qed.

(** The read of the generation leaves the upload alone. *)
Lemma generation_under_lock_store path inner c w b g w' b' :
  store_ok b → uploading_to (ep_key path) inner c b →
  generation_under_lock path w b = (Ok g, w', b') →
  store_ok b' ∧ uploading_to (ep_key path) inner c b' ∧ expectation g b'.
Proof.
  intros Hok Hup (g1 & w1 & b1 & Hl & Hr)%fm_bind_ok. apply fm_bind_ok in Hr as (? & w2 & b2 & ->%db_ok & Hr).
  injection Hr as <- _ <-. unfold live_generation in Hl.
  destruct (backend_stat (ep_key path) b) as [r b3] eqn:Hst.
  apply (stat_contract _ _ _ _ _ _ Hok Hup) in Hst as (Hok1 & Hup1 & Hex).
  destruct r as [[v|]|e].
  - destruct (parse_generation v) as [e|] eqn:Hp; [|done]. injection Hl as <- _ <-. split_and!; [done..|by apply Hex].
  - by injection Hl as <- _ <-.
  - case_decide; [|done]. by injection Hl as <- _ <-.
Qed.

(** Finalizing: the only calls on the store are the read of the generation and
    the close under it. *)
Lemma writer_finalize_store fin inner path m w b md w' b' c :
  store_ok b → uploading_to (ep_key path) inner c b →
  writer_finalize fin inner path m w b = (Ok md, w', b') →
  store_ok b' ∧ stored (ep_key path) c b'.
Proof.
  intros Hok Hup (r & w1 & b1 & Hf & Hr)%fm_bind_ok.
  destruct r as [md1|[e|e]]; [|by apply fm_bind_ok in Hr as (? & ? & ? & _ & ?)|done]. injection Hr as <- _ <-.
  unfold fm_try in Hf. destruct (finalize_write fin inner path m w b) as [[r1 w2] b2] eqn:E.
  injection Hf as -> _ ->.
  apply fm_bind_ok in E as (tx & w3 & b3 & ->%fm_map_err_ok%db_ok & E).
  apply fm_bind_ok in E as (r2 & w4 & b4 & Ht & E). unfold fm_try in Ht.
  destruct (write_in_transaction fin inner path m w3 b) as [[r3 w5] b5] eqn:Hw. injection Ht as <- _ <-.
  destruct r3 as [md2|f]; [|by apply fm_bind_ok in E as (? & ? & ? & _ & ?)].
  apply fm_bind_ok in E as (? & ? & ? & ->%fm_map_err_ok%db_ok & [= -> _ <-]).
  apply fm_bind_ok in Hw as (prepared & w6 & b6 & ->%fm_map_err_ok%db_ok & Hw).
  apply fm_bind_ok in Hw as (g & w7 & b7 & Hg%fm_map_err_ok & Hw).
  apply (generation_under_lock_store _ inner c) in Hg as (Hok7 & Hup7 & Hex7); [|done..].
  apply fm_bind_ok in Hw as (md3 & w8 & b8 & Hc%fm_map_err_ok & Hw).
  apply fm_bind_ok in Hw as (? & ? & ? & ->%fm_map_err_ok%db_ok & [= -> _ <-]).
  unfold blob in Hc. destruct (writer_close g inner b7) as [rc b9] eqn:Hcl. injection Hc as -> _ ->.
  by eapply close_contract.
Qed.

(** ** Uploads *)

Lemma write_stream_stored now fin path chunks s s' :
  EntryPath_wf path → store_ok (app_store s) → key_ok (ep_key path) →
  OpendalService_write_stream now fin path chunks s = (Ok (), s') →
  store_ok (app_store s') ∧ stored (ep_key path) (body_bytes chunks) (app_store s').
Proof.
  intros Hp Hok Hk. unfold OpendalService_write_stream, operator_writer. rewrite parse_opendal_key by done.
  cbv [mbind am_bind am_lift am_map_err am_blob mret am_ret].
  destruct (open_writer (ep_key path) (app_store s)) as [[inner|e] b1] eqn:Ho; cbn [map_err]; [|done].
  destruct (open_contract _ _ _ _ Hok Hk Ho) as [Hok1 Hup1]. unfold stream_into.
  set (s1 := mk_App _ b1 _). set (uw := CheckedWriter_new _).
  destruct (write_chunks now fin path chunks uw s1) as [[rc uw2] s2] eqn:Ec.
  destruct rc as [[]|e]; [|by destruct (upload_abort uw2 s2) as [[? ?] ?]].
  eapply (write_chunks_store _ _ _ inner) in Ec as (Hok2 & Hin2 & Hup2); [|done..|exact Hup1].
  destruct (upload_close now fin path uw2 s2) as [[[md|e] ul] s3] eqn:El; [|done]. intros [= <-].
  apply layers_store in El as (s4 & Hs4 & Hop). unfold fw_close, am_fm in Hop. unfold blob_writer in Hin2.
  rewrite Hin2, Hs4 in Hop. cbn in Hop.
  destruct (writer_finalize _ inner path _ (app_world s4) (app_store s2)) as [[rf wf] bf] eqn:Hf.
  injection Hop as -> _ <-. by eapply writer_finalize_store in Hf.
Qed.

Lemma am_db_store {E A} (m : DB E A) s : app_store (am_db m s).2 = app_store s.
Proof. unfold am_db. by destruct (m _). Qed.

Lemma put_stored cx session path hs body a code a' :
  EntryPath_wf path → store_ok (app_store a) → key_ok (ep_key path) →
  put cx session path hs body a = (Ok code, a') →
  store_ok (app_store a') ∧ stored (ep_key path) (body_bytes body) (app_store a').
Proof.
  intros Hp Hok Hk. unfold put, with_write_lock. cbv [mbind am_bind am_map_err mret am_ret].
  pose proof (am_db_store (authorize_write session path true) a) as Ha1.
  destruct (am_db (authorize_write session path true) a) as [[user|] a1]; [|done].
  pose proof (am_db_store (fail_if_size_hint_exceeds_quota (content_length_from_headers hs) user (cx_default_quota_mb cx) path) a1) as Ha2.
  destruct (am_db (fail_if_size_hint_exceeds_quota _ _ _ _) a1) as [[[]|] a2]; [|done].
  pose proof (am_db_store (check_lock path hs) a2) as Ha3.
  destruct (am_db (check_lock path hs) a2) as [[token|] a3]; [|done].
  cbn in Ha1, Ha2, Ha3. unfold FileService_write_stream. cbv [mbind am_bind].
  destruct (OpendalService_write_stream _ _ path body a3) as [[[]|e] a4] eqn:Hw; [|done].
  apply write_stream_stored in Hw as [Hok4 Hst4]; [|done|by rewrite Ha3, Ha2, Ha1|done].
  unfold FileService_get_info. pose proof (am_db_store (EntryRepository_get_by_path path) a4) as Ha5.
  destruct (am_db (EntryRepository_get_by_path path) a4) as [[entry|[]] a5]; cbn; try done.
  intros [= _ <-]. cbn in Ha5. by rewrite Ha5.
Qed.

End Contract.

(** * Staged publication keeps the contract *)

Section StagedContract.
Context `{VersionedStoreLaws}.

#[export] Program Instance staged_contract : BackendContract (H := staged_backend) := {|
  store_ok := staged_ok;
  key_ok := user_object;
  uploading_to := λ key w c st,
    user_object key ∧ ∃ n, w = mk_StagedWriter (staging_name n) key ∧
      upload_of (staging_name n) (ss_uploads st) = Some (UploadOpen, c);
  expectation := observed;
  stored := λ key c st, ∃ g, settled key g c st;
|}.
Next Obligation.
  intros key b w b' Hok Hk Hop. destruct (open_ok key b Hok) as (Hok' & n & Hw & Hu).
  change (open_writer key b) with (StagedPublish_write key b) in Hop. rewrite Hop in *. injection Hw as ->.
  split; [done|]. split; [done|]. by exists n.
Qed.
Next Obligation.
  intros key w c bs b b' Hok (Hk & n & -> & Hu) Hw.
  change (writer_write ?w bs b) with (StagedWriter_write w bs b) in Hw.
  destruct (write_ok (mk_StagedWriter (staging_name n) key) bs b Hok) as [Hok' Hc]. rewrite Hw in *.
  split; [done|]. split; [done|]. exists n. split; [done|]. by apply Hc.
Qed.
Next Obligation.
  intros key w c b r b' Hok (Hk & n & -> & Hu) Hs. change (backend_stat key b) with (staged_stat key b) in Hs.
  pose proof (await_fate_ok b Hok) as Hok'. destruct (await_fate_spec b) as (os & rest & Hst & _).
  unfold staged_stat in Hs. destruct (await_fate b) as [answered b1]. cbn in Hok', Hst.
  assert (ss_uploads b1 = ss_uploads b) as Hub by by subst.
  assert (b' = b1) as -> by (destruct answered; by injection Hs as _ <-).
  split; [done|]. split; [split; [done|]; exists n; by rewrite Hub|].
  destruct answered; [|by injection Hs as <-].
  destruct (object_at key (ss_objects b1)) as [[g x]|] eqn:Ho; injection Hs as <-; [|done].
  destruct (live_generation_bounds _ _ _ _ Ho) as [Hg1 Hg2]. unfold parse_generation.
  rewrite parse_uint_show by lia. intros e [= <-]. cbn. lia.
Qed.
Next Obligation.
  intros key w c e b md b' Hok (Hk & n & -> & Hu) He Hc.
  change (writer_close e ?w b) with (StagedWriter_close e w b) in Hc.
  pose proof (close_ok n key e b c Hok Hu Hk He) as Hcl. rewrite Hc in Hcl. destruct Hcl as [Hok' Hcl].
  split; [done|]. destruct (Hcl ltac:(by destruct md)) as (_ & g & Hs & _). by exists g.
Qed.

(** ** Reading *)

(** The bytes of an object arrive in chunks of the store's choosing. *)
Class ChunkedReads := {
  read_chunks : list Z → list (list Z);
  read_chunks_concat c : concat (read_chunks c) = c;
}.

Context `{ChunkedReads}.

(** A [stat] with the length and an ETag, and a read that is refused when the
    ETag has changed; the stream of a read may break.  What an ETag looks like is
    the store's affair; all that matters is that every version has its own, and
    the text of the generation is one. *)
Definition staged_stat_length (path : str) (st : StagedState) : result OpendalError (Z * option str) * StagedState :=
  let '(answered, st) := await_fate st in
  if (answered : bool) then
    (match object_at path (ss_objects st) with
     | Some (g, c) => Ok (Z.of_nat (length c), Some (show_uint g))
     | None => Err (mk_OpendalError KNotFound None)
     end, st)
  else (Err unexpected, st).

Definition staged_read_range (path : str) (etag : option str) (n : Z) (st : StagedState)
    : result OpendalError (list (result () (list Z))) * StagedState :=
  let '(answered, st) := await_fate st in
  match object_at path (ss_objects st) with
  | None => (Err (mk_OpendalError KNotFound None), st)
  | Some (g, c) =>
      if match etag with Some v => negb (bool_decide (v = show_uint g)) | None => false end
      then (Err (mk_OpendalError KConditionNotMatch None), st)
      else (Ok (if (answered : bool) then map Ok (read_chunks (take (Z.to_nat n) c)) else [Err ()]), st)
  end.

#[export] Instance staged_reads : @ReadBackend staged_backend :=
  {| stat_length := staged_stat_length; read_range := staged_read_range |}.

Lemma settled_read `{PkarrKeys} path st g c n chunks :
  settled (ep_key path) g c st → store_answered path st n chunks → Forall (λ x, is_ok x = true) chunks →
  body_bytes chunks = c.
Proof.
  intros Hset (etag & b1 & b2 & Hs & Hr) Hall. cbn in Hs, Hr. unfold staged_stat_length in Hs.
  apply settled_await in Hset as Hset1. destruct (await_fate st) as [[] st1]; [|done]. cbn in Hset1.
  destruct Hset1 as [Ho1 Hn1]. rewrite Ho1 in Hs. injection Hs as <- <- <-. unfold staged_read_range in Hr.
  assert (settled (ep_key path) g c (await_fate st1).2) as [Ho2 _] by by apply settled_await.
  destruct (await_fate st1) as [answered st2]. cbn in Ho2. rewrite Ho2 in Hr.
  rewrite bool_decide_true in Hr by done. injection Hr as <- _.
  destruct answered; [|by apply Forall_cons in Hall as [? _]].
  rewrite body_bytes_ok, read_chunks_concat, Nat2Z.id. by rewrite take_ge.
Qed.

(** Keys of entries are not staging objects: they begin with a letter or digit
    of the owner's key, never with a dot. *)
Lemma ep_key_user `{PkarrKeysLaws} path : EntryPath_wf path → user_object (ep_key path).
Proof.
  intros Hp n. destruct Hp as [_ Hp]. rewrite Hp. cbn [ep_key EntryPath_new]. unfold PublicKey_z32.
  pose proof (pkarr_len (ep_pubkey path)) as Hl. pose proof (pkarr_ascii (ep_pubkey path)) as Ha.
  destruct (pkarr_to_string (ep_pubkey path)) as [|c s]; [done|]. specialize (Ha c ltac:(by left)).
  intros [= Hc _]. vm_compute in Hc. lia.
Qed.

End StagedContract.

(** * A file reads back as it was put *)

Section ReadBack.
Context `{PkarrKeysLaws, JsonStrings, VersionedStoreLaws, !ChunkedReads, !ContentTools}.
Context `{HttpTextLaws, PgRegex}.
Existing Instance staged_backend.

(** An answer with a body is a read of the store. *)
Lemma get_from_store headers session path params (a : App) r a' :
  users_wf (tables (app_world a)) → entries_wf (tables (app_world a)) → EntryPath_wf path →
  StoragePath_is_directory (ep_path path) = false →
  get headers session path params a = (Ok r, a') → rr_status r = 200 →
  ∃ n, store_answered path (app_store a) n (rr_body r).
Proof.
  intros Hu He Hp Hd. unfold get. cbv [mbind am_bind am_lift am_map_err mret am_ret].
  destruct (has_read_permission _ _ _) as [[]|]; [|done]. rewrite Hd.
  destruct (FileService_get_info path a) as [[entry|] a1] eqn:E1; [|done]. cbn [map_err].
  apply get_info_ok in E1 as (_ & Hb1 & _); [|done..]. destruct (is_not_modified headers entry); [by intros [= <- <-]|].
  destruct (OpendalService_get_sized_stream path a1) as [[[n cs]|] a2] eqn:E2; [|done].
  apply sized_stream_ok in E2 as [_ Hst]. intros [= <- <-] _. rewrite Hb1 in Hst. by exists n.
Qed.

(** (C2) What was put is what is read.  When [PUT] answers 201, the object
    store holds exactly the bytes of the body under the file's path, whatever
    happened to the requests on their way; and from then on, whatever else is
    done on the store short of a publish or delete against this very version,
    and however late earlier requests are executed, a [GET] of the file that
    answers 200 and whose stream does not break delivers exactly these
    bytes. *)
Theorem put_reads_back cx session path hs body (a : App) code a1 :
  EntryPath_wf path → staged_ok (app_store a) → put cx session path hs body a = (Ok code, a1) →
  ∃ g, object_at (ep_key path) (ss_objects (app_store a1)) = Some (g, body_bytes body) ∧
    ∀ ops (a2 : App) headers session' params r a3,
      ops_ok (app_store a1) ops → Forall (λ o, ¬ made_against (ep_key path) g o) ops →
      app_store a2 = foldl staged_step (app_store a1) ops →
      users_wf (tables (app_world a2)) → entries_wf (tables (app_world a2)) →
      StoragePath_is_directory (ep_path path) = false →
      get headers session' path params a2 = (Ok r, a3) → rr_status r = 200 →
      Forall (λ x, is_ok x = true) (rr_body r) → body_bytes (rr_body r) = body_bytes body.
Proof.
  intros Hp Hok Hput. pose proof (ep_key_user path Hp) as Hk.
  apply (put_stored (H3 := staged_contract)) in Hput as [Hok1 (g & Hset)]; [|done..]. exists g.
  split; [by destruct Hset|]. intros ops a2 headers session' params r a3 Hops Hne Ha2 Hu He Hd Hget Hst Hall.
  destruct (get_from_store _ _ _ _ _ _ _ Hu He Hp Hd Hget Hst) as (n & Hans).
  eapply settled_read; [|exact Hans|done]. rewrite Ha2.
  assert (0 < g) by (destruct Hset as [Ho _]; apply live_generation_bounds in Ho; lia).
  apply settled_run; [exact Hset|exact Hok1|done..].
Qed.

End ReadBack.

(** * Witness *)

#[local] Instance whole_reads : ChunkedReads := {| read_chunks c := [c]; read_chunks_concat := app_nil_r (A := Z) |}.

(** The removal of the staging object gets no answer and is executed later. *)
Definition staged_app : App :=
  mk_App (H := demo_keys) (H1 := staged_backend) (demo_storage [])
    (mk_StagedState [] [] [Answered; Answered; Answered; Answered; Answered; NoAnswer; LateExec 2] [] 0) [].

Lemma staged_app_ok : staged_ok (app_store staged_app).
Proof. split_and!; [constructor|done|done]. Qed.

Local Abbreviation staged_put := (put (H2 := demo_tools) demo_cx demo_session demo_file [] demo_body staged_app).

Lemma staged_put_ok : staged_put = (Ok 201, staged_put.2).
Proof. rewrite (surjective_pairing staged_put) at 1. f_equal. Qed.

Lemma put_reads_back_witness :
  staged_put.1 = Ok 201 ∧
  ∃ g, object_at (ep_key demo_file) (ss_objects (app_store staged_put.2)) = Some (g, lit "hello world").
Proof.
  split; [by rewrite staged_put_ok|].
  destruct (put_reads_back (H := demo_keys) (H5 := demo_tools) demo_cx demo_session demo_file [] demo_body staged_app 201
    staged_put.2) as (g & Hg & _).
  - split; vm_compute; reflexivity.
  - apply staged_app_ok.
  - exact staged_put_ok.
  - exists g. exact Hg.
Defined.
