(* ===== verification/Websites.v ===== *)
(** Websites served from public storage
    ([client_server/routes/website.rs]) and the cache policy of private
    storage ([client_server/cache_policy.rs]).

    Percent decoding and encoding belong to [percent_encoding], the syntax of
    host names to [hostname_validator]. *)

From S2P Require Import Prelude StoragePath Capabilities HttpError Keys Tenant Quota Database Users Authorization.
From S2P Require Import Entries EntryLocks Finalization Accounting AppState LockRoutes Uploads GcsRepair ReadRoutes Listing Refinement Reading.

(** [hostname_validator::is_valid]: labels of letters, digits and hyphens,
    separated by dots. *)
Class HostNames := { hostname_is_valid : str → bool }.
Class HostNamesLaws `{HostNames} := {
  hostname_chars h c : hostname_is_valid h = true → c ∈ h → is_ascii_alphanumeric c = true ∨ c = 45 ∨ c = 46;
  hostname_nonempty h : hostname_is_valid h = true → h ≠ [];
}.

(** * Headers of a response *)

(** [HeaderMap::insert] replaces every value, [remove] drops them. *)
Definition headers_remove (name : str) (hs : list (str * str)) : list (str * str) :=
  filter (λ kv, kv.1 ≠ name) hs.
Definition headers_insert (name value : str) (hs : list (str * str)) : list (str * str) :=
  headers_remove name hs ++ [(name, value)].
Definition header_values (name : str) (hs : list (str * str)) : list str :=
  map snd (filter (λ kv, kv.1 = name) hs).

Definition with_headers (f : list (str * str) → list (str * str)) (r : ReadResponse) : ReadResponse :=
  mk_ReadResponse (rr_status r) (f (rr_headers r)) (rr_body r).

(** [HttpError::into_response]. *)
Definition HttpError_into_response (e : HttpError) : ReadResponse :=
  let response := match detail e with
                  | Some detail => mk_ReadResponse (status e) [(lit "content-type", lit "text/plain; charset=utf-8")] [Ok detail]
                  | None => mk_ReadResponse (status e) [] []
                  end in
  match retry_after_secs e with
  | Some secs => with_headers (headers_insert (lit "retry-after") (show_uint secs)) response
  | None => response
  end.

(** * The request *)

Record HttpRequest := mk_HttpRequest {
  hq_method : str;
  hq_uri_host : option str;
  hq_request : Request
}.

Definition API_SEGMENTS : list str :=
  map lit ["account"; "auth"; "events"; "events-stream"; "info"; "priv"; "pub"; "session"; "signup"; "signup_tokens"; "storage"]%string.

Definition COLON : Z := 58.
Definition FULL_STOP : Z := 46.

(** [StoragePath::url_encode]. *)
Definition PATH_ENCODE_SET (c : Z) : bool :=
  negb (is_ascii_alphanumeric c) && negb (contains_char (lit "-_.~/") c).
Definition StoragePath_url_encode `{PercentEncoding} (self : StoragePath) : str :=
  utf8_percent_encode PATH_ENCODE_SET (as_str self).

Section Websites.
Context `{PkarrKeys, JsonStrings, !Backend, !ReadBackend, HttpText, PercentEncoding, HostNames}.
(** [percent_decode_str(..).decode_utf8()]. *)
Context (percent_decode_utf8 : str → option str).

Record Website := mk_Website {
  ws_owner : PublicKey;
  ws_root : str;
  ws_path : StoragePath;
  ws_target : StoragePath
}.

Definition is_label (label : str) : bool := negb (contains_char label FULL_STOP) && hostname_is_valid label.

Definition parse_host (host : str) (homeserver : PublicKey) : option (PublicKey * str) :=
  let host := map to_ascii_lowercase host in
  let host := match split_once COLON host with Some (hostname, _) => hostname | None => host end in
  let host := default host (strip_suffix_char host FULL_STOP) in
  '(label, key) ← match rsplit_once FULL_STOP host with
                  | Some (label, key) => if is_label label then Some (label, key) else None
                  | None => Some (lit "_", host)
                  end;
  owner ← ok (PublicKey_try_from_z32 key);
  if negb (bool_decide (PublicKey_z32 owner = key)) then None
  else if bool_decide (owner = homeserver) then None
  else Some (owner, label).

(** The [Host] header, or the host of an absolute request target. *)
Definition request_host (request : HttpRequest) : option str :=
  match headers_get (headers (hq_request request)) (lit "host") with
  | Some (Some host) => Some host
  | _ => hq_uri_host request
  end.

Inductive WebsiteError := WebsiteNotUtf8 | WebsiteInvalidPath (e : StoragePathError).

Definition WEBSITES_ROOT : str := lit "/pub/website/".

Definition Website_from_request (request : HttpRequest) (homeserver : PublicKey) : result WebsiteError (option Website) :=
  if negb (bool_decide (hq_method request ∈ [lit "GET"; lit "HEAD"])) then Ok None
  else
    let raw_path := uri_path (hq_request request) in
    let first_segment := default [] (split SLASH raw_path !! 1%nat) in
    if bool_decide (first_segment ∈ API_SEGMENTS) then Ok None
    else
      match (host ← request_host request; parse_host host homeserver) with
      | None => Ok None
      | Some (owner, label) =>
          decoded ← ok_or (percent_decode_utf8 raw_path) WebsiteNotUtf8;
          path ← map_err WebsiteInvalidPath (StoragePath_normalize decoded);
          let root := WEBSITES_ROOT ++ label in
          let index := if StoragePath_is_directory path then lit "index.html" else [] in
          target ← map_err WebsiteInvalidPath (StoragePath_new (root ++ as_str path ++ index));
          Ok (Some (mk_Website owner root path target))
      end.

(** [resolve]: the tenant and the site the next layer sees, or a 400. *)
Definition website_resolve (websites : bool) (homeserver : PublicKey) (request : HttpRequest) (tenant : option RequestTenant)
    : result WebsiteError (option RequestTenant * option Website) :=
  if negb websites then Ok (tenant, None)
  else
    site ← Website_from_request request homeserver;
    Ok match site with
       | Some site => (Some (RequestTenant_mapped (ws_owner site) (ws_target site)), Some site)
       | None => (tenant, None)
       end.

(** * The answer *)

Definition Website_entry (self : Website) (path : str) : AM HttpError (option (EntryPath * EntryEntity)) :=
  match StoragePath_new path with
  | Err _ => mret None
  | Ok path => λ s,
      let entry_path := EntryPath_new (ws_owner self) path in
      match FileService_get_info entry_path s with
      | (Ok entry, s) => (Ok (Some (entry_path, entry)), s)
      | (Err FileIoNotFound, s) => (Ok None, s)
      | (Err error, s) => (Err (HttpError_from_file_io error), s)
      end
  end.

Definition site_file (request : HttpRequest) (status : Z) (page : EntryPath * EntryEntity) : AM HttpError ReadResponse :=
  let '(entry_path, entry) := page in
  if (status =? 200) && is_not_modified (headers (hq_request request)) entry then mret (not_modified_response entry)
  else
    '(length, body) ← (if decide (hq_method request = lit "HEAD")
                       then length ← am_map_err HttpError_from_file_io (OpendalService_blob_length entry_path);
                            mret (length, [])
                       else am_map_err HttpError_from_file_io (OpendalService_get_sized_stream entry_path));
    let response := mk_ReadResponse status (to_response_headers entry length) body in
    mret (if status =? 200 then response
          else with_headers (λ hs, headers_remove (lit "last-modified") (headers_remove (lit "etag") hs)) response).

(** [tokio::try_join!] of two reads: both run, and [first] says whose error is
    reported when both fail. *)
Definition try_join {A B} (first : bool) (a : AM HttpError A) (b : AM HttpError B) : AM HttpError (A * B) :=
  if first then x ← a; y ← b; mret (x, y) else y ← b; x ← a; mret (x, y).

Definition Website_respond (first : bool) (self : Website) (request : HttpRequest) : AM HttpError ReadResponse :=
  let target := as_str (ws_target self) in
  '(_, page) ← try_join first (am_db (get_or_http_error (ws_owner self) true)) (Website_entry self target);
  match page with
  | Some page => site_file request 200 page
  | None =>
      redirect ← (if StoragePath_is_file (ws_path self)
                  then index ← Website_entry self (target ++ lit "/index.html"); mret (bool_decide (is_Some index))
                  else mret false);
      if redirect : bool then
        let location := StoragePath_url_encode (ws_path self) ++ [SLASH] in
        let location := match uri_query (hq_request request) with Some query => location ++ [63] ++ query | None => location end in
        mret (mk_ReadResponse 301 [(lit "location", location)] [])
      else
        page ← Website_entry self (ws_root self ++ lit "/404.html");
        match page with
        | Some page => site_file request 404 page
        | None => am_throw HttpError_not_found
        end
  end.

(** [serve], of a marked request. *)
Definition website_serve (first : bool) (site : Website) (request : HttpRequest) (s : App) : ReadResponse * App :=
  let '(r, s) := Website_respond first site request s in
  let response := match r with Ok response => response | Err e => HttpError_into_response e end in
  (with_headers (λ hs, headers_insert (lit "x-content-type-options") (lit "nosniff")
                         (headers_insert (lit "cache-control") (lit "no-cache") hs)) response, s).

(** * The cache policy *)

Definition is_private_tenant_request_path (raw_path : str) : bool :=
  if starts_with raw_path PRIVATE_ROOT then true
  else
    let decoded := default raw_path (percent_decode_utf8 raw_path) in
    if starts_with decoded PRIVATE_ROOT then true
    else match StoragePath_normalize decoded with
         | Ok path => starts_with (as_str path) PRIVATE_ROOT
         | Err _ => false
         end.

Definition NO_STORE : str := lit "no-store".
Definition PRIVATE_NO_CACHE : str := lit "private, no-cache".
Definition VARY_PRIVATE_LEGACY : str := lit "pubky-host, Authorization, Cookie".
Definition VARY_PRIVATE_PATH : str := lit "Authorization, Cookie".

Definition private_cache_control (response : ReadResponse) : str :=
  let served_or_unchanged := (rr_status response =? 200) || (rr_status response =? 304) in
  if served_or_unchanged && negb (bool_decide (header_values (lit "etag") (rr_headers response) = []))
  then PRIVATE_NO_CACHE else NO_STORE.

Definition apply_private_cache_headers (response : ReadResponse) (cache_control : str) (vary_on_pubky_host : bool) : ReadResponse :=
  with_headers (λ hs, headers_insert (lit "vary") (if vary_on_pubky_host then VARY_PRIVATE_LEGACY else VARY_PRIVATE_PATH)
                        (headers_insert (lit "cache-control") cache_control hs)) response.

Definition remove_validators (response : ReadResponse) : ReadResponse :=
  with_headers (λ hs, headers_remove (lit "last-modified") (headers_remove (lit "etag") hs)) response.

(** [private_cache_policy] of the next layer's response. *)
Definition private_cache_policy (tenant : option RequestTenant) (request : Request) (response : ReadResponse) : ReadResponse :=
  let mapped := tenant ← tenant; rt_storage_path tenant in
  let storage_path := match mapped with Some path => as_str path | None => uri_path request end in
  let vary_on_pubky_host := bool_decide (mapped = None) in
  if is_private_tenant_request_path storage_path then
    let response := apply_private_cache_headers response (private_cache_control response) vary_on_pubky_host in
    if 400 <=? rr_status response then remove_validators response else response
  else response.

Definition sse_cache_policy (response : ReadResponse) : ReadResponse :=
  apply_private_cache_headers response NO_STORE true.

(** * What a site answers *)

Section Answers.
Context (tb : Tables) (store : BackendState) (site : Website) (request : HttpRequest).

(** The owner's stored file of a path, if the path is one. *)
Definition page_at (path : str) (page : EntryPath * EntryEntity) : Prop :=
  ∃ p u e, StoragePath_new path = Ok p ∧ user_row (ws_owner site) tb = Some u ∧ entry_at tb u p e ∧
    page = (EntryPath_new (ws_owner site) p, entry_entity (EntryPath_new (ws_owner site) p) e).

(** [GET] sends the bytes the store answered with, [HEAD] none. *)
Definition store_sent (p : EntryPath) (n : Z) (body : list (result () (list Z))) : Prop :=
  if decide (hq_method request = lit "HEAD")
  then body = [] ∧ ∃ etag b', stat_length (ep_key p) store = (Ok (n, etag), b')
  else store_answered p store n body.

Inductive serves (page : EntryPath * EntryEntity) : Z → ReadResponse → Prop :=
| ServesUnchanged :
    is_not_modified (headers (hq_request request)) page.2 = true → serves page 200 (not_modified_response page.2)
| ServesPage n body :
    is_not_modified (headers (hq_request request)) page.2 = false → store_sent page.1 n body →
    serves page 200 (mk_ReadResponse 200 (to_response_headers page.2 n) body)
| ServesMissing n body :
    store_sent page.1 n body →
    serves page 404 (mk_ReadResponse 404 (headers_remove (lit "last-modified")
                       (headers_remove (lit "etag") (to_response_headers page.2 n))) body).

Definition site_location : str :=
  StoragePath_url_encode (ws_path site) ++ [SLASH] ++
  match uri_query (hq_request request) with Some query => [63] ++ query | None => [] end.

Definition folder_at : Prop :=
  StoragePath_is_file (ws_path site) = true ∧ ∃ page, page_at (as_str (ws_target site) ++ lit "/index.html") page.

(** The reference: the page, else a redirect to the folder, else the site's own
    404 page, else a plain 404. *)
Inductive site_answer : result HttpError ReadResponse → Prop :=
| SiteUnknown : user_row (ws_owner site) tb = None → site_answer (Err HttpError_not_found)
| SiteDisabled u e : user_row (ws_owner site) tb = Some u → u_disabled u = true → status e = 403 → site_answer (Err e)
| SitePage u page r :
    user_row (ws_owner site) tb = Some u → u_disabled u = false →
    page_at (as_str (ws_target site)) page → serves page 200 r → site_answer (Ok r)
| SiteFolder u :
    user_row (ws_owner site) tb = Some u → u_disabled u = false →
    (∀ page, ¬ page_at (as_str (ws_target site)) page) → folder_at →
    site_answer (Ok (mk_ReadResponse 301 [(lit "location", site_location)] []))
| SiteMissing u page r :
    user_row (ws_owner site) tb = Some u → u_disabled u = false →
    (∀ page, ¬ page_at (as_str (ws_target site)) page) → ¬ folder_at →
    page_at (ws_root site ++ lit "/404.html") page → serves page 404 r → site_answer (Ok r)
| SiteNothing u :
    user_row (ws_owner site) tb = Some u → u_disabled u = false →
    (∀ page, ¬ page_at (as_str (ws_target site)) page) → ¬ folder_at →
    (∀ page, ¬ page_at (ws_root site ++ lit "/404.html") page) → site_answer (Err HttpError_not_found)
(** A statement or the store failed. *)
| SiteFailed e : e = HttpError_internal_server ∨ (∃ x, e = HttpError_from_file_io (FileIoError_from_opendal x)) → site_answer (Err e).

End Answers.

Context `{!PkarrKeysLaws}.

(** A lookup, and a file that is sent, change nothing in the database. *)
Lemma entry_lookup site path a r a' :
  users_wf (tables (app_world a)) → entries_wf (tables (app_world a)) →
  Website_entry site path a = (r, a') →
  tables (app_world a') = tables (app_world a) ∧ app_store a' = app_store a ∧
  (r = Err HttpError_internal_server ∨
   (∃ page, r = Ok (Some page) ∧ page_at (tables (app_world a)) site path page) ∨
   (r = Ok None ∧ ∀ page, ¬ page_at (tables (app_world a)) site path page)).
Proof.
  intros Hu He. unfold Website_entry. destruct (StoragePath_new path) as [p|] eqn:Ep.
  2: { intros [= <- <-]. split_and!; [done..|]. right. right. split; [done|]. intros page (p & ? & ? & E & _). by rewrite Ep in E. }
  assert (EntryPath_wf (EntryPath_new (ws_owner site) p)) as Hwf.
  { split; [|done]. unfold StoragePath_new in Ep. destruct (validate_canonical path) as [[]|] eqn:Ev; [|done]. by injection Ep as <-. }
  unfold FileService_get_info, am_db. destruct (EntryRepository_get_by_path _ _) as [r1 w1] eqn:E.
  apply get_by_path_inv in E as [(Ht & _) Hr]; [|done..]. cbn [ep_pubkey ep_path EntryPath_new] in Hr.
  destruct Hr as [->|Hr]; [intros [= <- <-]; split_and!; [done..|by left]|].
  destruct (user_row (ws_owner site) _) as [u|] eqn:Eu.
  - destruct Hr as [(e & Hat & ->)|[-> Hno]]; intros [= <- <-]; (split_and!; [done..|]); right; [left|right].
    + eexists. split; [done|]. by exists p, u, e.
    + split; [done|]. intros page (p' & u' & e & Ep' & Eu' & Hat & _). rewrite Ep in Ep'. injection Ep' as <-.
      rewrite Eu in Eu'. injection Eu' as <-. by eapply Hno.
  - subst r1. intros [= <- <-]. split_and!; [done..|]. right. right. split; [done|].
    intros page (p' & u' & e & _ & Eu' & _). by rewrite Eu in Eu'.
Qed.

Lemma file_sent request st page a r a' :
  st = 200 ∨ st = 404 →
  site_file request st page a = (r, a') →
  tables (app_world a') = tables (app_world a) ∧
  match r with
  | Ok response => serves (app_store a) request page st response
  | Err e => ∃ x, e = HttpError_from_file_io (FileIoError_from_opendal x)
  end.
Proof.
  intros Hst. unfold site_file. destruct page as [p entry].
  destruct ((st =? 200) && is_not_modified _ entry) eqn:Em.
  { apply andb_true_iff in Em as [->%Z.eqb_eq Em]. intros [= <- <-]. split; [done|]. by apply (ServesUnchanged _ _ (p, entry)). }
  cbv [mbind am_bind am_map_err mret am_ret].
  assert (∀ n body b', store_sent (app_store a) request p n body →
    (if st =? 200 then mk_ReadResponse st (to_response_headers entry n) body
     else with_headers (λ hs, headers_remove (lit "last-modified") (headers_remove (lit "etag") hs))
            (mk_ReadResponse st (to_response_headers entry n) body)) = b' →
    serves (app_store a) request (p, entry) st b') as Hserve.
  { intros n body b' Hs <-. destruct Hst as [->| ->]; cbn [Z.eqb] in *.
    - by apply (ServesPage _ _ (p, entry)).
    - by apply (ServesMissing _ _ (p, entry)). }
  destruct (decide (hq_method request = lit "HEAD")) as [Hm|Hm].
  - unfold OpendalService_blob_length, am_map_err, am_blob. cbv [mbind am_bind mret am_ret].
    destruct (stat_length (ep_key p) (app_store a)) as [[[n etag]|x] b] eqn:E; cbn [map_err].
    + intros [= <- <-]. split; [done|]. eapply Hserve; [|done]. unfold store_sent. rewrite decide_True by done. eauto.
    + intros [= <- <-]. split; [done|]. by eexists.
  - destruct (OpendalService_get_sized_stream p a) as [[[n body]|x] a1] eqn:E; cbn [map_err].
    + apply sized_stream_ok in E as [Hw Hs]. intros [= <- <-]. split; [by rewrite Hw|]. eapply Hserve; [|done].
      unfold store_sent. by rewrite decide_False.
    + intros [= <- <-]. revert E. unfold OpendalService_get_sized_stream, am_map_err, am_blob. cbv [mbind am_bind mret am_ret].
      destruct (stat_length _ _) as [[[n1 etag]|y] b1]; cbn; [|intros [= <- <-]; split; [done|by eexists]].
      destruct (read_range _ _ _ _) as [[cs|y] b2]; cbn; [done|]. intros [= <- <-]. split; [done|by eexists].
Qed.

Definition found (tb : Tables) (site : Website) (path : str) (page : option (EntryPath * EntryEntity)) : Prop :=
  match page with Some x => page_at tb site path x | None => ∀ x, ¬ page_at tb site path x end.

Lemma owner_checked k a r a' :
  am_db (get_or_http_error k true) a = (r, a') →
  tables (app_world a') = tables (app_world a) ∧ app_store a' = app_store a ∧
  match r with
  | Ok _ => ∃ u, user_row k (tables (app_world a)) = Some u ∧ u_disabled u = false
  | Err e => e = HttpError_internal_server ∨
      match user_row k (tables (app_world a)) with
      | Some u => u_disabled u = true ∧ status e = 403
      | None => e = HttpError_not_found
      end
  end.
Proof.
  unfold am_db. destruct (get_or_http_error k true (app_world a)) as [r1 w1] eqn:E. intros [= <- <-].
  apply get_or_http_error_inv in E as [(Ht & _) Hr]. split_and!; [done..|].
  destruct Hr as [->|Hr]; [by left|]. cbn [andb] in Hr. destruct (user_row k _) as [u|].
  - destruct (u_disabled u) eqn:Ed; [|subst r1; by exists u]. destruct Hr as (e & -> & ?). by right.
  - subst r1. by right.
Qed.

Lemma owner_and_page first site path a r a' :
  users_wf (tables (app_world a)) → entries_wf (tables (app_world a)) →
  try_join first (am_db (get_or_http_error (ws_owner site) true)) (Website_entry site path) a = (r, a') →
  tables (app_world a') = tables (app_world a) ∧ app_store a' = app_store a ∧
  match r with
  | Ok (_, page) => (∃ u, user_row (ws_owner site) (tables (app_world a)) = Some u ∧ u_disabled u = false) ∧
      found (tables (app_world a)) site path page
  | Err e => e = HttpError_internal_server ∨
      match user_row (ws_owner site) (tables (app_world a)) with
      | Some u => u_disabled u = true ∧ status e = 403
      | None => e = HttpError_not_found
      end
  end.
Proof.
  intros Hu He. unfold try_join. destruct first; cbv [mbind am_bind mret am_ret].
  - destruct (am_db _ a) as [r1 a1] eqn:E1. apply owner_checked in E1 as (Ht1 & Hs1 & Hr1).
    destruct r1 as [x|e]; [|by intros [= <- <-]]. destruct (Website_entry site path a1) as [r2 a2] eqn:E2.
    apply entry_lookup in E2 as (Ht2 & Hs2 & Hr2); [|by rewrite Ht1..]. rewrite Ht1 in *. rewrite Hs1 in *.
    destruct Hr2 as [->|[(page & -> & Hp)|[-> Hp]]]; intros [= <- <-]; (split_and!; [done..|]); [by left|done|done].
  - destruct (Website_entry site path a) as [r2 a2] eqn:E2. apply entry_lookup in E2 as (Ht2 & Hs2 & Hr2); [|done..].
    destruct r2 as [page|e]; [|intros [= <- <-]; split_and!; [done..|]; left; destruct Hr2 as [?|[(? & ? & _)|[? _]]]; congruence].
    assert (found (tables (app_world a)) site path page) as Hf.
    { destruct Hr2 as [?|[(x & [= ->] & Hp)|[[= ->] Hp]]]; done. }
    destruct (am_db _ a2) as [r1 a1] eqn:E1. apply owner_checked in E1 as (Ht1 & Hs1 & Hr1). rewrite Ht2 in *. rewrite Hs2 in *.
    by destruct r1 as [x|e]; intros [= <- <-].
Qed.

(** The site's 404 page, when there is neither a page nor a folder. *)
Lemma missing_answered site request u a b r a' :
  users_wf (tables (app_world a)) → entries_wf (tables (app_world a)) →
  user_row (ws_owner site) (tables (app_world a)) = Some u → u_disabled u = false → app_store a = b →
  (∀ page, ¬ page_at (tables (app_world a)) site (as_str (ws_target site)) page) →
  ¬ folder_at (tables (app_world a)) site →
  (page ← Website_entry site (ws_root site ++ lit "/404.html");
   match page with Some page => site_file request 404 page | None => am_throw HttpError_not_found end) a = (r, a') →
  tables (app_world a') = tables (app_world a) ∧ site_answer (tables (app_world a)) b site request r.
Proof.
  intros Hu He Huser Hd <- Hno Hnf. cbv [mbind am_bind am_throw].
  destruct (Website_entry _ _ a) as [r3 a3] eqn:E3. apply entry_lookup in E3 as (Ht3 & Hs3 & Hr3); [|done..].
  destruct Hr3 as [->|[(page & -> & Hp)|[-> Hp]]].
  - intros [= <- <-]. split; [done|]. apply SiteFailed. by left.
  - intros [Ht4 Hr4]%file_sent; [|by right]. split; [congruence|]. rewrite Hs3 in Hr4.
    destruct r; [by eapply SiteMissing|by apply SiteFailed; right].
  - intros [= <- <-]. split; [done|]. by eapply SiteNothing.
Qed.

Lemma respond_answers first site request a r a' :
  users_wf (tables (app_world a)) → entries_wf (tables (app_world a)) →
  Website_respond first site request a = (r, a') →
  tables (app_world a') = tables (app_world a) ∧ site_answer (tables (app_world a)) (app_store a) site request r.
Proof.
  intros Hu He. unfold Website_respond. cbv zeta.
  pose proof (missing_answered site request) as Hmissing. revert Hmissing. cbv [mbind am_bind mret am_ret]. intros Hmissing.
  destruct (try_join _ _ _ a) as [r1 a1] eqn:E1. apply owner_and_page in E1 as (Ht1 & Hs1 & Hr1); [|done..].
  destruct r1 as [[x page]|e].
  2: { intros [= <- <-]. split; [done|]. destruct Hr1 as [->|Hr1]; [apply SiteFailed; by left|].
       destruct (user_row _ _) as [u|] eqn:Eu; [destruct Hr1; by eapply SiteDisabled|]. subst e. by apply SiteUnknown. }
  destruct Hr1 as [(u & Huser & Hd) Hf]. destruct page as [page|]; cbn [found] in Hf.
  { intros [Ht2 Hr2]%file_sent; [|by left]. split; [congruence|]. rewrite Hs1 in Hr2.
    destruct r; [by eapply SitePage|by apply SiteFailed; right]. }
  rewrite <-Ht1 in *. destruct (StoragePath_is_file (ws_path site)) eqn:Ef.
  - destruct (Website_entry site _ a1) as [r2 a2] eqn:E2. apply entry_lookup in E2 as (Ht2 & Hs2 & Hr2); [|done..].
    destruct Hr2 as [->|[(index & -> & Hi)|[-> Hi]]].
    + intros [= <- <-]. split; [done|]. apply SiteFailed. by left.
    + rewrite bool_decide_eq_true_2 by done. intros [= <- <-]. split; [done|].
      replace (match uri_query (hq_request request) with Some q => _ | None => _ end) with (site_location site request).
      * eapply SiteFolder; [done..|]. split; [done|]. by exists index.
      * unfold site_location. destruct (uri_query _); by rewrite <-?app_assoc, ?app_nil_r.
    + rewrite bool_decide_eq_false_2 by (by intros []). rewrite <-Ht2 in *. intros Hr.
      apply (Hmissing u _ (app_store a)) in Hr; [done..|congruence|done|]. intros [_ [page Hp]]. by apply (Hi page).
  - intros Hr. apply (Hmissing u _ (app_store a)) in Hr; [done..|]. intros [E _]. congruence.
Qed.

(** ** Sites *)

Context `{!HostNamesLaws}.

Lemma rsplit_once_inv c t a b : rsplit_once c t = Some (a, b) → t = a ++ c :: b.
Proof.
  unfold rsplit_once. destruct (split_once c (reverse t)) as [[x y]|] eqn:E; [|done]. intros [= <- <-].
  apply split_once_spec in E as [E _]. apply (f_equal reverse) in E. rewrite reverse_involutive in E.
  by rewrite E, reverse_app, reverse_cons, <-app_assoc.
Qed.

Lemma label_plain label : is_label label = true → label ≠ [] ∧ (SLASH ∉ label) ∧ (FULL_STOP ∉ label).
Proof.
  unfold is_label. rewrite andb_true_iff, negb_true_iff. intros [Hd Hv].
  assert (FULL_STOP ∉ label) as Hs.
  { intros Hc. assert (contains_char label FULL_STOP = true) as E; [|congruence]. apply existsb_exists.
    exists FULL_STOP. split; [by apply list_elem_of_In|done]. }
  split_and!; [by apply hostname_nonempty| |done]. intros Hc.
  destruct (hostname_chars label SLASH Hv Hc) as [?|[?|?]]; done.
Qed.

(** Only the bare key of another user names a site. *)
Lemma owner_accepted (key site_label : str) (homeserver owner : PublicKey) (label : str) :
  (owner ← ok (PublicKey_try_from_z32 key);
   if negb (bool_decide (PublicKey_z32 owner = key)) then None
   else if bool_decide (owner = homeserver) then None else Some (owner, site_label)) = Some (owner, label) →
  label = site_label ∧ owner ≠ homeserver ∧ PublicKey_z32 owner = key.
Proof.
  destruct (ok _) as [o|]; [|done]. cbn [mbind option_bind].
  destruct (bool_decide_reflect (PublicKey_z32 o = key)); [|done]. cbn [negb].
  destruct (bool_decide_reflect (o = homeserver)); [done|]. by intros [= <- <-].
Qed.

Lemma parse_host_inv host homeserver owner label :
  parse_host host homeserver = Some (owner, label) →
  owner ≠ homeserver ∧ (label ≠ [] ∧ (SLASH ∉ label) ∧ (FULL_STOP ∉ label)) ∧
  ∃ pre post, map to_ascii_lowercase host = pre ++ PublicKey_z32 owner ++ post.
Proof.
  unfold parse_host. set (h0 := map to_ascii_lowercase host). set (h1 := match split_once COLON h0 with Some _ => _ | None => _ end).
  set (h2 := default h1 (strip_suffix_char h1 FULL_STOP)).
  assert (∃ t, h0 = h1 ++ t) as [t1 Ht1].
  { unfold h1. destruct (split_once COLON h0) as [[x y]|] eqn:E; [|exists []; by rewrite app_nil_r].
    apply split_once_spec in E as [E _]. by eexists. }
  assert (∃ t, h1 = h2 ++ t) as [t2 Ht2].
  { unfold h2, strip_suffix_char. destruct (ends_with_char h1 FULL_STOP) eqn:E; cbn [default]; [|exists []; by rewrite app_nil_r].
    apply ends_with_char_spec in E as [x ->]. rewrite removelast_last. by eexists. }
  rewrite Ht1, Ht2. clearbody h2. clear Ht1 Ht2 h1 h0.
  destruct (rsplit_once FULL_STOP h2) as [[l key]|] eqn:E.
  - apply rsplit_once_inv in E as ->. destruct (is_label l) eqn:Hl; [|done].
    intros (-> & Hne & Hz)%(owner_accepted key l). split_and!; [done|by apply label_plain..|].
    exists (l ++ [FULL_STOP]), (t2 ++ t1). rewrite Hz. by rewrite <-!app_assoc.
  - intros (-> & Hne & Hz)%(owner_accepted h2 (lit "_")). split_and!; [done|done|by apply (bool_decide_unpack _)..|].
    exists [], (t2 ++ t1). rewrite Hz. by rewrite <-app_assoc.
Qed.

(** A site's pages are files in its folder. *)
Definition site_wf (site : Website) : Prop :=
  (∃ label, ws_root site = WEBSITES_ROOT ++ label ∧ label ≠ [] ∧ (SLASH ∉ label) ∧ (FULL_STOP ∉ label)) ∧
  StoragePath_wf (ws_target site) ∧ StoragePath_is_file (ws_target site) = true ∧
  starts_with (as_str (ws_target site)) (ws_root site ++ [SLASH]) = true.

Lemma normalized_slash path p : StoragePath_normalize path = Ok p → ∃ t, as_str p = SLASH :: t.
Proof.
  intros Hn%normalize_wf. apply starts_slash. unfold StoragePath_wf, validate_canonical in Hn.
  by destruct (starts_with_char (as_str p) SLASH).
Qed.

Lemma new_wf path p : StoragePath_new path = Ok p → as_str p = path ∧ StoragePath_wf p.
Proof. unfold StoragePath_new. destruct (validate_canonical path) as [[]|] eqn:E; [|done]. by intros [= <-]. Qed.

Lemma from_request_inv request homeserver site :
  Website_from_request request homeserver = Ok (Some site) →
  site_wf site ∧ ws_owner site ≠ homeserver ∧
  ∃ host pre post, request_host request = Some host ∧
    map to_ascii_lowercase host = pre ++ PublicKey_z32 (ws_owner site) ++ post.
Proof.
  unfold Website_from_request. destruct (negb _); [done|]. destruct (bool_decide _); [done|].
  destruct (request_host request) as [host|] eqn:Eh; [|done]. cbn [mbind option_bind].
  destruct (parse_host host homeserver) as [[owner label]|] eqn:Ep; [|done].
  apply parse_host_inv in Ep as (Hne & Hl & pre & post & Hz).
  destruct (percent_decode_utf8 _) as [d|]; [|done]. cbn [ok_or mbind result_bind].
  destruct (StoragePath_normalize d) as [path|] eqn:En; [|done]. cbn [map_err mbind result_bind].
  destruct (StoragePath_new _) as [target|] eqn:Et; [|done]. cbn [map_err mbind result_bind]. intros [= <-].
  apply new_wf in Et as [Et Hw]. destruct (normalized_slash _ _ En) as [t Hp].
  split; [|split; [done|by exists host, pre, post]]. split_and!; cbn [ws_root ws_target].
  - by exists label.
  - done.
  - unfold StoragePath_is_file, StoragePath_is_directory. rewrite Et. unfold StoragePath_is_directory.
    destruct (ends_with_char (as_str path) SLASH) eqn:Ed.
    + apply negb_true_iff, not_true_iff_false. rewrite ends_with_char_spec. intros [x Hx]. rewrite !app_assoc in Hx.
      apply (f_equal last) in Hx. rewrite last_snoc, last_app in Hx. done.
    + unfold ends_with_char in *. rewrite app_nil_r, last_app. destruct (last (as_str path)) as [z|] eqn:El; [by rewrite Ed|].
      rewrite Hp in El. apply last_None in El. done.
  - apply starts_with_spec. rewrite Et, Hp. exists (t ++ (if StoragePath_is_directory path then lit "index.html" else [])).
    by rewrite <-!app_assoc.
Qed.

(** ** Headers *)

Lemma removed_same name hs : header_values name (headers_remove name hs) = [].
Proof.
  unfold header_values, headers_remove. induction hs as [|[k x] hs IH]; [done|].
  rewrite filter_cons. case_decide; [|done]. by rewrite filter_cons_False.
Qed.

Lemma removed_other name other hs : name ≠ other → header_values name (headers_remove other hs) = header_values name hs.
Proof.
  intros Hne. unfold header_values, headers_remove. rewrite list_filter_filter.
  by rewrite (list_filter_iff _ (λ kv, kv.1 = name)) by (intros [k x]; cbn; split; [tauto|intros ->; done]).
Qed.

Lemma header_values_app name hs hs' : header_values name (hs ++ hs') = header_values name hs ++ header_values name hs'.
Proof. unfold header_values. by rewrite filter_app, map_app. Qed.

Lemma inserted_same name v hs : header_values name (headers_insert name v hs) = [v].
Proof. unfold headers_insert. rewrite header_values_app, removed_same. unfold header_values. by rewrite filter_cons_True. Qed.

Lemma inserted_other name other v hs : name ≠ other → header_values name (headers_insert other v hs) = header_values name hs.
Proof.
  intros Hne. unfold headers_insert. rewrite header_values_app, removed_other by done. unfold header_values at 2.
  rewrite filter_cons_False by done. by rewrite app_nil_r.
Qed.

(** ** The claims *)

(** (C25) A website is served from its owner's folder, and only from there.  A
    request is taken as one for a site only if its host names the key of a user
    other than the home server's; whatever its path, with dots and escapes, the
    file it asks for lies in the folder of that user's site.  The answer is the
    stored page, unchanged or with the bytes the store answers with; else, for
    a folder with an index, a redirect to it; else the site's own 404 page
    without validators; else 404 - and 403 or 404 for a disabled or unknown
    owner - or a statement or the store failed.  Nothing is changed, and every
    answer is marked to be revalidated and not to be sniffed. *)
Theorem website_answers request homeserver site :
  Website_from_request request homeserver = Ok (Some site) →
  site_wf site ∧ ws_owner site ≠ homeserver ∧
  (∃ host pre post, request_host request = Some host ∧
     map to_ascii_lowercase host = pre ++ PublicKey_z32 (ws_owner site) ++ post) ∧
  ∀ first a r a',
    users_wf (tables (app_world a)) → entries_wf (tables (app_world a)) →
    website_serve first site request a = (r, a') →
    tables (app_world a') = tables (app_world a) ∧
    header_values (lit "cache-control") (rr_headers r) = [lit "no-cache"] ∧
    header_values (lit "x-content-type-options") (rr_headers r) = [lit "nosniff"] ∧
    ∃ answer, site_answer (tables (app_world a)) (app_store a) site request answer ∧
      let response := match answer with Ok response => response | Err e => HttpError_into_response e end in
      rr_status r = rr_status response ∧ rr_body r = rr_body response ∧
      ∀ name, name ≠ lit "cache-control" → name ≠ lit "x-content-type-options" →
        header_values name (rr_headers r) = header_values name (rr_headers response).
Proof.
  intros (Hw & Hne & Hh)%from_request_inv. split_and!; [done..|]. intros first a r a' Hu He. unfold website_serve.
  destruct (Website_respond first site request a) as [answer a1] eqn:E. intros [= <- <-].
  apply respond_answers in E as [Ht Ha]; [|done..]. cbn [rr_headers rr_status rr_body with_headers]. split_and!.
  - done.
  - by rewrite inserted_other, inserted_same by done.
  - apply inserted_same.
  - exists answer. split_and!; [done..|]. intros name Hcache Hsniff. by rewrite !inserted_other by done.
Qed.

(** The path the handlers of a storage request are given: that of the storage
    route, or the captured rest of a deprecated route, decoded. *)
Definition handled_path (tenant : option RequestTenant) (request : Request) : option StoragePath :=
  match (tenant ← tenant; rt_storage_path tenant), uri_path request with
  | Some path, _ => Some path
  | None, _ :: rest => decoded ← percent_decode_utf8 rest; ok (WebDavPathAxum_from_str decoded)
  | None, [] => None
  end.

Lemma private_seen tenant request p :
  (∀ rest decoded, percent_decode_utf8 rest = Some decoded → percent_decode_utf8 (SLASH :: rest) = Some (SLASH :: decoded)) →
  starts_with_char (uri_path request) SLASH = true →
  handled_path tenant request = Some p → starts_with (as_str p) PRIVATE_ROOT = true →
  is_private_tenant_request_path match (tenant ← tenant; rt_storage_path tenant) with
                                 | Some path => as_str path | None => uri_path request end = true.
Proof.
  intros Hdec [t Ht]%starts_slash Hp Hpriv. unfold handled_path in Hp. destruct (tenant ≫= _) as [path|].
  - injection Hp as ->. unfold is_private_tenant_request_path. by rewrite Hpriv.
  - rewrite Ht in *. destruct (percent_decode_utf8 t) as [d|] eqn:Ed; [|done]. cbn [mbind option_bind] in Hp.
    unfold is_private_tenant_request_path. destruct (starts_with (SLASH :: t) PRIVATE_ROOT); [done|].
    rewrite (Hdec t d Ed). cbv zeta. cbn [from_option id]. destruct (starts_with (SLASH :: d) PRIVATE_ROOT); [done|].
    unfold WebDavPathAxum_from_str in Hp. destruct (StoragePath_normalize (SLASH :: d)) as [q|]; [|done].
    cbn [map_err ok] in Hp. by injection Hp as ->.
Qed.

(** (C26) Private files stay out of shared caches.  Whenever the path a storage
    request is handled for is private, however it is written in the URL, the
    answer forbids storing it, or lets the caller's own cache keep a file it
    must revalidate; it depends on the credentials, and on the [pubky-host]
    header where that names the owner; and an error carries no validators. *)
Theorem private_never_shared tenant request p response :
  (∀ rest decoded, percent_decode_utf8 rest = Some decoded → percent_decode_utf8 (SLASH :: rest) = Some (SLASH :: decoded)) →
  starts_with_char (uri_path request) SLASH = true →
  handled_path tenant request = Some p → starts_with (as_str p) PRIVATE_ROOT = true →
  let r := private_cache_policy tenant request response in
  rr_status r = rr_status response ∧ rr_body r = rr_body response ∧
  header_values (lit "cache-control") (rr_headers r)
  = [if ((rr_status r =? 200) || (rr_status r =? 304)) && negb (bool_decide (header_values (lit "etag") (rr_headers r) = []))
     then PRIVATE_NO_CACHE else NO_STORE] ∧
  header_values (lit "vary") (rr_headers r)
  = [match (tenant ← tenant; rt_storage_path tenant) with Some _ => VARY_PRIVATE_PATH | None => VARY_PRIVATE_LEGACY end] ∧
  (400 ≤ rr_status r →
   header_values (lit "etag") (rr_headers r) = [] ∧ header_values (lit "last-modified") (rr_headers r) = []).
Proof.
  intros Hdec Hs Hp Hpriv. unfold private_cache_policy. rewrite (private_seen tenant request p) by done.
  unfold apply_private_cache_headers, remove_validators, private_cache_control, with_headers. cbn [rr_status rr_headers rr_body].
  destruct (Z.leb_spec 400 (rr_status response)) as [Hle|Hlt]; cbn [rr_status rr_headers rr_body].
  - rewrite !(proj2 (Z.eqb_neq (rr_status response) _)) by lia. cbn [orb andb]. split_and!; try done.
    + by rewrite !removed_other, inserted_other, inserted_same by done.
    + rewrite !removed_other, inserted_same by done. by destruct (tenant ≫= _).
    + intros _. by rewrite removed_same, removed_other, removed_same by done.
  - split_and!; try done; [| |lia].
    + rewrite inserted_other, inserted_same by done. by rewrite !inserted_other by done.
    + rewrite inserted_same. by destruct (tenant ≫= _).
Qed.

End Websites.

(** * Witnesses *)

(** A demonstration key names no host with a port, so its text is the host. *)
#[local] Instance demo_hosts : HostNames := {| hostname_is_valid h := bool_decide (h ≠ []) && forallb (λ c, is_ascii_alphanumeric c || (c =? 45) || (c =? 46)) h |}.
#[local] Instance demo_hosts_laws : HostNamesLaws.
Proof.
  split; cbn [hostname_is_valid demo_hosts].
  - intros h c [_ Hf]%andb_true_iff Hc. rewrite forallb_forall in Hf. apply list_elem_of_In, Hf in Hc. rewrite !orb_true_iff, !Z.eqb_eq in Hc. tauto.
  - intros h [Hn%bool_decide_eq_true _]%andb_true_iff. done.
Qed.

#[local] Instance demo_percent : PercentEncoding := {| percent_escape c := [PERCENT; c] |}.

(** A request for a folder of a user's site that has no index. *)
Definition demo_site_request : HttpRequest :=
  mk_HttpRequest (lit "GET") None (mk_Request (lit "/x/../a/.") None [(lit "host", Some (lit "BLOG." ++ demo_z32 true ++ lit ".:80"))]).

Definition demo_site : Website (H := demo_keys) :=
  mk_Website (H := demo_keys) true (lit "/pub/website/blog") (mk_StoragePath (lit "/a/")) (mk_StoragePath (lit "/pub/website/blog/a/index.html")).

Lemma website_answers_witness :
  Website_from_request (H := demo_keys) Some demo_site_request false = Ok (Some demo_site) ∧
  ∃ r a', website_serve (H := demo_keys) (H2 := demo_reads) true demo_site demo_site_request demo_stored_app = (r, a') ∧
    rr_status r = 404 ∧ header_values (lit "cache-control") (rr_headers r) = [lit "no-cache"].
Proof.
  assert (Website_from_request (H := demo_keys) Some demo_site_request false = Ok (Some demo_site)) as Hsite by (vm_compute; reflexivity).
  split; [exact Hsite|]. eexists _, _. split; [vm_compute; reflexivity|]. split; [reflexivity|].
  refine (proj1 (proj2 (proj2 (proj2 (proj2 (website_answers (H := demo_keys) (H2 := demo_reads) Some demo_site_request false demo_site Hsite)))
    true demo_stored_app _ _ _ _ _))).
  - apply demo_storage_wf.
  - apply demo_storage_wf.
  - vm_compute. reflexivity.
Defined.

(** A private file, read over a deprecated route in a roundabout way. *)
Lemma private_never_shared_witness :
  header_values (lit "cache-control")
    (rr_headers (private_cache_policy (H := demo_keys) Some (Some (RequestTenant_legacy (H := demo_keys) true))
       (mk_Request (lit "/x/../priv/a.txt") None []) (mk_ReadResponse 200 [(lit "etag", lit "t"); (lit "cache-control", lit "public")] [])))
  = [PRIVATE_NO_CACHE].
Proof.
  pose proof (private_never_shared (H := demo_keys) Some (Some (RequestTenant_legacy (H := demo_keys) true)) (mk_Request (lit "/x/../priv/a.txt") None [])
    (mk_StoragePath (lit "/priv/a.txt")) (mk_ReadResponse 200 [(lit "etag", lit "t"); (lit "cache-control", lit "public")] [])) as Hp.
  destruct Hp as (_ & _ & Hc & _).
  - intros rest decoded E. injection E as <-. reflexivity.
  - reflexivity.
  - vm_compute. reflexivity.
  - reflexivity.
  - exact Hc.
Defined.
