(* ===== verification/SdkLocks.v ===== *)
(** Locks of the client ([pubky-sdk/src/actors/storage/lock.rs]): the requests a
    session makes to lock a path, to write under the lock and to release it, and
    what it reads of the answers; with the server of [LockRoutes] at the other
    end. *)

From S2P Require Import Prelude StoragePath Capabilities HttpError Keys Tenant Quota Database Users.
From S2P Require Import Authorization EntryLocks Finalization AppState LockRoutes.

(** * The client *)

(** [HeaderMap] of an answer: names in lower case, values that are visible ASCII. *)
Definition answer_headers (resp : Response) : HeaderMap :=
  map (λ kv, (map to_ascii_lowercase kv.1, if forallb (λ c, (32 <=? c) && (c <=? 126)) kv.2 then Some kv.2 else None)) (resp_headers resp).

(** Durations are whole seconds of a [u64]. *)
Definition timeout_header (timeout : Z) : str := lit "Second-" ++ show_uint (Z.max timeout 1).

Definition granted_token (headers : HeaderMap) : option str :=
  v ← headers_get headers (lit "lock-token");
  value ← v;
  token ← strip_prefix (trim value) (lit "<");
  token ← strip_suffix_char token 62;
  if starts_with token LOCK_TOKEN_SCHEME then Some token else None.

Definition granted_timeout (headers : HeaderMap) : option Z :=
  v ← headers_get headers (lit "timeout");
  value ← v;
  seconds ← strip_prefix (trim value) (lit "Second-");
  parse_uint U64_MAX seconds.

(** [check_http_status], and a lock without its token. *)
Inductive LockError := LockServer (status : Z) | LockWithoutToken.

Definition check_answer (resp : Response) : result LockError Response :=
  if (200 <=? resp_status resp) && (resp_status resp <? 300) then Ok resp else Err (LockServer (resp_status resp)).

Section SdkLocks.
Context `{PkarrKeys, JsonStrings}.

(** The token is a whole URL, scheme and all. *)
Record StorageLock := mk_StorageLock { sl_path : StoragePath; sl_token : str; sl_timeout : Z }.

Definition if_header (l : StorageLock) : str := lit "(<" ++ sl_token l ++ lit ">)".
Definition StorageLock_lock_token_header (l : StorageLock) : str := lit "<" ++ sl_token l ++ lit ">".

Record StorageRequest := mk_StorageRequest { sr_method : str; sr_path : EntryPath; sr_headers : HeaderMap; sr_body : Body }.

Definition lock_request (user : PublicKey) (path : StoragePath) (timeout : Z) : StorageRequest :=
  mk_StorageRequest (lit "LOCK") (EntryPath_new user path) [(lit "timeout", Some (timeout_header timeout))] (Some []).

Definition lock_granted (path : StoragePath) (timeout : Z) (resp : Response) : result LockError StorageLock :=
  resp ← check_answer resp;
  token ← ok_or (granted_token (answer_headers resp)) LockWithoutToken;
  Ok (mk_StorageLock path token (default timeout (granted_timeout (answer_headers resp)))).

Definition refresh_request (user : PublicKey) (l : StorageLock) (timeout : Z) : StorageRequest :=
  mk_StorageRequest (lit "LOCK") (EntryPath_new user (sl_path l))
    [(lit "if", Some (if_header l)); (lit "timeout", Some (timeout_header timeout))] (Some []).

Definition refresh_granted (l : StorageLock) (timeout : Z) (resp : Response) : result LockError StorageLock :=
  resp ← check_answer resp;
  Ok (mk_StorageLock (sl_path l) (sl_token l) (default timeout (granted_timeout (answer_headers resp)))).

Definition unlock_request (user : PublicKey) (l : StorageLock) : StorageRequest :=
  mk_StorageRequest (lit "UNLOCK") (EntryPath_new user (sl_path l)) [(lit "lock-token", Some (StorageLock_lock_token_header l))] (Some []).

Definition put_locked_request (user : PublicKey) (l : StorageLock) (body : Body) : StorageRequest :=
  mk_StorageRequest (lit "PUT") (EntryPath_new user (sl_path l)) [(lit "if", Some (if_header l))] body.

Definition delete_locked_request (user : PublicKey) (l : StorageLock) : StorageRequest :=
  mk_StorageRequest (lit "DELETE") (EntryPath_new user (sl_path l)) [(lit "if", Some (if_header l))] (Some []).

(** The server's answer; [token] is the UUID it draws for a new lock. *)
Definition serve_lock (token : str) (session : AuthSession) (uri_path : str) (r : StorageRequest) : DB HttpError Response :=
  dispatch token (Some session) (sr_path r) (sr_method r) uri_path (sr_headers r) (sr_body r).

End SdkLocks.

(** * What the two sides make of each other's headers *)

(** A UUID is made of such characters. *)
Definition uuid_char (c : Z) : Prop := token_char c ∧ 32 ≤ c ≤ 126.

Lemma digit_char n c : 0 ≤ n → c ∈ show_uint n → 48 ≤ c ≤ 57.
Proof.
  intros Hn Hc. destruct (show_uint_spec n Hn) as (_ & Hd & _). rewrite forallb_forall in Hd. apply list_elem_of_In, Hd in Hc.
  unfold is_ascii_digit in Hc. lia.
Qed.

Lemma parse_uint_show_all hi n : 0 ≤ n → parse_uint hi (show_uint n) = if n <=? hi then Some n else None.
Proof.
  intros Hn. destruct (Z.leb_spec n hi); [by apply parse_uint_show|]. destruct (parse_uint hi (show_uint n)) as [m|] eqn:E; [|done].
  assert (parse_uint n (show_uint n) = Some n) as E' by (apply parse_uint_show; lia). unfold parse_uint in E, E'.
  destruct (parse_digits _) as [k|]; [|done]. cbn in E, E'. destruct (Z.leb_spec k hi); [|done]. destruct (Z.leb_spec k n); [|done].
  injection E' as ->. lia.
Qed.

Lemma parse_int_show lo hi n : 0 ≤ n → parse_int lo hi (show_uint n) = if n <=? hi then Some n else None.
Proof.
  intros Hn. unfold parse_int. destruct (show_uint n) as [|c s] eqn:E; [by destruct (show_uint_spec n Hn) as (Hne & _)|].
  pose proof (show_uint_head n c s Hn E) as Hd. unfold is_ascii_digit in Hd. destruct (Z.eqb_spec c 45); [lia|].
  rewrite <-E. by apply parse_uint_show_all.
Qed.

Definition plain_char (c : Z) : Prop := is_whitespace c = false ∧ c ≠ COMMA ∧ 32 ≤ c ≤ 126.

Lemma digit_plain c : 48 ≤ c ≤ 57 → plain_char c.
Proof. intros Hc. unfold plain_char, is_whitespace, COMMA. split_and!; [|lia..]. repeat (apply orb_false_iff; split); lia. Qed.

Lemma second_plain n : 0 ≤ n → Forall plain_char (lit "Second-" ++ show_uint n).
Proof.
  intros Hn. apply Forall_app. split; [|apply Forall_forall; intros c Hc; eapply digit_plain, digit_char; done].
  repeat constructor; by vm_compute.
Qed.

(** The server reads the time the client asks for, up to its own limit; what
    does not fit its integers it takes for no wish at all. *)
Lemma requested_of_client t hs :
  0 ≤ t → headers_get hs (lit "timeout") = Some (Some (timeout_header t)) →
  requested_timeout hs = if t <=? I64_MAX then Z.min MAX_LOCK_TIMEOUT_SECS (Z.max t 1) else DEFAULT_LOCK_TIMEOUT_SECS.
Proof.
  intros Ht Hh. unfold requested_timeout. rewrite Hh. unfold timeout_header. set (n := Z.max t 1). assert (0 ≤ n) as Hn by lia.
  pose proof (second_plain n Hn) as Hp. rewrite split_no_sep_id.
  2: { intros Hc. rewrite Forall_forall in Hp. by destruct (Hp _ Hc) as (_ & ? & _). }
  cbn [map find_map]. rewrite trim_plain by (eapply Forall_impl; [exact Hp|]; by intros c (? & _)).
  unfold timeout_part. assert (eq_ignore_ascii_case (lit "Second-" ++ show_uint n) (lit "infinite") = false) as ->.
  { unfold eq_ignore_ascii_case. apply bool_decide_eq_false. by vm_compute. }
  rewrite strip_prefix_app. cbn [mbind option_bind]. rewrite parse_int_show by done.
  assert ((n <=? I64_MAX) = (t <=? I64_MAX)) as ->.
  { unfold I64_MAX in *. destruct (Z.leb_spec t 9223372036854775807), (Z.leb_spec n 9223372036854775807); lia. }
  destruct (t <=? I64_MAX); [|done]. cbn. unfold clamp, MAX_LOCK_TIMEOUT_SECS. lia.
Qed.

Lemma visible_plain s : Forall plain_char s → forallb (λ c, (32 <=? c) && (c <=? 126)) s = true.
Proof. intros Hs. apply forallb_forall. intros c Hc%list_elem_of_In. rewrite Forall_forall in Hs. destruct (Hs c Hc) as (_ & _ & ?). lia. Qed.

Lemma granted_timeout_of l root n created :
  0 ≤ n ≤ U64_MAX → granted_timeout (answer_headers (lock_response l root n created)) = Some n.
Proof.
  intros Hn. pose proof (second_plain n ltac:(lia)) as Hp. unfold granted_timeout.
  assert (headers_get (answer_headers (lock_response l root n created)) (lit "timeout") = Some (Some (lit "Second-" ++ show_uint n))) as ->.
  { unfold answer_headers, lock_response. cbn [resp_headers map fst snd]. rewrite (visible_plain (lit "Second-" ++ show_uint n)) by done. reflexivity. }
  cbn [mbind option_bind]. rewrite trim_plain by (eapply Forall_impl; [exact Hp|]; by intros c (? & _)).
  rewrite strip_prefix_app. cbn [mbind option_bind]. by apply parse_uint_show.
Qed.

Lemma scheme_uuid token : Forall uuid_char token → Forall uuid_char (LOCK_TOKEN_SCHEME ++ token).
Proof. intros Ht. apply Forall_app. split; [|done]. repeat constructor; by vm_compute. Qed.

Lemma granted_token_of l root n :
  Forall uuid_char (l_token l) → granted_token (answer_headers (lock_response l root n true)) = Some (LOCK_TOKEN_SCHEME ++ l_token l).
Proof.
  intros Ht. pose proof (scheme_uuid _ Ht) as Hu. set (url := LOCK_TOKEN_SCHEME ++ l_token l) in *.
  assert (Forall (λ c, is_whitespace c = false ∧ 32 ≤ c ≤ 126) (lit "<" ++ url ++ lit ">")) as Hv.
  { rewrite !Forall_app. split_and!; [repeat constructor; by vm_compute| |repeat constructor; by vm_compute].
    eapply Forall_impl; [exact Hu|]. intros c ((_ & _ & ?) & ?). done. }
  unfold granted_token.
  assert (headers_get (answer_headers (lock_response l root n true)) (lit "lock-token") = Some (Some (lit "<" ++ url ++ lit ">"))) as ->.
  { unfold answer_headers, lock_response. cbn [resp_headers map fst snd]. fold url.
    assert (forallb (λ c, (32 <=? c) && (c <=? 126)) (lit "<" ++ url ++ lit ">") = true) as ->; [|reflexivity].
    apply forallb_forall. intros c Hc%list_elem_of_In. rewrite Forall_forall in Hv. destruct (Hv c Hc) as [_ ?]. lia. }
  cbn [mbind option_bind]. rewrite trim_plain by (eapply Forall_impl; [exact Hv|]; by intros c (? & _)).
  rewrite strip_prefix_app. cbn [mbind option_bind]. change (lit ">") with [62]. unfold strip_suffix_char.
  rewrite (proj2 (ends_with_char_spec _ _)) by eauto. rewrite removelast_last. cbn [mbind option_bind].
  rewrite (proj2 (starts_with_spec url LOCK_TOKEN_SCHEME)); [done|]. by apply prefix_app_r.
Qed.

(** The token a client presents is the one it was given. *)
Lemma tokens_presented `{PkarrKeys} (l : StorageLock) token rest :
  Forall uuid_char token → sl_token l = LOCK_TOKEN_SCHEME ++ token → Forall (λ kv, kv.1 ≠ lit "if") rest →
  if_header_tokens ((lit "if", Some (if_header l)) :: rest) = [token].
Proof.
  intros Ht Hl Hrest. assert (∀ v, if_header_tokens ((lit "if", Some v) :: rest) = omap (λ url, strip_prefix url LOCK_TOKEN_SCHEME) (coded_urls v ++ [])) as ->.
  { intros v. unfold if_header_tokens, headers_get_all. rewrite filter_cons_True by done. by rewrite (filter_none _ rest). }
  unfold if_header. rewrite Hl.
  replace (lit "(<" ++ (LOCK_TOKEN_SCHEME ++ token) ++ lit ">)") with ([40] ++ 60 :: (LOCK_TOKEN_SCHEME ++ token) ++ 62 :: [41]) by reflexivity.
  rewrite coded_urls_one; [|by intros [=]%list_elem_of_singleton..|].
  - cbn [app]. unfold omap, list_omap. by rewrite strip_prefix_app.
  - eapply Forall_impl; [exact (scheme_uuid _ Ht)|]. by intros c [? _].
Qed.

Lemma token_released `{PkarrKeys} (user : PublicKey) (l : StorageLock) token :
  Forall uuid_char token → sl_token l = LOCK_TOKEN_SCHEME ++ token →
  LockRoutes.lock_token_header (sr_headers (unlock_request user l)) = Some token.
Proof.
  intros Ht Hl. cbn [unlock_request sr_headers]. rewrite lock_token_header_one. unfold StorageLock_lock_token_header. rewrite Hl.
  change (lit "<" ++ (LOCK_TOKEN_SCHEME ++ token) ++ lit ">") with ([] ++ 60 :: (LOCK_TOKEN_SCHEME ++ token) ++ 62 :: []).
  rewrite coded_urls_one; [|by intros ?%not_elem_of_nil..|].
  - apply strip_prefix_app.
  - eapply Forall_impl; [exact (scheme_uuid _ Ht)|]. by intros c [? _].
Qed.

(** * The life of a lock *)

Section Life.
Context `{PkarrKeysLaws, JsonStrings}.

(** What the server is asked by each request. *)
Lemma serve_lock_lock token session root user path timeout w :
  serve_lock token session root (lock_request user path timeout) w
  = lock token (Some session) (EntryPath_new user path) root [(lit "timeout", Some (timeout_header timeout))] (Some []) w.
Proof. reflexivity. Qed.

(** What the server gives for the time the client asks for. *)
Definition granted_for (timeout : Z) : Z :=
  if timeout <=? I64_MAX then Z.min MAX_LOCK_TIMEOUT_SECS (Z.max timeout 1) else DEFAULT_LOCK_TIMEOUT_SECS.

Lemma granted_for_range timeout : 1 ≤ granted_for timeout ≤ 60.
Proof. unfold granted_for, MAX_LOCK_TIMEOUT_SECS, DEFAULT_LOCK_TIMEOUT_SECS. destruct (_ <=? _); lia. Qed.

(** A granted lock is the client's: the answer reads as a lock with the token
    and the lifetime the server gave it. *)
Lemma lock_is_granted token session root user path timeout w resp w' :
  locks_wf (tables w) → Forall uuid_char token → 0 ≤ timeout →
  serve_lock token session root (lock_request user path timeout) w = (Ok resp, w') →
  lock_granted path timeout resp = Ok (mk_StorageLock path (LOCK_TOKEN_SCHEME ++ token) (granted_for timeout)) ∧
  mk_EntryLockEntity (ep_key (EntryPath_new user path)) token (clock w' + granted_for timeout) ∈ entry_locks (tables w').
Proof.
  intros Hwf Htok Ht. rewrite serve_lock_lock. set (hs := [(lit "timeout", Some (timeout_header timeout))]).
  assert (if_header_tokens hs = []) as Hnil by reflexivity. intros Hr.
  apply lock_grants in Hr as (_ & _ & _ & l & lifetime & Hrange & Hlt & -> & Hl & Hp & Hcase); [|done].
  rewrite decide_True in Hcase by done. rewrite bool_decide_eq_true_2 by done. destruct Hcase as (Hlt' & He & _).
  rewrite (requested_of_client timeout) in Hlt by done. fold (granted_for timeout) in Hlt. subst lifetime.
  pose proof (granted_for_range timeout) as Hg. split.
  - unfold lock_granted. assert (∀ a b c d, check_answer (lock_response a b c d) = Ok (lock_response a b c d)) as -> by reflexivity.
    cbn [mbind result_bind]. rewrite granted_token_of by (by rewrite Hlt'). cbn [ok_or mbind result_bind].
    rewrite granted_timeout_of by (unfold U64_MAX; lia). cbn [default]. by rewrite Hlt'.
  - destruct l as [lp lt le]. cbn in Hp, Hlt', He. by subst.
Qed.

(** The lock [sl] of the client is the row of [token] on its path. *)
Definition lock_row (user : PublicKey) (sl : StorageLock) (token : str) (w : World) (l : EntryLockEntity) : Prop :=
  l ∈ entry_locks (tables w) ∧ l_path l = ep_key (EntryPath_new user (sl_path sl)) ∧ l_token l = token.

(** A write under the lock passes while the lock lives, unless the database fails. *)
Lemma locked_write_passes user sl token l request w r w' :
  Forall uuid_char token → sl_token sl = LOCK_TOKEN_SCHEME ++ token →
  lock_row user sl token w l → clock w' < l_expires_at l →
  (∃ body, request = put_locked_request user sl body) ∨ request = delete_locked_request user sl →
  check_lock (sr_path request) (sr_headers request) w = (r, w') → r = Ok (Some token) ∨ r = Err HttpError_internal_server.
Proof.
  intros Htok Hsl (Hl & Hp & Ht) Hlive Hreq Hr.
  assert (sr_path request = EntryPath_new user (sl_path sl) ∧ if_header_tokens (sr_headers request) = [token]) as [Epath Etok].
  { destruct Hreq as [[body ->]| ->]; (split; [done|]); by apply tokens_presented. }
  rewrite Epath in Hr. apply check_lock_inv in Hr as (_ & Hc & Hcase). rewrite Etok in Hcase. destruct r as [[t|]|e].
  - destruct Hcase as [->%list_elem_of_singleton _]. by left.
  - by destruct Hcase as (? & _).
  - destruct Hcase as [->|[(_ & ? & _)|(_ & _ & now & Hnow & Hno)]]; [by right|done|].
    destruct (Hno l); [split_and!; [done..|lia]|]. rewrite Ht. by left.
Qed.

(** Nobody else writes meanwhile. *)
Lemma others_wait user sl token l hs w r w' :
  locks_wf (tables w) → lock_row user sl token w l → clock w' < l_expires_at l → token ∉ if_header_tokens hs →
  check_lock (EntryPath_new user (sl_path sl)) hs w = (r, w') → ∃ e, r = Err e.
Proof.
  intros Hwf (Hl & Hp & Ht) Hlive Hno Hr. apply check_lock_inv in Hr as (_ & Hc & Hcase). destruct r as [[t|]|e]; [| |eauto].
  - destruct Hcase as (Hin & l' & now & _ & (Hl' & Hp' & _) & <- & _). destruct Hno. rewrite <-Ht.
    assert (l = l') as ->; [|done]. apply (locks_unique (tables w)); [done..|]. congruence.
  - destruct Hcase as (_ & _ & Hno'). destruct (Hno' l). by split_and!.
Qed.

Lemma refresh_is_granted token' session root user sl token timeout l w r w' :
  locks_wf (tables w) → Forall uuid_char token → sl_token sl = LOCK_TOKEN_SCHEME ++ token → 0 ≤ timeout →
  lock_row user sl token w l → clock w' < l_expires_at l →
  serve_lock token' session root (refresh_request user sl timeout) w = (r, w') →
  match r with
  | Ok resp => refresh_granted sl timeout resp = Ok (mk_StorageLock (sl_path sl) (sl_token sl) (granted_for timeout))
  | Err e => status e ≠ 412
  end.
Proof.
  intros Hwf Htok Hsl Ht (Hl & Hp & Htk) Hlive Hr.
  set (hs := sr_headers (refresh_request user sl timeout)). change (serve_lock token' session root (refresh_request user sl timeout) w)
    with (lock token' (Some session) (EntryPath_new user (sl_path sl)) root hs (Some []) w) in Hr.
  assert (if_header_tokens hs = [token]) as Etok by (apply tokens_presented; [done..|]; by repeat constructor).
  apply lock_grants in Hr as (_ & Hcase); [|done]. rewrite Etok in Hcase. destruct r as [resp|e].
  - destruct Hcase as (_ & _ & l' & lifetime & Hrange & Elt & -> & _). rewrite (requested_of_client timeout) in Elt by done.
    fold (granted_for timeout) in Elt. subst lifetime. unfold refresh_granted.
    assert (∀ a b c d, check_answer (lock_response a b c d) = Ok (lock_response a b c d)) as -> by reflexivity. cbn [mbind result_bind].
    rewrite granted_timeout_of; [done|]. pose proof (granted_for_range timeout). unfold U64_MAX. lia.
  - destruct Hcase as (_ & _ & H412). intros Hs. destruct (H412 Hs) as (now & Hnow & Hno). destruct (Hno l); [split_and!; [done..|lia]|].
    rewrite Htk. by left.
Qed.

Lemma unlock_is_granted token' session root user sl token l w r w' :
  Forall uuid_char token → sl_token sl = LOCK_TOKEN_SCHEME ++ token → lock_row user sl token w l →
  serve_lock token' session root (unlock_request user sl) w = (r, w') →
  match r with
  | Ok _ => ∀ l, ¬ lock_row user sl token w' l
  | Err e => status e ≠ 409
  end.
Proof.
  intros Htok Hsl Hrow Hr. change (serve_lock token' session root (unlock_request user sl) w)
    with (unlock (Some session) (EntryPath_new user (sl_path sl)) (sr_headers (unlock_request user sl)) w) in Hr.
  pose proof (token_released user sl token Htok Hsl) as Eh. apply unlock_releases in Hr as (_ & _ & _ & Hcase). rewrite Eh in Hcase.
  destruct r as [resp|e].
  - destruct Hcase as (_ & t & [= <-] & _ & Hgone). intros l' (Hl & Hp & Ht). by apply (Hgone l').
  - destruct Hcase as [_ H409]. intros Hs. destruct Hrow as (Hl & Hp & Ht). destruct (H409 Hs l Hl Hp). by rewrite Ht.
Qed.

(** A lock, from the client's call to its release.  Once the server has granted
    it, the client holds a lock with the lifetime the server gave - what was
    asked for, between a second and a minute - and from then on, for as long as
    the row lives: its writes and deletes pass, unless the database fails; a
    write that does not present it is refused; a refresh is not refused for want
    of the lock, and gives the client the new lifetime; and an unlock is not
    either, and removes it. *)
Theorem client_lock_life token session root user path timeout w resp w' :
  locks_wf (tables w) → Forall uuid_char token → 0 ≤ timeout →
  serve_lock token session root (lock_request user path timeout) w = (Ok resp, w') →
  ∃ sl, lock_granted path timeout resp = Ok sl ∧ sl_timeout sl = granted_for timeout ∧
    (∃ l, lock_row user sl token w' l ∧ l_expires_at l = clock w' + sl_timeout sl) ∧
    ∀ l w1, lock_row user sl token w1 l → locks_wf (tables w1) →
      (∀ request r w2, (∃ body, request = put_locked_request user sl body) ∨ request = delete_locked_request user sl →
         check_lock (sr_path request) (sr_headers request) w1 = (r, w2) → clock w2 < l_expires_at l →
         r = Ok (Some token) ∨ r = Err HttpError_internal_server) ∧
      (∀ hs r w2, token ∉ if_header_tokens hs → check_lock (EntryPath_new user path) hs w1 = (r, w2) → clock w2 < l_expires_at l →
         ∃ e, r = Err e) ∧
      (∀ token' session' timeout' r w2, 0 ≤ timeout' → serve_lock token' session' root (refresh_request user sl timeout') w1 = (r, w2) →
         clock w2 < l_expires_at l →
         match r with
         | Ok resp' => refresh_granted sl timeout' resp' = Ok (mk_StorageLock path (sl_token sl) (granted_for timeout'))
         | Err e => status e ≠ 412
         end) ∧
      (∀ token' session' r w2, serve_lock token' session' root (unlock_request user sl) w1 = (r, w2) →
         match r with Ok _ => ∀ l', ¬ lock_row user sl token w2 l' | Err e => status e ≠ 409 end).
Proof.
  intros Hwf Htok Ht Hr. apply lock_is_granted in Hr as [Hg Hl]; [|done..]. eexists. split; [exact Hg|]. cbn [sl_timeout sl_path].
  split; [done|]. split; [eexists; split; [split_and!; [exact Hl|done..]|done]|]. intros l w1 Hrow Hwf1. split_and!.
  - intros request r w2 Hreq Hc Hlive. by eapply (locked_write_passes user (mk_StorageLock path _ _) token l request w1 r w2).
  - intros hs r w2 Hno Hc Hlive. by eapply (others_wait user (mk_StorageLock path _ _) token l hs w1 r w2).
  - intros token' session' timeout' r w2 Ht' Hs Hlive. by eapply (refresh_is_granted token' session' root user (mk_StorageLock path _ _)).
  - intros token' session' r w2 Hs. by eapply (unlock_is_granted token' session' root user (mk_StorageLock path _ _)).
Qed.

End Life.

(** * Witness *)

Lemma demo_uuid : Forall uuid_char demo_token.
Proof. repeat constructor; by vm_compute. Qed.

Lemma client_lock_life_witness :
  ∃ resp w' sl, serve_lock demo_token demo_session (lit "/storage/x") (lock_request (ep_pubkey demo_lock_path) (ep_path demo_lock_path) 90) (demo_world []) = (Ok resp, w') ∧
    lock_granted (ep_path demo_lock_path) 90 resp = Ok sl ∧ sl_timeout sl = 60.
Proof.
  destruct (serve_lock demo_token demo_session (lit "/storage/x") (lock_request (ep_pubkey demo_lock_path) (ep_path demo_lock_path) 90) (demo_world []))
    as [[resp|e] w'] eqn:E; [|vm_compute in E; discriminate E].
  destruct (client_lock_life (H := demo_keys) demo_token demo_session (lit "/storage/x") (ep_pubkey demo_lock_path) (ep_path demo_lock_path) 90
    (demo_world []) resp w') as (sl & Hg & Ht & _).
  - apply NoDup_nil_2.
  - exact demo_uuid.
  - lia.
  - exact E.
  - exists resp, w', sl. split_and!; [done|exact Hg|exact Ht].
Defined.
