(* ===== verification/SdkResource.v ===== *)
(** The client's side of addressing and listing: the resources of the SDK
    ([pubky-sdk/src/actors/storage/{resource,list}.rs]), the requests made for
    them, and how the server reads those. *)

From stdpp Require Import relations.
From S2P Require Import Prelude StoragePath Capabilities HttpError Keys Tenant Quota Database Users Authorization.
From S2P Require Import Entries EntryLocks Finalization Accounting AppState LockRoutes Uploads ReadRoutes Listing.

(** * The URL libraries *)

(** The percent encoding of a path segment ([url]) and percent decoding
    ([percent_encoding], [None] when the bytes are not UTF-8). *)
Class UrlCodec := {
  encode_segment : str → str;
  percent_decode : str → option str;
}.

Class UrlCodecLaws `{UrlCodec} := {
  decode_segment s : segment_ok s → percent_decode (encode_segment s) = Some s;
  decode_empty : percent_decode [] = Some [];
  (** A slash is no part of an escape. *)
  decode_slash a b :
    percent_decode (a ++ SLASH :: b) = (x ← percent_decode a; y ← percent_decode b; Some (x ++ SLASH :: y));
  encode_no_slash s : segment_ok s → SLASH ∉ encode_segment s;
}.

(** [RequestError::Validation]. *)
Definition Invalid : Type := str.

(** * Resources *)

Section Resources.
Context `{PkarrKeys, UrlCodec}.

(** The loop over the parts; [wants_trailing] says whether the input ends with
    a slash. *)
Fixpoint resource_segments (wants_trailing : bool) (parts : list str) : result Invalid (list str) :=
  match parts with
  | [] => Ok []
  | seg :: parts =>
      if bool_decide (seg = []) then
        if bool_decide (parts = []) && wants_trailing then Ok []
        else Err (lit "path contains empty segment ('//')")
      else if bool_decide (seg = DOT) || bool_decide (seg = DOTDOT) then
        Err (lit "path cannot contain '.' or '..'")
      else segs ← resource_segments wants_trailing parts; Ok (seg :: segs)
  end.

(** [trim_start_matches('/')]. *)
Definition trim_slashes (s : str) : str := drop_while_eq SLASH s.

(** The newtype [ResourcePath(String)]. *)
Definition ResourcePath_parse (raw : str) : result Invalid str :=
  match raw with
  | [] => Err (lit "path cannot be empty")
  | c :: _ =>
      let input := if c =? SLASH then raw else SLASH :: raw in
      if bool_decide (input = [SLASH]) then Ok [SLASH]
      else
        let wants_trailing := ends_with_char input SLASH in
        segs ← resource_segments wants_trailing (split SLASH (trim_slashes input));
        Ok (render (map encode_segment segs) wants_trailing)
  end.

Record PubkyResource := mk_PubkyResource {
  pr_owner : PublicKey;
  pr_path : str
}.

Definition PubkyResource_new (owner : PublicKey) (path : str) : result Invalid PubkyResource :=
  path ← ResourcePath_parse path; Ok (mk_PubkyResource owner path).

Definition to_pubky_url (self : PubkyResource) : str :=
  lit "pubky://" ++ PublicKey_z32 (pr_owner self) ++ [SLASH] ++ trim_slashes (pr_path self).

(** Host and path of a URL. *)
Record TransportUrl := mk_TransportUrl { tu_host : str; tu_path : str }.

Definition to_transport_url (self : PubkyResource) : TransportUrl :=
  let owner := PublicKey_z32 (pr_owner self) in
  mk_TransportUrl (lit "_pubky." ++ owner)
    (lit "/storage/" ++ owner ++ [SLASH] ++ trim_slashes (pr_path self)).

Definition parse_transport_owner (owner : str) : result Invalid PublicKey :=
  if PublicKey_is_pubky_prefixed owner then
    Err (lit "transport URL owner must use raw z32 without `pubky` prefix")
  else map_err (λ _, lit "transport URL contains an invalid owner") (PublicKey_try_from_z32 owner).

Definition PubkyResource_from_transport_url (url : TransportUrl) : result Invalid PubkyResource :=
  '(owner, path) ←
    match strip_prefix (tu_path url) (lit "/storage/") with
    | Some path =>
        '(owner, path) ← ok_or (split_once SLASH path) (lit "storage transport URL is missing a resource path");
        owner ← parse_transport_owner owner;
        match strip_prefix (tu_host url) (lit "_pubky.") with
        | Some host_owner =>
            h ← parse_transport_owner host_owner;
            if bool_decide (h = owner) then Ok (owner, path)
            else Err (lit "storage transport URL owner does not match its `_pubky` host")
        | None => Ok (owner, path)
        end
    | None =>
        owner ← ok_or (strip_prefix (tu_host url) (lit "_pubky."))
                  (lit "legacy transport URL is missing a `_pubky` host");
        owner ← parse_transport_owner owner;
        Ok (owner, tu_path url)
    end;
  let path := if bool_decide (path = []) then [SLASH] else path in
  decoded_path ← ok_or (percent_decode path) (lit "transport URL path is not valid UTF-8");
  PubkyResource_new owner decoded_path.

Definition expected_forms : Invalid := lit "expected `pubky<user>/<path>` or `pubky://<user>/<path>`".

Definition PubkyResource_from_str (s : str) : result Invalid PubkyResource :=
  match strip_prefix s (lit "pubky://") with
  | Some rest =>
      '(user_str, path) ← ok_or (split_once SLASH rest) (lit "missing `<user>/<path>`");
      if PublicKey_is_pubky_prefixed user_str then
        Err (lit "unexpected `pubky` prefix in user id; use raw z32 after `pubky://`")
      else
        user ← map_err (λ _, lit "invalid user public key: " ++ user_str) (PublicKey_try_from_z32 user_str);
        PubkyResource_new user path
  | None =>
      match strip_prefix s (lit "pubky") with
      | Some rest =>
          match split_once SLASH rest with
          | Some (user_id, path) =>
              if PublicKey_is_pubky_prefixed user_id then
                Err (lit "unexpected `pubky` prefix in user id; use raw z32 after `pubky`")
              else
                user ← map_err (λ _, expected_forms) (PublicKey_try_from_z32 user_id);
                PubkyResource_new user path
          | None => Err expected_forms
          end
      | None => Err expected_forms
      end
  end.

Definition resolve_pubky (input : str) : result Invalid TransportUrl :=
  resource ← PubkyResource_from_str input; Ok (to_transport_url resource).

(** * Listing *)

Record ListBuilder := mk_ListBuilder {
  lb_reverse : bool;
  lb_shallow : bool;
  lb_limit : option Z;
  lb_cursor : option str
}.

(** The query pairs [send] appends; [append_key_only] is an empty value. *)
Definition ListBuilder_query (self : ListBuilder) : list (str * str) :=
  (if lb_reverse self then [(lit "reverse", [])] else []) ++
  (if lb_shallow self then [(lit "shallow", [])] else []) ++
  match lb_limit self with Some limit => [(lit "limit", show_uint limit)] | None => [] end ++
  match lb_cursor self with Some cursor => [(lit "cursor", cursor)] | None => [] end.

(** [url_parse] is [Url::parse]. *)
Definition parse_resource_line (url_parse : str → option TransportUrl) (line : str) : result Invalid PubkyResource :=
  if starts_with line (lit "http://") || starts_with line (lit "https://") then
    url ← ok_or (url_parse line) (lit "URL"); PubkyResource_from_transport_url url
  else PubkyResource_from_str line.

(** The last step of [send]. *)
Definition ListBuilder_parse_body (url_parse : str → option TransportUrl) (body : str)
    : result Invalid (list PubkyResource) :=
  collect_results (map (parse_resource_line url_parse) (filter (λ l, l ≠ []) (map trim (split 10 body)))).

End Resources.

(** * Client and server agree *)

Section Agreement.
Context `{PkarrKeysLaws, JsonStrings, PgRegex, UrlCodecLaws}.

(** A canonical path other than the root, after its first slash. *)
Lemma render_cons segs dir : render segs dir = SLASH :: join SLASH (pieces segs dir).
Proof. by rewrite render_join, join_cons by apply pieces_ne. Qed.

Lemma trim_slashes_render s segs dir :
  s ≠ [] → SLASH ∉ s → trim_slashes (render (s :: segs) dir) = join SLASH (pieces (s :: segs) dir).
Proof.
  intros Hs Hn. rewrite render_cons. unfold trim_slashes. cbn [drop_while_eq]. rewrite Z.eqb_refl.
  destruct s as [|c s]; [done|]. apply not_elem_of_cons in Hn as [Hc _].
  assert (∃ t, join SLASH (pieces ((c :: s) :: segs) dir) = c :: t) as [t ->].
  { unfold pieces. cbn [app]. destruct (segs ++ _) as [|q l]; [by exists s|]. rewrite join_cons by done. by eexists. }
  cbn [drop_while_eq]. by rewrite (proj2 (Z.eqb_neq _ _)) by congruence.
Qed.

Lemma resource_segments_pieces segs dir :
  Forall segment_ok segs → segs ≠ [] → resource_segments dir (pieces segs dir) = Ok segs.
Proof.
  intros Hs Hne. destruct segs as [|s segs]; [done|]. unfold pieces. clear Hne. revert Hs.
  generalize (s :: segs) as l. induction l as [|x l IH]; intros Hs; cbn; [by destruct dir|].
  apply Forall_cons in Hs as [(Hx & Hd & Hdd & _) Hs].
  rewrite !bool_decide_eq_false_2 by done. cbn. by rewrite IH.
Qed.

Lemma ends_with_slash_render segs dir :
  Forall segment_ok segs → segs ≠ [] → ends_with_char (render segs dir) SLASH = dir.
Proof.
  intros Hs Hne. destruct dir.
  - apply ends_with_char_spec. exists (folder_of segs). apply render_dir.
  - apply not_true_iff_false. intros (t & Ht)%ends_with_char_spec.
    destruct (exists_last Hne) as (i & x & ->). apply Forall_app in Hs as [_ Hx].
    apply Forall_singleton in Hx as (Hx & _ & _ & Hns & _). destruct (render_file_snoc i x) as [u Hu].
    rewrite Hu in Ht. destruct (exists_last Hx) as (x' & c & ->). rewrite app_assoc in Ht.
    apply app_inj_2 in Ht as [_ [= ->]]; [|done]. apply Hns, elem_of_app. right. by left.
Qed.

Lemma encode_nonempty s : segment_ok s → encode_segment s ≠ [].
Proof.
  intros Hs He. pose proof (decode_segment s Hs) as Hd. rewrite He, decode_empty in Hd.
  destruct Hs as (Hne & _). by injection Hd as <-.
Qed.

Lemma decode_pieces segs dir :
  Forall segment_ok segs → segs ≠ [] →
  percent_decode (join SLASH (pieces (map encode_segment segs) dir)) = Some (join SLASH (pieces segs dir)).
Proof.
  intros Hs Hne. destruct segs as [|s segs]; [done|]. clear Hne. cbn [map]. unfold pieces.
  change (encode_segment s :: map encode_segment segs) with (map encode_segment (s :: segs)).
  revert s Hs. induction segs as [|x segs IH]; intros s Hs; apply Forall_cons in Hs as [Hx Hs].
  - destruct dir; cbn; [|by apply decode_segment].
    by rewrite decode_slash, decode_segment, decode_empty by done.
  - cbn [map app]. rewrite (join_cons SLASH (encode_segment s)), (join_cons SLASH s) by done.
    rewrite decode_slash, decode_segment by done. specialize (IH x Hs). cbn [map app] in IH. by rewrite IH.
Qed.

Lemma body_starts s segs dir :
  segment_ok s → ∃ c t, join SLASH (pieces (s :: segs) dir) = c :: t ∧ c ≠ SLASH.
Proof.
  intros (Hne & _ & _ & Hn & _). destruct s as [|c s]; [done|]. apply not_elem_of_cons in Hn as [Hc _].
  unfold pieces. cbn [app]. exists c. destruct (segs ++ _) as [|q l]; [by exists s|].
  rewrite join_cons by done. by eexists.
Qed.

(** Parsing a canonical path, with or without its first slash. *)
Lemma ResourcePath_parse_canonical raw s segs dir :
  Forall segment_ok (s :: segs) →
  raw = render (s :: segs) dir ∨ raw = join SLASH (pieces (s :: segs) dir) →
  ResourcePath_parse raw = Ok (render (map encode_segment (s :: segs)) dir).
Proof.
  intros Hs Hraw. pose proof Hs as [Hs1 _]%Forall_cons. pose proof Hs1 as (Hne & _ & _ & Hns & _).
  destruct (body_starts s segs dir Hs1) as (c & t & Hb & Hc).
  assert (match raw with [] => [] | c :: _ => if c =? SLASH then raw else SLASH :: raw end
          = render (s :: segs) dir) as Hinput.
  { destruct Hraw as [->| ->]; [by rewrite render_cons|]. rewrite render_cons, Hb.
    by rewrite (proj2 (Z.eqb_neq _ _)). }
  unfold ResourcePath_parse. destruct raw as [|c0 raw]; [by rewrite render_cons in Hinput|]. rewrite Hinput.
  rewrite bool_decide_eq_false_2 by (by rewrite render_cons, Hb).
  rewrite ends_with_slash_render, trim_slashes_render by done. unfold Invalid in *.
  rewrite split_join by (apply pieces_ne || (intros; by eapply pieces_no_slash)).
  by rewrite resource_segments_pieces.
Qed.

(** A listed line, or a URI in an event, names the resource of its path. *)
Lemma resource_from_uri k p :
  StoragePath_wf p → as_str p ≠ [SLASH] →
  ∃ r, PubkyResource_new k (as_str p) = Ok r ∧
    PubkyResource_from_str (lit "pubky://" ++ PublicKey_z32 k ++ as_str p) = Ok r.
Proof.
  intros Hwf Hroot. pose proof Hwf as ((segs & dir & Hr & Hs & Hd) & _)%StoragePath_wf_iff.
  destruct segs as [|s segs]; [by rewrite Hr, render_root in Hroot|].
  pose proof (ResourcePath_parse_canonical _ s segs dir Hs (or_introl eq_refl)) as Hp1.
  pose proof (ResourcePath_parse_canonical _ s segs dir Hs (or_intror eq_refl)) as Hp2.
  exists (mk_PubkyResource k (render (map encode_segment (s :: segs)) dir)).
  unfold PubkyResource_new, PubkyResource_from_str. rewrite (proj2 (strip_prefix_spec _ _ _) eq_refl), Hr, Hp1.
  split; [done|]. rewrite render_cons.
  rewrite (proj2 (split_once_spec _ _ _ _) (conj eq_refl (pkarr_no_slash k))). cbn [ok_or mbind result_bind].
  rewrite z32_not_prefixed. unfold PublicKey_try_from_z32, PublicKey_z32. rewrite pkarr_roundtrip.
  cbn [map_err mbind result_bind]. unfold PubkyResource_new. by rewrite Hp2.
Qed.

(** Client and server name the same file.  For every owner and every
    canonical path below the root, the client's resource for it exists; the
    server takes the URL the client requests for it to exactly that owner and
    path; and the client recovers the resource from the URL and from the line
    the server lists the path by. *)
Theorem sdk_names_agree k p :
  StoragePath_wf p → as_str p ≠ [SLASH] →
  ∃ r, PubkyResource_new k (as_str p) = Ok r ∧
    RequestTenant_from_storage_route percent_decode (tu_path (to_transport_url r))
    = Ok (Some (mk_RequestTenant k (Some p))) ∧
    PubkyResource_from_transport_url (to_transport_url r) = Ok r ∧
    PubkyResource_from_str (lit "pubky://" ++ ep_key (EntryPath_new k p)) = Ok r.
Proof.
  intros Hwf Hroot. pose proof Hwf as ((segs & dir & Hr & Hs & Hd) & _)%StoragePath_wf_iff.
  destruct segs as [|s segs]; [by rewrite Hr, render_root in Hroot|]. pose proof Hs as [Hs1 _]%Forall_cons.
  pose proof Hs1 as (Hs1n & _ & _ & Hs1s & _).
  pose proof (ResourcePath_parse_canonical _ s segs dir Hs (or_introl eq_refl)) as Hp1.
  pose proof (ResourcePath_parse_canonical _ s segs dir Hs (or_intror eq_refl)) as Hp2.
  assert (trim_slashes (render (map encode_segment (s :: segs)) dir)
          = join SLASH (pieces (map encode_segment (s :: segs)) dir)) as Htr.
  { apply trim_slashes_render; [by apply encode_nonempty|by apply encode_no_slash]. }
  assert (join SLASH (pieces (map encode_segment (s :: segs)) dir) ≠ []) as Hbn.
  { intros E. pose proof (decode_pieces (s :: segs) dir Hs ltac:(done)) as Hdec. rewrite E, decode_empty in Hdec.
    destruct (body_starts s segs dir Hs1) as (c & t & Hb & _). by rewrite Hb in Hdec. }
  assert (∀ rest, split_once SLASH (PublicKey_z32 k ++ SLASH :: rest) = Some (PublicKey_z32 k, rest)) as Hsplit.
  { intros rest. apply split_once_spec. split; [done|apply pkarr_no_slash]. }
  assert (∀ rest, split_once SLASH (PublicKey_z32 k ++ [SLASH] ++ rest) = Some (PublicKey_z32 k, rest)) as Hsplit'
    by apply Hsplit.
  assert (PublicKey_try_from_z32 (PublicKey_z32 k) = Ok k) as Hk by apply pkarr_roundtrip.
  exists (mk_PubkyResource k (render (map encode_segment (s :: segs)) dir)). split_and!.
  - unfold PubkyResource_new. by rewrite Hr, Hp1.
  - unfold RequestTenant_from_storage_route, to_transport_url. cbn [tu_path pr_owner pr_path]. rewrite Htr.
    rewrite decide_False.
    2: { intros [E|E]; apply (f_equal length) in E; rewrite !length_app in E;
         change (length (lit "/storage/")) with 9%nat in E; change (length (lit "/storage")) with 8%nat in E;
         cbn [length] in E; lia. }
    rewrite (proj2 (strip_prefix_spec _ _ _) eq_refl), Hsplit'. cbn [ok_or mbind result_bind].
    rewrite decide_False by done. rewrite Hk. cbn [map_err mbind result_bind].
    rewrite decode_pieces by done. cbn [ok_or mbind result_bind].
    by rewrite <-render_cons, <-Hr, normalize_canonical_id by done.
  - unfold PubkyResource_from_transport_url, to_transport_url. cbn [tu_path tu_host pr_owner pr_path]. rewrite Htr.
    rewrite (proj2 (strip_prefix_spec _ _ _) eq_refl), Hsplit'. cbn [ok_or mbind result_bind].
    unfold parse_transport_owner. rewrite z32_not_prefixed, Hk. cbn [map_err mbind result_bind].
    rewrite (proj2 (strip_prefix_spec _ _ _) eq_refl), z32_not_prefixed, Hk. cbn [map_err mbind result_bind].
    rewrite bool_decide_eq_true_2 by done. cbn [mbind result_bind].
    rewrite bool_decide_eq_false_2 by done. rewrite decode_pieces by done.
    cbn [ok_or mbind result_bind]. unfold PubkyResource_new. by rewrite Hp2.
  - destruct (resource_from_uri k p Hwf Hroot) as (r & Hnew & Huri). cbn [ep_key EntryPath_new]. rewrite Huri.
    unfold PubkyResource_new in Hnew. rewrite Hr, Hp1 in Hnew. by injection Hnew as <-.
Qed.

(** The query of a listing request as the server reads it. *)
Lemma list_query_received (lb : ListBuilder) :
  (∀ n, lb_limit lb = Some n → 0 ≤ n ≤ U16_MAX) →
  ListQueryParams_from_request_parts (ListBuilder_query lb)
  = Ok (mk_ListQueryParams (lb_limit lb)
          (c ← lb_cursor lb; if bool_decide (c = []) then None else Some (default c (strip_prefix c (lit "pubky://"))))
          (lb_shallow lb) (lb_reverse lb)).
Proof.
  intros Hl. destruct lb as [rev sh limit cursor]. cbn [lb_limit] in Hl.
  assert (∀ n, limit = Some n → bool_decide (show_uint n = []) = false ∧ parse_uint U16_MAX (show_uint n) = Some n) as Hn.
  { intros n ->. destruct (Hl n eq_refl). split; [|apply parse_uint_show; lia].
    apply bool_decide_eq_false_2. by destruct (show_uint_spec n) as (? & _). }
  unfold ListQueryParams_from_request_parts, ListBuilder_query, extract_cursor, query_get.
  cbn [lb_reverse lb_shallow lb_limit lb_cursor].
  destruct rev, sh, limit as [n|], cursor as [c|]; cbn [app]; rewrite ?filter_cons, ?filter_nil; cbn [fst]; pick_keys;
    cbn [last fmap option_fmap option_map snd mbind option_bind result_bind];
    try (destruct (Hn n eq_refl) as [-> ->]); done.
Qed.

End Agreement.

(** * Examples *)

(** No character needs an escape. *)
Definition plain_codec : UrlCodec := {| encode_segment := λ s, s; percent_decode := Some |}.

#[local] Instance plain_codec_laws : @UrlCodecLaws plain_codec.
Proof. split; [done|done|done|by intros s (_ & _ & _ & ? & _)]. Qed.

Lemma sdk_names_agree_witness :
  ∃ r, PubkyResource_new (H := demo_keys) (H0 := plain_codec) true (as_str sample_path) = Ok r ∧
    PubkyResource_from_transport_url (H0 := plain_codec) (to_transport_url r) = Ok r.
Proof.
  destruct (sdk_names_agree (H := demo_keys) (H3 := plain_codec) true sample_path) as (r & Hr & _ & Hu & _).
  - vm_compute. reflexivity.
  - vm_compute. discriminate.
  - exists r. split; [exact Hr|exact Hu].
Defined.

(** A codec that escapes the letter [a] with a diaeresis, and nothing else. *)
Definition umlaut_codec : UrlCodec := {|
  encode_segment := λ s, concat (map (λ c, if c =? 228 then lit "%C3%A4" else [c]) s);
  percent_decode := Some
|}.

(** The user has one file, named by that letter. *)
Definition umlaut_world : World :=
  mk_World (mk_Tables demo_users [mk_EntryRow 1 (lit "/pub/" ++ [228]) 1 demo_hash 44 (lit "text/plain") 1500 1500] [] [] no_auth)
    (mk_Seqs 3 2 1 1 1) 2000 None [].

Definition demo_dir' : EntryPath := EntryPath_new (H := demo_keys) true (mk_StoragePath (lit "/pub/")).

(** A page of the listing, asked for and decoded by the client. *)
Definition client_page (lb : ListBuilder) : option (list PubkyResource) :=
  params ← ok (ListQueryParams_from_request_parts (ListBuilder_query lb));
  resp ← ok (list_route (H := demo_keys) (H4 := {| regexp_replace t _ _ := t |}) demo_dir' params umlaut_world).1;
  ok (ListBuilder_parse_body (H := demo_keys) (H0 := umlaut_codec) (λ _, None) (concat (omap ok (rr_body resp)))).

(** Paging by the client repeats itself.  The documentation of the
    client's [cursor] says to pass the last entry's [to_pubky_url], which is
    percent-encoded; the server compares the cursor, as it stands, with stored
    paths, which are not.  With one file whose name needs an escape, the page
    after the file is again the file, so a client that pages in this way never
    ends. *)
Theorem sdk_cursor_repeats :
  ∃ r, client_page (mk_ListBuilder false false (Some 1) None) = Some [r] ∧
       client_page (mk_ListBuilder false false (Some 1) (Some (to_pubky_url r))) = Some [r].
Proof. eexists. split; vm_compute; reflexivity. Qed.
