(* ===== verification/SdkEvents.v ===== *)
(** The client's side of event streams
    ([pubky-sdk/src/actors/event_stream.rs]): the builder of a subscription, the
    request it makes, and how the events of the answer are read; with the
    payload the server makes of an event
    ([persistence/sql/entities/events/entity.rs]).

    The bytes of server-sent events are framed by [axum] and decoded by
    [sse-core]: the client starts from the messages the decoder yields.  Base64
    belongs to a crate ([Base64Codec]), and so does the form encoding of a
    query string. *)

From S2P Require Import Prelude StoragePath Capabilities HttpError Keys Tenant Quota Database Users Authorization.
From S2P Require Import Entries Events EventStreams Listing SdkResource.

(** * Base64 and lines *)

Definition is_byte (b : Z) : Prop := 0 ≤ b < 256.

(** [base64::engine::general_purpose::STANDARD]. *)
Class Base64Codec := {
  b64_encode : list Z → str;
  b64_decode : str → option (list Z);
}.

Class Base64CodecLaws `{Base64Codec} := {
  b64_roundtrip b : Forall is_byte b → b64_decode (b64_encode b) = Some b;
  b64_nonempty b : b ≠ [] → b64_encode b ≠ [];
  (** Letters, digits, [+], [/] and [=]. *)
  b64_alphabet b c : c ∈ b64_encode b → 43 ≤ c ≤ 122;
}.

Definition CR : Z := 13.
Definition LF : Z := 10.

Definition strip_cr (line : str) : str := if ends_with_char line CR then removelast line else line.

Fixpoint lines_of (pieces : list str) : list str :=
  match pieces with
  | [] => []
  | [piece] => if bool_decide (piece = []) then [] else [piece]
  | piece :: pieces => strip_cr piece :: lines_of pieces
  end.

(** [str::lines]: a carriage return before a line feed goes with it, and
    nothing after the last line feed is no line. *)
Definition lines (s : str) : list str := lines_of (split LF s).

(** * What the server sends for an event *)

(** [sse_core::MessageEvent], and the fields [axum]'s [Event] is given. *)
Record MessageEvent := mk_MessageEvent { me_event : str; me_data : str }.

Section Payload.
Context `{PkarrKeys, Base64Codec}.

Definition EventEntity_to_sse_data (self : EventEntity) : str :=
  let ls := [EventEntity_pubky_uri self; lit "cursor: " ++ EventCursor_fmt (EventEntity_cursor self)] in
  let ls := match EventType_content_hash (ve_event_type self) with
            | Some hash => ls ++ [lit "content_hash: " ++ b64_encode hash]
            | None => ls
            end in
  join LF ls.

Definition EventEntity_to_sse_event (self : EventEntity) : MessageEvent :=
  mk_MessageEvent (EventType_as_str (ve_event_type self)) (EventEntity_to_sse_data self).

End Payload.

(** * Reading events *)

Section Reading.
Context `{PkarrKeys, UrlCodec, Base64Codec}.

Record Event := mk_Event {
  e_event_type : EventType;
  e_resource : PubkyResource;
  e_cursor : EventCursor
}.

Definition decode_content_hash (content_hash_base64 : option str) : result Invalid Hash :=
  b64 ← ok_or (s ← content_hash_base64; if bool_decide (s = []) then None else Some s)
          (lit "PUT event missing required content_hash");
  bytes ← ok_or (b64_decode b64) (lit "Invalid content_hash base64 encoding");
  if (length bytes =? 32)%nat then Ok bytes
  else Err (lit "content_hash must be exactly 32 bytes, got " ++ show_uint (Z.of_nat (length bytes)) ++ lit " bytes").

(** What the loop over the lines has found. *)
Record SseFields := mk_SseFields {
  sf_path : option str;
  sf_cursor : option EventCursor;
  sf_content_hash : option str
}.

Fixpoint sse_fields (i : nat) (ls : list str) (f : SseFields) : result Invalid SseFields :=
  match ls with
  | [] => Ok f
  | line :: ls =>
      match strip_prefix line (lit "cursor: ") with
      | Some cursor_str =>
          c ← ok_or (EventCursor_from_str cursor_str) (lit "Invalid cursor format '" ++ cursor_str ++ lit "'");
          sse_fields (S i) ls (mk_SseFields (sf_path f) (Some c) (sf_content_hash f))
      | None =>
          match strip_prefix line (lit "content_hash: ") with
          | Some hash => sse_fields (S i) ls (mk_SseFields (sf_path f) (sf_cursor f) (Some hash))
          | None =>
              sse_fields (S i) ls
                (if decide (i = O) then mk_SseFields (Some line) (sf_cursor f) (sf_content_hash f) else f)
          end
      end
  end.

Definition parse_sse_event (sse : MessageEvent) : result Invalid Event :=
  f ← sse_fields 0 (lines (me_data sse)) (mk_SseFields None None None);
  path ← ok_or (sf_path f) (lit "SSE event missing path (expected as first line)");
  resource ← map_err (λ e, lit "Invalid resource path '" ++ path ++ lit "': " ++ e) (PubkyResource_from_str path);
  cursor ← ok_or (sf_cursor f) (lit "SSE event missing cursor line");
  event_type ←
    (if decide (me_event sse = lit "PUT") then
       content_hash ← decode_content_hash (sf_content_hash f); Ok (EventPut content_hash)
     else if decide (me_event sse = lit "DEL") then Ok EventDelete
     else Err (lit "Unknown event type: " ++ me_event sse));
  Ok (mk_Event event_type resource cursor).

(** What the decoder of [sse-core] yields. *)
Inductive SseEvent := SseMessage (event : MessageEvent) | SseRetry.
Inductive SseStreamError := PayloadTooLarge | Inner (error : str).

(** The stream ends with its first error. *)
Fixpoint sse_stream (limit : Z) (events : list (result SseStreamError SseEvent)) : list (result Invalid MessageEvent) :=
  match events with
  | [] => []
  | Ok (SseMessage event) :: events => Ok event :: sse_stream limit events
  | Ok _ :: events => sse_stream limit events
  | Err PayloadTooLarge :: _ =>
      [Err (lit "SSE event exceeds the configured limit of " ++ show_uint limit ++ lit " bytes")]
  | Err (Inner error) :: _ => [Err (lit "SSE stream error: " ++ error)]
  end.

(** Messages that do not parse are skipped. *)
Definition response_event_stream (response : list (result SseStreamError SseEvent)) (max_event_bytes : Z)
    : list (result Invalid Event) :=
  omap (λ r, match r with
             | Ok sse_event => match parse_sse_event sse_event with Ok event => Some (Ok event) | Err _ => None end
             | Err e => Some (Err e)
             end) (sse_stream max_event_bytes response).

(** * Subscribing *)

(** [dyn SessionCredential]: whose it is and where it may be sent. *)
Record SessionCredential := mk_SessionCredential {
  sc_public_key : PublicKey;
  can_attach_to : PublicKey → bool
}.

Record EventStreamBuilder := mk_EventStreamBuilder {
  esb_users : list (PublicKey * option EventCursor);
  esb_homeserver : option PublicKey;
  esb_limit : option Z;
  esb_max_event_bytes : Z;
  esb_live : bool;
  esb_reverse : bool;
  esb_paths : list str;
  esb_credential : option SessionCredential
}.

Definition EventStreamBuilder_for_user (user : PublicKey) (cursor : option EventCursor) : EventStreamBuilder :=
  mk_EventStreamBuilder [(user, cursor)] None None U64_MAX false false [] None.

Definition EventStreamBuilder_for_homeserver (homeserver : PublicKey) : EventStreamBuilder :=
  mk_EventStreamBuilder [] (Some homeserver) None U64_MAX false false [] None.

Definition with_users (us : list (PublicKey * option EventCursor)) (self : EventStreamBuilder) : EventStreamBuilder :=
  mk_EventStreamBuilder us (esb_homeserver self) (esb_limit self) (esb_max_event_bytes self) (esb_live self)
    (esb_reverse self) (esb_paths self) (esb_credential self).

(** [find] and the assignment to what it found: [None] when the user is new. *)
Fixpoint update_cursor (user : PublicKey) (cursor : option EventCursor) (us : list (PublicKey * option EventCursor))
    : option (list (PublicKey * option EventCursor)) :=
  match us with
  | [] => None
  | (u, c) :: us =>
      if decide (u = user) then Some ((u, cursor) :: us) else us' ← update_cursor user cursor us; Some ((u, c) :: us')
  end.

Fixpoint EventStreamBuilder_add_users (new : list (PublicKey * option EventCursor)) (self : EventStreamBuilder)
    : result Invalid EventStreamBuilder :=
  match new with
  | [] => Ok self
  | (user, cursor) :: new =>
      match update_cursor user cursor (esb_users self) with
      | Some us => EventStreamBuilder_add_users new (with_users us self)
      | None =>
          if (50 <=? length (esb_users self))%nat then Err (lit "Cannot subscribe to more than 50 users")
          else EventStreamBuilder_add_users new (with_users (esb_users self ++ [(user, cursor)]) self)
      end
  end.

Definition EventStreamBuilder_limit (limit : Z) (self : EventStreamBuilder) : EventStreamBuilder :=
  mk_EventStreamBuilder (esb_users self) (esb_homeserver self) (Some limit) (esb_max_event_bytes self) (esb_live self)
    (esb_reverse self) (esb_paths self) (esb_credential self).
Definition EventStreamBuilder_max_event_bytes (limit : Z) (self : EventStreamBuilder) : EventStreamBuilder :=
  mk_EventStreamBuilder (esb_users self) (esb_homeserver self) (esb_limit self) limit (esb_live self)
    (esb_reverse self) (esb_paths self) (esb_credential self).
Definition EventStreamBuilder_live (self : EventStreamBuilder) : EventStreamBuilder :=
  mk_EventStreamBuilder (esb_users self) (esb_homeserver self) (esb_limit self) (esb_max_event_bytes self) true
    (esb_reverse self) (esb_paths self) (esb_credential self).
Definition EventStreamBuilder_reverse (self : EventStreamBuilder) : EventStreamBuilder :=
  mk_EventStreamBuilder (esb_users self) (esb_homeserver self) (esb_limit self) (esb_max_event_bytes self)
    (esb_live self) true (esb_paths self) (esb_credential self).
Definition EventStreamBuilder_path (path : str) (self : EventStreamBuilder) : EventStreamBuilder :=
  mk_EventStreamBuilder (esb_users self) (esb_homeserver self) (esb_limit self) (esb_max_event_bytes self)
    (esb_live self) (esb_reverse self) (esb_paths self ++ [path]) (esb_credential self).
Definition EventStreamBuilder_session (credential : SessionCredential) (self : EventStreamBuilder) : EventStreamBuilder :=
  mk_EventStreamBuilder (esb_users self) (esb_homeserver self) (esb_limit self) (esb_max_event_bytes self)
    (esb_live self) (esb_reverse self) (esb_paths self) (Some credential).

(** The query pairs of [build_request_url]. *)
Definition build_request_query (self : EventStreamBuilder) : list (str * str) :=
  map (λ uc, (lit "user",
              match uc.2 with
              | Some c => PublicKey_z32 uc.1 ++ [58] ++ EventCursor_fmt c
              | None => PublicKey_z32 uc.1
              end)) (esb_users self) ++
  match esb_limit self with Some limit => [(lit "limit", show_uint limit)] | None => [] end ++
  (if esb_live self then [(lit "live", lit "true")] else []) ++
  (if esb_reverse self then [(lit "reverse", lit "true")] else []) ++
  map (λ path, (lit "path", path)) (esb_paths self).

Definition is_private_path_filter (path : str) : bool :=
  let path := if starts_with path (lit "/") then path else lit "/" ++ path in
  match StoragePath_normalize path with Ok path => starts_with (as_str path) PRIVATE_ROOT | Err _ => false end.

Definition has_private_path_filter (self : EventStreamBuilder) : bool := existsb is_private_path_filter (esb_paths self).

Inductive EventStreamAuthScope :=
| ScopePublicOnly
| ScopePrivateSingleUser (user : PublicKey)
| ScopePrivateUnsupported.

Definition auth_scope (self : EventStreamBuilder) : EventStreamAuthScope :=
  if negb (has_private_path_filter self) then ScopePublicOnly
  else match esb_users self with
       | [(user, _)] => ScopePrivateSingleUser user
       | _ => ScopePrivateUnsupported
       end.

Definition should_attach_credential (self : EventStreamBuilder) (credential : SessionCredential) : bool :=
  match auth_scope self with
  | ScopePrivateSingleUser user => bool_decide (user = sc_public_key credential)
  | ScopePublicOnly | ScopePrivateUnsupported => false
  end.

(** The request: the host it goes to, its query and the credential on it. *)
Record StreamRequest := mk_StreamRequest {
  sr_homeserver : PublicKey;
  sr_query : list (str * str);
  sr_credential : option SessionCredential
}.

(** [subscribe_internal] up to the request; [require_homeserver_of] is the
    lookup of a user's home server. *)
Definition subscribe_request (require_homeserver_of : PublicKey → result Invalid PublicKey) (self : EventStreamBuilder)
    : result Invalid StreamRequest :=
  if esb_max_event_bytes self =? 0 then Err (lit "max_event_bytes must be greater than zero")
  else if esb_live self && esb_reverse self then Err (lit "Cannot use live mode with reverse ordering")
  else match esb_users self with
       | [] => Err (lit "At least one user must be specified")
       | (first, _) :: _ =>
           if (50 <? length (esb_users self))%nat then Err (lit "Cannot subscribe to more than 50 users")
           else
             homeserver ← match esb_homeserver self with
                          | Some hs => Ok hs
                          | None => require_homeserver_of first
                          end;
             let credential :=
               c ← esb_credential self; if should_attach_credential self c then Some c else None in
             let can_attach_credential :=
               match credential with Some c => can_attach_to c homeserver | None => false end in
             if bool_decide (is_Some credential) && negb can_attach_credential then
               Err (lit "cannot attach session credential to target homeserver")
             else Ok (mk_StreamRequest homeserver (build_request_query self) credential)
       end.

(** The whole of [subscribe_internal]; [exchange] sends the request and checks
    the status of the answer. *)
Definition subscribe_internal (require_homeserver_of : PublicKey → result Invalid PublicKey)
    (exchange : StreamRequest → result Invalid (list (result SseStreamError SseEvent))) (self : EventStreamBuilder)
    : result Invalid (list (result Invalid Event)) :=
  request ← subscribe_request require_homeserver_of self;
  response ← exchange request;
  Ok (response_event_stream response (esb_max_event_bytes self)).

End Reading.

(** * The answer, as the client reads it *)

Section Delivery.
Context `{PkarrKeysLaws, UrlCodecLaws, Base64CodecLaws}.

Lemma strip_prefix_other c s d p : c ≠ d → strip_prefix (c :: s) (d :: p) = None.
Proof. intros Hc. cbn. by rewrite (proj2 (Z.eqb_neq _ _)) by congruence. Qed.

(** Lines joined with line feeds are read back, if the last one is not empty. *)
Lemma lines_join ls l :
  l ≠ [] → Forall (λ s, LF ∉ s ∧ CR ∉ s) (ls ++ [l]) → lines (join LF (ls ++ [l])) = ls ++ [l].
Proof.
  intros Hl Hls. unfold lines. rewrite Forall_forall in Hls.
  rewrite split_join; [|by destruct ls|intros p Hp; by apply Hls].
  induction ls as [|x ls IH]; cbn; [by rewrite bool_decide_eq_false_2|].
  rewrite IH by (intros; apply Hls; by right). destruct (ls ++ [l]) eqn:E; [by destruct ls|]. f_equal.
  unfold strip_cr. destruct (ends_with_char x CR) eqn:Hx; [|done]. apply ends_with_char_spec in Hx as [t ->].
  destruct (Hls (t ++ [CR]) ltac:(by left)) as [_ Hcr]. destruct Hcr. apply elem_of_app. right. by left.
Qed.

Lemma digits_no_line n c : 0 ≤ n → c ∈ show_uint n → 48 ≤ c ≤ 57.
Proof.
  intros Hn Hc. destruct (show_uint_spec n Hn) as (_ & Hd & _). rewrite forallb_forall in Hd.
  apply list_elem_of_In, Hd in Hc. unfold is_ascii_digit in Hc. lia.
Qed.

(** An event that can be told to a client: what the server reads from a row. *)
Definition event_ok (e : EventEntity) : Prop :=
  0 ≤ ve_id e ≤ U64_MAX ∧ ve_path e = EntryPath_new (ve_user_pubkey e) (ep_path (ve_path e)) ∧
  StoragePath_wf (ep_path (ve_path e)) ∧ as_str (ep_path (ve_path e)) ≠ [SLASH] ∧
  ∀ h, ve_event_type e = EventPut h → length h = 32%nat ∧ Forall is_byte h.

Lemma event_ok_from_row row e :
  EventEntity_from_row row = Ok e → v_path row.1 ≠ [SLASH] →
  (∀ h, v_content_hash row.1 = Some h → Forall is_byte h) → event_ok e.
Proof.
  destruct row as [v u]. cbn [fst]. unfold EventEntity_from_row. intros He Hr Hh.
  destruct (PublicKey_try_from_z32 _) as [k|]; [|done]. cbn [map_err mbind result_bind] in He.
  destruct (StoragePath_new (v_path v)) as [p|] eqn:Hp; [|done]. cbn [map_err mbind result_bind] in He.
  unfold StoragePath_new in Hp. destruct (validate_canonical (v_path v)) eqn:Hv; [|done]. injection Hp as <-.
  assert (∀ h, default (repeat 0 32) (bytes ← v_content_hash v; if (length bytes =? 32)%nat then Some bytes else None) = h
           → length h = 32%nat ∧ Forall is_byte h) as Hhash.
  { intros h <-. destruct (v_content_hash v) as [b|] eqn:Eb; cbn; [destruct (Nat.eqb_spec (length b) 32); cbn|].
    1: by auto. all: split; [done|]; repeat constructor; lia. }
  assert (0 ≤ as_u64 (v_id v) ≤ U64_MAX) as Hid.
  { unfold as_u64, U64_MAX. pose proof (Z.mod_pos_bound (v_id v) 18446744073709551616). lia. }
  destruct (decide (v_type v = lit "PUT")) as [|_]; [|destruct (decide (v_type v = lit "DEL"))];
    try done; injection He as <-; destruct val; (split; [exact Hid|]); split_and!; try done.
  cbn. intros h [= <-]. by apply Hhash.
Qed.

(** The lines of the payload of an event. *)
Lemma sse_data_lines e :
  event_ok e →
  lines (EventEntity_to_sse_data e)
  = [EventEntity_pubky_uri e; lit "cursor: " ++ show_uint (ve_id e)] ++
    match EventType_content_hash (ve_event_type e) with
    | Some h => [lit "content_hash: " ++ b64_encode h] | None => [] end.
Proof.
  intros (Hid & Hep & Hp & Hroot & Hh).
  assert (∀ c, c ∈ EventEntity_pubky_uri e → c ≠ LF ∧ c ≠ CR) as Huri.
  { intros c [Hc|[Hc|Hc]%elem_of_app]%elem_of_app.
    - split; intros ->; revert Hc; apply contains_char_false; vm_compute; reflexivity.
    - apply pkarr_ascii in Hc. unfold LF, CR. lia.
    - apply wf_no_control in Hc; [|done]. split; intros ->; done. }
  assert (∀ c, c ∈ lit "cursor: " ++ show_uint (ve_id e) → c ≠ LF ∧ c ≠ CR) as Hcur.
  { intros c [Hc|Hc]%elem_of_app.
    - split; intros ->; revert Hc; apply contains_char_false; vm_compute; reflexivity.
    - apply digits_no_line in Hc; [unfold LF, CR; lia|lia]. }
  unfold EventEntity_to_sse_data, EventCursor_fmt, EventEntity_cursor.
  destruct (EventType_content_hash (ve_event_type e)) as [h|] eqn:Eh.
  - apply (lines_join [_; _]); [done|]. repeat constructor; try (intros Hc; by apply Huri in Hc as []);
      try (intros Hc; by apply Hcur in Hc as []).
    all: intros [Hc|Hc]%elem_of_app; [revert Hc; apply contains_char_false; vm_compute; reflexivity|].
    all: apply b64_alphabet in Hc; unfold LF, CR in *; lia.
  - cbn [app]. apply (lines_join [_]); [done|]. repeat constructor; try (intros Hc; by apply Huri in Hc as []);
      try (intros Hc; by apply Hcur in Hc as []).
Qed.

(** What the client is to see of an event. *)
Definition sees (e : EventEntity) (x : Event) : Prop :=
  PubkyResource_new (ve_user_pubkey e) (as_str (ep_path (ve_path e))) = Ok (e_resource x) ∧
  e_event_type x = ve_event_type e ∧ e_cursor x = ve_id e.

Lemma parse_sse_event_sees e :
  event_ok e → ∃ x, parse_sse_event (EventEntity_to_sse_event e) = Ok x ∧ sees e x.
Proof.
  intros He. pose proof He as (Hid & Hep & Hp & Hroot & Hh).
  destruct (resource_from_uri (ve_user_pubkey e) _ Hp Hroot) as (r & Hnew & Huri).
  exists (mk_Event (ve_event_type e) r (ve_id e)). split; [|done].
  unfold parse_sse_event. cbn [me_data me_event EventEntity_to_sse_event]. rewrite sse_data_lines by done.
  assert (∀ rest f, sse_fields 0 (EventEntity_pubky_uri e :: rest) f
                    = sse_fields 1 rest (mk_SseFields (Some (EventEntity_pubky_uri e)) (sf_cursor f) (sf_content_hash f)))
    as Hfirst by done.
  assert (∀ rest f, sse_fields 1 ((lit "cursor: " ++ show_uint (ve_id e)) :: rest) f
                    = sse_fields 2 rest (mk_SseFields (sf_path f) (Some (ve_id e)) (sf_content_hash f))) as Hsecond.
  { intros rest f. cbn [sse_fields]. rewrite (proj2 (strip_prefix_spec _ _ _) eq_refl).
    unfold EventCursor_from_str. by rewrite parse_uint_show. }
  assert (∀ h f, sse_fields 2 [lit "content_hash: " ++ b64_encode h] f
                 = Ok (mk_SseFields (sf_path f) (sf_cursor f) (Some (b64_encode h)))) as Hthird.
  { intros h f. cbn [sse_fields]. by rewrite (proj2 (strip_prefix_spec _ (lit "content_hash: ") _) eq_refl). }
  cbn [app]. rewrite Hfirst, Hsecond. destruct (ve_event_type e) as [h|] eqn:Et.
  - cbn [EventType_content_hash]. rewrite Hthird. cbn [mbind result_bind sf_path sf_cursor sf_content_hash ok_or].
    change (EventEntity_pubky_uri e) with
      (lit "pubky://" ++ PublicKey_z32 (ve_user_pubkey e) ++ as_str (ep_path (ve_path e))).
    rewrite Huri. cbn [map_err mbind result_bind EventType_as_str]. rewrite decide_True by done.
    destruct (Hh h eq_refl) as [Hlen Hb]. unfold decode_content_hash. cbn [mbind option_bind].
    rewrite bool_decide_eq_false_2 by (apply b64_nonempty; by destruct h).
    cbn [ok_or mbind result_bind]. rewrite b64_roundtrip by done. cbn [ok_or mbind result_bind]. by rewrite Hlen.
  - cbn [EventType_content_hash sse_fields mbind result_bind sf_path sf_cursor sf_content_hash ok_or].
    change (EventEntity_pubky_uri e) with
      (lit "pubky://" ++ PublicKey_z32 (ve_user_pubkey e) ++ as_str (ep_path (ve_path e))).
    by rewrite Huri.
Qed.

Lemma response_event_stream_app response tail max :
  Forall (λ r, is_ok r = true) response →
  response_event_stream (response ++ tail) max
  = response_event_stream response max ++ response_event_stream tail max.
Proof.
  unfold response_event_stream. intros Hok. rewrite <-omap_app. f_equal.
  induction Hok as [|r response Hr _ IH]; [done|]. destruct r as [[m|]|]; cbn; [by f_equal|done|done].
Qed.

Lemma response_messages response max :
  Forall (λ r, is_ok r = true) response →
  response_event_stream response max = omap (λ m, match parse_sse_event m with Ok x => Some (Ok x) | Err _ => None end)
    (omap (λ r, match r with Ok (SseMessage m) => Some m | _ => None end) response).
Proof.
  unfold response_event_stream. induction 1 as [|r response Hr _ IH]; [done|].
  destruct r as [[m|]|]; cbn; [|done|done]. destruct (parse_sse_event m); cbn; by rewrite IH.
Qed.

(** (C37) The client receives the events the server sends.  For any rows of the
    events table the server reads and puts on a stream, in whatever way they
    are interleaved with other server-sent events, the client yields exactly
    these events in this order: each with its type and content hash, its
    cursor, and the resource of its owner and path; and it goes on with
    whatever follows, an error included. *)
Theorem sdk_stream_delivers rows evs response max :
  Forall (λ row, v_path row.1 ≠ [SLASH] ∧ ∀ h, v_content_hash row.1 = Some h → Forall is_byte h) rows →
  collect_results (map EventEntity_from_row rows) = Ok evs →
  Forall (λ r, is_ok r = true) response →
  omap (λ r, match r with Ok (SseMessage m) => Some m | _ => None end) response = map EventEntity_to_sse_event evs →
  ∃ xs, Forall2 sees evs xs ∧
    ∀ tail, response_event_stream (response ++ tail) max = map Ok xs ++ response_event_stream tail max.
Proof.
  intros Hrows Hevs Hok Hm. rewrite Forall_forall in Hrows.
  assert (Forall event_ok evs) as Hwf.
  { apply Forall_forall. intros e He.
    apply (collect_results_elem _ _ _ Hevs), list_elem_of_fmap in He as (row & Hrow & Hin).
    destruct (Hrows row Hin). by eapply event_ok_from_row. }
  assert (∃ xs, Forall2 sees evs xs ∧
            omap (λ m, match parse_sse_event m with Ok x => Some (Ok x) | Err _ => None end)
              (map EventEntity_to_sse_event evs) = map (Ok (E := Invalid)) xs) as (xs & Hsees & Hxs).
  { clear Hm Hevs. induction Hwf as [|e evs' He _ (xs & Hs & Hxs)]; [by exists []|].
    destruct (parse_sse_event_sees e He) as (x & Hx & Hsx). exists (x :: xs). split; [by constructor|].
    cbn [map omap list_omap]. rewrite Hx. cbn. by f_equal. }
  exists xs. split; [done|]. intros tail. by rewrite response_event_stream_app, response_messages, Hm, Hxs.
Qed.

End Delivery.

(** * The request, as the server reads it *)

Section Request.
Context `{PkarrKeysLaws}.

Definition cursor_ok (uc : PublicKey * option EventCursor) : Prop := ∀ c, uc.2 = Some c → 0 ≤ c ≤ U64_MAX.

(** The builders a program can make; the bounds are the widths of the
    arguments. *)
Inductive built : EventStreamBuilder → Prop :=
| built_for_user user cursor : cursor_ok (user, cursor) → built (EventStreamBuilder_for_user user cursor)
| built_for_homeserver homeserver : built (EventStreamBuilder_for_homeserver homeserver)
| built_add_users b new b' :
    built b → Forall cursor_ok new → EventStreamBuilder_add_users new b = Ok b' → built b'
| built_limit b limit : built b → 0 ≤ limit ≤ U16_MAX → built (EventStreamBuilder_limit limit b)
| built_max_event_bytes b limit : built b → 0 ≤ limit ≤ U64_MAX → built (EventStreamBuilder_max_event_bytes limit b)
| built_live b : built b → built (EventStreamBuilder_live b)
| built_reverse b : built b → built (EventStreamBuilder_reverse b)
| built_path b path : built b → built (EventStreamBuilder_path path b)
| built_session b credential : built b → built (EventStreamBuilder_session credential b).

Definition builder_ok (b : EventStreamBuilder) : Prop :=
  NoDup (map fst (esb_users b)) ∧ Forall cursor_ok (esb_users b) ∧ (length (esb_users b) ≤ 50)%nat ∧
  ∀ n, esb_limit b = Some n → 0 ≤ n ≤ U16_MAX.

Lemma update_cursor_spec user cursor us :
  match update_cursor user cursor us with
  | Some us' => map fst us' = map fst us ∧
                (Forall cursor_ok us → cursor_ok (user, cursor) → Forall cursor_ok us')
  | None => user ∉ map fst us
  end.
Proof.
  induction us as [|[u c] us IH]; cbn; [apply not_elem_of_nil|].
  destruct (decide (u = user)) as [->|Hne]; cbn.
  - split; [done|]. intros [_ Hus]%Forall_cons Hc. by constructor.
  - destruct (update_cursor user cursor us) as [us'|]; cbn; [|by apply not_elem_of_cons].
    destruct IH as [Hf Ho]. split; [by rewrite Hf|]. intros [Hu Hus]%Forall_cons Hc. constructor; auto.
Qed.

Lemma add_users_ok new b b' :
  builder_ok b → Forall cursor_ok new → EventStreamBuilder_add_users new b = Ok b' → builder_ok b'.
Proof.
  revert b. induction new as [|[user cursor] new IH]; intros b Hb Hnew; cbn [EventStreamBuilder_add_users]; [by intros [= <-]|].
  apply Forall_cons in Hnew as [Hc Hnew]. destruct Hb as (Hnd & Hcs & Hlen & Hl).
  pose proof (update_cursor_spec user cursor (esb_users b)) as Hu.
  destruct (update_cursor user cursor (esb_users b)) as [us|].
  - apply IH; [|done]. destruct Hu as [Hf Ho]. split_and!; cbn; [by rewrite Hf|by apply Ho| |done].
    apply (f_equal length) in Hf. rewrite !length_map in Hf. lia.
  - destruct (Nat.leb_spec 50 (length (esb_users b))); [done|]. apply IH; [|done]. split_and!; cbn; [| |rewrite length_app; cbn; lia|done].
    + rewrite map_app. apply NoDup_app. split_and!; [done| |by apply NoDup_singleton].
      intros x Hx ->%list_elem_of_singleton. done.
    + apply Forall_app. split; [done|by constructor].
Qed.

Lemma built_ok b : built b → builder_ok b.
Proof.
  induction 1 as [user cursor Hc|hs|b new b' _ IH Hnew Ha|b limit _ IH Hl| | | | |]; try exact IHbuilt.
  - split_and!; cbn; [apply NoDup_singleton|by constructor|lia|done].
  - split_and!; cbn; [apply NoDup_nil_2|by constructor|lia|done].
  - by eapply add_users_ok.
  - destruct IH as (? & ? & ? & _). split_and!; [done..|]. by intros n [= <-].
Qed.

Lemma set_user_cursor_fresh k c ucs :
  k ∉ map fst ucs → set_user_cursor k c ucs = ucs ++ [(k, c)].
Proof.
  induction ucs as [|[k' c'] ucs IH]; intros Hk; cbn; [done|]. apply not_elem_of_cons in Hk as [Hne Hk].
  rewrite decide_False by done. by rewrite IH.
Qed.

Lemma z32_no_58 k : 58 ∉ PublicKey_z32 k.
Proof. intros Hc. apply pkarr_ascii in Hc. lia. Qed.

Lemma z32_nonempty k : PublicKey_z32 k ≠ [].
Proof. intros E. pose proof (pkarr_len k) as Hl. unfold PublicKey_z32 in E. by rewrite E in Hl. Qed.

Lemma parse_user_cursor_sent uc :
  cursor_ok uc →
  parse_user_cursor (match uc.2 with Some c => PublicKey_z32 uc.1 ++ [58] ++ EventCursor_fmt c | None => PublicKey_z32 uc.1 end)
  = Ok uc.
Proof.
  destruct uc as [k [c|]]; intros Hc; cbn [fst snd]; unfold parse_user_cursor.
  - rewrite (proj2 (split_once_spec 58 (PublicKey_z32 k ++ [58] ++ EventCursor_fmt c) _ _) (conj eq_refl (z32_no_58 k))).
    destruct (Hc c eq_refl) as [H0' Hmax]. destruct (show_uint_spec c H0') as [Hne _].
    rewrite decide_False by done. unfold stream_parse_public_key. rewrite z32_not_prefixed.
    unfold PublicKey_try_from_z32, PublicKey_z32. rewrite pkarr_roundtrip. cbn [map_err mbind result_bind].
    unfold parse_cursor, EventCursor_from_str, EventCursor_fmt. by rewrite parse_uint_show.
  - rewrite (proj2 (split_once_None _ _)) by apply z32_no_58. unfold stream_parse_public_key. rewrite z32_not_prefixed.
    unfold PublicKey_try_from_z32, PublicKey_z32. by rewrite pkarr_roundtrip.
Qed.

Lemma query_loop_users us rest ucs shared :
  NoDup (map fst (ucs ++ us)) → Forall cursor_ok us →
  client_query_loop
    (map (λ uc, (lit "user",
                 match uc.2 with
                 | Some c => PublicKey_z32 uc.1 ++ [58] ++ EventCursor_fmt c
                 | None => PublicKey_z32 uc.1
                 end)) us ++ rest) ucs shared
  = client_query_loop rest (ucs ++ us) shared.
Proof.
  revert ucs. induction us as [|uc us IH]; intros ucs Hnd Hc; cbn [map app]; [by rewrite app_nil_r|].
  apply Forall_cons in Hc as [Hc Hus]. cbn [client_query_loop]. rewrite decide_True.
  2: { split; [done|]. pose proof (z32_nonempty uc.1). destruct uc.2; [|done]. by destruct (PublicKey_z32 uc.1). }
  rewrite parse_user_cursor_sent by done. cbn [mbind result_bind].
  rewrite set_user_cursor_fresh.
  - destruct uc as [k c]. cbn [fst snd]. rewrite IH, <-app_assoc; [done| |done]. by rewrite <-app_assoc.
  - rewrite map_app, NoDup_app in Hnd. destruct Hnd as (_ & Hd & _). intros Hin. apply (Hd _ Hin). by left.
Qed.

Lemma query_loop_paths ps ucs shared :
  client_query_loop (map (λ path, (lit "path", path)) ps) ucs shared
  = (qs ← collect_results (map parse_path (filter (λ p, p ≠ []) ps));
     Ok (ucs, mk_SharedParams (sp_limit shared) (sp_live shared) (sp_reverse shared) (sp_paths shared ++ qs))).
Proof.
  revert shared. induction ps as [|p ps IH]; intros shared; cbn [map client_query_loop].
  { cbn. rewrite app_nil_r. by destruct shared. }
  rewrite decide_False by (intros [E _]; vm_compute in E; discriminate). unfold SharedParams_parse.
  do 3 rewrite decide_False by (intros E; vm_compute in E; discriminate). rewrite filter_cons.
  destruct (decide (p = [])) as [->|Hp].
  - rewrite decide_False by (by intros [_ ?]). rewrite decide_False by (by intros ?). cbn [mbind result_bind]. apply IH.
  - rewrite decide_True by done. rewrite decide_True by done. cbn [map collect_results].
    destruct (parse_path p) as [q|]; cbn [mbind result_bind]; [|done]. rewrite IH.
    destruct (collect_results _); cbn [mbind result_bind sp_limit sp_live sp_reverse sp_paths]; [|done].
    by rewrite <-app_assoc.
Qed.

(** The order of a subscription. *)
Definition builder_mode (b : EventStreamBuilder) : Mode :=
  if esb_live b then ForwardLive else if esb_reverse b then Reverse else Forward.

(** What the server's loop finds in the query of a subscription. *)
Lemma query_loop_sent b :
  builder_ok b →
  client_query_loop (build_request_query b) [] SharedParams_default
  = if decide (esb_limit b = Some 0) then Err ZeroLimit
    else ps ← collect_results (map parse_path (filter (λ p, p ≠ []) (esb_paths b)));
         Ok (esb_users b, mk_SharedParams (esb_limit b) (esb_live b) (esb_reverse b) ps).
Proof.
  intros (Hnd & Hc & _ & Hl). unfold build_request_query. rewrite (query_loop_users _ _ []) by done. cbn [app].
  set (us := esb_users b). set (paths := map (λ path, (lit "path", path)) (esb_paths b)).
  assert (∀ limit, client_query_loop
            ((if esb_live b then [(lit "live", lit "true")] else []) ++
             (if esb_reverse b then [(lit "reverse", lit "true")] else []) ++ paths)
            us (mk_SharedParams limit false false [])
          = client_query_loop paths us (mk_SharedParams limit (esb_live b) (esb_reverse b) [])) as Hflags.
  { intros limit. destruct (esb_live b), (esb_reverse b); done. }
  destruct (esb_limit b) as [n|] eqn:El.
  - specialize (Hl n eq_refl). cbn [app client_query_loop].
    rewrite decide_False by (intros [E _]; vm_compute in E; discriminate). unfold SharedParams_parse at 1.
    rewrite decide_True by done. rewrite parse_uint_show by lia. cbn [ok_or mbind result_bind].
    destruct (Z.eqb_spec n 0) as [->|Hn0]; [by rewrite decide_True|]. rewrite decide_False by congruence.
    cbn [mbind result_bind]. unfold SharedParams_default. cbn [sp_live sp_reverse sp_paths]. rewrite Hflags.
    apply query_loop_paths.
  - rewrite decide_False by done. cbn [app]. unfold SharedParams_default. rewrite Hflags. apply query_loop_paths.
Qed.

Lemma query_parsed form_parse query b :
  builder_ok b → esb_users b ≠ [] → esb_live b && esb_reverse b = false →
  form_parse query = build_request_query b →
  ClientStreamQuery_parse form_parse query
  = if decide (esb_limit b = Some 0) then Err ZeroLimit
    else ps ← collect_results (map parse_path (filter (λ p, p ≠ []) (esb_paths b)));
         Ok (mk_ClientStreamQuery (esb_users b) (esb_limit b) (builder_mode b) ps).
Proof.
  intros Hb Hne Hm Hq. unfold ClientStreamQuery_parse. rewrite Hq, query_loop_sent by done.
  destruct (decide _); [done|]. destruct (collect_results _) as [ps|]; [|done]. cbn [mbind result_bind].
  unfold SharedParams_mode, builder_mode. cbn [sp_limit sp_live sp_reverse sp_paths]. destruct Hb as (_ & _ & Hlen & _).
  unfold check_user_count, MAX_EVENT_STREAM_USERS.
  destruct (esb_live b), (esb_reverse b); try done; cbn [mbind result_bind]; rewrite decide_False by done;
    by rewrite (proj2 (Nat.ltb_ge 50 (length (esb_users b)))) by lia.
Qed.

(** Both sides agree on which requests are private. *)
Lemma private_filters_agree ps qs :
  collect_results (map parse_path (filter (λ p, p ≠ []) ps)) = Ok qs →
  existsb is_private_path_filter ps = existsb (λ path, starts_with (as_str path) PRIVATE_ROOT) qs.
Proof.
  revert qs. induction ps as [|p ps IH]; intros qs; [by intros [= <-]|]. rewrite filter_cons.
  destruct (decide (p = [])) as [->|Hp].
  - rewrite decide_False by (by intros ?). intros Hqs. cbn [existsb]. by rewrite (IH _ Hqs).
  - rewrite decide_True by done. cbn [map collect_results existsb].
    assert (is_private_path_filter p
            = match parse_path p with Ok q => starts_with (as_str q) PRIVATE_ROOT | Err _ => false end) as ->.
    { unfold parse_path, is_private_path_filter. by destruct (StoragePath_normalize _). }
    destruct (parse_path p) as [q|]; [|done]. cbn [mbind result_bind].
    destruct (collect_results _) as [qs'|] eqn:E; [|done]. intros [= <-]. cbn [existsb]. by rewrite (IH qs').
Qed.

(** A subscription asks for what was configured, and its credential goes
    only where it is needed.  For every builder a program can make whose
    request is sent: the server reads from the query exactly the users with
    their cursors, the limit, the order and the paths of the builder, or
    refuses a zero limit or the first path that is not one; and a credential
    is on the request exactly if the subscription is private to the one user
    the credential belongs to, by the server's own reading, and then the
    credential may be sent to that home server, which is the one configured or
    the one of the first user whatever session is attached. *)
Theorem sdk_stream_request form_parse query require_homeserver_of b request :
  built b → subscribe_request require_homeserver_of b = Ok request → form_parse query = sr_query request →
  ClientStreamQuery_parse form_parse query
  = (if decide (esb_limit b = Some 0) then Err ZeroLimit
     else ps ← collect_results (map parse_path (filter (λ p, p ≠ []) (esb_paths b)));
          Ok (mk_ClientStreamQuery (esb_users b) (esb_limit b) (builder_mode b) ps)) ∧
  (∀ q c, ClientStreamQuery_parse form_parse query = Ok q →
     sr_credential request = Some c ↔
     esb_credential b = Some c ∧
     EventStreamTenantScope_from_query (cq_paths q) (cq_user_cursors q) = PrivateSingleTenant (sc_public_key c)) ∧
  (∀ c, sr_credential request = Some c → can_attach_to c (sr_homeserver request) = true) ∧
  ∃ first cursor rest, esb_users b = (first, cursor) :: rest ∧
    match esb_homeserver b with Some hs => Ok hs | None => require_homeserver_of first end = Ok (sr_homeserver request).
Proof.
  intros Hb%built_ok Hr Hq. unfold subscribe_request in Hr. destruct (esb_max_event_bytes b =? 0); [done|].
  destruct (esb_live b && esb_reverse b) eqn:Hm; [done|].
  destruct (esb_users b) as [|[first cursor] rest] eqn:Hus; [done|]. destruct (50 <? length _)%nat; [done|].
  destruct (match esb_homeserver b with Some hs => Ok hs | None => require_homeserver_of first end) as [hs|] eqn:Hhs; [|done].
  cbn [mbind result_bind] in Hr.
  set (cred := c ← esb_credential b; if should_attach_credential b c then Some c else None) in *.
  destruct (bool_decide (is_Some cred) && negb (match cred with Some c => can_attach_to c hs | None => false end)) eqn:Hatt;
    [done|]. injection Hr as <-. cbn [sr_query sr_credential sr_homeserver] in *.
  assert (ClientStreamQuery_parse form_parse query
          = if decide (esb_limit b = Some 0) then Err ZeroLimit
            else ps ← collect_results (map parse_path (filter (λ p, p ≠ []) (esb_paths b)));
                 Ok (mk_ClientStreamQuery (esb_users b) (esb_limit b) (builder_mode b) ps)) as Hparse
    by (apply query_parsed; [done|by rewrite Hus|done|done]).
  rewrite Hus in Hparse. split; [exact Hparse|]. split_and!.
  - intros q c Hq'. rewrite Hparse in Hq'. destruct (decide _); [done|].
    destruct (collect_results _) as [ps|] eqn:Hps; [|done]. injection Hq' as <-. cbn [cq_paths cq_user_cursors].
    pose proof (private_filters_agree _ _ Hps) as Hpriv. unfold cred, EventStreamTenantScope_from_query.
    rewrite <-Hpriv. unfold should_attach_credential, auth_scope, has_private_path_filter. rewrite Hus.
    destruct (esb_credential b) as [c0|]; [|by split; [done|intros [??]]]. cbn [mbind option_bind].
    destruct (existsb is_private_path_filter (esb_paths b)); [|by split; [done|intros [??]]]. cbn [negb].
    destruct rest; [|by split; [done|intros [??]]]. clear Hatt. case_bool_decide as Hk.
    + split; [intros [= <-]; by rewrite Hk|by intros [[= <-] _]].
    + split; [done|]. intros [[= <-] [= ->]]. done.
  - intros c Hc. rewrite Hc in Hatt. rewrite bool_decide_true in Hatt by eauto. by destruct (can_attach_to c hs).
  - by exists first, cursor, rest.
Qed.

End Request.

(** * Witnesses *)

#[local] Instance letters_codec : Base64Codec := {| b64_encode := letters_encode; b64_decode := letters_decode |}.

#[local] Instance letters_codec_laws : Base64CodecLaws.
Proof.
  split.
  - apply letters_roundtrip.
  - by intros [|x b] Hb.
  - intros b c Hc%letters_range. lia.
Qed.

(** A row of the events table with its user, and a response that carries it. *)
Definition demo_event_row : EventRow * UserRow :=
  (mk_EventRow 7 (lit "PUT") 1 (lit "/pub/app/a b.txt") 10 (Some (repeat 200 32)), demo_user_row).

Local Abbreviation demo_event :=
  (mk_EventEntity (H := demo_keys) 7 1 true (EventPut (repeat 200 32))
     (EntryPath_new (H := demo_keys) true (mk_StoragePath (lit "/pub/app/a b.txt"))) 10).

Lemma sdk_stream_delivers_witness :
  ∃ x, response_event_stream (H := demo_keys) (H0 := plain_codec) (H1 := letters_codec)
         ([Ok SseRetry; Ok (SseMessage (EventEntity_to_sse_event (H := demo_keys) (H0 := letters_codec) demo_event))]
          ++ [Err (Inner (lit "connection closed"))]) U64_MAX
       = [Ok x; Err (lit "SSE stream error: connection closed")] ∧
    e_cursor (H := demo_keys) x = 7.
Proof.
  destruct (sdk_stream_delivers (H := demo_keys) (H1 := plain_codec) (H3 := letters_codec) [demo_event_row] [demo_event]
              [Ok SseRetry; Ok (SseMessage (EventEntity_to_sse_event (H := demo_keys) (H0 := letters_codec) demo_event))]
              U64_MAX) as (xs & Hs & Hx).
  - constructor; [|constructor]. split; [vm_compute; discriminate|]. intros h Hh. injection Hh as <-.
    repeat constructor; lia.
  - vm_compute. reflexivity.
  - repeat constructor.
  - reflexivity.
  - apply Forall2_cons_inv_l in Hs as (x & xs' & (_ & _ & Hc) & Hnil & ->). apply Forall2_nil_inv_l in Hnil as ->.
    exists x. split; [exact (Hx _)|exact Hc].
Defined.

(** A private subscription of the user's own session. *)
Local Abbreviation demo_credential := (mk_SessionCredential (H := demo_keys) true (λ hs, bool_decide (hs = false))).
Local Abbreviation demo_builder :=
  (EventStreamBuilder_session demo_credential
     (EventStreamBuilder_path (lit "priv/app/") (EventStreamBuilder_limit 10 (EventStreamBuilder_for_user (H := demo_keys) true (Some 3))))).

Lemma sdk_stream_request_witness :
  ∃ request, subscribe_request (H := demo_keys) (λ _, Ok false) demo_builder = Ok request ∧
    sr_credential request = Some demo_credential ∧
    ClientStreamQuery_parse (H := demo_keys) (λ _, sr_query request) []
    = Ok (mk_ClientStreamQuery (H := demo_keys) [(true, Some 3)] (Some 10) Forward [mk_StoragePath (lit "/priv/app/")]).
Proof.
  eexists. split; [vm_compute; reflexivity|].
  destruct (sdk_stream_request (H := demo_keys) (λ _, build_request_query demo_builder) [] (λ _, Ok false) demo_builder
              (mk_StreamRequest (H := demo_keys) false (build_request_query demo_builder) (Some demo_credential)))
    as (Hq & Hc & _).
  - apply built_session, built_path, built_limit; [|vm_compute; split; discriminate].
    apply built_for_user. intros n [= <-]. vm_compute. split; discriminate.
  - vm_compute. reflexivity.
  - reflexivity.
  - split; [reflexivity|]. exact Hq.
Defined.
