(* ===== verification/EncryptionKeys.v ===== *)
(** Hierarchical encryption keys ([pubky-common/src/encryption_keys.rs]): the key
    of a path is derived segment by segment from the key of a scope that covers
    it, so that a bundle of scoped keys gives the keys of exactly the files
    below its scopes.

    HKDF-SHA256 belongs to crates: [Hkdf].  A failed [assert!] is [None]. *)

From S2P Require Import Prelude StoragePath Capabilities.

(** * Key derivation *)

Abbreviation Secret := (list Z).

(** [Hkdf::<Sha256>]: the extraction without salt, and the expansion of a
    pseudo-random key by the concatenation of the given infos to 32 bytes. *)
Class Hkdf := {
  hkdf_extract : Secret → Secret;
  hkdf_expand : Secret → list str → Secret;
}.

(** [str::split_inclusive]. *)
Fixpoint split_inclusive (c : Z) (s : str) : list str :=
  match s with
  | [] => []
  | d :: s =>
      if d =? c then [d] :: split_inclusive c s
      else match split_inclusive c s with
           | [] => [[d]]
           | piece :: pieces => (d :: piece) :: pieces
           end
  end.

Section Derivation.
Context `{Hkdf}.

Definition ROOT_INFO : str := lit "pubky/hierarchical-keys/v1/root".
Definition DIRECTORY_INFO : str := lit "pubky/hierarchical-keys/v1/directory".
Definition FILE_INFO : str := lit "pubky/hierarchical-keys/v1/file-content".

Definition derive_root_secret (identity_secret : Secret) : Secret :=
  hkdf_expand (hkdf_extract identity_secret) [ROOT_INFO].

(** One round of the loop over the segments. *)
Definition derive_segment (secret : Secret) (segment : str) : Secret :=
  let '(segment, info) :=
    if ends_with_char segment SLASH then (removelast segment, DIRECTORY_INFO) else (segment, FILE_INFO) in
  hkdf_expand secret [info; [0]; segment].

Definition derive_path (scope : StoragePath) (seed : Secret) (path : StoragePath) : option Secret :=
  if StoragePath_covers_path scope path then
    let relative_path := drop (length (as_str scope)) (as_str path) in
    Some (foldl derive_segment seed (split_inclusive SLASH relative_path))
  else None.

(** * Bundles *)

Record KeyEntry := mk_KeyEntry {
  ke_scope : StoragePath;
  ke_secret : Secret
}.

Inductive DerivationVersion := V1.

Record ScopedEncryptionKeyBundle := mk_ScopedEncryptionKeyBundle {
  bundle_version : DerivationVersion;
  bundle_keys : list KeyEntry
}.

Inductive KeyDerivationError :=
| DirectoryPath (requested : StoragePath)
| OutsideScope (requested : StoragePath).

Record ConflictingKeys := mk_ConflictingKeys { ck_scope : StoragePath; ck_other_scope : StoragePath }.

Definition from_identity_secret (identity_secret : Secret) (scopes : list StoragePath)
    : option ScopedEncryptionKeyBundle :=
  let root_scope := StoragePath_root in
  let root_secret := derive_root_secret identity_secret in
  keys ← mapM (λ scope, secret ← derive_path root_scope root_secret scope; Some (mk_KeyEntry scope secret)) scopes;
  Some (mk_ScopedEncryptionKeyBundle V1 keys).

Definition bundle_scopes (self : ScopedEncryptionKeyBundle) : list StoragePath := map ke_scope (bundle_keys self).

Definition derive_scoped_path (self : ScopedEncryptionKeyBundle) (path : StoragePath)
    : option (result KeyDerivationError Secret) :=
  match list_find (λ entry, StoragePath_covers_path (ke_scope entry) path = true) (bundle_keys self) with
  | None => Some (Err (OutsideScope path))
  | Some (_, entry) => secret ← derive_path (ke_scope entry) (ke_secret entry) path; Some (Ok secret)
  end.

Definition derive_for_path (self : ScopedEncryptionKeyBundle) (path : StoragePath)
    : option (result KeyDerivationError Secret) :=
  if StoragePath_is_directory path then Some (Err (DirectoryPath path)) else derive_scoped_path self path.

(** ** Bundles from elsewhere *)

(** The inner loop: [entry] against those before it. *)
Fixpoint check_overlaps (entry : KeyEntry) (others : list KeyEntry) : option (result ConflictingKeys ()) :=
  match others with
  | [] => Some (Ok ())
  | other :: others =>
      let check covering covered :=
        expected ← derive_path (ke_scope covering) (ke_secret covering) (ke_scope covered);
        if bool_decide (expected = ke_secret covered) then check_overlaps entry others
        else Some (Err (mk_ConflictingKeys (ke_scope covering) (ke_scope covered))) in
      if StoragePath_covers_path (ke_scope entry) (ke_scope other) then check entry other
      else if StoragePath_covers_path (ke_scope other) (ke_scope entry) then check other entry
      else check_overlaps entry others
  end.

Fixpoint validate_overlaps (before keys : list KeyEntry) : option (result ConflictingKeys ()) :=
  match keys with
  | [] => Some (Ok ())
  | entry :: keys =>
      r ← check_overlaps entry before;
      match r with
      | Ok _ => validate_overlaps (before ++ [entry]) keys
      | Err e => Some (Err e)
      end
  end.

Definition validate_overlap_consistency (keys : list KeyEntry) : option (result ConflictingKeys ()) :=
  validate_overlaps [] keys.

(** [Deserialize], from the decoded fields. *)
Definition ScopedEncryptionKeyBundle_deserialize (version : DerivationVersion) (keys : list KeyEntry)
    : option (result ConflictingKeys ScopedEncryptionKeyBundle) :=
  r ← validate_overlap_consistency keys;
  Some (_ ← r; Ok (mk_ScopedEncryptionKeyBundle version keys)).

(** * Derivation along a path *)

Lemma split_inclusive_app c a b :
  b = [] ∨ a = [] ∨ ends_with_char a c = true →
  split_inclusive c (a ++ b) = split_inclusive c a ++ split_inclusive c b.
Proof.
  intros [->|[->|Ha]]; [by rewrite !app_nil_r|done|]. apply ends_with_char_spec in Ha as [t ->].
  induction t as [|d t IH]; cbn; [by rewrite Z.eqb_refl|]. destruct (d =? c); [by rewrite IH|]. rewrite IH.
  destruct (split_inclusive c (t ++ [c])) eqn:E; [|done]. by destruct t as [|x t]; cbn in E; repeat case_match.
Qed.

Lemma covers_split s p :
  StoragePath_covers_path s p = true → as_str p = as_str s ++ drop (length (as_str s)) (as_str p).
Proof.
  unfold StoragePath_covers_path. rewrite orb_true_iff, bool_decide_eq_true, andb_true_iff.
  intros [->|[_ [t Ht]%starts_with_spec]]; [by rewrite drop_all, app_nil_r|].
  rewrite Ht. by rewrite drop_app_length.
Qed.

(** The key of a path is the same derived at once or by way of a scope between. *)
Lemma derive_path_compose s p q seed :
  StoragePath_covers_path s p = true → StoragePath_covers_path p q = true →
  (k ← derive_path s seed p; derive_path p k q) = derive_path s seed q.
Proof.
  intros Hsp Hpq. unfold derive_path. rewrite Hsp, Hpq, (covers_path_trans s p q Hsp Hpq). cbn. f_equal.
  pose proof (covers_split s p Hsp) as Ep. pose proof (covers_split p q Hpq) as Eq.
  set (x := drop (length (as_str s)) (as_str p)) in *. set (y := drop (length (as_str p)) (as_str q)) in *.
  assert (drop (length (as_str s)) (as_str q) = x ++ y) as ->.
  { rewrite Eq, Ep, <-app_assoc. by rewrite drop_app_length. }
  rewrite <-foldl_app. f_equal. symmetry. apply split_inclusive_app. unfold StoragePath_covers_path in Hpq.
  apply orb_true_iff in Hpq as [->%bool_decide_eq_true|[Hd _]%andb_true_iff].
  - left. unfold y. by rewrite drop_all.
  - right. unfold StoragePath_is_directory in Hd. apply ends_with_char_spec in Hd as [t Ht].
    destruct x as [|c x'] eqn:Ex; [by left|right]. apply ends_with_char_spec. rewrite Ep in Ht.
    destruct (exists_last (l := c :: x')) as (z & d & Hz); [done|]. rewrite Hz, app_assoc in Ht.
    apply app_inj_2 in Ht as [_ [= ->]]; [|done]. by exists z.
Qed.

(** Two scopes that cover a path are nested. *)
Lemma covering_comparable a b p :
  StoragePath_covers_path a p = true → StoragePath_covers_path b p = true →
  StoragePath_covers_path a b = true ∨ StoragePath_covers_path b a = true.
Proof.
  intros Ha Hb. unfold StoragePath_covers_path in Ha, Hb. rewrite orb_true_iff, bool_decide_eq_true, andb_true_iff in Ha, Hb.
  destruct Ha as [->|[Hda Ha]]; [by right; apply orb_true_iff; rewrite bool_decide_eq_true, andb_true_iff|].
  destruct Hb as [->|[Hdb Hb]]; [by left; apply orb_true_iff; rewrite bool_decide_eq_true, andb_true_iff; right|].
  apply starts_with_spec in Ha, Hb. unfold StoragePath_covers_path. rewrite Hda, Hdb. cbn.
  destruct (prefix_weak_total _ _ _ Ha Hb) as [?%starts_with_spec|?%starts_with_spec]; [left|right]; by apply orb_true_iff; right.
Qed.

Lemma root_covers p : StoragePath_wf p → StoragePath_covers_path StoragePath_root p = true.
Proof.
  intros Hp. unfold StoragePath_covers_path. apply orb_true_iff. right. apply andb_true_iff. split; [done|].
  apply starts_with_spec. unfold StoragePath_wf, validate_canonical in Hp.
  destruct (starts_with_char (as_str p) SLASH) eqn:E; [|done]. apply starts_slash in E as [t ->]. by exists t.
Qed.

(** ** Validation finds every conflict *)

(** Nested scopes have keys of one hierarchy. *)
Definition consistent (e1 e2 : KeyEntry) : Prop :=
  StoragePath_covers_path (ke_scope e1) (ke_scope e2) = true →
  derive_path (ke_scope e1) (ke_secret e1) (ke_scope e2) = Some (ke_secret e2).

Lemma derive_path_covers s seed p : StoragePath_covers_path s p = true → is_Some (derive_path s seed p).
Proof. unfold derive_path. intros ->. by eexists. Qed.

Lemma derive_path_self s seed : derive_path s seed s = Some seed.
Proof. unfold derive_path. by rewrite covers_path_refl, drop_all. Qed.

(** Scopes that cover each other are equal. *)
Lemma covers_antisym a b :
  StoragePath_covers_path a b = true → StoragePath_covers_path b a = true → a = b.
Proof.
  intros Hab%covers_split Hba%covers_split. destruct a as [a], b as [b]. cbn in *. f_equal.
  apply prefix_length_eq; [by eexists|]. rewrite Hba, length_app. lia.
Qed.

Lemma consistent_both e1 e2 :
  StoragePath_covers_path (ke_scope e1) (ke_scope e2) = true → consistent e1 e2 → consistent e2 e1.
Proof.
  intros H12 Hc H21. pose proof (covers_antisym _ _ H12 H21) as E. specialize (Hc H12).
  rewrite E in Hc |- *. rewrite derive_path_self in Hc. injection Hc as ->. apply derive_path_self.
Qed.

Lemma check_overlaps_spec entry others :
  (∃ r, check_overlaps entry others = Some r) ∧
  (check_overlaps entry others = Some (Ok ()) ↔ Forall (λ o, consistent entry o ∧ consistent o entry) others).
Proof.
  induction others as [|o others [[r Hr] IH]]; cbn [check_overlaps]; [by split; [eexists|]|].
  rewrite Forall_cons, <-IH.
  destruct (StoragePath_covers_path (ke_scope entry) (ke_scope o)) eqn:H1;
    [|destruct (StoragePath_covers_path (ke_scope o) (ke_scope entry)) eqn:H2].
  - destruct (derive_path_covers _ (ke_secret entry) _ H1) as [k Hk]. rewrite Hk. cbn [mbind option_bind].
    case_bool_decide as Hek; subst.
    + split; [eauto|]. assert (consistent entry o) by (by intros _). pose proof (consistent_both _ _ H1 H0). tauto.
    + split; [eauto|]. split; [done|]. intros [[Hc _] _]. specialize (Hc H1). congruence.
  - destruct (derive_path_covers _ (ke_secret o) _ H2) as [k Hk]. rewrite Hk. cbn [mbind option_bind].
    case_bool_decide as Hek; subst.
    + split; [eauto|]. assert (consistent o entry) by (by intros _). pose proof (consistent_both _ _ H2 H0). tauto.
    + split; [eauto|]. split; [done|]. intros [[_ Hc] _]. specialize (Hc H2). congruence.
  - split; [eauto|]. unfold consistent at 1 2. rewrite H1, H2. naive_solver.
Qed.

Lemma validate_overlaps_spec before keys :
  (∃ r, validate_overlaps before keys = Some r) ∧
  (validate_overlaps before keys = Some (Ok ()) ↔
   ∀ l1 e l2, keys = l1 ++ e :: l2 → Forall (λ o, consistent e o ∧ consistent o e) (before ++ l1)).
Proof.
  revert before. induction keys as [|e keys IH]; intros before; cbn [validate_overlaps].
  { split; [eauto|]. split; [|done]. by intros _ [|??] ??. }
  destruct (check_overlaps_spec e before) as [[r Hr] Hs]. rewrite Hr. cbn [mbind option_bind].
  destruct (IH (before ++ [e])) as [[r' Hr'] IHs]. destruct r as [[]|err].
  - split; [eauto|]. apply Hs in Hr. rewrite IHs. split.
    + intros Hk [|x l1] e' l2 [= -> Hl]; [by rewrite app_nil_r|]. specialize (Hk l1 e' l2 Hl). by rewrite <-app_assoc in Hk.
    + intros Hk l1 e' l2 ->. specialize (Hk (e :: l1) e' l2 eq_refl). by rewrite <-app_assoc.
  - split; [eauto|]. split; [done|]. intros Hk. specialize (Hk [] e keys eq_refl). rewrite app_nil_r in Hk.
    apply Hs in Hk. congruence.
Qed.

Lemma validated_consistent keys e1 e2 :
  validate_overlap_consistency keys = Some (Ok ()) → e1 ∈ keys → e2 ∈ keys → consistent e1 e2.
Proof.
  intros Hv H1 H2. pose proof (proj1 (proj2 (validate_overlaps_spec [] keys)) Hv) as Hv'. clear Hv. rename Hv' into Hv.
  cbn [app] in Hv. apply list_elem_of_split in H1 as (l1 & l2 & ->).
  apply elem_of_app in H2 as [H2|[<-|H2]%elem_of_cons].
  - specialize (Hv l1 e1 l2 eq_refl). rewrite Forall_forall in Hv. by apply Hv.
  - intros _. apply derive_path_self.
  - apply list_elem_of_split in H2 as (a & b & ->). specialize (Hv (l1 ++ e1 :: a) e2 b).
    rewrite Forall_forall in Hv. apply Hv; [by rewrite <-app_assoc|]. apply elem_of_app. right. by left.
Qed.

(** In a validated bundle every entry that covers a path gives it the same key. *)
Lemma validated_unambiguous keys e1 e2 p :
  validate_overlap_consistency keys = Some (Ok ()) → e1 ∈ keys → e2 ∈ keys →
  StoragePath_covers_path (ke_scope e1) p = true → StoragePath_covers_path (ke_scope e2) p = true →
  derive_path (ke_scope e1) (ke_secret e1) p = derive_path (ke_scope e2) (ke_secret e2) p.
Proof.
  intros Hv He1 He2 H1 H2. destruct (covering_comparable _ _ _ H1 H2) as [H12|H21].
  - rewrite <-(derive_path_compose _ _ _ (ke_secret e1) H12 H2).
    by rewrite (validated_consistent keys e1 e2 Hv He1 He2 H12).
  - rewrite <-(derive_path_compose _ _ _ (ke_secret e2) H21 H1).
    by rewrite (validated_consistent keys e2 e1 Hv He2 He1 H21).
Qed.

(** The key of a path in the hierarchy of an identity. *)
Definition identity_key (identity_secret : Secret) (path : StoragePath) : option Secret :=
  derive_path StoragePath_root (derive_root_secret identity_secret) path.

Lemma from_identity_entries identity scopes :
  Forall StoragePath_wf scopes →
  ∃ keys, from_identity_secret identity scopes = Some (mk_ScopedEncryptionKeyBundle V1 keys) ∧
    Forall2 (λ s e, ke_scope e = s ∧ identity_key identity s = Some (ke_secret e)) scopes keys.
Proof.
  intros Hs. unfold from_identity_secret.
  assert (∃ keys, mapM (λ scope, secret ← derive_path StoragePath_root (derive_root_secret identity) scope;
                        Some (mk_KeyEntry scope secret)) scopes = Some keys ∧
            Forall2 (λ s e, ke_scope e = s ∧ identity_key identity s = Some (ke_secret e)) scopes keys)
    as (keys & -> & Hk); [|by exists keys].
  induction Hs as [|s scopes Hw _ (keys & IH & Hk)]; [by exists []|].
  destruct (derive_path_covers _ (derive_root_secret identity) _ (root_covers s Hw)) as [k Hks].
  exists (mk_KeyEntry s k :: keys). cbn. rewrite Hks. cbn. rewrite IH. split; [done|]. by constructor.
Qed.

(** Keys of one hierarchy: any of them derives the keys below it. *)
Lemma identity_key_below identity e p :
  StoragePath_wf (ke_scope e) → identity_key identity (ke_scope e) = Some (ke_secret e) →
  StoragePath_covers_path (ke_scope e) p = true →
  derive_path (ke_scope e) (ke_secret e) p = identity_key identity p.
Proof.
  intros Hw Hk Hc. unfold identity_key in *. rewrite <-(derive_path_compose _ _ _ _ (root_covers _ Hw) Hc). by rewrite Hk.
Qed.

(** The bundle of an identity is made, and accepted by whoever receives it. *)
Lemma identity_bundle identity scopes :
  Forall StoragePath_wf scopes →
  ∃ bundle, from_identity_secret identity scopes = Some bundle ∧ bundle_scopes bundle = scopes ∧
    ScopedEncryptionKeyBundle_deserialize (bundle_version bundle) (bundle_keys bundle) = Some (Ok bundle).
Proof.
  intros Hs. destruct (from_identity_entries identity scopes Hs) as (keys & Hb & Hk). eexists. split; [exact Hb|].
  assert (Forall (λ e, StoragePath_wf (ke_scope e) ∧ identity_key identity (ke_scope e) = Some (ke_secret e)) keys) as Hkeys.
  { clear Hb. induction Hk as [|s e scopes' keys' [<- He] _ IH]; [done|]. apply Forall_cons in Hs as [? ?]. auto. }
  split.
  - unfold bundle_scopes. cbn. clear Hs Hb Hkeys. induction Hk as [|s e scopes' keys' [<- _] _ IH]; cbn; [done|by f_equal].
  - unfold ScopedEncryptionKeyBundle_deserialize, validate_overlap_consistency. cbn [bundle_version bundle_keys].
    rewrite (proj2 (proj2 (validate_overlaps_spec [] keys))); [done|]. intros l1 e l2 ->. cbn [app].
    apply Forall_app in Hkeys as [H1 [[He Hek] _]%Forall_cons]. eapply Forall_impl; [exact H1|]. intros o [Ho Hok].
    split; intros Hc; by rewrite (identity_key_below identity).
Qed.

(** (C36) Every file has one key.  The bundle a user derives for any scopes of
    theirs is made without failing and passes the validation of a recipient,
    and the key it gives to a file below one of its scopes is the key of that
    file in the user's hierarchy, whichever scopes the bundle has and in
    whatever order, so that any two recipients, and the user, agree; a
    directory and a file outside the scopes are refused.  And in any bundle a
    recipient accepts, from whomever it comes, the key of a file does not
    depend on which of its entries is used. *)
Theorem file_keys_agree identity scopes :
  Forall StoragePath_wf scopes →
  (∃ bundle, from_identity_secret identity scopes = Some bundle ∧ bundle_scopes bundle = scopes ∧
     ScopedEncryptionKeyBundle_deserialize (bundle_version bundle) (bundle_keys bundle) = Some (Ok bundle) ∧
     ∀ path, derive_for_path bundle path =
       if StoragePath_is_directory path then Some (Err (DirectoryPath path))
       else if existsb (λ s, StoragePath_covers_path s path) scopes then
         k ← identity_key identity path; Some (Ok k)
       else Some (Err (OutsideScope path))) ∧
  ∀ version keys bundle, ScopedEncryptionKeyBundle_deserialize version keys = Some (Ok bundle) →
    ∀ path e, e ∈ keys → StoragePath_covers_path (ke_scope e) path = true → StoragePath_is_directory path = false →
      derive_for_path bundle path = k ← derive_path (ke_scope e) (ke_secret e) path; Some (Ok k).
Proof.
  intros Hs. split.
  - destruct (identity_bundle identity scopes Hs) as (bundle & Hb & Hsc & Hd). exists bundle. split_and!; [done..|].
    destruct (from_identity_entries identity scopes Hs) as (keys & Hb' & Hk). rewrite Hb' in Hb. injection Hb as <-.
    intros path. unfold derive_for_path, derive_scoped_path. destruct (StoragePath_is_directory path); [done|].
    cbn [bundle_keys]. clear Hb' Hd Hsc. induction Hk as [|s e scopes' keys' [<- He] _ IH]; [done|].
    apply Forall_cons in Hs as [Hw Hs]. specialize (IH Hs).
    cbn [list_find existsb]. destruct (StoragePath_covers_path (ke_scope e) path) eqn:Hc; cbn [orb].
    + rewrite decide_True by done. by rewrite (identity_key_below identity).
    + rewrite decide_False by done. rewrite <-IH. destruct (list_find _ keys') as [[i e']|]; done.
  - intros version keys bundle Hd path e He Hc Hp. unfold ScopedEncryptionKeyBundle_deserialize in Hd.
    destruct (validate_overlap_consistency keys) as [[[]|]|] eqn:Hv; [|done..]. injection Hd as <-.
    unfold derive_for_path, derive_scoped_path. rewrite Hp. cbn [bundle_keys].
    destruct (list_find _ keys) as [[i e']|] eqn:Hf.
    + apply list_find_Some in Hf as (Hi & Hc' & _). apply list_elem_of_lookup_2 in Hi.
      by rewrite (validated_unambiguous keys e' e path).
    + apply list_find_None in Hf. rewrite Forall_forall in Hf. by destruct (Hf e He).
Qed.

End Derivation.

(** * Witness *)

#[local] Instance concat_hkdf : Hkdf := {| hkdf_extract s := s; hkdf_expand s infos := s ++ concat infos |}.

Lemma file_keys_agree_witness :
  Forall StoragePath_wf [mk_StoragePath (lit "/priv/"); sample_path] ∧
  ∃ bundle, from_identity_secret [1; 2] [mk_StoragePath (lit "/priv/"); sample_path] = Some bundle ∧
    bundle_scopes bundle = [mk_StoragePath (lit "/priv/"); sample_path].
Proof.
  assert (Forall StoragePath_wf [mk_StoragePath (lit "/priv/"); sample_path]) as Hs.
  { constructor; [vm_compute; reflexivity|]. constructor; [vm_compute; reflexivity|]. constructor. }
  split; [exact Hs|]. destruct (proj1 (file_keys_agree [1; 2] _ Hs)) as (b & Hb & Hsc & _). exists b. split; [exact Hb|exact Hsc].
Defined.
