(* ===== verification/DeepLinks.v ===== *)
(** Deep links ([pubky-sdk/src/actors/auth/deep_links/]): the requests an app hands
    to a signer as a URL, for signing in, signing up, granting and exporting,
    with their optional x-callback parameters.

    A URL is its scheme, host and query string.  Escaping of a query component
    and its inverse belong to the [url] and [percent_encoding] crates
    ([QueryCodec]), as does parsing a URL ([url_parse]); base64 is that of the
    token classes. *)

From S2P Require Import Prelude StoragePath Capabilities Keys GrantTokens.

(** * URLs and their queries *)

Record Url := mk_Url { url_scheme : str; url_host : str; url_query : option str }.

Definition AMP : Z := 38.
Definition EQUALS : Z := 61.
Definition PERCENT : Z := 37.

Definition is_ascii_hexdigit (c : Z) : bool :=
  is_ascii_digit c || ((65 <=? c) && (c <=? 70)) || ((97 <=? c) && (c <=? 102)).

(** Every percent sign is followed by two hexadecimal digits. *)
Definition has_valid_percent_triplets (value : str) : bool :=
  forallb (λ escape, match escape with
                     | first :: second :: _ => is_ascii_hexdigit first && is_ascii_hexdigit second
                     | _ => false
                     end) (tail (split PERCENT value)).

(** Letters, digits, asterisks, hyphens, dots and underscores stand for
    themselves in a form. *)
Definition is_form_plain (c : Z) : bool :=
  is_ascii_digit c || ((65 <=? c) && (c <=? 90)) || ((97 <=? c) && (c <=? 122))
  || (c =? 42) || (c =? 45) || (c =? 46) || (c =? 95).

Class QueryCodec := {
  (** [form_urlencoded::byte_serialize] and the decoding of a component. *)
  form_encode : str → str;
  form_decode : str → str;
  (** [utf8_percent_encode] with [X_CALLBACK_ENCODE_SET], and
      [percent_decode_str .. decode_utf8]. *)
  component_encode : str → str;
  component_decode : str → option str;
}.

Class QueryCodecLaws `{QueryCodec} := {
  form_roundtrip s : form_decode (form_encode s) = s;
  form_separators s : (AMP ∉ form_encode s) ∧ (EQUALS ∉ form_encode s);
  form_plain s : forallb is_form_plain s = true → form_encode s = s;
  component_roundtrip s : component_decode (component_encode s) = Some s;
  component_separators s : AMP ∉ component_encode s;
  component_triplets s : has_valid_percent_triplets (component_encode s) = true;
}.

(** [URL_SAFE_NO_PAD.encode]. *)
Class Base64Url `{Jws} := { base64url_encode : list Z → str }.

Class Base64UrlLaws `{Base64Url} := {
  base64url_roundtrip b : Forall (λ x, 0 ≤ x < 256) b → base64url_decode (base64url_encode b) = Some b;
  base64url_alphabet b : forallb is_base64url (base64url_encode b) = true;
  base64url_nonempty b : b ≠ [] → base64url_encode b ≠ [];
}.

(** A 32-byte key or secret. *)
Definition key32 (b : list Z) : Prop := length b = 32%nat ∧ Forall (λ x, 0 ≤ x < 256) b.

Inductive DeepLinkParseError :=
| UrlParseError
| InvalidSchema
| MissingQueryParameter (key : str)
| InvalidQueryParameter (key : str)
| InvalidIntent (expected : str).

Section Queries.
Context `{QueryCodec}.

(** The pieces of a query string that are not empty. *)
Definition query_pieces (query : option str) : list str :=
  match query with None => [] | Some q => filter (λ p, p ≠ []) (split AMP q) end.

Definition piece_pair (piece : str) : str * str :=
  let '(k, v) := default (piece, []) (split_once EQUALS piece) in (form_decode k, form_decode v).

(** [Url::query_pairs]. *)
Definition query_pairs (url : Url) : list (str * str) := map piece_pair (query_pieces (url_query url)).

(** Text appended to a query, after an ampersand if there is one already. *)
Definition push_piece (piece : str) (query : option str) : option str :=
  Some (match query with Some (c :: q) => (c :: q) ++ [AMP] | _ => [] end ++ piece).

(** [query_pairs_mut().append_pair]. *)
Definition append_pair (key value : str) (url : Url) : Url :=
  mk_Url (url_scheme url) (url_host url)
    (push_piece (form_encode key ++ [EQUALS] ++ form_encode value) (url_query url)).

Fixpoint assoc (key : str) (pairs : list (str * str)) : option str :=
  match pairs with
  | [] => None
  | (k, v) :: pairs => if decide (k = key) then Some v else assoc key pairs
  end.

Definition optional_query (url : Url) (key : str) : option str := assoc key (query_pairs url).

Definition required_query (url : Url) (key : str) : result DeepLinkParseError str :=
  ok_or (optional_query url key) (MissingQueryParameter key).

(** The values of the pairs with a key. *)
Definition query_values (url : Url) (key : str) : list str :=
  map snd (filter (λ p, p.1 = key) (query_pairs url)).

(** * x-callback parameters *)

Record XCallbackParams := mk_XCallbackParams {
  x_source : option str;
  x_success : option str;
  x_error : option str;
  x_cancel : option str
}.

Definition XCallbackParams_default : XCallbackParams := mk_XCallbackParams None None None None.

Fixpoint find_raw (key : str) (pieces : list str) : option str :=
  match pieces with
  | [] => None
  | piece :: pieces =>
      let '(pair_key, value) := default (piece, []) (split_once EQUALS piece) in
      if decide (pair_key = key) then Some value else find_raw key pieces
  end.

Definition raw_query_value (query key : str) : option str := find_raw key (split AMP query).

Definition decode_once (value : str) : str :=
  if negb (has_valid_percent_triplets value) then value else default value (component_decode value).

Definition XCallbackParams_from_url (url : Url) : XCallbackParams :=
  match url_query url with
  | None => XCallbackParams_default
  | Some query =>
      let x_success := match raw_query_value query (lit "x-success") with
                       | Some v => Some v
                       | None => raw_query_value query (lit "callback")
                       end in
      mk_XCallbackParams (decode_once <$> raw_query_value query (lit "x-source")) (decode_once <$> x_success)
        (decode_once <$> raw_query_value query (lit "x-error")) (decode_once <$> raw_query_value query (lit "x-cancel"))
  end.

Definition XCallbackParams_is_empty (self : XCallbackParams) : bool :=
  bool_decide (x_source self = None) && bool_decide (x_success self = None)
  && bool_decide (x_error self = None) && bool_decide (x_cancel self = None).

(** One round of the loop over the parameters. *)
Definition push_callback (key : str) (value : option str) (query : option str) : option str :=
  match value with
  | None => query
  | Some value => push_piece (key ++ [EQUALS] ++ component_encode value) query
  end.

Definition XCallbackParams_append_to_url (self : XCallbackParams) (url : Url) : Url :=
  if XCallbackParams_is_empty self then url
  else
    let query := Some (default [] (url_query url)) in
    let query := push_callback (lit "x-source") (x_source self) query in
    let query := push_callback (lit "x-success") (x_success self) query in
    let query := push_callback (lit "x-error") (x_error self) query in
    let query := push_callback (lit "x-cancel") (x_cancel self) query in
    mk_Url (url_scheme url) (url_host url) query.

(** * Typed links *)

Inductive DeepLinkScheme := PubkyAuth | PubkyRing.

Definition DeepLinkScheme_as_str (self : DeepLinkScheme) : str :=
  match self with PubkyAuth => lit "pubkyauth" | PubkyRing => lit "pubkyring" end.

Definition DeepLinkScheme_from_str (value : str) : result DeepLinkParseError DeepLinkScheme :=
  if decide (value = lit "pubkyauth") then Ok PubkyAuth
  else if decide (value = lit "pubkyring") then Ok PubkyRing
  else Err InvalidSchema.

(** The traits [DeepLinkIntent] and [DeepLinkParams]. *)
Class DeepLinkParams (P : Type) := {
  NAME : str;
  params_parse : Url → result DeepLinkParseError P;
  append_query_pairs : P → Url → Url;
}.

Record TypedDeepLink (P : Type) := mk_TypedDeepLink {
  tdl_scheme : DeepLinkScheme;
  tdl_params : P;
  tdl_x_callback : XCallbackParams
}.
#[global] Arguments mk_TypedDeepLink {P}.
#[global] Arguments tdl_scheme {P}.
#[global] Arguments tdl_params {P}.
#[global] Arguments tdl_x_callback {P}.

Definition TypedDeepLink_parse_url {P} `{DeepLinkParams P} (url : Url) : result DeepLinkParseError (TypedDeepLink P) :=
  scheme ← DeepLinkScheme_from_str (url_scheme url);
  if negb (bool_decide (url_host url = NAME)) then Err (InvalidIntent NAME)
  else
    params ← params_parse url;
    Ok (mk_TypedDeepLink scheme params (XCallbackParams_from_url url)).

Definition TypedDeepLink_to_url {P} `{DeepLinkParams P} (self : TypedDeepLink P) : Url :=
  let url := mk_Url (DeepLinkScheme_as_str (tdl_scheme self)) NAME None in
  let url := append_query_pairs (tdl_params self) url in
  XCallbackParams_append_to_url (tdl_x_callback self) url.

(** ** Queries are read back *)

Context `{!QueryCodecLaws}.

Lemma split_app_any c a b : split c (a ++ c :: b) = split c a ++ split c b.
Proof.
  induction a as [|d a IH]; cbn; [by rewrite Z.eqb_refl|]. destruct (c =? d); [by rewrite IH|]. rewrite IH.
  pose proof (split_nonempty c a). by destruct (split c a).
Qed.

Lemma query_pieces_push piece q :
  AMP ∉ piece → piece ≠ [] → query_pieces (push_piece piece q) = query_pieces q ++ [piece].
Proof.
  intros Ha Hp. unfold push_piece, query_pieces.
  assert (filter (λ p, p ≠ []) (split AMP piece) = [piece]) as Hs.
  { rewrite split_no_sep_id by done. by rewrite filter_cons, decide_True, filter_nil by done. }
  destruct q as [[|c q]|]; [exact Hs| |exact Hs].
  rewrite <-app_assoc. change ([AMP] ++ piece) with (AMP :: piece). by rewrite split_app_any, filter_app, Hs.
Qed.

Definition raw_pair (kv : str * str) : str := form_encode kv.1 ++ [EQUALS] ++ form_encode kv.2.

Lemma raw_pair_ok kv : (AMP ∉ raw_pair kv) ∧ raw_pair kv ≠ [] ∧ piece_pair (raw_pair kv) = kv ∧
  split_once EQUALS (raw_pair kv) = Some (form_encode kv.1, form_encode kv.2).
Proof.
  destruct kv as [k v]. unfold raw_pair, piece_pair. cbn [fst snd].
  destruct (form_separators k) as [Hka Hke], (form_separators v) as [Hva _].
  assert (split_once EQUALS (form_encode k ++ [EQUALS] ++ form_encode v) = Some (form_encode k, form_encode v)) as Hs
    by (by apply split_once_spec).
  rewrite Hs. cbn. rewrite !form_roundtrip. split_and!; [|by destruct (form_encode k)|done..].
  apply not_elem_of_app. split; [done|]. by apply not_elem_of_cons.
Qed.

Lemma append_pair_pieces k v u :
  query_pieces (url_query (append_pair k v u)) = query_pieces (url_query u) ++ map raw_pair [(k, v)].
Proof. destruct (raw_pair_ok (k, v)) as (? & ? & _). by apply query_pieces_push. Qed.

(** ** x-callback parameters *)

Definition callback_piece (key : str) (value : option str) : list str :=
  match value with Some value => [key ++ [EQUALS] ++ component_encode value] | None => [] end.

Definition callback_pieces (x : XCallbackParams) : list str :=
  callback_piece (lit "x-source") (x_source x) ++ callback_piece (lit "x-success") (x_success x) ++
  callback_piece (lit "x-error") (x_error x) ++ callback_piece (lit "x-cancel") (x_cancel x).

Definition X_KEYS : list str := [lit "x-source"; lit "x-success"; lit "callback"; lit "x-error"; lit "x-cancel"].

Lemma x_keys_plain key : key ∈ X_KEYS → (AMP ∉ key) ∧ (EQUALS ∉ key) ∧ form_encode key = key.
Proof.
  intros Hk. assert (forallb (λ k, negb (contains_char k AMP) && negb (contains_char k EQUALS)
                                   && forallb is_form_plain k) X_KEYS = true) as Hc by (vm_compute; reflexivity).
  rewrite forallb_forall in Hc. apply list_elem_of_In, Hc in Hk. rewrite !andb_true_iff in Hk. destruct Hk as [[Ha He] Hp].
  apply negb_true_iff, contains_char_false in Ha, He. split_and!; [done..|by apply form_plain].
Qed.

Lemma push_callback_pieces key value q :
  key ∈ X_KEYS → query_pieces (push_callback key value q) = query_pieces q ++ callback_piece key value.
Proof.
  intros Hk. destruct value as [v|]; cbn; [|by rewrite app_nil_r]. destruct (x_keys_plain key Hk) as (Ha & _).
  apply query_pieces_push; [|by destruct key]. apply not_elem_of_app. split; [done|].
  apply not_elem_of_cons. split; [done|apply component_separators].
Qed.

Lemma append_to_url_pieces x u :
  query_pieces (url_query (XCallbackParams_append_to_url x u)) = query_pieces (url_query u) ++ callback_pieces x.
Proof.
  unfold XCallbackParams_append_to_url. destruct (XCallbackParams_is_empty x) eqn:E.
  - destruct x as [[] [] [] []]; try done. by rewrite app_nil_r.
  - cbn [url_query]. rewrite !push_callback_pieces by (vm_compute; repeat constructor).
    unfold callback_pieces. rewrite <-!app_assoc. f_equal. by destruct (url_query u).
Qed.

Lemma find_raw_filter key ps : key ≠ [] → find_raw key (filter (λ p, p ≠ []) ps) = find_raw key ps.
Proof.
  intros Hk. induction ps as [|p ps IH]; [done|]. rewrite filter_cons. destruct p as [|c p].
  - rewrite decide_False by (by intros ?). cbn [find_raw split_once from_option id]. by rewrite decide_False.
  - rewrite decide_True by done. cbn [find_raw]. by rewrite IH.
Qed.

Lemma raw_query_value_pieces q key : key ≠ [] → raw_query_value q key = find_raw key (query_pieces (Some q)).
Proof. intros Hk. unfold raw_query_value, query_pieces. by rewrite find_raw_filter. Qed.

(** Pairs with other keys hide nothing. *)
Lemma find_raw_pairs key ps rest :
  key ∈ X_KEYS → Forall (λ kv, kv.1 ∉ X_KEYS) ps → find_raw key (map raw_pair ps ++ rest) = find_raw key rest.
Proof.
  intros Hk Hps. induction Hps as [|kv ps Hkv _ IH]; [done|]. cbn [map app find_raw].
  destruct (raw_pair_ok kv) as (_ & _ & _ & ->). cbn [from_option id]. rewrite decide_False; [done|].
  destruct (x_keys_plain key Hk) as (_ & _ & Hp). rewrite <-Hp. intros E%(f_equal form_decode).
  rewrite !form_roundtrip in E. congruence.
Qed.

Lemma find_raw_callback key key' value rest :
  key ∈ X_KEYS → key' ∈ X_KEYS →
  find_raw key (callback_piece key' value ++ rest)
  = match value with
    | Some v => if decide (key' = key) then Some (component_encode v) else find_raw key rest
    | None => find_raw key rest
    end.
Proof.
  intros Hk Hk'. destruct value as [v|]; [|done]. cbn [callback_piece app find_raw].
  destruct (x_keys_plain key' Hk') as (_ & He & _).
  by rewrite (proj2 (split_once_spec EQUALS (key' ++ EQUALS :: component_encode v) _ _) (conj eq_refl He)).
Qed.

Lemma decode_once_encode v : decode_once (component_encode v) = v.
Proof. unfold decode_once. by rewrite component_triplets, component_roundtrip. Qed.

Lemma from_url_callbacks x u ps :
  Forall (λ kv, kv.1 ∉ X_KEYS) ps → query_pieces (url_query u) = map raw_pair ps ++ callback_pieces x →
  XCallbackParams_from_url u = x.
Proof.
  intros Hps Hu. unfold XCallbackParams_from_url. destruct (url_query u) as [q|].
  - rewrite !raw_query_value_pieces by done. rewrite Hu. rewrite !find_raw_pairs by (done || (vm_compute; repeat constructor)).
    unfold callback_pieces. rewrite <-(app_nil_r (callback_piece (lit "x-cancel") _)).
    rewrite !find_raw_callback by (vm_compute; repeat constructor).
    destruct x as [[] [] [] []]; cbn [x_source x_success x_error x_cancel]; pick_keys; cbn; by rewrite ?decode_once_encode.
  - destruct x as [[] [] [] []]; try done; by destruct ps.
Qed.

(** ** What a kind of request promises *)

Class DeepLinkParamsLaws (P : Type) `{DeepLinkParams P} (params_wf : P → Prop) := {
  params_pairs : P → list (str * str);
  append_scheme p u : url_scheme (append_query_pairs p u) = url_scheme u;
  append_host p u : url_host (append_query_pairs p u) = url_host u;
  append_pieces p u :
    query_pieces (url_query (append_query_pairs p u)) = query_pieces (url_query u) ++ map raw_pair (params_pairs p);
  params_keys p : Forall (λ kv, kv.1 ∉ X_KEYS) (params_pairs p);
  parse_pairs p u xs :
    params_wf p → query_pairs u = params_pairs p ++ xs → Forall (λ kv, kv.1 ∈ X_KEYS) xs → params_parse u = Ok p;
}.

Lemma callback_pairs x : Forall (λ kv, kv.1 ∈ X_KEYS) (map piece_pair (callback_pieces x)).
Proof.
  assert (∀ key v, key ∈ X_KEYS → Forall (λ kv, kv.1 ∈ X_KEYS) (map piece_pair (callback_piece key v))) as Hp.
  { intros key [v|] Hk; [|constructor]. constructor; [|constructor]. destruct (x_keys_plain key Hk) as (_ & He & Hp).
    unfold piece_pair. rewrite (proj2 (split_once_spec EQUALS (key ++ [EQUALS] ++ component_encode v) _ _) (conj eq_refl He)).
    cbn. by rewrite <-Hp, form_roundtrip. }
  unfold callback_pieces. rewrite !map_app, !Forall_app. split_and!; apply Hp; vm_compute; repeat constructor.
Qed.

Lemma TypedDeepLink_roundtrip {P} wf `{DeepLinkParamsLaws P wf} (l : TypedDeepLink P) :
  wf (tdl_params l) → TypedDeepLink_parse_url (TypedDeepLink_to_url l) = Ok l.
Proof.
  intros Hwf. destruct l as [scheme p x]. cbn [tdl_params] in Hwf. unfold TypedDeepLink_parse_url.
  set (u := TypedDeepLink_to_url (mk_TypedDeepLink scheme p x)).
  assert (query_pieces (url_query u) = map raw_pair (params_pairs p) ++ callback_pieces x) as Hu.
  { unfold u, TypedDeepLink_to_url. cbn [tdl_scheme tdl_params tdl_x_callback].
    by rewrite append_to_url_pieces, append_pieces. }
  assert (url_scheme u = DeepLinkScheme_as_str scheme ∧ url_host u = NAME) as [Hs Hh].
  { unfold u, TypedDeepLink_to_url, XCallbackParams_append_to_url. cbn [tdl_scheme tdl_params tdl_x_callback].
    destruct (XCallbackParams_is_empty x); cbn [url_scheme url_host]; by rewrite append_scheme, append_host. }
  rewrite Hs, Hh, bool_decide_eq_true_2 by done.
  assert (DeepLinkScheme_from_str (DeepLinkScheme_as_str scheme) = Ok scheme) as -> by (by destruct scheme).
  cbn [mbind result_bind negb].
  rewrite (parse_pairs p u (map piece_pair (callback_pieces x))); [| done | | apply callback_pairs].
  - cbn [mbind result_bind]. by rewrite (from_url_callbacks x u (params_pairs p) (params_keys p) Hu).
  - unfold query_pairs. rewrite Hu, map_app, map_map. f_equal. rewrite <-(map_id (params_pairs p)) at 2.
    apply map_ext. intros kv. by destruct (raw_pair_ok kv) as (_ & _ & ? & _).
Qed.

End Queries.

(** * Requests *)

Inductive GrantApprovalFormat := BareGrant | SignedApprovalV1.

#[export] Instance GrantApprovalFormat_eq_dec : EqDecision GrantApprovalFormat.
Proof. solve_decision. Defined.

Inductive GrantRelayChannel :=
| SharedSecret (secret : list Z)
| Hpke (ephemeral_public_key : list Z).

Section Links.
(** [Url::parse] then [as_str], of the relay's URL. *)
Context `{PkarrKeys, !Jws, !Base64Url, QueryCodec} (url_normalize : str → option str).

Definition validate_capabilities (self : GrantApprovalFormat) (capabilities : Capabilities) : bool :=
  negb (bool_decide (self = BareGrant) && existsb Capability_grants_encryption_keys capabilities).

(** ** Parameters *)

Definition parse_grant_approval_format (url : Url) : result DeepLinkParseError GrantApprovalFormat :=
  match query_values url (lit "af") with
  | [] => Ok BareGrant
  | [value] => if decide (value = lit "v1") then Ok SignedApprovalV1 else Err (InvalidQueryParameter (lit "af"))
  | _ => Err (InvalidQueryParameter (lit "af"))
  end.

Definition append_grant_approval_format (format : GrantApprovalFormat) (url : Url) : Url :=
  match format with SignedApprovalV1 => append_pair (lit "af") (lit "v1") url | BareGrant => url end.

Definition parse_capabilities (url : Url) : result DeepLinkParseError Capabilities :=
  caps ← required_query url (lit "caps");
  map_err (λ _, InvalidQueryParameter (lit "caps")) (Capabilities_from_str caps).

Definition parse_relay (url : Url) : result DeepLinkParseError str :=
  relay ← required_query url (lit "relay");
  ok_or (url_normalize relay) (InvalidQueryParameter (lit "relay")).

Definition decode_channel_key (raw name : str) : result DeepLinkParseError (list Z) :=
  bytes ← ok_or (base64url_decode raw) (InvalidQueryParameter name);
  if (length bytes =? 32)%nat then Ok bytes else Err (InvalidQueryParameter name).

Definition parse_secret (url : Url) : result DeepLinkParseError (list Z) :=
  secret ← required_query url (lit "secret"); decode_channel_key secret (lit "secret").

Definition parse_homeserver (url : Url) : result DeepLinkParseError PublicKey :=
  hs ← required_query url (lit "hs");
  map_err (λ _, InvalidQueryParameter (lit "hs")) (PublicKey_try_from_z32 hs).

Definition parse_client_id (url : Url) : result DeepLinkParseError str :=
  cid ← required_query url (lit "cid");
  map_err (λ _, InvalidQueryParameter (lit "cid")) (ClientId_new cid).

Definition parse_client_pk (url : Url) : result DeepLinkParseError PublicKey :=
  cpk ← required_query url (lit "cpk");
  map_err (λ _, InvalidQueryParameter (lit "cpk")) (PublicKey_try_from_z32 cpk).

Definition parse_canonical_z32 (value : str) : option PublicKey :=
  key ← ok (PublicKey_try_from_z32 value);
  if negb (bool_decide (PublicKey_z32 key = value)) then None else Some key.

Definition parse_expected_signer (url : Url) : result DeepLinkParseError (option PublicKey) :=
  match query_values url (lit "spk") with
  | [] => Ok None
  | [value] => key ← ok_or (parse_canonical_z32 value) (InvalidQueryParameter (lit "spk")); Ok (Some key)
  | _ => Err (InvalidQueryParameter (lit "spk"))
  end.

Definition append_expected_signer (expected_signer : option PublicKey) (url : Url) : Url :=
  match expected_signer with Some key => append_pair (lit "spk") (PublicKey_z32 key) url | None => url end.

(** [Option::transpose] of a decoded optional parameter. *)
Definition optional_key (url : Url) (name : str) : result DeepLinkParseError (option (list Z)) :=
  match optional_query url name with
  | None => Ok None
  | Some raw => key ← decode_channel_key raw name; Ok (Some key)
  end.

Definition parse_grant_relay_channel (url : Url) (approval_format : GrantApprovalFormat)
    : result DeepLinkParseError GrantRelayChannel :=
  ephemeral_public_key ← optional_key url (lit "epk");
  shared_secret ← optional_key url (lit "secret");
  match ephemeral_public_key, shared_secret, approval_format with
  | Some ephemeral_public_key, None, _ => Ok (Hpke ephemeral_public_key)
  | Some _, Some _, _ => Err (InvalidQueryParameter (lit "secret"))
  | None, _, SignedApprovalV1 => Err (InvalidQueryParameter (lit "epk"))
  | None, Some secret, BareGrant => Ok (SharedSecret secret)
  | None, None, BareGrant => Err (MissingQueryParameter (lit "secret"))
  end.

Definition append_relay_params (capabilities : Capabilities) (relay : str) (url : Url) : Url :=
  append_pair (lit "relay") relay (append_pair (lit "caps") (Capabilities_fmt capabilities) url).

Definition append_signin_params (capabilities : Capabilities) (relay : str) (secret : list Z) (url : Url) : Url :=
  append_pair (lit "secret") (base64url_encode secret) (append_relay_params capabilities relay url).

Definition append_signup_details (homeserver : PublicKey) (signup_token : option str) (url : Url) : Url :=
  let url := append_pair (lit "hs") (PublicKey_z32 homeserver) url in
  match signup_token with Some token => append_pair (lit "st") token url | None => url end.

Definition append_signup_params (capabilities : Capabilities) (relay : str) (secret : list Z) (homeserver : PublicKey)
    (signup_token : option str) (url : Url) : Url :=
  append_signup_details homeserver signup_token (append_signin_params capabilities relay secret url).

Definition append_grant_params (client_id : str) (client_pk : PublicKey) (url : Url) : Url :=
  append_pair (lit "cpk") (PublicKey_z32 client_pk) (append_pair (lit "cid") client_id url).

Definition append_grant_relay_channel (channel : GrantRelayChannel) (url : Url) : Url :=
  match channel with
  | SharedSecret secret => append_pair (lit "secret") (base64url_encode secret) url
  | Hpke ephemeral_public_key => append_pair (lit "epk") (base64url_encode ephemeral_public_key) url
  end.

(** ** Sign-in and sign-up *)

Record SigninParams := mk_SigninParams {
  si_capabilities : Capabilities;
  si_relay : str;
  si_secret : list Z
}.

Definition SigninParams_parse (url : Url) : result DeepLinkParseError SigninParams :=
  capabilities ← parse_capabilities url; relay ← parse_relay url; secret ← parse_secret url;
  Ok (mk_SigninParams capabilities relay secret).

Definition SigninParams_append_query_pairs (p : SigninParams) (url : Url) : Url :=
  append_signin_params (si_capabilities p) (si_relay p) (si_secret p) url.

#[export] Instance signin_params : DeepLinkParams SigninParams := {|
  NAME := lit "signin";
  params_parse := SigninParams_parse;
  append_query_pairs := SigninParams_append_query_pairs
|}.

Record SignupParams := mk_SignupParams {
  su_capabilities : Capabilities;
  su_relay : str;
  su_secret : list Z;
  su_homeserver : PublicKey;
  su_signup_token : option str
}.

Definition SignupParams_parse (url : Url) : result DeepLinkParseError SignupParams :=
  capabilities ← parse_capabilities url; relay ← parse_relay url; secret ← parse_secret url;
  homeserver ← parse_homeserver url;
  Ok (mk_SignupParams capabilities relay secret homeserver (optional_query url (lit "st"))).

Definition SignupParams_append_query_pairs (p : SignupParams) (url : Url) : Url :=
  append_signup_params (su_capabilities p) (su_relay p) (su_secret p) (su_homeserver p) (su_signup_token p) url.

#[export] Instance signup_params : DeepLinkParams SignupParams := {|
  NAME := lit "signup";
  params_parse := SignupParams_parse;
  append_query_pairs := SignupParams_append_query_pairs
|}.

Record DirectSignupParams := mk_DirectSignupParams {
  ds_homeserver : PublicKey;
  ds_signup_token : option str
}.

Definition DirectSignupParams_parse (url : Url) : result DeepLinkParseError DirectSignupParams :=
  homeserver ← parse_homeserver url; Ok (mk_DirectSignupParams homeserver (optional_query url (lit "st"))).

Definition DirectSignupParams_append_query_pairs (p : DirectSignupParams) (url : Url) : Url :=
  append_signup_details (ds_homeserver p) (ds_signup_token p) url.

#[export] Instance direct_signup_params : DeepLinkParams DirectSignupParams := {|
  NAME := lit "direct_signup";
  params_parse := DirectSignupParams_parse;
  append_query_pairs := DirectSignupParams_append_query_pairs
|}.

Record SeedExportParams := mk_SeedExportParams { se_secret : list Z }.

Definition SeedExportParams_parse (url : Url) : result DeepLinkParseError SeedExportParams :=
  secret ← parse_secret url; Ok (mk_SeedExportParams secret).

Definition SeedExportParams_append_query_pairs (p : SeedExportParams) (url : Url) : Url :=
  append_pair (lit "secret") (base64url_encode (se_secret p)) url.

#[export] Instance seed_export_params : DeepLinkParams SeedExportParams := {|
  NAME := lit "secret_export";
  params_parse := SeedExportParams_parse;
  append_query_pairs := SeedExportParams_append_query_pairs
|}.

(** ** Grants *)

Record SigninGrantParams := mk_SigninGrantParams {
  sg_capabilities : Capabilities;
  sg_relay : str;
  sg_relay_channel : GrantRelayChannel;
  sg_client_id : str;
  sg_client_pk : PublicKey;
  sg_approval_format : GrantApprovalFormat;
  sg_expected_signer : option PublicKey
}.

Definition SigninGrantParams_parse (url : Url) : result DeepLinkParseError SigninGrantParams :=
  approval_format ← parse_grant_approval_format url;
  capabilities ← parse_capabilities url;
  if negb (validate_capabilities approval_format capabilities) then Err (InvalidQueryParameter (lit "caps"))
  else
    relay ← parse_relay url;
    relay_channel ← parse_grant_relay_channel url approval_format;
    client_id ← parse_client_id url;
    client_pk ← parse_client_pk url;
    expected_signer ← parse_expected_signer url;
    Ok (mk_SigninGrantParams capabilities relay relay_channel client_id client_pk approval_format expected_signer).

Definition SigninGrantParams_append_query_pairs (p : SigninGrantParams) (url : Url) : Url :=
  append_expected_signer (sg_expected_signer p)
    (append_grant_relay_channel (sg_relay_channel p)
      (append_grant_approval_format (sg_approval_format p)
        (append_grant_params (sg_client_id p) (sg_client_pk p)
          (append_relay_params (sg_capabilities p) (sg_relay p) url)))).

#[export] Instance signin_grant_params : DeepLinkParams SigninGrantParams := {|
  NAME := lit "signin_grant";
  params_parse := SigninGrantParams_parse;
  append_query_pairs := SigninGrantParams_append_query_pairs
|}.

Record SignupGrantParams := mk_SignupGrantParams {
  ug_capabilities : Capabilities;
  ug_relay : str;
  ug_relay_channel : GrantRelayChannel;
  ug_homeserver : PublicKey;
  ug_signup_token : option str;
  ug_client_id : str;
  ug_client_pk : PublicKey;
  ug_approval_format : GrantApprovalFormat
}.

Definition SignupGrantParams_parse (url : Url) : result DeepLinkParseError SignupGrantParams :=
  approval_format ← parse_grant_approval_format url;
  capabilities ← parse_capabilities url;
  if negb (validate_capabilities approval_format capabilities) then Err (InvalidQueryParameter (lit "caps"))
  else
    relay ← parse_relay url;
    relay_channel ← parse_grant_relay_channel url approval_format;
    homeserver ← parse_homeserver url;
    client_id ← parse_client_id url;
    client_pk ← parse_client_pk url;
    Ok (mk_SignupGrantParams capabilities relay relay_channel homeserver (optional_query url (lit "st"))
          client_id client_pk approval_format).

Definition SignupGrantParams_append_query_pairs (p : SignupGrantParams) (url : Url) : Url :=
  append_grant_relay_channel (ug_relay_channel p)
    (append_grant_approval_format (ug_approval_format p)
      (append_grant_params (ug_client_id p) (ug_client_pk p)
        (append_signup_details (ug_homeserver p) (ug_signup_token p)
          (append_relay_params (ug_capabilities p) (ug_relay p) url)))).

#[export] Instance signup_grant_params : DeepLinkParams SignupGrantParams := {|
  NAME := lit "signup_grant";
  params_parse := SignupGrantParams_parse;
  append_query_pairs := SignupGrantParams_append_query_pairs
|}.

(** ** Any link *)

Inductive DeepLink :=
| Signin (link : TypedDeepLink SigninParams)
| Signup (link : TypedDeepLink SignupParams)
| DirectSignup (link : TypedDeepLink DirectSignupParams)
| SigninGrant (link : TypedDeepLink SigninGrantParams)
| SignupGrant (link : TypedDeepLink SignupGrantParams)
| SeedExport (link : TypedDeepLink SeedExportParams).

Definition DeepLink_to_url (self : DeepLink) : Url :=
  match self with
  | Signin link => TypedDeepLink_to_url link
  | Signup link => TypedDeepLink_to_url link
  | DirectSignup link => TypedDeepLink_to_url link
  | SigninGrant link => TypedDeepLink_to_url link
  | SignupGrant link => TypedDeepLink_to_url link
  | SeedExport link => TypedDeepLink_to_url link
  end.

(** The match on the intent, for a URL with a host. *)
Definition DeepLink_of_intent (url : Url) : result DeepLinkParseError DeepLink :=
  if decide (url_host url = lit "signin") then link ← TypedDeepLink_parse_url url; Ok (Signin link)
  else if decide (url_host url = lit "signup") then link ← TypedDeepLink_parse_url url; Ok (Signup link)
  else if decide (url_host url = lit "direct_signup") then link ← TypedDeepLink_parse_url url; Ok (DirectSignup link)
  else if decide (url_host url = lit "signin_grant") then link ← TypedDeepLink_parse_url url; Ok (SigninGrant link)
  else if decide (url_host url = lit "signup_grant") then link ← TypedDeepLink_parse_url url; Ok (SignupGrant link)
  else if decide (url_host url = lit "secret_export") then link ← TypedDeepLink_parse_url url; Ok (SeedExport link)
  else Err (InvalidIntent (lit "Intent not recognized.")).

(** [FromStr], from the parsed URL; a URL without a host is parsed again with
    the host [signin]. *)
Definition DeepLink_from_url (url : Url) : result DeepLinkParseError DeepLink :=
  if negb (bool_decide (url_scheme url ∈ [lit "pubkyauth"; lit "pubkyring"])) then Err InvalidSchema
  else if decide (url_host url = []) then
    DeepLink_of_intent (mk_Url (url_scheme url) (lit "signin") (url_query url))
  else DeepLink_of_intent url.

Definition DeepLink_from_str (url_parse : str → option Url) (s : str) : result DeepLinkParseError DeepLink :=
  url ← ok_or (url_parse s) UrlParseError; DeepLink_from_url url.

(** ** Requests are read back *)

Context `{!PkarrKeysLaws, !QueryCodecLaws, !Base64UrlLaws}.

(** A list of literal keys, none of them an x-callback key. *)
Ltac not_x_keys := repeat (constructor; [apply (bool_decide_unpack _); vm_compute; exact I|]); constructor.
Ltac not_x_key := apply (bool_decide_unpack _); vm_compute; exact I.

Lemma assoc_x key (ps xs : list (str * str)) :
  key ∉ X_KEYS → Forall (λ kv, kv.1 ∈ X_KEYS) xs → assoc key (ps ++ xs) = assoc key ps.
Proof.
  intros Hk Hxs. induction ps as [|[k v] ps IH]; cbn [app assoc]; [|by rewrite IH].
  induction Hxs as [|[k v] xs Hx _ IH]; cbn [assoc]; [done|]. rewrite decide_False; [done|]. cbn in Hx. congruence.
Qed.

Lemma values_x key (ps xs : list (str * str)) :
  key ∉ X_KEYS → Forall (λ kv, kv.1 ∈ X_KEYS) xs →
  map snd (filter (λ p, p.1 = key) (ps ++ xs)) = map snd (filter (λ p, p.1 = key) ps).
Proof.
  intros Hk Hxs. rewrite filter_app, map_app.
  assert (filter (λ p : str * str, p.1 = key) xs = []) as ->; [|by rewrite app_nil_r].
  induction Hxs as [|kv xs Hx _ IH]; [done|]. rewrite filter_cons, decide_False; [done|]. congruence.
Qed.

Lemma parse_capabilities_sent u c :
  optional_query u (lit "caps") = Some (Capabilities_fmt c) → Forall Capability_wf c → parse_capabilities u = Ok c.
Proof.
  intros Hq Hc. unfold parse_capabilities, required_query. rewrite Hq. cbn [ok_or mbind result_bind].
  by rewrite Capabilities_parse_fmt.
Qed.

Lemma parse_relay_sent u relay :
  optional_query u (lit "relay") = Some relay → url_normalize relay = Some relay → parse_relay u = Ok relay.
Proof. intros Hq Hr. unfold parse_relay, required_query. rewrite Hq. cbn [ok_or mbind result_bind]. by rewrite Hr. Qed.

Lemma decode_channel_key_sent k name : key32 k → decode_channel_key (base64url_encode k) name = Ok k.
Proof. intros [Hl Hb]. unfold decode_channel_key. rewrite base64url_roundtrip by done. cbn. by rewrite Hl. Qed.

Lemma parse_secret_sent u k :
  optional_query u (lit "secret") = Some (base64url_encode k) → key32 k → parse_secret u = Ok k.
Proof.
  intros Hq Hk. unfold parse_secret, required_query. rewrite Hq. cbn [ok_or mbind result_bind].
  by apply decode_channel_key_sent.
Qed.

Lemma parse_homeserver_sent u k :
  optional_query u (lit "hs") = Some (PublicKey_z32 k) → parse_homeserver u = Ok k.
Proof.
  intros Hq. unfold parse_homeserver, required_query. rewrite Hq. cbn [ok_or mbind result_bind].
  unfold PublicKey_try_from_z32, PublicKey_z32. by rewrite pkarr_roundtrip.
Qed.

Lemma parse_client_sent u cid k :
  optional_query u (lit "cid") = Some cid → ClientId_new cid = Ok cid →
  optional_query u (lit "cpk") = Some (PublicKey_z32 k) →
  parse_client_id u = Ok cid ∧ parse_client_pk u = Ok k.
Proof.
  intros Hq Hc Hk. unfold parse_client_id, parse_client_pk, required_query. rewrite Hq, Hk. cbn [ok_or mbind result_bind].
  unfold PublicKey_try_from_z32, PublicKey_z32. by rewrite Hc, pkarr_roundtrip.
Qed.

(** The channel a grant is asked over goes with the format it is asked in. *)
Definition channel_ok (format : GrantApprovalFormat) (channel : GrantRelayChannel) : Prop :=
  match channel with SharedSecret secret => format = BareGrant ∧ key32 secret | Hpke k => key32 k end.

Definition channel_pair (channel : GrantRelayChannel) : str * str :=
  match channel with
  | SharedSecret secret => (lit "secret", base64url_encode secret)
  | Hpke k => (lit "epk", base64url_encode k)
  end.

Definition format_pairs (format : GrantApprovalFormat) : list (str * str) :=
  match format with BareGrant => [] | SignedApprovalV1 => [(lit "af", lit "v1")] end.

Definition optional_pair (key : str) (value : option str) : list (str * str) :=
  match value with Some v => [(key, v)] | None => [] end.

Lemma parse_format_sent u format :
  query_values u (lit "af") = map snd (format_pairs format) → parse_grant_approval_format u = Ok format.
Proof. intros Hq. unfold parse_grant_approval_format. rewrite Hq. by destruct format. Qed.

Lemma parse_channel_sent u format channel :
  channel_ok format channel →
  optional_query u (lit "epk") = match channel with Hpke k => Some (base64url_encode k) | _ => None end →
  optional_query u (lit "secret") = match channel with SharedSecret k => Some (base64url_encode k) | _ => None end →
  parse_grant_relay_channel u format = Ok channel.
Proof.
  intros Hc He Hs. unfold parse_grant_relay_channel, optional_key. rewrite He, Hs. destruct channel as [k|k]; cbn in Hc.
  - destruct Hc as [-> Hk]. cbn [mbind result_bind]. by rewrite decode_channel_key_sent.
  - by rewrite decode_channel_key_sent.
Qed.

Lemma parse_signer_sent u signer :
  query_values u (lit "spk") = map PublicKey_z32 (option_list signer) → parse_expected_signer u = Ok signer.
Proof.
  intros Hq. unfold parse_expected_signer. rewrite Hq. destruct signer as [k|]; [|done].
  change (map PublicKey_z32 (option_list (Some k))) with [PublicKey_z32 k]. cbv iota.
  unfold parse_canonical_z32, PublicKey_try_from_z32. unfold PublicKey_z32. rewrite pkarr_roundtrip.
  cbn [ok mbind option_bind]. by rewrite bool_decide_eq_true_2.
Qed.

(** Finds the value of a literal key in the pairs of a request. *)
Ltac find_key Hu Hx :=
  unfold optional_query, query_values; rewrite Hu;
  first [rewrite assoc_x by (exact Hx || not_x_key) | rewrite values_x by (exact Hx || not_x_key)];
  cbn [assoc app optional_pair format_pairs channel_pair option_map];
  rewrite ?filter_cons, ?filter_nil; cbn [fst snd]; pick_keys; try reflexivity.

Ltac append_ok := intros; repeat (progress (rewrite ?append_pair_pieces, <-?app_assoc)); try reflexivity.

Definition SigninParams_wf (p : SigninParams) : Prop :=
  Forall Capability_wf (si_capabilities p) ∧ url_normalize (si_relay p) = Some (si_relay p) ∧
  key32 (si_secret p).

#[export] Instance signin_params_laws : DeepLinkParamsLaws SigninParams SigninParams_wf.
Proof.
  refine {|
    params_pairs p := [(lit "caps", Capabilities_fmt (si_capabilities p)); (lit "relay", si_relay p);
                       (lit "secret", base64url_encode (si_secret p))]
  |}; [done|done| | |].
  - intros p u. cbn [append_query_pairs signin_params]. unfold SigninParams_append_query_pairs, append_signin_params, append_relay_params.
    append_ok.
  - intros p. not_x_keys.
  - intros [c r k] u xs (Hc & Hr & Hk) Hu Hx. cbn [params_parse signin_params]. unfold SigninParams_parse.
    cbn [si_capabilities si_relay si_secret] in *.
    rewrite (parse_capabilities_sent u c), (parse_relay_sent u r), (parse_secret_sent u k); try done; find_key Hu Hx.
Qed.

Definition SignupParams_wf (p : SignupParams) : Prop :=
  Forall Capability_wf (su_capabilities p) ∧ url_normalize (su_relay p) = Some (su_relay p) ∧
  key32 (su_secret p).

#[export] Instance signup_params_laws : DeepLinkParamsLaws SignupParams SignupParams_wf.
Proof.
  refine {|
    params_pairs p := [(lit "caps", Capabilities_fmt (su_capabilities p)); (lit "relay", su_relay p);
                       (lit "secret", base64url_encode (su_secret p)); (lit "hs", PublicKey_z32 (su_homeserver p))]
                      ++ optional_pair (lit "st") (su_signup_token p)
  |}.
  - intros [?? ?? []]; done.
  - intros [?? ?? []]; done.
  - intros [c r k h [t|]] u; cbn [append_query_pairs signup_params];
      unfold SignupParams_append_query_pairs, append_signup_params, append_signup_details, append_signin_params, append_relay_params;
      cbn [su_signup_token]; append_ok.
  - intros [c r k h [t|]]; cbn [optional_pair su_signup_token app]; not_x_keys.
  - intros [c r k h t] u xs (Hc & Hr & Hk) Hu Hx. cbn [params_parse signup_params]. unfold SignupParams_parse.
    cbn [su_capabilities su_relay su_secret su_homeserver su_signup_token] in *.
    rewrite (parse_capabilities_sent u c), (parse_relay_sent u r), (parse_secret_sent u k), (parse_homeserver_sent u h);
      try done; [|destruct t; find_key Hu Hx..].
    cbn [mbind result_bind]. do 2 f_equal. destruct t; find_key Hu Hx.
Qed.

Definition DirectSignupParams_wf (p : DirectSignupParams) : Prop :=
  True.

#[export] Instance direct_signup_params_laws : DeepLinkParamsLaws DirectSignupParams DirectSignupParams_wf.
Proof.
  refine {|
    params_pairs p := [(lit "hs", PublicKey_z32 (ds_homeserver p))] ++ optional_pair (lit "st") (ds_signup_token p)
  |}.
  - intros [? []]; done.
  - intros [? []]; done.
  - intros [h [t|]] u; cbn [append_query_pairs direct_signup_params];
      unfold DirectSignupParams_append_query_pairs, append_signup_details; cbn [ds_signup_token]; append_ok.
  - intros [h [t|]]; cbn [optional_pair ds_signup_token app]; not_x_keys.
  - intros [h t] u xs _ Hu Hx. cbn [params_parse direct_signup_params]. unfold DirectSignupParams_parse.
    cbn [ds_homeserver ds_signup_token] in *.
    rewrite (parse_homeserver_sent u h); [|destruct t; find_key Hu Hx].
    cbn [mbind result_bind]. do 2 f_equal. destruct t; find_key Hu Hx.
Qed.

Definition SeedExportParams_wf (p : SeedExportParams) : Prop :=
  key32 (se_secret p).

#[export] Instance seed_export_params_laws : DeepLinkParamsLaws SeedExportParams SeedExportParams_wf.
Proof.
  refine {|
    params_pairs p := [(lit "secret", base64url_encode (se_secret p))]
  |}; [done|done| | |].
  - intros [k] u. append_ok. apply append_pair_pieces.
  - intros p. not_x_keys.
  - intros [k] u xs Hk Hu Hx. cbn [params_parse seed_export_params]. unfold SeedExportParams_parse.
    rewrite (parse_secret_sent u k); [done| |done]. find_key Hu Hx.
Qed.

Definition SigninGrantParams_wf (p : SigninGrantParams) : Prop :=
  Forall Capability_wf (sg_capabilities p) ∧ url_normalize (sg_relay p) = Some (sg_relay p) ∧
  channel_ok (sg_approval_format p) (sg_relay_channel p) ∧ ClientId_new (sg_client_id p) = Ok (sg_client_id p) ∧
  validate_capabilities (sg_approval_format p) (sg_capabilities p) = true.

#[export] Instance signin_grant_params_laws : DeepLinkParamsLaws SigninGrantParams SigninGrantParams_wf.
Proof.
  refine {|
    params_pairs p := [(lit "caps", Capabilities_fmt (sg_capabilities p)); (lit "relay", sg_relay p);
                       (lit "cid", sg_client_id p); (lit "cpk", PublicKey_z32 (sg_client_pk p))]
                      ++ format_pairs (sg_approval_format p) ++ [channel_pair (sg_relay_channel p)]
                      ++ optional_pair (lit "spk") (PublicKey_z32 <$> sg_expected_signer p)
  |}.
  - intros [?? [] ?? [] []]; done.
  - intros [?? [] ?? [] []]; done.
  - intros [c r [k|k] ci ck [] [e|]] u; cbn [append_query_pairs signin_grant_params];
      unfold SigninGrantParams_append_query_pairs, append_grant_params, append_relay_params, append_expected_signer,
        append_grant_relay_channel, append_grant_approval_format;
      cbn [sg_relay_channel sg_approval_format sg_expected_signer]; append_ok.
  - intros [c r [k|k] ci ck [] [e|]]; cbn; not_x_keys.
  - intros [c r ch ci ck f e] u xs (Hc & Hr & Hch & Hci & Hv) Hu Hx. cbn [params_parse signin_grant_params].
    unfold SigninGrantParams_parse. cbn [sg_capabilities sg_relay sg_relay_channel sg_client_id sg_client_pk sg_approval_format sg_expected_signer] in *.
    rewrite (parse_format_sent u f) by (destruct f, ch, e; find_key Hu Hx). cbn [mbind result_bind].
    rewrite (parse_capabilities_sent u c) by (done || (destruct f, ch, e; find_key Hu Hx)). cbn [mbind result_bind]. rewrite Hv. cbn [negb].
    rewrite (parse_relay_sent u r) by (done || (destruct f, ch, e; find_key Hu Hx)). cbn [mbind result_bind].
    rewrite (parse_channel_sent u f ch) by (done || (destruct f, ch, e; find_key Hu Hx)). cbn [mbind result_bind].
    destruct (parse_client_sent u ci ck) as [-> ->]; [destruct f, ch, e; find_key Hu Hx|done|destruct f, ch, e; find_key Hu Hx|].
    cbn [mbind result_bind]. by rewrite (parse_signer_sent u e) by (destruct f, ch, e; find_key Hu Hx).
Qed.

Definition SignupGrantParams_wf (p : SignupGrantParams) : Prop :=
  Forall Capability_wf (ug_capabilities p) ∧ url_normalize (ug_relay p) = Some (ug_relay p) ∧
  channel_ok (ug_approval_format p) (ug_relay_channel p) ∧ ClientId_new (ug_client_id p) = Ok (ug_client_id p) ∧
  validate_capabilities (ug_approval_format p) (ug_capabilities p) = true.

#[export] Instance signup_grant_params_laws : DeepLinkParamsLaws SignupGrantParams SignupGrantParams_wf.
Proof.
  refine {|
    params_pairs p := [(lit "caps", Capabilities_fmt (ug_capabilities p)); (lit "relay", ug_relay p);
                       (lit "hs", PublicKey_z32 (ug_homeserver p))]
                      ++ optional_pair (lit "st") (ug_signup_token p)
                      ++ [(lit "cid", ug_client_id p); (lit "cpk", PublicKey_z32 (ug_client_pk p))]
                      ++ format_pairs (ug_approval_format p) ++ [channel_pair (ug_relay_channel p)]
  |}.
  - intros [?? [] ? [] ?? []]; done.
  - intros [?? [] ? [] ?? []]; done.
  - intros [c r [k|k] h [t|] ci ck []] u; cbn [append_query_pairs signup_grant_params];
      unfold SignupGrantParams_append_query_pairs, append_grant_params, append_relay_params, append_signup_details,
        append_grant_relay_channel, append_grant_approval_format;
      cbn [ug_relay_channel ug_approval_format ug_signup_token]; append_ok.
  - intros [c r [k|k] h [t|] ci ck []]; cbn; not_x_keys.
  - intros [c r ch h t ci ck f] u xs (Hc & Hr & Hch & Hci & Hv) Hu Hx. cbn [params_parse signup_grant_params].
    unfold SignupGrantParams_parse.
    cbn [ug_capabilities ug_relay ug_relay_channel ug_homeserver ug_signup_token ug_client_id ug_client_pk ug_approval_format] in *.
    rewrite (parse_format_sent u f) by (destruct f, ch, t; find_key Hu Hx). cbn [mbind result_bind].
    rewrite (parse_capabilities_sent u c) by (done || (destruct f, ch, t; find_key Hu Hx)). cbn [mbind result_bind]. rewrite Hv. cbn [negb].
    rewrite (parse_relay_sent u r) by (done || (destruct f, ch, t; find_key Hu Hx)). cbn [mbind result_bind].
    rewrite (parse_channel_sent u f ch) by (done || (destruct f, ch, t; find_key Hu Hx)). cbn [mbind result_bind].
    rewrite (parse_homeserver_sent u h) by (destruct f, ch, t; find_key Hu Hx). cbn [mbind result_bind].
    destruct (parse_client_sent u ci ck) as [-> ->]; [destruct f, ch, t; find_key Hu Hx|done|destruct f, ch, t; find_key Hu Hx|].
    cbn [mbind result_bind]. do 2 f_equal. destruct f, ch, t; find_key Hu Hx.
Qed.

(** A link whose fields hold what their types promise and, for a grant, whose
    format fits what it asks for. *)
Definition DeepLink_wf (l : DeepLink) : Prop :=
  match l with
  | Signin link => SigninParams_wf (tdl_params link)
  | Signup link => SignupParams_wf (tdl_params link)
  | DirectSignup link => DirectSignupParams_wf (tdl_params link)
  | SigninGrant link => SigninGrantParams_wf (tdl_params link)
  | SignupGrant link => SignupGrantParams_wf (tdl_params link)
  | SeedExport link => SeedExportParams_wf (tdl_params link)
  end.

(** What a grant link asks for, in which format and over which channel; the
    other links have neither. *)
Definition grant_request (l : DeepLink) : option (Capabilities * GrantApprovalFormat * GrantRelayChannel) :=
  match l with
  | SigninGrant link =>
      let p := tdl_params link in Some (sg_capabilities p, sg_approval_format p, sg_relay_channel p)
  | SignupGrant link =>
      let p := tdl_params link in Some (ug_capabilities p, ug_approval_format p, ug_relay_channel p)
  | _ => None
  end.

Lemma TypedDeepLink_url_parts {P} wf `{DeepLinkParamsLaws P wf} (l : TypedDeepLink P) :
  url_host (TypedDeepLink_to_url l) = NAME ∧
  url_scheme (TypedDeepLink_to_url l) = DeepLinkScheme_as_str (tdl_scheme l).
Proof.
  unfold TypedDeepLink_to_url, XCallbackParams_append_to_url.
  destruct (XCallbackParams_is_empty _); cbn [url_scheme url_host]; by rewrite append_scheme, append_host.
Qed.

Lemma channel_of_v1 u format channel :
  parse_grant_relay_channel u format = Ok channel → format = SignedApprovalV1 → ∃ k, channel = Hpke k.
Proof.
  unfold parse_grant_relay_channel. intros Hp ->. destruct (optional_key u (lit "epk")) as [[k|]|]; [| |done]; cbn [mbind result_bind] in Hp;
    destruct (optional_key u (lit "secret")) as [[k'|]|]; cbn [mbind result_bind] in Hp; try done. injection Hp as <-. by eexists.
Qed.

Lemma intent_request u l caps format channel :
  DeepLink_of_intent u = Ok l → grant_request l = Some (caps, format, channel) →
  validate_capabilities format caps = true ∧ parse_grant_relay_channel u format = Ok channel.
Proof.
  unfold DeepLink_of_intent. intros Hl Hg.
  repeat case_decide; try done; unfold TypedDeepLink_parse_url in Hl; cbn [params_parse NAME signin_params signup_params
    direct_signup_params signin_grant_params signup_grant_params seed_export_params] in Hl;
    destruct (DeepLinkScheme_from_str _); [|done| |done| |done| |done| |done| |done]; cbn [mbind result_bind] in Hl;
    (destruct (negb _) in Hl; [done|]).
  - destruct (SigninParams_parse u); [|done]. injection Hl as <-. done.
  - destruct (SignupParams_parse u); [|done]. injection Hl as <-. done.
  - destruct (DirectSignupParams_parse u); [|done]. injection Hl as <-. done.
  - destruct (SigninGrantParams_parse u) as [p|] eqn:Hp; [|done]. injection Hl as <-. injection Hg as <- <- <-.
    unfold SigninGrantParams_parse in Hp. destruct (parse_grant_approval_format u) as [f|]; [|done]. cbn [mbind result_bind] in Hp.
    destruct (parse_capabilities u) as [c|]; [|done]. cbn [mbind result_bind] in Hp.
    destruct (validate_capabilities f c) eqn:Hv; [|done]. cbn [negb] in Hp. destruct (parse_relay u); [|done]. cbn [mbind result_bind] in Hp.
    destruct (parse_grant_relay_channel u f) as [ch|] eqn:Hc; [|done]. cbn [mbind result_bind] in Hp.
    destruct (parse_client_id u); [|done]. destruct (parse_client_pk u); [|done].
    destruct (parse_expected_signer u); [|done]. injection Hp as <-. done.
  - destruct (SignupGrantParams_parse u) as [p|] eqn:Hp; [|done]. injection Hl as <-. injection Hg as <- <- <-.
    unfold SignupGrantParams_parse in Hp. destruct (parse_grant_approval_format u) as [f|]; [|done]. cbn [mbind result_bind] in Hp.
    destruct (parse_capabilities u) as [c|]; [|done]. cbn [mbind result_bind] in Hp.
    destruct (validate_capabilities f c) eqn:Hv; [|done]. cbn [negb] in Hp. destruct (parse_relay u); [|done]. cbn [mbind result_bind] in Hp.
    destruct (parse_grant_relay_channel u f) as [ch|] eqn:Hc; [|done]. cbn [mbind result_bind] in Hp.
    destruct (parse_homeserver u); [|done]. destruct (parse_client_id u); [|done]. destruct (parse_client_pk u); [|done].
    injection Hp as <-. done.
  - destruct (SeedExportParams_parse u); [|done]. injection Hl as <-. done.
Qed.

Lemma DeepLink_read_back l : DeepLink_wf l → DeepLink_from_url (DeepLink_to_url l) = Ok l.
Proof.
  intros Hl. unfold DeepLink_from_url.
  assert (bool_decide (url_scheme (DeepLink_to_url l) ∈ [lit "pubkyauth"; lit "pubkyring"]) = true ∧
          url_host (DeepLink_to_url l) ≠ [] ∧ DeepLink_of_intent (DeepLink_to_url l) = Ok l) as (-> & Hh & Hi);
    [|cbn [negb]; by rewrite decide_False].
  destruct l as [t|t|t|t|t|t]; cbn [DeepLink_wf DeepLink_to_url] in *; unfold DeepLink_of_intent;
    destruct (TypedDeepLink_url_parts _ t) as [-> ->]; cbn [NAME signin_params signup_params direct_signup_params
      signin_grant_params signup_grant_params seed_export_params]; pick_keys;
    rewrite (TypedDeepLink_roundtrip _ t Hl); (split; [by destruct (tdl_scheme t)|done]).
Qed.

(** (C35) Deep links mean what they say.  Every request an app can put into a
    link is read back by the signer as it was made, its x-callback parameters
    included, whatever their text; and a grant link of any origin that asks for
    encryption keys is accepted only if it asks for a signed approval encrypted
    to a key of the app, never over a secret shared in the link.  The second
    part is about the links that are answered with a grant, which alone carry
    keys: the older sign-in and sign-up links, always over a shared secret, are
    read with any capabilities. *)
Theorem deep_link_roundtrip :
  (∀ l, DeepLink_wf l → DeepLink_from_url (DeepLink_to_url l) = Ok l) ∧
  ∀ u l caps format channel,
    DeepLink_from_url u = Ok l → grant_request l = Some (caps, format, channel) →
    existsb Capability_grants_encryption_keys caps = true → format = SignedApprovalV1 ∧ ∃ k, channel = Hpke k.
Proof.
  split.
  - apply DeepLink_read_back.
  - intros u l caps format channel Hl Hg He.
    assert (∃ u', DeepLink_of_intent u' = Ok l) as [u' Hi].
    { unfold DeepLink_from_url in Hl. destruct (negb _); [done|]. destruct (decide _); by eexists. }
    destruct (intent_request _ _ _ _ _ Hi Hg) as [Hv Hc]. unfold validate_capabilities in Hv. rewrite He, andb_true_r in Hv.
    destruct format; [done|]. split; [done|]. by eapply channel_of_v1.
Qed.

End Links.

(** * Witness *)

(** A codec that moves the characters that need escaping out of the way. *)
Definition shift_char (c : Z) : Z := if 0 <=? c then 1000 + 2 * c else 1001 - 2 * c.
Definition unshift_char (d : Z) : Z :=
  let e := d - 1000 in if Z.even e then e / 2 else - ((e - 1) / 2).

Lemma unshift_shift c : unshift_char (shift_char c) = c.
Proof.
  unfold unshift_char, shift_char. destruct (Z.leb_spec 0 c).
  - replace (1000 + 2 * c - 1000) with (2 * c) by lia. rewrite Z.even_mul. cbn. rewrite Z.mul_comm, Z.div_mul; lia.
  - replace (1001 - 2 * c - 1000) with (1 + 2 * (- c)) by lia. rewrite Z.even_add_mul_2. cbn [Z.even].
    replace (1 + 2 * - c - 1) with ((- c) * 2) by lia. rewrite Z.div_mul; lia.
Qed.

Lemma shift_big c : 1000 ≤ shift_char c.
Proof. unfold shift_char. destruct (Z.leb_spec 0 c); lia. Qed.

Definition shift_codec : QueryCodec := {|
  form_encode := map (λ c, if is_form_plain c then c else shift_char c);
  form_decode := map (λ d, if d <? 1000 then d else unshift_char d);
  component_encode := map shift_char;
  component_decode s := Some (map unshift_char s)
|}.

Lemma is_form_plain_small c : is_form_plain c = true → 42 ≤ c ≤ 122 ∧ c ≠ EQUALS.
Proof. unfold is_form_plain, is_ascii_digit, EQUALS. lia. Qed.

#[local] Instance shift_codec_laws : @QueryCodecLaws shift_codec.
Proof.
  split; cbn [form_encode form_decode component_encode component_decode shift_codec].
  - intros s. rewrite map_map. rewrite <-(map_id s) at 2. apply map_ext. intros c.
    destruct (is_form_plain c) eqn:Hc.
    + apply is_form_plain_small in Hc. by rewrite (proj2 (Z.ltb_lt _ _)) by lia.
    + pose proof (shift_big c). rewrite (proj2 (Z.ltb_ge _ _)) by lia. apply unshift_shift.
  - intros s. split; intros (c & Hc & _)%list_elem_of_fmap; destruct (is_form_plain c) eqn:Hp;
      try (apply is_form_plain_small in Hp; unfold AMP, EQUALS in *; lia); pose proof (shift_big c);
      unfold AMP, EQUALS in *; lia.
  - intros s Hs. rewrite <-(map_id s) at 2. apply map_ext_in. intros c Hc. rewrite forallb_forall in Hs. by rewrite Hs.
  - intros s. f_equal. rewrite map_map. rewrite <-(map_id s) at 2. apply map_ext, unshift_shift.
  - intros s (c & Hc & _)%list_elem_of_fmap. pose proof (shift_big c). unfold AMP in *. lia.
  - intros s. unfold has_valid_percent_triplets. rewrite split_no_sep_id; [done|].
    intros (c & Hc & _)%list_elem_of_fmap. pose proof (shift_big c). unfold PERCENT in *. lia.
Qed.

(** Tokens whose parts are written in letters. *)
Definition letters_jws : @Jws demo_keys := {|
  base64url_decode := letters_decode;
  json_grant := json_grant;
  json_pop := json_pop;
  jwt_decode := jwt_decode;
  jwt_typ := jwt_typ
|}.

#[local] Instance letters_base64 : @Base64Url demo_keys letters_jws := {| base64url_encode := letters_encode |}.
#[local] Instance letters_base64_laws : @Base64UrlLaws demo_keys letters_jws letters_base64.
Proof.
  split; [apply letters_roundtrip| |by intros [|x b]]. intros b. apply forallb_forall.
  intros c Hc%list_elem_of_In%letters_range. unfold is_base64url. lia.
Qed.

Local Abbreviation demo_link :=
  (SigninGrant (H := demo_keys) (mk_TypedDeepLink PubkyRing
     (mk_SigninGrantParams (H := demo_keys) [mk_Capability (mk_StoragePath (lit "/pub/")) [Read]]
        (lit "https://relay.example/inbox/") (Hpke (repeat 7 32)) (lit "app.example") false SignedApprovalV1 (Some true))
     (mk_XCallbackParams None (Some (lit "app://done?a=b&c=%d")) None None))).

Lemma deep_link_roundtrip_witness :
  DeepLink_from_url (H := demo_keys) (H0 := letters_jws) (H2 := shift_codec) Some
    (DeepLink_to_url (H := demo_keys) (H0 := letters_jws) (H1 := letters_base64) (H2 := shift_codec) Some demo_link)
  = Ok demo_link.
Proof.
  refine (proj1 (deep_link_roundtrip (H := demo_keys) (H0 := letters_jws) (H1 := letters_base64) (H2 := shift_codec) Some)
            demo_link _).
  cbn [DeepLink_wf tdl_params]. split; [|split; [reflexivity|split; [|split; [reflexivity|reflexivity]]]].
  - apply (Capabilities_from_str_wf (lit "/pub/:r")). vm_compute. reflexivity.
  - split; [reflexivity|]. apply Forall_forall. intros x Hx%list_elem_of_In%repeat_spec. lia.
Defined.
