(* ===== verification/SdkApproval.v ===== *)
(** Approving a grant ([pubky-sdk/src/actors/signer/auth.rs] and
    [pubky-sdk/src/actors/auth/grant/{approval,approval_envelope,approval_encryption,flow}.rs],
    with [pubky-common/src/auth/jws.rs] and [pubky-common/src/crypto.rs]): what a
    signer sends in answer to a deep link, and what the requesting app makes of
    a message it receives over the relay.

    Ed25519, JSON, secret boxes and HPKE belong to crates: [Signing],
    [ApprovalJson] and [Sealing].  Errors are their messages. *)

From stdpp Require Import countable.
From S2P Require Import Prelude StoragePath Capabilities Keys GrantTokens EncryptionKeys DeepLinks.

(** * The crates *)

(** [ed25519_dalek], with the key pairs of [pkarr]. *)
Class Signing `{PkarrKeys} := {
  Keypair : Type;
  kp_public_key : Keypair → PublicKey;
  kp_secret : Keypair → list Z;
  kp_from_secret : list Z → Keypair;
  kp_sign : Keypair → str → list Z;
  (** [PublicKey::verify], of a 64-byte signature. *)
  key_verify : PublicKey → str → list Z → bool;
}.

Class SigningLaws `{Signing} := {
  verify_sign kp message : key_verify (kp_public_key kp) message (kp_sign kp message) = true;
  sign_length kp message : length (kp_sign kp message) = 64%nat ∧ Forall (λ x, 0 ≤ x < 256) (kp_sign kp message);
  secret_key32 kp : key32 (kp_secret kp);
  from_secret_secret kp : kp_from_secret (kp_secret kp) = kp;
}.

(** [serde_json]: what is written, and the fields of what is read. *)
Class ApprovalJson `{PkarrKeys} := {
  header_json : str → list Z;
  claims_json : GrantClaims → list Z;
  envelope_json : str → ScopedEncryptionKeyBundle → list Z;
  json_header : list Z → option (str * str);
  json_approval_grant : list Z → option str;
  json_envelope : list Z → option (str * DerivationVersion * list KeyEntry);
}.

(** Claims that the field types accept. *)
Definition claims_ok `{PkarrKeys} (c : GrantClaims) : Prop :=
  ClientId_new (client_id c) = Ok (client_id c) ∧ Forall Capability_wf (caps c) ∧ RandomId_parse (jti c) = Ok (jti c) ∧
  0 ≤ iat c ≤ U64_MAX ∧ 0 ≤ exp c ≤ U64_MAX.

Class ApprovalJsonLaws `{PkarrKeys, !Jws, !ApprovalJson} := {
  header_bytes typ : Forall (λ x, 0 ≤ x < 256) (header_json typ) ∧ header_json typ ≠ [];
  header_roundtrip typ : json_header (header_json typ) = Some (lit "EdDSA", typ);
  claims_bytes c : Forall (λ x, 0 ≤ x < 256) (claims_json c) ∧ claims_json c ≠ [];
  claims_roundtrip c : claims_ok c → grant_from_slice (claims_json c) = Some c;
  envelope_bytes g b : Forall (λ x, 0 ≤ x < 256) (envelope_json g b) ∧ envelope_json g b ≠ [];
  envelope_grant g b : json_approval_grant (envelope_json g b) = Some g;
  envelope_roundtrip g b : json_envelope (envelope_json g b) = Some (g, bundle_version b, bundle_keys b);
  (** Repeated fields are refused, so both reads of a payload see one grant. *)
  envelope_one_grant bytes g g' v keys :
    json_approval_grant bytes = Some g → json_envelope bytes = Some (g', v, keys) → g' = g;
}.

(** [crypto_secretbox] and [hpke]; the randomness of a message is an argument. *)
Class Sealing := {
  secretbox_seal : list Z → list Z → list Z → list Z;
  secretbox_open : list Z → list Z → list Z → option (list Z);
  hpke_public : list Z → list Z;
  hpke_seal : list Z → list Z → list Z → option (list Z * list Z);
  hpke_open : list Z → list Z → list Z → option (list Z);
}.

Class SealingLaws `{Sealing} := {
  secretbox_roundtrip k nonce m : secretbox_open k nonce (secretbox_seal k nonce m) = Some m;
  (** Sealing to the public key of a secret succeeds. *)
  hpke_seals sk r m : is_Some (hpke_seal (hpke_public sk) r m);
  (** An encapsulated key has 32 bytes and a ciphertext is never empty. *)
  hpke_roundtrip sk r m e c :
    hpke_seal (hpke_public sk) r m = Some (e, c) → length e = 32%nat ∧ c ≠ [] ∧ hpke_open sk e c = Some m;
}.

(** * Text *)

(** [str::as_bytes]. *)
Definition char_bytes (c : Z) : list Z :=
  if c <? 128 then [c]
  else if c <? 2048 then [192 + c / 64; 128 + c mod 64]
  else if c <? 65536 then [224 + c / 4096; 128 + c / 64 mod 64; 128 + c mod 64]
  else [240 + c / 262144; 128 + c / 4096 mod 64; 128 + c / 64 mod 64; 128 + c mod 64].
Definition as_bytes (s : str) : list Z := flat_map char_bytes s.

Section Approval.
Context `{PkarrKeys, !Jws, !Base64Url, !Signing, !ApprovalJson, !Hkdf, !Sealing, !QueryCodec}.

(** * Tokens *)

Definition jws_signing_input (typ : str) (claims : list Z) : str :=
  base64url_encode (header_json typ) ++ [GrantTokens.DOT] ++ base64url_encode claims.

Definition finish_jws (signing_input : str) (signature : list Z) : str :=
  signing_input ++ [GrantTokens.DOT] ++ base64url_encode signature.

Definition sign_jws (keypair : Keypair) (typ : str) (claims : list Z) : str :=
  let signing_input := jws_signing_input typ claims in
  finish_jws signing_input (kp_sign keypair signing_input).

Definition invalid_approval (message : str) : str := message.

Definition jws_parts (compact : str) : result str (str * str * str) :=
  '(input, signature) ← ok_or (rsplit_once GrantTokens.DOT compact) (invalid_approval (lit "invalid compact JWS"));
  '(header, payload) ← ok_or (split_once GrantTokens.DOT input) (invalid_approval (lit "invalid compact JWS"));
  if bool_decide (header = []) || bool_decide (payload = []) || bool_decide (signature = [])
     || contains_char payload GrantTokens.DOT
  then Err (invalid_approval (lit "invalid compact JWS"))
  else Ok (header, payload, signature).

Definition decode_payload {T} (from_slice : list Z → option T) (compact : str) : result str T :=
  '(_, payload, _) ← jws_parts compact;
  decoded ← ok_or (base64url_decode payload) (invalid_approval (lit "invalid approval payload encoding"));
  ok_or (from_slice decoded) (invalid_approval (lit "invalid approval payload or unsupported version")).

Definition APPROVAL_JWS_TYP : str := lit "pubky-grant-approval".

Definition verify_approval_signature (compact : str) (issuer : PublicKey) : result str () :=
  '(header, _, signature) ← jws_parts compact;
  header ← ok_or (base64url_decode header) (invalid_approval (lit "invalid JWS header encoding"));
  '(alg, typ) ← ok_or (json_header header) (invalid_approval (lit "invalid or unsupported JWS header"));
  if negb (bool_decide (alg = lit "EdDSA")) || negb (bool_decide (typ = APPROVAL_JWS_TYP)) then
    Err (invalid_approval (lit "unexpected JWS algorithm or type"))
  else
    signature ← ok_or (base64url_decode signature) (invalid_approval (lit "invalid JWS signature encoding"));
    if negb (length signature =? 64)%nat then Err (invalid_approval (lit "invalid JWS signature length"))
    else
      '(input, _) ← ok_or (rsplit_once GrantTokens.DOT compact) (lit "JWS was split above");
      if key_verify issuer input signature then Ok () else Err (invalid_approval (lit "invalid JWS signature")).

(** * Approvals *)

Definition encryption_scopes (capabilities : Capabilities) : list StoragePath :=
  map scope (filter (λ cap, Capability_grants_encryption_keys cap = true) capabilities).

(** [GrantApprovalEnvelope::sign]; [None] is a failed assertion. *)
Definition GrantApprovalEnvelope_sign (keypair : Keypair) (claims : GrantClaims) : option str :=
  let grant := sign_jws keypair GRANT_JWS_TYP (claims_json claims) in
  encryption_keys ← from_identity_secret (kp_secret keypair) (encryption_scopes (caps claims));
  Some (sign_jws keypair APPROVAL_JWS_TYP (envelope_json grant encryption_keys)).

Record VerifiedApproval := mk_VerifiedApproval {
  va_encryption_keys : ScopedEncryptionKeyBundle;
  va_signed_approval : str
}.

Record GrantApproval := mk_GrantApproval {
  ga_grant_jws : str;
  ga_claims : GrantClaims;
  ga_verified_approval : option VerifiedApproval
}.

Definition validate_key_scopes_match_grant (keys : ScopedEncryptionKeyBundle) (claims : GrantClaims) : result str () :=
  let has_unapproved_scope :=
    existsb (λ s, negb (existsb (λ cap, Capability_grants_encryption_keys cap && bool_decide (scope cap = s)) (caps claims)))
      (bundle_scopes keys) in
  let has_missing_scope :=
    existsb (λ cap, Capability_grants_encryption_keys cap && negb (existsb (λ s, bool_decide (s = scope cap)) (bundle_scopes keys)))
      (caps claims) in
  if has_unapproved_scope || has_missing_scope
  then Err (invalid_approval (lit "encryption key scopes do not match the approved grant"))
  else Ok ().

(** [Deserialize] of the envelope: the keys must be consistent; a failed
    assertion there would be a panic, which the proofs exclude. *)
Definition envelope_from_slice (bytes : list Z) : option (str * ScopedEncryptionKeyBundle) :=
  '(grant, version, keys) ← json_envelope bytes;
  match ScopedEncryptionKeyBundle_deserialize version keys with
  | Some (Ok bundle) => Some (grant, bundle)
  | _ => None
  end.

Definition GrantApproval_decode_text (text : str) (format : GrantApprovalFormat) : result str GrantApproval :=
  match format with
  | BareGrant =>
      claims ← map_err (λ _, lit "invalid grant payload") (GrantClaims_decode text);
      Ok (mk_GrantApproval text claims None)
  | SignedApprovalV1 =>
      unverified ← decode_payload json_approval_grant text;
      claims ← decode_payload grant_from_slice unverified;
      verify_approval_signature text (iss claims) ;;
      '(grant, encryption_keys) ← decode_payload envelope_from_slice text;
      validate_key_scopes_match_grant encryption_keys claims ;;
      Ok (mk_GrantApproval grant claims (Some (mk_VerifiedApproval encryption_keys text)))
  end.

Definition GrantApproval_decode (message : list Z) (format : GrantApprovalFormat) : result str GrantApproval :=
  text ← ok_or (from_utf8 message) (invalid_approval (lit "invalid approval encoding"));
  GrantApproval_decode_text text format.

(** * Sealed messages *)

Definition encrypt (nonce plain_text encryption_key : list Z) : list Z :=
  match plain_text with
  | [] => []
  | _ => nonce ++ secretbox_seal encryption_key nonce plain_text
  end.

Definition decrypt (bytes encryption_key : list Z) : option (list Z) :=
  match bytes with
  | [] => Some []
  | _ =>
      if (length bytes <? 24)%nat then None
      else secretbox_open encryption_key (take 24 bytes) (drop 24 bytes)
  end.

Definition WIRE_PREFIX : list Z := lit "pubky-hpke-v1" ++ [0].
Definition ENCAPPED_LEN : nat := 32.

(** [approval_encryption::seal]. *)
Definition approval_seal (randomness public_key plaintext : list Z) : result str (list Z) :=
  '(encapped_key, ciphertext) ← ok_or (hpke_seal public_key randomness plaintext) (lit "failed to encrypt HPKE grant approval");
  Ok (WIRE_PREFIX ++ encapped_key ++ ciphertext).

Definition ApprovalRecipientSecret_matches_public_key (secret expected : list Z) : bool :=
  bool_decide (hpke_public secret = expected).

Definition ApprovalRecipientSecret_open (secret wire : list Z) : result str (list Z) :=
  if negb (starts_with wire WIRE_PREFIX) then Err (lit "invalid HPKE grant approval")
  else
    let body := drop (length WIRE_PREFIX) wire in
    if (length body <=? ENCAPPED_LEN)%nat then Err (lit "invalid HPKE grant approval")
    else ok_or (hpke_open secret (take ENCAPPED_LEN body) (drop ENCAPPED_LEN body)) (lit "invalid HPKE grant approval").

(** * The signer *)

Definition DEFAULT_GRANT_LIFETIME_SECS : Z := 2 * 365 * 24 * 3600.

(** Some requested capability covers the action on the scope. *)
Definition action_requested (requested : Capabilities) (approved_scope : StoragePath) (action : Action) : bool :=
  existsb (λ r, Capability_scope_covers_path r approved_scope && bool_decide (action ∈ actions r)) requested.

Definition within_request (requested approved : Capabilities) : bool :=
  forallb (λ cap, forallb (action_requested requested (scope cap)) (actions cap)) approved.

Definition select_capabilities (requested : Capabilities) (approved : option Capabilities) : result str Capabilities :=
  match approved with
  | None => Ok requested
  | Some approved =>
      if within_request requested approved then Ok approved
      else Err (lit "approved capabilities exceed the pending request")
  end.

(** [now], the grant id and the randomness of the encryption are drawn by the
    function; a failed assertion is [None]. *)
Definition build_encrypted_grant (now : Z) (grant_id : str) (randomness : list Z) (keypair : Keypair)
    (capabilities : Capabilities) (cid : str) (client_pk : PublicKey) (format : GrantApprovalFormat)
    (relay_channel : GrantRelayChannel) : option (result str (list Z)) :=
  if negb (validate_capabilities format capabilities) then Some (Err (lit "encryption key permission requires af=v1"))
  else
    let claims := mk_GrantClaims (kp_public_key keypair) cid capabilities client_pk grant_id now
                    (now + DEFAULT_GRANT_LIFETIME_SECS) in
    payload ← match format with
              | BareGrant => Some (sign_jws keypair GRANT_JWS_TYP (claims_json claims))
              | SignedApprovalV1 => GrantApprovalEnvelope_sign keypair claims
              end;
    Some (match relay_channel with
          | SharedSecret secret => Ok (encrypt randomness (as_bytes payload) secret)
          | Hpke ephemeral_public_key => approval_seal randomness ephemeral_public_key (as_bytes payload)
          end).

(** The check of [parse_deeplink] on the link it has parsed. *)
Definition check_expected_signer (keypair : Keypair) (deep_link : DeepLink) : result str () :=
  match deep_link with
  | SigninGrant link =>
      match sg_expected_signer (tdl_params link) with
      | Some expected =>
          if negb (bool_decide (expected = kp_public_key keypair))
          then Err (lit "this sign-in request is for a different key") else Ok ()
      | None => Ok ()
      end
  | _ => Ok ()
  end.

(** [approve_auth_deeplink] for grant links, up to the post to the relay. *)
Definition approve_grant_deeplink (now : Z) (grant_id : str) (randomness : list Z) (keypair : Keypair)
    (deep_link : DeepLink) (approved : option Capabilities) : option (result str (list Z)) :=
  match check_expected_signer keypair deep_link with
  | Err e => Some (Err e)
  | Ok _ =>
      match deep_link with
      | SigninGrant link =>
          let params := tdl_params link in
          match select_capabilities (sg_capabilities params) approved with
          | Err e => Some (Err e)
          | Ok caps =>
              build_encrypted_grant now grant_id randomness keypair caps (sg_client_id params) (sg_client_pk params)
                (sg_approval_format params) (sg_relay_channel params)
          end
      | SignupGrant link =>
          let params := tdl_params link in
          match select_capabilities (ug_capabilities params) approved with
          | Err e => Some (Err e)
          | Ok caps =>
              build_encrypted_grant now grant_id randomness keypair caps (ug_client_id params) (ug_client_pk params)
                (ug_approval_format params) (ug_relay_channel params)
          end
      | _ => Some (Err (lit "approve_auth does not handle this deep link"))
      end
  end.

(** * The app *)

Definition validate_approval_key (channel : GrantRelayChannel) (secret : option (list Z)) : result str () :=
  match channel, secret with
  | SharedSecret _, None => Ok ()
  | SharedSecret _, Some _ => Err (lit "saved HPKE key has no matching grant request")
  | Hpke _, None => Err (lit "saved grant auth flow is missing its HPKE key")
  | Hpke ephemeral_public_key, Some secret =>
      if ApprovalRecipientSecret_matches_public_key secret ephemeral_public_key then Ok ()
      else Err (lit "saved HPKE key does not match the grant request")
  end.

(** The fields of the request the answer is compared with. *)
Record PendingRequest := mk_PendingRequest {
  pr_client_id : str;
  pr_client_pk : PublicKey;
  pr_capabilities : Capabilities;
  pr_format : GrantApprovalFormat;
  pr_relay_channel : GrantRelayChannel;
  pr_expected_signer : option PublicKey
}.

Definition pending_request (request : DeepLink) : result str PendingRequest :=
  match request with
  | SigninGrant link =>
      let params := tdl_params link in
      Ok (mk_PendingRequest (sg_client_id params) (sg_client_pk params) (sg_capabilities params)
            (sg_approval_format params) (sg_relay_channel params) (sg_expected_signer params))
  | SignupGrant link =>
      let params := tdl_params link in
      Ok (mk_PendingRequest (ug_client_id params) (ug_client_pk params) (ug_capabilities params)
            (ug_approval_format params) (ug_relay_channel params) None)
  | _ => Err (lit "approval requires a grant auth deep link")
  end.

Definition decode_and_validate_approval (message : list Z) (request : DeepLink) (approval_key_secret : option (list Z))
    : result str GrantApproval :=
  p ← pending_request request;
  validate_approval_key (pr_relay_channel p) approval_key_secret ;;
  message ← match approval_key_secret with
            | Some secret => ApprovalRecipientSecret_open secret message
            | None => Ok message
            end;
  approval ← GrantApproval_decode message (pr_format p);
  if negb (bool_decide (cnf (ga_claims approval) = pr_client_pk p))
     || negb (bool_decide (client_id (ga_claims approval) = pr_client_id p))
  then Err (lit "approved grant does not match the requesting client")
  else if match pr_expected_signer p with
          | Some expected => negb (bool_decide (expected = iss (ga_claims approval)))
          | None => false
          end
  then Err (lit "approved grant was issued by a different key than the request expected")
  else if exp (ga_claims approval) <=? iat (ga_claims approval)
  then Err (lit "approved grant has invalid timestamps")
  else if negb (within_request (pr_capabilities p) (caps (ga_claims approval)))
  then Err (lit "approved capabilities exceed the pending request")
  else Ok approval.

(** What the relay listener of a channel hands over of a delivered message. *)
Definition relay_message (channel : GrantRelayChannel) (delivered : list Z) : option (list Z) :=
  match channel with SharedSecret secret => decrypt delivered secret | Hpke _ => Some delivered end.

(** * Tokens are read back *)

(** [jsonwebtoken] accepts what [sign_jws] makes, under the signer's key. *)
Class SignedTokens := {
  jwt_decode_signed kp typ bytes :
    Forall (λ x, 0 ≤ x < 256) bytes → jwt_decode (sign_jws kp typ bytes) (kp_public_key kp) = Some bytes;
  jwt_typ_signed kp typ bytes : jwt_typ (sign_jws kp typ bytes) = Some (Some typ);
}.

Context `{!PkarrKeysLaws, !Base64UrlLaws, !SigningLaws, !ApprovalJsonLaws, !SealingLaws, !SignedTokens}.

Lemma base64url_char c b : c ∈ base64url_encode b → 45 ≤ c ≤ 122 ∧ c ≠ GrantTokens.DOT ∧ c ≠ COLON.
Proof.
  intros Hc. pose proof (base64url_alphabet b) as Hb. rewrite forallb_forall in Hb. apply list_elem_of_In, Hb in Hc.
  unfold is_base64url, is_ascii_digit, GrantTokens.DOT, COLON in *. lia.
Qed.

Lemma base64url_no_dot b : GrantTokens.DOT ∉ base64url_encode b.
Proof. intros Hc%base64url_char. tauto. Qed.

Lemma ascii_bytes s : Forall (λ c, 0 ≤ c < 128) s → as_bytes s = s ∧ from_utf8 s = Some s.
Proof.
  induction 1 as [|c s Hc _ [IHa IHu]]; [done|]. unfold as_bytes in *. cbn [flat_map from_utf8].
  unfold char_bytes at 1. rewrite (proj2 (Z.ltb_lt c 128)) by lia. rewrite IHa. split; [done|]. by rewrite IHu.
Qed.

Lemma sign_jws_ascii kp typ bytes : Forall (λ c, 0 ≤ c < 128) (sign_jws kp typ bytes).
Proof.
  assert (∀ b, Forall (λ c, 0 ≤ c < 128) (base64url_encode b)) as Hb.
  { intros b. apply Forall_forall. intros c Hc%base64url_char. lia. }
  unfold sign_jws, finish_jws, jws_signing_input. rewrite !Forall_app. split_and!; try apply Hb; constructor; done.
Qed.

Lemma sign_jws_parts kp typ bytes :
  bytes ≠ [] →
  jws_parts (sign_jws kp typ bytes)
  = Ok (base64url_encode (header_json typ), base64url_encode bytes,
        base64url_encode (kp_sign kp (jws_signing_input typ bytes))).
Proof.
  intros Hb. unfold jws_parts, sign_jws, finish_jws. cbn [app].
  rewrite rsplit_once_spec by apply base64url_no_dot. cbn [ok_or mbind result_bind].
  assert (split_once GrantTokens.DOT (jws_signing_input typ bytes)
          = Some (base64url_encode (header_json typ), base64url_encode bytes)) as ->
    by (apply split_once_spec; split; [done|apply base64url_no_dot]).
  cbn [ok_or mbind result_bind].
  rewrite !bool_decide_eq_false_2.
  - cbn [orb]. by rewrite (proj2 (contains_char_false _ _)) by apply base64url_no_dot.
  - apply base64url_nonempty. intros E. destruct (sign_length kp (jws_signing_input typ bytes)) as [Hl _]. by rewrite E in Hl.
  - by apply base64url_nonempty.
  - apply base64url_nonempty, header_bytes.
Qed.

Lemma decode_payload_signed {T} (f : list Z → option T) kp typ bytes :
  bytes ≠ [] → Forall (λ x, 0 ≤ x < 256) bytes →
  decode_payload f (sign_jws kp typ bytes)
  = ok_or (f bytes) (invalid_approval (lit "invalid approval payload or unsupported version")).
Proof.
  intros Hn Hb. unfold decode_payload. rewrite sign_jws_parts by done. cbn [mbind result_bind].
  by rewrite base64url_roundtrip.
Qed.

Lemma GrantClaims_decode_signed kp typ c : claims_ok c → GrantClaims_decode (sign_jws kp typ (claims_json c)) = Ok c.
Proof.
  intros Hc. unfold GrantClaims_decode, decode_jws_payload, sign_jws, finish_jws, jws_signing_input.
  set (h := base64url_encode (header_json typ)). set (p := base64url_encode (claims_json c)).
  set (s := base64url_encode (kp_sign kp _)). rewrite <-app_assoc.
  assert (splitn 3 GrantTokens.DOT (h ++ ([GrantTokens.DOT] ++ p) ++ [GrantTokens.DOT] ++ s) = [h; p; s]) as ->.
  { cbn [splitn]. rewrite (proj2 (split_once_spec _ (h ++ _) h (p ++ [GrantTokens.DOT] ++ s)))
      by (split; [done|apply base64url_no_dot]).
    rewrite (proj2 (split_once_spec _ (p ++ _) p s)) by (split; [done|apply base64url_no_dot]). done. }
  unfold p. rewrite base64url_roundtrip by apply claims_bytes. cbn [ok_or mbind result_bind]. by rewrite claims_roundtrip.
Qed.

Lemma verify_approval_signature_signed kp bytes :
  bytes ≠ [] → verify_approval_signature (sign_jws kp APPROVAL_JWS_TYP bytes) (kp_public_key kp) = Ok ().
Proof.
  intros Hb. unfold verify_approval_signature. rewrite sign_jws_parts by done. cbn [mbind result_bind].
  rewrite (base64url_roundtrip (header_json APPROVAL_JWS_TYP)) by apply header_bytes. cbn [ok_or mbind result_bind]. rewrite header_roundtrip.
  cbn [ok_or mbind result_bind]. rewrite !bool_decide_eq_true_2 by done. cbn [negb orb].
  destruct (sign_length kp (jws_signing_input APPROVAL_JWS_TYP bytes)) as [Hl Hs].
  rewrite base64url_roundtrip by done. cbn [ok_or mbind result_bind]. rewrite Hl. cbn [Nat.eqb negb].
  unfold sign_jws, finish_jws. cbn [app]. rewrite rsplit_once_spec by apply base64url_no_dot. cbn [ok_or mbind result_bind].
  by rewrite verify_sign.
Qed.

Lemma verify_grant_signed kp c t :
  claims_ok c → iss c = kp_public_key kp → as_u64 t < exp c →
  verify_grant t (sign_jws kp GRANT_JWS_TYP (claims_json c)) = Ok c.
Proof.
  intros Hc Hi Ht. unfold verify_grant, verify_grant_for_revocation, extract_issuer_key, grant_verify_signature, grant_check_header_type.
  rewrite GrantClaims_decode_signed by done. cbn [map_err mbind result_bind]. rewrite Hi, jwt_decode_signed by apply claims_bytes. cbn [mbind option_bind].
  rewrite claims_roundtrip by done. cbn [ok_or mbind result_bind]. rewrite jwt_typ_signed. cbn [ok_or mbind result_bind].
  rewrite bool_decide_eq_true_2 by done. cbn [mbind result_bind]. unfold check_expiry.
  by rewrite (proj2 (Z.leb_gt _ _)) by lia.
Qed.

(** * A signed approval is accepted *)

Lemma scopes_match keys claims :
  bundle_scopes keys = encryption_scopes (caps claims) → validate_key_scopes_match_grant keys claims = Ok ().
Proof.
  intros Hs. unfold validate_key_scopes_match_grant. rewrite Hs.
  assert (∀ s, s ∈ encryption_scopes (caps claims) ↔
            ∃ cap, cap ∈ caps claims ∧ Capability_grants_encryption_keys cap = true ∧ s = scope cap) as Hin.
  { intros s. unfold encryption_scopes. rewrite list_elem_of_fmap. setoid_rewrite list_elem_of_filter. naive_solver. }
  match goal with |- context [if ?u || ?m then _ else _] => assert (u = false) as ->; [|assert (m = false) as ->; [|done]] end.
  - apply not_true_iff_false. rewrite existsb_exists. setoid_rewrite <-list_elem_of_In.
    intros (s & (cap & Hc & Hk & ->)%Hin & Hm). apply negb_true_iff, not_true_iff_false in Hm.
    apply Hm, existsb_exists. exists cap. rewrite <-list_elem_of_In, andb_true_iff, bool_decide_eq_true. done.
  - apply not_true_iff_false. rewrite existsb_exists. setoid_rewrite <-list_elem_of_In.
    intros (cap & Hc & [Hk Hm]%andb_true_iff). apply negb_true_iff, not_true_iff_false in Hm.
    apply Hm, existsb_exists. exists (scope cap). rewrite <-list_elem_of_In, bool_decide_eq_true. split; [|done].
    apply Hin. eauto.
Qed.

Lemma encryption_scopes_wf c : Forall Capability_wf c → Forall StoragePath_wf (encryption_scopes c).
Proof.
  intros Hc. unfold encryption_scopes. apply Forall_fmap. rewrite Forall_forall in *.
  intros cap [_ Hin]%list_elem_of_filter. by destruct (Hc cap Hin) as [? _].
Qed.

(** The keys an approval carries. *)
Lemma envelope_keys kp c :
  Forall Capability_wf c → ∃ keys, from_identity_secret (kp_secret kp) (encryption_scopes c) = Some keys ∧
    bundle_scopes keys = encryption_scopes c ∧
    ScopedEncryptionKeyBundle_deserialize (bundle_version keys) (bundle_keys keys) = Some (Ok keys).
Proof. intros Hc%encryption_scopes_wf. by apply identity_bundle. Qed.

Lemma decode_text_envelope kp claims :
  claims_ok claims → iss claims = kp_public_key kp →
  ∃ text keys, GrantApprovalEnvelope_sign kp claims = Some text ∧
    from_identity_secret (kp_secret kp) (encryption_scopes (caps claims)) = Some keys ∧
    Forall (λ c, 0 ≤ c < 128) text ∧
    GrantApproval_decode_text text SignedApprovalV1
    = Ok (mk_GrantApproval (sign_jws kp GRANT_JWS_TYP (claims_json claims)) claims (Some (mk_VerifiedApproval keys text))).
Proof.
  intros Hc Hi. pose proof Hc as (_ & Hcaps & _). destruct (envelope_keys kp _ Hcaps) as (keys & Hk & Hs & Hd).
  set (grant := sign_jws kp GRANT_JWS_TYP (claims_json claims)).
  destruct (envelope_bytes grant keys) as [Heb Hen]. destruct (claims_bytes claims) as [Hcb Hcn].
  exists (sign_jws kp APPROVAL_JWS_TYP (envelope_json grant keys)), keys. split_and!.
  - unfold GrantApprovalEnvelope_sign. by rewrite Hk.
  - done.
  - apply sign_jws_ascii.
  - unfold GrantApproval_decode_text. rewrite (decode_payload_signed json_approval_grant) by done. rewrite envelope_grant.
    cbn [ok_or mbind result_bind]. assert (decode_payload grant_from_slice grant = Ok claims) as ->.
    { unfold grant. rewrite decode_payload_signed by done. by rewrite claims_roundtrip. }
    cbn [ok_or mbind result_bind]. rewrite Hi.
    rewrite verify_approval_signature_signed by done. cbn [mbind result_bind]. rewrite (decode_payload_signed envelope_from_slice) by done.
    unfold envelope_from_slice. rewrite envelope_roundtrip. cbn [mbind option_bind]. rewrite Hd. cbn [ok_or mbind result_bind].
    by rewrite scopes_match.
Qed.

Lemma decode_text_grant kp claims :
  claims_ok claims →
  GrantApproval_decode_text (sign_jws kp GRANT_JWS_TYP (claims_json claims)) BareGrant
  = Ok (mk_GrantApproval (sign_jws kp GRANT_JWS_TYP (claims_json claims)) claims None).
Proof. intros Hc. unfold GrantApproval_decode_text. by rewrite GrantClaims_decode_signed. Qed.

(** ** What a request covers *)

Lemma within_refl c : within_request c c = true.
Proof.
  unfold within_request. apply forallb_forall. intros cap Hcap. apply forallb_forall. intros a Ha.
  unfold action_requested. apply existsb_exists. exists cap. split; [done|]. unfold Capability_scope_covers_path.
  rewrite covers_path_refl. by apply bool_decide_eq_true, list_elem_of_In.
Qed.

(** An approval within a request permits no more than the request. *)
Lemma within_permits requested approved path action :
  within_request requested approved = true → Capabilities_permits approved path action = true →
  Capabilities_permits requested path action = true.
Proof.
  unfold within_request, Capabilities_permits. rewrite forallb_forall, !existsb_exists.
  intros Hw (cap & Hcap & [Hp Ha%bool_decide_eq_true]%andb_true_iff).
  specialize (Hw cap Hcap). rewrite forallb_forall in Hw. specialize (Hw action (proj1 (list_elem_of_In _ _) Ha)).
  unfold action_requested in Hw. apply existsb_exists in Hw as (r & Hr & [Hs Ha']%andb_true_iff). exists r. split; [done|].
  apply andb_true_iff. split; [|done]. unfold Capability_scope_covers_path in *. by eapply covers_path_trans.
Qed.

Lemma select_exact requested approved :
  select_capabilities requested approved
  = if within_request requested (default requested approved) then Ok (default requested approved)
    else Err (lit "approved capabilities exceed the pending request").
Proof. destruct approved as [a|]; [done|]. cbn [default]. by rewrite within_refl. Qed.

(** ** Sealed messages are opened *)

Lemma decrypt_encrypt nonce m key :
  length nonce = 24%nat → m ≠ [] → decrypt (encrypt nonce m key) key = Some m.
Proof.
  intros Hn Hm. destruct m as [|x m]; [done|]. unfold encrypt, decrypt.
  destruct (nonce ++ secretbox_seal key nonce (x :: m)) as [|y l] eqn:E; [by destruct nonce|]. rewrite <-E.
  rewrite length_app. rewrite (proj2 (Nat.ltb_ge _ _)) by lia.
  rewrite <-Hn. by rewrite take_app_length, drop_app_length, secretbox_roundtrip.
Qed.

Lemma open_sealed sk r m wire :
  approval_seal r (hpke_public sk) m = Ok wire → ApprovalRecipientSecret_open sk wire = Ok m.
Proof.
  unfold approval_seal, ApprovalRecipientSecret_open. destruct (hpke_seal _ r m) as [[e c]|] eqn:E; [|done].
  cbn [ok_or mbind result_bind]. intros Hw. assert (wire = WIRE_PREFIX ++ e ++ c) as -> by congruence. clear Hw.
  destruct (hpke_roundtrip sk r m e c E) as (He & Hc & Ho). rewrite (proj2 (starts_with_spec _ WIRE_PREFIX)) by (by eexists). cbn [negb]. cbv zeta. rewrite drop_app_length.
  rewrite length_app, He. unfold ENCAPPED_LEN. rewrite (proj2 (Nat.leb_gt _ _)) by (destruct c; [done|cbn; lia]).
  rewrite <-He. by rewrite take_app_length, drop_app_length, Ho.
Qed.

(** * From the signer to the app *)

(** A request as a parsed deep link carries it. *)
Definition request_ok (p : PendingRequest) : Prop :=
  Forall Capability_wf (pr_capabilities p) ∧ ClientId_new (pr_client_id p) = Ok (pr_client_id p).

(** The app that made the request holds what opens the answer. *)
Definition holds_key (channel : GrantRelayChannel) (secret : option (list Z)) : Prop :=
  match channel, secret with
  | SharedSecret _, None => True
  | Hpke epk, Some sk => hpke_public sk = epk
  | _, _ => False
  end.

(** The claims a signer signs for a request. *)
Definition approved_claims (now : Z) (grant_id : str) (keypair : Keypair) (p : PendingRequest) (approved : option Capabilities)
    : GrantClaims :=
  mk_GrantClaims (kp_public_key keypair) (pr_client_id p) (default (pr_capabilities p) approved) (pr_client_pk p)
    grant_id now (now + DEFAULT_GRANT_LIFETIME_SECS).

(** What a signer may approve: it is the signer the request expects, the
    approved capabilities are within the requested ones, and keys are asked for
    only in the format that can carry them. *)
Definition approvable (keypair : Keypair) (p : PendingRequest) (approved : option Capabilities) : bool :=
  let caps := default (pr_capabilities p) approved in
  match pr_expected_signer p with Some e => bool_decide (e = kp_public_key keypair) | None => true end
  && within_request (pr_capabilities p) caps && validate_capabilities (pr_format p) caps.

(** Both kinds of grant link are approved in the same way. *)
Lemma approve_pending now gid rnd kp link approved p :
  pending_request link = Ok p →
  (approvable kp p approved = false ∧ ∃ e, approve_grant_deeplink now gid rnd kp link approved = Some (Err e)) ∨
  (approvable kp p approved = true ∧
     approve_grant_deeplink now gid rnd kp link approved
     = build_encrypted_grant now gid rnd kp (default (pr_capabilities p) approved) (pr_client_id p) (pr_client_pk p)
         (pr_format p) (pr_relay_channel p)).
Proof.
  intros Hp. unfold approve_grant_deeplink, check_expected_signer, approvable.
  destruct link as [l|l|l|l|l|l]; try done; injection Hp as <-;
    cbn [pr_capabilities pr_expected_signer pr_client_id pr_client_pk pr_format pr_relay_channel].
  1: destruct (sg_expected_signer (tdl_params l)) as [e|]; [case_bool_decide; cbn [negb andb]; [|left; eauto]|].
  all: rewrite select_exact; destruct (within_request _ _); cbn [andb]; [|left; eauto].
  all: unfold build_encrypted_grant; destruct (validate_capabilities _ _); cbn [negb]; [by right|left; eauto].
Qed.

(** The text a signer seals, and what the app decodes from it. *)
Lemma payload_decoded kp claims format :
  claims_ok claims → iss claims = kp_public_key kp →
  ∃ text verified,
    match format with
    | BareGrant => Some (sign_jws kp GRANT_JWS_TYP (claims_json claims))
    | SignedApprovalV1 => GrantApprovalEnvelope_sign kp claims
    end = Some text ∧
    Forall (λ c, 0 ≤ c < 128) text ∧ text ≠ [] ∧
    match format with
    | BareGrant => verified = None
    | SignedApprovalV1 => ∃ keys, verified = Some (mk_VerifiedApproval keys text) ∧
        from_identity_secret (kp_secret kp) (encryption_scopes (caps claims)) = Some keys
    end ∧
    GrantApproval_decode_text text format
    = Ok (mk_GrantApproval (sign_jws kp GRANT_JWS_TYP (claims_json claims)) claims verified).
Proof.
  intros Hc Hi. destruct format.
  - exists (sign_jws kp GRANT_JWS_TYP (claims_json claims)), None. split_and!; try done.
    + apply sign_jws_ascii.
    + unfold sign_jws, finish_jws, jws_signing_input. intros E. by destruct (base64url_encode (header_json GRANT_JWS_TYP)).
    + by apply decode_text_grant.
  - destruct (decode_text_envelope kp claims Hc Hi) as (text & keys & Hs & Hk & Ha & Hd).
    exists text, (Some (mk_VerifiedApproval keys text)). split_and!; try done; [|by exists keys].
    intros ->. vm_compute in Hd. discriminate.
Qed.

Lemma validate_key_ok channel secret : holds_key channel secret → validate_approval_key channel secret = Ok ().
Proof.
  destruct channel as [k|k], secret as [sk|]; cbn; try done. intros <-.
  unfold ApprovalRecipientSecret_matches_public_key. by rewrite bool_decide_eq_true_2.
Qed.

(** A payload is sealed, and recovered by the app. *)
Lemma sealed_recovered channel secret rnd payload :
  holds_key channel secret → length rnd = 24%nat → payload ≠ [] →
  ∃ wire message,
    match channel with
    | SharedSecret k => Ok (encrypt rnd payload k)
    | Hpke epk => approval_seal rnd epk payload
    end = Ok wire ∧
    relay_message channel wire = Some message ∧
    match secret with Some sk => ApprovalRecipientSecret_open sk message | None => Ok message end = Ok payload.
Proof.
  intros Hk Hr Hp. destruct channel as [k|epk], secret as [sk|]; cbn in Hk; try done.
  - eexists _, payload. split; [done|]. split; [|done]. by apply decrypt_encrypt.
  - subst epk. destruct (approval_seal rnd (hpke_public sk) payload) as [wire|] eqn:E.
    + exists wire, wire. split_and!; [done..|]. by eapply open_sealed.
    + unfold approval_seal in E. by destruct (hpke_seals sk rnd payload) as [[e c] E']; rewrite E' in E.
Qed.

(** An approval on its way from the signer to the app. *)
Lemma approval_received now gid rnd kp link approved p secret :
  pending_request link = Ok p → request_ok p → holds_key (pr_relay_channel p) secret →
  Forall Capability_wf (default [] approved) → RandomId_parse gid = Ok gid →
  0 ≤ now ≤ U64_MAX - DEFAULT_GRANT_LIFETIME_SECS → length rnd = 24%nat →
  if approvable kp p approved then
    let claims := approved_claims now gid kp p approved in
    ∃ wire message approval,
      approve_grant_deeplink now gid rnd kp link approved = Some (Ok wire) ∧
      relay_message (pr_relay_channel p) wire = Some message ∧
      decode_and_validate_approval message link secret = Ok approval ∧
      ga_claims approval = claims ∧
      ga_grant_jws approval = sign_jws kp GRANT_JWS_TYP (claims_json claims) ∧
      match pr_format p with
      | BareGrant => ga_verified_approval approval = None
      | SignedApprovalV1 => ∃ keys text, ga_verified_approval approval = Some (mk_VerifiedApproval keys text) ∧
          from_identity_secret (kp_secret kp) (encryption_scopes (caps claims)) = Some keys
      end ∧
      ∀ t, 0 ≤ t < now + DEFAULT_GRANT_LIFETIME_SECS → verify_grant t (ga_grant_jws approval) = Ok claims
  else ∃ e, approve_grant_deeplink now gid rnd kp link approved = Some (Err e).
Proof.
  intros Hp [Hcaps Hcid] Hk Ha Hgid Hnow Hr. set (claims := approved_claims now gid kp p approved).
  assert (0 < DEFAULT_GRANT_LIFETIME_SECS) as Hlife by done.
  assert (claims_ok claims) as Hc.
  { unfold claims, approved_claims. split_and!; cbn [client_id caps jti iat exp]; try done; try lia. by destruct approved. }
  destruct (payload_decoded kp claims (pr_format p) Hc eq_refl) as (text & verified & Htext & Hascii & Hne & Hv & Hd).
  destruct (approve_pending now gid rnd kp link approved p Hp) as [[-> He]|[Hok ->]]; [done|]. rewrite Hok.
  apply andb_true_iff in Hok as [[Hsigner Hwithin]%andb_true_iff Hval]. unfold build_encrypted_grant. rewrite Hval. cbn [negb].
  fold (approved_claims now gid kp p approved). fold claims. rewrite Htext. cbn [mbind option_bind].
  destruct (ascii_bytes text Hascii) as [-> Hutf].
  destruct (sealed_recovered (pr_relay_channel p) secret rnd text Hk Hr Hne) as (wire & message & -> & Hrelay & Hopen).
  exists wire, message, (mk_GrantApproval (sign_jws kp GRANT_JWS_TYP (claims_json claims)) claims verified).
  cbn [ga_claims ga_verified_approval ga_grant_jws]. split_and!; [done..| |done|done| |].
  - unfold decode_and_validate_approval. rewrite Hp. cbn [mbind result_bind]. rewrite validate_key_ok by done.
    cbn [mbind result_bind]. rewrite Hopen. cbn [mbind result_bind]. unfold GrantApproval_decode. rewrite Hutf.
    cbn [ok_or mbind result_bind]. rewrite Hd. cbn [mbind result_bind ga_claims].
    unfold claims, approved_claims. cbn [cnf client_id iss iat exp caps]. rewrite !bool_decide_eq_true_2 by done. cbn [negb orb].
    assert (match pr_expected_signer p with Some e => negb (bool_decide (e = kp_public_key kp)) | None => false end = false) as ->.
    { destruct (pr_expected_signer p); [|done]. by rewrite Hsigner. }
    rewrite (proj2 (Z.leb_gt _ _)) by lia. by rewrite Hwithin.
  - destruct (pr_format p); [done|]. destruct Hv as (keys & -> & Hkeys). by exists keys, text.
  - intros t Ht. apply verify_grant_signed; [done|done|]. unfold claims, approved_claims. cbn [exp]. unfold as_u64, U64_MAX in *.
    rewrite Z.mod_small by lia. lia.
Qed.

(** What a signer approves is what the app gets.  For every grant request
    and every choice of approved capabilities the signer makes an answer
    exactly if it is the expected signer and the choice is within the request
    (and keys are asked for in the format that carries them); otherwise it
    refuses, and it never fails.  The app that made the request, given the
    answer by the relay, accepts it as a grant of exactly the approved
    capabilities to itself, signed by the signer, with (where keys were asked
    for) the signer's keys of exactly the approved scopes; and the home server
    accepts the grant until it ends. *)
Theorem approval_delivered now gid rnd kp link approved p secret :
  pending_request link = Ok p → request_ok p → holds_key (pr_relay_channel p) secret →
  Forall Capability_wf (default [] approved) → RandomId_parse gid = Ok gid →
  0 ≤ now ≤ U64_MAX - DEFAULT_GRANT_LIFETIME_SECS → length rnd = 24%nat →
  if approvable kp p approved then
    let claims := approved_claims now gid kp p approved in
    ∃ wire message approval,
      approve_grant_deeplink now gid rnd kp link approved = Some (Ok wire) ∧
      relay_message (pr_relay_channel p) wire = Some message ∧
      decode_and_validate_approval message link secret = Ok approval ∧
      ga_claims approval = claims ∧
      ga_grant_jws approval = sign_jws kp GRANT_JWS_TYP (claims_json claims) ∧
      match pr_format p with
      | BareGrant => ga_verified_approval approval = None
      | SignedApprovalV1 => ∃ keys text, ga_verified_approval approval = Some (mk_VerifiedApproval keys text) ∧
          from_identity_secret (kp_secret kp) (encryption_scopes (caps claims)) = Some keys
      end ∧
      ∀ t, 0 ≤ t < now + DEFAULT_GRANT_LIFETIME_SECS → verify_grant t (ga_grant_jws approval) = Ok claims
  else ∃ e, approve_grant_deeplink now gid rnd kp link approved = Some (Err e).
Proof. apply approval_received. Qed.

(** * Whatever the relay delivers *)

Lemma scopes_matched keys claims s :
  validate_key_scopes_match_grant keys claims = Ok () → s ∈ bundle_scopes keys ↔ s ∈ encryption_scopes (caps claims).
Proof.
  unfold validate_key_scopes_match_grant.
  match goal with |- context [if ?u || ?m then _ else _] => destruct u eqn:Hu; [done|]; destruct m eqn:Hm; [done|] end.
  intros _. unfold encryption_scopes. rewrite list_elem_of_fmap. setoid_rewrite list_elem_of_filter. split.
  - intros Hs. apply not_true_iff_false in Hu. destruct (existsb (λ cap, Capability_grants_encryption_keys cap && bool_decide (scope cap = s)) (caps claims)) eqn:E.
    + apply existsb_exists in E as (cap & Hc & [Hk <-%bool_decide_eq_true]%andb_true_iff). exists cap.
      by rewrite list_elem_of_In.
    + destruct Hu. apply existsb_exists. exists s. split; [by apply list_elem_of_In|]. by rewrite E.
  - intros (cap & -> & Hk & Hc). apply not_true_iff_false in Hm.
    destruct (existsb (λ s, bool_decide (s = scope cap)) (bundle_scopes keys)) eqn:E.
    + apply existsb_exists in E as (s & Hs & ->%bool_decide_eq_true). by apply list_elem_of_In.
    + destruct Hm. apply existsb_exists. exists cap. split; [by apply list_elem_of_In|]. by rewrite Hk, E.
Qed.

Lemma signature_verified text issuer :
  verify_approval_signature text issuer = Ok () →
  ∃ input sig_text signature, text = input ++ GrantTokens.DOT :: sig_text ∧ base64url_decode sig_text = Some signature ∧
    length signature = 64%nat ∧ key_verify issuer input signature = true.
Proof.
  unfold verify_approval_signature, jws_parts. destruct (rsplit_once _ text) as [[input sig_text]|] eqn:E; [|done].
  cbn [ok_or mbind result_bind]. destruct (split_once _ input) as [[h p]|]; [|done]. cbn [ok_or mbind result_bind].
  destruct (_ || _); [done|]. cbn [mbind result_bind]. destruct (base64url_decode h) as [hb|]; [|done]. cbn [ok_or mbind result_bind].
  destruct (json_header hb) as [[alg typ]|]; [|done]. cbn [ok_or mbind result_bind]. destruct (_ || _); [done|].
  destruct (base64url_decode sig_text) as [sg|] eqn:Es; [|done]. cbn [ok_or mbind result_bind].
  destruct (Nat.eqb_spec (length sg) 64) as [Hl|]; [|done]. cbn [negb]. destruct (key_verify issuer input sg) eqn:Hv; [|done].
  intros _. exists input, sig_text, sg. split_and!; try done. unfold rsplit_once in E.
  destruct (split_once _ (reverse text)) as [[a b]|] eqn:Er; [|done]. injection E as <- <-.
  apply split_once_spec in Er as [Er _]. apply (f_equal reverse) in Er. rewrite reverse_involutive in Er.
  by rewrite Er, reverse_app, reverse_cons, <-app_assoc.
Qed.

(** The decoded approval, by format. *)
Lemma decode_text_inv text format a :
  GrantApproval_decode_text text format = Ok a →
  match format with
  | BareGrant =>
      ga_verified_approval a = None ∧ ga_grant_jws a = text ∧ GrantClaims_decode text = Ok (ga_claims a)
  | SignedApprovalV1 =>
      verify_approval_signature text (iss (ga_claims a)) = Ok () ∧
      decode_payload grant_from_slice (ga_grant_jws a) = Ok (ga_claims a) ∧
      ∃ keys, ga_verified_approval a = Some (mk_VerifiedApproval keys text) ∧
        decode_payload envelope_from_slice text = Ok (ga_grant_jws a, keys) ∧
        validate_key_scopes_match_grant keys (ga_claims a) = Ok ()
  end.
Proof.
  unfold GrantApproval_decode_text. destruct format.
  - destruct (GrantClaims_decode text) as [c|] eqn:E; [|done]. cbn. by intros [= <-].
  - destruct (decode_payload json_approval_grant text) as [g|] eqn:E1; [|done]. cbn [mbind result_bind].
    destruct (decode_payload grant_from_slice g) as [c|] eqn:E2; [|done]. cbn [mbind result_bind].
    destruct (verify_approval_signature text (iss c)) as [[]|] eqn:E3; [|done]. cbn [mbind result_bind].
    destruct (decode_payload envelope_from_slice text) as [[g' keys]|] eqn:E4; [|done]. cbn [mbind result_bind].
    destruct (validate_key_scopes_match_grant keys c) as [[]|] eqn:E5; [|done]. intros [= <-]. cbn.
    assert (g' = g) as ->; [|eauto 8]. unfold decode_payload in E1, E4. destruct (jws_parts text) as [[[h p] sg]|]; [|done].
    cbn [mbind result_bind] in E1, E4. destruct (base64url_decode p) as [b|]; [|done]. cbn [ok_or mbind result_bind] in E1, E4.
    destruct (json_approval_grant b) as [g0|] eqn:Eg; [|done]. injection E1 as <-. unfold envelope_from_slice in E4.
    destruct (json_envelope b) as [[[g1 v] ks]|] eqn:Ee; [|done]. cbn [mbind option_bind] in E4.
    destruct (ScopedEncryptionKeyBundle_deserialize v ks) as [[bd|]|]; [|done..]. injection E4 as <- <-.
    by eapply envelope_one_grant.
Qed.

(** The delivered bytes are a message sealed for the request, and [plain] is
    what the app's key opens it to. *)
Definition unsealed (channel : GrantRelayChannel) (secret : option (list Z)) (delivered plain : list Z) : Prop :=
  match channel, secret with
  | SharedSecret key, None => ∃ nonce sealed,
      delivered = nonce ++ sealed ∧ length nonce = 24%nat ∧ secretbox_open key nonce sealed = Some plain
  | Hpke epk, Some sk => hpke_public sk = epk ∧ ∃ encapped sealed,
      delivered = WIRE_PREFIX ++ encapped ++ sealed ∧ length encapped = ENCAPPED_LEN ∧
      hpke_open sk encapped sealed = Some plain
  | _, _ => False
  end.

Lemma opened_inv sk wire plain :
  ApprovalRecipientSecret_open sk wire = Ok plain →
  ∃ encapped sealed, wire = WIRE_PREFIX ++ encapped ++ sealed ∧ length encapped = ENCAPPED_LEN ∧
    hpke_open sk encapped sealed = Some plain.
Proof.
  unfold ApprovalRecipientSecret_open. destruct (starts_with wire WIRE_PREFIX) eqn:E; [|done].
  apply starts_with_spec in E as [body ->]. cbn [negb]. rewrite drop_app_length.
  destruct (Nat.leb_spec (length body) ENCAPPED_LEN); [done|].
  destruct (hpke_open _ _ _) as [m|] eqn:Ho; [|done]. intros [= <-].
  exists (take ENCAPPED_LEN body), (drop ENCAPPED_LEN body). rewrite take_drop, length_take. split_and!; [done|lia|done].
Qed.

(** What the app decodes was sealed for its request. *)
Lemma decoded_unsealed channel secret delivered message plain :
  relay_message channel delivered = Some message → validate_approval_key channel secret = Ok () →
  match secret with Some sk => ApprovalRecipientSecret_open sk message | None => Ok message end = Ok plain →
  plain ≠ [] → unsealed channel secret delivered plain.
Proof.
  destruct channel as [k|k], secret as [sk|]; cbn; try done.
  - intros Hm _ [= <-] Hne. destruct delivered as [|x l]; [by injection Hm as <-|]. unfold decrypt in Hm.
    destruct (Nat.ltb_spec (length (x :: l)) 24); [done|]. exists (take 24 (x :: l)), (drop 24 (x :: l)).
    rewrite take_drop, length_take. split_and!; [done|lia|done].
  - intros [= ->] Hk Ho%opened_inv _. split; [|done]. unfold ApprovalRecipientSecret_matches_public_key in Hk.
    by destruct (bool_decide_reflect (hpke_public sk = k)).
Qed.

Lemma decoded_not_empty plain format a : GrantApproval_decode plain format = Ok a → plain ≠ [].
Proof. intros Hd ->. by destruct format. Qed.

(** (C31) An app is not fooled by what it receives.  Whatever bytes the relay,
    or anyone who can write to it, delivers: if the app accepts them in answer
    to its request, they are a message that opens under the key the request
    named for the answer (the secret shared in the link, or the key pair whose
    public half is in it) and the approval is what this message says; the grant
    is for the app's own key and identity, was issued by the key the request
    expected (where it did), has a positive lifetime and permits nothing the
    request did not ask for; and where encryption keys were asked for, the
    message carries a signature of the grant's issuer over the grant and the
    keys, and there is a key for exactly the approved scopes. *)
Theorem approval_sound delivered message link secret approval p :
  pending_request link = Ok p → relay_message (pr_relay_channel p) delivered = Some message →
  decode_and_validate_approval message link secret = Ok approval →
  let claims := ga_claims approval in
  cnf claims = pr_client_pk p ∧ client_id claims = pr_client_id p ∧ iat claims < exp claims ∧
  (∀ k, pr_expected_signer p = Some k → iss claims = k) ∧
  (∀ path action, Capabilities_permits (caps claims) path action = true →
     Capabilities_permits (pr_capabilities p) path action = true) ∧
  ∃ plain text, unsealed (pr_relay_channel p) secret delivered plain ∧ from_utf8 plain = Some text ∧
    match pr_format p with
    | BareGrant =>
        ga_verified_approval approval = None ∧ ga_grant_jws approval = text ∧ GrantClaims_decode text = Ok claims
    | SignedApprovalV1 => ∃ keys input sig_text signature,
        text = input ++ GrantTokens.DOT :: sig_text ∧
        ga_verified_approval approval = Some (mk_VerifiedApproval keys text) ∧
        base64url_decode sig_text = Some signature ∧ key_verify (iss claims) input signature = true ∧
        decode_payload envelope_from_slice text = Ok (ga_grant_jws approval, keys) ∧
        decode_payload grant_from_slice (ga_grant_jws approval) = Ok claims ∧
        ∀ s, s ∈ bundle_scopes keys ↔ s ∈ encryption_scopes (caps claims)
    end.
Proof.
  intros Hp Hm. unfold decode_and_validate_approval. rewrite Hp. cbn [mbind result_bind].
  destruct (validate_approval_key _ secret) as [[]|] eqn:Hk; [|done]. cbn [mbind result_bind].
  destruct (match secret with Some _ => _ | None => _ end) as [m|] eqn:Hopen; [|done]. cbn [mbind result_bind].
  destruct (GrantApproval_decode m _) as [a|] eqn:Hd; [|done]. cbn [mbind result_bind].
  destruct (bool_decide_reflect (cnf (ga_claims a) = pr_client_pk p)) as [Hcnf|]; [|done].
  destruct (bool_decide_reflect (client_id (ga_claims a) = pr_client_id p)) as [Hcid|]; [|done]. cbn [negb orb].
  destruct (match pr_expected_signer p with Some _ => _ | None => _ end) eqn:Hsig; [done|].
  destruct (Z.leb_spec (exp (ga_claims a)) (iat (ga_claims a))); [done|].
  destruct (within_request _ _) eqn:Hw; [|done]. cbn [negb]. intros [= <-].
  pose proof (decoded_unsealed _ _ _ _ _ Hm Hk Hopen (decoded_not_empty _ _ _ Hd)) as Hun.
  unfold GrantApproval_decode in Hd. destruct (from_utf8 m) as [text|] eqn:Hu; [|done]. cbn [ok_or mbind result_bind] in Hd.
  split_and!; try done.
  - intros k E. rewrite E in Hsig. by destruct (bool_decide_reflect (k = iss (ga_claims a))).
  - intros path action. by apply within_permits.
  - exists m, text. split_and!; [done..|].
    apply decode_text_inv in Hd. destruct (pr_format p); [done|]. destruct Hd as (Hs & Hg & keys & Hv & He & Hsc).
    apply signature_verified in Hs as (input & st & sg & -> & Hb & _ & Hver).
    exists keys, input, st, sg. split_and!; try done. intros s. by apply scopes_matched.
Qed.

End Approval.

(** * Witnesses *)

(** A value as bytes: the bits of its code. *)
Fixpoint pos_bits (p : positive) : list Z :=
  match p with xH => [2] | xO p => 0 :: pos_bits p | xI p => 1 :: pos_bits p end.
Fixpoint bits_pos (l : list Z) : option positive :=
  match l with
  | [] => None
  | b :: l =>
      if b =? 2 then if bool_decide (l = []) then Some xH else None
      else p ← bits_pos l; Some (if b =? 0 then xO p else xI p)
  end.
Definition to_bytes `{Countable A} (a : A) : list Z := pos_bits (encode a).
Definition of_bytes `{Countable A} (l : list Z) : option A := p ← bits_pos l; decode p.

Lemma bits_roundtrip p : bits_pos (pos_bits p) = Some p.
Proof. induction p as [p IH|p IH|]; cbn; by rewrite ?IH. Qed.
Lemma of_to_bytes `{Countable A} (a : A) : of_bytes (to_bytes a) = Some a.
Proof. unfold of_bytes, to_bytes. rewrite bits_roundtrip. cbn. apply decode_encode. Qed.
Lemma to_bytes_ok `{Countable A} (a : A) : Forall (λ x, 0 ≤ x < 256) (to_bytes a) ∧ to_bytes a ≠ [].
Proof.
  unfold to_bytes. generalize (encode a) as p. intros p. split; [|by destruct p].
  induction p as [p IH|p IH|]; cbn; constructor; (lia || done || by constructor).
Qed.

Definition grant_fields (c : GrantClaims (H := demo_keys)) : str * str * list str * str * str * Z * Z :=
  (demo_z32 (iss c), client_id c, map Capability_fmt (caps c), demo_z32 (cnf c), jti c, iat c, exp c).

#[local] Instance bits_signing : @Signing demo_keys := {|
  Keypair := bool;
  kp_public_key b := b;
  kp_secret b := repeat (if b then 1 else 2) 32;
  kp_from_secret s := bool_decide (s = repeat 1 32);
  kp_sign b _ := repeat (if b then 1 else 2) 64;
  key_verify b _ s := bool_decide (s = repeat (if b then 1 else 2) 64)
|}.

Lemma repeat_byte (x : Z) n : 0 ≤ x < 256 → Forall (λ x, 0 ≤ x < 256) (repeat x n).
Proof. intros Hx. apply Forall_forall. by intros y ->%list_elem_of_In%repeat_spec. Qed.

#[local] Instance bits_signing_laws : SigningLaws.
Proof.
  split; cbn [kp_public_key kp_secret kp_from_secret kp_sign key_verify bits_signing].
  - intros kp _. by apply bool_decide_eq_true.
  - intros kp _. rewrite repeat_length. split; [done|]. apply repeat_byte. by destruct kp.
  - intros kp. split; [apply repeat_length|]. apply repeat_byte. by destruct kp.
  - intros []; [by apply bool_decide_eq_true|by apply bool_decide_eq_false].
Qed.

#[local] Instance bits_jws : @Jws demo_keys := {|
  base64url_decode := letters_decode;
  json_grant b :=
    '(i, ci, cs, cn, j, ia, ex) ← of_bytes b; Some (mk_GrantJson i ci cs cn j ia ex);
  json_pop b := '(a, g, n, i) ← of_bytes b; Some (mk_PopJson a g n i);
  jwt_decode c k :=
    match splitn 3 GrantTokens.DOT c with
    | [h; p; s] =>
        sg ← letters_decode s;
        if key_verify (Signing := bits_signing) k (h ++ [GrantTokens.DOT] ++ p) sg then letters_decode p else None
    | _ => None
    end;
  jwt_typ c := match splitn 3 GrantTokens.DOT c with h :: _ => b ← letters_decode h; Some (of_bytes b) | _ => None end
|}.

#[local] Instance bits_base64 : Base64Url := {| base64url_encode := letters_encode |}.
#[local] Instance bits_base64_laws : Base64UrlLaws.
Proof.
  split; [apply letters_roundtrip| |by intros [|x b]]. intros b. apply forallb_forall.
  intros c Hc%list_elem_of_In%letters_range. unfold is_base64url. lia.
Qed.

#[local] Instance bits_json : ApprovalJson := {|
  header_json typ := to_bytes typ;
  claims_json c := to_bytes (grant_fields c);
  envelope_json g b := to_bytes (g, map (λ e, (as_str (ke_scope e), ke_secret e)) (bundle_keys b));
  json_header b := typ ← of_bytes b; Some (lit "EdDSA", typ);
  json_approval_grant b := fst <$> of_bytes (A := str * list (str * list Z)) b;
  json_envelope b :=
    '(g, ks) ← of_bytes (A := str * list (str * list Z)) b;
    Some (g, V1, map (λ k, mk_KeyEntry (mk_StoragePath k.1) k.2) ks)
|}.

#[local] Instance bits_json_laws : ApprovalJsonLaws.
Proof.
  split; cbn [header_json claims_json envelope_json json_header json_approval_grant json_envelope bits_json].
  - intros typ. apply to_bytes_ok.
  - intros typ. by rewrite of_to_bytes.
  - intros c. apply to_bytes_ok.
  - intros c (Hci & Hcaps & Hj & Hi & He). unfold grant_from_slice. cbn [json_grant bits_jws]. rewrite of_to_bytes.
    cbn [mbind option_bind grant_fields]. unfold GrantClaims_deserialize. cbn [j_iss j_client_id j_caps j_cnf j_jti j_iat j_exp].
    change (PublicKey_try_from_z32 (demo_z32 (iss c))) with (pkarr_try_from (pkarr_to_string (iss c))).
    change (PublicKey_try_from_z32 (demo_z32 (cnf c))) with (pkarr_try_from (pkarr_to_string (cnf c))).
    rewrite !pkarr_roundtrip. cbn [ok mbind option_bind]. rewrite Hci. cbn [ok mbind option_bind].
    rewrite map_map, (collect_results_map_ok _ id).
    + rewrite map_id. cbn [ok mbind option_bind]. rewrite Hj. cbn [ok mbind option_bind]. unfold U64_in_range.
      rewrite !(proj2 (Z.leb_le _ _)) by lia. by destruct c.
    + intros cap Hcap. rewrite Forall_forall in Hcaps. by apply Capability_parse_fmt, Hcaps.
  - intros g b. apply to_bytes_ok.
  - intros g b. by rewrite of_to_bytes.
  - intros g [[] ks]. rewrite of_to_bytes. cbn. do 2 f_equal. rewrite map_map. rewrite <-(map_id ks) at 2.
    apply map_ext. by intros [[] ?].
  - intros bytes g g' v keys. destruct (of_bytes bytes) as [[g0 ks]|]; cbn; [|done]. intros [= <-] E. by injection E as <-.
Qed.

#[local] Instance plain_sealing : Sealing := {|
  secretbox_seal _ _ m := m;
  secretbox_open _ _ c := Some c;
  hpke_public sk := sk;
  hpke_seal _ _ m := Some (repeat 0 32, 9 :: m);
  hpke_open _ _ c := Some (tail c)
|}.
#[local] Instance plain_sealing_laws : SealingLaws.
Proof. split; cbn; [done|by intros; eexists|]. by intros sk r m e c [= <- <-]. Qed.

Lemma letters_no_dot b : GrantTokens.DOT ∉ letters_encode b.
Proof. intros Hc%letters_range. unfold GrantTokens.DOT in Hc. lia. Qed.

#[local] Instance bits_tokens : SignedTokens.
Proof.
  assert (∀ kp typ bytes, splitn 3 GrantTokens.DOT (sign_jws kp typ bytes)
            = [letters_encode (to_bytes typ); letters_encode bytes; letters_encode (kp_sign kp [])]) as Hs.
  { intros kp typ bytes. unfold sign_jws, finish_jws, jws_signing_input. rewrite <-app_assoc. cbn [splitn].
    rewrite (proj2 (split_once_spec _ (_ ++ _) (letters_encode (to_bytes typ)) (letters_encode bytes ++ [GrantTokens.DOT] ++ letters_encode (kp_sign kp []))));
      [|split; [done|apply letters_no_dot]].
    by rewrite (proj2 (split_once_spec _ (_ ++ _) (letters_encode bytes) (letters_encode (kp_sign kp []))))
      by (split; [done|apply letters_no_dot]). }
  split.
  - intros kp typ bytes Hb. cbn [jwt_decode bits_jws]. rewrite Hs.
    rewrite (letters_roundtrip (kp_sign kp [])) by apply (sign_length (H0 := bits_signing) kp []). cbn [mbind option_bind key_verify bits_signing].
    rewrite bool_decide_eq_true_2 by done. by apply letters_roundtrip.
  - intros kp typ bytes. cbn [jwt_typ bits_jws]. rewrite Hs. rewrite letters_roundtrip by apply to_bytes_ok. cbn [mbind option_bind].
    by rewrite of_to_bytes.
Qed.

#[local] Instance chain_hkdf : Hkdf := {| hkdf_extract s := s; hkdf_expand s infos := s ++ concat infos |}.

(** An app asks for read access and the keys of a private folder. *)
Abbreviation app_request_caps :=
  [mk_Capability (mk_StoragePath (lit "/priv/app/")) [Read; EncryptionKeys]].
Abbreviation app_request :=
  (SigninGrant (H := demo_keys) (mk_TypedDeepLink PubkyRing
     (mk_SigninGrantParams (H := demo_keys) app_request_caps (lit "https://relay.example/inbox/") (Hpke (repeat 7 32))
        (lit "app.example") false SignedApprovalV1 (Some true))
     XCallbackParams_default)).
Abbreviation app_pending :=
  (mk_PendingRequest (H := demo_keys) (lit "app.example") false app_request_caps SignedApprovalV1 (Hpke (repeat 7 32)) (Some true)).

Lemma app_request_caps_wf : Forall Capability_wf app_request_caps.
Proof. apply (Capabilities_from_str_wf (lit "/priv/app/:re")). vm_compute. reflexivity. Qed.

Lemma approval_delivered_witness :
  approvable (H := demo_keys) (H2 := bits_signing) true app_pending None = true ∧
  ∃ wire message approval,
    approve_grant_deeplink (H := demo_keys) (H1 := bits_base64) 1000 (lit "grant-1") (repeat 0 24) true app_request None = Some (Ok wire) ∧
    relay_message (Hpke (repeat 7 32)) wire = Some message ∧
    decode_and_validate_approval (H := demo_keys) (H0 := bits_jws) message app_request (Some (repeat 7 32)) = Ok approval ∧
    iss (ga_claims approval) = true.
Proof.
  assert (approvable (H := demo_keys) (H2 := bits_signing) true app_pending None = true) as Hok by reflexivity.
  split; [exact Hok|].
  pose proof (approval_delivered (H := demo_keys) (H0 := bits_jws) (H1 := bits_base64) (H2 := bits_signing) (H3 := bits_json)
              1000 (lit "grant-1") (repeat 0 24) true app_request None app_pending (Some (repeat 7 32))) as Hd.
  rewrite Hok in Hd. destruct Hd as (w & m & a & Hw & Hm & Ha & Hc & _).
  - reflexivity.
  - split; [exact app_request_caps_wf|reflexivity].
  - reflexivity.
  - constructor.
  - reflexivity.
  - vm_compute. split; discriminate.
  - reflexivity.
  - exists w, m, a. split_and!; [exact Hw|exact Hm|exact Ha|]. rewrite Hc. reflexivity.
Defined.

(** A bare grant, as an app receives it. *)
Local Abbreviation demo_bare :=
  (SigninGrant (H := demo_keys) (mk_TypedDeepLink PubkyRing
     (mk_SigninGrantParams (H := demo_keys) [mk_Capability (mk_StoragePath (lit "/pub/")) [Read]] (lit "https://relay.example/inbox/")
        (SharedSecret (repeat 7 32)) (lit "app.example") false BareGrant None)
     XCallbackParams_default)).
Local Abbreviation demo_bare_pending :=
  (mk_PendingRequest (H := demo_keys) (lit "app.example") false [mk_Capability (mk_StoragePath (lit "/pub/")) [Read]]
     BareGrant (SharedSecret (repeat 7 32)) None).
Local Abbreviation demo_claims :=
  (mk_GrantClaims (H := demo_keys) true (lit "app.example") [mk_Capability (mk_StoragePath (lit "/pub/")) [Read]] false (lit "grant-1") 1000 2000).
Local Abbreviation demo_grant_jws :=
  (sign_jws (H := demo_keys) (H1 := bits_base64) (H2 := bits_signing) true GRANT_JWS_TYP (claims_json demo_claims)).

Lemma demo_bare_accepted :
  decode_and_validate_approval (H := demo_keys) (H0 := bits_jws) (H4 := chain_hkdf) demo_grant_jws demo_bare None
  = Ok (mk_GrantApproval (H := demo_keys) demo_grant_jws demo_claims None).
Proof.
  assert (claims_ok demo_claims) as Hc.
  { split_and!; try done. apply (Capabilities_from_str_wf (lit "/pub/:r")). vm_compute. reflexivity. }
  pose proof (decode_text_grant (H := demo_keys) (H0 := bits_jws) (H1 := bits_base64) true demo_claims Hc) as Hd.
  assert (from_utf8 demo_grant_jws = Some demo_grant_jws) as Hu.
  { apply ascii_bytes. apply (sign_jws_ascii (H := demo_keys) (H1 := bits_base64)). }
  unfold decode_and_validate_approval. cbn [pending_request mbind result_bind validate_approval_key pr_relay_channel tdl_params sg_relay_channel].
  unfold GrantApproval_decode. rewrite Hu. cbn [ok_or mbind result_bind pr_format sg_approval_format]. rewrite Hd. reflexivity.
Qed.

(** The grant sealed with the secret of the link. *)
Local Abbreviation demo_delivered := (encrypt (repeat 0 24) demo_grant_jws (repeat 7 32)).

Lemma approval_sound_witness :
  decode_and_validate_approval (H := demo_keys) (H0 := bits_jws) (H4 := chain_hkdf) demo_grant_jws demo_bare None
  = Ok (mk_GrantApproval (H := demo_keys) demo_grant_jws demo_claims None) ∧
  iat demo_claims < exp demo_claims ∧
  ∃ plain, unsealed (SharedSecret (repeat 7 32)) None demo_delivered plain.
Proof.
  split; [exact demo_bare_accepted|].
  assert (relay_message (SharedSecret (repeat 7 32)) demo_delivered = Some demo_grant_jws) as Hm.
  { apply decrypt_encrypt; [reflexivity|]. unfold sign_jws, finish_jws, jws_signing_input. intros E.
    by destruct (base64url_encode (header_json GRANT_JWS_TYP)). }
  destruct (approval_sound (H := demo_keys) (H0 := bits_jws) (H2 := bits_signing) demo_delivered demo_grant_jws demo_bare
              None _ demo_bare_pending eq_refl Hm demo_bare_accepted) as (_ & _ & Ht & _ & _ & plain & text & Hu & _).
  split; [exact Ht|]. exists plain. exact Hu.
Defined.
