(* ===== verification/SdkRelay.v ===== *)
(** The relay an approval travels over ([pubky-sdk/src/actors/auth/relay/] and
    [pubky-sdk/src/util.rs]): reading bounded response bodies, polling an inbox
    or a link until a message arrives, acknowledging it, and the listener that
    a pending flow holds on to.

    What a request comes to belongs to [reqwest] and the relay: the answers are
    a list, in order, each with the milliseconds it takes.  Where the list ends
    the program is still waiting ([None]).  URLs belong to the [url] crate
    ([RelayUrls]). *)

From S2P Require Import Prelude StoragePath Capabilities Keys GrantTokens HttpError Quota Database Users Entries EntryLocks Events Finalization.
From S2P Require Import AppState LockRoutes Uploads EncryptionKeys DeepLinks SdkApproval.

(** * Responses *)

Inductive SdkError :=
| RequestFailed
| RequestServer (status : Z) (message : str)
| AuthValidation (message : str)
| AuthRequestExpired
| UrlParse
| Undecryptable.

#[export] Instance SdkError_eq_dec : EqDecision SdkError.
Proof. solve_decision. Defined.

(** A response: its status, the length it declares, and its body as it
    arrives; [Err] is a broken transport. *)
Record Response := mk_Response {
  rp_status : Z;
  rp_content_length : option Z;
  rp_chunks : list (result () (list Z))
}.

Inductive ResponseBodyError := TooLarge | TransportError.

Fixpoint read_chunks (max_bytes : Z) (body : list Z) (chunks : list (result () (list Z)))
    : result ResponseBodyError (list Z) :=
  match chunks with
  | [] => Ok body
  | Err _ :: _ => Err TransportError
  | Ok chunk :: chunks =>
      if max_bytes - Z.of_nat (length body) <? Z.of_nat (length chunk) then Err TooLarge
      else read_chunks max_bytes (body ++ chunk) chunks
  end.

Definition read_response_body (response : Response) (max_bytes : Z) : result ResponseBodyError (list Z) :=
  if match rp_content_length response with Some length => max_bytes <? length | None => false end
  then Err TooLarge
  else read_chunks max_bytes [] (rp_chunks response).

Definition MAX_RELAY_BODY_BYTES : Z := 1024 * 1024.

Definition relay_too_large : SdkError :=
  AuthValidation (lit "Auth relay response exceeds the 1048576-byte limit").

Definition read_relay_body (response : Response) : result SdkError (list Z) :=
  map_err (λ e, match e with TooLarge => relay_too_large | TransportError => RequestFailed end)
    (read_response_body response MAX_RELAY_BODY_BYTES).

(** Decoding of error bodies: [String::from_utf8_lossy] and
    [StatusCode::canonical_reason]. *)
Class ErrorTexts := {
  from_utf8_lossy : list Z → str;
  canonical_reason : Z → option str;
}.

Definition BOM : list Z := [239; 187; 191].

Fixpoint read_error_chunks (limit : Z) (body : list Z) (chunks : list (result () (list Z)))
    : result () (list Z * bool) :=
  match chunks with
  | [] => Ok (body, false)
  | Err _ :: _ => Err ()
  | Ok chunk :: chunks =>
      let remaining := limit - Z.of_nat (length body) in
      let body := body ++ take (Z.to_nat (Z.min (Z.of_nat (length chunk)) remaining)) chunk in
      if remaining <? Z.of_nat (length chunk) then Ok (body, true) else read_error_chunks limit body chunks
  end.

Definition read_error_message `{ErrorTexts} (limit : Z) (response : Response) : result () str :=
  '(body, truncated) ← read_error_chunks limit [] (rp_chunks response);
  let body := default body (strip_prefix body BOM) in
  let message := from_utf8_lossy body in
  Ok (if (truncated : bool)
      then message ++ [10] ++ lit "[response body truncated at " ++ show_uint limit ++ lit " bytes]"
      else message).

Definition is_success (status : Z) : bool := (200 <=? status) && (status <? 300).

Definition status_reason `{ErrorTexts} (status : Z) : str := default (lit "Unknown Error") (canonical_reason status).

Definition check_http_status `{ErrorTexts} (max_error_body_bytes : Z) (response : Response) : result SdkError Response :=
  if is_success (rp_status response) then Ok response
  else
    let message := if max_error_body_bytes =? 0 then None else ok (read_error_message max_error_body_bytes response) in
    Err (RequestServer (rp_status response) (default (status_reason (rp_status response)) message)).

(** * Channels *)

(** [Url]: [cannot_be_a_base], [path], and [path_segments_mut] with
    [pop_if_empty] and [push]. *)
Class RelayUrls := {
  cannot_be_a_base : str → bool;
  url_path : str → str;
  push_segment : str → str → str;
}.

(** What a request comes to. *)
Inductive Reply :=
| NotSent
| TimedOut
| Unreachable
| Answer (response : Response).

(** [RequestBuilder::timeout]: an answer that takes longer is not waited for. *)
Definition reply_within (timeout : option Z) (reply : Z * Reply) : Z * Reply :=
  match timeout with
  | Some t => if t <? reply.1 then (t, TimedOut) else reply
  | None => reply
  end.

Inductive PollError := PollTimeout | PollFailure (e : SdkError).

Section Relay.
Context `{ErrorTexts, RelayUrls, ContentTools, PkarrKeys, !Jws, !Base64Url, Sealing} (max_error_body_bytes : Z).

Definition HTTP_REQUEST_TIMEOUT : Z := 408.

(** [poll_once] of the inbox, and of the link, which knows no 408. *)
Definition inbox_poll_once (reply : Reply) : result PollError Response :=
  match reply with
  | NotSent | Unreachable => Err (PollFailure RequestFailed)
  | TimedOut => Err PollTimeout
  | Answer response =>
      if rp_status response =? HTTP_REQUEST_TIMEOUT then Err PollTimeout
      else map_err PollFailure (check_http_status max_error_body_bytes response)
  end.

Definition link_poll_once (reply : Reply) : result PollError Response :=
  match reply with
  | NotSent | Unreachable => Err (PollFailure RequestFailed)
  | TimedOut => Err PollTimeout
  | Answer response => map_err PollFailure (check_http_status max_error_body_bytes response)
  end.

Definition MAX_FAILURES : nat := 3.

(** [poll]: the answers still to come and the result. *)
Definition Polled : Type := option (result SdkError (option (list Z)) * list (Z * Reply)).

Fixpoint inbox_poll_loop (timeout : option Z) (elapsed : Z) (consecutive_failures : nat) (replies : list (Z * Reply)) : Polled :=
  if match timeout with Some t => t <=? elapsed | None => false end then Some (Ok None, replies)
  else
    match replies with
    | [] => None
    | reply :: rest =>
        let '(took, answer) := reply_within ((λ t, Z.max 0 (t - elapsed)) <$> timeout) reply in
        match inbox_poll_once answer with
        | Ok response => Some (body ← read_relay_body response; Ok (Some body), rest)
        | Err PollTimeout => inbox_poll_loop timeout (elapsed + took) 0 rest
        | Err (PollFailure e) =>
            let consecutive_failures := S consecutive_failures in
            if (MAX_FAILURES <=? consecutive_failures)%nat then Some (Err e, rest)
            else inbox_poll_loop timeout (elapsed + took) consecutive_failures rest
        end
    end.

(** The counter of the link is not reset by a timeout. *)
Fixpoint link_poll_loop (timeout : option Z) (elapsed : Z) (consecutive_failures : nat) (replies : list (Z * Reply)) : Polled :=
  if match timeout with Some t => t <=? elapsed | None => false end then Some (Ok None, replies)
  else
    match replies with
    | [] => None
    | reply :: rest =>
        let '(took, answer) := reply_within ((λ t, Z.max 0 (t - elapsed)) <$> timeout) reply in
        match link_poll_once answer with
        | Ok response => Some (body ← read_relay_body response; Ok (Some body), rest)
        | Err PollTimeout => link_poll_loop timeout (elapsed + took) consecutive_failures rest
        | Err (PollFailure e) =>
            let consecutive_failures := S consecutive_failures in
            if (MAX_FAILURES <=? consecutive_failures)%nat then Some (Err e, rest)
            else link_poll_loop timeout (elapsed + took) consecutive_failures rest
        end
    end.

Definition HttpRelayInboxChannel_poll (timeout : option Z) (replies : list (Z * Reply)) : Polled :=
  inbox_poll_loop timeout 0 0 replies.
Definition HttpRelayLinkChannel_poll (timeout : option Z) (replies : list (Z * Reply)) : Polled :=
  link_poll_loop timeout 0 0 replies.

(** [produce], for the request the signer makes too: the answer to a [POST]. *)
Definition HttpRelayInboxChannel_produce (reply : Reply) : result SdkError () :=
  match reply with
  | Answer response => check_http_status max_error_body_bytes response ;; Ok ()
  | NotSent | TimedOut | Unreachable => Err RequestFailed
  end.

Definition HttpRelayInboxChannel_ack (reply : Reply) : result SdkError bool :=
  match reply with
  | Answer response =>
      if rp_status response =? 200 then Ok true
      else if rp_status response =? 404 then Ok false
      else check_http_status max_error_body_bytes response ;; Ok false
  | NotSent | TimedOut | Unreachable => Err RequestFailed
  end.

(** [response.text()] of the status body. *)
Fixpoint all_chunks (chunks : list (result () (list Z))) : result SdkError (list Z) :=
  match chunks with
  | [] => Ok []
  | Err _ :: _ => Err RequestFailed
  | Ok c :: chunks => rest ← all_chunks chunks; Ok (c ++ rest)
  end.

Definition HttpRelayInboxChannel_check_ack (reply : Reply) : result SdkError (option bool) :=
  match reply with
  | Answer response =>
      if rp_status response =? 200 then
        body ← all_chunks (rp_chunks response);
        Ok (Some (bool_decide (trim (from_utf8_lossy body) = lit "true")))
      else if rp_status response =? 404 then Ok None
      else check_http_status max_error_body_bytes response ;; Ok None
  | NotSent | TimedOut | Unreachable => Err RequestFailed
  end.

Definition HttpRelayInboxChannel_await_ack (timeout : option Z) (reply : Z * Reply) : result SdkError (option bool) :=
  match (reply_within timeout reply).2 with
  | Answer response =>
      if rp_status response =? 200 then Ok (Some true)
      else if rp_status response =? HTTP_REQUEST_TIMEOUT then Ok (Some false)
      else if rp_status response =? 404 then Ok None
      else check_http_status max_error_body_bytes response ;; Ok None
  | TimedOut => Ok (Some false)
  | NotSent | Unreachable => Err RequestFailed
  end.

(** * Listening *)

Definition crypto_hash (bytes : list Z) : Hash := hasher_finalize (hasher_update bytes hasher_default).

Definition HPKE_RELAY_CHANNEL_DOMAIN : list Z := lit "pubky-grant-relay-channel-v1" ++ [0].

Definition http_channel_id (channel : GrantRelayChannel) : str :=
  match channel with
  | SharedSecret secret => base64url_encode (crypto_hash secret)
  | Hpke ephemeral_public_key =>
      base64url_encode
        (hasher_finalize (hasher_update ephemeral_public_key (hasher_update HPKE_RELAY_CHANNEL_DOMAIN hasher_default)))
  end.

(** [to_url] of the channels, and [derive_callback_url] of the signer. *)
Definition channel_url (base_url channel_id : str) : str := push_segment base_url channel_id.

Definition derive_callback_url (relay channel_id : str) : result SdkError str :=
  if cannot_be_a_base relay then Err UrlParse else Ok (push_segment relay channel_id).

Inductive AuthRelayChannel :=
| EncryptedInbox (base_url channel_id : str) (secret : list Z)
| EncryptedLink (base_url channel_id : str) (secret : list Z)
| Inbox (base_url channel_id : str)
| Link (base_url channel_id : str).

Definition relay_channel_url (channel : AuthRelayChannel) : str :=
  match channel with
  | EncryptedInbox base id _ | EncryptedLink base id _ | Inbox base id | Link base id => channel_url base id
  end.

(** The check of the channels' [new]; the error of an empty id differs. *)
Definition HttpRelayInboxChannel_new (base_url channel_id : str) : result SdkError (str * str) :=
  if cannot_be_a_base base_url then Err UrlParse
  else if bool_decide (channel_id = []) then Err (AuthValidation (lit "channel_id must not be empty"))
  else Ok (base_url, channel_id).
Definition HttpRelayLinkChannel_new (base_url channel_id : str) : result SdkError (str * str) :=
  if cannot_be_a_base base_url then Err UrlParse
  else if bool_decide (channel_id = []) then Err UrlParse
  else Ok (base_url, channel_id).

(** [path().trim_end_matches('/').ends_with("/link")]. *)
Definition is_link_url (url : str) : bool :=
  starts_with (reverse (trim_end_matches SLASH (url_path url))) (reverse (lit "/link")).

(** [AuthRelayListenerBuilder::start], up to spawning the poll. *)
Definition AuthRelayListener_start (relay_base_url : str) (relay_channel : GrantRelayChannel) : result SdkError AuthRelayChannel :=
  let channel_id := http_channel_id relay_channel in
  match relay_channel, is_link_url relay_base_url with
  | SharedSecret secret, true =>
      '(base, id) ← HttpRelayLinkChannel_new relay_base_url (base64url_encode (crypto_hash secret));
      Ok (EncryptedLink base id secret)
  | SharedSecret secret, false =>
      '(base, id) ← HttpRelayInboxChannel_new relay_base_url (base64url_encode (crypto_hash secret));
      Ok (EncryptedInbox base id secret)
  | Hpke _, true => '(base, id) ← HttpRelayLinkChannel_new relay_base_url channel_id; Ok (Link base id)
  | Hpke _, false => '(base, id) ← HttpRelayInboxChannel_new relay_base_url channel_id; Ok (Inbox base id)
  end.

(** The encrypted channels decrypt what they receive. *)
Definition decrypted (secret : list Z) (p : Polled) : Polled :=
  '(r, rest) ← p;
  Some (m ← r;
        match m with
        | Some response => plain ← ok_or (decrypt response secret) Undecryptable; Ok (Some plain)
        | None => Ok None
        end, rest).

Definition AuthRelayChannel_poll (self : AuthRelayChannel) (timeout : option Z) (replies : list (Z * Reply)) : Polled :=
  match self with
  | EncryptedInbox _ _ secret => decrypted secret (HttpRelayInboxChannel_poll timeout replies)
  | EncryptedLink _ _ secret => decrypted secret (HttpRelayLinkChannel_poll timeout replies)
  | Inbox _ _ => HttpRelayInboxChannel_poll timeout replies
  | Link _ _ => HttpRelayLinkChannel_poll timeout replies
  end.

(** Whether the channel acknowledges; the answer is waited for and its error
    only logged. *)
Definition AuthRelayChannel_ack (self : AuthRelayChannel) (replies : list (Z * Reply)) : option (list (Z * Reply)) :=
  match self with
  | EncryptedInbox _ _ _ | Inbox _ _ => match replies with [] => None | _ :: rest => Some rest end
  | EncryptedLink _ _ _ | Link _ _ => Some replies
  end.

Definition poll_for_message (channel : AuthRelayChannel) (replies : list (Z * Reply)) : option (result SdkError (list Z)) :=
  '(r, rest) ← AuthRelayChannel_poll channel None replies;
  match r with
  | Err e => Some (Err e)
  | Ok None => Some (Err AuthRequestExpired)
  | Ok (Some message) => AuthRelayChannel_ack channel rest ;; Some (Ok message)
  end.

(** * What polling comes to *)

(** ** Bodies *)

Definition body_of (chunks : list (list Z)) : list (result () (list Z)) := map Ok chunks.

Lemma read_chunks_spec max body chunks b :
  Z.of_nat (length body) ≤ max →
  read_chunks max body chunks = Ok b ↔
  ∃ cs, chunks = body_of cs ∧ b = body ++ concat cs ∧ Z.of_nat (length b) ≤ max.
Proof.
  revert body. induction chunks as [|[c|[]] chunks IH]; intros body Hb; cbn [read_chunks].
  - split; [intros [= <-]; exists []; cbn; by rewrite app_nil_r|]. intros ([|c cs] & [=] & -> & _). cbn. by rewrite app_nil_r.
  - destruct (Z.ltb_spec (max - Z.of_nat (length body)) (Z.of_nat (length c))) as [Hlt|Hle].
    + split; [done|]. intros ([|c' cs] & [=] & -> & Hl). subst. rewrite !length_app in Hl. cbn in Hl. rewrite length_app in Hl. lia.
    + rewrite IH by (rewrite length_app; lia). split.
      * intros (cs & -> & -> & Hl). exists (c :: cs). cbn. by rewrite app_assoc.
      * intros ([|c' cs] & [=] & -> & Hl). subst. exists cs. cbn in *. by rewrite <-app_assoc.
  - split; [done|]. by intros ([|c' cs] & [=] & _).
Qed.

(** A body is read whole, or not at all: exactly when it does not break off,
    and neither declares nor has more than the limit. *)
Lemma read_response_body_spec response max b :
  0 ≤ max →
  read_response_body response max = Ok b ↔
  ∃ cs, rp_chunks response = body_of cs ∧ b = concat cs ∧ Z.of_nat (length b) ≤ max ∧
    ∀ l, rp_content_length response = Some l → l ≤ max.
Proof.
  intros Hm. unfold read_response_body. destruct (rp_content_length response) as [l|].
  - destruct (Z.ltb_spec max l) as [Hlt|Hle].
    + split; [done|]. intros (cs & _ & _ & _ & Hl). specialize (Hl l eq_refl). lia.
    + rewrite read_chunks_spec by (cbn; lia). split.
      * intros (cs & ? & ? & ?). exists cs. split_and!; [done..|]. by intros ? [= <-].
      * intros (cs & ? & ? & ? & _). by exists cs.
  - rewrite read_chunks_spec by (cbn; lia). split.
    + intros (cs & ? & ? & ?). exists cs. by split_and!.
    + intros (cs & ? & ? & ? & _). by exists cs.
Qed.

(** ** Polling *)

(** What one attempt means for the loop. *)
Inductive Turn := Received (r : result SdkError (list Z)) | Quiet | Failed (e : SdkError).

Definition inbox_turn (reply : Reply) : Turn :=
  match inbox_poll_once reply with
  | Ok response => Received (read_relay_body response)
  | Err PollTimeout => Quiet
  | Err (PollFailure e) => Failed e
  end.

Definition run_of_failures (ts : list Turn) : nat :=
  foldl (λ n t, match t with Failed _ => S n | _ => O end) O ts.

(** Nothing arrives, and failures come at most two in a row. *)
Definition patient (ts : list Turn) : Prop :=
  Forall (λ t, match t with Received _ => False | _ => True end) ts ∧
  ∀ k, (run_of_failures (take k ts) < MAX_FAILURES)%nat.

Lemma run_snoc ts t :
  run_of_failures (ts ++ [t]) = match t with Failed _ => S (run_of_failures ts) | _ => O end.
Proof. unfold run_of_failures. by rewrite foldl_app. Qed.

Lemma patient_snoc ts t :
  patient (ts ++ [t]) ↔
  patient ts ∧ match t with Received _ => False | Quiet => True | Failed _ => (S (run_of_failures ts) < MAX_FAILURES)%nat end.
Proof.
  unfold patient. rewrite Forall_app, Forall_singleton. split.
  - intros [[Hts Ht] Hk]. split_and!; [done| |].
    + intros k. destruct (decide (k ≤ length ts)%nat) as [Hle|Hgt].
      * specialize (Hk k). by rewrite take_app_le in Hk.
      * specialize (Hk (length ts)). rewrite take_app_length in Hk. by rewrite take_ge by lia.
    + specialize (Hk (S (length ts))). rewrite take_ge, run_snoc in Hk by (rewrite length_app; cbn; lia). by destruct t.
  - intros [[Hts Hk] Ht]. split; [split; [done|by destruct t]|]. intros k.
    destruct (decide (k ≤ length ts)%nat) as [Hle|Hgt]; [by rewrite take_app_le|].
    rewrite take_ge, run_snoc by (rewrite length_app; cbn; lia). destruct t; [done|unfold MAX_FAILURES; lia|done].
Qed.

Lemma patient_prefix a b : patient (a ++ b) → patient a.
Proof.
  intros [Hf Hk]. apply Forall_app in Hf as [Hf _]. split; [done|]. intros k. specialize (Hk (k `min` length a)%nat).
  rewrite take_app_le in Hk by lia. destruct (decide (k ≤ length a)%nat) as [Hle|Hgt].
  - by rewrite Nat.min_l in Hk by lia.
  - rewrite Nat.min_r in Hk by lia. by rewrite take_ge in Hk |- * by lia.
Qed.

(** The attempt that ends the loop, after those in [before]. *)
Definition ends_poll (before : list Turn) (t : Turn) (r : result SdkError (option (list Z))) : Prop :=
  match t with
  | Received body => r = (b ← body; Ok (Some b))
  | Quiet => False
  | Failed e => S (run_of_failures before) = MAX_FAILURES ∧ r = Err e
  end.

Definition turns (replies : list (Z * Reply)) : list Turn := map (λ x, inbox_turn x.2) replies.

Lemma inbox_poll_loop_spec before elapsed replies r rest :
  patient before →
  inbox_poll_loop None elapsed (run_of_failures before) replies = Some (r, rest) ↔
  ∃ pre x, replies = pre ++ x :: rest ∧ patient (before ++ turns pre) ∧ ends_poll (before ++ turns pre) (inbox_turn x.2) r.
Proof.
  revert before elapsed. induction replies as [|[took reply] replies IH]; intros before elapsed Hb.
  - cbn. split; [done|]. by intros ([|] & x & [=] & _).
  - cbn [inbox_poll_loop reply_within fmap option_fmap option_map].
    assert (∀ t, inbox_turn reply = t → (∃ pre x, (took, reply) :: replies = pre ++ x :: rest ∧ patient (before ++ turns pre) ∧
              ends_poll (before ++ turns pre) (inbox_turn x.2) r) ↔
            (rest = replies ∧ ends_poll before t r) ∨
            (∃ pre x, replies = pre ++ x :: rest ∧ patient ((before ++ [t]) ++ turns pre) ∧
              ends_poll ((before ++ [t]) ++ turns pre) (inbox_turn x.2) r)) as Hsplit.
    { intros t <-. split.
      - intros ([|y pre] & x & E & Hp & He); injection E as <- E.
        + left. cbn in He. rewrite app_nil_r in He. by subst.
        + right. exists pre, x. rewrite <-app_assoc. by subst.
      - intros [[-> He]|(pre & x & -> & Hp & He)].
        + exists [], (took, reply). cbn. rewrite app_nil_r. by split_and!.
        + exists ((took, reply) :: pre), x. cbn. rewrite <-app_assoc in Hp, He. by split_and!. }
    rewrite (Hsplit _ eq_refl). unfold inbox_turn at 1 2 3.
    destruct (inbox_poll_once reply) as [response|[|e]] eqn:Ep; cbn [ends_poll].
    + split; [intros [= <- <-]; by left|]. intros [[-> ->]|(pre & x & _ & Hp & _)]; [done|].
      apply patient_prefix, patient_snoc in Hp. tauto.
    + specialize (IH (before ++ [Quiet]) (elapsed + took)). rewrite run_snoc in IH. rewrite IH by (by apply patient_snoc).
      split; [by right|]. by intros [[_ []]|?].
    + destruct (Nat.leb_spec MAX_FAILURES (S (run_of_failures before))) as [Hle|Hlt].
      * assert (S (run_of_failures before) = MAX_FAILURES) as HM.
        { destruct Hb as [_ Hk]. specialize (Hk (length before)). rewrite firstn_all in Hk. lia. }
        split; [intros [= <- <-]; by left|]. intros [[-> [_ ->]]|(pre & x & _ & Hp & _)]; [done|].
        apply patient_prefix, patient_snoc in Hp as [_ Hp]. lia.
      * specialize (IH (before ++ [Failed e]) (elapsed + took)). rewrite run_snoc in IH. rewrite IH by (by apply patient_snoc).
        split; [by right|]. intros [[_ [? _]]|?]; [lia|done].
Qed.

Lemma patient_nil : patient [].
Proof. split; [constructor|]. intros k. rewrite take_nil. cbn. unfold MAX_FAILURES. lia. Qed.

Lemma inbox_poll_answers replies r rest :
  HttpRelayInboxChannel_poll None replies = Some (r, rest) ↔
  ∃ pre x, replies = pre ++ x :: rest ∧ patient (turns pre) ∧ ends_poll (turns pre) (inbox_turn x.2) r.
Proof. apply (inbox_poll_loop_spec []). apply patient_nil. Qed.

(** Polling the inbox ends exactly with the first answer that carries a
    message, or the third failure in a row, whichever comes first, however
    many timeouts and scattered failures there are; then it reads the message,
    or reports that failure. *)
Theorem inbox_poll_exact replies r rest :
  HttpRelayInboxChannel_poll None replies = Some (r, rest) ↔
  ∃ pre x, replies = pre ++ x :: rest ∧ patient (turns pre) ∧ ends_poll (turns pre) (inbox_turn x.2) r.
Proof. apply inbox_poll_answers. Qed.

(** ** Polling a link *)

Definition link_turn (reply : Reply) : Turn :=
  match link_poll_once reply with
  | Ok response => Received (read_relay_body response)
  | Err PollTimeout => Quiet
  | Err (PollFailure e) => Failed e
  end.

(** Nothing arrives, and failures come at most [n] times in all. *)
Fixpoint failing_at_most (n : nat) (ts : list Turn) : Prop :=
  match ts, n with
  | [], _ => True
  | Quiet :: ts, _ => failing_at_most n ts
  | Failed _ :: ts, S n => failing_at_most n ts
  | _, _ => False
  end.

Lemma link_poll_delivers n elapsed seen pre x rest b :
  (seen + n < MAX_FAILURES)%nat → failing_at_most n (map (λ x, link_turn x.2) pre) → link_turn x.2 = Received (Ok b) →
  link_poll_loop None elapsed seen (pre ++ x :: rest) = Some (Ok (Some b), rest).
Proof.
  revert n elapsed seen. induction pre as [|[took reply] pre IH]; intros n elapsed seen Hn Hpre Hx.
  - destruct x as [took reply]. cbn in *. unfold link_turn in Hx.
    destruct (link_poll_once reply) as [response|[]]; [|done..]. injection Hx as ->. done.
  - cbn [app link_poll_loop reply_within fmap option_fmap option_map]. cbn [map snd failing_at_most] in Hpre.
    unfold link_turn at 1 in Hpre. destruct (link_poll_once reply) as [response|[|e]]; cbn [failing_at_most] in Hpre; [by destruct n|by eapply IH|].
    destruct n as [|n]; [done|]. rewrite (proj2 (Nat.leb_gt _ _)) by lia. apply (IH n); [lia|done|done].
Qed.

(** The answers of a relay at [relay] the app waits through: over an inbox any
    number of timeouts and failures, not three failures in a row; over a link
    any number of timeouts and two failures in all. *)
Definition waits_through (relay : str) (replies : list (Z * Reply)) : Prop :=
  if is_link_url relay then failing_at_most (MAX_FAILURES - 1) (map (λ x, link_turn x.2) replies)
  else patient (turns replies).

(** With a time limit, polling ends in time. *)
Lemma inbox_poll_in_time t elapsed n replies :
  Forall (λ x, 0 ≤ x.1) replies → 0 ≤ elapsed → t ≤ elapsed + foldr (λ x s, x.1 + s) 0 replies →
  is_Some (inbox_poll_loop (Some t) elapsed n replies).
Proof.
  revert elapsed n. induction replies as [|[took reply] replies IH]; intros elapsed n Hall He Ht;
    cbn [inbox_poll_loop]; destruct (Z.leb_spec t elapsed) as [|Hlt]; [by eauto|cbn in Ht; lia|by eauto|].
  inversion Hall as [|? ? Htook Hrest]; subst. cbn [fst] in Htook. cbn [fmap option_fmap option_map reply_within fst].
  cbn [foldr fst] in Ht.
  destruct (Z.ltb_spec (Z.max 0 (t - elapsed)) took) as [Hcut|Hfit].
  - cbn [inbox_poll_once]. apply IH; [done|lia|]. assert (0 ≤ foldr (λ x s, x.1 + s) 0 replies); [|lia].
    clear -Hrest. induction Hrest as [|y ys Hy _ IHys]; cbn; [lia|]. cbn in Hy. lia.
  - destruct (inbox_poll_once reply) as [response|[|e]]; [by eauto|apply IH; [done|lia..]|].
    destruct (_ <=? _)%nat; [by eauto|]. apply IH; [done|lia..].
Qed.

End Relay.
