(* ===== verification/SdkCredential.v ===== *)
(** Grant credentials of the client
    ([pubky-sdk/src/actors/auth/grant/{credential,pop_signer,grant_exchange}.rs]
    and [flow.rs]): proofs of possession, the exchange of a grant for a bearer,
    and the export and restoration of a credential.

    The home server is reached over HTTP: a request is a function [post] from a
    grant and a proof to the decoded answer, an argument of what uses it.
    Errors are their messages. *)

From S2P Require Import Prelude StoragePath Capabilities Keys GrantTokens EncryptionKeys DeepLinks SdkApproval Grants.

(** [serde_json] on the claims of a proof. *)
Class PopWriter `{PkarrKeys} := { pop_json : PopProofClaims → list Z }.

(** Claims that the field types accept. *)
Definition pop_ok `{PkarrKeys} (c : PopProofClaims) : Prop :=
  RandomId_parse (gid c) = Ok (gid c) ∧ RandomId_parse (nonce c) = Ok (nonce c) ∧ 0 ≤ pop_iat c ≤ U64_MAX.

Class PopWriterLaws `{PkarrKeys, !Jws, !PopWriter} := {
  pop_bytes c : Forall (λ x, 0 ≤ x < 256) (pop_json c);
  pop_roundtrip c : pop_ok c → pop_from_slice (pop_json c) = Some c;
}.

Section Credential.
Context `{PkarrKeys, !Jws, !Base64Url, !Signing, !ApprovalJson, !Hkdf, !PopWriter}.

(** * Signers *)

Inductive GrantSigningError :=
| KeyUnavailable (message : str)
| SigningFailed (message : str).

(** The callback is a function of the signing input. *)
Record DelegatedGrantPopSigner := mk_DelegatedGrantPopSigner {
  dp_key_id : str;
  dp_public_key : PublicKey;
  dp_sign : str → result GrantSigningError (list Z)
}.

Definition DelegatedGrantPopSigner_sign_jws (self : DelegatedGrantPopSigner) (signing_input : str) : result GrantSigningError str :=
  signature ← dp_sign self signing_input;
  Ok (finish_jws signing_input signature).

Inductive GrantPopSigner :=
| LocalSigner (keypair : Keypair)
| DelegatedSigner (signer : DelegatedGrantPopSigner).

Definition GrantPopSigner_public_key (self : GrantPopSigner) : PublicKey :=
  match self with
  | LocalSigner keypair => kp_public_key keypair
  | DelegatedSigner signer => dp_public_key signer
  end.

Definition GrantPopSigner_sign_jws (self : GrantPopSigner) (typ : str) (claims : list Z) : result GrantSigningError str :=
  let signing_input := jws_signing_input typ claims in
  match self with
  | LocalSigner keypair => Ok (finish_jws signing_input (kp_sign keypair signing_input))
  | DelegatedSigner signer => DelegatedGrantPopSigner_sign_jws signer signing_input
  end.

Definition GrantPopSigner_local_secret (self : GrantPopSigner) : option (list Z) :=
  match self with LocalSigner keypair => Some (kp_secret keypair) | DelegatedSigner _ => None end.

Definition GrantPopSigner_delegated_state (self : GrantPopSigner) : option DelegatedGrantPopSigner :=
  match self with LocalSigner _ => None | DelegatedSigner signer => Some signer end.

(** [Display] of the error. *)
Definition GrantSigningError_fmt (e : GrantSigningError) : str :=
  match e with
  | KeyUnavailable m => lit "Signing key unavailable: " ++ m
  | SigningFailed m => lit "Signing failed: " ++ m
  end.

(** The nonce and the clock are arguments. *)
Definition sign_pop_for_grant (now : Z) (pop_nonce : str) (client_signer : GrantPopSigner) (homeserver_pk : PublicKey)
    (grant_id : str) : result str str :=
  map_err GrantSigningError_fmt
    (GrantPopSigner_sign_jws client_signer POP_JWS_TYP (pop_json (mk_PopProofClaims homeserver_pk grant_id pop_nonce now))).

(** * Credentials *)

(** The fields of [GrantCredentialState]; whether the credential is shared with
    other tabs of a browser is the state of [SharedSession]. *)
Record GrantCredentialState := mk_GrantCredentialState {
  cs_bearer : str;
  cs_grant_jws : str;
  cs_grant_claims : GrantClaims;
  cs_client_signer : GrantPopSigner;
  cs_homeserver_pk : PublicKey;
  cs_session : GrantSessionInfo
}.

Definition REFRESH_SLACK_SECS : Z := 300.

Definition needs_refresh (self : GrantCredentialState) (now slack : Z) : bool :=
  (gi_token_expires_at (cs_session self) <=? now)
  || ((gi_token_expires_at (cs_session self) <? exp (cs_grant_claims self))
      && (Z.max 0 (gi_token_expires_at (cs_session self) - slack) <=? now)).

Record SessionInfo := mk_SessionInfo { si_public_key : PublicKey; si_capabilities : Capabilities }.

Definition to_session_info (session : GrantSessionInfo) : SessionInfo :=
  mk_SessionInfo (gi_pubky session) (gi_capabilities session).

Record GrantCredential := mk_GrantCredential {
  gc_state : GrantCredentialState;
  gc_info : SessionInfo;
  gc_verified_approval : option VerifiedApproval
}.

Definition GrantCredential_from_response (response : GrantSessionResponse) (grant_jws : str) (grant_claims : GrantClaims)
    (client_signer : GrantPopSigner) (homeserver_pk : PublicKey) : GrantCredential :=
  mk_GrantCredential
    (mk_GrantCredentialState (gr_token response) grant_jws grant_claims client_signer homeserver_pk (gr_session response))
    (to_session_info (gr_session response)) None.

Definition retain_verified_approval (approval : option VerifiedApproval) (self : GrantCredential) : GrantCredential :=
  mk_GrantCredential (gc_state self) (gc_info self) approval.

Definition GrantCredential_encryption_keys (self : GrantCredential) : option ScopedEncryptionKeyBundle :=
  va_encryption_keys <$> gc_verified_approval self.

Definition current_bearer (self : GrantCredential) : str := cs_bearer (gc_state self).

Definition signed_approval (self : GrantCredential) : option str := va_signed_approval <$> gc_verified_approval self.

(** * The exchange *)

(** [post_grant_session]: a proof is signed and sent with the grant. *)
Definition post_grant_session (post : str → str → result str GrantSessionResponse) (now : Z) (pop_nonce : str)
    (grant_jws : str) (grant_claims : GrantClaims) (client_signer : GrantPopSigner) (homeserver_pk : PublicKey)
    : result str GrantSessionResponse :=
  pop_jws ← sign_pop_for_grant now pop_nonce client_signer homeserver_pk (jti grant_claims);
  post grant_jws pop_jws.

Definition credential_from_grant_exchange (post : str → str → result str GrantSessionResponse) (now : Z) (pop_nonce : str)
    (grant_jws : str) (grant_claims : GrantClaims) (client_signer : GrantPopSigner) (homeserver_pk : PublicKey)
    : result str GrantCredential :=
  response ← post_grant_session post now pop_nonce grant_jws grant_claims client_signer homeserver_pk;
  Ok (GrantCredential_from_response response grant_jws grant_claims client_signer homeserver_pk).

(** The home server of the user is looked up before. *)
Definition exchange_for_credential (post : str → str → result str GrantSessionResponse) (now : Z) (pop_nonce : str)
    (homeserver_of : PublicKey → result str PublicKey) (approval : GrantApproval) (client_signer : GrantPopSigner)
    : result str GrantCredential :=
  hs_pk ← homeserver_of (iss (ga_claims approval));
  credential ← credential_from_grant_exchange post now pop_nonce (ga_grant_jws approval) (ga_claims approval) client_signer hs_pk;
  Ok (retain_verified_approval (ga_verified_approval approval) credential).

(** * Export *)

Definition STORED_GRANT_CREDENTIAL_PREFIX : str := lit "pubky-grant-credential-v1".
Definition STORED_GRANT_CREDENTIAL_APPROVAL_PREFIX : str := lit "pubky-grant-credential-v2".
Definition STORED_GRANT_CREDENTIAL_PREFIX_FAMILY : str := lit "pubky-grant-credential-".

Record StoredGrantCredential := mk_StoredGrantCredential {
  sc_grant_jws : str;
  sc_client_key_secret : list Z;
  sc_homeserver_pk : PublicKey;
  sc_signed_approval : option str
}.

Definition StoredGrantCredential_encode (self : StoredGrantCredential) : str :=
  let secret := base64url_encode (sc_client_key_secret self) in
  match sc_signed_approval self with
  | Some approval =>
      STORED_GRANT_CREDENTIAL_APPROVAL_PREFIX ++ [COLON] ++ PublicKey_z32 (sc_homeserver_pk self) ++ [COLON] ++ secret
      ++ [COLON] ++ sc_grant_jws self ++ [COLON] ++ approval
  | None =>
      STORED_GRANT_CREDENTIAL_PREFIX ++ [COLON] ++ PublicKey_z32 (sc_homeserver_pk self) ++ [COLON] ++ secret
      ++ [COLON] ++ sc_grant_jws self
  end.

Definition invalid_stored_grant : str :=
  lit "invalid stored grant credential: expected `pubky-grant-credential-v1:<homeserver>:<client_secret>:<grant_jws>`".

Definition StoredGrantCredential_decode (token : str) : result str StoredGrantCredential :=
  '(prefix, rest) ← ok_or (split_once COLON token) invalid_stored_grant;
  if negb (bool_decide (prefix = STORED_GRANT_CREDENTIAL_PREFIX))
     && negb (bool_decide (prefix = STORED_GRANT_CREDENTIAL_APPROVAL_PREFIX))
  then Err (lit "unsupported grant credential token version")
  else
    '(homeserver, rest) ← ok_or (split_once COLON rest) invalid_stored_grant;
    '(secret, grant_jws) ← ok_or (split_once COLON rest) invalid_stored_grant;
    '(grant_jws, approval) ←
      (if bool_decide (prefix = STORED_GRANT_CREDENTIAL_APPROVAL_PREFIX) then
         '(grant, approval) ← ok_or (split_once COLON grant_jws) invalid_stored_grant;
         if bool_decide (approval = []) then Err invalid_stored_grant else Ok (grant, Some approval)
       else Ok (grant_jws, None));
    if bool_decide (grant_jws = []) then Err invalid_stored_grant
    else
      homeserver_pk ← map_err (λ _, lit "invalid stored grant credential homeserver public key")
                        (PublicKey_try_from_z32 homeserver);
      secret ← ok_or (base64url_decode secret) (lit "invalid stored grant credential client secret");
      if negb (length secret =? 32)%nat then Err (lit "stored grant credential client secret must be 32 bytes")
      else Ok (mk_StoredGrantCredential grant_jws secret homeserver_pk approval).

Definition export_local_secret (self : GrantCredential) : option str :=
  client_key_secret ← GrantPopSigner_local_secret (cs_client_signer (gc_state self));
  Some (StoredGrantCredential_encode
          (mk_StoredGrantCredential (cs_grant_jws (gc_state self)) client_key_secret (cs_homeserver_pk (gc_state self))
             (signed_approval self))).

Definition is_secret_token (token : str) : bool := starts_with token STORED_GRANT_CREDENTIAL_PREFIX_FAMILY.

Record DelegatedGrantCredentialState := mk_DelegatedGrantCredentialState {
  ds_grant_jws : str;
  ds_homeserver_pk : PublicKey;
  ds_key_id : str;
  ds_client_pk : PublicKey
}.

Definition export_delegated_restore_state (self : GrantCredential) : option DelegatedGrantCredentialState :=
  signer ← GrantPopSigner_delegated_state (cs_client_signer (gc_state self));
  Some (mk_DelegatedGrantCredentialState (cs_grant_jws (gc_state self)) (cs_homeserver_pk (gc_state self))
          (dp_key_id signer) (dp_public_key signer)).

(** * Restoration *)

Record GrantRestoreMaterial := mk_GrantRestoreMaterial {
  rm_grant_jws : str;
  rm_grant_claims : GrantClaims;
  rm_client_signer : GrantPopSigner;
  rm_homeserver_pk : PublicKey;
  rm_verified_approval : option VerifiedApproval
}.

Definition restore_verified_approval (signed : option str) (grant_jws : str)
    : result str (option (GrantClaims * VerifiedApproval)) :=
  match signed with
  | None => Ok None
  | Some signed =>
      approval ← GrantApproval_decode_text signed SignedApprovalV1;
      if negb (bool_decide (ga_grant_jws approval = grant_jws))
      then Err (lit "stored approval does not match the stored grant")
      else Ok ((λ verified, (ga_claims approval, verified)) <$> ga_verified_approval approval)
  end.

Definition restore_material (now : Z) (saved : StoredGrantCredential) (allow_expired : bool) : result str GrantRestoreMaterial :=
  verified_approval ← restore_verified_approval (sc_signed_approval saved) (sc_grant_jws saved);
  grant_claims ← map_err (λ _, lit "invalid stored grant credential grant JWS") (GrantClaims_decode (sc_grant_jws saved));
  if negb allow_expired && (exp grant_claims <=? now) then Err (lit "stored grant credential has expired")
  else
    let client_keypair := kp_from_secret (sc_client_key_secret saved) in
    if negb (bool_decide (kp_public_key client_keypair = cnf grant_claims))
    then Err (lit "stored grant credential client key does not match the grant cnf")
    else Ok (mk_GrantRestoreMaterial (sc_grant_jws saved) grant_claims (LocalSigner client_keypair)
               (sc_homeserver_pk saved) (snd <$> verified_approval)).

Definition restore_delegated_material (now : Z) (saved : DelegatedGrantCredentialState)
    (sign : str → result GrantSigningError (list Z)) (allow_expired : bool) (signed : option str)
    : result str GrantRestoreMaterial :=
  verified_approval ← restore_verified_approval signed (ds_grant_jws saved);
  grant_claims ← map_err (λ _, lit "invalid delegated grant credential grant JWS") (GrantClaims_decode (ds_grant_jws saved));
  if negb allow_expired && (exp grant_claims <=? now) then Err (lit "delegated grant credential has expired")
  else if negb (bool_decide (ds_client_pk saved = cnf grant_claims))
  then Err (lit "delegated grant credential client key does not match the grant cnf")
  else Ok (mk_GrantRestoreMaterial (ds_grant_jws saved) grant_claims
             (DelegatedSigner (mk_DelegatedGrantPopSigner (ds_key_id saved) (ds_client_pk saved) sign))
             (ds_homeserver_pk saved) (snd <$> verified_approval)).

Definition from_shared_material (material : GrantRestoreMaterial) : GrantCredential :=
  let claims := rm_grant_claims material in
  let response := mk_GrantSessionResponse []
    (mk_GrantSessionInfo (rm_homeserver_pk material) (iss claims) (client_id claims) (caps claims) (jti claims) 0 (exp claims) 0) in
  retain_verified_approval (rm_verified_approval material)
    (GrantCredential_from_response response (rm_grant_jws material) claims (rm_client_signer material) (rm_homeserver_pk material)).

Definition from_shared_secret (now : Z) (token : str) : result str GrantCredential :=
  saved ← StoredGrantCredential_decode token;
  material ← restore_material now saved true;
  Ok (from_shared_material material).

Definition from_shared_delegated_state (now : Z) (state : DelegatedGrantCredentialState)
    (sign : str → result GrantSigningError (list Z)) (signed : option str) : result str GrantCredential :=
  material ← restore_delegated_material now state sign true signed;
  Ok (from_shared_material material).

Definition exchange_restored_material (post : str → str → result str GrantSessionResponse) (now : Z) (pop_nonce : str)
    (material : GrantRestoreMaterial) : result str GrantCredential :=
  credential ← credential_from_grant_exchange post now pop_nonce (rm_grant_jws material) (rm_grant_claims material)
                 (rm_client_signer material) (rm_homeserver_pk material);
  Ok (retain_verified_approval (rm_verified_approval material) credential).

Definition import_secret (post : str → str → result str GrantSessionResponse) (now : Z) (pop_nonce : str) (token : str)
    : result str GrantCredential :=
  saved ← StoredGrantCredential_decode token;
  material ← restore_material now saved false;
  exchange_restored_material post now pop_nonce material.

Definition import_delegated_state (post : str → str → result str GrantSessionResponse) (now : Z) (pop_nonce : str)
    (state : DelegatedGrantCredentialState) (sign : str → result GrantSigningError (list Z)) (signed : option str)
    : result str GrantCredential :=
  material ← restore_delegated_material now state sign false signed;
  exchange_restored_material post now pop_nonce material.

Definition restore_encryption_keys_from_approval (grant_jws : str) (signed : option str)
    : result str (option (GrantClaims * ScopedEncryptionKeyBundle)) :=
  approval ← restore_verified_approval signed grant_jws;
  Ok (match approval with Some (claims, verified) => Some (claims, va_encryption_keys verified) | None => None end).

Definition restore_encryption_keys (token : str) : result str (option (GrantClaims * ScopedEncryptionKeyBundle)) :=
  saved ← StoredGrantCredential_decode token;
  restore_encryption_keys_from_approval (sc_grant_jws saved) (sc_signed_approval saved).

(** * What a credential consists of *)

(** The stored text of an approval, if any, is one of this very grant. *)
Definition approval_matches (grant_jws : str) (claims : GrantClaims) (approval : option VerifiedApproval) : Prop :=
  match approval with
  | None => True
  | Some verified =>
      GrantApproval_decode_text (va_signed_approval verified) SignedApprovalV1
      = Ok (mk_GrantApproval grant_jws claims (Some verified))
  end.

(** The claims are those of the grant, the signer is the client of the grant,
    and the keys come from an approval of the grant. *)
Definition material_wf (m : GrantRestoreMaterial) : Prop :=
  GrantClaims_decode (rm_grant_jws m) = Ok (rm_grant_claims m) ∧
  GrantPopSigner_public_key (rm_client_signer m) = cnf (rm_grant_claims m) ∧
  approval_matches (rm_grant_jws m) (rm_grant_claims m) (rm_verified_approval m).

(** What is durable in a credential. *)
Definition material_of (c : GrantCredential) : GrantRestoreMaterial :=
  mk_GrantRestoreMaterial (cs_grant_jws (gc_state c)) (cs_grant_claims (gc_state c)) (cs_client_signer (gc_state c))
    (cs_homeserver_pk (gc_state c)) (gc_verified_approval c).

(** A compact token has no colon. *)
Definition credential_wf (c : GrantCredential) : Prop := material_wf (material_of c) ∧ COLON ∉ cs_grant_jws (gc_state c).

(** The outcome of a restoration: an expired grant is not exchanged. *)
Definition restored (now : Z) (allow_expired : bool) (expired : str) (m : GrantRestoreMaterial) : result str GrantRestoreMaterial :=
  if negb allow_expired && (exp (rm_grant_claims m) <=? now) then Err expired else Ok m.

Lemma verified_text text a :
  GrantApproval_decode_text text SignedApprovalV1 = Ok a →
  ∃ keys, ga_verified_approval a = Some (mk_VerifiedApproval keys text).
Proof.
  unfold GrantApproval_decode_text. intros Ha.
  destruct (decode_payload json_approval_grant text) as [g|]; [|done]. cbn [mbind result_bind] in Ha.
  destruct (decode_payload grant_from_slice g) as [cl|]; [|done]. cbn [mbind result_bind] in Ha.
  destruct (verify_approval_signature text (iss cl)) as [[]|]; [|done]. cbn [mbind result_bind] in Ha.
  destruct (decode_payload envelope_from_slice text) as [[g' keys]|]; [|done]. cbn [mbind result_bind] in Ha.
  destruct (validate_key_scopes_match_grant keys cl) as [[]|]; [|done]. injection Ha as <-. by exists keys.
Qed.

(** The approval a restoration accepts is one of the stored grant. *)
Lemma restore_approval_inv signed jws r :
  restore_verified_approval signed jws = Ok r →
  match r with
  | None => signed = None
  | Some (claims, verified) => approval_matches jws claims (Some verified) ∧ signed = Some (va_signed_approval verified)
  end.
Proof.
  unfold restore_verified_approval. destruct signed as [text|]; [|by intros [= <-]].
  destruct (GrantApproval_decode_text text SignedApprovalV1) as [[g cl va]|] eqn:Hd; [|done]. cbn [mbind result_bind ga_grant_jws].
  case_bool_decide as Hg; [|done]. subst g. cbn [negb ga_verified_approval ga_claims]. intros [= <-].
  destruct (verified_text _ _ Hd) as [keys E]. cbn [ga_verified_approval] in E. subst va. by split.
Qed.

Lemma restore_approval_ok jws claims approval :
  approval_matches jws claims approval →
  restore_verified_approval (va_signed_approval <$> approval) jws = Ok ((λ v, (claims, v)) <$> approval).
Proof.
  destruct approval as [v|]; [|done]. cbn [approval_matches fmap option_fmap option_map]. intros Hd.
  unfold restore_verified_approval. rewrite Hd. cbn [mbind result_bind ga_grant_jws].
  by rewrite bool_decide_eq_true_2.
Qed.

(** The strict and the lenient reader of a payload agree. *)
Lemma decode_payload_lenient {T} (f : list Z → option T) jws a :
  decode_payload f jws = Ok a → decode_jws_payload f jws = Ok a.
Proof.
  unfold decode_payload, jws_parts, rsplit_once. destruct (split_once _ (reverse jws)) as [[rs ri]|] eqn:Er; [|done].
  apply split_once_spec in Er as [Er Hrs]. apply (f_equal reverse) in Er. rewrite reverse_involutive, reverse_app, reverse_cons in Er.
  cbn [ok_or mbind result_bind]. destruct (split_once _ (reverse ri)) as [[h p]|] eqn:Eh; [|done]. cbn [ok_or mbind result_bind].
  apply split_once_spec in Eh as [Eh Hh]. destruct (contains_char p GrantTokens.DOT) eqn:Ec; [rewrite orb_true_r; done|].
  destruct (_ || _); [done|]. cbn [mbind result_bind]. unfold decode_jws_payload.
  assert (splitn 3 GrantTokens.DOT jws = [h; p; reverse rs]) as ->.
  { rewrite Er, Eh. cbn [splitn]. rewrite <-!app_assoc. cbn [app].
    rewrite (proj2 (split_once_spec _ (h ++ _) h (p ++ GrantTokens.DOT :: reverse rs))) by (by split).
    by rewrite (proj2 (split_once_spec _ (p ++ _) p (reverse rs))) by (split; [done|by apply contains_char_false]). }
  destruct (base64url_decode p); [|done]. cbn [ok_or mbind result_bind].
  destruct (f _); [|done]. by intros [= ->].
Qed.

End Credential.

Section Restoration.
Context `{PkarrKeysLaws, !Jws, !Base64Url, !Base64UrlLaws, !Signing, !SigningLaws, !ApprovalJson, !ApprovalJsonLaws, !Hkdf, !PopWriter}.

(** The claims of an approval are those of its grant. *)
Lemma approval_claims jws claims verified :
  approval_matches jws claims (Some verified) → GrantClaims_decode jws = Ok claims.
Proof.
  cbn [approval_matches]. intros Hd. apply decode_text_inv in Hd. cbn in Hd. apply decode_payload_lenient. tauto.
Qed.

Lemma z32_no_colon k : COLON ∉ PublicKey_z32 k.
Proof. intros Hc%pkarr_ascii. unfold COLON in Hc. lia. Qed.

Lemma base64url_no_colon b : COLON ∉ base64url_encode b.
Proof. intros Hc%base64url_char. tauto. Qed.

(** A signed token has three parts and no colon. *)
Lemma signed_compact kp typ bytes :
  JwsCompact_parse (sign_jws kp typ bytes) = Some (sign_jws kp typ bytes) ∧ COLON ∉ sign_jws kp typ bytes.
Proof.
  unfold sign_jws, finish_jws, jws_signing_input. set (h := base64url_encode (header_json typ)).
  set (q := base64url_encode bytes). set (s := base64url_encode (kp_sign kp _)). rewrite <-app_assoc.
  assert (GrantTokens.DOT ∉ h ∧ GrantTokens.DOT ∉ q ∧ GrantTokens.DOT ∉ s) as (Hh & Hq & Hs) by (split_and!; apply base64url_no_dot).
  split.
  - unfold JwsCompact_parse. rewrite bool_decide_eq_true_2; [done|]. cbn [splitn].
    rewrite (proj2 (split_once_spec _ (h ++ _) h (q ++ [GrantTokens.DOT] ++ s))) by (by split).
    rewrite (proj2 (split_once_spec _ (q ++ _) q s)) by (by split).
    destruct (split_once GrantTokens.DOT s) as [[a c]|] eqn:E; [|done]. apply split_once_spec in E as [E _].
    exfalso. apply Hs. rewrite E. apply elem_of_app. right. apply elem_of_cons. by left.
  - rewrite !not_elem_of_app. split_and!; try apply base64url_no_colon; by intros ?%list_elem_of_singleton.
Qed.

(** Three fields and the rest. *)
Lemma split_fields a b c rest :
  COLON ∉ a → COLON ∉ b → COLON ∉ c →
  split_once COLON (a ++ [COLON] ++ b ++ [COLON] ++ c ++ [COLON] ++ rest) = Some (a, b ++ [COLON] ++ c ++ [COLON] ++ rest) ∧
  split_once COLON (b ++ [COLON] ++ c ++ [COLON] ++ rest) = Some (b, c ++ [COLON] ++ rest) ∧
  split_once COLON (c ++ [COLON] ++ rest) = Some (c, rest).
Proof. intros. split_and!; by apply split_once_spec. Qed.

(** A stored credential is read back. *)
Lemma stored_roundtrip s :
  COLON ∉ sc_grant_jws s → sc_grant_jws s ≠ [] → sc_signed_approval s ≠ Some [] → key32 (sc_client_key_secret s) →
  StoredGrantCredential_decode (StoredGrantCredential_encode s) = Ok s.
Proof.
  destruct s as [jws secret hs approval]. cbn [sc_grant_jws sc_signed_approval sc_client_key_secret].
  intros Hj Hn Ha [Hl Hb]. unfold StoredGrantCredential_decode, StoredGrantCredential_encode.
  cbn [sc_grant_jws sc_signed_approval sc_client_key_secret sc_homeserver_pk].
  assert (∀ rest prefix, prefix = STORED_GRANT_CREDENTIAL_PREFIX ∨ prefix = STORED_GRANT_CREDENTIAL_APPROVAL_PREFIX →
    split_once COLON (prefix ++ [COLON] ++ PublicKey_z32 hs ++ [COLON] ++ base64url_encode secret ++ [COLON] ++ rest)
    = Some (prefix, PublicKey_z32 hs ++ [COLON] ++ base64url_encode secret ++ [COLON] ++ rest) ∧
    split_once COLON (PublicKey_z32 hs ++ [COLON] ++ base64url_encode secret ++ [COLON] ++ rest)
    = Some (PublicKey_z32 hs, base64url_encode secret ++ [COLON] ++ rest) ∧
    split_once COLON (base64url_encode secret ++ [COLON] ++ rest) = Some (base64url_encode secret, rest)) as Hs.
  { intros rest prefix Hp. apply split_fields; [|apply z32_no_colon|apply base64url_no_colon].
    destruct Hp as [-> | ->]; by apply contains_char_false. }
  destruct approval as [approval|].
  - destruct (Hs (jws ++ [COLON] ++ approval) STORED_GRANT_CREDENTIAL_APPROVAL_PREFIX (or_intror eq_refl)) as (-> & E2 & E3).
    cbn [ok_or mbind result_bind]. change (bool_decide (_ = STORED_GRANT_CREDENTIAL_PREFIX)) with false.
    change (bool_decide (STORED_GRANT_CREDENTIAL_APPROVAL_PREFIX = STORED_GRANT_CREDENTIAL_APPROVAL_PREFIX)) with true.
    cbn [negb andb]. rewrite E2. cbn [ok_or mbind result_bind]. rewrite E3. cbn [ok_or mbind result_bind].
    rewrite (proj2 (split_once_spec _ _ jws approval)) by (by split). cbn [ok_or mbind result_bind].
    rewrite (bool_decide_eq_false_2 (approval = [])) by congruence. cbn [mbind result_bind].
    rewrite bool_decide_eq_false_2 by done. unfold PublicKey_try_from_z32, PublicKey_z32. rewrite pkarr_roundtrip.
    cbn [map_err mbind result_bind]. rewrite base64url_roundtrip by done. cbn [ok_or mbind result_bind]. by rewrite Hl.
  - destruct (Hs jws STORED_GRANT_CREDENTIAL_PREFIX (or_introl eq_refl)) as (-> & E2 & E3).
    cbn [ok_or mbind result_bind]. change (bool_decide (STORED_GRANT_CREDENTIAL_PREFIX = STORED_GRANT_CREDENTIAL_PREFIX)) with true.
    cbn [negb andb]. rewrite E2. cbn [ok_or mbind result_bind]. rewrite E3. cbn [ok_or mbind result_bind].
    change (bool_decide (_ = STORED_GRANT_CREDENTIAL_APPROVAL_PREFIX)) with false. cbn [mbind result_bind].
    rewrite bool_decide_eq_false_2 by done. unfold PublicKey_try_from_z32, PublicKey_z32. rewrite pkarr_roundtrip.
    cbn [map_err mbind result_bind]. rewrite base64url_roundtrip by done. cbn [ok_or mbind result_bind]. by rewrite Hl.
Qed.

Lemma decode_nonempty jws claims : GrantClaims_decode jws = Ok claims → jws ≠ [].
Proof. by intros Hd ->. Qed.

Lemma verified_nonempty jws claims approval :
  approval_matches jws claims approval → va_signed_approval <$> approval ≠ Some [].
Proof.
  destruct approval as [[keys text]|]; [|done]. cbn [approval_matches va_signed_approval]. intros Hd [= ->].
  vm_compute in Hd. discriminate.
Qed.

(** The token of a credential with a local key. *)
Lemma exported_decodes c kp :
  credential_wf c → cs_client_signer (gc_state c) = LocalSigner kp →
  ∃ token, export_local_secret c = Some token ∧ is_secret_token token = true ∧
    StoredGrantCredential_decode token
    = Ok (mk_StoredGrantCredential (cs_grant_jws (gc_state c)) (kp_secret kp) (cs_homeserver_pk (gc_state c)) (signed_approval c)).
Proof.
  intros [(Hd & _ & Ha) Hc] Hs. cbn [material_of rm_grant_jws rm_grant_claims rm_verified_approval] in *.
  unfold export_local_secret. rewrite Hs. cbn [GrantPopSigner_local_secret mbind option_bind]. eexists. split; [done|]. split.
  - unfold is_secret_token, StoredGrantCredential_encode. apply starts_with_spec. cbn [sc_signed_approval].
    destruct (signed_approval c); unfold STORED_GRANT_CREDENTIAL_PREFIX, STORED_GRANT_CREDENTIAL_APPROVAL_PREFIX; by eexists.
  - apply stored_roundtrip; cbn [sc_grant_jws sc_signed_approval sc_client_key_secret]; [done| | |apply secret_key32].
    + by eapply decode_nonempty.
    + by eapply verified_nonempty.
Qed.

Lemma restore_material_ok now c kp allow :
  credential_wf c → cs_client_signer (gc_state c) = LocalSigner kp →
  restore_material now
    (mk_StoredGrantCredential (cs_grant_jws (gc_state c)) (kp_secret kp) (cs_homeserver_pk (gc_state c)) (signed_approval c)) allow
  = restored now allow (lit "stored grant credential has expired") (material_of c).
Proof.
  intros [(Hd & Hk & Ha) _] Hs. unfold restored, restore_material, material_of in *.
  cbn [rm_grant_jws rm_grant_claims rm_client_signer rm_verified_approval sc_signed_approval sc_grant_jws sc_client_key_secret sc_homeserver_pk] in *.
  unfold signed_approval. rewrite (restore_approval_ok _ _ _ Ha). cbn [mbind result_bind]. rewrite Hd. cbn [map_err mbind result_bind].
  rewrite Hs in Hk. cbn [GrantPopSigner_public_key] in Hk.
  destruct (_ && _); [done|]. cbv zeta. rewrite from_secret_secret, bool_decide_eq_true_2 by done. cbn [negb].
  rewrite Hs. by destruct (gc_verified_approval c).
Qed.

Lemma restore_delegated_ok now c d sign allow :
  credential_wf c → cs_client_signer (gc_state c) = DelegatedSigner d →
  restore_delegated_material now
    (mk_DelegatedGrantCredentialState (cs_grant_jws (gc_state c)) (cs_homeserver_pk (gc_state c)) (dp_key_id d) (dp_public_key d))
    sign allow (signed_approval c)
  = restored now allow (lit "delegated grant credential has expired")
      (mk_GrantRestoreMaterial (cs_grant_jws (gc_state c)) (cs_grant_claims (gc_state c))
         (DelegatedSigner (mk_DelegatedGrantPopSigner (dp_key_id d) (dp_public_key d) sign)) (cs_homeserver_pk (gc_state c))
         (gc_verified_approval c)).
Proof.
  intros [(Hd & Hk & Ha) _] Hs. unfold restored, restore_delegated_material, material_of in *.
  cbn [rm_grant_jws rm_grant_claims rm_client_signer rm_verified_approval ds_grant_jws ds_homeserver_pk ds_key_id ds_client_pk] in *.
  unfold signed_approval. rewrite (restore_approval_ok _ _ _ Ha). cbn [mbind result_bind]. rewrite Hd. cbn [map_err mbind result_bind].
  rewrite Hs in Hk. cbn [GrantPopSigner_public_key] in Hk.
  destruct (_ && _); [done|]. rewrite bool_decide_eq_true_2 by done. cbn [negb]. by destruct (gc_verified_approval c).
Qed.

(** The keys of a credential, recovered without the server. *)
Lemma keys_recovered c :
  material_wf (material_of c) →
  restore_encryption_keys_from_approval (cs_grant_jws (gc_state c)) (signed_approval c)
  = Ok ((λ keys, (cs_grant_claims (gc_state c), keys)) <$> GrantCredential_encryption_keys c).
Proof.
  intros (_ & _ & Ha). cbn [material_of rm_grant_jws rm_grant_claims rm_verified_approval] in Ha.
  unfold restore_encryption_keys_from_approval, signed_approval, GrantCredential_encryption_keys. rewrite (restore_approval_ok _ _ _ Ha). by destruct (gc_verified_approval c).
Qed.

(** Whatever is restored is of one piece. *)
Lemma restored_wf now saved allow m : restore_material now saved allow = Ok m → material_wf m.
Proof.
  unfold restore_material. destruct (restore_verified_approval _ _) as [r|] eqn:Hr; [|done]. cbn [mbind result_bind].
  destruct (GrantClaims_decode _) as [claims|] eqn:Hd; [|done]. cbn [map_err mbind result_bind].
  destruct (_ && _); [done|]. cbv zeta. case_bool_decide as Hk; [|done]. cbn [negb]. intros [= <-].
  split_and!; [done|done|]. cbn [rm_grant_jws rm_grant_claims rm_verified_approval].
  apply restore_approval_inv in Hr. destruct r as [[cl v]|]; [|done]. destruct Hr as [Hm _]. cbn [fmap option_fmap option_map snd].
  pose proof (approval_claims _ _ _ Hm) as Hc. rewrite Hd in Hc. by injection Hc as ->.
Qed.

(** (C34) A credential survives being stored.  The secret token exported for a
    credential with a key of its own restores exactly its grant, client key,
    home server and approval: importing it and exchanging the grant gives the
    same credential with the new bearer; an expired grant is refused, but still gives a credential to log out with,
    and its encryption keys are recovered offline.  A browser-held key is never
    exported; its metadata and approval restore the same credential with
    whatever signs for the key.  And what any token restores, whoever made it,
    is of one piece: the claims of its grant, the client key the grant is for,
    and keys from an approval of that very grant. *)
Theorem credential_restores c now :
  credential_wf c →
  match cs_client_signer (gc_state c) with
  | LocalSigner kp => ∃ token,
      export_local_secret c = Some token ∧ export_delegated_restore_state c = None ∧ is_secret_token token = true ∧
      restore_encryption_keys token = Ok ((λ keys, (cs_grant_claims (gc_state c), keys)) <$> GrantCredential_encryption_keys c) ∧
      (∃ c', from_shared_secret now token = Ok c' ∧ material_of c' = material_of c) ∧
      ∀ post n, import_secret post now n token =
        if exp (cs_grant_claims (gc_state c)) <=? now then Err (lit "stored grant credential has expired")
        else
          response ← post_grant_session post now n (cs_grant_jws (gc_state c)) (cs_grant_claims (gc_state c)) (LocalSigner kp)
                       (cs_homeserver_pk (gc_state c));
          Ok (retain_verified_approval (gc_verified_approval c)
                (GrantCredential_from_response response (cs_grant_jws (gc_state c)) (cs_grant_claims (gc_state c)) (LocalSigner kp)
                   (cs_homeserver_pk (gc_state c))))
  | DelegatedSigner d => ∃ state,
      export_local_secret c = None ∧ export_delegated_restore_state c = Some state ∧
      restore_encryption_keys_from_approval (ds_grant_jws state) (signed_approval c)
      = Ok ((λ keys, (cs_grant_claims (gc_state c), keys)) <$> GrantCredential_encryption_keys c) ∧
      ∃ c', from_shared_delegated_state now state (dp_sign d) (signed_approval c) = Ok c' ∧ material_of c' = material_of c
  end ∧
  ∀ token c', from_shared_secret now token = Ok c' → material_wf (material_of c').
Proof.
  intros Hc. split.
  - destruct (cs_client_signer (gc_state c)) as [kp|d] eqn:Hs.
    + destruct (exported_decodes c kp Hc Hs) as (token & He & Hp & Hd). exists token. split; [done|]. split.
      { unfold export_delegated_restore_state. by rewrite Hs. }
      split; [done|]. unfold restore_encryption_keys, from_shared_secret, import_secret. rewrite Hd. cbn [mbind result_bind sc_grant_jws sc_signed_approval].
      split_and!; [apply keys_recovered, Hc| |].
      * rewrite (restore_material_ok now c kp true Hc Hs). unfold restored. cbn [negb andb mbind result_bind].
        eexists. split; [done|]. unfold from_shared_material, material_of. by destruct c as [[] ? []].
      * intros post n. rewrite (restore_material_ok now c kp false Hc Hs). unfold restored. cbn [negb andb material_of rm_grant_claims].
        destruct (_ <=? _); [done|]. unfold exchange_restored_material, credential_from_grant_exchange.
        cbn [mbind result_bind material_of rm_grant_jws rm_grant_claims rm_client_signer rm_homeserver_pk rm_verified_approval]. rewrite Hs.
        by destruct (post_grant_session _ _ _ _ _ _ _).
    + eexists. unfold export_local_secret, export_delegated_restore_state. rewrite Hs. cbn [GrantPopSigner_local_secret GrantPopSigner_delegated_state mbind option_bind].
      split; [done|]. split; [done|]. split; [apply keys_recovered, Hc|]. unfold from_shared_delegated_state.
      rewrite (restore_delegated_ok now c d (dp_sign d) true Hc Hs). unfold restored. cbn [negb andb mbind result_bind].
      eexists. split; [done|]. unfold from_shared_material, material_of. rewrite Hs. by destruct c as [[] ? []], d.
  - intros token c'. unfold from_shared_secret. destruct (StoredGrantCredential_decode token) as [saved|]; [|done].
    cbn [mbind result_bind]. destruct (restore_material now saved true) as [m|] eqn:Hm; [|done]. intros [= <-].
    apply restored_wf in Hm. unfold from_shared_material, material_of. by destruct m as [? ? ? ? []].
Qed.

End Restoration.
