(* ===== verification/SdkSignin.v ===== *)
(** Signing in, from the signer's approval to a bearer that works: the client
    of [SdkApproval] and [SdkCredential] against the server of [Grants]. *)

From S2P Require Import Prelude StoragePath Capabilities HttpError Keys Quota Database Users Signup.
From S2P Require Import Authorization GrantTokens Grants GrantProofs GrantSessions.
From S2P Require Import EncryptionKeys DeepLinks SdkApproval SdkCredential.

(** * Database code that succeeds *)

(** Nothing fails; time may pass. *)
Definition steady (w : World) : Prop := Forall (λ t, fault t = false) (ticks w).

(** The code returns, with a value and tables that satisfy [Q]. *)
Definition succeeds {E A} (m : DB E A) (w : World) (Q : A → Tables → Prop) : Prop :=
  ∃ a w', m w = (Ok a, w') ∧ steady w' ∧ Q a (tables w').

Lemma succeeds_mono {E A} (m : DB E A) w (Q R : A → Tables → Prop) :
  succeeds m w Q → (∀ a tb, Q a tb → R a tb) → succeeds m w R.
Proof. intros (a & w' & Hm & Hs & HQ) HR. exists a, w'. auto. Qed.

Lemma succeeds_ret {E A} (a : A) w (Q : A → Tables → Prop) : steady w → Q a (tables w) → succeeds (E := E) (mret a) w Q.
Proof. intros. by exists a, w. Qed.

Lemma succeeds_lift {E A} (r : result E A) a w (Q : A → Tables → Prop) :
  steady w → r = Ok a → Q a (tables w) → succeeds (lift_result r) w Q.
Proof. intros Hs -> HQ. by exists a, w. Qed.

Lemma succeeds_bind {E A B} (m : DB E A) (k : A → DB E B) w (Q : B → Tables → Prop) :
  succeeds m w (λ a tb, ∀ w', steady w' → tables w' = tb → succeeds (k a) w' Q) → succeeds (m ≫= k) w Q.
Proof.
  intros (a & w' & Hm & Hs & Hk). destruct (Hk w' Hs eq_refl) as (b & w2 & Hb & Hs2 & HQ).
  exists b, w2. split; [|done]. cbv [mbind db_bind]. by rewrite Hm.
Qed.

Lemma succeeds_assoc {E A B C} (m : DB E A) (n : DB E B) (k : DB E C) w Q :
  succeeds ((m ;; n) ;; k) w Q → succeeds (m ;; n ;; k) w Q.
Proof.
  intros (c & w' & Hm & HQ). exists c, w'. split; [|done]. revert Hm. cbv [mbind db_bind].
  by destruct (m w) as [[a|e] w1].
Qed.

Lemma succeeds_map_err {E F A} (f : E → F) (m : DB E A) w Q : succeeds m w Q → succeeds (db_map_err f m) w Q.
Proof. intros (a & w' & Hm & HQ). exists a, w'. split; [|done]. unfold db_map_err. by rewrite Hm. Qed.

Lemma succeeds_try {E F A} (m : DB E A) w (Q : result E A → Tables → Prop) :
  succeeds m w (λ a, Q (Ok a)) → succeeds (E := F) (try_db m) w Q.
Proof. intros (a & w' & Hm & Hs & HQ). exists (Ok a), w'. split; [|done]. unfold try_db. by rewrite Hm. Qed.

Lemma steady_next w : steady w → fault (fst (next_tick w)) = false ∧ Forall (λ t, fault t = false) (snd (next_tick w)).
Proof. unfold steady, next_tick. by destruct 1; cbn. Qed.

(** A statement answers as it stands, an error of its own included. *)
Lemma steady_exec {A} (f : Stmt A) w :
  steady w → ∃ now tx, let '(r, tb, sq) := f now tx (tables w) (seqs w) in
    ∃ w', exec f w = (r, w') ∧ steady w' ∧ tables w' = tb.
Proof.
  intros [Hf Hn]%steady_next. unfold exec. destruct (next_tick w) as [t ts]. cbn [fst snd] in *.
  exists (clock w + Z.of_N (elapsed t)), (default (clock w + Z.of_N (elapsed t)) (tx_time w)).
  destruct (f _ _ (tables w) (seqs w)) as [[r tb] sq]. rewrite Hf. by eexists.
Qed.

Lemma succeeds_exec {A} (f : Stmt A) w (Q : A → Tables → Prop) :
  steady w → (∀ now tx sq, ∃ a tb sq', f now tx (tables w) sq = (Ok a, tb, sq') ∧ Q a tb) → succeeds (exec f) w Q.
Proof.
  intros Hs Hf. destruct (steady_exec f w Hs) as (now & tx & He). destruct (Hf now tx (seqs w)) as (a & tb & sq' & Ef & HQ).
  rewrite Ef in He. destruct He as (w' & He & Hs' & <-). by exists a, w'.
Qed.

Lemma succeeds_select {A} (f : Z → Tables → result SqlError A) w a (Q : A → Tables → Prop) :
  steady w → (∀ now, f now (tables w) = Ok a) → Q a (tables w) → succeeds (select f) w Q.
Proof. intros Hs Hf HQ. apply succeeds_exec; [done|]. intros now tx sq. rewrite Hf. by eexists _, _, _. Qed.

(** A query whose error is looked at. *)
Lemma succeeds_try_select {F A} (f : Z → Tables → result SqlError A) w r (Q : result SqlError A → Tables → Prop) :
  steady w → (∀ now, f now (tables w) = r) → Q r (tables w) → succeeds (E := F) (try_db (select f)) w Q.
Proof.
  intros Hs Hf HQ. destruct (steady_exec (λ now _ tb sq, (f now tb, tb, sq)) w Hs) as (now & tx & w' & He & Hs' & Ht).
  exists r, w'. unfold try_db, select. rewrite He, Hf, Ht. done.
Qed.

Lemma succeeds_tx {E A} (of_sql : SqlError → E) (body : DB E A) w (Q : A → Tables → Prop) :
  steady w → (∀ w', steady w' → tables w' = tables w → succeeds body w' Q) → succeeds (in_transaction of_sql body) w Q.
Proof.
  intros Hs Hb. unfold in_transaction. apply succeeds_bind, succeeds_map_err, succeeds_bind.
  eapply succeeds_select; [done|done|]. intros w1 Hs1 Ht1. eexists _, _. split; [reflexivity|]. split; [exact Hs1|].
  intros w2 Hs2 Ht2. apply succeeds_bind, succeeds_try. cbn [tables] in Ht2. eapply succeeds_mono; [apply Hb; [done|congruence]|].
  intros a tb HQ w3 Hs3 Ht3. apply succeeds_bind, succeeds_map_err.
  pose proof (steady_next w3 Hs3) as [Hf Hn]. unfold commit, succeeds. destruct (next_tick w3) as [t ts]. cbn [fst snd] in *.
  rewrite Hf. eexists _, _. split; [done|]. split; [done|]. intros w4 Hs4 Ht4. apply succeeds_ret; [done|].
  rewrite Ht4. cbn. by rewrite Ht3.
Qed.

(** * The exchange succeeds *)

Section Exchange.
Context `{PkarrKeysLaws, JsonStrings, Base32, !Jws, Sha256Laws, Calendar}.

(** The grant is not stored yet, or it is and can still be used. *)
Definition grant_usable (claims : GrantClaims) (tb : Tables) : Prop :=
  has_grant (jti claims) tb = false ∨
  ∃ ge, lookup_grant (jti claims) tb = Ok ge ∧ stored_grant_matches claims ge = true ∧ ge_revoked_at ge = None.

(** Neither the grants nor the users are touched. *)
Definition same_grants_users (tb tb' : Tables) : Prop :=
  grants (auth tb') = grants (auth tb) ∧ users tb' = users tb.

Lemma usable_same claims tb tb' : same_grants_users tb tb' → grant_usable claims tb → grant_usable claims tb'.
Proof.
  intros [Hg Hu] [Hf|(ge & Hl & Hm)]; [left; unfold has_grant; by rewrite Hg|right].
  exists ge. by rewrite (lookup_grant_same _ tb).
Qed.

Lemma lookup_grant_row id tb ge :
  lookup_grant id tb = Ok ge → ∃ g gs, filter (λ g, g_id g = id) (grants (auth tb)) = g :: gs ∧ grant_of tb g ge.
Proof.
  unfold lookup_grant. destruct (filter _ _) as [|g gs] eqn:Ef; [done|]. cbn [map fetch_one]. intros E. exists g, gs. split; [done|].
  apply GrantEntity_from_row_inv; [|done]. by apply filter_head in Ef as [? _].
Qed.

Lemma no_grant_filter id tb : has_grant id tb = false → filter (λ g, g_id g = id) (grants (auth tb)) = [].
Proof.
  unfold has_grant. intros Hf. destruct (filter _ _) as [|g gs] eqn:Ef; [done|]. apply filter_head in Ef as [Hin Hid].
  apply not_true_iff_false in Hf. destruct Hf. apply existsb_exists. exists g. rewrite <-list_elem_of_In. split; [done|].
  by apply bool_decide_eq_true.
Qed.

(** The checks on the tokens. *)
Lemma verify_succeeds hs at_ gj pj claims pop w :
  steady w → verify_grant (at_expiry at_) gj = Ok claims → verify_pop_proof hs (at_pop at_) pj claims = Ok pop →
  grant_usable claims (tables w) → pp_nonce pop ∉ map n_nonce (pop_nonces (auth (tables w))) →
  succeeds (verify_grant_and_pop hs at_ gj pj) w
    (λ a tb, a = claims ∧ same_grants_users (tables w) tb ∧ grant_sessions (auth tb) = grant_sessions (auth (tables w))).
Proof.
  intros Hs Hg Hp Hu Hn. unfold verify_grant_and_pop. apply succeeds_bind.
  eapply succeeds_lift; [done|by rewrite Hg|]. intros w1 Hs1 Ht1. apply succeeds_bind. unfold check_grant_not_revoked.
  apply succeeds_bind. set (rev := filter (λ g, g_id g = jti claims) (grants (auth (tables w)))).
  assert (rev = [] ∨ ∃ g gs, rev = g :: gs ∧ g_revoked_at g = None) as Hrev.
  { destruct Hu as [Hf%no_grant_filter|(ge & Hl & _ & Hr)]; [by left|right].
    apply lookup_grant_row in Hl as (g & gs & Hf & Hgo). exists g, gs. split; [done|].
    destruct Hgo as (_ & _ & _ & _ & _ & _ & _ & _ & _ & ->). done. }
  assert (∀ r, r = fetch_one (λ g, Ok (bool_decide (g_revoked_at g ≠ None))) rev → r = Ok false ∨ r = Err RowNotFound) as Hr.
  { intros r ->. destruct Hrev as [-> |(g & gs & -> & Hr)]; [by right|left]. cbn [fetch_one]. rewrite Hr. done. }
  eapply succeeds_try_select; [done|by rewrite Ht1|]. intros w2 Hs2 Ht2. apply succeeds_bind.
  assert (∀ w0, steady w0 → succeeds (E := AuthServiceError)
    match fetch_one (λ g, Ok (bool_decide (g_revoked_at g ≠ None))) rev with
    | Ok b => mret b | Err RowNotFound => mret false | Err other => throw (AuthInternal other) end w0
    (λ b tb, b = false ∧ tb = tables w0)) as Hchk.
  { intros w0 Hs0. destruct (Hr _ eq_refl) as [-> | ->]; by apply succeeds_ret. }
  eapply succeeds_mono; [apply Hchk; done|]. intros b tb [-> ->] w3 Hs3 Ht3. apply succeeds_ret; [done|].
  intros w4 Hs4 Ht4. apply succeeds_bind. eapply succeeds_lift; [done|exact Hp|]. intros w5 Hs5 Ht5.
  assert (tables w5 = tables w) as Et by congruence. apply succeeds_bind. unfold check_nonce_replay. apply succeeds_bind, succeeds_try.
  apply succeeds_exec; [done|]. intros now tx sq. eexists _, _, _. split; [done|]. intros w6 Hs6 Ht6.
  apply succeeds_map_err, succeeds_bind, succeeds_map_err, succeeds_exec; [done|]. intros now' tx' sq'.
  rewrite Ht6, Et. cbn [pop_nonces auth set_pop_nonces set_auth].
  destruct (existsb _ _) eqn:Ex.
  { exfalso. apply existsb_exists in Ex as (x & Hx & E%bool_decide_eq_true). apply Hn. rewrite <-E. apply list_elem_of_fmap_2.
    apply list_elem_of_In, list_elem_of_filter in Hx. tauto. }
  eexists _, _, _. split; [done|]. intros w7 Hs7 Ht7. cbn [Z.eqb]. apply succeeds_ret; [done|]. intros w8 Hs8 Ht8.
  apply succeeds_ret; [done|]. rewrite Ht8, Ht7. done.
Qed.

(** The row a first exchange stores, read back. *)
Lemma new_grant_decodes claims u tb tx :
  users_wf tb → u ∈ users tb → u_public_key u = PublicKey_z32 (iss claims) →
  RandomId_parse (jti claims) = Ok (jti claims) → ClientId_new (client_id claims) = Ok (client_id claims) →
  Forall Capability_wf (caps claims) →
  let row := mk_GrantRow (jti claims) (u_id u) (client_id claims) (PublicKey_z32 (cnf claims)) (Capabilities_fmt (caps claims))
               (as_i64 (iat claims)) (as_i64 (exp claims)) None tx in
  ∃ ge, GrantEntity_from_row (grant_join tb row) = Ok ge ∧ stored_grant_matches claims ge = true.
Proof.
  intros Hwf Hu Hk Hj Hc Hcaps row. unfold GrantEntity_from_row, parse_identity_fields, parse_grant_metadata, grant_join.
  cbn [fst snd g_id g_user g_client_id g_capabilities row]. rewrite Hj. cbn [map_err mbind result_bind].
  assert (∃ i, list_find (λ v, u_id v = u_id u) (users tb) = Some (i, u)) as [i ->].
  { destruct Hwf as (Hid & _). destruct (list_find_elem_of (λ v, u_id v = u_id u) (users tb) u Hu eq_refl) as [[i v] Hf].
    exists i. rewrite Hf. apply list_find_Some in Hf as (Hv%list_elem_of_lookup_2 & Hvu & _). by rewrite (NoDup_map_inj u_id _ v u Hid Hv Hu Hvu). }
  cbn [fmap option_fmap option_map ok_or mbind result_bind snd compose]. rewrite Hk. unfold PublicKey_try_from_z32, PublicKey_z32 at 1.
  rewrite pkarr_roundtrip. cbn [map_err mbind result_bind]. rewrite Hc. cbn [map_err mbind result_bind].
  rewrite Capabilities_parse_fmt by done. cbn [map_err mbind result_bind]. eexists. split; [done|].
  apply stored_grant_matches_spec. done.
Qed.

(** The grant is stored, or was, and matches. *)
Lemma store_succeeds claims user u w :
  steady w → users_wf (tables w) → u ∈ users (tables w) → u_public_key u = PublicKey_z32 (iss claims) → ue_id user = u_id u →
  RandomId_parse (jti claims) = Ok (jti claims) → ClientId_new (client_id claims) = Ok (client_id claims) →
  Forall Capability_wf (caps claims) → grant_usable claims (tables w) →
  succeeds (store_grant claims user ;; require_stored_grant_matches claims) w (λ _ tb,
    grant_sessions (auth tb) = grant_sessions (auth (tables w)) ∧
    ∃ g gs, filter (λ g, g_id g = jti claims) (grants (auth tb)) = g :: gs ∧ g_revoked_at g = None ∧
      g_expires_at g = as_i64 (exp claims)).
Proof.
  intros Hs Hwf Hu Hk Hid Hj Hc Hcaps Hus. apply succeeds_bind, succeeds_map_err, succeeds_exec; [done|]. intros now tx sq.
  assert (∃ tb' sq' ge, (if has_grant (jti claims) (tables w) then (Ok (), tables w, sq)
      else if negb (existsb (λ v, u_id v =? ue_id user) (users (tables w))) then (Err ForeignKeyViolation, tables w, sq)
      else (Ok (), set_grants (λ l, l ++ [mk_GrantRow (jti claims) (ue_id user) (client_id claims) (PublicKey_z32 (cnf claims))
              (Capabilities_fmt (caps claims)) (as_i64 (iat claims)) (as_i64 (exp claims)) None tx]) (tables w), sq))
      = (Ok (), tb', sq') ∧ grant_sessions (auth tb') = grant_sessions (auth (tables w)) ∧
      lookup_grant (jti claims) tb' = Ok ge ∧ stored_grant_matches claims ge = true ∧ ge_revoked_at ge = None)
    as (tb' & sq' & ge & He & Hses & Hl & Hm & Hr).
  { destruct (has_grant (jti claims) (tables w)) eqn:Hh.
    - destruct Hus as [?|(ge & Hl & Hm & Hr)]; [congruence|]. by exists (tables w), sq, ge.
    - assert (existsb (λ v, u_id v =? ue_id user) (users (tables w)) = true) as ->.
      { apply existsb_exists. exists u. rewrite <-list_elem_of_In. split; [done|]. lia. }
      cbn [negb]. rewrite Hid. destruct (new_grant_decodes claims u (tables w) tx) as (ge & Hge & Hm); try done.
      eexists _, _, ge. split; [done|]. split; [done|]. unfold lookup_grant. cbn [set_grants set_auth auth grants].
      rewrite filter_app, no_grant_filter by done. rewrite filter_cons, decide_True by done. cbn [filter list_filter app map fetch_one].
      split_and!; [exact Hge|done|]. unfold GrantEntity_from_row in Hge. destruct (parse_identity_fields _) as [[[[[a b] c] d] e]|]; [|done].
      unfold parse_grant_metadata in Hge. cbn [mbind result_bind] in Hge. destruct (Capabilities_from_str _); [|done]. cbn in Hge. by injection Hge as <-. }
  exists (), tb', sq'. split; [exact He|]. intros w1 Hs1 Ht1. unfold require_stored_grant_matches, get_grant, map_not_found.
  apply succeeds_bind, succeeds_map_err. eapply succeeds_select; [done|intros _; rewrite Ht1; exact Hl|]. intros w2 Hs2 Ht2.
  rewrite Hm. cbn [negb]. apply succeeds_ret; [done|]. assert (tables w2 = tb') as -> by congruence. split; [done|].
  apply lookup_grant_row in Hl as (g & gs & Hf & Hgo). exists g, gs. split; [done|].
  destruct Hgo as (_ & _ & _ & _ & _ & _ & _ & _ & -> & ->). split; [done|]. apply stored_grant_matches_spec in Hm. tauto.
Qed.

(** The bearer replaces the one before it. *)
Lemma mint_succeeds hs at_ b claims w g gs :
  steady w → filter (λ g, g_id g = jti claims) (grants (auth (tables w))) = g :: gs → g_revoked_at g = None →
  at_issue at_ < g_expires_at g →
  sha256 b ∉ map t_token_hash (filter (λ t, t_grant_id t ≠ jti claims) (grant_sessions (auth (tables w)))) →
  succeeds (mint_session hs at_ b claims) w (λ _ _, True).
Proof.
  intros Hs Hf Hr He Hh. unfold mint_session. cbv zeta. apply succeeds_bind, succeeds_map_err, succeeds_tx; [done|].
  intros w1 Hs1 Ht1. unfold replace_for_grant_in_tx. cbn [ns_grant_id ns_token_hash]. apply succeeds_bind, succeeds_map_err.
  eapply succeeds_select; [done|intros _; by rewrite Ht1, Hf|]. intros w2 Hs2 Ht2. rewrite Hr. cbn [bool_decide].
  rewrite bool_decide_eq_false_2 by auto. rewrite (proj2 (Z.leb_gt _ _)) by lia.
  apply succeeds_bind, succeeds_map_err, succeeds_exec; [done|]. intros now tx sq. eexists _, _, _. split; [done|].
  intros w3 Hs3 Ht3. apply succeeds_map_err, succeeds_exec; [done|]. intros now' tx' sq'. rewrite Ht3, Ht2, Ht1.
  change (grant_sessions (auth (set_grant_sessions ?f ?tb))) with (f (grant_sessions (auth tb))).
  destruct (existsb _ (filter _ _)) eqn:Ex.
  { exfalso. apply existsb_exists in Ex as (t & Hin & E%bool_decide_eq_true). apply Hh. cbn [ns_token_hash] in E. unfold SessionBearer_hash in E. rewrite <-E. by apply list_elem_of_fmap_2, list_elem_of_In. }
  assert (has_grant (jti claims) (tables w) = true) as Hg.
  { apply has_grant_spec. apply filter_head in Hf as [Hin <-]. by apply list_elem_of_fmap_2. }
  assert (∀ f tb, has_grant (jti claims) (set_grant_sessions f tb) = has_grant (jti claims) tb) as Hsame by done.
  cbn [ns_grant_id]. rewrite Hsame, Hg. cbn [negb]. eexists _, _, _. split; [done|].
  intros w4 Hs4 Ht4. by apply succeeds_ret.
Qed.

(** With a valid grant and proof the exchange succeeds, a first one and a later one. *)
Lemma exchange_succeeds hs at_ b gj pj claims pop u w :
  steady w → users_wf (tables w) → user_row (iss claims) (tables w) = Some u →
  verify_grant (at_expiry at_) gj = Ok claims → verify_pop_proof hs (at_pop at_) pj claims = Ok pop →
  pp_nonce pop ∉ map n_nonce (pop_nonces (auth (tables w))) → grant_usable claims (tables w) →
  RandomId_parse (jti claims) = Ok (jti claims) → ClientId_new (client_id claims) = Ok (client_id claims) →
  Forall Capability_wf (caps claims) → at_issue at_ < as_i64 (exp claims) →
  sha256 b ∉ map t_token_hash (filter (λ t, t_grant_id t ≠ jti claims) (grant_sessions (auth (tables w)))) →
  ∃ resp w', create_grant_session hs at_ b gj pj w = (Ok resp, w').
Proof.
  intros Hs Hwf Hu Hg Hp Hn Hus Hj Hc Hcaps He Hh.
  assert (succeeds (create_grant_session hs at_ b gj pj) w (λ _ _, True)) as (resp & w' & Hr & _); [|by exists resp, w'].
  unfold create_grant_session. apply succeeds_bind. eapply succeeds_mono; [by apply (verify_succeeds _ _ _ _ claims pop)|].
  intros ? tb (-> & Hsame & Hses) w1 Hs1 Ht1. rewrite <-Ht1 in Hsame, Hses. clear tb Ht1. pose proof Hsame as [_ Hus1].
  apply succeeds_bind. unfold find_user, map_not_found. apply succeeds_map_err.
  assert (users_wf (tables w1)) as Hwf1 by (unfold users_wf; by rewrite Hus1).
  assert (user_row (iss claims) (tables w1) = Some u) as Hu1 by (unfold user_row; by rewrite Hus1).
  eapply succeeds_select; [done| |].
  { intros _. rewrite fetch_user_by_key. unfold user_row in Hu1. destruct (list_find _ _) as [[i v]|]; [|done]. injection Hu1 as ->. reflexivity. }
  intros w2 Hs2 Ht2. apply succeeds_assoc, succeeds_bind. pose proof (user_row_Some _ _ _ Hu1) as [Hin Hk].
  eapply succeeds_mono.
  - apply (store_succeeds claims _ u); rewrite ?Ht2; try done. by apply usable_same with (tables w).
  - intros [] tb (Hs3 & g & gs & Hf & Hrev & Hx) w3 Hst3 Ht3. rewrite <-Ht3 in Hs3, Hf.
    eapply mint_succeeds; [done|exact Hf|done|by rewrite Hx|]. by rewrite Hs3, Ht2, Hses.
Qed.

End Exchange.

(** * From the approval to a bearer *)

Section Signin.
Context `{PkarrKeysLaws, JsonStrings, Base32, !Jws, Sha256Laws, Calendar}.
Context `{!Base64Url, !Signing, !ApprovalJson, !Hkdf, !Sealing, !QueryCodec, !PopWriter}.
Context `{!Base64UrlLaws, !SigningLaws, !ApprovalJsonLaws, !SealingLaws, !SignedTokens, !PopWriterLaws}.

(** The server accepts the client's proof while the clocks are within three minutes. *)
Lemma pop_accepted hs claims ckp now n t :
  cnf claims = kp_public_key ckp → RandomId_parse (jti claims) = Ok (jti claims) → RandomId_parse n = Ok n →
  0 ≤ now ≤ I64_MAX → from_timestamp now = true → 0 ≤ t ≤ I64_MAX → Z.abs (t - now) ≤ POP_MAX_AGE_SECS →
  ∃ pop_jws, sign_pop_for_grant now n (LocalSigner ckp) hs (jti claims) = Ok pop_jws ∧
    verify_pop_proof hs t pop_jws claims = Ok (mk_PopProof (jti claims) n now).
Proof.
  intros Hk Hj Hn Hnow Hcal Ht Hw. assert (pop_ok (mk_PopProofClaims hs (jti claims) n now)) as Hp.
  { split_and!; cbn; try done; unfold I64_MAX, U64_MAX in *; lia. }
  eexists. split; [done|]. unfold verify_pop_proof, PopProof_verify, pop_verify_signature, pop_check_header_type.
  cbn [cnf_key expected_audience expected_grant_id]. rewrite Hk.
  match goal with |- context [finish_jws ?i (kp_sign ckp ?i)] =>
    change (finish_jws i (kp_sign ckp i)) with (sign_jws ckp POP_JWS_TYP (pop_json (mk_PopProofClaims hs (jti claims) n now))) end.
  rewrite jwt_decode_signed by apply pop_bytes. cbn [mbind option_bind]. rewrite pop_roundtrip by done.
  cbn [ok_or mbind result_bind]. rewrite jwt_typ_signed. cbn [ok_or mbind result_bind]. rewrite bool_decide_eq_true_2 by done.
  unfold check_audience, check_grant_binding, check_timestamp, parse_verified_pop. cbn [mbind result_bind aud gid nonce pop_iat].
  rewrite !bool_decide_eq_true_2 by done. cbn [mbind result_bind]. 
  rewrite as_u64_small by (unfold U64_MAX, I64_MAX in *; lia). rewrite (proj2 (Z.ltb_ge _ _)) by lia. cbn [mbind result_bind]. rewrite as_i64_small by (unfold I64_MIN, I64_MAX in *; lia). by rewrite Hcal.
Qed.

(** The answer of the server to a grant and a proof, as the client sees it. *)
Definition server_post (hs : PublicKey) (at_ : Instants) (b : str) (w : World) (grant_jws pop_jws : str)
    : result str GrantSessionResponse :=
  map_err (λ e, default [] (detail e)) (fst (create_grant_session_route hs at_ b grant_jws pop_jws w)).

(** An accepted approval is of one piece. *)
Lemma accepted_matches message link secret approval :
  decode_and_validate_approval message link secret = Ok approval →
  approval_matches (ga_grant_jws approval) (ga_claims approval) (ga_verified_approval approval) ∧
  GrantClaims_decode (ga_grant_jws approval) = Ok (ga_claims approval).
Proof.
  unfold decode_and_validate_approval. destruct (pending_request link) as [p|]; [|done]. cbn [mbind result_bind].
  destruct (validate_approval_key _ secret) as [[]|]; [|done]. cbn [mbind result_bind].
  destruct (match secret with Some _ => _ | None => _ end) as [m|]; [|done]. cbn [mbind result_bind].
  destruct (GrantApproval_decode m _) as [a|] eqn:Hd; [|done]. cbn [mbind result_bind]. intros Ha.
  assert (a = approval) as ->.
  { revert Ha. repeat (match goal with |- (if ?c then _ else _) = _ → _ => destruct c; [done|] end). by intros [= ->]. }
  unfold GrantApproval_decode in Hd. destruct (from_utf8 m) as [text|]; [|done]. cbn [ok_or mbind result_bind] in Hd.
  destruct (pr_format p).
  - pose proof (decode_text_inv _ _ _ Hd) as (-> & -> & Hc). by split.
  - destruct (verified_text _ _ Hd) as [keys Hv]. destruct approval as [g cl va]. cbn in *. subst va. split; [exact Hd|].
    by apply (approval_claims g cl (mk_VerifiedApproval keys text)).
Qed.

(** The server before a first exchange: the user has an account, and the grant,
    the nonce and the bearer are new. *)
Definition server_ready (user : PublicKey) (grant_id pop_nonce bearer : str) (w : World) : Prop :=
  steady w ∧ users_wf (tables w) ∧ is_Some (user_row user (tables w)) ∧ has_grant grant_id (tables w) = false ∧
  pop_nonce ∉ map n_nonce (pop_nonces (auth (tables w))) ∧
  sha256 bearer ∉ map t_token_hash (grant_sessions (auth (tables w))).

(** The server reads its clocks before the grant ends, and they are within three
    minutes of the client's. *)
Definition clocks_agree (at_ : Instants) (client_now end_ : Z) : Prop :=
  0 ≤ at_expiry at_ < end_ ∧ 0 ≤ at_issue at_ < end_ ∧ 0 ≤ at_mint at_ ≤ I64_MAX - DEFAULT_SESSION_TOKEN_LIFETIME_SECS ∧
  0 ≤ at_pop at_ ≤ I64_MAX ∧ Z.abs (at_pop at_ - client_now) ≤ POP_MAX_AGE_SECS ∧
  0 ≤ client_now ≤ I64_MAX ∧ from_timestamp client_now = true.

(** The exchange of a received approval. *)
Lemma received_exchanged approval kp ckp hs at_ b n client_now w :
  let claims := ga_claims approval in
  ga_grant_jws approval = sign_jws kp GRANT_JWS_TYP (claims_json claims) → claims_ok claims → iss claims = kp_public_key kp →
  cnf claims = kp_public_key ckp → exp claims ≤ I64_MAX → RandomId_parse n = Ok n →
  server_ready (iss claims) (jti claims) n b w → clocks_agree at_ client_now (exp claims) →
  (∀ t, 0 ≤ t < exp claims → verify_grant t (ga_grant_jws approval) = Ok claims) →
  ∃ pop_jws resp w', sign_pop_for_grant client_now n (LocalSigner ckp) hs (jti claims) = Ok pop_jws ∧
    create_grant_session hs at_ b (ga_grant_jws approval) pop_jws w = (Ok resp, w').
Proof.
  intros claims Hj (Hcid & Hcaps & Hjti & _) Hi Hk Hmax Hn (Hs & Hwf & [u Hu] & Hg & Hnn & Hb) (He & His & Hm & Hp & Hw & Hc & Hcal) Hv.
  destruct (pop_accepted hs claims ckp client_now n (at_pop at_)) as (pop_jws & Hpop & Hver); try done.
  destruct (exchange_succeeds hs at_ b (ga_grant_jws approval) pop_jws claims (mk_PopProof (jti claims) n client_now) u w)
    as (resp & w' & Hr); try done.
  - apply Hv. lia.
  - by left.
  - rewrite as_i64_small by lia. lia.
  - intros (t & Et & Ht%list_elem_of_filter)%list_elem_of_fmap. apply Hb. rewrite Et. apply list_elem_of_fmap_2. tauto.
  - by exists pop_jws, resp, w'.
Qed.

(** (C29) Signing in works, from the request to a bearer.  Whenever a user with an
    account approves a grant request (within what it asks for), the app that
    made the request, holding the client key, decodes the answer, exchanges the
    grant with its proof of possession, and gets a session: if no statement
    fails and the clocks agree to three minutes, the server's route accepts the
    two tokens, the app ends up with a credential of one piece, and its bearer
    resolves on the server to the user with exactly the approved capabilities
    until it expires, in an hour or with the grant. *)
Theorem client_signs_in now gid rnd kp link approved p secret ckp hs at_ b n client_now w :
  pending_request link = Ok p → request_ok p → holds_key (pr_relay_channel p) secret →
  Forall Capability_wf (default [] approved) → RandomId_parse gid = Ok gid →
  0 ≤ now ≤ I64_MAX - DEFAULT_GRANT_LIFETIME_SECS → length rnd = 24%nat → approvable kp p approved = true →
  kp_public_key ckp = pr_client_pk p → RandomId_parse n = Ok n →
  server_ready (kp_public_key kp) gid n b w → clocks_agree at_ client_now (now + DEFAULT_GRANT_LIFETIME_SECS) →
  let granted := default (pr_capabilities p) approved in
  let expires := Z.min (at_mint at_ + DEFAULT_SESSION_TOKEN_LIFETIME_SECS) (now + DEFAULT_GRANT_LIFETIME_SECS) in
  ∃ wire message approval pop_jws credential w',
    approve_grant_deeplink now gid rnd kp link approved = Some (Ok wire) ∧
    relay_message (pr_relay_channel p) wire = Some message ∧
    decode_and_validate_approval message link secret = Ok approval ∧
    sign_pop_for_grant client_now n (LocalSigner ckp) hs gid = Ok pop_jws ∧
    JwsCompact_parse (ga_grant_jws approval) = Some (ga_grant_jws approval) ∧ JwsCompact_parse pop_jws = Some pop_jws ∧
    snd (create_grant_session_route hs at_ b (ga_grant_jws approval) pop_jws w) = w' ∧
    exchange_for_credential (server_post hs at_ b w) client_now n (λ _, Ok hs) approval (LocalSigner ckp) = Ok credential ∧
    credential_wf credential ∧ gc_info credential = mk_SessionInfo (kp_public_key kp) granted ∧
    ∀ t w2 r w3, tables w2 = tables w' → resolve_grant_session_by_bearer t (current_bearer credential) w2 = (r, w3) →
      r = Err (AuthInternal SqlIo) ∨
      r = if expires <=? t then Err SessionExpired else Ok (mk_GrantSession (kp_public_key kp) granted gid expires (sha256 b)).
Proof.
  intros Hp Hreq Hk Ha Hgid Hnow Hr Hok Hck Hn Hready Hclocks granted expires.
  pose proof (approval_received now gid rnd kp link approved p secret Hp Hreq Hk Ha Hgid) as Hd.
  rewrite Hok in Hd. destruct Hd as (wire & message & approval & Hw & Hm & Hdec & Hc & Hj & _ & Hv); [unfold I64_MAX, U64_MAX in *; lia|done|].
  set (claims := approved_claims now gid kp p approved) in *.
  assert (claims_ok claims) as Hcl.
  { destruct Hreq as [Hcaps Hcid]. unfold claims, approved_claims. split_and!; cbn [client_id caps jti iat exp]; try done;
      [by destruct approved|unfold DEFAULT_GRANT_LIFETIME_SECS, I64_MAX, U64_MAX in *; lia..]. }
  destruct (received_exchanged approval kp ckp hs at_ b n client_now w) as (pop_jws & resp & w' & Hpop & Hex);
    rewrite ?Hc; try done; [unfold claims; cbn; lia|].
  rewrite Hc in Hpop. destruct (accepted_matches _ _ _ _ Hdec) as [Hmatch Hgd]. rewrite Hc in Hmatch, Hgd.
  pose proof Hclocks as (_ & His & Hmint & _).
  pose proof Hex as (claims' & row & Hver & _ & Hresp & _ & _ & _ & Hres)%exchange_mints; [|done|lia].
  rewrite Hv in Hver by (destruct Hclocks; lia). injection Hver as <-.
  exists wire, message, approval, pop_jws, (retain_verified_approval (ga_verified_approval approval)
    (GrantCredential_from_response resp (ga_grant_jws approval) claims (LocalSigner ckp) hs)), w'.
  split_and!; [done..| | | | | | |].
  - rewrite Hj. apply signed_compact.
  - unfold sign_pop_for_grant in Hpop. injection Hpop as <-. apply signed_compact.
  - unfold create_grant_session_route, db_map_err. by rewrite Hex.
  - unfold exchange_for_credential, credential_from_grant_exchange, post_grant_session. cbn [mbind result_bind].
    rewrite Hc, Hpop. cbn [mbind result_bind]. unfold server_post, create_grant_session_route, db_map_err. by rewrite Hex.
  - split; [split_and!; [exact Hgd|exact Hck|exact Hmatch]|]. cbn [gc_state cs_grant_jws retain_verified_approval GrantCredential_from_response]. rewrite Hj. apply signed_compact.
  - by rewrite Hresp.
  - intros t w2 r w3 Ht Hrun. unfold current_bearer, retain_verified_approval, GrantCredential_from_response in Hrun.
    cbn [gc_state cs_bearer] in Hrun. rewrite Hresp in Hrun. cbn [gr_token] in Hrun. by apply (Hres t w2 r w3).
Qed.

End Signin.

(** * Witnesses *)

#[local] Existing Instance bits_signing.
#[local] Existing Instance bits_signing_laws.
#[local] Existing Instance bits_jws.
#[local] Existing Instance bits_base64.
#[local] Existing Instance bits_base64_laws.
#[local] Existing Instance bits_json.
#[local] Existing Instance bits_json_laws.
#[local] Existing Instance plain_sealing.
#[local] Existing Instance plain_sealing_laws.
#[local] Existing Instance bits_tokens.
#[local] Existing Instance chain_hkdf.

Definition pop_fields (c : PopProofClaims (H := demo_keys)) : str * str * str * Z :=
  (demo_z32 (aud c), gid c, nonce c, pop_iat c).

#[local] Instance bits_pop : @PopWriter demo_keys := {| pop_json c := to_bytes (pop_fields c) |}.
#[local] Instance bits_pop_laws : PopWriterLaws.
Proof.
  split; cbn [pop_json bits_pop].
  - intros c. apply to_bytes_ok.
  - intros c (Hg & Hn & Hi). unfold pop_from_slice. cbn [json_pop bits_jws]. rewrite of_to_bytes. cbn [mbind option_bind pop_fields].
    unfold PopProofClaims_deserialize. cbn [j_aud j_gid j_nonce j_pop_iat].
    change (PublicKey_try_from_z32 (demo_z32 (aud c))) with (pkarr_try_from (pkarr_to_string (aud c))).
    rewrite pkarr_roundtrip. cbn [ok mbind option_bind]. rewrite Hg. cbn [ok mbind option_bind]. rewrite Hn. cbn [ok mbind option_bind].
    unfold U64_in_range. rewrite !(proj2 (Z.leb_le _ _)) by lia. by destruct c.
Qed.

Definition signin_instants (t : Z) : Instants := mk_Instants t t t (t * 1000000) (t * 1000000) t t t.
Definition signin_world : World :=
  mk_World (mk_Tables [demo_user_row] [] [] [] no_auth) (mk_Seqs 2 1 1 1 1) 1100 None [].

Lemma signin_ready : server_ready (H := demo_keys) true (lit "grant-1") (lit "n1") (lit "bearer") signin_world.
Proof.
  split_and!.
  - constructor.
  - split_and!; [apply (bool_decide_unpack _); vm_compute; exact I..|]. constructor; [|constructor]. split.
    + exists true. reflexivity.
    + vm_compute. split; discriminate.
  - exists demo_user_row. reflexivity.
  - reflexivity.
  - apply not_elem_of_nil.
  - apply not_elem_of_nil.
Qed.

Lemma signin_clocks : clocks_agree (signin_instants 1100) 1000 (1000 + DEFAULT_GRANT_LIFETIME_SECS).
Proof. vm_compute. repeat split; discriminate. Qed.

Lemma client_signs_in_witness :
  ∃ wire message approval credential,
    approve_grant_deeplink (H := demo_keys) (H1 := bits_base64) 1000 (lit "grant-1") (repeat 0 24) true app_request None = Some (Ok wire) ∧
    relay_message (Hpke (repeat 7 32)) wire = Some message ∧
    decode_and_validate_approval (H := demo_keys) (H0 := bits_jws) message app_request (Some (repeat 7 32)) = Ok approval ∧
    exchange_for_credential (H := demo_keys)
      (server_post (H := demo_keys) (H3 := bits_jws) true (signin_instants 1100) (lit "bearer") signin_world) 1000 (lit "n1") (λ _, Ok true)
      approval (LocalSigner (H := demo_keys) (H2 := bits_signing) false) = Ok credential ∧
    gc_info credential = mk_SessionInfo (H := demo_keys) true app_request_caps.
Proof.
  destruct (client_signs_in (H := demo_keys) (H3 := bits_jws) (H7 := bits_base64) (H8 := bits_signing) (H9 := bits_json) (H13 := bits_pop)
      1000 (lit "grant-1") (repeat 0 24) true app_request None app_pending (Some (repeat 7 32))
      false true (signin_instants 1100) (lit "bearer") (lit "n1") 1000 signin_world)
    as (wire & message & approval & pop & credential & w' & Hw & Hm & Hd & _ & _ & _ & _ & He & _ & Hi & _).
  - reflexivity.
  - split; [exact app_request_caps_wf|reflexivity].
  - reflexivity.
  - constructor.
  - reflexivity.
  - vm_compute. split; discriminate.
  - reflexivity.
  - reflexivity.
  - reflexivity.
  - reflexivity.
  - exact signin_ready.
  - exact signin_clocks.
  - exists wire, message, approval, credential. split_and!; [exact Hw|exact Hm|exact Hd|exact He|exact Hi].
Defined.

(** A credential with a key of its own and a grant of read access. *)
Definition kept_claims : GrantClaims (H := demo_keys) :=
  mk_GrantClaims (H := demo_keys) true (lit "app.example") [mk_Capability (mk_StoragePath (lit "/pub/")) [Read]] false (lit "grant-1") 1000 2000.
Definition kept_credential : GrantCredential (H := demo_keys) (H2 := bits_signing) :=
  GrantCredential_from_response (H := demo_keys)
    (mk_GrantSessionResponse (H := demo_keys) (lit "bearer")
       (mk_GrantSessionInfo (H := demo_keys) true true (lit "app.example") (caps kept_claims) (lit "grant-1") 1500 2000 1000))
    (sign_jws (H := demo_keys) (H1 := bits_base64) true GRANT_JWS_TYP (claims_json kept_claims)) kept_claims (LocalSigner false) true.

Lemma kept_wf : credential_wf (H := demo_keys) (H0 := bits_jws) kept_credential.
Proof.
  split; [split_and!|].
  - apply (GrantClaims_decode_signed (H := demo_keys)). split_and!; try done.
    apply (Capabilities_from_str_wf (lit "/pub/:r")). vm_compute. reflexivity.
  - reflexivity.
  - exact I.
  - apply (signed_compact (H := demo_keys)).
Qed.

Lemma credential_restores_witness :
  ∃ token c', export_local_secret (H := demo_keys) (H0 := bits_jws) kept_credential = Some token ∧
    from_shared_secret (H := demo_keys) (H0 := bits_jws) 3000 token = Ok c' ∧ material_of c' = material_of kept_credential.
Proof.
  destruct (credential_restores (H := demo_keys) (H1 := bits_jws) kept_credential 3000 kept_wf)
    as [(token & He & _ & _ & _ & (c' & Hr & Hm) & _) _].
  exists token, c'. split; [exact He|]. split; [exact Hr|exact Hm].
Defined.
