(* ===== verification/SdkFlow.v ===== *)
(** A pending grant flow ([pubky-sdk/src/actors/auth/grant/{builder,flow}.rs]):
    from the options an app sets to the link it shows and the channel it listens
    on, the state it can save and restore while it waits, and the answer it
    gets.

    Texts of URLs belong to the [url] crate: [url_to_string] and [url_parse]. *)

From stdpp Require Import countable.
From S2P Require Import Prelude StoragePath Capabilities Keys GrantTokens HttpError Quota Database Users Entries EntryLocks Events Finalization.
From S2P Require Import AppState LockRoutes Uploads EncryptionKeys DeepLinks SdkApproval SdkCredential SdkRelay.

Section Flow.
Context `{PkarrKeys, !Jws, !Base64Url, QueryCodec, !Signing, !ApprovalJson, !Hkdf, Sealing, ErrorTexts, RelayUrls, ContentTools}.
Context (url_normalize : str → option str) (url_to_string : Url → str) (url_parse : str → option Url)
        (link_error_text : DeepLinkParseError → str) (max_error_body_bytes : Z).

Inductive AuthFlowKind :=
| SignIn
| SignUp (homeserver_public_key : PublicKey) (signup_token : option str).

(** * Building a flow *)

Record GrantAuthFlowBuilder := mk_GrantAuthFlowBuilder {
  fb_caps : Capabilities;
  fb_base_relay : str;
  fb_auth_kind : AuthFlowKind;
  fb_client_secret : list Z;
  fb_client_id : str;
  fb_client_signer : GrantPopSigner;
  fb_x_callback : XCallbackParams;
  fb_approval_format : GrantApprovalFormat;
  fb_expected_signer : option PublicKey
}.

Definition DEFAULT_HTTP_RELAY_INBOX : str := lit "https://httprelay.pubky.app/inbox".

(** The random secret and key pair are arguments. *)
Definition GrantAuthFlowBuilder_new (caps : Capabilities) (auth_kind : AuthFlowKind) (client_id : str)
    (random : list Z) (keypair : Keypair) : GrantAuthFlowBuilder :=
  mk_GrantAuthFlowBuilder caps DEFAULT_HTTP_RELAY_INBOX auth_kind random client_id (LocalSigner keypair)
    XCallbackParams_default BareGrant None.

Record PubkyGrantAuthFlow := mk_PubkyGrantAuthFlow {
  gf_relay_listener : AuthRelayChannel;
  gf_auth_url : Url;
  gf_client_signer : GrantPopSigner;
  gf_approval_key_secret : option (list Z)
}.

Definition with_x_callback (x : XCallbackParams) (link : DeepLink) : DeepLink :=
  match link with
  | Signin l => Signin (mk_TypedDeepLink (tdl_scheme l) (tdl_params l) x)
  | Signup l => Signup (mk_TypedDeepLink (tdl_scheme l) (tdl_params l) x)
  | DirectSignup l => DirectSignup (mk_TypedDeepLink (tdl_scheme l) (tdl_params l) x)
  | SigninGrant l => SigninGrant (mk_TypedDeepLink (tdl_scheme l) (tdl_params l) x)
  | SignupGrant l => SignupGrant (mk_TypedDeepLink (tdl_scheme l) (tdl_params l) x)
  | SeedExport l => SeedExport (mk_TypedDeepLink (tdl_scheme l) (tdl_params l) x)
  end.

(** [ApprovalRecipientSecret::generate] of a random secret. *)
Definition builder_channel (self : GrantAuthFlowBuilder) (generated : list Z) : option (list Z) * GrantRelayChannel :=
  if decide (fb_approval_format self = SignedApprovalV1) then (Some generated, Hpke (hpke_public generated))
  else (None, SharedSecret (fb_client_secret self)).

Definition builder_link (self : GrantAuthFlowBuilder) (relay_channel : GrantRelayChannel) : DeepLink :=
  let client_pk := GrantPopSigner_public_key (fb_client_signer self) in
  with_x_callback (fb_x_callback self)
    match fb_auth_kind self with
    | SignIn =>
        SigninGrant (mk_TypedDeepLink PubkyAuth
          (mk_SigninGrantParams (fb_caps self) (fb_base_relay self) relay_channel (fb_client_id self) client_pk
             (fb_approval_format self) (fb_expected_signer self)) XCallbackParams_default)
    | SignUp homeserver signup_token =>
        SignupGrant (mk_TypedDeepLink PubkyAuth
          (mk_SignupGrantParams (fb_caps self) (fb_base_relay self) relay_channel homeserver signup_token
             (fb_client_id self) client_pk (fb_approval_format self)) XCallbackParams_default)
    end.

(** With a client given. *)
Definition GrantAuthFlowBuilder_start (self : GrantAuthFlowBuilder) (generated : list Z) : result SdkError PubkyGrantAuthFlow :=
  if negb (validate_capabilities (fb_approval_format self) (fb_caps self))
  then Err (AuthValidation (lit "encryption key permission requires af=v1"))
  else if match fb_expected_signer self, fb_auth_kind self with Some _, SignUp _ _ => true | _, _ => false end
  then Err (AuthValidation (lit "an expected signer applies to sign-in flows only"))
  else
    let '(approval_key_secret, relay_channel) := builder_channel self generated in
    let link := builder_link self relay_channel in
    relay_listener ← AuthRelayListener_start (fb_base_relay self) relay_channel;
    Ok (mk_PubkyGrantAuthFlow relay_listener (DeepLink_to_url url_normalize link) (fb_client_signer self) approval_key_secret).

(** * Saving and restoring *)

Record GrantAuthFlowState := mk_GrantAuthFlowState {
  fs_authorization_url : str;
  fs_client_key_secret : list Z;
  fs_approval_key_secret : option (list Z)
}.

Record DelegatedGrantAuthFlowState := mk_DelegatedGrantAuthFlowState {
  ds_authorization_url : str;
  ds_key_id : str;
  ds_client_pk : PublicKey;
  ds_approval_key_secret : option (list Z)
}.

Definition save_local (self : PubkyGrantAuthFlow) : option GrantAuthFlowState :=
  client_key_secret ← GrantPopSigner_local_secret (gf_client_signer self);
  Some (mk_GrantAuthFlowState (url_to_string (gf_auth_url self)) client_key_secret (gf_approval_key_secret self)).

Definition save_delegated (self : PubkyGrantAuthFlow) : option DelegatedGrantAuthFlowState :=
  signer ← GrantPopSigner_delegated_state (gf_client_signer self);
  Some (mk_DelegatedGrantAuthFlowState (url_to_string (gf_auth_url self)) (dp_key_id signer) (dp_public_key signer)
          (gf_approval_key_secret self)).

Definition grant_deep_link_parts (deep_link : DeepLink) : result SdkError (str * GrantRelayChannel * PublicKey) :=
  match deep_link with
  | SigninGrant link => let p := tdl_params link in Ok (sg_relay p, sg_relay_channel p, sg_client_pk p)
  | SignupGrant link => let p := tdl_params link in Ok (ug_relay p, ug_relay_channel p, ug_client_pk p)
  | _ => Err (AuthValidation (lit "saved grant auth flow state must contain a grant signin or signup deep link"))
  end.

Definition restore_approval_key_secret (channel : GrantRelayChannel) (secret : option (list Z))
    : result SdkError (option (list Z)) :=
  map_err AuthValidation (validate_approval_key channel secret) ;; Ok secret.

Definition parse_state_url (authorization_url : str) : result SdkError DeepLink :=
  map_err (λ e, AuthValidation (lit "failed to parse grant auth flow state URL: " ++ link_error_text e))
    (DeepLink_from_str url_normalize url_parse authorization_url).

Definition flow_restore (state : GrantAuthFlowState) : result SdkError PubkyGrantAuthFlow :=
  auth_url ← parse_state_url (fs_authorization_url state);
  '(relay, relay_channel, client_pk) ← grant_deep_link_parts auth_url;
  approval_key_secret ← restore_approval_key_secret relay_channel (fs_approval_key_secret state);
  let client_keypair := kp_from_secret (fs_client_key_secret state) in
  if negb (bool_decide (kp_public_key client_keypair = client_pk))
  then Err (AuthValidation (lit "saved grant auth flow client key does not match the deep link client public key"))
  else
    relay_listener ← AuthRelayListener_start relay relay_channel;
    Ok (mk_PubkyGrantAuthFlow relay_listener (DeepLink_to_url url_normalize auth_url) (LocalSigner client_keypair)
          approval_key_secret).

Definition flow_restore_delegated (state : DelegatedGrantAuthFlowState) (sign : str → result GrantSigningError (list Z))
    : result SdkError PubkyGrantAuthFlow :=
  auth_url ← parse_state_url (ds_authorization_url state);
  '(relay, relay_channel, expected_client_pk) ← grant_deep_link_parts auth_url;
  approval_key_secret ← restore_approval_key_secret relay_channel (ds_approval_key_secret state);
  if negb (bool_decide (ds_client_pk state = expected_client_pk))
  then Err (AuthValidation (lit "saved delegated grant auth flow client key does not match the deep link client public key"))
  else
    relay_listener ← AuthRelayListener_start relay relay_channel;
    Ok (mk_PubkyGrantAuthFlow relay_listener (DeepLink_to_url url_normalize auth_url)
          (DelegatedSigner (mk_DelegatedGrantPopSigner (ds_key_id state) (ds_client_pk state) sign)) approval_key_secret).

(** * The answer *)

Definition decode_relay_approval (message : list Z) (auth_url : Url) (approval_key_secret : option (list Z))
    : result SdkError GrantApproval :=
  request ← map_err (λ _, AuthValidation (lit "invalid grant request URL"))
              (DeepLink_from_str url_normalize url_parse (url_to_string auth_url));
  map_err AuthValidation (decode_and_validate_approval message request approval_key_secret).

(** [await_decoded_approval], with the answers of the relay. *)
Definition await_decoded_approval (self : PubkyGrantAuthFlow) (replies : list (Z * Reply)) : option (result SdkError GrantApproval) :=
  r ← poll_for_message max_error_body_bytes (gf_relay_listener self) replies;
  Some (message ← r; decode_relay_approval message (gf_auth_url self) (gf_approval_key_secret self)).

(** [approve_auth] and [approve_auth_with_capabilities] of the signer, on the
    text of a grant link: what is posted where. *)
Definition approve_grant_link (now : Z) (grant_id : str) (randomness : list Z) (keypair : Keypair) (pubkyauth_url : str)
    (approved : option Capabilities) : option (result SdkError (str * list Z)) :=
  match DeepLink_from_str url_normalize url_parse pubkyauth_url with
  | Err e => Some (Err (AuthValidation (lit "invalid pubkyauth URL: " ++ link_error_text e)))
  | Ok link =>
      r ← approve_grant_deeplink now grant_id randomness keypair link approved;
      Some (wire ← map_err AuthValidation r;
            '(relay, channel, _) ← grant_deep_link_parts link;
            url ← derive_callback_url relay (http_channel_id channel);
            Ok (url, wire))
  end.

(** * A flow from its start to its approval *)

Context `{!PkarrKeysLaws, !QueryCodecLaws, !Base64UrlLaws, !SigningLaws, !ApprovalJsonLaws, !SealingLaws, !SignedTokens, !ContentToolsLaws}.
(** A URL is read back from its text. *)
Hypothesis url_reads_back : ∀ l, url_parse (url_to_string (DeepLink_to_url url_normalize l)) = Some (DeepLink_to_url url_normalize l).

(** Options whose fields hold what their types promise, that a flow can be
    started with. *)
Definition builder_wf (b : GrantAuthFlowBuilder) (generated : list Z) : Prop :=
  Forall Capability_wf (fb_caps b) ∧ url_normalize (fb_base_relay b) = Some (fb_base_relay b) ∧
  cannot_be_a_base (fb_base_relay b) = false ∧ ClientId_new (fb_client_id b) = Ok (fb_client_id b) ∧
  validate_capabilities (fb_approval_format b) (fb_caps b) = true ∧
  match fb_expected_signer b, fb_auth_kind b with Some _, SignUp _ _ => False | _, _ => True end ∧
  key32 (fb_client_secret b) ∧ key32 (hpke_public generated).

(** What the signer is asked for. *)
Definition builder_request (b : GrantAuthFlowBuilder) (generated : list Z) : PendingRequest :=
  mk_PendingRequest (fb_client_id b) (GrantPopSigner_public_key (fb_client_signer b)) (fb_caps b) (fb_approval_format b)
    (builder_channel b generated).2 (fb_expected_signer b).

Section Started.
Context (b : GrantAuthFlowBuilder) (generated : list Z) (Hb : builder_wf b generated).

Local Abbreviation channel := (builder_channel b generated).2.
Local Abbreviation secret := (builder_channel b generated).1.
Local Abbreviation link := (builder_link b channel).

Lemma builder_link_wf : DeepLink_wf url_normalize link.
Proof.
  destruct Hb as (Hc & Hr & _ & Hi & Hv & _ & Hs & Hg).
  assert (channel_ok (fb_approval_format b) channel) as Hch.
  { unfold builder_channel. by destruct (fb_approval_format b). }
  unfold builder_link. by destruct (fb_auth_kind b).
Qed.

Lemma builder_link_read :
  DeepLink_from_str url_normalize url_parse (url_to_string (DeepLink_to_url url_normalize link)) = Ok link.
Proof.
  unfold DeepLink_from_str. rewrite url_reads_back. cbn [ok_or mbind result_bind]. exact (DeepLink_read_back url_normalize _ builder_link_wf).
Qed.

Lemma builder_link_parts :
  grant_deep_link_parts link = Ok (fb_base_relay b, channel, GrantPopSigner_public_key (fb_client_signer b)).
Proof. unfold builder_link. by destruct (fb_auth_kind b). Qed.

Lemma builder_link_request : pending_request link = Ok (builder_request b generated).
Proof.
  destruct Hb as (_ & _ & _ & _ & _ & He & _). unfold builder_link, builder_request.
  by destruct (fb_auth_kind b), (fb_expected_signer b).
Qed.

Lemma builder_holds_key : holds_key channel secret.
Proof. unfold builder_channel. by destruct (decide _). Qed.

Lemma channel_id_nonempty ch : http_channel_id ch ≠ [].
Proof.
  assert (∀ h, hasher_finalize h ≠ []) as Hne. { intros h E. pose proof (hasher_len h) as Hl. by rewrite E in Hl. }
  destruct ch; apply base64url_nonempty, Hne.
Qed.

(** The flow listens where the signer posts. *)
Lemma builder_listens :
  ∃ listener,
    AuthRelayListener_start (fb_base_relay b) channel = Ok listener ∧
    derive_callback_url (fb_base_relay b) (http_channel_id channel) = Ok (relay_channel_url listener) ∧
    listener = match channel, is_link_url (fb_base_relay b) with
               | SharedSecret k, true => EncryptedLink (fb_base_relay b) (http_channel_id channel) k
               | SharedSecret k, false => EncryptedInbox (fb_base_relay b) (http_channel_id channel) k
               | Hpke _, true => Link (fb_base_relay b) (http_channel_id channel)
               | Hpke _, false => Inbox (fb_base_relay b) (http_channel_id channel)
               end.
Proof.
  destruct Hb as (_ & _ & Hbase & _). pose proof (channel_id_nonempty channel) as Hid.
  unfold AuthRelayListener_start, derive_callback_url, HttpRelayInboxChannel_new, HttpRelayLinkChannel_new. rewrite Hbase.
  destruct channel as [k|k]; cbn [http_channel_id] in *; rewrite bool_decide_eq_false_2 by done;
    destruct (is_link_url _); eexists; (split_and!; [done|done|]); done.
Qed.

(** It can be saved and resumed, by an app that holds its own key or has
    another party sign. *)
Lemma started_restores flow listener :
  AuthRelayListener_start (fb_base_relay b) channel = Ok listener →
  flow = mk_PubkyGrantAuthFlow listener (DeepLink_to_url url_normalize link) (fb_client_signer b) secret →
  match fb_client_signer b with
  | LocalSigner _ => ∃ state, save_local flow = Some state ∧ flow_restore state = Ok flow
  | DelegatedSigner signer =>
      ∃ state, save_delegated flow = Some state ∧ flow_restore_delegated state (dp_sign signer) = Ok flow
  end.
Proof.
  intros Hl ->. pose proof (validate_key_ok channel secret builder_holds_key) as Hk.
  destruct (fb_client_signer b) as [kp|signer] eqn:Es; (eexists; split; [by cbn; rewrite ?Es|]);
    unfold flow_restore, flow_restore_delegated, parse_state_url, restore_approval_key_secret;
    cbn [fs_authorization_url fs_approval_key_secret fs_client_key_secret ds_authorization_url ds_approval_key_secret
         ds_client_pk ds_key_id gf_auth_url gf_approval_key_secret];
    rewrite builder_link_read; cbn [map_err mbind result_bind]; rewrite builder_link_parts; cbn [mbind result_bind]; rewrite Hk;
    cbn [map_err mbind result_bind]; rewrite Es; cbn [GrantPopSigner_public_key]; rewrite ?from_secret_secret;
    rewrite bool_decide_eq_true_2 by done; cbn [negb]; rewrite Hl; cbn [mbind result_bind]; [done|by destruct signer].
Qed.

(** An answer of the relay that carries a message. *)
Definition carries (reply : Reply) (body : list Z) : Prop :=
  ∃ response cs, reply = Answer response ∧ is_success (rp_status response) = true ∧ rp_chunks response = body_of cs ∧
    concat cs = body ∧ (∀ l, rp_content_length response = Some l → l ≤ MAX_RELAY_BODY_BYTES).

Lemma carries_received reply body :
  carries reply body → Z.of_nat (length body) ≤ MAX_RELAY_BODY_BYTES →
  inbox_turn max_error_body_bytes reply = Received (Ok body) ∧ link_turn max_error_body_bytes reply = Received (Ok body).
Proof.
  intros (response & cs & -> & Hs & Hc & <- & Hl) Hlen.
  unfold inbox_turn, inbox_poll_once, link_turn, link_poll_once, check_http_status.
  assert ((rp_status response =? HTTP_REQUEST_TIMEOUT) = false) as ->.
  { unfold is_success in Hs. unfold HTTP_REQUEST_TIMEOUT. lia. }
  rewrite Hs. cbn [map_err]. unfold read_relay_body.
  assert (read_response_body response MAX_RELAY_BODY_BYTES = Ok (concat cs)) as ->; [|done].
  apply read_response_body_spec; [done|]. by exists cs.
Qed.

(** The app that waits gets what was posted. *)
Lemma poll_delivers listener wire message pre x ack rest :
  AuthRelayListener_start (fb_base_relay b) channel = Ok listener →
  relay_message channel wire = Some message →
  waits_through max_error_body_bytes (fb_base_relay b) pre → carries x.2 wire →
  Z.of_nat (length wire) ≤ MAX_RELAY_BODY_BYTES →
  poll_for_message max_error_body_bytes listener (pre ++ x :: ack :: rest) = Some (Ok message).
Proof.
  intros Hstart Hm Hp Hx Hlen. destruct builder_listens as (listener' & Hstart' & _ & Hl). rewrite Hstart in Hstart'.
  injection Hstart' as <-. destruct (carries_received _ wire Hx Hlen) as [Hin Hlink].
  assert ((if is_link_url (fb_base_relay b) then HttpRelayLinkChannel_poll max_error_body_bytes None (pre ++ x :: ack :: rest)
           else HttpRelayInboxChannel_poll max_error_body_bytes None (pre ++ x :: ack :: rest))
          = Some (Ok (Some wire), ack :: rest)) as Hpoll.
  { unfold waits_through in Hp. destruct (is_link_url _).
    - apply (link_poll_delivers _ (MAX_FAILURES - 1)); [unfold MAX_FAILURES; lia|done|done].
    - apply inbox_poll_answers. exists pre, x. split_and!; [done..|]. by rewrite Hin. }
  subst listener. unfold poll_for_message, AuthRelayChannel_poll. clear -Hm Hpoll.
  destruct channel as [k|k], (is_link_url _); cbn [relay_message] in Hm; unfold decrypted; rewrite Hpoll;
    cbn [mbind option_bind result_bind ok_or]; rewrite ?Hm; cbn [mbind option_bind result_bind ok_or AuthRelayChannel_ack];
    first [done|by injection Hm as ->].
Qed.

End Started.

(** (C30) A pending flow reaches its approval.  Started with options any app can
    set, a flow shows a link; saved and restored, it is the same flow.  A signer
    that reads the text of the link approves or refuses it exactly as the
    options allow, and posts its answer to the address the flow listens on.
    If the answer is within the megabyte the app reads, the app gets the grant
    of what was approved, after whatever it waits through before the answer:
    any number of timeouts, with failures not three in a row if the relay is an
    inbox, and not three in all if it is a link. *)
Theorem grant_flow_completes b generated :
  builder_wf b generated →
  ∃ flow, GrantAuthFlowBuilder_start b generated = Ok flow ∧
    match fb_client_signer b with
    | LocalSigner _ => ∃ state, save_local flow = Some state ∧ flow_restore state = Ok flow
    | DelegatedSigner signer =>
        ∃ state, save_delegated flow = Some state ∧ flow_restore_delegated state (dp_sign signer) = Ok flow
    end ∧
    ∀ now gid rnd kp approved,
      Forall Capability_wf (default [] approved) → RandomId_parse gid = Ok gid →
      0 ≤ now ≤ U64_MAX - DEFAULT_GRANT_LIFETIME_SECS → length rnd = 24%nat →
      let p := builder_request b generated in
      let posted := approve_grant_link now gid rnd kp (url_to_string (gf_auth_url flow)) approved in
      if approvable kp p approved then
        ∃ wire approval,
          posted = Some (Ok (relay_channel_url (gf_relay_listener flow), wire)) ∧
          ga_claims approval = approved_claims now gid kp p approved ∧
          (Z.of_nat (length wire) ≤ MAX_RELAY_BODY_BYTES →
           ∀ pre x ack rest,
             waits_through max_error_body_bytes (fb_base_relay b) pre → carries x.2 wire →
             await_decoded_approval flow (pre ++ x :: ack :: rest) = Some (Ok approval))
      else ∃ e, posted = Some (Err e).
Proof.
  intros Hb. destruct (builder_listens b generated Hb) as (listener & Hstart & Hurl & _).
  exists (mk_PubkyGrantAuthFlow listener (DeepLink_to_url url_normalize (builder_link b (builder_channel b generated).2))
            (fb_client_signer b) (builder_channel b generated).1).
  split; [|split; [by eapply started_restores|]].
  - pose proof Hb as (_ & _ & _ & _ & Hv & He & _). unfold GrantAuthFlowBuilder_start. rewrite Hv. cbn [negb].
    assert (match fb_expected_signer b, fb_auth_kind b with Some _, SignUp _ _ => true | _, _ => false end = false) as ->.
    { by destruct (fb_expected_signer b), (fb_auth_kind b). }
    destruct (builder_channel b generated). cbn [fst snd] in *. by rewrite Hstart.
  - intros now gid rnd kp approved Ha Hg Hn Hr p posted. unfold posted. cbn [gf_auth_url gf_relay_listener].
    assert (request_ok p) as Hreq. { destruct Hb as (? & _ & _ & ? & _). by split. }
    pose proof (approval_received now gid rnd kp _ approved p (builder_channel b generated).1
                  (builder_link_request b generated Hb) Hreq (builder_holds_key b generated) Ha Hg Hn Hr) as Hd.
    unfold approve_grant_link. rewrite (builder_link_read b generated Hb). cbv zeta in Hd.
    destruct (approvable kp p approved); [|destruct Hd as [e ->]; by eexists].
    destruct Hd as (wire & message & approval & -> & Hm & Hdec & Hcl & _). exists wire, approval.
    cbn [mbind option_bind map_err result_bind]. rewrite builder_link_parts. cbn [mbind result_bind]. rewrite Hurl.
    split_and!; [done|done|]. intros Hlen pre x ack rest Hp Hx. unfold await_decoded_approval. cbn [gf_relay_listener gf_auth_url gf_approval_key_secret].
    rewrite (poll_delivers b generated Hb listener wire message) by auto. cbn [mbind option_bind result_bind].
    unfold decode_relay_approval. rewrite (builder_link_read b generated Hb). cbn [map_err mbind result_bind]. by rewrite Hdec.
Qed.

End Flow.

(** * Witness *)

#[local] Existing Instance bits_signing.
#[local] Existing Instance bits_signing_laws.
#[local] Existing Instance bits_jws.
#[local] Existing Instance bits_base64.
#[local] Existing Instance bits_base64_laws.
#[local] Existing Instance bits_json.
#[local] Existing Instance bits_json_laws.
#[local] Existing Instance plain_sealing.
#[local] Existing Instance plain_sealing_laws.
#[local] Existing Instance bits_tokens.
#[local] Existing Instance chain_hkdf.
#[local] Existing Instance shift_codec.
#[local] Existing Instance shift_codec_laws.
#[local] Existing Instance demo_tools.
#[local] Existing Instance demo_tools_laws.

#[local] Instance plain_texts : ErrorTexts := {| from_utf8_lossy := id; canonical_reason _ := None |}.
#[local] Instance plain_urls : RelayUrls := {| cannot_be_a_base _ := false; url_path := id; push_segment u s := u ++ s |}.

Definition bits_url_text (u : Url) : str := to_bytes (url_scheme u, url_host u, url_query u).
Definition bits_url_parse (s : str) : option Url :=
  '(scheme, host, query) ← of_bytes (A := str * str * option str) s; Some (mk_Url scheme host query).

Lemma bits_url_reads_back u : bits_url_parse (bits_url_text u) = Some u.
Proof. unfold bits_url_parse, bits_url_text. rewrite of_to_bytes. by destruct u. Qed.

(** An app asks to read public files, over an inbox. *)
Definition small_builder : GrantAuthFlowBuilder (H := demo_keys) (H3 := bits_signing) :=
  mk_GrantAuthFlowBuilder (H := demo_keys) (H3 := bits_signing) [mk_Capability (mk_StoragePath (lit "/pub/")) [Read]]
    (lit "https://relay.example/inbox/") SignIn (repeat 7 32) (lit "app.example") (LocalSigner (H := demo_keys) (H2 := bits_signing) false)
    XCallbackParams_default BareGrant None.

Lemma seven_key32 : key32 (repeat 7 32).
Proof. split; [reflexivity|]. by apply repeat_byte. Qed.

Lemma small_builder_wf : builder_wf (H := demo_keys) (H3 := bits_signing) Some small_builder (repeat 7 32).
Proof.
  split_and!; try reflexivity; try exact seven_key32.
  - apply (Capabilities_from_str_wf (lit "/pub/:r")). vm_compute. reflexivity.
Qed.

(** The relay times out, is not reached twice, times out and then answers. *)
Definition patient_relay (wire : list Z) : list (Z * Reply) :=
  [(10, TimedOut); (20, Unreachable); (30, NotSent); (25000, Answer (mk_Response 408 None []));
   (40, Answer (mk_Response 200 None [Ok wire])); (5, TimedOut)].

Lemma small_wire u w :
  approve_grant_link (H := demo_keys) (H3 := bits_signing) Some bits_url_parse (λ _, []) 1000 (lit "g1") (repeat 0 24) true
    (bits_url_text (DeepLink_to_url Some (builder_link (H := demo_keys) (H3 := bits_signing) small_builder (SharedSecret (repeat 7 32)))))
    (Some []) = Some (Ok (u, w)) →
  Z.of_nat (length w) ≤ MAX_RELAY_BODY_BYTES.
Proof.
  unfold approve_grant_link.
  rewrite (builder_link_read (H := demo_keys) Some bits_url_text bits_url_parse (λ l, bits_url_reads_back _) small_builder (repeat 7 32)
             small_builder_wf : DeepLink_from_str _ _ (bits_url_text _) = _).
  intros E. assert (match approve_grant_deeplink (H := demo_keys) 1000 (lit "g1") (repeat 0 24) true (builder_link small_builder (SharedSecret (repeat 7 32))) (Some []) with
    | Some (Ok x) => Z.of_nat (length x) <=? MAX_RELAY_BODY_BYTES | _ => false end = true) as Hl by (vm_compute; reflexivity).
  destruct (approve_grant_deeplink _ _ _ _ _ _) as [[x|]|]; cbn [mbind option_bind map_err result_bind] in E; try done.
  destruct (grant_deep_link_parts _) as [[[r c] k]|]; cbn [mbind result_bind] in E; [|done].
  destruct (derive_callback_url _ _) as [v|]; cbn [mbind result_bind] in E; [|done].
  assert (w = x) as -> by congruence. lia.
Qed.

Lemma grant_flow_completes_witness :
  ∃ flow, GrantAuthFlowBuilder_start (H := demo_keys) (H3 := bits_signing) Some small_builder (repeat 7 32) = Ok flow ∧
    (∃ state, save_local bits_url_text flow = Some state ∧
       flow_restore (H := demo_keys) (H0 := bits_jws) (H3 := bits_signing) Some bits_url_parse (λ _, []) state = Ok flow) ∧
    ∃ wire approval,
      ga_claims approval = approved_claims (H := demo_keys) (H2 := bits_signing) 1000 (lit "g1") true
                             (builder_request small_builder (repeat 7 32)) (Some []) ∧
      await_decoded_approval (H := demo_keys) (H0 := bits_jws) Some bits_url_text bits_url_parse 0 flow (patient_relay wire) = Some (Ok approval).
Proof.
  destruct (grant_flow_completes (H := demo_keys) (H0 := bits_jws) (H1 := bits_base64) (H3 := bits_signing) (H4 := bits_json)
              Some bits_url_text bits_url_parse (λ _, []) 0 (λ l, bits_url_reads_back _) small_builder (repeat 7 32) small_builder_wf)
    as (flow & Hs & Hr & Ha).
  exists flow. split; [exact Hs|]. split; [exact Hr|].
  specialize (Ha 1000 (lit "g1") (repeat 0 24) true (Some [])).
  destruct Ha as (wire & approval & Hp & Hc & Hw); [constructor|reflexivity|split; apply Z.leb_le; vm_compute; reflexivity|reflexivity|].
  exists wire, approval. split; [exact Hc|].
  refine (Hw _ (take 4 (patient_relay wire)) (40, Answer (mk_Response 200 None [Ok wire])) (5, TimedOut) [] _ _).
  - injection Hs as <-. exact (small_wire _ _ Hp).
  - split; [repeat constructor|]. intros [|[|[|[|[|k]]]]]; apply Nat.ltb_lt; vm_compute; reflexivity.
  - exists (mk_Response 200 None [Ok wire]), [wire]. split_and!; try reflexivity; [|by intros l [=]]. cbn. apply app_nil_r.
Defined.
