(* ===== verification/SdkPkdns.v ===== *)
(** Home server records of users ([pubky-sdk/src/actors/pkdns.rs]): finding a
    user's home server in a signed DNS packet, and publishing it.

    Packets and the network belong to [pkarr]: [PkarrPackets] is what the code
    uses of them, and what the network, the cache and the publications come to
    are arguments. *)

From S2P Require Import Prelude Keys GrantTokens DeepLinks SdkApproval.

Inductive RData := RDataSvcb (target : str) | RDataHttps (target : str) | RDataOther (data : str).
Record ResourceRecord := mk_ResourceRecord { dr_name : str; dr_rdata : RData; dr_ttl : Z }.

Class PkarrPackets `{Signing} := {
  SignedPacket : Type;
  packet_key : SignedPacket → PublicKey;
  packet_timestamp : SignedPacket → Z;
  (** [all_resource_records]. *)
  packet_records : SignedPacket → list ResourceRecord;
  more_recent_than : SignedPacket → SignedPacket → bool;
  (** [Timestamp::sub], microseconds: what a later second argument gives is its own affair. *)
  timestamp_sub : Z → Z → Z;
  (** A name below the key of a packet; names are written relative or in full. *)
  normalize_name : PublicKey → str → str;
  (** [dns::Name]: parsing, and its text. *)
  dns_name : str → option str;
  (** [SignedPacketBuilder] of records, in order, and [sign]. *)
  build_packet : Keypair → list ResourceRecord → option SignedPacket;
}.

Definition PUBKY_LABEL : str := lit "_pubky".

Definition renamed (name : str) (r : ResourceRecord) : ResourceRecord := mk_ResourceRecord name (dr_rdata r) (dr_ttl r).

Class PkarrPacketsLaws `{PkarrPackets} := {
  normalize_idemp k n : normalize_name k (normalize_name k n) = normalize_name k n;
  (** Below a key, a label comes first. *)
  normalize_label k : starts_with (normalize_name k PUBKY_LABEL) PUBKY_LABEL = true;
  more_recent_asym p q : more_recent_than p q = true → more_recent_than q p = false;
  packet_names p r : r ∈ packet_records p → normalize_name (packet_key p) (dr_name r) = dr_name r;
  build_records kp rs p : build_packet kp rs = Some p →
    packet_key p = kp_public_key kp ∧ packet_records p = map (λ r, renamed (normalize_name (kp_public_key kp) (dr_name r)) r) rs;
  (** A key's text is a name. *)
  dns_name_key k : dns_name (PublicKey_z32 k) = Some (PublicKey_z32 k);
}.

Inductive ResolveError := ResolveNotFound | ResolveInvalidSignedPacket (seq : Z) | ResolveFailed.

(** [PkarrError], the error of a missing key pair, and of a user without a home server. *)
Inductive PkdnsError :=
| PkarrDns
| PkarrSignPacket
| PkarrPublish
| PkarrResolve (e : ResolveError)
| PkarrInvalidRecord (host : str)
| NoKeypair
| Unresolved (user : str).

Definition is_retryable (e : PkdnsError) : bool :=
  match e with PkarrPublish | PkarrResolve _ => true | _ => false end.

Section Pkdns.
Context `{PkarrPackets}.

(** * Reading *)

(** [SignedPacket::resource_records]. *)
Definition resource_records (packet : SignedPacket) (name : str) : list ResourceRecord :=
  filter (λ r, dr_name r = normalize_name (packet_key packet) name) (packet_records packet).

Fixpoint first_target (records : list ResourceRecord) : option str :=
  match records with
  | [] => None
  | rr :: records =>
      match dr_rdata rr with
      | RDataSvcb target | RDataHttps target => Some target
      | RDataOther _ => first_target records
      end
  end.

Definition extract_host_from_packet (packet : SignedPacket) : option str :=
  first_target (resource_records packet PUBKY_LABEL).

Definition homeserver_pubkey_from_packet (packet : SignedPacket) : result PkdnsError (option PublicKey) :=
  match extract_host_from_packet packet with
  | None => Ok None
  | Some host => map_err (λ _, PkarrInvalidRecord host) (Some <$> PublicKey_try_from_z32 host)
  end.

Definition homeserver_pubkey_from_resolution (resolution : result ResolveError SignedPacket) : result PkdnsError (option PublicKey) :=
  match resolution with
  | Ok packet => homeserver_pubkey_from_packet packet
  | Err ResolveNotFound => Ok None
  | Err error => Err (PkarrResolve error)
  end.

(** [get_homeserver], [require_homeserver_of]: of the key pair of the actor, and
    of a user whose home server has to be known. *)
Definition get_homeserver (keypair : option Keypair) (resolve : PublicKey → result ResolveError SignedPacket)
    : result PkdnsError (option PublicKey) :=
  kp ← ok_or keypair NoKeypair;
  homeserver_pubkey_from_resolution (resolve (kp_public_key kp)).

Definition require_homeserver_of (user_public_key : PublicKey) (resolve : PublicKey → result ResolveError SignedPacket)
    : result PkdnsError PublicKey :=
  host ← homeserver_pubkey_from_resolution (resolve user_public_key);
  ok_or host (Unresolved (PublicKey_z32 user_public_key)).

(** * Publishing *)

Inductive PublishMode := Force | IfStale.

Definition most_recent_packet (first second : option SignedPacket) : option SignedPacket :=
  match first, second with
  | Some first, Some second => if more_recent_than first second then Some first else Some second
  | Some packet, None | None, Some packet => Some packet
  | None, None => None
  end.

Definition determine_host (override_host : option PublicKey) (dht_packet : option SignedPacket) : result PkdnsError (option str) :=
  match override_host with
  | Some host => Ok (Some (PublicKey_z32 host))
  | None =>
      match dht_packet with
      | None => Ok None
      | Some packet => option_map PublicKey_z32 <$> homeserver_pubkey_from_packet packet
      end
  end.

Definition should_skip_due_to_age (stale_after now : Z) (mode : PublishMode) (existing : option SignedPacket) : bool :=
  match mode, existing with
  | IfStale, Some record => timestamp_sub now (packet_timestamp record) <=? stale_after
  | _, _ => false
  end.

Definition build_homeserver_packet (keypair : Keypair) (host : str) (existing : option SignedPacket)
    : result PkdnsError SignedPacket :=
  let kept := match existing with
              | Some packet => filter (λ r, starts_with (dr_name r) PUBKY_LABEL = false) (packet_records packet)
              | None => []
              end in
  target ← ok_or (dns_name host) PkarrDns;
  ok_or (build_packet keypair (kept ++ [mk_ResourceRecord PUBKY_LABEL (RDataHttps target) (60 * 60)])) PkarrSignPacket.

(** What the network answers to a publication, by attempt. *)
Definition publish_homeserver_inner (keypair : Keypair) (host : str) (existing : option SignedPacket) (published : bool)
    : result PkdnsError SignedPacket :=
  signed_packet ← build_homeserver_packet keypair host existing;
  if published then Ok signed_packet else Err PkarrPublish.

Definition should_retry (err : PkdnsError) (attempt : nat) : bool := is_retryable err && (attempt <? 3)%nat.

(** The attempts that are left; the packet that is out, if any. *)
Fixpoint publish_attempts (left_ attempt : nat) (keypair : Keypair) (host : str) (existing : option SignedPacket)
    (published : nat → bool) : result PkdnsError (option SignedPacket) :=
  match left_ with
  | O => Ok None
  | S left_ =>
      match publish_homeserver_inner keypair host existing (published attempt) with
      | Ok packet => Ok (Some packet)
      | Err err =>
          if should_retry err attempt then publish_attempts left_ (S attempt) keypair host existing published else Err err
      end
  end.

Definition publish_with_retries (keypair : Keypair) (host : str) (existing : option SignedPacket) (published : nat → bool)
    : result PkdnsError (option SignedPacket) :=
  publish_attempts 3 1 keypair host existing published.

Definition publish_homeserver (keypair : option Keypair) (stale_after now : Z) (host_override : option PublicKey) (mode : PublishMode)
    (network cache : result ResolveError SignedPacket) (published : nat → bool) : result PkdnsError (option SignedPacket) :=
  kp ← ok_or keypair NoKeypair;
  let existing := most_recent_packet (ok network) (ok cache) in
  host ← determine_host host_override existing;
  match host with
  | None => Ok None
  | Some host_str =>
      if should_skip_due_to_age stale_after now mode existing then Ok None
      else publish_with_retries kp host_str existing published
  end.

(** * What is published *)

Context `{!PkarrKeysLaws, !PkarrPacketsLaws}.

(** A published packet names the home server once, and keeps the rest. *)
Lemma built_packet kp host existing p :
  (∀ e, existing = Some e → packet_key e = kp_public_key kp) →
  build_homeserver_packet kp (PublicKey_z32 host) existing = Ok p →
  homeserver_pubkey_from_packet p = Ok (Some host) ∧
  packet_records p
  = match existing with
    | Some e => filter (λ r, starts_with (dr_name r) PUBKY_LABEL = false) (packet_records e)
    | None => []
    end ++ [mk_ResourceRecord (normalize_name (kp_public_key kp) PUBKY_LABEL) (RDataHttps (PublicKey_z32 host)) 3600].
Proof.
  intros Hkey. unfold build_homeserver_packet. rewrite dns_name_key. cbn [ok_or mbind result_bind].
  set (kept := match existing with Some _ => _ | None => _ end). destruct (build_packet _ _) as [p'|] eqn:E; [|done].
  cbn [ok_or]. intros [= <-]. destruct (build_records _ _ _ E) as [Hk Hr].
  assert (map (λ r, renamed (normalize_name (kp_public_key kp) (dr_name r)) r) kept = kept) as Hkept.
  { unfold kept. destruct existing as [e|]; [|done]. rewrite <-(map_id (filter _ _)) at 2. apply map_ext_in.
    intros r [_ Hin]%list_elem_of_In%list_elem_of_filter. rewrite <-(Hkey e eq_refl), packet_names by done. by destruct r. }
  rewrite map_app, Hkept in Hr. split; [|exact Hr]. unfold homeserver_pubkey_from_packet, extract_host_from_packet, resource_records.
  rewrite Hk, Hr, filter_app, (filter_none _ kept).
  - cbn [map dr_name renamed app]. rewrite filter_cons_True by done. cbn [filter list_filter first_target dr_rdata renamed].
    unfold PublicKey_try_from_z32, PublicKey_z32. by rewrite pkarr_roundtrip.
  - apply Forall_forall. intros r Hr' Hn. unfold kept in Hr'. destruct existing as [e|]; [|by apply not_elem_of_nil in Hr'].
    apply list_elem_of_filter in Hr' as [Hp _]. by rewrite Hn, normalize_label in Hp.
Qed.

Lemma attempts_built left_ attempt kp host existing published p :
  publish_attempts left_ attempt kp host existing published = Ok (Some p) → build_homeserver_packet kp host existing = Ok p.
Proof.
  revert attempt. induction left_ as [|left_ IH]; intros attempt; [done|]. cbn [publish_attempts]. unfold publish_homeserver_inner.
  destruct (build_homeserver_packet kp host existing) as [q|e]; cbn [mbind result_bind].
  - destruct (published attempt); [by intros [= <-]|]. destruct (should_retry _ _); [apply IH|done].
  - destruct (should_retry _ _); [apply IH|done].
Qed.

(** Publishing a home server.  Whatever is published names exactly the home
    server asked for, or the one that was named before, and keeps every record
    of the packet it starts from that is not about the home server; a missing
    packet to name one without an override, or a fresh one, is left alone; and
    three attempts are made before an error of the network is reported. *)
Theorem publish_keeps_records keypair stale_after now override mode network cache published r :
  (∀ e kp, keypair = Some kp → network = Ok e ∨ cache = Ok e → packet_key e = kp_public_key kp) →
  publish_homeserver keypair stale_after now override mode network cache published = r →
  let existing := most_recent_packet (ok network) (ok cache) in
  match r with
  | Ok (Some p) => ∃ host,
      homeserver_pubkey_from_packet p = Ok (Some host) ∧
      match override with
      | Some h => host = h
      | None => ∃ e, existing = Some e ∧ homeserver_pubkey_from_packet e = Ok (Some host)
      end ∧
      ∀ e rec, existing = Some e → rec ∈ packet_records e → starts_with (dr_name rec) PUBKY_LABEL = false → rec ∈ packet_records p
  | Err PkarrPublish => published 1%nat = false ∧ published 2%nat = false ∧ published 3%nat = false
  | _ => True
  end.
Proof.
  intros Hkeys <-. cbv zeta. unfold publish_homeserver. destruct keypair as [kp|]; [|done]. cbn [ok_or mbind result_bind].
  set (existing := most_recent_packet (ok network) (ok cache)).
  assert (∀ e, existing = Some e → packet_key e = kp_public_key kp) as Hkey.
  { intros e He. apply (Hkeys e kp eq_refl). unfold existing, most_recent_packet in He.
    destruct network as [n|], cache as [c|]; cbn [ok] in He; [destruct (more_recent_than n c)|..]; simplify_eq; auto. }
  assert (∀ h, determine_host override existing = Ok (Some h) → ∃ host, h = PublicKey_z32 host ∧
    match override with Some k => host = k | None => ∃ e, existing = Some e ∧ homeserver_pubkey_from_packet e = Ok (Some host) end) as Hhost.
  { intros h. unfold determine_host. destruct override as [k|]; [intros [= <-]; by exists k|]. destruct existing as [e|]; [|done].
    destruct (homeserver_pubkey_from_packet e) as [[k|]|] eqn:Ek; cbn; try done. intros [= <-]. exists k. split; [done|]. by exists e. }
  destruct (determine_host override existing) as [[h|]|err] eqn:Ed; cbn [mbind result_bind]; [|done|].
  2: { destruct err; try done. revert Ed. unfold determine_host. destruct override; [done|]. destruct existing as [e|]; [|done].
       unfold homeserver_pubkey_from_packet. destruct (extract_host_from_packet e); [|done]. destruct (PublicKey_try_from_z32 _); done. }
  destruct (should_skip_due_to_age _ _ _ _); [done|]. destruct (Hhost h eq_refl) as (host & -> & Hov).
  destruct (publish_with_retries _ _ _ _) as [[p|]|err] eqn:Ep; [|done|].
  - apply attempts_built in Ep. destruct (built_packet kp host existing p Hkey Ep) as [Hh Hr]. exists host. split_and!; [done..|].
    intros e rec He Hin Hn. rewrite Hr, He. apply elem_of_app. left. by apply list_elem_of_filter.
  - destruct err; try done. revert Ep. unfold publish_with_retries. cbn [publish_attempts]. unfold publish_homeserver_inner.
    destruct (build_homeserver_packet _ _ _) as [p|e] eqn:Eb; cbn [mbind result_bind].
    + by destruct (published 1%nat), (published 2%nat), (published 3%nat).
    + unfold build_homeserver_packet in Eb. destruct (dns_name _); cbn [ok_or mbind result_bind] in Eb; [|by injection Eb as <-].
      destruct (build_packet _ _); [done|]. by injection Eb as <-.
Qed.

(** A publication that forgets.  If neither the network nor the cache answers -
    for whatever reason, a timeout too - a publication with an override goes
    ahead, and the packet holds the home server alone: the other records of the
    user are gone. *)
Theorem publish_forgets_records kp stale_after now host mode e1 e2 published p :
  build_homeserver_packet kp (PublicKey_z32 host) None = Ok p → published 1%nat = true →
  publish_homeserver (Some kp) stale_after now (Some host) mode (Err e1) (Err e2) published = Ok (Some p) ∧
  packet_records p = [mk_ResourceRecord (normalize_name (kp_public_key kp) PUBKY_LABEL) (RDataHttps (PublicKey_z32 host)) 3600].
Proof.
  intros Hp Hpub. split.
  - unfold publish_homeserver. cbn [ok_or mbind result_bind ok most_recent_packet determine_host].
    unfold should_skip_due_to_age. destruct mode; unfold publish_with_retries; cbn [publish_attempts];
      unfold publish_homeserver_inner; rewrite Hp; cbn [mbind result_bind]; by rewrite Hpub.
  - by apply (built_packet kp host None) in Hp as [_ ->].
Qed.

End Pkdns.

(** * Packets as lists of records *)

Section ListPackets.
Context `{Signing}.

Definition below (k : PublicKey) (name : str) : str :=
  let zone := 46 :: PublicKey_z32 k in
  if decide (zone `suffix_of` name) then name else name ++ zone.

#[local] Instance list_packets : PkarrPackets := {|
  SignedPacket := PublicKey * Z * list ResourceRecord;
  packet_key p := p.1.1;
  packet_timestamp p := p.1.2;
  packet_records p := map (λ r, renamed (below p.1.1 (dr_name r)) r) p.2;
  more_recent_than p q := q.1.2 <? p.1.2;
  timestamp_sub now t := Z.max 0 (now - t);
  normalize_name := below;
  dns_name name := Some name;
  build_packet kp records := Some (kp_public_key kp, 0, records);
|}.

Lemma below_idemp k name : below k (below k name) = below k name.
Proof.
  unfold below at 2 3. destruct (decide _) as [Hs|]; unfold below; [by rewrite decide_True|].
  rewrite decide_True; [done|]. by apply suffix_app_r.
Qed.

#[local] Instance list_packets_laws : PkarrPacketsLaws.
Proof.
  split.
  - apply below_idemp.
  - intros k. apply starts_with_spec. cbn [normalize_name list_packets]. unfold below. destruct (decide _); [done|]. by apply prefix_app_r.
  - intros p q. cbn [more_recent_than list_packets]. rewrite Z.ltb_lt, Z.ltb_ge. lia.
  - intros p r. cbn [packet_records packet_key normalize_name list_packets]. intros (r' & <- & _)%list_elem_of_In%in_map_iff.
    apply below_idemp.
  - intros kp rs p. cbn [build_packet packet_key packet_records normalize_name list_packets]. by intros [= <-].
  - done.
Qed.

End ListPackets.

#[local] Existing Instance bits_signing.
#[local] Existing Instance list_packets.

(** A record that moves to another home server, at the second attempt, with the
    network away and the packet of the cache: the other record stays. *)
Example publish_moves :
  let a := mk_ResourceRecord (below (H := demo_keys) true (lit "a")) (RDataOther (lit "data")) 30 in
  let first : SignedPacket (PkarrPackets := list_packets (H0 := bits_signing)) :=
    (true, 5, [a; mk_ResourceRecord PUBKY_LABEL (RDataHttps (demo_z32 true)) 9]) in
  homeserver_pubkey_from_packet first = Ok (Some true) ∧
  match publish_homeserver (Some true) 10 20 (Some false) IfStale (Err ResolveFailed) (Ok first) (λ attempt, (1 <? attempt)%nat) with
  | Ok (Some p) => homeserver_pubkey_from_packet p = Ok (Some false) ∧ packet_records p !! 0%nat = Some a
  | _ => False
  end.
Proof. vm_compute. done. Qed.
