(* ===== verification/Republishers.v ===== *)
(** Keeping the records of users alive
    ([republishers/user_keys_republisher.rs] and
    [republishers/pkarr_republisher/]): one attempt for one key, retries, and a
    batch of workers that empty a shared queue of keys.

    The network is asked and answers: an attempt is a tree of questions ([Net]),
    and the answers are anything.  Workers are interleaved at every question and
    every access to the queue. *)

From stdpp Require Import relations.
From S2P Require Import Prelude Keys HttpError Quota Database Users GrantTokens SdkApproval SdkPkdns.

Inductive ResolvePolicy := CacheOnly | NetworkOnly.
Inductive PublishError := NotMostRecent | PublishFailed.

Inductive RepublishError :=
| InsufficientlyPublished (published_nodes_count : Z)
| RepublishPublish (e : PublishError)
| RepublishResolve (e : ResolveError).

Inductive RepublishOutcome := Published | Skipped | Missing | InvalidSignedPacket.

Record RepublishInfo := mk_RepublishInfo { outcome : RepublishOutcome; attempts_needed : nat }.
Definition RepublishResult : Type := result RepublishError RepublishInfo.

Section Republishers.
Context `{PkarrPackets}.

(** * Questions to the network *)

Inductive Net (A : Type) : Type :=
| Ret (a : A)
| Resolve (public_key : PublicKey) (policy : ResolvePolicy) (k : result ResolveError SignedPacket → Net A)
| Publish (packet : SignedPacket) (k : result PublishError Z → Net A)
| Sleep (delay : Z) (k : Net A).
Arguments Ret {A} _.
Arguments Resolve {A} _ _ _.
Arguments Publish {A} _ _.
Arguments Sleep {A} _ _.

Fixpoint net_bind {A B} (f : A → Net B) (m : Net A) : Net B :=
  match m with
  | Ret a => f a
  | Resolve key policy k => Resolve key policy (λ r, net_bind f (k r))
  | Publish packet k => Publish packet (λ r, net_bind f (k r))
  | Sleep d k => Sleep d (net_bind f k)
  end.

#[local] Instance net_mbind : MBind Net := @net_bind.

(** [?] of a result, for the computations below. *)
Definition and_then {E A B} (m : Net (result E A)) (f : A → Net (result E B)) : Net (result E B) :=
  r ← m; match r with Ok a => f a | Err e => Ret (Err e) end.

(** * One key *)

Record RepublisherSettings := mk_RepublisherSettings {
  min_sufficient_node_publish_count : Z;
  republish_condition : option (SignedPacket → bool);
}.

Definition should_republish (settings : RepublisherSettings) (packet : SignedPacket) : bool :=
  match republish_condition settings with None => true | Some condition => condition packet end.

Definition publish (settings : RepublisherSettings) (packet : SignedPacket) : Net (result RepublishError unit) :=
  Publish packet (λ r, Ret (
    match r with
    | Ok count => if count <? min_sufficient_node_publish_count settings then Err (InsufficientlyPublished count) else Ok tt
    | Err e => Err (RepublishPublish e)
    end)).

Definition resolve_cached (public_key : PublicKey) : Net (option SignedPacket) :=
  Resolve public_key CacheOnly (λ r, Ret (ok r)).

(** The fast path is switched off: nothing is published from the cache alone. *)
Definition try_publish_cached (settings : RepublisherSettings) (packet : SignedPacket) : Net (result RepublishError bool) :=
  if negb (should_republish settings packet) then Ret (Ok false) else Ret (Ok false).

(** The network's packet; the outcome when its answer ends the attempt. *)
Definition network_packet (cached_packet : option SignedPacket) (r : result ResolveError SignedPacket)
    : result (result RepublishError RepublishOutcome) (option SignedPacket) :=
  match r with
  | Ok packet => Ok (Some packet)
  | Err ResolveNotFound => Ok None
  | Err (ResolveInvalidSignedPacket seq) =>
      if match cached_packet with Some packet => seq <=? as_i64 (packet_timestamp packet) | None => false end
      then Ok None else Err (Ok InvalidSignedPacket)
  | Err e => Err (Err (RepublishResolve e))
  end.

Definition newest_packet (network cached : option SignedPacket) : option SignedPacket :=
  match network, cached with
  | Some network, Some cached => if more_recent_than cached network then Some cached else Some network
  | Some network, None => Some network
  | None, cached => cached
  end.

Definition republish_latest (settings : RepublisherSettings) (public_key : PublicKey) (cached_packet : option SignedPacket)
    : Net (result RepublishError RepublishOutcome) :=
  Resolve public_key NetworkOnly (λ r,
    match network_packet cached_packet r with
    | Err ended => Ret ended
    | Ok network =>
        match newest_packet network cached_packet with
        | None => Ret (Ok Missing)
        | Some packet =>
            if negb (should_republish settings packet) then Ret (Ok Skipped)
            else and_then (publish settings packet) (λ _, Ret (Ok Published))
        end
    end).

Definition republish (settings : RepublisherSettings) (public_key : PublicKey) : Net (result RepublishError RepublishOutcome) :=
  cached_packet ← resolve_cached public_key;
  match cached_packet with
  | Some packet =>
      and_then (try_publish_cached settings packet) (λ published : bool,
        if published then Ret (Ok Published) else republish_latest settings public_key cached_packet)
  | None => republish_latest settings public_key None
  end.

(** * Retries *)

Record RetrySettings := mk_RetrySettings { max_attempts : nat; initial_retry_delay : Z; max_retry_delay : Z }.

(** [backon]: the delay before each retry, of which there are [retries]. *)
Fixpoint republish_with_retry (retries : nat) (delays : nat → Z) (max_delay : Z) (attempts_count : nat)
    (attempt : Net (result RepublishError RepublishOutcome)) : Net RepublishResult :=
  r ← attempt;
  match r with
  | Ok o => Ret (Ok (mk_RepublishInfo o attempts_count))
  | Err e =>
      match retries with
      | O => Ret (Err e)
      | S retries => Sleep (Z.min (delays attempts_count) max_delay) (republish_with_retry retries delays max_delay (S attempts_count) attempt)
      end
  end.

Definition republish_key (settings : RepublisherSettings) (retry : RetrySettings) (delays : nat → Z) (public_key : PublicKey)
    : Net RepublishResult :=
  republish_with_retry (max_attempts retry - 1) delays (max_retry_delay retry) 1 (republish settings public_key).

(** * Summaries *)

Record RepublishSummary := mk_RepublishSummary {
  total_count : nat; success_count : nat; skipped_count : nat; missing_count : nat; invalid_count : nat; failed_count : nat }.
Definition RepublishSummary_default : RepublishSummary := mk_RepublishSummary 0 0 0 0 0 0.

Definition record (s : RepublishSummary) (r : RepublishResult) : RepublishSummary :=
  match s with
  | mk_RepublishSummary t su sk mi inv fa =>
      match r with
      | Ok (mk_RepublishInfo Published _) => mk_RepublishSummary (S t) (S su) sk mi inv fa
      | Ok (mk_RepublishInfo Skipped _) => mk_RepublishSummary (S t) su (S sk) mi inv fa
      | Ok (mk_RepublishInfo Missing _) => mk_RepublishSummary (S t) su sk (S mi) inv fa
      | Ok (mk_RepublishInfo InvalidSignedPacket _) => mk_RepublishSummary (S t) su sk mi (S inv) fa
      | Err _ => mk_RepublishSummary (S t) su sk mi inv (S fa)
      end
  end.

Definition merge (a b : RepublishSummary) : RepublishSummary :=
  mk_RepublishSummary (total_count a + total_count b) (success_count a + success_count b) (skipped_count a + skipped_count b)
    (missing_count a + missing_count b) (invalid_count a + invalid_count b) (failed_count a + failed_count b).

Definition has_issues (s : RepublishSummary) : bool :=
  (0 <? missing_count s)%nat || (0 <? invalid_count s)%nat || (0 <? failed_count s)%nat.

(** * A batch *)

(** A worker is building its client, between keys, or busy with a key. *)
Inductive Worker :=
| Building
| Between (summary : RepublishSummary)
| Busy (public_key : PublicKey) (rest : Net RepublishResult) (summary : RepublishSummary).

(** The queue, the workers that have not finished, what the finished ones have
    been folded into, and whether one of them could not build its client, which
    ends the run; for the theorems, the keys with their results and the packets
    that were published. *)
Record Batch := mk_Batch {
  queue : list PublicKey;
  workers : list Worker;
  folded : RepublishSummary;
  build_failed : bool;
  handled : list (PublicKey * RepublishResult);
  published : list SignedPacket;
}.

Definition run_start (max_concurrent_workers : nat) (public_keys : list PublicKey) : Batch :=
  mk_Batch public_keys (repeat Building (min max_concurrent_workers (length public_keys))) RepublishSummary_default false [] [].

Inductive worker_step (settings : RepublisherSettings) (retry : RetrySettings) (delays : nat → Z) : Batch → Batch → Prop :=
| step_build q ws ws' f h p :
    worker_step settings retry delays (mk_Batch q (ws ++ Building :: ws') f false h p)
      (mk_Batch q (ws ++ Between RepublishSummary_default :: ws') f false h p)
| step_build_error q ws ws' f h p :
    worker_step settings retry delays (mk_Batch q (ws ++ Building :: ws') f false h p)
      (mk_Batch q (ws ++ ws') f true h p)
| step_pop q key ws ws' s f h p :
    worker_step settings retry delays (mk_Batch (q ++ [key]) (ws ++ Between s :: ws') f false h p)
      (mk_Batch q (ws ++ Busy key (republish_key settings retry delays key) s :: ws') f false h p)
| step_finish ws ws' s f h p :
    worker_step settings retry delays (mk_Batch [] (ws ++ Between s :: ws') f false h p)
      (mk_Batch [] (ws ++ ws') (merge f s) false h p)
| step_record q ws ws' key r s f h p :
    worker_step settings retry delays (mk_Batch q (ws ++ Busy key (Ret r) s :: ws') f false h p)
      (mk_Batch q (ws ++ Between (record s r) :: ws') f false ((key, r) :: h) p)
| step_resolve q ws ws' key k' policy k s r f h p :
    (∀ packet, r = Ok packet → packet_key packet = k') →
    worker_step settings retry delays (mk_Batch q (ws ++ Busy key (Resolve k' policy k) s :: ws') f false h p)
      (mk_Batch q (ws ++ Busy key (k r) s :: ws') f false h p)
| step_publish q ws ws' key packet k s r f h p :
    worker_step settings retry delays (mk_Batch q (ws ++ Busy key (Publish packet k) s :: ws') f false h p)
      (mk_Batch q (ws ++ Busy key (k r) s :: ws') f false h (packet :: p))
| step_sleep q ws ws' key d k s f h p :
    worker_step settings retry delays (mk_Batch q (ws ++ Busy key (Sleep d k) s :: ws') f false h p)
      (mk_Batch q (ws ++ Busy key k s :: ws') f false h p).

(** * The records of the users *)

Definition packet_points_to_homeserver (packet : SignedPacket) (homeserver_public_key : PublicKey) : bool :=
  match extract_host_from_packet packet ≫= (λ target, ok (PublicKey_try_from_z32 target)) with
  | Some target => bool_decide (target = homeserver_public_key)
  | None => false
  end.

Definition MIN_REPUBLISH_INTERVAL : Z := 30 * 60.

(** [UserKeysRepublisherJob::start]: the interval, in seconds; none if disabled. *)
Definition effective_republish_interval (republish_interval : Z) : option Z :=
  if republish_interval =? 0 then None
  else Some (if republish_interval <? MIN_REPUBLISH_INTERVAL then MIN_REPUBLISH_INTERVAL else republish_interval).

Definition default_retry : RetrySettings := mk_RetrySettings 4 200 5000.
Definition with_republish_condition (condition : SignedPacket → bool) : RepublisherSettings :=
  mk_RepublisherSettings 10 (Some condition).
Definition default_max_concurrent_workers : nat := 12.

Definition get_all_user_keys : DB SqlError (list PublicKey) :=
  users ← UserRepository_get_all;
  mret (map ue_public_key users).

(** [republish_impl]: the run that is started, if there is a user. *)
Definition republish_impl : DB SqlError (option Batch) :=
  keys ← get_all_user_keys;
  match keys with
  | [] => mret None
  | _ => mret (Some (run_start default_max_concurrent_workers keys))
  end.

(** * What an attempt does *)

Context `{!PkarrPacketsLaws}.

(** However the network answers, at most [n] questions are asked. *)
Fixpoint asks {A} (n : nat) (m : Net A) : Prop :=
  match m, n with
  | Ret _, _ => True
  | _, O => False
  | Resolve _ _ k, S n => ∀ r, asks n (k r)
  | Publish _ k, S n => ∀ r, asks n (k r)
  | Sleep _ k, S n => asks n k
  end.

(** However the network answers, what is published is a packet of the key that
    the condition wants, and the newest of those the attempt has seen; a retry
    forgets what was seen. *)
Fixpoint publishes_newest {A} (wanted : SignedPacket → bool) (key : PublicKey) (seen : list SignedPacket) (m : Net A) : Prop :=
  match m with
  | Ret _ => True
  | Resolve key' _ k => key' = key ∧ ∀ r, (∀ packet, r = Ok packet → packet_key packet = key) →
      publishes_newest wanted key (match r with Ok packet => packet :: seen | Err _ => seen end) (k r)
  | Publish packet k =>
      wanted packet = true ∧ packet_key packet = key ∧ packet ∈ seen ∧ (∀ q, q ∈ seen → more_recent_than q packet = false) ∧
      ∀ r, publishes_newest wanted key seen (k r)
  | Sleep _ k => publishes_newest wanted key [] k
  end.

Lemma asks_mono {A} (m : Net A) n n' : (n ≤ n')%nat → asks n m → asks n' m.
Proof.
  revert n n'. induction m as [a|key policy k IH|packet k IH|d k IH]; intros [|n] [|n'] Hn; cbn; try done; try lia;
    intros Hk; try (intros r; eapply IH; [|apply Hk]; lia). eapply IH; [|exact Hk]. lia.
Qed.

Lemma asks_bind {A B} (m : Net A) (f : A → Net B) a b : asks a m → (∀ x, asks b (f x)) → asks (a + b) (m ≫= f).
Proof.
  revert a. induction m as [x|key policy k IH|packet k IH|d k IH]; intros a Hm Hf; cbn.
  - eapply asks_mono; [|apply Hf]. lia.
  - destruct a as [|a]; [done|]. cbn in *. intros r. by apply IH.
  - destruct a as [|a]; [done|]. cbn in *. intros r. by apply IH.
  - destruct a as [|a]; [done|]. cbn in *. by apply IH.
Qed.

Lemma publishes_bind {A B} wanted key (m : Net A) (f : A → Net B) seen :
  publishes_newest wanted key seen m → (∀ seen x, publishes_newest wanted key seen (f x)) → publishes_newest wanted key seen (m ≫= f).
Proof.
  revert seen. induction m as [x|key' policy k IH|packet k IH|d k IH]; intros seen Hm Hf; cbn in *.
  - apply Hf.
  - destruct Hm as [-> Hm]. split; [done|]. intros r Hr. by apply IH; [apply Hm|].
  - destruct Hm as (? & ? & ? & ? & Hm). split_and!; try done. intros r. by apply IH.
  - by apply IH.
Qed.

Lemma republish_asks settings key : asks 3 (republish settings key).
Proof.
  intros r. destruct r as [c|e]; cbn; [unfold try_publish_cached; destruct (negb (should_republish settings c)); cbn|];
    intros r; destruct (network_packet _ r) as [n|]; cbn; [|done| |done|..]; try done;
    destruct (newest_packet n _) as [p|]; cbn; try done; destruct (negb _); cbn; try done; intros []; cbn; try done;
    destruct (_ <? _); done.
Qed.

Lemma newest_is_newest network cached p :
  newest_packet network cached = Some p →
  (network = Some p ∨ cached = Some p) ∧ ∀ q, network = Some q ∨ cached = Some q → more_recent_than q p = false.
Proof.
  assert (∀ q, more_recent_than q q = false) as Hirr.
  { intros q. destruct (more_recent_than q q) eqn:E; [|done]. by rewrite (more_recent_asym _ _ E) in E. }
  unfold newest_packet. destruct network as [n|], cached as [c|]; [destruct (more_recent_than c n) eqn:E|..]; intros [= <-];
    (split; [auto|]); intros q [[= <-]|[= <-]]; auto using more_recent_asym.
Qed.

Lemma network_packet_seen cached r n : network_packet cached r = Ok n → n = ok r.
Proof. unfold network_packet. destruct r as [p|[|seq|]]; try (by intros [= <-]). destruct cached as [c|]; [destruct (_ <=? _)|]; by intros [= <-]. Qed.

Lemma latest_publishes settings key cached :
  (∀ c, cached = Some c → packet_key c = key) →
  publishes_newest (should_republish settings) key (option_list cached) (republish_latest settings key cached).
Proof.
  intros Hc. split; [done|]. intros r Hr. destruct (network_packet cached r) as [n|] eqn:En; [|done]. apply network_packet_seen in En as ->.
  destruct (newest_packet (ok r) cached) as [p|] eqn:Ep; [|done]. destruct (should_republish settings p) eqn:Es; [|done].
  apply newest_is_newest in Ep as [Hp Hnew].
  set (seen := match r with Ok packet => packet :: option_list cached | Err _ => option_list cached end).
  assert (∀ q, q ∈ seen ↔ ok r = Some q ∨ cached = Some q) as Hseen.
  { intros q. unfold seen. destruct r as [n|], cached as [c|]; cbn; rewrite ?elem_of_cons, ?elem_of_nil;
      (split; [intros ?; destruct_or?; simplify_eq; auto|intros [[= <-]|[= <-]]; auto]). }
  cbn. split_and!; [done| |by apply Hseen|by intros q ->%Hseen%Hnew|].
  - destruct Hp as [Hp| ->]; [|by apply Hc]. destruct r as [n|]; [|done]. injection Hp as ->. by apply Hr.
  - intros [c|]; cbn; [by destruct (_ <? _)|done].
Qed.

Lemma republish_publishes settings key seen : seen = [] →
  publishes_newest (should_republish settings) key seen (republish settings key).
Proof.
  intros ->. split; [done|]. intros r Hr. destruct r as [c|]; cbn; [|by apply (latest_publishes settings key None)].
  unfold try_publish_cached. destruct (negb _); cbn; apply (latest_publishes settings key (Some c)); intros ? [= <-]; by apply Hr.
Qed.

(** Whatever fails, at most four attempts of three questions each, and the waits between them. *)
Lemma retry_asks retries delays max_delay count n attempt :
  asks n attempt → asks (retries * S n + n) (republish_with_retry retries delays max_delay count attempt).
Proof.
  intros Ha. revert count. induction retries as [|retries IH]; intros count; cbn [republish_with_retry].
  - rewrite <-(Nat.add_0_r (0 * S n + n)). apply asks_bind; [by rewrite Nat.add_0_l|]. by intros [].
  - replace (S retries * S n + n)%nat with (n + S (retries * S n + n))%nat by lia. apply asks_bind; [done|]. intros [o|e]; [done|]. cbn. apply IH.
Qed.

Lemma retry_publishes wanted key retries delays max_delay count attempt :
  publishes_newest wanted key [] attempt →
  publishes_newest wanted key [] (republish_with_retry retries delays max_delay count attempt).
Proof.
  intros Ha. revert count. induction retries as [|retries IH]; intros count; cbn [republish_with_retry]; (apply publishes_bind; [done|]);
    intros seen [o|e]; try done. cbn. apply IH.
Qed.

Definition key_questions (retry : RetrySettings) : nat := ((max_attempts retry - 1) * 4 + 3)%nat.

Lemma republish_key_ok settings retry delays key :
  asks (key_questions retry) (republish_key settings retry delays key) ∧
  publishes_newest (should_republish settings) key [] (republish_key settings retry delays key).
Proof. split; [apply retry_asks, republish_asks|by apply retry_publishes, republish_publishes]. Qed.

(** * What a batch does *)

Definition tally (results : list RepublishResult) : RepublishSummary :=
  foldr (λ r s, record s r) RepublishSummary_default results.

Definition worker_summary (w : Worker) : RepublishSummary :=
  match w with Building => RepublishSummary_default | Between s | Busy _ _ s => s end.
Definition worker_keys (w : Worker) : list PublicKey := match w with Busy key _ _ => [key] | _ => [] end.

(** All counted so far. *)
Definition counted (b : Batch) : RepublishSummary := foldr (λ w, merge (worker_summary w)) (folded b) (workers b).

Lemma merge_assoc a b c : merge a (merge b c) = merge (merge a b) c.
Proof. unfold merge. cbn. f_equal; lia. Qed.
Lemma merge_comm a b : merge a b = merge b a.
Proof. unfold merge. f_equal; lia. Qed.
Lemma merge_default s : merge RepublishSummary_default s = s.
Proof. by destruct s. Qed.
Lemma merge_record a s r : merge (record a r) s = record (merge a s) r.
Proof. destruct a, s, r as [[[] ?]|]; unfold merge; cbn; f_equal; lia. Qed.

Lemma counted_middle ws w ws' f :
  foldr (λ w, merge (worker_summary w)) f (ws ++ w :: ws') = merge (worker_summary w) (foldr (λ w, merge (worker_summary w)) f (ws ++ ws')).
Proof.
  induction ws as [|v ws IH]; [done|]. cbn. rewrite IH, !merge_assoc. f_equal. apply merge_comm.
Qed.
Lemma counted_folded ws f s :
  foldr (λ w, merge (worker_summary w)) (merge f s) ws = merge s (foldr (λ w, merge (worker_summary w)) f ws).
Proof. induction ws as [|v ws IH]; cbn; [apply merge_comm|]. rewrite IH, !merge_assoc. f_equal. apply merge_comm. Qed.

Definition worker_ok (wanted : SignedPacket → bool) (w : Worker) : Prop :=
  match w with Busy key m _ => ∃ seen, publishes_newest wanted key seen m | _ => True end.

(** Every key is waiting, being worked on, or handled, and every result is counted once. *)
Definition batch_wf (settings : RepublisherSettings) (keys : list PublicKey) (b : Batch) : Prop :=
  (build_failed b = false →
    keys ≡ₚ queue b ++ concat (map worker_keys (workers b)) ++ map fst (handled b) ∧
    counted b = tally (map snd (handled b)) ∧
    Forall (worker_ok (should_republish settings)) (workers b)) ∧
  ∀ p, p ∈ published b → should_republish settings p = true ∧ packet_key p ∈ keys.

Lemma start_wf settings n keys : batch_wf settings keys (run_start n keys).
Proof.
  split; [intros _|intros p Hp; by apply not_elem_of_nil in Hp]. cbn [run_start queue workers handled].
  assert (concat (map worker_keys (repeat Building (min n (length keys)))) = []) as -> by (by induction (min n (length keys))).
  split_and!; [by rewrite app_nil_r| |induction (min n (length keys)); by constructor].
  unfold counted. cbn [run_start workers folded]. induction (min n (length keys)) as [|m IH]; [done|]. cbn [repeat foldr]. by rewrite IH.
Qed.

(** The same, with one worker set apart. *)
Lemma wf_middle settings keys q ws w ws' f h p :
  batch_wf settings keys (mk_Batch q (ws ++ w :: ws') f false h p) ↔
  keys ≡ₚ q ++ worker_keys w ++ concat (map worker_keys (ws ++ ws')) ++ map fst h ∧
  merge (worker_summary w) (foldr (λ w, merge (worker_summary w)) f (ws ++ ws')) = tally (map snd h) ∧
  worker_ok (should_republish settings) w ∧ Forall (worker_ok (should_republish settings)) (ws ++ ws') ∧
  ∀ p', p' ∈ p → should_republish settings p' = true ∧ packet_key p' ∈ keys.
Proof.
  assert (concat (map worker_keys (ws ++ w :: ws')) ≡ₚ worker_keys w ++ concat (map worker_keys (ws ++ ws'))) as Hk.
  { rewrite !map_app, !concat_app. cbn. apply Permutation_app_swap_app. }
  unfold batch_wf, counted. cbn [queue workers folded build_failed handled published]. rewrite counted_middle, Hk, <-app_assoc, !Forall_app, Forall_cons.
  split; [intros [Hw Hp]; destruct (Hw eq_refl) as (? & ? & ? & ? & ?); by split_and!|intros (? & ? & ? & [? ?] & ?); split; [intros _; by split_and!|done]].
Qed.

Lemma step_wf settings retry delays keys b b' :
  worker_step settings retry delays b b' → batch_wf settings keys b → batch_wf settings keys b'.
Proof.
  intros Hs. destruct Hs as [q ws ws' f h p|q ws ws' f h p|q key ws ws' s f h p|ws ws' s f h p|q ws ws' key r s f h p
    |q ws ws' key k' policy k s r f h p Hr|q ws ws' key packet k s r f h p|q ws ws' key d k s f h p];
    intros (Hk & Hc & Hw & Hws & Hp)%wf_middle.
  - apply wf_middle. by split_and!.
  - split; [done|exact Hp].
  - apply wf_middle. split_and!; try done; [|exists []; apply republish_key_ok].
    rewrite Hk. cbn [worker_keys]. by rewrite <-!app_assoc.
  - split; [intros _|exact Hp]. split_and!; [exact Hk| |exact Hws]. unfold counted. cbn [workers folded handled]. by rewrite counted_folded.
  - apply wf_middle. cbn [worker_keys worker_summary worker_ok map fst snd app] in *. split_and!; try done.
    + by rewrite Hk, app_assoc, Permutation_middle, <-app_assoc.
    + rewrite merge_record, Hc. done.
  - destruct Hw as [seen [-> Hw]]. apply wf_middle. split_and!; try done. eexists. by apply Hw.
  - destruct Hw as (seen & Hs & Hpk & _ & _ & Hw). apply wf_middle. split_and!; try done; [by exists seen|].
    intros p' [->|Hp']%elem_of_cons; [|by apply Hp]. split; [done|]. rewrite Hpk, Hk. apply elem_of_app. right. by left.
  - destruct Hw as [seen Hw]. apply wf_middle. split_and!; try done. by exists [].
Qed.

(** ** Termination *)

Definition worker_left (w : Worker) (n : nat) : Prop :=
  match w with Building => (2 ≤ n)%nat | Between _ => (1 ≤ n)%nat | Busy _ m _ => ∃ a, asks a m ∧ (a + 2 ≤ n)%nat end.

(** At most so many steps are left. *)
Definition batch_left (retry : RetrySettings) (b : Batch) (n : nat) : Prop :=
  ∃ ns, Forall2 worker_left (workers b) ns ∧ n = (sum_list ns + length (queue b) * (key_questions retry + 2))%nat.

Lemma left_middle retry q ws w ws' f ff h p n :
  batch_left retry (mk_Batch q (ws ++ w :: ws') f ff h p) n ↔
  ∃ a m, worker_left w a ∧ batch_left retry (mk_Batch q (ws ++ ws') f ff h p) m ∧ n = (a + m)%nat.
Proof.
  unfold batch_left. cbn [workers queue]. split.
  - intros (ns & (ns0 & ns1 & Hn0 & (a & ns1' & Ha & Hn1 & ->)%Forall2_cons_inv_l & ->)%Forall2_app_inv_l & ->).
    exists a, (sum_list (ns0 ++ ns1') + length q * (key_questions retry + 2))%nat. split_and!; [done|exists (ns0 ++ ns1'); split; [by apply Forall2_app|done]|].
    rewrite !sum_list_with_app. cbn. lia.
  - intros (a & m & Ha & (ns & (ns0 & ns1 & Hn0 & Hn1 & ->)%Forall2_app_inv_l & ->) & ->). exists (ns0 ++ a :: ns1).
    split; [by apply Forall2_app; [|constructor]|]. rewrite !sum_list_with_app. cbn. lia.
Qed.

Lemma step_left settings retry delays b b' n :
  worker_step settings retry delays b b' → batch_left retry b n → ∃ n', (n' < n)%nat ∧ batch_left retry b' n'.
Proof.
  intros Hs. destruct Hs as [q ws ws' f h p|q ws ws' f h p|q key ws ws' s f h p|ws ws' s f h p|q ws ws' key r s f h p
    |q ws ws' key k' policy k s r f h p Hr|q ws ws' key packet k s r f h p|q ws ws' key d k s f h p];
    intros (a & m & Ha & Hm & ->)%left_middle.
  - exists (1 + m)%nat. cbn in Ha. split; [lia|]. apply left_middle. exists 1%nat, m. split_and!; [cbn; lia|exact Hm|done].
  - exists m. cbn in Ha. split; [lia|exact Hm].
  - destruct Hm as (ns & Hns & ->). cbn [queue workers] in *. rewrite length_app. cbn [length worker_left] in *.
    exists (key_questions retry + 2 + (sum_list ns + length q * (key_questions retry + 2)))%nat. split; [lia|]. apply left_middle.
    eexists _, _. split_and!; [|by exists ns|done]. exists (key_questions retry). split; [apply republish_key_ok|lia].
  - exists m. cbn in Ha. split; [lia|exact Hm].
  - destruct Ha as (a' & _ & Ha). exists (1 + m)%nat. split; [lia|]. apply left_middle. exists 1%nat, m. split_and!; [cbn; lia|exact Hm|done].
  - destruct Ha as ([|a'] & Hk & Ha); [done|]. exists (a' + 2 + m)%nat. split; [lia|]. apply left_middle. exists (a' + 2)%nat, m.
    split_and!; [exists a'; split; [apply Hk|lia]|exact Hm|done].
  - destruct Ha as ([|a'] & Hk & Ha); [done|]. exists (a' + 2 + m)%nat. split; [lia|]. apply left_middle. exists (a' + 2)%nat, m.
    split_and!; [exists a'; split; [apply Hk|lia]|exact Hm|done].
  - destruct Ha as ([|a'] & Hk & Ha); [done|]. exists (a' + 2 + m)%nat. split; [lia|]. apply left_middle. exists (a' + 2)%nat, m.
    split_and!; [exists a'; split; [apply Hk|lia]|exact Hm|done].
Qed.

Lemma start_left retry n keys :
  batch_left retry (run_start n keys) (min n (length keys) * 2 + length keys * (key_questions retry + 2)).
Proof.
  exists (replicate (min n (length keys)) 2%nat). cbn [run_start workers queue]. split; [|by rewrite sum_list_replicate].
  induction (min n (length keys)) as [|m IH]; [apply Forall2_nil_2|apply Forall2_cons_2; [cbn; lia|exact IH]].
Qed.

(** A worker that has not finished can go on. *)
Lemma batch_progress settings retry delays b :
  build_failed b = false → workers b ≠ [] → ∃ b', worker_step settings retry delays b b'.
Proof.
  destruct b as [q [|w ws] f ff h p]; [done|]. cbn. intros -> _. destruct w as [|s|key [r|k' policy k|packet k|d k] s].
  - eexists. apply (step_build _ _ _ q []).
  - destruct q as [|key q _] using rev_ind; eexists; [apply (step_finish _ _ _ [])|apply (step_pop _ _ _ q key [])].
  - eexists. apply (step_record _ _ _ q []).
  - eexists. by apply (step_resolve _ _ _ q [] ws key k' policy k s (Err ResolveNotFound)).
  - eexists. apply (step_publish _ _ _ q [] ws key packet k s (Ok 0)).
  - eexists. apply (step_sleep _ _ _ q []).
Qed.

Lemma points_here p hs : packet_points_to_homeserver p hs = true → homeserver_pubkey_from_packet p = Ok (Some hs).
Proof.
  unfold packet_points_to_homeserver, homeserver_pubkey_from_packet. destruct (extract_host_from_packet p) as [host|]; [|done]. cbn.
  destruct (PublicKey_try_from_z32 host) as [k|]; [|done]. cbn. by intros ->%bool_decide_eq_true.
Qed.

Lemma tally_total rs :
  total_count (tally rs) = length rs ∧
  (total_count (tally rs) = success_count (tally rs) + skipped_count (tally rs) + missing_count (tally rs) + invalid_count (tally rs) + failed_count (tally rs))%nat.
Proof.
  induction rs as [|r rs [IH IH']]; [done|]. cbn [tally foldr length]. fold (tally rs). destruct (tally rs), r as [[[] ?]|]; cbn in *; lia.
Qed.

(** The last worker leaves an empty queue. *)
Definition drained (b : Batch) : Prop := build_failed b = false → workers b = [] → queue b = [].

Lemma step_drained settings retry delays b b' : worker_step settings retry delays b b' → drained b'.
Proof. intros Hs Hf Hw. destruct Hs; cbn in *; try done; by destruct (app_cons_not_nil ws ws' _ (eq_sym Hw)). Qed.

Lemma steps_drained settings retry delays n b b' :
  nsteps (worker_step settings retry delays) n b b' → drained b → drained b'.
Proof. induction 1; eauto using step_drained. Qed.

Lemma start_drained n keys : (0 < n)%nat → drained (run_start n keys).
Proof. intros Hn _. cbn. destruct keys as [|k keys]; [done|]. by destruct n as [|n]; [lia|]. Qed.

Lemma batch_steps_inv settings retry delays keys n b b' N :
  nsteps (worker_step settings retry delays) n b b' → batch_wf settings keys b → batch_left retry b N →
  batch_wf settings keys b' ∧ (n ≤ N)%nat.
Proof.
  intros Hn. revert N. induction Hn as [|n x y z Hs _ IH]; intros N Hw Hl; [split; [done|lia]|].
  destruct (step_left _ _ _ _ _ _ Hs Hl) as (N' & HN & Hl'). destruct (IH N' (step_wf _ _ _ _ _ _ Hs Hw) Hl') as [? ?]. split; [done|lia].
Qed.

(** The keys are those of the accounts. *)
Lemma all_user_keys w keys w' :
  get_all_user_keys w = (Ok keys, w') →
  Forall2 (λ row key, PublicKey_try_from_z32 (u_public_key row) = Ok key) (users (tables w)) keys.
Proof.
  unfold get_all_user_keys, mbind, db_bind. destruct (UserRepository_get_all w) as [[us|e] w1] eqn:E; [|done]. intros [= <- <-].
  apply select_inv in E as [_ [E|E]]; [done|]. symmetry in E. revert us E. unfold fetch_all.
  induction (users (tables w)) as [|row rows IH]; cbn [map collect_results]; intros us Hr; [injection Hr as <-; apply Forall2_nil_2|].
  unfold UserEntity_from_row in Hr. destruct (PublicKey_try_from_z32 (u_public_key row)) as [key|] eqn:Ek; [|done]. cbn [map_err mbind result_bind] in Hr.
  fold UserEntity_from_row in Hr. destruct (collect_results (map UserEntity_from_row rows)) as [us'|]; [|done].
  injection Hr as <-. apply Forall2_cons_2; [done|]. by apply IH.
Qed.

(** (C28) A run of the republisher over the accounts, whatever the network answers and
    however the workers interleave.  It takes a bounded number of steps.  Every
    packet it publishes belongs to an account and names this home server, and
    is the newest of those its attempt has seen.  When no step is left, it has
    given up because a client could not be built, or it has handled every
    account exactly once and counted every result once. *)
Theorem republish_run hs delays w b0 w' steps b :
  let settings := with_republish_condition (λ p, packet_points_to_homeserver p hs) in
  republish_impl w = (Ok (Some b0), w') →
  nsteps (worker_step settings default_retry delays) steps b0 b →
  ∃ keys, Forall2 (λ row key, PublicKey_try_from_z32 (u_public_key row) = Ok key) (users (tables w)) keys ∧
    (steps ≤ 24 + length keys * 17)%nat ∧
    (∀ p, p ∈ published b → homeserver_pubkey_from_packet p = Ok (Some hs) ∧ packet_key p ∈ keys) ∧
    (∀ key, publishes_newest (λ p, packet_points_to_homeserver p hs) key [] (republish_key settings default_retry delays key)) ∧
    ((∀ b', ¬ worker_step settings default_retry delays b b') → build_failed b = false →
       map fst (handled b) ≡ₚ keys ∧ folded b = tally (map snd (handled b)) ∧ total_count (folded b) = length keys).
Proof.
  intros settings Himpl Hs. unfold republish_impl, mbind, db_bind in Himpl. destruct (get_all_user_keys w) as [[keys|e] w1] eqn:Ek; [|done].
  apply all_user_keys in Ek. assert (b0 = run_start default_max_concurrent_workers keys) as ->.
  { destruct keys as [|k keys]; cbn in Himpl; [done|]. by injection Himpl as <- _. }
  exists keys. destruct (batch_steps_inv _ _ _ _ _ _ _ _ Hs (start_wf settings _ keys) (start_left default_retry _ keys)) as [[Hw Hp] Hb].
  split_and!; [done|unfold default_max_concurrent_workers, key_questions in Hb; cbn [default_retry max_attempts] in Hb; lia|intros p [Hh ?]%Hp; split; [by apply points_here|done]|intros key; apply (republish_key_ok settings)|].
  intros Hend Hf. destruct (Hw Hf) as (Hk & Hc & _).
  assert (workers b = []) as Hws.
  { destruct (workers b) as [|v ws] eqn:E; [done|]. destruct (batch_progress settings default_retry delays b Hf) as [b' Hb']; [by rewrite E|]. by destruct (Hend b'). }
  assert (drained (run_start default_max_concurrent_workers keys)) as Hd by (apply start_drained; unfold default_max_concurrent_workers; lia).
  rewrite (steps_drained _ _ _ _ _ _ Hs Hd Hf Hws), Hws in Hk. unfold counted in Hc. rewrite Hws in Hc. cbn in Hk, Hc.
  split_and!; [done|done|]. by rewrite Hc, (proj1 (tally_total _)), length_map, Hk, length_map.
Qed.

End Republishers.

(** ** Witness *)

#[local] Existing Instance bits_signing.
#[local] Existing Instance list_packets.
#[local] Existing Instance list_packets_laws.

(** One account, whose packet of the network names this home server. *)
Definition demo_account_world : World :=
  mk_World (set_users (λ _, [mk_UserRow 1 (demo_z32 true) 10 false 5 null_quota_columns]) (tables (demo_world []))) (seqs (demo_world [])) 0 None [].
Definition demo_packet : SignedPacket (PkarrPackets := list_packets (H0 := bits_signing)) :=
  (true, 5, [mk_ResourceRecord PUBKY_LABEL (RDataHttps (demo_z32 false)) 9]).
Definition demo_run : Batch (H1 := list_packets (H0 := bits_signing)) := run_start default_max_concurrent_workers [true].
Definition demo_settings : RepublisherSettings (H1 := list_packets (H0 := bits_signing)) :=
  with_republish_condition (λ p, packet_points_to_homeserver p false).
Definition demo_ended : Batch (H1 := list_packets (H0 := bits_signing)) :=
  mk_Batch [] [] (mk_RepublishSummary 1 1 0 0 0 0) false [(true, Ok (mk_RepublishInfo Published 1))] [demo_packet].

Lemma demo_batch_steps : nsteps (worker_step demo_settings default_retry (λ _, 0)) 7 demo_run demo_ended.
Proof.
  eapply nsteps_l; [apply (step_build (H := demo_keys) (H1 := list_packets) _ _ _ _ [] [])|].
  eapply nsteps_l; [apply (step_pop (H := demo_keys) (H1 := list_packets) _ _ _ [] true [] [])|].
  eapply nsteps_l; [by apply (step_resolve (H := demo_keys) (H1 := list_packets) _ _ _ _ [] [] _ _ _ _ _ (Err ResolveNotFound))|].
  eapply nsteps_l; [apply (step_resolve (H := demo_keys) (H1 := list_packets) _ _ _ _ [] [] _ _ _ _ _ (Ok demo_packet)); by intros ? [= <-]|].
  eapply nsteps_l; [apply (step_publish (H := demo_keys) (H1 := list_packets) _ _ _ _ [] [] _ demo_packet _ _ (Ok 20))|].
  eapply nsteps_l; [apply (step_record (H := demo_keys) (H1 := list_packets) _ _ _ _ [] [] _ (Ok (mk_RepublishInfo Published 1)))|].
  eapply nsteps_l; [apply (step_finish (H := demo_keys) (H1 := list_packets) _ _ _ [] [])|]. apply nsteps_O.
Qed.

Lemma demo_ended_ended b : ¬ worker_step demo_settings default_retry (λ _, 0) demo_ended b.
Proof. intros Hs. inversion Hs as [? ws|? ws|? ? ws|ws|? ws|? ws|? ws|? ws]; by destruct ws. Qed.

Lemma republish_run_witness :
  ∃ keys, map fst (handled demo_ended) ≡ₚ keys ∧ total_count (folded demo_ended) = length keys ∧
    Forall2 (λ row key, PublicKey_try_from_z32 (H := demo_keys) (u_public_key row) = Ok key) (users (tables demo_account_world)) keys.
Proof.
  destruct (republish_run (H := demo_keys) false (λ _, 0) demo_account_world demo_run (republish_impl demo_account_world).2 7 demo_ended)
    as (keys & Hk & _ & _ & _ & Hend).
  - vm_compute. reflexivity.
  - exact demo_batch_steps.
  - exists keys. destruct (Hend demo_ended_ended eq_refl) as (? & _ & ?). split_and!; done.
Defined.
