(* ===== verification/SharedSession.v ===== *)
(** A grant session shared by the tabs of a browser
    ([pubky-sdk/src/actors/auth/grant/shared_session.rs], with the shared paths
    of [credential.rs]).

    Every tab has a credential of the same grant; the bearer they use lies in a
    store they share, under a lock that is taken by one task alone or by several
    for reading.  An exchange at the server replaces the grant's bearer, so a
    tab that refreshes invalidates the bearer of every other.  Tabs can be
    closed at any moment, and a request they sent may still be executed.

    The asynchronous functions are cut at their awaits: a [BrowserPhase] is a point
    where a task waits, [run_task] what it does when it goes on, and [run] one
    event of the whole browser with the server.  Credentials join at any time.
    The record goes only when a sign-out is acknowledged: an app that deletes it
    from the store by itself ([BrowserStore]) is not among the events. *)

From stdpp Require Import relations functions.
From S2P Require Import Prelude StoragePath Capabilities Keys GrantTokens EncryptionKeys DeepLinks SdkApproval Grants SdkCredential.

Section Shared.
Context `{PkarrKeys, !Signing}.

(** * The stored session *)

Record SharedGrantSession := mk_SharedGrantSession {
  ss_response : GrantSessionResponse;
  ss_refresh_pending : bool;
  ss_logout_pending : bool
}.

(** [GrantCredentialState::response]. *)
Definition state_response (self : GrantCredentialState) : GrantSessionResponse :=
  mk_GrantSessionResponse (cs_bearer self) (cs_session self).

Definition adopt (self : GrantCredentialState) (response : GrantSessionResponse) : result str GrantCredentialState :=
  let session := gr_session response in
  if negb (bool_decide (gi_homeserver session = cs_homeserver_pk self))
     || negb (bool_decide (gi_pubky session = iss (cs_grant_claims self)))
     || negb (bool_decide (gi_grant_id session = jti (cs_grant_claims self)))
     || negb (bool_decide (gi_client_id session = client_id (cs_grant_claims self)))
     || negb (bool_decide (gi_capabilities session = caps (cs_grant_claims self)))
     || negb (gi_grant_expires_at session =? exp (cs_grant_claims self))
  then Err (lit "Shared session does not match its grant")
  else Ok (mk_GrantCredentialState (gr_token response) (cs_grant_jws self) (cs_grant_claims self) (cs_client_signer self)
             (cs_homeserver_pk self) session).

(** [active_session], on what the lease loads. *)
Definition active_session (stored : option SharedGrantSession) : result str SharedGrantSession :=
  shared ← ok_or stored (lit "Browser session was removed");
  if ss_logout_pending shared then Err (lit "Browser session logout is pending") else Ok shared.

(** [coordinate], under an exclusive lease: the credential, and the store. *)
Definition coordinate (self : GrantCredentialState) (stored : option SharedGrantSession)
    : result str (GrantCredentialState * option SharedGrantSession) :=
  match stored with
  | Some shared => self ← adopt self (ss_response shared); Ok (self, stored)
  | None => Ok (self, Some (mk_SharedGrantSession (state_response self) (bool_decide (cs_bearer self = [])) false))
  end.

Definition mark_refresh (shared : SharedGrantSession) : SharedGrantSession :=
  mk_SharedGrantSession (ss_response shared) true (ss_logout_pending shared).
Definition refreshed (shared : SharedGrantSession) (response : GrantSessionResponse) : SharedGrantSession :=
  mk_SharedGrantSession response false (ss_logout_pending shared).
Definition mark_logout (shared : SharedGrantSession) : SharedGrantSession :=
  mk_SharedGrantSession (ss_response shared) (ss_refresh_pending shared) true.

(** The decision of [refresh_shared]: [None] if there is nothing to do. *)
Definition refresh_check (now : Z) (rejected_bearer : option str) (self : GrantCredentialState) (stored : option SharedGrantSession)
    : result str (GrantCredentialState * option SharedGrantSession) :=
  shared ← active_session stored;
  self ← adopt self (ss_response shared);
  if negb (ss_refresh_pending shared) && negb (needs_refresh self now (REFRESH_SLACK_SECS / 2))
     && negb (bool_decide (rejected_bearer = Some (cs_bearer self)))
  then Ok (self, None) else Ok (self, Some shared).

(** The decision of [prepare_shared]: the bearer, and whether to refresh first. *)
Definition prepare_check (now : Z) (self : GrantCredentialState) (stored : option SharedGrantSession)
    : result str (GrantCredentialState * str * bool) :=
  shared ← active_session stored;
  self ← adopt self (ss_response shared);
  Ok (self, cs_bearer self, ss_refresh_pending shared || needs_refresh self now (REFRESH_SLACK_SECS / 2)).

(** * Tasks *)

(** What follows a refresh: the end, or the loop of [prepare_shared]. *)
Inductive After := AfterReturn | AfterPrepare (retried : bool).

Inductive BrowserPhase :=
(** [refresh_shared] *)
| RefreshAcquire (rejected : option str) (k : After)
| RefreshLoad (rejected : option str) (k : After)
| RefreshMark (shared : SharedGrantSession) (k : After)
| RefreshPost (shared : SharedGrantSession) (k : After)
| RefreshWait (shared : SharedGrantSession) (flight : nat) (k : After)
| RefreshSave (shared : SharedGrantSession) (response : GrantSessionResponse) (k : After)
(** [send_shared] and [prepare_shared] *)
| PrepareAcquire (retried : bool)
| PrepareLoad (retried : bool)
| Sending (retried : bool) (bearer : str)
(** [signout] *)
| LogoutAcquire
| LogoutLoad
| LogoutMark (shared : SharedGrantSession)
| LogoutAsk
(** with a proof of possession, or with the bearer for a server that knows no
    other logout *)
| LogoutSending (bearer : option str)
| LogoutRemove
(** a credential joins: [coordinate], under the lease of its caller *)
| JoinAcquire
| JoinLoad
| JoinStore (shared : SharedGrantSession)
(** Returned, with the error if any, or gone. *)
| Returned (r : result str ()).

(** The lease a task holds: exclusive, shared or none. *)
Definition lease (p : BrowserPhase) : option bool :=
  match p with
  | RefreshLoad _ _ | RefreshMark _ _ | RefreshPost _ _ | RefreshWait _ _ _ | RefreshSave _ _ _
  | LogoutLoad | LogoutMark _ | LogoutAsk | LogoutSending _ | LogoutRemove | JoinLoad | JoinStore _ => Some true
  | PrepareLoad _ | Sending _ _ => Some false
  | _ => None
  end.

Definition after_refresh (k : After) : BrowserPhase :=
  match k with AfterReturn => Returned (Ok ()) | AfterPrepare retried => PrepareAcquire retried end.

Record BrowserTask := mk_Task {
  tk_credential : nat;
  (** The request can be sent again. *)
  tk_replayable : bool;
  tk_phase : BrowserPhase
}.

(** A request to the server, with the answer once it is executed. *)
Record Flight := mk_Flight { fl_task : nat; fl_answer : option GrantSessionResponse }.

Record Browser := mk_Browser {
  y_store : option SharedGrantSession;
  y_credentials : nat → GrantCredentialState;
  y_tasks : list BrowserTask;
  y_flights : list Flight;
  (** The grant's bearer at the server, none once the grant is revoked. *)
  y_current : option str;
  y_revoked : bool;
  (** The bearers minted for tasks that were not waiting for them any more. *)
  y_orphans : list str
}.

Definition set_phase (i : nat) (p : BrowserPhase) (y : Browser) : Browser :=
  mk_Browser (y_store y) (y_credentials y) (alter (λ t, mk_Task (tk_credential t) (tk_replayable t) p) i (y_tasks y)) (y_flights y)
    (y_current y) (y_revoked y) (y_orphans y).
Definition set_store (s : option SharedGrantSession) (y : Browser) : Browser :=
  mk_Browser s (y_credentials y) (y_tasks y) (y_flights y) (y_current y) (y_revoked y) (y_orphans y).
Definition set_credential (n : nat) (c : GrantCredentialState) (y : Browser) : Browser :=
  mk_Browser (y_store y) (<[n := c]> (y_credentials y)) (y_tasks y) (y_flights y) (y_current y) (y_revoked y) (y_orphans y).
Definition set_flights (f : list Flight) (y : Browser) : Browser :=
  mk_Browser (y_store y) (y_credentials y) (y_tasks y) f (y_current y) (y_revoked y) (y_orphans y).
Definition set_current (c : option str) (revoked : bool) (orphans : list str) (y : Browser) : Browser :=
  mk_Browser (y_store y) (y_credentials y) (y_tasks y) (y_flights y) c revoked orphans.

(** [GrantSessionCoordinator::acquire]: a shared lock. *)
Definition can_acquire (exclusive : bool) (y : Browser) : bool :=
  forallb (λ t, match lease (tk_phase t) with
                | None => true
                | Some held => negb (held || exclusive)
                end) (y_tasks y).

(** ** What a task does when it goes on *)

Definition run_task (now : Z) (i : nat) (y : Browser) : option Browser :=
  t ← y_tasks y !! i;
  let c := y_credentials y (tk_credential t) in
  match tk_phase t with
  | RefreshAcquire rejected k => if can_acquire true y then Some (set_phase i (RefreshLoad rejected k) y) else None
  | RefreshLoad rejected k =>
      Some match refresh_check now rejected c (y_store y) with
           | Err e => set_phase i (Returned (Err e)) y
           | Ok (c, None) => set_phase i (after_refresh k) (set_credential (tk_credential t) c y)
           | Ok (c, Some shared) => set_phase i (RefreshMark shared k) (set_credential (tk_credential t) c y)
           end
  | RefreshMark shared k => Some (set_phase i (RefreshPost (mark_refresh shared) k) (set_store (Some (mark_refresh shared)) y))
  | RefreshPost shared k =>
      Some (set_phase i (RefreshWait shared (length (y_flights y)) k) (set_flights (y_flights y ++ [mk_Flight i None]) y))
  | RefreshSave shared response k =>
      let y := set_store (Some (refreshed shared response)) y in
      Some match adopt c response with
           | Err e => set_phase i (Returned (Err e)) y
           | Ok c => set_phase i (after_refresh k) (set_credential (tk_credential t) c y)
           end
  | PrepareAcquire retried => if can_acquire false y then Some (set_phase i (PrepareLoad retried) y) else None
  | PrepareLoad retried =>
      Some match prepare_check now c (y_store y) with
           | Err e => set_phase i (Returned (Err e)) y
           | Ok (c, _, true) => set_phase i (RefreshAcquire None (AfterPrepare retried)) (set_credential (tk_credential t) c y)
           | Ok (c, bearer, false) => set_phase i (Sending retried bearer) (set_credential (tk_credential t) c y)
           end
  | LogoutAcquire => if can_acquire true y then Some (set_phase i LogoutLoad y) else None
  | LogoutLoad =>
      Some match y_store y with
           | None => set_phase i (Returned (Ok ())) y
           | Some shared =>
               match adopt c (ss_response shared) with
               | Err e => set_phase i (Returned (Err e)) y
               | Ok c => set_phase i (LogoutMark shared) (set_credential (tk_credential t) c y)
               end
           end
  | LogoutMark shared => Some (set_phase i LogoutAsk (set_store (Some (mark_logout shared)) y))
  | LogoutRemove => Some (set_phase i (Returned (Ok ())) (set_store None y))
  | JoinAcquire => if can_acquire true y then Some (set_phase i JoinLoad y) else None
  | JoinLoad =>
      Some match coordinate c (y_store y) with
           | Err e => set_phase i (Returned (Err e)) y
           | Ok (c, stored) =>
               match y_store y, stored with
               | None, Some shared => set_phase i (JoinStore shared) y
               | _, _ => set_phase i (Returned (Ok ())) (set_credential (tk_credential t) c y)
               end
           end
  | JoinStore shared => Some (set_phase i (Returned (Ok ())) (set_store (Some shared) y))
  | _ => None
  end.

(** * Events *)

Variable grant : GrantClaims.
Variable homeserver : PublicKey.

(** The answer [mint_session] gives. *)
Definition server_answer (token : str) (expires created : Z) : GrantSessionResponse :=
  mk_GrantSessionResponse token
    (mk_GrantSessionInfo homeserver (iss grant) (client_id grant) (caps grant) (jti grant) expires (exp grant) created).

Definition waits_for (t : option BrowserTask) (flight : nat) : bool :=
  match t with
  | Some t => match tk_phase t with RefreshWait _ f _ => (f =? flight)%nat | _ => false end
  | None => false
  end.

Inductive BrowserEvent :=
(** A call of [send], [refresh], [refresh_rejected_bearer], [signout] or
    [coordinate]. *)
| EvSend (credential : nat) (replayable : bool)
| EvRefresh (credential : nat) (rejected : option str)
| EvSignout (credential : nat)
| EvJoin (credential : nat)
(** A task goes on, at a time of its clock. *)
| EvTask (i : nat) (now : Z)
(** A task fails, or its tab is closed. *)
| EvStop (i : nat) (error : str)
(** The server executes an exchange. *)
| EvServe (flight : nat) (token : str) (expires created : Z)
(** The answer to an exchange arrives. *)
| EvAnswer (i : nat)
(** The answer to a request arrives: 401, or any other. *)
| EvReply (i : nat) (unauthorized : bool)
(** It is known whether the server supports [GRANT_PROOF_LOGOUT]. *)
| EvFeatures (i : nat) (supports_proof_logout : bool)
(** A logout is acknowledged, having revoked the grant; the grant is revoked in
    any other way. *)
| EvLoggedOut (i : nat)
| EvRevoke.

Definition add_task (t : BrowserTask) (y : Browser) : Browser :=
  mk_Browser (y_store y) (y_credentials y) (y_tasks y ++ [t]) (y_flights y) (y_current y) (y_revoked y) (y_orphans y).

Definition run (e : BrowserEvent) (y : Browser) : option Browser :=
  match e with
  | EvSend c replayable => Some (add_task (mk_Task c replayable (PrepareAcquire false)) y)
  | EvRefresh c rejected => Some (add_task (mk_Task c false (RefreshAcquire rejected AfterReturn)) y)
  | EvSignout c => Some (add_task (mk_Task c false LogoutAcquire) y)
  | EvJoin c => Some (add_task (mk_Task c false JoinAcquire) y)
  | EvTask i now => run_task now i y
  | EvStop i e => Some (set_phase i (Returned (Err e)) y)
  | EvServe j token expires created =>
      f ← y_flights y !! j;
      match fl_answer f with
      | Some _ => None
      | None =>
          if y_revoked y then None
          else
            let orphans := if waits_for (y_tasks y !! fl_task f) j then y_orphans y else token :: y_orphans y in
            Some (set_current (Some token) false orphans
                    (set_flights (<[j := mk_Flight (fl_task f) (Some (server_answer token expires created))]> (y_flights y)) y))
      end
  | EvAnswer i =>
      t ← y_tasks y !! i;
      match tk_phase t with
      | RefreshWait shared j k =>
          f ← y_flights y !! j;
          response ← fl_answer f;
          Some (set_phase i (RefreshSave shared response k) y)
      | _ => None
      end
  | EvReply i unauthorized =>
      t ← y_tasks y !! i;
      match tk_phase t with
      | Sending retried bearer =>
          if negb retried && unauthorized && tk_replayable t
          then Some (set_phase i (RefreshAcquire (Some bearer) (AfterPrepare true)) y)
          else Some (set_phase i (Returned (Ok ())) y)
      | _ => None
      end
  | EvFeatures i supports_proof_logout =>
      t ← y_tasks y !! i;
      match tk_phase t with
      | LogoutAsk =>
          let bearer := if supports_proof_logout then None else Some (cs_bearer (y_credentials y (tk_credential t))) in
          Some (set_phase i (LogoutSending bearer) y)
      | _ => None
      end
  | EvLoggedOut i =>
      t ← y_tasks y !! i;
      match tk_phase t with
      | LogoutSending _ => Some (set_phase i LogoutRemove (set_current None true (y_orphans y) y))
      | _ => None
      end
  | EvRevoke => Some (set_current None true (y_orphans y) y)
  end.

Definition browser_step (y y' : Browser) : Prop := ∃ e, run e y = Some y'.

(** * The bearer in the store is the server's *)

(** The server's bearer is this one, unless it was minted for a task that had
    gone, or there is none any more. *)
Definition current_ok (token : str) (y : Browser) : Prop :=
  y_current y = Some token ∨ y_revoked y = true ∨ ∃ o, y_current y = Some o ∧ o ∈ y_orphans y.

Definition refreshing (shared : SharedGrantSession) (y : Browser) : Prop :=
  y_store y = Some shared ∧ ss_refresh_pending shared = true ∧ ss_logout_pending shared = false.

Definition phase_inv (y : Browser) (i : nat) (p : BrowserPhase) : Prop :=
  match p with
  | RefreshMark shared _ => y_store y = Some shared ∧ ss_logout_pending shared = false
  | RefreshPost shared _ => refreshing shared y
  | RefreshWait shared j _ => refreshing shared y ∧
      ∃ a, y_flights y !! j = Some (mk_Flight i a) ∧ ∀ r, a = Some r → current_ok (gr_token r) y
  | RefreshSave shared r _ => refreshing shared y ∧ current_ok (gr_token r) y
  | Sending _ b => ∃ s, y_store y = Some s ∧ ss_refresh_pending s = false ∧ ss_logout_pending s = false ∧ gr_token (ss_response s) = b
  | LogoutMark shared => y_store y = Some shared
  | LogoutAsk | LogoutSending _ => ∃ s, y_store y = Some s ∧ ss_logout_pending s = true
  | LogoutRemove => (∃ s, y_store y = Some s ∧ ss_logout_pending s = true) ∧ y_revoked y = true
  | JoinStore _ => y_store y = None
  | _ => True
  end.

(** The session is removed only when the grant is revoked. *)
Definition stored_ok (y : Browser) : Prop :=
  (y_store y = None → y_revoked y = true) ∧
  ∀ s, y_store y = Some s → ss_refresh_pending s = false → current_ok (gr_token (ss_response s)) y.

(** An exclusive lease excludes every other. *)
Definition locks_ok (y : Browser) : Prop :=
  ∀ i j t u, y_tasks y !! i = Some t → y_tasks y !! j = Some u → i ≠ j → lease (tk_phase t) = Some true → lease (tk_phase u) = None.

Definition browser_inv (y : Browser) : Prop :=
  locks_ok y ∧ (∀ i t, y_tasks y !! i = Some t → phase_inv y i (tk_phase t)) ∧ stored_ok y.

Lemma phase_inv_free y i p : lease p = None → phase_inv y i p.
Proof. by destruct p. Qed.

(** The tasks besides [i]. *)
Definition others (i : nat) (y : Browser) (P : BrowserPhase → Prop) : Prop :=
  ∀ j t, y_tasks y !! j = Some t → j ≠ i → P (tk_phase t).

Lemma set_phase_lookup i p y j t :
  y_tasks (set_phase i p y) !! j = Some t →
  if decide (j = i) then ∃ u, y_tasks y !! i = Some u ∧ tk_phase t = p else y_tasks y !! j = Some t.
Proof.
  cbn [set_phase y_tasks]. destruct (decide (j = i)) as [->|Hn].
  - rewrite list_lookup_alter_eq. destruct (y_tasks y !! i) as [u|] eqn:E; [|done]. intros [= <-]. by exists u.
  - by rewrite list_lookup_alter_ne by congruence.
Qed.

(** A task moves to a phase that is compatible with the others. *)
Lemma inv_set_phase i p y :
  locks_ok y → stored_ok y →
  (∀ j t, y_tasks y !! j = Some t → j ≠ i → phase_inv y j (tk_phase t)) →
  others i y (λ q, (lease p = Some true → lease q = None) ∧ (lease q = Some true → lease p = None)) →
  phase_inv y i p → browser_inv (set_phase i p y).
Proof.
  intros HL HS HP HC Hp. split_and!; [| |exact HS].
  - intros j k t u Ht%set_phase_lookup Hu%set_phase_lookup Hne Hl.
    destruct (decide (j = i)) as [->|Hj], (decide (k = i)) as [->|Hk]; [done| | |by apply (HL j k t u)].
    + destruct Ht as (t' & _ & Ht). rewrite Ht in Hl. by apply (HC k u Hu Hk).
    + destruct Hu as (u' & _ & ->). by apply (HC j t Ht Hj).
  - intros j t Ht%set_phase_lookup. destruct (decide (j = i)) as [->|Hj]; [|by apply (HP j t)].
    destruct Ht as (u & _ & ->). exact Hp.
Qed.

Lemma exclusive_others i t y :
  locks_ok y → y_tasks y !! i = Some t → lease (tk_phase t) = Some true → others i y (λ q, lease q = None).
Proof. intros HL Ht Hl j u Hu Hne. by eapply (HL i j t u). Qed.

(** With an exclusive lease a task may change the store. *)
Lemma inv_exclusive i t y y' p :
  browser_inv y → y_tasks y !! i = Some t → lease (tk_phase t) = Some true → y_tasks y' = y_tasks y →
  stored_ok y' → phase_inv y' i p → browser_inv (set_phase i p y').
Proof.
  intros (HL & HP & _) Ht Hl Htk HS Hp. pose proof (exclusive_others i t y HL Ht Hl) as Ho.
  apply inv_set_phase; [unfold locks_ok; by rewrite Htk|done| | |done].
  - intros j u Hu Hne. apply phase_inv_free. rewrite Htk in Hu. by apply (Ho j u).
  - intros j u Hu Hne. rewrite Htk in Hu. rewrite (Ho j u Hu Hne). done.
Qed.

(** Giving up or keeping a shared lease, without touching the store. *)
Lemma inv_beside i t y p :
  browser_inv y → y_tasks y !! i = Some t → lease p ≠ Some true → (lease p = Some false → lease (tk_phase t) ≠ None) →
  phase_inv y i p → browser_inv (set_phase i p y).
Proof.
  intros (HL & HP & HS) Ht Hl Hk Hp. apply inv_set_phase; [done|done|by intros; apply HP| |done].
  intros j u Hu Hne. split; [by intros|]. intros Hlu. destruct (lease p) as [[]|] eqn:E; [done| |done].
  exfalso. by apply (Hk eq_refl), (HL j i u t).
Qed.

Lemma inv_credential n c y : browser_inv y → browser_inv (set_credential n c y).
Proof. done. Qed.

(** Taking a lease that is free. *)
Lemma inv_acquire i p exclusive y :
  browser_inv y → can_acquire exclusive y = true → lease p = Some exclusive → phase_inv y i p → browser_inv (set_phase i p y).
Proof.
  intros (HL & HP & HS) Hc Hl Hp. apply inv_set_phase; [done|done|by intros; apply HP| |done].
  intros j u Hu Hne. unfold can_acquire in Hc. rewrite forallb_forall in Hc.
  specialize (Hc u (proj1 (list_elem_of_In _ _) (list_elem_of_lookup_2 _ _ _ Hu))).
  rewrite Hl. destruct (lease (tk_phase u)) as [[]|], exclusive; try done; by split.
Qed.

Lemma active_session_ok stored shared :
  active_session stored = Ok shared → stored = Some shared ∧ ss_logout_pending shared = false.
Proof.
  unfold active_session. destruct stored as [s|]; [|done]. cbn [ok_or mbind result_bind].
  destruct (ss_logout_pending s) eqn:E; [done|]. by intros [= <-].
Qed.

Lemma adopt_bearer c r c' : adopt c r = Ok c' → cs_bearer c' = gr_token r.
Proof. unfold adopt. cbv zeta. destruct (_ || _); [done|]. by intros [= <-]. Qed.

Lemma refresh_check_ok now rej c stored c' shared :
  refresh_check now rej c stored = Ok (c', Some shared) → stored = Some shared ∧ ss_logout_pending shared = false.
Proof.
  unfold refresh_check. destruct (active_session stored) as [sh|] eqn:Ea; [|done]. cbn [mbind result_bind].
  destruct (adopt c (ss_response sh)) as [c1|]; [|done]. cbn [mbind result_bind]. destruct (_ && _); [done|].
  intros [= _ <-]. by apply active_session_ok.
Qed.

Lemma prepare_check_ok now c stored c' b :
  prepare_check now c stored = Ok (c', b, false) →
  ∃ s, stored = Some s ∧ ss_refresh_pending s = false ∧ ss_logout_pending s = false ∧ gr_token (ss_response s) = b.
Proof.
  unfold prepare_check. destruct (active_session stored) as [sh|] eqn:Ea; [|done]. cbn [mbind result_bind].
  destruct (adopt c (ss_response sh)) as [c1|] eqn:Ed; [|done]. cbn [mbind result_bind]. intros [= _ <- Hp].
  apply active_session_ok in Ea as [-> Hl]. apply adopt_bearer in Ed. apply orb_false_iff in Hp as [Hp _]. by exists sh.
Qed.

(** ** Every event keeps the invariant *)

(** Refreshing tasks go on. *)
Lemma refresh_step_inv now i y y' t :
  browser_inv y → y_tasks y !! i = Some t → run_task now i y = Some y' →
  match tk_phase t with RefreshLoad _ _ | RefreshMark _ _ | RefreshPost _ _ | RefreshSave _ _ _ => True | _ => False end →
  browser_inv y'.
Proof.
  intros HI Ht Hr Hp. pose proof HI as (HL & HP & HS). specialize (HP i t Ht). unfold run_task in Hr. rewrite Ht in Hr. cbn [mbind option_bind] in Hr.
  assert (lease (tk_phase t) = Some true) as Hl by (by destruct (tk_phase t)).
  assert (∀ y0, y_store y0 = y_store y → y_current y0 = y_current y → y_revoked y0 = y_revoked y → y_orphans y0 = y_orphans y → stored_ok y0) as Hsame.
  { unfold stored_ok, current_ok. by intros y0 -> -> -> ->. }
  assert (∀ k y0, phase_inv y0 i (after_refresh k)) as Hafter by (by intros []).
  destruct (tk_phase t) as [|rej k|sh k|sh k| |sh r k| | | | | | | | | | | | |] eqn:E; try done; injection Hr as <-; rewrite <-E in Hl; clear Hp.
  - destruct (refresh_check _ _ _ _) as [[c [shared|]]|] eqn:Ec; (eapply inv_exclusive; [exact HI|exact Ht|done|done|by apply Hsame|]); [|done..].
    by apply refresh_check_ok in Ec.
  - destruct HP as [_ Hlo]. eapply inv_exclusive; [exact HI|exact Ht|done|done| |by split_and!].
    split; [done|]. intros s [= <-]. done.
  - destruct HP as (Hst & Hpe & Hlo). eapply inv_exclusive; [exact HI|exact Ht|done|done|by apply Hsame|].
    cbn [phase_inv set_flights y_flights]. split; [by split_and!|]. exists None. split; [|done].
    by rewrite lookup_app_r, Nat.sub_diag by lia.
  - destruct HP as [_ Hc]. destruct (adopt _ _) as [c|];
      (eapply inv_exclusive; [exact HI|exact Ht|done|done| |by apply Hafter||done]); (split; [done|]; intros s [= <-] _; exact Hc).
Qed.

Lemma run_task_inv now i y y' : browser_inv y → run_task now i y = Some y' → browser_inv y'.
Proof.
  intros HI Hr. pose proof HI as (HL & HP & HS). destruct (y_tasks y !! i) as [t|] eqn:Ht; [|unfold run_task in Hr; by rewrite Ht in Hr].
  specialize (HP i t Ht). destruct (tk_phase t) as [rej k|rej k|sh k|sh k|sh f k|sh r k|rt|rt|rt b| | |sh| |lb| | | |js|r] eqn:Hp;
    try (eapply refresh_step_inv; [exact HI|exact Ht|exact Hr|by rewrite Hp]).
  all: unfold run_task in Hr; rewrite Ht in Hr; cbn [mbind option_bind] in Hr; rewrite Hp in Hr; try done.
  - destruct (can_acquire true y) eqn:Hc; [|done]. injection Hr as <-. by eapply inv_acquire.
  - destruct (can_acquire false y) eqn:Hc; [|done]. injection Hr as <-. by eapply inv_acquire.
  - injection Hr as <-. destruct (prepare_check _ _ _) as [[[c b] []]|] eqn:E.
    + eapply inv_beside; [by apply inv_credential|exact Ht|done|done|done].
    + eapply inv_beside; [by apply inv_credential|exact Ht|done|by rewrite Hp|]. by apply prepare_check_ok in E.
    + by eapply inv_beside.
  - destruct (can_acquire true y) eqn:Hc; [|done]. injection Hr as <-. by eapply inv_acquire.
  - injection Hr as <-. destruct (y_store y) as [shared|] eqn:Es; [destruct (adopt _ _)|]; (eapply inv_exclusive; [exact HI|exact Ht|by rewrite Hp|done|exact HS|done]).
  - injection Hr as <-. cbn in HP. eapply inv_exclusive; [exact HI|exact Ht|by rewrite Hp|done| |].
    + split; [done|]. intros s [= <-] Hpe. destruct HS as [_ HS]. by apply (HS sh HP).
    + by eexists.
  - injection Hr as <-. destruct HP as [_ Hrev]. by eapply inv_exclusive; [exact HI|exact Ht|by rewrite Hp|..].
  - destruct (can_acquire true y) eqn:Hc; [|done]. injection Hr as <-. by eapply inv_acquire.
  - injection Hr as <-. destruct (coordinate _ _) as [[c [st|]]|] eqn:Ec;
      [destruct (y_store y) as [s0|] eqn:Es|destruct (y_store y) eqn:Es|];
      (eapply inv_exclusive; [exact HI|exact Ht|by rewrite Hp|done|exact HS|done]).
  - injection Hr as <-. cbn in HP. eapply inv_exclusive; [exact HI|exact Ht|by rewrite Hp|done| |done].
    split; [done|]. intros s _ _. right; left. by apply HS.
Qed.

Lemma inv_release i p y : browser_inv y → lease p = None → browser_inv (set_phase i p y).
Proof.
  intros (HL & HP & HS) Hl. apply inv_set_phase; [done|done|by intros; apply HP| |by apply phase_inv_free].
  intros j u Hu Hne. by rewrite Hl.
Qed.

Lemma inv_add_task t y : browser_inv y → lease (tk_phase t) = None → browser_inv (add_task t y).
Proof.
  intros (HL & HP & HS) Hl. split_and!; [| |exact HS].
  - intros i j u v Hu Hv Hne Hlu. cbn [add_task y_tasks] in Hu, Hv.
    apply lookup_app_Some in Hu as [Hu|[_ [_ <-]%list_lookup_singleton_Some]]; [|congruence].
    apply lookup_app_Some in Hv as [Hv|[_ [_ <-]%list_lookup_singleton_Some]]; [|done]. by apply (HL i j u v).
  - intros i u Hu. cbn [add_task y_tasks] in Hu.
    apply lookup_app_Some in Hu as [Hu|[_ [_ <-]%list_lookup_singleton_Some]]; [by apply (HP i u)|by apply phase_inv_free].
Qed.

(** A revocation leaves no bearer to be wrong about. *)
Lemma inv_revoked o y : browser_inv y → browser_inv (set_current None true o y).
Proof.
  intros (HL & HP & HS). assert (∀ tok, current_ok tok (set_current None true o y)) as Hc by (by right; left).
  split_and!; [done| |by split].
  intros i t Ht. specialize (HP i t Ht). destruct (tk_phase t); try done.
  - destruct HP as [Hr (a & Hf & _)]. split; [exact Hr|]. exists a. split; [exact Hf|]. by intros.
  - destruct HP as [Hr _]. by split.
  - destruct HP as [Hr _]. by split.
Qed.

(** An exchange for a task that waits comes while the store says so; any other
    leaves an orphan. *)
Lemma inv_serve j tok ex cr y y' : browser_inv y → run (EvServe j tok ex cr) y = Some y' → browser_inv y'.
Proof.
  intros (HL & HP & HS) Hr. cbn [run] in Hr. destruct (y_flights y !! j) as [[o a]|] eqn:Hf; [|done]. cbn [mbind option_bind fl_answer fl_task] in Hr.
  destruct a; [done|]. destruct (y_revoked y) eqn:Hrev; [done|]. injection Hr as <-.
  set (y1 := set_current _ _ _ _).
  assert (∀ i t, y_tasks y !! i = Some t → ∀ sh f k, tk_phase t = RefreshWait sh f k →
    y_flights y1 !! f = Some (mk_Flight i (if (f =? j)%nat then Some (server_answer tok ex cr) else fl_answer (default (mk_Flight 0 None) (y_flights y !! f))))) as Hfl.
  { intros i t Ht sh f k Hp. specialize (HP i t Ht). rewrite Hp in HP. destruct HP as [_ (a & Hfa & _)]. cbn [y1 set_current set_flights y_flights].
    destruct (Nat.eqb_spec f j) as [->|Hn]; [|by rewrite list_lookup_insert_ne, Hfa by congruence].
    rewrite Hf in Hfa. injection Hfa as ->. rewrite list_lookup_insert_eq; [done|]. by eapply lookup_lt_Some. }
  destruct (waits_for (y_tasks y !! o) j) eqn:Hw.
  - (* the waiting task holds the lease *)
    destruct (y_tasks y !! o) as [t|] eqn:Ho; [|done]. cbn [waits_for] in Hw.
    destruct (tk_phase t) as [| | | |sh f k| | | | | | | | | | | | | |] eqn:Hp; try done. apply Nat.eqb_eq in Hw as ->.
    assert (others o y (λ q, lease q = None)) as Hoth by (eapply exclusive_others; [done|exact Ho|by rewrite Hp]).
    pose proof (HP o t Ho) as Hpo. rewrite Hp in Hpo. destruct Hpo as [Href _].
    split_and!; [done| |].
    + intros i u Hu. change (y_tasks y1) with (y_tasks y) in Hu. destruct (decide (i = o)) as [->|Hne]; [|by apply phase_inv_free, (Hoth i u)].
      assert (u = t) as -> by congruence. rewrite Hp. split; [exact Href|]. eexists. split; [eapply Hfl; [exact Ho|exact Hp]|].
      rewrite Nat.eqb_refl. intros r [= <-]. by left.
    + destruct Href as (Hs' & Hpe' & _). split; change (y_store y1) with (y_store y); [congruence|]. intros s Hs Hpe. congruence.
  - assert (∀ tok', current_ok tok' y1) as Hc by (right; right; exists tok; split; [done|left]).
    split_and!; [done| |split; [|by intros s _ _]].
    2: { intros Hs. destruct HS as [HS _]. specialize (HS Hs). congruence. }
    intros i u Hu. change (y_tasks y1) with (y_tasks y) in Hu. pose proof (HP i u Hu) as Hpi.
    destruct (tk_phase u) as [| | | |sh f k|sh r k| | | | | | | | | | | | |] eqn:Hp; try exact Hpi.
    + destruct Hpi as [Href _]. split; [exact Href|]. eexists. split; [by eapply Hfl|]. by intros.
    + destruct Hpi as [Href _]. by split.
    + destruct Hpi as [_ Hr]. congruence.
Qed.

Lemma run_inv e y y' : browser_inv y → run e y = Some y' → browser_inv y'.
Proof.
  intros HI Hr. destruct e as [c rp|c rej|c|c|i now|i err|j tok ex cr|i|i un|i sp|i|]; cbn [run] in Hr.
  - injection Hr as <-. by apply inv_add_task.
  - injection Hr as <-. by apply inv_add_task.
  - injection Hr as <-. by apply inv_add_task.
  - injection Hr as <-. by apply inv_add_task.
  - by eapply run_task_inv.
  - injection Hr as <-. by apply inv_release.
  - by eapply (inv_serve j tok ex cr).
  - destruct (y_tasks y !! i) as [t|] eqn:Ht; [|done]. cbn [mbind option_bind] in Hr. pose proof HI as (HL & HP & HS).
    specialize (HP i t Ht). destruct (tk_phase t) as [| | | |sh f k| | | | | | | | | | | | | |] eqn:Hp; try done.
    destruct HP as [Href (a & Hf & Ha)]. rewrite Hf in Hr. cbn [mbind option_bind fl_answer] in Hr. destruct a as [r|]; [|done].
    injection Hr as <-. eapply inv_exclusive; [exact HI|exact Ht|by rewrite Hp|done|exact HS|]. split; [exact Href|by apply Ha].
  - destruct (y_tasks y !! i) as [t|] eqn:Ht; [|done]. cbn [mbind option_bind] in Hr. destruct (tk_phase t); try done.
    destruct (_ && _); injection Hr as <-; by apply inv_release.
  - destruct (y_tasks y !! i) as [t|] eqn:Ht; [|done]. cbn [mbind option_bind] in Hr. pose proof HI as (HL & HP & HS).
    specialize (HP i t Ht). destruct (tk_phase t) eqn:Hp; try done. injection Hr as <-.
    by eapply inv_exclusive; [exact HI|exact Ht|by rewrite Hp|..].
  - destruct (y_tasks y !! i) as [t|] eqn:Ht; [|done]. cbn [mbind option_bind] in Hr. pose proof HI as (HL & HP & HS).
    specialize (HP i t Ht). destruct (tk_phase t) eqn:Hp; try done. injection Hr as <-.
    eapply inv_exclusive; [exact HI|exact Ht|by rewrite Hp|done| |by split]. split; [done|]. intros s _ _. by right; left.
  - injection Hr as <-. by apply inv_revoked.
Qed.

Lemma browser_steps_inv y y' : rtc browser_step y y' → browser_inv y → browser_inv y'.
Proof. induction 1 as [|y y1 y2 [e He] _ IH]; [done|]. intros HI. by apply IH, (run_inv e y). Qed.

(** * What follows *)

(** The browser once a first credential has joined: one restored from storage,
    which has no bearer yet, or one that has the server's. *)
Definition joined (c : GrantCredentialState) (y : Browser) : Prop :=
  coordinate c None = Ok (c, y_store y) ∧ y_tasks y = [] ∧ (cs_bearer c = [] ∨ y_current y = Some (cs_bearer c)).

Lemma joined_inv c y : joined c y → browser_inv y.
Proof.
  intros (Hc & Ht & Hb). split_and!.
  - intros i j t u Hi. by rewrite Ht in Hi.
  - intros i t Hi. by rewrite Ht in Hi.
  - cbn [coordinate] in Hc. injection Hc as Hc. split; [by rewrite <-Hc|]. intros s Hs Hp. rewrite <-Hc in Hs. injection Hs as <-. cbn in Hp |- *.
    apply bool_decide_eq_false in Hp. left. by destruct Hb.
Qed.

Lemma waits_set_phase i p y o j :
  waits_for (y_tasks (set_phase i p y) !! o) j = if decide (o = i) then
    match y_tasks y !! i with Some _ => match p with RefreshWait _ f _ => (f =? j)%nat | _ => false end | None => false end
  else waits_for (y_tasks y !! o) j.
Proof.
  cbn [set_phase y_tasks]. destruct (decide (o = i)) as [->|Hn].
  - rewrite list_lookup_alter_eq. by destruct (y_tasks y !! i) as [[? ? []]|].
  - by rewrite list_lookup_alter_ne by congruence.
Qed.

(** Every exchange on its way is waited for. *)
Definition owned (y : Browser) : Prop :=
  y_orphans y = [] ∧ ∀ j o, y_flights y !! j = Some (mk_Flight o None) → waits_for (y_tasks y !! o) j = true.

(** A task that does not wait may move. *)
Lemma owned_move i t p y y' :
  owned y → y_tasks y !! i = Some t → (∀ f, waits_for (Some t) f = true → y_flights y !! f ≠ Some (mk_Flight i None)) →
  y_tasks y' = y_tasks y → y_orphans y' = y_orphans y → y_flights y' = y_flights y → owned (set_phase i p y').
Proof.
  intros [Ho Hf] Ht Hw Etk Eo Ef. split; [cbn; congruence|]. intros j o Hj. cbn [set_phase y_flights] in Hj. rewrite Ef in Hj.
  specialize (Hf j o Hj). rewrite waits_set_phase, Etk. destruct (decide (o = i)) as [->|]; [|done].
  rewrite Ht in Hf. by destruct (Hw j Hf).
Qed.

Lemma owned_run_task now i y y' : owned y → run_task now i y = Some y' → owned y'.
Proof.
  intros Ho Hr. unfold run_task in Hr. destruct (y_tasks y !! i) as [t|] eqn:Ht; [|done]. cbn [mbind option_bind] in Hr.
  assert (∀ p y', (match tk_phase t with RefreshWait _ _ _ => False | _ => True end) →
    y_tasks y' = y_tasks y → y_orphans y' = y_orphans y → y_flights y' = y_flights y → owned (set_phase i p y')) as Hm.
  { intros p y1 Hn E1 E2 E3. eapply owned_move; [exact Ho|exact Ht| |done..]. intros f Hw. cbn in Hw. by destruct (tk_phase t). }
  destruct (tk_phase t) as [rej k|rej k|sh k|sh k|sh f k|sh r k|rt|rt|rt b| | |sh| |lb| | | |js|r] eqn:Hp; try done.
  1, 6, 8, 12: destruct (can_acquire _ y); [|done]; injection Hr as <-; by apply Hm.
  all: injection Hr as <-.
  - destruct (refresh_check _ _ _ _) as [[c [|]]|]; by apply Hm.
  - by apply Hm.
  - destruct Ho as [Hor Hf]. split; [done|]. intros j o Hj. cbn [set_phase set_flights y_flights] in Hj. rewrite waits_set_phase.
    cbn [set_flights y_tasks]. rewrite Ht. apply lookup_app_Some in Hj as [Hj|[Hl [Hj [= <-]]%list_lookup_singleton_Some]].
    + specialize (Hf j o Hj). destruct (decide (o = i)) as [->|]; [|done]. rewrite Ht in Hf. cbn in Hf. by rewrite Hp in Hf.
    + rewrite decide_True by congruence. apply Nat.eqb_eq. lia.
  - destruct (adopt _ _); by apply Hm.
  - destruct (prepare_check _ _ _) as [[[c b] []]|]; by apply Hm.
  - destruct (y_store y); [destruct (adopt _ _)|]; by apply Hm.
  - by apply Hm.
  - by apply Hm.
  - destruct (coordinate _ _) as [[c [st|]]|]; [destruct (y_store y)|destruct (y_store y)|]; by apply Hm.
  - by apply Hm.
Qed.

(** A run in which no task fails and no tab is closed. *)
Definition undisturbed (y y' : Browser) : Prop := ∃ e, run e y = Some y' ∧ match e with EvStop _ _ => False | _ => True end.

Lemma owned_step y y' : owned y → undisturbed y y' → owned y'.
Proof.
  intros Ho (e & Hr & He). destruct e as [c rp|c rej|c|c|i now|i err|j tok ex cr|i|i un|i sp|i|]; cbn [run] in Hr; try done.
  1-4: injection Hr as <-; destruct Ho as [Hor Hf]; split; [done|]; intros j o Hj; specialize (Hf j o Hj);
    cbn [add_task y_tasks]; rewrite lookup_app_l; [done|]; destruct (y_tasks y !! o) eqn:E; [by eapply lookup_lt_Some|done].
  - by eapply owned_run_task.
  - destruct (y_flights y !! j) as [[o a]|] eqn:Hj; [|done]. cbn [mbind option_bind fl_answer fl_task] in Hr. destruct a; [done|].
    destruct (y_revoked y); [done|]. destruct Ho as [Hor Hf]. rewrite (Hf j o Hj) in Hr. injection Hr as <-. split; [done|].
    intros j' o' Hj'. cbn [set_current set_flights y_flights y_tasks] in *. destruct (decide (j' = j)) as [->|Hn].
    + rewrite list_lookup_insert_eq in Hj' by (by eapply lookup_lt_Some). done.
    + rewrite list_lookup_insert_ne in Hj' by congruence. by apply Hf.
  - destruct (y_tasks y !! i) as [t|] eqn:Ht; [|done]. cbn [mbind option_bind] in Hr.
    destruct (tk_phase t) as [| | | |sh f k| | | | | | | | | | | | | |] eqn:Hp; try done.
    destruct (y_flights y !! f) as [[o a]|] eqn:Hj; [|done]. cbn [mbind option_bind fl_answer] in Hr. destruct a as [r|]; [|done].
    injection Hr as <-. eapply owned_move; [exact Ho|exact Ht| |done..]. intros f' Hw. cbn in Hw. rewrite Hp in Hw. apply Nat.eqb_eq in Hw as <-.
    by rewrite Hj.
  - destruct (y_tasks y !! i) as [t|] eqn:Ht; [|done]. cbn [mbind option_bind] in Hr. destruct (tk_phase t) eqn:Hp; try done.
    assert (∀ p, owned (set_phase i p y)) as Hm.
    { intros p. eapply owned_move; [exact Ho|exact Ht| |done..]. intros f Hw. cbn in Hw. by rewrite Hp in Hw. }
    destruct (_ && _); injection Hr as <-; apply Hm.
  - destruct (y_tasks y !! i) as [t|] eqn:Ht; [|done]. cbn [mbind option_bind] in Hr. destruct (tk_phase t) eqn:Hp; try done.
    injection Hr as <-. eapply owned_move; [exact Ho|exact Ht| |done..]. intros f Hw. cbn in Hw. by rewrite Hp in Hw.
  - destruct (y_tasks y !! i) as [t|] eqn:Ht; [|done]. cbn [mbind option_bind] in Hr. destruct (tk_phase t) eqn:Hp; try done.
    injection Hr as <-. eapply owned_move; [exact Ho|exact Ht| |done..]. intros f Hw. cbn in Hw. by rewrite Hp in Hw.
  - by injection Hr as <-.
Qed.

(** (C32) Tabs do not lock each other out.  Once a credential has joined, in every
    state the browser can get into, whatever tasks run, fail or are closed at
    any point: a request that is under way carries the grant's current bearer
    at the server, or the grant is revoked, or the server executed an exchange
    late, for a task that had already failed or gone.  While it is under way
    nobody refreshes and all requests carry the same bearer.  If no task fails
    or is closed there are no late exchanges, so that the bearer is the current
    one until the grant is revoked. *)
Theorem shared_bearer_current c y0 y :
  joined c y0 → rtc browser_step y0 y →
  (∀ i t retried b, y_tasks y !! i = Some t → tk_phase t = Sending retried b →
     (y_current y = Some b ∨ y_revoked y = true ∨ ∃ o, y_current y = Some o ∧ o ∈ y_orphans y) ∧
     (∀ j u, y_tasks y !! j = Some u → lease (tk_phase u) ≠ Some true ∧
        ∀ retried' b', tk_phase u = Sending retried' b' → b' = b)) ∧
  (y_flights y0 = [] → y_orphans y0 = [] → rtc undisturbed y0 y → y_orphans y = []).
Proof.
  intros Hj Hs. apply joined_inv in Hj. pose proof (browser_steps_inv _ _ Hs Hj) as (HL & HP & HS). split.
  - intros i t rt b Ht Hp. pose proof (HP i t Ht) as Hpi. rewrite Hp in Hpi. destruct Hpi as (s & Hst & Hpe & _ & <-). split; [by apply HS|].
    intros j u Hu. split.
    + intros Hl. destruct (decide (i = j)) as [->|Hne]; [assert (u = t) as -> by congruence; by rewrite Hp in Hl|].
      assert (lease (tk_phase t) = None) as Hn by (by apply (HL j i u t)). by rewrite Hp in Hn.
    + intros rt' b' Hp'. pose proof (HP j u Hu) as Hpj. rewrite Hp' in Hpj. destruct Hpj as (s' & Hst' & _ & _ & <-). congruence.
  - intros Hf Ho Hu. assert (owned y0) as Hw by (split; [done|]; intros j o Hj'; by rewrite Hf in Hj').
    clear -Hu Hw. induction Hu as [y|y1 y2 y3 H12 _ IH]; [apply Hw|]. by apply IH, (owned_step y1).
Qed.

(** ** Signing out *)

(** A sign-out is recorded, and the record not yet removed. *)
Definition signing_out (y : Browser) : Prop := ∃ s, y_store y = Some s ∧ ss_logout_pending s = true.

(** Phases of a task that uses the session: all but the sign-out itself. *)
Definition uses_session (p : BrowserPhase) : bool :=
  match p with
  | RefreshMark _ _ | RefreshPost _ _ | RefreshWait _ _ _ | RefreshSave _ _ _ | Sending _ _ => true
  | _ => false
  end.

Lemma signing_out_phases y i t :
  browser_inv y → signing_out y → y_tasks y !! i = Some t →
  uses_session (tk_phase t) = false ∧ (tk_phase t = LogoutRemove → y_revoked y = true).
Proof.
  intros (_ & HP & _) (s & Hs & Hl) Ht. specialize (HP i t Ht). destruct (tk_phase t); cbn in HP |- *; unfold refreshing in *; try done.
  all: try (repeat match goal with H : _ ∧ _ |- _ => destruct H | H : ∃ _, _ |- _ => destruct H end; congruence).
  by split; [|intros _; destruct HP].
Qed.

Lemma signing_out_task now i y y' :
  browser_inv y → signing_out y → y_revoked y = false → run_task now i y = Some y' →
  signing_out y' ∧ length (y_flights y') = length (y_flights y).
Proof.
  intros HI Hc Hrev Hr. unfold run_task in Hr. destruct (y_tasks y !! i) as [t|] eqn:Ht; [|done]. cbn [mbind option_bind] in Hr.
  destruct (signing_out_phases y i t HI Hc Ht) as [Hph Hrm].
  destruct (tk_phase t) as [rej k|rej k|sh k|sh k|sh f k|sh r k|rt|rt|rt b| | |sh| |lb| | | |js|r] eqn:Hp; try done.
  1, 3, 5, 9: destruct (can_acquire _ y); [|done]; by injection Hr as <-.
  all: try (injection Hr as <-).
  - by destruct (refresh_check _ _ _ _) as [[c [|]]|].
  - by destruct (prepare_check _ _ _) as [[[c b] []]|].
  - destruct (y_store y); [destruct (adopt _ _)|]; by split.
  - split; [by eexists|done].
  - by rewrite Hrm in Hrev.
  - destruct (coordinate _ _) as [[c [st|]]|]; [destruct (y_store y)|destruct (y_store y)|]; by split.
  - exfalso. destruct HI as (_ & HP & _). specialize (HP i t Ht). rewrite Hp in HP. cbn in HP. destruct Hc as (s & Hs & _). congruence.
Qed.

(** A task does not change what the server has. *)
Lemma run_task_server now i y y' :
  run_task now i y = Some y' → y_revoked y' = y_revoked y ∧ y_current y' = y_current y.
Proof.
  unfold run_task. destruct (y_tasks y !! i) as [t|]; [|done]. cbn [mbind option_bind].
  destruct (tk_phase t); try done; try (destruct (can_acquire _ y); [|done]); intros [= <-]; try done;
    repeat case_match; done.
Qed.

(** A revoked grant stays without a bearer. *)
Lemma revoked_steps y y' :
  rtc browser_step y y' → y_revoked y = true ∧ y_current y = None → y_revoked y' = true ∧ y_current y' = None.
Proof.
  induction 1 as [|y y1 y2 [e Hr] _ IH]; [done|]. intros [Hrev Hcur]. apply IH. clear IH.
  destruct e as [c rp|c rej|c|c|i now|i err|j tok ex cr|i|i un|i sp|i|]; cbn [run] in Hr.
  5: { apply run_task_server in Hr as [-> ->]. done. }
  all: try (by injection Hr as <-).
  - destruct (y_flights y !! j) as [f|]; [|done]. cbn [mbind option_bind] in Hr. destruct (fl_answer f); [done|]. by rewrite Hrev in Hr.
  - destruct (y_tasks y !! i) as [t|]; [|done]. cbn [mbind option_bind] in Hr. destruct (tk_phase t); try done.
    destruct (y_flights y !! _) as [f|]; [|done]. cbn [mbind option_bind] in Hr. destruct (fl_answer f); [|done]. by injection Hr as <-.
  - destruct (y_tasks y !! i) as [t|]; [|done]. cbn [mbind option_bind] in Hr. destruct (tk_phase t); try done.
    destruct (_ && _); by injection Hr as <-.
  - destruct (y_tasks y !! i) as [t|]; [|done]. cbn [mbind option_bind] in Hr. destruct (tk_phase t); try done. by injection Hr as <-.
  - destruct (y_tasks y !! i) as [t|]; [|done]. cbn [mbind option_bind] in Hr. destruct (tk_phase t); try done. by injection Hr as <-.
Qed.

Lemma signing_out_step y y' :
  browser_inv y → signing_out y → y_revoked y = false → browser_step y y' →
  y_revoked y' = true ∧ y_current y' = None ∨
  y_revoked y' = false ∧ signing_out y' ∧ length (y_flights y') = length (y_flights y).
Proof.
  intros HI Hc Hrev [e Hr]. destruct e as [c rp|c rej|c|c|i now|i err|j tok ex cr|i|i un|i sp|i|]; cbn [run] in Hr.
  1-4, 6: right; by injection Hr as <-.
  - right. split; [|by eapply signing_out_task]. apply run_task_server in Hr as [-> _]. done.
  - right. destruct (y_flights y !! j) as [f|]; [|done]. cbn [mbind option_bind] in Hr. destruct (fl_answer f); [done|].
    rewrite Hrev in Hr. injection Hr as <-. split_and!; [done..|]. cbn. by rewrite length_insert.
  - right. destruct (y_tasks y !! i) as [t|]; [|done]. cbn [mbind option_bind] in Hr. destruct (tk_phase t); try done.
    destruct (y_flights y !! _) as [f|]; [|done]. cbn [mbind option_bind] in Hr. destruct (fl_answer f); [|done]. by injection Hr as <-.
  - right. destruct (y_tasks y !! i) as [t|]; [|done]. cbn [mbind option_bind] in Hr. destruct (tk_phase t); try done.
    destruct (_ && _); by injection Hr as <-.
  - right. destruct (y_tasks y !! i) as [t|]; [|done]. cbn [mbind option_bind] in Hr. destruct (tk_phase t); try done. by injection Hr as <-.
  - left. destruct (y_tasks y !! i) as [t|]; [|done]. cbn [mbind option_bind] in Hr. destruct (tk_phase t); try done. by injection Hr as <-.
  - left. by injection Hr as <-.
Qed.

(** (C33) Signing out ends the session in every tab.  Once a sign-out is recorded
    in the store, even if the tab that began it is closed before the server is
    asked, then whatever tabs send, refresh, sign out or join: as long as the
    grant is not revoked, the record stays, no tab sends a request with the
    session's bearer or asks for a new one, and the only bearer under way is
    that of a sign-out at a server that knows no logout by proof; and from the
    moment the grant is revoked the server has no bearer for it, nor gives one,
    even to a tab that joins again once the record is removed. *)
Theorem signout_closes c y0 y y' :
  joined c y0 → rtc browser_step y0 y → signing_out y → y_revoked y = false → rtc browser_step y y' →
  y_revoked y' = true ∧ y_current y' = None ∨
  y_revoked y' = false ∧ signing_out y' ∧ length (y_flights y') = length (y_flights y) ∧
  ∀ i t, y_tasks y' !! i = Some t → uses_session (tk_phase t) = false.
Proof.
  intros Hj%joined_inv Hs Hc Hrev Hs'. pose proof (browser_steps_inv _ _ Hs Hj) as HI.
  assert (browser_inv y' ∧ (y_revoked y' = true ∧ y_current y' = None ∨
            y_revoked y' = false ∧ signing_out y' ∧ length (y_flights y') = length (y_flights y))) as [HI' Hcase].
  { clear Hs Hj. revert HI. induction Hs' as [y|y1 y2 y3 H12 H23 IH]; intros HI; [split; [done|by right]|].
    pose proof H12 as [e He]. pose proof (run_inv e _ _ HI He) as HI2.
    destruct (signing_out_step y1 y2 HI Hc Hrev H12) as [Hr2|(Hr2 & Hc2 & Hl2)].
    - split; [by eapply browser_steps_inv|]. left. by eapply revoked_steps.
    - rewrite <-Hl2. by apply IH. }
  destruct Hcase as [?|(? & Hc' & ?)]; [by left|right]. split_and!; [done..|]. intros i t Ht.
  by apply (signing_out_phases y' i t).
Qed.

(** ** A request gets to the server, or does not *)

Definition run_all (es : list BrowserEvent) (y : Browser) : option Browser := foldl (λ y e, y ≫= run e) (Some y) es.

(** [needs_refresh], of a bearer that ends at [expires]. *)
Definition stale (expires now : Z) : bool :=
  (expires <=? now) || ((expires <? exp grant) && (Z.max 0 (expires - REFRESH_SLACK_SECS / 2) <=? now)).

Definition of_grant (c : GrantCredentialState) : Prop := cs_grant_claims c = grant ∧ cs_homeserver_pk c = homeserver.

Definition adopted (c : GrantCredentialState) (r : GrantSessionResponse) : GrantCredentialState :=
  mk_GrantCredentialState (gr_token r) (cs_grant_jws c) (cs_grant_claims c) (cs_client_signer c) (cs_homeserver_pk c) (gr_session r).

Lemma adopt_answer c tok ex cr :
  of_grant c → adopt c (server_answer tok ex cr) = Ok (adopted c (server_answer tok ex cr)).
Proof.
  intros [Hg Hh]. unfold adopt, adopted, server_answer. cbn. rewrite Hg, Hh.
  repeat (rewrite bool_decide_eq_true_2 by reflexivity). by rewrite Z.eqb_refl.
Qed.

(** One task that wants to send a request, in a browser with a session. *)
Definition solo (retried pending : bool) (tok : str) (expires created : Z) (y : Browser) : Prop :=
  (∃ rp, y_tasks y = [mk_Task 0 rp (PrepareAcquire retried)]) ∧
  y_store y = Some (mk_SharedGrantSession (server_answer tok expires created) pending false) ∧
  y_revoked y = false ∧ of_grant (y_credentials y 0%nat).

Lemma run_all_cons e es y y1 : run e y = Some y1 → run_all (e :: es) y = run_all es y1.
Proof. intros Hr. unfold run_all. cbn [foldl mbind option_bind]. by rewrite Hr. Qed.

Lemma needs_answer c tok ex cr now :
  of_grant c → needs_refresh (adopted c (server_answer tok ex cr)) now (REFRESH_SLACK_SECS / 2) = stale ex now.
Proof. intros [Hg _]. unfold needs_refresh, adopted, server_answer. cbn. by rewrite Hg. Qed.

Lemma prepare_answer now c tok ex cr pending :
  of_grant c →
  prepare_check now c (Some (mk_SharedGrantSession (server_answer tok ex cr) pending false))
  = Ok (adopted c (server_answer tok ex cr), tok, pending || stale ex now).
Proof.
  intros Hc. unfold prepare_check. cbn [active_session ok_or mbind result_bind ss_logout_pending ss_response ss_refresh_pending].
  rewrite (adopt_answer _ _ _ _ Hc). cbn [mbind result_bind]. by rewrite needs_answer.
Qed.

Lemma refresh_answer now c tok ex cr pending :
  of_grant c → pending || stale ex now = true →
  let shared := mk_SharedGrantSession (server_answer tok ex cr) pending false in
  refresh_check now None c (Some shared) = Ok (adopted c (server_answer tok ex cr), Some shared).
Proof.
  intros Hc Hst. unfold refresh_check. cbn [active_session ok_or mbind result_bind ss_logout_pending ss_response ss_refresh_pending].
  rewrite (adopt_answer _ _ _ _ Hc). cbn [mbind result_bind]. rewrite needs_answer by done. by destruct pending, (stale ex now).
Qed.

Lemma solo_prepared retried tok ex cr now y :
  solo retried false tok ex cr y → stale ex now = false →
  ∃ y' rp, run_all [EvTask 0 now; EvTask 0 now] y = Some y' ∧ y_tasks y' = [mk_Task 0 rp (Sending retried tok)].
Proof.
  intros ([rp Ht] & Hs & Hr & Hc) Hst. destruct y as [st cs tk fl cu rv orp]. cbn in Ht, Hs, Hr, Hc. subst.
  eexists _, rp. split.
  - erewrite run_all_cons by reflexivity. erewrite run_all_cons; [reflexivity|].
    cbn [run run_task y_tasks lookup list_lookup mbind option_bind tk_phase tk_credential y_credentials y_store set_phase alter list_alter].
    rewrite prepare_answer, Hst by done. reflexivity.
  - reflexivity.
Qed.

(** One exchange, after which the task looks at the store again. *)
Definition round (now : Z) (flight : nat) (tok : str) (expires created : Z) : list BrowserEvent :=
  repeat (EvTask 0 now) 6 ++ [EvServe flight tok expires created; EvAnswer 0; EvTask 0 now].

Lemma solo_round retried pending tok ex cr now tok' ex' cr' y :
  solo retried pending tok ex cr y → pending || stale ex now = true →
  ∃ y', run_all (round now (length (y_flights y)) tok' ex' cr') y = Some y' ∧ solo retried false tok' ex' cr' y' ∧
    length (y_flights y') = S (length (y_flights y)).
Proof.
  intros ([rp Ht] & Hs & Hr & Hc) Hst. destruct y as [st cs tk fl cu rv orp]. cbn in Ht, Hs, Hr, Hc. subst.
  cbn [y_flights]. set (sh := mk_SharedGrantSession (server_answer tok ex cr) pending false).
  set (c1 := adopted (cs 0%nat) (server_answer tok ex cr)). set (cs1 := <[0%nat := c1]> cs).
  assert (cs1 0%nat = c1) as E1 by apply fn_lookup_insert. assert (of_grant c1) as Hc1 by exact Hc.
  set (c2 := adopted c1 (server_answer tok ex cr)). set (cs2 := <[0%nat := c2]> cs1).
  assert (cs2 0%nat = c2) as E2 by apply fn_lookup_insert. assert (of_grant c2) as Hc2 by exact Hc.
  set (B := λ st cs ph fl cu, mk_Browser st cs [mk_Task 0 rp ph] fl cu false orp).
  set (k := AfterPrepare retried). set (a := server_answer tok' ex' cr').
  set (fl1 := fl ++ [mk_Flight 0 None]). set (fl2 := fl ++ [mk_Flight 0 (Some a)]).
  assert (fl1 !! length fl = Some (mk_Flight 0 None)) as Ef1 by (unfold fl1; by rewrite lookup_app_r, Nat.sub_diag by lia).
  assert (<[length fl := mk_Flight 0 (Some a)]> fl1 = fl2) as Ef2 by (unfold fl1; by rewrite insert_app_r_alt, Nat.sub_diag by lia).
  assert (fl2 !! length fl = Some (mk_Flight 0 (Some a))) as Ef3 by (unfold fl2; by rewrite lookup_app_r, Nat.sub_diag by lia).
  exists (B (Some (refreshed (mark_refresh sh) a)) (<[0%nat := adopted c2 a]> cs2) (PrepareAcquire retried) fl2 (Some tok')). split_and!.
  - unfold round. cbn [repeat app].
    rewrite (run_all_cons _ _ _ (B (Some sh) cs (PrepareLoad retried) fl cu)) by reflexivity.
    rewrite (run_all_cons _ _ _ (B (Some sh) cs1 (RefreshAcquire None k) fl cu)).
    2: { cbn [run run_task y_tasks B lookup list_lookup mbind option_bind tk_phase tk_credential y_credentials y_store].
         unfold sh. by rewrite prepare_answer, Hst by done. }
    rewrite (run_all_cons _ _ _ (B (Some sh) cs1 (RefreshLoad None k) fl cu)) by reflexivity.
    rewrite (run_all_cons _ _ _ (B (Some sh) cs2 (RefreshMark sh k) fl cu)).
    2: { cbn [run run_task y_tasks B lookup list_lookup mbind option_bind tk_phase tk_credential y_credentials y_store].
         unfold sh. by rewrite E1, refresh_answer. }
    rewrite (run_all_cons _ _ _ (B (Some (mark_refresh sh)) cs2 (RefreshPost (mark_refresh sh) k) fl cu)) by reflexivity.
    rewrite (run_all_cons _ _ _ (B (Some (mark_refresh sh)) cs2 (RefreshWait (mark_refresh sh) (length fl) k) fl1 cu)) by reflexivity.
    rewrite (run_all_cons _ _ _ (B (Some (mark_refresh sh)) cs2 (RefreshWait (mark_refresh sh) (length fl) k) fl2 (Some tok'))).
    2: { cbn [run y_flights B]. rewrite Ef1. cbn [mbind option_bind fl_answer fl_task y_revoked].
         change (waits_for _ _) with (length fl =? length fl)%nat. rewrite Nat.eqb_refl. fold a. by rewrite Ef2. }
    rewrite (run_all_cons _ _ _ (B (Some (mark_refresh sh)) cs2 (RefreshSave (mark_refresh sh) a k) fl2 (Some tok'))).
    2: { cbn [run y_tasks B lookup list_lookup mbind option_bind tk_phase y_flights]. by rewrite Ef3. }
    erewrite run_all_cons; [reflexivity|].
    cbn [run run_task y_tasks B lookup list_lookup mbind option_bind tk_phase tk_credential y_credentials y_store].
    rewrite E2. unfold a at 1. by rewrite adopt_answer by done.
  - split_and!; [by exists rp|done|done|]. cbn [B y_credentials]. by rewrite fn_lookup_insert.
  - cbn [B y_flights]. unfold fl2. rewrite length_app. cbn. lia.
Qed.

Lemma run_all_app es es' y y1 : run_all es y = Some y1 → run_all (es ++ es') y = run_all es' y1.
Proof. unfold run_all. intros Hr. by rewrite foldl_app, Hr. Qed.

(** The lifetime the server gives a bearer. *)
Definition bearer_end (created : Z) : Z := Z.min (created + DEFAULT_SESSION_TOKEN_LIFETIME_SECS) (exp grant).

Lemma fresh_not_stale now created :
  now < exp grant → now ≤ created + POP_MAX_AGE_SECS → 0 ≤ now → stale (bearer_end created) now = false.
Proof.
  unfold stale, bearer_end, POP_MAX_AGE_SECS, DEFAULT_SESSION_TOKEN_LIFETIME_SECS. change (REFRESH_SLACK_SECS / 2) with 150. intros.
  apply orb_false_iff. split; [lia|]. apply andb_false_iff. destruct (Z.min_spec (created + 3600) (exp grant)) as [[? ->]|[? ->]]; lia.
Qed.

(** A request gets under way.  A task that wants to send a request, alone in
    a browser with a session, gets its bearer after at most one exchange and
    eleven events, whatever the state of the stored bearer, if the clock is
    before the end of the grant and at most three minutes ahead of the
    server's; the bearer is one that need not be refreshed. *)
Theorem request_prepared retried pending tok ex cr now tok' created y :
  solo retried pending tok ex cr y → 0 ≤ now < exp grant → now ≤ created + POP_MAX_AGE_SECS →
  let es := if pending || stale ex now then round now (length (y_flights y)) tok' (bearer_end created) created else [] in
  ∃ y' rp b expires, run_all (es ++ [EvTask 0 now; EvTask 0 now]) y = Some y' ∧
    y_tasks y' = [mk_Task 0 rp (Sending retried b)] ∧ stale expires now = false ∧
    (b, expires) = if pending || stale ex now then (tok', bearer_end created) else (tok, ex).
Proof.
  intros Hs Hnow Hcl es. destruct (pending || stale ex now) eqn:E.
  - destruct (solo_round retried pending tok ex cr now tok' (bearer_end created) created y Hs E) as (y1 & Hr1 & Hs1 & _).
    assert (stale (bearer_end created) now = false) as Hf by (apply fresh_not_stale; lia).
    destruct (solo_prepared _ _ _ _ now y1 Hs1 Hf) as (y2 & rp & Hr2 & Ht). exists y2, rp, tok', (bearer_end created).
    unfold es. rewrite (run_all_app _ _ _ _ Hr1). done.
  - apply orb_false_iff in E as [-> E]. destruct (solo_prepared _ _ _ _ now y Hs E) as (y2 & rp & Hr2 & Ht).
    by exists y2, rp, tok, ex.
Qed.

(** ** The end of a grant *)

(** The clock of the browser says that the grant has ended, that of the server
    that it has not; no credential joins. *)
Definition ended_event (e : BrowserEvent) : Prop :=
  match e with EvTask _ now => exp grant ≤ now | EvServe _ _ expires created => expires = bearer_end created ∧ created < exp grant | EvJoin _ => False | _ => True end.
Definition ended_step (y y' : Browser) : Prop := ∃ e, run e y = Some y' ∧ ended_event e.

Definition ends (r : GrantSessionResponse) : Prop := gi_token_expires_at (gr_session r) ≤ exp grant.

(** No bearer outlives the grant, and no request is under way. *)
Definition ended (y : Browser) : Prop :=
  (∀ s, y_store y = Some s → ends (ss_response s)) ∧
  (∀ j f r, y_flights y !! j = Some f → fl_answer f = Some r → ends r) ∧
  ∀ i t, y_tasks y !! i = Some t →
    match tk_phase t with
    | Sending _ _ => False
    | RefreshSave _ r _ => ends r
    | RefreshMark sh _ | LogoutMark sh => ends (ss_response sh)
    | JoinAcquire | JoinLoad | JoinStore _ => False
    | _ => True
    end.

Lemma ended_move i p y y' :
  ended y → y_tasks y' = y_tasks y → y_flights y' = y_flights y → (∀ s, y_store y' = Some s → ends (ss_response s)) →
  match p with
  | Sending _ _ => False
  | RefreshSave _ r _ => ends r
  | RefreshMark sh _ | LogoutMark sh => ends (ss_response sh)
  | JoinAcquire | JoinLoad | JoinStore _ => False
  | _ => True
  end → ended (set_phase i p y').
Proof.
  intros (HS & HF & HT) Et Ef Hs Hp. split_and!; [exact Hs|cbn [set_phase y_flights]; by rewrite Ef|].
  intros j t Ht%set_phase_lookup. destruct (decide (j = i)) as [->|]; [|rewrite Et in Ht; by apply (HT j t)].
  by destruct Ht as (u & _ & ->).
Qed.

Lemma ended_prepare now c stored c' b :
  (∀ s, stored = Some s → ends (ss_response s)) → exp grant ≤ now → prepare_check now c stored ≠ Ok (c', b, false).
Proof.
  intros Hs Hn. unfold prepare_check. destruct (active_session stored) as [sh|] eqn:Ea; [|done]. cbn [mbind result_bind].
  apply active_session_ok in Ea as [-> _]. specialize (Hs sh eq_refl). unfold ends in Hs.
  destruct (adopt c (ss_response sh)) as [c1|] eqn:Ed; [|done]. cbn [mbind result_bind]. intros [= _ _ Hf].
  apply orb_false_iff in Hf as [_ Hf]. unfold needs_refresh in Hf. apply orb_false_iff in Hf as [Hf _]. apply Z.leb_gt in Hf.
  unfold adopt in Ed. cbv zeta in Ed. destruct (_ || _); [done|]. injection Ed as <-. cbn in Hf. lia.
Qed.

Lemma ended_run_task now i y y' : ended y → exp grant ≤ now → run_task now i y = Some y' → ended y'.
Proof.
  intros HE Hn Hr. pose proof HE as (HS & HF & HT). unfold run_task in Hr. destruct (y_tasks y !! i) as [t|] eqn:Ht; [|done].
  specialize (HT i t Ht). cbn [mbind option_bind] in Hr.
  destruct (tk_phase t) as [rej k|rej k|sh k|sh k|sh f k|sh r k|rt|rt|rt b| | |sh| |lb| | | |js|r] eqn:Hp; try done.
  1, 6, 8: destruct (can_acquire _ y); [|done]; injection Hr as <-; by apply (ended_move i _ y).
  all: injection Hr as <-.
  - destruct (refresh_check _ _ _ _) as [[c [shared|]]|] eqn:Ec; (apply (ended_move i _ y); [done..|]); [| |done].
    + apply refresh_check_ok in Ec as [Ec _]. by apply HS.
    + by destruct k.
  - apply (ended_move i _ y); [done..| |done]. by intros s [= <-].
  - split_and!; [done| |].
    + intros j f r Hj Hf. cbn [set_phase set_flights y_flights] in Hj.
      apply lookup_app_Some in Hj as [Hj|[_ [_ <-]%list_lookup_singleton_Some]]; [by eapply HF|done].
    + apply (ended_move i (RefreshWait sh (length (y_flights y)) k) y y); done.
  - destruct (adopt _ _); (apply (ended_move i _ y); [done..|intros s [= <-]; exact HT|]); [by destruct k|done].
  - destruct (prepare_check _ _ _) as [[[c b] []]|] eqn:Ec; (apply (ended_move i _ y); [done..|]); try done.
    by eapply ended_prepare in Ec.
  - destruct (y_store y) as [sh|] eqn:Es; [destruct (adopt _ _)|]; (apply (ended_move i _ y); [done|done|done|cbn; rewrite Es; exact HS|]); try done.
    by apply HS.
  - apply (ended_move i _ y); [done..| |done]. by intros s [= <-].
  - by apply (ended_move i _ y).
Qed.

Lemma ended_steps y y' : rtc ended_step y y' → ended y → ended y'.
Proof.
  induction 1 as [|y y1 y2 (e & Hr & He) _ IH]; [done|]. intros HE. apply IH. clear IH y2. pose proof HE as (HS & HF & HT).
  destruct e as [c rp|c rej|c|c|i now|i err|j tok ex cr|i|i un|i sp|i|]; cbn [run] in Hr.
  1-3: injection Hr as <-; split_and!; [done..|]; intros i t Ht; cbn [add_task y_tasks] in Ht;
    apply lookup_app_Some in Ht as [Ht|[_ [_ <-]%list_lookup_singleton_Some]]; [by apply (HT i t)|done].
  - done.
  - by eapply ended_run_task.
  - injection Hr as <-. by apply (ended_move i _ y).
  - destruct (y_flights y !! j) as [f|] eqn:Hj; [|done]. cbn [mbind option_bind] in Hr. destruct (fl_answer f); [done|].
    destruct (y_revoked y); [done|]. injection Hr as <-. split_and!; [done| |done]. intros j' f' r Hj' Hf'.
    cbn [set_current set_flights y_flights] in Hj'. destruct (decide (j' = j)) as [->|].
    + rewrite list_lookup_insert_eq in Hj' by (by eapply lookup_lt_Some). injection Hj' as <-. injection Hf' as <-.
      destruct He as [-> _]. unfold ends, bearer_end. cbn. lia.
    + rewrite list_lookup_insert_ne in Hj' by congruence. by eapply HF.
  - destruct (y_tasks y !! i) as [t|] eqn:Ht; [|done]. cbn [mbind option_bind] in Hr. destruct (tk_phase t); try done.
    destruct (y_flights y !! _) as [f|] eqn:Hf; [|done]. cbn [mbind option_bind] in Hr. destruct (fl_answer f) eqn:Ha; [|done].
    injection Hr as <-. apply (ended_move i _ y); [done..|]. by eapply HF.
  - destruct (y_tasks y !! i) as [t|] eqn:Ht; [|done]. cbn [mbind option_bind] in Hr. destruct (tk_phase t); try done.
    destruct (_ && _); injection Hr as <-; by apply (ended_move i _ y).
  - destruct (y_tasks y !! i) as [t|] eqn:Ht; [|done]. cbn [mbind option_bind] in Hr. destruct (tk_phase t); try done.
    injection Hr as <-. by apply (ended_move i _ y).
  - destruct (y_tasks y !! i) as [t|] eqn:Ht; [|done]. cbn [mbind option_bind] in Hr. destruct (tk_phase t); try done.
    injection Hr as <-. by apply (ended_move i _ y).
  - by injection Hr as <-.
Qed.

Lemma run_all_ended es y y' : run_all es y = Some y' → Forall ended_event es → rtc ended_step y y'.
Proof.
  intros Hr He. revert y Hr. induction He as [|e es He _ IH]; intros y Hr; [injection Hr as <-; done|].
  destruct (run e y) as [y1|] eqn:E.
  - rewrite (run_all_cons _ _ _ _ E) in Hr. eapply rtc_l; [by exists e|by apply IH].
  - unfold run_all in Hr. cbn [foldl mbind option_bind] in Hr. rewrite E in Hr. exfalso. clear -Hr.
    induction es as [|e es IH]; [done|]. by apply IH.
Qed.

(** A request that never gets under way.  If the browser's clock is past the
    end of the grant and the server's is not, a task that wants to send a
    request exchanges the grant again and again: each exchange succeeds, the
    bearer it gets ends with the grant, which for the browser is the past, and
    the loop goes on.  The task can be made to do any number of exchanges, and
    in no run does any request get under way, whatever else happens. *)
Theorem prepare_spins retried pending tok ex cr now y :
  solo retried pending tok ex cr y → ended y → pending || stale ex now = true → exp grant ≤ now →
  (∀ n, ∃ y', rtc ended_step y y' ∧ length (y_flights y') = (n + length (y_flights y))%nat ∧ ∃ p tk e c, solo retried p tk e c y') ∧
  ∀ y' i t rt b, rtc ended_step y y' → y_tasks y' !! i = Some t → tk_phase t ≠ Sending rt b.
Proof.
  intros Hs HE Hst Hn. set (created := exp grant - 1). split.
  - intros n. assert (∃ y' p tk e c, rtc ended_step y y' ∧ length (y_flights y') = (n + length (y_flights y))%nat ∧
      solo retried p tk e c y' ∧ p || stale e now = true) as (y' & p & tk & e & c & Hr & Hl & Hs' & _); [|eauto 10].
    induction n as [|n (y1 & p & tk & e & c & Hr & Hl & Hs1 & Hst1)]; [by exists y, pending, tok, ex, cr|].
    destruct (solo_round retried p tk e c now tok (bearer_end created) created y1 Hs1 Hst1) as (y2 & Hr2 & Hs2 & Hl2).
    exists y2, false, tok, (bearer_end created), created. split_and!; [|lia|done|].
    + etrans; [exact Hr|]. eapply run_all_ended; [exact Hr2|]. unfold round. repeat constructor; cbn; unfold created; lia.
    + unfold stale, bearer_end. apply orb_true_iff. right. apply orb_true_iff. left. lia.
  - intros y' i t rt b Hr Ht Hp. apply ended_steps in Hr as (_ & _ & HT); [|done]. specialize (HT i t Ht). by rewrite Hp in HT.
Qed.

Lemma run_all_steps es y y' : run_all es y = Some y' → rtc browser_step y y'.
Proof.
  revert y. induction es as [|e es IH]; intros y Hr; [injection Hr as <-; done|]. destruct (run e y) as [y1|] eqn:E.
  - rewrite (run_all_cons _ _ _ _ E) in Hr. eapply rtc_l; [by exists e|by apply IH].
  - unfold run_all in Hr. cbn [foldl mbind option_bind] in Hr. rewrite E in Hr. exfalso. clear -Hr.
    induction es as [|e es IH]; [done|]. by apply IH.
Qed.

End Shared.

(** * Witnesses *)

#[local] Existing Instance bits_signing.

Definition tab_grant : GrantClaims (H := demo_keys) :=
  mk_GrantClaims (H := demo_keys) true (lit "app.example") [mk_Capability (mk_StoragePath (lit "/pub/")) [Read]] false (lit "grant-1") 1000 9000.
Definition tab_credential : GrantCredentialState (H := demo_keys) (H2 := bits_signing) :=
  mk_GrantCredentialState [] (lit "jws") tab_grant (LocalSigner (H := demo_keys) (H2 := bits_signing) false) true (gr_session (server_answer tab_grant true [] 0 0)).
Definition tab_browser : Browser (H := demo_keys) (H0 := bits_signing) :=
  mk_Browser (Some (mk_SharedGrantSession (state_response tab_credential) true false)) (λ _, tab_credential) [] [] None false [].

(** A tab sends a request: it has to refresh first. *)
Definition tab_events : list BrowserEvent := EvSend 0 true :: round 1000 0 (lit "t1") 4600 1000 ++ [EvTask 0 1000; EvTask 0 1000].
Definition tab_sending : Browser (H := demo_keys) (H0 := bits_signing) :=
  default tab_browser (run_all tab_grant true tab_events tab_browser).

Lemma tab_joined : joined (H := demo_keys) tab_credential tab_browser.
Proof. split_and!; [reflexivity|reflexivity|left; reflexivity]. Qed.

Lemma run_default {A} (o : option A) d : match o with Some _ => true | None => false end = true → o = Some (default d o).
Proof. by destruct o. Qed.

Lemma tab_run : run_all tab_grant true tab_events tab_browser = Some tab_sending.
Proof. apply run_default. vm_compute. reflexivity. Qed.

Lemma shared_bearer_current_witness :
  ∃ t, y_tasks tab_sending !! 0%nat = Some t ∧ tk_phase t = Sending false (lit "t1") ∧
    (y_current tab_sending = Some (lit "t1") ∨ y_revoked tab_sending = true ∨ ∃ o, y_current tab_sending = Some o ∧ o ∈ y_orphans tab_sending).
Proof.
  exists (mk_Task 0 true (Sending false (lit "t1"))). split; [vm_compute; reflexivity|]. split; [reflexivity|].
  destruct (shared_bearer_current (H := demo_keys) tab_grant true tab_credential tab_browser tab_sending tab_joined
              (run_all_steps _ _ _ _ _ tab_run)) as [Hs _].
  refine (proj1 (Hs 0%nat (mk_Task 0 true (Sending false (lit "t1"))) false (lit "t1") _ eq_refl)). vm_compute. reflexivity.
Defined.

(** The tab signs out and is closed before the server is asked; another request
    is tried, and another tab joins. *)
Definition tab_closing : Browser (H := demo_keys) (H0 := bits_signing) :=
  default tab_browser (run_all tab_grant true [EvSignout 0; EvTask 0 1000; EvTask 0 1000; EvTask 0 1000; EvFeatures 0 true; EvStop 0 []] tab_browser).
Definition tab_later : Browser (H := demo_keys) (H0 := bits_signing) :=
  default tab_browser (run_all tab_grant true [EvSend 0 true; EvTask 1 1000; EvTask 1 1000; EvJoin 1; EvTask 2 1000; EvTask 2 1000] tab_closing).

Lemma signout_closes_witness :
  y_tasks tab_later !! 1%nat = Some (mk_Task 0 true (Returned (Err (lit "Browser session logout is pending")))) ∧
  signing_out tab_later.
Proof.
  split; [vm_compute; reflexivity|].
  destruct (signout_closes (H := demo_keys) tab_grant true tab_credential tab_browser tab_closing tab_later tab_joined) as [[Hr _]|(_ & Hc & _)].
  - apply (run_all_steps _ _ [EvSignout 0; EvTask 0 1000; EvTask 0 1000; EvTask 0 1000; EvFeatures 0 true; EvStop 0 []]).
    apply run_default. vm_compute. reflexivity.
  - eexists. split; [vm_compute; reflexivity|reflexivity].
  - vm_compute. reflexivity.
  - apply (run_all_steps _ _ [EvSend 0 true; EvTask 1 1000; EvTask 1 1000; EvJoin 1; EvTask 2 1000; EvTask 2 1000]).
    apply run_default. vm_compute. reflexivity.
  - vm_compute in Hr. discriminate Hr.
  - exact Hc.
Defined.

Definition tab_solo : Browser (H := demo_keys) (H0 := bits_signing) := add_task (mk_Task 0 true (PrepareAcquire false)) tab_browser.
Lemma tab_solo_ok : solo tab_grant true false true [] 0 0 tab_solo.
Proof. split_and!; [exists true; reflexivity|reflexivity|reflexivity|split; reflexivity]. Qed.

Lemma request_prepared_witness :
  ∃ y' rp b expires, run_all tab_grant true (round 1000 0 (lit "t1") 4600 1000 ++ [EvTask 0 1000; EvTask 0 1000]) tab_solo = Some y' ∧
    y_tasks y' = [mk_Task 0 rp (Sending false b)] ∧ stale tab_grant expires 1000 = false ∧ (b, expires) = (lit "t1", 4600).
Proof.
  apply (request_prepared (H := demo_keys) tab_grant true false true [] 0 0 1000 (lit "t1") 1000 tab_solo tab_solo_ok); vm_compute; [split; [discriminate|reflexivity]|discriminate].
Defined.

Lemma tab_ended : ended tab_grant tab_solo.
Proof.
  split_and!.
  - intros s [= <-]. vm_compute. discriminate.
  - intros j f r Hj. by destruct j.
  - intros [|[]] t [= <-]. exact I.
Qed.

Lemma prepare_spins_witness :
  exp tab_grant ≤ 9100 ∧ ∃ y', length (y_flights y') = 1000%nat ∧ ∃ p tk e c, solo tab_grant true false p tk e c y'.
Proof.
  assert (exp tab_grant ≤ 9100) as He by (vm_compute; discriminate). split; [exact He|].
  destruct (prepare_spins (H := demo_keys) tab_grant true false true [] 0 0 9100 tab_solo tab_solo_ok tab_ended eq_refl He) as [Hn _].
  destruct (Hn 1000%nat) as (y' & _ & Hl & Hs). exists y'. split; [|exact Hs]. rewrite Hl. apply Nat.add_0_r.
Defined.
