(* ===== verification/BrowserStore.v ===== *)
(** The session store of a browser
    ([pubky-sdk/bindings/js/src/actors/session_store.rs] and
    [browser_session.rs]): saved sessions in IndexedDB, shared by the tabs of an
    origin, under Web Locks - the locks and the store that [SharedSession] takes
    for granted.

    The asynchronous operations are cut at their awaits.  A transaction of
    IndexedDB takes effect where it is created: the platform runs overlapping
    transactions in that order.  A lock is granted when no other holder stands
    against it, in any order; a released lease is inactive at once. *)

From stdpp Require Import gmap relations.
From S2P Require Import Prelude Keys.

(** * Records *)

Inductive StorageMode := Delegated | LocalSecret.
#[export] Instance StorageMode_eq_dec : EqDecision StorageMode.
Proof. solve_decision. Defined.

Definition STORE_VERSION : str := lit "pubky-session-v1".
Definition STORE_APPROVAL_VERSION : str := lit "pubky-session-v2".

Record SessionMetadata := mk_SessionMetadata {
  sm_version : str;
  sm_id : str;
  sm_storage_mode : StorageMode;
  sm_public_key : str;
  sm_homeserver : str;
  sm_grant_id : str;
  sm_client_id : str;
  sm_capabilities : list str;
  sm_grant_expires_at : Z;
  sm_created_at : Z
}.

Inductive StoreError :=
| UnsupportedVersion
| MissingApproval
| IdentityMismatch
| NotFound (id : str)
| ReplacesApproval
| LockReleased
| LockMismatch
| HomeserverChanged
| RemovedOrChanged
| InvalidCredential.

(** [SessionMetadata::validate], [requires_separate_approval], [validate_grant_identity]. *)
Definition SessionMetadata_validate (m : SessionMetadata) : result StoreError () :=
  if negb (bool_decide (sm_version m = STORE_VERSION)) && negb (bool_decide (sm_version m = STORE_APPROVAL_VERSION))
  then Err UnsupportedVersion else Ok ().

Definition requires_separate_approval (m : SessionMetadata) : bool :=
  bool_decide (sm_version m = STORE_APPROVAL_VERSION) && bool_decide (sm_storage_mode m = Delegated).

Definition validate_grant_identity (m : SessionMetadata) (requested_id public_key_z32 grant_id : str) : result StoreError () :=
  let grant_session_id := public_key_z32 ++ lit ":" ++ grant_id in
  if negb (bool_decide (requested_id = grant_session_id)) || negb (bool_decide (sm_id m = grant_session_id))
  then Err IdentityMismatch else Ok ().

Section BrowserStore.
(** The shared session of a record, and [JSON.parse(credential).keyId], which
    may throw. *)
Context {Shared : Type} (key_id_of : str → option str).

Record StoredSessionRecord := mk_StoredSessionRecord {
  sr_metadata : SessionMetadata;
  sr_credential : str;
  sr_signed_approval : option str;
  sr_shared_session : option Shared
}.

Definition record_id (r : StoredSessionRecord) : str := sm_id (sr_metadata r).
Definition record_homeserver (r : StoredSessionRecord) : str := sm_homeserver (sr_metadata r).
Definition record_version (r : StoredSessionRecord) : str := sm_version (sr_metadata r).

Definition with_shared (shared : option Shared) (r : StoredSessionRecord) : StoredSessionRecord :=
  mk_StoredSessionRecord (sr_metadata r) (sr_credential r) (sr_signed_approval r) shared.

Definition validate_record (r : StoredSessionRecord) : result StoreError StoredSessionRecord :=
  SessionMetadata_validate (sr_metadata r) ≫= λ _,
  if requires_separate_approval (sr_metadata r) && negb (bool_decide (is_Some (sr_signed_approval r))) then Err MissingApproval else Ok r.

(** [sessionMetadata] and [validate_stored_metadata]. *)
Definition validate_stored_metadata (r : StoredSessionRecord) : result StoreError SessionMetadata :=
  SessionMetadata_validate (sr_metadata r) ≫= λ _,
  if requires_separate_approval (sr_metadata r) && negb (bool_decide (is_Some (sr_signed_approval r))) then Err MissingApproval
  else Ok (sr_metadata r).

(** The record [save] makes of a grant session: its credential is delegated or
    a local secret, which holds the approval itself. *)
Definition saved_record (public_key grant_id homeserver client_id : str) (capabilities : list str) (grant_expires_at created_at : Z)
    (has_encryption_keys : bool) (mode : StorageMode) (credential : str) (signed_approval : option str) : StoredSessionRecord :=
  mk_StoredSessionRecord
    (mk_SessionMetadata (if has_encryption_keys then STORE_APPROVAL_VERSION else STORE_VERSION) (public_key ++ lit ":" ++ grant_id) mode
       public_key homeserver grant_id client_id capabilities grant_expires_at created_at)
    credential
    (match mode with Delegated => signed_approval | LocalSecret => None end) None.

(** * Leases *)

Inductive LeaseState := LeaseWaiting | LeaseActive | LeaseGone.
Record Lease := mk_Lease { ls_id : str; ls_homeserver : str; ls_exclusive : bool; ls_state : LeaseState }.

Definition is_active (l : Lease) : bool := match ls_state l with LeaseActive => true | _ => false end.
Definition set_lease_state (s : LeaseState) (l : Lease) : Lease := mk_Lease (ls_id l) (ls_homeserver l) (ls_exclusive l) s.

(** What is under way between two awaits: a record was read, and a write is next. *)
Inductive StoreOp :=
| PutNext (token : nat) (record : StoredSessionRecord) (previous : option StoredSessionRecord)
| SharedStoreNext (token : nat) (record : StoredSessionRecord) (shared : Shared)
| SharedRemoveNext (token : nat) (record : StoredSessionRecord).

Record Store := mk_Store {
  st_records : gmap str StoredSessionRecord;
  (** The key handles of delegated sessions. *)
  st_keys : gset str;
  st_leases : list Lease;
  st_ops : list StoreOp
}.

Definition set_records (f : gmap str StoredSessionRecord → gmap str StoredSessionRecord) (s : Store) : Store :=
  mk_Store (f (st_records s)) (st_keys s) (st_leases s) (st_ops s).
Definition set_keys (f : gset str → gset str) (s : Store) : Store := mk_Store (st_records s) (f (st_keys s)) (st_leases s) (st_ops s).
Definition set_leases (f : list Lease → list Lease) (s : Store) : Store := mk_Store (st_records s) (st_keys s) (f (st_leases s)) (st_ops s).
Definition set_ops (f : list StoreOp → list StoreOp) (s : Store) : Store := mk_Store (st_records s) (st_keys s) (st_leases s) (f (st_ops s)).

(** [__pubkySessionAcquire]: a new token, waiting for the lock. *)
Definition acquire (id homeserver : str) (exclusive : bool) (s : Store) : Store :=
  set_leases (λ ls, ls ++ [mk_Lease id homeserver exclusive LeaseWaiting]) s.

(** Two leases stand against each other: the lock is named by both home server and id. *)
Definition conflicting (a b : Lease) : bool :=
  bool_decide (ls_id a = ls_id b) && bool_decide (ls_homeserver a = ls_homeserver b) && (ls_exclusive a || ls_exclusive b).

Definition grant_lock (token : nat) (s : Store) : option Store :=
  l ← st_leases s !! token;
  match ls_state l with
  | LeaseWaiting =>
      if existsb (λ l', is_active l' && conflicting l l') (st_leases s) then None
      else Some (set_leases (alter (set_lease_state LeaseActive) token) s)
  | _ => None
  end.

(** [__pubkySessionRelease]. *)
Definition release (token : nat) (s : Store) : Store := set_leases (alter (set_lease_state LeaseGone) token) s.

Definition requireSessionLease (token : nat) (write : bool) (s : Store) : result StoreError Lease :=
  match st_leases s !! token with
  | Some l => if negb (is_active l) || (write && negb (ls_exclusive l)) then Err LockReleased else Ok l
  | None => Err LockReleased
  end.

(** * Operations *)

(** [__pubkySessionStorePut]: up to the transaction, and the transaction. *)
Definition put_begin (token : nat) (record : StoredSessionRecord) (s : Store) : result StoreError Store :=
  let previous := st_records s !! record_id record in
  match previous with
  | Some p =>
      if bool_decide (record_version p = STORE_APPROVAL_VERSION) && negb (bool_decide (record_version record = record_version p))
      then Err ReplacesApproval else Ok (set_ops (λ ops, ops ++ [PutNext token record previous]) s)
  | None => Ok (set_ops (λ ops, ops ++ [PutNext token record previous]) s)
  end.

(** A fresh record has no shared session of its own. *)
Definition put_commit (token : nat) (record : StoredSessionRecord) (previous : option StoredSessionRecord) (s : Store) : result StoreError Store :=
  held ← requireSessionLease token true s;
  if negb (bool_decide (ls_id held = record_id record)) || negb (bool_decide (ls_homeserver held = record_homeserver record)) then Err LockMismatch
  else
    let stored := match previous ≫= sr_shared_session with Some shared => with_shared (Some shared) record | None => record end in
    Ok (set_records (<[record_id record := stored]>) s).

(** [__pubkySharedSessionLoad], after its read. *)
Definition shared_load (token : nat) (s : Store) : result StoreError (option Shared) :=
  l ← requireSessionLease token false s;
  match st_records s !! ls_id l with
  | Some r => if negb (bool_decide (record_homeserver r = ls_homeserver l)) then Err HomeserverChanged else Ok (sr_shared_session r)
  | None => Ok None
  end.

Definition shared_store_begin (token : nat) (shared : Shared) (s : Store) : result StoreError Store :=
  l ← requireSessionLease token true s;
  match st_records s !! ls_id l with
  | Some r => if negb (bool_decide (record_homeserver r = ls_homeserver l)) then Err RemovedOrChanged
              else Ok (set_ops (λ ops, ops ++ [SharedStoreNext token r shared]) s)
  | None => Err RemovedOrChanged
  end.

Definition shared_store_commit (token : nat) (record : StoredSessionRecord) (shared : Shared) (s : Store) : result StoreError Store :=
  requireSessionLease token true s ≫= λ _,
  Ok (set_records (<[record_id record := with_shared (Some shared) record]>) s).

(** [__pubkySharedSessionRemove]: the home server of the record is not compared. *)
Definition shared_remove_begin (token : nat) (s : Store) : result StoreError Store :=
  l ← requireSessionLease token true s;
  match st_records s !! ls_id l with
  | Some r => Ok (set_ops (λ ops, ops ++ [SharedRemoveNext token r]) s)
  | None => Ok s
  end.

(** A credential that cannot be read throws when the deletion of the record is
    already under way, which goes through; the key stays. *)
Definition shared_remove_commit (token : nat) (record : StoredSessionRecord) (s : Store) : result StoreError (Store * option StoreError) :=
  l ← requireSessionLease token true s;
  let s' := set_records (delete (ls_id l)) s in
  match sm_storage_mode (sr_metadata record) with
  | Delegated => match key_id_of (sr_credential record) with
                 | Some key_id => Ok (set_keys (λ ks, ks ∖ {[key_id]}) s', None)
                 | None => Ok (s', Some InvalidCredential)
                 end
  | LocalSecret => Ok (s', None)
  end.

(** [clearSessionStore]: the keys of the delegated records, or all, in one
    transaction, which a credential that cannot be read aborts. *)
Definition delegated_credentials (s : Store) : list str :=
  omap (λ r, match sm_storage_mode (sr_metadata r) with Delegated => Some (sr_credential r) | LocalSecret => None end)
    (map snd (map_to_list (st_records s))).

Definition clearSessionStore (all_keys : bool) (s : Store) : result StoreError Store :=
  keys ← (if all_keys then Ok (st_keys s)
          else ids ← ok_or (mapM key_id_of (delegated_credentials s)) InvalidCredential; Ok (list_to_set ids));
  Ok (set_records (λ _, ∅) (set_keys (λ ks, ks ∖ keys) s)).

(** * Events *)

Inductive StoreEvent :=
| EvAcquire (id homeserver : str) (exclusive : bool)
| EvGrant (token : nat)
| EvRelease (token : nat)
| EvPut (token : nat) (record : StoredSessionRecord)
| EvSharedStore (token : nat) (shared : Shared)
| EvSharedRemove (token : nat)
(** An operation goes on, or its tab is closed. *)
| EvCommit (op : nat)
| EvDrop (op : nat)
| EvClear (all_keys : bool).

Definition drop_op (i : nat) (s : Store) : Store := set_ops (delete i) s.

Definition commit (op : StoreOp) (s : Store) : result StoreError Store :=
  match op with
  | PutNext token record previous => put_commit token record previous s
  | SharedStoreNext token record shared => shared_store_commit token record shared s
  | SharedRemoveNext token record => fst <$> shared_remove_commit token record s
  end.

Definition op_token (op : StoreOp) : nat :=
  match op with PutNext token _ _ | SharedStoreNext token _ _ | SharedRemoveNext token _ => token end.

(** A lease exists once its lock was granted, and the task that has it awaits
    one operation after the other. *)
Definition begins (token : nat) (s : Store) (k : Store → result StoreError Store) : option Store :=
  if existsb (λ op, (op_token op =? token)%nat) (st_ops s) then None
  else match requireSessionLease token true s with Ok _ => ok (k s) | Err _ => None end.

(** An operation that throws changes nothing.  Clearing takes the lock of the
    whole store, which every lease holds. *)
Definition store_run (e : StoreEvent) (s : Store) : option Store :=
  match e with
  | EvAcquire id homeserver exclusive => Some (acquire id homeserver exclusive s)
  | EvGrant token => grant_lock token s
  | EvRelease token => Some (release token s)
  | EvPut token record => begins token s (put_begin token record)
  | EvSharedStore token shared => begins token s (shared_store_begin token shared)
  | EvSharedRemove token => begins token s (shared_remove_begin token)
  | EvCommit i => op ← st_ops s !! i; ok (commit op (drop_op i s))
  | EvDrop i => Some (drop_op i s)
  | EvClear all_keys => if existsb is_active (st_leases s) then None else ok (clearSessionStore all_keys s)
  end.

(** Every session is used with the home server it belongs to. *)
Definition at_home (home : str → str) (e : StoreEvent) : Prop :=
  match e with EvAcquire id homeserver _ => homeserver = home id | _ => True end.
Definition store_step (home : str → str) (s s' : Store) : Prop := ∃ e, at_home home e ∧ store_run e s = Some s'.

Definition store_empty : Store := mk_Store ∅ ∅ [] [].

(** * Invariant *)

(** The record an operation goes by. *)
Definition op_read (op : StoreOp) : option StoredSessionRecord :=
  match op with PutNext _ _ previous => previous | SharedStoreNext _ r _ | SharedRemoveNext _ r => Some r end.

(** An operation whose lease is active goes by the record as it is. *)
Definition op_ok (s : Store) (op : StoreOp) : Prop :=
  ∃ l, st_leases s !! op_token op = Some l ∧ ls_state l ≠ LeaseWaiting ∧
    (is_active l = true → ls_exclusive l = true ∧
       match op with
       | PutNext _ r previous =>
           (ls_id l = record_id r → st_records s !! ls_id l = previous) ∧
           ∀ p, previous = Some p → record_version p = STORE_APPROVAL_VERSION → record_version r = STORE_APPROVAL_VERSION
       | SharedStoreNext _ r _ | SharedRemoveNext _ r => st_records s !! ls_id l = Some r
       end).

Record store_inv (home : str → str) (s : Store) : Prop := {
  si_home : ∀ i l, st_leases s !! i = Some l → ls_homeserver l = home (ls_id l);
  si_locks : ∀ i j a b, st_leases s !! i = Some a → st_leases s !! j = Some b → i ≠ j →
    is_active a = true → is_active b = true → conflicting a b = false;
  si_ids : ∀ id r, st_records s !! id = Some r → record_id r = id;
  si_tokens : NoDup (map op_token (st_ops s));
  si_ops : ∀ op, op ∈ st_ops s → op_ok s op;
}.

Lemma require_inv token write s l :
  requireSessionLease token write s = Ok l →
  st_leases s !! token = Some l ∧ is_active l = true ∧ (write = true → ls_exclusive l = true).
Proof.
  unfold requireSessionLease. destruct (st_leases s !! token) as [l'|]; [|done].
  destruct (is_active l') eqn:Ea, write, (ls_exclusive l') eqn:Ee; cbn; intros [= <-]; split_and!; done.
Qed.

(** One exclusive lease keeps every other off its record. *)
Lemma exclusive_alone home s i j a b :
  store_inv home s → st_leases s !! i = Some a → st_leases s !! j = Some b → is_active a = true → is_active b = true →
  ls_exclusive a = true → ls_id a = ls_id b → i = j.
Proof.
  intros Hi Ha Hb Aa Ab Hx Hid. destruct (decide (i = j)) as [|Hij]; [done|].
  pose proof (si_locks _ _ Hi i j a b Ha Hb Hij Aa Ab) as Hc. unfold conflicting in Hc.
  rewrite (si_home _ _ Hi i a Ha), (si_home _ _ Hi j b Hb), Hid, Hx, !bool_decide_eq_true_2 in Hc by done. done.
Qed.

Lemma NoDup_middle_notin {A} (x : A) l k : NoDup (l ++ x :: k) → x ∉ l ++ k.
Proof. rewrite <-Permutation_middle. by intros [? _]%NoDup_cons. Qed.

(** What a write does: under its lease, to the record of its lease alone. *)
Lemma commit_writes home s op s' s0 :
  st_records s0 = st_records s → st_leases s0 = st_leases s → store_inv home s → op ∈ st_ops s → commit op s0 = Ok s' →
  ∃ l v, st_leases s !! op_token op = Some l ∧ is_active l = true ∧ ls_exclusive l = true ∧
    st_records s !! ls_id l = op_read op ∧ st_leases s' = st_leases s0 ∧ st_ops s' = st_ops s0 ∧
    st_records s' = partial_alter (λ _, v) (ls_id l) (st_records s) ∧
    ∀ r, v = Some r → record_id r = ls_id l ∧
      ∀ p, op_read op = Some p → record_version p = STORE_APPROVAL_VERSION → record_version r = STORE_APPROVAL_VERSION.
Proof.
  intros Er El Hi Hop Hc. destruct (si_ops _ _ Hi op Hop) as (l & Hl & _ & Hok). destruct op as [token r prev|token r shared|token r]; cbn in Hc, Hl, Hok.
  - unfold put_commit in Hc. destruct (requireSessionLease token true s0) as [l'|] eqn:E; [|done]. apply require_inv in E as (Hl' & Ha & _).
    rewrite El, Hl in Hl'. injection Hl' as <-. destruct (Hok Ha) as (Hx & Hread & Hver). cbn [mbind result_bind] in Hc.
    destruct (decide (ls_id l = record_id r)) as [Hid|]; [|by rewrite bool_decide_eq_false_2 in Hc].
    rewrite bool_decide_eq_true_2 in Hc by done. cbn [negb orb] in Hc. destruct (negb _); [done|]. injection Hc as <-.
    eexists l, (Some _). cbn [op_token op_read st_records st_leases st_ops set_records]. rewrite Er, <-Hid. split_and!; try done; [by apply Hread|].
    intros r' [= <-]. assert (∀ x, record_id (with_shared x r) = record_id r ∧ record_version (with_shared x r) = record_version r) as Hws by done.
    destruct (prev ≫= sr_shared_session); (split; [by rewrite Hid|exact Hver]).
  - unfold shared_store_commit in Hc. destruct (requireSessionLease token true s0) as [l'|] eqn:E; [|done]. apply require_inv in E as (Hl' & Ha & _).
    rewrite El, Hl in Hl'. injection Hl' as <-. destruct (Hok Ha) as (Hx & Hread). injection Hc as <-. pose proof (si_ids _ _ Hi _ _ Hread) as Hid.
    eexists l, (Some _). cbn [op_token op_read st_records st_leases st_ops set_records]. rewrite Er, Hid. split_and!; try done.
    intros r' [= <-]. split; [done|]. by intros p [= <-].
  - unfold shared_remove_commit in Hc. destruct (requireSessionLease token true s0) as [l'|] eqn:E; [|done]. apply require_inv in E as (Hl' & Ha & _).
    rewrite El, Hl in Hl'. injection Hl' as <-. destruct (Hok Ha) as (Hx & Hread). exists l, None. cbn [mbind result_bind] in Hc.
    assert (st_records s' = delete (ls_id l) (st_records s0) ∧ st_leases s' = st_leases s0 ∧ st_ops s' = st_ops s0) as (-> & -> & ->).
    { destruct (sm_storage_mode _); [destruct (key_id_of _)|]; cbn in Hc; by injection Hc as <-. }
    rewrite Er. split_and!; done.
Qed.

(** An operation is left alone by what does not touch its lease or its record. *)
Lemma op_ok_same s s' op :
  st_leases s' = st_leases s → st_records s' = st_records s → op_ok s op → op_ok s' op.
Proof. unfold op_ok. by intros -> ->. Qed.

Lemma inv_leases home s f :
  store_inv home s →
  (∀ i l, f (st_leases s) !! i = Some l → ls_homeserver l = home (ls_id l)) →
  (∀ i j a b, f (st_leases s) !! i = Some a → f (st_leases s) !! j = Some b → i ≠ j → is_active a = true → is_active b = true → conflicting a b = false) →
  (∀ op l, op ∈ st_ops s → st_leases s !! op_token op = Some l →
     ls_state l ≠ LeaseWaiting → ∃ l', f (st_leases s) !! op_token op = Some l' ∧ ls_state l' ≠ LeaseWaiting ∧ (is_active l' = true → l' = l)) →
  store_inv home (set_leases f s).
Proof.
  intros [Hh Hl Hid Ht Ho] Hh' Hl' Hkeep. split; try done. intros op Hop. destruct (Ho op Hop) as (l & El & Hw & Hok).
  destruct (Hkeep op l Hop El Hw) as (l' & El' & Hw' & Hact). exists l'. split_and!; [done..|]. intros Ha. rewrite (Hact Ha) in Ha |- *. by apply Hok.
Qed.

Lemma inv_begin home s op :
  store_inv home s → existsb (λ op', (op_token op' =? op_token op)%nat) (st_ops s) = false → op_ok s op →
  store_inv home (set_ops (λ ops, ops ++ [op]) s).
Proof.
  intros [Hh Hl Hid Ht Ho] Hnew Hok. split; try done; cbn [st_ops set_ops].
  - rewrite map_app. apply NoDup_app. split_and!; [done| |by apply NoDup_singleton]. intros t Hin ->%list_elem_of_singleton.
    apply list_elem_of_In, in_map_iff in Hin as (op' & Eop & Hin). apply not_true_iff_false in Hnew. apply Hnew, existsb_exists.
    exists op'. split; [done|]. by apply Nat.eqb_eq.
  - intros op' [Hop|Hop]%elem_of_app; [by apply Ho|]. by apply list_elem_of_singleton in Hop as ->.
Qed.

Lemma inv_drop home s i : store_inv home s → store_inv home (drop_op i s).
Proof.
  intros [Hh Hl Hid Ht Ho]. split; try done; cbn [st_ops drop_op set_ops].
  - eapply sublist_NoDup; [exact Ht|]. apply fmap_sublist, sublist_delete.
  - intros op Hop. eapply (op_ok_same s); [done..|]. apply Ho. eapply elem_of_submseteq; [exact Hop|]. apply sublist_submseteq, sublist_delete.
Qed.

Lemma begins_inv token s k s' :
  begins token s k = Some s' →
  existsb (λ op, (op_token op =? token)%nat) (st_ops s) = false ∧ k s = Ok s' ∧
  ∃ l, st_leases s !! token = Some l ∧ is_active l = true ∧ ls_exclusive l = true.
Proof.
  unfold begins. destruct (existsb _ _); [done|]. destruct (requireSessionLease token true s) as [l|] eqn:E; [|done].
  apply require_inv in E as (? & ? & ?). destruct (k s) as [s1|]; [|done]. intros [= <-]. split_and!; eauto.
Qed.

Lemma grant_inv home token s s' : store_inv home s → grant_lock token s = Some s' → store_inv home s'.
Proof.
  intros Hi. unfold grant_lock. destruct (st_leases s !! token) as [l|] eqn:El; [|done]. cbn [mbind option_bind].
  destruct (ls_state l) eqn:Es; [|done..]. destruct (existsb _ _) eqn:Ex; [done|]. intros [= <-].
  assert (∀ j b, st_leases s !! j = Some b → is_active b = true → conflicting l b = false) as Hfree.
  { intros j b Hb Ab. apply not_true_iff_false. intros Hc. apply not_true_iff_false in Ex. apply Ex, existsb_exists.
    exists b. split; [apply list_elem_of_In; by eapply list_elem_of_lookup_2|]. by rewrite Ab, Hc. }
  apply inv_leases; [done|..].
  - intros i a. destruct (decide (token = i)) as [<-|Hne]; [|rewrite list_lookup_alter_ne by done; by eapply si_home].
    rewrite list_lookup_alter_eq, El. intros [= <-]. exact (si_home _ _ Hi token l El).
  - intros i j a b Ea Eb Hij Aa Ab.
    destruct (decide (token = i)) as [<-|Hi']; [|destruct (decide (token = j)) as [<-|Hj']].
    + rewrite list_lookup_alter_eq, El in Ea. injection Ea as <-. rewrite list_lookup_alter_ne in Eb by done. by apply (Hfree j).
    + rewrite list_lookup_alter_eq, El in Eb. injection Eb as <-. rewrite list_lookup_alter_ne in Ea by done.
      pose proof (Hfree i a Ea Aa) as Hc. unfold conflicting in *. cbn [set_lease_state ls_id ls_homeserver ls_exclusive].
      rewrite (bool_decide_ext (ls_id a = ls_id l) (ls_id l = ls_id a)), (bool_decide_ext (ls_homeserver a = ls_homeserver l) (ls_homeserver l = ls_homeserver a)), orb_comm by done.
      exact Hc.
    + rewrite list_lookup_alter_ne in Ea, Eb by done. by apply (si_locks _ _ Hi i j).
  - intros op l' Hop El' Hw. destruct (decide (token = op_token op)) as [->|Hne]; [congruence|].
    exists l'. by rewrite list_lookup_alter_ne.
Qed.

Lemma release_inv home token s : store_inv home s → store_inv home (release token s).
Proof.
  intros Hi. apply inv_leases; [done|..].
  - intros i a. destruct (decide (token = i)) as [<-|Hne]; [|rewrite list_lookup_alter_ne by done; by eapply si_home].
    rewrite list_lookup_alter_eq. intros (l & El & ->)%fmap_Some. exact (si_home _ _ Hi token l El).
  - assert (∀ i a, alter (set_lease_state LeaseGone) token (st_leases s) !! i = Some a → is_active a = true → st_leases s !! i = Some a) as Hold.
    { intros i a. destruct (decide (token = i)) as [<-|Hne]; [|by rewrite list_lookup_alter_ne].
      rewrite list_lookup_alter_eq. by intros (l & _ & ->)%fmap_Some. }
    intros i j a b Ea Eb Hij Aa Ab. by apply (si_locks _ _ Hi i j); [apply Hold|apply Hold|..].
  - intros op l Hop El Hw. destruct (decide (token = op_token op)) as [->|Hne].
    + exists (set_lease_state LeaseGone l). by rewrite list_lookup_alter_eq, El.
    + exists l. by rewrite list_lookup_alter_ne.
Qed.

Lemma commit_step_inv home i op s s' :
  store_inv home s → st_ops s !! i = Some op → commit op (drop_op i s) = Ok s' → store_inv home s'.
Proof.
  intros Hi Eop Hc. pose proof (list_elem_of_lookup_2 _ _ _ Eop) as Hop.
  destruct (commit_writes home s op s' (drop_op i s) eq_refl eq_refl Hi Hop Hc) as (l & v & Hl & Ha & Hx & _ & El & Eo & Er & Hv).
  pose proof (inv_drop home s i Hi) as [Hh' Hl' _ Ht' Ho']. split; rewrite ?El, ?Eo; [exact Hh'|exact Hl'| |exact Ht'|].
  - intros id r. rewrite Er. destruct (decide (id = ls_id l)) as [->|Hne].
    + rewrite lookup_partial_alter_eq. intros Hr. by apply (Hv r).
    + rewrite lookup_partial_alter_ne by done. by apply (si_ids _ _ Hi).
  - intros op2 Hop2. destruct (Ho' op2 Hop2) as (l2 & Hl2 & Hw2 & Hok2). exists l2. rewrite El. split_and!; [done..|]. intros Ha2.
    destruct (Hok2 Ha2) as [Hx2 Hread]. split; [done|]. cbn [st_records drop_op set_ops] in Hread.
    assert (ls_id l2 ≠ ls_id l) as Hne.
    { intros Hid. assert (op_token op2 = op_token op) as Htok by by eapply (exclusive_alone home s).
      pose proof (si_tokens _ _ Hi) as Hnd. rewrite <-(take_drop_middle _ _ _ Eop), map_app in Hnd. cbn [map] in Hnd.
      apply NoDup_middle_notin in Hnd. apply Hnd. rewrite <-Htok, <-map_app. cbn [st_ops drop_op set_ops] in Hop2.
      rewrite delete_take_drop in Hop2. apply list_elem_of_In, in_map, list_elem_of_In, Hop2. }
    rewrite Er, lookup_partial_alter_ne by done. exact Hread.
Qed.

Lemma acquire_inv home id x s : store_inv home s → store_inv home (acquire id (home id) x s).
Proof.
  intros Hi. assert (∀ i a, (st_leases s ++ [mk_Lease id (home id) x LeaseWaiting]) !! i = Some a →
    st_leases s !! i = Some a ∨ a = mk_Lease id (home id) x LeaseWaiting) as Hold.
  { intros i a [?|[_ [_ <-]%list_lookup_singleton_Some]]%lookup_app_Some; auto. }
  apply inv_leases; [done|..].
  - intros i l [?| ->]%Hold; [by eapply si_home|done].
  - intros i j a b [Ea| ->]%Hold [Eb| ->]%Hold Hij Aa Ab; try done. by apply (si_locks _ _ Hi i j).
  - intros op l Hop El Hw. exists l. split_and!; [|done..]. by apply lookup_app_l_Some.
Qed.

Lemma begin_ok op s token l :
  op_token op = token → st_leases s !! token = Some l → is_active l = true → ls_exclusive l = true →
  match op with
  | PutNext _ r previous =>
      previous = st_records s !! record_id r ∧
      ∀ p, previous = Some p → record_version p = STORE_APPROVAL_VERSION → record_version r = STORE_APPROVAL_VERSION
  | SharedStoreNext _ r _ | SharedRemoveNext _ r => st_records s !! ls_id l = Some r
  end → op_ok s op.
Proof.
  intros <- Hl Ha Hx Hop. exists l. split_and!; [done| |].
  - unfold is_active in Ha. by destruct (ls_state l).
  - intros _. split; [done|]. destruct op; [|done..]. destruct Hop as [-> Hv]. split; [by intros ->|done].
Qed.

Lemma store_step_inv home e s s' :
  at_home home e → store_run e s = Some s' → store_inv home s → store_inv home s'.
Proof.
  intros Hhome Hr Hi. destruct e as [id hs x|token|token|token r|token shared|token|i|i|all]; cbn [store_run at_home] in Hr, Hhome.
  - injection Hr as <-. rewrite Hhome. by apply acquire_inv.
  - by eapply grant_inv.
  - injection Hr as <-. by apply release_inv.
  - apply begins_inv in Hr as (Hnew & Hk & l & Hl & Ha & Hx). unfold put_begin in Hk.
    destruct (st_records s !! record_id r) as [p|] eqn:Ep.
    + destruct (decide (record_version p = STORE_APPROVAL_VERSION ∧ record_version r ≠ record_version p)) as [[H1 H2]|Hn].
      { by rewrite bool_decide_eq_true_2, bool_decide_eq_false_2 in Hk by done. }
      assert (s' = set_ops (λ ops, ops ++ [PutNext token r (Some p)]) s) as ->.
      { destruct (_ && _); [done|]. by injection Hk as <-. }
      apply inv_begin; [done..|]. eapply begin_ok; [done..|]. rewrite Ep. split; [done|]. intros ? [= <-] Hp.
      destruct (decide (record_version r = record_version p)); [congruence|]. by destruct Hn.
    + injection Hk as <-. apply inv_begin; [done..|]. eapply begin_ok; [done..|]. by rewrite Ep.
  - apply begins_inv in Hr as (Hnew & Hk & l & Hl & Ha & Hx). unfold shared_store_begin in Hk.
    destruct (requireSessionLease token true s) as [l'|] eqn:E; [|done]. apply require_inv in E as (Hl' & _). rewrite Hl in Hl'. injection Hl' as <-.
    cbn in Hk. destruct (st_records s !! ls_id l) as [r|] eqn:Er; [|done]. destruct (negb _); [done|]. injection Hk as <-.
    apply inv_begin; [done..|]. by eapply begin_ok.
  - apply begins_inv in Hr as (Hnew & Hk & l & Hl & Ha & Hx). unfold shared_remove_begin in Hk.
    destruct (requireSessionLease token true s) as [l'|] eqn:E; [|done]. apply require_inv in E as (Hl' & _). rewrite Hl in Hl'. injection Hl' as <-.
    cbn in Hk. destruct (st_records s !! ls_id l) as [r|] eqn:Er; injection Hk as <-; [|done].
    apply inv_begin; [done..|]. by eapply begin_ok.
  - destruct (st_ops s !! i) as [op|] eqn:Eop; [|done]. cbn in Hr. destruct (commit op (drop_op i s)) as [s1|] eqn:Ec; [|done].
    injection Hr as <-. by eapply commit_step_inv.
  - injection Hr as <-. by apply inv_drop.
  - destruct (existsb is_active (st_leases s)) eqn:Ex; [done|]. unfold clearSessionStore in Hr.
    assert (∃ ks, s' = set_records (λ _, ∅) (set_keys ks s)) as [ks ->].
    { destruct all; [|destruct (mapM key_id_of _)]; cbn in Hr; try done; injection Hr as <-; eauto. }
    destruct Hi as [Hh Hl Hid Ht Ho]. split; try done; cbn [st_records st_ops set_records set_keys].
    intros op Hop. destruct (Ho op Hop) as (l & El & Hw & _). exists l. split_and!; [done..|]. intros Ha. apply not_true_iff_false in Ex.
      destruct Ex. apply existsb_exists. exists l. split; [apply list_elem_of_In; by eapply list_elem_of_lookup_2|done].
Qed.

Lemma store_reachable_inv home s : rtc (store_step home) store_empty s → store_inv home s.
Proof.
  intros Hr. assert (store_inv home store_empty) as H0.
  { split; [done|done| |apply NoDup_nil_2|by intros op ?%not_elem_of_nil].
    done. }
  revert Hr H0. induction 1 as [|x y z (e & He & Hs) _ IH]; [done|]. intros H0. eapply IH, store_step_inv; eauto.
Qed.

(** How records change. *)
Lemma step_records home e s s' :
  store_inv home s → store_run e s = Some s' →
  (st_records s' = st_records s ∧ ∀ i, e ≠ EvCommit i) ∨
  (existsb is_active (st_leases s) = false ∧ st_records s' = ∅ ∧ ∀ i, e ≠ EvCommit i) ∨
  ∃ i op l v, e = EvCommit i ∧ st_ops s !! i = Some op ∧ st_leases s !! op_token op = Some l ∧ is_active l = true ∧ ls_exclusive l = true ∧
    st_records s !! ls_id l = op_read op ∧ st_records s' = partial_alter (λ _, v) (ls_id l) (st_records s) ∧
    ∀ r p, v = Some r → op_read op = Some p → record_version p = STORE_APPROVAL_VERSION → record_version r = STORE_APPROVAL_VERSION.
Proof.
  intros Hi Hr. destruct e as [id hs x|token|token|token r|token shared|token|i|i|all]; cbn [store_run] in Hr.
  - injection Hr as <-. by left.
  - left. split; [|done]. unfold grant_lock in Hr. destruct (st_leases s !! token) as [l|]; [|done]. cbn in Hr.
    destruct (ls_state l); [|done..]. destruct (existsb _ _); [done|]. by injection Hr as <-.
  - injection Hr as <-. by left.
  - left. split; [|done]. apply begins_inv in Hr as (_ & Hk & _). unfold put_begin in Hk.
    destruct (st_records s !! _) as [p|]; [destruct (_ && _); [done|]|]; by injection Hk as <-.
  - left. split; [|done]. apply begins_inv in Hr as (_ & Hk & _). unfold shared_store_begin in Hk.
    destruct (requireSessionLease _ _ _) as [l|]; [|done]. cbn in Hk. destruct (st_records s !! _); [|done]. destruct (negb _); [done|]. by injection Hk as <-.
  - left. split; [|done]. apply begins_inv in Hr as (_ & Hk & _). unfold shared_remove_begin in Hk.
    destruct (requireSessionLease _ _ _) as [l|]; [|done]. cbn in Hk. destruct (st_records s !! _); by injection Hk as <-.
  - right; right. destruct (st_ops s !! i) as [op|] eqn:Eop; [|done]. cbn in Hr. destruct (commit op (drop_op i s)) as [s1|] eqn:Ec; [|done].
    injection Hr as <-.
    destruct (commit_writes home s op s1 (drop_op i s) eq_refl eq_refl Hi (list_elem_of_lookup_2 _ _ _ Eop) Ec) as (l & v & ? & ? & ? & ? & _ & _ & ? & Hv).
    exists i, op, l, v. split_and!; try done. intros r p Er. by apply (Hv r Er).
  - injection Hr as <-. by left.
  - right; left. destruct (existsb _ _) eqn:Ex; [done|]. split_and!; [done| |done]. unfold clearSessionStore in Hr.
    destruct all; [|destruct (mapM key_id_of _)]; cbn in Hr; try done; by injection Hr as <-.
Qed.

(** The store is safe under its locks, however the tabs of a browser interleave,
    close and time out, as long as every session is used with its own home
    server.  A record is changed only by clearing the whole store, which waits
    for every lease, or by a write under an active exclusive lease of that
    record, which finds the record as it read it; so nobody who holds a lease
    sees the record change under it, and no change is lost.  And a record with
    an approval is not replaced by one without. *)
Theorem store_serialized home e s s' :
  rtc (store_step home) store_empty s → at_home home e → store_run e s = Some s' →
  (∀ token l, st_leases s !! token = Some l → is_active l = true →
     st_records s' !! ls_id l = st_records s !! ls_id l ∨
     ls_exclusive l = true ∧ ∃ i op, e = EvCommit i ∧ st_ops s !! i = Some op ∧ op_token op = token) ∧
  (∀ i op, e = EvCommit i → st_ops s !! i = Some op →
     ∃ l, st_leases s !! op_token op = Some l ∧ is_active l = true ∧ ls_exclusive l = true ∧
       st_records s !! ls_id l = op_read op ∧ ∀ id, id ≠ ls_id l → st_records s' !! id = st_records s !! id) ∧
  (∀ id r r', st_records s !! id = Some r → record_version r = STORE_APPROVAL_VERSION → st_records s' !! id = Some r' →
     record_version r' = STORE_APPROVAL_VERSION).
Proof.
  intros Hr Hhome Hs. apply store_reachable_inv in Hr as Hi.
  destruct (step_records home e s s' Hi Hs) as [[Er Hne]|[(Ex & Er & Hne)|(i & op & l & v & -> & Eop & El & Ha & Hx & Hread & Er & Hv)]].
  - rewrite Er. split_and!; [by left|intros i op He; by destruct (Hne i)|congruence].
  - split_and!; [|intros i op He; by destruct (Hne i)|intros id r r' _ _; by rewrite Er, lookup_empty]. intros token l Hl Ha.
    apply not_true_iff_false in Ex. destruct Ex. apply existsb_exists. exists l. split; [apply list_elem_of_In; by eapply list_elem_of_lookup_2|done].
  - split_and!.
    + intros token l' El' Ha'. destruct (decide (ls_id l' = ls_id l)) as [Hid|Hid]; [|left; by rewrite Er, lookup_partial_alter_ne].
      assert (op_token op = token) as <- by by eapply (exclusive_alone home s). right. rewrite El in El'. injection El' as <-. eauto 6.
    + intros i' op' [= <-] Eop'. rewrite Eop in Eop'. injection Eop' as <-. exists l. split_and!; try done. intros id Hid.
      by rewrite Er, lookup_partial_alter_ne.
    + intros id r r' Hr0 Hver. rewrite Er. destruct (decide (id = ls_id l)) as [->|Hid].
      * rewrite lookup_partial_alter_eq. intros Ev. eapply (Hv r' r); [done| |done]. by rewrite <-Hread.
      * rewrite lookup_partial_alter_ne by done. congruence.
Qed.

(** What [save] writes can be loaded, and is the session it was saved as: a
    grant with encryption keys has an approval. *)
Lemma saved_record_valid public_key grant_id homeserver client_id capabilities expires created has_keys mode credential approval :
  (has_keys = true → is_Some approval) →
  let r := saved_record public_key grant_id homeserver client_id capabilities expires created has_keys mode credential approval in
  validate_record r = Ok r ∧ validate_stored_metadata r = Ok (sr_metadata r) ∧
  validate_grant_identity (sr_metadata r) (record_id r) public_key grant_id = Ok ().
Proof.
  intros Happ. cbv zeta. assert (∀ k, SessionMetadata_validate (sr_metadata (saved_record public_key grant_id homeserver client_id capabilities expires created k mode credential approval)) = Ok ()) as Hv
    by (by intros []).
  unfold validate_record, validate_stored_metadata. rewrite Hv. cbn [mbind result_bind].
  assert (requires_separate_approval (sr_metadata (saved_record public_key grant_id homeserver client_id capabilities expires created has_keys mode credential approval))
    && negb (bool_decide (is_Some (match mode with Delegated => approval | LocalSecret => None end))) = false) as Hno.
  { destruct has_keys; [|done]. destruct mode; [|done]. rewrite bool_decide_eq_true_2 by auto. apply andb_false_r. }
  cbn [sr_signed_approval saved_record]. rewrite Hno. split_and!; [done..|].
  unfold validate_grant_identity. by rewrite !bool_decide_eq_true_2.
Qed.

(** A new session that is saved is in the store, without a shared part yet. *)
Lemma put_then_load token record s s' l :
  put_commit token record None s = Ok s' → sr_shared_session record = None → st_leases s !! token = Some l →
  st_records s' !! record_id record = Some record ∧ shared_load token s' = Ok None.
Proof.
  unfold put_commit. intros Hp Hnone Hl. destruct (requireSessionLease token true s) as [l'|] eqn:E; [|done].
  pose proof E as (Hl' & Ha & Hx)%require_inv. rewrite Hl in Hl'. injection Hl' as <-. cbn [mbind result_bind] in Hp.
  destruct (decide (ls_id l = record_id record)) as [Hid|]; [|by rewrite bool_decide_eq_false_2 in Hp].
  destruct (decide (ls_homeserver l = record_homeserver record)) as [Hhs|];
    [|by rewrite (bool_decide_eq_false_2 (ls_homeserver l = _)), orb_true_r in Hp].
  rewrite !bool_decide_eq_true_2 in Hp by done. cbn in Hp. injection Hp as <-. cbn [st_records set_records]. split; [by rewrite lookup_insert_eq|].
  unfold shared_load, requireSessionLease. cbn [st_leases set_records]. rewrite Hl, Ha. cbn [negb orb andb mbind result_bind st_records set_records].
  rewrite Hid, lookup_insert_eq, bool_decide_eq_true_2 by done. by rewrite Hnone.
Qed.

End BrowserStore.

(** * Two runs *)

Definition demo_saved (homeserver : str) : StoredSessionRecord (Shared := Z) :=
  saved_record (lit "key") (lit "grant") homeserver (lit "app") [] 1000 0 false LocalSecret (lit "secret") None.

Definition run_events (es : list StoreEvent) : option (Store (Shared := Z)) :=
  foldl (λ s e, s ≫= store_run (λ _, None) e) (Some store_empty) es.

(** A session is saved and its shared part written, in turn, by two tabs. *)
Example two_tabs :
  match run_events [EvAcquire (lit "key:grant") (lit "hs") true; EvAcquire (lit "key:grant") (lit "hs") true; EvGrant 0; EvPut 0 (demo_saved (lit "hs"));
                    EvCommit 0; EvSharedStore 0 7; EvCommit 0; EvRelease 0; EvGrant 1; EvPut 1 (demo_saved (lit "hs")); EvCommit 0] with
  | Some s => shared_load 1 s = Ok (Some 7)
  | None => False
  end.
Proof. vm_compute. reflexivity. Qed.

(** The lock is named by home server and id, the record by its id alone, and a
    removal does not compare the home server: with the same grant at two home
    servers, a tab of one removes, under its lock, the session of the other,
    whose tab holds an exclusive lease of its own. *)
Example remove_of_another :
  match run_events [EvAcquire (lit "key:grant") (lit "old") true; EvGrant 0; EvPut 0 (demo_saved (lit "old")); EvCommit 0;
                    EvAcquire (lit "key:grant") (lit "new") true; EvGrant 1; EvPut 1 (demo_saved (lit "new")); EvCommit 0; EvSharedStore 1 7; EvCommit 0;
                    EvSharedRemove 0; EvCommit 0] with
  | Some s => requireSessionLease 1 true s = Ok (mk_Lease (lit "key:grant") (lit "new") true LeaseActive) ∧ st_records s = ∅
  | None => False
  end.
Proof. vm_compute. split; reflexivity. Qed.
