(* ===== verification/Reachability.v ===== *)
(** The homeserver's storage as a transition system: writes and deletes of
    clients and administrators, locks, signups, disabling and quota patches in
    any order, each under any schedule of database faults and store answers,
    and the invariants that hold in every state it reaches. *)

From stdpp Require Import relations gmap.
From S2P Require Import Prelude StoragePath HttpError Keys Quota Database Users Signup Entries EntryLocks Events.
From S2P Require Import Finalization Accounting Refinement.

(** * Files and folders *)

(** No stored file of a user is a folder of another stored path. *)
Definition separated (es : list EntryRow) : Prop :=
  ∀ e e' segs segs' dir',
    e ∈ es → e' ∈ es → e_user e = e_user e' →
    is_path (mk_StoragePath (e_path e)) segs false → is_path (mk_StoragePath (e_path e')) segs' dir' →
    segs `prefix_of` segs' → segs = segs'.

Lemma is_path_functional p segs dir segs' dir' :
  is_path p segs dir → is_path p segs' dir' → segs = segs' ∧ dir = dir'.
Proof. intros (E & ? & ?) (E' & ? & ?). rewrite E in E'. by apply render_inj in E'. Qed.

Lemma separated_subset es es' : separated es → (∀ e, e ∈ es' → e ∈ es) → separated es'.
Proof. intros Hs Hsub e e' segs segs' dir' He He'. apply Hs; auto. Qed.

Section Files.
Context `{PkarrKeysLaws, JsonStrings, Backend}.

(** An admitted write keeps files and folders apart. *)
Lemma separated_put fin path m w u existing now id :
  storage_wf (tables w) (seqs w) → collision_policy fin = Enforce →
  write_admitted fin path m w u existing → separated (entries (tables w)) →
  separated (put_rows (u_id u) (as_str (ep_path path)) m existing now id (entries (tables w))).
Proof.
  intros (_ & (Hids & Hkeys & _) & _) Henf (Hrow & Hat & _ & Hno & _) Hsep. specialize (Hno Henf).
  pose proof (put_row_key _ _ _ m _ now id Hat) as Hk.
  set (row := put_row (u_id u) (as_str (ep_path path)) m existing now id) in *.
  assert (mk_StoragePath (e_path row) = ep_path path ∧ e_user row = u_id u) as [Hpr Hur].
  { injection Hk as -> ->. by destruct (ep_path path). }
  assert (∀ x, x ∈ entries (tables w) → e_user x = u_id u →
    ¬ collides (ep_path path) (mk_StoragePath (e_path x))) as Hfree.
  { intros x Hx Hxu Hc. apply Hno. by exists u, x. }
  intros e e' segs segs' dir' He He' Huser Hp Hp' Hpre.
  apply elem_of_put_rows in He; [|done..]. apply elem_of_put_rows in He'; [|done..]. fold row in He, He'.
  destruct (decide (segs = segs')) as [|Hne]; [done|exfalso].
  destruct He as [->|[He _]], He' as [->|[He' _]].
  - apply Hne. by apply (is_path_functional _ _ _ _ _ Hp Hp').
  - rewrite Hpr in Hp. apply (Hfree e'); [done|congruence|]. exists segs, false, segs', dir'.
    split_and!; [done..|]. by left.
  - rewrite Hpr in Hp'. apply (Hfree e); [done|congruence|]. exists segs', dir', segs, false.
    split_and!; [done..|]. right. split; [done|]. by left.
  - apply Hne. by eapply (Hsep e e').
Qed.

End Files.

(** * Operations that do not touch the files *)

Section Others.
Context `{PkarrKeysLaws, JsonStrings}.

Definition keeps_files (w w' : World) : Prop :=
  users (tables w') = users (tables w) ∧ entries (tables w') = entries (tables w) ∧
  events (tables w') = events (tables w) ∧ seqs_le (seqs w) (seqs w').

Lemma keeps_files_wf w w' :
  keeps_files w w' → storage_wf (tables w) (seqs w) → storage_wf (tables w') (seqs w').
Proof.
  intros (Hu & He & Hv & Hle) Hwf. eapply storage_wf_mono; [|exact Hle]. revert Hwf.
  unfold storage_wf, users_wf, entries_wf, events_wf, accounted, seqs_wf. by rewrite Hu, He, Hv.
Qed.

Lemma set_expiry_keeps path tokens f w : keeps_files w (set_expiry_of_live_lock path tokens f w).2.
Proof.
  destruct (set_expiry_of_live_lock path tokens f w) as [r w'] eqn:E. cbn.
  assert (seqs_le (seqs w) (seqs w')) as Hle.
  { revert E. apply mono_in_transaction. apply mono_bind; [apply mono_select|]. intros _.
    apply mono_exec. intros n t tb sq r0 tb' sq' E. injection E as _ _ <-. reflexivity. }
  apply in_transaction_inv in E as [[_ Ht]|(w0 & w1 & r1 & Ht0 & _ & _ & Hb & Hc)].
  { by unfold keeps_files; rewrite Ht. }
  assert (users (tables w1) = users (tables w) ∧ entries (tables w1) = entries (tables w) ∧
          events (tables w1) = events (tables w)) as (Hu & He & Hv).
  { cbv [mbind db_bind] in Hb. destruct (select _ w0) as [r2 w2] eqn:E2.
    apply select_inv in E2 as [(Ht2 & _) _]. rewrite Ht0 in Ht2.
    destruct r2; [|injection Hb as <- <-; by rewrite Ht2].
    apply exec_inv in Hb as (_ & _ & [(_ & -> & _)|(r0 & Hx & _)]); [by rewrite Ht2|].
    injection Hx as _ <- _. cbn. by rewrite Ht2. }
  unfold keeps_files. destruct r1 as [a|e].
  - destruct Hc as [[_ ->]|[_ [->| ->]]]; done.
  - by destruct Hc as [_ ->].
Qed.

Lemma exec_keeps {A} (f : Stmt A) w :
  (∀ n t tb sq r tb' sq', f n t tb sq = (r, tb', sq') →
     users tb' = users tb ∧ entries tb' = entries tb ∧ events tb' = events tb ∧ sq' = sq) →
  keeps_files w (exec f w).2.
Proof.
  intros Hf. destruct (exec f w) as [r w'] eqn:E. cbn.
  apply exec_inv in E as (_ & _ & [(_ & Ht & Hs)|(r0 & Hx & _)]); unfold keeps_files.
  - by rewrite Ht, Hs.
  - apply Hf in Hx as (-> & -> & -> & ->). done.
Qed.

(** Locks live beside the files. *)
Lemma run_op_keeps op w : keeps_files w (run_op op w).
Proof.
  destruct op; cbn [run_op]; try apply set_expiry_keeps; apply exec_keeps; intros n t tb sq r tb' sq' E;
    try (injection E as _ <- <-; done).
  destruct (list_find _ _) as [[? l]|]; [destruct (l_expires_at l <=? n)|]; injection E as _ <- <-; done.
Qed.

(** Changing users one by one, but not their ids, keys or bytes. *)
Lemma storage_wf_users tb sq f :
  (∀ u, u ∈ users tb → u_id (f u) = u_id u ∧ u_public_key (f u) = u_public_key u ∧
                      u_used_bytes (f u) = u_used_bytes u) →
  storage_wf tb sq → storage_wf (set_users (map f) tb) sq.
Proof.
  intros Hf Hwf.
  assert (map u_id (map f (users tb)) = map u_id (users tb)) as Hid.
  { rewrite map_map. apply map_ext_in. intros u Hu%list_elem_of_In. by apply Hf. }
  assert (map u_public_key (map f (users tb)) = map u_public_key (users tb)) as Hpk.
  { rewrite map_map. apply map_ext_in. intros u Hu%list_elem_of_In. by apply Hf. }
  destruct Hwf as ((Hui & Huk & Huf) & He & Hv & Ha & Hq). split_and!.
  - unfold users_wf. cbn [users set_users]. rewrite Hid, Hpk. split_and!; [done..|]. apply Forall_map.
    rewrite Forall_forall in *. intros u Hu. cbn. destruct (Hf u Hu) as (_ & -> & ->). auto.
  - unfold entries_wf. cbn [users entries set_users]. by rewrite Hid.
  - unfold events_wf. cbn [users events set_users]. by rewrite Hid.
  - unfold accounted in *. cbn [users entries set_users]. apply Forall_map. rewrite Forall_forall in *.
    intros u Hu. cbn. destruct (Hf u Hu) as (-> & _ & ->). auto.
  - unfold seqs_wf. cbn [users entries events set_users]. by rewrite Hid.
Qed.

(** The users of [w'] are those of [w] with other settings. *)
Definition keeps_accounts (w w' : World) : Prop :=
  seqs_le (seqs w) (seqs w') ∧
  ∃ f, tables w' = set_users (map f) (tables w) ∧
    ∀ u, u ∈ users (tables w) → u_id (f u) = u_id u ∧ u_public_key (f u) = u_public_key u ∧
                                u_used_bytes (f u) = u_used_bytes u.

Lemma keeps_accounts_same w w' : seqs_le (seqs w) (seqs w') → tables w' = tables w → keeps_accounts w w'.
Proof.
  intros Hle Ht. split; [done|]. exists (λ u, u). split; [|done]. rewrite Ht. destruct (tables w).
  unfold set_users. cbn. by rewrite map_id.
Qed.

Lemma mono_get_for_update_or_404 k : mono (get_for_update_or_404 k).
Proof. intros w r w' [(_ & -> & _) _]%get_for_update_or_404_inv. reflexivity. Qed.

Lemma set_disabled_keeps k d w :
  users_wf (tables w) → keeps_accounts w (set_disabled k d w).2.
Proof.
  intros Hu. destruct (set_disabled k d w) as [r w'] eqn:E. cbn.
  assert (seqs_le (seqs w) (seqs w')) as Hle.
  { revert E. apply mono_in_transaction. repeat first [apply mono_get_for_update_or_404|apply mono_update_user
      |apply mono_ret|apply mono_map_err|apply mono_bind; [|intros ?]]. }
  apply in_transaction_inv in E as [[_ Ht]|(w0 & w1 & r1 & Ht0 & _ & _ & Hb & Hc)]; [by apply keeps_accounts_same|].
  destruct r1 as [[]|e]; [|by apply keeps_accounts_same; [|apply Hc]].
  apply db_bind_Ok in Hb as (user & w2 & [(Ht2 & _) Hg]%get_for_update_or_404_inv & Hb). rewrite Ht0 in Hg, Ht2.
  destruct (user_row k (tables w)) as [u|] eqn:Eu; [|by destruct Hg].
  destruct Hg as [?|[= ->]]; [done|].
  apply db_bind_Ok in Hb as (x & w3 & Hb%db_map_err_Ok & Hx). injection Hx as <-.
  apply (update_user_row_inv k u) in Hb; [|by rewrite Ht2..|done].
  destruct Hb as [[? _]|[_ Ht3]]; [done|]. rewrite Ht2 in Ht3.
  assert (tables w' = tables w3 ∨ tables w' = tables w) as [Ht|Ht].
  { destruct Hc as [[_ ?]|[_ [?|?]]]; auto. }
  2: by apply keeps_accounts_same.
  split; [done|]. rewrite Ht, Ht3. eexists. split; [done|]. cbn. intros v Hv. case_decide as Hk; [|done].
  split_and!; [done..|]. cbn. destruct Hu as (_ & Hpk & Huf).
  pose proof Eu as [Hin Huk]%user_row_Some.
  rewrite (NoDup_map_inj u_public_key _ v u Hpk Hv Hin) by congruence.
  rewrite Forall_forall in Huf. destruct (Huf u Hin) as [_ Hi]. unfold as_i64, as_u64, in_i64, I64_MIN, I64_MAX in *.
  Z.div_mod_to_equations. lia.
Qed.

Lemma patch_quota_keeps k patch w :
  users_wf (tables w) → keeps_accounts w (patch_quota_tx k patch w).2.
Proof.
  intros Hu. destruct (patch_quota_tx k patch w) as [r w'] eqn:E. cbn.
  assert (seqs_le (seqs w) (seqs w')) as Hle.
  { revert E. apply mono_in_transaction. unfold patch_quota_body, UserRepository_set_quota.
    repeat first [apply mono_get_for_update_or_404|apply mono_update_user|apply mono_lift
      |apply mono_ret|apply mono_map_err|apply mono_bind; [|intros ?]]. }
  apply in_transaction_inv in E as [[_ Ht]|(w0 & w1 & r1 & Ht0 & _ & _ & Hb & Hc)]; [by apply keeps_accounts_same|].
  rewrite <-Ht0 in Hu. apply patch_quota_body_inv in Hb; [|done]. rewrite Ht0 in Hb.
  destruct r1 as [x|e]; [|by apply keeps_accounts_same; [|apply Hc]].
  destruct Hb as (u & _ & _ & Ht1 & _).
  assert (tables w' = tables w1 ∨ tables w' = tables w) as [Ht|Ht].
  { destruct Hc as [[_ ?]|[_ [?|?]]]; auto. }
  2: by apply keeps_accounts_same.
  split; [done|]. rewrite Ht, Ht1. eexists. split; [done|]. cbn. intros v _. by case_decide.
Qed.

(** Signing up adds an account with nothing stored. *)
Lemma create_user_wf k w w' :
  w' = (UserRepository_create k w).2 → storage_wf (tables w) (seqs w) →
  storage_wf (tables w') (seqs w') ∧ entries (tables w') = entries (tables w).
Proof.
  intros -> Hwf. destruct (UserRepository_create k w) as [r w'] eqn:E. cbn.
  apply exec_inv in E as (_ & _ & [(_ & -> & ->)|(r0 & Hx & _)]); [done|].
  destruct (existsb _ _) eqn:Ex; injection Hx as _ <- <-.
  { split; [|done]. eapply storage_wf_mono; [exact Hwf|]. split_and!; cbn; lia. }
  set (row := mk_UserRow _ _ _ _ _ _).
  destruct Hwf as ((Hui & Huk & Huf) & (Hei & Hek & Hef) & (Hvi & Hvf) & Ha & (Hqe & Hqv & Hq1 & Hqu)).
  assert (seq_users (seqs w) ∉ map u_id (users (tables w))) as Hfresh.
  { intros Hin. rewrite Forall_forall in Hqu. specialize (Hqu _ Hin). lia. }
  cbn [entries set_users]. split; [|done]. split_and!.
  - unfold users_wf. cbn [users set_users]. rewrite !map_app. split_and!.
    + apply NoDup_app. split_and!; [done| |apply NoDup_singleton].
      intros i Hi ->%list_elem_of_singleton. done.
    + apply NoDup_app. split_and!; [done| |apply NoDup_singleton].
      intros i (u & -> & Hu)%list_elem_of_fmap Hk%list_elem_of_singleton. cbn in Hk.
      apply not_true_iff_false in Ex. apply Ex, existsb_exists. exists u.
      split; [by apply list_elem_of_In|]. by apply bool_decide_eq_true.
    + apply Forall_app. split; [done|]. apply Forall_singleton. split; [by exists k|]. by vm_compute.
  - split_and!; [done..|]. cbn [users set_users]. eapply Forall_impl; [exact Hef|]. cbn. intros e (? & ?).
    split; [|done]. rewrite map_app, elem_of_app. by left.
  - split; [done|]. cbn [users set_users]. eapply Forall_impl; [exact Hvf|]. cbn. intros v (? & ? & ?).
    split; [done|]. split; [|done]. rewrite map_app, elem_of_app. by left.
  - unfold accounted in *. cbn [users entries set_users]. apply Forall_app. split; [done|].
    apply Forall_singleton. cbn. unfold usage. revert Hef Hfresh. clear.
    induction (entries (tables w)) as [|e es IH]; cbn; [done|]. intros [(Hin & _) Hf]%Forall_cons Hn.
    rewrite <-IH by done. destruct (Z.eqb_spec (e_user e) (seq_users (seqs w))); [congruence|done].
  - split_and!; [done..|]. cbn [users set_users seq_users]. rewrite map_app. apply Forall_app.
    split; [|by apply Forall_singleton; cbn; lia]. eapply Forall_impl; [exact Hqu|]. cbn. lia.
Qed.

End Others.

(** * Signing up *)

Section Accounts.
Context `{PkarrKeysLaws, JsonStrings, Base32}.

(** A computation that keeps the storage invariant and the entries. *)
Definition keeps_storage {E A} (m : DB E A) : Prop :=
  ∀ w r w', m w = (r, w') → storage_wf (tables w) (seqs w) →
    storage_wf (tables w') (seqs w') ∧ entries (tables w') = entries (tables w) ∧ seqs_le (seqs w) (seqs w').

Lemma keeps_storage_ret {E A} (a : A) : keeps_storage (mret a : DB E A).
Proof. by intros w r w' [= _ <-]. Qed.
Lemma keeps_storage_throw {E A} (e : E) : keeps_storage (throw e : DB E A).
Proof. by intros w r w' [= _ <-]. Qed.
Lemma keeps_storage_lift {E A} (x : result E A) : keeps_storage (lift_result x).
Proof. by intros w r w' [= _ <-]. Qed.
Lemma keeps_storage_bind {E A B} (m : DB E A) (k : A → DB E B) :
  keeps_storage m → (∀ a, keeps_storage (k a)) → keeps_storage (m ≫= k).
Proof.
  intros Hm Hk w r w' Hr Hwf. cbv [mbind db_bind] in Hr. destruct (m w) as [[a|e] w1] eqn:E1.
  - destruct (Hm _ _ _ E1 Hwf) as (Hwf1 & He1 & Hq1). destruct (Hk a _ _ _ Hr Hwf1) as (? & He & Hq).
    split_and!; [done|congruence|by etransitivity].
  - injection Hr as _ <-. by eapply Hm.
Qed.
Lemma keeps_storage_map_err {E F A} (f : E → F) (m : DB E A) : keeps_storage m → keeps_storage (db_map_err f m).
Proof. intros Hm w r w' Hr. unfold db_map_err in Hr. destruct (m w) as [r1 w1] eqn:E1. injection Hr as _ <-. by eapply Hm. Qed.
Lemma keeps_storage_try {E F A} (m : DB E A) : keeps_storage m → keeps_storage (try_db m : DB F (result E A)).
Proof. intros Hm w r w' Hr. unfold try_db in Hr. destruct (m w) as [r1 w1] eqn:E1. injection Hr as _ <-. by eapply Hm. Qed.
Lemma keeps_storage_select {A} (f : Z → Tables → result SqlError A) : keeps_storage (select f).
Proof. intros w r w' [(-> & -> & _) _]%select_inv. done. Qed.

Lemma keeps_storage_update_user id f :
  (∀ u, u_id (f u) = u_id u ∧ u_public_key (f u) = u_public_key u ∧ u_used_bytes (f u) = u_used_bytes u) →
  keeps_storage (update_user_row id f).
Proof.
  intros Hf w r w' Hr Hwf. apply exec_inv in Hr as (_ & _ & [(_ & -> & ->)|(r0 & Hx & _)]); [done|].
  injection Hx as _ <- <-. split_and!; [|done..]. apply (storage_wf_users _ _ (λ u, if u_id u =? id then f u else u)); [|done].
  intros u _. destruct (u_id u =? id); [apply Hf|done].
Qed.

Lemma keeps_storage_mark_as_used id k : keeps_storage (SignupCodeRepository_mark_as_used id k).
Proof.
  intros w r w' Hr Hwf. apply exec_inv in Hr as (_ & _ & [(_ & -> & ->)|(r0 & Hx & _)]); [done|].
  injection Hx as _ <- <-. split_and!; [exact Hwf|done..].
Qed.

Lemma keeps_storage_create k : keeps_storage (UserRepository_create k).
Proof.
  intros w r w' Hr Hwf. destruct (create_user_wf k w w') as [? ?]; [by rewrite Hr|done|]. split_and!; [done..|].
  apply exec_inv in Hr as (_ & _ & [(_ & _ & ->)|(r0 & Hx & _)]); [done|].
  destruct (existsb _ _); injection Hx as _ _ <-; split_and!; cbn; lia.
Qed.

Lemma keeps_storage_transaction {E A} (of_sql : SqlError → E) (body : DB E A) :
  keeps_storage body → keeps_storage (in_transaction of_sql body).
Proof.
  intros Hb w r w' Hr Hwf. unfold in_transaction, db_map_err, try_db in Hr. cbv [mbind db_bind] in Hr.
  destruct (begin w) as [rb w0] eqn:Eb. apply begin_inv in Eb as (Ht0 & Hq0 & _ & Hb0).
  destruct Hb0 as [[-> _]|[-> _]]; cbn [map_err] in Hr; [injection Hr as _ <-; by rewrite Ht0, Hq0|].
  destruct (body w0) as [r1 w1] eqn:E1. destruct (Hb w0 r1 w1 E1) as (Hwf1 & He1 & Hq1); [by rewrite Ht0, Hq0|].
  rewrite Ht0 in He1. rewrite Hq0 in Hq1.
  assert (∀ w2, (tables w2 = tables w1 ∨ tables w2 = tables w) → seqs w2 = seqs w1 →
    storage_wf (tables w2) (seqs w2) ∧ entries (tables w2) = entries (tables w) ∧ seqs_le (seqs w) (seqs w2)) as Hend.
  { intros w2 Ht Hq. rewrite Hq. destruct Ht as [->| ->]; split_and!; try done. by eapply storage_wf_mono. }
  destruct r1 as [a|e].
  - destruct (commit _ w1) as [rc w2] eqn:Ec. apply commit_inv in Ec as (Hq2 & _ & _ & Hc).
    assert (w' = w2) as -> by (destruct rc; by injection Hr). apply Hend; [|done]. cbn in Hc. destruct Hc as [[_ ?]|[_ [?|?]]]; auto.
  - injection Hr as _ <-. apply Hend; [by right|done].
Qed.

Lemma keeps_storage_signup mode k token : keeps_storage (create_user_in_tx mode k token).
Proof.
  unfold create_user_in_tx, ensure_user_not_exists, validate_and_consume_signup_token, UserRepository_set_quota.
  repeat first
    [ apply keeps_storage_map_err | apply keeps_storage_try | apply keeps_storage_ret | apply keeps_storage_throw | apply keeps_storage_lift
    | apply keeps_storage_create | apply keeps_storage_mark_as_used | by apply keeps_storage_update_user | apply keeps_storage_select
    | apply keeps_storage_bind; [|intros ?]
    | match goal with |- keeps_storage (match ?x with _ => _ end) => destruct x end ].
Qed.

End Accounts.

(** * The transition system *)

Section System.
Context `{PkarrKeysLaws, JsonStrings, Base32, Backend}.

(** One step: an operation by somebody, under some schedule of faults.  Clients
    write through finalizers that refuse collisions, administrators through one
    that allows them, to repair old data: [admin] says whether these write too. *)
Definition with_ticks (w : World) (ts : list Tick) : World :=
  mk_World (tables w) (seqs w) (clock w) (tx_time w) ts.

Inductive server_step (admin : bool) : World → World → Prop :=
| step_write w ts fin writer path m b r w' b' :
    EntryPath_wf path → metadata_ok m → headroom w path m →
    (collision_policy fin = AllowLegacyAdminRepair → admin = true) →
    finalize_write fin writer path m (with_ticks w ts) b = (r, w', b') → server_step admin w w'
| step_delete w ts fin path r w' :
    EntryPath_wf path → seq_events (seqs w) ≤ I64_MAX →
    finalize_delete fin path (with_ticks w ts) = (r, w') → server_step admin w w'
| step_lock w ts op : server_step admin w (run_op op (with_ticks w ts))
| step_signup w ts mode now k token cache : server_step admin w (create_new_user mode now k token cache (with_ticks w ts)).2
| step_set_disabled w ts k d : server_step admin w (set_disabled k d (with_ticks w ts)).2
| step_patch_quota w ts k patch : server_step admin w (patch_quota_tx k patch (with_ticks w ts)).2.

Definition server_inv (apart : Prop) (w : World) : Prop :=
  storage_wf (tables w) (seqs w) ∧ (apart → separated (entries (tables w))).

Lemma server_inv_write apart w ts fin writer path m b r w' b' :
  server_inv apart w → EntryPath_wf path → metadata_ok m → headroom w path m → (apart → collision_policy fin = Enforce) →
  finalize_write fin writer path m (with_ticks w ts) b = (r, w', b') → server_inv apart w'.
Proof.
  intros [Hwf Hsep] Hp Hm Hroom Henf Hr. change (headroom (with_ticks w ts) path m) in Hroom.
  change (storage_wf (tables (with_ticks w ts)) (seqs (with_ticks w ts))) in Hwf.
  change (apart → separated (entries (tables (with_ticks w ts)))) in Hsep. generalize dependent (with_ticks w ts).
  clear w. intros w Hroom Hwf Hsep Hr. apply finalize_write_inv in Hr as [Hle Hi]; [|done..].
  assert (tables w' = tables w → server_inv apart w') as Hsame.
  { intros Ht. split; rewrite Ht; [by eapply storage_wf_mono|done]. }
  destruct Hi as [(e & _ & Ht & _)|(u & existing & g & b1 & rc & Had & _ & Hd)]; [by auto|].
  assert (write_committed fin path m w w' u existing → server_inv apart w') as Hcom.
  { intros Hc. split; [by apply (write_committed_spec fin path m w w' u existing)|].
    intros Ha. destruct Hc as (now & -> & _). eapply separated_put; eauto. }
  destruct Hd as [(md & _ & _ & Hc)|(e & _ & [Ht|Hc])]; auto.
Qed.

Lemma server_inv_delete apart w ts fin path r w' :
  server_inv apart w → EntryPath_wf path → seq_events (seqs w) ≤ I64_MAX →
  finalize_delete fin path (with_ticks w ts) = (r, w') → server_inv apart w'.
Proof.
  intros [Hwf Hsep] Hp Hseq Hr. apply finalize_delete_inv in Hr as [Hle Hi]; [|done..].
  assert (tables w' = tables w → server_inv apart w') as Hsame.
  { intros Ht. split; rewrite Ht; [by eapply storage_wf_mono|done]. }
  assert (∀ u e, delete_admitted fin path (with_ticks w ts) u e →
    delete_committed fin path (with_ticks w ts) w' u e → server_inv apart w') as Hcom.
  { intros u e Had Hc. split; [by apply (delete_committed_spec fin path (with_ticks w ts) w' u e)|].
    intros Ha. destruct Hc as [-> _]. eapply separated_subset; [exact (Hsep Ha)|]. intros x [_ ?]%list_elem_of_filter. done. }
  destruct r as [[|]|e].
  - destruct Hi as (u & e & ? & ?). eauto.
  - destruct Hi as [? _]. auto.
  - destruct Hi as [?|(u & e' & ? & ?)]; eauto.
Qed.

Lemma keeps_accounts_inv apart w w' : keeps_accounts w w' → server_inv apart w → server_inv apart w'.
Proof.
  intros (Hle & f & Ht & Hf) [Hwf Hsep]. split; rewrite Ht; [|done].
  eapply storage_wf_mono; [|exact Hle]. by apply storage_wf_users.
Qed.

Lemma server_inv_step (apart : Prop) admin w w' :
  (apart → admin = false) → server_inv apart w → server_step admin w w' → server_inv apart w'.
Proof.
  intros Hadm Hinv Hstep. destruct Hstep as [w ts fin writer path m b r w' b' Hp Hm Hroom Hpol Hr| |w ts op|w ts mode now k token cache|w ts k d|w ts k patch].
  - eapply server_inv_write; [exact Hinv|done..| |exact Hr]. intros Ha. destruct (collision_policy fin); [done|].
    by rewrite Hpol in Hadm by done; specialize (Hadm Ha).
  - by eapply server_inv_delete.
  - destruct Hinv as [Hwf Hsep]. pose proof (run_op_keeps op (with_ticks w ts)) as Hk. split.
    + by eapply keeps_files_wf.
    + destruct Hk as (_ & -> & _). done.
  - destruct Hinv as [Hwf Hsep]. unfold create_new_user.
    destruct (in_transaction SignupInternal (create_user_in_tx mode k token) (with_ticks w ts)) as [r w1] eqn:E.
    destruct (keeps_storage_transaction _ _ (keeps_storage_signup mode k token) _ _ _ E) as (Hwf1 & He & _); [done|].
    assert ((match r with Ok user => (Ok user, cache_user_quota now user cache, w1) | Err e => (Err e, cache, w1) end).2 = w1) as Hw1 by by destruct r.
    split; [by rewrite Hw1|]. rewrite Hw1, He. exact Hsep.
  - eapply keeps_accounts_inv; [apply set_disabled_keeps|exact Hinv]. apply Hinv.
  - eapply keeps_accounts_inv; [apply patch_quota_keeps|exact Hinv]. apply Hinv.
Qed.

(** (C3) The storage stays consistent.  From a consistent state, through client
    and admin writes and deletes, lock operations, signups, disabling and quota
    patches, in any order and under any faults, as long as the bytes and ids
    involved fit in 63 bits: every user's [used_bytes] is exactly the content
    and metadata of the files the user has, and there is one entry per path.
    If no file is a folder of another at first, and administrators, whose
    writes are allowed to collide, write nothing, none ever is. *)
Theorem reachable_storage_consistent admin w w' :
  storage_wf (tables w) (seqs w) →
  rtc (server_step admin) w w' →
  (∀ u, u ∈ users (tables w') → u_used_bytes u = usage (u_id u) (entries (tables w'))) ∧
  NoDup (map entry_key (entries (tables w'))) ∧
  (admin = false → separated (entries (tables w)) → separated (entries (tables w'))).
Proof.
  intros Hwf Hrun.
  assert (server_inv (admin = false ∧ separated (entries (tables w))) w') as [Hwf' Hsep'].
  { assert (server_inv (admin = false ∧ separated (entries (tables w))) w) as Hinv by (split; [done|by intros [_ ?]]).
    assert (admin = false ∧ separated (entries (tables w)) → admin = false) as Hadm by by intros [? _].
    revert Hadm Hinv. generalize (admin = false ∧ separated (entries (tables w))) as apart. clear Hwf. intros apart Hadm.
    induction Hrun as [|w1 w2 w3 Hs _ IH]; [done|]. intros Hinv. by eapply IH, server_inv_step. }
  destruct Hwf' as (_ & (_ & Hk & _) & _ & Ha & _). split_and!; [|done|by intros; apply Hsep'].
  unfold accounted in Ha. by rewrite Forall_forall in Ha.
Qed.

End System.

(** ** A run *)

Lemma demo_separated ts : separated (entries (tables (demo_storage ts))).
Proof.
  intros e e' segs segs' dir' ->%list_elem_of_singleton ->%list_elem_of_singleton _ Hp Hp' _.
  by apply (is_path_functional _ _ _ _ _ Hp Hp').
Qed.

(** An upload over the stored file. *)
Lemma reachable_storage_consistent_witness :
  ∃ w', rtc (server_step (H := demo_keys) (H1 := demo_json) (H2 := demo_base32) (H3 := demo_backend) false) (demo_storage []) w' ∧
    separated (entries (tables w')).
Proof.
  assert (∃ w1 b1, finalize_write (H1 := demo_backend) demo_fin (ep_key demo_file) demo_file demo_metadata
    (with_ticks (demo_storage []) []) [] = (Ok (), w1, b1)) as (w1 & b1 & E1).
  { eexists _, _. vm_compute. reflexivity. }
  exists w1.
  assert (rtc (server_step (H := demo_keys) (H1 := demo_json) (H2 := demo_base32) (H3 := demo_backend) false) (demo_storage []) w1) as Hrun.
  { eapply rtc_l; [|apply rtc_refl]. eapply step_write; [| | | |exact E1].
    - split; vm_compute; reflexivity.
    - split; [reflexivity|]. split; vm_compute; discriminate.
    - apply demo_headroom. by left.
    - intros Hp. discriminate Hp. }
  split; [exact Hrun|].
  apply (reachable_storage_consistent (H := demo_keys) (H1 := demo_json) (H2 := demo_base32) (H3 := demo_backend)
    false (demo_storage []) w1); [apply demo_storage_wf|exact Hrun|reflexivity|apply demo_separated].
Defined.
