(* ===== verification/AdminRoutes.v ===== *)
(** The admin server ([admin_server/]): its password, its routes, and the two
    client routes about accounts and sign-up codes that answer in the same
    shapes ([client_server/routes/account.rs], [signup_tokens.rs]).

    Decoding of base 64 belongs to the [base64] crate, the file system protocol
    behind the password to [dav_server]; the random sign-up code is an
    argument. *)

From stdpp Require Import relations sorting.
From S2P Require Import Prelude StoragePath Capabilities HttpError Keys Tenant Quota Database Users Signup Authorization.
From S2P Require Import GrantTokens Entries EntryLocks Events Finalization Accounting AppState LockRoutes Refinement Uploads Reachability.

(** * The password *)

(** [AdminAuthMiddleware::call]: the answer, or the inner service. *)
Definition is_valid_admin_header (headers : HeaderMap) (password : str) : bool :=
  match headers_get headers (lit "x-admin-password") with
  | Some header_value => bool_decide (default [] header_value = password)
  | None => false
  end.

Definition admin_refusal (headers : HeaderMap) : str :=
  match headers_get headers (lit "x-admin-password") with
  | Some _ => lit "Invalid admin password"
  | None => lit "Missing admin password"
  end.

Section Dav.
Context (base64_decode : str → option (list Z)).

Definition is_valid_authorization_header_str (auth_header should_password : str) : bool :=
  if negb (starts_with auth_header (lit "Basic ")) then false
  else match strip_prefix auth_header (lit "Basic ") with
  | None => false
  | Some base64_encoded =>
      match base64_decode base64_encoded with
      | None => false
      | Some decoded =>
          match from_utf8 decoded with
          | None => false
          | Some decoded_str =>
              match splitn 2 58 decoded_str with
              | [user; password] => bool_decide (user = lit "admin") && bool_decide (password = should_password)
              | _ => false
              end
          end
      end
  end.

Definition is_valid_authorization_header (headers : HeaderMap) (should_password : str) : bool :=
  match headers_get headers (lit "authorization") with
  | Some (Some auth_header) => is_valid_authorization_header_str auth_header should_password
  | _ => false
  end.

(** The user name is [admin] and everything after the first colon is the
    password. *)
Lemma dav_password_exact header password :
  is_valid_authorization_header_str header password = true ↔
  ∃ encoded bytes, header = lit "Basic " ++ encoded ∧ base64_decode encoded = Some bytes ∧
    from_utf8 bytes = Some (lit "admin" ++ 58 :: password).
Proof.
  unfold is_valid_authorization_header_str. split.
  - destruct (negb _); [done|]. destruct (strip_prefix header _) as [enc|] eqn:Ep; [|done]. apply strip_prefix_spec in Ep as ->.
    destruct (base64_decode enc) as [bytes|] eqn:Eb; [|done]. destruct (from_utf8 bytes) as [t|] eqn:Eu; [|done]. cbn [splitn].
    destruct (split_once 58 t) as [[user pw]|] eqn:Es; [|done]. apply split_once_spec in Es as [-> _].
    rewrite andb_true_iff, !bool_decide_eq_true. intros [-> ->]. by exists enc, bytes.
  - intros (enc & bytes & -> & Hb & Hu). rewrite (proj2 (starts_with_spec _ _)) by (by eexists). cbn [negb].
    rewrite (proj2 (strip_prefix_spec _ _ enc) eq_refl), Hb, Hu. cbn [splitn].
    rewrite (proj2 (split_once_spec 58 _ (lit "admin") password)) by (split; [done|by apply (bool_decide_unpack _)]).
    by rewrite !bool_decide_eq_true_2.
Qed.

End Dav.

(** * What the routes show *)

Record UserQuotaResponse := mk_UserQuotaResponse { qr_effective : UserQuota; qr_overrides : UserQuota }.

Record UserItem := mk_UserItem {
  ui_pubky : str;
  ui_created_at : Z;
  ui_disabled : bool;
  ui_used_bytes : Z;
  ui_quota : UserQuotaResponse
}.

Record SignupTokenItem := mk_SignupTokenItem {
  ti_token : str;
  ti_created_at : Z;
  ti_used_at : option Z;
  ti_used_by : option str;
  ti_quota : UserQuota
}.

Record UserOverview := mk_UserOverview { uo_count : Z; uo_disabled_count : Z; uo_total_used_mb : Z }.

Record InfoResponse := mk_InfoResponse {
  in_users : UserOverview;
  in_num_signup_codes : Z;
  in_num_unused_signup_codes : Z;
  in_public_key : str;
  in_pkarr_pubky_address : option str;
  in_pkarr_icann_domain : option str
}.

(** The configuration the routes read. *)
Record AdminConfig `{PkarrKeys} := mk_AdminConfig {
  ac_admin_password : str;
  ac_public_key : PublicKey;
  ac_default_quota_mb : option Z;
  ac_default_quotas : DefaultQuotasToml;
  ac_public_ip : str;
  ac_public_pubky_tls_port : option Z;
  ac_pubky_listen_port : Z;
  ac_icann_domain : option str;
  ac_public_icann_http_port : option Z;
  ac_icann_listen_port : Z;
  ac_utc_now : Z
}.

Inductive AdminAnswer :=
| AnswerText (s : str)
| AnswerInfo (info : InfoResponse)
| AnswerTokens (items : list SignupTokenItem) (next_cursor : option str)
| AnswerUsers (items : list UserItem) (next_cursor : option str)
| AnswerUser (item : UserItem)
| AnswerQuota (quota : UserQuotaResponse)
| AnswerStatus (status : Z).

Section Admin.
Context `{PkarrKeys, JsonStrings, !Backend, !Base32} (config : AdminConfig).

Definition UserQuotaResponse_new (user : UserEntity) : UserQuotaResponse :=
  let overrides := UserEntity_quota user in
  mk_UserQuotaResponse (UserQuota_resolve_with_defaults overrides (ac_default_quota_mb config) (ac_default_quotas config)) overrides.

Definition UserItem_new (user : UserEntity) : UserItem :=
  mk_UserItem (PublicKey_z32 (ue_public_key user)) (ue_created_at user) (ue_disabled user) (ue_used_bytes user)
    (UserQuotaResponse_new user).

Definition SignupTokenItem_from (code : SignupCodeEntity) : SignupTokenItem :=
  mk_SignupTokenItem (ce_id code) (ce_created_at code) (ce_used_at code) (PublicKey_z32 <$> ce_used_by code)
    (SignupCodeEntity_quota code).

(** [SUM(used_bytes) / 1048576] is numeric; the cast rounds to the nearest
    integer.  The sum of no rows is [NULL]. *)
Definition UserRepository_get_overview : DB SqlError UserOverview :=
  '(count, total_used_mb) ← select (λ _ tb,
     Ok (Z.of_nat (length (users tb)),
         (2 * foldr (λ u s, u_used_bytes u + s) 0 (users tb) + 1048576) / 2097152));
  disabled_count ← select (λ _ tb, Ok (Z.of_nat (length (filter (λ u, u_disabled u = true) (users tb)))));
  mret (mk_UserOverview count disabled_count total_used_mb).

Definition pkarr_pubky_tls_address : option str :=
  let port := default (ac_pubky_listen_port config) (ac_public_pubky_tls_port config) in
  if port =? 0 then None else Some (ac_public_ip config ++ [58] ++ show_uint port).

Definition pkarr_icann_domain : option str :=
  domain ← ac_icann_domain config;
  let port := default (ac_icann_listen_port config) (ac_public_icann_http_port config) in
  if port =? 0 then None else Some (domain ++ [58] ++ show_uint port).

(** * The routes *)

Definition create_signup_code (code : str) (limits : UserQuota) : AM HttpError AdminAnswer :=
  code ← am_db (sql (SignupCodeRepository_create code limits));
  mret (AnswerText (ce_id code)).

Definition generate_signup_token (code : str) : AM HttpError AdminAnswer := create_signup_code code UserQuota_default.

Definition generate_signup_token_with_limits (code : str) (quota : UserQuota) : AM HttpError AdminAnswer :=
  am_lift (map_err (λ _, mk_HttpError UNPROCESSABLE_ENTITY None None) (UserQuota_validate quota)) ;;
  create_signup_code code quota.

Definition info : AM HttpError AdminAnswer :=
  user_overview ← am_db (sql UserRepository_get_overview);
  '(total, unused) ← am_db (sql SignupCodeRepository_get_overview);
  mret (AnswerInfo (mk_InfoResponse user_overview total unused (PublicKey_z32 (ac_public_key config))
                      pkarr_pubky_tls_address pkarr_icann_domain)).

Definition list_signup_tokens (q : SignupCodeListQuery) : AM HttpError AdminAnswer :=
  '(items, next_cursor) ← am_db (sql (SignupCodeRepository_list q));
  mret (AnswerTokens (map SignupTokenItem_from items) next_cursor).

Definition list_users_error (e : SqlError) : HttpError :=
  match e with RowNotFound => HttpError_bad_request (lit "Unknown cursor") | e => HttpError_from_sqlx e end.

Definition list_users (q : UserListQuery) : AM HttpError AdminAnswer :=
  '(items, next_cursor) ← am_map_err list_users_error (am_db (UserRepository_list q));
  mret (AnswerUsers (map UserItem_new items) (PublicKey_z32 <$> next_cursor)).

Definition get_user (pubkey : PublicKey) : AM HttpError AdminAnswer :=
  user ← am_db (get_or_http_error pubkey false); mret (AnswerUser (UserItem_new user)).

Definition disable_user (pubkey : PublicKey) : AM HttpError AdminAnswer :=
  am_db (admin_disable pubkey) ;; mret (AnswerText (lit "Ok")).
Definition enable_user (pubkey : PublicKey) : AM HttpError AdminAnswer :=
  am_db (admin_enable pubkey) ;; mret (AnswerText (lit "Ok")).

Definition get_user_quota (pubkey : PublicKey) : AM HttpError AdminAnswer :=
  user ← am_db (get_or_http_error pubkey false); mret (AnswerQuota (UserQuotaResponse_new user)).

Definition patch_user_quota (pubkey : PublicKey) (patch : UserQuotaPatch) : AM HttpError AdminAnswer :=
  am_lift (map_err (λ _, mk_HttpError UNPROCESSABLE_ENTITY None None) (UserQuotaPatch_validate patch)) ;;
  am_cache (patch_quota pubkey patch) ;;
  mret (AnswerStatus 200).

(** The finalizer of the admin operator, which no lock token runs under and
    which is not wrapped in the write-path layer. *)
Definition admin_finalizer : Finalizer :=
  mk_Finalizer (ac_default_quota_mb config) (CollisionPolicy_from_enforcement false) None (ac_utc_now config).

Definition OpendalService_admin_delete (path : EntryPath) : AM FileIoError () :=
  am_map_err FileIoError_from_opendal (
    pending ← am_lift (EntryPath_parse_opendal (ep_key path));
    '(error, _) ← am_fm (queued_deletes_close admin_finalizer [pending]);
    match error with Some e => am_throw e | None => mret () end).

Definition FileService_admin_delete (path : EntryPath) : AM FileIoError () :=
  exists_ ← am_map_err FileIoError_from_opendal (am_blob (backend_exists (ep_key path)));
  if negb exists_ then am_throw FileIoNotFound else OpendalService_admin_delete path.

Definition delete_entry (entry_path : EntryPath) : AM HttpError AdminAnswer :=
  am_map_err HttpError_from_file_io (FileService_admin_delete entry_path) ;; mret (AnswerStatus 204).

(** [create_protected_router]; the event stream is that of [EventStreams]. *)
Inductive AdminRoute :=
| GenerateToken (code : str)
| GenerateTokenWithLimits (code : str) (quota : UserQuota)
| Info
| ListTokens (q : SignupCodeListQuery)
| DeleteEntry (entry_path : EntryPath)
| ListUsers (q : UserListQuery)
| GetUser (pubkey : PublicKey)
| DisableUser (pubkey : PublicKey)
| EnableUser (pubkey : PublicKey)
| GetUserQuota (pubkey : PublicKey)
| PatchUserQuota (pubkey : PublicKey) (patch : UserQuotaPatch).

Definition admin_route (route : AdminRoute) : AM HttpError AdminAnswer :=
  match route with
  | GenerateToken code => generate_signup_token code
  | GenerateTokenWithLimits code quota => generate_signup_token_with_limits code quota
  | Info => info
  | ListTokens q => list_signup_tokens q
  | DeleteEntry entry_path => delete_entry entry_path
  | ListUsers q => list_users q
  | GetUser pubkey => get_user pubkey
  | DisableUser pubkey => disable_user pubkey
  | EnableUser pubkey => enable_user pubkey
  | GetUserQuota pubkey => get_user_quota pubkey
  | PatchUserQuota pubkey patch => patch_user_quota pubkey patch
  end.

Definition admin_request (headers : HeaderMap) (route : AdminRoute) : AM HttpError AdminAnswer :=
  if is_valid_admin_header headers (ac_admin_password config) then admin_route route
  else am_throw (HttpError_new_with_message 401 (admin_refusal headers)).

(** * The client's view of accounts *)

Definition account_get (auth : AuthSession) : AM HttpError UserItem :=
  match auth with
  | CookieSession _ => am_throw HttpError_unauthorized
  | BearerSession _ =>
      if negb (Capabilities_permits (AuthSession_capabilities auth) StoragePath_root Read)
      then am_throw (HttpError_forbidden_with_message (lit "Read access to all storage required"))
      else user ← am_db (get_or_http_error (AuthSession_user_key auth) false); mret (UserItem_new user)
  end.

Inductive SignupTokenStatus := TokenValid | TokenUsed.

(** The wording of a code's format error is not modelled. *)
Definition signup_token_get (mode : SignupMode) (token : str) : AM HttpError (SignupTokenStatus * Z) :=
  match mode with
  | Open => am_throw (HttpError_new_with_message 400 (lit "Signup tokens not required"))
  | TokenRequired =>
      signup_code_id ← am_lift (ok_or (SignupCode_new token) (mk_HttpError 400 None None));
      code ← am_map_err (λ e, match e with
                             | RowNotFound => HttpError_new_with_message 404 (lit "Token not found")
                             | e => HttpError_from_sqlx e
                             end) (am_db (SignupCodeRepository_get signup_code_id));
      mret (match ce_used_by code with Some _ => TokenUsed | None => TokenValid end, ce_created_at code)
  end.

End Admin.

(** * What admin requests do *)

(** ** Reads *)

Section Reads.
Context `{PkarrKeys}.

Definition reads {E A} (m : DB E A) : Prop := ∀ w r w', m w = (r, w') → same_data w w'.

Lemma reads_select {A} (f : Z → Tables → result SqlError A) : reads (select f).
Proof. by intros w r w' [? _]%select_inv. Qed.
Lemma reads_ret {E A} (x : A) : reads (mret x : DB E A).
Proof. intros w r w' [= _ <-]. reflexivity. Qed.
Lemma reads_throw {E A} (e : E) : reads (throw e : DB E A).
Proof. intros w r w' [= _ <-]. reflexivity. Qed.
Lemma reads_map_err {E F A} (f : E → F) (m : DB E A) : reads m → reads (db_map_err f m).
Proof. intros Hm w r w'. unfold db_map_err. destruct (m w) as [r1 w1] eqn:E1. intros [= _ <-]. by eapply Hm. Qed.
Lemma reads_bind {E A B} (m : DB E A) (k : A → DB E B) : reads m → (∀ x, reads (k x)) → reads (m ≫= k).
Proof.
  intros Hm Hk w r w'. cbv [mbind db_bind]. destruct (m w) as [[x|e] w1] eqn:E1.
  - intros E2. transitivity w1; [by eapply Hm|by eapply Hk].
  - intros [= _ <-]. by eapply Hm.
Qed.

End Reads.

Create HintDb reads.
#[export] Hint Resolve reads_select reads_ret reads_throw reads_map_err reads_bind : reads.

Section Requests.
Context `{PkarrKeysLaws, JsonStrings, !Backend, !Base32} (config : AdminConfig).

Lemma reads_get_or_http_error k b : reads (get_or_http_error k b).
Proof. by intros w r w' [? _]%get_or_http_error_inv. Qed.

Lemma reads_overviews : reads UserRepository_get_overview ∧ reads SignupCodeRepository_get_overview.
Proof.
  split; repeat first [apply reads_select|apply reads_ret|apply reads_bind; [|intros]]; destruct x; auto with reads.
Qed.

Lemma reads_code_list q : reads (SignupCodeRepository_list q).
Proof. unfold SignupCodeRepository_list. auto with reads. Qed.

Lemma reads_user_list q : reads (UserRepository_list q).
Proof.
  unfold UserRepository_list. apply reads_bind; [|auto with reads].
  destruct (list_cursor q); [|auto with reads]. apply reads_bind; [|auto with reads]. apply reads_select.
Qed.

(** A handler that only reads. *)
Definition am_reads {E A} (m : AM E A) : Prop :=
  ∀ a r a', m a = (r, a') → same_data (app_world a) (app_world a').

Lemma am_reads_ret {E A} (x : A) : am_reads (mret x : AM E A).
Proof. intros a r a' [= _ <-]. reflexivity. Qed.
Lemma am_reads_db {E A} (m : DB E A) : reads m → am_reads (am_db m).
Proof. intros Hm a r a'. unfold am_db. destruct (m (app_world a)) as [r1 w1] eqn:E1. intros [= _ <-]. by eapply Hm. Qed.
Lemma am_reads_map_err {E F A} (f : E → F) (m : AM E A) : am_reads m → am_reads (am_map_err f m).
Proof. intros Hm a r a'. unfold am_map_err. destruct (m a) as [r1 a1] eqn:E1. intros [= _ <-]. by eapply Hm. Qed.
Lemma am_reads_bind {E A B} (m : AM E A) (k : A → AM E B) : am_reads m → (∀ x, am_reads (k x)) → am_reads (m ≫= k).
Proof.
  intros Hm Hk a r a'. cbv [mbind am_bind]. destruct (m a) as [[x|e] a1] eqn:E1.
  - intros E2. transitivity (app_world a1); [by eapply Hm|by eapply Hk].
  - intros [= _ <-]. by eapply Hm.
Qed.

(** The routes that only show. *)
Definition shows (route : AdminRoute) : bool :=
  match route with
  | Info | ListTokens _ | ListUsers _ | GetUser _ | GetUserQuota _ => true
  | _ => false
  end.

Lemma shows_reads route : shows route = true → am_reads (admin_route config route).
Proof.
  destruct reads_overviews. destruct route; try done; intros _; cbn [admin_route];
    unfold info, list_signup_tokens, list_users, get_user, get_user_quota, sql.
  - apply am_reads_bind; [by apply am_reads_db, reads_map_err|]. intros overview.
    apply am_reads_bind; [by apply am_reads_db, reads_map_err|]. intros []. apply am_reads_ret.
  - apply am_reads_bind; [apply am_reads_db, reads_map_err, reads_code_list|]. intros []. apply am_reads_ret.
  - apply am_reads_bind; [apply am_reads_map_err, am_reads_db, reads_user_list|]. intros []. apply am_reads_ret.
  - apply am_reads_bind; [apply am_reads_db, reads_get_or_http_error|]. intros. apply am_reads_ret.
  - apply am_reads_bind; [apply am_reads_db, reads_get_or_http_error|]. intros. apply am_reads_ret.
Qed.

(** ** Changes *)

Definition with_flag (k : PublicKey) (d : bool) (tb : Tables) : Tables :=
  set_users (map (λ v, if decide (u_public_key v = PublicKey_z32 k)
                       then mk_UserRow (u_id v) (u_public_key v) (u_created_at v) d (u_used_bytes v) (u_quota v) else v)) tb.

Lemma used_bytes_kept tb k u d :
  users_wf tb → user_row k tb = Some u →
  set_users (map (λ v, if decide (u_public_key v = PublicKey_z32 k)
                       then mk_UserRow (u_id v) (u_public_key v) (u_created_at v) d (as_i64 (as_u64 (u_used_bytes u))) (u_quota v)
                       else v)) tb = with_flag k d tb.
Proof.
  intros (_ & Hpk & Huf) [Hin Hk]%user_row_Some. unfold with_flag, set_users. f_equal. apply map_ext_in.
  intros v Hv%list_elem_of_In. case_decide as Hkv; [|done]. f_equal.
  rewrite (NoDup_map_inj u_public_key _ v u Hpk Hv Hin) by congruence.
  rewrite Forall_forall in Huf. destruct (Huf u Hin) as [_ Hi]. unfold as_i64, as_u64, in_i64, I64_MIN, I64_MAX in *.
  Z.div_mod_to_equations. lia.
Qed.

(** The account is found and its flag set; a failed commit may have happened. *)
Lemma set_disabled_effect k d w r w' :
  users_wf (tables w) → set_disabled k d w = (r, w') →
  if is_ok r then is_Some (user_row k (tables w)) ∧ tables w' = with_flag k d (tables w)
  else tables w' = tables w ∨ tables w' = with_flag k d (tables w).
Proof.
  intros Hu [[-> Ht]|(w0 & w1 & r1 & Ht0 & _ & _ & Hb & Hc)]%in_transaction_inv; [by left|].
  destruct r1 as [[]|e]; [|destruct Hc as [-> ?]; by left].
  apply db_bind_Ok in Hb as (user & w2 & [(Ht2 & _) Hg]%get_for_update_or_404_inv & Hb). rewrite Ht0 in Hg, Ht2.
  destruct (user_row k (tables w)) as [u|] eqn:Eu; [|by destruct Hg]. destruct Hg as [?|[= ->]]; [done|].
  apply db_bind_Ok in Hb as (x & w3 & Hb%db_map_err_Ok & Hx). injection Hx as <-.
  apply (update_user_row_inv k u) in Hb; [|by rewrite Ht2..|done]. destruct Hb as [[? _]|[_ Ht3]]; [done|].
  rewrite Ht2 in Ht3. cbn [ue_used_bytes ue_disabled with_disabled entity_of] in Ht3. rewrite used_bytes_kept in Ht3 by done.
  rewrite Ht3 in Hc. destruct Hc as [[-> ?]|[-> [?|?]]]; cbn [is_ok]; eauto.
Qed.

(** A new code with its quota, and nothing else. *)
Definition with_code (code : str) (quota : UserQuota) (at_ : Z) (tb : Tables) : Tables :=
  set_signup_codes (λ l, l ++ [mk_SignupCodeRow code at_ None None (UserQuota_to_columns quota)]) tb.

Definition code_effect (code : str) (quota : UserQuota) (ok : bool) (w w' : World) : Prop :=
  seqs w' = seqs w ∧
  let added := code ∉ map c_id (signup_codes (auth (tables w))) ∧ ∃ at_, tables w' = with_code code quota at_ (tables w) in
  if ok then added else tables w' = tables w ∨ added.

Lemma create_code_effect code quota w r w' :
  SignupCodeRepository_create code quota w = (r, w') → code_effect code quota (is_ok r) w w'.
Proof.
  unfold SignupCodeRepository_create, code_effect. cbv [mbind db_bind lift_result]. cbv zeta.
  destruct (map_err _ _); [|intros [= <- <-]; by split; [|left]].
  intros (_ & _ & [(-> & Ht & Hs)|(r0 & Hx & Hr)])%exec_inv; [by split; [|left]|].
  destruct (existsb _ _) eqn:Ex; injection Hx as <- Ht Hs; (split; [done|]).
  - assert (is_ok r = false) as -> by by destruct Hr as [->| ->]. by left.
  - assert (code ∉ map c_id (signup_codes (auth (tables w))) ∧ ∃ at_, tables w' = with_code code quota at_ (tables w)) as Hadd.
    { split; [|by eexists]. intros (c & -> & Hc)%list_elem_of_fmap. apply not_true_iff_false in Ex. apply Ex, existsb_exists.
      exists c. split; [by apply list_elem_of_In|by apply bool_decide_eq_true]. }
    destruct (is_ok r); [done|by right].
Qed.

Lemma create_signup_code_effect code quota a r a' :
  create_signup_code code quota a = (r, a') → code_effect code quota (is_ok r) (app_world a) (app_world a').
Proof.
  unfold create_signup_code, sql, db_map_err, am_db. cbv [mbind am_bind mret am_ret].
  destruct (SignupCodeRepository_create code quota (app_world a)) as [r1 w1] eqn:E. apply create_code_effect in E.
  destruct r1; intros [= <- <-]; exact E.
Qed.

Lemma code_effect_wf code quota ok w w' :
  code_effect code quota ok w w' → storage_wf (tables w) (seqs w) → storage_wf (tables w') (seqs w').
Proof.
  intros [Hs He] Hwf. rewrite Hs. assert (tables w' = tables w ∨ ∃ at_, tables w' = with_code code quota at_ (tables w)) as [->|[at_ ->]]; [|done..].
  destruct ok; [destruct He as [_ ?]; by right|destruct He as [?|[_ ?]]; auto].
Qed.

(** The quota of one account, patched. *)
Definition patch_effect (k : PublicKey) (patch : UserQuotaPatch) (ok : bool) (w w' : World) : Prop :=
  let patched_row := ∃ u, user_row k (tables w) = Some u ∧ UserQuota_validate (patched k patch u) = Ok () ∧
    tables w' = with_quota k (patched k patch u) (tables w) in
  if ok then patched_row else tables w' = tables w ∨ patched_row.

Lemma patch_tx_effect k patch w r w' :
  users_wf (tables w) → patch_quota_tx k patch w = (r, w') → patch_effect k patch (is_ok r) w w'.
Proof.
  intros Hu Hr. unfold patch_effect. cbv zeta.
  apply in_transaction_inv in Hr as [[-> Ht]|(w0 & w1 & r1 & Ht0 & _ & _ & Hb & Hc)]; [by left|].
  rewrite <-Ht0 in Hu. apply patch_quota_body_inv in Hb; [|done]. rewrite Ht0 in Hb.
  destruct r1 as [x|e]; [|destruct Hc as [-> ?]; by left]. destruct Hb as (u & Hrow & Hv & Ht1 & _).
  destruct Hc as [[-> Ht]|[-> [Ht|Ht]]]; cbn [is_ok]; rewrite Ht; [|right|by left]; exists u; by rewrite <-Ht1.
Qed.

Lemma admin_delete_inv path a r a' :
  storage_wf (tables (app_world a)) (seqs (app_world a)) → EntryPath_wf path → seq_events (seqs (app_world a)) ≤ I64_MAX →
  delete_entry config path a = (r, a') →
  storage_wf (tables (app_world a')) (seqs (app_world a')) ∧
  (tables (app_world a') = tables (app_world a) ∨ delete_effect (admin_finalizer config) path (app_world a) (app_world a')) ∧
  (is_ok r = true → delete_effect (admin_finalizer config) path (app_world a) (app_world a') ∨
                    tables (app_world a') = tables (app_world a) ∧ no_file path (tables (app_world a))).
Proof.
  intros Hwf Hp Hseq. unfold delete_entry, FileService_admin_delete, OpendalService_admin_delete.
  cbv [mbind am_bind am_map_err am_blob am_throw mret am_ret].
  destruct (backend_exists (ep_key path) (app_store a)) as [[ex|e] b1]; cbn [map_err]; [|intros [= <- <-]; by split_and!; [|left|]].
  destruct ex; cbn [negb]; [|intros [= <- <-]; by split_and!; [|left|]]. rewrite parse_opendal_key by done.
  cbv [am_lift am_fm]. cbn [app_world app_store].
  destruct (queued_deletes_close _ [path] (app_world a) b1) as [[r5 w5] b5] eqn:E5.
  apply queued_delete_inv in E5 as (Hwf5 & Hany & Hok); [|done..].
  destruct r5 as [[[e|] q]|e]; cbn [map_err]; intros [= <- <-]; (split_and!; [done..|]); [done| |done].
  intros _. by eapply Hok.
Qed.

(** What a route may change. *)
Definition admin_effect (route : AdminRoute) (ok : bool) (w w' : World) : Prop :=
  match route with
  | GenerateToken code => code_effect code UserQuota_default ok w w'
  | GenerateTokenWithLimits code quota => code_effect code quota ok w w'
  | DisableUser k =>
      if ok then is_Some (user_row k (tables w)) ∧ tables w' = with_flag k true (tables w)
      else tables w' = tables w ∨ tables w' = with_flag k true (tables w)
  | EnableUser k =>
      if ok then is_Some (user_row k (tables w)) ∧ tables w' = with_flag k false (tables w)
      else tables w' = tables w ∨ tables w' = with_flag k false (tables w)
  | PatchUserQuota k patch => patch_effect k patch ok w w'
  | DeleteEntry path =>
      (tables w' = tables w ∨ delete_effect (admin_finalizer config) path w w') ∧
      (ok = true → delete_effect (admin_finalizer config) path w w' ∨ tables w' = tables w ∧ no_file path (tables w))
  | Info | ListTokens _ | ListUsers _ | GetUser _ | GetUserQuota _ => tables w' = tables w
  end.

Lemma keeps_accounts_wf w w' :
  keeps_accounts w w' → storage_wf (tables w) (seqs w) → storage_wf (tables w') (seqs w').
Proof. intros (Hle & f & Ht & Hf) Hwf. rewrite Ht. eapply storage_wf_mono; [|exact Hle]. by apply storage_wf_users. Qed.

Lemma flag_route k d a r a' :
  storage_wf (tables (app_world a)) (seqs (app_world a)) →
  (am_db (set_disabled k d) ;; mret (AnswerText (lit "Ok"))) a = (r, a') →
  storage_wf (tables (app_world a')) (seqs (app_world a')) ∧
  if is_ok r then is_Some (user_row k (tables (app_world a))) ∧ tables (app_world a') = with_flag k d (tables (app_world a))
  else tables (app_world a') = tables (app_world a) ∨ tables (app_world a') = with_flag k d (tables (app_world a)).
Proof.
  intros Hwf. pose proof (set_disabled_keeps k d (app_world a) (proj1 Hwf)) as Hk. unfold am_db. cbv [mbind am_bind mret am_ret].
  destruct (set_disabled k d (app_world a)) as [r1 w1] eqn:E1. apply set_disabled_effect in E1; [|apply Hwf].
  destruct r1; intros [= <- <-]; (split; [by eapply keeps_accounts_wf|done]).
Qed.

Lemma patch_route k patch a r a' :
  storage_wf (tables (app_world a)) (seqs (app_world a)) →
  patch_user_quota k patch a = (r, a') →
  keeps_accounts (app_world a) (app_world a') ∧ patch_effect k patch (is_ok r) (app_world a) (app_world a').
Proof.
  intros Hwf. unfold patch_user_quota, am_cache, patch_quota. cbv [mbind am_bind mret am_ret am_lift].
  destruct (map_err _ _); [|intros [= <- <-]; split; [by apply keeps_accounts_same|by left]].
  pose proof (patch_quota_keeps k patch (app_world a) (proj1 Hwf)) as Hk.
  destruct (patch_quota_tx k patch (app_world a)) as [r1 w1] eqn:E. apply patch_tx_effect in E; [|apply Hwf].
  destruct r1; by intros [= <- <-].
Qed.

Lemma admin_route_effect route a r a' :
  storage_wf (tables (app_world a)) (seqs (app_world a)) → seq_events (seqs (app_world a)) ≤ I64_MAX →
  (∀ p, route = DeleteEntry p → EntryPath_wf p) →
  admin_route config route a = (r, a') →
  storage_wf (tables (app_world a')) (seqs (app_world a')) ∧ admin_effect route (is_ok r) (app_world a) (app_world a').
Proof.
  intros Hwf Hseq Hp Hr. destruct (shows route) eqn:Es.
  { apply shows_reads in Hr as (Ht & Hq & _ & _); [|done]. rewrite Ht, Hq. split; [done|]. by destruct route. }
  destruct route as [code|code quota| | |path| | |k|k| |k patch]; try done; cbn [admin_route] in Hr.
  - apply create_signup_code_effect in Hr. split; [by eapply code_effect_wf|done].
  - assert (code_effect code quota (is_ok r) (app_world a) (app_world a')) as Hk; [|split; [by eapply code_effect_wf|done]].
    unfold generate_signup_token_with_limits in Hr. cbv [mbind am_bind am_lift] in Hr.
    destruct (map_err _ _); [|injection Hr as <- <-; by split; [|left]]. by apply create_signup_code_effect in Hr.
  - by apply admin_delete_inv in Hr; [|done|apply Hp|].
  - by apply flag_route in Hr.
  - by apply flag_route in Hr.
  - apply patch_route in Hr as [? ?]; [|done]. split; [by eapply keeps_accounts_wf|done].
Qed.

(** (C27) The admin server does what its routes say, and only for the admin.
    Without the password, a request is answered 401 and changes nothing.  With
    it, whatever statements fail and whatever the store answers, the storage
    invariant is kept; routes that show change nothing; disabling or enabling
    an account sets that flag of that account and nothing else; a quota patch
    sets the merged quota of that account, which is valid, and nothing else; a
    new sign-up code, which did not exist, is added with its quota and nothing
    else; and a delete removes exactly that file, with its event and its bytes,
    or nothing.  A request that fails has done all of it or nothing, one that
    succeeds all of it. *)
Theorem admin_requests headers route a r a' :
  storage_wf (tables (app_world a)) (seqs (app_world a)) → seq_events (seqs (app_world a)) ≤ I64_MAX →
  (∀ p, route = DeleteEntry p → EntryPath_wf p) →
  admin_request config headers route a = (r, a') →
  if is_valid_admin_header headers (ac_admin_password config) then
    storage_wf (tables (app_world a')) (seqs (app_world a')) ∧ admin_effect route (is_ok r) (app_world a) (app_world a')
  else a' = a ∧ ∃ e, r = Err e ∧ status e = 401.
Proof.
  intros Hwf Hseq Hp. unfold admin_request. destruct (is_valid_admin_header _ _).
  - by apply admin_route_effect.
  - intros [= <- <-]. split; [done|]. by eexists.
Qed.

End Requests.

(** ** Witness *)

Definition demo_admin : @AdminConfig demo_keys :=
  @mk_AdminConfig demo_keys (lit "secret") false (Some 1) (mk_DefaultQuotasToml None None None None None) (lit "127.0.0.1") None 6287 None None 6286 5000.

(** The admin disables the account of the demonstration storage. *)
Lemma admin_requests_witness :
  ∃ r a', admin_request (H := demo_keys) (H1 := demo_backend) demo_admin [(lit "x-admin-password", Some (lit "secret"))] (DisableUser (H := demo_keys) true) demo_stored_app = (r, a') ∧
    tables (app_world a') = with_flag (H := demo_keys) true true (tables (app_world demo_stored_app)).
Proof.
  eexists _, _. split; [vm_compute; reflexivity|].
  refine (proj2 (proj2 (admin_requests (H := demo_keys) (H1 := demo_json) (H2 := demo_backend) demo_admin
    [(lit "x-admin-password", Some (lit "secret"))] (DisableUser (H := demo_keys) true) demo_stored_app (Ok (AnswerText (lit "Ok"))) _ _ _ _ _))).
  - apply demo_storage_wf.
  - vm_compute. discriminate.
  - intros p E. discriminate E.
  - vm_compute. reflexivity.
Defined.
