(* ===== verification/UserPaging.v ===== *)
(** Paging through the users ([UserRepository::list], which the admin route
    [GET /users] shows): following the cursor of each page visits every listed
    account once, in the order asked for. *)

From stdpp Require Import sorting.
From S2P Require Import Prelude StoragePath HttpError Keys Quota Database Users.

Section Paging.
Context `{PkarrKeysLaws, JsonStrings}.

(** ** The order *)

Definition listed_before (q : UserListQuery) (a b : UserRow) : bool :=
  let pa := user_position (list_sort_by q) a in
  let pb := user_position (list_sort_by q) b in
  if list_reverse q then pair_ltb pb pa else pair_ltb pa pb.

Lemma user_leb_before q a b : user_leb q a b = negb (listed_before q b a).
Proof. unfold user_leb, listed_before. by destruct (list_reverse q). Qed.

Lemma listed_before_irrefl q a : listed_before q a a = false.
Proof. unfold listed_before, pair_ltb. destruct (list_reverse q); lia. Qed.

Lemma listed_before_asym q a b : listed_before q a b = true → listed_before q b a = false.
Proof. unfold listed_before, pair_ltb. destruct (list_reverse q); lia. Qed.

(** Two accounts in the same place have the same id. *)
Lemma listed_before_total q a b : listed_before q a b = false → listed_before q b a = false → u_id a = u_id b.
Proof. unfold listed_before, pair_ltb, user_position. cbn. destruct (list_reverse q); lia. Qed.

Lemma user_leb_total q a b : user_leb q a b = false → user_leb q b a = true.
Proof. unfold user_leb, pair_ltb. destruct (list_reverse q); lia. Qed.

Lemma user_leb_trans q a b c : user_leb q a b = true → user_leb q b c = true → user_leb q a c = true.
Proof. unfold user_leb, pair_ltb. destruct (list_reverse q); lia. Qed.

Lemma same_row tb a b : users_wf tb → a ∈ users tb → b ∈ users tb → u_id a = u_id b → a = b.
Proof. intros (Hid & _) Ha Hb. by apply (NoDup_map_inj u_id (users tb)). Qed.

Lemma elem_of_list_rows q p tb u : u ∈ list_rows q p tb ↔ u ∈ users tb ∧ list_matches q p u = true.
Proof. unfold list_rows. rewrite order_by_perm, list_elem_of_filter. tauto. Qed.

Definition in_list_order (q : UserListQuery) : list UserRow → Prop := StronglySorted (λ a b, listed_before q a b = true).

Lemma list_rows_in_order q p tb : users_wf tb → in_list_order q (list_rows q p tb).
Proof.
  intros Hwf. assert (NoDup (list_rows q p tb)) as HN.
  { unfold list_rows. rewrite order_by_perm. destruct Hwf as (Hid & _). apply NoDup_filter. by eapply NoDup_fmap_1. }
  assert (∀ u, u ∈ list_rows q p tb → u ∈ users tb) as Hin by (intros u; rewrite elem_of_list_rows; tauto).
  revert HN Hin. unfold list_rows. pose proof (order_by_sorted (user_leb q) (filter (λ u, list_matches q p u = true) (users tb))
    (user_leb_total q) (user_leb_trans q)) as HS. revert HS. generalize (order_by (user_leb q) (filter (λ u, list_matches q p u = true) (users tb))).
  intros l HS. induction HS as [|a l HS IH Ha]; intros HN Hin; [constructor|]. apply NoDup_cons in HN as [Hna HN].
  constructor; [apply IH; [done|]; intros u Hu; apply Hin; by right|]. apply Forall_forall. intros b Hb. rewrite Forall_forall in Ha.
  specialize (Ha b Hb). rewrite user_leb_before in Ha. apply negb_true_iff in Ha.
  destruct (listed_before q a b) eqn:E; [done|]. destruct Hna.
  rewrite (same_row tb a b); [done|done|apply Hin; by left|apply Hin; by right|]. by apply (listed_before_total q).
Qed.

(** The page after an account holds what comes after it. *)
Lemma list_rows_after q tb before_ u rest :
  users_wf tb → list_rows q None tb = before_ ++ u :: rest →
  list_rows q (Some (user_position (list_sort_by q) u)) tb = rest.
Proof.
  intros Hwf Hl. pose proof (list_rows_in_order q None tb Hwf) as Hs. rewrite Hl in Hs.
  assert (filter (λ v, listed_before q u v = true) (before_ ++ u :: rest) = rest) as Hrest.
  { rewrite filter_app, filter_cons, listed_before_irrefl, decide_False by done. rewrite (filter_none _ before_), filter_all; [done| |].
    - by apply StronglySorted_app_1_r, StronglySorted_inv in Hs as [_ Hs].
    - apply Forall_forall. intros x Hx Hux. assert (listed_before q x u = true) as Hxu.
      { eapply (StronglySorted_app_1_elem_of (λ a b, listed_before q a b = true)); [exact Hs|done|left]. }
      by rewrite (listed_before_asym _ _ _ Hxu) in Hux. }
  apply (StronglySorted_unique_strong (λ a b, listed_before q a b = true)).
  - intros a b _ _ Hab Hba. by rewrite (listed_before_asym _ _ _ Hab) in Hba.
  - by apply list_rows_in_order.
  - by apply StronglySorted_app_1_r, StronglySorted_inv in Hs as [Hs _].
  - rewrite <-Hrest, <-Hl. unfold list_rows. rewrite !order_by_perm, list_filter_filter.
    assert (filter (λ v, list_matches q (Some (user_position (list_sort_by q) u)) v = true) (users tb)
            = filter (λ v, listed_before q u v = true ∧ list_matches q None v = true) (users tb)) as ->; [|done].
    apply list_filter_iff. intros v. unfold list_matches, listed_before. rewrite andb_true_r, andb_true_iff. tauto.
Qed.

(** ** Pages *)

Definition decoded_as (u : UserRow) (e : UserEntity) : Prop := ∃ k, u_public_key u = PublicKey_z32 k ∧ e = entity_of k u.

Lemma fetch_users rows es : Forall2 decoded_as rows es → fetch_all UserEntity_from_row rows = Ok es.
Proof.
  unfold fetch_all. induction 1 as [|u e rows es (k & Hk & ->) _ IH]; [done|]. cbn [map collect_results].
  rewrite (UserEntity_from_row_key k) by done. cbn [mbind result_bind]. by rewrite IH.
Qed.

Lemma rows_decode tb rows : users_wf tb → (∀ u, u ∈ rows → u ∈ users tb) → ∃ es, Forall2 decoded_as rows es.
Proof.
  intros (_ & _ & Hf) Hin. rewrite Forall_forall in Hf. induction rows as [|u rows IH]; [by exists []|].
  destruct IH as [es Hes]; [intros v Hv; apply Hin; by right|]. destruct (Hf u) as [[k Hk] _]; [apply Hin; by left|].
  exists (entity_of k u :: es). constructor; [by exists k|done].
Qed.

(** The place a cursor stands for. *)
Definition cursor_at (q : UserListQuery) (tb : Tables) (position : option (Z * Z)) : Prop :=
  match list_cursor q with
  | None => position = None
  | Some k => ∃ u, user_row k tb = Some u ∧ position = Some (user_position (list_sort_by q) u)
  end.

Lemma sort_value k u s : in_i64 (u_used_bytes u) → UserListSortBy_value s (entity_of k u) = UserListSortBy_column s u.
Proof.
  destruct s; [done|]. cbn. unfold as_i64, as_u64, in_i64, I64_MIN, I64_MAX. intros. Z.div_mod_to_equations. lia.
Qed.

Lemma list_page q w position es :
  ticks w = [] → users_wf (tables w) → cursor_at q (tables w) position →
  Forall2 decoded_as (list_rows q position (tables w)) es →
  let limit := effective_list_limit (list_limit q) in
  ∃ w', UserRepository_list q w = (Ok (split_list_page (take (Z.to_nat (limit + 1)) es) limit ue_public_key), w') ∧
    tables w' = tables w ∧ ticks w' = [].
Proof.
  intros Hw Hwf Hc Hes limit. unfold UserRepository_list.
  assert (∀ w1, tables w1 = tables w → ticks w1 = [] → ∃ w',
    (us ← select (λ _ tb, fetch_all UserEntity_from_row (take (Z.to_nat (limit + 1)) (list_rows q position tb)));
     mret (split_list_page us limit ue_public_key)) w1
    = (Ok (split_list_page (take (Z.to_nat (limit + 1)) es) limit ue_public_key), w') ∧ tables w' = tables w ∧ ticks w' = []) as Hrest.
  { intros w1 Ht1 Hw1. destruct (select_answers (λ _ tb, fetch_all UserEntity_from_row (take (Z.to_nat (limit + 1)) (list_rows q position tb))) w1 Hw1)
      as (w2 & E2 & Ht2 & Hw2). cbv [mbind db_bind mret db_ret]. rewrite E2, Ht1, (fetch_users _ (take (Z.to_nat (limit + 1)) es)).
    - exists w2. split_and!; [done|congruence|done].
    - by apply Forall2_take. }
  unfold cursor_at in Hc. destruct (list_cursor q) as [k|].
  - destruct Hc as (u & Hu & ->). unfold UserRepository_get.
    destruct (select_answers (λ _ tb, fetch_one UserEntity_from_row (users_by_key k tb)) w Hw) as (w1 & E1 & Ht1 & Hw1).
    assert (fetch_one UserEntity_from_row (users_by_key k (tables w)) = Ok (entity_of k u)) as Hf.
    { rewrite fetch_user_by_key. unfold user_row in Hu. destruct (list_find _ _) as [[i v]|]; [|done]. by injection Hu as ->. }
    rewrite Hf in E1. cbv [mbind db_bind mret db_ret] in *. rewrite E1.
    rewrite sort_value by (destruct Hwf as (_ & _ & Hf'); rewrite Forall_forall in Hf'; apply Hf'; by apply user_row_Some in Hu as [? _]).
    by apply Hrest.
  - subst position. by apply Hrest.
Qed.

(** ** The walk *)

Definition at_cursor (q : UserListQuery) (cursor : option PublicKey) : UserListQuery :=
  mk_UserListQuery (list_state q) (list_sort_by q) (list_reverse q) (list_limit q) cursor.

(** A caller that follows [next_cursor], for at most [n] pages. *)
Fixpoint walk_users (n : nat) (q : UserListQuery) (w : World) : option (list UserEntity) :=
  match n with
  | O => None
  | S n =>
      match UserRepository_list q w with
      | (Ok (items, None), _) => Some items
      | (Ok (items, Some cursor), w) => rest ← walk_users n (at_cursor q (Some cursor)) w; Some (items ++ rest)
      | (Err _, _) => None
      end
  end.

Lemma user_row_of tb u k : users_wf tb → u ∈ users tb → u_public_key u = PublicKey_z32 k → user_row k tb = Some u.
Proof.
  intros (_ & Hpk & _) Hu Hk. destruct (user_row k tb) as [v|] eqn:E; [|by destruct (user_row_None _ _ _ E Hu)].
  apply user_row_Some in E as [Hv Hkv]. f_equal. apply (NoDup_map_inj u_public_key (users tb)); [done..|]. congruence.
Qed.

Lemma walk_suffix n q w position before_ rows es :
  ticks w = [] → users_wf (tables w) → 0 < effective_list_limit (list_limit q) →
  cursor_at q (tables w) position → list_rows q position (tables w) = rows →
  list_rows q None (tables w) = before_ ++ rows → Forall2 decoded_as rows es → (length rows < n)%nat →
  walk_users n q w = Some es.
Proof.
  revert q w position before_ rows es. induction n as [|n IH]; intros q w position before_ rows es Hw Hwf Hlim Hc Hrows Hall Hes Hn; [lia|].
  pose proof (list_page q w position es Hw Hwf Hc) as Hp. rewrite Hrows in Hp. destruct (Hp Hes) as (w1 & E1 & Ht1 & Hw1).
  cbn [walk_users]. rewrite E1. set (limit := effective_list_limit (list_limit q)) in *. unfold split_list_page.
  pose proof (Forall2_length _ _ _ Hes) as Hlen.
  destruct (Z.ltb_spec limit (Z.of_nat (length (take (Z.to_nat (limit + 1)) es)))) as [Hmore|Hend].
  2: { f_equal. rewrite length_take in Hend. apply take_ge. lia. }
  rewrite length_take in Hmore. rewrite take_take, Nat.min_l by lia.
  assert (∃ m, Z.to_nat limit = S m ∧ (S m < length es)%nat) as (m & Hm & Hlt).
  { exists (pred (Z.to_nat limit)). lia. }
  rewrite Hm. destruct (lookup_lt_is_Some_2 es m) as [e He]; [lia|].
  destruct (Forall2_lookup_r _ _ _ _ _ Hes He) as (u & Hu & k & Hk & ->).
  rewrite (take_S_r es m _ He), last_snoc. cbn [fmap option_fmap option_map entity_of ue_public_key].
  assert (u ∈ users (tables w)) as Hin.
  { apply (elem_of_list_rows q position). rewrite Hrows. by eapply list_elem_of_lookup_2. }
  assert (rows = take m rows ++ u :: drop (S m) rows) as Hsplit by by rewrite take_drop_middle.
  assert (list_rows q None (tables w) = (before_ ++ take m rows) ++ u :: drop (S m) rows) as Hall'.
  { rewrite Hall. rewrite Hsplit at 1. by rewrite app_assoc. }
  rewrite (IH (at_cursor q (Some k)) w1 (Some (user_position (list_sort_by q) u)) (before_ ++ take (S m) rows) (drop (S m) rows) (drop (S m) es)).
  - cbn [mbind option_bind]. f_equal. rewrite <-(take_S_r es m _ He). apply take_drop.
  - done.
  - by rewrite Ht1.
  - done.
  - exists u. split; [rewrite Ht1; by apply user_row_of|done].
  - rewrite Ht1. by apply (list_rows_after q (tables w) (before_ ++ take m rows)).
  - rewrite Ht1. change (list_rows (at_cursor q (Some k)) None (tables w)) with (list_rows q None (tables w)).
    rewrite Hall'. rewrite (take_S_r rows m _ Hu). by rewrite <-!app_assoc.
  - by apply Forall2_drop.
  - rewrite length_drop. lia.
Qed.

Definition in_state (q : UserListQuery) (u : UserRow) : bool :=
  match UserListState_disabled (list_state q) with Some d => eqb (u_disabled u) d | None => true end.

(** Following the cursors of [GET /users] ends, and visits every account of
    the asked state exactly once, in the order asked for: with one page more
    than there are accounts always enough, and whatever the page size. *)
Theorem users_walk q w n :
  ticks w = [] → users_wf (tables w) → 0 < effective_list_limit (list_limit q) → list_cursor q = None →
  (length (users (tables w)) < n)%nat →
  ∃ rows es, walk_users n q w = Some es ∧ Forall2 decoded_as rows es ∧ in_list_order q rows ∧
    rows ≡ₚ filter (λ u, in_state q u = true) (users (tables w)).
Proof.
  intros Hw Hwf Hlim Hc Hn. set (rows := list_rows q None (tables w)).
  assert (rows ≡ₚ filter (λ u, in_state q u = true) (users (tables w))) as Hperm.
  { unfold rows, list_rows. rewrite order_by_perm. erewrite list_filter_iff; [reflexivity|]. intros u. unfold list_matches, in_state.
    by rewrite andb_true_r. }
  destruct (rows_decode (tables w) rows Hwf) as [es Hes]; [intros u; unfold rows; rewrite elem_of_list_rows; tauto|].
  exists rows, es. split_and!; [|done|by apply list_rows_in_order|done].
  apply (walk_suffix n q w None [] rows es); try done.
  - unfold cursor_at. by rewrite Hc.
  - rewrite Hperm. eapply Nat.le_lt_trans; [apply length_filter|done].
Qed.

End Paging.

(** ** Witness *)

(** Two accounts, a page of one at a time, newest first. *)
Definition demo_accounts : list UserRow :=
  [mk_UserRow 1 (demo_z32 true) 10 false 5 null_quota_columns; mk_UserRow 2 (demo_z32 false) 10 false 7 null_quota_columns].
Definition demo_paging : World := mk_World (set_users (λ _, demo_accounts) (tables (demo_world []))) (seqs (demo_world [])) 0 None [].
Definition demo_user_query : UserListQuery (H := demo_keys) := mk_UserListQuery (H := demo_keys) ListEnabled SortCreatedAt true (Some 1) None.

Lemma demo_paging_wf : users_wf (H := demo_keys) (tables demo_paging).
Proof.
  split_and!.
  - apply (bool_decide_unpack _). vm_compute. exact I.
  - apply (bool_decide_unpack _). vm_compute. exact I.
  - apply Forall_cons; split; [split; [by exists true|by vm_compute]|].
    apply Forall_cons; split; [split; [by exists false|by vm_compute]|]. constructor.
Qed.

Lemma users_walk_witness :
  ∃ rows es, walk_users (H := demo_keys) 3 demo_user_query demo_paging = Some es ∧
    Forall2 (decoded_as (H := demo_keys)) rows es ∧ in_list_order demo_user_query rows.
Proof.
  destruct (users_walk (H := demo_keys) demo_user_query demo_paging 3) as (rows & es & Hw & Hd & Ho & _).
  - reflexivity.
  - exact demo_paging_wf.
  - vm_compute. reflexivity.
  - reflexivity.
  - vm_compute. lia.
  - exists rows, es. split_and!; [exact Hw|exact Hd|exact Ho].
Defined.
